(* ===== verification/_CoqProject ===== *)
-Q . S2P
Prelude.v
Bytes.v
Text.v
CoordRecord.v
Errors.v
CoordLease.v
CoordSuccession.v
Partitioner.v
Accumulator.v
Assignor.v
Sticky.v
StickyProofs.v
StickyOwners.v
StickyGeneral.v
StickyTheorems.v
GroupAssign.v
FetchSession.v
FetchBuffer.v
FetchDecode.v
CoreFetch.v
ConsumerErrors.v
OffsetWire.v
Commit.v
AsyncCommit.v
Subscription.v
ConsumerProtocol.v
Async.v
GroupIo.v
PollFetch.v
GroupNet.v
GroupHeartbeat.v
Poll.v
PollProofs.v
PollTheorems.v
Queries.v
QueryTheorems.v
Share.v
ShareTheorems.v
ConnWire.v
Connection.v
ConnProofs.v
ConnTheorems.v
Pool.v
PoolTheorems.v
AdminRetry.v
AdminLeaders.v
AdminGroups.v
AdminTheorems.v
AdminGroupTheorems.v
CoordBroker.v
CoordScan.v
CoordFencing.v
GroupCoordinator.v
ConsumerGroup.v
GroupLogic.v
GroupQuiet.v
GroupInv.v
GroupRun.v
ConsumerGroupRun.v
GroupReturns.v
GroupTheorems.v
ConsumerGroupTheorems.v
TxnRetry.v
TxnState.v
Sender.v
SenderCycle.v
SenderDrive.v
SenderProofs.v
SenderLoop.v
SenderSeq.v
SenderSeqLoop.v
SenderTheorems.v
SenderTimeout.v
TxnProducer.v
ProducerSend.v
ProducerSendTheorems.v
ProducerSendLive.v
TxnProofs.v
