(* ===== verification/Prelude.v ===== *)
(** * Verification of the krabka Kafka client

    The repository is a Kafka client in Rust, one crate per role:
    [client-core] (connections, pools, security, requests), [client-producer],
    [client-consumer], [client-admin] and [client-coordination]. This library
    models the parts of it that decide something on their own, as functions
    and step relations, and proves what a user of the client relies on.

    ** How the parts work together

    A [Producer] appends a record to the accumulator of the partition that the
    partitioner picks. A background task, the sender, drains sealed batches,
    gives each a sequence number, sends it to the leader of its partition, and
    decides from the answer whether the batch is acknowledged, sent again,
    split or failed. The transactional API of the producer changes the state
    that the sender reads as a barrier before each send, and the sender writes
    an error slot that every transactional call reads first. A consumer that
    leads its group runs an assignor over the members' subscriptions; a member
    keeps an incremental fetch session with each broker, buffers what it
    fetched, and [poll] takes records out of the buffer as far as assignment,
    pauses and positions allow. The coordination crate elects a leader of a
    role: members append records to a topic, fold the log into a role state,
    and a lease clock tells each of them when it may act.

    ** Files

    - [Prelude], [Bytes], [Text]: results and their monad, integers at their
      width ([i16] to [u64] with the wrap-around and saturation the code uses),
      byte and text forms, tactics and hint databases, lists.
    - [Errors]: the error enums ([error.rs] of the crates).
    - [CoordRecord] ([client-coordination/src/record.rs]), [CoordLease]
      ([lease.rs]), [CoordSuccession] ([succession.rs]).
    - [Partitioner] ([client-producer/src/partitioner.rs]), [Accumulator]
      ([accumulator.rs]).
    - [TxnRetry] ([error_class.rs], [txn_retry.rs]), [TxnState] (states, error
      slot and prepared identity of [transactional.rs]), [TxnProducer] (the
      transactional API of [producer.rs] and the guards of [transactional.rs]),
      [TxnProofs].
    - [Sender], [SenderCycle], [SenderDrive] ([sender.rs]): the state and the
      small operations, the drain and completion cycles, and the loop [drive]
      as the step relation [drive_step]; [SenderProofs] and [SenderLoop]
      (accounting of channels, memory, slots and the in-flight counter),
      [SenderSeq] and [SenderSeqLoop] (sequence numbers), [SenderTimeout]
      (delivery timeout), [SenderTheorems] (what follows for [drive]).
    - [Assignor] (names, order of members, range and round robin of
      [client-consumer/src/assignor/]), [Sticky] (the sticky algorithms),
      [StickyProofs], [StickyOwners], [StickyGeneral], [StickyTheorems],
      [GroupAssign] (user data and the dispatcher of [assignor/mod.rs]).
    - [FetchSession] ([fetch_session.rs]), [FetchBuffer] ([position.rs],
      [fetch_buffer.rs], pauses of [partition_state.rs]).
    - [ConsumerErrors], [OffsetWire], [Commit], [AsyncCommit] (the consumer's
      error type, [offset_wire.rs], and [commit.rs]: the requests of offset
      commits, what their answers decide, the commit positions and the queue of
      asynchronous commits), [Subscription] ([subscription.rs], [assignment.rs]),
      [ConsumerProtocol] (the payloads of [builder.rs]).
    - The membership of a group: [GroupIo] (the state of the coordinator task,
      its requests, and computations that await them), [GroupNet],
      [GroupCoordinator] ([coordinator.rs]), [GroupHeartbeat], [ConsumerGroup]
      ([consumer_group.rs]); [GroupLogic] (the environment and rules for every
      visible state of a run), [GroupQuiet], [GroupInv], [GroupRun],
      [ConsumerGroupRun] (the invariant), [GroupReturns] (requests return),
      [GroupTheorems], [ConsumerGroupTheorems].
    - The polls of a consumer: [FetchDecode] (the records of a fetched row),
      [Async] (computations that await, and rules for every state that other
      tasks see), [PollFetch] (the parts of [poll.rs], [validate.rs] and
      [seek.rs] without an await), [Poll] ([poll.rs] with
      [rebalance_listener.rs], the interval commit of [commit.rs], the seeks
      and positions), [PollProofs], [PollTheorems]; [Queries] and
      [QueryTheorems] ([queries.rs]).
    - Share groups: [Share] ([share/poll.rs], [share/coordinator.rs],
      [share/types.rs], the close of [share/consumer.rs]), [ShareTheorems].
    - The coordination transport: [CoreFetch] ([client-core/src/fetch.rs]),
      [CoordBroker] ([broker.rs], [transport.rs]), [CoordScan] (what a member
      reads), [CoordFencing] (epochs and leases across members).
    - Connections: [ConnWire] (headers, varints and version negotiation of
      [connection.rs], [framing.rs], [request.rs] and [version.rs]),
      [Connection] (callers, I/O tasks and re-authentication of
      [connection.rs] and [reauth.rs] as a transition system), [ConnProofs],
      [ConnTheorems]; the pool of [pool.rs]: [Pool], [PoolTheorems].
    - The admin client: [AdminRetry] (deadlines, errors and the loop of
      [retry.rs]), [AdminLeaders] ([partition_leaders.rs] and the coordinator
      and controller calls of [retry.rs]), [AdminGroups]
      ([group_coordinators.rs]), [AdminTheorems], [AdminGroupTheorems].
    - The sends of a producer: [ProducerSend] ([enqueue_inner] of
      [producer.rs], [metadata_wait.rs], [buffer_pool.rs], the checks of
      [record.rs], the expiry of [metadata_age.rs]), [ProducerSendTheorems],
      [ProducerSendLive].
    ** How code becomes definitions

    A struct is a [Record], an enum an [Inductive] with the same constructors,
    a function of the source a definition with its name. A method on
    [&mut self] returns the new state; shared state behind locks and atomics is
    one record, and an operation that holds the lock is one function on it. A
    [Result] is [result]; the errors are the source's. A [HashMap] is a [gmap]:
    where the code sorts what it takes out, the theorems hold for every order;
    where it does not, the order is an argument ([build_from] of
    [CoordSuccession], class [HashOrder] of [Sender]). Integers are [Z] with
    the source's casts and wrapping or saturating operations written out.
    Instants and durations are [Z] in nanoseconds, except in [CoordLease],
    where the code computes with binary64 seconds.

    Code of other packages is a parameter with named laws: [TimeOps] and
    [TimeLaws] ([krabka-units]), [ProtocolApi] ([krabka-protocol]'s [Uuid] and
    batch encoder), the topic id type of [FetchSession], the random source of
    the partitioner (an argument of each draw), the random factor of a backoff
    (a field of [Env]). The brokers are: the broker relation of [FetchSession]
    (KIP-227), the [Env] and the answers of [drive_step], and the class
    [TxnWorld], whose operations may answer anything.

    ** What the theorems show

    - Transactions: the state in which [end_transaction] leaves the producer
      tells the outcome, as long as coordinator lookups are allowed (a run
      shows a refused lookup after a commit that was carried out); a fatal error
      stops every operation; a guard of an earlier transaction changes nothing
      in a later one; every operation returns by its retry deadline and the few
      awaits under way then, which the theorem counts; the packed error slot
      refines its two-field contract.
    - Sender: channels and buffer memory are conserved in every reachable
      state; a partition has at most one batch outstanding; a stopped loop has
      answered everything; the sequences of an idempotent producer have no gap
      in the runs of [regular_run]; an overdue record is answered by the next
      drain; the verdict on every error code, against a table of raw codes. A
      run shows what [regular_run] leaves out: a split after an epoch bump of an
      earlier cycle leaves a gap.
    - Accumulator and partitioner: no record or reservation is lost or doubled;
      when the sticky partition changes; the partition of a keyed record.
    - Assignors: every partition goes to exactly one subscriber (all
      assignors), the exact shares of range and round robin, balance and
      stickiness of the sticky assignor, and that the cooperative one never
      moves a partition from a live owner in one round.
    - Consumer: a poll returns exactly the log between the old and the new
      position; the broker's view of a fetch session is what the consumer
      wants.
    - Coordination: record codecs accept exactly their own layout; a role state
      depends neither on the order of records nor on compaction; a live lease
      is not challenged; standbys challenge in order.
    - Commits and subscriptions: what each answer to a commit decides; a commit
      that was sent is not undone by an older one; an asynchronous commit
      covers every call before it; the kinds of subscription exclude each
      other.
    - Group membership: in every state that [poll] or a commit can see while
      the coordinator task runs, an assigned partition has a position and the
      ownership ids are those of the assignment, if the application
      unsubscribes only between two rounds of the task; requests return within
      their retry timeouts and those of the discoveries that they start; the
      heartbeats of the KIP-848 protocol, which carry only changes, keep the
      coordinator informed outside of listener callbacks. Runs show where the task loses
      its way: a member forgotten during a callback does not join again or
      publishes partitions it no longer has, a refused member id is sent again
      and again, an unsubscribe during a rejoin publishes a partition without a
      position, and an assignment whose reconciliation fails is dropped.
    - Polls and queries: decoding keeps exactly the records that are visible at
      the isolation level; in any run in which no rebalance moves a position
      between the check of an answer and its use, a [poll] returns runs of the
      logs between two positions; the fetches that it sends
      are exactly those it may send; a search of offsets ends within its
      timeout and its answer is what the leaders know. Runs show two losses: after a
      truncation the position keeps the lost epoch, so that it is never read
      again, and a partition that comes back during a reconnect skips records.
    - Share groups: while the partitions stay assigned, the acknowledgements of
      a request are exactly the ranges that are due; the share session stays in
      step through answers with and without an error, unless a call fails
      although the broker counted its request. After that the consumer gets no
      record any more; acknowledgements of a partition that left are dropped,
      and a poll returns records that it did not acquire.
    - The coordination transport: a scan has exactly the committed records of
      its role up to where it stops, the last stable offset unless the leader
      answers without a batch; what is written is read back, and at every await of every
      operation the leases in the log follow the epochs of their roles. With
      transaction version 2 the epoch that [describe] reports outruns the token
      that the holder keeps.
    - Connections and pool: in every interleaving of callers, I/O tasks, broker,
      timeouts and dropped futures a request gets the answer to its own frame;
      a re-authentication has the queue to itself; the end of the tasks wakes
      the callers. A dropped re-authentication leaves an answer that the next
      one takes, and a request that comes between the two tasks' ends waits for
      its timeout. Negotiation takes the highest
      common version of an API that the broker lists. The pool dials only after
      the backoff, each address of its list once a call, and a request without a target goes to the least loaded broker.
    - The admin client: the clock is part of the state of a call, timers may be
      late by a slack, and requests may never be answered; a routed call ends by
      its deadline and the slack, with one result for exactly what was asked, the final answer of some round or a timeout
      when nothing was left to try; a batched group call refines a machine in
      which every group moves on its own. As many rounds as the milliseconds of
      the timeout are enough, because each backoff takes at least one.
    - The sends: whatever other tasks do at its awaits, a send appends its
      record exactly once, with a result, or not at all, with an error, and
      keeps the count of the buffer memory; its metadata wait ends within
      [max_block] and three times the time by which a task wakes late, with one round of fuel per millisecond; and a send that
      nobody disturbs returns within two rounds, while under contention the
      loop of the code has no bound and the rounds of the model are a fuel.
    ** Fuel and bounds

    The balance pass of the sticky assignor runs with [max_iters + 2] steps of
    fuel, and [sticky_general_balance] proves that the loop ends on its own
    before that. The retry loops of [TxnProducer] take fuel, [None] being a
    loop that still retries; [txn_operations_return] gives the fuel that a
    deadline and an advancing clock need. The loops of the group membership take
    [fuel] as well and are [Stuck] without it; [enough] of [GroupReturns] is the
    number of rounds that the timeouts and the shortest pause allow, and
    [coordinator_requests_return] proves that no request is stuck with it. The
    loops of [Poll] and [Queries] are [Spent] without fuel:
    [search_offsets_exact] gives the rounds that a search needs, and a [poll]
    needs one for each listener call and each fetch that completes meanwhile.
    Everything else is structural.
    [drive] has no fuel: it is a relation, since the task runs until it is
    stopped. A drain and a completion cycle are one step of it each.

    ** Not modelled

    Sockets, name resolution, TLS, SASL mechanisms, key stores, telemetry and
    the validation of options of [client-core], the
    single operations of [client-admin] (one request and its answer each, on
    top of the routed calls), the
    synchronous commit calls, the timer of the producer's periodic metadata
    refresh, and the construction and the close of clients.
    Test-only models and test support are left out. *)

From stdpp Require Export base decidable option list gmap strings numbers sorting.

(** ** Scope and arithmetic conventions

    Every machine integer of the source is a [Z] kept in the range of its
    width; the operations below write out what the Rust operation does at the
    ends of that range. *)

Declare Scope krabka_scope.
Delimit Scope krabka_scope with krabka.
Global Open Scope Z_scope.
Global Open Scope krabka_scope.

Definition i16_min : Z := -32768.
Definition i16_max : Z := 32767.
Definition i32_min : Z := -2147483648.
Definition i32_max : Z := 2147483647.
Definition i64_min : Z := -9223372036854775808.
Definition i64_max : Z := 9223372036854775807.
Definition u32_max : Z := 4294967295.
Definition u64_max : Z := 18446744073709551615.
Definition usize_max : Z := 18446744073709551615.

Definition is_i16 (z : Z) : Prop := i16_min ≤ z ≤ i16_max.
Definition is_i32 (z : Z) : Prop := i32_min ≤ z ≤ i32_max.
Definition is_i64 (z : Z) : Prop := i64_min ≤ z ≤ i64_max.
Definition is_u32 (z : Z) : Prop := 0 ≤ z ≤ u32_max.
Definition is_u64 (z : Z) : Prop := 0 ≤ z ≤ u64_max.
Definition is_usize (z : Z) : Prop := 0 ≤ z ≤ usize_max.

#[global] Instance is_i16_dec z : Decision (is_i16 z).
Proof. unfold is_i16; apply _. Defined.
#[global] Instance is_i32_dec z : Decision (is_i32 z).
Proof. unfold is_i32; apply _. Defined.
#[global] Instance is_i64_dec z : Decision (is_i64 z).
Proof. unfold is_i64; apply _. Defined.
#[global] Instance is_u32_dec z : Decision (is_u32 z).
Proof. unfold is_u32; apply _. Defined.
#[global] Instance is_usize_dec z : Decision (is_usize z).
Proof. unfold is_usize; apply _. Defined.

(** [ints] unfolds every range and bound and closes the goal with [lia]. *)
Ltac unfold_ints :=
  unfold is_i16, is_i32, is_i64, is_u32, is_u64, is_usize,
    i16_min, i16_max, i32_min, i32_max, i64_min, i64_max, u32_max, u64_max,
    usize_max in *.
Ltac ints := unfold_ints; lia.

(** [T::try_from] on an integer that may not fit. *)
Definition i16_try_from (z : Z) : option Z := if decide (is_i16 z) then Some z else None.
Definition i32_try_from (z : Z) : option Z := if decide (is_i32 z) then Some z else None.
Definition i64_try_from (z : Z) : option Z := if decide (is_i64 z) then Some z else None.
Definition u32_try_from (z : Z) : option Z := if decide (is_u32 z) then Some z else None.
Definition usize_try_from (z : Z) : option Z := if decide (is_usize z) then Some z else None.

(** Saturating arithmetic clamps the exact result to the range of the type. *)
Definition sat_i64 (z : Z) : Z := Z.max i64_min (Z.min i64_max z).
Definition i64_saturating_add (a b : Z) : Z := sat_i64 (a + b).
Definition i64_saturating_sub (a b : Z) : Z := sat_i64 (a - b).
Definition i64_saturating_mul (a b : Z) : Z := sat_i64 (a * b).
Definition u32_saturating_add (a b : Z) : Z := Z.min u32_max (a + b).
Definition u32_saturating_sub (a b : Z) : Z := Z.max 0 (a - b).
Definition usize_saturating_add (a b : Z) : Z := Z.min usize_max (a + b).
Definition usize_saturating_mul (a b : Z) : Z := Z.min usize_max (a * b).

(** Wrapping arithmetic on [u32], and the reinterpretation [cast_signed]. *)
Definition wrap_u32 (z : Z) : Z := z mod 2 ^ 32.
Definition u32_wrapping_mul (a b : Z) : Z := wrap_u32 (a * b).
Definition cast_signed (w z : Z) : Z := if z <? 2 ^ (w - 1) then z else z - 2 ^ w.

(** The automation of the development: facts on ranges, results and sorting
    that close the side conditions of most proofs. *)
Create HintDb krabka.

Lemma sat_i64_range z : is_i64 (sat_i64 z).
Proof. unfold sat_i64; ints. Qed.

Lemma sat_i64_id z : is_i64 z → sat_i64 z = z.
Proof. unfold sat_i64; ints. Qed.

Lemma sat_i64_mono a b : a ≤ b → sat_i64 a ≤ sat_i64 b.
Proof. unfold sat_i64; ints. Qed.

Lemma cast_signed_range w z :
  0 < w → 0 ≤ z < 2 ^ w → - 2 ^ (w - 1) ≤ cast_signed w z < 2 ^ (w - 1).
Proof.
  intros Hw Hz. unfold cast_signed.
  assert (2 ^ w = 2 * 2 ^ (w - 1)) as Hp
    by (rewrite <- Z.pow_succ_r by lia; f_equal; lia).
  destruct (Z.ltb_spec z (2 ^ (w - 1))); lia.
Qed.

(** Reading back the two's complement of a value in range gives the value. *)
Lemma cast_signed_wrap w z :
  0 < w → - 2 ^ (w - 1) ≤ z < 2 ^ (w - 1) → cast_signed w (z mod 2 ^ w) = z.
Proof.
  intros Hw Hz. unfold cast_signed.
  assert (2 ^ w = 2 * 2 ^ (w - 1)) as Hp
    by (rewrite <- Z.pow_succ_r by lia; f_equal; lia).
  destruct (decide (0 ≤ z)).
  - rewrite Z.mod_small by lia. destruct (Z.ltb_spec z (2 ^ (w - 1))); lia.
  - rewrite <- (Z.mod_add z 1), Z.mod_small by lia.
    destruct (Z.ltb_spec (z + 1 * 2 ^ w) (2 ^ (w - 1))); lia.
Qed.

Lemma u32_wrapping_mul_range a b : 0 ≤ u32_wrapping_mul a b < 2 ^ 32.
Proof. unfold u32_wrapping_mul, wrap_u32. apply Z.mod_pos_bound. lia. Qed.

(** ** Results

    [Result<A, E>] of the source, with the bind of the [?] operator. *)

Inductive result (E A : Type) : Type :=
| Ok (a : A)
| Err (e : E).
Arguments Ok {E A} a.
Arguments Err {E A} e.

#[global] Instance result_ret {E} : MRet (result E) := λ A a, Ok a.
#[global] Instance result_bind {E} : MBind (result E) := λ A B f r,
  match r with Ok a => f a | Err e => Err e end.
#[global] Instance result_fmap {E} : FMap (result E) := λ A B f r,
  match r with Ok a => Ok (f a) | Err e => Err e end.

Definition map_err {E F A} (f : E → F) (r : result E A) : result F A :=
  match r with Ok a => Ok a | Err e => Err (f e) end.
Definition ok_or {E A} (e : E) (o : option A) : result E A :=
  match o with Some a => Ok a | None => Err e end.
Definition ok {E A} (r : result E A) : option A :=
  match r with Ok a => Some a | Err _ => None end.

Lemma bind_ok {E A B} (r : result E A) (f : A → result E B) b :
  r ≫= f = Ok b ↔ ∃ a, r = Ok a ∧ f a = Ok b.
Proof. destruct r; naive_solver. Qed.

Lemma bind_err {E A B} (r : result E A) (f : A → result E B) e :
  r ≫= f = Err e ↔ r = Err e ∨ ∃ a, r = Ok a ∧ f a = Err e.
Proof. destruct r; naive_solver. Qed.

Lemma fmap_ok {E A B} (f : A → B) (r : result E A) b :
  f <$> r = Ok b ↔ ∃ a, r = Ok a ∧ b = f a.
Proof. destruct r; simpl; unfold fmap; simpl; split; naive_solver. Qed.

Lemma ok_or_ok {E A} (e : E) (o : option A) a : ok_or e o = Ok a ↔ o = Some a.
Proof. destruct o; naive_solver. Qed.

(** [result_inv] destructs hypotheses that say a chain of [?]s succeeded. *)
Ltac result_inv :=
  repeat match goal with
  | H : mbind _ _ = Ok _ |- _ => apply bind_ok in H as (? & ? & H); cbv beta in H
  | H : (let '(_, _) := ?x in _) = Ok _ |- _ => destruct x
  | H : ok_or _ _ = Ok _ |- _ => apply ok_or_ok in H
  | H : Ok _ = Ok _ |- _ => injection H as H
  | H : Err _ = Ok _ |- _ => discriminate H
  | H : Ok _ = Err _ |- _ => discriminate H
  end; simplify_eq.

(** ** Concatenation and filters *)

Lemma elem_of_concat {A} (x : A) (ls : list (list A)) :
  x ∈ concat ls ↔ ∃ l, l ∈ ls ∧ x ∈ l.
Proof.
  induction ls as [|l ls IH]; simpl.
  - rewrite elem_of_nil. split; [done|]. by intros (l & ?%elem_of_nil & _).
  - rewrite elem_of_app, IH. setoid_rewrite elem_of_cons. naive_solver.
Qed.

Lemma filter_none {A} (P : A → Prop) `{!∀ x, Decision (P x)} (l : list A) :
  (∀ x, x ∈ l → ¬ P x) → filter P l = [].
Proof.
  induction l as [|x l IH]; intros Hx; [done|].
  rewrite filter_cons_False by (apply Hx; left). apply IH. intros y Hy. apply Hx. by right.
Qed.

Lemma filter_all {A} (P : A → Prop) `{!∀ x, Decision (P x)} (l : list A) :
  (∀ x, x ∈ l → P x) → filter P l = l.
Proof.
  induction l as [|x l IH]; intros Hx; [done|].
  rewrite filter_cons_True by (apply Hx; left). f_equal. apply IH. intros y Hy. apply Hx. by right.
Qed.

Lemma filter_ext_in {A} (P Q : A → Prop) `{!∀ x, Decision (P x), !∀ x, Decision (Q x)}
    (l : list A) :
  (∀ x, x ∈ l → P x ↔ Q x) → filter P l = filter Q l.
Proof.
  induction l as [|x l IH]; intros Hx; [done|]. rewrite !filter_cons.
  rewrite IH by (intros y Hy; apply Hx; by right).
  assert (x ∈ x :: l) as Hin by left. specialize (Hx x Hin).
  repeat case_decide; naive_solver.
Qed.

(** ** Sorting

    [slice::sort_by] is a stable sort. [sort_by] is insertion sort from the
    right, which is stable too; [sort_by_key]-style calls use the relation on
    the keys. *)

Section sorting.
Context {A : Type} (R : relation A) `{!RelDecision R}.

Fixpoint insert_by (x : A) (l : list A) : list A :=
  match l with
  | [] => [x]
  | y :: t => if decide (R x y) then x :: y :: t else y :: insert_by x t
  end.

Definition sort_by (l : list A) : list A := foldr insert_by [] l.

Lemma insert_by_perm x l : insert_by x l ≡ₚ x :: l.
Proof.
  induction l as [|y t IH]; simpl; [done|].
  case_decide; [done|]. rewrite IH. constructor.
Qed.

Lemma sort_by_perm l : sort_by l ≡ₚ l.
Proof.
  induction l as [|x l IH]; simpl; [done|]. by rewrite insert_by_perm, IH.
Qed.

Lemma elem_of_sort_by x l : x ∈ sort_by l ↔ x ∈ l.
Proof. by rewrite sort_by_perm. Qed.

Lemma length_sort_by l : length (sort_by l) = length l.
Proof. by rewrite sort_by_perm. Qed.

Lemma insert_by_sorted `{!Total R, !Transitive R} x l :
  StronglySorted R l → StronglySorted R (insert_by x l).
Proof.
  induction 1 as [|y t Ht IH Hy]; simpl; [by repeat constructor|].
  case_decide as Hxy.
  - repeat constructor; [done|done|done|].
    eapply Forall_impl; [exact Hy|]. intros z Hz. by transitivity y.
  - constructor; [done|]. rewrite insert_by_perm. constructor; [|done].
    by destruct (total R x y).
Qed.

Lemma sort_by_sorted `{!Total R, !Transitive R} l : StronglySorted R (sort_by l).
Proof. induction l; simpl; [constructor|]. by apply insert_by_sorted. Qed.

(** Two arrangements of the same elements that are sorted the same way are
    the same list, when distinct elements are never equivalent. *)
Lemma sorted_perm_eq l1 l2 :
  (∀ x y, x ∈ l1 → y ∈ l1 → R x y → R y x → x = y) →
  StronglySorted R l1 → StronglySorted R l2 → l1 ≡ₚ l2 → l1 = l2.
Proof.
  intros Hanti H1. revert l2. induction H1 as [|x l1 H1 IH Hx]; intros l2 H2 Hp.
  { by apply Permutation_nil_l in Hp. }
  destruct H2 as [|y l2 H2 Hy]; [by apply Permutation_nil_r in Hp|].
  assert (x = y) as ->.
  { assert (x ∈ y :: l2) as [->|Hxl]%elem_of_cons by (rewrite <- Hp; left); [done|].
    assert (y ∈ x :: l1) as [->|Hyl]%elem_of_cons by (rewrite Hp; left); [done|].
    rewrite Forall_forall in Hx, Hy.
    apply Hanti; [left|by right|by apply Hx|by apply Hy]. }
  f_equal. apply IH; [|done|by eapply Permutation_cons_inv].
  intros a b Ha Hb. apply Hanti; by right.
Qed.

Lemma sort_by_perm_eq `{!Total R, !Transitive R} l1 l2 :
  (∀ x y, x ∈ l1 → y ∈ l1 → R x y → R y x → x = y) →
  l1 ≡ₚ l2 → sort_by l1 = sort_by l2.
Proof.
  intros Hanti Hp. apply sorted_perm_eq; auto using sort_by_sorted.
  - intros x y. rewrite !elem_of_sort_by. apply Hanti.
  - by rewrite !sort_by_perm.
Qed.

Lemma sort_by_sorted_id l : StronglySorted R l → sort_by l = l.
Proof.
  induction 1 as [|x l Hs IH Hx]; [done|]. simpl. rewrite IH.
  destruct l as [|y l]; [done|]. simpl. apply Forall_cons in Hx as [Hxy _]. by rewrite decide_True.
Qed.
End sorting.

Lemma filter_sorted {A} (R : relation A) (P : A → Prop) `{!∀ x, Decision (P x)} l :
  StronglySorted R l → StronglySorted R (filter P l).
Proof.
  induction 1 as [|x l Hl IH Hx]; [constructor|].
  rewrite filter_cons. case_decide; [|done]. constructor; [done|].
  apply Forall_forall. intros y [_ Hy]%list_elem_of_filter.
  rewrite Forall_forall in Hx. by apply Hx.
Qed.

#[export] Hint Resolve sat_i64_range sat_i64_id sat_i64_mono u32_wrapping_mul_range
  sort_by_perm sort_by_sorted : krabka.
#[export] Hint Rewrite @elem_of_sort_by @length_sort_by : krabka.
#[export] Hint Extern 1 (is_i64 _) => ints : krabka.
#[export] Hint Extern 1 (is_i32 _) => ints : krabka.

(** ** Byte order of strings

    A Rust [str] is a [string] of its UTF-8 bytes, and [Ord for str] compares
    bytes from the left. *)

Definition str_le (s t : string) : Prop := String.leb s t = true.

#[global] Instance str_le_dec : RelDecision str_le.
Proof. intros s t. unfold str_le. apply _. Defined.

Lemma ascii_compare_trans a b c :
  Ascii.compare a b = Lt → Ascii.compare b c = Lt → Ascii.compare a c = Lt.
Proof. unfold Ascii.compare. rewrite !N.compare_lt_iff. lia. Qed.

Lemma ascii_compare_eq a b : Ascii.compare a b = Eq ↔ a = b.
Proof.
  unfold Ascii.compare. rewrite N.compare_eq_iff. split; [|by intros ->].
  intros H. rewrite <- (Ascii.ascii_N_embedding a), <- (Ascii.ascii_N_embedding b).
  by rewrite H.
Qed.

Lemma string_compare_trans s t u :
  String.compare s t = Lt → String.compare t u = Lt → String.compare s u = Lt.
Proof.
  revert t u. induction s as [|a s IH]; intros [|b t] [|c u]; try done.
  simpl. destruct (Ascii.compare a b) eqn:Hab, (Ascii.compare b c) eqn:Hbc; try done;
    intros H1 H2;
    repeat match goal with
    | H : Ascii.compare _ _ = Eq |- _ => apply ascii_compare_eq in H as ->
    end.
  - rewrite (proj2 (ascii_compare_eq c c)); eauto.
  - by rewrite Hbc.
  - by rewrite Hab.
  - by rewrite (ascii_compare_trans a b c).
Qed.

#[global] Instance str_le_total : Total str_le.
Proof. intros s t. apply String.leb_total. Qed.

#[global] Instance str_le_antisymm : AntiSymm (=) str_le.
Proof. intros s t. apply String.leb_antisym. Qed.

#[global] Instance str_le_trans : Transitive str_le.
Proof.
  intros s t u. unfold str_le, String.leb.
  destruct (String.compare s t) eqn:Hst, (String.compare t u) eqn:Htu; try done;
    repeat match goal with
    | H : String.compare _ _ = Eq |- _ => apply String.compare_eq_iff in H as ->
    end; rewrite ?Hst, ?Htu; try done.
  - intros _ _. by destruct (String.leb_total u u).
  - by erewrite string_compare_trans by eassumption.
Qed.

#[global] Instance str_le_refl : Reflexive str_le.
Proof. intros s. by destruct (total str_le s s). Qed.

(** A topic partition [(String, i32)], compared as a Rust tuple: topic first. *)
Notation topic_partition := (string * Z)%type.

Definition tp_le (a b : topic_partition) : Prop :=
  if decide (a.1 = b.1) then a.2 ≤ b.2 else str_le a.1 b.1.

#[global] Instance tp_le_dec : RelDecision tp_le.
Proof. intros a b. unfold tp_le. case_decide; apply _. Defined.

#[global] Instance tp_le_total : Total tp_le.
Proof.
  intros [s i] [t j]. unfold tp_le; simpl. repeat case_decide; try congruence.
  - lia.
  - apply (total str_le).
Qed.

#[global] Instance tp_le_trans : Transitive tp_le.
Proof.
  intros [s i] [t j] [u k]. unfold tp_le; simpl.
  repeat case_decide; subst; try congruence; try lia; try done.
  - intros H1 H2. exfalso. apply H. by apply (anti_symm str_le).
  - by transitivity t.
Qed.

#[global] Instance tp_le_antisymm : AntiSymm (=) tp_le.
Proof.
  intros [s i] [t j]. unfold tp_le; simpl. repeat case_decide; subst; try congruence.
  - intros; f_equal; lia.
  - intros H1 H2. exfalso. apply H. by apply (anti_symm str_le).
Qed.
