(* ===== verification/Bytes.v ===== *)
(** * Byte buffers

    What the components use of [bytes::BufMut], [bytes::Buf], the
    [from_be_bytes] family, [slice::split_at_checked] and [str::from_utf8]:
    big-endian integers of fixed width, subslices, and the UTF-8 validity test.
    A buffer is a list of bytes; the layouts reuse the little-endian lists of
    coqutil, reversed. *)

From coqutil Require Import Byte Word.LittleEndianList.
From S2P Require Import Prelude.

Notation bytes := (list Byte.byte).

(** ** Big-endian integers *)

Definition put_be (n : nat) (z : Z) : bytes := reverse (le_split n z).
Definition get_be (l : bytes) : Z := le_combine (reverse l).
Definition get_be_signed (l : bytes) : Z :=
  cast_signed (8 * Z.of_nat (length l)) (get_be l).

Definition put_i16 (z : Z) : bytes := put_be 2 z.
Definition put_i32 (z : Z) : bytes := put_be 4 z.
Definition put_i64 (z : Z) : bytes := put_be 8 z.

Arguments put_be : simpl never.
Arguments put_i16 : simpl never.
Arguments put_i32 : simpl never.
Arguments put_i64 : simpl never.
Arguments get_be_signed : simpl never.

Lemma length_put_be n z : length (put_be n z) = n.
Proof. unfold put_be. by rewrite length_reverse, length_le_split. Qed.

Lemma get_put_be n z : get_be (put_be n z) = z mod 2 ^ (8 * Z.of_nat n).
Proof.
  unfold get_be, put_be. rewrite reverse_involutive, le_combine_split.
  f_equal; f_equal; lia.
Qed.

Lemma put_get_be l : put_be (length l) (get_be l) = l.
Proof.
  unfold put_be, get_be. rewrite <- length_reverse, split_le_combine.
  apply reverse_involutive.
Qed.

Lemma get_be_range l : 0 ≤ get_be l < 2 ^ (8 * Z.of_nat (length l)).
Proof.
  unfold get_be. rewrite <- (length_reverse l). apply le_combine_bound.
Qed.

Lemma get_put_be_signed n z :
  (0 < n)%nat →
  - 2 ^ (8 * Z.of_nat n - 1) ≤ z < 2 ^ (8 * Z.of_nat n - 1) →
  get_be_signed (put_be n z) = z.
Proof.
  intros Hn Hz. unfold get_be_signed. rewrite length_put_be, get_put_be.
  apply cast_signed_wrap; lia.
Qed.

Lemma cast_signed_mod w z : 0 < w → 0 ≤ z < 2 ^ w → cast_signed w z mod 2 ^ w = z.
Proof.
  intros Hw Hz. unfold cast_signed. destruct (Z.ltb_spec z (2 ^ (w - 1))).
  - by rewrite Z.mod_small.
  - rewrite <- (Z.mod_add _ 1), Z.mod_small by lia. lia.
Qed.

(** Writing the value that was read gives back the bytes that were read. *)
Lemma put_get_be_signed l : (0 < length l)%nat → put_be (length l) (get_be_signed l) = l.
Proof.
  intros Hl. etransitivity; [|apply put_get_be]. unfold put_be.
  rewrite (le_split_mod (get_be_signed l)). unfold get_be_signed. f_equal. f_equal.
  replace (Z.of_nat (length l) * 8) with (8 * Z.of_nat (length l)) by lia.
  apply cast_signed_mod; [lia|apply get_be_range].
Qed.

Lemma get_put_i16 z : is_i16 z → get_be_signed (put_i16 z) = z.
Proof. intros H. apply get_put_be_signed; [lia|]. ints. Qed.
Lemma get_put_i32 z : is_i32 z → get_be_signed (put_i32 z) = z.
Proof. intros H. apply get_put_be_signed; [lia|]. ints. Qed.
Lemma get_put_i64 z : is_i64 z → get_be_signed (put_i64 z) = z.
Proof. intros H. apply get_put_be_signed; [lia|]. ints. Qed.

Lemma get_be_signed_range l :
  (0 < length l)%nat →
  - 2 ^ (8 * Z.of_nat (length l) - 1) ≤ get_be_signed l
    < 2 ^ (8 * Z.of_nat (length l) - 1).
Proof. intros Hl. apply cast_signed_range; [lia|apply get_be_range]. Qed.

(** ** Subslices *)

(** [slice::split_at_checked]; with a constant count, [split_first_chunk]. *)
Definition split_at_checked (n : nat) (l : bytes) : option (bytes * bytes) :=
  if decide (n ≤ length l)%nat then Some (take n l, drop n l) else None.

Lemma split_at_checked_app l k : split_at_checked (length l) (l ++ k) = Some (l, k).
Proof.
  unfold split_at_checked. rewrite decide_True by (rewrite length_app; lia).
  by rewrite take_app_length, drop_app_length.
Qed.

Lemma split_at_checked_Some n l a b :
  split_at_checked n l = Some (a, b) ↔ l = a ++ b ∧ length a = n.
Proof.
  unfold split_at_checked. split.
  - case_decide; [|done]. intros [= <- <-].
    split; [by rewrite take_drop|]. rewrite length_take. lia.
  - intros [-> <-]. rewrite decide_True by (rewrite length_app; lia).
    by rewrite take_app_length, drop_app_length.
Qed.

(** ** Strings and UTF-8

    The validity test follows the table that [core::str::from_utf8] uses: no
    overlong form, no surrogate, nothing above U+10FFFF. *)

Definition as_bytes (s : string) : bytes := String.list_byte_of_string s.
Definition str_len (s : string) : Z := Z.of_nat (length (as_bytes s)).

Definition in_range (lo hi : Z) (b : Byte.byte) : bool :=
  (lo <=? byte.unsigned b) && (byte.unsigned b <=? hi).
Definition is_cont : Byte.byte → bool := in_range 0x80 0xBF.

Fixpoint utf8_valid (l : bytes) : bool :=
  match l with
  | [] => true
  | b0 :: l1 =>
    if in_range 0 0x7F b0 then utf8_valid l1
    else match l1 with
    | [] => false
    | b1 :: l2 =>
      if in_range 0xC2 0xDF b0 then is_cont b1 && utf8_valid l2
      else match l2 with
      | [] => false
      | b2 :: l3 =>
        if in_range 0xE0 0xE0 b0 then in_range 0xA0 0xBF b1 && is_cont b2 && utf8_valid l3
        else if in_range 0xE1 0xEC b0 || in_range 0xEE 0xEF b0
        then is_cont b1 && is_cont b2 && utf8_valid l3
        else if in_range 0xED 0xED b0 then in_range 0x80 0x9F b1 && is_cont b2 && utf8_valid l3
        else match l3 with
        | [] => false
        | b3 :: l4 =>
          (if in_range 0xF0 0xF0 b0 then in_range 0x90 0xBF b1
           else if in_range 0xF1 0xF3 b0 then is_cont b1
           else in_range 0xF4 0xF4 b0 && in_range 0x80 0x8F b1)
          && is_cont b2 && is_cont b3 && utf8_valid l4
        end
      end
    end
  end.

Definition from_utf8 (l : bytes) : option string :=
  if utf8_valid l then Some (String.string_of_list_byte l) else None.

(** The invariant of a Rust [str]. *)
Definition str_wf (s : string) : Prop := utf8_valid (as_bytes s) = true.

#[global] Instance str_wf_dec s : Decision (str_wf s).
Proof. unfold str_wf. apply _. Defined.

Lemma from_utf8_as_bytes s : str_wf s → from_utf8 (as_bytes s) = Some s.
Proof.
  unfold str_wf, from_utf8. intros ->. f_equal. apply String.string_of_list_byte_of_string.
Qed.

Lemma from_utf8_Some l s : from_utf8 l = Some s → as_bytes s = l ∧ str_wf s.
Proof.
  unfold from_utf8, str_wf, as_bytes. destruct (utf8_valid l) eqn:E; [|done].
  intros [= <-]. by rewrite String.list_byte_of_string_of_list_byte.
Qed.

Lemma as_bytes_inj s t : as_bytes s = as_bytes t → s = t.
Proof.
  intros H. rewrite <- (String.string_of_list_byte_of_string s).
  unfold as_bytes in H. by rewrite H, String.string_of_list_byte_of_string.
Qed.

Lemma str_len_nil s : str_len s = 0 ↔ s = "".
Proof.
  unfold str_len. split; [|by intros ->].
  intros H. apply as_bytes_inj, nil_length_inv. lia.
Qed.
