(* ===== verification/Text.v ===== *)
(** * Text forms of integers

    [Display] and [FromStr] of the signed integers, and the string searches
    [split_once] and [contains], as the token types of the coordination client
    and of the transactional producer use them. *)

From Stdlib Require Import Ascii.
From S2P Require Import Prelude.

(** ** Decimal digits *)

Definition digit_char (d : Z) : ascii := Ascii.ascii_of_N (Z.to_N (48 + d)).
Definition char_digit (c : ascii) : option Z :=
  let n := Z.of_N (Ascii.N_of_ascii c) in
  if (48 <=? n) && (n <=? 57) then Some (n - 48) else None.

(** The digits of [n], most significant first, in front of [acc]. *)
Fixpoint push_digits (fuel : nat) (n : Z) (acc : string) : string :=
  match fuel with
  | O => acc
  | S fuel =>
    let acc := String (digit_char (n mod 10)) acc in
    if n / 10 =? 0 then acc else push_digits fuel (n / 10) acc
  end.

(** [Display] of an [i64] or a narrower integer: 20 digits hold any [u64]. *)
Definition fmt_int (z : Z) : string :=
  if z <? 0 then String "-" (push_digits 20 (- z) "") else push_digits 20 z "".

Fixpoint parse_digits (acc : Z) (s : string) : option Z :=
  match s with
  | EmptyString => Some acc
  | String c s => match char_digit c with
                  | Some d => parse_digits (acc * 10 + d) s
                  | None => None
                  end
  end.

Definition parse_unsigned (s : string) : option Z :=
  match s with EmptyString => None | _ => parse_digits 0 s end.

(** [from_str] of a signed integer: an optional sign, at least one digit, and
    an error when the value does not fit. *)
Definition parse_signed (fits : Z → option Z) (s : string) : option Z :=
  match s with
  | String "+" t => parse_unsigned t ≫= fits
  | String "-" t => parse_unsigned t ≫= λ z, fits (- z)
  | _ => parse_unsigned s ≫= fits
  end.

Definition parse_i64 : string → option Z := parse_signed i64_try_from.
Definition parse_i16 : string → option Z := parse_signed i16_try_from.

Lemma digit_code d : 0 ≤ d < 10 → Ascii.N_of_ascii (digit_char d) = Z.to_N (48 + d).
Proof. intros Hd. unfold digit_char. apply Ascii.N_ascii_embedding. lia. Qed.

Lemma char_digit_char d : 0 ≤ d < 10 → char_digit (digit_char d) = Some d.
Proof.
  intros Hd. unfold char_digit. rewrite digit_code by done.
  rewrite Z2N.id by lia.
  destruct (Z.leb_spec 48 (48 + d)), (Z.leb_spec (48 + d) 57); try lia.
  simpl. f_equal; lia.
Qed.

Lemma parse_push_digits fuel n acc :
  0 ≤ n < 10 ^ Z.of_nat fuel → (0 < fuel)%nat →
  ∃ k, 0 ≤ k ∧
    ∀ a, parse_digits a (push_digits fuel n acc) = parse_digits (a * 10 ^ k + n) acc.
Proof.
  revert n acc. induction fuel as [|fuel IH]; intros n acc Hn Hf; [lia|].
  pose proof (Z.mod_pos_bound n 10 ltac:(lia)) as Hm.
  pose proof (Z.div_mod n 10 ltac:(lia)) as Hdm.
  cbn [push_digits]. destruct (Z.eqb_spec (n / 10) 0) as [Hz|Hz].
  - exists 1. split; [lia|]. intros a. cbn [parse_digits].
    rewrite char_digit_char by lia. f_equal; lia.
  - rewrite Nat2Z.inj_succ, Z.pow_succ_r in Hn by lia.
    assert (0 ≤ n / 10 < 10 ^ Z.of_nat fuel) as Hq.
    { split; [apply Z.div_pos; lia|]. apply Z.div_lt_upper_bound; lia. }
    assert (0 < fuel)%nat by (destruct fuel; [simpl in Hq; lia|lia]).
    destruct (IH (n / 10) (String (digit_char (n mod 10)) acc) Hq ltac:(lia))
      as (k & Hk0 & Hk).
    exists (Z.succ k). split; [lia|]. intros a. rewrite Hk. cbn [parse_digits].
    rewrite char_digit_char by lia. f_equal. rewrite Z.pow_succ_r by lia. lia.
Qed.

(** The printed digits start with a digit, so no sign is read back. *)
Lemma push_digits_head fuel n acc :
  0 ≤ n → (0 < fuel)%nat →
  ∃ d s, 0 ≤ d < 10 ∧ push_digits fuel n acc = String (digit_char d) s.
Proof.
  revert n acc. induction fuel as [|fuel IH]; intros n acc Hn Hf; [lia|].
  pose proof (Z.mod_pos_bound n 10 ltac:(lia)) as Hm.
  cbn [push_digits]. destruct (n / 10 =? 0); [by eauto|].
  destruct fuel; [by eauto|]. apply IH; [apply Z.div_pos; lia|lia].
Qed.

Lemma parse_unsigned_push n :
  0 ≤ n < 10 ^ 20 → parse_unsigned (push_digits 20 n "") = Some n.
Proof.
  intros Hn. destruct (push_digits_head 20 n "") as (d & s & Hd & E); [lia|lia|].
  destruct (parse_push_digits 20 n "") as (k & _ & Hk); [lia|lia|].
  unfold parse_unsigned. rewrite E, <- E, Hk. simpl. f_equal; lia.
Qed.

Lemma digit_char_not_sign d c :
  0 ≤ d < 10 → (Ascii.N_of_ascii c < 48)%N → digit_char d ≠ c.
Proof. intros Hd Hc <-. rewrite digit_code in Hc by done. lia. Qed.

Lemma parse_signed_digits fits s d t :
  0 ≤ d < 10 → s = String (digit_char d) t → parse_signed fits s = parse_unsigned s ≫= fits.
Proof.
  intros Hd ->. unfold parse_signed.
  pose proof (digit_char_not_sign d "+" Hd eq_refl) as Hp.
  pose proof (digit_char_not_sign d "-" Hd eq_refl) as Hm.
  destruct (digit_char d) as [[] [] [] [] [] [] [] []]; congruence.
Qed.

(** Printing an [i64] and parsing it back is the identity. *)
Lemma parse_fmt_int fits z :
  is_i64 z → fits z = Some z → parse_signed fits (fmt_int z) = Some z.
Proof.
  intros Hz Hf. unfold fmt_int. destruct (Z.ltb_spec z 0).
  - cbn -[push_digits]. rewrite parse_unsigned_push by ints. simpl.
    by rewrite Z.opp_involutive.
  - destruct (push_digits_head 20 z "") as (d & s & Hd & E); [lia|lia|].
    rewrite (parse_signed_digits _ _ d s Hd E), parse_unsigned_push by ints. done.
Qed.

Lemma parse_fmt_i64 z : is_i64 z → parse_i64 (fmt_int z) = Some z.
Proof. intros H. apply parse_fmt_int; [done|]. unfold i64_try_from. by rewrite decide_True. Qed.

Lemma parse_fmt_i16 z : is_i16 z → parse_i16 (fmt_int z) = Some z.
Proof.
  intros H. apply parse_fmt_int; [ints|]. unfold i16_try_from. by rewrite decide_True.
Qed.

(** ** Searching a string *)

Fixpoint str_contains (c : ascii) (s : string) : bool :=
  match s with
  | EmptyString => false
  | String d s => if Ascii.eqb c d then true else str_contains c s
  end.

(** [str::split_once]: the text before and after the first [c]. *)
Fixpoint split_once (c : ascii) (s : string) : option (string * string) :=
  match s with
  | EmptyString => None
  | String d s => if Ascii.eqb c d then Some (EmptyString, s)
                  else match split_once c s with
                       | Some (a, b) => Some (String d a, b)
                       | None => None
                       end
  end.

Lemma split_once_app c a b :
  str_contains c a = false → split_once c (String.append a (String c b)) = Some (a, b).
Proof.
  induction a as [|d a IH]; simpl.
  - intros _. by rewrite Ascii.eqb_refl.
  - destruct (Ascii.eqb c d); [done|]. intros H. by rewrite IH.
Qed.

(** The characters of a printed integer are digits and [-]. *)
Lemma push_digits_contains c fuel n acc :
  ¬ (48 ≤ Ascii.N_of_ascii c ≤ 57)%N → 0 ≤ n → str_contains c acc = false →
  str_contains c (push_digits fuel n acc) = false.
Proof.
  intros Hc. revert n acc. induction fuel as [|fuel IH]; intros n acc Hn Ha; [done|].
  pose proof (Z.mod_pos_bound n 10 ltac:(lia)) as Hm. cbn [push_digits].
  assert (str_contains c (String (digit_char (n mod 10)) acc) = false) as Hs.
  { cbn [str_contains]. destruct (Ascii.eqb_spec c (digit_char (n mod 10))) as [->|]; [|done].
    rewrite digit_code in Hc by lia. lia. }
  destruct (n / 10 =? 0); [done|]. apply IH; [apply Z.div_pos; lia|done].
Qed.

Lemma fmt_int_contains c z :
  ¬ (48 ≤ Ascii.N_of_ascii c ≤ 57)%N → c ≠ "-"%char → str_contains c (fmt_int z) = false.
Proof.
  intros Hc Hm. unfold fmt_int. destruct (Z.ltb_spec z 0).
  - cbn [str_contains]. destruct (Ascii.eqb_spec c "-"); [done|].
    apply push_digits_contains; [done|lia|done].
  - apply push_digits_contains; [done|lia|done].
Qed.
