(* ===== verification/CoordRecord.v ===== *)
(** * The coordination state records

    [crates/client-coordination/src/record.rs]: the validated names, the
    fencing token, and the codec of the frozen [__coordination_state] layouts.
    A rendered error text is modelled by its template and its arguments
    ([format_message]), not by the characters that [format!] produces. *)

From Stdlib Require Import Ascii.
From S2P Require Import Prelude Bytes Text.

(** ** Constants *)

Definition COORDINATION_STATE_TOPIC : string := "__coordination_state".
Definition MAX_ROLE_LEN : Z := 249.
Definition MAX_MEMBER_ID_LEN : Z := 249.
Definition RECORD_VERSION : Z := 0.
Definition KEY_PART : string := "key".
Definition REGISTRATION_VALUE_PART : string := "registration value".
Definition LEASE_VALUE_PART : string := "lease value".
Definition ROLE_FIELD : string := "role".
Definition MEMBER_FIELD : string := "member id".

(** ** Errors *)

Inductive format_message : Type :=
| MsgTruncated (part : string)
| MsgTrailing (part : string)
| MsgNegativeLength (length : Z) (part : string)
| MsgNonUtf8 (part : string)
| MsgVersion (part : string) (version : Z)
| MsgUnknownKind (code : Z)
| MsgLeaseMember (member : string).

Inductive RecordError : Type :=
| Format (part : string) (message : format_message)
| Empty (field : string)
| TooLong (field : string) (length bound : Z)
| NegativeFencingToken (producer_id producer_epoch : Z)
| FencingTokenForm (text : string).

#[global] Instance format_message_eq_dec : EqDecision format_message.
Proof. solve_decision. Defined.
#[global] Instance RecordError_eq_dec : EqDecision RecordError.
Proof. solve_decision. Defined.

(** ** Names *)

Record Role : Type := mkRole { role_name : string; role_wire_length : Z }.
Record MemberId : Type := mkMemberId { member_id : string; member_wire_length : Z }.

#[global] Instance Role_eq_dec : EqDecision Role.
Proof. solve_decision. Defined.
#[global] Instance Role_countable : Countable Role.
Proof.
  refine (inj_countable' (λ r, (role_name r, role_wire_length r))
            (λ p, mkRole p.1 p.2) _). by intros [].
Defined.
#[global] Instance MemberId_eq_dec : EqDecision MemberId.
Proof. solve_decision. Defined.
#[global] Instance MemberId_countable : Countable MemberId.
Proof.
  refine (inj_countable' (λ r, (member_id r, member_wire_length r))
            (λ p, mkMemberId p.1 p.2) _). by intros [].
Defined.

Definition check_name (name field : string) (bound : Z) : result RecordError Z :=
  if str_len name =? 0 then Err (Empty field)
  else
    let too_long := TooLong field (str_len name) bound in
    if bound <? str_len name then Err too_long
    else ok_or too_long (i16_try_from (str_len name)).

Definition Role_new (role : string) : result RecordError Role :=
  wire_length ← check_name role ROLE_FIELD MAX_ROLE_LEN;
  Ok (mkRole role wire_length).

Definition MemberId_new (member : string) : result RecordError MemberId :=
  wire_length ← check_name member MEMBER_FIELD MAX_MEMBER_ID_LEN;
  Ok (mkMemberId member wire_length).

(** ** Fencing tokens *)

Record FencingToken : Type := mkToken { producer_id : Z; producer_epoch : Z }.

#[global] Instance FencingToken_eq_dec : EqDecision FencingToken.
Proof. solve_decision. Defined.

Definition FencingToken_new (pid epoch : Z) : result RecordError FencingToken :=
  if (pid <? 0) || (epoch <? 0) then Err (NegativeFencingToken pid epoch)
  else Ok (mkToken pid epoch).

(** The derived [Ord]: the producer id first, then the epoch. *)
Definition token_le (a b : FencingToken) : Prop :=
  producer_id a < producer_id b
  ∨ producer_id a = producer_id b ∧ producer_epoch a ≤ producer_epoch b.
Definition token_lt (a b : FencingToken) : Prop :=
  producer_id a < producer_id b
  ∨ producer_id a = producer_id b ∧ producer_epoch a < producer_epoch b.

#[global] Instance token_le_dec : RelDecision token_le.
Proof. intros a b. unfold token_le. apply _. Defined.
#[global] Instance token_lt_dec : RelDecision token_lt.
Proof. intros a b. unfold token_lt. apply _. Defined.

(** [Display] and [FromStr]. *)
Definition token_to_string (t : FencingToken) : string :=
  String.append (fmt_int (producer_id t)) (String ":" (fmt_int (producer_epoch t))).

Definition token_from_str (serialized : string) : result RecordError FencingToken :=
  let form := FencingTokenForm serialized in
  '(pid, epoch) ← ok_or form (split_once ":" serialized);
  if str_contains ":" epoch then Err form
  else
    pid ← ok_or form (parse_i64 pid);
    epoch ← ok_or form (parse_i16 epoch);
    FencingToken_new pid epoch.

(** ** Keys and values *)

Inductive RecordKind : Type := KindRegistration | KindLease.

#[global] Instance RecordKind_eq_dec : EqDecision RecordKind.
Proof. solve_decision. Defined.

Definition kind_code (k : RecordKind) : Z :=
  match k with KindRegistration => 0 | KindLease => 1 end.

Definition kind_from_code (code : Z) : result RecordError RecordKind :=
  if code =? 0 then Ok KindRegistration
  else if code =? 1 then Ok KindLease
  else Err (Format KEY_PART (MsgUnknownKind code)).

Record CoordinationKey : Type := mkKey {
  key_kind : RecordKind;
  key_role : Role;
  key_member : option MemberId;
}.

Definition key_registration (role : Role) (member : MemberId) : CoordinationKey :=
  mkKey KindRegistration role (Some member).
Definition key_lease (role : Role) : CoordinationKey := mkKey KindLease role None.

Record Registration : Type := mkRegistration {
  reg_member : MemberId;
  registered_at : Z;
}.

Record Lease : Type := mkLease {
  lease_member : MemberId;
  lease_token : FencingToken;
  granted_at : Z;
  deadline : Z;
}.

Inductive CoordinationRecord : Type :=
| RecRegistration (registration : Registration)
| RecLease (lease : Lease)
| RecTombstone.

#[global] Instance CoordinationKey_eq_dec : EqDecision CoordinationKey.
Proof. solve_decision. Defined.
#[global] Instance Registration_eq_dec : EqDecision Registration.
Proof. solve_decision. Defined.
#[global] Instance Lease_eq_dec : EqDecision Lease.
Proof. solve_decision. Defined.
#[global] Instance CoordinationRecord_eq_dec : EqDecision CoordinationRecord.
Proof. solve_decision. Defined.

(** ** Encoding *)

Definition put_string (value : string) (length : Z) : bytes :=
  put_i16 length ++ as_bytes value.

Definition encode_key (key : CoordinationKey) : bytes :=
  let '(member, member_length) :=
    match key_kind key with
    | KindRegistration =>
      match key_member key with
      | Some m => (member_id m, member_wire_length m)
      | None => ("", 0)
      end
    | KindLease => ("", 0)
    end in
  put_i16 RECORD_VERSION ++ put_i16 (kind_code (key_kind key))
  ++ put_string (role_name (key_role key)) (role_wire_length (key_role key))
  ++ put_string member member_length.

Definition encode_value (record : CoordinationRecord) : option bytes :=
  match record with
  | RecRegistration r =>
    let member := reg_member r in
    Some (put_i16 RECORD_VERSION
          ++ put_string (member_id member) (member_wire_length member)
          ++ put_i64 (registered_at r))
  | RecLease l =>
    let member := lease_member l in
    Some (put_i16 RECORD_VERSION
          ++ put_string (member_id member) (member_wire_length member)
          ++ put_i64 (producer_id (lease_token l))
          ++ put_i16 (producer_epoch (lease_token l))
          ++ put_i64 (granted_at l)
          ++ put_i64 (deadline l))
  | RecTombstone => None
  end.

(** ** Decoding

    The reader is the remaining input, threaded through the calls; [part] is
    fixed for one decode. *)

Section reader.
Context (part : string).

Definition malformed (message : format_message) : RecordError := Format part message.
Definition truncated : RecordError := malformed (MsgTruncated part).

Definition finish (data : bytes) : result RecordError unit :=
  match data with
  | [] => Ok tt
  | _ => Err (malformed (MsgTrailing part))
  end.

Definition take_array (n : nat) (data : bytes) : result RecordError (bytes * bytes) :=
  ok_or truncated (split_at_checked n data).

Definition take_slice (count : Z) (data : bytes) : result RecordError (bytes * bytes) :=
  ok_or truncated (split_at_checked (Z.to_nat count) data).

Definition read_i16 (data : bytes) : result RecordError (Z * bytes) :=
  '(head, rest) ← take_array 2 data; Ok (get_be_signed head, rest).

Definition read_i64 (data : bytes) : result RecordError (Z * bytes) :=
  '(head, rest) ← take_array 8 data; Ok (get_be_signed head, rest).

Definition read_string (data : bytes) : result RecordError (string * bytes) :=
  '(length, data) ← read_i16 data;
  length ← ok_or (malformed (MsgNegativeLength length part)) (usize_try_from length);
  '(head, data) ← take_slice length data;
  value ← ok_or (malformed (MsgNonUtf8 part)) (from_utf8 head);
  Ok (value, data).

Definition read_version (data : bytes) : result RecordError bytes :=
  '(version, data) ← read_i16 data;
  if version =? RECORD_VERSION then Ok data
  else Err (malformed (MsgVersion part version)).
End reader.

(** The [match kind] of [decode_key]. *)
Definition decode_key_member (kind : RecordKind) (member : string)
    : result RecordError (option MemberId) :=
  match kind with
  | KindRegistration => m ← MemberId_new member; Ok (Some m)
  | KindLease =>
    if str_len member =? 0 then Ok None
    else Err (malformed KEY_PART (MsgLeaseMember member))
  end.

Definition decode_key (data : bytes) : result RecordError CoordinationKey :=
  let part := KEY_PART in
  data ← read_version part data;
  '(code, data) ← read_i16 part data;
  kind ← kind_from_code code;
  '(role, data) ← read_string part data;
  '(member, data) ← read_string part data;
  _ ← finish part data;
  member ← decode_key_member kind member;
  role ← Role_new role;
  Ok (mkKey kind role member).

Definition decode_registration (data : bytes) : result RecordError Registration :=
  let part := REGISTRATION_VALUE_PART in
  data ← read_version part data;
  '(member, data) ← read_string part data;
  '(at_millis, data) ← read_i64 part data;
  _ ← finish part data;
  member ← MemberId_new member;
  Ok (mkRegistration member at_millis).

Definition decode_lease (data : bytes) : result RecordError Lease :=
  let part := LEASE_VALUE_PART in
  data ← read_version part data;
  '(member, data) ← read_string part data;
  '(pid, data) ← read_i64 part data;
  '(epoch, data) ← read_i16 part data;
  '(granted, data) ← read_i64 part data;
  '(dl, data) ← read_i64 part data;
  _ ← finish part data;
  member ← MemberId_new member;
  token ← FencingToken_new pid epoch;
  Ok (mkLease member token granted dl).

Definition decode_value (kind : RecordKind) (data : option bytes)
    : result RecordError CoordinationRecord :=
  match data with
  | None => Ok RecTombstone
  | Some data =>
    match kind with
    | KindRegistration => RecRegistration <$> decode_registration data
    | KindLease => RecLease <$> decode_lease data
    end
  end.

(** ** Well-formed values

    [Role::new] and [MemberId::new] are the only constructors of their types,
    so every value of the program satisfies these invariants. *)

Definition role_wf (r : Role) : Prop :=
  str_wf (role_name r) ∧ 1 ≤ str_len (role_name r) ≤ MAX_ROLE_LEN
  ∧ role_wire_length r = str_len (role_name r).

Definition member_wf (m : MemberId) : Prop :=
  str_wf (member_id m) ∧ 1 ≤ str_len (member_id m) ≤ MAX_MEMBER_ID_LEN
  ∧ member_wire_length m = str_len (member_id m).

Definition token_wf (t : FencingToken) : Prop :=
  0 ≤ producer_id t ≤ i64_max ∧ 0 ≤ producer_epoch t ≤ i16_max.

Definition key_wf (k : CoordinationKey) : Prop :=
  role_wf (key_role k) ∧
  match key_kind k, key_member k with
  | KindRegistration, Some m => member_wf m
  | KindLease, None => True
  | _, _ => False
  end.

Definition registration_wf (r : Registration) : Prop :=
  member_wf (reg_member r) ∧ is_i64 (registered_at r).

Definition lease_wf (l : Lease) : Prop :=
  member_wf (lease_member l) ∧ token_wf (lease_token l)
  ∧ is_i64 (granted_at l) ∧ is_i64 (deadline l).

(** The value may stand under a key of [kind]. *)
Definition record_wf (kind : RecordKind) (r : CoordinationRecord) : Prop :=
  match kind, r with
  | KindRegistration, RecRegistration reg => registration_wf reg
  | KindLease, RecLease l => lease_wf l
  | _, RecTombstone => True
  | _, _ => False
  end.

#[global] Instance role_wf_dec r : Decision (role_wf r).
Proof. unfold role_wf. apply _. Defined.
#[global] Instance member_wf_dec m : Decision (member_wf m).
Proof. unfold member_wf. apply _. Defined.
#[global] Instance token_wf_dec t : Decision (token_wf t).
Proof. unfold token_wf. apply _. Defined.
#[global] Instance lease_wf_dec l : Decision (lease_wf l).
Proof. unfold lease_wf. apply _. Defined.
#[global] Instance key_wf_dec k : Decision (key_wf k).
Proof. unfold key_wf. destruct (key_kind k), (key_member k); apply _. Defined.

(** ** Names and tokens are validated *)

Lemma check_name_ok name field bound n :
  bound ≤ i16_max →
  check_name name field bound = Ok n ↔ 1 ≤ str_len name ≤ bound ∧ n = str_len name.
Proof.
  intros Hb. unfold check_name, i16_try_from.
  assert (0 ≤ str_len name) by (unfold str_len; lia).
  destruct (Z.eqb_spec (str_len name) 0); [split; [done|lia]|].
  destruct (Z.ltb_spec bound (str_len name)); [split; [done|lia]|].
  rewrite decide_True by ints. simpl. split; [intros [= <-]|intros [? ->]]; [lia|done].
Qed.

Lemma Role_new_ok s r :
  str_wf s → Role_new s = Ok r ↔ role_wf r ∧ role_name r = s.
Proof.
  intros Hs. unfold Role_new, role_wf, MAX_ROLE_LEN. rewrite bind_ok.
  setoid_rewrite check_name_ok; [|ints].
  split; [intros (? & [? ->] & [= <-])|]; simpl; [done|].
  destruct r as [n w]; simpl. intros ((? & ? & ->) & <-). eauto.
Qed.

Lemma MemberId_new_ok s m :
  str_wf s → MemberId_new s = Ok m ↔ member_wf m ∧ member_id m = s.
Proof.
  intros Hs. unfold MemberId_new, member_wf, MAX_MEMBER_ID_LEN. rewrite bind_ok.
  setoid_rewrite check_name_ok; [|ints].
  split; [intros (? & [? ->] & [= <-])|]; simpl; [done|].
  destruct m as [n w]; simpl. intros ((? & ? & ->) & <-). eauto.
Qed.

Lemma FencingToken_new_ok pid epoch t :
  is_i64 pid → is_i16 epoch →
  FencingToken_new pid epoch = Ok t ↔ token_wf t ∧ t = mkToken pid epoch.
Proof.
  intros Hp He. unfold FencingToken_new, token_wf.
  destruct (Z.ltb_spec pid 0), (Z.ltb_spec epoch 0); simpl;
    (split; [|intros [Hr ->]; simpl in *; try done; lia]); try done.
  intros [= <-]. simpl. split; [ints|done].
Qed.

Lemma Role_new_wf r : role_wf r → Role_new (role_name r) = Ok r.
Proof. intros Hr. apply Role_new_ok; [apply Hr|done]. Qed.

Lemma MemberId_new_wf m : member_wf m → MemberId_new (member_id m) = Ok m.
Proof. intros Hm. apply MemberId_new_ok; [apply Hm|done]. Qed.

Lemma FencingToken_new_wf p e :
  token_wf (mkToken p e) → FencingToken_new p e = Ok (mkToken p e).
Proof.
  intros Ht. pose proof Ht as [? ?]; simpl in *.
  apply FencingToken_new_ok; [ints|ints|done].
Qed.

(** ** Each field is read back exactly as it was written

    One equivalence per field of the layout: a read succeeds exactly on the
    encoding of an admissible value, and returns that value. *)

Section fields.
Context (part : string).

Lemma take_array_ok n d a k : take_array part n d = Ok (a, k) ↔ d = a ++ k ∧ length a = n.
Proof. unfold take_array. by rewrite ok_or_ok, split_at_checked_Some. Qed.

Lemma take_slice_ok n d a k :
  take_slice part n d = Ok (a, k) ↔ d = a ++ k ∧ length a = Z.to_nat n.
Proof. unfold take_slice. by rewrite ok_or_ok, split_at_checked_Some. Qed.

Lemma read_i16_ok d z k : read_i16 part d = Ok (z, k) ↔ is_i16 z ∧ d = put_i16 z ++ k.
Proof.
  unfold read_i16. rewrite bind_ok. split.
  - intros ([h r] & [-> Hl]%take_array_ok & [= <- <-]).
    split; [|by rewrite <- (put_get_be_signed h) at 1; rewrite Hl; [|lia]].
    pose proof (get_be_signed_range h ltac:(lia)) as Hr. rewrite Hl in Hr. ints.
  - intros [Hz ->]. exists (put_i16 z, k). rewrite take_array_ok.
    by rewrite get_put_i16.
Qed.

Lemma read_i64_ok d z k : read_i64 part d = Ok (z, k) ↔ is_i64 z ∧ d = put_i64 z ++ k.
Proof.
  unfold read_i64. rewrite bind_ok. split.
  - intros ([h r] & [-> Hl]%take_array_ok & [= <- <-]).
    split; [|by rewrite <- (put_get_be_signed h) at 1; rewrite Hl; [|lia]].
    pose proof (get_be_signed_range h ltac:(lia)) as Hr. rewrite Hl in Hr. ints.
  - intros [Hz ->]. exists (put_i64 z, k). rewrite take_array_ok.
    by rewrite get_put_i64.
Qed.

Lemma read_string_ok d s k :
  read_string part d = Ok (s, k) ↔
  (str_wf s ∧ str_len s ≤ i16_max) ∧ d = put_string s (str_len s) ++ k.
Proof.
  unfold read_string, usize_try_from, put_string. split.
  - intros H. result_inv. case_decide; simplify_eq.
    match goal with H : read_i16 _ _ = _ |- _ => apply read_i16_ok in H as [Hn ->] end.
    match goal with H : take_slice _ _ _ = _ |- _ => apply take_slice_ok in H as [-> Hl] end.
    match goal with H : from_utf8 _ = _ |- _ => apply from_utf8_Some in H as [<- Hs] end.
    unfold str_len. rewrite Hl, Z2Nat.id by ints.
    rewrite <- ?app_assoc. repeat split; try done. ints.
  - intros [[Hs Hb] ->]. assert (0 ≤ str_len s) by (unfold str_len; lia).
    rewrite <- app_assoc.
    rewrite (proj2 (read_i16_ok _ (str_len s) (as_bytes s ++ k))) by (split; [ints|done]).
    simpl. rewrite decide_True by ints. simpl.
    rewrite (proj2 (take_slice_ok _ _ (as_bytes s) k)) by (split; [done|unfold str_len; lia]).
    simpl. by rewrite from_utf8_as_bytes.
Qed.

Lemma read_version_ok d k : read_version part d = Ok k ↔ d = put_i16 RECORD_VERSION ++ k.
Proof.
  unfold read_version. rewrite bind_ok. split.
  - intros ([v r] & [Hv ->]%read_i16_ok & H). by destruct (Z.eqb_spec v RECORD_VERSION);
      simplify_eq.
  - intros ->. exists (RECORD_VERSION, k). split; [|done].
    apply read_i16_ok. split; [unfold RECORD_VERSION; ints|done].
Qed.

Lemma finish_ok d u : finish part d = Ok u ↔ d = [].
Proof. destruct d, u; naive_solver. Qed.
End fields.

(** [read_inv] turns every successful field read into the bytes it consumed;
    [read_fwd] runs the reads over an encoding. *)
Ltac read_inv :=
  result_inv;
  repeat match goal with
  | H : read_version _ _ = Ok _ |- _ => apply read_version_ok in H as ->
  | H : read_i16 _ _ = Ok (_, _) |- _ => apply read_i16_ok in H as [? ->]
  | H : read_i64 _ _ = Ok (_, _) |- _ => apply read_i64_ok in H as [? ->]
  | H : read_string _ _ = Ok (_, _) |- _ => apply read_string_ok in H as [[? ?] ->]
  | H : finish _ _ = Ok _ |- _ => apply finish_ok in H as ->
  end.

Ltac read_fwd :=
  repeat (
    first
      [ rewrite (proj2 (read_version_ok _ _ _)) by reflexivity
      | erewrite (proj2 (read_i16_ok _ _ _ _)) by (split; [|reflexivity]; ints)
      | erewrite (proj2 (read_i64_ok _ _ _ _)) by (split; [|reflexivity]; ints)
      | erewrite (proj2 (read_string_ok _ _ _ _))
          by (split; [|reflexivity]; split; [done|ints]) ];
    cbn [mbind result_bind]).

Lemma kind_from_code_ok c k : kind_from_code c = Ok k ↔ c = kind_code k.
Proof.
  unfold kind_from_code. split.
  - destruct (Z.eqb_spec c 0); [by intros [= <-]|].
    destruct (Z.eqb_spec c 1); [by intros [= <-]|done].
  - by intros ->; destruct k.
Qed.

Lemma kind_code_i16 k : is_i16 (kind_code k).
Proof. destruct k; unfold kind_code; ints. Qed.

(** The member position of a key: the empty string stands for no member. *)
Definition key_member_name (k : CoordinationKey) : string :=
  match key_member k with Some m => member_id m | None => "" end.

Lemma encode_key_wf k :
  key_wf k →
  encode_key k =
    put_i16 RECORD_VERSION ++ put_i16 (kind_code (key_kind k))
    ++ put_string (role_name (key_role k)) (str_len (role_name (key_role k)))
    ++ put_string (key_member_name k) (str_len (key_member_name k)) ++ [].
Proof.
  destruct k as [[] r [m|]]; intros [(? & ? & Hr) Hm]; try done;
    unfold encode_key, key_member_name;
    cbn [key_kind key_role key_member] in *; rewrite Hr, app_nil_r.
  - by destruct Hm as (? & ? & ->).
  - done.
Qed.

Lemma decode_key_member_ok kind name role m :
  str_wf name → role_wf role →
  decode_key_member kind name = Ok m ↔
  key_wf (mkKey kind role m) ∧ key_member_name (mkKey kind role m) = name.
Proof.
  intros Hn Hr. unfold decode_key_member, key_wf, key_member_name; destruct kind; simpl.
  - rewrite bind_ok. setoid_rewrite (MemberId_new_ok name); [|done].
    split; [intros (a & [? <-] & [= <-]); naive_solver|].
    destruct m as [m|]; naive_solver.
  - destruct (Z.eqb_spec (str_len name) 0) as [->%str_len_nil|Hz]; split.
    + by intros [= <-].
    + destruct m; naive_solver.
    + done.
    + destruct m; [naive_solver|]. intros [_ <-]. done.
Qed.

(** The frozen layout of keys is exact. *)
Lemma decode_key_ok d k : decode_key d = Ok k ↔ key_wf k ∧ d = encode_key k.
Proof.
  unfold decode_key. split.
  - intros H. read_inv.
    repeat match goal with
    | H : kind_from_code _ = Ok _ |- _ => apply kind_from_code_ok in H as ->
    | H : Role_new _ = Ok _ |- _ => apply Role_new_ok in H as [? <-]; [|done]
    end.
    match goal with H : decode_key_member _ _ = Ok _ |- _ =>
      eapply decode_key_member_ok in H as [? <-]; [|done..] end.
    split; [done|]. rewrite encode_key_wf by done. done.
  - intros [Hwf ->]. rewrite encode_key_wf by done.
    destruct Hwf as [Hr Hm]. pose proof (kind_code_i16 (key_kind k)).
    assert (str_wf (key_member_name k) ∧ 0 ≤ str_len (key_member_name k) ≤ 249) as [??].
    { unfold key_member_name. destruct k as [[] r [m|]]; try done; simpl in *.
      destruct Hm as (?&?&?). unfold MAX_MEMBER_ID_LEN in *. split; [done|lia]. }
    assert (str_wf (role_name (key_role k)) ∧ 0 ≤ str_len (role_name (key_role k)) ≤ 249)
      as [??].
    { destruct Hr as (?&?&?). unfold MAX_ROLE_LEN in *. split; [done|lia]. }
    read_fwd. rewrite (proj2 (kind_from_code_ok _ (key_kind k))) by done.
    cbn [mbind result_bind]. read_fwd.
    rewrite (proj2 (decode_key_member_ok (key_kind k) (key_member_name k) (key_role k)
                       (key_member k) ltac:(done) Hr))
      by (destruct k; done).
    simpl. rewrite Role_new_wf by done. by destruct k.
Qed.

Lemma encode_registration_wf r :
  registration_wf r →
  encode_value (RecRegistration r) =
    Some (put_i16 RECORD_VERSION
          ++ put_string (member_id (reg_member r)) (str_len (member_id (reg_member r)))
          ++ put_i64 (registered_at r) ++ []).
Proof. intros [(?&?&E) ?]. cbn [encode_value]. by rewrite E, app_nil_r. Qed.

Lemma decode_registration_ok d r :
  decode_registration d = Ok r ↔
  registration_wf r ∧ Some d = encode_value (RecRegistration r).
Proof.
  unfold decode_registration. split.
  - intros H. read_inv.
    match goal with H : MemberId_new _ = Ok _ |- _ =>
      apply MemberId_new_ok in H as [? <-]; [|done] end.
    split; [done|]. symmetry. by apply encode_registration_wf.
  - intros [Hwf Hd]. rewrite encode_registration_wf in Hd by done.
    injection Hd as ->. destruct r as [m a], Hwf as [Hm Ha]; simpl in *.
    pose proof Hm as (? & ? & ?). unfold MAX_MEMBER_ID_LEN in *.
    read_fwd. simpl. by rewrite MemberId_new_wf.
Qed.

Lemma encode_lease_wf l :
  lease_wf l →
  encode_value (RecLease l) =
    Some (put_i16 RECORD_VERSION
          ++ put_string (member_id (lease_member l)) (str_len (member_id (lease_member l)))
          ++ put_i64 (producer_id (lease_token l)) ++ put_i16 (producer_epoch (lease_token l))
          ++ put_i64 (granted_at l) ++ put_i64 (deadline l) ++ []).
Proof. intros [(?&?&E) ?]. cbn [encode_value]. by rewrite E, app_nil_r. Qed.

Lemma decode_lease_ok d l :
  decode_lease d = Ok l ↔ lease_wf l ∧ Some d = encode_value (RecLease l).
Proof.
  unfold decode_lease. split.
  - intros H. read_inv.
    repeat match goal with
    | H : MemberId_new _ = Ok _ |- _ => apply MemberId_new_ok in H as [? <-]; [|done]
    | H : FencingToken_new _ _ = Ok _ |- _ => apply FencingToken_new_ok in H as [? ->]; [|done..]
    end.
    split; [done|]. symmetry. by apply encode_lease_wf.
  - intros [Hwf Hd]. rewrite encode_lease_wf in Hd by done.
    injection Hd as ->. destruct l as [m [p e] g dl], Hwf as (Hm & [? ?] & ? & ?); simpl in *.
    pose proof Hm as (? & ? & ?). unfold MAX_MEMBER_ID_LEN in *.
    read_fwd. simpl. rewrite MemberId_new_wf by done. simpl.
    by rewrite FencingToken_new_wf.
Qed.

Lemma decode_value_ok kind d r :
  decode_value kind d = Ok r ↔ record_wf kind r ∧ d = encode_value r.
Proof.
  unfold decode_value. destruct d as [d|];
    [|by destruct kind, r; simpl; intuition congruence].
  destruct kind; rewrite fmap_ok.
  - setoid_rewrite decode_registration_ok. split.
    + intros (reg & [? ?] & ->). done.
    + destruct r as [reg|l|]; intros [? ?]; [by eauto|done|done].
  - setoid_rewrite decode_lease_ok. split.
    + intros (l & [? ?] & ->). done.
    + destruct r as [reg|l|]; intros [? ?]; [done|by eauto|done].
Qed.

(** Distinct records of the topic never share a key encoding, so compaction
    keys identify a role and member exactly. *)
Lemma encode_key_inj k1 k2 :
  key_wf k1 → key_wf k2 → encode_key k1 = encode_key k2 → k1 = k2.
Proof.
  intros H1 H2 E.
  assert (decode_key (encode_key k1) = Ok k1) as D1 by (by apply decode_key_ok).
  assert (decode_key (encode_key k2) = Ok k2) as D2 by (by apply decode_key_ok).
  rewrite E in D1. congruence.
Qed.

Lemma decode_key_trailing k x :
  key_wf k → x ≠ [] →
  decode_key (encode_key k ++ x) = Err (Format KEY_PART (MsgTrailing KEY_PART)).
Proof.
  intros Hwf Hx. rewrite encode_key_wf, app_nil_r by done.
  destruct Hwf as [(Hr1 & Hr2 & Hr3) Hm]. pose proof (kind_code_i16 (key_kind k)).
  assert (str_wf (key_member_name k) ∧ 0 ≤ str_len (key_member_name k) ≤ 249) as [??].
  { unfold key_member_name. destruct k as [[] r [m|]]; try done; simpl in *.
    destruct Hm as (?&?&?). unfold MAX_MEMBER_ID_LEN in *. split; [done|lia]. }
  unfold MAX_ROLE_LEN in *. unfold decode_key. rewrite <- !app_assoc.
  read_fwd. rewrite (proj2 (kind_from_code_ok _ (key_kind k))) by done.
  cbn [mbind result_bind]. read_fwd. by destruct x.
Qed.

Lemma token_text_roundtrip t : token_wf t → token_from_str (token_to_string t) = Ok t.
Proof.
  destruct t as [p e]. intros Ht. pose proof Ht as [Hp He]; simpl in *.
  unfold token_from_str, token_to_string; simpl.
  rewrite split_once_app by (apply fmt_int_contains; [simpl; lia|done]). simpl.
  rewrite fmt_int_contains by (simpl; lia || done).
  rewrite parse_fmt_i64 by ints. simpl. rewrite parse_fmt_i16 by ints. simpl.
  by apply FencingToken_new_wf.
Qed.

(** ** Order of tokens *)

#[global] Instance token_le_total : Total token_le.
Proof. intros [] []. unfold token_le; simpl. lia. Qed.
#[global] Instance token_le_trans : Transitive token_le.
Proof. intros [] [] []. unfold token_le; simpl. lia. Qed.
#[global] Instance token_le_antisymm : AntiSymm (=) token_le.
Proof. intros [] []. unfold token_le; simpl. intros; f_equal; lia. Qed.
#[global] Instance token_lt_trans : Transitive token_lt.
Proof. intros [] [] []. unfold token_lt; simpl. lia. Qed.

(** What the transaction coordinator does on [InitProducerId]: bump the epoch,
    or, when the epoch is used up, allocate a fresh producer id at epoch 0. *)
Inductive mint : FencingToken → FencingToken → Prop :=
| mint_bump p e : e < i16_max → mint (mkToken p e) (mkToken p (e + 1))
| mint_fresh p e q : p < q → mint (mkToken p e) (mkToken q 0).

Lemma mint_increases a b : tc mint a b → token_lt a b.
Proof.
  assert (∀ x y, mint x y → token_lt x y) as Hone.
  { intros x y []; unfold token_lt; simpl; lia. }
  induction 1 as [x y H|x y z H _ IH]; [by apply Hone|].
  by transitivity y; [apply Hone|].
Qed.

(** ** Properties *)

(** C25: the key codec is exact: [decode_key] accepts exactly the encodings of
    well-formed keys, and returns the key that was encoded. *)
Theorem key_codec_exact (d : bytes) (k : CoordinationKey) :
  decode_key d = Ok k ↔ key_wf k ∧ d = encode_key k.
Proof. apply decode_key_ok. Qed.

(** the value codec is exact under either key kind: a value decodes exactly
    when it is the encoding of a well-formed value of that kind (a null value
    is the tombstone), and decoding returns it. *)
Theorem value_codec_exact (kind : RecordKind) (d : option bytes) (r : CoordinationRecord) :
  decode_value kind d = Ok r ↔ record_wf kind r ∧ d = encode_value r.
Proof. apply decode_value_ok. Qed.

(** the text form of a fencing token is parsed back to the same token. *)
Theorem token_display_from_str (t : FencingToken) :
  token_wf t → token_from_str (token_to_string t) = Ok t.
Proof. apply token_text_roundtrip. Qed.

Lemma token_display_from_str_witness :
  token_from_str "4242:7" = Ok (mkToken 4242 7).
Proof.
  apply (token_display_from_str (mkToken 4242 7)).
  unfold token_wf; simpl; split; ints.
Defined.

(** every token that the coordinator mints after [a] is greater than [a] in
    the derived order, also when the epoch is used up and a fresh producer id
    starts again at epoch 0. *)
Theorem minted_token_greater (a b : FencingToken) :
  tc mint a b → token_lt a b ∧ ¬ token_le b a.
Proof.
  intros H%mint_increases. split; [done|]. revert H. unfold token_lt, token_le. lia.
Qed.

Lemma minted_token_greater_witness :
  token_lt (mkToken 4 i16_max) (mkToken 9 1) ∧ ¬ token_le (mkToken 9 1) (mkToken 4 i16_max).
Proof.
  apply minted_token_greater.
  eapply tc_l; [apply (mint_fresh 4 i16_max 9); lia|].
  apply tc_once, (mint_bump 9 0); ints.
Defined.
