(* ===== verification/Errors.v ===== *)
(** * Error types of the crates

    The error enums of [client-core], [client-producer], [client-admin] and
    [client-coordination], with the source's variants.  A payload that the
    client only passes on or displays (an I/O error, an address, a codec
    error) is its rendered text. *)

From Stdlib Require Import SpecFloat.
From S2P Require Import Prelude CoordRecord.

(** ** [client-core/src/error.rs] *)

Module ClientError.
Inductive sasl_authentication_error : Type :=
| UnsupportedMechanism (message : string)
| IllegalState (message : string)
| Failed (message : string).

Inductive authentication_error : Type :=
| AuthTls (source : string)
| AuthSasl (source : sasl_authentication_error).

Inductive client_error : Type :=
| Connect (addr source : string)
| Tls (addr source : string)
| Sasl (addr source : string)
| Authentication (addr : string) (source : authentication_error)
| Disconnected
| InvalidConfig (message : string)
| InvalidArgument (message : string)
| TelemetryDisabled
| Timeout (after : string)
| IncompatibleVersion (api_key broker_min broker_max client_min client_max : Z)
| Server (error_code : Z)
| NoCoordinator (key : string)
| Codec (source : string)
| Io (source : string).

#[global] Instance sasl_authentication_error_eq_dec : EqDecision sasl_authentication_error.
Proof. solve_decision. Defined.
#[global] Instance authentication_error_eq_dec : EqDecision authentication_error.
Proof. solve_decision. Defined.
#[global] Instance client_error_eq_dec : EqDecision client_error.
Proof. solve_decision. Defined.

Definition is_authentication_failure (e : client_error) : bool :=
  match e with Authentication _ _ => true | _ => false end.
End ClientError.

(** ** [client-producer/src/error.rs] *)

Module ProducerError.
Inductive record_size_limit : Type :=
| MaxRequestSize (size : Z)
| BufferMemory.

Inductive producer_error : Type :=
| Client (source : ClientError.client_error)
| Protocol (source : string)
| Server (code : Z)
| FencedProducer
| InvalidConfig (message : string)
| InvalidPartition (partition : Z)
| InvalidTimestamp (timestamp : Z)
| InvalidPartitionerResult (partition : Z)
| BatchTooLarge (batch_size : Z)
| RecordTooLarge (record_size : Z) (limit : record_size_limit)
| BufferExhausted (size max_block total available poolable : Z)
| Closed
| FlushTimeout
| MetadataTimeout (topic : string) (partition partition_count : option Z) (waited : Z)
| SendTimeout
| Compression (source : string)
| NotTransactional
| InvalidTransactionState (state : string)
| TransactionAborted
| ConcurrentTransactions
| RecoveryRequired
| FatalTransactionError (code : Z).

#[global] Instance record_size_limit_eq_dec : EqDecision record_size_limit.
Proof. solve_decision. Defined.
#[global] Instance producer_error_eq_dec : EqDecision producer_error.
Proof. solve_decision. Defined.
End ProducerError.

(** ** [client-admin/src/lib.rs] *)

Module AdminError.
Inductive admin_error : Type :=
| Connect (tried : Z) (source : option admin_error)
| InvalidConfig (message : string)
| InvalidArgument (message : string)
| Broker (api : string) (code : Z) (name : string) (message : option string)
| Transport (source : ClientError.client_error)
| Protocol (message : string).

Definition is_authentication_failure (e : admin_error) : bool :=
  match e with
  | Transport error => ClientError.is_authentication_failure error
  | _ => false
  end.
End AdminError.

(** ** [client-coordination/src/error.rs]

    The text of [InvalidConfig] is its template and arguments. *)

Module CoordinationError.
Inductive config_message : Type :=
| MsgExtent (field : string) (seconds : spec_float)
| MsgRenewInterval (renew_millis duration_millis : Z)
| MsgNoBootstrap (bootstrap : string)
| MsgTopicPartitions (partitions : Z)
| MsgTopicReplication (replication : Z)
| MsgReportsPartitions (partitions : Z).

Inductive coordination_error : Type :=
| Record_ (source : RecordError)
| Client (source : ClientError.client_error)
| Producer (source : ProducerError.producer_error)
| Admin (source : AdminError.admin_error)
| Fenced (role : Role)
| NotHeld (role : Role) (member : MemberId)
| AcquireTimeout (role : Role)
| InvalidConfig (message : config_message).

Definition is_fenced (e : coordination_error) : bool :=
  match e with
  | Fenced _ => true
  | Producer ProducerError.FencedProducer => true
  | _ => false
  end.
End CoordinationError.
