(* ===== verification/CoordLease.v ===== *)
(** * The lease clock

    [crates/client-coordination/src/lease.rs]. The extents are [Time] values of
    the [krabka-units] package, a dependency that is not part of the
    repository: [TimeOps] lists the operations the client calls, and
    [TimeLaws] what it relies on. Seconds are IEEE binary64 numbers, modelled
    with [spec_float] of the standard library. *)

From Stdlib Require Import SpecFloat.
From S2P Require Import Prelude CoordRecord Errors.

(** ** Binary64 *)

Notation f64 := spec_float.
Definition f64_mul : f64 → f64 → f64 := SFmul 53 1024.
Definition f64_leb : f64 → f64 → bool := SFleb.
Definition f64_of_Z (z : Z) : f64 := binary_normalize 53 1024 z 0 false.
Definition f64_zero : f64 := S754_zero false.
Definition f64_is_finite (x : f64) : bool :=
  match x with S754_zero _ | S754_finite _ _ _ => true | _ => false end.

(** ** The [Time] quantity of [krabka-units] *)

Class TimeOps : Type := {
  Time : Type;
  secs : Z → Time;
  secs_f64 : Time → f64;
  millis_i64 : Time → Z;
  from_millis : Z → Time;
  time_geb : Time → Time → bool;
}.

(** A finite, positive extent. *)
Definition time_positive `{TimeOps} (t : Time) : Prop :=
  f64_is_finite (secs_f64 t) = true ∧ f64_leb (secs_f64 t) f64_zero = false.

#[global] Instance time_positive_dec `{TimeOps} t : Decision (time_positive t).
Proof. unfold time_positive. apply _. Defined.

Class TimeLaws `{TimeOps} : Prop := {
  millis_i64_range t : is_i64 (millis_i64 t);
  millis_i64_nonneg t : time_positive t → 0 ≤ millis_i64 t;
  millis_i64_from z : 0 ≤ z → is_i64 z → millis_i64 (from_millis z) = z;
  secs_f64_secs n : 0 < n ≤ 86400 → secs_f64 (secs n) = f64_of_Z n;
  millis_i64_secs n : 0 < n ≤ 86400 → millis_i64 (secs n) = 1000 * n;
  time_geb_secs s t : time_geb s t = f64_leb (secs_f64 t) (secs_f64 s);
}.

Section lease.
Context `{TimeOps}.

(** ** [LeaseConfig] *)

Definition DEFAULT_LEASE_DURATION : Time := secs 30.
Definition DEFAULT_RENEW_INTERVAL : Time := secs 10.
Definition DEFAULT_CHALLENGE_STAGGER : Time := secs 5.
Definition RECOMMENDED_RENEW_FRACTION : f64 := f64_of_Z 3.

Record LeaseConfig : Type := mkLeaseConfig {
  duration : Time;
  renew_interval : Time;
  challenge_stagger : Time;
}.

Definition LeaseConfig_default : LeaseConfig :=
  mkLeaseConfig DEFAULT_LEASE_DURATION DEFAULT_RENEW_INTERVAL DEFAULT_CHALLENGE_STAGGER.

Definition check_extent (field : string) (value : Time)
    : result CoordinationError.coordination_error unit :=
  let seconds := secs_f64 value in
  if negb (f64_is_finite seconds) || f64_leb seconds f64_zero
  then Err (CoordinationError.InvalidConfig (CoordinationError.MsgExtent field seconds))
  else Ok tt.

Definition LeaseConfig_new (dur renew stagger : Time)
    : result CoordinationError.coordination_error LeaseConfig :=
  _ ← check_extent "lease duration" dur;
  _ ← check_extent "renew interval" renew;
  _ ← check_extent "challenge stagger" stagger;
  if time_geb renew dur
  then Err (CoordinationError.InvalidConfig
              (CoordinationError.MsgRenewInterval (millis_i64 renew) (millis_i64 dur)))
  else Ok (mkLeaseConfig dur renew stagger).

Definition renews_with_margin (c : LeaseConfig) : bool :=
  f64_leb (f64_mul (secs_f64 (renew_interval c)) RECOMMENDED_RENEW_FRACTION)
          (secs_f64 (duration c)).

Definition challenge_delay_millis (c : LeaseConfig) (rank : Z) : Z :=
  let rank := default i64_max (i64_try_from rank) in
  i64_saturating_mul rank (millis_i64 (challenge_stagger c)).

Definition grant (c : LeaseConfig) (member : MemberId) (token : FencingToken)
    (now_millis : Z) : Lease :=
  mkLease member token now_millis
    (i64_saturating_add now_millis (millis_i64 (duration c))).

(** ** [LeaseTiming]: a lease record bound to a policy *)

Record LeaseTiming : Type := mkTiming { timing_lease : Lease; timing_config : LeaseConfig }.

Definition timing (c : LeaseConfig) (lease : Lease) : LeaseTiming := mkTiming lease c.

Definition expires_at_millis (t : LeaseTiming) : Z := deadline (timing_lease t).

Definition is_live_at (t : LeaseTiming) (now_millis : Z) : bool :=
  now_millis <? deadline (timing_lease t).

Definition remaining_at (t : LeaseTiming) (now_millis : Z) : Time :=
  let left := Z.max (i64_saturating_sub (deadline (timing_lease t)) now_millis) 0 in
  from_millis left.

Definition renew_at_millis (t : LeaseTiming) : Z :=
  Z.min (i64_saturating_add (granted_at (timing_lease t))
           (millis_i64 (renew_interval (timing_config t))))
        (deadline (timing_lease t)).

Definition renew_due_at (t : LeaseTiming) (now_millis : Z) : bool :=
  renew_at_millis t <=? now_millis.

Definition challenge_at_millis (t : LeaseTiming) (rank : Z) : Z :=
  i64_saturating_add (deadline (timing_lease t))
    (challenge_delay_millis (timing_config t) rank).

(** ** Clocks *)

(** [signed_millis]: [inl] is a duration after the epoch, [inr] one before
    it; a [Duration] in milliseconds is a natural number. *)
Definition signed_millis (since_epoch : Z + Z) : Z :=
  match since_epoch with
  | inl after => default i64_max (i64_try_from after)
  | inr before => - default i64_max (i64_try_from before)
  end.

(** [TestClock]: [AtomicI64::fetch_add] wraps on overflow. *)
Definition TestClock_set (_ now_millis : Z) : Z := now_millis.
Definition TestClock_advance (now_millis : Z) (step : Time) : Z :=
  cast_signed 64 ((now_millis + millis_i64 step) mod 2 ^ 64).

(** ** Laws of the policy *)

(** The invariant that [LeaseConfig::new] establishes. *)
Definition config_wf (c : LeaseConfig) : Prop :=
  time_positive (duration c) ∧ time_positive (renew_interval c)
  ∧ time_positive (challenge_stagger c)
  ∧ time_geb (renew_interval c) (duration c) = false.

Lemma check_extent_ok field t u : check_extent field t = Ok u ↔ time_positive t.
Proof.
  unfold check_extent, time_positive. destruct u, (f64_is_finite _), (f64_leb _ _);
    simpl; intuition congruence.
Qed.

Lemma LeaseConfig_new_ok d r s c :
  LeaseConfig_new d r s = Ok c ↔ config_wf c ∧ c = mkLeaseConfig d r s.
Proof.
  unfold LeaseConfig_new, config_wf. split.
  - intros Hn. result_inv. destruct (time_geb r d) eqn:E; [done|].
    injection Hn as <-. simpl.
    repeat match goal with H : check_extent _ _ = Ok _ |- _ => apply check_extent_ok in H end.
    done.
  - intros [(Hd & Hr & Hs & Hg) ->]; simpl in *.
    rewrite !(λ f t h, proj2 (check_extent_ok f t tt) h) by done. simpl. by rewrite Hg.
Qed.

Context `{!TimeLaws}.

Lemma challenge_delay_range c rank :
  config_wf c → 0 ≤ rank → 0 ≤ challenge_delay_millis c rank ≤ i64_max.
Proof.
  intros (_ & _ & Hs%millis_i64_nonneg & _) Hr.
  unfold challenge_delay_millis, i64_saturating_mul, sat_i64, i64_try_from.
  case_decide; simpl; [|ints].
  assert (0 ≤ rank * millis_i64 (challenge_stagger c)) by nia. ints.
Qed.

Lemma challenge_delay_0 c : challenge_delay_millis c 0 = 0.
Proof. reflexivity. Qed.

Lemma challenge_delay_mono c a b :
  config_wf c → 0 ≤ a ≤ b → challenge_delay_millis c a ≤ challenge_delay_millis c b.
Proof.
  intros (_ & _ & Hs%millis_i64_nonneg & _) Hab.
  unfold challenge_delay_millis, i64_saturating_mul, i64_try_from.
  apply sat_i64_mono, Z.mul_le_mono_nonneg_r; [done|].
  repeat case_decide; simpl; ints.
Qed.

Lemma challenge_at_range t rank : is_i64 (challenge_at_millis t rank).
Proof. apply sat_i64_range. Qed.

Lemma challenge_at_mono t a b :
  config_wf (timing_config t) → 0 ≤ a ≤ b → challenge_at_millis t a ≤ challenge_at_millis t b.
Proof.
  intros Hc Hab. apply sat_i64_mono. pose proof (challenge_delay_mono _ a b Hc Hab). lia.
Qed.

Lemma challenge_at_0 t :
  is_i64 (deadline (timing_lease t)) → challenge_at_millis t 0 = deadline (timing_lease t).
Proof.
  intros Hd. unfold challenge_at_millis, i64_saturating_add.
  rewrite challenge_delay_0, Z.add_0_r. by apply sat_i64_id.
Qed.

Lemma challenge_at_deadline t rank :
  config_wf (timing_config t) → is_i64 (deadline (timing_lease t)) → 0 ≤ rank →
  deadline (timing_lease t) ≤ challenge_at_millis t rank.
Proof.
  intros Hc Hd Hr. rewrite <- (challenge_at_0 t) by done. apply challenge_at_mono; [done|lia].
Qed.

Lemma grant_wf c m t now :
  member_wf m → token_wf t → is_i64 now → lease_wf (grant c m t now).
Proof. intros Hm Ht Hn. split_and!; [done|done|done|apply sat_i64_range]. Qed.

(** A fresh grant is live for exactly the lease duration. *)
Lemma grant_live c m t now at_millis :
  is_i64 now → now + millis_i64 (duration c) ≤ i64_max → config_wf c →
  is_live_at (timing c (grant c m t now)) at_millis = true ↔
  at_millis < now + millis_i64 (duration c).
Proof.
  intros Hn Hd (Hp%millis_i64_nonneg & _). unfold is_live_at, grant; simpl.
  unfold i64_saturating_add. rewrite sat_i64_id by ints. apply Z.ltb_lt.
Qed.

(** The renewal instant of a fresh grant lies between the grant and the
    deadline. *)
Lemma renew_at_grant c m t now :
  config_wf c → is_i64 now →
  now ≤ renew_at_millis (timing c (grant c m t now)) ≤ deadline (grant c m t now).
Proof.
  intros (Hd%millis_i64_nonneg & Hr%millis_i64_nonneg & _ & _) Hn.
  unfold renew_at_millis, grant, i64_saturating_add, sat_i64; simpl. ints.
Qed.
End lease.
Arguments LeaseConfig {_}.
Arguments LeaseTiming {_}.

(** ** A concrete [Time]: a grid of [k] steps per millisecond

    An instance of the interface, at which the theorems about every [Time] are
    evaluated. *)

Definition grid_secs_f64 (k z : Z) : f64 :=
  if z <=? 0 then f64_zero
  else if z mod (1000 * k) =? 0 then f64_of_Z (z / (1000 * k))
  else SFdiv 53 1024 (f64_of_Z z) (f64_of_Z (1000 * k)).

Definition GridTime (k : Z) : TimeOps := {|
  Time := Z;
  secs n := n * (1000 * k);
  secs_f64 := grid_secs_f64 k;
  millis_i64 z := sat_i64 (z / k);
  from_millis z := z * k;
  time_geb s t := f64_leb (grid_secs_f64 k t) (grid_secs_f64 k s);
|}.

Lemma GridTime_laws k : 0 < k → @TimeLaws (GridTime k).
Proof.
  intros Hk. split; simpl.
  - intros t. apply sat_i64_range.
  - intros t [_ Hp]. simpl in Hp. unfold grid_secs_f64 in Hp.
    destruct (Z.leb_spec t 0); [done|].
    pose proof (Z.div_pos t k ltac:(lia) Hk). unfold sat_i64. ints.
  - intros z Hz Hr. rewrite Z.div_mul by lia. by apply sat_i64_id.
  - intros n Hn. unfold grid_secs_f64. destruct (Z.leb_spec (n * (1000 * k)) 0); [nia|].
    rewrite Z.mod_mul, Z.div_mul by lia. done.
  - intros n Hn. replace (n * (1000 * k)) with (1000 * n * k) by lia.
    rewrite Z.div_mul by lia. apply sat_i64_id. ints.
  - done.
Qed.

Definition MillisTime : TimeOps := GridTime 1.
Definition MicrosTime : TimeOps := GridTime 1000.

#[global] Instance MillisTime_laws : @TimeLaws MillisTime.
Proof. apply GridTime_laws. lia. Qed.
#[global] Instance MicrosTime_laws : @TimeLaws MicrosTime.
Proof. apply GridTime_laws. lia. Qed.

(** ** Properties *)

(** [LeaseConfig::new] accepts exactly three positive finite extents whose
    renew interval is below the duration, and keeps them; the defaults satisfy
    this and the recommended renewal margin. *)
Theorem lease_config_new_spec `{TimeLaws} (d r s : Time) (c : LeaseConfig) :
  (LeaseConfig_new d r s = Ok c ↔ config_wf c ∧ c = mkLeaseConfig d r s)
  ∧ LeaseConfig_new DEFAULT_LEASE_DURATION DEFAULT_RENEW_INTERVAL DEFAULT_CHALLENGE_STAGGER
    = Ok LeaseConfig_default
  ∧ renews_with_margin LeaseConfig_default = true.
Proof.
  split_and!.
  - apply LeaseConfig_new_ok.
  - apply LeaseConfig_new_ok. split; [|done]. unfold config_wf, time_positive; simpl.
    unfold DEFAULT_LEASE_DURATION, DEFAULT_RENEW_INTERVAL, DEFAULT_CHALLENGE_STAGGER.
    rewrite time_geb_secs, !secs_f64_secs by lia. vm_compute. auto 10.
  - unfold renews_with_margin, RECOMMENDED_RENEW_FRACTION; simpl.
    unfold DEFAULT_LEASE_DURATION, DEFAULT_RENEW_INTERVAL.
    rewrite !secs_f64_secs by lia. reflexivity.
Qed.

Lemma lease_config_new_spec_witness :
  @LeaseConfig_new MillisTime 30000 10000 5000 = Ok (@mkLeaseConfig MillisTime 30000 10000 5000).
Proof.
  apply (proj1 (@lease_config_new_spec MillisTime _ 30000 10000 5000
                  (@mkLeaseConfig MillisTime 30000 10000 5000))).
  split; [|reflexivity]. vm_compute. auto 10.
Defined.

(** the lease clock leaves no gap and no overlap: rank 0 may challenge from
    exactly the instant at which the lease stops being live, every later rank
    waits at least as long, and no instant overflows. *)
Theorem lease_clock_no_gap `{TimeLaws} (t : LeaseTiming) (a b now : Z) :
  config_wf (timing_config t) → lease_wf (timing_lease t) → 0 ≤ a ≤ b →
  (is_live_at t now = false ↔ challenge_at_millis t 0 ≤ now)
  ∧ challenge_at_millis t a ≤ challenge_at_millis t b
  ∧ is_i64 (challenge_at_millis t b).
Proof.
  intros Hc (_ & _ & _ & Hd) Hab. split_and!.
  - rewrite challenge_at_0 by done. unfold is_live_at. rewrite Z.ltb_ge. done.
  - by apply challenge_at_mono.
  - apply challenge_at_range.
Qed.

Definition sample_member : MemberId := mkMemberId "node-1" 6.
Definition sample_config : @LeaseConfig MillisTime := @mkLeaseConfig MillisTime 30000 10000 5000.
Definition sample_lease : Lease :=
  mkLease sample_member (mkToken 4242 7) 1700000000000 1700000030000.

Lemma sample_config_wf : config_wf sample_config.
Proof. vm_compute. auto 10. Qed.

Lemma sample_lease_wf : lease_wf sample_lease.
Proof. apply (bool_decide_unpack _). vm_compute. done. Qed.

Lemma lease_clock_no_gap_witness :
  is_live_at (timing sample_config sample_lease) 1700000030000 = false
  ∧ challenge_at_millis (timing sample_config sample_lease) 2 = 1700000040000.
Proof.
  split; [|reflexivity].
  apply (lease_clock_no_gap (timing sample_config sample_lease) 0 2 1700000030000).
  - apply sample_config_wf.
  - apply sample_lease_wf.
  - lia.
  - vm_compute. done.
Defined.

(** a granted lease is well formed, is live for exactly the duration of the
    policy, and is due for renewal no later than its deadline. *)
Theorem lease_grant_spec `{TimeLaws} (c : LeaseConfig) (m : MemberId) (tok : FencingToken)
    (now at_millis : Z) :
  config_wf c → member_wf m → token_wf tok → is_i64 now →
  now + millis_i64 (duration c) ≤ i64_max →
  lease_wf (grant c m tok now)
  ∧ (is_live_at (timing c (grant c m tok now)) at_millis = true ↔
     at_millis < now + millis_i64 (duration c))
  ∧ now ≤ renew_at_millis (timing c (grant c m tok now)) ≤ deadline (grant c m tok now).
Proof.
  intros. split_and!; [by apply grant_wf|by apply grant_live|apply renew_at_grant; done..].
Qed.

Lemma lease_grant_spec_witness :
  is_live_at (timing sample_config (grant sample_config sample_member (mkToken 4242 7) 1000)) 30999
  = true.
Proof.
  apply (lease_grant_spec sample_config sample_member (mkToken 4242 7) 1000 30999).
  - apply sample_config_wf.
  - apply (bool_decide_unpack _). vm_compute. done.
  - apply (bool_decide_unpack _). vm_compute. done.
  - ints.
  - vm_compute. done.
  - vm_compute. done.
Defined.

(** the doc comment of [renew_at_millis] says that a holder that follows it
    always writes before it loses the lease. Extents are compared as [Time] and
    applied as milliseconds, so when the two differ by less than a millisecond
    the renewal instant is one at which the lease is no longer live. *)
Theorem renew_at_may_be_expired `{TimeLaws} (c : LeaseConfig) (m : MemberId)
    (tok : FencingToken) (now : Z) :
  config_wf c → millis_i64 (renew_interval c) = millis_i64 (duration c) →
  let t := timing c (grant c m tok now) in
  is_live_at t (renew_at_millis t) = false.
Proof.
  intros Hc Heq t. unfold is_live_at, renew_at_millis, t; simpl.
  rewrite Heq, Z.min_id. apply Z.ltb_irrefl.
Qed.

Lemma renew_at_may_be_expired_witness :
  ∃ c : @LeaseConfig MicrosTime,
    @LeaseConfig_new MicrosTime 10900 10300 5000 = Ok c
    ∧ let t := timing c (grant c sample_member (mkToken 4242 7) 1000) in
      is_live_at t (renew_at_millis t) = false.
Proof.
  exists (@mkLeaseConfig MicrosTime 10900 10300 5000). split.
  { apply LeaseConfig_new_ok. split; [vm_compute; auto 10|reflexivity]. }
  apply (renew_at_may_be_expired (@mkLeaseConfig MicrosTime 10900 10300 5000)
           sample_member (mkToken 4242 7) 1000).
  - vm_compute. auto 10.
  - vm_compute. done.
Defined.
