(* ===== verification/CoordSuccession.v ===== *)
(** * Succession of a role

    [crates/client-coordination/src/succession.rs]: the fold of the records of
    one role into a [RoleState], the rank of a candidate, and the decision of
    one member. [RoleStateBuilder] keeps its members in a [HashMap]; [build]
    enumerates it in an unspecified order, so [build_from] takes the
    enumeration and the lemmas show that it does not matter. The enum
    [Decision] of the source is [RoleDecision] here, since [Decision] is the
    decidability class of stdpp. *)

From S2P Require Import Prelude CoordRecord Errors CoordLease.

(** ** State *)

Record RosterEntry : Type := mkEntry {
  entry_member : MemberId;
  entry_offset : Z;
  entry_registered_at : Z;
}.

Record RoleState : Type := mkRoleState {
  roster : list RosterEntry;
  state_lease : option Lease;
}.

Record MemberSlot : Type := mkMemberSlot {
  slot_offset : Z;
  slot_registered_at : option Z;
}.

Record LeaseSlot : Type := mkLeaseSlot {
  lease_slot_offset : Z;
  slot_lease : option Lease;
}.

Record RoleStateBuilder : Type := mkBuilder {
  builder_role : Role;
  members : gmap MemberId MemberSlot;
  builder_lease : option LeaseSlot;
}.

Notation log_entry := (Z * CoordinationKey * CoordinationRecord)%type.

#[global] Instance RosterEntry_eq_dec : EqDecision RosterEntry.
Proof. solve_decision. Defined.
#[global] Instance MemberSlot_eq_dec : EqDecision MemberSlot.
Proof. solve_decision. Defined.
#[global] Instance LeaseSlot_eq_dec : EqDecision LeaseSlot.
Proof. solve_decision. Defined.

(** ** The fold *)

Definition RoleStateBuilder_new (role : Role) : RoleStateBuilder := mkBuilder role ∅ None.

Definition put_member (b : RoleStateBuilder) (offset : Z) (member : MemberId)
    (at_millis : option Z) : RoleStateBuilder :=
  let slot := mkMemberSlot offset at_millis in
  match members b !! member with
  | Some held =>
    if offset <=? slot_offset held then b
    else mkBuilder (builder_role b) (<[member := slot]> (members b)) (builder_lease b)
  | None => mkBuilder (builder_role b) (<[member := slot]> (members b)) (builder_lease b)
  end.

Definition put_lease (b : RoleStateBuilder) (offset : Z) (lease : option Lease)
    : RoleStateBuilder :=
  if match builder_lease b with
     | Some held => offset <=? lease_slot_offset held
     | None => false
     end
  then b
  else mkBuilder (builder_role b) (members b) (Some (mkLeaseSlot offset lease)).

Definition apply_record (b : RoleStateBuilder) (offset : Z) (key : CoordinationKey)
    (record : CoordinationRecord) : RoleStateBuilder :=
  if decide (key_role key = builder_role b) then
    match key_kind key, record with
    | KindRegistration, RecRegistration registration =>
      match key_member key with
      | Some member => put_member b offset member (Some (registered_at registration))
      | None => b
      end
    | KindRegistration, RecTombstone =>
      match key_member key with
      | Some member => put_member b offset member None
      | None => b
      end
    | KindLease, RecLease lease => put_lease b offset (Some lease)
    | KindLease, RecTombstone => put_lease b offset None
    | KindRegistration, RecLease _ => b
    | KindLease, RecRegistration _ => b
    end
  else b.

Definition offset_le (a b : RosterEntry) : Prop := entry_offset a ≤ entry_offset b.

#[global] Instance offset_le_dec : RelDecision offset_le.
Proof. intros a b. unfold offset_le. apply _. Defined.

Definition slot_entry (p : MemberId * MemberSlot) : option RosterEntry :=
  (λ at_millis, mkEntry p.1 (slot_offset p.2) at_millis) <$> slot_registered_at p.2.

Definition build_from (enumeration : list (MemberId * MemberSlot)) (lease : option LeaseSlot)
    : RoleState :=
  mkRoleState (sort_by offset_le (omap slot_entry enumeration)) (lease ≫= slot_lease).

Definition build (b : RoleStateBuilder) : RoleState :=
  build_from (map_to_list (members b)) (builder_lease b).

Definition apply_entry (b : RoleStateBuilder) (r : log_entry) : RoleStateBuilder :=
  let '(offset, key, record) := r in apply_record b offset key record.

Definition fold_records (b : RoleStateBuilder) (records : list log_entry) : RoleStateBuilder :=
  foldl apply_entry b records.

Definition from_records (role : Role) (records : list log_entry) : RoleState :=
  build (fold_records (RoleStateBuilder_new role) records).

(** ** Queries *)

Definition holder (s : RoleState) : option MemberId := lease_member <$> state_lease s.

Definition entry (s : RoleState) (member : MemberId) : option RosterEntry :=
  snd <$> list_find (λ e, entry_member e = member) (roster s).

Definition rank_of (s : RoleState) (member : MemberId) : option Z :=
  match entry s member with
  | None => None
  | Some _ =>
    if decide (holder s = Some member) then Some 0
    else (λ p, Z.of_nat p.1) <$>
      list_find (λ e, entry_member e = member)
        (filter (λ e, Some (entry_member e) ≠ holder s) (roster s))
  end.

(** ** The decision of one member *)

Inductive RoleDecision : Type :=
| Hold
| Challenge
| Wait (until_millis : Z)
| NotRegistered.

#[global] Instance RoleDecision_eq_dec : EqDecision RoleDecision.
Proof. solve_decision. Defined.

Section decision.
Context `{TimeOps}.

Definition evaluate (s : RoleState) (me : MemberId) (now_millis : Z) (config : LeaseConfig)
    : RoleDecision :=
  match entry s me, rank_of s me with
  | Some e, Some rank =>
    let decide_at challenge_at :=
      if challenge_at <=? now_millis then Challenge else Wait challenge_at in
    match state_lease s with
    | Some lease =>
      let t := timing config lease in
      if bool_decide (lease_member lease = me) && is_live_at t now_millis then Hold
      else decide_at (challenge_at_millis t rank)
    | None =>
      decide_at (i64_saturating_add (entry_registered_at e)
                   (challenge_delay_millis config rank))
    end
  | _, _ => NotRegistered
  end.
End decision.

(** ** What the fold keeps: the latest record of every key

    [latest] is the specification: of a list of offset-stamped values, the one
    of the highest offset (and the first of them on a tie). *)

Definition keep_latest {V} (held : option (Z * V)) (v : Z * V) : option (Z * V) :=
  match held with
  | Some h => if v.1 <=? h.1 then Some h else Some v
  | None => Some v
  end.

Definition latest {V} (l : list (Z * V)) : option (Z * V) := foldl keep_latest None l.

Section latest.
Context {V : Type}.
Implicit Types (l : list (Z * V)) (p : Z * V).

Lemma keep_latest_spec l h p :
  foldl keep_latest (Some h) l = Some p ↔
  (p = h ∧ ∀ q, q ∈ l → q.1 ≤ h.1) ∨ (h.1 < p.1 ∧ latest l = Some p).
Proof.
  revert h p. induction l as [|v l IH]; intros h p; simpl.
  { split; [|naive_solver]. intros [= <-]. left. split; [done|]. intros q Hq.
    by apply elem_of_nil in Hq. }
  unfold latest; simpl. destruct (Z.leb_spec v.1 h.1) as [Hv|Hv].
  - rewrite IH, (IH v). setoid_rewrite elem_of_cons. split.
    + intros [[-> Hq]|[Hlt Hp]]; [left; naive_solver|].
      right. split; [done|]. right. split; [lia|done].
    + intros [[-> Hq]|[Hlt [[-> Hq]|[Hlt' Hp]]]]; [left; naive_solver|lia|by right].
  - rewrite !(IH v). setoid_rewrite elem_of_cons. split.
    + intros [[-> Hq]|[Hlt Hp]]; right; (split; [lia|]); naive_solver.
    + intros [[-> Hq]|[Hlt [[-> Hq]|[Hlt' Hp]]]].
      * specialize (Hq v (or_introl eq_refl)). lia.
      * by left.
      * by right.
Qed.

Lemma latest_cons v l p :
  latest (v :: l) = Some p ↔
  (p = v ∧ ∀ q, q ∈ l → q.1 ≤ v.1) ∨ (v.1 < p.1 ∧ latest l = Some p).
Proof. unfold latest at 1; simpl. apply keep_latest_spec. Qed.

Lemma latest_None l : latest l = None ↔ l = [].
Proof.
  split; [|by intros ->]. unfold latest. destruct l as [|v l]; [done|]. simpl.
  intros Hn. exfalso. revert v Hn. induction l as [|v l IH]; intros h; simpl; [done|].
  destruct (v.1 <=? h.1); apply IH.
Qed.

Lemma latest_max l p : latest l = Some p → p ∈ l ∧ ∀ q, q ∈ l → q.1 ≤ p.1.
Proof.
  revert p. induction l as [|v l IH]; intros p; [done|].
  rewrite latest_cons. setoid_rewrite elem_of_cons.
  intros [[-> Hq]|[Hlt Hp]].
  - split; [by left|]. intros q [->|Hql]; [lia|by apply Hq].
  - destruct (IH p Hp) as [Hin Hmax]. split; [by right|].
    intros q [->|Hql]; [lia|by apply Hmax].
Qed.

(** With distinct offsets the latest value is determined by the set. *)
Lemma latest_unique l p :
  NoDup l.*1 → p ∈ l → (∀ q, q ∈ l → q.1 ≤ p.1) → latest l = Some p.
Proof.
  intros Hnd Hp Hmax. destruct (latest l) as [q|] eqn:E.
  - apply latest_max in E as [Hq Hqmax]. f_equal.
    assert (q.1 = p.1) by (specialize (Hmax q Hq); specialize (Hqmax p Hp); lia).
    apply list_elem_of_lookup in Hp as [i Hi]. apply list_elem_of_lookup in Hq as [j Hj].
    assert (i = j) as ->; [|congruence].
    apply (NoDup_lookup l.*1 i j p.1); [done| |]; rewrite list_lookup_fmap.
    + by rewrite Hi.
    + rewrite Hj. simpl. congruence.
  - apply latest_None in E as ->. by apply elem_of_nil in Hp.
Qed.

Lemma latest_perm l1 l2 : NoDup l1.*1 → l1 ≡ₚ l2 → latest l1 = latest l2.
Proof.
  intros Hnd Hp. destruct (latest l2) as [q|] eqn:E.
  - apply latest_max in E as [Hq Hmax]. apply latest_unique; [done|by rewrite Hp|].
    intros r. rewrite Hp. apply Hmax.
  - apply latest_None in E as ->. by apply Permutation_nil_r in Hp as ->.
Qed.
End latest.

(** ** Events of one key

    The offset-stamped values that the records of the partition hold for one
    member, and for the lease, of one role. *)

Definition reg_event (role : Role) (m : MemberId) (r : log_entry) : option (Z * option Z) :=
  let '(offset, key, record) := r in
  if decide (key_role key = role ∧ key_kind key = KindRegistration ∧ key_member key = Some m)
  then match record with
       | RecRegistration reg => Some (offset, Some (registered_at reg))
       | RecTombstone => Some (offset, None)
       | RecLease _ => None
       end
  else None.

Definition lease_event (role : Role) (r : log_entry) : option (Z * option Lease) :=
  let '(offset, key, record) := r in
  if decide (key_role key = role ∧ key_kind key = KindLease)
  then match record with
       | RecLease l => Some (offset, Some l)
       | RecTombstone => Some (offset, None)
       | RecRegistration _ => None
       end
  else None.

Definition of_slot (s : MemberSlot) : Z * option Z := (slot_offset s, slot_registered_at s).
Definition of_lease_slot (s : LeaseSlot) : Z * option Lease := (lease_slot_offset s, slot_lease s).

Lemma of_slot_inj s t : of_slot s = of_slot t → s = t.
Proof. destruct s, t. unfold of_slot; simpl. congruence. Qed.
Lemma of_lease_slot_inj s t : of_lease_slot s = of_lease_slot t → s = t.
Proof. destruct s, t. unfold of_lease_slot; simpl. congruence. Qed.

Lemma put_member_lookup b o m a m' :
  of_slot <$> members (put_member b o m a) !! m' =
  if decide (m = m') then keep_latest (of_slot <$> members b !! m) (o, a)
  else of_slot <$> members b !! m'.
Proof.
  unfold put_member. destruct (members b !! m) as [h|] eqn:E; simpl.
  - destruct (Z.leb_spec o (slot_offset h)); simpl; case_decide; subst; simplify_map_eq;
      rewrite ?E; done.
  - case_decide; subst; by simplify_map_eq.
Qed.

Lemma put_member_rest b o m a :
  builder_role (put_member b o m a) = builder_role b
  ∧ builder_lease (put_member b o m a) = builder_lease b.
Proof. unfold put_member. by repeat case_match. Qed.

Lemma put_lease_lookup b o l :
  of_lease_slot <$> builder_lease (put_lease b o l) =
  keep_latest (of_lease_slot <$> builder_lease b) (o, l).
Proof.
  unfold put_lease. destruct (builder_lease b) as [h|] eqn:E; simpl; [|done].
  destruct (Z.leb_spec o (lease_slot_offset h)); simpl; by rewrite ?E.
Qed.

Lemma put_lease_rest b o l :
  builder_role (put_lease b o l) = builder_role b ∧ members (put_lease b o l) = members b.
Proof. unfold put_lease. by repeat case_match. Qed.

Lemma apply_entry_role b r :
  builder_role (apply_entry b r) = builder_role b.
Proof.
  unfold apply_entry, apply_record. repeat case_match; try done;
    apply put_member_rest || apply put_lease_rest.
Qed.

(** One record changes the slot of its own key, and keeps the latest value. *)
Lemma apply_entry_member b r m :
  of_slot <$> members (apply_entry b r) !! m =
  match reg_event (builder_role b) m r with
  | Some ev => keep_latest (of_slot <$> members b !! m) ev
  | None => of_slot <$> members b !! m
  end.
Proof.
  destruct r as [[o [kind role mem]] record]. unfold apply_entry, apply_record, reg_event; simpl.
  destruct (decide (role = builder_role b)) as [->|Hr];
    [|rewrite decide_False by naive_solver; done].
  destruct kind.
  - destruct mem as [m'|]; [|rewrite decide_False by naive_solver; by destruct record].
    destruct record; try rewrite put_member_lookup; repeat case_decide; naive_solver.
  - rewrite decide_False by naive_solver.
    destruct record; try done; by rewrite (proj2 (put_lease_rest _ _ _)).
Qed.

Lemma apply_entry_lease b r :
  of_lease_slot <$> builder_lease (apply_entry b r) =
  match lease_event (builder_role b) r with
  | Some ev => keep_latest (of_lease_slot <$> builder_lease b) ev
  | None => of_lease_slot <$> builder_lease b
  end.
Proof.
  destruct r as [[o [kind role mem]] record]. unfold apply_entry, apply_record, lease_event; simpl.
  destruct (decide (role = builder_role b)) as [->|Hr];
    [|rewrite decide_False by naive_solver; done].
  destruct kind.
  - rewrite decide_False by naive_solver.
    destruct record, mem; try done; by rewrite (proj2 (put_member_rest _ _ _ _)).
  - rewrite decide_True by done. destruct record; try done; apply put_lease_lookup.
Qed.

(** ** The fold computes the latest value of every key *)

Definition offsets (records : list log_entry) : list Z := (λ r, r.1.1) <$> records.

Lemma fold_records_role b records : builder_role (fold_records b records) = builder_role b.
Proof.
  unfold fold_records. revert b. induction records as [|r l IH]; intros b; simpl; [done|].
  by rewrite IH, apply_entry_role.
Qed.

Lemma fold_records_member b records m :
  of_slot <$> members (fold_records b records) !! m =
  foldl keep_latest (of_slot <$> members b !! m)
    (omap (reg_event (builder_role b) m) records).
Proof.
  unfold fold_records. revert b. induction records as [|r l IH]; intros b; [done|].
  cbn [foldl]. rewrite IH, apply_entry_member, apply_entry_role.
  simpl. by destruct (reg_event (builder_role b) m r).
Qed.

Lemma fold_records_lease b records :
  of_lease_slot <$> builder_lease (fold_records b records) =
  foldl keep_latest (of_lease_slot <$> builder_lease b)
    (omap (lease_event (builder_role b)) records).
Proof.
  unfold fold_records. revert b. induction records as [|r l IH]; intros b; [done|].
  cbn [foldl]. rewrite IH, apply_entry_lease, apply_entry_role.
  simpl. by destruct (lease_event (builder_role b) r).
Qed.

Lemma fold_new_member role records m :
  of_slot <$> members (fold_records (RoleStateBuilder_new role) records) !! m =
  latest (omap (reg_event role m) records).
Proof. by rewrite fold_records_member. Qed.

Lemma fold_new_lease role records :
  of_lease_slot <$> builder_lease (fold_records (RoleStateBuilder_new role) records) =
  latest (omap (lease_event role) records).
Proof. by rewrite fold_records_lease. Qed.

(** A fold is determined by the latest values of the keys of its role. *)
Lemma fold_records_ext role l1 l2 :
  (∀ m, latest (omap (reg_event role m) l1) = latest (omap (reg_event role m) l2)) →
  latest (omap (lease_event role) l1) = latest (omap (lease_event role) l2) →
  fold_records (RoleStateBuilder_new role) l1 = fold_records (RoleStateBuilder_new role) l2.
Proof.
  intros Hm Hl.
  destruct (fold_records (RoleStateBuilder_new role) l1) as [r1 m1 s1] eqn:E1.
  destruct (fold_records (RoleStateBuilder_new role) l2) as [r2 m2 s2] eqn:E2.
  pose proof (fold_records_role (RoleStateBuilder_new role) l1) as R1.
  pose proof (fold_records_role (RoleStateBuilder_new role) l2) as R2.
  pose proof (fold_new_lease role l1) as L1. pose proof (fold_new_lease role l2) as L2.
  rewrite E1 in R1, L1. rewrite E2 in R2, L2. simpl in *. subst r1 r2.
  f_equal.
  - apply map_eq. intros m.
    pose proof (fold_new_member role l1 m) as M1. pose proof (fold_new_member role l2 m) as M2.
    rewrite E1 in M1. rewrite E2 in M2. simpl in *. rewrite Hm, <- M2 in M1.
    destruct (m1 !! m), (m2 !! m); simplify_eq/=; [|done].
    f_equal. apply of_slot_inj. unfold of_slot. congruence.
  - rewrite Hl, <- L2 in L1. destruct s1, s2; simplify_eq/=; [|done].
    f_equal. apply of_lease_slot_inj. unfold of_lease_slot. congruence.
Qed.

Lemma reg_event_offset role m r ev : reg_event role m r = Some ev → ev.1 = r.1.1.
Proof. destruct r as [[o k] []]; simpl; case_decide; naive_solver. Qed.

Lemma lease_event_offset role r ev : lease_event role r = Some ev → ev.1 = r.1.1.
Proof. destruct r as [[o k] []]; simpl; case_decide; naive_solver. Qed.

Lemma events_NoDup {V} (f : log_entry → option (Z * V)) records :
  (∀ r ev, f r = Some ev → ev.1 = r.1.1) → NoDup (offsets records) → NoDup (omap f records).*1.
Proof.
  intros Hf. unfold offsets. induction records as [|r l IH]; simpl; [constructor|].
  rewrite NoDup_cons. intros [Hr Hl]. destruct (f r) as [ev|] eqn:E; [|by apply IH].
  simpl. rewrite NoDup_cons. split; [|by apply IH].
  intros Hin. apply Hr. rewrite (Hf _ _ E) in Hin.
  apply list_elem_of_fmap in Hin as (ev' & Heq & Hin).
  apply list_elem_of_omap in Hin as (r' & Hr' & E'). rewrite (Hf _ _ E') in Heq.
  apply list_elem_of_fmap. eauto.
Qed.

Lemma from_records_perm role l1 l2 :
  NoDup (offsets l1) → l1 ≡ₚ l2 → from_records role l1 = from_records role l2.
Proof.
  intros Hnd Hp. unfold from_records. f_equal. apply fold_records_ext.
  - intros m. apply latest_perm; [|by rewrite Hp].
    by apply events_NoDup; [apply reg_event_offset|].
  - apply latest_perm; [|by rewrite Hp]. by apply events_NoDup; [apply lease_event_offset|].
Qed.

(** ** Compaction

    What log compaction may leave of a partition: a sublist that still holds,
    of every key, the record of the highest offset. *)

Definition compaction_of (full kept : list log_entry) : Prop :=
  kept `sublist_of` full ∧
  ∀ r, r ∈ full → (∀ r', r' ∈ full → r'.1.2 = r.1.2 → r'.1.1 ≤ r.1.1) → r ∈ kept.

(** Every value stands under a key of its kind, as [decode_value] ensures. *)
Definition well_kinded (records : list log_entry) : Prop :=
  ∀ r, r ∈ records → record_wf (key_kind r.1.2) r.2.

Lemma latest_compaction {V} (f : log_entry → option (Z * V)) full kept :
  (∀ r ev, f r = Some ev → ev.1 = r.1.1) →
  (∀ r r' ev, r ∈ full → r' ∈ full → f r = Some ev → r'.1.2 = r.1.2 → is_Some (f r')) →
  NoDup (offsets full) → compaction_of full kept →
  latest (omap f kept) = latest (omap f full).
Proof.
  intros Hoff Hkey Hnd [Hsub Hkeep].
  assert (NoDup (offsets kept)) as Hnd'.
  { eapply sublist_NoDup; [exact Hnd|]. by apply fmap_sublist. }
  assert (∀ r, r ∈ kept → r ∈ full) as Hincl.
  { intros r. apply elem_of_subseteq, sublist_subseteq. done. }
  destruct (latest (omap f full)) as [p|] eqn:E.
  - apply latest_max in E as [Hp Hmax].
    apply list_elem_of_omap in Hp as (r & Hr & Hfr).
    apply latest_unique; [by apply events_NoDup| |].
    + apply list_elem_of_omap. exists r. split; [|done]. apply Hkeep; [done|].
      intros r' Hr' Hk. destruct (Hkey r r' p Hr Hr' Hfr Hk) as [ev' Hev'].
      rewrite <- (Hoff _ _ Hev'), <- (Hoff _ _ Hfr). apply Hmax.
      apply list_elem_of_omap. eauto.
    + intros q (r' & Hr' & Hf')%list_elem_of_omap. apply Hmax, list_elem_of_omap. eauto.
  - apply latest_None in E. apply latest_None.
    destruct (omap f kept) as [|q l] eqn:K; [done|].
    assert (q ∈ omap f kept) as (r & Hr & Hfr)%list_elem_of_omap by (rewrite K; left).
    assert (q ∈ omap f full) as Hq by (apply list_elem_of_omap; eauto).
    rewrite E in Hq. by apply elem_of_nil in Hq.
Qed.

Lemma from_records_compaction role full kept :
  NoDup (offsets full) → well_kinded full → compaction_of full kept →
  from_records role kept = from_records role full.
Proof.
  intros Hnd Hwk Hc. unfold from_records. f_equal. apply fold_records_ext.
  - intros m. apply (latest_compaction _ full); [apply reg_event_offset| |done|done].
    intros r r' ev Hr Hr' Hev Hk. specialize (Hwk r' Hr').
    destruct r as [[o k] v], r' as [[o' k'] v']; simpl in *; subst k'.
    destruct (decide _) as [(? & Hkind & ?)|]; [|done].
    rewrite Hkind in Hwk. destruct v'; [by eauto|done|by eauto].
  - apply (latest_compaction _ full); [apply lease_event_offset| |done|done].
    intros r r' ev Hr Hr' Hev Hk. specialize (Hwk r' Hr').
    destruct r as [[o k] v], r' as [[o' k'] v']; simpl in *; subst k'.
    destruct (decide _) as [(? & Hkind)|]; [|done].
    rewrite Hkind in Hwk. destruct v'; [done|by eauto|by eauto].
Qed.

(** ** The roster *)

#[global] Instance offset_le_total : Total offset_le.
Proof. intros a b. unfold offset_le. lia. Qed.
#[global] Instance offset_le_trans : Transitive offset_le.
Proof. intros a b c. unfold offset_le. lia. Qed.

Lemma build_from_sorted enum l : StronglySorted offset_le (roster (build_from enum l)).
Proof. apply sort_by_sorted; apply _. Qed.

Lemma slot_entry_member p e : slot_entry p = Some e → entry_member e = p.1.
Proof. unfold slot_entry. destruct (slot_registered_at p.2); naive_solver. Qed.

Lemma build_from_members enum l :
  NoDup enum.*1 → NoDup (entry_member <$> roster (build_from enum l)).
Proof.
  intros Hnd. simpl. rewrite sort_by_perm.
  induction enum as [|p enum IH]; simpl in *; [constructor|].
  apply NoDup_cons in Hnd as [Hp Hnd]. destruct (slot_entry p) as [e|] eqn:E; [|by apply IH].
  simpl. apply NoDup_cons. split; [|by apply IH].
  rewrite (slot_entry_member _ _ E). intros (e' & Heq & He')%list_elem_of_fmap.
  apply list_elem_of_omap in He' as (p' & Hp' & E').
  apply Hp. rewrite Heq, (slot_entry_member _ _ E'). apply list_elem_of_fmap. eauto.
Qed.

Lemma roster_members role records :
  NoDup (entry_member <$> roster (from_records role records)).
Proof. apply build_from_members, NoDup_fst_map_to_list. Qed.

Lemma roster_NoDup role records : NoDup (roster (from_records role records)).
Proof. eapply NoDup_fmap_1, roster_members. Qed.

Lemma roster_elem role records e :
  e ∈ roster (from_records role records) ↔
  latest (omap (reg_event role (entry_member e)) records) =
    Some (entry_offset e, Some (entry_registered_at e)).
Proof.
  unfold from_records, build, build_from; cbn [roster].
  rewrite elem_of_sort_by, list_elem_of_omap, <- fold_new_member. split.
  - intros ([m slot] & Hin%elem_of_map_to_list & E). rewrite (slot_entry_member _ _ E). simpl.
    rewrite Hin. unfold slot_entry in E. simpl in *. unfold of_slot.
    destruct (slot_registered_at slot); simplify_eq/=. done.
  - destruct e as [m o a]; simpl.
    intros (slot & Hslot & E)%fmap_Some. exists (m, slot).
    split; [by apply elem_of_map_to_list|]. unfold slot_entry, of_slot in *. simpl.
    injection E as -> <-. done.
Qed.

Lemma state_lease_spec role records :
  state_lease (from_records role records) = latest (omap (lease_event role) records) ≫= snd.
Proof.
  unfold from_records, build, build_from; cbn [state_lease].
  rewrite <- fold_new_lease. by destruct (builder_lease _) as [[o []]|].
Qed.

Lemma reg_event_record role m r ev :
  reg_event role m r = Some ev → r.1.1 = ev.1 ∧ key_member r.1.2 = Some m.
Proof. destruct r as [[o k] []]; simpl; case_decide; naive_solver. Qed.

Lemma offsets_inj records r1 r2 :
  NoDup (offsets records) → r1 ∈ records → r2 ∈ records → r1.1.1 = r2.1.1 → r1 = r2.
Proof.
  intros Hnd [i Hi]%list_elem_of_lookup [j Hj]%list_elem_of_lookup Heq.
  assert (i = j) as ->; [|congruence].
  apply (NoDup_lookup (offsets records) i j r1.1.1); [done| |];
    unfold offsets; rewrite list_lookup_fmap; [by rewrite Hi|by rewrite Hj; simpl; f_equal].
Qed.

(** Distinct records have distinct offsets, so the roster order is strict. *)
Lemma roster_offset_inj role records e1 e2 :
  NoDup (offsets records) →
  e1 ∈ roster (from_records role records) → e2 ∈ roster (from_records role records) →
  entry_offset e1 = entry_offset e2 → e1 = e2.
Proof.
  intros Hnd H1%roster_elem H2%roster_elem Ho.
  pose proof H1 as [(r1 & Hr1 & E1)%list_elem_of_omap _]%latest_max.
  pose proof H2 as [(r2 & Hr2 & E2)%list_elem_of_omap _]%latest_max.
  apply reg_event_record in E1 as [O1 K1], E2 as [O2 K2]. simpl in *.
  assert (r1 = r2) as -> by (eapply offsets_inj; [done..|congruence]).
  destruct e1 as [m1 o1 a1], e2 as [m2 o2 a2]; simpl in *. congruence.
Qed.

(** The enumeration order of the [HashMap] does not reach the result. *)
Lemma build_from_enumeration role records enum :
  NoDup (offsets records) →
  let b := fold_records (RoleStateBuilder_new role) records in
  enum ≡ₚ map_to_list (members b) →
  build_from enum (builder_lease b) = from_records role records.
Proof.
  intros Hnd b Hp. unfold from_records, build, build_from. f_equal.
  apply sort_by_perm_eq; [apply _|apply _| |by rewrite Hp].
  intros x y. rewrite !Hp. unfold offset_le. intros Hx Hy H1 H2.
  eapply (roster_offset_inj role records); [done| | |lia].
  - unfold from_records, build, build_from; cbn [roster]. by rewrite elem_of_sort_by.
  - unfold from_records, build, build_from; cbn [roster]. by rewrite elem_of_sort_by.
Qed.

Lemma entry_spec s m e :
  NoDup (entry_member <$> roster s) →
  entry s m = Some e ↔ e ∈ roster s ∧ entry_member e = m.
Proof.
  intros Hnd. unfold entry. rewrite fmap_Some. split.
  - intros ([i e'] & (Hi & Hm & _)%list_find_Some & ->). simpl.
    split; [by eapply list_elem_of_lookup_2|done].
  - intros [Hin Hm]. destruct (list_find_elem_of (λ e, entry_member e = m) (roster s) e)
      as [[i e'] Hf]; [done..|].
    exists (i, e'). split; [done|]. simpl. apply list_find_Some in Hf as (Hi & Hm' & _).
    apply list_elem_of_lookup in Hin as [j Hj].
    assert (i = j) as ->; [|congruence].
    apply (NoDup_lookup (entry_member <$> roster s) i j m); [done| |];
      rewrite list_lookup_fmap; [by rewrite Hi; simpl; f_equal|by rewrite Hj; simpl; f_equal].
Qed.

(** ** Appending one record *)

Lemma latest_snoc_max {V} (l : list (Z * V)) v :
  (∀ q, q ∈ l → q.1 < v.1) → latest (l ++ [v]) = Some v.
Proof.
  intros Hmax. unfold latest. rewrite foldl_app. simpl.
  destruct (foldl keep_latest None l) as [h|] eqn:E; [|done]. simpl.
  apply latest_max in E as [Hh%Hmax _].
  destruct (Z.leb_spec v.1 h.1); [lia|done].
Qed.

Lemma omap_reg_event_snoc_other role m l r :
  reg_event role m r = None → omap (reg_event role m) (l ++ [r]) = omap (reg_event role m) l.
Proof. intros E. rewrite omap_app. simpl. rewrite E. apply app_nil_r. Qed.

Lemma reg_event_below role m l o ev :
  (∀ x, x ∈ offsets l → x < o) → ev ∈ omap (reg_event role m) l → ev.1 < o.
Proof.
  intros Hb (r & Hr & E)%list_elem_of_omap. apply reg_event_offset in E as ->.
  apply Hb. unfold offsets. apply list_elem_of_fmap. eauto.
Qed.

(** The roster after one more registration-key record of member [m], which
    stores [at_millis] ([None] for a tombstone). *)
Lemma roster_elem_snoc role l r m o at_millis e :
  (∀ x, x ∈ offsets l → x < o) →
  reg_event role m r = Some (o, at_millis) →
  (∀ m', m' ≠ m → reg_event role m' r = None) →
  e ∈ roster (from_records role (l ++ [r])) ↔
  (entry_member e ≠ m ∧ e ∈ roster (from_records role l))
  ∨ (Some (entry_registered_at e) = at_millis ∧ entry_member e = m ∧ entry_offset e = o).
Proof.
  intros Hb Hr Hother. rewrite !roster_elem.
  destruct (decide (entry_member e = m)) as [Hm|Hm].
  - rewrite Hm, omap_app. simpl. rewrite Hr.
    rewrite latest_snoc_max by (intros q; by apply reg_event_below). naive_solver.
  - rewrite omap_reg_event_snoc_other by auto. naive_solver.
Qed.

Lemma offsets_snoc_NoDup l r o :
  r.1.1 = o → NoDup (offsets l) → (∀ x, x ∈ offsets l → x < o) → NoDup (offsets (l ++ [r])).
Proof.
  intros <- Hnd Hb. unfold offsets. rewrite fmap_app. apply NoDup_app. split_and!; [done| |].
  - intros x Hx%Hb Hx'. apply list_elem_of_singleton in Hx' as ->. lia.
  - apply NoDup_singleton.
Qed.

Lemma sorted_snoc {A} (R : relation A) l x :
  StronglySorted R l → (∀ y, y ∈ l → R y x) → StronglySorted R (l ++ [x]).
Proof.
  induction 1 as [|y l Hl IH Hy]; intros Hx; simpl; [repeat constructor|].
  constructor; [apply IH; intros z Hz; apply Hx; by right|].
  apply Forall_app. split; [done|]. repeat constructor. apply Hx. left.
Qed.

(** A roster is the sorted list of its elements. *)
Lemma roster_eq role records l :
  NoDup (offsets records) → NoDup l → StronglySorted offset_le l →
  (∀ e, e ∈ roster (from_records role records) ↔ e ∈ l) →
  roster (from_records role records) = l.
Proof.
  intros Hnd Hl Hs Hel. apply (sorted_perm_eq offset_le); [|apply build_from_sorted|done|].
  - unfold offset_le. intros x y Hx Hy H1 H2.
    eapply roster_offset_inj; [done|done|done|lia].
  - apply NoDup_Permutation; [apply roster_NoDup|done|done].
Qed.

Definition others (m : MemberId) (l : list RosterEntry) : list RosterEntry :=
  filter (λ e, entry_member e ≠ m) l.

Lemma others_elem m l e : e ∈ others m l ↔ entry_member e ≠ m ∧ e ∈ l.
Proof. unfold others. by rewrite list_elem_of_filter. Qed.

Lemma roster_offset_below role l o e :
  (∀ x, x ∈ offsets l → x < o) → e ∈ roster (from_records role l) → entry_offset e < o.
Proof.
  intros Hb [He _]%roster_elem%latest_max.
  by apply (reg_event_below role (entry_member e) l o (entry_offset e, _)) in He.
Qed.

Lemma roster_register role l o m reg :
  NoDup (offsets l) → (∀ x, x ∈ offsets l → x < o) →
  roster (from_records role (l ++ [(o, key_registration role m, RecRegistration reg)])) =
  others m (roster (from_records role l)) ++ [mkEntry m o (registered_at reg)].
Proof.
  intros Hnd Hb. apply roster_eq.
  - by apply (offsets_snoc_NoDup _ _ o).
  - apply NoDup_app. split_and!; [apply NoDup_filter, roster_NoDup| |apply NoDup_singleton].
    intros e He ->%list_elem_of_singleton. by apply others_elem in He as [[] _].
  - apply sorted_snoc; [apply filter_sorted, build_from_sorted|].
    intros e [_ He]%others_elem. unfold offset_le; simpl.
    by apply (roster_offset_below role l o) in He; [lia|].
  - intros e. rewrite elem_of_app, list_elem_of_singleton, others_elem.
    rewrite (roster_elem_snoc role l _ m o (Some (registered_at reg))); [|done| |].
    + destruct e; simpl. naive_solver.
    + simpl. by rewrite decide_True.
    + intros m' Hm'. simpl. rewrite decide_False; naive_solver.
Qed.

Lemma roster_deregister role l o m :
  NoDup (offsets l) → (∀ x, x ∈ offsets l → x < o) →
  roster (from_records role (l ++ [(o, key_registration role m, RecTombstone)])) =
  others m (roster (from_records role l)).
Proof.
  intros Hnd Hb. apply roster_eq.
  - by apply (offsets_snoc_NoDup _ _ o).
  - apply NoDup_filter, roster_NoDup.
  - apply filter_sorted, build_from_sorted.
  - intros e. rewrite others_elem.
    rewrite (roster_elem_snoc role l _ m o None); [naive_solver|done| |].
    + simpl. by rewrite decide_True.
    + intros m' Hm'. simpl. rewrite decide_False; naive_solver.
Qed.

Lemma lease_snoc_registration role l o m v :
  state_lease (from_records role (l ++ [(o, key_registration role m, v)])) =
  state_lease (from_records role l).
Proof.
  rewrite !state_lease_spec, omap_app. simpl.
  rewrite decide_False by naive_solver. by rewrite app_nil_r.
Qed.

(** ** Ranks *)

Definition standbys (s : RoleState) : list RosterEntry :=
  filter (λ e, Some (entry_member e) ≠ holder s) (roster s).

Lemma rank_of_Some s m :
  NoDup (entry_member <$> roster s) →
  is_Some (rank_of s m) ↔ is_Some (entry s m).
Proof.
  intros Hnd. unfold rank_of. destruct (entry s m) as [e|] eqn:E; [|done].
  case_decide as Hh; [by eauto|]. split; [by eauto|]. intros _.
  apply entry_spec in E as [He Hm]; [|done].
  destruct (list_find_elem_of (λ e, entry_member e = m) (standbys s) e) as [p Hp].
  - apply list_elem_of_filter. split; [congruence|done].
  - done.
  - unfold standbys in Hp. rewrite Hp. by eauto.
Qed.

Lemma rank_of_standby s m k :
  holder s ≠ Some m → rank_of s m = Some k →
  ∃ i e, k = Z.of_nat i ∧ standbys s !! i = Some e ∧ entry_member e = m.
Proof.
  unfold rank_of. destruct (entry s m); [|done]. intros Hh. rewrite decide_False by done.
  intros ([i e] & (Hi & Hm & _)%list_find_Some & ->)%fmap_Some. simpl. eauto.
Qed.

Lemma rank_of_nonneg s m k : rank_of s m = Some k → 0 ≤ k.
Proof.
  unfold rank_of. destruct (entry s m); [|done]. case_decide; [by intros [= <-]|].
  intros ([i e] & _ & ->)%fmap_Some. lia.
Qed.

Lemma rank_of_inj s m1 m2 k :
  holder s ≠ Some m1 → holder s ≠ Some m2 →
  rank_of s m1 = Some k → rank_of s m2 = Some k → m1 = m2.
Proof.
  intros H1 H2 (i & e1 & -> & L1 & <-)%rank_of_standby (j & e2 & E & L2 & <-)%rank_of_standby;
    [|done..]. assert (i = j) as -> by lia. congruence.
Qed.

Lemma list_find_snoc_new {A} (P : A → Prop) `{!∀ x, Decision (P x)} l x :
  (∀ y, y ∈ l → ¬ P y) → P x → list_find P (l ++ [x]) = Some (length l, x).
Proof.
  intros Hl Hx. apply list_find_Some. split_and!; [|done|].
  - by rewrite lookup_app_r, Nat.sub_diag by lia.
  - intros i y Hi Hlt. rewrite lookup_app_l in Hi by done.
    by apply Hl, list_elem_of_lookup_2 with i.
Qed.

(** A member that registers again goes behind every other standby. *)
Lemma rank_after_register role l o m reg :
  let s := from_records role l in
  let s' := from_records role (l ++ [(o, key_registration role m, RecRegistration reg)]) in
  NoDup (offsets l) → (∀ x, x ∈ offsets l → x < o) → holder s ≠ Some m →
  rank_of s' m = Some (Z.of_nat (length (others m (standbys s)))).
Proof.
  intros s s' Hnd Hb Hh.
  assert (holder s' = holder s) as Hh' by (unfold holder, s'; by rewrite lease_snoc_registration).
  assert (roster s' = others m (roster s) ++ [mkEntry m o (registered_at reg)]) as Hr
    by (by apply roster_register).
  unfold rank_of, entry. rewrite Hh', Hr.
  rewrite list_find_snoc_new; [|by intros y [? _]%others_elem|done]. simpl.
  rewrite decide_False by done. rewrite filter_app, filter_cons, filter_nil. simpl.
  rewrite decide_True by congruence.
  rewrite list_find_snoc_new; [|by intros y [_ [? _]%others_elem]%list_elem_of_filter|done].
  simpl. unfold others, standbys. do 3 f_equal.
  rewrite !list_filter_filter. apply list_filter_iff. naive_solver.
Qed.

(** ** States that a reader can build *)

Definition state_wf (s : RoleState) : Prop :=
  NoDup (entry_member <$> roster s)
  ∧ (∀ l, state_lease s = Some l → lease_wf l)
  ∧ ∀ e, e ∈ roster s → is_i64 (entry_registered_at e).

Lemma from_records_wf role records : well_kinded records → state_wf (from_records role records).
Proof.
  intros Hwk. split_and!; [apply roster_members| |].
  - intros l. rewrite state_lease_spec. intros ([o l'] & Hev & Heq)%bind_Some. simpl in Heq; subst.
    apply latest_max in Hev as [(r & Hr%Hwk & E)%list_elem_of_omap _].
    destruct r as [[o' k] v]; simpl in *. case_decide as Hk; [|done]. destruct Hk as [_ Hk].
    rewrite Hk in Hr. destruct v; naive_solver.
  - intros e He%roster_elem. apply latest_max in He as [(r & Hr%Hwk & E)%list_elem_of_omap _].
    destruct r as [[o' k] v]; simpl in *. case_decide as Hk; [|done].
    destruct Hk as (_ & Hk & _). rewrite Hk in Hr.
    destruct v as [reg|l|]; simplify_eq/=. destruct Hr as [_ Hr]. congruence.
Qed.

(** ** The decision over time *)

Section timeline.
Context `{TimeLaws}.

(** The instant from which [me] may challenge. *)
Definition challenge_instant (s : RoleState) (me : MemberId) (c : LeaseConfig) : option Z :=
  match entry s me, rank_of s me with
  | Some e, Some rank =>
    Some match state_lease s with
         | Some l => challenge_at_millis (timing c l) rank
         | None => i64_saturating_add (entry_registered_at e) (challenge_delay_millis c rank)
         end
  | _, _ => None
  end.

(** [me] holds the role and its lease is live at [now]. *)
Definition holds (s : RoleState) (me : MemberId) (now : Z) : bool :=
  match state_lease s with
  | Some l => bool_decide (lease_member l = me) && (now <? deadline l)
  | None => false
  end.

Lemma evaluate_eq s me now c :
  evaluate s me now c =
  match challenge_instant s me c with
  | None => NotRegistered
  | Some u => if holds s me now then Hold else if u <=? now then Challenge else Wait u
  end.
Proof.
  unfold evaluate, challenge_instant, holds, is_live_at.
  destruct (entry s me), (rank_of s me), (state_lease s); try done.
Qed.

Lemma challenge_instant_None s me c :
  state_wf s → challenge_instant s me c = None ↔ entry s me = None.
Proof.
  intros (Hnd & _). unfold challenge_instant.
  pose proof (rank_of_Some s me Hnd) as [_ Hr]. destruct (entry s me) as [e|]; [|done].
  by destruct (Hr ltac:(eauto)) as [k ->].
Qed.

Lemma challenge_instant_range s me c u :
  challenge_instant s me c = Some u → is_i64 u.
Proof.
  unfold challenge_instant. destruct (entry s me), (rank_of s me), (state_lease s); try done;
    intros [= <-]; apply sat_i64_range.
Qed.

(** The holder may challenge again from its own deadline. *)
Lemma challenge_instant_holder s me c u l :
  state_wf s → state_lease s = Some l → lease_member l = me →
  challenge_instant s me c = Some u → u = deadline l.
Proof.
  intros (_ & Hl & _) El Hm. unfold challenge_instant, rank_of, holder. rewrite El. simpl.
  destruct (entry s me); [|done]. rewrite decide_True by congruence. intros [= <-].
  apply challenge_at_0. apply Hl in El as (_ & _ & _ & ?). done.
Qed.

Lemma challenge_instant_deadline s me c u l :
  config_wf c → state_wf s → state_lease s = Some l →
  challenge_instant s me c = Some u → deadline l ≤ u.
Proof.
  intros Hc (_ & Hl & _) El. unfold challenge_instant. rewrite El.
  destruct (entry s me); [|done]. destruct (rank_of s me) as [k|] eqn:Hk; [|done].
  intros [= <-]. apply (challenge_at_deadline (timing c l) k); [done| |by eapply rank_of_nonneg].
  apply Hl in El as (_ & _ & _ & ?). done.
Qed.

Lemma holds_mono s me t1 t2 : t1 ≤ t2 → holds s me t2 = true → holds s me t1 = true.
Proof.
  unfold holds. destruct (state_lease s); [|done]. rewrite !andb_true_iff, !Z.ltb_lt.
  intros ? [? ?]. split; [done|lia].
Qed.

Lemma holds_before s me c u now :
  config_wf c → state_wf s → challenge_instant s me c = Some u → holds s me now = true → now < u.
Proof.
  intros Hc Hs Hu. unfold holds. destruct (state_lease s) as [l|] eqn:El; [|done].
  rewrite andb_true_iff, Z.ltb_lt. intros [_ Hlt].
  pose proof (challenge_instant_deadline s me c u l Hc Hs El Hu). lia.
Qed.
End timeline.

(** ** Properties *)

(** the fold does not depend on the order in which the records of a
    partition arrive, nor on the order in which the member map is enumerated. *)
Theorem fold_order_independent (role : Role) (l1 l2 : list log_entry)
    (enum : list (MemberId * MemberSlot)) :
  NoDup (offsets l1) → l1 ≡ₚ l2 →
  enum ≡ₚ map_to_list (members (fold_records (RoleStateBuilder_new role) l1)) →
  from_records role l2 = from_records role l1
  ∧ build_from enum (builder_lease (fold_records (RoleStateBuilder_new role) l1))
    = from_records role l1.
Proof.
  intros Hnd Hp He. split.
  - symmetry. by apply from_records_perm.
  - by apply build_from_enumeration.
Qed.

(** C27: a compacted log folds to the same role state as the full log. *)
Theorem fold_compaction_invariant (role : Role) (full kept : list log_entry) :
  NoDup (offsets full) → well_kinded full → compaction_of full kept →
  from_records role kept = from_records role full.
Proof. apply from_records_compaction. Qed.

(** no failback: a member that registers again moves to the tail of the
    roster, behind every other standby, and the lease is untouched; a
    registration tombstone removes exactly that member. *)
Theorem reregistration_goes_last (role : Role) (l : list log_entry) (o : Z) (m : MemberId)
    (reg : Registration) :
  NoDup (offsets l) → (∀ x, x ∈ offsets l → x < o) →
  let s := from_records role l in
  let s' := from_records role (l ++ [(o, key_registration role m, RecRegistration reg)]) in
  let s'' := from_records role (l ++ [(o, key_registration role m, RecTombstone)]) in
  roster s' = others m (roster s) ++ [mkEntry m o (registered_at reg)]
  ∧ state_lease s' = state_lease s
  ∧ (holder s ≠ Some m → rank_of s' m = Some (Z.of_nat (length (others m (standbys s)))))
  ∧ roster s'' = others m (roster s).
Proof.
  intros Hnd Hb. split_and!.
  - by apply roster_register.
  - apply lease_snoc_registration.
  - by apply rank_after_register.
  - by apply roster_deregister.
Qed.

(** the decision over time for an unchanged role state. [NotRegistered]
    is exactly absence from the roster; [Hold] lasts until the deadline, at
    which the holder may reclaim; the instant of [Wait] is the first one at
    which the answer changes, and it changes to [Challenge]; [Challenge]
    stays. *)
Theorem evaluate_timeline `{TimeLaws} (s : RoleState) (me : MemberId) (now : Z)
    (c : LeaseConfig) :
  config_wf c → state_wf s →
  match evaluate s me now c with
  | NotRegistered => entry s me = None
  | Hold => ∃ l, state_lease s = Some l ∧ lease_member l = me ∧ now < deadline l
            ∧ (∀ t, t < deadline l → evaluate s me t c = Hold)
            ∧ evaluate s me (deadline l) c = Challenge
  | Wait u => now < u ∧ is_i64 u ∧ (∀ t, t < u → evaluate s me t c = Wait u)
              ∧ evaluate s me u c = Challenge
  | Challenge => ∀ t, now ≤ t → evaluate s me t c = Challenge
  end.
Proof.
  intros Hc Hs. rewrite evaluate_eq.
  destruct (challenge_instant s me c) as [u|] eqn:Hu;
    [|by apply challenge_instant_None in Hu].
  pose proof (challenge_instant_range s me c u Hu) as Hr.
  destruct (holds s me now) eqn:Hh.
  - unfold holds in Hh. destruct (state_lease s) as [l|] eqn:El; [|done].
    apply andb_true_iff in Hh as [Hm%bool_decide_eq_true Hlt%Z.ltb_lt].
    pose proof (challenge_instant_holder s me c u l Hs El Hm Hu) as ->.
    exists l. split_and!; try done.
    + intros t Ht. rewrite evaluate_eq, Hu. unfold holds. rewrite El.
      by rewrite bool_decide_eq_true_2, (proj2 (Z.ltb_lt _ _) Ht).
    + rewrite evaluate_eq, Hu. unfold holds. rewrite El, Z.ltb_irrefl, andb_false_r.
      by rewrite Z.leb_refl.
  - destruct (Z.leb_spec u now) as [Hle|Hlt].
    + intros t Ht. rewrite evaluate_eq, Hu.
      destruct (holds s me t) eqn:Ht'; [by rewrite (holds_mono s me now t) in Hh|].
      by rewrite (proj2 (Z.leb_le u t)) by lia.
    + assert (∀ t, holds s me t = false) as Hno.
      { intros t. destruct (holds s me t) eqn:Ht; [|done]. unfold holds in Hh, Ht.
        destruct (state_lease s) as [l|] eqn:El; [|done].
        apply andb_true_iff in Ht as [Hm%bool_decide_eq_true _].
        pose proof (challenge_instant_holder s me c u l Hs El Hm Hu) as ->.
        rewrite bool_decide_eq_true_2 in Hh by done. simpl in Hh.
        apply Z.ltb_ge in Hh. lia. }
      split_and!; [done|done| |].
      * intros t Ht. rewrite evaluate_eq, Hu, Hno.
        by rewrite (proj2 (Z.leb_gt u t)).
      * by rewrite evaluate_eq, Hu, Hno, Z.leb_refl.
Qed.

(** C20: anti-flap: while the lease of a role is live, no other member is told
    to challenge it. *)
Theorem live_lease_not_challenged `{TimeLaws} (s : RoleState) (l : Lease) (me : MemberId)
    (now : Z) (c : LeaseConfig) :
  config_wf c → state_wf s → state_lease s = Some l → now < deadline l →
  evaluate s me now c ≠ Challenge.
Proof.
  intros Hc Hs El Hlt. rewrite evaluate_eq.
  destruct (challenge_instant s me c) as [u|] eqn:Hu; [|done].
  destruct (holds s me now); [done|].
  pose proof (challenge_instant_deadline s me c u l Hc Hs El Hu).
  destruct (Z.leb_spec u now); [lia|done].
Qed.

(** the candidates of a leased role are ordered: two standbys never share
    a rank, and whenever a standby may challenge, so may every standby of a
    lower rank. *)
Theorem standbys_challenge_in_order `{TimeLaws} (s : RoleState) (l : Lease)
    (a b : MemberId) (ra rb now : Z) (c : LeaseConfig) :
  config_wf c → state_wf s → state_lease s = Some l →
  lease_member l ≠ a → lease_member l ≠ b →
  rank_of s a = Some ra → rank_of s b = Some rb →
  (ra = rb ↔ a = b)
  ∧ (ra ≤ rb → evaluate s b now c = Challenge → evaluate s a now c = Challenge).
Proof.
  intros Hc Hs El Ha Hb Hra Hrb.
  assert (holder s = Some (lease_member l)) as Hh by (unfold holder; by rewrite El).
  split.
  - split; [|congruence]. intros <-.
    apply (rank_of_inj s a b ra); [congruence|congruence|done|done].
  - intros Hle. rewrite !evaluate_eq. unfold challenge_instant, holds. rewrite Hra, Hrb, El.
    destruct Hs as (Hnd & _ & _).
    pose proof (proj1 (rank_of_Some s a Hnd) ltac:(by eauto)) as [ea ->].
    pose proof (proj1 (rank_of_Some s b Hnd) ltac:(by eauto)) as [eb ->].
    rewrite !bool_decide_eq_false_2 by done. simpl.
    pose proof (challenge_at_mono (timing c l) ra rb Hc
                  (conj (rank_of_nonneg _ _ _ Hra) Hle)).
    destruct (Z.leb_spec (challenge_at_millis (timing c l) rb) now); [|done]. intros _.
    by rewrite (proj2 (Z.leb_le _ now)) by lia.
Qed.

(** ** Witnesses *)

Definition sample_role : Role := mkRole "controller" 10.
Definition node1 : MemberId := mkMemberId "node-1" 6.
Definition node2 : MemberId := mkMemberId "node-2" 6.
Definition node3 : MemberId := mkMemberId "node-3" 6.

Definition sample_log : list log_entry :=
  [ (0, key_registration sample_role node1, RecRegistration (mkRegistration node1 100));
    (1, key_registration sample_role node2, RecRegistration (mkRegistration node2 200));
    (2, key_registration sample_role node3, RecRegistration (mkRegistration node3 300));
    (3, key_lease sample_role, RecLease (mkLease node1 (mkToken 4242 7) 1000 31000)) ].

Definition sample_state : RoleState := from_records sample_role sample_log.

Lemma sample_log_offsets : NoDup (offsets sample_log).
Proof. apply (bool_decide_unpack _). vm_compute. done. Qed.

Lemma sample_log_below x : x ∈ offsets sample_log → x < 4.
Proof. unfold offsets; simpl. rewrite !elem_of_cons, elem_of_nil. lia. Qed.

Lemma sample_log_kinded : well_kinded sample_log.
Proof.
  intros r Hr. unfold sample_log in Hr. rewrite !elem_of_cons, elem_of_nil in Hr.
  destruct Hr as [->|[->|[->|[->|[]]]]]; simpl;
    unfold registration_wf, lease_wf; apply (bool_decide_unpack _); vm_compute; done.
Qed.

Lemma sample_state_wf : state_wf sample_state.
Proof. apply from_records_wf, sample_log_kinded. Qed.

Lemma fold_order_independent_witness :
  from_records sample_role (reverse sample_log) = sample_state.
Proof.
  apply (fold_order_independent sample_role sample_log (reverse sample_log)
           (map_to_list (members (fold_records (RoleStateBuilder_new sample_role) sample_log)))).
  - apply sample_log_offsets.
  - symmetry. apply reverse_Permutation.
  - reflexivity.
Defined.

Definition stale_entry : log_entry :=
  (-1, key_registration sample_role node2, RecRegistration (mkRegistration node2 50)).

Lemma fold_compaction_invariant_witness :
  from_records sample_role sample_log = from_records sample_role (stale_entry :: sample_log).
Proof.
  apply (fold_compaction_invariant sample_role (stale_entry :: sample_log) sample_log).
  - apply (bool_decide_unpack _). vm_compute. done.
  - intros r [->|Hr]%elem_of_cons; [|by apply sample_log_kinded].
    simpl. unfold registration_wf. apply (bool_decide_unpack _). vm_compute. done.
  - split; [by constructor|]. intros r [->|Hr]%elem_of_cons Hmax; [|done].
    exfalso. unfold stale_entry in Hmax; simpl in Hmax.
    assert (1 ≤ -1); [|lia].
    apply (Hmax (1, key_registration sample_role node2,
                 RecRegistration (mkRegistration node2 200))); [|done].
    unfold sample_log. right. right. left.
Defined.

Lemma reregistration_goes_last_witness :
  rank_of (from_records sample_role
    (sample_log ++ [(4, key_registration sample_role node2,
                     RecRegistration (mkRegistration node2 900))])) node2 = Some 1.
Proof.
  destruct (reregistration_goes_last sample_role sample_log 4 node2 (mkRegistration node2 900))
    as (_ & _ & Hr & _).
  - apply sample_log_offsets.
  - apply sample_log_below.
  - rewrite Hr; [reflexivity|]. vm_compute. discriminate.
Defined.

Lemma evaluate_timeline_witness :
  evaluate sample_state node3 40000 sample_config = Challenge
  ∧ evaluate sample_state node3 32000 sample_config = Wait 36000.
Proof.
  assert (evaluate sample_state node3 32000 sample_config = Wait 36000) as E
    by (vm_compute; reflexivity).
  split; [|exact E].
  pose proof (evaluate_timeline sample_state node3 36000 sample_config
                sample_config_wf sample_state_wf) as Ht.
  assert (evaluate sample_state node3 36000 sample_config = Challenge) as E'
    by (vm_compute; reflexivity).
  rewrite E' in Ht. apply Ht. lia.
Defined.

Lemma live_lease_not_challenged_witness :
  evaluate sample_state node2 30999 sample_config ≠ Challenge.
Proof.
  apply (live_lease_not_challenged sample_state
           (mkLease node1 (mkToken 4242 7) 1000 31000) node2 30999 sample_config).
  - apply sample_config_wf.
  - apply sample_state_wf.
  - vm_compute. reflexivity.
  - vm_compute. reflexivity.
Defined.

Lemma standbys_challenge_in_order_witness :
  evaluate sample_state node2 36000 sample_config = Challenge.
Proof.
  apply (standbys_challenge_in_order sample_state
           (mkLease node1 (mkToken 4242 7) 1000 31000) node2 node3 0 1 36000 sample_config).
  - apply sample_config_wf.
  - apply sample_state_wf.
  - vm_compute. reflexivity.
  - vm_compute. discriminate.
  - vm_compute. discriminate.
  - vm_compute. reflexivity.
  - vm_compute. reflexivity.
  - lia.
  - vm_compute. reflexivity.
Defined.
