(* ===== verification/Partitioner.v ===== *)
(** * The built-in partitioner

    [crates/client-producer/src/partitioner.rs]: the key hash, the sticky
    partition of a topic, and the load table of adaptive partitioning. The
    random source is an argument of each operation that draws a value; the
    closures [has_leader] and [leader_rack] are functions; the lock of the
    topic map makes each operation atomic, so an operation is a function on the
    partitioner state. *)

From coqutil Require Import Byte Word.LittleEndianList.
From S2P Require Import Prelude Bytes.

(** ** Murmur2 *)

Definition MURMUR_SEED : Z := 0x9747b28c.
Definition MURMUR_M : Z := 0x5bd1e995.
Definition MURMUR_R : Z := 24.

(** [slice::as_chunks::<4>]: the whole chunks, and the remainder. *)
Fixpoint as_chunks4 (data : bytes) : list bytes * bytes :=
  match data with
  | b0 :: b1 :: b2 :: b3 :: rest =>
    let '(chunks, remainder) := as_chunks4 rest in
    ([b0; b1; b2; b3] :: chunks, remainder)
  | remainder => ([], remainder)
  end.

Definition murmur2_chunk (h : Z) (chunk : bytes) : Z :=
  let k := le_combine chunk in
  let k := u32_wrapping_mul k MURMUR_M in
  let k := Z.lxor k (Z.shiftr k MURMUR_R) in
  let k := u32_wrapping_mul k MURMUR_M in
  let h := u32_wrapping_mul h MURMUR_M in
  Z.lxor h k.

Definition murmur2_tail (h : Z) (remainder : bytes) : Z :=
  match remainder with
  | [r0; r1; r2] =>
    let h := Z.lxor h (Z.shiftl (byte.unsigned r2) 16) in
    let h := Z.lxor h (Z.shiftl (byte.unsigned r1) 8) in
    let h := Z.lxor h (byte.unsigned r0) in
    u32_wrapping_mul h MURMUR_M
  | [r0; r1] =>
    let h := Z.lxor h (Z.shiftl (byte.unsigned r1) 8) in
    let h := Z.lxor h (byte.unsigned r0) in
    u32_wrapping_mul h MURMUR_M
  | [r0] =>
    let h := Z.lxor h (byte.unsigned r0) in
    u32_wrapping_mul h MURMUR_M
  | _ => h
  end.

Definition murmur2 (data : bytes) : Z :=
  let length_low := wrap_u32 (Z.of_nat (length data)) in
  let h := Z.lxor MURMUR_SEED length_low in
  let '(chunks, remainder) := as_chunks4 data in
  let h := foldl murmur2_chunk h chunks in
  let h := murmur2_tail h remainder in
  let h := Z.lxor h (Z.shiftr h 13) in
  let h := u32_wrapping_mul h MURMUR_M in
  let h := Z.lxor h (Z.shiftr h 15) in
  cast_signed 32 h.

(** The assertion [num_partitions > 0] panics when it fails: [None]. *)
Definition partition_for_key (key : bytes) (num_partitions : Z) : option Z :=
  if 0 <? num_partitions
  then Some (Z.rem (Z.land (murmur2 key) 0x7fffffff) num_partitions)
  else None.

(** ** Configuration and state *)

Record PartitionerConfig : Type := mkPartitionerConfig {
  sticky_batch_size : Z;
  ignore_keys : bool;
  adaptive_partitioning : bool;
  availability_timeout : Z;
  rack_aware : bool;
}.

Definition PartitionerConfig_default : PartitionerConfig :=
  mkPartitionerConfig (16 * 1024) false true 0 false.

Record TopicPartitions : Type := mkTopicPartitions {
  tp_count : Z;
  has_leader : Z → bool;
}.

Record RackPreference : Type := mkRackPreference {
  leader_rack : Z → option string;
  client_rack : string;
}.

Record StickyPartition : Type := mkSticky { sticky_partition : Z; sticky_pick : Z }.

#[global] Instance StickyPartition_eq_dec : EqDecision StickyPartition.
Proof. solve_decision. Defined.

Record QueueSizes : Type := mkQueueSizes {
  qs_sizes : list Z;
  qs_partition_ids : list Z;
  qs_all : Z;
}.

Record LoadStats : Type := mkLoadStats {
  cumulative_frequency : list Z;
  partition_ids : list Z;
}.

Record TopicState : Type := mkTopicState {
  sticky : option (StickyPartition * Z);
  load_stats : option LoadStats;
}.

Definition TopicState_default : TopicState := mkTopicState None None.

Record BuiltInPartitioner : Type := mkPartitioner {
  config : PartitionerConfig;
  picks : Z;
  topics : gmap string TopicState;
}.

Definition BuiltInPartitioner_new (c : PartitionerConfig) : BuiltInPartitioner :=
  mkPartitioner c 0 ∅.

(** ** The load table *)

(** The running sums of the inverted sizes. *)
Fixpoint cumulate (weight_base running : Z) (sizes : list Z) : list Z :=
  match sizes with
  | [] => []
  | size :: sizes =>
    let running := u32_saturating_add running (weight_base - size) in
    running :: cumulate weight_base running sizes
  end.

Definition list_max (l : list Z) : option Z :=
  match l with [] => None | x :: l => Some (foldr Z.max x l) end.

Definition from_queue_sizes (queues : QueueSizes) : option LoadStats :=
  let '(mkQueueSizes sizes ids all) := queues in
  if bool_decide (sizes = []) || (all <? 2) || negb (length sizes =? length ids)%nat then None
  else
    largest ← list_max sizes;
    if forallb (λ size, size =? largest) sizes && (Z.of_nat (length sizes) =? all) then None
    else
      let weight_base := u32_saturating_add largest 1 in
      Some (mkLoadStats (cumulate weight_base 0 sizes) ids).

(** [slice::partition_point] on a table that only grows: the length of the
    leading run at or below [weighted]. *)
Fixpoint partition_point (weighted : Z) (table : list Z) : nat :=
  match table with
  | sum :: table => if sum <=? weighted then S (partition_point weighted table) else 0%nat
  | [] => 0%nat
  end.

(** ** Picking *)

Definition candidates_with_leader (p : TopicPartitions) : list Z :=
  filter (λ i, has_leader p i = true) (seqZ 0 (tp_count p)).

Definition rack_aware_candidates (c : PartitionerConfig) (p : TopicPartitions)
    (rack : option RackPreference) : option (list Z) :=
  if negb (rack_aware c) then None
  else
    r ← rack;
    let in_rack :=
      filter (λ i, leader_rack r i = Some (client_rack r)) (candidates_with_leader p) in
    if bool_decide (in_rack = []) then None else Some in_rack.

(** The loop of [pick_among]: the table restricted to the candidates. *)
Fixpoint restrict_table (candidates : list Z) (ids cumulative : list Z) (previous running : Z)
    : list Z * list Z :=
  match ids with
  | [] => ([], [])
  | id :: ids =>
    let cum := default 0 (head cumulative) in
    let weight := u32_saturating_sub cum previous in
    if decide (id ∈ candidates) then
      let running := u32_saturating_add running weight in
      let '(table, kept) := restrict_table candidates ids (tail cumulative) cum running in
      (running :: table, id :: kept)
    else restrict_table candidates ids (tail cumulative) cum running
  end.

Definition table_total (table : list Z) : Z := Z.max (default 1 (last table)) 1.

Definition pick_among (stats : option LoadStats) (candidates : list Z) (random : Z)
    : option Z :=
  let uniform :=
    if bool_decide (candidates = []) then None
    else candidates !! Z.to_nat (random mod Z.of_nat (length candidates)) in
  match stats with
  | Some stats =>
    let '(table, ids) :=
      restrict_table candidates (partition_ids stats) (cumulative_frequency stats) 0 0 in
    if bool_decide (ids = []) then uniform
    else
      let weighted := random mod table_total table in
      let index := partition_point weighted table in
      match ids !! index with
      | Some id => Some id
      | None => head candidates
      end
  | None => uniform
  end.

Definition pick_partition (c : PartitionerConfig) (stats : option LoadStats)
    (p : TopicPartitions) (rack : option RackPreference) (random : Z) : Z :=
  let random := Z.land random 0x7fffffff in
  let rack_pick :=
    cs ← rack_aware_candidates c p rack; pick_among stats cs random in
  match rack_pick, stats with
  | Some partition, _ => partition
  | None, Some stats =>
    let weighted := random mod table_total (cumulative_frequency stats) in
    let index := partition_point weighted (cumulative_frequency stats) in
    default 0 (partition_ids stats !! index)
  | None, None =>
    let available := candidates_with_leader p in
    match (if bool_decide (available = []) then None
           else available !! Z.to_nat (random mod Z.of_nat (length available))) with
    | Some partition => partition
    | None =>
      let count := Z.max (tp_count p) 1 in
      default 0 (i32_try_from (random mod count))
    end
  end.

(** [pick] stamps the partition with the next value of the pick counter, an
    [AtomicU64] whose [fetch_add] wraps. *)
Definition pick (b : BuiltInPartitioner) (stats : option LoadStats) (p : TopicPartitions)
    (rack : option RackPreference) (random : Z) : StickyPartition * BuiltInPartitioner :=
  (mkSticky (pick_partition (config b) stats p rack random) (picks b),
   mkPartitioner (config b) ((picks b + 1) mod 2 ^ 64) (topics b)).

(** ** Operations *)

Definition keyed_partition (b : BuiltInPartitioner) (key : option bytes) (count : Z)
    : option (option Z) :=
  match key with
  | Some key => if ignore_keys (config b) then Some None
                else Some <$> partition_for_key key count
  | None => Some None
  end.

Definition set_topic (b : BuiltInPartitioner) (topic : string) (s : TopicState)
    : BuiltInPartitioner :=
  mkPartitioner (config b) (picks b) (<[topic := s]> (topics b)).

Definition peek_inner (b : BuiltInPartitioner) (topic : string) (p : TopicPartitions)
    (rack : option RackPreference) (random : Z) : StickyPartition * BuiltInPartitioner :=
  let state := default TopicState_default (topics b !! topic) in
  match sticky state with
  | Some (s, _) => (s, set_topic b topic state)
  | None =>
    let '(s, b) := pick b (load_stats state) p rack random in
    (s, set_topic b topic (mkTopicState (Some (s, 0)) (load_stats state)))
  end.

Definition is_changed (b : BuiltInPartitioner) (topic : string) (s : StickyPartition) : bool :=
  match topics b !! topic ≫= sticky with
  | Some (current, _) => negb (bool_decide (current = s))
  | None => true
  end.

Definition update_inner (b : BuiltInPartitioner) (topic : string) (s : StickyPartition)
    (appended : Z) (p : TopicPartitions) (enable_switch : bool)
    (rack : option RackPreference) (random : Z) : BuiltInPartitioner :=
  let size := Z.max (sticky_batch_size (config b)) 1 in
  match topics b !! topic with
  | None => b
  | Some state =>
    match sticky state with
    | None => b
    | Some (current, produced) =>
      if bool_decide (current ≠ s) then b
      else
        let produced := usize_saturating_add produced appended in
        if ((size <=? produced) && enable_switch) || (usize_saturating_mul size 2 <=? produced)
        then
          let '(next, b) := pick b (load_stats state) p rack random in
          set_topic b topic (mkTopicState (Some (next, 0)) (load_stats state))
        else set_topic b topic (mkTopicState (Some (current, produced)) (load_stats state))
    end
  end.

Definition update_load_stats (b : BuiltInPartitioner) (topic : string)
    (queues : option QueueSizes) : BuiltInPartitioner :=
  let stats := queues ≫= from_queue_sizes in
  match topics b !! topic with
  | Some state => set_topic b topic (mkTopicState (sticky state) stats)
  | None =>
    match stats with
    | Some _ => set_topic b topic (mkTopicState None stats)
    | None => b
    end
  end.

(** ** The key hash selects an existing partition *)

Example murmur2_golden :
  map (λ s, murmur2 (as_bytes s)) [""; "a"; "ab"; "abc"; "abcd"; "abcde"; "kafka"; "my-key"]
  = [275646681; -1563381124; 316155434; 479470107; -1323649548; 461995741; -798503068; 1748425209].
Proof. vm_compute. reflexivity. Qed.

Lemma to_positive_range h : 0 ≤ Z.land h 0x7fffffff < 2 ^ 31.
Proof.
  replace 0x7fffffff with (Z.ones 31) by reflexivity.
  rewrite Z.land_ones by lia. apply Z.mod_pos_bound. lia.
Qed.

Lemma partition_for_key_range key n :
  0 < n → ∃ p, partition_for_key key n = Some p ∧ 0 ≤ p < n.
Proof.
  intros Hn. unfold partition_for_key. rewrite (proj2 (Z.ltb_lt 0 n) Hn).
  eexists. split; [done|]. pose proof (to_positive_range (murmur2 key)).
  rewrite Z.rem_mod_nonneg by lia. apply Z.mod_pos_bound. lia.
Qed.

(** ** Prefix sums *)

Definition sumZ (l : list Z) : Z := foldr Z.add 0 l.

Fixpoint prefix_sums (running : Z) (weights : list Z) : list Z :=
  match weights with
  | [] => []
  | w :: weights => running + w :: prefix_sums (running + w) weights
  end.

Lemma sumZ_nonneg l : Forall (λ w, 0 ≤ w) l → 0 ≤ sumZ l.
Proof. unfold sumZ. induction 1; simpl; lia. Qed.

Lemma sumZ_take_le l i : Forall (λ w, 0 ≤ w) l → 0 ≤ sumZ (take i l) ≤ sumZ l.
Proof.
  intros Hl. revert i. induction Hl as [|w l Hw Hl IH]; intros [|i]; simpl; try lia.
  - pose proof (sumZ_nonneg l Hl). unfold sumZ in *. lia.
  - specialize (IH i). unfold sumZ in *. lia.
Qed.

Lemma length_prefix_sums r ws : length (prefix_sums r ws) = length ws.
Proof. revert r. induction ws; intros r; simpl; by f_equal. Qed.

Lemma last_prefix_sums r ws : ws ≠ [] → last (prefix_sums r ws) = Some (r + sumZ ws).
Proof.
  revert r. induction ws as [|w [|w' ws] IH]; intros r Hne; [done|simpl; f_equal; lia|].
  specialize (IH (r + w)). simpl in *. rewrite IH by done. f_equal. lia.
Qed.

(** Without saturation the table holds the exact prefix sums. *)
Lemma cumulate_exact base r sizes :
  0 ≤ r → Forall (λ s, 0 ≤ s ≤ base) sizes →
  r + sumZ ((λ s, base - s) <$> sizes) ≤ u32_max →
  cumulate base r sizes = prefix_sums r ((λ s, base - s) <$> sizes).
Proof.
  intros Hr Hs. revert r Hr. induction Hs as [|s sizes Hs Hl IH]; intros r Hr Hsum; [done|].
  csimpl in *.
  assert (0 ≤ sumZ ((λ s, base - s) <$> sizes)) as H0.
  { apply sumZ_nonneg. apply Forall_fmap. eapply Forall_impl; [exact Hl|].
    intros x Hx. unfold compose in *. simpl in *. lia. }
  unfold sumZ in *. unfold u32_saturating_add. rewrite Z.min_r by lia. f_equal.
  apply IH; lia.
Qed.

(** The weighted value selects the interval of the table that holds it. *)
Lemma partition_point_interval w r ws i x :
  Forall (λ y, 0 ≤ y) ws → r ≤ w → ws !! i = Some x →
  partition_point w (prefix_sums r ws) = i ↔
  r + sumZ (take i ws) ≤ w < r + sumZ (take i ws) + x.
Proof.
  intros Hws. revert r i. induction Hws as [|a ws Ha Hws IH]; intros r i Hr Hi; [done|].
  simpl. destruct i as [|i]; simpl in *.
  - simplify_eq. destruct (Z.leb_spec (r + x) w); split; intros; [done|lia|lia|done].
  - pose proof (sumZ_take_le ws i Hws). destruct (Z.leb_spec (r + a) w) as [Hle|Hlt].
    + specialize (IH (r + a) i ltac:(lia) Hi). unfold sumZ in *.
      split; intros E; [injection E as E; apply IH in E; lia|].
      f_equal. apply IH. lia.
    + split; [done|]. unfold sumZ in *. lia.
Qed.

Lemma count_interval lo hi n :
  0 ≤ lo ≤ hi → hi ≤ n →
  length (filter (λ w, lo ≤ w < hi) (seqZ 0 n)) = Z.to_nat (hi - lo).
Proof.
  intros Hlo Hn.
  replace n with (lo + ((hi - lo) + (n - hi))) by lia.
  rewrite !seqZ_app by lia. rewrite !filter_app, !length_app.
  rewrite (filter_none _ (seqZ 0 lo)), (filter_none _ (seqZ _ (n - hi)))
    by (intros w Hin%elem_of_seqZ; lia).
  rewrite filter_all by (intros w Hin%elem_of_seqZ; lia).
  rewrite length_seqZ. simpl. lia.
Qed.

(** ** The hash stays in its width *)

Lemma u32_bits x : 0 ≤ x < 2 ^ 32 ↔ Z.land x (Z.ones 32) = x.
Proof.
  rewrite Z.land_ones by lia. split; [intros; by apply Z.mod_small|].
  intros <-. apply Z.mod_pos_bound. lia.
Qed.

Lemma u32_lxor x y : 0 ≤ x < 2 ^ 32 → 0 ≤ y < 2 ^ 32 → 0 ≤ Z.lxor x y < 2 ^ 32.
Proof.
  rewrite !u32_bits. intros Hx Hy. apply Z.bits_inj'. intros n Hn.
  rewrite Z.land_spec, Z.lxor_spec. rewrite <- Hx, <- Hy at 2. rewrite <- Hx, <- Hy at 1.
  rewrite !Z.land_spec. by destruct (Z.testbit x n), (Z.testbit y n), (Z.testbit (Z.ones 32) n).
Qed.

Lemma u32_shiftr x n : 0 ≤ n → 0 ≤ x < 2 ^ 32 → 0 ≤ Z.shiftr x n < 2 ^ 32.
Proof.
  intros Hn Hx. rewrite Z.shiftr_div_pow2 by done.
  assert (0 < 2 ^ n) by (apply Z.pow_pos_nonneg; lia).
  split; [apply Z.div_pos; lia|]. apply Z.div_lt_upper_bound; nia.
Qed.

Lemma murmur2_chunk_range h chunk : 0 ≤ murmur2_chunk h chunk < 2 ^ 32.
Proof. unfold murmur2_chunk. apply u32_lxor; apply u32_wrapping_mul_range. Qed.

Lemma murmur2_tail_range h r : 0 ≤ h < 2 ^ 32 → 0 ≤ murmur2_tail h r < 2 ^ 32.
Proof.
  intros Hh. unfold murmur2_tail.
  destruct r as [|? [|? [|? [|? ?]]]]; try done; apply u32_wrapping_mul_range.
Qed.

Lemma murmur2_is_i32 data : is_i32 (murmur2 data).
Proof.
  unfold murmur2. destruct (as_chunks4 data) as [chunks remainder].
  assert (∀ h, 0 ≤ h < 2 ^ 32 → 0 ≤ foldl murmur2_chunk h chunks < 2 ^ 32) as Hfold.
  { induction chunks as [|c cs IH]; intros h Hh; simpl; [done|].
    apply IH, murmur2_chunk_range. }
  assert (0 ≤ wrap_u32 (Z.of_nat (length data)) < 2 ^ 32)
    by (unfold wrap_u32; apply Z.mod_pos_bound; lia).
  unfold is_i32. change i32_min with (- 2 ^ (32 - 1)). change i32_max with (2 ^ (32 - 1) - 1).
  match goal with |- context [cast_signed 32 ?h] =>
    pose proof (cast_signed_range 32 h ltac:(lia)) as Hr end.
  cut (∀ a b, 0 ≤ u32_wrapping_mul a b < 2 ^ 32); [|apply u32_wrapping_mul_range].
  intros Hmul. eassert (_ ∧ _) as [? ?]; [apply Hr|lia].
  apply u32_lxor; [apply Hmul|]. apply u32_shiftr; [lia|]. apply Hmul.
Qed.

(** the partition of a keyed record. With [ignore_keys] off and a positive
    partition count, a key always selects one partition of the topic, the
    same one on every call and whatever the partitioner picked before: the
    masked hash modulo the count. A record without a key, and every record
    under [ignore_keys], goes to the sticky partition. *)
Theorem keyed_partition_spec b key count :
  0 < count →
  match keyed_partition b key count with
  | Some (Some p) =>
    ignore_keys (config b) = false ∧ is_Some key ∧ 0 ≤ p < count ∧
    ∀ b', config b' = config b → keyed_partition b' key count = Some (Some p)
  | Some None => ignore_keys (config b) = true ∨ key = None
  | None => False
  end.
Proof.
  intros Hc. unfold keyed_partition. destruct key as [key|]; [|by right].
  destruct (ignore_keys (config b)) eqn:Hi; [by left|].
  destruct (partition_for_key_range key count Hc) as (p & Hp & Hr). rewrite Hp. simpl.
  split_and!; [done|by eexists|lia|lia|]. intros b' ->. by rewrite Hi.
Qed.

Lemma keyed_partition_spec_witness :
  keyed_partition (BuiltInPartitioner_new PartitionerConfig_default) (Some (as_bytes "kafka")) 12
    = Some (Some 4) ∧
  (∀ b', config b' = PartitionerConfig_default →
     keyed_partition b' (Some (as_bytes "kafka")) 12 = Some (Some 4)).
Proof.
  split; [vm_compute; reflexivity|].
  exact (proj2 (proj2 (proj2
    (keyed_partition_spec (BuiltInPartitioner_new PartitionerConfig_default)
      (Some (as_bytes "kafka")) 12 ltac:(lia))))).
Defined.

(** ** The load table *)

Lemma partition_point_lt w t x :
  last t = Some x → w < x → (partition_point w t < length t)%nat.
Proof.
  induction t as [|a t IH]; [done|]. intros Hl Hw. simpl.
  destruct (Z.leb_spec a w); [|lia]. destruct t as [|b t]; simpl in *.
  - simplify_eq. lia.
  - specialize (IH Hl Hw). lia.
Qed.

Lemma length_cumulate base r sizes : length (cumulate base r sizes) = length sizes.
Proof. revert r. induction sizes; intros r; simpl; by f_equal. Qed.

Lemma foldr_max_ge x l : x ≤ foldr Z.max x l ∧ ∀ y, y ∈ l → y ≤ foldr Z.max x l.
Proof.
  induction l as [|z l [IH1 IH2]]; simpl.
  - split; [lia|]. intros y Hy. by apply elem_of_nil in Hy.
  - split; [lia|]. intros y [->|Hy]%elem_of_cons; [lia|]. specialize (IH2 y Hy). lia.
Qed.

Lemma list_max_ge l m x : list_max l = Some m → x ∈ l → x ≤ m.
Proof.
  destruct l as [|y l]; [done|]. simpl. intros [= <-] [->|Hx]%elem_of_cons;
    pose proof (foldr_max_ge y l) as [? H2]; [done|]. by apply H2.
Qed.

Lemma foldr_max_elem x l : foldr Z.max x l ∈ x :: l.
Proof.
  induction l as [|z l IH]; simpl; [left|].
  destruct (Z.max_spec z (foldr Z.max x l)) as [[_ ->]|[_ ->]]; [|right; left].
  apply elem_of_cons in IH as [->|IH]; [left|right; by right].
Qed.

Lemma list_max_elem l m : list_max l = Some m → m ∈ l.
Proof. destruct l as [|y l]; [done|]. intros [= <-]. apply foldr_max_elem. Qed.

(** What [from_queue_sizes] builds, on the branch that builds something. *)
Lemma from_queue_sizes_some qs st :
  from_queue_sizes qs = Some st →
  ∃ largest, list_max (qs_sizes qs) = Some largest ∧
    st = mkLoadStats (cumulate (u32_saturating_add largest 1) 0 (qs_sizes qs))
           (qs_partition_ids qs) ∧
    length (qs_sizes qs) = length (qs_partition_ids qs) ∧ 2 ≤ qs_all qs ∧
    (Forall (λ s, s = largest) (qs_sizes qs) → Z.of_nat (length (qs_sizes qs)) ≠ qs_all qs).
Proof.
  destruct qs as [sizes ids all]. unfold from_queue_sizes. simpl.
  destruct (bool_decide (sizes = [])) eqn:He; [done|].
  destruct (Z.ltb_spec all 2); [done|].
  destruct (Nat.eqb_spec (length sizes) (length ids)) as [Hlen|]; [|done]. simpl.
  destruct (list_max sizes) as [largest|] eqn:Hm; [|done]. simpl.
  destruct (forallb _ sizes && _) eqn:Hall; [done|]. intros [= <-].
  exists largest. split_and!; try done. intros Heq Hn. apply not_true_iff_false in Hall.
  apply Hall, andb_true_iff. split; [|by apply Z.eqb_eq].
  apply forallb_forall. intros x Hx. apply Z.eqb_eq.
  rewrite Forall_forall in Heq. apply Heq. by apply list_elem_of_In.
Qed.

Lemma cumulate_pos base r sizes s x :
  0 ≤ r → Forall (λ s, 0 ≤ s ≤ base) sizes → s ∈ sizes → s < base →
  last (cumulate base r sizes) = Some x → 1 ≤ x.
Proof.
  assert (∀ sizes r x, 0 < r → Forall (λ s, 0 ≤ s ≤ base) sizes →
      last (cumulate base r sizes) = Some x → 1 ≤ x) as Hpos.
  { clear. induction sizes as [|s sizes IH]; intros r x Hr Hs Hl; [done|].
    apply Forall_cons in Hs as [Hs Hss]. simpl in Hl.
    destruct sizes as [|s' sizes]; simpl in *.
    - simplify_eq. unfold u32_saturating_add. ints.
    - eapply IH; [|done|exact Hl]. unfold u32_saturating_add. ints. }
  intros Hr Hs. revert r Hr. induction Hs as [|s' sizes Hs' Hs IH]; intros r Hr Hin Hlt Hl.
  { by apply elem_of_nil in Hin. }
  simpl in Hl. destruct (decide (s' < base)) as [Hlt'|Hge].
  - destruct sizes as [|s2 sizes]; simpl in *.
    + simplify_eq. unfold u32_saturating_add. ints.
    + eapply (Hpos (s2 :: sizes)); [|done|exact Hl]. unfold u32_saturating_add. ints.
  - apply elem_of_cons in Hin as [->|Hin]; [lia|].
    destruct sizes as [|s2 sizes]; [by apply elem_of_nil in Hin|].
    eapply (IH (u32_saturating_add r (base - s'))); [|done|done|exact Hl].
    unfold u32_saturating_add. ints.
Qed.

(** A table of sizes below [u32::MAX] always names one of its partitions. *)
Lemma load_table_selects qs st random :
  from_queue_sizes qs = Some st → Forall (λ s, 0 ≤ s < u32_max) (qs_sizes qs) → 0 ≤ random →
  ∃ id, partition_ids st !! partition_point (random mod table_total (cumulative_frequency st))
          (cumulative_frequency st) = Some id ∧ id ∈ qs_partition_ids qs.
Proof.
  intros Hst Hs Hr.
  apply from_queue_sizes_some in Hst as (largest & Hmax & -> & Hlen & _ & _). simpl.
  pose proof (list_max_elem _ _ Hmax) as Hin.
  assert (0 ≤ largest < u32_max) as Hlg by (rewrite Forall_forall in Hs; by apply Hs).
  assert (u32_saturating_add largest 1 = largest + 1) as Hbase
    by (unfold u32_saturating_add; ints).
  rewrite Hbase. set (t := cumulate (largest + 1) 0 (qs_sizes qs)).
  assert (is_Some (last t)) as [x Hx].
  { apply last_is_Some. intros E. apply (f_equal length) in E. unfold t in E.
    rewrite length_cumulate in E. destruct (qs_sizes qs); [by apply elem_of_nil in Hin|done]. }
  assert (1 ≤ x) as Hx1.
  { eapply (cumulate_pos (largest + 1) 0 (qs_sizes qs) largest); [lia| |done|lia|exact Hx].
    apply Forall_forall. intros y Hy. pose proof (list_max_ge _ _ _ Hmax Hy).
    rewrite Forall_forall in Hs. specialize (Hs y Hy). simpl in Hs. lia. }
  assert (partition_point (random mod table_total t) t < length t)%nat as Hlt.
  { eapply partition_point_lt; [exact Hx|]. unfold table_total. rewrite Hx. simpl.
    pose proof (Z.mod_pos_bound random (Z.max x 1)). lia. }
  unfold t in Hlt at 3. rewrite length_cumulate, Hlen in Hlt.
  apply lookup_lt_is_Some in Hlt as [id Hid]. exists id. split; [done|].
  by eapply list_elem_of_lookup_2.
Qed.

(** The weight of each queue in the table: the longest queue keeps weight 1. *)
Definition queue_weights (largest : Z) (sizes : list Z) : list Z :=
  (λ s, largest + 1 - s) <$> sizes.

Lemma queue_weights_pos largest sizes :
  list_max sizes = Some largest → Forall (λ w, 1 ≤ w) (queue_weights largest sizes).
Proof.
  intros Hmax. apply Forall_fmap, Forall_forall. intros s Hin.
  pose proof (list_max_ge _ _ _ Hmax Hin). unfold compose. lia.
Qed.

Lemma load_table_exact qs st largest :
  from_queue_sizes qs = Some st → Forall is_u32 (qs_sizes qs) →
  list_max (qs_sizes qs) = Some largest → largest < u32_max →
  sumZ (queue_weights largest (qs_sizes qs)) ≤ u32_max →
  cumulative_frequency st = prefix_sums 0 (queue_weights largest (qs_sizes qs)).
Proof.
  intros Hst Hs Hmax Hlt Hsum.
  apply from_queue_sizes_some in Hst as (m & Hm & -> & _). simpl.
  assert (m = largest) as -> by congruence.
  assert (u32_saturating_add largest 1 = largest + 1) as ->
    by (unfold u32_saturating_add; ints).
  apply cumulate_exact; [done| |done]. apply Forall_forall. intros s Hin.
  pose proof (list_max_ge _ _ _ Hmax Hin). rewrite Forall_forall in Hs.
  specialize (Hs s Hin). ints.
Qed.

Lemma sumZ_app l k : sumZ (l ++ k) = sumZ l + sumZ k.
Proof. unfold sumZ. induction l; simpl; lia. Qed.

(** Drawing from the exact prefix sums of positive weights selects index [i]
    as often as its weight. *)
Lemma draws_of_index ws i x :
  Forall (λ w, 1 ≤ w) ws → ws !! i = Some x →
  length (filter (λ w, partition_point w (prefix_sums 0 ws) = i) (seqZ 0 (sumZ ws)))
    = Z.to_nat x.
Proof.
  intros Hws Hi.
  assert (Forall (λ w, 0 ≤ w) ws) as Hws0 by (eapply Forall_impl; [exact Hws|simpl; lia]).
  pose proof (sumZ_take_le ws i Hws0). pose proof (sumZ_take_le ws (S i) Hws0) as [_ Hle].
  rewrite (take_S_r _ _ _ Hi), sumZ_app in Hle.
  assert (1 ≤ x) by (rewrite Forall_forall in Hws; eapply Hws, list_elem_of_lookup_2, Hi).
  rewrite (filter_ext_in _ (λ w, sumZ (take i ws) ≤ w < sumZ (take i ws) + x)).
  - unfold sumZ in Hle at 2. simpl in Hle. rewrite count_interval by lia. f_equal. lia.
  - intros w Hw%elem_of_seqZ. rewrite (partition_point_interval w 0 ws i x); [|done|lia|done].
    by rewrite Z.add_0_l.
Qed.

(** the load table is an inverted-size lottery. When the weights add up
    without saturating a [u32], the table totals their sum, and of the values
    a draw takes modulo that total exactly [largest + 1 - size] select the
    partition whose queue has [size] entries: a shorter queue is drawn more
    often, and the longest one is still drawn. *)
Theorem load_table_weights qs st largest i size :
  from_queue_sizes qs = Some st → Forall is_u32 (qs_sizes qs) →
  list_max (qs_sizes qs) = Some largest → largest < u32_max →
  sumZ (queue_weights largest (qs_sizes qs)) ≤ u32_max → qs_sizes qs !! i = Some size →
  table_total (cumulative_frequency st) = sumZ (queue_weights largest (qs_sizes qs)) ∧
  length (filter (λ w, partition_point w (cumulative_frequency st) = i)
            (seqZ 0 (table_total (cumulative_frequency st))))
    = Z.to_nat (largest + 1 - size) ∧
  1 ≤ largest + 1 - size.
Proof.
  intros Hst Hs Hmax Hlt Hsum Hi.
  rewrite (load_table_exact qs st largest) by done.
  pose proof (queue_weights_pos _ _ Hmax) as Hws.
  set (ws := queue_weights largest (qs_sizes qs)) in *.
  assert (ws !! i = Some (largest + 1 - size)) as Hwi
    by (unfold ws, queue_weights; by rewrite list_lookup_fmap, Hi).
  assert (ws ≠ []) as Hne by (by intros E; rewrite E in Hwi).
  assert (1 ≤ largest + 1 - size) as H1
    by (rewrite Forall_forall in Hws; eapply Hws, list_elem_of_lookup_2, Hwi).
  assert (table_total (prefix_sums 0 ws) = sumZ ws) as ->.
  { unfold table_total. rewrite last_prefix_sums by done. simpl.
    destruct Hws as [|w ws' Hw Hws']; [done|]. unfold sumZ. simpl.
    enough (0 ≤ sumZ ws') by (unfold sumZ in *; lia).
    apply sumZ_nonneg. eapply Forall_impl; [exact Hws'|simpl; lia]. }
  split_and!; [done|by apply draws_of_index|done].
Qed.

(** Queues of sizes 0, 3 and 1. *)
Definition sample_queues : QueueSizes := mkQueueSizes [0; 3; 1] [0; 1; 2] 3.

Lemma load_table_weights_witness :
  from_queue_sizes sample_queues = Some (mkLoadStats [4; 5; 8] [0; 1; 2]) ∧
  table_total [4; 5; 8] = 8 ∧
  length (filter (λ w, partition_point w [4; 5; 8] = 2%nat) (seqZ 0 (table_total [4; 5; 8]))) = 3%nat.
Proof.
  split; [reflexivity|].
  destruct (load_table_weights sample_queues (mkLoadStats [4; 5; 8] [0; 1; 2]) 3 2 1) as (H1 & H2 & _);
    [reflexivity|repeat constructor; done|reflexivity|reflexivity|by vm_compute|reflexivity|].
  split; [exact H1|exact H2].
Defined.

(** ** Every pick is a partition of the topic *)

Lemma elem_of_candidates p i :
  i ∈ candidates_with_leader p ↔ has_leader p i = true ∧ 0 ≤ i < tp_count p.
Proof. unfold candidates_with_leader. rewrite list_elem_of_filter, elem_of_seqZ. rewrite Z.add_0_l. tauto. Qed.

Lemma mod_lookup {A} (l : list A) random :
  l ≠ [] → ∃ x, l !! Z.to_nat (random mod Z.of_nat (length l)) = Some x ∧ x ∈ l.
Proof.
  intros Hne. assert (0 < Z.of_nat (length l)) by (destruct l; [done|simpl; lia]).
  pose proof (Z.mod_pos_bound random (Z.of_nat (length l))).
  destruct (lookup_lt_is_Some_2 l (Z.to_nat (random mod Z.of_nat (length l)))) as [x Hx]; [lia|].
  exists x. split; [done|]. by eapply list_elem_of_lookup_2.
Qed.

Lemma restrict_table_incl cs ids cum previous running :
  (restrict_table cs ids cum previous running).2 ⊆ cs.
Proof.
  revert cum previous running. induction ids as [|id ids IH]; intros cum previous running; simpl.
  - apply list_subseteq_nil.
  - case_decide; [|apply IH].
    match goal with |- context [restrict_table cs ids ?c ?p ?r] =>
      specialize (IH c p r); destruct (restrict_table cs ids c p r) end.
    simpl in *. set_solver.
Qed.

Lemma pick_among_candidate stats cs random :
  cs ≠ [] → ∃ x, pick_among stats cs random = Some x ∧ x ∈ cs.
Proof.
  intros Hne. unfold pick_among.
  destruct (mod_lookup cs random Hne) as (u & Hu & Huin).
  rewrite (bool_decide_eq_false_2 (cs = [])) by done.
  destruct stats as [st|]; [|by exists u].
  pose proof (restrict_table_incl cs (partition_ids st) (cumulative_frequency st) 0 0) as Hincl.
  destruct (restrict_table _ _ _ _ _) as [table ids]. simpl in Hincl.
  case_bool_decide; [by exists u|].
  destruct (ids !! _) as [id|] eqn:Hid.
  - exists id. split; [done|]. apply Hincl. by eapply list_elem_of_lookup_2.
  - destruct cs as [|c cs]; [done|]. exists c. split; [done|left].
Qed.

Lemma rack_candidates_some c p r cs :
  rack_aware_candidates c p (Some r) = Some cs →
  cs ≠ [] ∧ ∀ i, i ∈ cs ↔ leader_rack r i = Some (client_rack r) ∧ i ∈ candidates_with_leader p.
Proof.
  unfold rack_aware_candidates. destruct (negb (rack_aware c)); [done|]. simpl.
  case_bool_decide; [done|]. intros [= <-]. split; [done|]. intros i.
  by rewrite list_elem_of_filter.
Qed.

Lemma rack_candidates_exists c p r i :
  rack_aware c = true → i ∈ candidates_with_leader p →
  leader_rack r i = Some (client_rack r) →
  is_Some (rack_aware_candidates c p (Some r)).
Proof.
  intros Hc Hi Hr. unfold rack_aware_candidates. rewrite Hc. simpl.
  rewrite bool_decide_eq_false_2; [by eexists|].
  intros E. by eapply (filter_nil_not_elem_of _ _ i E).
Qed.

(** The load stats a topic may hold: the identifiers name its partitions. *)
Definition stats_within (count : Z) (stats : option LoadStats) : Prop :=
  ∀ st, stats = Some st → Forall (λ id, 0 ≤ id < count) (partition_ids st).

Lemma pick_partition_range c stats p rack random :
  0 < tp_count p ≤ i32_max → stats_within (tp_count p) stats →
  0 ≤ pick_partition c stats p rack random < tp_count p.
Proof.
  intros Hc Hst. unfold pick_partition.
  set (rd := Z.land random _).
  destruct (rack_aware_candidates c p rack ≫= _) as [x|] eqn:Hrp.
  - apply bind_Some in Hrp as (cs & Hcs & Hx). destruct rack as [r|];
      [|unfold rack_aware_candidates in Hcs; by destruct (negb _)].
    apply rack_candidates_some in Hcs as [Hne Hin].
    destruct (pick_among_candidate stats cs rd Hne) as (y & Hy & Hycs). simplify_eq.
    apply Hin in Hycs as [_ Hy%elem_of_candidates]. lia.
  - destruct stats as [st|].
    + specialize (Hst st eq_refl). rewrite Forall_forall in Hst.
      destruct (partition_ids st !! _) as [id|] eqn:Hid; simpl; [|lia].
      apply Hst. by eapply list_elem_of_lookup_2.
    + case_bool_decide as He.
      * pose proof (Z.mod_pos_bound rd (Z.max (tp_count p) 1) ltac:(lia)).
        unfold i32_try_from. rewrite decide_True by ints. simpl. lia.
      * destruct (mod_lookup (candidates_with_leader p) rd He) as (x & -> & Hx).
        apply elem_of_candidates in Hx. lia.
Qed.

(** a pick is a partition of the topic, and the best kind there is. It is
    in range always; with rack awareness on and some led partition in the
    client's rack, its leader is in that rack; without rack preference and
    load stats, it has a leader whenever any partition has one. *)
Theorem pick_partition_valid c stats p rack random :
  0 < tp_count p ≤ i32_max → stats_within (tp_count p) stats →
  0 ≤ pick_partition c stats p rack random < tp_count p ∧
  (∀ r i, rack = Some r → rack_aware c = true → i ∈ candidates_with_leader p →
     leader_rack r i = Some (client_rack r) →
     has_leader p (pick_partition c stats p rack random) = true ∧
     leader_rack r (pick_partition c stats p rack random) = Some (client_rack r)) ∧
  (∀ i, rack_aware_candidates c p rack = None → stats = None → i ∈ candidates_with_leader p →
     has_leader p (pick_partition c stats p rack random) = true).
Proof.
  intros Hc Hst. split_and!; [by apply pick_partition_range|by apply pick_partition_range| |].
  - intros r i -> Hra Hi Hir.
    destruct (rack_candidates_exists c p r i Hra Hi Hir) as [cs Hcs].
    pose proof (rack_candidates_some _ _ _ _ Hcs) as [Hne Hin].
    unfold pick_partition. rewrite Hcs. simpl.
    destruct (pick_among_candidate stats cs (Z.land random 0x7fffffff) Hne) as (y & -> & Hy).
    apply Hin in Hy as [Hyr Hy%elem_of_candidates]. split; [apply Hy|done].
  - intros i Hn -> Hi. unfold pick_partition. rewrite Hn. simpl.
    assert (candidates_with_leader p ≠ []) as Hne by (intros E; rewrite E in Hi;
      by apply elem_of_nil in Hi).
    rewrite bool_decide_eq_false_2 by done.
    destruct (mod_lookup _ (Z.land random 0x7fffffff) Hne) as (x & -> & Hx).
    apply elem_of_candidates in Hx. apply Hx.
Qed.

Definition sample_rack : RackPreference :=
  mkRackPreference (λ i, if i =? 2 then Some "a" else Some "b") "a".

Lemma pick_partition_valid_witness :
  pick_partition (mkPartitionerConfig 16384 false true 0 true) None
    (mkTopicPartitions 4 (λ _, true)) (Some sample_rack) 7 = 2 ∧
  leader_rack sample_rack
    (pick_partition (mkPartitionerConfig 16384 false true 0 true) None
      (mkTopicPartitions 4 (λ _, true)) (Some sample_rack) 7) = Some "a".
Proof.
  split; [reflexivity|].
  destruct (pick_partition_valid (mkPartitionerConfig 16384 false true 0 true) None
    (mkTopicPartitions 4 (λ _, true)) (Some sample_rack) 7) as (_ & H & _).
  - simpl. ints.
  - by intros st.
  - apply (H sample_rack 2); [reflexivity|reflexivity| |reflexivity].
    apply elem_of_candidates. simpl. split; [done|lia].
Defined.

(** ** The partitioner as a state machine *)

(** One call on the partitioner, with the values its arguments may take. A
    step is fresh when it does not wrap the 64-bit pick counter. *)
Inductive partitioner_step (b : BuiltInPartitioner) : BuiltInPartitioner → Prop :=
| step_peek topic p rack random :
  picks b + 1 < 2 ^ 64 →
  partitioner_step b (peek_inner b topic p rack random).2
| step_update topic s appended p enable_switch rack random :
  picks b + 1 < 2 ^ 64 → is_usize appended →
  partitioner_step b (update_inner b topic s appended p enable_switch rack random)
| step_load topic queues :
  partitioner_step b (update_load_stats b topic queues).

Definition size_of (b : BuiltInPartitioner) : Z := Z.max (sticky_batch_size (config b)) 1.

(** The invariant: no topic carries twice its batch size on one sticky
    partition, and every sticky partition carries a stamp already issued. *)
Definition sticky_ok (b : BuiltInPartitioner) (st : TopicState) : Prop :=
  ∀ s produced, sticky st = Some (s, produced) →
    0 ≤ produced < usize_saturating_mul (size_of b) 2 ∧ 0 ≤ sticky_pick s < picks b.

Definition partitioner_inv (b : BuiltInPartitioner) : Prop :=
  0 ≤ picks b < 2 ^ 64 ∧ is_usize (sticky_batch_size (config b)) ∧
  ∀ topic st, topics b !! topic = Some st → sticky_ok b st.

Lemma double_size_pos b : is_usize (sticky_batch_size (config b)) →
  1 ≤ size_of b ∧ 1 < usize_saturating_mul (size_of b) 2.
Proof. unfold size_of, usize_saturating_mul. ints. Qed.

Lemma pick_picks b stats p rack random :
  0 ≤ picks b → picks b + 1 < 2 ^ 64 →
  picks (pick b stats p rack random).2 = picks b + 1.
Proof. intros. unfold pick. simpl. apply Z.mod_small. lia. Qed.

(** Writing the state of one topic keeps the invariant when the counter did
    not go back and the written state is good. *)
Lemma set_topic_inv b b' topic st :
  partitioner_inv b → config b' = config b → topics b' = topics b →
  picks b ≤ picks b' < 2 ^ 64 → sticky_ok b' st →
  partitioner_inv (set_topic b' topic st).
Proof.
  intros (Hp & Hs & Ht) Hc Htop Hle Hok. split_and!; simpl; [lia|lia|by rewrite Hc|].
  intros t' st' Hl. rewrite Htop in Hl.
  apply lookup_insert_Some in Hl as [[_ <-]|[_ Hl]].
  - exact Hok.
  - intros s n Hsn. destruct (Ht _ _ Hl s n Hsn) as [H1 H2].
    unfold size_of in *. simpl. rewrite Hc. split; [exact H1|lia].
Qed.

Lemma sticky_ok_lookup b topic :
  partitioner_inv b → sticky_ok b (default TopicState_default (topics b !! topic)).
Proof.
  intros (_ & _ & Ht). destruct (topics b !! topic) eqn:E; simpl; [by eapply Ht|by intros ??].
Qed.

(** A freshly picked sticky partition is good in the state after the pick. *)
Lemma pick_sticky_ok b stats p rack random load :
  partitioner_inv b → picks b + 1 < 2 ^ 64 →
  sticky_ok (pick b stats p rack random).2
    (mkTopicState (Some ((pick b stats p rack random).1, 0)) load).
Proof.
  intros (Hp & Hs & _) Hf s n [= <- <-].
  pose proof (double_size_pos b Hs). rewrite pick_picks by lia. simpl.
  unfold size_of in *. simpl. lia.
Qed.

Lemma pick_set_topic_inv b stats p rack random load topic :
  partitioner_inv b → picks b + 1 < 2 ^ 64 →
  partitioner_inv (set_topic (pick b stats p rack random).2 topic
    (mkTopicState (Some ((pick b stats p rack random).1, 0)) load)).
Proof.
  intros Hinv Hf. pose proof Hinv as (Hp & _).
  apply (set_topic_inv b); [done|done|done| |by apply pick_sticky_ok].
  rewrite pick_picks by lia. lia.
Qed.

Lemma partitioner_step_inv b b' :
  partitioner_inv b → partitioner_step b b' → partitioner_inv b'.
Proof.
  intros Hinv Hstep. pose proof Hinv as (Hp & Hs & Ht).
  destruct Hstep as [topic p rack random Hf|topic s app p en rack random Hf Happ|topic queues].
  - unfold peek_inner. pose proof (sticky_ok_lookup b topic Hinv) as Hok.
    destruct (sticky _) as [[s n]|] eqn:E.
    + apply (set_topic_inv b); [done..|lia|done].
    + rewrite (surjective_pairing (pick _ _ _ _ _)). by apply pick_set_topic_inv.
  - unfold update_inner. destruct (topics b !! topic) as [st|] eqn:E; [|done].
    destruct (sticky st) as [[cur n]|] eqn:Est; [|done]. case_bool_decide; [done|].
    destruct (Ht _ _ E _ _ Est) as [Hn Hpk].
    destruct (_ || _) eqn:Hsw.
    + rewrite (surjective_pairing (pick _ _ _ _ _)). by apply pick_set_topic_inv.
    + apply (set_topic_inv b); [done..|lia|]. intros s' n' [= <- <-]. split; [|done].
      apply orb_false_iff in Hsw as [_ Hsw%Z.leb_gt]. unfold size_of.
      unfold usize_saturating_add in *. ints.
  - unfold update_load_stats. destruct (topics b !! topic) as [st|] eqn:E.
    + apply (set_topic_inv b); [done..|lia|]. exact (Ht _ _ E).
    + destruct (queues ≫= from_queue_sizes); [|done].
      apply (set_topic_inv b); [done..|lia|]. by intros ??.
Qed.

(** The handle [s] is not the sticky partition of [topic], and its stamp has
    been issued: no later pick can produce it again. *)
Definition retired (topic : string) (s : StickyPartition) (b : BuiltInPartitioner) : Prop :=
  0 ≤ sticky_pick s < picks b ∧ is_changed b topic s = true.

Lemma retired_set_topic topic s b b' topic' st :
  retired topic s b → picks b ≤ picks b' → topics b' = topics b →
  (topic' = topic → ∀ cur n, sticky st = Some (cur, n) → cur ≠ s) →
  retired topic s (set_topic b' topic' st).
Proof.
  intros [Hp Hc] Hle Htop Hnew. split; [simpl; lia|].
  unfold is_changed in *. simpl. rewrite Htop.
  destruct (decide (topic' = topic)) as [->|Hne]; [|by rewrite lookup_insert_ne].
  rewrite lookup_insert_eq. simpl. destruct (sticky st) as [[cur n]|] eqn:E; [|done].
  rewrite bool_decide_eq_false_2; [done|]. by eapply Hnew.
Qed.

Lemma retired_current topic s b st cur n :
  retired topic s b → topics b !! topic = Some st → sticky st = Some (cur, n) → cur ≠ s.
Proof.
  intros [_ Hc] Hst Hs ->. unfold is_changed in Hc. rewrite Hst in Hc. simpl in Hc.
  rewrite Hs in Hc. by rewrite bool_decide_eq_true_2 in Hc.
Qed.

(** A pick stamps a handle newer than every retired one. *)
Lemma retired_pick topic s b stats p rack random topic' load :
  retired topic s b → picks b + 1 < 2 ^ 64 →
  retired topic s (set_topic (pick b stats p rack random).2 topic'
    (mkTopicState (Some ((pick b stats p rack random).1, 0)) load)).
Proof.
  intros Hr Hf. pose proof Hr as [Hp _].
  apply (retired_set_topic _ _ b); [done| |done|].
  - rewrite pick_picks by lia. lia.
  - intros _ cur n [= <- _] <-. simpl in Hp. lia.
Qed.

Lemma retired_step topic s b b' :
  retired topic s b → partitioner_step b b' → retired topic s b'.
Proof.
  intros Hr Hstep.
  destruct Hstep as [topic' p rack random Hf|topic' s' app p en rack random Hf Happ|topic' queues].
  - unfold peek_inner. destruct (sticky _) as [[cur n]|] eqn:E.
    + apply (retired_set_topic _ _ b); [done|lia|done|]. intros -> cur' n' E'.
      destruct (topics b !! topic) as [st|] eqn:Et; [|done].
      by eapply (retired_current topic s b st).
    + rewrite (surjective_pairing (pick _ _ _ _ _)). by apply retired_pick.
  - unfold update_inner. destruct (topics b !! topic') as [st|] eqn:E; [|done].
    destruct (sticky st) as [[cur n]|] eqn:Est; [|done]. case_bool_decide; [done|].
    destruct (_ || _).
    + rewrite (surjective_pairing (pick _ _ _ _ _)). by apply retired_pick.
    + apply (retired_set_topic _ _ b); [done|lia|done|]. intros -> ?? [= <- _].
      by eapply (retired_current topic s b st).
  - unfold update_load_stats. destruct (topics b !! topic') as [st|] eqn:E.
    + apply (retired_set_topic _ _ b); [done|lia|done|]. intros -> ??.
      by eapply (retired_current topic s b st).
    + destruct (queues ≫= from_queue_sizes); [|done].
      by apply (retired_set_topic _ _ b); [done|lia|done|].
Qed.

Lemma partitioner_new_inv c :
  is_usize (sticky_batch_size c) → partitioner_inv (BuiltInPartitioner_new c).
Proof. intros. split_and!; simpl; [lia|lia|done|]. intros t st Hl. by rewrite lookup_empty in Hl. Qed.

Lemma partitioner_steps_inv b b' :
  partitioner_inv b → rtc partitioner_step b b' → partitioner_inv b'.
Proof. intros Hinv Hs. induction Hs; eauto using partitioner_step_inv. Qed.

(** a retired sticky partition stays retired. Whatever calls run after a
    new partitioner was made, the counts stay under twice the batch size and
    every stamp is one already issued; and once [is_changed] has told a
    sender that its handle is no longer the sticky partition of a topic, no
    later peek, update or load report makes the same handle current again,
    even when the same partition is picked again. *)
Theorem sticky_handle_retired c b b' topic s :
  is_usize (sticky_batch_size c) →
  rtc partitioner_step (BuiltInPartitioner_new c) b → rtc partitioner_step b b' →
  0 ≤ sticky_pick s < picks b → is_changed b topic s = true →
  partitioner_inv b' ∧ is_changed b' topic s = true.
Proof.
  intros Hc H1 H2 Hp Hch. split.
  - eapply partitioner_steps_inv; [|exact H2].
    eapply partitioner_steps_inv; [by apply partitioner_new_inv|exact H1].
  - assert (retired topic s b) as Hr by done. clear H1 Hp Hch.
    induction H2 as [|b b1 b' Hstep _ IH]; [apply Hr|].
    apply IH. by eapply retired_step.
Qed.

(** the switch rule of [update]. On the sticky partition of a topic of a
    reachable partitioner, an append that brings the count to the batch size
    with the switch enabled, or to twice the batch size without, retires the
    handle and starts a new one at count zero; any other append only counts.
    An append on another handle changes nothing. *)
Theorem sticky_switch_rule b topic st s n appended p en rack random :
  partitioner_inv b → picks b + 1 < 2 ^ 64 → is_usize appended →
  topics b !! topic = Some st → sticky st = Some (s, n) →
  let b' := update_inner b topic s appended p en rack random in
  let switch := (size_of b <=? n + appended) && en
                || (Z.min usize_max (size_of b * 2) <=? n + appended) in
  is_changed b' topic s = switch ∧
  (topics b' !! topic ≫= sticky) =
    Some (if switch then (mkSticky (pick_partition (config b) (load_stats st) p rack random)
                            (picks b), 0)
          else (s, n + appended)) ∧
  ∀ s', s' ≠ s → update_inner b topic s' appended p en rack random = b.
Proof.
  intros Hinv Hf Happ Ht Hs b' switch.
  pose proof Hinv as (Hp & Hsz & Hok). destruct (Hok _ _ Ht _ _ Hs) as [Hn Hpk].
  pose proof (double_size_pos b Hsz) as [Hs1 Hs2].
  assert (∀ k, k ≤ usize_max → (k <=? usize_saturating_add n appended) = (k <=? n + appended))
    as Hle.
  { intros k Hk. unfold usize_saturating_add.
    destruct (Z.leb_spec k (n + appended)); [apply Z.leb_le|apply Z.leb_gt]; lia. }
  assert (∀ s', update_inner b topic s' appended p en rack random =
    if bool_decide (s ≠ s') then b else
    if switch then
      set_topic (pick b (load_stats st) p rack random).2 topic
        (mkTopicState (Some ((pick b (load_stats st) p rack random).1, 0)) (load_stats st))
    else set_topic b topic (mkTopicState (Some (s, usize_saturating_add n appended)) (load_stats st)))
    as Heq.
  { intros s'. unfold update_inner. rewrite Ht, Hs. case_bool_decide; [done|].
    fold (size_of b). rewrite !Hle by (unfold size_of, usize_saturating_mul in *; ints).
    fold switch. unfold usize_saturating_mul. fold switch. done. }
  split_and!.
  - unfold b'. rewrite Heq, bool_decide_eq_false_2 by auto.
    destruct switch; unfold is_changed; simpl; rewrite lookup_insert_eq; simpl.
    + rewrite bool_decide_eq_false_2; [done|]. intros <-. simpl in Hpk. lia.
    + by rewrite bool_decide_eq_true_2.
  - unfold b'. rewrite Heq, bool_decide_eq_false_2 by auto.
    destruct switch eqn:Hsw; simpl; rewrite lookup_insert_eq; simpl; [done|].
    apply orb_false_iff in Hsw as [_ Hsw%Z.leb_gt]. unfold usize_saturating_add.
    by rewrite Z.min_r by (unfold usize_saturating_mul in *; ints).
  - intros s' Hne. rewrite Heq, bool_decide_eq_true_2 by auto. done.
Qed.

(** A topic of three partitions, all led, peeked once and then filled. *)
Definition sample_topic : TopicPartitions := mkTopicPartitions 3 (λ _, true).
Definition sample_peeked : StickyPartition * BuiltInPartitioner :=
  peek_inner (BuiltInPartitioner_new PartitionerConfig_default) "t" sample_topic None 7.

Lemma sample_peeked_inv : partitioner_inv sample_peeked.2.
Proof.
  eapply partitioner_step_inv; [apply (partitioner_new_inv PartitionerConfig_default)|].
  - by vm_compute.
  - by apply step_peek.
Qed.

Lemma sticky_switch_rule_witness :
  is_changed (update_inner sample_peeked.2 "t" (mkSticky 1 0) 20000 sample_topic true None 8)
    "t" (mkSticky 1 0) = true.
Proof.
  destruct (sticky_switch_rule sample_peeked.2 "t" (mkTopicState (Some (mkSticky 1 0, 0)) None)
    (mkSticky 1 0) 0 20000 sample_topic true None 8) as (H & _);
    [apply sample_peeked_inv|by vm_compute|by vm_compute|reflexivity|reflexivity|].
  exact H.
Defined.

Lemma sticky_handle_retired_witness :
  let b := update_inner sample_peeked.2 "t" (mkSticky 1 0) 20000 sample_topic true None 7 in
  let b' := update_inner b "t" (mkSticky 1 1) 20000 sample_topic true None 7 in
  is_changed b' "t" (mkSticky 1 0) = true ∧ (topics b' !! "t" ≫= sticky) = Some (mkSticky 1 2, 0).
Proof.
  split; [|reflexivity].
  apply (sticky_handle_retired PartitionerConfig_default
    (update_inner sample_peeked.2 "t" (mkSticky 1 0) 20000 sample_topic true None 7)
    _ "t" (mkSticky 1 0)).
  - by vm_compute.
  - eapply rtc_l; [by apply (step_peek _ "t" sample_topic None 7)|].
    apply rtc_once, step_update; by vm_compute.
  - apply rtc_once, step_update; by vm_compute.
  - by vm_compute.
  - reflexivity.
Defined.
