(* ===== verification/Accumulator.v ===== *)
(** * The record accumulator of a partition

    [crates/client-producer/src/accumulator.rs]: the batch in progress, the
    queue of sealed batches, and the record size estimates. A oneshot channel
    is a number, the same on the record and in the result of [append]; a
    [MemoryReservation] is the number of bytes it holds, and giving one back to
    the pool is a result of the operation that drops it. *)

From S2P Require Import Prelude Bytes.

(** ** Records and batches *)

Record Header : Type := mkHeader { h_key : string; h_value : option bytes }.

Record PendingRecord : Type := mkPending {
  pr_offset_delta : Z;
  pr_timestamp_ms : Z;
  pr_key : option bytes;
  pr_value : option bytes;
  pr_headers : list Header;
  pr_ack : nat;
}.

Record InProgressBatch : Type := mkBatch {
  ib_generation : option Z;
  ib_first_append_at : Z;
  ib_size_bytes : Z;
  ib_records : list PendingRecord;
  ib_memory : option Z;
}.

Definition InProgressBatch_new (transaction_generation : option Z) (now : Z) : InProgressBatch :=
  mkBatch transaction_generation now 0 [] None.

Definition is_empty (b : InProgressBatch) : bool := bool_decide (ib_records b = []).

Record Accumulator : Type := mkAccumulator {
  ac_current : option InProgressBatch;
  ac_ready : list InProgressBatch;
  ac_batch_size : Z;
}.

Definition Accumulator_new (batch_size : Z) : Accumulator := mkAccumulator None [] batch_size.

(** ** Record sizes *)

Definition opt_len (b : option bytes) : Z := match b with Some l => Z.of_nat (length l) | None => 0 end.

Definition approx_record_size (key value : option bytes) (headers : list Header) : Z :=
  let n := 8 in
  let n := n + (opt_len key + 4) in
  let n := n + (opt_len value + 4) in
  foldl (λ n h, n + (str_len (h_key h) + opt_len (h_value h) + 8)) n headers.

Definition RECORD_BATCH_OVERHEAD : Z := 61.
Definition MAX_RECORD_OVERHEAD : Z := 21.

Definition varint_size (value : Z) : Z :=
  let zigzag := (value * 2) mod 2 ^ 64 in
  let bits := Z.log2 (Z.lor zigzag 1) + 1 in
  (bits + 6) / 7.

Definition nullable_bytes_size (len : option Z) : Z :=
  match len with None => 1 | Some len => varint_size len + len end.

Definition record_size_upper_bound (key value : option bytes) (headers : list Header) : Z :=
  let len (b : option bytes) := (λ l, Z.of_nat (length l)) <$> b in
  let size := RECORD_BATCH_OVERHEAD + MAX_RECORD_OVERHEAD in
  let size := size + nullable_bytes_size (len key) in
  let size := size + nullable_bytes_size (len value) in
  let size := size + varint_size (Z.of_nat (length headers)) in
  foldl (λ size h, size + (varint_size (str_len (h_key h)) + str_len (h_key h))
                   + nullable_bytes_size (len (h_value h))) size headers.

(** ** Operations *)

Definition record_size (r : PendingRecord) : Z :=
  approx_record_size (pr_key r) (pr_value r) (pr_headers r).

Definition index_delta (index : nat) : Z := default i32_max (i32_try_from (Z.of_nat index)).

Definition set_delta (r : PendingRecord) (delta : Z) : PendingRecord :=
  mkPending delta (pr_timestamp_ms r) (pr_key r) (pr_value r) (pr_headers r) (pr_ack r).

Definition push_front (a : Accumulator) (records : list PendingRecord)
    (transaction_generation : option Z) (created_at : Z) : Accumulator :=
  let batch := InProgressBatch_new transaction_generation created_at in
  let batch := foldl (λ b e, mkBatch (ib_generation b) (ib_first_append_at b)
                               (ib_size_bytes b + record_size e.2)
                               (ib_records b ++ [set_delta e.2 (index_delta e.1)]) (ib_memory b))
                 batch (imap (λ i r, (i, r)) records) in
  mkAccumulator (ac_current a) (batch :: ac_ready a) (ac_batch_size a).

Definition needs_new_batch (a : Accumulator) (size : Z) (transaction_generation : option Z) : bool :=
  match ac_current a with
  | None => true
  | Some b =>
    bool_decide (ib_generation b ≠ transaction_generation) ||
    ((ac_batch_size a <? ib_size_bytes b + size) && negb (is_empty b))
  end.

Record AppendResult : Type := mkAppendResult { receiver : nat; wakes_sender : bool }.

(** The new accumulator, the result, and the memory given back at once. *)
Definition append (a : Accumulator) (key value : option bytes) (headers : list Header)
    (timestamp_ms : Z) (transaction_generation : option Z) (memory : option Z)
    (now : Z) (channel : nat) : Accumulator * AppendResult * option Z :=
  let size := approx_record_size key value headers in
  let need_new_batch := needs_new_batch a size transaction_generation in
  let '(batch, ready, released) :=
    match ac_current a, need_new_batch with
    | Some batch, false => (batch, ac_ready a, memory)
    | current, _ =>
      let ready := match current with Some prev => ac_ready a ++ [prev] | None => ac_ready a end in
      let batch := InProgressBatch_new transaction_generation now in
      (mkBatch (ib_generation batch) (ib_first_append_at batch) (ib_size_bytes batch)
         (ib_records batch) memory, ready, None)
    end in
  let record := mkPending (index_delta (length (ib_records batch))) timestamp_ms key value headers
                  channel in
  (mkAccumulator
     (Some (mkBatch (ib_generation batch) (ib_first_append_at batch) (ib_size_bytes batch + size)
              (ib_records batch ++ [record]) (ib_memory batch)))
     ready (ac_batch_size a),
   mkAppendResult channel need_new_batch, released).

Definition all_batches_full (a : Accumulator) : bool :=
  match ac_current a with None => true | Some b => ac_batch_size a <=? ib_size_bytes b end.

Definition queue_size (a : Accumulator) : nat :=
  (length (ac_ready a) +
   match ac_current a with Some b => if is_empty b then 0 else 1 | None => 0 end)%nat.

(** The queued batches, oldest last as [current.take()] comes first. *)
Definition abort_undrained_batches (a : Accumulator) : Accumulator * list InProgressBatch :=
  (mkAccumulator None [] (ac_batch_size a), option_list (ac_current a) ++ ac_ready a).

(** The channels that then get [TransactionAborted], in order. *)
Definition aborted_acks (batches : list InProgressBatch) : list nat :=
  concat ((λ b, pr_ack <$> ib_records b) <$> batches).

Definition seal_current (a : Accumulator) : Accumulator :=
  match ac_current a with
  | Some b => mkAccumulator None (if is_empty b then ac_ready a else ac_ready a ++ [b]) (ac_batch_size a)
  | None => a
  end.

(** [ready.pop_front()] of the sender. *)
Definition pop_ready (a : Accumulator) : Accumulator * option InProgressBatch :=
  match ac_ready a with
  | [] => (a, None)
  | b :: ready => (mkAccumulator (ac_current a) ready (ac_batch_size a), Some b)
  end.

(** ** Runs *)

Inductive acc_op : Type :=
| OpAppend (key value : option bytes) (headers : list Header) (timestamp_ms : Z)
    (generation : option Z) (memory : option Z) (now : Z) (channel : nat)
| OpSeal
| OpPop
| OpAbort.

(** The accumulator, and what its operations did so far: the channels appended
    with their generation, the batches taken by the sender, the channels that
    were failed, the memory handed in and the memory given back. *)
Record AccRun : Type := mkRun {
  ru_acc : Accumulator;
  ru_appended : list (nat * option Z);
  ru_popped : list InProgressBatch;
  ru_failed : list nat;
  ru_given : list Z;
  ru_released : list Z;
}.

Definition exec (s : AccRun) (op : acc_op) : AccRun :=
  match op with
  | OpAppend key value headers ts generation memory now channel =>
    let '(a, _, released) := append (ru_acc s) key value headers ts generation memory now channel in
    mkRun a (ru_appended s ++ [(channel, generation)]) (ru_popped s) (ru_failed s)
      (ru_given s ++ option_list memory) (ru_released s ++ option_list released)
  | OpSeal =>
    mkRun (seal_current (ru_acc s)) (ru_appended s) (ru_popped s) (ru_failed s) (ru_given s)
      (ru_released s)
  | OpPop =>
    let '(a, b) := pop_ready (ru_acc s) in
    mkRun a (ru_appended s) (ru_popped s ++ option_list b) (ru_failed s) (ru_given s) (ru_released s)
  | OpAbort =>
    let '(a, batches) := abort_undrained_batches (ru_acc s) in
    mkRun a (ru_appended s) (ru_popped s) (ru_failed s ++ aborted_acks batches) (ru_given s)
      (ru_released s ++ omap ib_memory batches)
  end.

Definition run (batch_size : Z) (ops : list acc_op) : AccRun :=
  foldl exec (mkRun (Accumulator_new batch_size) [] [] [] [] []) ops.

(** The queued batches, oldest first. *)
Definition queued (a : Accumulator) : list InProgressBatch := ac_ready a ++ option_list (ac_current a).

Definition acks (bs : list InProgressBatch) : list nat :=
  concat ((λ b, pr_ack <$> ib_records b) <$> bs).

(** A batch the sender may take: it has records, its size is theirs and above
    [batch_size] only for a single record, and the records are numbered. *)
Record batch_ok (batch_size : Z) (b : InProgressBatch) : Prop := {
  bo_nonempty : ib_records b ≠ [];
  bo_size : ib_size_bytes b = foldr Z.add 0 (record_size <$> ib_records b);
  bo_limit : ib_size_bytes b ≤ batch_size ∨ length (ib_records b) = 1%nat;
  bo_deltas i r : ib_records b !! i = Some r → pr_offset_delta r = index_delta i;
}.

(** Every channel of a batch was appended under the batch's generation. *)
Definition generation_ok (appended : list (nat * option Z)) (b : InProgressBatch) : Prop :=
  ∀ r, r ∈ ib_records b → (pr_ack r, ib_generation b) ∈ appended.

Record run_inv (batch_size : Z) (s : AccRun) : Prop := {
  ri_size : ac_batch_size (ru_acc s) = batch_size;
  ri_batches : Forall (batch_ok batch_size) (ru_popped s ++ queued (ru_acc s));
  ri_generations : Forall (generation_ok (ru_appended s)) (ru_popped s ++ queued (ru_acc s));
  ri_order : acks (ru_popped s ++ queued (ru_acc s)) `sublist_of` (ru_appended s).*1;
  ri_once : acks (ru_popped s ++ queued (ru_acc s)) ++ ru_failed s ≡ₚ (ru_appended s).*1;
  ri_memory : omap ib_memory (ru_popped s ++ queued (ru_acc s)) ++ ru_released s ≡ₚ ru_given s;
}.

Lemma acks_app l k : acks (l ++ k) = acks l ++ acks k.
Proof. unfold acks. by rewrite fmap_app, concat_app. Qed.

Lemma acks_singleton b : acks [b] = pr_ack <$> ib_records b.
Proof. unfold acks. simpl. by rewrite app_nil_r. Qed.

(** [append] adds its record at the end of the queue. *)
Lemma append_cases a key value headers ts g memory now channel :
  let size := approx_record_size key value headers in
  let '(a', res, released) := append a key value headers ts g memory now channel in
  ac_batch_size a' = ac_batch_size a ∧ receiver res = channel ∧
  ((∃ b r, wakes_sender res = false ∧ released = memory ∧
      ac_current a = Some b ∧ ac_ready a' = ac_ready a ∧ ib_generation b = g ∧
      (ib_size_bytes b + size ≤ ac_batch_size a ∨ ib_records b = []) ∧
      r = mkPending (index_delta (length (ib_records b))) ts key value headers channel ∧
      ac_current a' = Some (mkBatch g (ib_first_append_at b) (ib_size_bytes b + size)
                              (ib_records b ++ [r]) (ib_memory b))) ∨
   (wakes_sender res = true ∧ released = None ∧ ac_ready a' = queued a ∧
      ac_current a' = Some (mkBatch g now size
        [mkPending (index_delta 0) ts key value headers channel] memory))).
Proof.
  unfold append, needs_new_batch, queued, is_empty. cbn zeta.
  destruct (ac_current a) as [b|] eqn:Hc; simpl.
  - destruct (decide (ib_generation b = g)) as [Hg|Hg].
    + rewrite bool_decide_eq_false_2 by tauto. simpl.
      destruct (Z.ltb_spec (ac_batch_size a) (ib_size_bytes b + approx_record_size key value headers));
        simpl; [destruct (bool_decide (ib_records b = [])) eqn:He; simpl|].
      * apply bool_decide_eq_true in He. split_and!; [done|done|]. left. subst g. eauto 15.
      * split_and!; [done|done|]. right. done.
      * split_and!; [done|done|]. left. subst g. eauto 15.
    + rewrite bool_decide_eq_true_2 by done. simpl. split_and!; [done|done|]. by right.
  - split_and!; [done|done|]. right. by rewrite app_nil_r.
Qed.

Lemma foldr_add l z : foldr Z.add z l = foldr Z.add 0 l + z.
Proof. induction l as [|x l IH]; simpl; lia. Qed.

Lemma batch_ok_extend n b g now size ts key value headers channel :
  batch_ok n b → size = approx_record_size key value headers →
  ib_size_bytes b + size ≤ n →
  batch_ok n (mkBatch g now (ib_size_bytes b + size)
    (ib_records b ++ [mkPending (index_delta (length (ib_records b))) ts key value headers channel])
    (ib_memory b)).
Proof.
  intros [H1 H2 _ H4] -> Hle. split; simpl.
  - intros E. by apply app_nil in E as [_ ?].
  - rewrite fmap_app, foldr_app, H2, (foldr_add _ (foldr _ _ _)). simpl. unfold record_size. simpl. lia.
  - by left.
  - intros i r. destruct (decide (i = length (ib_records b))) as [->|Hne].
    + rewrite lookup_app_r, Nat.sub_diag by lia. by intros [= <-].
    + intros Hi. apply H4. rewrite lookup_app in Hi. destruct (ib_records b !! i) as [x|] eqn:E; [done|].
      apply lookup_ge_None in E. apply list_lookup_singleton_Some in Hi as [? _]. lia.
Qed.

Lemma batch_ok_fresh n g now ts key value headers channel memory :
  batch_ok n (mkBatch g now (approx_record_size key value headers)
    [mkPending (index_delta 0) ts key value headers channel] memory).
Proof.
  split; simpl; [done|unfold record_size; simpl; lia|by right|].
  intros [|i] r; simpl; [by intros [= <-]|done].
Qed.

Lemma generation_mono l k b : generation_ok l b → generation_ok (l ++ k) b.
Proof. intros H r Hr. apply elem_of_app. left. by apply H. Qed.

Lemma run_inv_append n s key value headers ts g memory now channel :
  run_inv n s → run_inv n (exec s (OpAppend key value headers ts g memory now channel)).
Proof.
  intros [Hn Hb Hg Ho Honce Hm]. simpl.
  pose proof (append_cases (ru_acc s) key value headers ts g memory now channel) as Hc.
  destruct (append _ _ _ _ _ _ _ _ _) as [[a' res] released]. cbn zeta in Hc.
  destruct Hc as (Hn' & _ & [(b & r & _ & -> & Hcur & Hready & Hgen & Hlim & Hr & Hcur')
    |(_ & -> & Hready & Hcur')]).
  - assert (queued (ru_acc s) = ac_ready (ru_acc s) ++ [b]) as Hq by (unfold queued; by rewrite Hcur).
    set (b' := mkBatch _ _ _ _ _) in Hcur'.
    assert (queued a' = ac_ready (ru_acc s) ++ [b']) as Hq' by (unfold queued; by rewrite Hready, Hcur').
    rewrite Hq in *. rewrite (assoc_L (++)) in Hb, Hg, Ho, Honce, Hm.
    set (old := ru_popped s ++ ac_ready (ru_acc s)) in *.
    apply Forall_app in Hb as [Hb [Hb1 _]%Forall_cons], Hg as [Hg [Hg1 _]%Forall_cons].
    rewrite acks_app, acks_singleton in Ho, Honce.
    assert (pr_ack <$> ib_records b' = (pr_ack <$> ib_records b) ++ [channel]) as Ha
      by (unfold b'; simpl; by rewrite fmap_app, Hr).
    split; simpl; rewrite ?Hq', ?(assoc_L (++)); fold old.
    + congruence.
    + apply Forall_app. split; [done|]. apply Forall_singleton. unfold b'. rewrite Hr.
      apply batch_ok_extend; [done|done|]. destruct Hlim as [|Hnil]; [congruence|].
      by destruct (bo_nonempty _ _ Hb1).
    + apply Forall_app. split; [eapply Forall_impl; [done|]; intros; by apply generation_mono|].
      apply Forall_singleton. intros x. unfold b'. simpl. rewrite elem_of_app, list_elem_of_singleton.
      intros [Hx| ->].
      * apply elem_of_app. left. rewrite <- Hgen. by apply Hg1.
      * apply elem_of_app. right. rewrite Hr. by left.
    + rewrite acks_app, acks_singleton, Ha, fmap_app, (assoc_L (++)). simpl. by apply sublist_app.
    + rewrite acks_app, acks_singleton, Ha, fmap_app, <- Honce. simpl.
      rewrite <- !(assoc_L (++)). do 2 f_equiv. by rewrite (Permutation_app_comm [channel]).
    + rewrite omap_app in Hm |- *. simpl in *. by rewrite <- Hm.
  - set (b' := mkBatch _ _ _ _ _) in Hcur'.
    assert (queued a' = queued (ru_acc s) ++ [b']) as Hq' by (unfold queued at 1; by rewrite Hready, Hcur').
    set (old := ru_popped s ++ queued (ru_acc s)) in *.
    split; simpl; rewrite ?Hq', ?(assoc_L (++)); fold old.
    + congruence.
    + apply Forall_app. split; [done|]. apply Forall_singleton, batch_ok_fresh.
    + apply Forall_app. split; [eapply Forall_impl; [done|]; intros; by apply generation_mono|].
      apply Forall_singleton. intros x. unfold b'. simpl. rewrite list_elem_of_singleton. intros ->.
      apply elem_of_app. right. by left.
    + rewrite acks_app, acks_singleton, fmap_app. simpl. by apply sublist_app.
    + rewrite acks_app, acks_singleton, fmap_app, <- Honce. simpl.
      rewrite <- !(assoc_L (++)). f_equiv. by rewrite (Permutation_app_comm [channel]).
    + rewrite omap_app, app_nil_r, <- Hm. simpl.
      rewrite <- !(assoc_L (++)). f_equiv. rewrite Permutation_app_comm. by destruct memory.
Qed.

Lemma queued_seal a : Forall (λ b, ib_records b ≠ []) (queued a) → queued (seal_current a) = queued a.
Proof.
  unfold queued, seal_current, is_empty. destruct (ac_current a) as [b|] eqn:E; simpl.
  - intros [_ [Hb _]%Forall_cons]%Forall_app. rewrite bool_decide_eq_false_2 by done.
    by rewrite app_nil_r.
  - by rewrite E.
Qed.

Lemma run_inv_exec n s op : run_inv n s → run_inv n (exec s op).
Proof.
  intros Hinv. destruct op as [key value headers ts g memory now channel| | |];
    [by apply run_inv_append|..]; destruct Hinv as [Hn Hb Hg Ho Honce Hm]; simpl.
  - assert (queued (seal_current (ru_acc s)) = queued (ru_acc s)) as Hq.
    { apply queued_seal. apply Forall_app in Hb as [_ Hb]. eapply Forall_impl; [done|].
      intros b. apply bo_nonempty. }
    split; simpl; rewrite ?Hq; try done. unfold seal_current. by case_match.
  - unfold pop_ready. destruct (ac_ready (ru_acc s)) as [|b ready] eqn:E; simpl.
    { by rewrite app_nil_r. }
    assert (queued (ru_acc s) = b :: queued (mkAccumulator (ac_current (ru_acc s)) ready
      (ac_batch_size (ru_acc s)))) as Hq by (unfold queued; by rewrite E).
    rewrite Hq in *. split; simpl; try done; rewrite <- (assoc_L (++)); done.
  - assert (queued (mkAccumulator None [] (ac_batch_size (ru_acc s))) = []) as Hq by done.
    assert (option_list (ac_current (ru_acc s)) ++ ac_ready (ru_acc s) ≡ₚ queued (ru_acc s)) as Hp
      by (unfold queued; by rewrite Permutation_app_comm).
    split; simpl; rewrite ?Hq, ?app_nil_r; try done.
    + by apply Forall_app in Hb as [? _].
    + by apply Forall_app in Hg as [? _].
    + etrans; [|done]. rewrite acks_app. apply sublist_inserts_r. done.
    + assert (aborted_acks (option_list (ac_current (ru_acc s)) ++ ac_ready (ru_acc s)) ≡ₚ
              acks (queued (ru_acc s))) as -> by (unfold aborted_acks, acks; by rewrite Hp).
      rewrite <- Honce, (acks_app (ru_popped s)).
      by rewrite <- (assoc_L (++)), (Permutation_app_comm (ru_failed s)).
    + rewrite Hp, <- Hm, (omap_app _ (ru_popped s)).
      by rewrite <- (assoc_L (++)), (Permutation_app_comm (ru_released s)).
Qed.

Lemma run_inv_run n ops : run_inv n (run n ops).
Proof.
  unfold run. assert (∀ s, run_inv n s → run_inv n (foldl exec s ops)) as H.
  { induction ops as [|op ops IH]; intros s Hs; [done|]. simpl. by apply IH, run_inv_exec. }
  apply H. split; simpl; try done; constructor.
Qed.

(** C22: the accumulator. Over any sequence of appends, seals, takes by the
    sender and aborts, every appended record is in exactly one place, taken,
    queued or failed; those taken and queued are in the order they were
    appended; every batch has records, all of the generation it carries,
    numbered from zero, is charged exactly the sum of their sizes, and exceeds
    [batch_size] only when it holds a single record; and every memory
    reservation handed in is held by one batch or was given back. *)
Theorem accumulator_conserves batch_size ops :
  let s := run batch_size ops in
  let batches := ru_popped s ++ queued (ru_acc s) in
  acks batches ++ ru_failed s ≡ₚ (ru_appended s).*1 ∧
  acks batches `sublist_of` (ru_appended s).*1 ∧
  Forall (λ b, batch_ok batch_size b ∧ generation_ok (ru_appended s) b) batches ∧
  omap ib_memory batches ++ ru_released s ≡ₚ ru_given s.
Proof.
  intros s batches. destruct (run_inv_run batch_size ops) as [_ Hb Hg Ho Honce Hm].
  split_and!; [done|done|by apply Forall_and|done].
Qed.

(** A batch split after the broker found it too large goes out again before
    anything newer, renumbered. *)
Lemma push_front_records a records g created_at :
  ∃ b, push_front a records g created_at =
         mkAccumulator (ac_current a) (b :: ac_ready a) (ac_batch_size a) ∧
    ib_records b = imap (λ i r, set_delta r (index_delta i)) records ∧
    ib_first_append_at b = created_at ∧ ib_generation b = g ∧ ib_memory b = None.
Proof.
  unfold push_front. eexists. split; [done|].
  set (f := λ (b : InProgressBatch) (e : nat * PendingRecord), _).
  assert (∀ es b, ib_records (foldl f b es) = ib_records b ++
      ((λ e, set_delta e.2 (index_delta e.1)) <$> es) ∧
    ib_first_append_at (foldl f b es) = ib_first_append_at b ∧
    ib_generation (foldl f b es) = ib_generation b ∧
    ib_memory (foldl f b es) = ib_memory b) as H.
  { induction es as [|e es IH]; intros b; simpl; [by rewrite app_nil_r|].
    destruct (IH (f b e)) as (-> & -> & -> & ->). simpl. by rewrite <- (assoc_L (++)). }
  destruct (H (imap (λ i r, (i, r)) records) (InProgressBatch_new g created_at)) as (-> & -> & -> & ->).
  simpl. by rewrite fmap_imap.
Qed.

(** [varint_size] is the least number of seven-bit groups that hold the zig-zag
    value. *)
Lemma varint_size_least v :
  0 ≤ v < 2 ^ 63 →
  let k := varint_size v in
  1 ≤ k ∧ 2 * v < 2 ^ (7 * k) ∧ (k = 1 ∨ 2 ^ (7 * (k - 1)) ≤ 2 * v).
Proof.
  intros Hv k. unfold k, varint_size. rewrite Z.mod_small by lia.
  destruct (decide (v = 0)) as [->|Hne]; [vm_compute; split_and!; [discriminate|done|by left]|].
  assert (Z.log2 (Z.lor (v * 2) 1) = Z.log2 (v * 2)) as ->.
  { rewrite Z.log2_lor by lia. pose proof (Z.log2_nonneg (v * 2)). simpl. lia. }
  set (l := Z.log2 (v * 2)). pose proof (Z.log2_spec (v * 2) ltac:(lia)) as [Hlo Hhi]. fold l in Hlo, Hhi.
  assert (0 ≤ l) as Hl by apply Z.log2_nonneg.
  set (q := (l + 1 + 6) / 7). pose proof (Z.div_mod (l + 1 + 6) 7 ltac:(lia)) as Hdm. fold q in Hdm.
  pose proof (Z.mod_pos_bound (l + 1 + 6) 7 ltac:(lia)) as Hm.
  split_and!; [lia| |].
  - apply Z.lt_le_trans with (2 ^ Z.succ l); [lia|]. apply Z.pow_le_mono_r; lia.
  - right. apply Z.le_trans with (2 ^ l); [|lia]. apply Z.pow_le_mono_r; lia.
Qed.
