(* ===== verification/Assignor.v ===== *)
(** * Partition assignors: range and round robin

    [crates/client-consumer/src/assignor/mod.rs], [range.rs] and
    [round_robin.rs]: the assignor names and rebalance protocols, the order
    of members, the user data of a subscription, and the two eager assignors.
    A Rust [HashMap] is a [gmap]; a [BTreeSet] of topics is its sorted list;
    the source sorts what it takes out of a hash map, so no result depends on
    the order of the map. *)

From S2P Require Import Prelude Bytes.

(** ** Assignors and protocols *)

Inductive RebalanceProtocol : Type := Eager | Cooperative.

#[global] Instance RebalanceProtocol_eq_dec : EqDecision RebalanceProtocol.
Proof. solve_decision. Defined.

(** The derived order: [Eager] before [Cooperative]. *)
Definition protocol_max (a b : RebalanceProtocol) : RebalanceProtocol :=
  match a with Cooperative => Cooperative | Eager => b end.

Inductive Assignor : Type := Range | RoundRobin | Sticky | CooperativeSticky.

#[global] Instance Assignor_eq_dec : EqDecision Assignor.
Proof. solve_decision. Defined.

Definition protocol_name (a : Assignor) : string :=
  match a with
  | Range => "range"
  | RoundRobin => "roundrobin"
  | Sticky => "sticky"
  | CooperativeSticky => "cooperative-sticky"
  end.

Definition assignor_from_str (value : string) : result string Assignor :=
  if bool_decide (value = "range") then Ok Range
  else if bool_decide (value = "roundrobin") then Ok RoundRobin
  else if bool_decide (value = "sticky") then Ok Sticky
  else if bool_decide (value = "cooperative-sticky") then Ok CooperativeSticky
  else Err ("invalid assignor: " +:+ value).

Definition DEFAULT_LIST : list Assignor := [Range; CooperativeSticky].

Definition supported_protocols (a : Assignor) : list RebalanceProtocol :=
  match a with
  | Range | RoundRobin | Sticky => [Eager]
  | CooperativeSticky => [Cooperative; Eager]
  end.

Definition by_protocol_name (assignors : list Assignor) (name : string) : option Assignor :=
  snd <$> list_find (λ a, protocol_name a = name) assignors.

(** The duplicate check of [rebalance_protocol_of]: the first assignor that
    also occurs before itself. *)
Fixpoint duplicate_assignor (earlier assignors : list Assignor) : option Assignor :=
  match assignors with
  | [] => None
  | a :: assignors =>
    if decide (a ∈ earlier) then Some a else duplicate_assignor (earlier ++ [a]) assignors
  end.

Definition rebalance_protocol_of (assignors : list Assignor) : result string RebalanceProtocol :=
  match duplicate_assignor [] assignors with
  | Some a => Err ("consumer assignors: duplicate assignor " +:+ protocol_name a)
  | None =>
    match assignors with
    | [] => Err "consumer assignors must not be empty"
    | first :: _ =>
      match filter (λ p, Forall (λ a, p ∈ supported_protocols a) assignors)
              (supported_protocols first) with
      | [] => Err "consumer assignors have no common rebalance protocol"
      | p :: ps => Ok (foldl protocol_max p ps)
      end
    end
  end.

(** ** Members *)

Record MemberKey : Type := mkMemberKey {
  member_id : string;
  group_instance_id : option string;
}.

(** [Ord for MemberKey], as [a <= b]. *)
Definition key_le (a b : MemberKey) : Prop :=
  match group_instance_id a, group_instance_id b with
  | Some x, Some y => str_le x y
  | Some _, None => True
  | None, Some _ => False
  | None, None => str_le (member_id a) (member_id b)
  end.

#[global] Instance key_le_dec : RelDecision key_le.
Proof.
  intros [i [x|]] [j [y|]]; unfold key_le; simpl; apply _.
Defined.

#[global] Instance key_le_total : Total key_le.
Proof.
  intros [i [x|]] [j [y|]]; unfold key_le; simpl; auto; apply (total str_le).
Qed.

#[global] Instance key_le_trans : Transitive key_le.
Proof.
  intros [i [x|]] [j [y|]] [k [z|]]; unfold key_le; simpl; try done; apply transitivity.
Qed.

(** A member with the topics it subscribes to. *)
Notation member := (MemberKey * list string)%type.

Definition member_le (a b : member) : Prop := key_le a.1 b.1.

#[global] Instance member_le_dec : RelDecision member_le.
Proof. intros a b. unfold member_le. apply _. Defined.
#[global] Instance member_le_total : Total member_le.
Proof. intros a b. apply (total key_le). Qed.
#[global] Instance member_le_trans : Transitive member_le.
Proof. intros a b c. unfold member_le. apply transitivity. Qed.

(** What a member is handed. *)
Notation assignment := (gmap string (list topic_partition)).

(** [BTreeSet]: the distinct topics in byte order. *)
Definition btree_set (l : list string) : list string := sort_by str_le (remove_dups l).

(** The entries of the topic map, sorted by topic. *)
Definition entry_le (a b : string * Z) : Prop := str_le a.1 b.1.

#[global] Instance entry_le_dec : RelDecision entry_le.
Proof. intros a b. unfold entry_le. apply _. Defined.

Definition sorted_topics (topic_partitions : gmap string Z) : list (string * Z) :=
  sort_by entry_le (map_to_list topic_partitions).

Definition topic_range (topic : string) (lo len : Z) : list topic_partition :=
  (λ p, (topic, p)) <$> seqZ lo len.

Definition empty_slots (members : list member) : assignment :=
  list_to_map ((λ m, (member_id m.1, [])) <$> members).

(** [out.get_mut(m)] and then [slot.push] of each partition. *)
Definition push_slot (m : string) (tps : list topic_partition) (out : assignment) : assignment :=
  alter (λ slot, slot ++ tps) m out.

(** ** [range.rs] *)

Module RangeAssignor.
Fixpoint give_ranges (topic : string) (per extras : Z) (subscribed : list string) (i next : Z)
    (out : assignment) : assignment :=
  match subscribed with
  | [] => out
  | m :: subscribed =>
    let extra := if default i32_max (i32_try_from i) <? extras then 1 else 0 in
    let take := per + extra in
    give_ranges topic per extras subscribed (i + 1) (next + take)
      (push_slot m (topic_range topic next take) out)
  end.

Definition subscribers (members : list member) (topic : string) : list string :=
  (λ m, member_id m.1) <$> filter (λ m, topic ∈ m.2) members.

Definition assign_topic (members : list member) (out : assignment) (t : string * Z) : assignment :=
  let subscribed := subscribers members t.1 in
  if bool_decide (subscribed = []) || (t.2 <=? 0) then out
  else
    let n := default i32_max (i32_try_from (Z.of_nat (length subscribed))) in
    give_ranges t.1 (Z.quot t.2 n) (Z.rem t.2 n) subscribed 0 0 out.

Definition assign_members (members : list member) (topic_partitions : gmap string Z) : assignment :=
  let members := sort_by member_le members in
  foldl (assign_topic members) (empty_slots members) (sorted_topics topic_partitions).
End RangeAssignor.

(** ** [round_robin.rs] *)

Module RoundRobinAssignor.
(** The first member that subscribes to [topic], from the cursor on and around
    once, with the number of members skipped. *)
Definition next_member (members : list member) (next : nat) (topic : string)
    : option (nat * member) :=
  let start := (next mod length members)%nat in
  list_find (λ m, topic ∈ m.2) (drop start members ++ take start members).

Fixpoint deal (members : list member) (topic : string) (partitions : list Z) (next : nat)
    (out : assignment) : nat * assignment :=
  match partitions with
  | [] => (next, out)
  | partition :: partitions =>
    match next_member members next topic with
    | None => deal members topic partitions next out
    | Some (skipped, m) =>
      deal members topic partitions (next + (skipped + 1))%nat
        (push_slot (member_id m.1) [(topic, partition)] out)
    end
  end.

Definition deal_topic (members : list member) (topic_partitions : gmap string Z)
    (s : nat * assignment) (topic : string) : nat * assignment :=
  match topic_partitions !! topic with
  | None => s
  | Some count => deal members topic (seqZ 0 (Z.max count 0)) s.1 s.2
  end.

Definition assign (members : list member) (topic_partitions : gmap string Z) : assignment :=
  let out := empty_slots members in
  if bool_decide (members = []) then out
  else
    let members := sort_by member_le members in
    let topics := btree_set (concat (snd <$> members)) in
    (foldl (deal_topic members topic_partitions) (0%nat, out) topics).2.
End RoundRobinAssignor.

(** ** What was handed out *)

(** All partitions of all members. *)
Definition assigned (out : assignment) : list topic_partition := concat (map_to_list out).*2.

Lemma assigned_insert m l (out : assignment) :
  out !! m = None → assigned (<[m := l]> out) ≡ₚ l ++ assigned out.
Proof.
  intros Hm. unfold assigned. rewrite map_to_list_insert by done. done.
Qed.

Lemma assigned_lookup m l (out : assignment) :
  out !! m = Some l → assigned out ≡ₚ l ++ assigned (delete m out).
Proof.
  intros Hm. rewrite <- (insert_delete_id out m l) at 1 by done.
  apply assigned_insert, lookup_delete_eq.
Qed.

Lemma push_slot_assigned m tps (out : assignment) :
  is_Some (out !! m) → assigned (push_slot m tps out) ≡ₚ assigned out ++ tps.
Proof.
  intros [l Hl]. unfold push_slot.
  rewrite (assigned_lookup m (l ++ tps)) by (by rewrite lookup_alter_eq, Hl).
  rewrite delete_alter_eq, (assigned_lookup m l out) by done.
  rewrite <- !(assoc_L (++)). f_equiv. apply Permutation_app_comm.
Qed.

Lemma push_slot_dom m tps (out : assignment) : dom (push_slot m tps out) = dom out.
Proof. apply dom_alter_L. Qed.

Lemma push_slot_elem m tps (out : assignment) m' l tp :
  push_slot m tps out !! m' = Some l → tp ∈ l →
  (∃ l', out !! m' = Some l' ∧ tp ∈ l') ∨ (m' = m ∧ tp ∈ tps).
Proof.
  unfold push_slot. destruct (decide (m = m')) as [->|Hne].
  - rewrite lookup_alter_eq. intros (l' & Hl' & ->)%fmap_Some [H|H]%elem_of_app; eauto.
  - rewrite lookup_alter_ne by done. eauto.
Qed.

(** [slots_for ids P out]: one slot per id, and each holds only partitions [P]
    allows it. *)
Definition slots_for (ids : list string) (P : string → topic_partition → Prop)
    (out : assignment) : Prop :=
  dom out = list_to_set ids ∧ ∀ m l tp, out !! m = Some l → tp ∈ l → P m tp.

Definition slots_ok (members : list member) (P : string → topic_partition → Prop)
    (out : assignment) : Prop := slots_for ((λ m, member_id m.1) <$> members) P out.

Lemma slots_for_push ids P out m tps :
  slots_for ids P out → (∀ tp, tp ∈ tps → P m tp) → slots_for ids P (push_slot m tps out).
Proof.
  intros [Hd HP] Hm. split; [by rewrite push_slot_dom|].
  intros m' l tp Hl Htp. destruct (push_slot_elem _ _ _ _ _ _ Hl Htp) as [(l' & ? & ?)|[-> ?]]; eauto.
Qed.

Lemma slots_for_slot ids P out m : slots_for ids P out → m ∈ ids → is_Some (out !! m).
Proof. intros [Hd _] Hm. apply elem_of_dom. rewrite Hd. by apply elem_of_list_to_set. Qed.

Lemma slots_ok_push members P out m tps :
  slots_ok members P out → (∀ tp, tp ∈ tps → P m tp) → slots_ok members P (push_slot m tps out).
Proof. apply slots_for_push. Qed.

Lemma slots_ok_slot members P out (m : member) :
  slots_ok members P out → m ∈ members → is_Some (out !! member_id m.1).
Proof.
  intros Hok Hm. eapply slots_for_slot; [exact Hok|]. apply list_elem_of_fmap. by exists m.
Qed.

(** The partitions slot by slot. *)
Lemma assigned_ids ids (out : assignment) :
  NoDup ids → dom out = list_to_set ids →
  assigned out ≡ₚ concat ((λ id, default [] (out !! id)) <$> ids).
Proof.
  intros Hn. revert out. induction Hn as [|id ids Hid Hn IH]; intros out Hd; simpl in Hd.
  - apply dom_empty_inv_L in Hd as ->. done.
  - assert (is_Some (out !! id)) as [l Hl] by (apply elem_of_dom; rewrite Hd; set_solver).
    rewrite (assigned_lookup id l) by done. csimpl. rewrite Hl. simpl. f_equiv.
    rewrite IH.
    + apply reflexive_eq. f_equal. apply list_fmap_ext. intros i x Hx. f_equal.
      apply lookup_delete_ne. intros ->. apply Hid. by eapply list_elem_of_lookup_2.
    + rewrite dom_delete_L, Hd. apply leibniz_equiv. intros x. rewrite elem_of_difference.
      rewrite !elem_of_list_to_set. set_solver.
Qed.

Lemma empty_slots_lookup members m l : empty_slots members !! m = Some l → l = [].
Proof.
  unfold empty_slots. intros Hl. apply elem_of_list_to_map_2 in Hl.
  apply list_elem_of_fmap in Hl as (x & Hx & _). by simplify_eq.
Qed.

Lemma empty_slots_ok members P : slots_ok members P (empty_slots members).
Proof.
  split.
  - unfold empty_slots. rewrite dom_list_to_map_L. f_equal. rewrite <- list_fmap_compose. done.
  - intros m l tp Hl Htp. apply empty_slots_lookup in Hl as ->. by apply elem_of_nil in Htp.
Qed.

Lemma assigned_nil (out : assignment) : (∀ m l, out !! m = Some l → l = []) → assigned out = [].
Proof.
  intros H. unfold assigned.
  assert (∀ x, x ∈ (map_to_list out).*2 → x = []) as Hall.
  { intros x ([m l] & -> & Hin)%list_elem_of_fmap. apply elem_of_map_to_list in Hin. eauto. }
  induction ((map_to_list out).*2) as [|x l IH]; [done|]. simpl.
  rewrite (Hall x) by left. apply IH. intros y Hy. apply Hall. by right.
Qed.

Lemma empty_slots_assigned members : assigned (empty_slots members) = [].
Proof. apply assigned_nil. apply empty_slots_lookup. Qed.

(** The partitions to hand out: of every topic, in range, that some member
    subscribes to. *)
Definition wanted (members : list member) (topics : list (string * Z)) : list topic_partition :=
  concat ((λ t, if decide (Exists (λ m : member, t.1 ∈ m.2) members)
                then topic_range t.1 0 (Z.max t.2 0) else []) <$> topics).

Lemma elem_of_topic_range t lo len tp :
  tp ∈ topic_range t lo len ↔ tp.1 = t ∧ lo ≤ tp.2 < lo + len.
Proof.
  unfold topic_range. rewrite list_elem_of_fmap. split.
  - intros (p & -> & Hp%elem_of_seqZ). simpl. split; [done|lia].
  - destruct tp as [t' p]. simpl. intros [-> Hp]. exists p. by rewrite elem_of_seqZ.
Qed.

Lemma topic_range_app t lo a b : 0 ≤ a → 0 ≤ b →
  topic_range t lo a ++ topic_range t (lo + a) b = topic_range t lo (a + b).
Proof. intros. unfold topic_range. by rewrite <- fmap_app, <- seqZ_app. Qed.

(** Every member that may hold a partition of a topic subscribes to it. *)
Definition subscribed_to (members : list member) (m : string) (tp : topic_partition) : Prop :=
  ∃ x, x ∈ members ∧ member_id x.1 = m ∧ tp.1 ∈ x.2.

Lemma wanted_cons members t topics :
  wanted members (t :: topics) = wanted members [t] ++ wanted members topics.
Proof. unfold wanted. simpl. by rewrite app_nil_r. Qed.

(** The contract of an eager assignor: a slot per member, each member holds
    partitions of topics it subscribes to, and every existing partition of a
    subscribed topic is handed out exactly once. *)
Definition assignable (members : list member) (topic_partitions : gmap string Z)
    (tp : topic_partition) : Prop :=
  (∃ count, topic_partitions !! tp.1 = Some count ∧ 0 ≤ tp.2 < count) ∧
  Exists (λ m : member, tp.1 ∈ m.2) members.

Definition valid_assignment (members : list member) (topic_partitions : gmap string Z)
    (out : assignment) : Prop :=
  slots_ok members (subscribed_to members) out ∧ NoDup (assigned out) ∧
  ∀ tp, tp ∈ assigned out ↔ assignable members topic_partitions tp.

(** The contract does not depend on the order of the members. *)
Lemma valid_assignment_perm members members' topic_partitions out :
  members ≡ₚ members' → valid_assignment members' topic_partitions out →
  valid_assignment members topic_partitions out.
Proof.
  intros Hp ([Hd Hs] & Hn & He). split_and!; [split|done|].
  - rewrite Hd. apply leibniz_equiv. intros x. rewrite !elem_of_list_to_set. by rewrite Hp.
  - intros m l tp Hl Htp. destruct (Hs m l tp Hl Htp) as (x & Hx & ?).
    exists x. by rewrite Hp.
  - intros tp. rewrite He. unfold assignable. rewrite !Exists_exists. by setoid_rewrite Hp.
Qed.

Lemma elem_of_wanted members topics tp :
  tp ∈ wanted members topics ↔
  ∃ count, (tp.1, count) ∈ topics ∧ 0 ≤ tp.2 < count ∧ Exists (λ m : member, tp.1 ∈ m.2) members.
Proof.
  unfold wanted. rewrite elem_of_concat. setoid_rewrite list_elem_of_fmap. split.
  - intros (l & ([t c] & -> & Ht) & Htp). simpl in Htp.
    case_decide; [|by apply elem_of_nil in Htp].
    apply elem_of_topic_range in Htp as [<- Hr]. exists c. split_and!; [done|lia|lia|done].
  - intros (c & Hin & Hr & Hex). eexists. split; [by exists (tp.1, c)|]. simpl.
    rewrite decide_True by done. apply elem_of_topic_range. split; [done|lia].
Qed.

Lemma NoDup_topic_range t lo len : NoDup (topic_range t lo len).
Proof. unfold topic_range. apply NoDup_fmap; [intros ?? [= ->]; done|apply NoDup_seqZ]. Qed.

Lemma NoDup_wanted members topics : NoDup topics.*1 → NoDup (wanted members topics).
Proof.
  induction topics as [|[t c] topics IH]; intros Hn; [constructor|].
  simpl in Hn. apply NoDup_cons in Hn as [Ht Hn]. rewrite wanted_cons. apply NoDup_app.
  split_and!; [|intros tp H1 H2|by apply IH].
  - unfold wanted. simpl. rewrite app_nil_r. case_decide; [apply NoDup_topic_range|constructor].
  - apply elem_of_wanted in H1 as (c1 & H1%list_elem_of_singleton & _).
    apply elem_of_wanted in H2 as (c2 & H2 & _). apply Ht. simplify_eq.
    apply list_elem_of_fmap. by exists (tp.1, c2).
Qed.

Lemma NoDup_sorted_topics topic_partitions : NoDup (sorted_topics topic_partitions).*1.
Proof. unfold sorted_topics. rewrite sort_by_perm. apply NoDup_fst_map_to_list. Qed.

Lemma elem_of_sorted_topics topic_partitions t c :
  (t, c) ∈ sorted_topics topic_partitions ↔ topic_partitions !! t = Some c.
Proof. unfold sorted_topics. by rewrite elem_of_sort_by, elem_of_map_to_list. Qed.

(** ** The range assignor *)

Module RangeProofs.
Import RangeAssignor.

(** The share of the subscriber at position [i] of [n]. *)
Definition share (per extras i : Z) : Z := per + (if i <? extras then 1 else 0).
Definition share_start (per extras i : Z) : Z := i * per + Z.min i extras.

Lemma share_start_succ per extras i :
  share_start per extras (i + 1) = share_start per extras i + share per extras i.
Proof. unfold share_start, share. destruct (Z.ltb_spec i extras); nia. Qed.

Lemma give_ranges_share topic per extras subscribed i next out :
  0 ≤ i → i + Z.of_nat (length subscribed) ≤ i32_max →
  give_ranges topic per extras subscribed i next out =
  match subscribed with
  | [] => out
  | m :: subscribed =>
    give_ranges topic per extras subscribed (i + 1) (next + share per extras i)
      (push_slot m (topic_range topic next (share per extras i)) out)
  end.
Proof.
  intros Hi Hlen. destruct subscribed as [|m subscribed]; [done|]. cbn [give_ranges length] in *.
  unfold i32_try_from. rewrite decide_True by ints. done.
Qed.

Lemma give_ranges_assigned topic per extras subscribed i out :
  0 ≤ per → 0 ≤ extras → 0 ≤ i → i + Z.of_nat (length subscribed) ≤ i32_max →
  Forall (λ m, is_Some (out !! m)) subscribed →
  assigned (give_ranges topic per extras subscribed i (share_start per extras i) out) ≡ₚ
  assigned out ++ topic_range topic (share_start per extras i)
    (share_start per extras (i + Z.of_nat (length subscribed)) - share_start per extras i).
Proof.
  intros Hper Hex. revert i out. induction subscribed as [|m subscribed IH]; intros i out Hi Hlen Hs.
  { simpl. rewrite Z.add_0_r, Z.sub_diag. unfold topic_range. simpl. by rewrite app_nil_r. }
  rewrite give_ranges_share by done. apply Forall_cons in Hs as [Hm Hs].
  rewrite <- share_start_succ. cbn [length] in *. rewrite IH; [|lia|lia|].
  2: { eapply Forall_impl; [exact Hs|]. intros x Hx. apply elem_of_dom.
       rewrite push_slot_dom. by apply elem_of_dom. }
  rewrite push_slot_assigned by done. rewrite <- (assoc_L (++)). f_equiv.
  rewrite share_start_succ. set (len := _ - (_ + share per extras i)).
  rewrite topic_range_app.
  - apply reflexive_eq. f_equal. unfold len. replace (i + Z.of_nat (S (length subscribed)))
      with (i + 1 + Z.of_nat (length subscribed)) by lia. lia.
  - unfold share. destruct (_ <? _); lia.
  - unfold len, share_start, share. destruct (Z.ltb_spec i extras); nia.
Qed.

Lemma give_ranges_slots topic per extras subscribed i next out members P :
  slots_ok members P out →
  (∀ m p, m ∈ subscribed → P m (topic, p)) →
  slots_ok members P (give_ranges topic per extras subscribed i next out).
Proof.
  revert i next out. induction subscribed as [|m subscribed IH]; intros i next out Hok HP; [done|].
  cbn [give_ranges]. apply IH; [|intros m' p Hm'; apply HP; by right].
  apply slots_ok_push; [done|]. intros [t p] [Ht _]%elem_of_topic_range. simpl in Ht. subst.
  apply HP. left.
Qed.

Lemma elem_of_subscribers members topic m :
  m ∈ subscribers members topic ↔ ∃ x, x ∈ members ∧ topic ∈ x.2 ∧ m = member_id x.1.
Proof.
  unfold subscribers. rewrite list_elem_of_fmap.
  setoid_rewrite list_elem_of_filter. naive_solver.
Qed.

Lemma subscribers_nil members topic :
  subscribers members topic = [] ↔ ¬ Exists (λ m : member, topic ∈ m.2) members.
Proof.
  rewrite Exists_exists. split.
  - intros E (x & Hx & Ht). assert (member_id x.1 ∈ subscribers members topic) as Hin
      by (apply elem_of_subscribers; eauto). rewrite E in Hin. by apply elem_of_nil in Hin.
  - intros Hne. destruct (subscribers members topic) as [|m l] eqn:E; [done|].
    exfalso. apply Hne. assert (m ∈ subscribers members topic) as Hin by (rewrite E; left).
    apply elem_of_subscribers in Hin as (x & ? & ? & _). eauto.
Qed.

Lemma assign_topic_step members out t :
  Z.of_nat (length members) ≤ i32_max → slots_ok members (subscribed_to members) out →
  slots_ok members (subscribed_to members) (assign_topic members out t) ∧
  assigned (assign_topic members out t) ≡ₚ assigned out ++ wanted members [t].
Proof.
  intros Hlen Hok. unfold assign_topic, wanted. simpl. rewrite app_nil_r.
  destruct (bool_decide (subscribers members t.1 = [])) eqn:Hs.
  { apply bool_decide_eq_true in Hs. rewrite decide_False by (by apply subscribers_nil). simpl.
    by rewrite app_nil_r. }
  apply bool_decide_eq_false in Hs. rewrite decide_True.
  2: { destruct (decide (Exists (λ m : member, t.1 ∈ m.2) members)); [done|].
       destruct Hs. by apply subscribers_nil. }
  destruct (Z.leb_spec t.2 0) as [Hneg|Hpos]; simpl.
  { rewrite Z.max_r by lia. unfold topic_range. simpl. by rewrite app_nil_r. }
  set (subs := subscribers members t.1) in *.
  assert (Z.of_nat (length subs) ≤ i32_max) as Hsl.
  { unfold subs, subscribers. rewrite length_fmap.
    pose proof (length_filter (λ m : member, t.1 ∈ m.2) members). lia. }
  assert (0 < Z.of_nat (length subs)) as Hn by (destruct subs; [done|simpl; lia]).
  unfold i32_try_from. rewrite decide_True by ints. simpl.
  rewrite Z.quot_div_nonneg, Z.rem_mod_nonneg by lia.
  set (n := Z.of_nat (length subs)) in *.
  assert (∀ m, m ∈ subs → is_Some (out !! m)) as Hslot.
  { intros m Hm. apply elem_of_subscribers in Hm as (x & Hx & _ & ->). by eapply slots_ok_slot. }
  split.
  - apply give_ranges_slots; [done|]. intros m p (x & Hx & Ht & ->)%elem_of_subscribers.
    by exists x.
  - pose proof (Z.mod_pos_bound t.2 n ltac:(lia)).
    pose proof (Z.div_pos t.2 n ltac:(lia) ltac:(lia)). pose proof (Z.div_mod t.2 n ltac:(lia)).
    replace (Z.max t.2 0) with (share_start (t.2 / n) (t.2 mod n) n).
    2: { unfold share_start. lia. }
    pose proof (give_ranges_assigned t.1 (t.2 / n) (t.2 mod n) subs 0 out) as Hg.
    unfold share_start at 1 2 4 in Hg. rewrite Z.min_l in Hg by lia. simpl in Hg.
    rewrite Z.sub_0_r in Hg. apply Hg; [lia|lia|lia|fold n; lia|].
    apply Forall_forall. intros m Hm. by apply Hslot.
Qed.

Lemma assign_topics members topics out :
  Z.of_nat (length members) ≤ i32_max → slots_ok members (subscribed_to members) out →
  slots_ok members (subscribed_to members) (foldl (assign_topic members) out topics) ∧
  assigned (foldl (assign_topic members) out topics) ≡ₚ assigned out ++ wanted members topics.
Proof.
  intros Hlen. revert out. induction topics as [|t topics IH]; intros out Hok.
  { unfold wanted. simpl. by rewrite app_nil_r. }
  destruct (assign_topic_step members out t Hlen Hok) as [Hok1 Hp].
  destruct (IH _ Hok1) as [Hok2 Hp2]. split; [done|].
  rewrite wanted_cons, (assoc_L (++)), <- Hp. exact Hp2.
Qed.

Lemma assign_members_valid members topic_partitions :
  Z.of_nat (length members) ≤ i32_max →
  valid_assignment members topic_partitions (assign_members members topic_partitions).
Proof.
  intros Hlen. unfold assign_members. set (ms := sort_by member_le members).
  assert (members ≡ₚ ms) as Hms by (symmetry; apply sort_by_perm).
  apply (valid_assignment_perm _ ms); [done|].
  destruct (assign_topics ms (sorted_topics topic_partitions) (empty_slots ms)) as [Hok Hp].
  - unfold ms. by rewrite length_sort_by.
  - apply empty_slots_ok.
  - rewrite empty_slots_assigned in Hp. simpl in Hp. split_and!; [done| |].
    + rewrite Hp. apply NoDup_wanted, NoDup_sorted_topics.
    + intros tp. rewrite Hp, elem_of_wanted. unfold assignable.
      setoid_rewrite elem_of_sorted_topics. naive_solver.
Qed.

(** The partitions of [topic] that member [m] holds, in the order given. *)
Definition held (out : assignment) (m topic : string) : list topic_partition :=
  filter (λ tp, tp.1 = topic) (default [] (out !! m)).

Lemma held_push m tps out m' topic :
  is_Some (out !! m) →
  held (push_slot m tps out) m' topic =
  held out m' topic ++ (if decide (m = m') then filter (λ tp, tp.1 = topic) tps else []).
Proof.
  intros [l Hl]. unfold held, push_slot. case_decide as E.
  - subst. rewrite lookup_alter_eq, Hl. simpl. by rewrite filter_app.
  - rewrite lookup_alter_ne by done. by rewrite app_nil_r.
Qed.

Lemma filter_topic_range t lo len topic :
  filter (λ tp, tp.1 = topic) (topic_range t lo len) =
  if decide (t = topic) then topic_range t lo len else [].
Proof.
  case_decide as E.
  - apply filter_all. intros tp [Ht _]%elem_of_topic_range. congruence.
  - apply filter_none. intros tp [Ht _]%elem_of_topic_range. congruence.
Qed.

Lemma give_ranges_held topic per extras subscribed i out m t :
  0 ≤ i → i + Z.of_nat (length subscribed) ≤ i32_max → NoDup subscribed →
  Forall (λ m, is_Some (out !! m)) subscribed →
  held (give_ranges topic per extras subscribed i (share_start per extras i) out) m t =
  held out m t ++
  match list_find (eq m) subscribed with
  | Some (j, _) =>
    if decide (topic = t)
    then topic_range topic (share_start per extras (i + Z.of_nat j)) (share per extras (i + Z.of_nat j))
    else []
  | None => []
  end.
Proof.
  revert i out. induction subscribed as [|x subscribed IH]; intros i out Hi Hlen Hn Hs.
  { simpl. by rewrite app_nil_r. }
  rewrite give_ranges_share by done. apply Forall_cons in Hs as [Hx Hs].
  apply NoDup_cons in Hn as [Hnx Hn]. rewrite <- share_start_succ. cbn [length] in *.
  rewrite IH; [|lia|lia|done|].
  2: { eapply Forall_impl; [exact Hs|]. intros y Hy. apply elem_of_dom.
       rewrite push_slot_dom. by apply elem_of_dom. }
  rewrite held_push, filter_topic_range by done. cbn [list_find].
  destruct (decide (m = x)) as [->|Hne].
  - rewrite decide_True by done. simpl. rewrite Z.add_0_r.
    destruct (list_find (eq x) subscribed) as [[j y]|] eqn:E; simpl; [|by rewrite app_nil_r].
    apply list_find_Some in E as (Hj & <- & _). destruct Hnx. by eapply list_elem_of_lookup_2.
  - rewrite (decide_False (P := x = m)) by congruence. rewrite app_nil_r.
    destruct (list_find (eq m) subscribed) as [[j y]|]; simpl; [|done].
    by replace (i + 1 + Z.of_nat j) with (i + Z.of_nat (S j)) by lia.
Qed.

Lemma assign_topic_held members out t m topic :
  Z.of_nat (length members) ≤ i32_max → NoDup ((λ x : member, member_id x.1) <$> members) →
  slots_ok members (subscribed_to members) out →
  held (assign_topic members out t) m topic = held out m topic ++
  match list_find (eq m) (subscribers members t.1) with
  | Some (j, _) =>
    let n := Z.of_nat (length (subscribers members t.1)) in
    if decide (t.1 = topic ∧ 0 < t.2)
    then topic_range topic (share_start (t.2 / n) (t.2 mod n) (Z.of_nat j))
           (share (t.2 / n) (t.2 mod n) (Z.of_nat j))
    else []
  | None => []
  end.
Proof.
  intros Hlen Hnd Hok. unfold assign_topic.
  destruct (decide (subscribers members t.1 = [])) as [E|Hs].
  { rewrite E. simpl. by rewrite app_nil_r. }
  rewrite (bool_decide_eq_false_2 (subscribers members t.1 = [])) by done.
  destruct (Z.leb_spec t.2 0) as [Hneg|Hpos]; simpl.
  { destruct (list_find _ _) as [[j y]|]; [|by rewrite app_nil_r].
    rewrite decide_False by lia. by rewrite app_nil_r. }
  assert (NoDup (subscribers members t.1)) as Hnds.
  { unfold subscribers. eapply sublist_NoDup; [exact Hnd|].
    apply fmap_sublist, sublist_filter. }
  set (subs := subscribers members t.1) in *.
  assert (Z.of_nat (length subs) ≤ i32_max) as Hsl.
  { unfold subs, subscribers. rewrite length_fmap.
    pose proof (length_filter (λ m : member, t.1 ∈ m.2) members). lia. }
  assert (0 < Z.of_nat (length subs)) as Hn by (destruct subs; [done|simpl; lia]).
  unfold i32_try_from. rewrite decide_True by ints. simpl.
  rewrite Z.quot_div_nonneg, Z.rem_mod_nonneg by lia.
  set (n := Z.of_nat (length subs)) in *.
  pose proof (Z.mod_pos_bound t.2 n ltac:(lia)).
  pose proof (give_ranges_held t.1 (t.2 / n) (t.2 mod n) subs 0 out m topic) as Hg.
  unfold share_start at 1 in Hg. rewrite Z.min_l in Hg by lia. rewrite Z.mul_0_l, Z.add_0_r in Hg.
  rewrite Hg; [|lia|fold n; lia|done|].
  - f_equal. destruct (list_find (eq m) subs) as [[j y]|]; [|done]. rewrite Z.add_0_l.
    destruct (decide (t.1 = topic)) as [<-|Hne]; [by rewrite decide_True by done|].
    by rewrite decide_False by naive_solver.
  - apply Forall_forall. intros x (y & Hy & _ & ->)%elem_of_subscribers. by eapply slots_ok_slot.
Qed.

Lemma assign_topics_other members topics out m topic :
  Z.of_nat (length members) ≤ i32_max → NoDup ((λ x : member, member_id x.1) <$> members) →
  slots_ok members (subscribed_to members) out → topic ∉ topics.*1 →
  held (foldl (assign_topic members) out topics) m topic = held out m topic.
Proof.
  intros Hlen Hnd. revert out. induction topics as [|t topics IH]; intros out Hok Ht; [done|].
  simpl in *. apply not_elem_of_cons in Ht as [Hne Ht].
  rewrite IH by (try done; by apply assign_topic_step). rewrite assign_topic_held by done.
  destruct (list_find _ _) as [[j y]|]; [|by rewrite app_nil_r].
  rewrite decide_False by naive_solver. by rewrite app_nil_r.
Qed.

Lemma range_held members topic_partitions topic count m j :
  Z.of_nat (length members) ≤ i32_max → NoDup ((λ x : member, member_id x.1) <$> members) →
  topic_partitions !! topic = Some count → 0 < count →
  subscribers (sort_by member_le members) topic !! j = Some m →
  let n := Z.of_nat (length (subscribers (sort_by member_le members) topic)) in
  held (assign_members members topic_partitions) m topic =
  topic_range topic (share_start (count / n) (count mod n) (Z.of_nat j))
    (share (count / n) (count mod n) (Z.of_nat j)).
Proof.
  intros Hlen Hnd Ht Hc Hj n. unfold assign_members. set (ms := sort_by member_le members) in *.
  assert (Z.of_nat (length ms) ≤ i32_max) as Hlen' by (unfold ms; by rewrite length_sort_by).
  assert (NoDup ((λ x : member, member_id x.1) <$> ms)) as Hnd'
    by (unfold ms; by rewrite sort_by_perm).
  pose proof (NoDup_sorted_topics topic_partitions) as Hnt.
  apply elem_of_sorted_topics, list_elem_of_split in Ht as (pre & post & Ht).
  rewrite Ht in *. rewrite fmap_app in Hnt. apply NoDup_app in Hnt as (_ & Hpre & Hpost).
  simpl in Hpre, Hpost. apply NoDup_cons in Hpost as [Hpost _].
  rewrite foldl_app. simpl.
  destruct (assign_topics ms pre (empty_slots ms) Hlen' (empty_slots_ok ms _)) as [Hok _].
  rewrite assign_topics_other by (try done; by apply assign_topic_step).
  rewrite assign_topic_held by done.
  rewrite assign_topics_other; [|done|done|apply empty_slots_ok|].
  2: { intros Hin. apply (Hpre topic Hin). left. }
  assert (NoDup (subscribers ms topic)) as Hnds.
  { unfold subscribers. eapply sublist_NoDup; [exact Hnd'|]. apply fmap_sublist, sublist_filter. }
  assert (list_find (eq m) (subscribers ms topic) = Some (j, m)) as Hf.
  { apply list_find_Some. split_and!; [done|done|]. intros k y Hk Hlt <-.
    pose proof (NoDup_lookup _ _ _ _ Hnds Hk Hj). lia. }
  simpl. rewrite Hf, decide_True by done. fold n.
  assert (held (empty_slots ms) m topic = []) as ->; [|done].
  unfold held. destruct (empty_slots ms !! m) as [l|] eqn:E; [|done].
  by apply empty_slots_lookup in E as ->.
Qed.
End RangeProofs.

(** the range assignor hands out contiguous ranges. Every existing partition
    of a subscribed topic goes to exactly one member, which subscribes to the
    topic; and of a topic with [count] partitions and [n] subscribers in
    member order (static members by instance id first, then member ids), the
    subscriber at position [j] holds exactly the range of [count / n]
    partitions, one more for the first [count mod n] subscribers, that starts
    where the ranges of the earlier subscribers end. *)
Theorem range_assign_spec members topic_partitions topic count m j :
  Z.of_nat (length members) ≤ i32_max → NoDup ((λ x : member, member_id x.1) <$> members) →
  topic_partitions !! topic = Some count → 0 < count →
  RangeAssignor.subscribers (sort_by member_le members) topic !! j = Some m →
  let n := Z.of_nat (length (RangeAssignor.subscribers (sort_by member_le members) topic)) in
  valid_assignment members topic_partitions (RangeAssignor.assign_members members topic_partitions) ∧
  filter (λ tp, tp.1 = topic)
    (default [] (RangeAssignor.assign_members members topic_partitions !! m)) =
  topic_range topic (Z.of_nat j * (count / n) + Z.min (Z.of_nat j) (count mod n))
    (count / n + (if Z.of_nat j <? count mod n then 1 else 0)).
Proof.
  intros Hlen Hnd Ht Hc Hj n. split; [by apply RangeProofs.assign_members_valid|].
  by apply RangeProofs.range_held.
Qed.

Definition sample_members : list member :=
  [(mkMemberKey "b" None, ["t"; "u"]); (mkMemberKey "a" None, ["t"]);
   (mkMemberKey "z" (Some "i"), ["t"])].
Definition sample_topics : gmap string Z := {[ "t" := 5; "u" := 1 ]}.

Lemma range_assign_spec_witness :
  RangeAssignor.subscribers (sort_by member_le sample_members) "t" = ["z"; "a"; "b"] ∧
  filter (λ tp, tp.1 = "t")
    (default [] (RangeAssignor.assign_members sample_members sample_topics !! "a")) =
  [("t", 2); ("t", 3)].
Proof.
  split; [vm_compute; reflexivity|].
  destruct (range_assign_spec sample_members sample_topics "t" 5 "a" 1) as [_ H].
  - simpl. ints.
  - simpl. repeat constructor; set_solver.
  - reflexivity.
  - lia.
  - vm_compute. reflexivity.
  - rewrite H. vm_compute. reflexivity.
Defined.

(** ** The round robin assignor *)

Module RoundRobinProofs.
Import RoundRobinAssignor.

Lemma next_member_some members next topic :
  Exists (λ m : member, topic ∈ m.2) members →
  ∃ skipped m, next_member members next topic = Some (skipped, m) ∧ m ∈ members ∧ topic ∈ m.2.
Proof.
  intros Hex. unfold next_member. set (start := (next mod length members)%nat).
  assert (drop start members ++ take start members ≡ₚ members) as Hp
    by (by rewrite Permutation_app_comm, take_drop).
  destruct (list_find _ _) as [[k m]|] eqn:E.
  - apply list_find_Some in E as (Hk & Hm & _). exists k, m. split_and!; [done| |done].
    rewrite <- Hp. by eapply list_elem_of_lookup_2.
  - apply list_find_None in E. rewrite Hp in E.
    apply Exists_exists in Hex as (m & Hm & Ht). rewrite Forall_forall in E. by destruct (E m Hm).
Qed.

Lemma deal_spec members topic partitions next out :
  Exists (λ m : member, topic ∈ m.2) members →
  slots_ok members (subscribed_to members) out →
  slots_ok members (subscribed_to members) (deal members topic partitions next out).2 ∧
  assigned (deal members topic partitions next out).2 ≡ₚ
    assigned out ++ ((λ p, (topic, p)) <$> partitions).
Proof.
  intros Hex. revert next out. induction partitions as [|p partitions IH]; intros next out Hok.
  { simpl. by rewrite app_nil_r. }
  cbn [deal]. destruct (next_member_some members next topic Hex) as (k & m & -> & Hm & Ht).
  destruct (IH (next + (k + 1))%nat (push_slot (member_id m.1) [(topic, p)] out)) as [Hok2 Hp].
  { apply slots_ok_push; [exact Hok|]. intros tp ->%list_elem_of_singleton. by exists m. }
  split; [done|]. rewrite Hp, push_slot_assigned by (by eapply slots_ok_slot).
  csimpl. by rewrite <- (assoc_L (++)).
Qed.

(** The entries of the topic map that the loop deals out. *)
Definition dealt (topic_partitions : gmap string Z) (topics : list string) : list (string * Z) :=
  omap (λ t, pair t <$> topic_partitions !! t) topics.

Lemma deal_topics members topic_partitions topics s :
  Forall (λ t, Exists (λ m : member, t ∈ m.2) members) topics →
  slots_ok members (subscribed_to members) s.2 →
  slots_ok members (subscribed_to members) (foldl (deal_topic members topic_partitions) s topics).2 ∧
  assigned (foldl (deal_topic members topic_partitions) s topics).2 ≡ₚ
    assigned s.2 ++ wanted members (dealt topic_partitions topics).
Proof.
  intros Ht. revert s. induction Ht as [|t topics Hex Ht IH]; intros s Hok.
  { unfold wanted. simpl. by rewrite app_nil_r. }
  assert (dealt topic_partitions (t :: topics) =
    match topic_partitions !! t with Some c => [(t, c)] | None => [] end
    ++ dealt topic_partitions topics) as ->
    by (unfold dealt; simpl; by destruct (topic_partitions !! t)).
  cbn [foldl]. unfold deal_topic at 2 4. destruct (topic_partitions !! t) as [c|] eqn:E.
  - destruct (deal_spec members t (seqZ 0 (Z.max c 0)) s.1 s.2 Hex Hok) as [Hok1 Hp1].
    destruct (IH _ Hok1) as [Hok2 Hp2]. split; [done|]. rewrite Hp2, Hp1.
    simpl app. rewrite wanted_cons. rewrite <- (assoc_L (++)). f_equiv. f_equiv.
    unfold wanted. simpl. by rewrite decide_True, app_nil_r by done.
  - destruct (IH _ Hok) as [Hok2 Hp2]. split; [done|]. by rewrite Hp2.
Qed.

Lemma elem_of_dealt topic_partitions topics t c :
  (t, c) ∈ dealt topic_partitions topics ↔ t ∈ topics ∧ topic_partitions !! t = Some c.
Proof.
  unfold dealt. rewrite list_elem_of_omap. split.
  - intros (t' & Ht & (c' & Hc & E)%fmap_Some). by simplify_eq.
  - intros [Ht Hc]. exists t. by rewrite Hc.
Qed.

Lemma NoDup_dealt topic_partitions topics : NoDup topics → NoDup (dealt topic_partitions topics).*1.
Proof.
  induction 1 as [|t topics Ht Hn IH]; [constructor|]. unfold dealt. simpl.
  destruct (topic_partitions !! t) as [c|]; simpl; [|done]. constructor; [|done].
  intros ([t' c'] & -> & Hin)%list_elem_of_fmap. apply elem_of_dealt in Hin as [? _]. done.
Qed.

Lemma elem_of_btree_set l x : x ∈ btree_set l ↔ x ∈ l.
Proof. unfold btree_set. by rewrite elem_of_sort_by, elem_of_remove_dups. Qed.

Lemma NoDup_btree_set l : NoDup (btree_set l).
Proof. unfold btree_set. rewrite sort_by_perm. apply NoDup_remove_dups. Qed.

Lemma elem_of_all_topics (members : list member) t :
  t ∈ concat (snd <$> members) ↔ Exists (λ m : member, t ∈ m.2) members.
Proof.
  rewrite elem_of_concat, Exists_exists. setoid_rewrite list_elem_of_fmap. naive_solver.
Qed.

Lemma assign_valid members topic_partitions :
  valid_assignment members topic_partitions (assign members topic_partitions).
Proof.
  unfold assign. case_bool_decide as He.
  { subst. split_and!; [apply empty_slots_ok|rewrite empty_slots_assigned; constructor|].
    intros tp. rewrite empty_slots_assigned, elem_of_nil. unfold assignable.
    split; [done|]. intros [_ Hex]. by apply Exists_nil in Hex. }
  set (ms := sort_by member_le members).
  assert (ms ≡ₚ members) as Hms by apply sort_by_perm.
  assert (slots_ok ms (subscribed_to ms) (empty_slots members)) as Hok0.
  { destruct (empty_slots_ok members (subscribed_to ms)) as [Hd Hs]. split; [|done].
    rewrite Hd. apply leibniz_equiv. intros x. rewrite !elem_of_list_to_set. by rewrite Hms. }
  apply (valid_assignment_perm _ ms); [done|].
  destruct (deal_topics ms topic_partitions (btree_set (concat (snd <$> ms)))
    (0%nat, empty_slots members)) as [Hok Hp]; [|done|].
  { apply Forall_forall. intros t Ht. by apply elem_of_all_topics, elem_of_btree_set. }
  simpl in Hp. rewrite empty_slots_assigned in Hp. simpl in Hp. split_and!; [done| |].
  - rewrite Hp. apply NoDup_wanted, NoDup_dealt, NoDup_btree_set.
  - intros tp. rewrite Hp, elem_of_wanted. unfold assignable.
    setoid_rewrite elem_of_dealt. setoid_rewrite elem_of_btree_set.
    setoid_rewrite elem_of_all_topics. naive_solver.
Qed.

(** How many of the first [k] partitions dealt to [n] members fall to the
    member at position [i]. *)
Definition dealt_to (n k i : nat) : nat :=
  (k / n + (if decide (i < k mod n) then 1 else 0))%nat.

Lemma dealt_to_succ n k i :
  (0 < n)%nat → (i < n)%nat →
  dealt_to n (S k) i = (dealt_to n k i + (if decide (i = k mod n) then 1 else 0))%nat.
Proof.
  intros Hn Hi. unfold dealt_to.
  pose proof (Nat.div_mod k n ltac:(lia)) as Hk. pose proof (Nat.mod_upper_bound k n ltac:(lia)) as Hr.
  set (q := (k / n)%nat) in *. set (r := (k mod n)%nat) in *.
  destruct (decide (S r = n)) as [Hw|Hw].
  - rewrite <- (Nat.div_unique (S k) n (S q) 0), <- (Nat.mod_unique (S k) n (S q) 0) by nia.
    destruct (decide (i < 0)%nat), (decide (i < r)%nat), (decide (i = r)); lia.
  - rewrite <- (Nat.div_unique (S k) n q (S r)), <- (Nat.mod_unique (S k) n q (S r)) by nia.
    destruct (decide (i < S r)%nat), (decide (i < r)%nat), (decide (i = r)); lia.
Qed.

(** After [k] partitions the slots hold what [dealt_to] says. *)
Definition dealt_sizes (members : list member) (k : nat) (out : assignment) : Prop :=
  ∀ i m, members !! i = Some m →
    ∃ l, out !! member_id m.1 = Some l ∧ length l = dealt_to (length members) k i.

Lemma next_member_all members next topic :
  members ≠ [] → Forall (λ m : member, topic ∈ m.2) members →
  ∃ m, members !! (next mod length members)%nat = Some m ∧
    next_member members next topic = Some (0%nat, m).
Proof.
  intros Hne Hall. unfold next_member.
  assert (length members ≠ 0)%nat as Hl by (destruct members; [done|simpl; lia]).
  pose proof (Nat.mod_upper_bound next (length members) Hl) as Hlt.
  destruct (lookup_lt_is_Some_2 _ _ Hlt) as [m Hm]. exists m. split; [done|].
  rewrite (drop_S members m _ Hm). simpl. rewrite decide_True; [done|].
  rewrite Forall_forall in Hall. by apply Hall, (list_elem_of_lookup_2 _ _ _ Hm).
Qed.

Lemma dealt_sizes_step members k out m tp :
  NoDup ((λ x : member, member_id x.1) <$> members) →
  members !! (k mod length members)%nat = Some m → dealt_sizes members k out →
  dealt_sizes members (S k) (push_slot (member_id m.1) [tp] out).
Proof.
  intros Hnd Hm Hs i x Hx. destruct (Hs i x Hx) as (l & Hl & Hlen).
  pose proof (lookup_lt_Some _ _ _ Hx). rewrite dealt_to_succ by lia.
  unfold push_slot. case_decide as E.
  - subst i. assert (x = m) as -> by congruence. exists (l ++ [tp]).
    rewrite lookup_alter_eq, Hl. split; [done|]. rewrite length_app. simpl. lia.
  - exists l. split; [|lia]. rewrite lookup_alter_ne; [done|].
    intros Heq. apply E. eapply (NoDup_lookup _ i _ (member_id x.1) Hnd).
    + by rewrite list_lookup_fmap, Hx.
    + rewrite list_lookup_fmap, Hm. simpl. by rewrite Heq.
Qed.

Lemma deal_sizes members topic partitions k out :
  members ≠ [] → NoDup ((λ x : member, member_id x.1) <$> members) →
  Forall (λ m : member, topic ∈ m.2) members → dealt_sizes members k out →
  dealt_sizes members (deal members topic partitions k out).1 (deal members topic partitions k out).2.
Proof.
  intros Hne Hnd Hall. revert k out. induction partitions as [|p ps IH]; intros k out Hs; [done|].
  cbn [deal]. destruct (next_member_all members k topic Hne Hall) as (m & Hm & ->).
  replace (k + (0 + 1))%nat with (S k) by lia. apply IH. by apply dealt_sizes_step.
Qed.

Lemma deal_topics_sizes members topic_partitions topics s :
  members ≠ [] → NoDup ((λ x : member, member_id x.1) <$> members) →
  Forall (λ t, Forall (λ m : member, t ∈ m.2) members) topics → dealt_sizes members s.1 s.2 →
  dealt_sizes members (foldl (deal_topic members topic_partitions) s topics).1
    (foldl (deal_topic members topic_partitions) s topics).2.
Proof.
  intros Hne Hnd Ht. revert s. induction Ht as [|t topics Hall Ht IH]; intros s Hs; [done|].
  simpl. apply IH. unfold deal_topic. destruct (topic_partitions !! t); [|done].
  by apply deal_sizes.
Qed.

Lemma dealt_to_balanced n k i j : (dealt_to n k i ≤ dealt_to n k j + 1)%nat.
Proof. unfold dealt_to. repeat case_decide; lia. Qed.
End RoundRobinProofs.

(** the round robin assignor is valid and fair. Every existing partition of
    a subscribed topic goes to exactly one member, which subscribes to it; and
    when all members subscribe to the same topics, the sizes of any two
    members' shares differ by at most one. *)
Theorem round_robin_spec members topic_partitions m1 l1 m2 l2 :
  NoDup ((λ x : member, member_id x.1) <$> members) →
  valid_assignment members topic_partitions (RoundRobinAssignor.assign members topic_partitions) ∧
  ((∀ a b t, a ∈ members → b ∈ members → t ∈ a.2 → t ∈ b.2) →
   RoundRobinAssignor.assign members topic_partitions !! m1 = Some l1 →
   RoundRobinAssignor.assign members topic_partitions !! m2 = Some l2 →
   (length l1 ≤ length l2 + 1)%nat).
Proof.
  intros Hnd. pose proof (RoundRobinProofs.assign_valid members topic_partitions) as Hv.
  split; [done|]. intros Hsame H1 H2. destruct Hv as [[Hd _] _].
  assert (∀ m l, RoundRobinAssignor.assign members topic_partitions !! m = Some l →
    ∃ x, x ∈ members ∧ member_id x.1 = m) as Hmem.
  { intros m l Hl. assert (m ∈ dom (RoundRobinAssignor.assign members topic_partitions)) as Hin
      by (by apply elem_of_dom). rewrite Hd in Hin.
    apply elem_of_list_to_set, list_elem_of_fmap in Hin as (x & -> & Hx). eauto. }
  destruct (Hmem _ _ H1) as (x1 & Hx1 & <-), (Hmem _ _ H2) as (x2 & Hx2 & <-).
  unfold RoundRobinAssignor.assign in H1, H2.
  rewrite bool_decide_eq_false_2 in H1, H2 by (intros ->; by apply elem_of_nil in Hx1).
  set (ms := sort_by member_le members) in *.
  assert (ms ≡ₚ members) as Hms by apply sort_by_perm.
  assert (RoundRobinProofs.dealt_sizes ms 0 (empty_slots members)) as Hs0.
  { intros i m Hm. exists []. split.
    - destruct (slots_ok_slot members (λ _ _, True) (empty_slots members) m) as [l Hl];
        [apply empty_slots_ok|rewrite <- Hms; by eapply list_elem_of_lookup_2|].
      by rewrite Hl, (empty_slots_lookup _ _ _ Hl).
    - unfold RoundRobinProofs.dealt_to. rewrite Nat.Div0.div_0_l, Nat.Div0.mod_0_l.
      case_decide; [lia|done]. }
  pose proof (RoundRobinProofs.deal_topics_sizes ms topic_partitions
    (btree_set (concat (snd <$> ms))) (0%nat, empty_slots members)) as Hs.
  rewrite <- Hms in Hx1, Hx2.
  apply list_elem_of_lookup in Hx1 as [i Hi], Hx2 as [j Hj].
  assert (RoundRobinProofs.dealt_sizes ms
    (foldl (RoundRobinAssignor.deal_topic ms topic_partitions) (0%nat, empty_slots members)
      (btree_set (concat (snd <$> ms)))).1
    (foldl (RoundRobinAssignor.deal_topic ms topic_partitions) (0%nat, empty_slots members)
      (btree_set (concat (snd <$> ms)))).2) as Hd2.
  { apply Hs; [by intros E; rewrite E in Hi|by rewrite Hms| |done].
    apply Forall_forall. intros t Ht. apply Forall_forall. intros m Hm.
    apply RoundRobinProofs.elem_of_btree_set, RoundRobinProofs.elem_of_all_topics, Exists_exists
      in Ht as (a & Ha & Ht). rewrite Hms in Ha, Hm. by apply (Hsame a m t). }
  destruct (Hd2 i x1 Hi) as (k1 & Hk1 & Hlen1), (Hd2 j x2 Hj) as (k2 & Hk2 & Hlen2).
  simplify_eq. rewrite Hlen1, Hlen2. apply RoundRobinProofs.dealt_to_balanced.
Qed.

Lemma round_robin_spec_witness :
  let members := [(mkMemberKey "b" None, ["t"]); (mkMemberKey "a" None, ["t"])] in
  RoundRobinAssignor.assign members sample_topics !! "a" = Some [("t", 0); ("t", 2); ("t", 4)] ∧
  valid_assignment members sample_topics (RoundRobinAssignor.assign members sample_topics).
Proof.
  intros members. split; [vm_compute; reflexivity|].
  apply (round_robin_spec members sample_topics "a" [] "b" []).
  simpl. repeat constructor; set_solver.
Defined.
