(* ===== verification/Sticky.v ===== *)
(** * The sticky and cooperative-sticky assignors

    [crates/client-consumer/src/assignor/cooperative_sticky.rs]. A [BTreeMap]
    or [BTreeSet] is a [gmap] or [gset] whose elements are taken in sorted
    order; a [HashMap] is taken in any order, which the source sorts away.
    Counts ([usize]) are [nat]. *)

From S2P Require Import Prelude Bytes Assignor.

(** ** Ordered collections *)

(** The elements of a [BTreeSet<String>] in order. *)
Definition sorted_set (s : gset string) : list string := sort_by str_le (elements s).

Definition key_entry_le {V} (a b : string * V) : Prop := str_le a.1 b.1.

#[global] Instance key_entry_le_dec {V} : RelDecision (@key_entry_le V).
Proof. intros a b. unfold key_entry_le. apply _. Defined.

(** The entries of a [BTreeMap<String, V>] in key order. *)
Definition sorted_map {V} (m : gmap string V) : list (string * V) :=
  sort_by key_entry_le (map_to_list m).

(** [collect] into a map: a later entry replaces an earlier one. *)
Definition collect_map {V} (l : list (string * V)) : gmap string V :=
  foldl (λ m e, <[e.1 := e.2]> m) ∅ l.

(** [entry(k).or_default().push(x)]. *)
Definition push_entry (m : string) (tp : topic_partition) (out : assignment) : assignment :=
  <[m := default [] (out !! m) ++ [tp]]> out.

(** [for v in values_mut() { v.sort() }]. *)
Definition sort_values (out : assignment) : assignment := sort_by tp_le <$> out.

(** ** Members *)

Record MemberInput : Type := mkInput {
  in_id : string;
  in_topics : list string;
  in_owned : list topic_partition;
  in_generation : Z;
}.

#[global] Instance MemberInput_eq_dec : EqDecision MemberInput.
Proof. solve_decision. Defined.

Definition subscriptions (members : list MemberInput) : gmap string (gset string) :=
  collect_map ((λ m, (in_id m, list_to_set (in_topics m))) <$> members).

(** ** Claims of ownership *)

(** The best claim on a partition: its generation, its member, and whether
    another member claims it at the same generation. *)
Notation claim := (Z * string * bool)%type.

Definition put_claim (best : gmap topic_partition claim) (generation : Z) (id : string)
    (tp : topic_partition) : gmap topic_partition claim :=
  match best !! tp with
  | None => <[tp := (generation, id, false)]> best
  | Some (g, owner, tied) =>
    if g <? generation then <[tp := (generation, id, false)]> best
    else if generation =? g then <[tp := (g, owner, true)]> best
    else best
  end.

(** A claim that the live topics and the member's subscription support. *)
Definition live_claim (topic_partitions : gmap string Z) (id_subs : gset string)
    (tp : topic_partition) : bool :=
  match topic_partitions !! tp.1 with
  | None => false
  | Some count => (0 <=? tp.2) && (tp.2 <? count) && bool_decide (tp.1 ∈ id_subs)
  end.

Definition claims_of (subs : gmap string (gset string)) (topic_partitions : gmap string Z)
    (best : gmap topic_partition claim) (m : MemberInput) : gmap topic_partition claim :=
  let id_subs := default ∅ (subs !! in_id m) in
  foldl (λ best tp, if live_claim topic_partitions id_subs tp
                    then put_claim best (in_generation m) (in_id m) tp else best)
    best (in_owned m).

Definition best_claims (members : list MemberInput) (subs : gmap string (gset string))
    (topic_partitions : gmap string Z) : gmap topic_partition claim :=
  foldl (claims_of subs topic_partitions) ∅ members.

Definition prepopulate_current_assignments (members : list MemberInput)
    (subs : gmap string (gset string)) (topic_partitions : gmap string Z) : assignment :=
  let best := best_claims members subs topic_partitions in
  let out := collect_map ((λ m, (in_id m, [])) <$> members) in
  let out := foldl (λ out e, let '(_, owner, tied) := e.2 in
                             if (tied : bool) then out else push_entry owner e.1 out)
               out (map_to_list best) in
  sort_values out.

(** The map from a partition to its previous owner. *)
Definition owners_of (current : assignment) : gmap topic_partition string :=
  foldl (λ owners e, foldl (λ owners tp, <[tp := e.1]> owners) owners e.2)
    ∅ (sorted_map current).

(** ** The constrained algorithm *)

(** The order [assignOwnedPartitions] sorts by: partition, then topic. *)
Definition owned_le (a b : topic_partition) : Prop :=
  if decide (a.2 = b.2) then str_le a.1 b.1 else a.2 < b.2.

#[global] Instance owned_le_dec : RelDecision owned_le.
Proof. intros a b. unfold owned_le. case_decide; apply _. Defined.

Record Quotas : Type := mkQuotas { min_quota : nat; max_quota : nat; expected_over_min : nat }.

Definition quotas (total num_members : nat) : Quotas :=
  mkQuotas (total / num_members) ((total + num_members - 1) / num_members)
    (total mod num_members).

Record Owned : Type := mkOwned {
  ow_assignment : assignment;
  ow_assigned : gset topic_partition;
  ow_under_min : list string;
  ow_exactly_min : list string;
  ow_over_min : nat;
}.

(** [slot.extend(owned)] and [assigned.extend(owned)]. *)
Definition keep_owned (s : Owned) (id : string) (kept : list topic_partition)
    (under exact : list string) (over : nat) : Owned :=
  mkOwned (<[id := default [] (ow_assignment s !! id) ++ kept]> (ow_assignment s))
    (ow_assigned s ∪ list_to_set kept) under exact over.

(** One turn of [assignOwnedPartitions]. *)
Definition assign_owned (q : Quotas) (current : assignment) (s : Owned) (id : string) : Owned :=
  let owned := sort_by owned_le (default [] (current !! id)) in
  if (length owned <? min_quota q)%nat
  then keep_owned s id owned (ow_under_min s ++ [id]) (ow_exactly_min s) (ow_over_min s)
  else if (max_quota q <=? length owned)%nat && (ow_over_min s <? expected_over_min q)%nat
  then
    let over := S (ow_over_min s) in
    keep_owned s id (take (max_quota q) owned) (ow_under_min s)
      (if (over =? expected_over_min q)%nat then [] else ow_exactly_min s) over
  else
    keep_owned s id (take (min_quota q) owned) (ow_under_min s)
      (if (ow_over_min s <? expected_over_min q)%nat then ow_exactly_min s ++ [id]
       else ow_exactly_min s)
      (ow_over_min s).

Record Dealing : Type := mkDealing {
  de_assignment : assignment;
  de_under_min : list string;
  de_exactly_min : list string;
  de_cursor : nat;
}.

(** The member that takes the next partition, the cursor it leaves, and the
    queue of members that hold exactly the minimum; [None] is the [break]. *)
Definition next_taker (s : Dealing) : option (string * nat * list string) :=
  match de_under_min s !! de_cursor s with
  | Some m => Some (m, de_cursor s, de_exactly_min s)
  | None =>
    match head (de_under_min s) with
    | Some first => Some (first, 0%nat, de_exactly_min s)
    | None =>
      match de_exactly_min s with
      | m :: exact => Some (m, de_cursor s, exact)
      | [] => None
      end
    end
  end.

(** The loop of [assignRoundRobin]; its flag tells whether it broke off. *)
Fixpoint deal_unassigned (min : nat) (s : Dealing) (unassigned : list topic_partition)
    : Dealing * bool :=
  match unassigned with
  | [] => (s, false)
  | partition :: unassigned =>
    match next_taker s with
    | None => (s, true)
    | Some (m, cursor, exact) =>
      let assignment := push_entry m partition (de_assignment s) in
      let count := length (default [] (assignment !! m)) in
      let s :=
        if bool_decide (de_under_min s !! cursor = Some m) then
          if (count =? min)%nat
          then mkDealing assignment (delete cursor (de_under_min s)) (exact ++ [m]) cursor
          else mkDealing assignment (de_under_min s) exact (S cursor)
        else mkDealing assignment (de_under_min s) exact cursor in
      deal_unassigned min s unassigned
    end
  end.

(** [getAllTopicPartitions]: sorted topics, then partitions. *)
Definition all_topic_partitions (shared : gset string) (topic_partitions : gmap string Z)
    : list topic_partition :=
  concat ((λ topic, match topic_partitions !! topic with
                    | Some count => topic_range topic 0 (Z.max count 0)
                    | None => []
                    end) <$> sorted_set shared).

Definition constrained_run (member_ids : list string) (subs : gmap string (gset string))
    (current : assignment) (topic_partitions : gmap string Z) : Dealing * bool :=
  let shared := default ∅ (head member_ids ≫= λ m, subs !! m) in
  let all_partitions := all_topic_partitions shared topic_partitions in
  let q := quotas (length all_partitions) (length member_ids) in
  let start := mkOwned (collect_map ((λ id, (id, [])) <$> member_ids)) ∅ [] [] 0 in
  let owned := foldl (assign_owned q current) start member_ids in
  let unassigned := filter (λ tp, tp ∉ ow_assigned owned) all_partitions in
  deal_unassigned (min_quota q)
    (mkDealing (ow_assignment owned) (sort_by str_le (ow_under_min owned))
       (sort_by str_le (ow_exactly_min owned)) 0)
    unassigned.

Definition constrained_assign (member_ids : list string) (subs : gmap string (gset string))
    (current : assignment) (topic_partitions : gmap string Z) : assignment :=
  if bool_decide (member_ids = []) then ∅
  else sort_values (de_assignment (constrained_run member_ids subs current topic_partitions).1).

(** ** The general algorithm *)

Definition load (out : assignment) (id : string) : nat := length (default [] (out !! id)).

(** Step 1: the subscribers of each existing topic. *)
Definition add_subscriber (id : string) (topic_partitions : gmap string Z)
    (index : gmap string (gset string)) (t : string) : gmap string (gset string) :=
  match topic_partitions !! t with
  | Some _ => <[t := default ∅ (index !! t) ∪ {[id]}]> index
  | None => index
  end.

Definition subscribers_per_topic (subs : gmap string (gset string))
    (topic_partitions : gmap string Z) : gmap string (gset string) :=
  foldl (λ index e, foldl (add_subscriber e.1 topic_partitions) index (sorted_set e.2))
    ∅ (sorted_map subs).

(** Step 2: the partitions by rarity, topic and partition. *)
Definition rarity (index : gmap string (gset string)) (topic : string) : nat :=
  match index !! topic with Some s => size s | None => 0%nat end.

Definition rarity_le (index : gmap string (gset string)) (a b : topic_partition) : Prop :=
  let ra := rarity index a.1 in
  let rb := rarity index b.1 in
  if decide (ra = rb) then tp_le a b else (ra < rb)%nat.

#[global] Instance rarity_le_dec index : RelDecision (rarity_le index).
Proof. intros a b. unfold rarity_le. case_decide; apply _. Defined.

Definition sorted_partitions (index : gmap string (gset string))
    (topic_partitions : gmap string Z) : list topic_partition :=
  sort_by (rarity_le index)
    (concat ((λ e, match topic_partitions !! e.1 with
                   | Some n => topic_range e.1 0 (Z.max n 0)
                   | None => []
                   end) <$> sorted_map index)).

(** Step 3: placing each partition. *)
Definition least_loaded (subscribed : gset string) (out : assignment) : option (nat * string) :=
  foldl (λ best id,
           let l := load out id in
           match best with
           | None => Some (l, id)
           | Some (bl, bid) => if (l <? bl)%nat then Some (l, id) else best
           end)
    None (sorted_set subscribed).

Definition pick_least_loaded (subscribed : gset string) (out : assignment) : option string :=
  snd <$> least_loaded subscribed out.

Definition choose_assignment_owner (tp : topic_partition) (subscribed : gset string)
    (prev_owner : gmap topic_partition string) (out : assignment) : option string :=
  '(min_load, _) ← least_loaded subscribed out;
  match prev_owner !! tp with
  | Some prev =>
    if decide (prev ∈ subscribed) then
      if (load out prev <=? min_load)%nat then Some prev else pick_least_loaded subscribed out
    else pick_least_loaded subscribed out
  | None => pick_least_loaded subscribed out
  end.

Definition place (index : gmap string (gset string)) (prev_owner : gmap topic_partition string)
    (out : assignment) (tp : topic_partition) : assignment :=
  match index !! tp.1 ≫= λ subscribed, choose_assignment_owner tp subscribed prev_owner out with
  | Some chosen => push_entry chosen tp out
  | None => out
  end.

(** Step 4: the balance pass. *)
Definition max_balance_iters (partitions members : nat) : Z :=
  usize_saturating_mul (Z.of_nat partitions) (Z.of_nat members) + 16.

(** The subscriber to move a partition to: the least loaded one, then the
    lowest id, among those that hold at least two fewer than the owner. *)
Definition move_candidate (out : assignment) (owner_load : nat) (subscribers : list string)
    : option string :=
  foldl (λ best id,
           match best with
           | None => Some id
           | Some b =>
             if (load out id <? load out b)%nat
                || ((load out id =? load out b)%nat && negb (bool_decide (str_le b id)))
             then Some id else best
           end)
    None (filter (λ id, (load out id + 1 < owner_load)%nat) subscribers).

Definition move_target (subscribers : list string) (prev_owner : gmap topic_partition string)
    (out : assignment) (partition : topic_partition) (owner : string) : option string :=
  let owner_load := load out owner in
  match prev_owner !! partition with
  | Some previous =>
    if bool_decide (previous ≠ owner) && bool_decide (previous ∈ subscribers)
       && (load out previous + 1 <? owner_load)%nat
    then Some previous
    else move_candidate out owner_load subscribers
  | None => move_candidate out owner_load subscribers
  end.

(** [parts.remove(position)] of the first occurrence, when there is one. *)
Fixpoint remove_first (tp : topic_partition) (l : list topic_partition) : list topic_partition :=
  match l with
  | [] => []
  | x :: l => if decide (x = tp) then l else x :: remove_first tp l
  end.

Definition move (partition : topic_partition) (owner target : string) (out : assignment)
    : assignment :=
  push_entry target partition (alter (remove_first partition) owner out).

Definition subscribers_of (member_ids : list string) (subs : gmap string (gset string))
    (topic : string) : list string :=
  filter (λ id, topic ∈ default ∅ (subs !! id)) member_ids.

Record Balancing : Type := mkBalancing {
  ba_assignment : assignment; ba_moves : Z; ba_modified : bool; ba_stopped : bool
}.

(** One turn of the inner loop of [balance_assignment]. *)
Definition balance_one (member_ids : list string) (subs : gmap string (gset string))
    (prev_owner : gmap topic_partition string) (max_iters : Z) (s : Balancing)
    (e : topic_partition * string) : Balancing :=
  if ba_stopped s then s
  else if max_iters <=? ba_moves s
  then mkBalancing (ba_assignment s) (ba_moves s) (ba_modified s) true
  else
    let subscribers := subscribers_of member_ids subs e.1.1 in
    if (length subscribers <=? 1)%nat then s
    else match move_target subscribers prev_owner (ba_assignment s) e.1 e.2 with
    | None => s
    | Some target =>
      mkBalancing (move e.1 e.2 target (ba_assignment s)) (ba_moves s + 1) true false
    end.

(** The snapshot of a pass: every partition with its owner, sorted. *)
Definition owner_le (a b : topic_partition * string) : Prop :=
  if decide (a.1 = b.1) then str_le a.2 b.2 else tp_le a.1 b.1.

#[global] Instance owner_le_dec : RelDecision owner_le.
Proof. intros a b. unfold owner_le. case_decide; apply _. Defined.

Definition snapshot (out : assignment) : list (topic_partition * string) :=
  sort_by owner_le
    (concat ((λ e : string * list topic_partition, (λ tp, (tp, e.1)) <$> e.2) <$> sorted_map out)).

(** The outer loop: passes until one moves nothing, or the moves run out.
    [None] when the fuel is used up. *)
Fixpoint balance_loop (fuel : nat) (member_ids : list string) (subs : gmap string (gset string))
    (prev_owner : gmap topic_partition string) (max_iters moves : Z) (out : assignment)
    : option Balancing :=
  match fuel with
  | O => None
  | S fuel =>
    let s := foldl (balance_one member_ids subs prev_owner max_iters)
               (mkBalancing out moves false false) (snapshot out) in
    if ba_stopped s || negb (ba_modified s) then Some s
    else balance_loop fuel member_ids subs prev_owner max_iters (ba_moves s) (ba_assignment s)
  end.

(** A pass that goes on has moved a partition, so [max_iters + 2] passes are
    enough. *)
Definition balance_assignment (member_ids : list string) (subs : gmap string (gset string))
    (prev_owner : gmap topic_partition string) (out : assignment) (max_iters : Z)
    : option Balancing :=
  balance_loop (S (S (Z.to_nat max_iters))) member_ids subs prev_owner max_iters 0 out.

Definition general_assign (member_ids : list string) (subs : gmap string (gset string))
    (current : assignment) (topic_partitions : gmap string Z) : option assignment :=
  let index := subscribers_per_topic subs topic_partitions in
  let partitions := sorted_partitions index topic_partitions in
  let start := collect_map ((λ id, (id, [])) <$> member_ids) in
  let prev_owner := owners_of current in
  let placed := foldl (place index prev_owner) start partitions in
  s ← balance_assignment member_ids subs prev_owner placed
        (max_balance_iters (length partitions) (length member_ids));
  Some (sort_values (ba_assignment s)).

(** ** The assignors *)

Definition sorted_ids (members : list MemberInput) : list string :=
  sort_by str_le (in_id <$> members).

(** [subs.values()] in key order: all equal to the first. *)
Definition all_equal (subs : gmap string (gset string)) : bool :=
  match sorted_map subs with
  | [] => true
  | first :: rest => forallb (λ e, bool_decide (e.2 = first.2)) rest
  end.

(** The sorted ids, the previous owners and the raw assignment. *)
Definition sticky_assignment (members : list MemberInput) (topic_partitions : gmap string Z)
    : option (list string * gmap topic_partition string * assignment) :=
  let member_ids := sorted_ids members in
  let subs := subscriptions members in
  let current := prepopulate_current_assignments members subs topic_partitions in
  let previous_owner := owners_of current in
  raw ← (if all_equal subs
         then Some (constrained_assign member_ids subs current topic_partitions)
         else general_assign member_ids subs current topic_partitions);
  Some (member_ids, previous_owner, raw).

Definition assign_eager (members : list MemberInput) (topic_partitions : gmap string Z)
    : option assignment :=
  if bool_decide (members = []) then Some ∅
  else
    '(member_ids, _, raw) ← sticky_assignment members topic_partitions;
    Some (collect_map ((λ id, (id, sort_by tp_le (default [] (raw !! id)))) <$> member_ids)).

(** The cooperative adjustment keeps what no other live member owned. *)
Definition keeps (previous_owner : gmap topic_partition string) (id : string)
    (tp : topic_partition) : Prop :=
  match previous_owner !! tp with Some prev => prev = id | None => True end.

#[global] Instance keeps_dec previous_owner id tp : Decision (keeps previous_owner id tp).
Proof. unfold keeps. case_match; apply _. Defined.

Definition assign_cooperative (members : list MemberInput) (topic_partitions : gmap string Z)
    : option assignment :=
  if bool_decide (members = []) then Some ∅
  else
    '(member_ids, previous_owner, raw) ← sticky_assignment members topic_partitions;
    Some (sort_values (collect_map
      ((λ id, (id, filter (keeps previous_owner id) (default [] (raw !! id)))) <$> member_ids))).

Example sticky_sample :
  assign_cooperative
    [mkInput "a" ["t"] [("t", 0); ("t", 1); ("t", 2)] 3; mkInput "b" ["t"] [] 3]
    {[ "t" := 4 ]}
  = Some {[ "a" := [("t", 0); ("t", 1)]; "b" := [("t", 3)] ]}.
Proof. vm_compute. reflexivity. Qed.

Example sticky_general_sample :
  assign_eager
    [mkInput "a" ["t"; "u"] [("t", 0); ("t", 1); ("u", 0)] 3; mkInput "b" ["t"] [] 3]
    {[ "t" := 3; "u" := 1 ]}
  = Some {[ "a" := [("t", 1); ("u", 0)]; "b" := [("t", 0); ("t", 2)] ]}.
Proof. vm_compute. reflexivity. Qed.
