(* ===== verification/StickyProofs.v ===== *)
(** * Theorems on the sticky assignors

    The constrained algorithm never breaks off, hands out every partition once
    and meets its quotas; the general algorithm hands out every partition
    once and its balance loop ends; the cooperative adjustment never moves a
    partition from a live owner in one round. *)

From S2P Require Import Prelude Bytes Assignor Sticky.

(** ** Collections *)

Lemma foldl_insert_lookup `{Countable K} {V} (l : list (K * V)) k v :
  NoDup l.*1 → foldl (λ m e, <[e.1 := e.2]> m) (∅ : gmap K V) l !! k = Some v ↔ (k, v) ∈ l.
Proof.
  intros Hn.
  assert (foldl (λ m e, <[e.1 := e.2]> m) (∅ : gmap K V) l = list_to_map (reverse l)) as ->.
  { induction l as [|e l IH] using rev_ind; [done|].
    rewrite foldl_app, reverse_snoc. destruct e. simpl. f_equal. apply IH.
    rewrite fmap_app in Hn. by apply NoDup_app in Hn as [? _]. }
  rewrite <- elem_of_list_to_map; [by rewrite elem_of_reverse|].
  rewrite fmap_reverse. by rewrite reverse_Permutation.
Qed.

Lemma collect_map_lookup {V} (l : list (string * V)) k v :
  NoDup l.*1 → collect_map l !! k = Some v ↔ (k, v) ∈ l.
Proof. apply foldl_insert_lookup. Qed.

Lemma collect_map_elem {V} (l : list (string * V)) k v : collect_map l !! k = Some v → (k, v) ∈ l.
Proof.
  unfold collect_map. revert v. induction l as [|[k' v'] l IH] using rev_ind; intros v; [done|].
  rewrite foldl_app, elem_of_app. simpl. destruct (decide (k = k')) as [->|Hne].
  - rewrite lookup_insert_eq. intros [= ->]. right. by left.
  - rewrite lookup_insert_ne by done. auto.
Qed.

Lemma collect_map_dom {V} (l : list (string * V)) : dom (collect_map l) = list_to_set l.*1.
Proof.
  unfold collect_map. induction l as [|e l IH] using rev_ind; [done|].
  rewrite foldl_app, fmap_app. simpl. rewrite dom_insert_L, IH. set_solver.
Qed.

Lemma collect_nil_lookup (ids : list string) m :
  default [] (collect_map ((λ id, (id, @nil topic_partition)) <$> ids) !! m) = [].
Proof.
  destruct (collect_map _ !! m) as [l|] eqn:Hl; [|done].
  apply collect_map_elem, list_elem_of_fmap in Hl as (? & [= -> ->] & _). done.
Qed.

Lemma collect_nil_assigned (ids : list string) :
  assigned (collect_map ((λ id, (id, @nil topic_partition)) <$> ids)) = [].
Proof.
  apply assigned_nil. intros m l Hl. pose proof (collect_nil_lookup ids m) as H. by rewrite Hl in H.
Qed.

Lemma collect_nil_dom (ids : list string) :
  dom (collect_map ((λ id, (id, @nil topic_partition)) <$> ids)) = list_to_set ids.
Proof. rewrite collect_map_dom, <- list_fmap_compose. simpl. by rewrite list_fmap_id. Qed.

Lemma push_entry_slot m tp out : is_Some (out !! m) → push_entry m tp out = push_slot m [tp] out.
Proof.
  intros [l Hl]. unfold push_entry, push_slot. apply map_eq. intros k.
  destruct (decide (k = m)) as [->|Hne].
  - by rewrite lookup_insert_eq, lookup_alter_eq, Hl.
  - by rewrite lookup_insert_ne, lookup_alter_ne by done.
Qed.

Lemma sort_values_lookup out m l :
  sort_values out !! m = Some l ↔ ∃ k, out !! m = Some k ∧ l = sort_by tp_le k.
Proof. unfold sort_values. rewrite lookup_fmap, fmap_Some. done. Qed.

Lemma sort_values_assigned out : assigned (sort_values out) ≡ₚ assigned out.
Proof.
  unfold sort_values. induction out as [|m l out Hm IH] using map_ind; [done|].
  rewrite fmap_insert, !assigned_insert by (by rewrite ?lookup_fmap, ?Hm).
  by rewrite IH, sort_by_perm.
Qed.

Lemma sort_values_slots ids P out : slots_for ids P out → slots_for ids P (sort_values out).
Proof.
  intros [Hd HP]. split; [unfold sort_values; by rewrite dom_fmap_L|].
  intros m l tp (k & Hk & ->)%sort_values_lookup. rewrite elem_of_sort_by. eauto.
Qed.

(** ** The quotas *)

Lemma quotas_spec total n :
  (0 < n)%nat →
  let q := quotas total n in
  total = (min_quota q * n + expected_over_min q)%nat ∧
  (expected_over_min q < n)%nat ∧
  max_quota q = (min_quota q + (if decide (expected_over_min q = 0) then 0 else 1))%nat.
Proof.
  intros Hn q. unfold q, quotas. simpl.
  pose proof (Nat.div_mod total n ltac:(lia)). pose proof (Nat.mod_upper_bound total n ltac:(lia)).
  set (a := (total / n)%nat) in *. set (r := (total mod n)%nat) in *.
  split_and!; [lia|lia|]. symmetry. case_decide.
  - apply (Nat.div_unique _ _ _ (n - 1)); lia.
  - apply (Nat.div_unique _ _ _ (r - 1)); lia.
Qed.

(** ** Dealing out the unassigned partitions *)

Section dealing.
Context (q mx : nat) (Hqm : (q ≤ mx)%nat) (ids : list string) (all : list topic_partition).

Lemma load_push m tp out m' :
  load (push_entry m tp out) m' = (load out m' + (if decide (m = m') then 1 else 0))%nat.
Proof.
  unfold load, push_entry. case_decide as E.
  - subst. rewrite lookup_insert_eq. simpl. rewrite length_app. simpl. lia.
  - rewrite lookup_insert_ne by done. lia.
Qed.

(** What the members below the minimum still need. *)
Definition deficit (out : assignment) (under : list string) : nat :=
  sum_list_with (λ m, q - load out m)%nat under.

Lemma deficit_other m tp out under :
  m ∉ under → deficit (push_entry m tp out) under = deficit out under.
Proof.
  unfold deficit. induction under as [|x under IH]; intros Hm; [done|].
  apply not_elem_of_cons in Hm as [Hne Hm]. simpl. rewrite IH by done.
  rewrite load_push, decide_False by done. by rewrite Nat.add_0_r.
Qed.

Lemma deficit_zero out under :
  (∀ m, m ∈ under → load out m < q)%nat → deficit out under = 0%nat → under = [].
Proof.
  clear Hqm. destruct under as [|m under]; [done|]. unfold deficit. simpl. intros Hlt Hz.
  specialize (Hlt m ltac:(left)). lia.
Qed.

Record dealing_inv (R : list topic_partition) (s : Dealing) : Prop := {
  di_dom : dom (de_assignment s) = list_to_set ids;
  di_perm : assigned (de_assignment s) ++ R ≡ₚ all;
  di_nodup : NoDup (de_under_min s ++ de_exactly_min s);
  di_ids m : m ∈ de_under_min s ++ de_exactly_min s → m ∈ ids;
  di_under m : m ∈ de_under_min s → (load (de_assignment s) m < q)%nat;
  di_exact m : m ∈ de_exactly_min s → load (de_assignment s) m = q;
  di_done m : m ∈ ids → m ∉ de_under_min s → (q ≤ load (de_assignment s) m ≤ mx)%nat;
  di_count : ∃ k, length R = (deficit (de_assignment s) (de_under_min s) + k)%nat ∧
    (k ≤ length (de_under_min s) + length (de_exactly_min s))%nat ∧ (0 < k → q < mx)%nat;
}.

(** The turn of [deal_unassigned]. *)
Definition deal_one (s : Dealing) (tp : topic_partition) (m : string) (cursor : nat)
    (exact : list string) : Dealing :=
  let assignment := push_entry m tp (de_assignment s) in
  let count := length (default [] (assignment !! m)) in
  if bool_decide (de_under_min s !! cursor = Some m) then
    if (count =? q)%nat
    then mkDealing assignment (delete cursor (de_under_min s)) (exact ++ [m]) cursor
    else mkDealing assignment (de_under_min s) exact (S cursor)
  else mkDealing assignment (de_under_min s) exact cursor.

(** Partition [tp] goes to a member with a slot. *)
Lemma push_perm m tp R out :
  m ∈ ids → dom out = list_to_set ids → assigned out ++ tp :: R ≡ₚ all →
  dom (push_entry m tp out) = list_to_set ids ∧ assigned (push_entry m tp out) ++ R ≡ₚ all.
Proof.
  intros Hm Hd Hp.
  assert (is_Some (out !! m)) by (apply elem_of_dom; rewrite Hd; by apply elem_of_list_to_set).
  rewrite push_entry_slot by done. rewrite push_slot_dom, push_slot_assigned by done.
  split; [done|]. by rewrite <- (assoc_L (++)).
Qed.

(** A member below the minimum takes the partition: what it needs shrinks by
    one, and nothing changes for the others. *)
Lemma push_under s tp R m l1 l2 :
  dealing_inv (tp :: R) s → de_under_min s = l1 ++ m :: l2 →
  let out' := push_entry m tp (de_assignment s) in
  m ∈ ids ∧ m ∉ l1 ∧ m ∉ l2 ∧ m ∉ de_exactly_min s ∧
  load out' m = S (load (de_assignment s) m) ∧
  (∀ x, x ≠ m → load out' x = load (de_assignment s) x) ∧
  deficit (de_assignment s) (de_under_min s) =
    (deficit out' (l1 ++ l2) + (q - load (de_assignment s) m))%nat.
Proof.
  intros [Hd Hp Hn Hi Hun Hex Hdn _] Hu out'.
  assert (m ∈ de_under_min s) as Hm by (rewrite Hu; set_solver).
  assert (m ∉ l1 ++ l2 ++ de_exactly_min s) as Hfresh.
  { rewrite Hu in Hn. rewrite <- (assoc_L (++)) in Hn. simpl in Hn.
    apply NoDup_app in Hn as (_ & H1 & H2). apply NoDup_cons in H2 as [H2 _].
    rewrite elem_of_app. intros [H|H]; [by apply (H1 m H); left|done]. }
  rewrite !not_elem_of_app in Hfresh. destruct Hfresh as (Hf1 & Hf2 & Hf3).
  split_and!; try done.
  - apply Hi, elem_of_app. by left.
  - unfold out'. rewrite load_push, decide_True by done. lia.
  - intros x Hx. unfold out'. rewrite load_push, decide_False by done. lia.
  - unfold out'. rewrite deficit_other by (rewrite not_elem_of_app; auto). rewrite Hu.
    unfold deficit. rewrite !sum_list_with_app. simpl. lia.
Qed.

Lemma deal_one_under s tp R m cursor :
  dealing_inv (tp :: R) s → de_under_min s !! cursor = Some m →
  dealing_inv R (deal_one s tp m cursor (de_exactly_min s)).
Proof.
  intros Hinv Hc. pose proof (list_elem_of_lookup_2 _ _ _ Hc) as Hm.
  apply list_elem_of_split_length in Hc as (l1 & l2 & Hu & Hlen).
  destruct (push_under s tp R m l1 l2 Hinv Hu) as (Hmi & Hf1 & Hf2 & Hf3 & Hlm & Ho & Hdef).
  destruct Hinv as [Hd Hp Hn Hi Hun Hex Hdn (k & Hk & Hkl & Hkm)].
  destruct (push_perm m tp R (de_assignment s) Hmi Hd Hp) as [Hd' Hp'].
  pose proof (Hun m Hm) as Hlt. unfold deal_one.
  rewrite bool_decide_eq_true_2 by (rewrite Hu, Hlen; by rewrite list_lookup_middle).
  cbn zeta. fold (load (push_entry m tp (de_assignment s)) m). rewrite Hlm.
  set (out' := push_entry m tp (de_assignment s)) in *.
  assert (length (de_under_min s) = S (length l1 + length l2)) as Hul
    by (rewrite Hu, length_app; simpl; lia).
  destruct (Nat.eqb_spec (S (load (de_assignment s) m)) q) as [Hq|Hq].
  - assert (delete cursor (de_under_min s) = l1 ++ l2) as Hdel
      by (rewrite Hu, Hlen; apply delete_middle).
    assert (l1 ++ l2 ++ de_exactly_min s ++ [m] ≡ₚ de_under_min s ++ de_exactly_min s) as Hperm.
    { rewrite Hu, <- (assoc_L (++)). simpl. f_equiv.
      rewrite (assoc_L (++)), (Permutation_app_comm _ [m]). done. }
    split; simpl; rewrite ?Hdel; try done.
    + rewrite <- (assoc_L (++)). by rewrite Hperm.
    + intros x. rewrite <- (assoc_L (++)), Hperm. apply Hi.
    + intros x Hx. rewrite Ho by (intros ->; apply elem_of_app in Hx; tauto).
      apply Hun. rewrite Hu. set_solver.
    + intros x [Hx| ->%list_elem_of_singleton]%elem_of_app; [|lia].
      rewrite Ho by (intros ->; tauto). by apply Hex.
    + intros x Hx Hnx. destruct (decide (x = m)) as [->|Hne]; [lia|].
      rewrite Ho by done. apply Hdn; [done|]. rewrite Hu. set_solver.
    + exists k. rewrite !length_app in *. simpl in *. split_and!; [lia|lia|done].
  - assert (deficit out' (de_under_min s) = deficit out' (l1 ++ l2) + (q - load out' m))%nat as Hdef'
      by (rewrite Hu; unfold deficit; rewrite !sum_list_with_app; simpl; lia).
    split; simpl; try done.
    + intros x Hx. destruct (decide (x = m)) as [->|Hne]; [lia|]. rewrite Ho by done. by apply Hun.
    + intros x Hx. rewrite Ho by (intros ->; tauto). by apply Hex.
    + intros x Hx Hnx. rewrite Ho by (by intros ->). by apply Hdn.
    + exists k. simpl in Hk. split_and!; [lia|lia|done].
Qed.

(** No member is below the minimum: one that holds exactly the minimum takes
    the partition, and there is one. *)
Lemma deal_one_exact s tp R :
  dealing_inv (tp :: R) s → de_under_min s = [] →
  ∃ m exact, de_exactly_min s = m :: exact ∧ dealing_inv R (deal_one s tp m (de_cursor s) exact).
Proof.
  intros [Hd Hp Hn Hi Hun Hex Hdn (k & Hk & Hkl & Hkm)] Hu. rewrite Hu in *. simpl in *.
  unfold deficit in Hk. simpl in Hk.
  destruct (de_exactly_min s) as [|m exact] eqn:He; [simpl in Hkl; lia|].
  exists m, exact. split; [done|].
  assert (m ∈ ids) as Hmi by (apply Hi; left).
  destruct (push_perm m tp R (de_assignment s) Hmi Hd Hp) as [Hd' Hp'].
  pose proof (Hex m ltac:(left)) as Hmq. apply NoDup_cons in Hn as [Hme Hn].
  unfold deal_one. rewrite Hu, bool_decide_eq_false_2 by (by rewrite lookup_nil). simpl in *.
  split; simpl; try done.
  - intros x Hx. apply Hi. by right.
  - intros x Hx. by apply elem_of_nil in Hx.
  - intros x Hx. rewrite load_push, decide_False by (by intros ->).
    rewrite Nat.add_0_r. apply Hex. by right.
  - intros x Hx _. rewrite load_push. specialize (Hdn x Hx ltac:(apply not_elem_of_nil)).
    case_decide; [subst|]; lia.
  - exists (k - 1)%nat. unfold deficit. simpl in *. split_and!; lia.
Qed.

Lemma deal_unassigned_inv R s :
  dealing_inv R s →
  (deal_unassigned q s R).2 = false ∧ dealing_inv [] (deal_unassigned q s R).1.
Proof.
  revert s. induction R as [|tp R IH]; intros s Hinv; [done|].
  assert (∃ m cursor exact, next_taker s = Some (m, cursor, exact) ∧
    dealing_inv R (deal_one s tp m cursor exact)) as (m & cursor & exact & Hnt & Hinv').
  { unfold next_taker. destruct (de_under_min s !! de_cursor s) as [m|] eqn:Hc.
    - exists m, (de_cursor s), (de_exactly_min s). split; [done|]. by apply deal_one_under.
    - destruct (head (de_under_min s)) as [first|] eqn:Hh.
      + exists first, 0%nat, (de_exactly_min s). split; [done|]. apply deal_one_under; [done|].
        by destruct (de_under_min s).
      + assert (de_under_min s = []) as Hu by (by destruct (de_under_min s)).
        destruct (deal_one_exact s tp R Hinv Hu) as (m & exact & -> & Hinv'). eauto 6. }
  cbn [deal_unassigned]. rewrite Hnt. by apply IH.
Qed.
End dealing.

(** ** Keeping owned partitions *)

Lemma sublist_subset {A} (l k : list A) : l `sublist_of` k → l ⊆ k.
Proof. intros H x Hx. by eapply elem_of_submseteq, sublist_submseteq. Qed.

Section owning.
Context (q : Quotas) (n : nat) (ids : list string) (current : assignment).
Context (total : nat) (Hq : q = quotas total n) (Hn : (0 < n)%nat).

Definition own (id : string) : list topic_partition := default [] (current !! id).

Record owned_inv (before : list string) (s : Owned) : Prop := {
  oi_dom : dom (ow_assignment s) = list_to_set ids;
  oi_rest id : id ∉ before → default [] (ow_assignment s !! id) = [];
  oi_set : ow_assigned s = list_to_set (assigned (ow_assignment s));
  oi_sub : assigned (ow_assignment s) ⊆+ concat (own <$> before);
  oi_nodup : NoDup (ow_under_min s ++ ow_exactly_min s);
  oi_ids m : m ∈ ow_under_min s ++ ow_exactly_min s → m ∈ before;
  oi_under m : m ∈ ow_under_min s → (load (ow_assignment s) m < min_quota q)%nat;
  oi_exact m : m ∈ ow_exactly_min s → load (ow_assignment s) m = min_quota q;
  oi_done m : m ∈ before → m ∉ ow_under_min s →
    (min_quota q ≤ load (ow_assignment s) m ≤ max_quota q)%nat;
  oi_count : (length (assigned (ow_assignment s)) +
    deficit (min_quota q) (ow_assignment s) (ow_under_min s) =
    min_quota q * length before + ow_over_min s)%nat;
  oi_over : (ow_over_min s ≤ expected_over_min q)%nat;
  oi_queue : if decide (ow_over_min s < expected_over_min q)%nat
    then (length (ow_under_min s) + length (ow_exactly_min s) + ow_over_min s = length before)%nat
    else ow_exactly_min s = [];
  oi_keeps id : id ∈ before →
    take (min_quota q) (sort_by owned_le (own id)) ⊆ default [] (ow_assignment s !! id);
}.

(** What a kept list must satisfy for the invariant to go on. *)
Lemma keep_owned_inv before s id kept under exact over :
  owned_inv before s → id ∈ ids → id ∉ before → kept ⊆+ own id →
  take (min_quota q) (sort_by owned_le (own id)) ⊆ kept →
  (length kept ≤ max_quota q)%nat →
  NoDup (under ++ exact) → (∀ m, m ∈ under ++ exact → m = id ∨ m ∈ ow_under_min s ++ ow_exactly_min s) →
  (∀ m, m ≠ id → m ∈ under ↔ m ∈ ow_under_min s) → (∀ m, m ≠ id → m ∈ exact → m ∈ ow_exactly_min s) →
  (id ∈ under → length kept < min_quota q)%nat → (id ∈ exact → length kept = min_quota q) →
  (id ∉ under → min_quota q ≤ length kept)%nat →
  (length kept + deficit (min_quota q) (<[id := kept]> (ow_assignment s)) under + ow_over_min s =
   deficit (min_quota q) (ow_assignment s) (ow_under_min s) + min_quota q + over)%nat →
  (over ≤ expected_over_min q)%nat →
  (if decide (over < expected_over_min q)%nat
   then (length under + length exact + over = S (length before))%nat else exact = []) →
  owned_inv (before ++ [id]) (keep_owned s id kept under exact over).
Proof.
  intros [Hd Hr Hset Hsub Hnd Hi Hun Hex Hdn Hcnt Hov Hqu Hk] Hid Hnb Hkept Htake Hmax Hnd' Hi' Hun'
    Hex' Hidu Hide Hidn Hcnt' Hov' Hqu'.
  assert (is_Some (ow_assignment s !! id)) as [l0 Hl0]
    by (apply elem_of_dom; rewrite Hd; by apply elem_of_list_to_set).
  assert (l0 = []) as -> by (specialize (Hr id Hnb); by rewrite Hl0 in Hr).
  unfold keep_owned. rewrite Hl0. simpl app.
  assert (assigned (<[id := kept]> (ow_assignment s)) ≡ₚ kept ++ assigned (ow_assignment s)) as Hp.
  { rewrite (assigned_lookup id [] (ow_assignment s)) by done. rewrite <- insert_delete_eq.
    apply assigned_insert, lookup_delete_eq. }
  assert (∀ m, m ≠ id → load (<[id := kept]> (ow_assignment s)) m = load (ow_assignment s) m) as Ho
    by (intros m Hm; unfold load; by rewrite lookup_insert_ne).
  assert (load (<[id := kept]> (ow_assignment s)) id = length kept) as Hself
    by (unfold load; by rewrite lookup_insert_eq).
  split; simpl; try done.
  - rewrite dom_insert_L, Hd. apply leibniz_equiv. intros x.
    rewrite elem_of_union, elem_of_list_to_set, elem_of_singleton. naive_solver.
  - intros m Hm. rewrite not_elem_of_app, list_elem_of_singleton in Hm.
    rewrite lookup_insert_ne by naive_solver. apply Hr. naive_solver.
  - rewrite Hset. apply leibniz_equiv. intros x.
    rewrite elem_of_union, !elem_of_list_to_set, Hp, elem_of_app. tauto.
  - rewrite Hp, fmap_app, concat_app. csimpl. rewrite app_nil_r, Permutation_app_comm.
    by apply submseteq_app.
  - intros m Hm. destruct (Hi' m Hm) as [->|Hm']; [set_solver|]. apply elem_of_app. auto.
  - intros m Hm. destruct (decide (m = id)) as [->|Hne]; [rewrite Hself; auto|].
    rewrite Ho by done. apply Hun. by apply Hun'.
  - intros m Hm. destruct (decide (m = id)) as [->|Hne]; [rewrite Hself; auto|].
    rewrite Ho by done. apply Hex. by apply Hex'.
  - intros m Hm Hmu. destruct (decide (m = id)) as [->|Hne]; [rewrite Hself; auto|].
    rewrite Ho by done. apply Hdn; [set_solver|]. by rewrite <- Hun'.
  - rewrite Hp, !length_app. simpl. nia.
  - rewrite length_app. simpl. case_decide; [lia|done].
  - intros m Hm. destruct (decide (m = id)) as [->|Hne]; [by rewrite lookup_insert_eq|].
    rewrite lookup_insert_ne by done. apply Hk. set_solver.
Qed.

Lemma deficit_insert_other m kept out under :
  m ∉ under → deficit (min_quota q) (<[m := kept]> out) under = deficit (min_quota q) out under.
Proof.
  unfold deficit. induction under as [|x under IH]; intros Hm; [done|].
  apply not_elem_of_cons in Hm as [Hne Hm]. simpl. rewrite IH by done. f_equal. f_equal.
  unfold load. by rewrite lookup_insert_ne by done.
Qed.

Lemma assign_owned_inv before s id :
  owned_inv before s → id ∈ ids → id ∉ before → owned_inv (before ++ [id]) (assign_owned q current s id).
Proof.
  intros Hinv Hid Hnb. pose proof (quotas_spec total n Hn) as (Htot & Hlt & Hmx).
  rewrite <- Hq in Htot, Hlt, Hmx.
  pose proof Hinv as [Hd Hr Hset Hsub Hnd Hi Hun Hex Hdn Hcnt Hov Hqu Hk].
  assert (id ∉ ow_under_min s ++ ow_exactly_min s) as Hfresh by (intros H; by apply Hnb, Hi).
  pose proof Hfresh as [Hfu Hfe]%not_elem_of_app.
  unfold assign_owned. fold (own id). set (owned := sort_by owned_le (own id)).
  assert (owned ≡ₚ own id) as Hperm by apply sort_by_perm.
  assert (∀ k, take k owned ⊆+ own id) as Htk
    by (intros k; rewrite <- Hperm; apply sublist_submseteq, sublist_take).
  destruct (Nat.ltb_spec (length owned) (min_quota q)) as [Hsmall|Hbig].
  { apply (keep_owned_inv before); try done.
    - by rewrite Hperm.
    - apply sublist_subset, sublist_take.
    - rewrite Hmx. case_decide; lia.
    - rewrite <- (assoc_L (++)). rewrite (Permutation_app_comm [id]), (assoc_L (++)).
      apply NoDup_app. split_and!; [done| |apply NoDup_singleton].
      intros x Hx ->%list_elem_of_singleton. done.
    - set_solver.
    - set_solver.
    - set_solver.
    - unfold deficit at 1. rewrite sum_list_with_app. simpl.
      fold (deficit (min_quota q) (<[id := owned]> (ow_assignment s)) (ow_under_min s)).
      rewrite deficit_insert_other by done. unfold load. rewrite lookup_insert_eq. simpl. lia.
    - case_decide; [|done]. rewrite length_app. simpl. lia. }
  destruct ((max_quota q <=? length owned)%nat && (ow_over_min s <? expected_over_min q)%nat) eqn:Hb.
  { apply andb_true_iff in Hb as [Hb1%Nat.leb_le Hb2%Nat.ltb_lt].
    rewrite decide_False in Hmx by lia. rewrite decide_True in Hqu by done.
    assert (length (take (max_quota q) owned) = max_quota q) as Hlen by (rewrite length_take; lia).
    apply (keep_owned_inv before); try done.
    - apply sublist_subset. replace (min_quota q) with (min_quota q `min` max_quota q)%nat by lia.
      rewrite <- take_take. apply sublist_take.
    - lia.
    - case_match; [|done]. rewrite app_nil_r. by apply NoDup_app in Hnd as [? _].
    - case_match; set_solver.
    - case_match; set_solver.
    - intros H. case_match; set_solver.
    - intros _. lia.
    - rewrite deficit_insert_other by done. lia.
    - destruct (Nat.eqb_spec (S (ow_over_min s)) (expected_over_min q)); case_decide; try lia; done. }
  assert (length (take (min_quota q) owned) = min_quota q) as Hlen by (rewrite length_take; lia).
  apply andb_false_iff in Hb.
  apply (keep_owned_inv before); try done.
  - rewrite Hlen, Hmx. case_decide; lia.
  - destruct (Nat.ltb_spec (ow_over_min s) (expected_over_min q)); [|done].
    rewrite (assoc_L (++)). apply NoDup_app. split_and!; [done| |apply NoDup_singleton].
    intros x Hx ->%list_elem_of_singleton. done.
  - intros m. destruct (ow_over_min s <? expected_over_min q)%nat; rewrite ?elem_of_app, ?list_elem_of_singleton; tauto.
  - intros m Hm. destruct (ow_over_min s <? expected_over_min q)%nat; rewrite ?elem_of_app, ?list_elem_of_singleton; tauto.
  - intros _. lia.
  - rewrite deficit_insert_other by done. lia.
  - destruct (Nat.ltb_spec (ow_over_min s) (expected_over_min q)); case_decide; try lia.
    + rewrite length_app. simpl. lia.
    + done.
Qed.

Lemma owned_start : owned_inv [] (mkOwned (collect_map ((λ id, (id, [])) <$> ids)) ∅ [] [] 0).
Proof.
  split; simpl; rewrite ?collect_nil_assigned, ?collect_nil_dom; try done; try (intros ? H; by apply elem_of_nil in H).
  - intros id _. apply collect_nil_lookup.
  - constructor.
  - unfold deficit. simpl. lia.
  - lia.
  - by case_decide.
Qed.

Lemma assign_owned_all after before s :
  NoDup (before ++ after) → after ⊆ ids → owned_inv before s →
  owned_inv (before ++ after) (foldl (assign_owned q current) s after).
Proof.
  revert before s. induction after as [|id after IH]; intros before s Hnd Hsub Hinv; simpl.
  { by rewrite app_nil_r. }
  rewrite (cons_middle id before after), (assoc_L (++)). apply IH.
  - by rewrite <- (assoc_L (++)).
  - set_solver.
  - apply assign_owned_inv; [done|set_solver|].
    intros Hb. apply NoDup_app in Hnd as (_ & Hd & _). apply (Hd id Hb). left.
Qed.
End owning.

Lemma submseteq_NoDup {A} (l k : list A) : l ⊆+ k → NoDup k → NoDup l.
Proof. intros [k' ->]%submseteq_Permutation Hn. by apply NoDup_app in Hn as [? _]. Qed.

Lemma rest_perm (l all : list topic_partition) :
  NoDup all → l ⊆+ all → l ++ filter (λ tp, tp ∉@{gset topic_partition} list_to_set l) all ≡ₚ all.
Proof.
  intros Hn Hs. apply NoDup_Permutation; [|done|].
  - apply NoDup_app. split_and!; [by eapply submseteq_NoDup| |by apply NoDup_filter].
    intros x Hx [Hnx _]%list_elem_of_filter. apply Hnx. by apply elem_of_list_to_set.
  - intros x. rewrite elem_of_app, list_elem_of_filter, elem_of_list_to_set.
    pose proof (elem_of_submseteq l all x). destruct (decide (x ∈ l)); tauto.
Qed.

(** From the kept partitions to the dealing of the others. *)
Lemma owned_dealing q total ids current all s :
  q = quotas total (length ids) → ids ≠ [] → total = length all → NoDup all →
  concat (own current <$> ids) ⊆+ all → owned_inv q ids current ids s →
  dealing_inv (min_quota q) (max_quota q) ids all (filter (λ tp, tp ∉ ow_assigned s) all)
    (mkDealing (ow_assignment s) (sort_by str_le (ow_under_min s))
       (sort_by str_le (ow_exactly_min s)) 0).
Proof.
  intros Hq Hne Htl Hna Hall [Hd Hr Hset Hsub Hnd Hi Hun Hex Hdn Hcnt Hov Hqu Hk].
  assert (0 < length ids)%nat as Hpos by (destruct ids; simpl; [done|lia]).
  pose proof (quotas_spec total (length ids) Hpos) as (Htot & Hlt & Hmx). rewrite <- Hq in *.
  assert (assigned (ow_assignment s) ++ filter (λ tp, tp ∉ ow_assigned s) all ≡ₚ all) as Hp.
  { rewrite Hset. apply rest_perm; [done|]. by etrans. }
  split; simpl; try done.
  - by rewrite !sort_by_perm.
  - intros m. rewrite !sort_by_perm. apply Hi.
  - intros m. rewrite elem_of_sort_by. apply Hun.
  - intros m. rewrite elem_of_sort_by. apply Hex.
  - intros m Hm. rewrite elem_of_sort_by. by apply Hdn.
  - exists (expected_over_min q - ow_over_min s)%nat.
    assert (deficit (min_quota q) (ow_assignment s) (sort_by str_le (ow_under_min s)) =
            deficit (min_quota q) (ow_assignment s) (ow_under_min s)) as ->
      by (unfold deficit; by rewrite sort_by_perm).
    apply Permutation_length in Hp. rewrite length_app in Hp.
    rewrite !length_sort_by. split_and!; [nia| |].
    + destruct (decide (ow_over_min s < expected_over_min q)%nat); lia.
    + rewrite Hmx. destruct (decide (expected_over_min q = 0%nat)); lia.
Qed.

(** Dealing takes nothing away. *)
Lemma deal_unassigned_keeps q R s m :
  default [] (de_assignment s !! m) ⊆
  default [] (de_assignment (deal_unassigned q s R).1 !! m).
Proof.
  revert s. induction R as [|tp R IH]; intros s; [done|]. simpl.
  destruct (next_taker s) as [[[m' c] e]|]; [|done].
  etrans; [|apply IH].
  assert (default [] (de_assignment s !! m) ⊆ default [] (push_entry m' tp (de_assignment s) !! m)).
  { unfold push_entry. destruct (decide (m' = m)) as [->|Hne].
    - rewrite lookup_insert_eq. simpl. intros x Hx. apply elem_of_app. by left.
    - by rewrite lookup_insert_ne. }
  repeat case_match; done.
Qed.

(** ** The constrained algorithm *)

Lemma constrained_run_ok ids subs current tps shared :
  NoDup ids → (head ids ≫= λ m, subs !! m) = Some shared →
  let all := all_topic_partitions shared tps in
  let q := quotas (length all) (length ids) in
  NoDup all → concat (own current <$> ids) ⊆+ all →
  (constrained_run ids subs current tps).2 = false ∧
  dealing_inv (min_quota q) (max_quota q) ids all [] (constrained_run ids subs current tps).1 ∧
  ∀ id, id ∈ ids → take (min_quota q) (sort_by owned_le (own current id)) ⊆
    default [] (de_assignment (constrained_run ids subs current tps).1 !! id).
Proof.
  intros Hnd Hsh all q Hna Hall.
  assert (ids ≠ []) as Hne by (by intros ->).
  assert (0 < length ids)%nat as Hpos by (destruct ids; simpl; [done|lia]).
  unfold constrained_run. rewrite Hsh. simpl default. fold all. fold q.
  set (s := foldl _ _ ids).
  assert (owned_inv q ids current ids s) as Hinv.
  { apply (assign_owned_all q (length ids) ids current (length all) eq_refl Hpos ids []);
      [done|done|]. by eapply (owned_start q (length ids)). }
  pose proof (owned_dealing q (length all) ids current all s eq_refl Hne eq_refl Hna Hall Hinv) as Hdl.
  assert (min_quota q ≤ max_quota q)%nat as Hqm.
  { pose proof (quotas_spec (length all) (length ids) Hpos) as (_ & _ & Hmx). fold q in Hmx. rewrite Hmx. lia. }
  destruct (deal_unassigned_inv _ _ Hqm ids all _ _ Hdl) as [Hb Hd].
  split_and!; [done|done|].
  intros id Hid. etrans; [apply (oi_keeps _ _ _ _ _ Hinv id Hid)|].
  apply (deal_unassigned_keeps _ _ (mkDealing _ _ _ _)).
Qed.
