(* ===== verification/StickyOwners.v ===== *)
(** * Who owns a partition before a rebalance

    The claims members make in their subscriptions, the member
    [prepopulate_current_assignments] gives each partition to, and the map
    [owners_of] reads off the result. *)

From S2P Require Import Prelude Bytes Assignor Sticky StickyProofs.

(** ** The best claim on one partition *)

(** What [put_claim] does to the entry of the claimed partition. *)
Definition claim_step (c : option claim) (x : Z * string) : option claim :=
  match c with
  | None => Some (x.1, x.2, false)
  | Some (g, owner, tied) =>
    if g <? x.1 then Some (x.1, x.2, false)
    else if x.1 =? g then Some (g, owner, true)
    else c
  end.

Lemma put_claim_lookup best g id tp tp' :
  put_claim best g id tp !! tp' =
  if decide (tp = tp') then claim_step (best !! tp) (g, id) else best !! tp'.
Proof.
  unfold put_claim, claim_step. case_decide as E.
  - subst. destruct (best !! tp') as [[[g0 o] t]|] eqn:Hb; simpl; repeat case_match;
      rewrite ?lookup_insert_eq; congruence.
  - destruct (best !! tp) as [[[g0 o] t]|]; simpl; repeat case_match;
      by rewrite ?lookup_insert_ne by done.
Qed.

Lemma claim_fold l :
  match foldl claim_step None l with
  | None => l = []
  | Some (g, o, tied) =>
    (g, o) ∈ l ∧ (∀ x, x ∈ l → x.1 ≤ g) ∧
    (tied = false ↔ length (filter (λ x, x.1 = g) l) = 1%nat)
  end.
Proof.
  induction l as [|[g' o'] l IH] using rev_ind; [done|].
  rewrite foldl_app. simpl. destruct (foldl claim_step None l) as [[[g o] t]|]; simpl.
  - destruct IH as (Hin & Hmax & Ht).
    assert (filter (λ x, x.1 = g) l ≠ []) as Hne.
    { intros H. assert ((g, o) ∈ filter (λ x, x.1 = g) l) as Hf
        by (apply list_elem_of_filter; split; [reflexivity|done]).
      rewrite H in Hf. by apply elem_of_nil in Hf. }
    destruct (Z.ltb_spec g g') as [Hlt|Hge]; [|destruct (Z.eqb_spec g' g) as [->|Hne']].
    + split_and!; [apply elem_of_app; right; by left| |].
      * intros x [Hx| ->%list_elem_of_singleton]%elem_of_app; simpl; [|lia].
        specialize (Hmax x Hx). lia.
      * rewrite filter_app, filter_none, filter_cons_True; [done|done|].
        intros x Hx. specialize (Hmax x Hx). lia.
    + split_and!; [apply elem_of_app; by left| |].
      * intros x [Hx| ->%list_elem_of_singleton]%elem_of_app; simpl; [auto|lia].
      * rewrite filter_app, length_app, filter_cons_True by done. simpl.
        destruct (filter (λ x, x.1 = g) l); [done|]. simpl. split; [done|lia].
    + split_and!; [apply elem_of_app; by left| |].
      * intros x [Hx| ->%list_elem_of_singleton]%elem_of_app; simpl; [auto|lia].
      * rewrite filter_app, length_app, filter_cons_False by done. simpl.
        by rewrite Nat.add_0_r.
  - subst l. simpl. split_and!; [by left| |].
    + intros x ->%list_elem_of_singleton. simpl. lia.
    + by rewrite filter_cons_True by done.
Qed.

(** ** The claims of the members *)

Section claims.
Context (members : list MemberInput) (subs : gmap string (gset string)) (tps : gmap string Z).

(** The claims of one member, all at one generation. *)
Lemma claim_list_lookup best (m : MemberInput) l tp :
  NoDup l →
  foldl (λ best x, if live_claim tps (default ∅ (subs !! in_id m)) x
                   then put_claim best (in_generation m) (in_id m) x else best) best l !! tp =
  if decide (tp ∈ l ∧ live_claim tps (default ∅ (subs !! in_id m)) tp = true)
  then claim_step (best !! tp) (in_generation m, in_id m) else best !! tp.
Proof.
  induction l as [|x l IH] using rev_ind; intros Hn.
  { rewrite decide_False; [done|]. intros [H _]. by apply elem_of_nil in H. }
  apply NoDup_app in Hn as (Hnl & Hfresh & _). rewrite foldl_app. simpl.
  set (best' := foldl _ best l) in *.
  destruct (decide (x = tp)) as [->|Hne].
  - assert (best' !! tp = best !! tp) as Hb.
    { rewrite IH by done. rewrite decide_False; [done|]. intros [H _]. by apply (Hfresh tp H); left. }
    destruct (live_claim tps _ tp) eqn:Hl.
    + rewrite put_claim_lookup, decide_True, Hb by done.
      rewrite decide_True; [done|]. split; [|done]. apply elem_of_app. right. by left.
    + rewrite decide_False; [done|]. by intros [_ H].
  - assert ((if live_claim tps (default ∅ (subs !! in_id m)) x
             then put_claim best' (in_generation m) (in_id m) x else best') !! tp = best' !! tp) as ->.
    { destruct (live_claim _ _ x); [|done]. by rewrite put_claim_lookup, decide_False. }
    rewrite IH by done. apply decide_ext.
    rewrite elem_of_app, list_elem_of_singleton. naive_solver.
Qed.

(** The member lists the partition, which exists, and subscribes to its topic. *)
Definition claims (m : MemberInput) (tp : topic_partition) : Prop :=
  tp ∈ in_owned m ∧ live_claim tps (default ∅ (subs !! in_id m)) tp = true.

#[export] Instance claims_dec m tp : Decision (claims m tp).
Proof. unfold claims. apply _. Defined.

(** The member claims the partition, and every other claim is older. *)
Definition owns (m : MemberInput) (tp : topic_partition) : Prop :=
  m ∈ members ∧ claims m tp ∧
  ∀ m', m' ∈ members → claims m' tp → m' ≠ m → in_generation m' < in_generation m.

Definition claim_of (m : MemberInput) : Z * string := (in_generation m, in_id m).

(** Every entry is the claim of a member, also when a member lists a partition
    more than once. *)
Definition claims_sound (ms : list MemberInput) (best : gmap topic_partition claim) : Prop :=
  ∀ tp c, best !! tp = Some c → ∃ m, m ∈ ms ∧ in_id m = c.1.2 ∧ claims m tp.

Lemma put_claim_sound ms best m tp :
  claims_sound ms best → m ∈ ms → claims m tp →
  claims_sound ms (put_claim best (in_generation m) (in_id m) tp).
Proof.
  intros Hs Hm Hc tp' c. rewrite put_claim_lookup. case_decide as E; [subst|apply Hs].
  unfold claim_step. destruct (best !! tp') as [[[g o] t]|] eqn:Hb; simpl.
  - destruct (g <? in_generation m); [|destruct (in_generation m =? g)];
      intros [= <-]; simpl; eauto; apply (Hs _ _ Hb).
  - intros [= <-]. eauto.
Qed.

Lemma claims_of_sound ms best m :
  claims_sound ms best → m ∈ ms → claims_sound ms (claims_of subs tps best m).
Proof.
  intros Hs Hm. unfold claims_of. cbn zeta.
  assert (∀ l, l ⊆ in_owned m → claims_sound ms (foldl (λ best tp,
    if live_claim tps (default ∅ (subs !! in_id m)) tp
    then put_claim best (in_generation m) (in_id m) tp else best) best l)) as H; [|by apply H].
  induction l as [|x l IH] using rev_ind; intros Hl; [done|]. rewrite foldl_app. simpl.
  specialize (IH ltac:(set_solver)). destruct (live_claim _ _ x) eqn:E; [|done].
  apply put_claim_sound; [done|done|]. split; [set_solver|done].
Qed.

Lemma best_claims_sound : claims_sound members (best_claims members subs tps).
Proof.
  unfold best_claims.
  assert (∀ l, l ⊆ members → claims_sound members (foldl (claims_of subs tps) ∅ l)) as H; [|by apply H].
  induction l as [|m l IH] using rev_ind; intros Hl; [done|]. rewrite foldl_app. simpl.
  apply claims_of_sound; [apply IH|]; set_solver.
Qed.

Lemma claims_of_lookup best m tp :
  NoDup (in_owned m) →
  claims_of subs tps best m !! tp =
  if decide (claims m tp) then claim_step (best !! tp) (claim_of m) else best !! tp.
Proof.
  intros Hn. unfold claims_of. cbn zeta. rewrite claim_list_lookup by done.
  by apply decide_ext.
Qed.

Lemma best_claims_lookup tp :
  Forall (λ m, NoDup (in_owned m)) members →
  best_claims members subs tps !! tp =
  foldl claim_step None (claim_of <$> filter (λ m, claims m tp) members).
Proof.
  unfold best_claims. induction members as [|m ms IH] using rev_ind; intros Hn; [done|].
  apply Forall_app in Hn as [Hn [Hm _]%Forall_cons].
  rewrite foldl_app. simpl. rewrite claims_of_lookup by done.
  rewrite filter_app, fmap_app, foldl_app, <- IH by done.
  destruct (decide (claims m tp)).
  - by rewrite filter_cons_True by done.
  - by rewrite filter_cons_False by done.
Qed.

Lemma singleton_unique {A} (l : list A) x : NoDup l → x ∈ l →
  length l = 1%nat ↔ (∀ y, y ∈ l → y = x).
Proof.
  intros Hn Hx. split.
  - destruct l as [|a [|b l]]; try done. intros _ y ->%list_elem_of_singleton.
    by apply list_elem_of_singleton in Hx.
  - intros Hall. destruct l as [|a [|b l]]; [by apply elem_of_nil in Hx|done|].
    apply NoDup_cons in Hn as [Hn _]. exfalso. apply Hn.
    rewrite (Hall a), <- (Hall b) by set_solver. left.
Qed.

(** The claim that stands alone at the highest generation is an ownership. *)
Lemma best_claims_owner tp id :
  NoDup (in_id <$> members) → Forall (λ m, NoDup (in_owned m)) members →
  (∃ g, best_claims members subs tps !! tp = Some (g, id, false)) ↔
  ∃ m, in_id m = id ∧ owns m tp.
Proof.
  intros Hid Hn. assert (NoDup members) as Hnm by (by eapply NoDup_fmap_1).
  rewrite best_claims_lookup by done.
  set (cs := filter (λ m, claims m tp) members).
  assert (∀ g, length (filter (λ x, x.1 = g) (claim_of <$> cs)) =
               length (filter (λ m, in_generation m = g) cs)) as Hlen.
  { intros g. generalize cs. intros l. induction l as [|m l IH]; [done|]. csimpl.
    rewrite !filter_cons. simpl. case_decide; simpl; by rewrite IH. }
  pose proof (claim_fold (claim_of <$> cs)) as Hf.
  assert (∀ m, m ∈ cs ↔ claims m tp ∧ m ∈ members) as Hcs by (intros m; unfold cs; by rewrite list_elem_of_filter).
  destruct (foldl claim_step None (claim_of <$> cs)) as [[[g o] t]|] eqn:He.
  - destruct Hf as (Hin & Hmax & Ht). rewrite Hlen in Ht.
    apply list_elem_of_fmap in Hin as (m & [= -> ->] & Hm). pose proof Hm as [Hc Hmm]%Hcs.
    assert (∀ m', m' ∈ cs → in_generation m' ≤ in_generation m) as Hle.
    { intros m' Hm'. apply (Hmax (claim_of m')). by apply list_elem_of_fmap_2. }
    rewrite (singleton_unique _ m) in Ht;
      [|by apply NoDup_filter, NoDup_filter|apply list_elem_of_filter; done].
    split.
    + intros (g & [= _ <- ->]). exists m. split; [done|]. split_and!; [done..|].
      intros m' Hm' Hc' Hne. specialize (Hle m' ltac:(by apply Hcs)).
      destruct (decide (in_generation m' = in_generation m)) as [Heq|]; [|lia].
      destruct Hne. apply Ht; [done|]. apply list_elem_of_filter. split; [done|]. by apply Hcs.
    + intros (m' & <- & Hm' & Hc' & Hown).
      assert (m = m') as ->.
      { destruct (decide (m = m')) as [|Hne]; [done|]. exfalso.
        specialize (Hown m Hmm Hc Hne). specialize (Hle m' ltac:(by apply Hcs)). lia. }
      exists (in_generation m'). do 2 f_equal. apply Ht. intros y [Hg [Hy1 Hy2]%Hcs]%list_elem_of_filter.
      destruct (decide (y = m')) as [|Hne]; [done|]. specialize (Hown y Hy2 Hy1 Hne). lia.
  - split; [by intros (? & ?)|]. intros (m & _ & Hm & Hc & _).
    assert (m ∈ cs) as Hin by (by apply Hcs). destruct cs; [by apply elem_of_nil in Hin|done].
Qed.
End claims.

(** ** The current assignment *)

(** One turn of the loop that hands each claim to its owner. *)
Definition give_claim (out : assignment) (e : topic_partition * claim) : assignment :=
  let '(_, owner, tied) := e.2 in if (tied : bool) then out else push_entry owner e.1 out.

Lemma push_entry_elem m tp out m' x :
  x ∈ default [] (push_entry m tp out !! m') ↔ x ∈ default [] (out !! m') ∨ (m' = m ∧ x = tp).
Proof.
  unfold push_entry. destruct (decide (m = m')) as [->|Hne].
  - rewrite lookup_insert_eq. simpl. rewrite elem_of_app, list_elem_of_singleton. naive_solver.
  - rewrite lookup_insert_ne by done. naive_solver.
Qed.

Lemma give_claims_elem es out m x :
  x ∈ default [] (foldl give_claim out es !! m) ↔
  x ∈ default [] (out !! m) ∨ ∃ g, (x, (g, m, false)) ∈ es.
Proof.
  induction es as [|[tp [[g o] t]] es IH] using rev_ind; simpl.
  { split; [auto|]. intros [?|[g H]]; [done|]. by apply elem_of_nil in H. }
  rewrite foldl_app. simpl. unfold give_claim at 1. simpl.
  setoid_rewrite elem_of_app. setoid_rewrite list_elem_of_singleton.
  destruct t; [|rewrite push_entry_elem]; rewrite IH; naive_solver.
Qed.

Definition untied (e : topic_partition * claim) : Prop := e.2.2 = false.

#[global] Instance untied_dec e : Decision (untied e).
Proof. unfold untied. apply _. Defined.

Lemma give_claims_assigned ids es out :
  dom out = list_to_set ids → (∀ e, e ∈ es → e.2.1.2 ∈ ids) →
  dom (foldl give_claim out es) = list_to_set ids ∧
  assigned (foldl give_claim out es) ≡ₚ assigned out ++ (filter untied es).*1.
Proof.
  intros Hd. induction es as [|[tp [[g o] t]] es IH] using rev_ind; intros Hes; simpl.
  { by rewrite app_nil_r. }
  destruct IH as [Hd' Hp]; [intros e He; apply Hes, elem_of_app; by left|].
  rewrite foldl_app, filter_app, fmap_app. simpl. unfold give_claim at 1 3. simpl. destruct t.
  - rewrite filter_cons_False by done. simpl. by rewrite app_nil_r.
  - rewrite filter_cons_True by done. simpl.
    assert (is_Some (foldl give_claim out es !! o)).
    { apply elem_of_dom. rewrite Hd'. apply elem_of_list_to_set, (Hes (tp, (g, o, false))).
      apply elem_of_app. right. by left. }
    rewrite push_entry_slot by done. rewrite push_slot_dom, push_slot_assigned, Hp by done.
    split; [done|]. by rewrite <- (assoc_L (++)).
Qed.

Lemma sort_values_default out m : default [] (sort_values out !! m) = sort_by tp_le (default [] (out !! m)).
Proof. unfold sort_values. rewrite lookup_fmap. by destruct (out !! m). Qed.

Section current.
Context (members : list MemberInput) (subs : gmap string (gset string)) (tps : gmap string Z).

Let current := prepopulate_current_assignments members subs tps.

Lemma prepopulate_claim m x :
  x ∈ default [] (current !! m) ↔ ∃ g, best_claims members subs tps !! x = Some (g, m, false).
Proof.
  unfold current, prepopulate_current_assignments. cbn zeta.
  rewrite sort_values_default, elem_of_sort_by.
  rewrite (give_claims_elem (map_to_list (best_claims members subs tps))).
  setoid_rewrite elem_of_map_to_list.
  assert (((λ m, (in_id m, [])) <$> members) =
          ((λ id, (id, @nil topic_partition)) <$> (in_id <$> members))) as ->
    by (by rewrite <- list_fmap_compose).
  rewrite collect_nil_lookup. split; [|auto]. intros [H|?]; [by apply elem_of_nil in H|done].
Qed.

Lemma prepopulate_elem m x :
  NoDup (in_id <$> members) → Forall (λ m, NoDup (in_owned m)) members →
  x ∈ default [] (current !! m) ↔ ∃ mem, in_id mem = m ∧ owns members subs tps mem x.
Proof. intros Hid Hown. by rewrite prepopulate_claim, best_claims_owner. Qed.

Lemma prepopulate_sound m x :
  x ∈ default [] (current !! m) → ∃ mem, mem ∈ members ∧ in_id mem = m ∧ claims subs tps mem x.
Proof.
  rewrite prepopulate_claim. intros [g Hg]. by apply best_claims_sound in Hg.
Qed.

Lemma prepopulate_slots :
  dom current = list_to_set (in_id <$> members) ∧ NoDup (assigned current).
Proof.
  unfold current, prepopulate_current_assignments. cbn zeta.
  destruct (give_claims_assigned (in_id <$> members) (map_to_list (best_claims members subs tps))
    (collect_map ((λ m, (in_id m, [])) <$> members))) as [Hd Hp].
  - rewrite collect_map_dom, <- list_fmap_compose. done.
  - intros [tp c] H%elem_of_map_to_list. simpl.
    apply best_claims_sound in H as (m & Hm & <- & _). by apply list_elem_of_fmap_2.
  - split.
    + unfold sort_values. rewrite dom_fmap_L. apply Hd.
    + rewrite sort_values_assigned. unfold give_claim in Hp. rewrite Hp.
      assert (((λ m, (in_id m, [])) <$> members) =
              ((λ id, (id, @nil topic_partition)) <$> (in_id <$> members))) as ->
        by (by rewrite <- list_fmap_compose).
      rewrite collect_nil_assigned. simpl.
      eapply (sublist_NoDup _ (map_to_list (best_claims members subs tps)).*1);
        [apply NoDup_fst_map_to_list|].
      apply fmap_sublist, sublist_filter.
Qed.

End current.

(** ** The previous owners *)

Lemma sorted_map_perm {V} (m : gmap string V) : sorted_map m ≡ₚ map_to_list m.
Proof. apply sort_by_perm. Qed.

(** The pairs [owners_of] inserts. *)
Definition owner_pairs (es : list (string * list topic_partition)) : list (topic_partition * string) :=
  concat ((λ e : string * list topic_partition, (λ tp, (tp, e.1)) <$> e.2) <$> es).

Lemma owner_pairs_fst es : (owner_pairs es).*1 = concat es.*2.
Proof.
  unfold owner_pairs. induction es as [|[m l] es IH]; [done|]. csimpl.
  rewrite fmap_app, IH, <- list_fmap_compose. f_equal. apply list_fmap_id.
Qed.

Lemma owners_of_pairs current :
  owners_of current = foldl (λ m e, <[e.1 := e.2]> m) ∅ (owner_pairs (sorted_map current)).
Proof.
  unfold owners_of, owner_pairs. generalize (∅ : gmap topic_partition string).
  induction (sorted_map current) as [|[m l] es IH]; intros om; [done|]. csimpl.
  rewrite IH, foldl_app. f_equal. revert om. induction l as [|tp l IHl]; intros om; [done|].
  simpl. apply IHl.
Qed.

Lemma assigned_sorted_map out : concat (sorted_map out).*2 ≡ₚ assigned out.
Proof. unfold assigned. by rewrite sorted_map_perm. Qed.

Lemma elem_of_owner_pairs out tp o :
  (tp, o) ∈ owner_pairs (sorted_map out) ↔ tp ∈ default [] (out !! o).
Proof.
  unfold owner_pairs. rewrite elem_of_concat. split.
  - intros (l & Hl & Htp). apply list_elem_of_fmap in Hl as ([m k] & -> & Hm).
    apply list_elem_of_fmap in Htp as (tp' & [= -> ->] & Htp').
    rewrite sorted_map_perm, elem_of_map_to_list in Hm. by rewrite Hm.
  - destruct (out !! o) as [k|] eqn:Hk; simpl; [|intros H; by apply elem_of_nil in H]. intros Htp.
    exists ((λ tp, (tp, o)) <$> k). split.
    + apply list_elem_of_fmap. exists (o, k). split; [done|].
      by rewrite sorted_map_perm, elem_of_map_to_list.
    + apply list_elem_of_fmap. by exists tp.
Qed.

Lemma owners_of_lookup current tp o :
  NoDup (assigned current) → owners_of current !! tp = Some o ↔ tp ∈ default [] (current !! o).
Proof.
  intros Hn. rewrite owners_of_pairs, foldl_insert_lookup, elem_of_owner_pairs; [done|].
  by rewrite owner_pairs_fst, assigned_sorted_map.
Qed.
