(* ===== verification/StickyGeneral.v ===== *)
(** * The general sticky algorithm

    Every partition is placed with a subscriber, the balance pass only moves
    partitions between subscribers, it ends within its move budget, and when it
    ends on its own no single move would even out the loads. *)

From S2P Require Import Prelude Bytes Assignor Sticky StickyProofs StickyOwners.

(** ** The subscribers of each topic *)

Lemma elem_of_sorted_set (s : gset string) x : x ∈ sorted_set s ↔ x ∈ s.
Proof. unfold sorted_set. by rewrite elem_of_sort_by, elem_of_elements. Qed.

Lemma add_subscriber_lookup id tps index t t' :
  add_subscriber id tps index t !! t' =
  if decide (t = t' ∧ is_Some (tps !! t)) then Some (default ∅ (index !! t) ∪ {[id]})
  else index !! t'.
Proof.
  unfold add_subscriber. destruct (tps !! t) as [c|].
  - destruct (decide (t = t')) as [->|Hne].
    + rewrite lookup_insert_eq, decide_True; [done|]. eauto.
    + rewrite lookup_insert_ne, decide_False by naive_solver. done.
  - rewrite decide_False; [done|]. intros [_ [? ?]]. done.
Qed.

Section subscribers.
Context (tps : gmap string Z).

(** The index holds the given pairs of topic and subscriber, no empty set. *)
Definition index_of (R : string → string → Prop) (index : gmap string (gset string)) : Prop :=
  (∀ t id, id ∈ default ∅ (index !! t) ↔ R t id ∧ is_Some (tps !! t)) ∧
  ∀ t s, index !! t = Some s → s ≠ ∅.

Lemma add_subscriber_index R index id t :
  index_of R index → index_of (λ t' id', R t' id' ∨ (t' = t ∧ id' = id)) (add_subscriber id tps index t).
Proof.
  intros [Hi Hne]. split.
  - intros t' id'. rewrite add_subscriber_lookup. case_decide as H.
    + destruct H as [-> Hs]. simpl. rewrite elem_of_union, elem_of_singleton, Hi. naive_solver.
    + rewrite Hi. naive_solver.
  - intros t' s. rewrite add_subscriber_lookup. case_decide; [|apply Hne].
    intros [= <-]. set_solver.
Qed.

Lemma add_topics_index R index id ts :
  index_of R index →
  index_of (λ t' id', R t' id' ∨ (t' ∈ ts ∧ id' = id)) (foldl (add_subscriber id tps) index ts).
Proof.
  revert R index. induction ts as [|t ts IH]; intros R index Hi; simpl.
  - destruct Hi as [Hi Hne]. split; [|done]. intros t id'. rewrite Hi, elem_of_nil. tauto.
  - destruct (IH _ _ (add_subscriber_index R index id t Hi)) as [H1 H2]. split; [|done].
    intros t' id'. rewrite H1, elem_of_cons. tauto.
Qed.

Lemma add_members_index R index es :
  index_of R index →
  index_of (λ t id, R t id ∨ ∃ ts : gset string, (id, ts) ∈ es ∧ t ∈ ts)
    (foldl (λ index e, foldl (add_subscriber e.1 tps) index (sorted_set e.2)) index es).
Proof.
  revert R index. induction es as [|[id ts] es IH]; intros R index Hi; simpl.
  - destruct Hi as [Hi Hne]. split; [|done]. intros t id'. rewrite Hi.
    setoid_rewrite elem_of_nil. naive_solver.
  - destruct (IH _ _ (add_topics_index R index id (sorted_set ts) Hi)) as [H1 H2]. split; [|done].
    intros t' id'. rewrite H1, elem_of_sorted_set. setoid_rewrite elem_of_cons. naive_solver.
Qed.

Lemma subscribers_index subs :
  index_of (λ t id, t ∈ default ∅ (subs !! id)) (subscribers_per_topic subs tps).
Proof.
  assert (index_of (λ _ _, False) ∅) as H0.
  { split; [|done]. intros t id. rewrite lookup_empty. simpl. set_solver. }
  destruct (add_members_index _ _ (sorted_map subs) H0) as [H1 H2]. split; [|done].
  intros t id. unfold subscribers_per_topic. rewrite H1. f_equiv.
  setoid_rewrite sorted_map_perm. setoid_rewrite elem_of_map_to_list. split.
  - intros [[]|(ts & -> & Ht)]. done.
  - destruct (subs !! id) as [ts|]; simpl; [eauto|set_solver].
Qed.
End subscribers.

(** ** The partitions to place *)

Lemma NoDup_ranges (f : string → Z) (ts : list string) :
  NoDup ts → NoDup (concat ((λ t, topic_range t 0 (f t)) <$> ts)).
Proof.
  induction 1 as [|t ts Ht Hn IH]; [constructor|]. csimpl. apply NoDup_app.
  split_and!; [apply NoDup_topic_range| |done]. intros tp [<- _]%elem_of_topic_range Hin.
  apply elem_of_concat in Hin as (l & Hl & Htp). apply list_elem_of_fmap in Hl as (t & -> & Hin).
  apply elem_of_topic_range in Htp as [<- _]. done.
Qed.

(** The existing partitions. *)
Definition exists_tp (tps : gmap string Z) (tp : topic_partition) : Prop :=
  ∃ count, tps !! tp.1 = Some count ∧ 0 ≤ tp.2 < count.

Definition range_of (tps : gmap string Z) (t : string) : list topic_partition :=
  match tps !! t with Some n => topic_range t 0 (Z.max n 0) | None => [] end.

Lemma elem_of_range_of tps t tp : tp ∈ range_of tps t ↔ tp.1 = t ∧ exists_tp tps tp.
Proof.
  unfold range_of, exists_tp. destruct (tps !! t) as [n|] eqn:Ht.
  - rewrite elem_of_topic_range. split.
    + intros [<- ?]. split; [done|]. exists n. split; [done|lia].
    + intros [<- (c & Hc & ?)]. simplify_eq. split; [done|lia].
  - split; [intros H; by apply elem_of_nil in H|]. intros [<- (c & Hc & _)]. congruence.
Qed.

Lemma ranges_of tps ts :
  NoDup ts →
  NoDup (concat (range_of tps <$> ts)) ∧
  ∀ tp, tp ∈ concat (range_of tps <$> ts) ↔ exists_tp tps tp ∧ tp.1 ∈ ts.
Proof.
  intros Hn. split.
  - assert (range_of tps <$> ts =
            (λ t, topic_range t 0 (match tps !! t with Some n => Z.max n 0 | None => 0 end)) <$> ts)
      as ->; [|by apply NoDup_ranges].
    apply list_fmap_ext. intros i t _. unfold range_of. by destruct (tps !! t).
  - intros tp. rewrite elem_of_concat. setoid_rewrite list_elem_of_fmap. split.
    + intros (l & (t & -> & Ht) & [<- ?]%elem_of_range_of). done.
    + intros [He Ht]. exists (range_of tps tp.1). split; [eauto|]. by apply elem_of_range_of.
Qed.

Lemma sorted_partitions_ok index tps :
  NoDup (sorted_partitions index tps) ∧
  ∀ tp, tp ∈ sorted_partitions index tps ↔ exists_tp tps tp ∧ is_Some (index !! tp.1).
Proof.
  assert (sorted_partitions index tps ≡ₚ concat (range_of tps <$> (sorted_map index).*1)) as Hp.
  { unfold sorted_partitions. rewrite sort_by_perm, <- list_fmap_compose. done. }
  destruct (ranges_of tps (sorted_map index).*1) as [Hn He].
  { rewrite sorted_map_perm. apply NoDup_fst_map_to_list. }
  split; [by rewrite Hp|]. intros tp. rewrite Hp, He, sorted_map_perm. f_equiv.
  rewrite list_elem_of_fmap. split.
  - intros ([t s] & Ht & Hin). rewrite elem_of_map_to_list in Hin. rewrite Ht. eauto.
  - intros [s Hs]. exists (tp.1, s). by rewrite elem_of_map_to_list.
Qed.

(** ** Placing *)

(** The least loaded subscriber, when there is a subscriber at all. *)
Lemma least_loaded_spec subscribed out :
  match least_loaded subscribed out with
  | None => subscribed = ∅
  | Some (l, id) => id ∈ subscribed ∧ l = load out id ∧ ∀ x, x ∈ subscribed → (l ≤ load out x)%nat
  end.
Proof.
  unfold least_loaded.
  assert (∀ l, match foldl (λ (best : option (nat * string)) id, let l := load out id in
      match best with
      | None => Some (l, id)
      | Some (bl, bid) => if (l <? bl)%nat then Some (l, id) else best
      end) None l with
    | None => l = []
    | Some (n, id) => id ∈ l ∧ n = load out id ∧ ∀ x, x ∈ l → (n ≤ load out x)%nat end) as H.
  { induction l as [|id l IH] using rev_ind; [done|]. rewrite foldl_app. simpl.
    destruct (foldl _ None l) as [[n b]|].
    - destruct IH as (Hb & -> & Hmin). destruct (Nat.ltb_spec (load out id) (load out b)) as [Hlt|Hge];
        (split_and!; [apply elem_of_app; rewrite ?list_elem_of_singleton; by auto|done|]);
        intros x [Hx| ->%list_elem_of_singleton]%elem_of_app; try specialize (Hmin x Hx); lia.
    - subst l. simpl. split_and!; [by left|done|]. intros x ->%list_elem_of_singleton. lia. }
  specialize (H (sorted_set subscribed)).
  destruct (foldl _ None (sorted_set subscribed)) as [[n id]|].
  - by setoid_rewrite elem_of_sorted_set in H.
  - apply leibniz_equiv. intros x. rewrite <- elem_of_sorted_set, H. set_solver.
Qed.

(** The chosen owner subscribes, and no subscriber holds fewer partitions. *)
Lemma choose_owner_spec tp subscribed prev_owner out :
  subscribed ≠ ∅ →
  ∃ m, choose_assignment_owner tp subscribed prev_owner out = Some m ∧ m ∈ subscribed ∧
    ∀ x, x ∈ subscribed → (load out m ≤ load out x)%nat.
Proof.
  intros Hne. unfold choose_assignment_owner, pick_least_loaded.
  pose proof (least_loaded_spec subscribed out) as Hl.
  destruct (least_loaded subscribed out) as [[n id]|]; [|done].
  destruct Hl as (Hid & -> & Hmin). simpl. destruct (prev_owner !! tp) as [prev|]; [|by eauto].
  case_decide; [|by eauto]. destruct (Nat.leb_spec (load out prev) (load out id)); [|by eauto].
  exists prev. split_and!; [done..|]. intros x Hx. specialize (Hmin x Hx). lia.
Qed.

Section general.
Context (ids : list string) (subs : gmap string (gset string)) (tps : gmap string Z).
Context (Hids : dom subs = list_to_set ids).

(** The member subscribes to the partition's topic. *)
Definition allowed (m : string) (tp : topic_partition) : Prop := tp.1 ∈ default ∅ (subs !! m).

Lemma allowed_id m tp : allowed m tp → m ∈ ids.
Proof.
  unfold allowed. destruct (subs !! m) as [s|] eqn:Hs; simpl; [|set_solver]. intros _.
  assert (m ∈ dom subs) as H by (by apply elem_of_dom). rewrite Hids in H.
  by apply elem_of_list_to_set in H.
Qed.

Lemma push_entry_allowed out m tp :
  slots_for ids allowed out → allowed m tp →
  slots_for ids allowed (push_entry m tp out) ∧ assigned (push_entry m tp out) ≡ₚ tp :: assigned out.
Proof.
  intros Hs Ha. assert (is_Some (out !! m)) by (eapply slots_for_slot; [done|by eapply allowed_id]).
  rewrite push_entry_slot by done. split.
  - apply slots_for_push; [done|]. by intros ? ->%list_elem_of_singleton.
  - rewrite push_slot_assigned by done. by rewrite Permutation_app_comm.
Qed.

Lemma place_ok prev_owner out tp :
  let index := subscribers_per_topic subs tps in
  slots_for ids allowed out → is_Some (index !! tp.1) →
  slots_for ids allowed (place index prev_owner out tp) ∧
  assigned (place index prev_owner out tp) ≡ₚ tp :: assigned out.
Proof.
  intros index Hs [s Hi]. destruct (subscribers_index tps subs) as [Hsub Hne].
  destruct (choose_owner_spec tp s prev_owner out) as (m & Hm & Hms & _); [by eapply Hne|].
  unfold place. rewrite Hi. simpl. rewrite Hm. apply push_entry_allowed; [done|].
  apply (Hsub tp.1 m). fold index. by rewrite Hi.
Qed.

Lemma place_all prev_owner parts out :
  let index := subscribers_per_topic subs tps in
  slots_for ids allowed out → (∀ tp, tp ∈ parts → is_Some (index !! tp.1)) →
  slots_for ids allowed (foldl (place index prev_owner) out parts) ∧
  assigned (foldl (place index prev_owner) out parts) ≡ₚ parts ++ assigned out.
Proof.
  intros index. revert out. induction parts as [|tp parts IH]; intros out Hs Hp; [done|]. simpl.
  destruct (place_ok prev_owner out tp Hs) as [Hs' Ha']; [apply Hp; left|].
  destruct (IH (place index prev_owner out tp) Hs') as [H1 H2]; [intros; apply Hp; by right|].
  split; [done|]. rewrite H2. fold index in Ha'. rewrite Ha'. by rewrite Permutation_middle.
Qed.

(** ** Moving *)

Lemma remove_first_perm tp l : tp ∈ l → l ≡ₚ tp :: remove_first tp l.
Proof.
  induction l as [|x l IH]; intros Hx; [by apply elem_of_nil in Hx|]. simpl.
  case_decide as E; [by rewrite E|]. apply elem_of_cons in Hx as [?|Hx]; [done|].
  etrans; [apply perm_skip, IH, Hx|constructor].
Qed.

Lemma elem_of_remove_first x tp l : x ∈ remove_first tp l → x ∈ l.
Proof. induction l as [|y l IH]; simpl; [done|]. case_decide; set_solver. Qed.

Lemma elem_of_remove_first_ne x tp l : x ≠ tp → x ∈ l → x ∈ remove_first tp l.
Proof. intros Hne. induction l as [|y l IH]; simpl; [done|]. case_decide; set_solver. Qed.

Lemma move_ok out tp owner target :
  slots_for ids allowed out → tp ∈ default [] (out !! owner) → allowed target tp →
  slots_for ids allowed (move tp owner target out) ∧ assigned (move tp owner target out) ≡ₚ assigned out ∧
  ∀ x m, x ≠ tp → x ∈ default [] (out !! m) → x ∈ default [] (move tp owner target out !! m).
Proof.
  intros [Hd HP] Ho Ht. destruct (out !! owner) as [l|] eqn:Hl; simpl in Ho; [|by apply elem_of_nil in Ho].
  unfold move. set (out' := alter (remove_first tp) owner out).
  assert (slots_for ids allowed out') as Hs'.
  { split; [unfold out'; by rewrite dom_alter_L|]. intros m k x. unfold out'.
    destruct (decide (m = owner)) as [->|Hne].
    - rewrite lookup_alter_eq, Hl. intros [= <-] Hx%elem_of_remove_first. eauto.
    - rewrite lookup_alter_ne by done. eauto. }
  destruct (push_entry_allowed out' target tp Hs' Ht) as [Hs'' Ha]. split_and!; [done| |].
  - rewrite Ha. rewrite (assigned_lookup owner (remove_first tp l) out')
      by (unfold out'; by rewrite lookup_alter_eq, Hl).
    rewrite (assigned_lookup owner l out) by done. unfold out'. rewrite delete_alter_eq.
    rewrite (remove_first_perm tp l) at 2 by done. done.
  - intros x m Hx Hm. apply push_entry_elem. left. unfold out'.
    destruct (decide (m = owner)) as [->|Hne].
    + rewrite lookup_alter_eq. rewrite Hl in *. simpl in *. by apply elem_of_remove_first_ne.
    + by rewrite lookup_alter_ne.
Qed.

(** ** The balance pass *)

Lemma elem_of_subscribers_of t m : m ∈ subscribers_of ids subs t ↔ t ∈ default ∅ (subs !! m) ∧ m ∈ ids.
Proof. unfold subscribers_of. by rewrite list_elem_of_filter. Qed.

Lemma move_candidate_spec out n subscribers :
  match move_candidate out n subscribers with
  | Some m => m ∈ subscribers ∧ (load out m + 1 < n)%nat
  | None => ∀ m, m ∈ subscribers → (n ≤ load out m + 1)%nat
  end.
Proof.
  unfold move_candidate. set (pick := λ best id, _).
  assert (∀ l best, match foldl pick best l with
    | Some m => best = Some m ∨ m ∈ l | None => best = None ∧ l = [] end) as H.
  { intros l. induction l as [|x l IH]; intros best; simpl; [by destruct best; auto|].
    specialize (IH (pick best x)). destruct (foldl pick (pick best x) l) as [m|].
    - destruct IH as [IH|?]; [|right; by right]. unfold pick in IH.
      destruct best; [case_match|]; simplify_eq; auto; right; left.
    - destruct IH as [IH _]. unfold pick in IH. destruct best; [case_match|]; done. }
  specialize (H (filter (λ id, (load out id + 1 < n)%nat) subscribers) None).
  destruct (foldl pick None _) as [m|].
  - destruct H as [?|H]; [done|]. by apply list_elem_of_filter in H as [? ?].
  - destruct H as [_ H]. intros m Hm. destruct (decide (load out m + 1 < n)%nat); [|lia].
    assert (m ∈ filter (λ id, (load out id + 1 < n)%nat) subscribers) as Hf
      by (by apply list_elem_of_filter). rewrite H in Hf. by apply elem_of_nil in Hf.
Qed.

(** A move goes to a subscriber that holds at least two fewer; when there is
    no move, no subscriber holds that few. *)
Lemma move_target_spec subscribers prev_owner out tp owner :
  match move_target subscribers prev_owner out tp owner with
  | Some m => m ∈ subscribers ∧ (load out m + 1 < load out owner)%nat
  | None => ∀ m, m ∈ subscribers → (load out owner ≤ load out m + 1)%nat
  end.
Proof.
  unfold move_target. pose proof (move_candidate_spec out (load out owner) subscribers) as Hc.
  destruct (prev_owner !! tp) as [previous|]; [|done].
  destruct (bool_decide (previous ≠ owner)) eqn:H1; [|done].
  destruct (bool_decide (previous ∈ subscribers)) eqn:H2; [|done]. simpl.
  destruct (Nat.ltb_spec (load out previous + 1) (load out owner)); [|done].
  apply bool_decide_eq_true in H2. done.
Qed.

Context (prev_owner : gmap topic_partition string) (max_iters : Z).

Notation turn := (balance_one ids subs prev_owner max_iters).

(** What a turn keeps: the partitions stay with subscribers, and the entries
    of the snapshot still to come stay true. *)
Definition pass_inv (parts : list topic_partition) (s : Balancing)
    (es : list (topic_partition * string)) : Prop :=
  slots_for ids allowed (ba_assignment s) ∧ assigned (ba_assignment s) ≡ₚ parts ∧ NoDup es.*1 ∧
  ∀ e, e ∈ es → e.1 ∈ default [] (ba_assignment s !! e.2).

Lemma balance_one_inv parts s e es : pass_inv parts s (e :: es) → pass_inv parts (turn s e) es.
Proof.
  destruct e as [tp owner]. intros (Hs & Hp & Hn & He). csimpl in Hn.
  apply NoDup_cons in Hn as [Hfresh Hn].
  assert (pass_inv parts s es) as Hkeep.
  { split_and!; [done..|]. intros e Hin. apply He. by right. }
  unfold balance_one. destruct (ba_stopped s); [done|]. destruct (max_iters <=? ba_moves s); [done|].
  simpl. destruct (_ <=? 1)%nat; [done|].
  pose proof (move_target_spec (subscribers_of ids subs tp.1) prev_owner (ba_assignment s) tp owner)
    as Ht.
  destruct (move_target _ _ _ _ _) as [target|]; [|done].
  destruct Ht as [[Ht _]%elem_of_subscribers_of _].
  destruct (move_ok (ba_assignment s) tp owner target Hs) as (Hs' & Ha & Hother);
    [apply (He (tp, owner)); left|done|].
  split_and!; simpl; [done|by rewrite Ha|done|].
  intros [x m] Hin. simpl. apply Hother; [|apply (He (x, m)); by right].
  intros ->. apply Hfresh. apply list_elem_of_fmap. by exists (tp, m).
Qed.

Lemma balance_pass_inv parts es s : pass_inv parts s es → pass_inv parts (foldl turn s es) [].
Proof.
  revert s. induction es as [|e es IH]; intros s Hs; [done|]. simpl. by apply IH, balance_one_inv.
Qed.

(** The moves a pass makes, and what one without a move shows. *)
Record pass_moves (s s' : Balancing) : Prop := {
  pm_mono : ba_moves s ≤ ba_moves s';
  pm_cap : ba_moves s ≤ max_iters → ba_moves s' ≤ max_iters;
  pm_more : ba_modified s = false → ba_modified s' = true → ba_moves s < ba_moves s';
  pm_full : ba_stopped s = false → ba_stopped s' = true → max_iters ≤ ba_moves s';
}.

Lemma balance_one_moves s e : pass_moves s (turn s e) ∧ (ba_modified s = true → ba_modified (turn s e) = true).
Proof.
  unfold balance_one. destruct (ba_stopped s) eqn:Hst; [by split; [split; intros; lia || congruence|]|].
  destruct (Z.leb_spec max_iters (ba_moves s)).
  { split; [split; simpl; intros; lia || congruence|done]. }
  simpl. destruct (_ <=? 1)%nat; [by split; [split; intros; lia || congruence|]|].
  destruct (move_target _ _ _ _ _); [|by split; [split; intros; lia || congruence|]].
  split; [split; simpl; intros; lia || congruence|done].
Qed.

Lemma balance_pass_moves es s :
  pass_moves s (foldl turn s es) ∧ (ba_modified s = true → ba_modified (foldl turn s es) = true).
Proof.
  revert s. induction es as [|e es IH]; intros s; simpl.
  { split; [split; intros; lia || congruence|done]. }
  destruct (balance_one_moves s e) as [[H1 H2 H3 H4] H5].
  destruct (IH (turn s e)) as [[I1 I2 I3 I4] I5]. split; [split|auto].
  - lia.
  - intros. apply I2, H2. done.
  - intros Hf Ht. destruct (ba_modified (turn s e)) eqn:Hm.
    + specialize (H3 Hf eq_refl). lia.
    + specialize (I3 eq_refl Ht). lia.
  - intros Hf Ht. destruct (ba_stopped (turn s e)) eqn:Hm; [|by apply I4].
    specialize (H4 Hf eq_refl). lia.
Qed.

(** A pass that neither moved nor stopped found every load balanced. *)
Lemma balance_pass_quiet es s :
  ba_stopped (foldl turn s es) = false → ba_modified s = false →
  ba_modified (foldl turn s es) = false →
  foldl turn s es = s ∧
  ∀ e m, e ∈ es → m ∈ subscribers_of ids subs e.1.1 → (1 < length (subscribers_of ids subs e.1.1))%nat →
    (load (ba_assignment s) e.2 ≤ load (ba_assignment s) m + 1)%nat.
Proof.
  revert s. induction es as [|[tp owner] es IH]; intros s Hst Hm Hm'; simpl in *.
  { split; [done|]. intros e m H. by apply elem_of_nil in H. }
  assert (∀ s, ba_stopped s = true → foldl turn s es = s) as Hstopped.
  { intros s' H'. clear -H'. induction es as [|e es IH]; [done|]. simpl.
    unfold balance_one at 2. by rewrite H'. }
  assert (turn s (tp, owner) = s ∧ (∀ m, m ∈ subscribers_of ids subs tp.1 →
    (1 < length (subscribers_of ids subs tp.1))%nat →
    (load (ba_assignment s) owner ≤ load (ba_assignment s) m + 1)%nat)) as [Ht Hl].
  { pose proof (balance_pass_moves es (turn s (tp, owner))) as [_ Hmod].
    revert Hst Hm' Hmod. unfold balance_one. simpl. destruct (ba_stopped s) eqn:Hs.
    { intros Hst. rewrite Hstopped in Hst by done. congruence. }
    destruct (max_iters <=? ba_moves s).
    { intros Hst. rewrite Hstopped in Hst by done. done. }
    destruct (Nat.leb_spec (length (subscribers_of ids subs tp.1)) 1).
    { intros _ _ _. split; [done|]. intros. lia. }
    pose proof (move_target_spec (subscribers_of ids subs tp.1) prev_owner (ba_assignment s) tp owner)
      as Ht.
    destruct (move_target _ _ _ _ _) as [target|].
    - intros _ Hm' Hmod. rewrite Hmod in Hm' by done. done.
    - intros _ _ _. split; [done|]. auto. }
  rewrite Ht in *. destruct (IH s) as [IH1 IH2]; [done..|]. split; [done|].
  intros e m [->|Hin]%elem_of_cons; [apply Hl|by apply IH2].
Qed.

(** ** The loop *)

Lemma snapshot_perm out : snapshot out ≡ₚ owner_pairs (sorted_map out).
Proof. apply sort_by_perm. Qed.

Lemma elem_of_snapshot out tp m : (tp, m) ∈ snapshot out ↔ tp ∈ default [] (out !! m).
Proof. rewrite snapshot_perm. apply elem_of_owner_pairs. Qed.

Lemma snapshot_inv parts s :
  slots_for ids allowed (ba_assignment s) → assigned (ba_assignment s) ≡ₚ parts → NoDup parts →
  pass_inv parts s (snapshot (ba_assignment s)).
Proof.
  intros Hs Hp Hn. split_and!; [done|done| |].
  - by rewrite snapshot_perm, owner_pairs_fst, assigned_sorted_map, Hp.
  - intros [tp m]. apply elem_of_snapshot.
Qed.

(** No single move to a subscriber would even out two loads. *)
Definition balanced (out : assignment) : Prop :=
  ∀ m tp m', tp ∈ default [] (out !! m) → m' ∈ ids → allowed m' tp →
    (load out m ≤ load out m' + 1)%nat.

(** The outcome of the balance loop: the same partitions, with subscribers,
    and balanced unless the move budget is used up. *)
Record loop_result (parts : list topic_partition) (s : Balancing) : Prop := {
  lr_slots : slots_for ids allowed (ba_assignment s);
  lr_parts : assigned (ba_assignment s) ≡ₚ parts;
  lr_cap : ba_moves s ≤ max_iters;
  lr_end : if ba_stopped s then ba_moves s = max_iters else balanced (ba_assignment s);
}.

Lemma quiet_balanced parts out moves :
  NoDup ids → slots_for ids allowed out → assigned out ≡ₚ parts →
  let s := foldl turn (mkBalancing out moves false false) (snapshot out) in
  ba_stopped s = false → ba_modified s = false → balanced (ba_assignment s).
Proof.
  intros Hnd [Hd HP] Hp s Hst Hm.
  destruct (balance_pass_quiet (snapshot out) (mkBalancing out moves false false) Hst eq_refl Hm)
    as [Heq Hq].
  unfold s. rewrite Heq. simpl in *. intros m tp m' Htp Hm' Ha.
  destruct (decide (m = m')) as [->|Hne]; [lia|].
  assert (m ∈ ids ∧ allowed m tp) as [Hmi Hma].
  { destruct (out !! m) as [l|] eqn:Hl; simpl in Htp; [|by apply elem_of_nil in Htp].
    split; [|eauto]. by eapply allowed_id, HP. }
  apply (Hq (tp, m) m'); [by apply elem_of_snapshot|by apply elem_of_subscribers_of|]. simpl.
  assert (m ∈ subscribers_of ids subs tp.1) as H1 by (by apply elem_of_subscribers_of).
  assert (m' ∈ subscribers_of ids subs tp.1) as H2 by (by apply elem_of_subscribers_of).
  destruct (subscribers_of ids subs tp.1) as [|a [|b l]]; simpl; [by apply elem_of_nil in H1| |lia].
  apply list_elem_of_singleton in H1, H2. congruence.
Qed.

Lemma balance_loop_ok parts fuel moves out :
  NoDup ids → NoDup parts → slots_for ids allowed out → assigned out ≡ₚ parts →
  moves ≤ max_iters → max_iters - moves + 1 ≤ Z.of_nat fuel →
  ∃ s, balance_loop fuel ids subs prev_owner max_iters moves out = Some s ∧ loop_result parts s.
Proof.
  intros Hnd Hnp. revert moves out. induction fuel as [|fuel IH]; intros moves out Hs Hp Hcap Hfuel; [lia|].
  cbn [balance_loop]. set (s0 := mkBalancing out moves false false).
  destruct (balance_pass_moves (snapshot out) s0) as [[M1 M2 M3 M4] _].
  destruct (balance_pass_inv parts (snapshot out) s0) as (Hs' & Hp' & _ & _);
    [by apply snapshot_inv|].
  pose proof (quiet_balanced parts out moves Hnd Hs Hp) as Hq. fold s0 in Hq. cbn zeta in Hq.
  set (s := foldl turn s0 (snapshot out)) in *. cbn zeta. fold s. simpl in M1, M2, M3, M4.
  destruct (ba_stopped s) eqn:Hst; simpl.
  - exists s. split; [done|]. split; [done|done|auto|]. rewrite Hst.
    specialize (M4 eq_refl eq_refl). specialize (M2 Hcap). lia.
  - destruct (ba_modified s) eqn:Hm; simpl.
    + apply IH; [done|done|auto|]. specialize (M3 eq_refl eq_refl). lia.
    + exists s. split; [done|]. split; [done|done|auto|]. rewrite Hst. auto.
Qed.
End general.

(** ** The whole algorithm *)

(** What both algorithms promise to the assignors: a slot per member, only
    subscribed partitions in it, and every wanted partition exactly once. *)
Definition raw_valid (ids : list string) (subs : gmap string (gset string)) (tps : gmap string Z)
    (raw : assignment) : Prop :=
  slots_for ids (allowed subs) raw ∧ NoDup (assigned raw) ∧
  ∀ tp, tp ∈ assigned raw ↔ exists_tp tps tp ∧ ∃ m, allowed subs m tp.

Lemma balanced_sort ids subs out : balanced ids subs out → balanced ids subs (sort_values out).
Proof.
  unfold balanced, load. intros Hb m tp m'. rewrite !sort_values_default, !length_sort_by.
  rewrite elem_of_sort_by. apply Hb.
Qed.

Lemma collect_nil_slots ids P :
  slots_for ids P (collect_map ((λ id, (id, @nil topic_partition)) <$> ids)).
Proof.
  split; [apply collect_nil_dom|]. intros m l tp Hl Htp.
  pose proof (collect_nil_lookup ids m) as H. rewrite Hl in H. simpl in H. subst.
  by apply elem_of_nil in Htp.
Qed.

(** The balance loop of a run of the general algorithm. *)
Definition general_balancing (ids : list string) (subs : gmap string (gset string))
    (current : assignment) (tps : gmap string Z) : option Balancing :=
  let index := subscribers_per_topic subs tps in
  let partitions := sorted_partitions index tps in
  balance_assignment ids subs (owners_of current)
    (foldl (place index (owners_of current)) (collect_map ((λ id, (id, [])) <$> ids)) partitions)
    (max_balance_iters (length partitions) (length ids)).

Lemma indexed_topic subs tps tp :
  exists_tp tps tp → is_Some (subscribers_per_topic subs tps !! tp.1) ↔ ∃ m, allowed subs m tp.
Proof.
  intros (c & Hc & _). destruct (subscribers_index tps subs) as [Hi Hne]. split.
  - intros [x Hx]. destruct (set_choose_L x) as [m Hm]; [by eapply Hne|].
    exists m. apply (Hi tp.1 m). by rewrite Hx.
  - intros [m Hm]. assert (m ∈ default ∅ (subscribers_per_topic subs tps !! tp.1)) as Hin
      by (apply Hi; eauto).
    destruct (subscribers_per_topic subs tps !! tp.1); [eauto|]. by apply not_elem_of_empty in Hin.
Qed.

Lemma general_assign_ok ids subs current tps :
  NoDup ids → dom subs = list_to_set ids →
  ∃ s, general_balancing ids subs current tps = Some s ∧
    general_assign ids subs current tps = Some (sort_values (ba_assignment s)) ∧
    raw_valid ids subs tps (sort_values (ba_assignment s)) ∧
    (ba_stopped s = false → balanced ids subs (sort_values (ba_assignment s))).
Proof.
  intros Hnd Hd. set (index := subscribers_per_topic subs tps).
  destruct (sorted_partitions_ok index tps) as [Hnp Hep].
  set (parts := sorted_partitions index tps) in *.
  set (start := collect_map ((λ id, (id, @nil topic_partition)) <$> ids)).
  destruct (place_all ids subs tps Hd (owners_of current) parts start) as [Hs Ha].
  { apply collect_nil_slots. }
  { intros tp Htp. by apply Hep. }
  fold index in Hs, Ha. unfold start in Ha at 2. rewrite collect_nil_assigned, app_nil_r in Ha.
  set (cap := max_balance_iters (length parts) (length ids)).
  assert (0 ≤ cap) as Hcap.
  { unfold cap, max_balance_iters, usize_saturating_mul. ints. }
  destruct (balance_loop_ok ids subs Hd (owners_of current) cap parts (S (S (Z.to_nat cap))) 0
    (foldl (place index (owners_of current)) start parts)) as (s & Hloop & [R1 R2 R3 R4]);
    [done..|lia|].
  exists s. split_and!; [done| | |].
  - unfold general_assign, balance_assignment. fold index parts start cap. by rewrite Hloop.
  - split_and!.
    + by apply sort_values_slots.
    + by rewrite sort_values_assigned, R2.
    + intros tp. rewrite sort_values_assigned, R2, Hep.
      split; intros [He H]; (split; [done|]); by apply (indexed_topic subs tps tp He).
  - intros Hst. rewrite Hst in R4. by apply balanced_sort.
Qed.
