(* ===== verification/StickyTheorems.v ===== *)
(** * What the sticky assignors promise

    The two algorithms under one contract, and the theorems on the eager and
    the cooperative sticky assignor. *)

From S2P Require Import Prelude Bytes Assignor Sticky StickyProofs StickyOwners StickyGeneral.

(** ** The members *)

Lemma elem_of_assigned (out : assignment) tp : tp ∈ assigned out ↔ ∃ m l, out !! m = Some l ∧ tp ∈ l.
Proof.
  unfold assigned. rewrite elem_of_concat. setoid_rewrite list_elem_of_fmap. split.
  - intros (l & ([m k] & -> & Hin) & Htp). apply elem_of_map_to_list in Hin. eauto.
  - intros (m & l & Hl & Htp). exists l. split; [|done]. exists (m, l).
    by rewrite elem_of_map_to_list.
Qed.

(** Once everything is dealt out no member is below the minimum. *)
Lemma dealt_under q mx ids all s : dealing_inv q mx ids all [] s → de_under_min s = [].
Proof.
  intros [_ _ _ _ Hun _ _ (k & Hk & _)]. simpl in Hk. eapply deficit_zero; [exact Hun|lia].
Qed.

Section members.
Context (members : list MemberInput) (tps : gmap string Z).
Context (Hid : NoDup (in_id <$> members)).

Let subs := subscriptions members.
Let ids := sorted_ids members.
Let current := prepopulate_current_assignments members subs tps.

Lemma ids_perm : ids ≡ₚ in_id <$> members.
Proof. apply sort_by_perm. Qed.

Lemma ids_nodup : NoDup ids.
Proof. by rewrite ids_perm. Qed.

Lemma subs_lookup m : m ∈ members → subs !! in_id m = Some (list_to_set (in_topics m)).
Proof.
  intros Hm. unfold subs, subscriptions. apply collect_map_lookup.
  - rewrite <- list_fmap_compose. done.
  - apply list_elem_of_fmap. by exists m.
Qed.

Lemma subs_dom : dom subs = list_to_set ids.
Proof.
  unfold subs, subscriptions. rewrite collect_map_dom, <- list_fmap_compose.
  apply leibniz_equiv. intros x. rewrite !elem_of_list_to_set. by rewrite ids_perm.
Qed.

Lemma allowed_member m tp :
  allowed subs m tp ↔ ∃ mem, mem ∈ members ∧ in_id mem = m ∧ tp.1 ∈ in_topics mem.
Proof.
  split.
  - intros Ha. pose proof (allowed_id ids subs subs_dom m tp Ha) as Hm.
    rewrite ids_perm in Hm. apply list_elem_of_fmap in Hm as (mem & -> & Hm).
    exists mem. split_and!; [done..|]. unfold allowed in Ha. rewrite subs_lookup in Ha by done.
    simpl in Ha. by apply elem_of_list_to_set in Ha.
  - intros (mem & Hm & <- & Ht). unfold allowed. rewrite subs_lookup by done. simpl.
    by apply elem_of_list_to_set.
Qed.

Lemma claims_exists m tp :
  claims subs tps m tp → exists_tp tps tp ∧ allowed subs (in_id m) tp.
Proof.
  intros [_ Hl]. unfold live_claim in Hl. unfold exists_tp, allowed.
  destruct (tps !! tp.1) as [c|]; [|done].
  apply andb_true_iff in Hl as [[H1%Z.leb_le H2%Z.ltb_lt]%andb_true_iff H3%bool_decide_eq_true].
  eauto.
Qed.

(** The previous owner of a partition, by the claims of the members. *)
Lemma previous_owner_lookup tp o :
  Forall (λ m, NoDup (in_owned m)) members →
  owners_of current !! tp = Some o ↔ ∃ m, in_id m = o ∧ owns members subs tps m tp.
Proof.
  intros Hown. destruct (prepopulate_slots members subs tps) as [_ Hn].
  unfold current. rewrite owners_of_lookup by done. by apply prepopulate_elem.
Qed.

(** ** The constrained algorithm on members with equal subscriptions *)

Lemma all_equal_spec k1 v1 k2 v2 :
  all_equal subs = true → subs !! k1 = Some v1 → subs !! k2 = Some v2 → v1 = v2.
Proof.
  unfold all_equal. intros Heq H1 H2.
  assert (∀ k v, subs !! k = Some v → (k, v) ∈ sorted_map subs) as Hin.
  { intros k v H. by rewrite sorted_map_perm, elem_of_map_to_list. }
  apply Hin in H1, H2. destruct (sorted_map subs) as [|first rest]; [by apply elem_of_nil in H1|].
  rewrite forallb_forall in Heq.
  assert (∀ e, e ∈ first :: rest → e.2 = first.2) as Hall.
  { intros e [->|He]%elem_of_cons; [done|].
    apply list_elem_of_In, Heq, bool_decide_eq_true in He. done. }
  specialize (Hall _ H1) as E1. specialize (Hall _ H2) as E2. simpl in *. congruence.
Qed.

Lemma all_partitions_ok shared :
  NoDup (all_topic_partitions shared tps) ∧
  ∀ tp, tp ∈ all_topic_partitions shared tps ↔ exists_tp tps tp ∧ tp.1 ∈ shared.
Proof.
  destruct (ranges_of tps (sorted_set shared)) as [Hn He].
  { unfold sorted_set. rewrite sort_by_perm. apply NoDup_elements. }
  split; [done|]. intros tp. rewrite <- elem_of_sorted_set. apply He.
Qed.

Context (Hne : members ≠ []).

Lemma head_subs : ∃ shared, (head ids ≫= λ m, subs !! m) = Some shared.
Proof.
  assert (ids ≠ []) as Hi.
  { intros E. pose proof ids_perm as Hp. rewrite E in Hp. apply Permutation_nil_l in Hp.
    symmetry in Hp. by apply fmap_nil_inv in Hp. }
  destruct ids as [|id l] eqn:E; [done|]. simpl.
  assert (id ∈ dom subs) as [s Hs]%elem_of_dom; [|eauto].
  rewrite subs_dom. fold ids. rewrite E. apply elem_of_list_to_set. left.
Qed.

(** What every member keeps of the partitions it owned. *)
Definition quota_kept (n : nat) (out : assignment) (m : string) : Prop :=
  take n (sort_by owned_le (default [] (current !! m))) ⊆ default [] (out !! m).

Lemma constrained_ok :
  all_equal subs = true →
  let raw := constrained_assign ids subs current tps in
  let q := quotas (length (assigned raw)) (length members) in
  (constrained_run ids subs current tps).2 = false ∧ raw_valid ids subs tps raw ∧
  ∀ m, m ∈ ids → (min_quota q ≤ load raw m ≤ max_quota q)%nat ∧ quota_kept (min_quota q) raw m.
Proof.
  intros Heq raw q. destruct head_subs as [shared Hsh].
  destruct (all_partitions_ok shared) as [Hna Hea].
  assert (∀ m, m ∈ ids → subs !! m = Some shared) as Hsame.
  { intros m Hm. assert (m ∈ dom subs) as [s Hs]%elem_of_dom
      by (rewrite subs_dom; by apply elem_of_list_to_set).
    destruct (head ids) as [h|]; [|done]. simpl in Hsh. by rewrite (all_equal_spec _ _ _ _ Heq Hsh Hs). }
  destruct (prepopulate_slots members subs tps) as [Hcd Hcn]. fold current in Hcd, Hcn.
  assert (concat (own current <$> ids) ⊆+ all_topic_partitions shared tps) as Hsub.
  { change (concat ((λ id, default [] (current !! id)) <$> ids) ⊆+ all_topic_partitions shared tps).
    assert (dom current = list_to_set ids) as Hcd'.
    { rewrite Hcd. apply leibniz_equiv. intros x. rewrite !elem_of_list_to_set. by rewrite ids_perm. }
    rewrite <- (assigned_ids ids current ids_nodup Hcd'). apply NoDup_submseteq; [done|].
    intros tp. rewrite (assigned_ids ids current ids_nodup Hcd'), elem_of_concat.
    intros (l & Hl & Htp). apply list_elem_of_fmap in Hl as (m & -> & Hm).
    apply prepopulate_sound in Htp as (mem & _ & <- & Hc).
    apply claims_exists in Hc as [He Ha]. apply Hea. split; [done|].
    unfold allowed in Ha. by rewrite (Hsame _ Hm) in Ha. }
  destruct (constrained_run_ok ids subs current tps shared ids_nodup Hsh Hna Hsub) as (Hb & Hdl & Hk).
  assert (ids ≠ []) as Hi by (intros E; rewrite E in Hsh; done).
  assert (raw = sort_values (de_assignment (constrained_run ids subs current tps).1)) as Hraw.
  { unfold raw, constrained_assign. by rewrite bool_decide_eq_false_2. }
  assert (assigned raw ≡ₚ all_topic_partitions shared tps) as Hp.
  { rewrite Hraw, sort_values_assigned. pose proof (di_perm _ _ _ _ _ _ Hdl) as H.
    by rewrite app_nil_r in H. }
  assert (q = quotas (length (all_topic_partitions shared tps)) (length ids)) as Hq.
  { unfold q. rewrite Hp. f_equal. by rewrite ids_perm, length_fmap. }
  assert (∀ m, default [] (raw !! m) = sort_by tp_le
    (default [] (de_assignment (constrained_run ids subs current tps).1 !! m))) as Hslot.
  { intros m. by rewrite Hraw, sort_values_default. }
  split; [done|]. split.
  - split_and!; [|by rewrite Hp|].
    + rewrite Hraw. split; [unfold sort_values; rewrite dom_fmap_L; apply (di_dom _ _ _ _ _ _ Hdl)|].
      rewrite <- Hraw. intros m l tp Hl Htp. unfold allowed. rewrite Hsame.
      * simpl. apply Hea. rewrite <- Hp. apply elem_of_assigned. eauto.
      * assert (m ∈ dom raw) as Hd by (by apply elem_of_dom). rewrite Hraw in Hd.
        unfold sort_values in Hd. rewrite dom_fmap_L, (di_dom _ _ _ _ _ _ Hdl) in Hd.
        by apply elem_of_list_to_set in Hd.
    + intros tp. rewrite Hp, Hea. unfold allowed. split; intros [He Hin]; (split; [done|]).
      * destruct (head ids) as [h|] eqn:Hh; [|done]. exists h. simpl in Hsh. by rewrite Hsh.
      * destruct Hin as [m Hm]. pose proof (allowed_id ids subs subs_dom m tp Hm) as Hmi.
        by rewrite (Hsame _ Hmi) in Hm.
  - intros m Hm. unfold load, quota_kept. rewrite Hslot, length_sort_by, Hq. split.
    + apply (di_done _ _ _ _ _ _ Hdl m Hm). rewrite (dealt_under _ _ _ _ _ Hdl).
      apply not_elem_of_nil.
    + intros x Hx. rewrite elem_of_sort_by. by apply Hk.
Qed.
End members.

(** ** The contract of both algorithms *)

Lemma sticky_assignment_ok members tps :
  NoDup (in_id <$> members) → members ≠ [] →
  let subs := subscriptions members in
  let current := prepopulate_current_assignments members subs tps in
  ∃ raw, sticky_assignment members tps = Some (sorted_ids members, owners_of current, raw) ∧
    raw_valid (sorted_ids members) subs tps raw ∧
    (if all_equal subs
     then raw = constrained_assign (sorted_ids members) subs current tps
     else general_assign (sorted_ids members) subs current tps = Some raw).
Proof.
  intros Hid Hne subs current. unfold sticky_assignment. fold subs current.
  destruct (all_equal subs) eqn:Heq.
  - eexists. split; [done|]. split; [|done]. by apply constrained_ok.
  - destruct (general_assign_ok (sorted_ids members) subs current tps) as (s & _ & -> & Hv & _);
      [by apply ids_nodup|by apply subs_dom|].
    eexists. split; [done|]. done.
Qed.

(** A slot per id, computed from the raw assignment. *)
Lemma collect_slots (ids : list string) (f : string → list topic_partition) m :
  NoDup ids →
  collect_map ((λ id, (id, f id)) <$> ids) !! m = if decide (m ∈ ids) then Some (f m) else None.
Proof.
  intros Hn. assert (∀ v, collect_map ((λ id, (id, f id)) <$> ids) !! m = Some v ↔ m ∈ ids ∧ v = f m) as H.
  { intros v. rewrite collect_map_lookup.
    - rewrite list_elem_of_fmap. naive_solver.
    - rewrite <- list_fmap_compose. simpl. by rewrite list_fmap_id. }
  case_decide as Hm; [by apply H|]. destruct (collect_map _ !! m) eqn:E; [|done].
  by destruct (proj1 (H _) eq_refl) as [? _].
Qed.

Lemma eager_slots ids raw :
  NoDup ids → dom raw = list_to_set ids →
  collect_map ((λ id, (id, sort_by tp_le (default [] (raw !! id)))) <$> ids) = sort_values raw.
Proof.
  intros Hn Hd. apply map_eq. intros m. rewrite collect_slots by done.
  unfold sort_values. rewrite lookup_fmap.
  assert (m ∈ ids ↔ is_Some (raw !! m)) as Hm.
  { rewrite <- elem_of_dom, Hd. by rewrite elem_of_list_to_set. }
  case_decide as H; [apply Hm in H as [l ->]; done|].
  destruct (raw !! m); [|done]. destruct H. apply Hm. eauto.
Qed.

(** The eager assignor returns the raw assignment, sorted. *)
Lemma assign_eager_raw members tps :
  NoDup (in_id <$> members) → members ≠ [] →
  let subs := subscriptions members in
  let current := prepopulate_current_assignments members subs tps in
  ∃ raw, sticky_assignment members tps = Some (sorted_ids members, owners_of current, raw) ∧
    assign_eager members tps = Some (sort_values raw) ∧
    raw_valid (sorted_ids members) subs tps raw ∧
    (if all_equal subs
     then raw = constrained_assign (sorted_ids members) subs current tps
     else general_assign (sorted_ids members) subs current tps = Some raw).
Proof.
  intros Hid Hne subs current.
  destruct (sticky_assignment_ok members tps Hid Hne) as (raw & Hs & Hv & Hwhich).
  exists raw. split_and!; [done| |done|done].
  unfold assign_eager. rewrite bool_decide_eq_false_2 by done. rewrite Hs. simpl.
  f_equal. apply eager_slots; [by apply ids_nodup|]. by destruct Hv as [[? _] _].
Qed.

(** ** The theorems *)

(** A member as the contract of an assignor names it. *)
Definition plain (m : MemberInput) : member := (mkMemberKey (in_id m) None, in_topics m).

Lemma raw_valid_plain members tps raw :
  NoDup (in_id <$> members) → raw_valid (sorted_ids members) (subscriptions members) tps raw →
  valid_assignment (plain <$> members) tps raw.
Proof.
  intros Hid ([Hd HP] & Hn & He).
  assert (∀ m tp, allowed (subscriptions members) m tp ↔ subscribed_to (plain <$> members) m tp) as Hsub.
  { intros m tp. rewrite allowed_member by done. unfold subscribed_to.
    setoid_rewrite list_elem_of_fmap. split.
    - intros (mem & Hm & <- & Ht). exists (plain mem). split_and!; [eauto|done|done].
    - intros (x & (mem & -> & Hm) & <- & Ht). eauto. }
  split_and!; [split|done|].
  - rewrite Hd, <- list_fmap_compose. apply leibniz_equiv. intros x. rewrite !elem_of_list_to_set.
    by rewrite ids_perm.
  - intros m l tp Hl Htp. apply Hsub. eauto.
  - intros tp. rewrite He. unfold assignable. setoid_rewrite Hsub. rewrite Exists_exists.
    unfold subscribed_to, exists_tp. naive_solver.
Qed.

(** The eager assignor always returns, and a valid assignment. *)
Lemma eager_valid members tps :
  NoDup (in_id <$> members) →
  ∃ out, assign_eager members tps = Some out ∧ valid_assignment (plain <$> members) tps out.
Proof.
  intros Hid. destruct (decide (members = [])) as [->|Hne].
  { exists ∅. split; [done|]. split_and!; [|constructor|].
    - split; [done|]. intros m l tp H. by rewrite lookup_empty in H.
    - intros tp. split; [intros H; by apply elem_of_nil in H|]. intros [_ H]. by inversion H. }
  destruct (assign_eager_raw members tps Hid Hne) as (raw & _ & -> & (Hs & Hn & He) & _).
  eexists. split; [done|]. apply raw_valid_plain; [done|]. split_and!.
  - by apply sort_values_slots.
  - by rewrite sort_values_assigned.
  - intros tp. rewrite sort_values_assigned. apply He.
Qed.

(** the previous owner of a partition, which both sticky assignors build
    on, is the member that claims it with the highest generation, when it is
    the only one at that generation and the claim is live: the topic and the
    partition exist and the member still subscribes to the topic. A partition
    two members claim at the highest generation has no previous owner. *)
Theorem sticky_previous_owner members tps tp o :
  NoDup (in_id <$> members) → Forall (λ m, NoDup (in_owned m)) members →
  let subs := subscriptions members in
  owners_of (prepopulate_current_assignments members subs tps) !! tp = Some o ↔
  ∃ m, in_id m = o ∧ owns members subs tps m tp.
Proof. intros Hid Hown subs. by apply previous_owner_lookup. Qed.

(** when all members subscribe to the same topics the sticky assignment is
    balanced and sticky: with [total] partitions and [n] members every member
    holds at least [total / n] and at most the next whole number of
    [total / n] partitions, it keeps the first [total / n] of the partitions
    it owned, and the [break] of the dealing loop is never taken. *)
Theorem sticky_constrained_balance members tps :
  NoDup (in_id <$> members) → members ≠ [] →
  let subs := subscriptions members in
  let current := prepopulate_current_assignments members subs tps in
  all_equal subs = true →
  ∃ out, assign_eager members tps = Some out ∧
    (constrained_run (sorted_ids members) subs current tps).2 = false ∧
    ∀ m, m ∈ members →
      let q := quotas (length (assigned out)) (length members) in
      (min_quota q ≤ load out (in_id m) ≤ max_quota q)%nat ∧
      take (min_quota q) (sort_by owned_le (default [] (current !! in_id m))) ⊆
        default [] (out !! in_id m).
Proof.
  intros Hid Hne subs current Heq.
  destruct (assign_eager_raw members tps Hid Hne) as (raw & _ & He & _ & Hw).
  fold subs current in Hw. rewrite Heq in Hw.
  destruct (constrained_ok members tps Hid Hne Heq) as (Hb & _ & Hall).
  fold subs current in Hb, Hall. rewrite <- Hw in Hall.
  eexists. split_and!; [done|done|]. intros m Hm q.
  assert (in_id m ∈ sorted_ids members) as Hi by (rewrite ids_perm; by apply list_elem_of_fmap_2).
  destruct (Hall _ Hi) as [Hl Hk]. unfold q. rewrite sort_values_assigned. unfold load.
  rewrite sort_values_default, length_sort_by. split; [done|].
  intros x Hx. rewrite elem_of_sort_by. by apply Hk.
Qed.

(** C40: when subscriptions differ the sticky assignor balances by single moves:
    its loop ends, and when it did not use up its budget of moves, no member
    holds two partitions more than a member that subscribes to the topic of
    one of them, so no further move would even out the loads. *)
Theorem sticky_general_balance members tps :
  NoDup (in_id <$> members) → members ≠ [] →
  let subs := subscriptions members in
  let current := prepopulate_current_assignments members subs tps in
  all_equal subs = false →
  ∃ out s, assign_eager members tps = Some out ∧
    general_balancing (sorted_ids members) subs current tps = Some s ∧
    (ba_stopped s = false →
     ∀ m tp m', tp ∈ default [] (out !! m) → m' ∈ members → tp.1 ∈ in_topics m' →
       (load out m ≤ load out (in_id m') + 1)%nat).
Proof.
  intros Hid Hne subs current Heq.
  destruct (assign_eager_raw members tps Hid Hne) as (raw & _ & He & _ & Hw).
  fold subs current in Hw. rewrite Heq in Hw.
  destruct (general_assign_ok (sorted_ids members) subs current tps) as (s & Hs & Hg & _ & Hb);
    [by apply ids_nodup|by apply subs_dom|].
  eexists _, s. split_and!; [done|done|]. intros Hst m tp m' Htp Hm' Ht.
  assert (raw = sort_values (ba_assignment s)) as -> by congruence.
  apply (balanced_sort _ _ _ (Hb Hst) m tp (in_id m')); [done| |].
  - rewrite ids_perm. by apply list_elem_of_fmap_2.
  - apply allowed_member; eauto.
Qed.

(** C23: the cooperative adjustment. A member gets from the cooperative assignor
    exactly the partitions the eager one gives it less those another member
    still owns: no partition moves from a live owner in the same rebalance, and
    nothing else is held back. *)
Theorem cooperative_revokes_first members tps :
  NoDup (in_id <$> members) → Forall (λ m, NoDup (in_owned m)) members →
  let subs := subscriptions members in
  ∃ eager cooperative, assign_eager members tps = Some eager ∧
    assign_cooperative members tps = Some cooperative ∧ dom cooperative = dom eager ∧
    ∀ m tp, tp ∈ default [] (cooperative !! m) ↔
      tp ∈ default [] (eager !! m) ∧
      ¬ ∃ owner, in_id owner ≠ m ∧ owns members subs tps owner tp.
Proof.
  intros Hid Hown subs. destruct (decide (members = [])) as [->|Hne].
  { exists ∅, ∅. split_and!; [done..|]. intros m tp. rewrite lookup_empty. simpl.
    rewrite elem_of_nil. tauto. }
  destruct (assign_eager_raw members tps Hid Hne) as (raw & Hs & He & ([Hd _] & _) & _).
  pose proof (ids_nodup members Hid) as Hnd.
  eexists _, _. split_and!; [done| | |].
  - unfold assign_cooperative. rewrite bool_decide_eq_false_2 by done. rewrite Hs. done.
  - unfold sort_values. rewrite !dom_fmap_L, collect_map_dom, Hd, <- list_fmap_compose. simpl.
    by rewrite list_fmap_id.
  - intros m tp. rewrite !sort_values_default, !elem_of_sort_by, collect_slots by done.
    assert (keeps (owners_of (prepopulate_current_assignments members subs tps)) m tp ↔
            ¬ ∃ owner, in_id owner ≠ m ∧ owns members subs tps owner tp) as Hk.
    { pose proof (λ o, previous_owner_lookup members tps Hid tp o Hown) as Hp. fold subs in Hp.
      unfold keeps. destruct (owners_of _ !! tp) as [o|] eqn:Ho.
      - destruct (proj1 (Hp o) eq_refl) as (mo & <- & Hmo). split.
        + intros <- (owner & Hne' & Hw). apply Hne'.
          assert (Some (in_id mo) = Some (in_id owner)) as [= ->]; [|done]. apply Hp. eauto.
        + intros Hno. destruct (decide (in_id mo = m)); [done|]. destruct Hno. eauto.
      - split; [|done]. intros _ (owner & _ & Hw).
        assert (None = Some (in_id owner)) as [=]. apply Hp. eauto. }
    case_decide as Hm; simpl.
    + fold subs. rewrite list_elem_of_filter, Hk. tauto.
    + assert (raw !! m = None) as ->.
      { apply not_elem_of_dom. rewrite Hd. by rewrite elem_of_list_to_set. }
      simpl. rewrite elem_of_nil. tauto.
Qed.

(** ** Concrete groups *)

Definition same_topics : list MemberInput :=
  [mkInput "b" ["t"] [("t", 0); ("t", 1); ("t", 2)] 3; mkInput "a" ["t"] [("t", 3)] 2].

Definition mixed_topics : list MemberInput :=
  [mkInput "a" ["t"; "u"] [("t", 0); ("t", 1); ("u", 0)] 3; mkInput "b" ["t"] [] 3].

Definition some_topics : gmap string Z := {[ "t" := 5; "u" := 1 ]}.

Ltac sample_group := apply (bool_decide_unpack _); vm_compute; exact I.

Lemma same_topics_ids : NoDup (in_id <$> same_topics).
Proof. sample_group. Qed.
Lemma same_topics_owned : Forall (λ m, NoDup (in_owned m)) same_topics.
Proof. sample_group. Qed.
Lemma mixed_topics_ids : NoDup (in_id <$> mixed_topics).
Proof. sample_group. Qed.
Lemma mixed_topics_owned : Forall (λ m, NoDup (in_owned m)) mixed_topics.
Proof. sample_group. Qed.

Lemma sticky_previous_owner_witness :
  ∃ m, in_id m = "b" ∧ owns same_topics (subscriptions same_topics) some_topics m ("t", 1).
Proof.
  apply (sticky_previous_owner _ _ _ _ same_topics_ids same_topics_owned).
  vm_compute. reflexivity.
Defined.

Lemma sticky_constrained_balance_witness :
  ∃ out, assign_eager same_topics some_topics = Some out ∧
    (2 ≤ load out "a" ≤ 3)%nat ∧ [("t", 0); ("t", 1)] ⊆ default [] (out !! "b").
Proof.
  destruct (sticky_constrained_balance _ some_topics same_topics_ids
    ltac:(done) ltac:(vm_compute; reflexivity)) as (out & He & _ & Hall).
  exists out. pose proof He as Hv. vm_compute in Hv. injection Hv as <-.
  split; [done|]. split.
  - apply (Hall (mkInput "a" ["t"] [("t", 3)] 2)). right. left.
  - refine (proj2 (Hall (mkInput "b" ["t"] [("t", 0); ("t", 1); ("t", 2)] 3) _)). left.
Defined.

Lemma sticky_general_balance_witness :
  ∃ out s, assign_eager mixed_topics some_topics = Some out ∧
    general_balancing (sorted_ids mixed_topics) (subscriptions mixed_topics)
      (prepopulate_current_assignments mixed_topics (subscriptions mixed_topics) some_topics)
      some_topics = Some s ∧ ba_stopped s = false ∧ (load out "a" ≤ load out "b" + 1)%nat.
Proof.
  destruct (sticky_general_balance _ some_topics mixed_topics_ids
    ltac:(done) ltac:(vm_compute; reflexivity)) as (out & s & He & Hs & Hall).
  exists out, s. split; [done|]. split; [done|].
  assert (ba_stopped s = false) as Hst by (vm_compute in Hs; injection Hs as <-; reflexivity).
  split; [done|]. pose proof He as Hv. vm_compute in Hv. injection Hv as <-.
  apply (Hall Hst "a" ("t", 1) (mkInput "b" ["t"] [] 3)).
  - vm_compute. left.
  - right. left.
  - left.
Defined.

Lemma cooperative_revokes_first_witness :
  assign_cooperative mixed_topics some_topics =
    Some {[ "a" := [("t", 1); ("t", 3); ("u", 0)]; "b" := [("t", 2); ("t", 4)] ]} ∧
  ∃ eager cooperative, assign_eager mixed_topics some_topics = Some eager ∧
    assign_cooperative mixed_topics some_topics = Some cooperative ∧ dom cooperative = dom eager ∧
    ∀ m tp, tp ∈ default [] (cooperative !! m) ↔
      tp ∈ default [] (eager !! m) ∧
      ¬ ∃ owner, in_id owner ≠ m ∧
        owns mixed_topics (subscriptions mixed_topics) some_topics owner tp.
Proof.
  split; [vm_compute; reflexivity|].
  exact (cooperative_revokes_first _ _ mixed_topics_ids mixed_topics_owned).
Defined.
