(* ===== verification/GroupAssign.v ===== *)
(** * Running the assignors over a group

    [crates/client-consumer/src/assignor/mod.rs]: the user data of the sticky
    assignors and the dispatcher the group leader calls. *)

From S2P Require Import Prelude Bytes Assignor Sticky StickyProofs StickyOwners.
From S2P Require Import StickyGeneral StickyTheorems.

(** ** Members of a group *)

Record DecodedSubscription : Type := mkSubscription {
  sub_topics : list string;
  sub_owned : list topic_partition;
  sub_generation_id : Z;
  sub_rack_id : option string;
  sub_user_data : option bytes;
}.

Record GroupMember : Type := mkGroupMember {
  gm_key : MemberKey;
  gm_subscription : DecodedSubscription;
}.

(** ** The user data of a subscription *)

Definition DEFAULT_GENERATION : Z := -1.

Definition put_array_len (len : nat) : bytes :=
  put_i32 (default i32_max (i32_try_from (Z.of_nat len))).

(** [by_topic.entry(topic).or_default().push(partition)]. *)
Definition push_partition (by_topic : gmap string (list Z)) (tp : topic_partition)
    : gmap string (list Z) :=
  <[tp.1 := default [] (by_topic !! tp.1) ++ [tp.2]]> by_topic.

Definition group_by_topic (pairs : list topic_partition) : gmap string (list Z) :=
  foldl push_partition ∅ pairs.

Definition put_topic (e : string * list Z) : bytes :=
  put_i16 (default i16_max (i16_try_from (str_len e.1))) ++ as_bytes e.1 ++
  put_array_len (length e.2) ++ concat (put_i32 <$> sort_by Z.le e.2).

Definition subscription_user_data (assignor : Assignor)
    (last_assignment : option (list topic_partition)) (generation : Z) : option bytes :=
  match assignor with
  | Range | RoundRobin => None
  | Sticky =>
    partitions ← last_assignment;
    let by_topic := group_by_topic partitions in
    Some (put_array_len (size by_topic) ++ concat (put_topic <$> sorted_map by_topic) ++
          put_i32 generation)
  | CooperativeSticky => Some (put_i32 generation)
  end.

(** [buf.get_i32()] and [buf.get_i16()], after the check of what remains. *)
Definition get_i32 (buf : bytes) : Z * bytes := (get_be_signed (take 4 buf), drop 4 buf).
Definition get_i16 (buf : bytes) : Z * bytes := (get_be_signed (take 2 buf), drop 2 buf).

(** [usize::try_from(n).ok()] of a signed integer. *)
Definition to_usize (n : Z) : option nat := if n <? 0 then None else Some (Z.to_nat n).

Fixpoint read_partitions (count : nat) (topic : string) (buf : bytes)
    : list topic_partition * bytes :=
  match count with
  | O => ([], buf)
  | S count =>
    let '(p, buf) := get_i32 buf in
    let '(tps, buf) := read_partitions count topic buf in
    ((topic, p) :: tps, buf)
  end.

(** One turn of the loop over topics. *)
Definition read_topic (buf : bytes) : option (list topic_partition * bytes) :=
  if (length buf <? 2)%nat then None
  else
    let '(len, buf) := get_i16 buf in
    len ← to_usize len;
    if (length buf <? len + 4)%nat then None
    else
      topic ← from_utf8 (take len buf);
      let '(count, buf) := get_i32 (drop len buf) in
      count ← to_usize count;
      if usize_max <? Z.of_nat count * 4 then None
      else if (length buf <? count * 4)%nat then None
      else Some (read_partitions count topic buf).

Fixpoint read_topics (topics : nat) (buf : bytes) : option (list topic_partition * bytes) :=
  match topics with
  | O => Some ([], buf)
  | S topics =>
    '(tps, buf) ← read_topic buf;
    '(rest, buf) ← read_topics topics buf;
    Some (tps ++ rest, buf)
  end.

Definition read_topic_partitions (buf : bytes) : option (list topic_partition * bytes) :=
  if (length buf <? 4)%nat then None
  else
    let '(topics, buf) := get_i32 buf in
    topics ← to_usize topics;
    read_topics topics buf.

Definition decode_sticky_user_data (user_data : option bytes) : list topic_partition * Z :=
  match user_data with
  | None | Some [] => ([], DEFAULT_GENERATION)
  | Some buf =>
    match read_topic_partitions buf with
    | None => ([], DEFAULT_GENERATION)
    | Some (partitions, buf) =>
      (partitions, if (4 <=? length buf)%nat then (get_i32 buf).1 else DEFAULT_GENERATION)
    end
  end.

(** ** The dispatcher *)

Definition keyed_member (m : GroupMember) : member := (gm_key m, sub_topics (gm_subscription m)).

Definition sticky_input (m : GroupMember) : MemberInput :=
  let '(owned, generation) := decode_sticky_user_data (sub_user_data (gm_subscription m)) in
  mkInput (member_id (gm_key m)) (sub_topics (gm_subscription m)) owned generation.

Definition cooperative_input (m : GroupMember) : MemberInput :=
  mkInput (member_id (gm_key m)) (sub_topics (gm_subscription m)) (sub_owned (gm_subscription m))
    (sub_generation_id (gm_subscription m)).

(** [assign] of [assignor/mod.rs]. *)
Definition assign_group (assignor : Assignor) (members : list GroupMember)
    (topic_partitions : gmap string Z) : option assignment :=
  match assignor with
  | Range => Some (RangeAssignor.assign_members (keyed_member <$> members) topic_partitions)
  | RoundRobin => Some (RoundRobinAssignor.assign (keyed_member <$> members) topic_partitions)
  | Sticky => assign_eager (sticky_input <$> members) topic_partitions
  | CooperativeSticky => assign_cooperative (cooperative_input <$> members) topic_partitions
  end.

(** ** The round trip of the sticky user data *)

Lemma get_put_i32_app z buf : is_i32 z → get_i32 (put_i32 z ++ buf) = (z, buf).
Proof.
  intros Hz. unfold get_i32. rewrite take_app_length', drop_app_length' by (symmetry; apply length_put_be).
  by rewrite get_put_i32.
Qed.

Lemma get_put_i16_app z buf : is_i16 z → get_i16 (put_i16 z ++ buf) = (z, buf).
Proof.
  intros Hz. unfold get_i16. rewrite take_app_length', drop_app_length' by (symmetry; apply length_put_be).
  by rewrite get_put_i16.
Qed.

Lemma read_partitions_put topic ps buf :
  Forall is_i32 ps →
  read_partitions (length ps) topic (concat (put_i32 <$> ps) ++ buf) = ((topic,.) <$> ps, buf).
Proof.
  induction 1 as [|p ps Hp Hps IH]; [done|]. rewrite fmap_cons. cbn [length read_partitions concat].
  rewrite <- (assoc_L (++)), get_put_i32_app by done. by rewrite IH.
Qed.

Lemma length_put_partitions ps : length (concat (put_i32 <$> ps)) = (length ps * 4)%nat.
Proof.
  induction ps as [|p ps IH]; [done|]. rewrite fmap_cons. cbn [concat length].
  rewrite length_app, IH. unfold put_i32.
  rewrite length_put_be. lia.
Qed.

(** What the encoder can write without loss. *)
Definition topic_fits (e : string * list Z) : Prop :=
  str_wf e.1 ∧ str_len e.1 ≤ i16_max ∧ Z.of_nat (length e.2) ≤ i32_max ∧ Forall is_i32 e.2.

Lemma put_array_len_fits n : Z.of_nat n ≤ i32_max → put_array_len n = put_i32 (Z.of_nat n).
Proof.
  intros Hn. unfold put_array_len. unfold i32_try_from.
  by rewrite decide_True by ints.
Qed.

Lemma put_str_len_fits t :
  str_len t ≤ i16_max → put_i16 (default i16_max (i16_try_from (str_len t))) = put_i16 (str_len t).
Proof.
  intros Ht. unfold i16_try_from. by rewrite decide_True by (unfold str_len in *; ints).
Qed.

Lemma length_put_i16 z : length (put_i16 z) = 2%nat.
Proof. apply length_put_be. Qed.
Lemma length_put_i32 z : length (put_i32 z) = 4%nat.
Proof. apply length_put_be. Qed.

Lemma to_usize_nat n : to_usize (Z.of_nat n) = Some n.
Proof. unfold to_usize. destruct (Z.ltb_spec (Z.of_nat n) 0); [lia|]. by rewrite Nat2Z.id. Qed.

Lemma read_put_topic e buf :
  topic_fits e → read_topic (put_topic e ++ buf) = Some ((e.1,.) <$> sort_by Z.le e.2, buf).
Proof.
  destruct e as [t ps]. intros (Hwf & Hlen & Hps & Hi). cbn [fst snd] in *.
  unfold put_topic, read_topic. cbn [fst snd].
  rewrite put_str_len_fits, put_array_len_fits by done. rewrite <- !(assoc_L (++)).
  rewrite (proj2 (Nat.ltb_ge _ _)) by (rewrite length_app, length_put_i16; lia).
  rewrite get_put_i16_app by (unfold str_len in *; ints).
  unfold str_len at 1. rewrite to_usize_nat. cbn [mbind option_bind].
  rewrite (proj2 (Nat.ltb_ge _ _)) by (rewrite !length_app, length_put_i32; lia).
  rewrite take_app_length, drop_app_length, from_utf8_as_bytes by done. cbn [mbind option_bind].
  rewrite get_put_i32_app by ints. rewrite to_usize_nat. cbn [mbind option_bind].
  rewrite (proj2 (Z.ltb_ge _ _)) by ints.
  rewrite (proj2 (Nat.ltb_ge _ _)) by (rewrite length_app, length_put_partitions, length_sort_by; lia).
  f_equal. rewrite <- (length_sort_by Z.le ps) at 1. apply read_partitions_put.
  by rewrite sort_by_perm.
Qed.

Lemma read_put_topics es buf :
  Forall topic_fits es →
  read_topics (length es) (concat (put_topic <$> es) ++ buf) =
  Some (concat ((λ e : string * list Z, (e.1,.) <$> sort_by Z.le e.2) <$> es), buf).
Proof.
  induction 1 as [|e es He Hes IH]; [done|]. rewrite !fmap_cons. cbn [length read_topics concat].
  rewrite <- (assoc_L (++)), read_put_topic by done.
  cbn [mbind option_bind]. by rewrite IH.
Qed.

(** Grouping and sorting only reorder the partitions. *)
Definition ungroup (by_topic : gmap string (list Z)) : list topic_partition :=
  concat ((λ e : string * list Z, (e.1,.) <$> e.2) <$> map_to_list by_topic).

Lemma ungroup_insert t ps (m : gmap string (list Z)) :
  m !! t = None → ungroup (<[t := ps]> m) ≡ₚ ((t,.) <$> ps) ++ ungroup m.
Proof. intros Hm. unfold ungroup. by rewrite map_to_list_insert. Qed.

Lemma push_partition_ungroup m tp : ungroup (push_partition m tp) ≡ₚ tp :: ungroup m.
Proof.
  destruct tp as [t p]. unfold push_partition. simpl.
  rewrite <- insert_delete_eq, ungroup_insert by apply lookup_delete_eq.
  rewrite fmap_app. simpl. destruct (m !! t) as [ps|] eqn:Hm; simpl.
  - rewrite <- (insert_delete_id m t ps) at 2 by done.
    rewrite ungroup_insert by apply lookup_delete_eq.
    by rewrite (Permutation_app_comm _ [(t, p)]).
  - by rewrite delete_id.
Qed.

Lemma group_by_topic_ungroup ps : ungroup (group_by_topic ps) ≡ₚ ps.
Proof.
  unfold group_by_topic. induction ps as [|tp ps IH] using rev_ind; [done|].
  rewrite foldl_app. simpl. rewrite push_partition_ungroup, IH. by rewrite Permutation_app_comm.
Qed.

Lemma written_perm es :
  concat ((λ e : string * list Z, (e.1,.) <$> sort_by Z.le e.2) <$> es) ≡ₚ
  concat ((λ e : string * list Z, (e.1,.) <$> e.2) <$> es).
Proof. induction es as [|e es IH]; [done|]. csimpl. by rewrite IH, sort_by_perm. Qed.

Lemma group_fits ps t l :
  Forall (λ tp : topic_partition, str_wf tp.1 ∧ str_len tp.1 ≤ i16_max ∧ is_i32 tp.2) ps →
  Z.of_nat (length ps) ≤ i32_max → group_by_topic ps !! t = Some l → l ≠ [] → topic_fits (t, l).
Proof.
  intros Hps Hlen Hl Hne. rewrite Forall_forall in Hps.
  assert (((t,.) <$> l) ⊆+ ps) as Hsub.
  { rewrite <- (group_by_topic_ungroup ps), <- (insert_delete_id _ _ _ Hl).
    rewrite ungroup_insert by apply lookup_delete_eq. by apply submseteq_inserts_r. }
  assert (∀ p, p ∈ l → (t, p) ∈ ps) as Hin.
  { intros p Hp. eapply elem_of_submseteq; [|done]. by apply list_elem_of_fmap_2. }
  destruct l as [|p l]; [done|]. destruct (Hps (t, p)) as (Hwf & Hsl & _); [apply Hin; left|].
  split_and!; [done|done| |].
  - apply submseteq_length in Hsub. rewrite length_fmap in Hsub. simpl in *. lia.
  - apply Forall_forall. intros x Hx. by apply (Hps (t, x)), Hin.
Qed.

Lemma group_nonempty ps t l : group_by_topic ps !! t = Some l → l ≠ [].
Proof.
  unfold group_by_topic. revert l. induction ps as [|tp ps IH] using rev_ind; intros l; [done|].
  rewrite foldl_app. simpl. unfold push_partition at 1. destruct (decide (tp.1 = t)) as [->|Hne].
  - rewrite lookup_insert_eq. intros [= <-] E. by apply app_nil in E as [_ ?].
  - rewrite lookup_insert_ne by done. apply IH.
Qed.

Lemma group_size ps : (size (group_by_topic ps) ≤ length ps)%nat.
Proof.
  unfold group_by_topic. induction ps as [|tp ps IH] using rev_ind; [done|].
  rewrite foldl_app, length_app. simpl. unfold push_partition at 1. rewrite map_size_insert.
  case_match; simpl; lia.
Qed.

Lemma length_sorted_map {V} (m : gmap string V) : length (sorted_map m) = size m.
Proof. by rewrite sorted_map_perm, length_map_to_list. Qed.

(** what the sticky assignor writes into its subscription it reads back:
    the generation, and the owned partitions in some order. The bounds are the
    ones the encoder clamps at: topic names of at most 32767 bytes and at most
    [i32::MAX] partitions. *)
Theorem sticky_user_data_roundtrip ps generation :
  Forall (λ tp : topic_partition, str_wf tp.1 ∧ str_len tp.1 ≤ i16_max ∧ is_i32 tp.2) ps →
  Z.of_nat (length ps) ≤ i32_max → is_i32 generation →
  ∃ owned, owned ≡ₚ ps ∧
    decode_sticky_user_data (subscription_user_data Sticky (Some ps) generation) = (owned, generation).
Proof.
  intros Hps Hlen Hg. exists (concat ((λ e : string * list Z, (e.1,.) <$> sort_by Z.le e.2) <$>
    sorted_map (group_by_topic ps))).
  split.
  { rewrite written_perm, sorted_map_perm. apply group_by_topic_ungroup. }
  unfold subscription_user_data. cbn [mbind option_bind].
  pose proof (group_size ps) as Hsz.
  rewrite put_array_len_fits by lia. set (body := concat (put_topic <$> _)).
  assert (read_topic_partitions (put_i32 (Z.of_nat (size (group_by_topic ps))) ++ body ++ put_i32 generation) =
    Some (concat ((λ e : string * list Z, (e.1,.) <$> sort_by Z.le e.2) <$>
      sorted_map (group_by_topic ps)), put_i32 generation)) as Hr.
  { unfold read_topic_partitions.
    rewrite (proj2 (Nat.ltb_ge _ _)) by (rewrite length_app, length_put_i32; lia).
    rewrite get_put_i32_app by ints. rewrite to_usize_nat. cbn [mbind option_bind].
    rewrite <- length_sorted_map. apply read_put_topics. apply Forall_forall. intros [t l] Hin.
    rewrite sorted_map_perm, elem_of_map_to_list in Hin.
    eapply group_fits; [done|done|done|]. by eapply group_nonempty. }
  unfold decode_sticky_user_data. destruct (_ ++ _) as [|b buf] eqn:E.
  { apply (f_equal length) in E. rewrite length_app, length_put_i32 in E. simpl in E. lia. }
  rewrite Hr, length_put_i32. rewrite <- (app_nil_r (put_i32 generation)).
  by rewrite get_put_i32_app.
Qed.

(** ** Every assignor *)

(** An assignor's contract names members by id and topics only. *)
Definition id_topics (x : member) : string * list string := (member_id x.1, x.2).

Lemma subscriber_keys (ms ms' : list member) m t :
  id_topics <$> ms = id_topics <$> ms' →
  (∃ x, x ∈ ms ∧ member_id x.1 = m ∧ t ∈ x.2) ↔ (∃ x, x ∈ ms' ∧ member_id x.1 = m ∧ t ∈ x.2).
Proof.
  intros Hk. assert (∀ l : list member, (∃ x, x ∈ l ∧ member_id x.1 = m ∧ t ∈ x.2) ↔
    ∃ ts, (m, ts) ∈ (id_topics <$> l) ∧ t ∈ ts) as H.
  { intros l. setoid_rewrite list_elem_of_fmap. unfold id_topics. naive_solver. }
  by rewrite !H, Hk.
Qed.

Lemma slots_ok_keys ms ms' out :
  id_topics <$> ms = id_topics <$> ms' →
  slots_ok ms' (subscribed_to ms') out → slots_ok ms (subscribed_to ms) out.
Proof.
  intros Hk [Hd Hs]. split.
  - assert (((λ x : member, member_id x.1) <$> ms) = ((λ x : member, member_id x.1) <$> ms')) as Hids.
    { apply (f_equal (fmap fst)) in Hk. by rewrite <- !list_fmap_compose in Hk. }
    by rewrite Hd, Hids.
  - intros m l tp Hl Htp. apply (subscriber_keys _ _ _ _ Hk). by apply (Hs m l).
Qed.

Lemma assignable_keys ms ms' tps tp :
  id_topics <$> ms = id_topics <$> ms' → assignable ms' tps tp ↔ assignable ms tps tp.
Proof.
  intros Hk. unfold assignable. f_equiv. rewrite !Exists_exists.
  pose proof (λ m, subscriber_keys ms ms' m tp.1 Hk) as Hmem. naive_solver.
Qed.

(** The cooperative assignment is part of a valid one. *)
Lemma cooperative_sub members tps :
  NoDup (in_id <$> members) →
  ∃ out, assign_cooperative members tps = Some out ∧ NoDup (assigned out) ∧
    slots_ok (plain <$> members) (subscribed_to (plain <$> members)) out.
Proof.
  intros Hid. destruct (decide (members = [])) as [->|Hne].
  { exists ∅. split_and!; [done|constructor|]. split; [done|].
    intros m l tp H. by rewrite lookup_empty in H. }
  destruct (assign_eager_raw members tps Hid Hne) as (raw & Hs & _ & Hv & _).
  destruct (raw_valid_plain members tps raw Hid Hv) as ([Hpd HP] & _).
  destruct Hv as ([Hd _] & Hn & _). pose proof (ids_nodup members Hid) as Hnd.
  unfold assign_cooperative. rewrite bool_decide_eq_false_2 by done. rewrite Hs. cbn [mbind option_bind].
  eexists. split; [done|]. rewrite sort_values_assigned.
  set (slot := λ id, filter (keeps (owners_of
    (prepopulate_current_assignments members (subscriptions members) tps)) id) (default [] (raw !! id))).
  change (NoDup (assigned (collect_map ((λ id, (id, slot id)) <$> sorted_ids members))) ∧
    slots_ok (plain <$> members) (subscribed_to (plain <$> members))
      (sort_values (collect_map ((λ id, (id, slot id)) <$> sorted_ids members)))).
  split.
  - assert (dom (collect_map ((λ id, (id, slot id)) <$> sorted_ids members)) =
            list_to_set (sorted_ids members)) as Hcd.
    { rewrite collect_map_dom, <- list_fmap_compose. simpl. by rewrite list_fmap_id. }
    rewrite (assigned_ids _ _ Hnd Hcd). rewrite (assigned_ids _ _ Hnd Hd) in Hn.
    eapply sublist_NoDup; [exact Hn|].
    assert (((λ id, default [] (collect_map ((λ id, (id, slot id)) <$> sorted_ids members) !! id)) <$>
      sorted_ids members) = slot <$> sorted_ids members) as ->.
    { apply list_fmap_ext. intros i id Hi. rewrite collect_slots by done.
      by rewrite decide_True by (by eapply list_elem_of_lookup_2). }
    generalize (sorted_ids members). intros l. induction l as [|id l IH]; [done|]. csimpl.
    apply sublist_app; [apply sublist_filter|done].
  - apply sort_values_slots. split.
    + rewrite collect_map_dom, <- Hpd, Hd, <- list_fmap_compose. simpl. by rewrite list_fmap_id.
    + intros m l tp. rewrite collect_slots by done. case_decide; [|done]. intros [= <-].
      unfold slot. rewrite list_elem_of_filter. intros [_ Htp].
      destruct (raw !! m) as [k|] eqn:Hk; simpl in Htp; [eauto|by apply elem_of_nil in Htp].
Qed.

(** C12: whichever assignor the group agreed on, and whatever bytes the members
    put into their user data, the leader's assignment exists, gives every
    member a slot with partitions of its own topics only, and gives no
    partition to two members; every eager assignor also leaves no existing
    partition of a subscribed topic out. *)
Theorem group_assignment_sound assignor members tps :
  NoDup (member_id ∘ gm_key <$> members) → Z.of_nat (length members) ≤ i32_max →
  let ms := keyed_member <$> members in
  ∃ out, assign_group assignor members tps = Some out ∧
    slots_ok ms (subscribed_to ms) out ∧ NoDup (assigned out) ∧
    (assignor ≠ CooperativeSticky → ∀ tp, tp ∈ assigned out ↔ assignable ms tps tp).
Proof.
  intros Hid Hlen ms.
  assert (∀ f, (∀ m, in_id (f m) = member_id (gm_key m)) →
               (∀ m, in_topics (f m) = sub_topics (gm_subscription m)) →
    NoDup (in_id <$> (f <$> members)) ∧
    id_topics <$> ms = id_topics <$> (plain <$> (f <$> members))) as Hf.
  { intros f Hfi Hft. rewrite <- !list_fmap_compose. split.
    - erewrite list_fmap_ext; [exact Hid|]. intros i x _. apply Hfi.
    - unfold ms. rewrite <- list_fmap_compose. apply list_fmap_ext. intros i x _.
      unfold compose, id_topics. simpl. by rewrite Hfi, Hft. }
  destruct assignor; simpl.
  - eexists. split; [done|]. destruct (RangeProofs.assign_members_valid ms tps) as (H1 & H2 & H3);
      [unfold ms; by rewrite length_fmap|]. auto.
  - eexists. split; [done|]. destruct (RoundRobinProofs.assign_valid ms tps) as (H1 & H2 & H3). auto.
  - destruct (Hf sticky_input) as [Hn Hk].
    { intros m. unfold sticky_input. by destruct (decode_sticky_user_data _). }
    { intros m. unfold sticky_input. by destruct (decode_sticky_user_data _). }
    destruct (eager_valid (sticky_input <$> members) tps Hn) as (out & Hout & Hv).
    exists out. destruct Hv as (H1 & H2 & H3). split_and!; [done|by eapply slots_ok_keys|done|].
    intros _ tp. rewrite H3. by apply assignable_keys.
  - destruct (Hf cooperative_input) as [Hn Hk]; [done..|].
    destruct (cooperative_sub (cooperative_input <$> members) tps Hn) as (out & Hout & Hnd & Hs).
    exists out. split_and!; [done|by eapply slots_ok_keys|done|done].
Qed.

(** ** A concrete group *)

Definition owned_before : list topic_partition := [("t", 1); ("u", 0); ("t", 0)].

Lemma sticky_user_data_roundtrip_witness :
  decode_sticky_user_data (subscription_user_data Sticky (Some owned_before) 7) =
    ([("t", 0); ("t", 1); ("u", 0)], 7) ∧
  ∃ owned, owned ≡ₚ owned_before ∧
    decode_sticky_user_data (subscription_user_data Sticky (Some owned_before) 7) = (owned, 7).
Proof.
  split; [vm_compute; reflexivity|].
  apply (sticky_user_data_roundtrip owned_before 7).
  - apply (bool_decide_unpack _). vm_compute. exact I.
  - simpl. ints.
  - ints.
Defined.

Definition sample_group_members : list GroupMember :=
  [mkGroupMember (mkMemberKey "b" None)
     (mkSubscription ["t"; "u"] [] 3 None (subscription_user_data Sticky (Some owned_before) 3));
   mkGroupMember (mkMemberKey "a" (Some "i"))
     (mkSubscription ["t"] [] 3 None (Some [Byte.x00; Byte.x01; Byte.x02]))].

Lemma group_assignment_sound_witness :
  assign_group Sticky sample_group_members some_topics =
    Some {[ "a" := [("t", 0); ("t", 2); ("t", 3)]; "b" := [("t", 1); ("t", 4); ("u", 0)] ]} ∧
  ∃ out, assign_group Sticky sample_group_members some_topics = Some out ∧ NoDup (assigned out).
Proof.
  split; [vm_compute; reflexivity|].
  destruct (group_assignment_sound Sticky sample_group_members some_topics)
    as (out & Hout & _ & Hn & _).
  - apply (bool_decide_unpack _). vm_compute. exact I.
  - vm_compute. discriminate.
  - exists out. exact (conj Hout Hn).
Defined.
