(* ===== verification/FetchSession.v ===== *)
(** * Incremental fetch sessions

    [crates/client-consumer/src/fetch_session.rs]: the session a consumer keeps
    with one broker (KIP-227), and the proof that the broker's view of the
    session stays the set of partitions the consumer wants. The topic id type
    is a parameter: [krabka_protocol]'s [Uuid], of which the code uses equality
    and the default. *)

From S2P Require Import Prelude.

(** ** Metadata *)

Definition INVALID_SESSION_ID : Z := 0.
Definition INITIAL_EPOCH : Z := 0.
Definition FINAL_EPOCH : Z := -1.
Definition FETCH_SESSION_ID_NOT_FOUND : Z := 70.

Record FetchMetadata : Type := mkMetadata { fm_session_id : Z; fm_epoch : Z }.

Definition METADATA_INITIAL : FetchMetadata := mkMetadata INVALID_SESSION_ID INITIAL_EPOCH.

Definition is_full (md : FetchMetadata) : bool :=
  (fm_epoch md =? INITIAL_EPOCH) || (fm_epoch md =? FINAL_EPOCH).

Definition close_existing_attempt_new (md : FetchMetadata) : FetchMetadata :=
  mkMetadata (fm_session_id md) INITIAL_EPOCH.

Definition next_epoch (epoch : Z) : Z :=
  if epoch <? 0 then FINAL_EPOCH else if epoch =? i32_max then 1 else epoch + 1.

Section session.
Context {Uuid : Type} `{Countable Uuid} (uuid_default : Uuid).

(** ** The session *)

Record SessionPartition : Type := mkSessionPartition {
  sp_topic_id : Uuid;
  sp_fetch_offset : Z;
  sp_current_leader_epoch : Z;
  sp_last_fetched_epoch : Z;
  sp_partition_max_bytes : Z;
}.

#[export] Instance SessionPartition_eq_dec : EqDecision SessionPartition.
Proof. solve_decision. Defined.

Record SessionRequest : Type := mkSessionRequest {
  sr_session_id : Z;
  sr_session_epoch : Z;
  sr_partitions : gmap topic_partition SessionPartition;
  sr_forgotten : list (topic_partition * Uuid);
}.

Record FetchSession : Type := mkFetchSession {
  fs_next : FetchMetadata;
  fs_partitions : gmap topic_partition SessionPartition;
}.

Definition FetchSession_default : FetchSession := mkFetchSession METADATA_INITIAL ∅.

Definition session_id (s : FetchSession) : Z := fm_session_id (fs_next s).

(** A partition whose topic was deleted and created again. *)
Definition topic_replaced (s : FetchSession) (key : topic_partition) (next : SessionPartition) : bool :=
  match fs_partitions s !! key with
  | None => false
  | Some previous =>
    bool_decide (sp_topic_id previous ≠ sp_topic_id next) &&
    bool_decide (sp_topic_id previous ≠ uuid_default) &&
    bool_decide (sp_topic_id next ≠ uuid_default)
  end.

Definition any_replaced (s : FetchSession) (wanted : gmap topic_partition SessionPartition) : bool :=
  existsb (λ e, topic_replaced s e.1 e.2) (map_to_list wanted).

(** The order of a [BTreeMap]'s entries. *)
Definition forgotten_le (a b : topic_partition * Uuid) : Prop := tp_le a.1 b.1.

#[export] Instance forgotten_le_dec : RelDecision forgotten_le.
Proof. intros a b. unfold forgotten_le. apply _. Defined.

Definition build (s : FetchSession) (wanted : gmap topic_partition SessionPartition)
    : FetchSession * SessionRequest :=
  let next := if any_replaced s wanted && negb (is_full (fs_next s))
              then close_existing_attempt_new (fs_next s) else fs_next s in
  if is_full next then
    (mkFetchSession next wanted,
     mkSessionRequest (fm_session_id next) (fm_epoch next) wanted [])
  else
    let forgotten := sort_by forgotten_le ((λ e, (e.1, sp_topic_id e.2)) <$>
      map_to_list (filter (λ e, wanted !! e.1 = None) (fs_partitions s))) in
    let changed := filter (λ e, fs_partitions s !! e.1 ≠ Some e.2) wanted in
    (mkFetchSession next wanted,
     mkSessionRequest (fm_session_id next) (fm_epoch next) changed forgotten).

Definition handle_response (s : FetchSession)
    (error_code response_session_id response_partitions throttle_time_ms : Z)
    : FetchSession * bool :=
  let next := fs_next s in
  let to md := mkFetchSession md (fs_partitions s) in
  if negb (error_code =? 0) then
    (to (if error_code =? FETCH_SESSION_ID_NOT_FOUND then METADATA_INITIAL
         else close_existing_attempt_new next), false)
  else if is_full next then
    if (response_partitions =? 0) && (0 <? throttle_time_ms)
    then (to METADATA_INITIAL, false)
    else (to (if response_session_id =? INVALID_SESSION_ID then METADATA_INITIAL
              else mkMetadata response_session_id (next_epoch INITIAL_EPOCH)), true)
  else
    (to (if response_session_id =? INVALID_SESSION_ID then METADATA_INITIAL
         else mkMetadata (fm_session_id next) (next_epoch (fm_epoch next))), true).

Definition handle_error (s : FetchSession) : FetchSession :=
  mkFetchSession (close_existing_attempt_new (fs_next s)) (fs_partitions s).

(** ** The broker's side of the contract

    What KIP-227 has a broker do with a request. It knows a partition by name,
    or, from Fetch v13, by topic id; it adds the partitions a request names and
    then drops the ones it forgets. *)

Inductive wire_key : Type :=
| ByName (tp : topic_partition)
| ById (topic_id : Uuid) (partition : Z).

#[export] Instance wire_key_eq_dec : EqDecision wire_key.
Proof. solve_decision. Defined.

Definition wire (by_id : bool) (tp : topic_partition) (id : Uuid) : wire_key :=
  if by_id then ById id tp.2 else ByName tp.

#[export] Instance wire_key_countable : Countable wire_key.
Proof.
  refine (inj_countable' (λ k, match k with ByName tp => inl tp | ById u p => inr (u, p) end)
            (λ x, match x with inl tp => ByName tp | inr (u, p) => ById u p end) _).
  by intros [].
Defined.

(** The partitions of a session, as the broker knows them. *)
Notation view := (gmap wire_key SessionPartition).

Definition wire_entry (by_id : bool) (e : topic_partition * SessionPartition)
    : wire_key * SessionPartition := (wire by_id e.1 (sp_topic_id e.2), e.2).

Definition view_of (by_id : bool) (m : gmap topic_partition SessionPartition) : view :=
  list_to_map (wire_entry by_id <$> map_to_list m).

Definition broker_update (by_id : bool) (r : SessionRequest) (v : view) : view :=
  foldr (λ e, delete (wire by_id e.1 e.2)) (view_of by_id (sr_partitions r) ∪ v) (sr_forgotten r).

(** The broker's session: its id, the epoch it expects next, its view. *)
Record BrokerSession : Type := mkBrokerSession { bs_id : Z; bs_epoch : Z; bs_view : view }.

(** A full request makes a session with a new id, or none (id 0); an
    incremental request needs the session and its epoch. *)
Inductive answer : Type := Answer (error_code session_id : Z).

Inductive broker_step (by_id : bool) (r : SessionRequest)
    : option BrokerSession → option BrokerSession → answer → Prop :=
| broker_creates b id :
    sr_session_epoch r = INITIAL_EPOCH → id ≠ INVALID_SESSION_ID →
    broker_step by_id r b
      (Some (mkBrokerSession id (next_epoch INITIAL_EPOCH) (view_of by_id (sr_partitions r))))
      (Answer 0 id)
| broker_declines b :
    sr_session_epoch r = INITIAL_EPOCH →
    broker_step by_id r b None (Answer 0 INVALID_SESSION_ID)
| broker_continues b :
    sr_session_epoch r = bs_epoch b → sr_session_id r = bs_id b → bs_epoch b ≠ INITIAL_EPOCH →
    broker_step by_id r (Some b)
      (Some (mkBrokerSession (bs_id b) (next_epoch (bs_epoch b)) (broker_update by_id r (bs_view b))))
      (Answer 0 (bs_id b))
| broker_rejects b code id :
    code ≠ 0 → broker_step by_id r b b (Answer code id).

(** ** The protocol *)

Notation state := (FetchSession * option BrokerSession)%type.

(** Topics have distinct ids, and the ids are known where the broker goes by
    them. *)
Definition ids_known (by_id : bool) (m : gmap topic_partition SessionPartition) : Prop :=
  by_id = true → ∀ tp sp, m !! tp = Some sp → sp_topic_id sp ≠ uuid_default.

Definition ids_distinct (by_id : bool) (m1 m2 : gmap topic_partition SessionPartition) : Prop :=
  by_id = true → ∀ tp1 sp1 tp2 sp2, m1 !! tp1 = Some sp1 → m2 !! tp2 = Some sp2 →
    sp_topic_id sp1 = sp_topic_id sp2 → tp1.1 = tp2.1.

Definition wanted_ok (by_id : bool) (s : FetchSession) (wanted : gmap topic_partition SessionPartition) : Prop :=
  ids_known by_id wanted ∧ ids_distinct by_id wanted wanted ∧
  ids_distinct by_id (fs_partitions s) wanted.

(** One exchange: the consumer builds a request and sees the answer, or sees
    none, after the broker acted on the request or did not get it; the broker
    may drop the session from its cache at any time. *)
Inductive fetch_step (by_id : bool) : state → state → Prop :=
| step_answered s wanted b b' code id partitions throttle :
    wanted_ok by_id s wanted →
    broker_step by_id (build s wanted).2 b b' (Answer code id) →
    fetch_step by_id (s, b)
      ((handle_response (build s wanted).1 code id partitions throttle).1, b')
| step_lost_answer s wanted b b' a :
    wanted_ok by_id s wanted → broker_step by_id (build s wanted).2 b b' a →
    fetch_step by_id (s, b) (handle_error (build s wanted).1, b')
| step_lost_request s wanted b :
    wanted_ok by_id s wanted →
    fetch_step by_id (s, b) (handle_error (build s wanted).1, b)
| step_evict s b : fetch_step by_id (s, b) (s, None).

Definition fetch_reachable (by_id : bool) : state → Prop :=
  rtc (fetch_step by_id) (FetchSession_default, None).

(** When the next request is incremental, a broker that still has the session
    has it under the same id, expects that epoch and sees the same partitions. *)
Record session_inv (by_id : bool) (st : state) : Prop := {
  si_epoch : fm_epoch (fs_next st.1) = INITIAL_EPOCH ∨ 1 ≤ fm_epoch (fs_next st.1);
  si_known : ids_known by_id (fs_partitions st.1);
  si_distinct : ids_distinct by_id (fs_partitions st.1) (fs_partitions st.1);
  si_sync b : st.2 = Some b → is_full (fs_next st.1) = false →
    bs_id b = fm_session_id (fs_next st.1) ∧ bs_epoch b = fm_epoch (fs_next st.1) ∧
    bs_view b = view_of by_id (fs_partitions st.1);
}.

(** ** Views *)

Lemma wire_inj by_id m1 m2 tp1 sp1 tp2 sp2 :
  ids_distinct by_id m1 m2 → m1 !! tp1 = Some sp1 → m2 !! tp2 = Some sp2 →
  wire by_id tp1 (sp_topic_id sp1) = wire by_id tp2 (sp_topic_id sp2) → tp1 = tp2.
Proof.
  intros Hd H1 H2. unfold wire. destruct by_id; [|by intros [=]].
  intros [= Hid Hp]. destruct tp1, tp2. simpl in *. f_equal; [|done].
  by apply (Hd eq_refl _ _ _ _ H1 H2).
Qed.

Lemma view_of_lookup by_id m k sp :
  ids_distinct by_id m m →
  view_of by_id m !! k = Some sp ↔ ∃ tp, m !! tp = Some sp ∧ wire by_id tp (sp_topic_id sp) = k.
Proof.
  intros Hd. unfold view_of. rewrite <- elem_of_list_to_map.
  - rewrite list_elem_of_fmap. split.
    + intros ([tp sp'] & [= -> ->] & Hin). apply elem_of_map_to_list in Hin. eauto.
    + intros (tp & Hm & <-). exists (tp, sp). by rewrite elem_of_map_to_list.
  - rewrite <- list_fmap_compose. apply NoDup_fmap_2_strong; [|apply NoDup_map_to_list].
    intros [tp1 sp1] [tp2 sp2] H1%elem_of_map_to_list H2%elem_of_map_to_list Hw.
    assert (tp1 = tp2) as -> by (by eapply wire_inj). congruence.
Qed.

Lemma forget_lookup by_id (l : list (topic_partition * Uuid)) (v : view) k sp :
  foldr (λ e, delete (wire by_id e.1 e.2)) v l !! k = Some sp ↔
  v !! k = Some sp ∧ ∀ e, e ∈ l → wire by_id e.1 e.2 ≠ k.
Proof.
  induction l as [|e l IH]; simpl.
  - split; [|by intros [? _]]. intros ?. split; [done|]. intros e He. by apply elem_of_nil in He.
  - rewrite lookup_delete_Some, IH. split.
    + intros (Hne & Hv & Hl). split; [done|]. intros e' [->|He]%elem_of_cons; [done|by apply Hl].
    + intros [Hv Hl]. split_and!; [apply Hl; left|done|]. intros e' He. apply Hl. by right.
Qed.

Lemma not_replaced s wanted tp sp sp' by_id :
  any_replaced s wanted = false → fs_partitions s !! tp = Some sp → wanted !! tp = Some sp' →
  ids_known by_id (fs_partitions s) → ids_known by_id wanted →
  wire by_id tp (sp_topic_id sp) = wire by_id tp (sp_topic_id sp').
Proof.
  intros Ha Hs Hw K1 K2. unfold wire. destruct by_id; [|done]. f_equal.
  destruct (decide (sp_topic_id sp = sp_topic_id sp')) as [|Hne]; [done|]. exfalso.
  assert (any_replaced s wanted = true) as Ht; [|congruence].
  unfold any_replaced. apply existsb_exists. exists (tp, sp'). split.
  - by apply list_elem_of_In, elem_of_map_to_list.
  - unfold topic_replaced. simpl. rewrite Hs. rewrite !bool_decide_eq_true_2; try done.
    + by apply (K2 eq_refl tp).
    + by apply (K1 eq_refl tp).
Qed.

(** What [build] does: it records the wanted partitions, and sends all of them,
    or the difference when the session goes on. *)
Lemma build_cases s wanted :
  fs_partitions (build s wanted).1 = wanted ∧
  sr_session_id (build s wanted).2 = fm_session_id (fs_next (build s wanted).1) ∧
  sr_session_epoch (build s wanted).2 = fm_epoch (fs_next (build s wanted).1) ∧
  fm_session_id (fs_next (build s wanted).1) = fm_session_id (fs_next s) ∧
  if is_full (fs_next (build s wanted).1) then
    sr_partitions (build s wanted).2 = wanted ∧ sr_forgotten (build s wanted).2 = [] ∧
    (fm_epoch (fs_next (build s wanted).1) = INITIAL_EPOCH ∨
     fm_epoch (fs_next (build s wanted).1) = fm_epoch (fs_next s))
  else
    any_replaced s wanted = false ∧ fs_next (build s wanted).1 = fs_next s ∧
    sr_partitions (build s wanted).2 = filter (λ e, fs_partitions s !! e.1 ≠ Some e.2) wanted ∧
    sr_forgotten (build s wanted).2 = sort_by forgotten_le ((λ e, (e.1, sp_topic_id e.2)) <$>
      map_to_list (filter (λ e, wanted !! e.1 = None) (fs_partitions s))).
Proof.
  unfold build. destruct (any_replaced s wanted), (is_full (fs_next s)) eqn:Hn; simpl;
    rewrite ?Hn; simpl; rewrite ?Hn; auto 10.
Qed.

(** An incremental request turns the view of the old partitions into the view
    of the wanted ones. *)
Lemma incremental_update by_id s wanted :
  is_full (fs_next (build s wanted).1) = false →
  ids_known by_id (fs_partitions s) → ids_distinct by_id (fs_partitions s) (fs_partitions s) →
  wanted_ok by_id s wanted →
  broker_update by_id (build s wanted).2 (view_of by_id (fs_partitions s)) = view_of by_id wanted.
Proof.
  intros Hf K1 D1 (K2 & D2 & D3).
  destruct (build_cases s wanted) as (_ & _ & _ & _ & Hb). rewrite Hf in Hb.
  destruct Hb as (Hr & _ & Hparts & Hforg). unfold broker_update. rewrite Hparts, Hforg. clear Hparts Hforg.
  set (changed := filter (λ e, fs_partitions s !! e.1 ≠ Some e.2) wanted).
  assert (ids_distinct by_id changed changed) as D4.
  { intros Hb tp1 sp1 tp2 sp2 [H1 _]%map_lookup_filter_Some [H2 _]%map_lookup_filter_Some.
    by apply (D2 Hb). }
  apply map_eq. intros k. apply option_eq. intros sp.
  rewrite forget_lookup, lookup_union_Some_raw, (view_of_lookup by_id wanted) by done.
  assert (∀ tp sp', wanted !! tp = Some sp' → fs_partitions s !! tp ≠ Some sp' →
    view_of by_id changed !! wire by_id tp (sp_topic_id sp') = Some sp') as Hch.
  { intros tp sp' Hw Hne. apply view_of_lookup; [done|]. exists tp. split; [|done].
    by apply map_lookup_filter_Some. }
  split.
  - intros [[Hc|[Hc Ho]] Hfg].
    + apply view_of_lookup in Hc as (tp & [Hw _]%map_lookup_filter_Some & <-); [eauto|done].
    + apply view_of_lookup in Ho as (tp & Ho & <-); [|done].
      destruct (wanted !! tp) as [sp'|] eqn:Hw.
      * destruct (decide (sp = sp')) as [->|Hne]; [eauto|]. exfalso.
        rewrite (not_replaced s wanted tp sp sp' by_id) in Hc by done.
        rewrite Hch in Hc; [done|done|congruence].
      * exfalso. apply (Hfg (tp, sp_topic_id sp)); [|done].
        apply elem_of_sort_by, list_elem_of_fmap. exists (tp, sp). split; [done|].
        by apply elem_of_map_to_list, map_lookup_filter_Some.
  - intros (tp & Hw & <-). split.
    + destruct (decide (fs_partitions s !! tp = Some sp)) as [Ho|Ho]; [right|left; by apply Hch].
      split; [|apply view_of_lookup; eauto].
      destruct (view_of by_id changed !! _) as [sp2|] eqn:E; [|done]. exfalso.
      apply view_of_lookup in E as (tp2 & [Hw2 Hne2]%map_lookup_filter_Some & Hwire); [|done].
      assert (tp2 = tp) as -> by (by eapply (wire_inj by_id wanted wanted)).
      simpl in Hne2. congruence.
    + intros e He Hwire. apply elem_of_sort_by, list_elem_of_fmap in He as ([tp' sp'] & -> & He).
      apply elem_of_map_to_list, map_lookup_filter_Some in He as [Ho Hnw]. simpl in *.
      assert (tp' = tp) as -> by (by eapply (wire_inj by_id (fs_partitions s) wanted)). congruence.
Qed.

(** ** The invariant *)

Lemma next_epoch_pos e : 1 ≤ e → 1 ≤ next_epoch e.
Proof. intros He. unfold next_epoch. repeat case_match; lia. Qed.

Lemma is_full_epoch md : fm_epoch md = INITIAL_EPOCH ∨ 1 ≤ fm_epoch md →
  is_full md = true ↔ fm_epoch md = INITIAL_EPOCH.
Proof.
  unfold is_full, INITIAL_EPOCH, FINAL_EPOCH. intros He.
  destruct (Z.eqb_spec (fm_epoch md) 0), (Z.eqb_spec (fm_epoch md) (-1)); simpl; intuition lia.
Qed.

Lemma build_epoch by_id s b wanted :
  session_inv by_id (s, b) →
  fm_epoch (fs_next (build s wanted).1) = INITIAL_EPOCH ∨ 1 ≤ fm_epoch (fs_next (build s wanted).1).
Proof.
  intros [He _ _ _]. simpl in He. destruct (build_cases s wanted) as (_ & _ & _ & _ & Hb).
  case_match; [destruct Hb as (_ & _ & [->| ->]); auto|]. by destruct Hb as (_ & -> & _).
Qed.

(** What the broker has after a request it accepted. *)
Lemma accepted_view by_id s b wanted b' id :
  session_inv by_id (s, b) → wanted_ok by_id s wanted →
  broker_step by_id (build s wanted).2 b (Some b') (Answer 0 id) →
  bs_view b' = view_of by_id wanted ∧ bs_id b' = id ∧
  if is_full (fs_next (build s wanted).1) then bs_epoch b' = next_epoch INITIAL_EPOCH
  else bs_id b' = fm_session_id (fs_next s) ∧ bs_epoch b' = next_epoch (fm_epoch (fs_next s)).
Proof.
  intros Hinv Hok Hstep. pose proof (build_epoch by_id s b wanted Hinv) as Hep.
  pose proof (is_full_epoch _ Hep) as Hfull.
  destruct (build_cases s wanted) as (_ & Hid & Hepr & _ & Hb).
  inversion Hstep as [b0 id0 H1 H2| |b0 H1 H2 H3|]; subst; simpl; [| |congruence].
  - rewrite Hepr in H1. apply Hfull in H1. rewrite H1 in *. destruct Hb as (-> & _). done.
  - rewrite Hepr in H1. rewrite H1 in Hfull.
    destruct (is_full (fs_next (build s wanted).1)) eqn:Hf; [tauto|].
    pose proof Hb as (_ & Hnext & _). destruct Hinv as [_ K D Hsync]. simpl in *.
    destruct (Hsync b0 eq_refl) as (S1 & S2 & S3); [congruence|].
    rewrite S3, incremental_update by done. by rewrite S1, S2.
Qed.

(** After a response the next request is full, or the session goes on. *)
Lemma response_cases s code id parts throttle :
  let s' := (handle_response s code id parts throttle).1 in
  fs_partitions s' = fs_partitions s ∧
  (fm_epoch (fs_next s') = INITIAL_EPOCH ∨
   code = 0 ∧ id ≠ INVALID_SESSION_ID ∧
   fs_next s' = if is_full (fs_next s) then mkMetadata id (next_epoch INITIAL_EPOCH)
                else mkMetadata (fm_session_id (fs_next s)) (next_epoch (fm_epoch (fs_next s)))).
Proof.
  unfold handle_response. destruct (Z.eqb_spec code 0) as [->|]; simpl; [|case_match; auto].
  destruct (is_full (fs_next s)); [case_match|]; simpl; auto;
    destruct (Z.eqb_spec id INVALID_SESSION_ID); simpl; auto.
Qed.

Lemma session_inv_step by_id st st' :
  session_inv by_id st → fetch_step by_id st st' → session_inv by_id st'.
Proof.
  intros Hinv Hstep. destruct Hstep as [s wanted b b' code id parts throttle Hok Hbs
    |s wanted b b' a Hok Hbs|s wanted b Hok|s b].
  - pose proof (build_epoch by_id s b wanted Hinv) as Hep. pose proof Hok as (K & D & _).
    destruct (build_cases s wanted) as (Hp & _ & _ & Hsid & Hb).
    destruct (response_cases (build s wanted).1 code id parts throttle) as [Hp' Hcase].
    set (s' := (handle_response _ _ _ _ _).1) in *. rewrite Hp in Hp'.
    split; simpl; rewrite ?Hp'; [|done|done|].
    + destruct Hcase as [?|(_ & _ & ->)]; [by left|right].
      destruct (is_full (fs_next (build s wanted).1)) eqn:Hf; simpl; [done|].
      apply next_epoch_pos. destruct Hep as [Hep|]; [|done].
      apply (is_full_epoch _ (or_introl Hep)) in Hep. congruence.
    + intros bs -> Hinc. destruct Hcase as [He|(-> & _ & Hnext)].
      { by apply (is_full_epoch _ (or_introl He)) in He; congruence. }
      destruct (accepted_view by_id s b wanted bs id Hinv Hok Hbs) as (Hv & Hi & Hrest).
      rewrite Hnext. destruct (is_full (fs_next (build s wanted).1)); simpl; [done|].
      destruct Hb as (_ & Hsame & _). rewrite Hsame. by destruct Hrest as [-> ->].
  - destruct (build_cases s wanted) as (Hp & _). destruct Hok as (K & D & _).
    split; simpl; rewrite ?Hp; auto; done.
  - destruct (build_cases s wanted) as (Hp & _). destruct Hok as (K & D & _).
    split; simpl; rewrite ?Hp; auto; done.
  - destruct Hinv as [I1 I2 I3 _]. split; simpl in *; auto; done.
Qed.

Lemma session_inv_reachable by_id st : fetch_reachable by_id st → session_inv by_id st.
Proof.
  intros Hr. unfold fetch_reachable in Hr. revert Hr. revert st. refine (rtc_ind_r _ _ _ _).
  - split; simpl; [by left|done|done|done].
  - intros y z _ Hs Hi. by eapply session_inv_step.
Qed.
End session.

(** C14: the fetch session. Whatever was lost, rejected or evicted before, when
    the broker accepts the next request, full or incremental, by topic name or
    by topic id, its view of the session is exactly the partitions the consumer
    wants; and the session id and epoch of an incremental request are the ones
    a broker that still has the session expects. *)
Theorem fetch_session_in_sync `{Countable Uuid} (uuid_default : Uuid) by_id s b wanted :
  fetch_reachable uuid_default by_id (s, b) → wanted_ok uuid_default by_id s wanted →
  let s' := (build uuid_default s wanted).1 in
  let r := (build uuid_default s wanted).2 in
  (∀ b' id, broker_step by_id r b (Some b') (Answer 0 id) → bs_view b' = view_of by_id wanted) ∧
  (∀ bs, b = Some bs → is_full (fs_next s') = false →
     sr_session_id r = bs_id bs ∧ sr_session_epoch r = bs_epoch bs).
Proof.
  intros Hr Hok s' r. pose proof (session_inv_reachable uuid_default by_id _ Hr) as Hinv.
  pose proof (build_cases uuid_default s wanted) as (_ & Hid & Hep & _ & Hb).
  pose proof (λ b' id, accepted_view uuid_default by_id s b wanted b' id Hinv Hok) as Hacc.
  split.
  - intros b' id Hs. by apply Hacc in Hs as [? _].
  - intros bs -> Hf. unfold s' in Hf. rewrite Hf in Hb. destruct Hb as (_ & Hnext & _).
    destruct (si_sync _ _ _ Hinv bs eq_refl) as (S1 & S2 & _); [simpl; by rewrite <- Hnext|].
    unfold r. rewrite Hid, Hep, S1, S2. by rewrite Hnext.
Qed.

(** Two exchanges: a full request that makes session 9, then a change. *)
Definition tracked (id offset : Z) : SessionPartition := mkSessionPartition id offset 1 1 1024.
Definition first_wanted : gmap topic_partition (SessionPartition (Uuid := Z)) :=
  {[ ("t", 0) := tracked 5 10; ("u", 0) := tracked 6 0 ]}.
Definition then_wanted : gmap topic_partition (SessionPartition (Uuid := Z)) :=
  {[ ("t", 0) := tracked 5 14; ("t", 1) := tracked 5 0 ]}.
Definition after_first : FetchSession (Uuid := Z) :=
  (handle_response (build 0 FetchSession_default first_wanted).1 0 9 2 0).1.

Lemma sample_ids m tp sp :
  m = first_wanted ∨ m = then_wanted → m !! tp = Some sp →
  tp.1 = "t" ∧ sp_topic_id sp = 5 ∨ tp.1 = "u" ∧ sp_topic_id sp = 6.
Proof.
  intros [-> | ->]; unfold first_wanted, then_wanted;
    rewrite lookup_insert_Some, lookup_singleton_Some;
    intros [[<- <-]|[_ [<- <-]]]; auto.
Qed.

Lemma sample_wanted_ok (s : FetchSession (Uuid := Z)) m :
  fs_partitions s = ∅ ∨ fs_partitions s = first_wanted → m = first_wanted ∨ m = then_wanted →
  wanted_ok 0 true s m.
Proof.
  intros Hs Hm. split_and!; intros _.
  - intros tp sp H. apply (sample_ids _ _ _ Hm) in H. lia.
  - intros tp1 sp1 tp2 sp2 H1 H2 E.
    apply (sample_ids _ _ _ Hm) in H1, H2. intuition congruence.
  - intros tp1 sp1 tp2 sp2 H1 H2 E. apply (sample_ids _ _ _ Hm) in H2.
    destruct Hs as [Hs|Hs]; rewrite Hs in H1; [by rewrite lookup_empty in H1|].
    apply (sample_ids _ _ _ (or_introl eq_refl)) in H1. intuition congruence.
Qed.

Lemma fetch_session_in_sync_witness :
  (build 0 after_first then_wanted).2 = mkSessionRequest 9 1 then_wanted [(("u", 0), 6)] ∧
  bs_view (mkBrokerSession 9 2 (broker_update true (build 0 after_first then_wanted).2
    (view_of true first_wanted))) = view_of true then_wanted.
Proof.
  split; [vm_compute; reflexivity|].
  assert (wanted_ok 0 true (FetchSession_default (Uuid := Z)) first_wanted) as Hok1.
  { apply sample_wanted_ok; by left. }
  assert (wanted_ok 0 true after_first then_wanted) as Hok2.
  { apply sample_wanted_ok; right; reflexivity. }
  destruct (fetch_session_in_sync 0 true after_first
    (Some (mkBrokerSession 9 1 (view_of true first_wanted))) then_wanted) as [Hview _]; [|done|].
  - apply rtc_once. apply (step_answered 0 true _ first_wanted); [done|].
    apply (broker_creates true); done.
  - apply (Hview (mkBrokerSession 9 2 _) 9).
    apply (broker_continues true _ (mkBrokerSession 9 1 _)); done.
Defined.
