(* ===== verification/FetchBuffer.v ===== *)
(** * Positions, pauses and the fetch buffer

    [crates/client-consumer/src/position.rs], the pause operations of
    [partition_state.rs] and [fetch_buffer.rs]: what the consumer keeps per
    partition, and how [poll] returns fetched records. The proofs relate what
    [drain] returns to the partition's log. *)

From S2P Require Import Prelude Bytes.

(** ** Positions *)

Record PartitionPosition : Type := mkPosition {
  offset_epoch : Z;
  leader_id : Z;
  leader_epoch : Z;
  awaiting_validation : bool;
}.

Definition PartitionPosition_default : PartitionPosition := mkPosition (-1) (-1) (-1) false.

Inductive ValidationOutcome : Type :=
| Valid (leader_epoch : Z)
| Truncated (safe_offset : Z).

Definition classify (offset offset_epoch leader_epoch leader_end_offset : Z) : ValidationOutcome :=
  if (leader_end_offset <? 0) || (leader_epoch <? offset_epoch) || (leader_end_offset <? offset)
  then Truncated (if leader_end_offset <? 0 then 0 else leader_end_offset)
  else Valid leader_epoch.

(** ** Pauses *)

(** The partitions the consumer owns, each with its ownership id. *)
Notation ownership := (gmap topic_partition Z).

(** The partition an operation was refused for, when it was. *)
Definition pause (ownership_ids paused : ownership) (partitions : list topic_partition)
    : result topic_partition ownership :=
  let collect :=
    foldl (λ acc tp,
             acc ← acc;
             match ownership_ids !! tp with
             | None => Err tp
             | Some id => Ok (acc ++ [(tp, id)])
             end) (Ok []) partitions in
  additions ← collect;
  Ok (foldl (λ m e, <[e.1 := e.2]> m) paused additions).

Definition resume (ownership_ids paused : ownership) (partitions : list topic_partition)
    : result topic_partition ownership :=
  match list_find (λ tp, ownership_ids !! tp = None) partitions with
  | Some (_, tp) => Err tp
  | None => Ok (filter (λ e, e.1 ∉ partitions) paused)
  end.

(** What is left of the pauses, and the partitions whose pause is in effect. *)
Definition paused_of (ownership_ids paused : ownership) : ownership * gset topic_partition :=
  let paused := filter (λ e, ownership_ids !! e.1 = Some e.2) paused in
  (paused, dom paused).

(** ** Records *)

Inductive TimestampType : Type := CreateTime | LogAppendTime.

Record ConsumerRecord : Type := mkRecord {
  cr_topic : string;
  cr_partition : Z;
  cr_offset : Z;
  cr_leader_epoch : Z;
  cr_timestamp : Z;
  cr_timestamp_type : TimestampType;
  cr_key : option bytes;
  cr_value : option bytes;
  cr_headers : list (string * option bytes);
}.

Definition record_tp (r : ConsumerRecord) : topic_partition := (cr_topic r, cr_partition r).

(** ** The buffer *)

Record BufferedPartition : Type := mkBuffered {
  bp_key : topic_partition;
  bp_position : Z;
  bp_records : list ConsumerRecord;
  bp_next_offset : Z;
  bp_last_epoch : option Z;
}.

Notation FetchBuffer := (list BufferedPartition).

Definition push (buffer : FetchBuffer) (p : BufferedPartition) : FetchBuffer := buffer ++ [p].

(** The inner loop of [drain]: the records that stay, the position, the epoch
    of the last record taken, and everything returned so far. *)
Fixpoint pop_records (max_records : nat) (records : list ConsumerRecord) (position : Z)
    (consumed_epoch : option Z) (out : list ConsumerRecord)
    : list ConsumerRecord * Z * option Z * list ConsumerRecord :=
  match records with
  | [] => ([], position, consumed_epoch, out)
  | record :: rest =>
    if (length out <? max_records)%nat
    then pop_records max_records rest (cr_offset record + 1) (Some (cr_leader_epoch record))
           (out ++ [record])
    else (records, position, consumed_epoch, out)
  end.

Record Drained : Type := mkDrained {
  dr_partitions : FetchBuffer;
  dr_offsets : gmap topic_partition Z;
  dr_positions : gmap topic_partition PartitionPosition;
  dr_out : list ConsumerRecord;
}.

Definition set_epoch (key : topic_partition) (epoch : Z)
    (positions : gmap topic_partition PartitionPosition) : gmap topic_partition PartitionPosition :=
  let p := default PartitionPosition_default (positions !! key) in
  <[key := mkPosition epoch (leader_id p) (leader_epoch p) (awaiting_validation p)]> positions.

(** The loop of [drain], with the data of paused partitions set aside. *)
Fixpoint drain_loop (max_records : nat) (assigned paused : gset topic_partition)
    (partitions paused_data : FetchBuffer) (offsets : gmap topic_partition Z)
    (positions : gmap topic_partition PartitionPosition) (out : list ConsumerRecord) : Drained :=
  match partitions with
  | [] => mkDrained paused_data offsets positions out
  | p :: rest =>
    if bool_decide (bp_key p ∉ assigned) || bool_decide (offsets !! bp_key p ≠ Some (bp_position p))
    then drain_loop max_records assigned paused rest paused_data offsets positions out
    else if bool_decide (bp_key p ∈ paused)
    then drain_loop max_records assigned paused rest (paused_data ++ [p]) offsets positions out
    else
      let '(records, position, consumed_epoch, out) :=
        pop_records max_records (bp_records p) (bp_position p) None out in
      let complete := bool_decide (records = []) in
      let position := if complete then bp_next_offset p else position in
      let consumed_epoch :=
        if complete then match bp_last_epoch p with Some e => Some e | None => consumed_epoch end
        else consumed_epoch in
      let offsets := if complete || bool_decide (is_Some consumed_epoch)
                     then <[bp_key p := position]> offsets else offsets in
      let positions := match consumed_epoch with
                       | Some epoch => set_epoch (bp_key p) epoch positions
                       | None => positions
                       end in
      if negb complete
      then mkDrained (mkBuffered (bp_key p) position records (bp_next_offset p) (bp_last_epoch p)
                        :: rest ++ paused_data) offsets positions out
      else if (max_records <=? length out)%nat
      then mkDrained (rest ++ paused_data) offsets positions out
      else drain_loop max_records assigned paused rest paused_data offsets positions out
  end.

Definition drain (buffer : FetchBuffer) (max_records : nat) (assigned paused : gset topic_partition)
    (offsets : gmap topic_partition Z) (positions : gmap topic_partition PartitionPosition) : Drained :=
  drain_loop max_records assigned paused buffer [] offsets positions [].

Definition retain_topics (buffer : FetchBuffer) (topics : gset string) : FetchBuffer :=
  filter (λ p, (bp_key p).1 ∈ topics) buffer.

Definition buffered_partitions (buffer : FetchBuffer) : gset topic_partition :=
  list_to_set (bp_key <$> buffer).

(** ** Delivery *)

Lemma StronglySorted_filter {A} (R : relation A) (P : A → Prop) `{!∀ x, Decision (P x)} l :
  StronglySorted R l → StronglySorted R (filter P l).
Proof.
  induction 1 as [|x l Hs IH Hx]; [constructor|]. rewrite filter_cons.
  case_decide; [|done]. constructor; [done|]. apply Forall_forall. intros y [_ Hy]%list_elem_of_filter.
  rewrite Forall_forall in Hx. by apply Hx.
Qed.

Section delivery.
Context (log : topic_partition → list ConsumerRecord).

Definition offset_lt (a b : ConsumerRecord) : Prop := cr_offset a < cr_offset b.

(** The log of a partition: its records by increasing offset. *)
Context (Hsorted : ∀ k, StronglySorted offset_lt (log k)).
Context (Hlog : ∀ k r, r ∈ log k → record_tp r = k).

(** The records of a partition between two positions. *)
Definition slice (k : topic_partition) (a b : Z) : list ConsumerRecord :=
  filter (λ r, a ≤ cr_offset r < b) (log k).

(** Buffered data is what the log has between its position and its end. *)
Definition entry_ok (p : BufferedPartition) : Prop :=
  bp_records p = slice (bp_key p) (bp_position p) (bp_next_offset p) ∧
  bp_position p ≤ bp_next_offset p.

Lemma slice_nil k a : slice k a a = [].
Proof. apply filter_none. intros r _. lia. Qed.

Lemma sorted_filter_split (l : list ConsumerRecord) a b c :
  StronglySorted offset_lt l → a ≤ b → b ≤ c →
  filter (λ r, a ≤ cr_offset r < b) l ++ filter (λ r, b ≤ cr_offset r < c) l =
  filter (λ r, a ≤ cr_offset r < c) l.
Proof.
  intros Hs Hab Hbc. induction Hs as [|x l Hs IH Hx]; [done|]. rewrite Forall_forall in Hx.
  destruct (decide (cr_offset x < b)).
  - rewrite (filter_cons_False (λ r, b ≤ cr_offset r < c)) by lia.
    rewrite !filter_cons. destruct (decide (a ≤ cr_offset x < b)), (decide (a ≤ cr_offset x < c));
      try lia; simpl; by rewrite IH.
  - rewrite (filter_cons_False (λ r, a ≤ cr_offset r < b)) by lia.
    rewrite (filter_none (λ r, a ≤ cr_offset r < b)) in *; [simpl in *|
      intros r Hr; specialize (Hx r Hr); unfold offset_lt in Hx; lia..].
    rewrite !filter_cons.
    destruct (decide (b ≤ cr_offset x < c)), (decide (a ≤ cr_offset x < c)); try lia; by rewrite IH.
Qed.

Lemma slice_app k a b c : a ≤ b → b ≤ c → slice k a b ++ slice k b c = slice k a c.
Proof. intros. by apply sorted_filter_split. Qed.

(** A slice cut after its record [x]. *)
Lemma slice_cut k a c l1 x l2 :
  slice k a c = l1 ++ x :: l2 →
  a ≤ cr_offset x < c ∧ slice k a (cr_offset x + 1) = l1 ++ [x] ∧ slice k (cr_offset x + 1) c = l2.
Proof.
  intros Hs.
  assert (a ≤ cr_offset x < c) as Hx.
  { assert (x ∈ slice k a c) as Hin by (rewrite Hs; set_solver).
    unfold slice in Hin. by apply list_elem_of_filter in Hin as [? _]. }
  split; [done|].
  pose proof (slice_app k a (cr_offset x + 1) c ltac:(lia) ltac:(lia)) as Happ. rewrite Hs in Happ.
  assert (StronglySorted offset_lt (l1 ++ x :: l2)) as Hss.
  { rewrite <- Hs. unfold slice. by apply StronglySorted_filter. }
  assert (∀ r, r ∈ slice k a (cr_offset x + 1) → cr_offset r < cr_offset x + 1) as H1
    by (intros r [? _]%list_elem_of_filter; lia).
  assert (∀ r, r ∈ slice k (cr_offset x + 1) c → cr_offset x + 1 ≤ cr_offset r) as H2
    by (intros r [? _]%list_elem_of_filter; lia).
  revert Happ Hss H1 H2. generalize (slice k a (cr_offset x + 1)) as s1.
  generalize (slice k (cr_offset x + 1) c) as s2. clear Hs Hx.
  induction l1 as [|y l1 IH]; intros s2 s1 Happ Hss H1 H2; simpl in *.
  - inversion Hss as [|? ? _ Hall]; subst. rewrite Forall_forall in Hall.
    destruct s1 as [|z s1]; simpl in Happ.
    { specialize (H2 x ltac:(rewrite Happ; left)). lia. }
    injection Happ as -> Happ. destruct s1 as [|w s1]; simpl in Happ; [done|].
    exfalso. assert (w ∈ l2) as Hw by (rewrite <- Happ; left).
    specialize (Hall w Hw). specialize (H1 w ltac:(right; left)). unfold offset_lt in Hall. lia.
  - inversion Hss as [|? ? Hss' Hall]; subst. rewrite Forall_forall in Hall.
    destruct s1 as [|z s1]; simpl in Happ.
    { specialize (H2 y ltac:(rewrite Happ; left)).
      assert (x ∈ l1 ++ x :: l2) as Hin by set_solver. specialize (Hall x Hin).
      unfold offset_lt in Hall. lia. }
    injection Happ as -> Happ. destruct (IH s2 s1 Happ Hss') as [-> ->]; [set_solver..|done].
Qed.

(** ** What one entry gives *)

Lemma pop_records_spec max records position epoch out :
  let n := (max - length out)%nat in
  let '(rest, position', epoch', out') := pop_records max records position epoch out in
  rest = drop n records ∧ out' = out ++ take n records ∧
  match last (take n records) with
  | None => position' = position ∧ epoch' = epoch
  | Some r => position' = cr_offset r + 1 ∧ epoch' = Some (cr_leader_epoch r)
  end.
Proof.
  revert position epoch out. induction records as [|r records IH]; intros position epoch out; simpl.
  { rewrite drop_nil, take_nil, app_nil_r. done. }
  destruct (Nat.ltb_spec (length out) max) as [Hlt|Hge].
  - specialize (IH (cr_offset r + 1) (Some (cr_leader_epoch r)) (out ++ [r])).
    rewrite length_app in IH. simpl in IH.
    replace (max - length out)%nat with (S (max - (length out + 1))) by lia. simpl.
    destruct (pop_records _ _ _ _ _) as [[[rest p'] e'] out']. destruct IH as (-> & -> & Hl).
    rewrite <- (assoc_L (++)). split_and!; [done|done|]. rewrite last_cons.
    by destruct (last (take _ records)).
  - replace (max - length out)%nat with 0%nat by lia. simpl. by rewrite app_nil_r.
Qed.

(** The records of [new] account for the positions moving from [offsets] to
    [offsets']: for each partition they are the slice of its log between the
    two positions, in order. *)
Definition delivers (offsets offsets' : gmap topic_partition Z) (new : list ConsumerRecord) : Prop :=
  dom offsets' = dom offsets ∧
  ∀ k, match offsets !! k, offsets' !! k with
       | Some a, Some b => a ≤ b ∧ filter (λ r, record_tp r = k) new = slice k a b
       | _, _ => filter (λ r, record_tp r = k) new = []
       end.

Lemma delivers_nil offsets : delivers offsets offsets [].
Proof. split; [done|]. intros k. destruct (offsets !! k); [|done]. rewrite slice_nil. done. Qed.

Lemma delivers_app o1 o2 o3 n1 n2 :
  delivers o1 o2 n1 → delivers o2 o3 n2 → delivers o1 o3 (n1 ++ n2).
Proof.
  intros [D1 H1] [D2 H2]. split; [congruence|]. intros k. specialize (H1 k). specialize (H2 k).
  assert (is_Some (o2 !! k) ↔ is_Some (o1 !! k)) as E1 by (by rewrite <- !elem_of_dom, D1).
  assert (is_Some (o3 !! k) ↔ is_Some (o2 !! k)) as E2 by (by rewrite <- !elem_of_dom, D2).
  rewrite filter_app. destruct (o1 !! k) as [a|], (o2 !! k) as [b|], (o3 !! k) as [c|];
    try (by destruct E1 as [E _]; destruct (E ltac:(eauto)));
    try (by destruct E1 as [_ E]; destruct (E ltac:(eauto)));
    try (by destruct E2 as [E _]; destruct (E ltac:(eauto)));
    try (by destruct E2 as [_ E]; destruct (E ltac:(eauto))).
  - destruct H1 as [? ->], H2 as [? ->]. split; [lia|]. by apply slice_app.
  - by rewrite H1, H2.
Qed.

Lemma filter_slice k a b k' :
  filter (λ r, record_tp r = k') (slice k a b) = if decide (k = k') then slice k a b else [].
Proof.
  case_decide as E.
  - apply filter_all. intros r [_ Hr]%list_elem_of_filter. subst. by apply Hlog.
  - apply filter_none. intros r [_ Hr]%list_elem_of_filter Hk. apply E. rewrite <- Hk. symmetry. by apply Hlog.
Qed.

(** Returning a slice of one partition and moving its position to the end. *)
Lemma delivers_slice offsets k a b :
  offsets !! k = Some a → a ≤ b → delivers offsets (<[k := b]> offsets) (slice k a b).
Proof.
  intros Hk Hab. split.
  - rewrite dom_insert_L. assert (k ∈ dom offsets) by (by apply elem_of_dom). set_solver.
  - intros k'. rewrite filter_slice. destruct (decide (k = k')) as [<-|Hne].
    + by rewrite Hk, lookup_insert_eq.
    + rewrite lookup_insert_ne by done. destruct (offsets !! k'); [|done]. by rewrite slice_nil.
Qed.

(** One turn of the loop on data that is in effect. *)
Lemma entry_turn max p offsets out :
  entry_ok p → offsets !! bp_key p = Some (bp_position p) →
  let '(records, position, epoch, out') :=
    pop_records max (bp_records p) (bp_position p) None out in
  let complete := bool_decide (records = []) in
  let position := if complete then bp_next_offset p else position in
  let epoch := if complete then match bp_last_epoch p with Some e => Some e | None => epoch end
               else epoch in
  let offsets' := if complete || bool_decide (is_Some epoch)
                  then <[bp_key p := position]> offsets else offsets in
  ∃ new, out' = out ++ new ∧ delivers offsets offsets' new ∧
    (length out ≤ max → length out' ≤ max)%nat ∧
    entry_ok (mkBuffered (bp_key p) position records (bp_next_offset p) (bp_last_epoch p)).
Proof.
  intros [Hrec Hle] Hoff. pose proof (pop_records_spec max (bp_records p) (bp_position p) None out) as Hs.
  destruct (pop_records _ _ _ _ _) as [[[records position] epoch] out'].
  set (n := (max - length out)%nat) in *. destruct Hs as (-> & -> & Hlast). cbn zeta.
  exists (take n (bp_records p)).
  assert ((length out ≤ max → length (out ++ take n (bp_records p)) ≤ max)%nat) as Hlen
    by (rewrite length_app, length_take; lia).
  destruct (decide (drop n (bp_records p) = [])) as [Hd|Hd].
  - rewrite bool_decide_eq_true_2 by done. simpl.
    assert (take n (bp_records p) = bp_records p) as Ht.
    { rewrite <- (take_drop n (bp_records p)) at 2. by rewrite Hd, app_nil_r. }
    split_and!; [done| |done|].
    + rewrite Ht, Hrec. by apply delivers_slice.
    + split; simpl; [by rewrite Hd, slice_nil|lia].
  - rewrite bool_decide_eq_false_2 by done. simpl.
    destruct (last (take n (bp_records p))) as [x|] eqn:Hx.
    + destruct Hlast as [-> ->]. rewrite bool_decide_eq_true_2 by eauto.
      apply last_Some in Hx as [l1 Hl1].
      assert (slice (bp_key p) (bp_position p) (bp_next_offset p) = l1 ++ x :: drop n (bp_records p)) as Hcut.
      { rewrite <- Hrec, <- (take_drop n (bp_records p)) at 1. by rewrite Hl1, <- (assoc_L (++)). }
      apply slice_cut in Hcut as (Hr & H1 & H2).
      split_and!; [done| |done|].
      * rewrite Hl1, <- H1. apply delivers_slice; [done|lia].
      * split; simpl; [by rewrite H2|lia].
    + destruct Hlast as [-> ->]. rewrite bool_decide_eq_false_2 by (by intros [? ?]).
      apply last_None in Hx. rewrite Hx. split_and!; [done|apply delivers_nil| |].
      * by rewrite Hx in Hlen.
      * assert (drop n (bp_records p) = bp_records p) as ->; [|done].
        rewrite <- (take_drop n (bp_records p)) at 2. by rewrite Hx.
Qed.

Record drain_ok (max : nat) (assigned paused : gset topic_partition) (offsets : gmap topic_partition Z)
    (out : list ConsumerRecord) (d : Drained) : Prop := {
  do_entries : Forall entry_ok (dr_partitions d);
  do_out : ∃ new, dr_out d = out ++ new ∧ delivers offsets (dr_offsets d) new;
  do_max : (length out ≤ max → length (dr_out d) ≤ max)%nat;
  do_still k : k ∉ assigned ∨ k ∈ paused → dr_offsets d !! k = offsets !! k;
}.

Lemma drain_loop_ok max assigned paused partitions paused_data offsets positions out :
  Forall entry_ok partitions → Forall entry_ok paused_data →
  drain_ok max assigned paused offsets out
    (drain_loop max assigned paused partitions paused_data offsets positions out).
Proof.
  intros Hps. revert paused_data offsets positions out.
  induction Hps as [|p rest Hp Hrest IH]; intros paused_data offsets positions out Hpd.
  { split; simpl; [done| |done|done]. exists []. rewrite app_nil_r. split; [done|apply delivers_nil]. }
  cbn [drain_loop].
  destruct (bool_decide (bp_key p ∉ assigned)) eqn:Ha; [by apply IH|]. simpl.
  destruct (bool_decide (offsets !! bp_key p ≠ Some (bp_position p))) eqn:Ho; [by apply IH|].
  destruct (bool_decide (bp_key p ∈ paused)) eqn:Hpa.
  { apply IH. apply Forall_app. by split; [|apply Forall_singleton]. }
  apply bool_decide_eq_false, dec_stable in Ha. apply bool_decide_eq_false, dec_stable in Ho.
  apply bool_decide_eq_false in Hpa.
  pose proof (entry_turn max p offsets out Hp Ho) as Ht.
  destruct (pop_records max (bp_records p) (bp_position p) None out) as [[[records position] epoch] out'].
  cbn zeta in Ht.
  set (complete := bool_decide (records = [])) in *.
  set (position' := if complete then bp_next_offset p else position) in *.
  set (epoch' := if complete then _ else epoch) in *.
  set (offsets' := if complete || bool_decide (is_Some epoch') then _ else offsets) in *.
  destruct Ht as (new & -> & Hdel & Hmax & Hent).
  assert (∀ k, k ∉ assigned ∨ k ∈ paused → offsets' !! k = offsets !! k) as Hstill.
  { intros k Hk. unfold offsets'. case_match; [|done]. rewrite lookup_insert_ne; [done|].
    intros <-. tauto. }
  destruct complete; simpl.
  - destruct (Nat.leb_spec max (length (out ++ new))).
    + split; simpl; [by apply Forall_app|eauto|done|done].
    + match goal with |- drain_ok _ _ _ _ _ (drain_loop _ _ _ _ _ _ ?q _) =>
        destruct (IH paused_data offsets' q (out ++ new) Hpd) as [I1 (new2 & I2 & I3) I4 I5] end.
      split; [done| | |].
      * exists (new ++ new2). rewrite (assoc_L (++)). split; [done|]. by eapply delivers_app.
      * intros. auto.
      * intros k Hk. rewrite I5 by done. by apply Hstill.
  - split; simpl; [|eauto|done|done]. constructor; [done|]. by apply Forall_app.
Qed.
End delivery.

(** C8: a poll returns exactly the records its positions move over. When the
    buffered data is what the partitions' logs have from its position on, a
    drain returns at most [max_records] records; for every partition the
    returned records are, in order and without a gap, the log's records from
    the old position up to the new one, so that committing the new positions
    never covers a record the application did not get and none comes twice; a
    partition that is paused or not assigned does not move; and what stays in
    the buffer is again what the logs have from its position on. *)
Theorem drain_delivers_positions log buffer max_records assigned paused offsets positions :
  (∀ k, StronglySorted offset_lt (log k)) → (∀ k r, r ∈ log k → record_tp r = k) →
  Forall (entry_ok log) buffer →
  let d := drain buffer max_records assigned paused offsets positions in
  delivers log offsets (dr_offsets d) (dr_out d) ∧
  (length (dr_out d) ≤ max_records)%nat ∧
  (∀ k, k ∉ assigned ∨ k ∈ paused → dr_offsets d !! k = offsets !! k) ∧
  Forall (entry_ok log) (dr_partitions d).
Proof.
  intros Hs Hl Hb d.
  destruct (drain_loop_ok log Hs Hl max_records assigned paused buffer [] offsets positions [] Hb)
    as [H1 (new & H2 & H3) H4 H5]; [constructor|].
  unfold d, drain. split_and!; [by rewrite H2|apply H4; simpl; lia|done|done].
Qed.

(** Partition 0 has records 10, 11 and 13 and ends at 14; two of them fit. *)
Definition sample_record (offset : Z) : ConsumerRecord :=
  mkRecord "t" 0 offset 3 0 CreateTime None None [].
Definition sample_log (k : topic_partition) : list ConsumerRecord :=
  if decide (k = ("t", 0)) then [sample_record 10; sample_record 11; sample_record 13] else [].
Definition sample_buffer : FetchBuffer :=
  [mkBuffered ("t", 0) 10 [sample_record 10; sample_record 11; sample_record 13] 14 (Some 4)].

Lemma drain_delivers_positions_witness :
  let d := drain sample_buffer 2 {[ ("t", 0) ]} ∅ {[ ("t", 0) := 10 ]} ∅ in
  dr_out d = [sample_record 10; sample_record 11] ∧ dr_offsets d = {[ ("t", 0) := 12 ]} ∧
  delivers sample_log {[ ("t", 0) := 10 ]} (dr_offsets d) (dr_out d).
Proof.
  intros d. split; [vm_compute; reflexivity|]. split; [vm_compute; reflexivity|].
  apply (drain_delivers_positions sample_log sample_buffer 2 {[ ("t", 0) ]} ∅ {[ ("t", 0) := 10 ]} ∅).
  - intros k. unfold sample_log. case_decide; repeat constructor; unfold offset_lt; simpl; lia.
  - intros k r. unfold sample_log. case_decide as E; [|intros Hr; by apply elem_of_nil in Hr].
    rewrite E, !elem_of_cons, elem_of_nil. intros [-> |[-> |[-> |[]]]]; done.
  - repeat constructor; simpl; lia.
Defined.

(** ** Pauses follow ownership *)

Lemma pause_collect (own : ownership) ps acc :
  match foldl (λ (acc : result topic_partition (list (topic_partition * Z))) tp,
                 acc ← acc;
                 match own !! tp with None => Err tp | Some id => Ok (acc ++ [(tp, id)]) end)
          (Ok acc) ps with
  | Ok l => ∃ new, l = acc ++ new ∧ new.*1 = ps ∧ ∀ tp id, (tp, id) ∈ new → own !! tp = Some id
  | Err tp => tp ∈ ps ∧ own !! tp = None
  end.
Proof.
  revert acc. induction ps as [|x ps IH]; intros acc; simpl.
  { exists []. rewrite app_nil_r. split_and!; [done|done|]. intros tp id H. by apply elem_of_nil in H. }
  destruct (own !! x) as [id|] eqn:Hx.
  - specialize (IH (acc ++ [(x, id)])).
    destruct (foldl _ (Ok (acc ++ [(x, id)])) ps) as [l|tp].
    + destruct IH as (new & -> & Hf & Hn). exists ((x, id) :: new). rewrite <- (assoc_L (++)).
      split_and!; [done|rewrite fmap_cons; simpl; by rewrite Hf|].
      intros tp id' [[= -> ->]|H]%elem_of_cons; [done|by apply Hn].
    + destruct IH. split; [by right|done].
  - assert (∀ l, foldl (λ (acc : result topic_partition (list (topic_partition * Z))) tp,
      acc ← acc; match own !! tp with None => Err tp | Some id => Ok (acc ++ [(tp, id)]) end)
      (Err x) l = Err x) as -> by (by induction l).
    split; [left|done].
Qed.

Lemma insert_all_lookup (l : list (topic_partition * Z)) (m : ownership) tp :
  (∀ id id', (tp, id) ∈ l → (tp, id') ∈ l → id = id') →
  foldl (λ m e, <[e.1 := e.2]> m) m l !! tp =
  match list_find (λ e, e.1 = tp) l with Some (_, e) => Some e.2 | None => m !! tp end.
Proof.
  revert m. induction l as [|[k v] l IH]; intros m Hu; [done|]. simpl.
  rewrite IH by (intros id id' H1 H2; apply Hu; by right). destruct (decide (k = tp)) as [->|Hne].
  - destruct (list_find _ l) as [[i [k' v']]|] eqn:E; simpl.
    + apply list_find_Some in E as (Hi & Hk & _). simpl in *. subst.
      f_equal. apply Hu; [|left]. right. by eapply list_elem_of_lookup_2.
    + by rewrite lookup_insert_eq.
  - rewrite lookup_insert_ne by done. destruct (list_find _ l) as [[i [k' v']]|]; done.
Qed.

Lemma paused_of_spec (own paused : ownership) tp :
  tp ∈ dom (filter (λ e, own !! e.1 = Some e.2) paused) ↔
  ∃ id, paused !! tp = Some id ∧ own !! tp = Some id.
Proof.
  rewrite elem_of_dom. unfold is_Some. by setoid_rewrite map_lookup_filter_Some.
Qed.

(** pauses. Pausing and resuming succeed exactly when the consumer owns
    every partition named, and else report one it does not own and change
    nothing. After a pause a partition named is paused as long as the consumer
    holds it under the ownership of the pause, so that a rebalance that keeps
    the partition keeps the pause and one that gives it anew does not; resuming
    ends the pause; and neither changes what holds for other partitions. *)
Theorem pause_follows_ownership (own paused : ownership) (ps : list topic_partition) :
  match pause own paused ps with
  | Err tp => tp ∈ ps ∧ own !! tp = None
  | Ok paused' =>
    (∀ tp, tp ∈ ps → is_Some (own !! tp)) ∧
    ∀ own' tp, tp ∈ (paused_of own' paused').2 ↔
      if decide (tp ∈ ps) then own' !! tp = own !! tp else tp ∈ (paused_of own' paused).2
  end ∧
  match resume own paused ps with
  | Err tp => tp ∈ ps ∧ own !! tp = None
  | Ok paused' =>
    (∀ tp, tp ∈ ps → is_Some (own !! tp)) ∧
    ∀ own' tp, tp ∈ (paused_of own' paused').2 ↔ tp ∉ ps ∧ tp ∈ (paused_of own' paused).2
  end.
Proof.
  split.
  - unfold pause. pose proof (pause_collect own ps []) as Hc.
    destruct (foldl _ (Ok []) ps) as [l|tp]; simpl; [|done].
    destruct Hc as (new & -> & Hf & Hn). simpl.
    assert (∀ tp, tp ∈ ps → ∃ id, (tp, id) ∈ new ∧ own !! tp = Some id) as Hps.
    { intros tp Htp. rewrite <- Hf in Htp. apply list_elem_of_fmap in Htp as ([? id] & -> & Hin). eauto. }
    split; [intros tp Htp; by destruct (Hps tp Htp) as (? & _ & ->)|].
    intros own' tp. simpl. rewrite !paused_of_spec.
    rewrite insert_all_lookup by (intros id id' H1%Hn H2%Hn; congruence).
    case_decide as Hin.
    + destruct (Hps tp Hin) as (id & Hid & Hown). rewrite Hown.
      destruct (list_find (λ e, e.1 = tp) new) as [[i [k v]]|] eqn:E.
      * apply list_find_Some in E as (Hi & Hk & _). simpl in *. subst k.
        apply list_elem_of_lookup_2, Hn in Hi. naive_solver.
      * apply list_find_None in E. rewrite Forall_forall in E. by destruct (E _ Hid).
    + destruct (list_find (λ e, e.1 = tp) new) as [[i [k v]]|] eqn:E; [|by rewrite ?paused_of_spec].
      apply list_find_Some in E as (Hi & Hk & _). simpl in *. subst k. destruct Hin.
      rewrite <- Hf. apply list_elem_of_fmap. exists (tp, v). split; [done|].
      by eapply list_elem_of_lookup_2.
  - unfold resume. destruct (list_find _ ps) as [[i tp]|] eqn:E.
    + apply list_find_Some in E as (Hi & Hn & _). split; [by eapply list_elem_of_lookup_2|done].
    + apply list_find_None in E. rewrite Forall_forall in E. split.
      * intros tp Htp. specialize (E tp Htp). destruct (own !! tp); [eauto|done].
      * intros own' tp. simpl. rewrite !paused_of_spec. setoid_rewrite map_lookup_filter_Some. naive_solver.
Qed.
