(* ===== verification/FetchDecode.v ===== *)
(** * Records of a fetched partition

    The decoding of one partition row of a [Fetch] answer, from
    [crates/client-consumer/src/poll.rs]: which batches of the row reach the
    application under [read_committed], the records below the fetch position,
    and where the position goes. The batches and their records are data of
    [krabka-protocol]; offsets stay far below [i64::MAX], so sums do not wrap.

    The proofs relate the decoded entry to the log of the partition: what a
    drain of the buffer then returns is exactly what the log has. *)

From S2P Require Import Prelude Bytes FetchBuffer.

(** ** Data *)

Inductive IsolationLevel : Type := ReadUncommitted | ReadCommitted.

#[global] Instance IsolationLevel_eq_dec : EqDecision IsolationLevel.
Proof. solve_decision. Defined.

Record BatchRecord : Type := mkBatchRecord {
  br_offset_delta : Z;
  br_timestamp_delta : Z;
  br_key : option bytes;
  br_value : option bytes;
  br_headers : list (string * option bytes);
}.

Record RecordBatch : Type := mkBatch {
  rb_base_offset : Z;
  rb_last_offset_delta : Z;
  rb_partition_leader_epoch : Z;
  rb_is_control : bool;
  rb_is_transactional : bool;
  rb_timestamp_type : TimestampType;
  rb_base_timestamp : Z;
  rb_max_timestamp : Z;
  rb_producer_id : Z;
  rb_records : list BatchRecord;
}.

(** A partition row: the batches, when the records are of format 2, and the
    aborted transactions as pairs of first offset and producer id. *)
Record PartitionData : Type := mkPartitionData {
  pd_partition_index : Z;
  pd_error_code : Z;
  pd_high_watermark : Z;
  pd_last_stable_offset : Z;
  pd_diverging_end_offset : Z;
  pd_leader_id : Z;
  pd_leader_epoch : Z;
  pd_preferred_read_replica : Z;
  pd_aborted_transactions : option (list (Z * Z));
  pd_records : option (list RecordBatch);
}.

(** ** Operations *)

Definition is_read_committed (i : IsolationLevel) : bool := bool_decide (i = ReadCommitted).

Definition aborted_txn_started (first_offset batch_base_offset : Z) : bool :=
  first_offset <=? batch_base_offset.

Definition should_drop_aborted_batch (read_committed is_transactional producer_is_aborted : bool) : bool :=
  read_committed && is_transactional && producer_is_aborted.

Definition record_offset (base_offset offset_delta : Z) : Z := base_offset + offset_delta.

Definition record_timestamp (batch : RecordBatch) (record : BatchRecord) : Z * TimestampType :=
  (match rb_timestamp_type batch with
   | CreateTime => rb_base_timestamp batch + br_timestamp_delta record
   | LogAppendTime => rb_max_timestamp batch
   end, rb_timestamp_type batch).

Definition readable_end_offset (isolation : IsolationLevel) (high_watermark last_stable_offset : Z) : Z :=
  match isolation with
  | ReadCommitted => last_stable_offset
  | ReadUncommitted => high_watermark
  end.

Definition batch_last (b : RecordBatch) : Z := rb_base_offset b + rb_last_offset_delta b.

Definition max_of (l : list Z) : option Z :=
  match l with [] => None | x :: l => Some (foldl Z.max x l) end.

Definition next_offset_after (batches : list RecordBatch) : option Z :=
  max_of ((λ b, batch_last b + 1) <$> batches).

(** The order of [(i64, i64)]. *)
Definition pair_le (a b : Z * Z) : Prop := a.1 < b.1 ∨ a.1 = b.1 ∧ a.2 ≤ b.2.

#[global] Instance pair_le_dec : RelDecision pair_le.
Proof. intros a b. unfold pair_le. apply _. Defined.

(** The aborted transactions that have started move to the open ones. *)
Fixpoint start_aborted (base_offset : Z) (aborted : list (Z * Z)) (aborted_pids : gset Z)
    : list (Z * Z) * gset Z :=
  match aborted with
  | (first_offset, pid) :: rest =>
    if aborted_txn_started first_offset base_offset
    then start_aborted base_offset rest ({[ pid ]} ∪ aborted_pids)
    else (aborted, aborted_pids)
  | [] => ([], aborted_pids)
  end.

Definition decode_record (key : topic_partition) (batch : RecordBatch) (r : BatchRecord) : ConsumerRecord :=
  mkRecord key.1 key.2 (record_offset (rb_base_offset batch) (br_offset_delta r))
    (rb_partition_leader_epoch batch) (record_timestamp batch r).1 (record_timestamp batch r).2
    (br_key r) (br_value r) (br_headers r).

Definition decode_batch (key : topic_partition) (fetch_floor : Z) (batch : RecordBatch) : list ConsumerRecord :=
  decode_record key batch <$>
    filter (λ r, fetch_floor ≤ record_offset (rb_base_offset batch) (br_offset_delta r)) (rb_records batch).

(** The loop over the batches. *)
Fixpoint decode_batches (read_committed : bool) (key : topic_partition) (fetch_floor : Z)
    (batches : list RecordBatch) (aborted : list (Z * Z)) (aborted_pids : gset Z) : list ConsumerRecord :=
  match batches with
  | [] => []
  | batch :: rest =>
    let '(aborted, aborted_pids) :=
      if read_committed then start_aborted (rb_base_offset batch) aborted aborted_pids
      else (aborted, aborted_pids) in
    if rb_is_control batch then
      decode_batches read_committed key fetch_floor rest aborted
        (if read_committed then aborted_pids ∖ {[ rb_producer_id batch ]} else aborted_pids)
    else if should_drop_aborted_batch read_committed (rb_is_transactional batch)
              (bool_decide (rb_producer_id batch ∈ aborted_pids))
    then decode_batches read_committed key fetch_floor rest aborted aborted_pids
    else decode_batch key fetch_floor batch
           ++ decode_batches read_committed key fetch_floor rest aborted aborted_pids
  end.

Definition process_partition_records (isolation_level : IsolationLevel) (offsets : gmap topic_partition Z)
    (key : topic_partition) (part : PartitionData) : option BufferedPartition :=
  batches ← pd_records part;
  let fetch_floor := default 0 (offsets !! key) in
  let read_committed := is_read_committed isolation_level in
  let aborted := if read_committed then sort_by pair_le (default [] (pd_aborted_transactions part)) else [] in
  next_offset ← next_offset_after batches;
  Some (mkBuffered key fetch_floor (decode_batches read_committed key fetch_floor batches aborted ∅)
          next_offset (max_of (rb_partition_leader_epoch <$> batches))).

(** ** The log of a partition *)

#[global] Instance pair_le_total : Total pair_le.
Proof. intros [a b] [c d]. unfold pair_le; simpl. lia. Qed.

#[global] Instance pair_le_trans : Transitive pair_le.
Proof. intros [a b] [c d] [e f]. unfold pair_le; simpl. lia. Qed.

Definition batch_lt (a b : RecordBatch) : Prop := batch_last a < rb_base_offset b.

(** The records of a batch lie between its offsets, in order. *)
Record batch_ok (b : RecordBatch) : Prop := {
  bo_last : 0 ≤ rb_last_offset_delta b;
  bo_records : Forall (λ r, 0 ≤ br_offset_delta r ≤ rb_last_offset_delta b) (rb_records b);
  bo_sorted : StronglySorted (λ r r', br_offset_delta r < br_offset_delta r') (rb_records b);
}.

(** The batches of a partition, by offset. *)
Record log_ok (log : list RecordBatch) : Prop := {
  lo_sorted : StronglySorted batch_lt log;
  lo_batches : Forall batch_ok log;
}.

(** An entry of the broker's transaction index: an aborted transaction with the
    offsets of its first record and of its abort marker. *)
Record AbortedTxn : Type := mkTxn { at_first : Z; at_last : Z; at_pid : Z }.

Section log.
(** Whether a control batch is an abort marker. *)
Context (aborts : RecordBatch → bool).

Definition marker_of (pid : Z) (c : RecordBatch) : bool := rb_is_control c && (rb_producer_id c =? pid).

(** Whether the transaction of [pid] that is open before [later] is aborted:
    its next marker decides. *)
Fixpoint aborted_by (later : list RecordBatch) (pid : Z) : bool :=
  match later with
  | [] => false
  | c :: later => if marker_of pid c then aborts c else aborted_by later pid
  end.

(** The records of [batches] that an application reads, with [later] after
    them: no markers, and with [read_committed] nothing of an aborted
    transaction. *)
Definition readable (read_committed : bool) (b : RecordBatch) (later : list RecordBatch) : bool :=
  negb (rb_is_control b) &&
  negb (read_committed && rb_is_transactional b && aborted_by later (rb_producer_id b)).

Fixpoint visible (read_committed : bool) (key : topic_partition) (batches later : list RecordBatch)
    : list ConsumerRecord :=
  match batches with
  | [] => []
  | b :: rest =>
    (if readable read_committed b (rest ++ later) then decode_record key b <$> rb_records b else [])
      ++ visible read_committed key rest later
  end.

Record index_ok (log : list RecordBatch) (index : list AbortedTxn) : Prop := {
  io_sound e : e ∈ index → at_first e ≤ at_last e ∧
    (∃ c, c ∈ log ∧ marker_of (at_pid e) c = true ∧ aborts c = true ∧ rb_base_offset c = at_last e) ∧
    ∀ c, c ∈ log → marker_of (at_pid e) c = true → at_first e ≤ rb_base_offset c → at_last e ≤ rb_base_offset c;
  io_complete before b after : log = before ++ b :: after →
    rb_is_control b = false → rb_is_transactional b = true → aborted_by after (rb_producer_id b) = true →
    ∃ e, e ∈ index ∧ at_pid e = rb_producer_id b ∧ at_first e ≤ rb_base_offset b ≤ at_last e;
}.

(** What a broker answers to a fetch from [floor]: whole batches from the first
    one that ends at [floor] or later, and the aborted transactions whose
    marker is not before [floor] and whose first record is before the end of
    the batches. *)
Record served (read_committed : bool) (log : list RecordBatch) (index : list AbortedTxn) (floor : Z)
    (part : PartitionData) : Prop := {
  sv_batches : ∃ before batches after, pd_records part = Some batches ∧
    log = before ++ batches ++ after ∧ Forall (λ b, batch_last b < floor) before ∧
    Forall (λ b, floor ≤ batch_last b) batches ∧
    (read_committed = true → ∀ first_offset pid,
       (first_offset, pid) ∈ default [] (pd_aborted_transactions part) ↔
       ∃ e next, e ∈ index ∧ at_first e = first_offset ∧ at_pid e = pid ∧ floor ≤ at_last e ∧
         next_offset_after batches = Some next ∧ first_offset < next);
}.

(** ** The filter of aborted transactions *)

Lemma max_of_spec l m : max_of l = Some m → m ∈ l ∧ ∀ x, x ∈ l → x ≤ m.
Proof.
  destruct l as [|x l]; [done|]. simpl. intros [= <-]. revert x.
  induction l as [|y l IH]; intros x; simpl.
  - split; [left|]. intros z Hz. apply list_elem_of_singleton in Hz. lia.
  - destruct (IH (Z.max x y)) as [Hin Hmax]. split.
    + apply elem_of_cons in Hin as [->|]; [|by right; right].
      destruct (Z.max_spec x y) as [[_ ->]|[_ ->]]; [right; left|left].
    + intros z. rewrite !elem_of_cons. intros [->|[->|Hz]];
        [specialize (Hmax (Z.max x y) ltac:(left)); lia|specialize (Hmax (Z.max x y) ltac:(left)); lia|].
      apply Hmax. by right.
Qed.

Lemma start_aborted_spec base q S q' S' :
  StronglySorted pair_le q → start_aborted base q S = (q', S') →
  StronglySorted pair_le q' ∧
  (∀ e, e ∈ q' ↔ e ∈ q ∧ base < e.1) ∧ (∀ p, p ∈ S' ↔ p ∈ S ∨ ∃ f, (f, p) ∈ q ∧ f ≤ base).
Proof.
  intros Hs. revert S. induction Hs as [|[f p] q Hq IH Hall]; intros S; simpl.
  { intros [= <- <-]. split_and!; [constructor|set_solver|set_solver]. }
  unfold aborted_txn_started. destruct (Z.leb_spec f base).
  - intros (H1 & H2 & H3)%IH. split_and!; [done| |].
    + intros e. rewrite H2, elem_of_cons. split; [by intros [? ?]; auto|].
      intros [[->|?] ?]; [simpl in *; lia|done].
    + intros p'. rewrite H3. setoid_rewrite elem_of_cons. rewrite elem_of_union, elem_of_singleton.
      split; [intros [[->|?]|(f' & ? & ?)]; eauto 6|].
      intros [?|(f' & [[= -> ->]|?] & ?)]; eauto 6.
  - intros [= <- <-]. split_and!; [by constructor| |].
    + intros e. split; [|by intros [? ?]]. intros He. split; [done|].
      apply elem_of_cons in He as [->|He]; [simpl; lia|].
      rewrite Forall_forall in Hall. specialize (Hall e He). unfold pair_le in Hall. simpl in Hall. lia.
    + intros p'. split; [by left|]. intros [?|(f' & Hf & Hle)]; [done|].
      apply elem_of_cons in Hf as [[= -> ->]|Hf]; [lia|].
      rewrite Forall_forall in Hall. specialize (Hall _ Hf). unfold pair_le in Hall. simpl in Hall. lia.
Qed.

(** The next marker of [pid] decides, if it is the first in [later]. *)
Lemma aborted_by_marker later pid c :
  StronglySorted batch_lt later → Forall batch_ok later →
  c ∈ later → marker_of pid c = true → aborts c = true →
  (∀ c', c' ∈ later → marker_of pid c' = true → rb_base_offset c ≤ rb_base_offset c') →
  aborted_by later pid = true.
Proof.
  intros Hs Hok Hc Hm Ha Hfirst. induction Hs as [|b later Hs IH Hlt]; [by apply not_elem_of_nil in Hc|]. simpl.
  apply Forall_cons in Hok as [Hb Hok]. apply elem_of_cons in Hc as [<-|Hc]; [by rewrite Hm|].
  destruct (marker_of pid b) eqn:E.
  - specialize (Hfirst b ltac:(left) E). rewrite Forall_forall in Hlt. specialize (Hlt c Hc).
    destruct Hb as [Hb _ _]. unfold batch_lt, batch_last in Hlt. lia.
  - apply IH; [done..|]. intros c' Hc'. apply Hfirst. by right.
Qed.

Lemma decode_batch_floor key floor b :
  decode_batch key floor b = filter (λ r, floor ≤ cr_offset r) (decode_record key b <$> rb_records b).
Proof.
  unfold decode_batch. induction (rb_records b) as [|r l IH]; [done|].
  rewrite fmap_cons. destruct (decide (floor ≤ record_offset (rb_base_offset b) (br_offset_delta r))).
  - rewrite !filter_cons_True by done. rewrite fmap_cons. by f_equal.
  - by rewrite !filter_cons_False.
Qed.

Lemma decode_uncommitted key floor batches later q S :
  decode_batches false key floor batches q S =
  filter (λ r, floor ≤ cr_offset r) (visible false key batches later).
Proof.
  induction batches as [|b batches IH]; [done|]. cbn [decode_batches visible]. rewrite filter_app, <- IH.
  unfold readable. destruct (rb_is_control b); [done|]. simpl. by rewrite decode_batch_floor.
Qed.

Section filter.
Context (log : list RecordBatch) (index : list AbortedTxn) (Hlog : log_ok log) (Hindex : index_ok log index).

(** Offsets around a batch of the log. *)
Lemma log_around before b after :
  log = before ++ b :: after →
  batch_ok b ∧ Forall batch_ok after ∧ StronglySorted batch_lt after ∧
  (∀ c, c ∈ before → rb_base_offset c ≤ batch_last c < rb_base_offset b) ∧
  (∀ c, c ∈ after → batch_last b < rb_base_offset c).
Proof.
  intros Hl. destruct Hlog as [Hs Hok]. rewrite Hl in Hs, Hok.
  apply Forall_app in Hok as [Hok1 Hok2]. apply Forall_cons in Hok2 as [Hb Hok2].
  pose proof (StronglySorted_app_1_r _ _ _ Hs) as Hs2. apply StronglySorted_cons in Hs2 as [Hlt Hs2].
  split_and!; [done|done|done| |].
  - intros c Hc. rewrite Forall_forall in Hok1. destruct (Hok1 c Hc) as [Hc0 _ _].
    pose proof (StronglySorted_app_1_elem_of _ _ _ c b Hs Hc ltac:(left)) as Hcb.
    unfold batch_lt, batch_last in *. lia.
  - intros c Hc. rewrite Forall_forall in Hlt. by apply Hlt.
Qed.

(** The aborted transactions of the answer. *)
Context (floor : Z) (resp : AbortedTxn → Prop) (Hresp : ∀ e, resp e → e ∈ index).

(** The state of the loop before the batches [todo], with [before] all that the
    log has before them: the queue [q] and the open transactions [S] are the
    transactions of the answer whose marker is still to come. *)
Record loop_inv (before todo : list RecordBatch) (q : list (Z * Z)) (S : gset Z) : Prop := {
  li_sorted : StronglySorted pair_le q;
  li_queue f p : (f, p) ∈ q → ∃ e, resp e ∧ at_first e = f ∧ at_pid e = p ∧
    ∀ c, c ∈ before → rb_base_offset c < at_last e;
  li_open p : p ∈ S → ∃ e, resp e ∧ at_pid e = p ∧ (∀ b, b ∈ todo → at_first e ≤ rb_base_offset b) ∧
    ∀ c, c ∈ before → rb_base_offset c < at_last e;
  li_all e : resp e → (∀ c, c ∈ before → rb_base_offset c < at_last e) →
    (at_first e, at_pid e) ∈ q ∨ at_pid e ∈ S ∧ ∀ b, b ∈ todo → at_first e ≤ rb_base_offset b;
}.

(** A transaction whose marker is still to come. *)
Definition pending (before : list RecordBatch) (e : AbortedTxn) : Prop :=
  resp e ∧ ∀ c, c ∈ before → rb_base_offset c < at_last e.

Lemma pending_marker before b after e :
  log = before ++ b :: after → pending before e →
  ∃ c, c ∈ b :: after ∧ marker_of (at_pid e) c = true ∧ aborts c = true ∧
    rb_base_offset c = at_last e ∧ rb_base_offset b ≤ at_last e ∧
    (rb_base_offset b = at_last e → c = b).
Proof.
  intros Hl [He Hlast]. destruct (io_sound _ _ Hindex e (Hresp e He)) as (_ & (c & Hc & Hm & Ha & Hb) & _).
  destruct (log_around _ _ _ Hl) as (Hbok & _ & _ & _ & Hafter). exists c.
  rewrite Hl in Hc. apply elem_of_app in Hc as [Hc|Hc].
  { specialize (Hlast c Hc). lia. }
  split_and!; [done..| |].
  - apply elem_of_cons in Hc as [->|Hc]; [lia|]. specialize (Hafter c Hc).
    destruct Hbok as [Hb0 _ _]. unfold batch_last in Hafter. lia.
  - intros Hbb. apply elem_of_cons in Hc as [->|Hc]; [done|]. specialize (Hafter c Hc).
    destruct Hbok as [Hb0 _ _]. unfold batch_last in Hafter. lia.
Qed.

Section step.
Context (before : list RecordBatch) (b : RecordBatch) (rest later : list RecordBatch).
Context (Hl : log = before ++ b :: rest ++ later).
Context (q q' : list (Z * Z)) (S S' : gset Z).
Context (Hinv : loop_inv before (b :: rest) q S) (Hstart : start_aborted (rb_base_offset b) q S = (q', S')).

Lemma started_open p :
  p ∈ S' ↔ ∃ e, pending before e ∧ at_pid e = p ∧ at_first e ≤ rb_base_offset b.
Proof.
  destruct Hinv as [Hs Hq Ho Ha]. destruct (start_aborted_spec _ _ _ _ _ Hs Hstart) as (_ & _ & ->). split.
  - intros [Hp|(f & Hf & Hle)].
    + destruct (Ho p Hp) as (e & He & <- & Hfirst & Hlast). exists e.
      split_and!; [by split|done|]. apply Hfirst. left.
    + destruct (Hq f p Hf) as (e & He & <- & <- & Hlast). exists e. split_and!; [by split|done|done].
  - intros (e & [He Hlast] & <- & Hle). destruct (Ha e He Hlast) as [?|[? _]]; [right; eauto|by left].
Qed.

Lemma open_iff_aborted :
  (∀ e, e ∈ index → at_first e ≤ rb_base_offset b → batch_last b < at_last e → resp e) →
  rb_is_control b = false → rb_is_transactional b = true →
  bool_decide (rb_producer_id b ∈ S') = aborted_by (rest ++ later) (rb_producer_id b).
Proof.
  intros Hall Hcb Htb. destruct (log_around _ _ _ Hl) as (Hbok & Hok & Hsort & Hbefore & Hafter).
  assert (∀ c, marker_of (rb_producer_id b) c = true → c ≠ b) as Hne.
  { intros c Hm ->. unfold marker_of in Hm. by rewrite Hcb in Hm. }
  apply eq_bool_prop_intro. rewrite bool_decide_spec, started_open. split.
  - intros (e & Hp & Hpid & Hfirst).
    destruct (pending_marker _ _ _ _ Hl Hp) as (c & Hc & Hm & Ha & Hcb' & Hle & _).
    rewrite Hpid in Hm. apply elem_of_cons in Hc as [->|Hc]; [by destruct (Hne b)|].
    apply Is_true_eq_left, (aborted_by_marker _ _ c); try done.
    intros c' Hc' Hm'. destruct (io_sound _ _ Hindex e (Hresp e (proj1 Hp))) as (_ & _ & Hfst).
    rewrite Hcb'. apply Hfst; [rewrite Hl; set_solver|by rewrite Hpid|].
    specialize (Hafter c' Hc'). destruct Hbok as [Hb0 _ _]. unfold batch_last in Hafter. lia.
  - intros Hab%Is_true_eq_true. destruct (io_complete _ _ Hindex _ _ _ Hl Hcb Htb Hab) as (e & He & Hpid & Hf & Hlast).
    exists e. assert (batch_last b < at_last e) as Hlt.
    { destruct (io_sound _ _ Hindex e He) as (_ & (c & Hc & Hm & _ & Hcl) & _). rewrite Hpid in Hm.
      rewrite Hl in Hc. rewrite elem_of_app, elem_of_cons in Hc. destruct Hc as [Hc|[->|Hc]].
      - specialize (Hbefore c Hc). lia.
      - by destruct (Hne b).
      - specialize (Hafter c Hc). lia. }
    split_and!; [split|done|done].
    + by apply Hall.
    + intros c Hc. specialize (Hbefore c Hc). lia.
Qed.

Lemma loop_step :
  loop_inv (before ++ [b]) rest q' (if rb_is_control b then S' ∖ {[ rb_producer_id b ]} else S').
Proof.
  pose proof started_open as Hopen.
  destruct Hinv as [Hs Hq Ho Ha]. destruct (start_aborted_spec _ _ _ _ _ Hs Hstart) as (Hs' & Hq' & HS').
  destruct (log_around _ _ _ Hl) as (Hbok & _ & _ & _ & Hafter).
  assert (∀ c, c ∈ rest → rb_base_offset b ≤ rb_base_offset c) as Hrest.
  { intros c Hc. specialize (Hafter c ltac:(set_solver)). destruct Hbok as [Hb0 _ _]. unfold batch_last in Hafter. lia. }
  split; [done| | |].
  - intros f p [Hf Hlt]%Hq'. destruct (Hq f p Hf) as (e & He & <- & <- & Hlast). exists e. split_and!; [done..|].
    destruct (io_sound _ _ Hindex e (Hresp e He)) as (Hle & _). simpl in Hlt.
    intros c [Hc| ->%list_elem_of_singleton]%elem_of_app; [by apply Hlast|lia].
  - intros p Hp. assert (p ∈ S' ∧ (rb_is_control b = true → p ≠ rb_producer_id b)) as [Hp' Hne].
    { destruct (rb_is_control b); [|done]. set_solver. }
    apply Hopen in Hp' as (e & He & <- & Hfirst). exists e. pose proof He as [Hr Hlast].
    destruct (pending_marker _ _ _ _ Hl He) as (c & _ & Hm & _ & _ & Hle & Hcb).
    split_and!; [done|done|intros c' Hc'; specialize (Hrest c' Hc'); lia|].
    intros c' [Hc'| ->%list_elem_of_singleton]%elem_of_app; [by apply Hlast|].
    destruct (decide (rb_base_offset b = at_last e)) as [Heq|]; [|lia]. exfalso.
    rewrite (Hcb Heq) in Hm. unfold marker_of in Hm.
    apply andb_true_iff in Hm as [Hctl Hpid]. apply (Hne Hctl). lia.
  - intros e He Hlast. assert (∀ c, c ∈ before → rb_base_offset c < at_last e) as Hlast'.
    { intros c Hc. apply Hlast. set_solver. }
    assert (rb_base_offset b < at_last e) as Hlb by (apply Hlast; set_solver).
    assert (at_first e ≤ rb_base_offset b → (at_first e, at_pid e) ∈ q' ∨
      at_pid e ∈ (if rb_is_control b then S' ∖ {[rb_producer_id b]} else S') ∧
      ∀ c, c ∈ rest → at_first e ≤ rb_base_offset c) as Hin.
    { intros Hfirst. right. split; [|intros c Hc; specialize (Hrest c Hc); lia].
      assert (at_pid e ∈ S') by (apply Hopen; exists e; by split_and!; [split|..]).
      destruct (rb_is_control b) eqn:Hctl; [|done]. apply elem_of_difference. split; [done|].
      intros Hpid%elem_of_singleton.
      destruct (io_sound _ _ Hindex e (Hresp e He)) as (_ & _ & Hfst).
      specialize (Hfst b). assert (b ∈ log) by (rewrite Hl; set_solver).
      unfold marker_of in Hfst. rewrite Hctl, Hpid, Z.eqb_refl in Hfst. specialize (Hfst ltac:(done) eq_refl Hfirst). lia. }
    destruct (Z.le_gt_cases (at_first e) (rb_base_offset b)) as [Hf|Hf]; [by apply Hin|].
    destruct (Ha e He Hlast') as [Hinq|[_ Hf']].
    + left. apply Hq'. simpl. by split; [|lia].
    + specialize (Hf' b ltac:(left)). lia.
Qed.
End step.

Lemma decode_committed key before todo later q S :
  log = before ++ todo ++ later → loop_inv before todo q S →
  (∀ b e, b ∈ todo → e ∈ index → at_first e ≤ rb_base_offset b → batch_last b < at_last e → resp e) →
  decode_batches true key floor todo q S =
  filter (λ r, floor ≤ cr_offset r) (visible true key todo later).
Proof.
  revert before q S. induction todo as [|b rest IH]; intros before q S Hl Hinv Hall; [done|].
  cbn [decode_batches visible]. rewrite filter_app.
  destruct (start_aborted (rb_base_offset b) q S) as [q' S'] eqn:Hstart.
  pose proof (loop_step before b rest later Hl q q' S S' Hinv Hstart) as Hinv'.
  specialize (IH (before ++ [b]) q' _ ltac:(by rewrite <- (assoc_L (++))) Hinv'
    ltac:(intros; eapply Hall; [right|..]; eassumption)).
  unfold readable, should_drop_aborted_batch. destruct (rb_is_control b) eqn:Hctl; [done|]. cbn [negb andb].
  rewrite IH. destruct (rb_is_transactional b) eqn:Htx; cbn [negb andb]; [|by rewrite decode_batch_floor].
  rewrite (open_iff_aborted before b rest later Hl q q' S S' Hinv Hstart); [|intros; eapply Hall; [left|..]; eassumption|done|done].
  destruct (aborted_by _ _); [done|]. by rewrite decode_batch_floor.
Qed.
End filter.

(** ** The decoded entry *)

Lemma visible_app rc key b1 b2 later :
  visible rc key (b1 ++ b2) later = visible rc key b1 (b2 ++ later) ++ visible rc key b2 later.
Proof.
  induction b1 as [|b b1 IH]; [done|]. cbn [visible app]. rewrite IH, <- !(assoc_L (++)). done.
Qed.

(** A visible record lies in a batch. *)
Lemma visible_offset rc key batches later r :
  Forall batch_ok batches → r ∈ visible rc key batches later →
  ∃ b, b ∈ batches ∧ rb_base_offset b ≤ cr_offset r ≤ batch_last b ∧ record_tp r = key.
Proof.
  intros Hok. induction Hok as [|b batches Hb Hok IH]; [by intros ?%not_elem_of_nil|]. cbn [visible].
  intros [Hr|Hr]%elem_of_app.
  - exists b. split; [left|]. case_match; [|by apply not_elem_of_nil in Hr].
    apply list_elem_of_fmap in Hr as (x & -> & Hx). destruct Hb as [_ Hrec _]. rewrite Forall_forall in Hrec.
    specialize (Hrec x Hx). simpl. unfold record_offset, batch_last. split; [lia|]. by destruct key.
  - destruct (IH Hr) as (b' & ? & ?). exists b'. split; [by right|done].
Qed.

Lemma visible_sorted rc key batches later :
  StronglySorted batch_lt batches → Forall batch_ok batches → StronglySorted offset_lt (visible rc key batches later).
Proof.
  intros Hs Hok. induction Hs as [|b batches Hs IH Hlt]; [constructor|].
  apply Forall_cons in Hok as [Hb Hok]. cbn [visible]. apply StronglySorted_app. split_and!; [| |by apply IH].
  - intros r r' Hr Hr'. destruct (visible_offset _ _ _ _ _ Hok Hr') as (b' & Hb' & Ho' & _).
    rewrite Forall_forall in Hlt. specialize (Hlt b' Hb'). case_match; [|by apply not_elem_of_nil in Hr].
    apply list_elem_of_fmap in Hr as (x & -> & Hx). destruct Hb as [_ Hrec _]. rewrite Forall_forall in Hrec.
    specialize (Hrec x Hx). unfold offset_lt, batch_lt, batch_last in *. simpl. unfold record_offset. lia.
  - case_match; [|constructor]. destruct Hb as [_ _ Hrec].
    induction Hrec as [|x l Hrec IHl Hx]; constructor; [done|].
    apply Forall_fmap. eapply Forall_impl; [exact Hx|]. intros y Hy. unfold compose, offset_lt. simpl in *.
    unfold record_offset. lia.
Qed.

(** The log of every partition, as the application reads it. *)
Definition log_of (rc : bool) (logs : topic_partition → list RecordBatch) (k : topic_partition)
    : list ConsumerRecord := visible rc k (logs k) [].

Lemma log_of_sorted rc logs k : log_ok (logs k) → StronglySorted offset_lt (log_of rc logs k).
Proof. intros [Hs Hok]. by apply visible_sorted. Qed.

Lemma log_of_tp rc logs k r : log_ok (logs k) → r ∈ log_of rc logs k → record_tp r = k.
Proof. intros [_ Hok] Hr. by destruct (visible_offset _ _ _ _ _ Hok Hr) as (? & _ & _ & ?). Qed.

(** The part of the log that the batches of an answer cover. *)
Lemma slice_of_batches rc logs k floor before batches after next :
  log_ok (logs k) → logs k = before ++ batches ++ after →
  Forall (λ b, batch_last b < floor) before → Forall (λ b, floor ≤ batch_last b) batches →
  next_offset_after batches = Some next →
  slice (log_of rc logs) k floor next =
    filter (λ r, floor ≤ cr_offset r) (visible rc k batches after) ∧ floor ≤ next ∧
  ∀ b, b ∈ batches → batch_last b < next.
Proof.
  intros [Hs Hok] Hl Hbefore Hbatches Hnext. apply max_of_spec in Hnext as [Hin Hmax].
  apply list_elem_of_fmap in Hin as (b & -> & Hb).
  assert (∀ b', b' ∈ batches → batch_last b' < batch_last b + 1) as Hall.
  { intros b' Hb'. specialize (Hmax (batch_last b' + 1)). rewrite list_elem_of_fmap in Hmax.
    specialize (Hmax ltac:(eauto)). lia. }
  rewrite Hl in Hs, Hok. rewrite !Forall_app in Hok. destruct Hok as (Hok1 & Hok2 & Hok3).
  split_and!; [|rewrite Forall_forall in Hbatches; specialize (Hbatches b Hb); lia|done].
  unfold slice, log_of. rewrite Hl, !visible_app, !filter_app.
  rewrite (filter_none _ (visible rc k before _)).
  2:{ intros r Hr. destruct (visible_offset _ _ _ _ _ Hok1 Hr) as (b' & Hb' & Ho & _).
      rewrite Forall_forall in Hbefore. specialize (Hbefore b' Hb'). lia. }
  rewrite (filter_none _ (visible rc k after _)), !app_nil_r.
  2:{ intros r Hr. destruct (visible_offset _ _ _ _ _ Hok3 Hr) as (b' & Hb' & Ho & _).
      apply StronglySorted_app_1_r in Hs.
      pose proof (StronglySorted_app_1_elem_of _ _ _ b b' Hs Hb Hb') as Hlt. unfold batch_lt in Hlt. lia. }
  apply filter_ext_in. intros r Hr. destruct (visible_offset _ _ _ _ _ Hok2 Hr) as (b' & Hb' & Ho & _).
  specialize (Hall b' Hb'). lia.
Qed.

Lemma decode_entry_ok isolation offsets logs index key part p :
  log_ok (logs key) → index_ok (logs key) index →
  served (is_read_committed isolation) (logs key) index (default 0 (offsets !! key)) part →
  process_partition_records isolation offsets key part = Some p →
  bp_key p = key ∧ bp_position p = default 0 (offsets !! key) ∧
  entry_ok (log_of (is_read_committed isolation) logs) p.
Proof.
  intros Hlog Hindex [(before & batches & after & Hrec & Hl & Hbefore & Hbatches & Habort)].
  unfold process_partition_records. rewrite Hrec. simpl.
  destruct (next_offset_after batches) as [next|] eqn:Hnext; [|done]. simpl. intros [= <-]. simpl.
  split_and!; [done|done|]. unfold entry_ok. simpl.
  set (floor := default 0 (offsets !! key)) in *.
  destruct (slice_of_batches (is_read_committed isolation) logs key floor before batches after next) as (-> & Hle & Hend);
    [done..|]. split; [|done].
  destruct (is_read_committed isolation) eqn:Hrc; [|apply decode_uncommitted].
  specialize (Habort eq_refl).
  apply (decode_committed (logs key) index Hlog Hindex floor
    (λ e, e ∈ index ∧ floor ≤ at_last e ∧ at_first e < next)) with (before := before); [by intros e [? _]|done| |].
  - split.
    + apply (sort_by_sorted pair_le).
    + intros f p' Hf. apply elem_of_sort_by, Habort in Hf as (e & ? & He & <- & <- & Hfl & [= <-] & ?).
      exists e. split_and!; [done..|]. intros c Hc.
      rewrite Forall_forall in Hbefore. specialize (Hbefore c Hc).
      destruct Hlog as [_ Hok]. rewrite Hl, Forall_app in Hok. destruct Hok as [Hok _].
      rewrite Forall_forall in Hok. destruct (Hok c Hc) as [Hd _ _]. unfold batch_last in Hbefore. lia.
    + set_solver.
    + intros e (He & Hfl & Hlt) _. left. apply elem_of_sort_by, Habort. by exists e, next.
  - intros b e Hb He Hfirst Hlast. rewrite Forall_forall in Hbatches. specialize (Hbatches b Hb).
    specialize (Hend b Hb). destruct Hlog as [_ Hok]. rewrite Hl, !Forall_app in Hok.
    destruct Hok as (_ & Hok & _). rewrite Forall_forall in Hok. destruct (Hok b Hb) as [Hd _ _].
    unfold batch_last in *. split_and!; [done|lia|lia].
Qed.
End log.

(** C7: decoding a partition row keeps exactly what the application may read.
    When the log's batches are in order, the broker's index names exactly the
    aborted transactions and the row is what the broker serves from the fetch
    position, the decoded entry starts at that position and holds, in order,
    every record from there to the end of the row's batches that is visible at
    the isolation level: no control record, no record below the position, and
    under [read_committed] a transactional record exactly when its own
    transaction was not aborted, with transactions of many producers
    interleaved and several transactions of one producer. A row gives no entry
    only when it has no batches. *)
Theorem read_committed_exact aborts isolation offsets logs index key part :
  log_ok (logs key) → index_ok aborts (logs key) index →
  served (is_read_committed isolation) (logs key) index (default 0 (offsets !! key)) part →
  match process_partition_records isolation offsets key part with
  | Some p =>
    bp_key p = key ∧ bp_position p = default 0 (offsets !! key) ∧ bp_position p ≤ bp_next_offset p ∧
    bp_records p = filter (λ r, bp_position p ≤ cr_offset r < bp_next_offset p)
                     (visible aborts (is_read_committed isolation) key (logs key) [])
  | None => pd_records part = Some []
  end.
Proof.
  intros Hlog Hindex Hserved. destruct (process_partition_records _ _ _ _) as [p|] eqn:Hp.
  - eapply decode_entry_ok in Hp as (Hk & Ho & Hrec & Hle); [|done..]. rewrite Hk in Hrec. done.
  - destruct Hserved as [(before & batches & after & Hb & _)]. unfold process_partition_records in Hp.
    rewrite Hb in Hp |- *. by destruct batches.
Qed.

(** Two producers: the first aborts a transaction at 3 and commits one at 5,
    the second commits its own at 6. *)
Module DemoLog.
Definition batch (base last pid : Z) (control : bool) (deltas : list Z) : RecordBatch :=
  mkBatch base last 0 control true CreateTime 0 0 pid ((λ d, mkBatchRecord d 0 None None []) <$> deltas).
Definition log : list RecordBatch :=
  [batch 0 1 1 false [0; 1]; batch 2 0 2 false [0]; batch 3 0 1 true [];
   batch 4 0 1 false [0]; batch 5 0 1 true []; batch 6 0 2 true []].
Definition index : list AbortedTxn := [mkTxn 0 3 1].
Definition aborts (c : RecordBatch) : bool := rb_base_offset c =? 3.
Definition row : PartitionData := mkPartitionData 0 0 7 7 (-1) (-1) (-1) (-1) (Some [(0, 1)]) (Some log).

Lemma log_is_ok : log_ok log.
Proof. split; repeat (constructor; simpl; try (unfold batch_lt, batch_last; simpl; lia)). Qed.

Lemma index_is_ok : index_ok aborts log index.
Proof.
  split.
  - intros e ->%list_elem_of_singleton. simpl. split; [lia|]. split.
    + exists (batch 3 0 1 true []). split; [unfold log; set_solver|done].
    + intros c Hc Hm Hle. unfold log in Hc. rewrite !elem_of_cons, elem_of_nil in Hc.
      destruct_or! Hc; subst; simpl in *; try done; lia.
  - intros before b after Hl Hc Ht Ha. unfold log in Hl.
    repeat (destruct before as [|? before]; simplify_eq/=; try done);
      exists (mkTxn 0 3 1); (split; [set_solver|]); simpl; split; [done|lia].
Qed.

Lemma row_is_served : served true log index 1 row.
Proof.
  split. exists [], log, []. split_and!; [done|done|constructor|repeat constructor; simpl; unfold batch_last; simpl; lia|].
  intros _ f p. simpl. rewrite list_elem_of_singleton. split.
  - intros [= -> ->]. exists (mkTxn 0 3 1), 7. simpl. split_and!; [set_solver|done|done|lia|done|lia].
  - intros (e & next & ->%list_elem_of_singleton & <- & <- & _). done.
Qed.
End DemoLog.

Lemma read_committed_exact_witness :
  let key := ("t", 0) in
  match process_partition_records ReadCommitted {[ key := 1 ]} key DemoLog.row with
  | Some p => cr_offset <$> bp_records p = [2; 4] ∧ bp_position p = 1 ∧ bp_next_offset p = 7 ∧
              bp_records p = filter (λ r, bp_position p ≤ cr_offset r < bp_next_offset p)
                     (visible DemoLog.aborts true key DemoLog.log [])
  | None => False
  end.
Proof.
  intros key.
  pose proof (read_committed_exact DemoLog.aborts ReadCommitted {[ key := 1 ]} (λ _, DemoLog.log) DemoLog.index key
    DemoLog.row DemoLog.log_is_ok DemoLog.index_is_ok DemoLog.row_is_served) as H.
  destruct (process_partition_records _ _ _ _) as [p|] eqn:Hp; [|done]. destruct H as (_ & _ & _ & Hr).
  vm_compute in Hp. injection Hp as <-. split; [reflexivity|]. split; [reflexivity|]. split; [reflexivity|exact Hr].
Defined.
