(* ===== verification/CoreFetch.v ===== *)
(** * Fetches of one partition

    [crates/client-core/src/fetch.rs]: the request for one partition, and the
    decoding of its answer with the offset of the next fetch. The batches are
    those of [FetchDecode]; sizes and times are whole bytes and milliseconds. *)

From S2P Require Import Prelude Bytes Errors FetchBuffer FetchDecode.

Definition DEFAULT_FETCH_RESPONSE_MAX : Z := 50 * 1024 * 1024.
Definition DEFAULT_FETCH_MIN_BYTES : Z := 1.

(** [FetchMinBytes::new]: the bytes, or nothing when they are not positive. *)
Definition FetchMinBytes_new (value : Z) : option Z := if 0 <? value then Some value else None.

Record FetchedRecord : Type := mkFetchedRecord {
  fd_offset : Z;
  fd_key : option bytes;
  fd_value : option bytes;
  fd_timestamp : Z;
  fd_headers : list (string * option bytes);
}.

Record FetchPartitionResult : Type := mkFetchResult {
  fr_records : list FetchedRecord;
  fr_next_offset : option Z;
}.

Section fetch.
Context {Uuid : Type}.

Record IsolatedFetch : Type := mkIsolatedFetch {
  if_topic : string;
  if_topic_id : Uuid;
  if_partition : Z;
  if_fetch_offset : Z;
  if_max_wait : Z;
  if_max : Z;
  if_partition_max : Z;
  if_fetch_min : Z;
  if_isolation_level : Z;
}.

(** The one partition of the request, as (index, offset, bytes). *)
Record PartitionFetchRequest : Type := mkPartitionFetch {
  pf_max_wait_ms : Z;
  pf_min_bytes : Z;
  pf_max_bytes : Z;
  pf_isolation_level : Z;
  pf_topics : list (string * Uuid * list (Z * Z * Z));
}.

Definition build_partition_fetch (f : IsolatedFetch) : PartitionFetchRequest :=
  mkPartitionFetch (if_max_wait f) (if_fetch_min f) (if_max f) (if_isolation_level f)
    [(if_topic f, if_topic_id f, [(if_partition f, if_fetch_offset f, if_partition_max f)])].
End fetch.

Arguments IsolatedFetch : clear implicits.
Arguments PartitionFetchRequest : clear implicits.

(** ** The answer *)

Definition fetched (batch : RecordBatch) (r : BatchRecord) : FetchedRecord :=
  mkFetchedRecord (record_offset (rb_base_offset batch) (br_offset_delta r)) (br_key r) (br_value r)
    (rb_base_timestamp batch + br_timestamp_delta r) (br_headers r).

Definition fetched_batch (floor : Z) (batch : RecordBatch) : list FetchedRecord :=
  fetched batch <$> filter (λ r, floor ≤ record_offset (rb_base_offset batch) (br_offset_delta r)) (rb_records batch).

Fixpoint fetched_batches (read_committed : bool) (floor : Z) (batches : list RecordBatch)
    (aborted : list (Z * Z)) (aborted_producers : gset Z) : list FetchedRecord :=
  match batches with
  | [] => []
  | batch :: rest =>
    let '(aborted, aborted_producers) :=
      if read_committed then start_aborted (rb_base_offset batch) aborted aborted_producers
      else (aborted, aborted_producers) in
    if rb_is_control batch then
      fetched_batches read_committed floor rest aborted
        (if read_committed then aborted_producers ∖ {[ rb_producer_id batch ]} else aborted_producers)
    else if read_committed && rb_is_transactional batch && bool_decide (rb_producer_id batch ∈ aborted_producers)
    then fetched_batches read_committed floor rest aborted aborted_producers
    else fetched_batch floor batch ++ fetched_batches read_committed floor rest aborted aborted_producers
  end.

Definition advance (floor : Z) (next : option Z) (batches : list RecordBatch) : option Z :=
  foldl (λ next b, Some (Z.max (default floor next) (batch_last b + 1))) next batches.

(** The rows of the partition, in the order of the answer. *)
Fixpoint fetched_rows (read_committed : bool) (partition floor : Z) (rows : list PartitionData)
    (out : list FetchedRecord) (next : option Z)
    : result ClientError.client_error (list FetchedRecord * option Z) :=
  match rows with
  | [] => Ok (out, next)
  | p :: rows =>
    if negb (pd_partition_index p =? partition) then fetched_rows read_committed partition floor rows out next
    else if negb (pd_error_code p =? 0) then Err (ClientError.Server (pd_error_code p))
    else
      match pd_records p with
      | None => fetched_rows read_committed partition floor rows out next
      | Some batches =>
        let aborted := if read_committed then default [] (pd_aborted_transactions p) else [] in
        fetched_rows read_committed partition floor rows
          (out ++ fetched_batches read_committed floor batches (sort_by pair_le aborted) ∅)
          (advance floor next batches)
      end
  end.

Definition fetched_le (a b : FetchedRecord) : Prop := fd_offset a ≤ fd_offset b.

#[global] Instance fetched_le_dec : RelDecision fetched_le.
Proof. intros a b. unfold fetched_le. apply _. Defined.

(** [responses] has the rows of each topic of the answer. *)
Definition partition_progress (responses : list (list PartitionData)) (partition floor isolation_level : Z)
    : result ClientError.client_error FetchPartitionResult :=
  match fetched_rows (isolation_level =? 1) partition floor (mjoin responses) [] None with
  | Err e => Err e
  | Ok (out, next) => Ok (mkFetchResult (sort_by fetched_le out) next)
  end.

(** ** What the answer has *)

(** The same batches pass as in the consumer. *)
Lemma fetched_like_consumer rc key floor batches q S :
  (λ r, (fd_offset r, fd_key r, fd_value r, fd_headers r)) <$> fetched_batches rc floor batches q S =
  (λ r, (cr_offset r, cr_key r, cr_value r, cr_headers r)) <$> decode_batches rc key floor batches q S.
Proof.
  revert q S. induction batches as [|b batches IH]; intros q S; [done|]. cbn [fetched_batches decode_batches].
  destruct (if rc then _ else _) as [q' S']. destruct (rb_is_control b); [done|].
  unfold should_drop_aborted_batch. case_match; [done|].
  rewrite !fmap_app, IH. f_equal. unfold fetched_batch, decode_batch. by rewrite <- !list_fmap_compose.
Qed.

Lemma advance_app floor next b1 b2 : advance floor next (b1 ++ b2) = advance floor (advance floor next b1) b2.
Proof. unfold advance. by rewrite foldl_app. Qed.

(** The next offset is the one of the consumer, when no batch ends before the
    fetch. *)
Lemma advance_next floor batches :
  Forall (λ b, floor ≤ batch_last b) batches → advance floor None batches = next_offset_after batches.
Proof.
  unfold advance, next_offset_after. destruct batches as [|b batches]; [done|]. simpl.
  intros [Hb _]%Forall_cons. rewrite Z.max_r by lia. f_equal. clear Hb.
  generalize (batch_last b + 1). induction batches as [|c batches IH]; intros x; [done|]. simpl. by rewrite IH.
Qed.

(** Offset, key, value and headers. *)
Definition fetched_content (r : FetchedRecord) : Z * option bytes * option bytes * list (string * option bytes) :=
  (fd_offset r, fd_key r, fd_value r, fd_headers r).
Definition consumer_content (r : ConsumerRecord) : Z * option bytes * option bytes * list (string * option bytes) :=
  (cr_offset r, cr_key r, cr_value r, cr_headers r).

Lemma fetched_sorted out l :
  StronglySorted offset_lt l → fetched_content <$> out = consumer_content <$> l → StronglySorted fetched_le out.
Proof.
  intros Hs. revert out. induction Hs as [|x l Hs IH Hx]; intros [|y out] Heq; simplify_eq/=; [constructor|].
  constructor; [by apply IH|]. apply Forall_forall. intros z Hz.
  assert (fetched_content z ∈ consumer_content <$> l) as Hin
    by (match goal with H : _ = consumer_content <$> l |- _ => rewrite <- H end; by apply list_elem_of_fmap_2).
  apply list_elem_of_fmap in Hin as (w & Hw & Hin). rewrite Forall_forall in Hx. specialize (Hx w Hin).
  unfold fetched_le, offset_lt, fetched_content, consumer_content in *. simplify_eq. lia.
Qed.

Section served.
Context (aborts : RecordBatch → bool) (log : list RecordBatch) (index : list AbortedTxn) (key : topic_partition).
Context (Hlog : log_ok log) (Hindex : index_ok aborts log index).

(** The records that the log has from [low] up to [high]. *)
Definition log_between (low high : Z) : list ConsumerRecord :=
  filter (λ r, low ≤ cr_offset r < high) (visible aborts true key log []).

Lemma served_progress partition floor part :
  served true log index floor part → pd_partition_index part = partition → pd_error_code part = 0 →
  ∃ batches records, pd_records part = Some batches ∧
    partition_progress [[part]] partition floor 1 = Ok (mkFetchResult records (next_offset_after batches)) ∧
    match next_offset_after batches with
    | None => batches = [] ∧ records = []
    | Some next => floor < next ∧ fetched_content <$> records = consumer_content <$> log_between floor next
    end.
Proof.
  intros Hserved Hp He.
  pose proof Hserved as [(before & batches & after & Hrec & Hl & Hbefore & Hbatches & _)].
  exists batches. unfold partition_progress. simpl. rewrite Hp, Z.eqb_refl, He, Hrec. simpl.
  rewrite advance_next by done.
  set (out := fetched_batches true floor batches (sort_by pair_le (default [] (pd_aborted_transactions part))) ∅).
  exists (sort_by fetched_le out). split_and!; [done..|].
  pose proof (decode_entry_ok aborts ReadCommitted {[ key := floor ]} (λ _, log) index key part) as Hd.
  rewrite lookup_singleton_eq in Hd. unfold process_partition_records in Hd. rewrite Hrec in Hd. simpl in Hd.
  destruct (next_offset_after batches) as [next|] eqn:Hnext; simpl in Hd; [|by destruct batches].
  destruct (Hd _ Hlog Hindex Hserved eq_refl) as (_ & _ & Hrecs & _). simpl in Hrecs. rewrite lookup_singleton_eq in Hrecs.
  simpl in Hrecs.
  split.
  { apply max_of_spec in Hnext as [Hin _]. apply list_elem_of_fmap in Hin as (b & -> & Hb).
    rewrite Forall_forall in Hbatches. specialize (Hbatches b Hb). lia. }
  assert (fetched_content <$> out = consumer_content <$> log_between floor next) as Hout.
  { unfold out. rewrite (fetched_like_consumer true key floor). exact (f_equal (fmap consumer_content) Hrecs). }
  rewrite sort_by_sorted_id; [exact Hout|]. eapply fetched_sorted; [|exact Hout].
  apply filter_sorted, visible_sorted; apply Hlog.
Qed.
End served.
