(* ===== verification/ConsumerErrors.v ===== *)
(** * Errors of the consumer

    [crates/client-consumer/src/error.rs]: the error enum with the source's
    variants, and the tests on it. A [BTreeSet] of names is its sorted list. *)

From S2P Require Import Prelude Errors.

Definition is_transport_error (error : ClientError.client_error) (includes_timeout : bool) : bool :=
  match error with
  | ClientError.Connect _ _ | ClientError.Tls _ _ | ClientError.Sasl _ _
  | ClientError.Disconnected | ClientError.Io _ => true
  | ClientError.Timeout _ => includes_timeout
  | _ => false
  end.

Module ConsumerError.
Inductive consumer_error : Type :=
| Client (source : ClientError.client_error)
| Protocol (source : string)
| RebalanceFailed (message : string)
| RebalanceListenerFailed (message : string)
| InvalidConfig (message : string)
| StartupAfterJoin (source : consumer_error)
| NotSubscribed
| IllegalState (message : string)
| InvalidArgument (message : string)
| InvalidTopic (topic : string)
| Wakeup
| InvalidGroupId
| Timeout (message : string) (cause : option consumer_error)
| InvalidOffset (offset : Z)
| NoCurrentAssignment (topic : string) (partition : Z)
| RetriableCommitFailed (source : consumer_error)
| CommitInvalid
| CoordinatorUnavailable
| LogTruncation (topic : string) (partition fetch_offset safe_offset : Z)
| Server (code : Z)
| GroupAuthorizationFailed (group : string)
| TopicAuthorizationFailed (topics : list string)
| OffsetFetchFailed (code : Z)
| FencedInstanceId (group_instance_id : string)
| CommitFailed
| RebalanceInProgress (group : string)
| NoOffsetForPartition (partitions : list topic_partition).

Definition is_fatal_offset_fetch_error (e : consumer_error) : bool :=
  match e with
  | GroupAuthorizationFailed _ | TopicAuthorizationFailed _ | OffsetFetchFailed _ => true
  | _ => false
  end.
End ConsumerError.

Notation consumer_error := ConsumerError.consumer_error.
