(* ===== verification/OffsetWire.v ===== *)
(** * The wire forms of offsets

    [crates/client-consumer/src/offset_wire.rs]: the [OffsetFetch] request and
    its answer, the decision on the answer's error codes, and the topics of an
    [OffsetCommit]. A message of [krabka_protocol] has the fields that the
    client sets or reads. The order in which a hash map is visited is an
    argument of the functions that build a list from one. *)

From S2P Require Import Prelude Errors ConsumerErrors.

Definition COORDINATOR_LOAD_IN_PROGRESS : Z := 14.
Definition COORDINATOR_NOT_AVAILABLE : Z := 15.
Definition NOT_COORDINATOR : Z := 16.

(** The offset of a commit, [commit::OffsetAndMetadata]. *)
Record OffsetAndMetadata : Type := mkOffset {
  om_offset : Z;
  om_leader_epoch : option Z;
  om_metadata : string;
}.

#[global] Instance OffsetAndMetadata_eq_dec : EqDecision OffsetAndMetadata.
Proof. solve_decision. Defined.

(** ** Fetch of committed offsets *)

Record OffsetFetchRequest : Type := mkOffsetFetch {
  of_group_id : string;
  of_topics : list (string * list Z);
  of_groups : list (string * list (string * list Z));
  of_require_stable : bool;
}.

Definition build_offset_fetch (group_id : string) (by_topic : list (string * list Z))
    : OffsetFetchRequest :=
  mkOffsetFetch group_id by_topic [(group_id, by_topic)] true.

Record OffsetFetchPartition : Type := mkFetchPartition {
  fp_partition_index : Z;
  fp_committed_offset : Z;
  fp_committed_leader_epoch : Z;
  fp_metadata : option string;
  fp_error_code : Z;
}.

Notation fetch_topic := (string * list OffsetFetchPartition)%type.

Record OffsetFetchGroup : Type := mkFetchGroup {
  fg_error_code : Z;
  fg_topics : list fetch_topic;
}.

Record OffsetFetchResponse : Type := mkFetchResponse {
  fr_error_code : Z;
  fr_topics : list fetch_topic;
  fr_groups : list OffsetFetchGroup;
}.

Definition append_topic_offsets (t : fetch_topic) : list (topic_partition * Z * Z) :=
  (λ p, ((t.1, fp_partition_index p), fp_committed_offset p, fp_committed_leader_epoch p)) <$> t.2.

Definition append_topic_errors (t : fetch_topic) : list (string * Z) :=
  (λ p, (t.1, fp_error_code p)) <$> t.2.

Definition group_topics (groups : list OffsetFetchGroup) : list fetch_topic :=
  concat (fg_topics <$> groups).

Definition parse_offset_fetch (resp : OffsetFetchResponse) : list (topic_partition * Z * Z) :=
  match fr_groups resp with
  | [] => concat (append_topic_offsets <$> fr_topics resp)
  | groups => concat (append_topic_offsets <$> group_topics groups)
  end.

(** The closure [committed] of [parse_committed_offsets]. *)
Definition committed (p : OffsetFetchPartition) : option OffsetAndMetadata :=
  if (fp_error_code p =? 0) && (0 <=? fp_committed_offset p)
  then Some (mkOffset (fp_committed_offset p)
               (if 0 <=? fp_committed_leader_epoch p then Some (fp_committed_leader_epoch p) else None)
               (default "" (fp_metadata p)))
  else None.

Definition parse_committed_offsets (resp : OffsetFetchResponse)
    : gmap topic_partition (option OffsetAndMetadata) :=
  foldl (λ out (t : fetch_topic),
    foldl (λ out p, <[(t.1, fp_partition_index p) := committed p]> out) out t.2)
    ∅ (fr_topics resp ++ group_topics (fr_groups resp)).

Definition UNKNOWN_TOPIC_OR_PARTITION : Z := 3.
Definition TOPIC_AUTHORIZATION_FAILED : Z := 29.
Definition GROUP_AUTHORIZATION_FAILED : Z := 30.
Definition UNSTABLE_OFFSET_COMMIT : Z := 88.
Definition UNKNOWN_TOPIC_ID : Z := 100.

Inductive OffsetFetchAction : Type :=
| Complete
| RetryUnknownTopic (code : Z)
| Retry (code : Z)
| FindCoordinator (code : Z)
| GroupAuthorizationFailed_
| TopicAuthorizationFailed_ (topics : list string)
| Fatal (code : Z).

Definition retriable_codes : list Z :=
  [2; 3; 5; 6; 7; 9; 13; 14; 15; 16; 19; 20; 41; 51; 56; 70; 71; 72; 74; 75; 78; 80; 83; 84; 88;
   89; 100; 103; 106; 122; 123; 133].

Definition is_retriable_error (code : Z) : bool := bool_decide (code ∈ retriable_codes).

Definition classify_group_error (code : Z) : OffsetFetchAction :=
  if (code =? COORDINATOR_NOT_AVAILABLE) || (code =? NOT_COORDINATOR) then FindCoordinator code
  else if code =? GROUP_AUTHORIZATION_FAILED then GroupAuthorizationFailed_
  else if is_retriable_error code then Retry code
  else Fatal code.

(** The loop over the partition errors: the first other code fails at once. *)
Fixpoint scan_errors (partitions : list (string * Z)) (unauthorized : list string) (unstable : bool)
    (unknown_topic : option Z) : OffsetFetchAction :=
  match partitions with
  | [] =>
    if negb (bool_decide (unauthorized = [])) then
      TopicAuthorizationFailed_ (sort_by str_le (remove_dups unauthorized))
    else if unstable then Retry UNSTABLE_OFFSET_COMMIT
    else match unknown_topic with Some code => RetryUnknownTopic code | None => Complete end
  | (topic, code) :: rest =>
    if code =? 0 then scan_errors rest unauthorized unstable unknown_topic
    else if (code =? UNKNOWN_TOPIC_OR_PARTITION) || (code =? UNKNOWN_TOPIC_ID) then
      scan_errors rest unauthorized unstable
        (match unknown_topic with Some _ => unknown_topic | None => Some code end)
    else if code =? TOPIC_AUTHORIZATION_FAILED then
      scan_errors rest (topic :: unauthorized) unstable unknown_topic
    else if code =? UNSTABLE_OFFSET_COMMIT then scan_errors rest unauthorized true unknown_topic
    else Fatal code
  end.

Definition partition_errors (resp : OffsetFetchResponse) : list (string * Z) :=
  concat (append_topic_errors <$> fr_topics resp ++ group_topics (fr_groups resp)).

Definition classify_offset_fetch (resp : OffsetFetchResponse) : OffsetFetchAction :=
  match filter (λ code, code ≠ 0) (fr_error_code resp :: (fg_error_code <$> fr_groups resp)) with
  | code :: _ => classify_group_error code
  | [] => scan_errors (partition_errors resp) [] false None
  end.

(** ** Commit *)

Record CommitPartition : Type := mkCommitPartition {
  cp_partition_index : Z;
  cp_committed_offset : Z;
  cp_committed_leader_epoch : Z;
  cp_committed_metadata : option string;
}.

Notation commit_topic := (string * list CommitPartition)%type.

Definition commit_partition (p : Z) (o : OffsetAndMetadata) : CommitPartition :=
  mkCommitPartition p (om_offset o) (default (-1) (om_leader_epoch o)) (Some (om_metadata o)).

Definition push_commit (by_topic : gmap string (list CommitPartition))
    (e : topic_partition * OffsetAndMetadata) : gmap string (list CommitPartition) :=
  <[e.1.1 := default [] (by_topic !! e.1.1) ++ [commit_partition e.1.2 e.2]]> by_topic.

(** [offsets] is the map in the order its iterator visits it, and [visit] the
    order of the map by topic. *)
Definition build_commit_topics
    (visit : gmap string (list CommitPartition) → list commit_topic)
    (offsets : list (topic_partition * OffsetAndMetadata)) : list commit_topic :=
  visit (foldl push_commit ∅ offsets).

(** [id_to_name], on the table in the order its iterator visits it: a later
    name of an id replaces an earlier one. *)
Definition id_to_name {Uuid} `{Countable Uuid} (topic_ids : list (string * Uuid)) : gmap Uuid string :=
  foldl (λ names e, <[e.2 := e.1]> names) ∅ topic_ids.

(** ** The decision on an answer *)

(** The codes of a partition that do not fail the fetch at once. *)
Definition tolerated : list Z :=
  [0; UNKNOWN_TOPIC_OR_PARTITION; UNKNOWN_TOPIC_ID; TOPIC_AUTHORIZATION_FAILED; UNSTABLE_OFFSET_COMMIT].

Definition with_codes (codes : list Z) (errors : list (string * Z)) : list (string * Z) :=
  filter (λ e, e.2 ∈ codes) errors.

(** What the scan decides, code by code: the order of the partitions only
    picks the code that is reported. *)
Definition decide_errors (errors : list (string * Z)) : OffsetFetchAction :=
  match filter (λ e, e.2 ∉ tolerated) errors with
  | e :: _ => Fatal e.2
  | [] =>
    match with_codes [TOPIC_AUTHORIZATION_FAILED] errors,
          with_codes [UNSTABLE_OFFSET_COMMIT] errors,
          with_codes [UNKNOWN_TOPIC_OR_PARTITION; UNKNOWN_TOPIC_ID] errors with
    | (_ :: _) as denied, _, _ => TopicAuthorizationFailed_ (sort_by str_le (remove_dups denied.*1))
    | [], _ :: _, _ => Retry UNSTABLE_OFFSET_COMMIT
    | [], [], e :: _ => RetryUnknownTopic e.2
    | [], [], [] => Complete
    end
  end.

Lemma remove_dups_perm {A} `{EqDecision A} (l k : list A) :
  l ≡ₚ k → remove_dups l ≡ₚ remove_dups k.
Proof.
  intros H. apply NoDup_Permutation; [apply NoDup_remove_dups..|].
  intros x. by rewrite !elem_of_remove_dups, H.
Qed.

Lemma sorted_names_perm l k :
  l ≡ₚ k → sort_by str_le (remove_dups l) = sort_by str_le (remove_dups k).
Proof.
  intros H. apply sort_by_perm_eq; try apply _.
  - intros x y _ _ H1 H2. by apply (anti_symm str_le).
  - by apply remove_dups_perm.
Qed.

Lemma scan_errors_fatal errors una uns unk e rest :
  filter (λ e, e.2 ∉ tolerated) errors = e :: rest →
  scan_errors errors una uns unk = Fatal e.2.
Proof.
  revert una uns unk. induction errors as [|[t c] errors IH]; intros una uns unk H; [done|].
  rewrite filter_cons in H. simpl. case_decide as Hc; simpl in Hc.
  - injection H as <- _. simpl.
    assert (c ≠ 0 ∧ c ≠ 3 ∧ c ≠ 100 ∧ c ≠ 29 ∧ c ≠ 88) as (? & ? & ? & ? & ?)
      by (split_and!; intros ->; apply Hc; unfold tolerated; rewrite !elem_of_cons; auto 6).
    unfold UNKNOWN_TOPIC_OR_PARTITION, UNKNOWN_TOPIC_ID, TOPIC_AUTHORIZATION_FAILED,
      UNSTABLE_OFFSET_COMMIT.
    repeat rewrite (proj2 (Z.eqb_neq _ _)) by done. done.
  - repeat case_match; eauto. exfalso.
    repeat match goal with H : (_ || _) = false |- _ => apply orb_false_iff in H as [??] end.
    rewrite !Z.eqb_neq in *. unfold tolerated in Hc.
    rewrite !elem_of_cons, elem_of_nil in Hc. naive_solver.
Qed.

Lemma scan_errors_nil_perm una una' uns unk :
  una ≡ₚ una' → scan_errors [] una uns unk = scan_errors [] una' uns unk.
Proof.
  intros H. simpl. rewrite (sorted_names_perm _ _ H).
  destruct una, una'; try done; [by apply Permutation_nil_cons in H|].
  by apply Permutation_sym, Permutation_nil_cons in H.
Qed.

Lemma scan_errors_tolerated errors una uns unk :
  filter (λ e, e.2 ∉ tolerated) errors = [] →
  let denied := una ++ (with_codes [TOPIC_AUTHORIZATION_FAILED] errors).*1 in
  let unstable := uns || negb (bool_decide (with_codes [UNSTABLE_OFFSET_COMMIT] errors = [])) in
  let unknown :=
    match unk with
    | Some _ => unk
    | None => snd <$> head (with_codes [UNKNOWN_TOPIC_OR_PARTITION; UNKNOWN_TOPIC_ID] errors)
    end in
  scan_errors errors una uns unk = scan_errors [] denied unstable unknown.
Proof.
  unfold with_codes. revert una uns unk. induction errors as [|[t c] errors IH]; intros una uns unk H.
  { simpl. rewrite app_nil_r, orb_false_r. by destruct unk. }
  rewrite filter_cons in H. case_decide as Hc; [done|]. simpl in Hc.
  unfold tolerated in Hc. rewrite !elem_of_cons, elem_of_nil in Hc.
  simpl in Hc. cbn [scan_errors].
  destruct Hc as [->|[->|[->|[->|[->|[]]]]]];
    rewrite !filter_cons; cbn -[scan_errors]; rewrite IH by done;
    cbn -[scan_errors]; try reflexivity.
  - f_equal. by destruct unk.
  - f_equal. by destruct unk.
  - etransitivity; [apply scan_errors_nil_perm, Permutation_middle|reflexivity].
  - rewrite orb_true_r. done.
Qed.

Lemma scan_errors_decide errors : scan_errors errors [] false None = decide_errors errors.
Proof.
  unfold decide_errors. destruct (filter _ errors) as [|e rest] eqn:E.
  - rewrite scan_errors_tolerated by done. cbn [scan_errors app orb].
    destruct (with_codes [TOPIC_AUTHORIZATION_FAILED] errors); [|done].
    destruct (with_codes [UNSTABLE_OFFSET_COMMIT] errors); [|done]. simpl.
    by destruct (with_codes [_; _] errors).
  - by eapply scan_errors_fatal.
Qed.

Lemma filter_nonzero (l : list Z) : filter (λ code, code ≠ 0) l = [] ↔ Forall (λ code, code = 0) l.
Proof.
  rewrite Forall_forall. split.
  - intros H x Hx. destruct (decide (x = 0)) as [|Hn]; [done|].
    assert (x ∈ filter (λ code, code ≠ 0) l) as Hf by (apply list_elem_of_filter; auto).
    rewrite H in Hf. by apply elem_of_nil in Hf.
  - intros H. apply filter_none. intros x Hx. rewrite (H x Hx). auto.
Qed.

Lemma decide_errors_complete errors :
  decide_errors errors = Complete ↔ Forall (λ code, code = 0) errors.*2.
Proof.
  unfold decide_errors, with_codes. rewrite Forall_fmap, Forall_forall. split.
  - intros H e He. destruct (decide (e.2 = 0)) as [|Hn]; [done|]. exfalso.
    destruct (filter (λ e, e.2 ∉ tolerated) errors) eqn:E0; [|done].
    destruct (filter (λ e, e.2 ∈ [TOPIC_AUTHORIZATION_FAILED]) errors) eqn:E1; [|done].
    destruct (filter (λ e, e.2 ∈ [UNSTABLE_OFFSET_COMMIT]) errors) eqn:E2; [|done].
    destruct (filter (λ e, e.2 ∈ [UNKNOWN_TOPIC_OR_PARTITION; UNKNOWN_TOPIC_ID]) errors) eqn:E3; [|done].
    assert (∀ P `{!∀ e : string * Z, Decision (P e)}, filter P errors = [] → ¬ P e) as Hnone.
    { intros P ? HP HPe. assert (e ∈ filter P errors) as Hin by (by apply list_elem_of_filter).
      rewrite HP in Hin. by apply elem_of_nil in Hin. }
    apply Hnone in E0, E1, E2, E3. apply E0. unfold tolerated. intros Hin.
    rewrite !elem_of_cons, elem_of_nil in *. naive_solver.
  - intros H. assert (∀ P `{!∀ e : string * Z, Decision (P e)},
      (∀ e, e.2 = 0 → ¬ P e) → filter P errors = []) as Hf.
    { intros P ? HP. apply filter_none. intros e He. apply HP. exact (H e He). }
    rewrite !Hf; [done|..]; intros [t c] Hc; simpl in *; subst;
      unfold tolerated; rewrite !elem_of_cons, ?elem_of_nil; naive_solver.
Qed.

(** the decision on an [OffsetFetch] answer. A group error decides alone;
    without one, a partition code that is not tolerated fails the fetch, then
    29 fails it with the sorted names of its topics, then 88 and then 3 and 100
    make it retriable, and the fetch is complete exactly when every code is 0.
    Only the reported code depends on the order of the partitions. *)
Theorem offset_fetch_decision (resp : OffsetFetchResponse) :
  classify_offset_fetch resp =
  match filter (λ code, code ≠ 0) (fr_error_code resp :: (fg_error_code <$> fr_groups resp)) with
  | code :: _ => classify_group_error code
  | [] => decide_errors (partition_errors resp)
  end ∧
  (classify_offset_fetch resp = Complete ↔
   Forall (λ code, code = 0)
     (fr_error_code resp :: (fg_error_code <$> fr_groups resp) ++ (partition_errors resp).*2)).
Proof.
  assert (classify_offset_fetch resp =
    match filter (λ code, code ≠ 0) (fr_error_code resp :: (fg_error_code <$> fr_groups resp)) with
    | code :: _ => classify_group_error code
    | [] => decide_errors (partition_errors resp)
    end) as Heq.
  { unfold classify_offset_fetch. case_match; [|done]. by rewrite scan_errors_decide. }
  split; [exact Heq|]. rewrite Heq.
  rewrite app_comm_cons, Forall_app, <- (filter_nonzero (_ :: _)), <- decide_errors_complete.
  destruct (filter _ (_ :: _)) as [|code l] eqn:E; [naive_solver|].
  split; [|by intros [? _]]. unfold classify_group_error. repeat case_match; done.
Qed.

(** ** The topics of a commit *)

(** The partitions that an [OffsetCommit] names, in its order. *)
Definition commit_entries (topics : list commit_topic) : list (topic_partition * CommitPartition) :=
  concat ((λ t : commit_topic, (λ p, ((t.1, cp_partition_index p), p)) <$> t.2) <$> topics).

Definition commit_entry (e : topic_partition * OffsetAndMetadata) : topic_partition * CommitPartition :=
  (e.1, commit_partition e.1.2 e.2).

Lemma commit_entries_perm topics topics' :
  topics ≡ₚ topics' → commit_entries topics ≡ₚ commit_entries topics'.
Proof. intros H. unfold commit_entries. by rewrite H. Qed.

Lemma push_commit_entries by_topic e :
  commit_entries (map_to_list (push_commit by_topic e)) ≡ₚ
  commit_entries (map_to_list by_topic) ++ [commit_entry e].
Proof.
  destruct e as [[t p] o]. unfold push_commit. simpl.
  rewrite <- insert_delete_eq, (commit_entries_perm _ _ (map_to_list_insert _ _ _ (lookup_delete_eq _ _))).
  destruct (by_topic !! t) as [ps|] eqn:E; simpl.
  - rewrite <- (insert_delete_id by_topic t ps E) at 2.
    rewrite (commit_entries_perm _ _ (map_to_list_insert (delete t by_topic) t ps (lookup_delete_eq _ _))).
    unfold commit_entries. simpl. rewrite fmap_app. simpl.
    rewrite <- !app_assoc. f_equiv. by rewrite Permutation_app_comm.
  - rewrite delete_id by done. unfold commit_entries. simpl. by rewrite Permutation_app_comm.
Qed.

Lemma push_commits_entries by_topic offsets :
  commit_entries (map_to_list (foldl push_commit by_topic offsets)) ≡ₚ
  commit_entries (map_to_list by_topic) ++ (commit_entry <$> offsets).
Proof.
  revert by_topic. induction offsets as [|e offsets IH]; intros by_topic; simpl.
  - by rewrite app_nil_r.
  - rewrite IH, push_commit_entries, <- app_assoc. done.
Qed.

(** the topics of an [OffsetCommit]. Whatever order the hash maps are
    visited in, the request names each topic once, and each partition of the
    commit once with its offset, its leader epoch ([-1] when unknown) and its
    metadata, and no other partition. *)
Theorem commit_topics_exact (visit : gmap string (list CommitPartition) → list commit_topic)
    (offsets : gmap topic_partition OffsetAndMetadata) order :
  (∀ m, visit m ≡ₚ map_to_list m) → order ≡ₚ map_to_list offsets →
  let topics := build_commit_topics visit order in
  NoDup topics.*1 ∧ NoDup (commit_entries topics).*1 ∧
  commit_entries topics ≡ₚ commit_entry <$> map_to_list offsets.
Proof.
  intros Hv Ho topics.
  assert (commit_entries topics ≡ₚ commit_entry <$> map_to_list offsets) as He.
  { unfold topics, build_commit_topics. rewrite (commit_entries_perm _ _ (Hv _)), push_commits_entries.
    rewrite map_to_list_empty. simpl. by rewrite Ho. }
  split_and!; [| |done].
  - unfold topics, build_commit_topics. rewrite Hv. apply NoDup_fst_map_to_list.
  - rewrite He, <- list_fmap_compose. apply NoDup_fst_map_to_list.
Qed.

Lemma commit_topics_exact_witness :
  commit_entries (build_commit_topics map_to_list
      (map_to_list {[ ("t", 0) := mkOffset 7 None ""; ("t", 1) := mkOffset 9 (Some 2) "m" ]})) ≡ₚ
    [(("t", 0), mkCommitPartition 0 7 (-1) (Some "")); (("t", 1), mkCommitPartition 1 9 2 (Some "m"))].
Proof.
  refine (proj2 (proj2 (commit_topics_exact map_to_list
    {[ ("t", 0) := mkOffset 7 None ""; ("t", 1) := mkOffset 9 (Some 2) "m" ]} _ _ _))); done.
Defined.
