(* ===== verification/Commit.v ===== *)
(** * Offset commits

    [crates/client-consumer/src/commit.rs]: the positions a commit takes, the
    decision on an answer, and the positions that the commit before a rejoin
    sends ([AutoCommit]). A hash map of positions is a [gmap]; the functions
    that go through one do not depend on its order. *)

From S2P Require Import Prelude Text Errors ConsumerErrors OffsetWire FetchBuffer.

Definition REQUEST_TIMED_OUT : Z := 7.
Definition ILLEGAL_GENERATION : Z := 22.
Definition UNKNOWN_MEMBER_ID : Z := 25.
Definition REBALANCE_IN_PROGRESS : Z := 27.
Definition FENCED_INSTANCE_ID : Z := 82.

(** ** Fetch positions that are not resolved yet *)

Definition LATEST_SENTINEL : Z := i64_max.
Definition BEGINNING_SENTINEL : Z := i64_max - 1.
Definition END_SENTINEL : Z := i64_max - 2.
Definition COMMITTED_SENTINEL : Z := i64_max - 3.
Definition NO_OFFSET_SENTINEL : Z := i64_max - 4.

Definition is_reset_sentinel (next_offset : Z) : bool := NO_OFFSET_SENTINEL <=? next_offset.

Inductive AutoOffsetReset : Type := Earliest | Latest | NoReset | ByDuration (d : Z).

Definition reset_starting_offset (r : AutoOffsetReset) : Z :=
  match r with
  | Earliest => BEGINNING_SENTINEL
  | Latest | ByDuration _ => LATEST_SENTINEL
  | NoReset => NO_OFFSET_SENTINEL
  end.

Definition starting_offset (committed : Z) (r : AutoOffsetReset) : Z :=
  if 0 <=? committed then committed else reset_starting_offset r.

(** ** Positions *)

Definition OffsetAndMetadata_new (offset : Z) : OffsetAndMetadata := mkOffset offset None "".

Definition of_position (offset leader_epoch : Z) : OffsetAndMetadata :=
  mkOffset offset (if 0 <=? leader_epoch then Some leader_epoch else None) "".

Definition position_commits (offsets : gmap topic_partition (Z * Z))
    : gmap topic_partition OffsetAndMetadata :=
  (λ p, of_position p.1 p.2) <$> offsets.

Definition position_epoch (positions : gmap topic_partition PartitionPosition) (k : topic_partition) : Z :=
  match positions !! k with Some p => offset_epoch p | None => -1 end.

Definition commit_offsets (raw_offsets : gmap topic_partition Z)
    (positions : gmap topic_partition PartitionPosition) : gmap topic_partition (Z * Z) :=
  map_imap (λ k v, Some (v, position_epoch positions k)) raw_offsets.

Record ConsumedPosition : Type := mkConsumed {
  co_offset : Z;
  co_leader_epoch : Z;
  co_ownership_id : Z;
}.

Notation ConsumedPositions := (gmap topic_partition ConsumedPosition).
Notation PendingOffsets := (gmap topic_partition (OffsetAndMetadata * Z)).

(** One step of [merge_sent_positions]. *)
Definition merge_sent_position (polled : ConsumedPositions)
    (e : topic_partition * ConsumedPosition) : ConsumedPositions :=
  let '(partition, position) := e in
  match polled !! partition with
  | None => <[partition := position]> polled
  | Some known =>
    if negb (co_ownership_id known =? co_ownership_id position) || (co_offset known <? co_offset position)
    then <[partition := position]> polled else polled
  end.

Definition merge_sent_positions (polled : ConsumedPositions)
    (sent : list (topic_partition * ConsumedPosition)) : ConsumedPositions :=
  foldl merge_sent_position polled sent.

(** [offsets] is the map of the call in the order its iterator visits it. *)
Fixpoint selected_offsets_with_ownership (offsets : list (topic_partition * OffsetAndMetadata))
    (assigned : gmap topic_partition Z) (pending : PendingOffsets) : result consumer_error PendingOffsets :=
  match offsets with
  | [] => Ok pending
  | (partition, offset) :: rest =>
    if om_offset offset <? 0 then Err (ConsumerError.InvalidOffset (om_offset offset))
    else match assigned !! partition with
         | None => Err (ConsumerError.IllegalState
                     ("cannot commit unassigned partition " +:+ partition.1 +:+ "-"
                      +:+ fmt_int partition.2))
         | Some ownership_id =>
           selected_offsets_with_ownership rest assigned (<[partition := (offset, ownership_id)]> pending)
         end
  end.

Definition has_valid_position (next_offset : Z) : bool :=
  (0 <=? next_offset) && negb (is_reset_sentinel next_offset).

Definition all_consumed (ownership_ids next_offsets : gmap topic_partition Z)
    (positions : gmap topic_partition PartitionPosition) : ConsumedPositions :=
  map_imap (λ k offset,
    if has_valid_position offset
    then mkConsumed offset (position_epoch positions k) <$> ownership_ids !! k
    else None) next_offsets.

Definition owned_offsets (consumed : ConsumedPositions) (ownership_ids : gmap topic_partition Z)
    : gmap topic_partition (Z * Z) :=
  map_imap (λ k p,
    if bool_decide (ownership_ids !! k = Some (co_ownership_id p))
    then Some (co_offset p, co_leader_epoch p) else None) consumed.

Definition sent_positions (offsets : gmap topic_partition (Z * Z))
    (ownership_ids : gmap topic_partition Z) : list (topic_partition * ConsumedPosition) :=
  map_to_list (map_imap (λ k o, mkConsumed o.1 o.2 <$> ownership_ids !! k) offsets).

Definition pending_positions (pending : PendingOffsets) : list (topic_partition * ConsumedPosition) :=
  map_to_list ((λ p, mkConsumed (om_offset p.1) (default (-1) (om_leader_epoch p.1)) p.2) <$> pending).

Definition retain_continuously_owned (pending : PendingOffsets) (current : gmap topic_partition Z)
    : PendingOffsets :=
  filter (λ e, current !! e.1 = Some e.2.2) pending.

(** The pending offsets of [commit_sync], from the positions at the call. *)
Definition consumed_pending (consumed : ConsumedPositions) : PendingOffsets :=
  (λ p, (of_position (co_offset p) (co_leader_epoch p), co_ownership_id p)) <$> consumed.

(** [snapshot_commit_offsets] without its update of [auto_commit]: the offsets
    of an asynchronous commit, with what the update takes. *)
Definition snapshot_commit_offsets (ownership_ids next_offsets : gmap topic_partition Z)
    (positions : gmap topic_partition PartitionPosition)
    : gmap topic_partition OffsetAndMetadata * list (topic_partition * ConsumedPosition) :=
  let raw_offsets :=
    filter (λ e, is_Some (ownership_ids !! e.1) ∧ has_valid_position e.2 = true) next_offsets in
  if bool_decide (raw_offsets = ∅) then (∅, [])
  else
    let offsets := commit_offsets raw_offsets positions in
    (position_commits offsets, sent_positions offsets ownership_ids).

(** ** [AutoCommit] *)

Record AutoCommit : Type := mkAutoCommit {
  ac_interval : Z;
  ac_next_due : Z;
  ac_polled : ConsumedPositions;
}.

Definition AutoCommit_new (interval now : Z) : AutoCommit := mkAutoCommit interval (now + interval) ∅.

Definition set_polled (a : AutoCommit) (polled : ConsumedPositions) : AutoCommit :=
  mkAutoCommit (ac_interval a) (ac_next_due a) polled.

Definition reset_polled_one (polled : ConsumedPositions) (r : topic_partition * option Z)
    : ConsumedPositions :=
  match r.2 with
  | Some offset =>
    match polled !! r.1 with
    | Some p => <[r.1 := mkConsumed offset (-1) (co_ownership_id p)]> polled
    | None => polled
    end
  | None => delete r.1 polled
  end.

Definition reset_polled (a : AutoCommit) (resets : list (topic_partition * option Z)) : AutoCommit :=
  set_polled a (foldl reset_polled_one (ac_polled a) resets).

Definition record_sent (a : AutoCommit) (sent : list (topic_partition * ConsumedPosition)) : AutoCommit :=
  set_polled a (merge_sent_positions (ac_polled a) sent).

Definition restart_interval (a : AutoCommit) (now : Z) : AutoCommit :=
  mkAutoCommit (ac_interval a) (now + ac_interval a) (ac_polled a).

Definition polled_offsets (a : AutoCommit) (ownership_ids : gmap topic_partition Z)
    : gmap topic_partition (Z * Z) :=
  owned_offsets (ac_polled a) ownership_ids.

(** ** Answers *)

Record OffsetCommitRequest : Type := mkOffsetCommit {
  oc_group_id : string;
  oc_generation_id_or_member_epoch : Z;
  oc_member_id : string;
  oc_group_instance_id : option string;
  oc_topics : list commit_topic;
}.

Definition build_commit_request := mkOffsetCommit.

(** The answer: partition and error code, by topic. *)
Notation OffsetCommitResponse := (list (string * list (Z * Z))).

Inductive PartitionCommitError : Type :=
| CommitNone | TopicAuthorization | Retriable | CoordinatorUnknown | Rebalance | FencedInstance
| GroupAuthorization | CommitFatal.

#[global] Instance PartitionCommitError_eq_dec : EqDecision PartitionCommitError.
Proof. solve_decision. Defined.

(** The derived order: the position in the list of variants. *)
Definition class_rank (c : PartitionCommitError) : Z :=
  match c with
  | CommitNone => 0 | TopicAuthorization => 1 | Retriable => 2 | CoordinatorUnknown => 3
  | Rebalance => 4 | FencedInstance => 5 | GroupAuthorization => 6 | CommitFatal => 7
  end.

Definition class_max (a b : PartitionCommitError) : PartitionCommitError :=
  if class_rank a <=? class_rank b then b else a.

Definition PartitionCommitError_of (code : Z) : PartitionCommitError :=
  if code =? 0 then CommitNone
  else if code =? TOPIC_AUTHORIZATION_FAILED then TopicAuthorization
  else if (code =? UNKNOWN_TOPIC_OR_PARTITION) || (code =? COORDINATOR_LOAD_IN_PROGRESS) then Retriable
  else if (code =? REQUEST_TIMED_OUT) || (code =? COORDINATOR_NOT_AVAILABLE) || (code =? NOT_COORDINATOR)
  then CoordinatorUnknown
  else if (code =? ILLEGAL_GENERATION) || (code =? UNKNOWN_MEMBER_ID) || (code =? REBALANCE_IN_PROGRESS)
  then Rebalance
  else if code =? FENCED_INSTANCE_ID then FencedInstance
  else if code =? GROUP_AUTHORIZATION_FAILED then GroupAuthorization
  else CommitFatal.

(** The partitions of an answer, with the topic of each. *)
Definition answer_codes (response : OffsetCommitResponse) : list (topic_partition * Z) :=
  concat ((λ t : string * list (Z * Z), (λ p, ((t.1, p.1), p.2)) <$> t.2) <$> response).

Definition of_response (response : OffsetCommitResponse) : PartitionCommitError :=
  foldr (λ e c, class_max (PartitionCommitError_of e.2) c) CommitNone (answer_codes response).

Definition names_moved_coordinator (response : OffsetCommitResponse) : bool :=
  bool_decide (of_response response = CoordinatorUnknown).

Definition is_retriable_coordinator_code (code : Z) : bool :=
  (code =? COORDINATOR_LOAD_IN_PROGRESS) || (code =? COORDINATOR_NOT_AVAILABLE)
  || (code =? NOT_COORDINATOR).

Definition is_retriable_transport_error (e : ClientError.client_error) : bool :=
  is_transport_error e false.

Definition is_client_timeout (e : ClientError.client_error) : bool :=
  match e with ClientError.Timeout _ => true | _ => false end.

Inductive AutoCommitOutcome : Type := AutoCommitted | AutoRetriable | AutoFailed.

Definition auto_commit_outcome (r : result consumer_error OffsetCommitResponse) : AutoCommitOutcome :=
  match r with
  | Ok response =>
    match of_response response with
    | CommitNone => AutoCommitted
    | Retriable | CoordinatorUnknown => AutoRetriable
    | _ => AutoFailed
    end
  | Err (ConsumerError.Client error) =>
    if is_retriable_transport_error error || is_client_timeout error then AutoRetriable else AutoFailed
  | Err (ConsumerError.Server code) =>
    if is_retriable_coordinator_code code then AutoRetriable else AutoFailed
  | Err _ => AutoFailed
  end.

(** The first code of class [c]. *)
Definition first_of_class (c : PartitionCommitError) (codes : list (topic_partition * Z)) : Z :=
  match filter (λ e, PartitionCommitError_of e.2 = c) codes with e :: _ => e.2 | [] => 0 end.

Definition async_commit_result (r : result consumer_error OffsetCommitResponse) (group_id : string)
    (group_instance_id : option string) : result consumer_error unit :=
  match r with
  | Err (ConsumerError.Client error) =>
    if is_retriable_transport_error error || is_client_timeout error
    then Err (ConsumerError.RetriableCommitFailed (ConsumerError.Client error))
    else Err (ConsumerError.Client error)
  | Err ConsumerError.CoordinatorUnavailable =>
    Err (ConsumerError.RetriableCommitFailed ConsumerError.CoordinatorUnavailable)
  | Err (ConsumerError.Server code) =>
    if is_retriable_coordinator_code code
    then Err (ConsumerError.RetriableCommitFailed (ConsumerError.Server code))
    else Err (ConsumerError.Server code)
  | Err error => Err error
  | Ok response =>
    let codes := answer_codes response in
    let class := of_response response in
    let code := first_of_class class codes in
    match class with
    | CommitNone => Ok ()
    | TopicAuthorization =>
      Err (ConsumerError.TopicAuthorizationFailed
        (sort_by str_le (remove_dups ((filter (λ e, e.2 = TOPIC_AUTHORIZATION_FAILED) codes).*1.*1))))
    | Retriable | CoordinatorUnknown => Err (ConsumerError.RetriableCommitFailed (ConsumerError.Server code))
    | Rebalance => Err ConsumerError.CommitFailed
    | FencedInstance => Err (ConsumerError.FencedInstanceId (default "" group_instance_id))
    | GroupAuthorization => Err (ConsumerError.GroupAuthorizationFailed group_id)
    | CommitFatal => Err (ConsumerError.Server code)
    end
  end.

Inductive CommitOutcome : Type :=
| Acked (acknowledged : gset topic_partition)
| RetriableCommit (code : Z) (acknowledged : gset topic_partition) (find_coordinator : bool).

Inductive RebalanceCommitFailure : Type := FailCommit | FailInProgress.

Record CommitResponseContext : Type := mkContext {
  cx_group_id : string;
  cx_group_instance_id : option string;
  cx_coordinator_alive : bool;
  cx_generation_unchanged : bool;
}.

(** The local variables of [commit_response_outcome]. *)
Record CommitScan : Type := mkScan {
  sc_rebalance : option RebalanceCommitFailure;
  sc_retriable : option Z;
  sc_find_coordinator : bool;
  sc_unauthorized : list string;
  sc_acknowledged : gset topic_partition;
}.

Definition or_insert {A} (o : option A) (a : A) : option A :=
  match o with Some _ => o | None => Some a end.

(** One partition of the loop; an error ends it. *)
Definition scan_partition (cx : CommitResponseContext) (s : CommitScan) (e : topic_partition * Z)
    : result consumer_error CommitScan :=
  let '(tp, code) := e in
  match PartitionCommitError_of code with
  | CommitNone => Ok (mkScan (sc_rebalance s) (sc_retriable s) (sc_find_coordinator s)
                        (sc_unauthorized s) ({[ tp ]} ∪ sc_acknowledged s))
  | TopicAuthorization => Ok (mkScan (sc_rebalance s) (sc_retriable s) (sc_find_coordinator s)
                                (tp.1 :: sc_unauthorized s) (sc_acknowledged s))
  | Retriable => Ok (mkScan (sc_rebalance s) (or_insert (sc_retriable s) code) (sc_find_coordinator s)
                       (sc_unauthorized s) (sc_acknowledged s))
  | CoordinatorUnknown => Ok (mkScan (sc_rebalance s) (or_insert (sc_retriable s) code) true
                                (sc_unauthorized s) (sc_acknowledged s))
  | FencedInstance =>
    if cx_generation_unchanged cx
    then Err (ConsumerError.FencedInstanceId (default "" (cx_group_instance_id cx)))
    else
      let failure := if cx_coordinator_alive cx then FailInProgress else FailCommit in
      Ok (mkScan (or_insert (sc_rebalance s) failure) (sc_retriable s) (sc_find_coordinator s)
            (sc_unauthorized s) (sc_acknowledged s))
  | Rebalance =>
    let failure :=
      if cx_coordinator_alive cx && ((code =? REBALANCE_IN_PROGRESS) || negb (cx_generation_unchanged cx))
      then FailInProgress else FailCommit in
    Ok (mkScan (or_insert (sc_rebalance s) failure) (sc_retriable s) (sc_find_coordinator s)
          (sc_unauthorized s) (sc_acknowledged s))
  | GroupAuthorization => Err (ConsumerError.GroupAuthorizationFailed (cx_group_id cx))
  | CommitFatal => Err (ConsumerError.Server code)
  end.

Fixpoint scan_partitions (cx : CommitResponseContext) (s : CommitScan) (codes : list (topic_partition * Z))
    : result consumer_error CommitScan :=
  match codes with
  | [] => Ok s
  | e :: codes => scan_partition cx s e ≫= λ s, scan_partitions cx s codes
  end.

Definition commit_response_outcome (resp : OffsetCommitResponse) (cx : CommitResponseContext)
    : result consumer_error CommitOutcome :=
  scan_partitions cx (mkScan None None false [] ∅) (answer_codes resp) ≫= λ s,
  match sc_rebalance s, sc_retriable s with
  | Some FailCommit, _ => Err ConsumerError.CommitFailed
  | Some FailInProgress, _ => Err (ConsumerError.RebalanceInProgress (cx_group_id cx))
  | None, Some code => Ok (RetriableCommit code (sc_acknowledged s) (sc_find_coordinator s))
  | None, None =>
    if negb (bool_decide (sc_unauthorized s = []))
    then Err (ConsumerError.TopicAuthorizationFailed (sort_by str_le (remove_dups (sc_unauthorized s))))
    else Ok (Acked (sc_acknowledged s))
  end.

(** ** What an answer decides *)

(** The partitions whose code is of one of these classes. *)
Definition of_classes (cs : list PartitionCommitError) (codes : list (topic_partition * Z))
    : list (topic_partition * Z) :=
  filter (λ e, PartitionCommitError_of e.2 ∈ cs) codes.

Definition acked_set (codes : list (topic_partition * Z)) : gset topic_partition :=
  list_to_set (of_classes [CommitNone] codes).*1.

(** The classes that end the loop at once or fail the commit after it. *)
Definition failing (c : PartitionCommitError) : bool :=
  match c with Rebalance | FencedInstance | GroupAuthorization | CommitFatal => true | _ => false end.

(** What the scan has found after [codes], when it has not failed. *)
Record scan_of (codes : list (topic_partition * Z)) (s : CommitScan) : Prop := {
  so_acked : sc_acknowledged s = acked_set codes;
  so_rebalance : is_Some (sc_rebalance s) ↔ Exists (λ e, failing (PartitionCommitError_of e.2) = true) codes;
  so_retriable : is_Some (sc_retriable s) ↔ of_classes [Retriable; CoordinatorUnknown] codes ≠ [];
  so_retriable_code : ∀ code, sc_retriable s = Some code →
    ∃ tp, (tp, code) ∈ of_classes [Retriable; CoordinatorUnknown] codes;
  so_find : sc_find_coordinator s = true ↔ of_classes [CoordinatorUnknown] codes ≠ [];
  so_denied : list_to_set (C := gset string) (sc_unauthorized s)
              = list_to_set (of_classes [TopicAuthorization] codes).*1.*1;
}.

Lemma of_classes_snoc cs codes e :
  of_classes cs (codes ++ [e]) =
  of_classes cs codes ++ (if bool_decide (PartitionCommitError_of e.2 ∈ cs) then [e] else []).
Proof. unfold of_classes. rewrite filter_app, filter_cons, filter_nil. by repeat case_decide. Qed.

Lemma or_insert_some {A} (o : option A) a : is_Some (or_insert o a).
Proof. destruct o; eauto. Qed.

Lemma acked_set_snoc codes tp code :
  acked_set (codes ++ [(tp, code)]) =
  if bool_decide (PartitionCommitError_of code = CommitNone)
  then {[ tp ]} ∪ acked_set codes else acked_set codes.
Proof.
  unfold acked_set. rewrite of_classes_snoc. simpl.
  rewrite (bool_decide_ext (PartitionCommitError_of code ∈ [CommitNone])
             (PartitionCommitError_of code = CommitNone)) by (by rewrite list_elem_of_singleton).
  case_bool_decide; [|by rewrite app_nil_r]. rewrite fmap_app, list_to_set_app_L. set_solver.
Qed.

Lemma of_classes_snoc_nil cs codes e :
  of_classes cs (codes ++ [e]) ≠ [] ↔ of_classes cs codes ≠ [] ∨ PartitionCommitError_of e.2 ∈ cs.
Proof.
  rewrite of_classes_snoc. case_bool_decide as Hin.
  - split; [by right|]. intros _. by destruct (of_classes cs codes).
  - rewrite app_nil_r. naive_solver.
Qed.

Lemma elem_of_of_classes_snoc cs codes e x :
  x ∈ of_classes cs codes → x ∈ of_classes cs (codes ++ [e]).
Proof. rewrite of_classes_snoc. rewrite elem_of_app. by left. Qed.

(** What one partition changes in the scan, field by field. *)
Lemma scan_partition_fields cx s tp code s' :
  scan_partition cx s (tp, code) = Ok s' →
  let c := PartitionCommitError_of code in
  sc_acknowledged s' = (if bool_decide (c = CommitNone) then {[ tp ]} ∪ sc_acknowledged s
                        else sc_acknowledged s) ∧
  (is_Some (sc_rebalance s') ↔ is_Some (sc_rebalance s) ∨ failing c = true) ∧
  sc_retriable s' = (if bool_decide (c ∈ [Retriable; CoordinatorUnknown])
                     then or_insert (sc_retriable s) code else sc_retriable s) ∧
  (sc_find_coordinator s' = true ↔ sc_find_coordinator s = true ∨ c ∈ [CoordinatorUnknown]) ∧
  sc_unauthorized s' = (if bool_decide (c ∈ [TopicAuthorization]) then tp.1 :: sc_unauthorized s
                        else sc_unauthorized s).
Proof.
  unfold scan_partition. intros H.
  destruct (PartitionCommitError_of code) eqn:E; repeat case_match; simplify_eq; simpl;
    split_and!; try reflexivity;
    rewrite ?list_elem_of_singleton;
    solve [ split; [by left|by intros [?|?]]
          | split; [by right|intros _; apply or_insert_some]
          | split; [by right|done] ].
Qed.

Lemma scan_partition_of cx codes s e s' :
  scan_of codes s → scan_partition cx s e = Ok s' → scan_of (codes ++ [e]) s'.
Proof.
  destruct e as [tp code]. intros [H1 H2 H3 H4 H5 H6] Hs.
  apply scan_partition_fields in Hs as (F1 & F2 & F3 & F4 & F5).
  split.
  - rewrite F1, acked_set_snoc, H1. done.
  - rewrite F2, H2, Exists_app, Exists_cons, Exists_nil. clear. tauto.
  - clear F1 F2 F4 F5. rewrite F3, of_classes_snoc_nil, <- H3. clear F3. simpl. case_bool_decide.
    + split; [by right|intros _; apply or_insert_some].
    + split; [by left|by intros [?|?]].
  - clear F1 F2 F4 F5. rewrite F3. clear F3. intros c Hc. rewrite of_classes_snoc. simpl. case_bool_decide as Hd.
    + destruct (sc_retriable s) as [c0|]; simplify_eq/=.
      * destruct (H4 _ eq_refl) as [tp' Htp']. exists tp'. apply elem_of_app. by left.
      * exists tp. apply elem_of_app. right. by left.
    + rewrite app_nil_r. by apply H4.
  - rewrite F4, H5, of_classes_snoc_nil. done.
  - clear F1 F2 F3 F4. rewrite F5, of_classes_snoc. clear F5. simpl. case_bool_decide; [|by rewrite app_nil_r].
    rewrite !fmap_app, list_to_set_app_L, <- H6. simpl. clear. set_solver.
Qed.

Lemma scan_partitions_of cx done_ s codes s' :
  scan_of done_ s → scan_partitions cx s codes = Ok s' → scan_of (done_ ++ codes) s'.
Proof.
  revert done_ s. induction codes as [|e codes IH]; intros done_ s Hs H; simpl in H.
  - simplify_eq. by rewrite app_nil_r.
  - apply bind_ok in H as (s1 & H1 & H). rewrite cons_middle, app_assoc.
    eapply IH; [|done]. by eapply scan_partition_of.
Qed.

Lemma scan_of_nil : scan_of [] (mkScan None None false [] ∅).
Proof. split; unfold acked_set; simpl; try done; rewrite ?Exists_nil; split; try done; by intros []. Qed.

(** The scan stops early only on a partition of a failing class. *)
Lemma scan_partitions_err cx s codes err :
  scan_partitions cx s codes = Err err → Exists (λ e, failing (PartitionCommitError_of e.2) = true) codes.
Proof.
  revert s. induction codes as [|[tp code] codes IH]; intros s H; [done|]. simpl in H.
  apply bind_err in H as [H|(s1 & _ & H)]; [left|right; eauto].
  unfold scan_partition in H. simpl. destruct (PartitionCommitError_of code); repeat case_match; done.
Qed.

(** what a synchronous commit concludes from an answer. It reports the
    commit as done exactly when every partition is acknowledged, and the
    acknowledged set is then all of them; it retries exactly when no partition
    has a final or rebalance error and some code is retriable, it keeps what was
    acknowledged, and looks the coordinator up again exactly when some code says
    that it is unknown. Every other answer is an error. *)
Theorem commit_answer_decision (resp : OffsetCommitResponse) (cx : CommitResponseContext) :
  let codes := answer_codes resp in
  let failed := Exists (λ e, failing (PartitionCommitError_of e.2) = true) codes in
  match commit_response_outcome resp cx with
  | Ok (Acked acked) =>
    Forall (λ e, e.2 = 0) codes ∧ acked = list_to_set codes.*1
  | Ok (RetriableCommit code acked find) =>
    ¬ failed ∧ (∃ tp, (tp, code) ∈ of_classes [Retriable; CoordinatorUnknown] codes) ∧
    acked = acked_set codes ∧ (find = true ↔ of_classes [CoordinatorUnknown] codes ≠ [])
  | Err err =>
    failed ∨
    of_classes [Retriable; CoordinatorUnknown] codes = [] ∧
    (∃ topics, err = ConsumerError.TopicAuthorizationFailed topics ∧
       ∀ t, t ∈ topics ↔ t ∈ (of_classes [TopicAuthorization] codes).*1.*1)
  end.
Proof.
  intros codes failed. unfold commit_response_outcome.
  destruct (scan_partitions cx _ (answer_codes resp)) as [s|err] eqn:E; simpl.
  2:{ left. by eapply scan_partitions_err. }
  pose proof (scan_partitions_of _ _ _ _ _ scan_of_nil E) as Hs.
  rewrite app_nil_l in Hs. change (answer_codes resp) with codes in Hs. clear E.
  assert (failed → is_Some (sc_rebalance s)) as Hf by apply (so_rebalance _ _ Hs).
  destruct (sc_rebalance s) as [f|] eqn:Er.
  { assert failed by (apply (so_rebalance _ _ Hs); rewrite Er; eauto). destruct f; by left. }
  assert (¬ failed) as Hnf by (intros H%Hf; by destruct H). clear Hf.
  destruct (sc_retriable s) as [code|] eqn:Et; simpl.
  { split_and!; [done|by apply (so_retriable_code _ _ Hs)|apply (so_acked _ _ Hs)
                |apply (so_find _ _ Hs)]. }
  assert (of_classes [Retriable; CoordinatorUnknown] codes = []) as Hno.
  { destruct (of_classes _ codes) eqn:Eo; [done|].
    assert (is_Some (sc_retriable s)) as [? ?] by (apply (so_retriable _ _ Hs); rewrite Eo; done). congruence. }
  case_bool_decide as Hd; simpl.
  - assert (Forall (λ e, PartitionCommitError_of e.2 = CommitNone) codes) as Hall.
    { apply Forall_forall. intros e He.
      assert (∀ cs, of_classes cs codes = [] → PartitionCommitError_of e.2 ∉ cs) as Hn.
      { intros cs Hcs Hin. assert (e ∈ of_classes cs codes) as Hx by (by apply list_elem_of_filter).
        rewrite Hcs in Hx. by apply elem_of_nil in Hx. }
      assert (of_classes [TopicAuthorization] codes = []) as Hta.
      { destruct (of_classes [TopicAuthorization] codes) as [|x l] eqn:Ex; [done|].
        pose proof (so_denied _ _ Hs) as Hden. rewrite Hd, Ex in Hden. simpl in Hden. clear -Hden. set_solver. }
      pose proof (Hn _ Hta) as N1. pose proof (Hn _ Hno) as N2.
      destruct (PartitionCommitError_of e.2) eqn:Ec; try done;
        try (exfalso; apply N1; by left); try (exfalso; apply N2; by left);
        try (exfalso; apply N2; right; by left);
        exfalso; apply Hnf, Exists_exists; exists e; rewrite Ec; done. }
    split.
    + eapply Forall_impl; [exact Hall|]. intros e. unfold PartitionCommitError_of.
      destruct (e.2 =? 0) eqn:Ez; [by apply Z.eqb_eq in Ez|]. repeat case_match; done.
    + rewrite (so_acked _ _ Hs). unfold acked_set, of_classes. rewrite filter_all; [done|].
      intros e He. rewrite Forall_forall in Hall. rewrite Hall by done. by left.
  - right. split; [done|]. eexists. split; [done|]. intros t.
    rewrite elem_of_sort_by, elem_of_remove_dups.
    pose proof (so_denied _ _ Hs) as Hden.
    rewrite <- (elem_of_list_to_set (C := gset string)), Hden, elem_of_list_to_set. done.
Qed.

(** ** The positions of the commit before a rejoin *)

(** The position that [merge_sent_position] leaves for its partition. *)
Definition raised (known : option ConsumedPosition) (position : ConsumedPosition) : ConsumedPosition :=
  match known with
  | None => position
  | Some known =>
    if negb (co_ownership_id known =? co_ownership_id position) || (co_offset known <? co_offset position)
    then position else known
  end.

Lemma lookup_merge_sent_position polled k p k' :
  merge_sent_position polled (k, p) !! k' =
  if bool_decide (k = k') then Some (raised (polled !! k) p) else polled !! k'.
Proof.
  unfold merge_sent_position, raised. case_bool_decide as Hk; [subst|].
  - destruct (polled !! k') eqn:E; [case_match|]; by rewrite ?lookup_insert_eq.
  - destruct (polled !! k); [case_match|]; by rewrite ?lookup_insert_ne.
Qed.

Lemma lookup_merge_sent_positions polled sent k :
  NoDup sent.*1 →
  merge_sent_positions polled sent !! k =
  match filter (λ e, e.1 = k) sent with
  | (_, p) :: _ => Some (raised (polled !! k) p)
  | [] => polled !! k
  end.
Proof.
  unfold merge_sent_positions. revert polled.
  induction sent as [|[k1 p1] sent IH]; intros polled Hnd; [done|].
  apply NoDup_cons in Hnd as [Hni Hnd]. cbn [foldl]. rewrite IH, filter_cons by done.
  rewrite lookup_merge_sent_position. simpl. case_bool_decide as Hk; case_decide; try done. subst k1.
  rewrite filter_none; [done|]. intros e He Hek. apply Hni. simpl. rewrite <- Hek.
  by apply (list_elem_of_fmap_2 fst).
Qed.

Lemma NoDup_fst_elem_of_eq {A B} (l : list (A * B)) k x y :
  NoDup l.*1 → (k, x) ∈ l → (k, y) ∈ l → x = y.
Proof.
  induction l as [|[k1 z] l IH]; intros Hnd Hx Hy; [by apply elem_of_nil in Hx|].
  apply NoDup_cons in Hnd as [Hni Hnd]. simpl in Hni.
  assert (∀ w, (k, w) ∈ l → k ∈ l.*1) as Hin by (intros w Hw; by apply (list_elem_of_fmap_2 fst) in Hw).
  apply elem_of_cons in Hx as [Hx|Hx], Hy as [Hy|Hy]; simplify_eq; eauto; exfalso; eauto.
Qed.

(** the commit before a rejoin does not move a committed offset back. When
    a commit has recorded what it sent, the positions for the commit before the
    next rejoin are, for every partition still owned as when it was sent, at or
    past the sent offset; each is a sent position or one recorded earlier, and
    the positions of other partitions stay. A position of an ownership that
    ended is never committed. *)
Theorem sent_commit_not_undone a sent ids k :
  NoDup sent.*1 →
  let before := polled_offsets a ids !! k in
  let after := polled_offsets (record_sent a sent) ids !! k in
  (∀ p, (k, p) ∈ sent → ids !! k = Some (co_ownership_id p) →
     ∃ o, after = Some o ∧ co_offset p ≤ o.1 ∧ (o = (co_offset p, co_leader_epoch p) ∨ before = Some o)) ∧
  (k ∉ sent.*1 → after = before) ∧
  (∀ o, after = Some o → ∃ p, ac_polled (record_sent a sent) !! k = Some p ∧
     ids !! k = Some (co_ownership_id p) ∧ o = (co_offset p, co_leader_epoch p)).
Proof.
  intros Hnd before after.
  assert (∀ m, owned_offsets m ids !! k =
    p ← m !! k; if bool_decide (ids !! k = Some (co_ownership_id p))
                then Some (co_offset p, co_leader_epoch p) else None) as Hown
    by (intros m; unfold owned_offsets; apply map_lookup_imap).
  unfold after, before, polled_offsets, record_sent. simpl. rewrite !Hown, lookup_merge_sent_positions by done.
  clear Hown after before. split_and!.
  - intros p Hp Hid.
    destruct (filter (λ e, e.1 = k) sent) as [|[k1 p1] l] eqn:E.
    { assert ((k, p) ∈ filter (λ e, e.1 = k) sent) as Hf by (by apply list_elem_of_filter).
      rewrite E in Hf. by apply elem_of_nil in Hf. }
    assert ((k1, p1) ∈ filter (λ e, e.1 = k) sent) as Hf by (rewrite E; by left).
    apply list_elem_of_filter in Hf as [Hk Hf]. simpl in Hk. subst k1.
    assert (p1 = p) as -> by (by eapply NoDup_fst_elem_of_eq).
    simpl. unfold raised. destruct (ac_polled a !! k) as [known|]; simpl.
    + destruct (Z.eqb_spec (co_ownership_id known) (co_ownership_id p)) as [Ho|Ho]; simpl.
      * destruct (Z.ltb_spec (co_offset known) (co_offset p)).
        -- rewrite bool_decide_true by done. eexists. split; [done|]. simpl. split; [lia|by left].
        -- rewrite bool_decide_true by congruence. eexists. split; [done|]. simpl. split; [lia|by right].
      * rewrite bool_decide_true by done. eexists. split; [done|]. simpl. split; [lia|by left].
    + rewrite bool_decide_true by done. eexists. split; [done|]. simpl. split; [lia|by left].
  - intros Hni. rewrite filter_none; [done|]. intros e He <-. by apply Hni, (list_elem_of_fmap_2 fst).
  - intros o Ho. apply bind_Some in Ho as (p & Hp & Ho). exists p. split; [done|].
    case_bool_decide; by simplify_eq.
Qed.

Lemma sent_commit_not_undone_witness :
  let k := ("t", 0) in
  let a := mkAutoCommit 5 0 {[ k := mkConsumed 4 0 1 ]} in
  ∃ o, polled_offsets (record_sent a [(k, mkConsumed 9 2 1)]) {[ k := 1 ]} !! k = Some o ∧ 9 ≤ o.1.
Proof.
  intros k a.
  destruct (sent_commit_not_undone a [(k, mkConsumed 9 2 1)] {[ k := 1 ]} k) as [H _];
    [apply NoDup_singleton|].
  destruct (H (mkConsumed 9 2 1)) as (o & Ho & Hle & _); [by left|reflexivity|].
  exists o. split; [exact Ho|exact Hle].
Defined.
