(* ===== verification/AsyncCommit.v ===== *)
(** * The asynchronous commit worker

    [schedule_commit_async] of [crates/client-consumer/src/commit.rs] and the
    task that it spawns, as a step relation on the shared atomic, the callbacks
    and the commit lock. Every atomic operation and every critical section is
    one step, and callers run on any number of threads. A call is a number; a
    call with a callback puts its number on the list of callbacks. *)

From S2P Require Import Prelude.

Inductive flag : Type := ASYNC_COMMIT_IDLE | ASYNC_COMMIT_RUNNING | ASYNC_COMMIT_DIRTY.

#[global] Instance flag_eq_dec : EqDecision flag.
Proof. solve_decision. Defined.

(** Where a call is: before it queues its callback, before it loads the state,
    and before the compare-exchange from the state it loaded. *)
Inductive caller : Type :=
| Push (id : nat)
| Load (id : nat)
| Exchange (id : nat) (seen : flag).

(** Where the worker is: before the commit lock, with the lock and before the
    store, before it takes the callbacks, before the snapshot, with the request
    under way, and before the two compare-exchanges. *)
Inductive worker : Type :=
| WaitLock
| Locked
| TakeCallbacks
| Snapshot (taken : list nat)
| Send (taken : list nat)
| ToIdle
| ToRunning.

(** [lock] tells who holds [commit_serialization]: the worker, or another
    commit. [owed] are the calls that returned and that no snapshot covers yet,
    a ghost of the proof; [called] are the callbacks that ran. *)
Record state : Type := mkState {
  st_flag : flag;
  st_callbacks : list nat;
  st_callers : list caller;
  st_workers : list worker;
  st_locked : bool;
  st_issued : list nat;
  st_called : list nat;
  st_owed : list nat;
}.

Definition init : state := mkState ASYNC_COMMIT_IDLE [] [] [] false [] [] [].

(** ** One step of a call *)

Definition caller_id (c : caller) : nat := match c with Push i | Load i | Exchange i _ => i end.

(** What a call does next: the call's new place, [None] when it returns, with
    the state and whether it spawns a worker. *)
Definition call_step (f : flag) (callbacks : list nat) (c : caller)
    : option caller * flag * list nat * bool :=
  match c with
  | Push id => (Some (Load id), f, callbacks ++ [id], false)
  | Load id =>
    match f with
    | ASYNC_COMMIT_DIRTY => (None, f, callbacks, false)
    | _ => (Some (Exchange id f), f, callbacks, false)
    end
  | Exchange id seen =>
    if bool_decide (f = seen) then
      match seen with
      | ASYNC_COMMIT_IDLE => (None, ASYNC_COMMIT_RUNNING, callbacks, true)
      | ASYNC_COMMIT_RUNNING => (None, ASYNC_COMMIT_DIRTY, callbacks, false)
      | ASYNC_COMMIT_DIRTY => (None, f, callbacks, false)
      end
    else (Some (Load id), f, callbacks, false)
  end.

(** ** One step of the worker

    [None] for the place when it has returned. The lock is an argument: the
    worker waits while another commit holds it. *)
Definition work_step (f : flag) (callbacks : list nat) (locked : bool) (wk : worker)
    : option (option worker * flag * list nat * bool * list nat) :=
  match wk with
  | WaitLock => if locked then None else Some (Some Locked, f, callbacks, true, [])
  | Locked => Some (Some TakeCallbacks, ASYNC_COMMIT_RUNNING, callbacks, locked, [])
  | TakeCallbacks => Some (Some (Snapshot callbacks), f, [], locked, [])
  | Snapshot taken => Some (Some (Send taken), f, callbacks, locked, [])
  | Send taken => Some (Some ToIdle, f, callbacks, false, taken)
  | ToIdle =>
    if bool_decide (f = ASYNC_COMMIT_RUNNING)
    then Some (None, ASYNC_COMMIT_IDLE, callbacks, locked, [])
    else Some (Some ToRunning, f, callbacks, locked, [])
  | ToRunning =>
    if bool_decide (f = ASYNC_COMMIT_DIRTY)
    then Some (Some WaitLock, ASYNC_COMMIT_RUNNING, callbacks, locked, [])
    else Some (None, f, callbacks, locked, [])
  end.

Definition takes_snapshot (wk : worker) : bool := match wk with Snapshot _ => true | _ => false end.

Definition holds_lock (wk : worker) : bool :=
  match wk with Locked | TakeCallbacks | Snapshot _ | Send _ => true | _ => false end.

(** ** Interleavings *)

Inductive step : state → state → Prop :=
| step_call s id :
    (** [commit_async] *)
    step s (mkState (st_flag s) (st_callbacks s) (Load id :: st_callers s) (st_workers s)
              (st_locked s) (st_issued s) (st_called s) (st_owed s))
| step_call_with_callback s id :
    step s (mkState (st_flag s) (st_callbacks s) (Push id :: st_callers s) (st_workers s)
              (st_locked s) (id :: st_issued s) (st_called s) (st_owed s))
| step_caller s before c after next f cbs spawn :
    st_callers s = before ++ c :: after →
    call_step (st_flag s) (st_callbacks s) c = (next, f, cbs, spawn) →
    step s (mkState f cbs (before ++ option_list next ++ after)
              (if spawn then WaitLock :: st_workers s else st_workers s)
              (st_locked s) (st_issued s) (st_called s)
              (if next then st_owed s else caller_id c :: st_owed s))
| step_worker s before wk after next f cbs locked called :
    st_workers s = before ++ wk :: after →
    work_step (st_flag s) (st_callbacks s) (st_locked s) wk = Some (next, f, cbs, locked, called) →
    step s (mkState f cbs (st_callers s) (before ++ option_list next ++ after) locked
              (st_issued s) (st_called s ++ called)
              (if takes_snapshot wk then [] else st_owed s))
| step_other_lock s :
    st_locked s = false →
    step s (mkState (st_flag s) (st_callbacks s) (st_callers s) (st_workers s) true
              (st_issued s) (st_called s) (st_owed s))
| step_other_unlock s :
    Forall (λ wk, holds_lock wk = false) (st_workers s) →
    step s (mkState (st_flag s) (st_callbacks s) (st_callers s) (st_workers s) false
              (st_issued s) (st_called s) (st_owed s)).

Inductive reach : state → Prop :=
| reach_init : reach init
| reach_step s s' : reach s → step s s' → reach s'.

(** ** The invariant *)

(** A worker that has its snapshot before it. *)
Definition before_snapshot (wk : worker) : bool :=
  match wk with WaitLock | Locked | TakeCallbacks | Snapshot _ => true | _ => false end.
Definition before_take (wk : worker) : bool :=
  match wk with WaitLock | Locked | TakeCallbacks => true | _ => false end.

Definition worker_holds (wk : worker) : list nat :=
  match wk with Snapshot taken | Send taken => taken | _ => [] end.

Definition caller_push (c : caller) : list nat := match c with Push id => [id] | _ => [] end.

(** The call [c] has queued the callback [id] and not returned. *)
Definition queued (id : nat) (c : caller) : Prop :=
  match c with Push _ => False | Load i | Exchange i _ => i = id end.

Record inv (s : state) : Prop := {
  inv_worker :
    match st_workers s with
    | [] => st_flag s = ASYNC_COMMIT_IDLE
    | [wk] => st_flag s ≠ ASYNC_COMMIT_IDLE ∧ (wk = ToRunning → st_flag s = ASYNC_COMMIT_DIRTY) ∧
              (holds_lock wk = true → st_locked s = true)
    | _ => False
    end;
  inv_owed :
    st_owed s ≠ [] → st_flag s = ASYNC_COMMIT_DIRTY ∨ Exists (λ wk, before_snapshot wk = true) (st_workers s);
  inv_callbacks : ∀ id, id ∈ st_callbacks s →
    Exists (queued id) (st_callers s) ∨
    st_flag s = ASYNC_COMMIT_DIRTY ∨ Exists (λ wk, before_take wk = true) (st_workers s);
  inv_ids :
    st_issued s ≡ₚ concat (caller_push <$> st_callers s) ++ st_callbacks s ++
                   concat (worker_holds <$> st_workers s) ++ st_called s;
}.

(** Closes a permutation of lists of numbers by counting. *)
Ltac by_count H :=
  apply (Permutation_count_occ Nat.eq_dec);
  let x := fresh "x" in
  intros x; apply (proj1 (Permutation_count_occ Nat.eq_dec _ _)) with (x := x) in H;
  revert H; rewrite ?fmap_app, ?concat_app; cbn [fmap list_fmap concat];
  rewrite ?app_nil_r, ?count_occ_app; lia.

Lemma Exists_replace {A} (P : A → Prop) before x after (next : option A) :
  (P x → Exists P (option_list next)) →
  Exists P (before ++ x :: after) → Exists P (before ++ option_list next ++ after).
Proof. rewrite !Exists_app, Exists_cons. tauto. Qed.

Lemma inv_init : inv init.
Proof. split; simpl; try done. intros id []%elem_of_nil. Qed.

(** The calls and callbacks after a step of a call. *)
Lemma caller_ids f cbs c next f' cbs' spawn before after rest :
  call_step f cbs c = (next, f', cbs', spawn) →
  concat (caller_push <$> before ++ c :: after) ++ cbs ++ rest ≡ₚ
  concat (caller_push <$> before ++ option_list next ++ after) ++ cbs' ++ rest.
Proof.
  intros Hs. assert (caller_push c ++ cbs ≡ₚ concat (caller_push <$> option_list next) ++ cbs') as H.
  { destruct c as [id|id|id seen]; simpl in Hs; repeat case_match; simplify_eq/=; try done.
    by rewrite Permutation_app_comm. }
  by_count H.
Qed.

Lemma caller_callbacks f cbs c next f' cbs' spawn id :
  call_step f cbs c = (next, f', cbs', spawn) → id ∈ cbs' →
  (id ∈ cbs ∧ (queued id c → Exists (queued id) (option_list next) ∨ f' = ASYNC_COMMIT_DIRTY ∨ spawn = true)) ∨
  Exists (queued id) (option_list next).
Proof.
  intros Hs Hin. destruct c as [i|i|i seen]; simpl in Hs.
  - simplify_eq. apply elem_of_app in Hin as [Hin|Hin%list_elem_of_singleton]; [left|right].
    + split; [done|]. by intros [].
    + subst. by left.
  - left. destruct f; simplify_eq; (split; [done|]); simpl; intros ->; auto; left; by left.
  - left. case_bool_decide; [destruct seen|]; simplify_eq; (split; [done|]); simpl; intros ->; auto. left. by left.
Qed.

Lemma caller_flag f cbs c next f' cbs' spawn :
  call_step f cbs c = (next, f', cbs', spawn) →
  (f' = f ∧ spawn = false ∧ (next = None → f = ASYNC_COMMIT_DIRTY)) ∨
  (f = ASYNC_COMMIT_IDLE ∧ f' = ASYNC_COMMIT_RUNNING ∧ spawn = true) ∨
  (f = ASYNC_COMMIT_RUNNING ∧ f' = ASYNC_COMMIT_DIRTY ∧ spawn = false).
Proof.
  intros Hs. destruct c as [i|i|i seen]; simpl in Hs; [| |case_bool_decide]; repeat case_match;
    simplify_eq; auto 6; left; split_and!; done.
Qed.

Lemma inv_caller s before c after next f cbs spawn :
  inv s → st_callers s = before ++ c :: after →
  call_step (st_flag s) (st_callbacks s) c = (next, f, cbs, spawn) →
  inv (mkState f cbs (before ++ option_list next ++ after)
         (if spawn then WaitLock :: st_workers s else st_workers s)
         (st_locked s) (st_issued s) (st_called s)
         (if next then st_owed s else caller_id c :: st_owed s)).
Proof.
  intros [H1 H2 H3 H4] Hc Hs. rewrite Hc in H3, H4.
  pose proof (caller_flag _ _ _ _ _ _ _ Hs) as Hf. split; simpl.
  - destruct Hf as [(-> & -> & _)|[(Hi & -> & ->)|(Hr & -> & ->)]]; [done| |].
    + destruct (st_workers s) as [|wk []]; [done|by destruct H1|done].
    + rewrite Hr in H1. destruct (st_workers s) as [|wk []]; [done| |done]. by destruct H1 as (? & ? & ?).
  - destruct Hf as [(-> & -> & Hd)|[(Hi & -> & ->)|(Hr & -> & ->)]]; [|by right; left|by left].
    destruct next; [done|]. left. by apply Hd.
  - intros id Hid. destruct (caller_callbacks _ _ _ _ _ _ _ id Hs Hid) as [[Hin Hq]|Hq].
    2:{ left. apply Exists_app. right. apply Exists_app. by left. }
    destruct (H3 id Hin) as [He|He].
    + apply Exists_app in He as [He|[Hqc|He]%Exists_cons]; [left; apply Exists_app; by left| |].
      * destruct (Hq Hqc) as [?|[->| ->]]; [left|by right; left|by right; right; left].
        apply Exists_app. right. apply Exists_app. by left.
      * left. apply Exists_app. right. apply Exists_app. by right.
    + right. destruct Hf as [(-> & -> & _)|[(Hi & -> & ->)|(Hr & -> & ->)]]; [done|by right; left|by left].
  - rewrite H4. replace (worker_holds <$> (if spawn then WaitLock :: st_workers s else st_workers s))
      with (if spawn then [] :: (worker_holds <$> st_workers s) else worker_holds <$> st_workers s)
      by (by destruct spawn).
    destruct spawn; simpl; by eapply caller_ids.
Qed.

Lemma work_ids f cbs locked wk next f' cbs' locked' called before after rest called0 :
  work_step f cbs locked wk = Some (next, f', cbs', locked', called) →
  rest ++ cbs ++ concat (worker_holds <$> before ++ wk :: after) ++ called0 ≡ₚ
  rest ++ cbs' ++ concat (worker_holds <$> before ++ option_list next ++ after) ++ called0 ++ called.
Proof.
  intros Hs.
  assert (cbs ++ worker_holds wk ≡ₚ cbs' ++ concat (worker_holds <$> option_list next) ++ called) as H.
  { destruct wk; simpl in Hs; repeat case_match; simplify_eq; simpl; rewrite ?app_nil_r; done. }
  by_count H.
Qed.

Lemma inv_work s wk next f cbs locked called before after :
  inv s → st_workers s = before ++ wk :: after →
  work_step (st_flag s) (st_callbacks s) (st_locked s) wk = Some (next, f, cbs, locked, called) →
  inv (mkState f cbs (st_callers s) (before ++ option_list next ++ after) locked
         (st_issued s) (st_called s ++ called) (if takes_snapshot wk then [] else st_owed s)).
Proof.
  intros [H1 H2 H3 H4] Hw Hs. rewrite Hw in H1, H2, H3, H4.
  assert (before = [] ∧ after = []) as [-> ->].
  { destruct before as [|b1 [|b2 before]], after; try done. }
  simpl in *. rewrite ?app_nil_r in *. destruct H1 as (Hi & Hr & Hl).
  assert (Hids := work_ids _ _ _ _ _ _ _ _ _ [] []
    (concat (caller_push <$> st_callers s)) (st_called s) Hs).
  simpl in Hids. rewrite ?app_nil_r in Hids.
  split; simpl; [| | |by rewrite H4, <- Hids; simpl; rewrite ?app_nil_r].
  - clear H2 H3 H4 Hids. destruct wk; simpl in Hs.
    + destruct (st_locked s); simplify_eq; simpl. done.
    + simplify_eq; simpl. split_and!; try done; auto.
    + simplify_eq; simpl. split_and!; try done; auto.
    + simplify_eq; simpl. split_and!; try done; auto.
    + simplify_eq; simpl. done.
    + case_bool_decide; simplify_eq; simpl; [done|]. split_and!; [done| |done]. by destruct (st_flag s).
    + rewrite (Hr eq_refl) in Hs. simpl in Hs. simplify_eq; simpl. done.
  - clear H3 H4 Hids. rewrite Exists_cons, Exists_nil in H2.
    destruct wk; simpl in Hs.
    + destruct (st_locked s); simplify_eq; simpl. by right; left.
    + simplify_eq; simpl. by right; left.
    + simplify_eq; simpl. by right; left.
    + done.
    + simplify_eq; simpl. intros [?|[?|[]]]%H2; [by left|done].
    + case_bool_decide; simplify_eq; simpl; intros [?|[?|[]]]%H2; try done; [congruence|by left].
    + rewrite (Hr eq_refl) in Hs. simpl in Hs. simplify_eq; simpl. by right; left.
  - clear H2 H4 Hids. intros id Hid. specialize (H3 id). rewrite Exists_cons, Exists_nil in H3.
    destruct wk; simpl in Hs.
    + destruct (st_locked s); simplify_eq; simpl. by right; right; left.
    + simplify_eq; simpl. by right; right; left.
    + simplify_eq; simpl. by apply elem_of_nil in Hid.
    + simplify_eq; simpl. destruct (H3 Hid) as [?|[?|[?|[]]]]; [by left|by right; left|done].
    + simplify_eq; simpl. destruct (H3 Hid) as [?|[?|[?|[]]]]; [by left|by right; left|done].
    + case_bool_decide; simplify_eq; simpl; destruct (H3 Hid) as [?|[?|[?|[]]]]; try done; try (by left);
        [congruence|by right; left].
    + rewrite (Hr eq_refl) in Hs. simpl in Hs. simplify_eq; simpl. by right; right; left.
Qed.

Lemma inv_step s s' : inv s → step s s' → inv s'.
Proof.
  intros Hi Hst. destruct Hst as [s id|s id| | |s Hl|s Hl]; [| |by eapply inv_caller|by eapply inv_work| |];
    destruct Hi as [H1 H2 H3 H4]; split; simpl; try done.
  - intros x Hx. destruct (H3 x Hx) as [?|?]; [left; by right|by right].
  - intros x Hx. destruct (H3 x Hx) as [?|?]; [left; by right|by right].
  - by rewrite H4.
  - destruct (st_workers s) as [|wk []]; try done. destruct H1 as (? & ? & Hx). split_and!; auto.
  - destruct (st_workers s) as [|wk []]; try done. destruct H1 as (? & ? & Hx). split_and!; auto.
    intros Hh. apply Forall_cons in Hl as [Hl _]. congruence.
Qed.

Lemma reach_inv s : reach s → inv s.
Proof. induction 1 as [|s s' _ IH Hst]; [apply inv_init|by eapply inv_step]. Qed.

(** no asynchronous commit is forgotten. In every interleaving of callers,
    worker and other commits there is at most one worker; the callbacks of all
    calls are each in one place (not queued yet, queued, taken, or run); a
    queued callback whose call has returned has a worker before it that will
    take it; a call that returned without a later snapshot has a worker that
    will take one. So when no call is under way and the worker is idle, every
    callback ran exactly once and a snapshot was taken after every call. *)
Theorem async_commit_covers_every_call s :
  reach s →
  (length (st_workers s) ≤ 1)%nat ∧
  st_issued s ≡ₚ concat (caller_push <$> st_callers s) ++ st_callbacks s ++
                 concat (worker_holds <$> st_workers s) ++ st_called s ∧
  (st_owed s ≠ [] → st_flag s ≠ ASYNC_COMMIT_IDLE ∧
     (st_flag s = ASYNC_COMMIT_DIRTY ∨ Exists (λ wk, before_snapshot wk = true) (st_workers s))) ∧
  (st_flag s = ASYNC_COMMIT_IDLE → st_callers s = [] →
     st_called s ≡ₚ st_issued s ∧ st_owed s = [] ∧ st_workers s = []).
Proof.
  intros [H1 H2 H3 H4]%reach_inv. split_and!; [|done| |].
  - destruct (st_workers s) as [|? []]; simpl; (lia || done).
  - intros Ho. split; [|auto]. intros Hi. rewrite Hi in *.
    destruct (st_workers s) as [|wk []]; [|by destruct H1|done].
    destruct (H2 Ho) as [?|?%Exists_nil]; done.
  - intros Hi Hc. rewrite Hc, Hi in *.
    assert (st_workers s = []) as Hw by (destruct (st_workers s) as [|wk []]; [done|by destruct H1|done]).
    rewrite Hw in *. assert (st_callbacks s = []) as Hcb.
    { destruct (st_callbacks s) as [|id l]; [done|].
      destruct (H3 id) as [?%Exists_nil|[?|?%Exists_nil]]; [by left|done..]. }
    rewrite Hcb in H4. split_and!; [by rewrite H4| |done].
    destruct (st_owed s) as [|id l]; [done|]. destruct H2 as [?|?%Exists_nil]; done.
Qed.

(** An executable schedule: the first call and the first worker go on. *)
Inductive event : Type := StartCall (id : nat) | GoCaller | GoWorker.

Definition exec_event (s : state) (e : event) : option state :=
  match e with
  | StartCall id =>
    Some (mkState (st_flag s) (st_callbacks s) (Push id :: st_callers s) (st_workers s)
            (st_locked s) (id :: st_issued s) (st_called s) (st_owed s))
  | GoCaller =>
    match st_callers s with
    | [] => None
    | c :: after =>
      let '(next, f, cbs, spawn) := call_step (st_flag s) (st_callbacks s) c in
      Some (mkState f cbs (option_list next ++ after)
              (if spawn then WaitLock :: st_workers s else st_workers s)
              (st_locked s) (st_issued s) (st_called s)
              (if next then st_owed s else caller_id c :: st_owed s))
    end
  | GoWorker =>
    match st_workers s with
    | [] => None
    | wk :: after =>
      '(next, f, cbs, locked, called) ← work_step (st_flag s) (st_callbacks s) (st_locked s) wk;
      Some (mkState f cbs (st_callers s) (option_list next ++ after) locked
              (st_issued s) (st_called s ++ called) (if takes_snapshot wk then [] else st_owed s))
    end
  end.

Fixpoint exec (s : state) (es : list event) : option state :=
  match es with [] => Some s | e :: es => exec_event s e ≫= λ s, exec s es end.

Lemma exec_event_step s e s' : exec_event s e = Some s' → step s s'.
Proof.
  destruct e; simpl; intros H.
  - simplify_eq. apply step_call_with_callback.
  - destruct (st_callers s) as [|c after] eqn:E; [done|].
    destruct (call_step _ _ c) as [[[next f] cbs] spawn] eqn:Ec. simplify_eq.
    by apply (step_caller s [] c after).
  - destruct (st_workers s) as [|wk after] eqn:E; [done|].
    apply bind_Some in H as ([[[[next f] cbs] locked] called] & Ew & H). simplify_eq.
    by apply (step_worker s [] wk after).
Qed.

Lemma exec_reach s es s' : reach s → exec s es = Some s' → reach s'.
Proof.
  revert s. induction es as [|e es IH]; simpl; intros s Hr H; [by simplify_eq|].
  apply bind_Some in H as (s1 & H1 & H). eapply IH; [|done].
  by eapply reach_step, exec_event_step.
Qed.

Definition two_calls : list event :=
  [StartCall 1; GoCaller; GoCaller; GoCaller; GoWorker; GoWorker; GoWorker; GoWorker;
   StartCall 2; GoCaller; GoCaller; GoCaller] ++ replicate 9 GoWorker.

(** Two calls with callbacks, the second while the request of the first is
    under way: the worker takes a second snapshot for it. *)
Lemma async_commit_covers_every_call_witness :
  ∃ s, exec init two_calls = Some s ∧ st_called s ≡ₚ [2; 1]%nat ∧ st_owed s = [].
Proof.
  destruct (exec init two_calls) as [s|] eqn:E; [|by vm_compute in E].
  exists s. split; [done|].
  assert (st_flag s = ASYNC_COMMIT_IDLE ∧ st_callers s = [] ∧ st_issued s = [2; 1]%nat) as (H1 & H2 & H3)
    by (vm_compute in E; injection E as <-; done).
  rewrite <- H3.
  destruct (proj2 (proj2 (proj2
    (async_commit_covers_every_call s (exec_reach _ _ _ reach_init E)))) H1 H2) as (Ha & Hb & _).
  split; [exact Ha|exact Hb].
Defined.
