(* ===== verification/Subscription.v ===== *)
(** * The subscription of a consumer

    [crates/client-consumer/src/subscription.rs]: what the consumer and its
    coordinator task share about the subscribed topics. A topic pattern is the
    matcher that the application gave. The calls of the application are the
    changes they make to the shared subscription. *)

From S2P Require Import Prelude Text ConsumerErrors.

(** A topic of a metadata answer, with the fields the consumer reads. *)
Record MetadataTopic {Uuid : Type} : Type := mkMdTopic {
  mt_error_code : Z;
  mt_name : option string;
  mt_topic_id : Uuid;
  mt_is_internal : bool;
  mt_partitions : nat;
}.
Arguments MetadataTopic : clear implicits.
Arguments mkMdTopic {Uuid}.

Record Subscription : Type := mkSub {
  su_topics : list string;
  su_pattern : option (string → bool);
  su_regex : option string;
  su_exclude_internal_topics : bool;
  su_unsubscribes : Z;
  su_version : Z;
  su_manual_assignment : bool;
}.

(** [BTreeSet::from_iter(topics).into_iter()]. *)
Definition sorted (topics : list string) : list string := sort_by str_le (remove_dups topics).

Definition Subscription_topics (topics : list string) (exclude_internal : bool) : Subscription :=
  mkSub (sorted topics) None None exclude_internal 0 0 false.

Definition is_none (s : Subscription) : bool :=
  bool_decide (su_topics s = []) && bool_decide (¬ is_Some (su_pattern s)) &&
  bool_decide (su_regex s = None).

(** The topics are sorted, so the binary search finds a topic that is there. *)
Definition contains (s : Subscription) (topic : string) : bool := bool_decide (topic ∈ su_topics s).

Definition with_topics (s : Subscription) (topics : list string) : Subscription :=
  mkSub topics (su_pattern s) (su_regex s) (su_exclude_internal_topics s) (su_unsubscribes s)
    (su_version s) (su_manual_assignment s).

Definition store_assigned_topics (s : Subscription) (assigned : list string) : Subscription * bool :=
  match su_regex s with
  | None => (s, false)
  | Some _ =>
    let topics := sorted assigned in
    if bool_decide (su_topics s = topics) then (s, false) else (with_topics s topics, true)
  end.

Definition store_pattern_topics (s : Subscription) (version : Z) (matched : list string)
    : Subscription * bool :=
  if negb (su_version s =? version) || bool_decide (¬ is_Some (su_pattern s))
     || bool_decide (su_topics s = matched)
  then (s, false) else (with_topics s matched, true).

Definition matching_topics {Uuid} (s : Subscription) (metadata : list (MetadataTopic Uuid))
    : option (list string) :=
  pattern ← su_pattern s;
  Some (sorted (filter (λ name, pattern name = true)
    (omap mt_name (filter (λ t, (su_exclude_internal_topics s && mt_is_internal t) = false) metadata)))).

(** [slice::join]. *)
Fixpoint join (sep : string) (l : list string) : string :=
  match l with
  | [] => ""
  | [x] => x
  | x :: l => x +:+ sep +:+ join sep l
  end.

Definition subscription_changed_reason (joined now : list string) : string :=
  "the subscription has changed from [" +:+ join ", " joined +:+ "] to [" +:+ join ", " now
  +:+ "] since the last group join".

(** ** The calls of the application on the subscription

    [group] tells whether the consumer has a group id and a coordinator task,
    and [consumer_protocol] whether it uses the consumer group protocol. The
    other state they change (metadata topics, fetch buffer, assignment) is not
    part of the subscription. *)

Definition exclusive : consumer_error :=
  ConsumerError.IllegalState "Subscription to topics, partitions and pattern are mutually exclusive".

Definition unsubscribe (s : Subscription) : Subscription :=
  mkSub [] None None (su_exclude_internal_topics s) (su_unsubscribes s + 1) (su_version s + 1) false.

Definition subscribe (group : result consumer_error unit) (s : Subscription) (topics : list string)
    : result consumer_error Subscription :=
  if existsb (λ t, bool_decide (t = "")) topics
  then Err (ConsumerError.InvalidArgument
              "Topic collection to subscribe to cannot contain null or empty topic")
  else if bool_decide (topics = []) then Ok (unsubscribe s)
  else
    _ ← group;
    if su_manual_assignment s then Err exclusive
    else Ok (mkSub (sorted topics) None None (su_exclude_internal_topics s) (su_unsubscribes s)
               (su_version s + 1) (su_manual_assignment s)).

Definition subscribe_pattern (group : result consumer_error unit) (s : Subscription)
    (pattern : string → bool) : result consumer_error Subscription :=
  _ ← group;
  if su_manual_assignment s then Err exclusive
  else Ok (mkSub [] (Some pattern) None (su_exclude_internal_topics s) (su_unsubscribes s)
             (su_version s + 1) (su_manual_assignment s)).

Definition RE2J_NEEDS_CONSUMER_PROTOCOL : string :=
  "Subscribe to RE2/J pattern is not supported when using the CLASSIC protocol defined in config group.protocol".

Definition subscribe_regex (group : result consumer_error unit) (consumer_protocol : bool)
    (s : Subscription) (regex : string) : result consumer_error Subscription :=
  if bool_decide (regex = "")
  then Err (ConsumerError.InvalidArgument "Topic pattern to subscribe to cannot be empty")
  else
    _ ← group;
    if negb consumer_protocol then Err (ConsumerError.IllegalState RE2J_NEEDS_CONSUMER_PROTOCOL)
    else if su_manual_assignment s then Err exclusive
    else Ok (mkSub (su_topics s) None (Some regex) (su_exclude_internal_topics s) (su_unsubscribes s)
               (su_version s + 1) (su_manual_assignment s)).

(** [Consumer::assign], for the subscription. *)
Definition assign (s : Subscription) (partitions : list (string * Z)) : result consumer_error Subscription :=
  if existsb (λ tp : string * Z, bool_decide (tp.1 = "")) partitions
  then Err (ConsumerError.InvalidArgument
              "Topic partitions to assign to cannot have null or empty topic")
  else
    match List.find (λ tp : string * Z, tp.2 <? 0) partitions with
    | Some (topic, partition) =>
      Err (ConsumerError.InvalidArgument
             ("Partition index of " +:+ topic +:+ "-" +:+ fmt_int partition +:+ " is negative"))
    | None =>
      if negb (is_none s) then Err exclusive
      else Ok (mkSub (su_topics s) (su_pattern s) (su_regex s) (su_exclude_internal_topics s)
                 (su_unsubscribes s) (su_version s) (negb (bool_decide (remove_dups partitions = []))))
    end.

(** ** The kinds of subscription exclude each other *)

(** The topics are sorted and distinct, a pattern and a regular expression do
    not occur together, and a manual assignment comes with no subscription. *)
Record sub_ok (s : Subscription) : Prop := {
  ok_sorted : StronglySorted str_le (su_topics s) ∧ NoDup (su_topics s);
  ok_kind : is_Some (su_pattern s) → su_regex s = None;
  ok_manual : su_manual_assignment s = true → is_none s = true;
}.

Lemma sorted_ok l : StronglySorted str_le (sorted l) ∧ NoDup (sorted l).
Proof.
  split; [apply sort_by_sorted; apply _|]. unfold sorted. rewrite sort_by_perm. apply NoDup_remove_dups.
Qed.

Lemma contains_spec s topic : contains s topic = true ↔ topic ∈ su_topics s.
Proof. unfold contains. apply bool_decide_eq_true. Qed.

(** What the application and the coordinator task do to the subscription. *)
Inductive sub_step {Uuid} : Subscription → Subscription → Prop :=
| sub_subscribe group s topics s' : subscribe group s topics = Ok s' → sub_step s s'
| sub_pattern group s p s' : subscribe_pattern group s p = Ok s' → sub_step s s'
| sub_regex group c s r s' : subscribe_regex group c s r = Ok s' → sub_step s s'
| sub_assign s partitions s' : assign s partitions = Ok s' → sub_step s s'
| sub_unsubscribe s : sub_step s (unsubscribe s)
| sub_assigned s topics : sub_step s (store_assigned_topics s topics).1
| sub_matched (s0 s : Subscription) (md : list (MetadataTopic Uuid)) matched :
    matching_topics s0 md = Some matched →
    sub_step s (store_pattern_topics s (su_version s0) matched).1.

Lemma matching_topics_sorted {Uuid} s (md : list (MetadataTopic Uuid)) matched :
  matching_topics s md = Some matched → StronglySorted str_le matched ∧ NoDup matched.
Proof. intros (p & _ & H)%bind_Some. simplify_eq. apply sorted_ok. Qed.

Definition same_kind (s s' : Subscription) : Prop :=
  su_pattern s' = su_pattern s ∧ su_regex s' = su_regex s.

(** A step of the application has a new version; a step without one keeps the
    pattern and the expression. *)
Lemma sub_step_version {Uuid} s s' :
  sub_step (Uuid := Uuid) s s' → su_version s < su_version s' ∨ su_version s' = su_version s ∧ same_kind s s'.
Proof.
  destruct 1 as [g s topics s' H|g s p s' H|g c s r s' H|s m s' H|s|s topics|s0 s md matched H];
    try (unfold subscribe, subscribe_pattern, subscribe_regex, assign in H; repeat case_match; simplify_eq;
         try (apply bind_ok in H as (? & _ & H)); repeat case_match; simplify_eq; simpl;
         first [left; lia | right; done]).
  - left. simpl. lia.
  - right. unfold store_assigned_topics. repeat case_match; done.
  - right. unfold store_pattern_topics. repeat case_match; done.
Qed.

Lemma sub_step_ok {Uuid} s s' : sub_ok s → sub_step (Uuid := Uuid) s s' → sub_ok s'.
Proof.
  intros Hok Hst.
  assert (sub_ok (unsubscribe s)) as Hun by (split; simpl; [split; constructor|done|done]).
  destruct Hst as [g s topics s' H|g s p s' H|g c s r s' H|s m s' H|s|s topics|s0 s md matched H].
  - unfold subscribe in H. case_match; [done|]. case_bool_decide; [by simplify_eq|].
    apply bind_ok in H as (? & _ & H). destruct (su_manual_assignment s) eqn:E; simplify_eq.
    split; simpl; [apply sorted_ok|done|done].
  - apply bind_ok in H as (? & _ & H). destruct (su_manual_assignment s) eqn:E; simplify_eq.
    split; simpl; [split; constructor|done|done].
  - unfold subscribe_regex in H. case_bool_decide; [done|].
    apply bind_ok in H as (? & _ & H). destruct (negb c); [done|].
    destruct (su_manual_assignment s) eqn:E; simplify_eq.
    split; simpl; [apply Hok|by intros []|done].
  - unfold assign in H. destruct (existsb _ m); [done|]. destruct (List.find _ m) as [[? ?]|]; [done|].
    destruct (is_none s) eqn:E; simplify_eq/=.
    split; simpl; [apply Hok|apply Hok|done].
  - exact Hun.
  - unfold store_assigned_topics. destruct (su_regex s) eqn:E; [|done]. case_bool_decide; [done|].
    split; simpl; [apply sorted_ok|apply Hok|]. intros Hm%(ok_manual _ Hok).
    unfold is_none in Hm. rewrite E, andb_false_r in Hm. done.
  - unfold store_pattern_topics. destruct (su_pattern s) as [q|] eqn:E.
    2:{ rewrite (bool_decide_true (¬ is_Some None)) by (by intros [? ?]). by rewrite orb_true_r. }
    destruct (_ || _); [done|]. split; simpl; [by eapply matching_topics_sorted|apply Hok|].
    intros Hm%(ok_manual _ Hok). unfold is_none in Hm. rewrite E in Hm.
    rewrite (bool_decide_false (¬ is_Some (Some q))), andb_false_r in Hm by (intros Hn; by apply Hn). done.
Qed.

(** the subscription that the consumer and its task share. Through every
    sequence of application calls and stores of the task, the topics stay
    sorted and distinct and the kinds of subscription exclude each other; and
    topics that the task matched for the subscription [s0] of its metadata
    request are stored only while the pattern is still the one of [s0]: a
    newer call of the application always keeps its subscription. *)
Theorem subscription_consistent {Uuid} s0 s (md : list (MetadataTopic Uuid)) matched :
  sub_ok s0 → rtc (sub_step (Uuid := Uuid)) s0 s → matching_topics s0 md = Some matched →
  sub_ok s ∧
  let '(s', stored) := store_pattern_topics s (su_version s0) matched in
  (stored = true → su_pattern s = su_pattern s0 ∧ su_topics s' = matched) ∧
  (stored = false → s' = s) ∧ (su_version s0 < su_version s → stored = false).
Proof.
  intros Hok Hr Hm.
  assert (sub_ok s ∧ (su_version s0 < su_version s ∨ su_version s = su_version s0 ∧ same_kind s0 s)) as [H1 H2].
  { clear Hm. induction Hr as [s0|s0 s1 s Hst Hr IH]; [split; [done|by right]|].
    destruct IH as [IH1 IH2]; [by eapply sub_step_ok|]. split; [done|].
    destruct (sub_step_version _ _ Hst) as [?|[? [? ?]]], IH2 as [?|[? [? ?]]]; try (left; lia).
    right. split; [lia|]. split; congruence. }
  split; [done|]. unfold store_pattern_topics.
  destruct (Z.eqb_spec (su_version s) (su_version s0)) as [Hv|Hv]; simpl.
  - destruct H2 as [?|[_ [Hp _]]]; [lia|].
    destruct (_ || _); simpl; (split_and!; [done|done|lia || done]).
  - split_and!; done.
Qed.

Lemma subscription_consistent_witness :
  let s0 := mkSub [] (Some (λ t, bool_decide (t = "a"))) None true 0 3 false in
  let md := [mkMdTopic 0 (Some "b") () false 1; mkMdTopic 0 (Some "a") () false 2] in
  store_pattern_topics s0 3 ["a"] = (with_topics s0 ["a"], true) ∧
  (store_pattern_topics (unsubscribe s0) 3 ["a"]).2 = false.
Proof.
  intros s0 md. split; [reflexivity|].
  assert (sub_ok s0) as Hok by (split; simpl; [split; constructor|done|done]).
  destruct (subscription_consistent s0 (unsubscribe s0) md ["a"] Hok
    (rtc_once _ _ (sub_unsubscribe s0)) eq_refl) as [_ H].
  exact (proj2 (proj2 H) eq_refl).
Defined.
