(* ===== verification/ConsumerProtocol.v ===== *)
(** * Subscriptions and assignments on the wire

    [crates/client-consumer/src/builder.rs]: the payloads that a classic member
    sends in [JoinGroup] and [SyncGroup]. The message codec is
    [krabka_protocol]'s: the class [ProtocolCodec] lists its encoders and
    decoders, and what the round trip relies on is that a decoder reads back
    what the encoder of the same version wrote. *)

From S2P Require Import Prelude Bytes Assignor Sticky StickyProofs StickyOwners GroupAssign.

Definition SUBSCRIPTION_WIRE_VERSION : Z := 3.
Definition ASSIGNMENT_WIRE_VERSION : Z := 3.

Record ConsumerProtocolSubscription : Type := mkProtocolSubscription {
  ps_topics : list string;
  ps_user_data : option bytes;
  ps_owned_partitions : list (string * list Z);
  ps_generation_id : Z;
  ps_rack_id : option string;
}.

Record ConsumerProtocolAssignment : Type := mkProtocolAssignment {
  pa_assigned_partitions : list (string * list Z);
  pa_user_data : option bytes;
}.

Class ProtocolCodec : Type := {
  encode_sub : ConsumerProtocolSubscription → Z → result string bytes;
  decode_sub : bytes → Z → option ConsumerProtocolSubscription;
  encode_asg : ConsumerProtocolAssignment → Z → result string bytes;
  decode_asg : bytes → Z → option ConsumerProtocolAssignment;
}.

(** [bytes.first_chunk()]. *)
Definition peek_version (b : bytes) : Z :=
  if (length b <? 2)%nat then 0 else get_be_signed (take 2 b).

Definition clamp (lo hi z : Z) : Z := Z.max lo (Z.min hi z).

(** [bytes.get(2..)]. *)
Definition payload (b : bytes) : option bytes :=
  if (length b <? 2)%nat then None else Some (drop 2 b).

Definition empty_subscription : DecodedSubscription := mkSubscription [] [] (-1) None None.

(** The partitions of a list by topic, one pair each. *)
Definition flatten (l : list (string * list Z)) : list topic_partition :=
  concat ((λ e : string * list Z, (λ p, (e.1, p)) <$> e.2) <$> l).

Section codec.
Context `{!ProtocolCodec}.

Definition encode_subscription (topics : list string) (owned : list topic_partition)
    (generation_id : Z) (rack_id : option string) (user_data : option bytes) : result string bytes :=
  let owned_partitions :=
    (λ e : string * list Z, (e.1, sort_by Z.le e.2)) <$> sorted_map (group_by_topic owned) in
  let msg := mkProtocolSubscription (sort_by str_le topics) user_data owned_partitions
               generation_id rack_id in
  body ← encode_sub msg SUBSCRIPTION_WIRE_VERSION;
  Ok (put_i16 SUBSCRIPTION_WIRE_VERSION ++ body).

Definition decode_subscription (b : bytes) : DecodedSubscription :=
  match payload b with
  | None => empty_subscription
  | Some payload =>
    match decode_sub payload (clamp 0 SUBSCRIPTION_WIRE_VERSION (peek_version b)) with
    | None => empty_subscription
    | Some msg => mkSubscription (ps_topics msg) (flatten (ps_owned_partitions msg))
                    (ps_generation_id msg) (ps_rack_id msg) (ps_user_data msg)
    end
  end.

Definition encode_assignment (partitions : list topic_partition) : result string bytes :=
  let msg := mkProtocolAssignment (sorted_map (group_by_topic partitions)) None in
  body ← encode_asg msg ASSIGNMENT_WIRE_VERSION;
  Ok (put_i16 ASSIGNMENT_WIRE_VERSION ++ body).

Definition decode_assignment (b : bytes) : list topic_partition :=
  match payload b with
  | None => []
  | Some payload =>
    match decode_asg payload (clamp 0 ASSIGNMENT_WIRE_VERSION (peek_version b)) with
    | None => []
    | Some msg => flatten (pa_assigned_partitions msg)
    end
  end.
End codec.

(** ** Round trips *)

(** What the client relies on of the message codec. *)
Class CodecLaws `{!ProtocolCodec} : Prop := {
  decode_encode_sub msg v b : encode_sub msg v = Ok b → decode_sub b v = Some msg;
  decode_encode_asg msg v b : encode_asg msg v = Ok b → decode_asg b v = Some msg;
}.

Lemma flatten_sorted_map m : flatten (sorted_map m) ≡ₚ ungroup m.
Proof. unfold flatten, ungroup. by rewrite sorted_map_perm. Qed.

Lemma flatten_sorted_partitions l :
  flatten ((λ e : string * list Z, (e.1, sort_by Z.le e.2)) <$> l) ≡ₚ flatten l.
Proof.
  unfold flatten. induction l as [|[t ps] l IH]; simpl; [done|]. by rewrite IH, sort_by_perm.
Qed.

Lemma payload_version z body :
  is_i16 z → payload (put_i16 z ++ body) = Some body ∧ peek_version (put_i16 z ++ body) = z.
Proof.
  intros Hz. unfold payload, peek_version, put_i16.
  assert (length (put_be 2 z) = 2%nat) as Hl by apply length_put_be.
  rewrite length_app, Hl. cbn [Nat.add Nat.ltb Nat.leb]. split.
  - rewrite drop_app_length' by done. done.
  - rewrite take_app_length' by done. apply get_put_be_signed; [lia|].
    change (2 ^ (8 * Z.of_nat 2 - 1)) with 32768. revert Hz. ints.
Qed.

(** the payloads of a join. With a codec that reads back what it wrote, a
    decoded subscription has the sorted topics, exactly the owned partitions,
    the generation, the rack and the user data that were encoded; a decoded
    assignment has exactly the assigned partitions. *)
Theorem join_payload_roundtrip `{!ProtocolCodec, !CodecLaws} :
  (∀ topics owned generation rack user_data b,
     encode_subscription topics owned generation rack user_data = Ok b →
     let d := decode_subscription b in
     sub_topics d = sort_by str_le topics ∧ sub_owned d ≡ₚ owned ∧
     sub_generation_id d = generation ∧ sub_rack_id d = rack ∧ sub_user_data d = user_data) ∧
  (∀ partitions b, encode_assignment partitions = Ok b → decode_assignment b ≡ₚ partitions).
Proof.
  split.
  - intros topics owned generation rack user_data b (body & Hb & Hok)%bind_ok.
    assert (b = put_i16 SUBSCRIPTION_WIRE_VERSION ++ body) as -> by congruence.
    cbv zeta. unfold decode_subscription.
    destruct (payload_version SUBSCRIPTION_WIRE_VERSION body) as [-> ->]; [done|].
    change (clamp 0 SUBSCRIPTION_WIRE_VERSION SUBSCRIPTION_WIRE_VERSION) with SUBSCRIPTION_WIRE_VERSION.
    rewrite (decode_encode_sub _ _ _ Hb). simpl. split_and!; try done.
    by rewrite flatten_sorted_partitions, flatten_sorted_map, group_by_topic_ungroup.
  - intros partitions b (body & Hb & Hok)%bind_ok.
    assert (b = put_i16 ASSIGNMENT_WIRE_VERSION ++ body) as -> by congruence.
    unfold decode_assignment.
    destruct (payload_version ASSIGNMENT_WIRE_VERSION body) as [-> ->]; [done|].
    change (clamp 0 ASSIGNMENT_WIRE_VERSION ASSIGNMENT_WIRE_VERSION) with ASSIGNMENT_WIRE_VERSION.
    rewrite (decode_encode_asg _ _ _ Hb). simpl. by rewrite flatten_sorted_map, group_by_topic_ungroup.
Qed.

(** A codec for one assignment. *)
Module DemoCodec.
Definition message : ConsumerProtocolAssignment := mkProtocolAssignment [("t", [1; 0])] None.
Definition is_message (m : ConsumerProtocolAssignment) : bool :=
  bool_decide (pa_assigned_partitions m = [("t", [1; 0])] ∧ pa_user_data m = None).
Definition codec : ProtocolCodec := {|
  encode_sub _ _ := Err "unsupported";
  decode_sub _ _ := None;
  encode_asg m _ := if is_message m then Ok [] else Err "unsupported";
  decode_asg _ _ := Some message;
|}.
Lemma laws : @CodecLaws codec.
Proof.
  split; simpl; [done|]. intros msg v b. destruct (is_message msg) eqn:E; [|done]. intros _.
  unfold is_message in E. apply bool_decide_eq_true in E as [E1 E2].
  destruct msg; simpl in *; by subst.
Qed.
End DemoCodec.

Lemma join_payload_roundtrip_witness :
  ∃ b, @encode_assignment DemoCodec.codec [("t", 1); ("t", 0)] = Ok b ∧
       @decode_assignment DemoCodec.codec b ≡ₚ [("t", 1); ("t", 0)].
Proof.
  eexists. split; [reflexivity|].
  exact (proj2 (@join_payload_roundtrip DemoCodec.codec DemoCodec.laws) [("t", 1); ("t", 0)] _ eq_refl).
Defined.
