(* ===== verification/Async.v ===== *)
(** * Asynchronous computations

    An [async fn] as a tree: it ends, or it awaits with the state that the rest
    of the program sees and goes on with the answer and with what other tasks
    made of the shared state meanwhile. A loop that has used up its rounds is
    [Spent]. [World] names the state and the requests of one program part. *)

From S2P Require Import Prelude.

Class World : Type := {
  State : Type;
  Common : Type;
  common : State → Common;
  resume : State → Common → State;
  Request : Type;
  Answer : Request → Type;
}.

Section async.
Context {W : World}.

(** A request, or the first of two to be answered ([select!]). *)
Inductive awaited : Type := One (r : Request) | Either (r1 r2 : awaited).

Fixpoint reply (r : awaited) : Type :=
  match r with One r => Answer r | Either r1 r2 => reply r1 + reply r2 end.

Inductive proc (A : Type) : Type :=
| Ret (a : A) (st : State)
| Wait (r : awaited) (st : State) (k : reply r → Common → proc A)
| Spent (st : State).
#[global] Arguments Ret {A}.
#[global] Arguments Wait {A}.
#[global] Arguments Spent {A}.

Definition async (A : Type) : Type := State → proc A.

Fixpoint proc_bind {A B} (f : A → async B) (m : proc A) : proc B :=
  match m with
  | Ret a st => f a st
  | Wait r st k => Wait r st (λ ans s, proc_bind f (k ans s))
  | Spent st => Spent st
  end.

#[global] Instance async_ret : MRet async := λ A a st, Ret a st.
#[global] Instance async_bind : MBind async := λ A B f m st, proc_bind f (m st).

Definition reads {A} (f : State → A) : async A := λ st, Ret (f st) st.
Definition writes (f : State → State) : async unit := λ st, Ret () (f st).
Definition wait (r : Request) : async (Answer r) := λ st, Wait (One r) st (λ ans s, Ret ans (resume st s)).
Definition spent {A} : async A := λ st, Spent st.

(** The [?] operator. *)
Definition attempt {E A B} (m : async (result E A)) (f : A → async (result E B)) : async (result E B) :=
  r ← m; match r with Ok a => f a | Err e => mret (Err e) end.

(** [select!] of a request and a computation. *)
Fixpoint unless_proc {B} (r : Request) (m : proc B) : proc (Answer r + B) :=
  match m with
  | Ret b st => Ret (inr b) st
  | Spent st => Spent st
  | Wait r2 st k =>
    Wait (Either (One r) r2) st (λ ans s,
      match ans with
      | inl a => Ret (inl a) (resume st s)
      | inr b => unless_proc r (k b s)
      end)
  end.

Definition unless {B} (r : Request) (m : async B) : async (Answer r + B) := λ st, unless_proc r (m st).

(** ** Runs *)

(** What other tasks and the brokers may do at an await. *)
Definition env : Type := ∀ r : Request, State → Answer r → Common → Prop.

Fixpoint env_of (E : env) (r : awaited) : State → reply r → Common → Prop :=
  match r with
  | One r => E r
  | Either r1 r2 => λ st ans s, match ans with inl a => env_of E r1 st a s | inr b => env_of E r2 st b s end
  end.

Inductive seen {A} (E : env) : proc A → State → Prop :=
| seen_here r st k : seen E (Wait r st k) st
| seen_later r st k ans s st' :
    env_of E r st ans s → seen E (k ans s) st' → seen E (Wait r st k) st'.

Inductive results {A} (E : env) : proc A → A → State → Prop :=
| results_ret a st : results E (Ret a st) a st
| results_later r st k ans s a st' :
    env_of E r st ans s → results E (k ans s) a st' → results E (Wait r st k) a st'.

(** Every run ends with a result. *)
Fixpoint finishes {A} (E : env) (m : proc A) : Prop :=
  match m with
  | Ret _ _ => True
  | Spent _ => False
  | Wait r st k => ∀ ans s, env_of E r st ans s → finishes E (k ans s)
  end.

(** Every awaiting state satisfies [I] and every result [Q]; [L] says whether a
    loop may use up its rounds. *)
Section safe.
Context (E : env) (I : State → Prop) (L : Prop).

Fixpoint safe {A} (m : proc A) (Q : A → State → Prop) : Prop :=
  match m with
  | Ret a st => Q a st
  | Spent _ => L
  | Wait r st k => I st ∧ ∀ ans s, env_of E r st ans s → safe (k ans s) Q
  end.

Lemma safe_mono {A} (m : proc A) (Q Q' : A → State → Prop) :
  (∀ a st, Q a st → Q' a st) → safe m Q → safe m Q'.
Proof.
  intros HQ. induction m as [a st|r st k IH|st]; simpl; [apply HQ| |done].
  intros [HI Hk]. split; [done|]. intros ans s HE. by apply IH, Hk.
Qed.

Lemma safe_bind {A B} (m : async A) (f : A → async B) st Q :
  safe (m st) (λ a st', safe (f a st') Q) → safe ((m ≫= f) st) Q.
Proof.
  unfold mbind, async_bind. induction (m st) as [a st'|r st' k IH|st']; simpl; [done| |done].
  intros [HI Hk]. split; [done|]. intros ans s HE. by apply IH, Hk.
Qed.

Lemma safe_attempt {X A B} (m : async (result X A)) (f : A → async (result X B)) st Q :
  safe (m st) (λ r st', match r with Ok a => safe (f a st') Q | Err e => Q (Err e) st' end) →
  safe (attempt m f st) Q.
Proof. intros H. apply safe_bind. eapply safe_mono; [|exact H]. by intros [a|e] st'. Qed.

Lemma safe_unless {B} (r : Request) (m : async B) st (Q : Answer r + B → State → Prop) :
  (∀ a st s, I st → E r st a s → Q (inl a) (resume st s)) →
  safe (m st) (λ b st', Q (inr b) st') → safe (unless r m st) Q.
Proof.
  intros Hr. unfold unless. induction (m st) as [b st'|r2 st' k IH|st']; simpl; [done| |done].
  intros [HI Hk]. split; [done|]. intros [a|b] s HE; [by apply Hr|]. by apply IH, Hk.
Qed.

Lemma safe_seen {A} (m : proc A) Q st : safe m Q → seen E m st → I st.
Proof.
  intros Hs Hv. induction Hv as [r st k|r st k ans s st' HE Hv IH]; [apply Hs|]. apply IH. by apply Hs.
Qed.

Lemma safe_finishes {A} (m : proc A) Q : ¬ L → safe m Q → finishes E m.
Proof.
  intros HL. induction m as [a st|r st k IH|st]; simpl; [done| |done].
  intros [_ Hk] ans s HE. by apply IH, Hk.
Qed.

Lemma safe_results {A} (m : proc A) Q a st : safe m Q → results E m a st → Q a st.
Proof.
  intros Hs Hr. induction Hr as [a st|r st k ans s a st' HE Hr IH]; [done|]. apply IH. by apply Hs.
Qed.
End safe.

Lemma safe_weaken {A} (E : env) (I I' : State → Prop) (L L' : Prop) (m : proc A) (Q : A → State → Prop) :
  (∀ st, I st → I' st) → (L → L') → safe E I L m Q → safe E I' L' m Q.
Proof.
  intros HI HL. induction m as [a st|r st k IH|st]; simpl; [done| |done].
  intros [Hst Hk]. split; [by apply HI|]. intros ans s HE. by apply IH, Hk.
Qed.

Lemma env_of_mono (E E' : env) r st ans s :
  (∀ r st ans s, E' r st ans s → E r st ans s) → env_of E' r st ans s → env_of E r st ans s.
Proof. intros HE. induction r as [r|r1 IH1 r2 IH2]; simpl; [apply HE|]. destruct ans; [apply IH1|apply IH2]. Qed.

Lemma safe_env {A} (E E' : env) (I : State → Prop) (L : Prop) (m : proc A) (Q : A → State → Prop) :
  (∀ r st ans s, E' r st ans s → E r st ans s) → safe E I L m Q → safe E' I L m Q.
Proof.
  intros HE. induction m as [a st|r st k IH|st]; simpl; [done| |done].
  intros [Hst Hk]. split; [done|]. intros ans s He. apply IH, Hk. by eapply env_of_mono.
Qed.

(** A computation whose loops have rounds enough ends, and every result is as
    promised. *)
Lemma safe_complete {A} (E : env) (I : State → Prop) (m : proc A) (Q : A → State → Prop) :
  safe E I False m Q → finishes E m ∧ ∀ a st, results E m a st → Q a st.
Proof. intros Hm. split; [exact (safe_finishes _ _ _ _ _ id Hm)|intros a st; exact (safe_results _ _ _ _ _ _ _ Hm)]. Qed.

(** The run with given answers. *)
Fixpoint play {A} (oracle : ∀ r, State → Answer r * Common) (pick : awaited → bool) (n : nat) (m : proc A) : proc A :=
  match n, m with
  | S n, Wait r st k =>
    let '(ans, s) :=
      (fix go (r : awaited) : reply r * Common :=
         match r with
         | One r => oracle r st
         | Either r1 r2 =>
           if pick r1 then let '(a, s) := go r1 in (inl a, s) else let '(b, s) := go r2 in (inr b, s)
         end) r in
    play oracle pick n (k ans s)
  | _, m => m
  end.

Lemma play_results {A} (E : env) (I : State → Prop) (L : Prop) Q oracle pick n (m : proc A) a st' :
  (∀ r st, I st → E r st (oracle r st).1 (oracle r st).2) → safe E I L m Q →
  play oracle pick n m = Ret a st' → results E m a st'.
Proof.
  intros HE. revert m. induction n as [|n IH]; intros m Hs Hp.
  - destruct m; simplify_eq/=. constructor.
  - destruct m as [b st|r st k|st]; simplify_eq/=; [constructor|]. destruct Hs as [HI Hk].
    match type of Hp with context [match ?g with _ => _ end] => destruct g as [ans s] eqn:Hg end.
    assert (env_of E r st ans s) as He; [|by eapply results_later, IH; [|apply Hk|]].
    clear Hp Hk k. revert ans s Hg. induction r as [r|r1 IH1 r2 IH2]; intros ans s Hg.
    + specialize (HE r st HI). by rewrite Hg in HE.
    + destruct (pick r1).
      * match type of Hg with context [match ?g with _ => _ end] => destruct g as [ans' s'] eqn:Hg' end.
        simplify_eq. by apply IH1.
      * match type of Hg with context [match ?g with _ => _ end] => destruct g as [ans' s'] eqn:Hg' end.
        simplify_eq. by apply IH2.
Qed.
End async.

Notation "x ←! y ; z" := (attempt y (λ x : _, z))
  (at level 20, y at level 100, z at level 200, only parsing) : stdpp_scope.

(** Steps without an await. *)
Ltac safe_pure :=
  repeat match goal with
  | |- safe _ _ _ ((_ ≫= _) _) _ => apply safe_bind
  | |- safe _ _ _ (attempt _ _ _) _ => apply safe_attempt
  | |- safe _ _ _ (reads _ _) _ => cbn beta iota delta [safe reads]
  | |- safe _ _ _ (writes _ _) _ => cbn beta iota delta [safe writes]
  | |- safe _ _ _ (mret _ _) _ => cbn beta iota delta [safe mret async_ret]
  end.
