(* ===== verification/GroupIo.v ===== *)
(** * The coordinator task of a consumer: state and awaits

    The state of [crates/client-consumer/src/coordinator.rs] in two parts: what
    the task owns ([Member], with the settings in [Config]) and what it shares
    with the [Consumer] ([Shared]: the fields behind [Arc<Mutex>], atomics and
    watch channels).

    A computation of the task is a tree: it ends, or it awaits a [request] with
    the state that everything else sees meanwhile, and goes on with the answer
    and the shared state as it is then. So a theorem about a computation holds
    for every answer of a broker, every order in which requests complete, and
    whatever the application does at an await. Taking a lock is an await too
    ([Yield]): another thread may run there. [Stuck] is a loop that has used up
    its fuel, that is, one that still goes on. *)

From S2P Require Import Prelude Bytes Errors ConsumerErrors Assignor GroupAssign FetchBuffer.
From S2P Require Import OffsetWire Commit Subscription ConsumerProtocol.

(** Topic ids and message codecs of [krabka_protocol], and the orders in which
    the hash maps and sets of the task are visited. *)
Class GroupApi : Type := {
  Uuid : Type;
  Uuid_eq_dec :: EqDecision Uuid;
  Uuid_countable :: Countable Uuid;
  Uuid_zero : Uuid;
  group_codec :: ProtocolCodec;
  visit_set : gset topic_partition → list topic_partition;
  visit_set_perm X : visit_set X ≡ₚ elements X;
  visit_topics {A} : gmap string A → list (string * A);
  visit_topics_perm {A} (m : gmap string A) : visit_topics m ≡ₚ map_to_list m;
  visit_partitions {A} : gmap topic_partition A → list (topic_partition * A);
  visit_partitions_perm {A} (m : gmap topic_partition A) : visit_partitions m ≡ₚ map_to_list m;
}.

Inductive GroupProtocol : Type := Classic | ConsumerGroup.

#[global] Instance GroupProtocol_eq_dec : EqDecision GroupProtocol.
Proof. solve_decision. Defined.

Inductive GroupMembershipOperation : Type := LeaveGroup | RemainInGroup | DefaultOperation.

#[global] Instance GroupMembershipOperation_eq_dec : EqDecision GroupMembershipOperation.
Proof. solve_decision. Defined.

Inductive ListenerCallKind : Type := Revoked | Assigned | Lost.

#[global] Instance ListenerCallKind_eq_dec : EqDecision ListenerCallKind.
Proof. solve_decision. Defined.

Record CoordinatorRetryPolicy : Type := mkRetry {
  rt_timeout : Z;
  rt_initial_backoff : Z;
  rt_max_backoff : Z;
}.

(** The settings of the task. An extent has two readings: nanoseconds for a
    wait, and the [int32] milliseconds of a request. *)
Record Config : Type := mkConfig {
  cf_group_id : string;
  cf_group_instance_id : option string;
  cf_assignors : list Assignor;
  cf_rebalance_protocol : RebalanceProtocol;
  cf_group_protocol : GroupProtocol;
  cf_server_assignor : option string;
  cf_session_timeout_ms : Z;
  cf_max_poll_interval : Z;
  cf_max_poll_interval_ms : Z;
  cf_heartbeat_interval : Z;
  cf_subscription_metadata_refresh_interval : Z;
  cf_leave_group_timeout : Z;
  cf_auto_offset_reset : AutoOffsetReset;
  cf_client_rack : option string;
  cf_retry_policy : CoordinatorRetryPolicy;
  cf_has_listener : bool;
}.

Record CommitIdentity : Type := mkIdentity {
  ci_generation : Z;
  ci_member_id : string;
  ci_ownership_ids : gmap topic_partition Z;
  ci_rejoin_on_poll : bool;
}.

(** What the task shares with the [Consumer]. [sh_subscription_changes] counts
    the changes of the subscription's watch channel; [sh_evicted] are the
    connections that the task evicted from the pool of its client; [sh_now] is
    the clock. *)
Record Shared {GA : GroupApi} : Type := mkShared {
  sh_coordinator_id : Z;
  sh_identity : CommitIdentity;
  sh_published_member_id : string;
  sh_current_generation : Z;
  sh_subscription : Subscription;
  sh_subscription_changes : Z;
  sh_assigned : list topic_partition;
  sh_next_offsets : gmap topic_partition Z;
  sh_end_offsets : gmap topic_partition Z;
  sh_positions : gmap topic_partition PartitionPosition;
  sh_topic_ids : gmap string Uuid;
  sh_poll_error : option consumer_error;
  sh_auto_commit : option AutoCommit;
  sh_polls : Z;
  sh_rebalance_pending : bool;
  sh_callback_pending : gset topic_partition;
  sh_close_operation : GroupMembershipOperation;
  sh_evicted : list Z;
  sh_now : Z;
}.

(** The fields of the last [ConsumerGroupHeartbeat]. *)
Record SentFields {GA : GroupApi} : Type := mkSentFields {
  sf_rebalance_timeout_ms : option Z;
  sf_subscribed_topic_names : option (list string);
  sf_regex : option string;
  sf_server_assignor : option string;
  sf_topic_partitions : option (gmap Uuid (list Z));
}.

Arguments mkShared {GA}.
Arguments mkSentFields {GA}.

Definition SentFields_default {GA : GroupApi} : SentFields := mkSentFields None None None None None.

(** What only the task changes. [me_metadata_topics] are the topics of its
    client's metadata requests; [me_polls_seen] and [me_subscription_seen] the
    changes of the watch channels that it has seen. *)
Record Member {GA : GroupApi} : Type := mkMember {
  me_member_id : string;
  me_generation_id : Z;
  me_joined_topics : list string;
  me_seen_unsubscribes : Z;
  me_next_ownership_id : Z;
  me_join_prepared : bool;
  me_rejoin_reason : string;
  me_lost_partitions : list topic_partition;
  me_poll_deadline : Z;
  me_poll_timeout_in_callback : bool;
  me_metadata_topics : list string;
  me_polls_seen : Z;
  me_subscription_seen : Z;
  me_member_epoch : Z;
  me_sent_heartbeat_fields : SentFields;
}.

Record St {GA : GroupApi} : Type := mkSt { mem : Member; sh : Shared }.

Arguments mkMember {GA}.
Arguments mkSt {GA}.

(** ** Field updates *)

Section updates.
Context {GA : GroupApi}.

Definition set_coordinator_id (v : Z) (s : Shared) : Shared :=
  mkShared v (sh_identity s) (sh_published_member_id s) (sh_current_generation s)
    (sh_subscription s) (sh_subscription_changes s) (sh_assigned s) (sh_next_offsets s)
    (sh_end_offsets s) (sh_positions s) (sh_topic_ids s) (sh_poll_error s) (sh_auto_commit s)
    (sh_polls s) (sh_rebalance_pending s) (sh_callback_pending s) (sh_close_operation s)
    (sh_evicted s) (sh_now s).

Definition set_identity (v : CommitIdentity) (s : Shared) : Shared :=
  mkShared (sh_coordinator_id s) v (sh_published_member_id s) (sh_current_generation s)
    (sh_subscription s) (sh_subscription_changes s) (sh_assigned s) (sh_next_offsets s)
    (sh_end_offsets s) (sh_positions s) (sh_topic_ids s) (sh_poll_error s) (sh_auto_commit s)
    (sh_polls s) (sh_rebalance_pending s) (sh_callback_pending s) (sh_close_operation s)
    (sh_evicted s) (sh_now s).

Definition set_published_member_id (v : string) (s : Shared) : Shared :=
  mkShared (sh_coordinator_id s) (sh_identity s) v (sh_current_generation s) (sh_subscription s)
    (sh_subscription_changes s) (sh_assigned s) (sh_next_offsets s) (sh_end_offsets s)
    (sh_positions s) (sh_topic_ids s) (sh_poll_error s) (sh_auto_commit s) (sh_polls s)
    (sh_rebalance_pending s) (sh_callback_pending s) (sh_close_operation s) (sh_evicted s)
    (sh_now s).

Definition set_current_generation (v : Z) (s : Shared) : Shared :=
  mkShared (sh_coordinator_id s) (sh_identity s) (sh_published_member_id s) v (sh_subscription s)
    (sh_subscription_changes s) (sh_assigned s) (sh_next_offsets s) (sh_end_offsets s)
    (sh_positions s) (sh_topic_ids s) (sh_poll_error s) (sh_auto_commit s) (sh_polls s)
    (sh_rebalance_pending s) (sh_callback_pending s) (sh_close_operation s) (sh_evicted s)
    (sh_now s).

Definition set_subscription (v : Subscription) (s : Shared) : Shared :=
  mkShared (sh_coordinator_id s) (sh_identity s) (sh_published_member_id s)
    (sh_current_generation s) v (sh_subscription_changes s) (sh_assigned s) (sh_next_offsets s)
    (sh_end_offsets s) (sh_positions s) (sh_topic_ids s) (sh_poll_error s) (sh_auto_commit s)
    (sh_polls s) (sh_rebalance_pending s) (sh_callback_pending s) (sh_close_operation s)
    (sh_evicted s) (sh_now s).

Definition set_subscription_changes (v : Z) (s : Shared) : Shared :=
  mkShared (sh_coordinator_id s) (sh_identity s) (sh_published_member_id s)
    (sh_current_generation s) (sh_subscription s) v (sh_assigned s) (sh_next_offsets s)
    (sh_end_offsets s) (sh_positions s) (sh_topic_ids s) (sh_poll_error s) (sh_auto_commit s)
    (sh_polls s) (sh_rebalance_pending s) (sh_callback_pending s) (sh_close_operation s)
    (sh_evicted s) (sh_now s).

Definition set_assigned (v : list topic_partition) (s : Shared) : Shared :=
  mkShared (sh_coordinator_id s) (sh_identity s) (sh_published_member_id s)
    (sh_current_generation s) (sh_subscription s) (sh_subscription_changes s) v (sh_next_offsets s)
    (sh_end_offsets s) (sh_positions s) (sh_topic_ids s) (sh_poll_error s) (sh_auto_commit s)
    (sh_polls s) (sh_rebalance_pending s) (sh_callback_pending s) (sh_close_operation s)
    (sh_evicted s) (sh_now s).

Definition set_next_offsets (v : gmap topic_partition Z) (s : Shared) : Shared :=
  mkShared (sh_coordinator_id s) (sh_identity s) (sh_published_member_id s)
    (sh_current_generation s) (sh_subscription s) (sh_subscription_changes s) (sh_assigned s) v
    (sh_end_offsets s) (sh_positions s) (sh_topic_ids s) (sh_poll_error s) (sh_auto_commit s)
    (sh_polls s) (sh_rebalance_pending s) (sh_callback_pending s) (sh_close_operation s)
    (sh_evicted s) (sh_now s).

Definition set_end_offsets (v : gmap topic_partition Z) (s : Shared) : Shared :=
  mkShared (sh_coordinator_id s) (sh_identity s) (sh_published_member_id s)
    (sh_current_generation s) (sh_subscription s) (sh_subscription_changes s) (sh_assigned s)
    (sh_next_offsets s) v (sh_positions s) (sh_topic_ids s) (sh_poll_error s) (sh_auto_commit s)
    (sh_polls s) (sh_rebalance_pending s) (sh_callback_pending s) (sh_close_operation s)
    (sh_evicted s) (sh_now s).

Definition set_positions (v : gmap topic_partition PartitionPosition) (s : Shared) : Shared :=
  mkShared (sh_coordinator_id s) (sh_identity s) (sh_published_member_id s)
    (sh_current_generation s) (sh_subscription s) (sh_subscription_changes s) (sh_assigned s)
    (sh_next_offsets s) (sh_end_offsets s) v (sh_topic_ids s) (sh_poll_error s) (sh_auto_commit s)
    (sh_polls s) (sh_rebalance_pending s) (sh_callback_pending s) (sh_close_operation s)
    (sh_evicted s) (sh_now s).

Definition set_topic_ids (v : gmap string Uuid) (s : Shared) : Shared :=
  mkShared (sh_coordinator_id s) (sh_identity s) (sh_published_member_id s)
    (sh_current_generation s) (sh_subscription s) (sh_subscription_changes s) (sh_assigned s)
    (sh_next_offsets s) (sh_end_offsets s) (sh_positions s) v (sh_poll_error s) (sh_auto_commit s)
    (sh_polls s) (sh_rebalance_pending s) (sh_callback_pending s) (sh_close_operation s)
    (sh_evicted s) (sh_now s).

Definition set_poll_error (v : option consumer_error) (s : Shared) : Shared :=
  mkShared (sh_coordinator_id s) (sh_identity s) (sh_published_member_id s)
    (sh_current_generation s) (sh_subscription s) (sh_subscription_changes s) (sh_assigned s)
    (sh_next_offsets s) (sh_end_offsets s) (sh_positions s) (sh_topic_ids s) v (sh_auto_commit s)
    (sh_polls s) (sh_rebalance_pending s) (sh_callback_pending s) (sh_close_operation s)
    (sh_evicted s) (sh_now s).

Definition set_auto_commit (v : option AutoCommit) (s : Shared) : Shared :=
  mkShared (sh_coordinator_id s) (sh_identity s) (sh_published_member_id s)
    (sh_current_generation s) (sh_subscription s) (sh_subscription_changes s) (sh_assigned s)
    (sh_next_offsets s) (sh_end_offsets s) (sh_positions s) (sh_topic_ids s) (sh_poll_error s) v
    (sh_polls s) (sh_rebalance_pending s) (sh_callback_pending s) (sh_close_operation s)
    (sh_evicted s) (sh_now s).

Definition set_polls (v : Z) (s : Shared) : Shared :=
  mkShared (sh_coordinator_id s) (sh_identity s) (sh_published_member_id s) (sh_current_generation s)
    (sh_subscription s) (sh_subscription_changes s) (sh_assigned s) (sh_next_offsets s) (sh_end_offsets s)
    (sh_positions s) (sh_topic_ids s) (sh_poll_error s) (sh_auto_commit s) v
    (sh_rebalance_pending s) (sh_callback_pending s) (sh_close_operation s) (sh_evicted s) (sh_now s).

Definition set_rebalance_pending (v : bool) (s : Shared) : Shared :=
  mkShared (sh_coordinator_id s) (sh_identity s) (sh_published_member_id s)
    (sh_current_generation s) (sh_subscription s) (sh_subscription_changes s) (sh_assigned s)
    (sh_next_offsets s) (sh_end_offsets s) (sh_positions s) (sh_topic_ids s) (sh_poll_error s)
    (sh_auto_commit s) (sh_polls s) v (sh_callback_pending s) (sh_close_operation s) (sh_evicted s)
    (sh_now s).

Definition set_callback_pending (v : gset topic_partition) (s : Shared) : Shared :=
  mkShared (sh_coordinator_id s) (sh_identity s) (sh_published_member_id s)
    (sh_current_generation s) (sh_subscription s) (sh_subscription_changes s) (sh_assigned s)
    (sh_next_offsets s) (sh_end_offsets s) (sh_positions s) (sh_topic_ids s) (sh_poll_error s)
    (sh_auto_commit s) (sh_polls s) (sh_rebalance_pending s) v (sh_close_operation s) (sh_evicted s)
    (sh_now s).

Definition set_evicted (v : list Z) (s : Shared) : Shared :=
  mkShared (sh_coordinator_id s) (sh_identity s) (sh_published_member_id s)
    (sh_current_generation s) (sh_subscription s) (sh_subscription_changes s) (sh_assigned s)
    (sh_next_offsets s) (sh_end_offsets s) (sh_positions s) (sh_topic_ids s) (sh_poll_error s)
    (sh_auto_commit s) (sh_polls s) (sh_rebalance_pending s) (sh_callback_pending s)
    (sh_close_operation s) v (sh_now s).

Definition set_member_id (v : string) (m : Member) : Member :=
  mkMember v (me_generation_id m) (me_joined_topics m) (me_seen_unsubscribes m)
    (me_next_ownership_id m) (me_join_prepared m) (me_rejoin_reason m) (me_lost_partitions m)
    (me_poll_deadline m) (me_poll_timeout_in_callback m) (me_metadata_topics m) (me_polls_seen m)
    (me_subscription_seen m) (me_member_epoch m) (me_sent_heartbeat_fields m).

Definition set_generation_id (v : Z) (m : Member) : Member :=
  mkMember (me_member_id m) v (me_joined_topics m) (me_seen_unsubscribes m) (me_next_ownership_id m)
    (me_join_prepared m) (me_rejoin_reason m) (me_lost_partitions m) (me_poll_deadline m)
    (me_poll_timeout_in_callback m) (me_metadata_topics m) (me_polls_seen m)
    (me_subscription_seen m) (me_member_epoch m) (me_sent_heartbeat_fields m).

Definition set_joined_topics (v : list string) (m : Member) : Member :=
  mkMember (me_member_id m) (me_generation_id m) v (me_seen_unsubscribes m) (me_next_ownership_id m)
    (me_join_prepared m) (me_rejoin_reason m) (me_lost_partitions m) (me_poll_deadline m)
    (me_poll_timeout_in_callback m) (me_metadata_topics m) (me_polls_seen m)
    (me_subscription_seen m) (me_member_epoch m) (me_sent_heartbeat_fields m).

Definition set_seen_unsubscribes (v : Z) (m : Member) : Member :=
  mkMember (me_member_id m) (me_generation_id m) (me_joined_topics m) v (me_next_ownership_id m)
    (me_join_prepared m) (me_rejoin_reason m) (me_lost_partitions m) (me_poll_deadline m)
    (me_poll_timeout_in_callback m) (me_metadata_topics m) (me_polls_seen m)
    (me_subscription_seen m) (me_member_epoch m) (me_sent_heartbeat_fields m).

Definition set_next_ownership_id (v : Z) (m : Member) : Member :=
  mkMember (me_member_id m) (me_generation_id m) (me_joined_topics m) (me_seen_unsubscribes m) v
    (me_join_prepared m) (me_rejoin_reason m) (me_lost_partitions m) (me_poll_deadline m)
    (me_poll_timeout_in_callback m) (me_metadata_topics m) (me_polls_seen m)
    (me_subscription_seen m) (me_member_epoch m) (me_sent_heartbeat_fields m).

Definition set_join_prepared (v : bool) (m : Member) : Member :=
  mkMember (me_member_id m) (me_generation_id m) (me_joined_topics m) (me_seen_unsubscribes m)
    (me_next_ownership_id m) v (me_rejoin_reason m) (me_lost_partitions m) (me_poll_deadline m)
    (me_poll_timeout_in_callback m) (me_metadata_topics m) (me_polls_seen m)
    (me_subscription_seen m) (me_member_epoch m) (me_sent_heartbeat_fields m).

Definition set_rejoin_reason (v : string) (m : Member) : Member :=
  mkMember (me_member_id m) (me_generation_id m) (me_joined_topics m) (me_seen_unsubscribes m)
    (me_next_ownership_id m) (me_join_prepared m) v (me_lost_partitions m) (me_poll_deadline m)
    (me_poll_timeout_in_callback m) (me_metadata_topics m) (me_polls_seen m)
    (me_subscription_seen m) (me_member_epoch m) (me_sent_heartbeat_fields m).

Definition set_lost_partitions (v : list topic_partition) (m : Member) : Member :=
  mkMember (me_member_id m) (me_generation_id m) (me_joined_topics m) (me_seen_unsubscribes m)
    (me_next_ownership_id m) (me_join_prepared m) (me_rejoin_reason m) v (me_poll_deadline m)
    (me_poll_timeout_in_callback m) (me_metadata_topics m) (me_polls_seen m)
    (me_subscription_seen m) (me_member_epoch m) (me_sent_heartbeat_fields m).

Definition set_poll_deadline (v : Z) (m : Member) : Member :=
  mkMember (me_member_id m) (me_generation_id m) (me_joined_topics m) (me_seen_unsubscribes m)
    (me_next_ownership_id m) (me_join_prepared m) (me_rejoin_reason m) (me_lost_partitions m) v
    (me_poll_timeout_in_callback m) (me_metadata_topics m) (me_polls_seen m)
    (me_subscription_seen m) (me_member_epoch m) (me_sent_heartbeat_fields m).

Definition set_poll_timeout_in_callback (v : bool) (m : Member) : Member :=
  mkMember (me_member_id m) (me_generation_id m) (me_joined_topics m) (me_seen_unsubscribes m)
    (me_next_ownership_id m) (me_join_prepared m) (me_rejoin_reason m) (me_lost_partitions m)
    (me_poll_deadline m) v (me_metadata_topics m) (me_polls_seen m) (me_subscription_seen m)
    (me_member_epoch m) (me_sent_heartbeat_fields m).

Definition set_metadata_topics (v : list string) (m : Member) : Member :=
  mkMember (me_member_id m) (me_generation_id m) (me_joined_topics m) (me_seen_unsubscribes m)
    (me_next_ownership_id m) (me_join_prepared m) (me_rejoin_reason m) (me_lost_partitions m)
    (me_poll_deadline m) (me_poll_timeout_in_callback m) v (me_polls_seen m)
    (me_subscription_seen m) (me_member_epoch m) (me_sent_heartbeat_fields m).

Definition set_polls_seen (v : Z) (m : Member) : Member :=
  mkMember (me_member_id m) (me_generation_id m) (me_joined_topics m) (me_seen_unsubscribes m)
    (me_next_ownership_id m) (me_join_prepared m) (me_rejoin_reason m) (me_lost_partitions m)
    (me_poll_deadline m) (me_poll_timeout_in_callback m) (me_metadata_topics m) v
    (me_subscription_seen m) (me_member_epoch m) (me_sent_heartbeat_fields m).

Definition set_subscription_seen (v : Z) (m : Member) : Member :=
  mkMember (me_member_id m) (me_generation_id m) (me_joined_topics m) (me_seen_unsubscribes m)
    (me_next_ownership_id m) (me_join_prepared m) (me_rejoin_reason m) (me_lost_partitions m)
    (me_poll_deadline m) (me_poll_timeout_in_callback m) (me_metadata_topics m) (me_polls_seen m) v
    (me_member_epoch m) (me_sent_heartbeat_fields m).

Definition set_member_epoch (v : Z) (m : Member) : Member :=
  mkMember (me_member_id m) (me_generation_id m) (me_joined_topics m) (me_seen_unsubscribes m)
    (me_next_ownership_id m) (me_join_prepared m) (me_rejoin_reason m) (me_lost_partitions m)
    (me_poll_deadline m) (me_poll_timeout_in_callback m) (me_metadata_topics m) (me_polls_seen m)
    (me_subscription_seen m) v (me_sent_heartbeat_fields m).

Definition set_sent_heartbeat_fields (v : SentFields) (m : Member) : Member :=
  mkMember (me_member_id m) (me_generation_id m) (me_joined_topics m) (me_seen_unsubscribes m)
    (me_next_ownership_id m) (me_join_prepared m) (me_rejoin_reason m) (me_lost_partitions m)
    (me_poll_deadline m) (me_poll_timeout_in_callback m) (me_metadata_topics m) (me_polls_seen m)
    (me_subscription_seen m) (me_member_epoch m) v.

End updates.

(** ** Messages *)

Record FindCoordinatorResponse : Type := mkFound {
  fc_error_code : Z;
  fc_node_id : Z;
  fc_coordinators : list (Z * Z);
}.

Record FindCoordinatorRequest : Type := mkFind {
  fc_key : string;
  fc_coordinator_keys : list string;
}.

Record JoinGroupRequest : Type := mkJoin {
  jg_group_id : string;
  jg_protocol_type : string;
  jg_member_id : string;
  jg_group_instance_id : option string;
  jg_session_timeout_ms : Z;
  jg_rebalance_timeout_ms : Z;
  jg_protocols : list (string * bytes);
  jg_reason : option string;
}.

Record JoinGroupMember : Type := mkJoinMember {
  jm_member_id : string;
  jm_group_instance_id : option string;
  jm_metadata : bytes;
}.

Record JoinGroupResponse : Type := mkJoined {
  jr_error_code : Z;
  jr_generation_id : Z;
  jr_protocol_name : option string;
  jr_leader : string;
  jr_member_id : string;
  jr_members : list JoinGroupMember;
}.

Record SyncGroupRequest : Type := mkSync {
  sg_group_id : string;
  sg_generation_id : Z;
  sg_member_id : string;
  sg_group_instance_id : option string;
  sg_protocol_type : option string;
  sg_protocol_name : option string;
  sg_assignments : list (string * bytes);
}.

Record SyncGroupResponse : Type := mkSynced {
  sr_error_code : Z;
  sr_assignment : bytes;
}.

Record HeartbeatRequest : Type := mkHeartbeat {
  hb_group_id : string;
  hb_generation_id : Z;
  hb_member_id : string;
  hb_group_instance_id : option string;
}.

Record LeaveGroupRequest : Type := mkLeave {
  lg_group_id : string;
  lg_member_id : string;
  lg_members : list (string * option string);
}.

Record ConsumerGroupHeartbeatRequest {GA : GroupApi} : Type := mkGroupHeartbeat {
  gh_group_id : string;
  gh_member_id : string;
  gh_member_epoch : Z;
  gh_instance_id : option string;
  gh_rack_id : option string;
  gh_rebalance_timeout_ms : Z;
  gh_subscribed_topic_names : option (list string);
  gh_subscribed_topic_regex : option string;
  gh_server_assignor : option string;
  gh_topic_partitions : option (gmap Uuid (list Z));
}.

Record ConsumerGroupHeartbeatResponse {GA : GroupApi} : Type := mkGroupHeartbeatAnswer {
  ga_error_code : Z;
  ga_member_id : option string;
  ga_member_epoch : Z;
  ga_heartbeat_interval_ms : Z;
  ga_assignment : option (list (Uuid * list Z));
}.

Arguments mkGroupHeartbeat {GA}.
Arguments mkGroupHeartbeatAnswer {GA}.

(** The topics that a metadata request names: those of the client, all topics
    of the cluster, or topic ids. *)
Inductive MetadataScope {GA : GroupApi} : Type :=
| TopicNames (topics : list string)
| AllTopics
| TopicIds (ids : gset Uuid).

(** ** Awaits *)

(** How the wait for a listener call goes on. *)
Inductive listener_event : Type := CallDone | CallDropped | DeadlinePassed.

(** How the wait for a poll after an error goes on. *)
Inductive poll_event : Type := PollsChanged | PollsClosed | ShutdownFired.

(** What wakes the task of a classic member ([select!] of [run]). *)
Inductive task_event : Type :=
| WakeShutdown
| WakeTick
| WakePoll
| WakePollsClosed
| WakeEnforced (reason : string) (polls : Z)
| WakeSubscription
| WakePollTimeout.

(** What wakes the task of a member of the consumer group protocol. *)
Inductive group_event : Type :=
| GroupShutdown
| GroupHeartbeat
| GroupPoll
| GroupPollsClosed
| GroupSubscription
| GroupSubscriptionClosed
| GroupPollTimeout.

Inductive request {GA : GroupApi} : Type :=
| Yield
| Sleep (d : Z)
| SleepUntil (deadline : Z)
| Tick (interval : Z)
| Shutdown
| FetchMetadata (scope : MetadataScope)
| SendFindCoordinator (r : FindCoordinatorRequest)
| ReconnectBootstrap
| SendJoin (node : Z) (r : JoinGroupRequest)
| SendSync (node : Z) (r : SyncGroupRequest)
| SendHeartbeat (node : Z) (r : HeartbeatRequest)
| SpawnHeartbeat (node : Z) (r : HeartbeatRequest)
| SendLeave (node : Z) (r : LeaveGroupRequest) (timeout : Z)
| SendOffsetFetch (node : Z) (r : OffsetFetchRequest)
| SendOffsetCommit (node : Z) (r : OffsetCommitRequest) (deadline : Z)
| SendGroupHeartbeat (node : Z) (r : ConsumerGroupHeartbeatRequest) (needs_regex : bool)
| SendGroupLeave (node : Z) (r : ConsumerGroupHeartbeatRequest) (needs_regex : bool) (timeout : Z)
| CommitTurn (deadline : Z)
| CallListener (kind : ListenerCallKind) (partitions : list topic_partition)
| ListenerWait (deadline : Z)
| PollWait
| NextEvent (polls_open : bool) (poll_timeout : option Z)
| NextGroupEvent (interval : option Z) (polls_open : bool) (poll_timeout : option Z)
| Race (r1 r2 : request).

Section io.
Context {GA : GroupApi}.

(** The answer to a request. [SendOffsetCommit] has a timeout, [CommitTurn]
    waits for a lock up to a deadline, [CallListener] tells whether the
    consumer is still there, and a spawned heartbeat may panic. *)
Fixpoint answer (r : request) : Type :=
  match r with
  | Yield | Sleep _ | SleepUntil _ | Tick _ | Shutdown | ReconnectBootstrap
  | SendLeave _ _ _ | SendGroupLeave _ _ _ _ => unit
  | FetchMetadata _ => result ClientError.client_error (list (MetadataTopic Uuid))
  | SendFindCoordinator _ => result ClientError.client_error FindCoordinatorResponse
  | SendJoin _ _ => result ClientError.client_error JoinGroupResponse
  | SendSync _ _ => result ClientError.client_error SyncGroupResponse
  | SendHeartbeat _ _ => result ClientError.client_error Z
  | SpawnHeartbeat _ _ => option (result ClientError.client_error Z)
  | SendOffsetFetch _ _ => result ClientError.client_error OffsetFetchResponse
  | SendOffsetCommit _ _ _ => option (result ClientError.client_error OffsetCommitResponse)
  | SendGroupHeartbeat _ _ _ => result ClientError.client_error ConsumerGroupHeartbeatResponse
  | CommitTurn _ | CallListener _ _ => bool
  | ListenerWait _ => listener_event
  | PollWait => poll_event
  | NextEvent _ _ => task_event
  | NextGroupEvent _ _ _ => group_event
  | Race r1 r2 => answer r1 + answer r2
  end.

Inductive io (A : Type) : Type :=
| Done (a : A) (st : St)
| Await (r : request) (st : St) (k : answer r → Shared → io A)
| Stuck (st : St).
#[global] Arguments Done {A}.
#[global] Arguments Await {A}.
#[global] Arguments Stuck {A}.

Definition task (A : Type) : Type := St → io A.

Fixpoint io_bind {A B} (f : A → task B) (m : io A) : io B :=
  match m with
  | Done a st => f a st
  | Await r st k => Await r st (λ ans s, io_bind f (k ans s))
  | Stuck st => Stuck st
  end.

#[global] Instance task_ret : MRet task := λ A a st, Done a st.
#[global] Instance task_bind : MBind task := λ A B f m st, io_bind f (m st).

#[global] Instance task_fmap : FMap task := λ A B f m st, io_bind (λ a st, Done (f a) st) (m st).

Definition get {A} (f : St → A) : task A := λ st, Done (f st) st.
Definition put_shared (f : Shared → Shared) : task unit := λ st, Done () (mkSt (mem st) (f (sh st))).
Definition put_member (f : Member → Member) : task unit := λ st, Done () (mkSt (f (mem st)) (sh st)).
Definition await (r : request) : task (answer r) := λ st, Await r st (λ ans s, Done ans (mkSt (mem st) s)).
Definition stuck {A} : task A := λ st, Stuck st.

(** The [?] operator. *)
Definition try_bind {E A B} (m : task (result E A)) (f : A → task (result E B)) : task (result E B) :=
  r ← m; match r with Ok a => f a | Err e => mret (Err e) end.

(** [select!] of a request and a computation: the computation is dropped at its
    await when the request is answered first. *)
Fixpoint select_io {B} (r : request) (m : io B) : io (answer r + B) :=
  match m with
  | Done b st => Done (inr b) st
  | Stuck st => Stuck st
  | Await r2 st k =>
    Await (Race r r2) st (λ ans s,
      match ans with
      | inl a => Done (inl a) (mkSt (mem st) s)
      | inr b => select_io r (k b s)
      end)
  end.

Definition select {B} (r : request) (m : task B) : task (answer r + B) := λ st, select_io r (m st).

(** The state at the first await or the end. *)
Definition top_state {A} (m : io A) : St :=
  match m with Done _ st | Await _ st _ | Stuck st => st end.

(** [select!] of two computations that do not change the member: the one that
    ends first wins, and the other is dropped at its await. *)
Fixpoint race_io {A B} (m1 : io A) {struct m1} : io B → io (A + B) :=
  fix race2 (m2 : io B) {struct m2} : io (A + B) :=
    match m1 with
    | Done a st => Done (inl a) st
    | Stuck st => Stuck st
    | Await r1 st1 k1 =>
      match m2 with
      | Done b st => Done (inr b) st
      | Stuck st => Stuck st
      | Await r2 st2 k2 =>
        Await (Race r1 r2) st2 (λ ans s,
          match ans with
          | inl a1 =>
            race_io (k1 a1 s) (Await r2 (top_state (k1 a1 s)) k2)
          | inr a2 => race2 (k2 a2 s)
          end)
      end
    end.

(** The second computation starts where the first one waits. *)
Definition race {A B} (m1 : task A) (m2 : task B) : task (A + B) :=
  λ st, race_io (m1 st) (m2 (top_state (m1 st))).

(** [join!] of a computation with one that it cancels at its end: the second
    gives a result only when it ends before the first. *)
Fixpoint join_io {A B} (m1 : io A) {struct m1} : io B → io (A * option B) :=
  fix join2 (m2 : io B) {struct m2} : io (A * option B) :=
    match m1 with
    | Done a st => Done (a, None) st
    | Stuck st => Stuck st
    | Await r1 st1 k1 =>
      match m2 with
      | Done b st => io_bind (λ a, mret (a, Some b)) (Await r1 st k1)
      | Stuck st => Stuck st
      | Await r2 st2 k2 =>
        Await (Race r1 r2) st2 (λ ans s,
          match ans with
          | inl a1 => join_io (k1 a1 s) (Await r2 (top_state (k1 a1 s)) k2)
          | inr a2 => join2 (k2 a2 s)
          end)
      end
    end.

Definition join_until {A B} (m1 : task A) (m2 : task B) : task (A * option B) :=
  λ st, join_io (m1 st) (m2 (top_state (m1 st))).

End io.

Infix "≫?" := try_bind (at level 60, right associativity) : stdpp_scope.
Notation "x ←? y ; z" := (try_bind y (λ x : _, z))
  (at level 20, y at level 100, z at level 200, only parsing) : stdpp_scope.
