(* ===== verification/PollFetch.v ===== *)
(** * Fetch requests of a consumer

    The parts of [crates/client-consumer/src/poll.rs], [validate.rs] and
    [seek.rs] that work on the state of the consumer without waiting: which
    partitions a [poll] fetches and from which broker, the requests and their
    completion, the resets and truncations of positions, and the validation of
    a position against the leader's epochs. *)

From S2P Require Import Prelude Bytes Errors ConsumerErrors FetchSession FetchBuffer FetchDecode.
From S2P Require Import OffsetWire Commit Subscription ConsumerProtocol GroupIo.

(** ** Constants and decisions *)

Definition BOOTSTRAP_LEADER : Z := -1.
Definition UNKNOWN_FETCH_OFFSET : Z := -1.
Definition UNKNOWN_LEADER_ID : Z := -1.
Definition OFFSET_OUT_OF_RANGE : Z := 1.
Definition UNKNOWN_OFFSET : Z := -1.
Definition LATEST_TIMESTAMP : Z := -1.
Definition EARLIEST_TIMESTAMP : Z := -2.

Definition fetch_leader_id (leader_id : Z) (knows_leader : bool) : Z :=
  if (0 <=? leader_id) && knows_leader then leader_id else BOOTSTRAP_LEADER.

Definition should_use_bootstrap_leader (leader : Z) : bool := leader =? BOOTSTRAP_LEADER.

Definition fetch_offset_or_unknown (offsets : gmap topic_partition Z) (key : topic_partition) : Z :=
  default UNKNOWN_FETCH_OFFSET (offsets !! key).

Inductive FetchPartitionAction : Type :=
| ActRecords | ActResetOffset | ActReroute | ActRevalidateEpoch | ActRefreshMetadata | ActFail (code : Z).

#[global] Instance FetchPartitionAction_eq_dec : EqDecision FetchPartitionAction.
Proof. solve_decision. Defined.

Definition classify_fetch_partition_error (error_code : Z) : FetchPartitionAction :=
  if error_code =? 0 then ActRecords
  else if error_code =? 1 then ActResetOffset
  else if error_code =? 6 then ActReroute
  else if bool_decide (error_code ∈ [74; 75]) then ActRevalidateEpoch
  else if bool_decide (error_code ∈ [3; 9; 56; 78; 100; 103]) then ActRefreshMetadata
  else ActFail error_code.

(** The [ListOffsets] timestamp of a reset, with the duration in nanoseconds. *)
Definition reset_timestamp (policy : AutoOffsetReset) (now_ms : Z) : Z :=
  match policy with
  | ByDuration d => i64_saturating_sub now_ms (default i64_max (i64_try_from (d / 1000000)))
  | Earliest | Latest | NoReset => LATEST_TIMESTAMP
  end.

(** ** Validation of positions *)

(** [LeaderEpoch::is_known]: an epoch below 0 stands for none. *)
Definition is_known (epoch : Z) : bool := 0 <=? epoch.

Definition should_await_validation (leader_epoch offset_epoch : Z) : bool :=
  (offset_epoch <? leader_epoch) && is_known offset_epoch.

Definition update_leader_epoch (pos : PartitionPosition) (epoch : Z) : PartitionPosition :=
  if leader_epoch pos <? epoch then
    mkPosition (offset_epoch pos) (leader_id pos) epoch
      (should_await_validation epoch (offset_epoch pos) || awaiting_validation pos)
  else pos.

Definition clear_unvalidatable_position (pos : PartitionPosition) : PartitionPosition :=
  if awaiting_validation pos && negb (is_known (offset_epoch pos))
  then mkPosition (offset_epoch pos) (leader_id pos) (leader_epoch pos) false
  else pos.

Definition should_validate_position (pos : PartitionPosition) : bool :=
  awaiting_validation pos && is_known (offset_epoch pos).

Definition should_route_to_leader (leader_id : Z) (knows_leader : bool) : bool :=
  (0 <=? leader_id) && knows_leader.

Definition response_still_current (pos : PartitionPosition) (epoch : Z) : bool := leader_epoch pos =? epoch.

Definition should_skip_stale_response (pos : PartitionPosition) (epoch : Z) : bool :=
  negb (response_still_current pos epoch).

Definition response_has_error (error_code : Z) : bool := negb (error_code =? 0).

Definition mark_validation_error (pos : PartitionPosition) : PartitionPosition :=
  mkPosition (offset_epoch pos) (leader_id pos) (-1) true.

(** The answer of [OffsetForLeaderEpoch] for one partition. *)
Record EpochEndOffset : Type := mkEpochEnd {
  ee_error_code : Z;
  ee_leader_epoch : Z;
  ee_end_offset : Z;
}.

Definition set_validated (epoch : Z) (pos : PartitionPosition) : PartitionPosition :=
  mkPosition epoch (leader_id pos) (leader_epoch pos) false.

(** The position after the answer, and the safe offset of a truncated log. *)
Definition apply_epoch_answer (pos : PartitionPosition) (answer : EpochEndOffset)
    (offset offset_epoch_asked leader_epoch_asked : Z) : PartitionPosition * option Z :=
  if should_skip_stale_response pos leader_epoch_asked then (pos, None)
  else if response_has_error (ee_error_code answer) then (mark_validation_error pos, None)
  else
    match classify offset offset_epoch_asked (ee_leader_epoch answer) (ee_end_offset answer) with
    | Valid epoch => (set_validated epoch pos, None)
    | Truncated safe_offset => (set_validated (offset_epoch pos) pos, Some safe_offset)
    end.

(** ** Seeks *)

Definition seek_position (pos : PartitionPosition) (epoch : option Z) : PartitionPosition :=
  let offset_epoch := default (-1) epoch in
  mkPosition offset_epoch (leader_id pos) (leader_epoch pos)
    (is_known offset_epoch && is_known (leader_epoch pos)).

Definition plant (sentinel : Z) (epoch : option Z)
    (acc : gmap topic_partition Z * gmap topic_partition PartitionPosition) (key : topic_partition)
    : gmap topic_partition Z * gmap topic_partition PartitionPosition :=
  (<[key := sentinel]> acc.1,
   <[key := seek_position (default PartitionPosition_default (acc.2 !! key)) epoch]> acc.2).

(** ** Which partitions to fetch *)

Section fetch.
Context {GA : GroupApi}.

(** [(partition, fetch_offset, current_leader_epoch, last_fetched_epoch)]. *)
Notation FetchSpec := (Z * Z * Z * Z)%type.
Notation FetchByLeader := (gmap Z (gmap string (list FetchSpec))).

Record FetchableTopic : Type := mkFetchableTopic {
  ft_topic : string;
  ft_topic_id : Uuid;
  ft_partitions : list PartitionData;
}.

Record FetchResponse : Type := mkFetched {
  fr_code : Z;
  fr_throttle_time_ms : Z;
  fr_session_id : Z;
  fr_responses : list FetchableTopic;
}.

Definition fetch_result : Type := result ClientError.client_error FetchResponse.

Record InFlightFetch : Type := mkInFlight {
  if_requested : gmap topic_partition Z;
  if_from_replica : gset topic_partition;
}.

Record CompletedFetch : Type := mkCompleted {
  cf_leader : Z;
  cf_requested : gmap topic_partition Z;
  cf_from_replica : gset topic_partition;
  cf_result : option fetch_result;
}.

(** The [Fetch] requests of a consumer. The tasks that run them are outside:
    a task leaves its result, or nothing when it panicked. *)
Record Fetches : Type := mkFetches {
  fe_sessions : gmap Z (FetchSession (Uuid := Uuid));
  fe_in_flight : gmap Z InFlightFetch;
  fe_ready : list CompletedFetch;
  fe_preferred_read_replicas : gmap topic_partition (Z * Z);
}.

Definition Fetches_default : Fetches := mkFetches ∅ ∅ [] ∅.

Definition set_sessions (v : gmap Z FetchSession) (f : Fetches) : Fetches :=
  mkFetches v (fe_in_flight f) (fe_ready f) (fe_preferred_read_replicas f).
Definition set_in_flight (v : gmap Z InFlightFetch) (f : Fetches) : Fetches :=
  mkFetches (fe_sessions f) v (fe_ready f) (fe_preferred_read_replicas f).
Definition set_ready (v : list CompletedFetch) (f : Fetches) : Fetches :=
  mkFetches (fe_sessions f) (fe_in_flight f) v (fe_preferred_read_replicas f).
Definition set_preferred (v : gmap topic_partition (Z * Z)) (f : Fetches) : Fetches :=
  mkFetches (fe_sessions f) (fe_in_flight f) (fe_ready f) v.

(** What [group_fetches] reads of the consumer. *)
Record FetchContext : Type := mkFetchContext {
  fc_subscription : Subscription;
  fc_awaiting_callback : gset topic_partition;
  fc_paused : gset topic_partition;
  fc_buffered : gset topic_partition;
  fc_offsets : gmap topic_partition Z;
  fc_positions : gmap topic_partition PartitionPosition;
  fc_known_brokers : gset Z;
  fc_now : Z;
}.

Definition position_of (positions : gmap topic_partition PartitionPosition) (key : topic_partition)
    : PartitionPosition := default PartitionPosition_default (positions !! key).

Definition subscribes_to (subscription : Subscription) (topic : string) : bool :=
  su_manual_assignment subscription || bool_decide (is_Some (su_pattern subscription))
  || bool_decide (is_Some (su_regex subscription)) || contains subscription topic.

(** The checks before a partition gets a broker. *)
Definition fetchable (cx : FetchContext) (key : topic_partition) : bool :=
  negb (bool_decide (key ∈ fc_awaiting_callback cx))
  && subscribes_to (fc_subscription cx) key.1
  && negb (awaiting_validation (position_of (fc_positions cx) key))
  && negb (is_reset_sentinel (default 0 (fc_offsets cx !! key)))
  && negb (bool_decide (key ∈ fc_paused cx) || bool_decide (key ∈ fc_buffered cx)).

(** The broker of a partition, the preferred replicas that stay, and whether
    the metadata must be refreshed. *)
Definition select_read_replica (cx : FetchContext) (preferred : gmap topic_partition (Z * Z))
    (key : topic_partition) : Z * gmap topic_partition (Z * Z) * bool :=
  let pos := position_of (fc_positions cx) key in
  let leader := fetch_leader_id (leader_id pos) (bool_decide (leader_id pos ∈ fc_known_brokers cx)) in
  match preferred !! key with
  | Some (replica, expires) =>
    if expires <? fc_now cx then (leader, delete key preferred, false)
    else if bool_decide (replica ∈ fc_known_brokers cx) then (replica, preferred, false)
    else (leader, delete key preferred, true)
  | None => (leader, preferred, false)
  end.

Definition push_spec (leader : Z) (topic : string) (spec : FetchSpec) (grouped : FetchByLeader) : FetchByLeader :=
  let by_topic := default ∅ (grouped !! leader) in
  <[leader := <[topic := default [] (by_topic !! topic) ++ [spec]]> by_topic]> grouped.

Record Grouping : Type := mkGrouping {
  gr_grouped : FetchByLeader;
  gr_preferred : gmap topic_partition (Z * Z);
  gr_refresh : bool;
}.

Definition group_partition (cx : FetchContext) (in_flight : gset Z) (acc : Grouping) (key : topic_partition)
    : Grouping :=
  if negb (fetchable cx key) then acc
  else
    let '(leader, preferred, refresh) := select_read_replica cx (gr_preferred acc) key in
    let refresh := gr_refresh acc || refresh in
    if bool_decide (leader ∈ in_flight) then mkGrouping (gr_grouped acc) preferred refresh
    else
      let pos := position_of (fc_positions cx) key in
      let spec := (key.2, default 0 (fc_offsets cx !! key), leader_epoch pos, offset_epoch pos) in
      mkGrouping (push_spec leader key.1 spec (gr_grouped acc)) preferred refresh.

Definition group_fetches (cx : FetchContext) (f : Fetches) (assigned : list topic_partition) : Grouping :=
  foldl (group_partition cx (dom (fe_in_flight f))) (mkGrouping ∅ (fe_preferred_read_replicas f) false) assigned.

(** ** Requests *)

Definition session_partition (topic_id : Uuid) (spec : FetchSpec) (partition_max : Z)
    : SessionPartition (Uuid := Uuid) :=
  let '(_, fetch_offset, leader_epoch, last_fetched_epoch) := spec in
  mkSessionPartition topic_id fetch_offset leader_epoch last_fetched_epoch partition_max.

(** The partitions of one broker, with the topic ids. *)
Definition wanted_of (topic_ids : gmap string Uuid) (partition_max : Z) (by_topic : gmap string (list FetchSpec))
    : gmap topic_partition SessionPartition :=
  foldl (λ m e, <[e.1 := e.2]> m) ∅ (map_to_list by_topic ≫= λ e,
    (λ spec : FetchSpec, ((e.1, spec.1.1.1), session_partition (default Uuid_zero (topic_ids !! e.1)) spec partition_max))
      <$> e.2).

Record FetchRequest : Type := mkFetchRequest {
  fq_max_wait_ms : Z;
  fq_min_bytes : Z;
  fq_max_bytes : Z;
  fq_isolation_level : IsolationLevel;
  fq_session_id : Z;
  fq_session_epoch : Z;
  fq_topics : list (string * Uuid * list (Z * SessionPartition (Uuid := Uuid)));
  fq_forgotten : list (string * Uuid * list Z);
  fq_rack_id : string;
}.

(** A run of entries of one topic becomes one topic of the request. *)
Definition push_topic {A} (topics : list (string * Uuid * list A)) (topic : string) (id : Uuid) (a : A)
    : list (string * Uuid * list A) :=
  match last topics with
  | Some (name, id', l) =>
    if bool_decide (name = topic) then take (pred (length topics)) topics ++ [(name, id', l ++ [a])]
    else topics ++ [(topic, id, [a])]
  | None => [(topic, id, [a])]
  end.

Record FetchConfig : Type := mkFetchConfig {
  fg_max_wait_ms : Z;
  fg_isolation_level : IsolationLevel;
  fg_min : Z;
  fg_max : Z;
  fg_partition_max : Z;
  fg_rack : string;
}.

(** The entries of a [BTreeMap], in the order of their keys. *)
Definition in_key_order (m : gmap topic_partition SessionPartition)
    : list (topic_partition * SessionPartition (Uuid := Uuid)) :=
  (λ k, (k, default (mkSessionPartition Uuid_zero 0 0 0 0) (m !! k))) <$> sort_by tp_le (elements (dom m)).

Definition build_fetch_request (fg : FetchConfig) (session : SessionRequest (Uuid := Uuid)) : FetchRequest :=
  let topics :=
    foldl (λ ts e, push_topic ts e.1.1 (sp_topic_id e.2) (e.1.2, e.2)) []
      (in_key_order (sr_partitions session)) in
  let forgotten := foldl (λ ts e, push_topic ts e.1.1 e.2 e.1.2) [] (sr_forgotten session) in
  mkFetchRequest (fg_max_wait_ms fg) (fg_min fg) (fg_max fg) (fg_isolation_level fg)
    (sr_session_id session) (sr_session_epoch session) topics forgotten (fg_rack fg).

(** One round of [send_fetches]: the state, and the request that goes out. *)
Definition send_fetch (fg : FetchConfig) (topic_ids : gmap string Uuid)
    (acc : Fetches * list (Z * FetchRequest)) (e : Z * gmap string (list FetchSpec))
    : Fetches * list (Z * FetchRequest) :=
  let '(f, sent) := acc in
  let '(leader, by_topic) := e in
  if bool_decide (leader ∈ dom (fe_in_flight f)) then acc
  else
    let wanted := wanted_of topic_ids (fg_partition_max fg) by_topic in
    let requested := sp_fetch_offset <$> wanted in
    let from_replica :=
      filter (λ key, (fst <$> fe_preferred_read_replicas f !! key) = Some leader) (dom wanted) in
    let '(session, request) := build Uuid_zero (default FetchSession_default (fe_sessions f !! leader)) wanted in
    (set_in_flight (<[leader := mkInFlight requested from_replica]> (fe_in_flight f))
       (set_sessions (<[leader := session]> (fe_sessions f)) f),
     sent ++ [(leader, build_fetch_request fg request)]).

Definition send_fetches (fg : FetchConfig) (topic_ids : gmap string Uuid) (by_leader : FetchByLeader) (f : Fetches)
    : Fetches * list (Z * FetchRequest) :=
  foldl (send_fetch fg topic_ids) (f, []) (map_to_list by_leader).

(** ** Completion *)

(** [results] are the results of the tasks that ended. *)
Definition collect_one (results : gmap Z (option fetch_result)) (f : Fetches) (leader : Z) : Fetches :=
  match fe_in_flight f !! leader, results !! leader with
  | Some fetch, Some r =>
    set_ready (fe_ready f ++ [mkCompleted leader (if_requested fetch) (if_from_replica fetch) r])
      (set_in_flight (delete leader (fe_in_flight f)) f)
  | _, _ => f
  end.

(** The Fetches after the results were taken, and the results that are left. *)
Definition collect_ready (results : gmap Z (option fetch_result)) (f : Fetches)
    : Fetches * gmap Z (option fetch_result) :=
  (foldl (collect_one results) f (elements (dom (fe_in_flight f))),
   filter (λ e, e.1 ∉ dom (fe_in_flight f)) results).

Definition topic_name (names : gmap Uuid string) (t : FetchableTopic) : string :=
  if bool_decide (ft_topic t = "") then default "" (names !! ft_topic_id t) else ft_topic t.

(** Whether a row is a refusal of the preferred replica that was asked. *)
Definition refused_by_replica (fetch : CompletedFetch) (key : topic_partition) (row : PartitionData) : bool :=
  (pd_error_code row =? OFFSET_OUT_OF_RANGE) && bool_decide (key ∈ cf_from_replica fetch).

(** Whether the fetch position is still the one that the request asked from. *)
Definition still_wanted (offsets : gmap topic_partition Z) (fetch : CompletedFetch) (key : topic_partition) : bool :=
  match cf_requested fetch !! key with
  | Some requested => default 0 (offsets !! key) =? requested
  | None => false
  end.

Definition retain_rows (names : gmap Uuid string) (offsets : gmap topic_partition Z) (fetch : CompletedFetch)
    (t : FetchableTopic) : FetchableTopic :=
  mkFetchableTopic (ft_topic t) (ft_topic_id t)
    (filter (λ row, let key := (topic_name names t, pd_partition_index row) in
               negb (refused_by_replica fetch key row) && still_wanted offsets fetch key = true)
       (ft_partitions t)).

Definition refused_keys (names : gmap Uuid string) (fetch : CompletedFetch) (t : FetchableTopic)
    : list topic_partition :=
  (λ row, (topic_name names t, pd_partition_index row)) <$>
    filter (λ row, refused_by_replica fetch (topic_name names t, pd_partition_index row) row = true)
      (ft_partitions t).

Definition remove_keys {A} (keys : list topic_partition) (m : gmap topic_partition A) : gmap topic_partition A :=
  foldr delete m keys.

(** What [take_completed_fetches] does with one completed Fetch. *)
Record Taken : Type := mkTaken {
  tk_fetches : Fetches;
  tk_responses : list FetchResponse;
  tk_failure : option ClientError.client_error;
}.

Definition with_session (leader : Z) (s : FetchSession) (f : Fetches) : Fetches :=
  set_sessions (<[leader := s]> (fe_sessions f)) f.

Definition row_count (r : FetchResponse) : Z :=
  foldr (λ t n, Z.of_nat (length (ft_partitions t)) + n) 0 (fr_responses r).

Definition take_response (names : gmap Uuid string) (offsets : gmap topic_partition Z) (acc : Taken)
    (fetch : CompletedFetch) (response : FetchResponse) : Taken :=
  let f := tk_fetches acc in
  let leader := cf_leader fetch in
  let '(session, accepted) :=
    handle_response (default FetchSession_default (fe_sessions f !! leader))
      (fr_code response) (fr_session_id response) (row_count response) (fr_throttle_time_ms response) in
  let f := with_session leader session f in
  if negb accepted then mkTaken f (tk_responses acc) (tk_failure acc)
  else
    let refused := mjoin (refused_keys names fetch <$> fr_responses response) in
    mkTaken (set_preferred (remove_keys refused (fe_preferred_read_replicas f)) f)
      (tk_responses acc ++
         [mkFetched (fr_code response) (fr_throttle_time_ms response) (fr_session_id response)
            (retain_rows names offsets fetch <$> fr_responses response)])
      (tk_failure acc).

Definition take_failure (acc : Taken) (fetch : CompletedFetch) (error : ClientError.client_error) : Taken :=
  let f := tk_fetches acc in
  let leader := cf_leader fetch in
  let f := with_session leader (handle_error (default FetchSession_default (fe_sessions f !! leader))) f in
  let f := set_preferred (remove_keys (elements (dom (cf_requested fetch))) (fe_preferred_read_replicas f)) f in
  mkTaken f (tk_responses acc)
    (if is_transport_error error true then tk_failure acc
     else match tk_failure acc with Some e => Some e | None => Some error end).

Definition take_lost (acc : Taken) (fetch : CompletedFetch) : Taken :=
  let f := tk_fetches acc in
  let leader := cf_leader fetch in
  mkTaken (with_session leader (handle_error (default FetchSession_default (fe_sessions f !! leader))) f)
    (tk_responses acc) (tk_failure acc).

Definition take_completed (names : gmap Uuid string) (offsets : gmap topic_partition Z) (acc : Taken)
    (fetch : CompletedFetch) : Taken :=
  match cf_result fetch with
  | Some (Ok response) => take_response names offsets acc fetch response
  | Some (Err error) => take_failure acc fetch error
  | None => take_lost acc fetch
  end.
End fetch.

(** ** Offsets by timestamp *)

Notation ListOffsetsSpecs := (gmap string (list (Z * Z))).

Definition push_offset_spec (leader : Z) (key : topic_partition) (epoch : Z) (grouped : gmap Z ListOffsetsSpecs)
    : gmap Z ListOffsetsSpecs :=
  let by_topic := default ∅ (grouped !! leader) in
  <[leader := <[key.1 := default [] (by_topic !! key.1) ++ [(key.2, epoch)]]> by_topic]> grouped.

Definition group_list_offsets (keys : list topic_partition) (positions : gmap topic_partition PartitionPosition)
    (known_brokers : gset Z) : gmap Z ListOffsetsSpecs :=
  foldl (λ grouped key,
    let pos := position_of positions key in
    push_offset_spec (fetch_leader_id (leader_id pos) (bool_decide (leader_id pos ∈ known_brokers)))
      key (leader_epoch pos) grouped) ∅ keys.

Record ListOffsetsRequest : Type := mkListOffsets {
  lq_timestamp : Z;
  lq_isolation_level : IsolationLevel;
  lq_topics : list (string * list (Z * Z));
}.

Definition build_offsets_request (by_topic : ListOffsetsSpecs) (timestamp : Z) (isolation_level : IsolationLevel)
    : ListOffsetsRequest :=
  mkListOffsets timestamp isolation_level
    ((λ t, (t, default [] (by_topic !! t))) <$> sort_by str_le (elements (dom by_topic))).

Inductive ListOffsetsRowAction : Type := RowPosition (offset : Z) | RowUnauthorized | RowRetry.

Definition classify_list_offsets_row (error_code offset : Z) : ListOffsetsRowAction :=
  if (error_code =? 0) && negb (offset =? UNKNOWN_OFFSET) then RowPosition offset
  else if error_code =? 29 then RowUnauthorized
  else RowRetry.

(** The rows [(partition, error_code, offset)] of each topic. *)
Notation ListOffsetsResponse := (list (string * list (Z * Z * Z))).

Definition answer_rows (answer : ListOffsetsResponse) : list (topic_partition * ListOffsetsRowAction) :=
  answer ≫= λ t, (λ row : Z * Z * Z, ((t.1, row.1.1), classify_list_offsets_row row.1.2 row.2)) <$> t.2.

Definition answer_offsets (answer : ListOffsetsResponse) : gmap topic_partition Z :=
  foldl (λ m e, match e.2 with RowPosition offset => <[e.1 := offset]> m | _ => m end) ∅ (answer_rows answer).

Definition answer_unauthorized (answer : ListOffsetsResponse) : gset string :=
  foldl (λ s e, match e.2 with RowUnauthorized => {[ e.1.1 ]} ∪ s | _ => s end) ∅ (answer_rows answer).

Record ListOffsetsResult : Type := mkListed {
  lo_offsets : gmap topic_partition Z;
  lo_retry : bool;
  lo_unauthorized : gset string;
}.

Definition collect_answer (acc : gmap topic_partition Z * gset string) (answer : ListOffsetsResponse)
    : gmap topic_partition Z * gset string :=
  if bool_decide (answer_unauthorized answer = ∅) then (answer_offsets answer ∪ acc.1, acc.2)
  else (acc.1, answer_unauthorized answer ∪ acc.2).

Definition collect (requested : list topic_partition) (answers : list ListOffsetsResponse) : ListOffsetsResult :=
  let '(offsets, unauthorized) := foldl collect_answer (∅, ∅) answers in
  let offsets := filter (λ e, e.1 ∈ requested) offsets in
  mkListed offsets (existsb (λ key, bool_decide (offsets !! key = None)) requested) unauthorized.

Definition authorization (r : ListOffsetsResult) : result consumer_error unit :=
  if bool_decide (lo_unauthorized r = ∅) then Ok ()
  else Err (ConsumerError.TopicAuthorizationFailed (sort_by str_le (elements (lo_unauthorized r)))).

(** ** Resets and truncations *)

Definition keys_at (visit : gmap topic_partition Z → list (topic_partition * Z)) (offsets : gmap topic_partition Z)
    (sentinel : Z) : list topic_partition :=
  fst <$> filter (λ e, e.2 = sentinel) (visit offsets).

(** Replaces the sentinels that are still there. *)
Definition resolve_sentinel (sentinel : Z) (found : gmap topic_partition Z) (offsets : gmap topic_partition Z)
    : gmap topic_partition Z :=
  map_imap (λ key next,
    Some (match found !! key with
          | Some offset => if next =? sentinel then offset else next
          | None => next
          end)) offsets.

Definition missing_offsets (offsets : gmap topic_partition Z) : list topic_partition :=
  sort_by tp_le (fst <$> filter (λ e, e.2 = NO_OFFSET_SENTINEL) (map_to_list offsets)).

Definition resolve_committed (reset : Z) (committed : gmap topic_partition (option OffsetAndMetadata))
    (acc : gmap topic_partition Z * gmap topic_partition PartitionPosition) (key : topic_partition)
    : gmap topic_partition Z * gmap topic_partition PartitionPosition :=
  match acc.1 !! key with
  | None => acc
  | Some next =>
    if negb (next =? COMMITTED_SENTINEL) then acc
    else
      match mjoin (committed !! key) with
      | Some offset =>
        let pos := position_of acc.2 key in
        let epoch := default (-1) (om_leader_epoch offset) in
        (<[key := om_offset offset]> acc.1,
         <[key := mkPosition epoch (leader_id pos) (leader_epoch pos)
                    (should_await_validation (leader_epoch pos) epoch)]> acc.2)
      | None => (<[key := reset]> acc.1, acc.2)
      end
  end.

Definition out_of_range_positions (out_of_range : list (topic_partition * Z)) (log_starts : gmap topic_partition Z)
    : list (topic_partition * Z) :=
  omap (λ e, (λ start, (e.1, start)) <$> log_starts !! e.1) out_of_range.

Definition out_of_range_truncation (out_of_range : list (topic_partition * Z)) (log_starts : gmap topic_partition Z)
    : option consumer_error :=
  e ← head out_of_range;
  Some (ConsumerError.LogTruncation e.1.1 e.1.2 e.2 (default UNKNOWN_OFFSET (log_starts !! e.1))).

Definition handle_truncation_in_poll (policy : AutoOffsetReset) (offsets : gmap topic_partition Z)
    (key : topic_partition) (safe_offset : Z) : result consumer_error (gmap topic_partition Z) :=
  match policy with
  | NoReset =>
    Err (ConsumerError.LogTruncation key.1 key.2 (fetch_offset_or_unknown offsets key) safe_offset)
  | _ => Ok (<[key := safe_offset]> offsets)
  end.

(** The truncations of one validation, in the order the map is visited. *)
Fixpoint apply_truncations (policy : AutoOffsetReset) (offsets : gmap topic_partition Z)
    (truncated : list (topic_partition * Z)) : result consumer_error (gmap topic_partition Z) :=
  match truncated with
  | [] => Ok offsets
  | (key, safe_offset) :: rest =>
    match handle_truncation_in_poll policy offsets key safe_offset with
    | Ok offsets => apply_truncations policy offsets rest
    | Err e => Err e
    end
  end.

(** ** The metadata *)

(** The leader id and leader epoch of each partition that the metadata names. *)
Definition refresh_positions (rows : list (topic_partition * (Z * Z)))
    (positions : gmap topic_partition PartitionPosition) : gmap topic_partition PartitionPosition :=
  foldl (λ m e,
    let pos := position_of m e.1 in
    let pos := mkPosition (offset_epoch pos) e.2.1 (leader_epoch pos) (awaiting_validation pos) in
    <[e.1 := update_leader_epoch pos e.2.2]> m) positions rows.

(** [metadata_due] without the flags of the metadata topics. *)
Definition leader_missing (assigned : list topic_partition) (positions : gmap topic_partition PartitionPosition) : bool :=
  existsb (λ key, match positions !! key with Some pos => leader_id pos <? 0 | None => true end) assigned.
