(* ===== verification/GroupNet.v ===== *)
(** * Requests of the coordinator task

    The parts of [crates/client-consumer/src/coordinator.rs] that talk to the
    coordinator and change nothing of the membership: discovery, the retry
    loops, heartbeats, [LeaveGroup], the fetch of committed offsets, and the
    commit before a join. They write the coordinator id, evict connections and
    leave errors for [poll]. [cf] are the settings of the task, and [fuel] the
    number of rounds that each loop may make. *)

From S2P Require Import Prelude Bytes Text Errors ConsumerErrors Assignor GroupAssign FetchBuffer.
From S2P Require Import OffsetWire Commit Subscription ConsumerProtocol GroupIo.

(** ** Reasons *)

Definition heartbeat_rejoin_reason (error_code : Z) : string :=
  if error_code =? 27 then "group is already rebalancing"
  else
    let error :=
      if error_code =? 22 then "ILLEGAL_GENERATION"
      else if error_code =? UNKNOWN_MEMBER_ID then "UNKNOWN_MEMBER_ID"
      else if error_code =? FENCED_INSTANCE_ID then "FENCED_INSTANCE_ID"
      else "UNKNOWN_SERVER_ERROR" in
    "encountered " +:+ error +:+ " from HEARTBEAT response".

Definition rebalance_failure_exception (error : consumer_error) : string :=
  match error with
  | ConsumerError.Server code =>
    if code =? 14 then "CoordinatorLoadInProgressException"
    else if code =? 15 then "CoordinatorNotAvailableException"
    else if code =? 16 then "NotCoordinatorException"
    else if code =? 22 then "IllegalGenerationException"
    else if code =? 23 then "InconsistentGroupProtocolException"
    else if code =? 24 then "InvalidGroupIdException"
    else if code =? UNKNOWN_MEMBER_ID then "UnknownMemberIdException"
    else if code =? 26 then "InvalidSessionTimeoutException"
    else if code =? 27 then "RebalanceInProgressException"
    else if code =? 30 then "GroupAuthorizationException"
    else if code =? 81 then "GroupMaxSizeReachedException"
    else "KafkaException"
  | ConsumerError.CoordinatorUnavailable => "CoordinatorNotAvailableException"
  | ConsumerError.GroupAuthorizationFailed _ => "GroupAuthorizationException"
  | ConsumerError.FencedInstanceId _ => "FencedInstanceIdException"
  | ConsumerError.TopicAuthorizationFailed _ => "TopicAuthorizationException"
  | ConsumerError.Client (ClientError.Timeout _) => "TimeoutException"
  | ConsumerError.Client _ => "DisconnectException"
  | _ => "KafkaException"
  end.

Definition rebalance_failure_reason (error : consumer_error) : string :=
  "rebalance failed due to " +:+ rebalance_failure_exception error.

(** The bytes [10xxxxxx] continue a character of a UTF-8 string. *)
Definition continues_char (c : Ascii.ascii) : bool :=
  let n := Z.of_N (Ascii.N_of_ascii c) in (128 <=? n) && (n <? 192).

Fixpoint first_chars (n : nat) (s : string) : string :=
  match s with
  | EmptyString => ""
  | String c s =>
    if continues_char c then String c (first_chars n s)
    else match n with O => "" | S n => String c (first_chars n s) end
  end.

Definition truncate_reason (reason : string) : string := first_chars 255 reason.

(** ** Requests *)

Definition build_find_coordinator_request (group_id : string) : FindCoordinatorRequest :=
  mkFind group_id [group_id].

Definition coordinator_error_code (r : FindCoordinatorResponse) : Z :=
  match fc_coordinators r with c :: _ => c.1 | [] => fc_error_code r end.

Definition coordinator_node_id (r : FindCoordinatorResponse) : Z :=
  match fc_coordinators r with c :: _ => c.2 | [] => fc_node_id r end.

Definition build_leave_group_request (group_id member_id : string) (reason : option string)
    : LeaveGroupRequest :=
  mkLeave group_id member_id [(member_id, truncate_reason <$> reason)].

Definition build_heartbeat_request := mkHeartbeat.

Definition should_send_leave_group (member_id : string) (group_instance_id : option string)
    (operation : GroupMembershipOperation) : bool :=
  negb (bool_decide (member_id = "")) &&
  match operation with
  | LeaveGroup => true
  | RemainInGroup => false
  | DefaultOperation => bool_decide (group_instance_id = None)
  end.

Definition group_response_error (error_code : Z) (group_instance_id : option string) : consumer_error :=
  if error_code =? FENCED_INSTANCE_ID
  then ConsumerError.FencedInstanceId (default "" group_instance_id)
  else ConsumerError.Server error_code.

(** ** Decisions *)

Inductive HeartbeatOutcome : Type :=
| HbOk
| NeedRejoin (error_code : Z)
| RejoinFromScratch
| Fenced
| Transient.

#[global] Instance HeartbeatOutcome_eq_dec : EqDecision HeartbeatOutcome.
Proof. solve_decision. Defined.

Definition heartbeat_outcome (error_code : Z) : HeartbeatOutcome :=
  if error_code =? 0 then HbOk
  else if (error_code =? 27) || (error_code =? 22) then NeedRejoin error_code
  else if error_code =? 25 then RejoinFromScratch
  else if error_code =? FENCED_INSTANCE_ID then Fenced
  else Transient.

Inductive CoordinatorRetryReason : Type := RetryResponse | RetryTransport.

Definition retry_deadline_elapsed (start timeout now : Z) : bool := timeout <=? now - start.

Definition next_backoff (backoff max_backoff : Z) : Z := Z.min (backoff * 2) max_backoff.

(** Whether the next [poll] must return the error. *)
Definition reports_to_poll (error : consumer_error) : bool :=
  ConsumerError.is_fatal_offset_fetch_error error
  || match error with
     | ConsumerError.Client client => ClientError.is_authentication_failure client
     | _ => false
     end.

(** The positions of newly assigned partitions: first the rows of the answer,
    then the partitions that it left out. *)
Definition prime_row (auto_offset_reset : AutoOffsetReset)
    (acc : gmap topic_partition Z * gmap topic_partition PartitionPosition)
    (row : topic_partition * Z * Z) : gmap topic_partition Z * gmap topic_partition PartitionPosition :=
  let '(key, committed, committed_epoch) := row in
  let p := default PartitionPosition_default (acc.2 !! key) in
  (<[key := starting_offset committed auto_offset_reset]> acc.1,
   <[key := mkPosition committed_epoch (leader_id p) (leader_epoch p) (awaiting_validation p)]> acc.2).

Definition should_prime_missing_partition (seen : bool) : bool := negb seen.

Definition prime_missing (auto_offset_reset : AutoOffsetReset) (seen : list topic_partition)
    (acc : gmap topic_partition Z * gmap topic_partition PartitionPosition) (tp : topic_partition)
    : gmap topic_partition Z * gmap topic_partition PartitionPosition :=
  if should_prime_missing_partition (bool_decide (tp ∈ seen))
  then (<[tp := reset_starting_offset auto_offset_reset]> acc.1,
        <[tp := default PartitionPosition_default (acc.2 !! tp)]> acc.2)
  else acc.

Definition prime_positions (auto_offset_reset : AutoOffsetReset) (partitions : list topic_partition)
    (rows : list (topic_partition * Z * Z))
    (acc : gmap topic_partition Z * gmap topic_partition PartitionPosition)
    : gmap topic_partition Z * gmap topic_partition PartitionPosition :=
  foldl (prime_missing auto_offset_reset rows.*1.*1)
    (foldl (prime_row auto_offset_reset) acc rows) partitions.

Section net.
Context {GA : GroupApi} (cf : Config) (fuel : nat).

Definition lock : task unit := await Yield.
Definition now : task Z := get (λ st, sh_now (sh st)).
Definition coordinator_id : task Z := get (λ st, sh_coordinator_id (sh st)).
Definition evict_broker (node : Z) : task unit :=
  put_shared (λ s, set_evicted (sh_evicted s ++ [node]) s).

(** [Client::refresh_metadata], for the topics of the task's client. *)
Definition refresh_metadata : task (result consumer_error (list (MetadataTopic Uuid))) :=
  topics ← get (λ st, me_metadata_topics (mem st));
  r ← await (FetchMetadata (TopicNames topics));
  mret (map_err ConsumerError.Client r).

(** [with_coordinator_retry_loop], from the round that starts now. *)
Fixpoint retry_rounds {R} (n : nat) (start backoff : Z) (code : R → Z)
    (make : task (result consumer_error R)) (on_retry : CoordinatorRetryReason → task unit)
    : task (result consumer_error R) :=
  match n with
  | O => stuck
  | S n =>
    r ← make;
    t ← now;
    let elapsed := retry_deadline_elapsed start (rt_timeout (cf_retry_policy cf)) t in
    let again reason :=
      on_retry reason;;
      await (Sleep backoff);;
      retry_rounds n start (next_backoff backoff (rt_max_backoff (cf_retry_policy cf))) code make on_retry in
    match r with
    | Ok response =>
      if negb (is_retriable_coordinator_code (code response)) then mret (Ok response)
      else if elapsed then mret (Ok response)
      else again RetryResponse
    | Err (ConsumerError.Client e) =>
      if is_retriable_transport_error e
      then if elapsed then mret (Err ConsumerError.CoordinatorUnavailable) else again RetryTransport
      else mret (Err (ConsumerError.Client e))
    | Err e => mret (Err e)
    end
  end.

Definition with_coordinator_retry_loop {R} (code : R → Z) (make : task (result consumer_error R))
    (on_retry : CoordinatorRetryReason → task unit) : task (result consumer_error R) :=
  start ← now;
  retry_rounds fuel start (rt_initial_backoff (cf_retry_policy cf)) code make on_retry.

Definition with_coordinator_retry {R} (code : R → Z) (make : task (result consumer_error R))
    : task (result consumer_error R) :=
  with_coordinator_retry_loop code make (λ _, mret ()).

Definition find_coordinator : task (result consumer_error Z) :=
  resp ←? with_coordinator_retry coordinator_error_code
    (r ← await (SendFindCoordinator (build_find_coordinator_request (cf_group_id cf)));
     match r with
     | Ok resp => mret (Ok resp)
     | Err e =>
       (if is_retriable_transport_error e then await ReconnectBootstrap else mret ());;
       mret (Err (ConsumerError.Client e))
     end);
  if negb (coordinator_error_code resp =? 0)
  then mret (Err (ConsumerError.Server (coordinator_error_code resp)))
  else _ ←? refresh_metadata; mret (Ok (coordinator_node_id resp)).

(** [find_coordinator_again], [refind_after] and the discovery of a retry. *)
Definition refind : task unit :=
  r ← find_coordinator;
  match r with
  | Ok id => put_shared (set_coordinator_id id)
  | Err _ => mret ()
  end.

Definition run_with_refind {R} (code : R → Z) (make : task (result consumer_error R))
    : task (result consumer_error R) :=
  with_coordinator_retry_loop code make (λ reason,
    match reason with
    | RetryTransport => node ← coordinator_id; evict_broker node
    | RetryResponse => mret ()
    end;;
    refind).

(** ** The slot of an error for [poll] *)

Definition report_fatal_error (error : consumer_error) : task unit :=
  put_shared (set_poll_error (Some error)).

Definition report_rejoin_error (error : consumer_error) : task unit :=
  if reports_to_poll error then report_fatal_error error else mret ().

(** ** Heartbeats *)

Definition heartbeat_of (st : St) : Z * HeartbeatRequest :=
  (sh_coordinator_id (sh st),
   build_heartbeat_request (cf_group_id cf) (me_generation_id (mem st)) (me_member_id (mem st))
     (cf_group_instance_id cf)).

Definition heartbeat_result_outcome (r : result ClientError.client_error Z) : task HeartbeatOutcome :=
  match r with
  | Ok error_code =>
    match heartbeat_outcome error_code with
    | Transient =>
      (if is_retriable_coordinator_code error_code then refind else mret ());;
      mret Transient
    | outcome => mret outcome
    end
  | Err e =>
    if is_retriable_transport_error e
    then node ← coordinator_id; evict_broker node;; refind;; mret Transient
    else report_rejoin_error (ConsumerError.Client e);; mret Transient
  end.

Definition heartbeat_once : task HeartbeatOutcome :=
  '(node, request) ← get heartbeat_of;
  r ← await (SendHeartbeat node request);
  heartbeat_result_outcome r.

(** [heartbeat_during_join_prepare] of a classic member, without the
    cancellation, which [race] and [join_until] do. *)
Fixpoint heartbeat_rounds (n : nat) : task HeartbeatOutcome :=
  match n with
  | O => stuck
  | S n =>
    await (Tick (cf_heartbeat_interval cf));;
    '(node, request) ← get heartbeat_of;
    r ← await (SpawnHeartbeat node request);
    match r with
    | None => heartbeat_rounds n
    | Some r =>
      outcome ← heartbeat_result_outcome r;
      match outcome with
      | HbOk | NeedRejoin _ | Transient => heartbeat_rounds n
      | RejoinFromScratch | Fenced => mret outcome
      end
    end
  end.

(** ** [LeaveGroup] *)

Definition leave_group (member_id : string) (operation : GroupMembershipOperation) (reason : string)
    : task unit :=
  if negb (should_send_leave_group member_id (cf_group_instance_id cf) operation) then mret ()
  else
    node ← coordinator_id;
    await (SendLeave node (build_leave_group_request (cf_group_id cf) member_id (Some reason))
             (cf_leave_group_timeout cf)).

(** ** Committed offsets *)

Fixpoint offset_fetch_rounds (n : nat) (start backoff : Z) (request : OffsetFetchRequest)
    : task (result consumer_error OffsetFetchResponse) :=
  match n with
  | O => stuck
  | S n =>
    node ← coordinator_id;
    r ← await (SendOffsetFetch node request);
    match r with
    | Err e => mret (Err (ConsumerError.Client e))
    | Ok response =>
      t ← now;
      let elapsed := retry_deadline_elapsed start (rt_timeout (cf_retry_policy cf)) t in
      let again :=
        await (Sleep backoff);;
        offset_fetch_rounds n start (next_backoff backoff (rt_max_backoff (cf_retry_policy cf))) request in
      match classify_offset_fetch response with
      | Complete => mret (Ok response)
      | RetryUnknownTopic _ => if elapsed then mret (Ok response) else again
      | Retry code => if elapsed then mret (Err (ConsumerError.Server code)) else again
      | FindCoordinator code =>
        if elapsed then mret (Err (ConsumerError.Server code)) else refind;; again
      | GroupAuthorizationFailed_ =>
        mret (Err (ConsumerError.GroupAuthorizationFailed (cf_group_id cf)))
      | TopicAuthorizationFailed_ topics => mret (Err (ConsumerError.TopicAuthorizationFailed topics))
      | Fatal code => mret (Err (ConsumerError.OffsetFetchFailed code))
      end
    end
  end.

Definition send_offset_fetch (request : OffsetFetchRequest)
    : task (result consumer_error OffsetFetchResponse) :=
  start ← now;
  offset_fetch_rounds fuel start (rt_initial_backoff (cf_retry_policy cf)) request.

(** The closure of [with_offsets_and_positions]. *)
Definition prime_shared (partitions : list topic_partition) (answer : OffsetFetchResponse) (s : Shared)
    : Shared :=
  let primed :=
    prime_positions (cf_auto_offset_reset cf) partitions (parse_offset_fetch answer)
      (sh_next_offsets s, sh_positions s) in
  set_positions primed.2 (set_next_offsets primed.1 s).

Definition prime_offsets (partitions : list topic_partition) : task (result consumer_error unit) :=
  if bool_decide (partitions = []) then mret (Ok ())
  else
    answer ←? send_offset_fetch
      (build_offset_fetch (cf_group_id cf) (visit_topics (group_by_topic partitions)));
    lock;; lock;;
    put_shared (prime_shared partitions answer);;
    mret (Ok ()).

(** ** The commit before a join *)

Fixpoint commit_rounds (n : nat) (deadline : Z) : task unit :=
  match n with
  | O => stuck
  | S n =>
    lock;;
    identity ← get (λ st, sh_identity (sh st));
    lock;;
    offsets ← get (λ st,
      match sh_auto_commit (sh st) with
      | Some auto_commit => polled_offsets auto_commit (ci_ownership_ids identity)
      | None => ∅
      end);
    if bool_decide (offsets = ∅) then mret ()
    else
      coordinator ← coordinator_id;
      r ← await (SendOffsetCommit coordinator
        (build_commit_request (cf_group_id cf) (ci_generation identity) (ci_member_id identity)
           (cf_group_instance_id cf)
           (build_commit_topics visit_topics (visit_partitions (position_commits offsets)))) deadline);
      match r with
      | None => mret ()
      | Some r =>
        let result := map_err ConsumerError.Client r in
        match auto_commit_outcome result with
        | AutoCommitted | AutoFailed => mret ()
        | AutoRetriable =>
          let moved := match result with Ok response => names_moved_coordinator response | Err _ => true end in
          in_time ←
            (if moved
             then evict_broker coordinator;;
                  found ← select (SleepUntil deadline) refind;
                  mret (match found with inl _ => false | inr _ => true end)
             else mret true);
          if negb in_time then mret ()
          else
            t ← now;
            if deadline <=? t then mret ()
            else
              await (Sleep (Z.min (rt_initial_backoff (cf_retry_policy cf)) (deadline - t)));;
              commit_rounds n deadline
        end
      end
  end.

Definition commit_consumed_before_join : task unit :=
  t ← now;
  let deadline := t + cf_max_poll_interval cf in
  turn ← await (CommitTurn deadline);
  if negb turn then mret () else commit_rounds fuel deadline.

End net.
