(* ===== verification/GroupHeartbeat.v ===== *)
(** * Heartbeats of the consumer group protocol

    The first part of [crates/client-consumer/src/consumer_group.rs]: the
    [ConsumerGroupHeartbeat] of a KIP-848 member, which carries only the fields
    that changed, the decision on an error code, and the heartbeats while a
    listener callback runs. An [OwnedByTopicId] is a map from the topic id; the
    request lists it in the order of the ids. *)

From S2P Require Import Prelude Bytes Errors ConsumerErrors Assignor GroupAssign FetchBuffer.
From S2P Require Import OffsetWire Commit Subscription ConsumerProtocol GroupIo GroupNet.

Definition JOIN_GROUP_MEMBER_EPOCH : Z := 0.
Definition LEAVE_GROUP_MEMBER_EPOCH : Z := -1.
Definition LEAVE_GROUP_STATIC_MEMBER_EPOCH : Z := -2.
Definition FENCED_MEMBER_EPOCH : Z := 110.

Record HeartbeatFields {GA : GroupApi} : Type := mkHeartbeatFields {
  hf_group_id : string;
  hf_member_id : string;
  hf_member_epoch : Z;
  hf_instance_id : option string;
  hf_rack_id : option string;
  hf_rebalance_timeout_ms : Z;
  hf_subscribed_topic_names : list string;
  hf_regex : option string;
  hf_server_assignor : option string;
  hf_owned : gmap Uuid (list Z);
  hf_joining : bool;
}.
Arguments mkHeartbeatFields {GA}.

Inductive HeartbeatAction : Type :=
| ActionOk | ActionRetry | ActionFindCoordinator | ActionFenced | ActionFatal.

#[global] Instance HeartbeatAction_eq_dec : EqDecision HeartbeatAction.
Proof. solve_decision. Defined.

Definition heartbeat_action (error_code : Z) : HeartbeatAction :=
  if error_code =? 0 then ActionOk
  else if (error_code =? COORDINATOR_NOT_AVAILABLE) || (error_code =? NOT_COORDINATOR)
  then ActionFindCoordinator
  else if error_code =? COORDINATOR_LOAD_IN_PROGRESS then ActionRetry
  else if (error_code =? FENCED_MEMBER_EPOCH) || (error_code =? UNKNOWN_MEMBER_ID) then ActionFenced
  else ActionFatal.

Definition leave_group_epoch (group_instance_id : option string) (operation : GroupMembershipOperation) : Z :=
  if bool_decide (operation = LeaveGroup) then LEAVE_GROUP_MEMBER_EPOCH
  else match group_instance_id with
       | Some _ => LEAVE_GROUP_STATIC_MEMBER_EPOCH
       | None => LEAVE_GROUP_MEMBER_EPOCH
       end.

Definition should_send_leave_heartbeat (member_id : string) (group_instance_id : option string)
    (operation : GroupMembershipOperation) : bool :=
  if bool_decide (member_id = "") then false
  else negb (bool_decide (group_instance_id = None) && bool_decide (operation = RemainInGroup)).

Inductive HeartbeatKind : Type := KindJoin | KindInterval | KindLeave.

#[global] Instance HeartbeatKind_eq_dec : EqDecision HeartbeatKind.
Proof. solve_decision. Defined.

Section heartbeat.
Context {GA : GroupApi}.

(** The request and the fields sent so far. *)
Definition build_heartbeat (fields : HeartbeatFields) (sent : SentFields)
    : ConsumerGroupHeartbeatRequest * SentFields :=
  let all := hf_joining fields in
  let sent := if all then SentFields_default else sent in
  let timeout := all || negb (bool_decide (sf_rebalance_timeout_ms sent = Some (hf_rebalance_timeout_ms fields))) in
  let names := all || negb (bool_decide (sf_subscribed_topic_names sent = Some (hf_subscribed_topic_names fields))) in
  let pattern_changed := negb (bool_decide (sf_regex sent = hf_regex fields)) in
  let regex := (all && bool_decide (is_Some (hf_regex fields))) || pattern_changed in
  let assignor :=
    match hf_server_assignor fields with
    | Some a => all || negb (bool_decide (sf_server_assignor sent = Some a))
    | None => false
    end in
  let owned := all || negb (bool_decide (sf_topic_partitions sent = Some (hf_owned fields))) in
  (mkGroupHeartbeat (hf_group_id fields) (hf_member_id fields) (hf_member_epoch fields)
     (hf_instance_id fields) (if all then hf_rack_id fields else None)
     (if timeout then hf_rebalance_timeout_ms fields else -1)
     (if names then Some (hf_subscribed_topic_names fields) else None)
     (if regex then Some (default "" (hf_regex fields)) else None)
     (if assignor then hf_server_assignor fields else None)
     (if owned then Some (hf_owned fields) else None),
   mkSentFields
     (if timeout then Some (hf_rebalance_timeout_ms fields) else sf_rebalance_timeout_ms sent)
     (if names then Some (hf_subscribed_topic_names fields) else sf_subscribed_topic_names sent)
     (if regex then hf_regex fields else sf_regex sent)
     (if assignor then hf_server_assignor fields else sf_server_assignor sent)
     (if owned then Some (hf_owned fields) else sf_topic_partitions sent)).

(** ** Assignments by topic id *)

Definition resolve_topic (names : gmap Uuid string) (acc : list topic_partition * gset Uuid)
    (t : Uuid * list Z) : list topic_partition * gset Uuid :=
  match names !! t.1 with
  | Some name => (acc.1 ++ ((λ p, (name, p)) <$> t.2), acc.2)
  | None => (acc.1, {[ t.1 ]} ∪ acc.2)
  end.

Definition assignment_partitions (response : ConsumerGroupHeartbeatResponse) (names : gmap Uuid string)
    : option (list topic_partition * gset Uuid) :=
  assignment ← ga_assignment response;
  let '(partitions, unresolved) := foldl (resolve_topic names) ([], ∅) assignment in
  Some (sort_by tp_le partitions, unresolved).

Definition push_owned (topic_ids : gmap string Uuid) (by_id : gmap Uuid (list Z)) (tp : topic_partition)
    : gmap Uuid (list Z) :=
  match topic_ids !! tp.1 with
  | Some id => <[id := default [] (by_id !! id) ++ [tp.2]]> by_id
  | None => by_id
  end.

Definition owned_by_topic_id (owned : list topic_partition) (topic_ids : gmap string Uuid)
    : gmap Uuid (list Z) :=
  sort_by Z.le <$> foldl (push_owned topic_ids) ∅ owned.

(** [refresh_tracked_topic_ids] of [validate.rs]. *)
Definition refresh_tracked_topic_ids (topic_ids : gmap string Uuid) (metadata : list (MetadataTopic Uuid))
    : gmap string Uuid :=
  foldl (λ ids t,
    match mt_name t with
    | None => ids
    | Some name =>
      if negb (mt_error_code t =? 0) || bool_decide (mt_topic_id t = Uuid_zero) then ids
      else <[name := mt_topic_id t]> ids
    end) topic_ids metadata.

(** ** The heartbeat of the current member state *)

Context (cf : Config).

Definition heartbeat_fields (kind : HeartbeatKind) : task HeartbeatFields :=
  lock;;
  topic_ids ← get (λ st, sh_topic_ids (sh st));
  owned ← (if bool_decide (kind = KindLeave) then mret ∅
           else lock;; get (λ st, owned_by_topic_id (sh_assigned (sh st)) topic_ids));
  get (λ st,
    let subscription := sh_subscription (sh st) in
    mkHeartbeatFields (cf_group_id cf) (me_member_id (mem st)) (me_member_epoch (mem st))
      (cf_group_instance_id cf) (cf_client_rack cf) (cf_max_poll_interval_ms cf)
      (match su_regex subscription with Some _ => [] | None => su_topics subscription end)
      (su_regex subscription) (cf_server_assignor cf) owned (bool_decide (kind = KindJoin))).

(** [heartbeat_during_callback], without the cancellation. *)
Fixpoint callback_heartbeat_rounds (n : nat) : task unit :=
  match n with
  | O => stuck
  | S n =>
    await (Tick (cf_heartbeat_interval cf));;
    sent ← get (λ st, me_sent_heartbeat_fields (mem st));
    fields ← heartbeat_fields KindInterval;
    node ← coordinator_id;
    needs_regex ← get (λ st, bool_decide (is_Some (su_regex (sh_subscription (sh st)))));
    _ ← await (SendGroupHeartbeat node (build_heartbeat fields sent).1 needs_regex);
    callback_heartbeat_rounds n
  end.

End heartbeat.
