(* ===== verification/Poll.v ===== *)
(** * Polling

    [Consumer::poll] of [crates/client-consumer/src/poll.rs] and what it calls:
    the auto commit of the interval ([commit.rs]), the update of the fetch
    positions ([validate.rs]), the listener calls ([rebalance_listener.rs]), the
    fetches and their answers. Each lock is an await, at which the coordinator
    task may change what it shares with the consumer; the tasks that run the
    fetches leave their results in [pc_results]. *)

From S2P Require Import Prelude Bytes Text Errors ConsumerErrors Assignor GroupAssign FetchSession FetchBuffer FetchDecode.
From S2P Require Import OffsetWire Commit Subscription ConsumerProtocol GroupIo GroupNet GroupHeartbeat.
From S2P Require Import PollFetch Async.

(** ** State *)

Record PollConfig : Type := mkPollConfig {
  po_group_id : string;
  po_group_instance_id : option string;
  po_fetch : FetchConfig;
  po_auto_offset_reset : AutoOffsetReset;
  po_rebalance_protocol : RebalanceProtocol;
  po_max_poll_records : nat;
  po_metadata_max_age : Z;
  po_initial_backoff : Z;
  po_default_api_timeout : Z;
  po_has_listener : bool;
}.

Section poll.
Context {GA : GroupApi}.

Record ListenerCall : Type := mkCall { lc_kind : ListenerCallKind; lc_partitions : list topic_partition }.

(** The topics of the client's metadata requests. *)
Record MetadataTopics : Type := mkMetadataTopics {
  mt_names : list string;
  mt_refreshed : option Z;
  mt_update_requested : bool;
}.

(** What the consumer shares with other tasks. *)
Record PollCommon : Type := mkPollCommon {
  pc_shared : Shared;
  pc_results : gmap Z (option fetch_result);
  pc_calls : list ListenerCall;
  pc_wakeup : bool;
  pc_metadata : MetadataTopics;
  pc_known_brokers : gset Z;
  pc_commit_locked : bool;
  pc_unix_ms : Z;
}.

(** What only the consumer changes, with the requests and the auto commits that
    it sent so far. *)
Record PollLocal : Type := mkPollLocal {
  pl_buffer : FetchBuffer;
  pl_fetches : Fetches;
  pl_paused : gmap topic_partition Z;
  pl_sent : list (Z * FetchRequest);
  pl_auto_commits : list OffsetCommitRequest;
  pl_evicted : list Z;
}.

Record PollState : Type := mkPollState { pl : PollLocal; pc : PollCommon }.

Definition PollMetadata : Type := list (MetadataTopic Uuid * list (Z * (Z * Z))).

Inductive PollRequest : Type :=
| Lock (offsets_held : bool)
| SleepUntilP (deadline : Z)
| Woken
| FetchCompleted
| RebalanceOver
| RebalanceChanged
| NextListenerCall
| RunListener (kind : ListenerCallKind) (partitions : list topic_partition)
| RefreshMetadata
| ListOffsetsAt (leader : Z) (r : ListOffsetsRequest)
| OffsetForLeaderEpoch (leader : option Z) (key : topic_partition) (current_leader_epoch epoch : Z)
| FetchCommitted (r : OffsetFetchRequest) (deadline : Z)
| Reconnect
| SessionsClosed.

(** A listener fails with a message; the callbacks are the application's. *)
Definition poll_answer (r : PollRequest) : Type :=
  match r with
  | Lock _ | SleepUntilP _ | Woken | FetchCompleted | RebalanceOver | RebalanceChanged | Reconnect
  | SessionsClosed => unit
  | NextListenerCall => option ListenerCall
  | RunListener _ _ => result string unit
  | RefreshMetadata => result ClientError.client_error PollMetadata
  | ListOffsetsAt _ _ => result ClientError.client_error (list (string * list (Z * Z * Z)))
  | OffsetForLeaderEpoch _ _ _ _ => result ClientError.client_error EpochEndOffset
  | FetchCommitted _ _ => result consumer_error OffsetFetchResponse
  end.

#[export] Instance poll_world : World := {|
  State := PollState;
  Common := PollCommon;
  common := pc;
  resume st c := mkPollState (pl st) c;
  Request := PollRequest;
  Answer := poll_answer;
|}.

(** ** Field updates *)

Definition with_shared (f : Shared → Shared) (c : PollCommon) : PollCommon :=
  mkPollCommon (f (pc_shared c)) (pc_results c) (pc_calls c) (pc_wakeup c) (pc_metadata c)
    (pc_known_brokers c) (pc_commit_locked c) (pc_unix_ms c).
Definition set_results (v : gmap Z (option fetch_result)) (c : PollCommon) : PollCommon :=
  mkPollCommon (pc_shared c) v (pc_calls c) (pc_wakeup c) (pc_metadata c)
    (pc_known_brokers c) (pc_commit_locked c) (pc_unix_ms c).
Definition set_calls (v : list ListenerCall) (c : PollCommon) : PollCommon :=
  mkPollCommon (pc_shared c) (pc_results c) v (pc_wakeup c) (pc_metadata c)
    (pc_known_brokers c) (pc_commit_locked c) (pc_unix_ms c).
Definition set_wakeup (v : bool) (c : PollCommon) : PollCommon :=
  mkPollCommon (pc_shared c) (pc_results c) (pc_calls c) v (pc_metadata c)
    (pc_known_brokers c) (pc_commit_locked c) (pc_unix_ms c).
Definition set_metadata (v : MetadataTopics) (c : PollCommon) : PollCommon :=
  mkPollCommon (pc_shared c) (pc_results c) (pc_calls c) (pc_wakeup c) v
    (pc_known_brokers c) (pc_commit_locked c) (pc_unix_ms c).
Definition set_commit_locked (v : bool) (c : PollCommon) : PollCommon :=
  mkPollCommon (pc_shared c) (pc_results c) (pc_calls c) (pc_wakeup c) (pc_metadata c)
    (pc_known_brokers c) v (pc_unix_ms c).

Definition set_buffer (v : FetchBuffer) (l : PollLocal) : PollLocal :=
  mkPollLocal v (pl_fetches l) (pl_paused l) (pl_sent l) (pl_auto_commits l) (pl_evicted l).
Definition set_fetches (v : Fetches) (l : PollLocal) : PollLocal :=
  mkPollLocal (pl_buffer l) v (pl_paused l) (pl_sent l) (pl_auto_commits l) (pl_evicted l).
Definition set_paused (v : gmap topic_partition Z) (l : PollLocal) : PollLocal :=
  mkPollLocal (pl_buffer l) (pl_fetches l) v (pl_sent l) (pl_auto_commits l) (pl_evicted l).
Definition set_sent (v : list (Z * FetchRequest)) (l : PollLocal) : PollLocal :=
  mkPollLocal (pl_buffer l) (pl_fetches l) (pl_paused l) v (pl_auto_commits l) (pl_evicted l).
Definition set_auto_commits (v : list OffsetCommitRequest) (l : PollLocal) : PollLocal :=
  mkPollLocal (pl_buffer l) (pl_fetches l) (pl_paused l) (pl_sent l) v (pl_evicted l).
Definition set_evicted_brokers (v : list Z) (l : PollLocal) : PollLocal :=
  mkPollLocal (pl_buffer l) (pl_fetches l) (pl_paused l) (pl_sent l) (pl_auto_commits l) v.

Definition of_shared {A} (f : Shared → A) : async A := reads (λ st, f (pc_shared (pc st))).
Definition to_shared (f : Shared → Shared) : async unit :=
  writes (λ st, mkPollState (pl st) (with_shared f (pc st))).
Definition to_common (f : PollCommon → PollCommon) : async unit := writes (λ st, mkPollState (pl st) (f (pc st))).
Definition to_local (f : PollLocal → PollLocal) : async unit := writes (λ st, mkPollState (f (pl st)) (pc st)).

Definition lock : async unit := wait (Lock false).
(** A lock that is taken while [next_offsets] is held. *)
Definition lock_inside : async unit := wait (Lock true).
Definition now : async Z := of_shared sh_now.

Definition offset_state (s : Shared) : gmap topic_partition Z * gmap topic_partition PartitionPosition :=
  (sh_next_offsets s, sh_positions s).
Definition set_offset_state (v : gmap topic_partition Z * gmap topic_partition PartitionPosition) (s : Shared)
    : Shared := set_positions v.2 (set_next_offsets v.1 s).

(** [MetadataTopics::request_update], [set] and [mark_refreshed]. *)
Definition request_update (m : MetadataTopics) : MetadataTopics := mkMetadataTopics (mt_names m) (mt_refreshed m) true.
Definition set_topics (m : MetadataTopics) (topics : list string) : MetadataTopics :=
  let topics := sorted topics in
  mkMetadataTopics topics (mt_refreshed m)
    (if bool_decide (mt_names m = topics) then mt_update_requested m else true).
Definition mark_refreshed (m : MetadataTopics) (now : Z) : MetadataTopics :=
  mkMetadataTopics (mt_names m) (Some now) false.

Definition ask_update : async unit := to_common (λ c, set_metadata (request_update (pc_metadata c)) c).

(** ** The listener *)

Context (po : PollConfig).

Definition run_listener (kind : ListenerCallKind) (partitions : list topic_partition) : async (result consumer_error unit) :=
  if negb (po_has_listener po) then mret (Ok ())
  else
    lock;;
    r ← wait (RunListener kind (sort_by tp_le partitions));
    mret (map_err ConsumerError.RebalanceListenerFailed r).

(** The end of the call tells the coordinator task, which is outside. *)
Definition complete_listener_call (call : ListenerCall) : async (result consumer_error unit) :=
  run_listener (lc_kind call) (lc_partitions call).

Definition get_or_insert {A} (first : option A) (r : result A unit) : option A :=
  match first, r with
  | None, Err e => Some e
  | _, _ => first
  end.

Definition first_or_ok {A B} (first : option A) (b : B) : result A B :=
  match first with Some e => Err e | None => Ok b end.

(** The calls that wait; [n] bounds how many come meanwhile. *)
Fixpoint pending_calls (n : nat) (first : option consumer_error) : async (result consumer_error unit) :=
  match n with
  | O => spent
  | S n =>
    calls ← reads (λ st, pc_calls (pc st));
    match calls with
    | [] => mret (first_or_ok first ())
    | call :: rest =>
      to_common (set_calls rest);;
      r ← complete_listener_call call;
      pending_calls n (get_or_insert first r)
    end
  end.

Context (fuel : nat).

Definition run_pending_listener_calls : async (result consumer_error unit) := pending_calls fuel None.

(** The loop of [wait_for_rebalance]: the first error, and whether the join
    completed. *)
Definition until_joined (deadline : Z) (first : option consumer_error) : async (option consumer_error * bool) :=
  e ← unless RebalanceOver (unless (SleepUntilP deadline) (wait Woken));
  match e with
  | inl _ => mret (first, true)
  | inr (inl _) => mret (first, false)
  | inr (inr _) => mret (get_or_insert first (Err ConsumerError.Wakeup), false)
  end.

Fixpoint rebalance_rounds (n : nat) (deadline : Z) (first : option consumer_error)
    : async (option consumer_error * bool) :=
  match n with
  | O => spent
  | S n =>
    t ← now;
    if deadline <=? t then mret (first, false)
    else
      e ← unless NextListenerCall (unless RebalanceOver (unless (SleepUntilP deadline) (wait Woken)));
      match e with
      | inl (Some call) =>
        r ← complete_listener_call call;
        rebalance_rounds n deadline (get_or_insert first r)
      | inl None => until_joined deadline first
      | inr (inl _) => mret (first, true)
      | inr (inr (inl _)) => mret (first, false)
      | inr (inr (inr _)) => mret (get_or_insert first (Err ConsumerError.Wakeup), false)
      end
  end.

Definition note_poll : async unit := to_shared (λ s, set_polls ((sh_polls s + 1) mod 2 ^ 64) s).

Definition wait_for_rebalance (deadline : Z) : async (result consumer_error bool) :=
  r ← run_pending_listener_calls;
  let first := get_or_insert None r in
  pending ← of_shared sh_rebalance_pending;
  if negb pending then mret (first_or_ok first true)
  else
    let eager := bool_decide (po_rebalance_protocol po = Eager) in
    owns ← (if bool_decide (first = None) && negb eager
            then lock;; of_shared (λ s, negb (bool_decide (sh_assigned s = [])))
            else mret false);
    if owns : bool then mret (Ok true)
    else
      note_poll;;
      '(first, joined) ← rebalance_rounds fuel deadline first;
      r ← run_pending_listener_calls;
      mret (first_or_ok (get_or_insert first r) joined).

(** ** The auto commit of the interval *)

Definition consumed_positions : async (CommitIdentity * ConsumedPositions) :=
  lock;; identity ← of_shared sh_identity;
  lock;; next_offsets ← of_shared sh_next_offsets;
  lock;; positions ← of_shared sh_positions;
  mret (identity, all_consumed (ci_ownership_ids identity) next_offsets positions).

Definition set_next_due (a : AutoCommit) (t : Z) : AutoCommit := mkAutoCommit (ac_interval a) t (ac_polled a).

(** The commit goes out in a task of its own, with the commit lock. *)
Definition maybe_auto_commit_async : async unit :=
  auto ← of_shared sh_auto_commit;
  match auto with
  | None => mret ()
  | Some _ =>
    '(identity, consumed) ← consumed_positions;
    lock;;
    to_shared (λ s, set_auto_commit ((λ a, set_polled a consumed) <$> sh_auto_commit s) s);;
    lock;;
    t ← now;
    next_due ← of_shared (λ s, default t (ac_next_due <$> sh_auto_commit s));
    locked ← reads (λ st, pc_commit_locked (pc st));
    if (t <? next_due) || locked then mret ()
    else
      to_shared (λ s, set_auto_commit ((λ a, set_next_due a (t + ac_interval a)) <$> sh_auto_commit s) s);;
      let offsets := owned_offsets consumed (ci_ownership_ids identity) in
      if bool_decide (offsets = ∅) then mret ()
      else
        to_common (set_commit_locked true);;
        to_local (λ l, set_auto_commits (pl_auto_commits l ++
          [build_commit_request (po_group_id po) (ci_generation identity) (ci_member_id identity)
             (po_group_instance_id po)
             (build_commit_topics visit_topics (visit_partitions (position_commits offsets)))]) l)
  end.

(** ** The positions *)

Definition is_transient_poll_error (e : consumer_error) : bool :=
  match e with ConsumerError.Client c => is_transport_error c true | _ => false end.

Definition metadata_due : async bool :=
  m ← reads (λ st, pc_metadata (pc st));
  t ← now;
  if mt_update_requested m || match mt_refreshed m with Some at_ => po_metadata_max_age po <=? t - at_ | None => true end
  then mret true
  else
    lock;; assigned ← of_shared sh_assigned;
    lock;; of_shared (λ s, leader_missing assigned (sh_positions s)).

Definition metadata_rows (md : PollMetadata) : list (topic_partition * (Z * Z)) :=
  md ≫= λ t, match mt_name t.1 with
             | Some name => (λ row, ((name, row.1), row.2)) <$> t.2
             | None => []
             end.

Definition refresh_leader_epochs : async (result consumer_error unit) :=
  r ← wait RefreshMetadata;
  match r with
  | Err e => mret (Err (ConsumerError.Client e))
  | Ok md =>
    t ← now;
    to_common (λ c, set_metadata (mark_refreshed (pc_metadata c) t) c);;
    lock;;
    to_shared (λ s, set_positions (refresh_positions (metadata_rows md) (sh_positions s)) s);;
    lock;;
    to_shared (λ s, set_topic_ids (refresh_tracked_topic_ids (sh_topic_ids s) md.*1) s);;
    mret (Ok ())
  end.

(** [committed_until], with the [OffsetFetch] and its retries outside. *)
Definition committed_until (partitions : list topic_partition) (deadline : Z)
    : async (result consumer_error (gmap topic_partition (option OffsetAndMetadata))) :=
  if bool_decide (po_group_id po = "") then mret (Err ConsumerError.InvalidGroupId)
  else if bool_decide (partitions = []) then mret (Ok ∅)
  else
    response ←! wait (FetchCommitted
      (build_offset_fetch (po_group_id po) (visit_topics (group_by_topic partitions))) deadline);
    let committed := filter (λ e, e.1 ∈ partitions) (parse_committed_offsets response) in
    mret (Ok (committed ∪ list_to_map ((λ p, (p, None)) <$> partitions))).

Definition resolve_committed_sentinels (deadline : option Z) : async (result consumer_error unit) :=
  lock;;
  keys ← of_shared (λ s, keys_at visit_partitions (sh_next_offsets s) COMMITTED_SENTINEL);
  if bool_decide (keys = []) then mret (Ok ())
  else
    t ← now;
    let deadline := default (t + po_default_api_timeout po) deadline in
    committed ←! (if bool_decide (po_group_id po = "") then mret (Ok ∅) else committed_until keys deadline);
    let reset := reset_starting_offset (po_auto_offset_reset po) in
    lock;; lock_inside;;
    to_shared (λ s, set_offset_state (foldl (resolve_committed reset committed) (offset_state s) keys) s);;
    mret (Ok ()).

Definition fail_partitions_without_offset : async (result consumer_error unit) :=
  lock;;
  missing ← of_shared (λ s, missing_offsets (sh_next_offsets s));
  mret (if bool_decide (missing = []) then Ok () else Err (ConsumerError.NoOffsetForPartition missing)).

Definition evict_broker (leader : Z) : async unit :=
  to_local (λ l, set_evicted_brokers (pl_evicted l ++ [leader]) l).

Fixpoint list_offsets_rounds (by_leader : list (Z * gmap string (list (Z * Z)))) (timestamp : Z)
    (answers : list (list (string * list (Z * Z * Z)))) : async (result consumer_error (list (list (string * list (Z * Z * Z))))) :=
  match by_leader with
  | [] => mret (Ok answers)
  | (leader, by_topic) :: rest =>
    r ← wait (ListOffsetsAt leader
      (build_offsets_request by_topic timestamp (fg_isolation_level (po_fetch po))));
    match r with
    | Ok answer => list_offsets_rounds rest timestamp (answers ++ [answer])
    | Err e =>
      if is_transport_error e true then
        (if should_use_bootstrap_leader leader then wait Reconnect else evict_broker leader);;
        list_offsets_rounds rest timestamp answers
      else mret (Err (ConsumerError.Client e))
    end
  end.

(** The entries of a [BTreeMap] by leader id. *)
Definition by_leader_order {A} (m : gmap Z A) : list (Z * A) :=
  omap (λ k, (λ a, (k, a)) <$> m !! k) (sort_by Z.le (elements (dom m))).

Definition list_offsets (keys : list topic_partition) (timestamp : Z) : async (result consumer_error ListOffsetsResult) :=
  lock;;
  by_leader ← reads (λ st, group_list_offsets keys (sh_positions (pc_shared (pc st))) (pc_known_brokers (pc st)));
  answers ←! list_offsets_rounds (by_leader_order by_leader) timestamp [];
  mret (Ok (collect keys answers)).

Fixpoint sentinel_rounds (sentinels : list (Z * Z * list topic_partition)) (results : list (Z * ListOffsetsResult))
    : async (result consumer_error (list (Z * ListOffsetsResult))) :=
  match sentinels with
  | [] => mret (Ok results)
  | (sentinel, timestamp, keys) :: rest =>
    if bool_decide (keys = []) then sentinel_rounds rest results
    else
      r ←! list_offsets keys timestamp;
      sentinel_rounds rest (results ++ [(sentinel, r)])
  end.

Fixpoint first_unauthorized (results : list (Z * ListOffsetsResult)) : result consumer_error unit :=
  match results with
  | [] => Ok ()
  | r :: rest => match authorization r.2 with Ok _ => first_unauthorized rest | Err e => Err e end
  end.

Definition resolve_reset_sentinels : async (result consumer_error unit) :=
  lock;;
  offsets ← of_shared sh_next_offsets;
  unix_ms ← reads (λ st, pc_unix_ms (pc st));
  let by_sentinel :=
    (λ e : Z * Z, (e.1, e.2, keys_at visit_partitions offsets e.1)) <$>
      [(LATEST_SENTINEL, reset_timestamp (po_auto_offset_reset po) unix_ms);
       (BEGINNING_SENTINEL, EARLIEST_TIMESTAMP); (END_SENTINEL, LATEST_TIMESTAMP)] in
  if forallb (λ e, bool_decide (e.2 = [])) by_sentinel then mret (Ok ())
  else
    results ←! sentinel_rounds by_sentinel [];
    lock;;
    to_shared (λ s, set_next_offsets
      (foldl (λ m (r : Z * ListOffsetsResult), resolve_sentinel r.1 (lo_offsets r.2) m) (sh_next_offsets s) results) s);;
    (if existsb (λ r : Z * ListOffsetsResult, lo_retry r.2 && bool_decide (lo_unauthorized r.2 = ∅)) results
     then ask_update else mret ());;
    mret (first_unauthorized results).

(** One position that awaits its validation: its offset, its epoch, and the
    leader it is asked from. *)
Record ToValidate : Type := mkToValidate {
  tv_key : topic_partition;
  tv_offset : Z;
  tv_offset_epoch : Z;
  tv_leader_epoch : Z;
  tv_leader_id : Z;
}.

Definition to_validate (offsets : gmap topic_partition Z) (positions : gmap topic_partition PartitionPosition)
    : list ToValidate :=
  omap (λ e, (λ offset, mkToValidate e.1 offset (offset_epoch e.2) (leader_epoch e.2) (leader_id e.2)) <$> offsets !! e.1)
    (filter (λ e, should_validate_position e.2 = true) (visit_partitions positions)).

Definition apply_validation (v : ToValidate) (answer : EpochEndOffset)
    (positions : gmap topic_partition PartitionPosition) : gmap topic_partition PartitionPosition * option Z :=
  match positions !! tv_key v with
  | None => (positions, None)
  | Some pos =>
    let '(pos, safe) := apply_epoch_answer pos answer (tv_offset v) (tv_offset_epoch v) (tv_leader_epoch v) in
    (<[tv_key v := pos]> positions, safe)
  end.

Fixpoint validate_rounds (vs : list ToValidate) (truncated : gmap topic_partition Z)
    : async (result consumer_error (gmap topic_partition Z)) :=
  match vs with
  | [] => mret (Ok truncated)
  | v :: rest =>
    known ← reads (λ st, pc_known_brokers (pc st));
    let leader := if should_route_to_leader (tv_leader_id v) (bool_decide (tv_leader_id v ∈ known))
                  then Some (tv_leader_id v) else None in
    r ← wait (OffsetForLeaderEpoch leader (tv_key v) (tv_leader_epoch v) (tv_offset_epoch v));
    match r with
    | Err e => mret (Err (ConsumerError.Client e))
    | Ok answer =>
      lock;;
      applied ← of_shared (λ s, apply_validation v answer (sh_positions s));
      to_shared (set_positions applied.1);;
      validate_rounds rest (match applied.2 with
                            | Some safe_offset => <[tv_key v := safe_offset]> truncated
                            | None => truncated
                            end)
    end
  end.

Definition validate_positions : async (result consumer_error (gmap topic_partition Z)) :=
  lock;; lock_inside;;
  to_shared (λ s, set_positions (clear_unvalidatable_position <$> sh_positions s) s);;
  vs ← of_shared (λ s, to_validate (sh_next_offsets s) (sh_positions s));
  validate_rounds vs ∅.

Definition reset_polled_now (resets : list (topic_partition * option Z)) : async unit :=
  auto ← of_shared sh_auto_commit;
  match auto with
  | None => mret ()
  | Some _ =>
    lock_inside;;
    to_shared (λ s, set_auto_commit ((λ a, reset_polled a resets) <$> sh_auto_commit s) s)
  end.

Definition apply_truncation (truncated : gmap topic_partition Z) : async (result consumer_error unit) :=
  lock;;
  offsets ← of_shared sh_next_offsets;
  match apply_truncations (po_auto_offset_reset po) offsets (visit_partitions truncated) with
  | Err e => mret (Err e)
  | Ok offsets =>
    to_shared (set_next_offsets offsets);;
    reset_polled_now ((λ e : topic_partition * Z, (e.1, Some e.2)) <$> visit_partitions truncated);;
    mret (Ok ())
  end.

Definition until_woken {A} (wakeup : bool) (m : async A) : async (result consumer_error A) :=
  if wakeup then
    r ← unless Woken m;
    mret (match r with inl _ => Err ConsumerError.Wakeup | inr a => Ok a end)
  else a ← m; mret (Ok a).

(** A step of the update: a transient error makes the caller try again later. *)
Definition position_step {A} (wakeup : bool) (m : async (result consumer_error A))
    (next : A → async (result consumer_error bool)) : async (result consumer_error bool) :=
  r ←! until_woken wakeup m;
  match r with
  | Ok a => next a
  | Err error =>
    if is_transient_poll_error error then wait Reconnect;; mret (Ok false) else mret (Err error)
  end.

Definition update_fetch_positions (wakeup : bool) (deadline : option Z) : async (result consumer_error bool) :=
  due ← metadata_due;
  position_step wakeup (if due : bool then refresh_leader_epochs else mret (Ok ())) (λ _,
  position_step wakeup (resolve_committed_sentinels deadline) (λ _,
  _ ←! fail_partitions_without_offset;
  position_step wakeup resolve_reset_sentinels (λ _,
  position_step wakeup validate_positions (λ truncated,
  _ ←! (if bool_decide (truncated = ∅) then mret (Ok ()) else apply_truncation truncated);
  mret (Ok true))))).

Definition sync_metadata_topics : async unit :=
  subscription ← of_shared sh_subscription;
  m ← reads (λ st, pc_metadata (pc st));
  if is_none subscription || bool_decide (mt_names m = su_topics subscription) then mret ()
  else to_common (set_metadata (set_topics m (su_topics subscription))).

Definition prepare_poll (deadline : Z) : async (result consumer_error bool) :=
  error ← of_shared sh_poll_error;
  match error with
  | Some error => to_shared (set_poll_error None);; mret (Err error)
  | None =>
    maybe_auto_commit_async;;
    note_poll;;
    sync_metadata_topics;;
    update_fetch_positions true (Some deadline)
  end.

(** ** The buffer *)

Definition paused_now (ownership_ids : gmap topic_partition Z) : async (gset topic_partition) :=
  paused ← reads (λ st, paused_of ownership_ids (pl_paused (pl st)));
  to_local (set_paused paused.1);;
  mret paused.2.

Definition drain_fetch_buffer : async (list ConsumerRecord) :=
  lock;; ownership_ids ← of_shared (λ s, ci_ownership_ids (sh_identity s));
  paused ← paused_now ownership_ids;
  lock;; assigned ← of_shared sh_assigned;
  lock;; lock_inside;;
  d ← reads (λ st,
    let s := pc_shared (pc st) in
    drain (pl_buffer (pl st)) (po_max_poll_records po) (list_to_set assigned) paused
      (sh_next_offsets s) (sh_positions s));
  to_local (set_buffer (dr_partitions d));;
  to_shared (set_offset_state (dr_offsets d, dr_positions d));;
  mret (dr_out d).

(** ** The answers of fetches *)

(** What the loop over the rows collects. *)
Record RowState : Type := mkRowState {
  rs_fetched : list BufferedPartition;
  rs_refresh : bool;
  rs_out_of_range : list (topic_partition * Z);
  rs_polled_resets : list (topic_partition * option Z);
  rs_replica_updates : list (topic_partition * option Z);
}.

Definition RowState_default : RowState := mkRowState [] false [] [] [].

Definition add_fetched (p : option BufferedPartition) (r : RowState) : RowState :=
  mkRowState (match p with Some p => rs_fetched r ++ [p] | None => rs_fetched r end)
    (rs_refresh r) (rs_out_of_range r) (rs_polled_resets r) (rs_replica_updates r).
Definition add_refresh (r : RowState) : RowState :=
  mkRowState (rs_fetched r) true (rs_out_of_range r) (rs_polled_resets r) (rs_replica_updates r).
Definition add_out_of_range (e : topic_partition * Z) (r : RowState) : RowState :=
  mkRowState (rs_fetched r) (rs_refresh r) (rs_out_of_range r ++ [e]) (rs_polled_resets r) (rs_replica_updates r).
Definition add_polled_reset (e : topic_partition * option Z) (r : RowState) : RowState :=
  mkRowState (rs_fetched r) (rs_refresh r) (rs_out_of_range r) (rs_polled_resets r ++ [e]) (rs_replica_updates r).
Definition add_replica (e : topic_partition * option Z) (r : RowState) : RowState :=
  mkRowState (rs_fetched r) (rs_refresh r) (rs_out_of_range r) (rs_polled_resets r) (rs_replica_updates r ++ [e]).

(** [NOT_LEADER_OR_FOLLOWER]: the new leader, or none. *)
Definition reroute (key : topic_partition) (row : PartitionData)
    (positions : gmap topic_partition PartitionPosition) : gmap topic_partition PartitionPosition :=
  if 0 <=? pd_leader_id row then
    let pos := position_of positions key in
    <[key := mkPosition (offset_epoch pos) (pd_leader_id row) (pd_leader_epoch row) (awaiting_validation pos)]> positions
  else
    alter (λ pos, mkPosition (offset_epoch pos) UNKNOWN_LEADER_ID (leader_epoch pos) (awaiting_validation pos))
      key positions.

(** [FENCED_LEADER_EPOCH] and [UNKNOWN_LEADER_EPOCH]. *)
Definition revalidate (key : topic_partition) (positions : gmap topic_partition PartitionPosition)
    : gmap topic_partition PartitionPosition :=
  alter (λ pos, mkPosition (offset_epoch pos) (leader_id pos) UNKNOWN_LEADER_ID
                  (is_known (offset_epoch pos) || awaiting_validation pos)) key positions.

Definition clears_replica (a : FetchPartitionAction) : bool :=
  match a with ActReroute | ActRevalidateEpoch | ActRefreshMetadata => true | _ => false end.

(** A row of records. *)
Definition process_records (key : topic_partition) (row : PartitionData) (r : RowState)
    : async (result consumer_error RowState) :=
  let r := if 0 <=? pd_preferred_read_replica row
           then add_replica (key, Some (pd_preferred_read_replica row)) r else r in
  lock_inside;;
  let isolation := fg_isolation_level (po_fetch po) in
  to_shared (λ s, set_end_offsets
    (<[key := readable_end_offset isolation (pd_high_watermark row) (pd_last_stable_offset row)]> (sh_end_offsets s)) s);;
  p ← of_shared (λ s, process_partition_records isolation (sh_next_offsets s) key row);
  mret (Ok (add_fetched p r)).

Definition reset_out_of_range (key : topic_partition) (r : RowState) : async (result consumer_error RowState) :=
  match po_auto_offset_reset po with
  | Latest | ByDuration _ =>
    to_shared (λ s, set_next_offsets (<[key := LATEST_SENTINEL]> (sh_next_offsets s)) s);;
    mret (Ok (add_polled_reset (key, None) r))
  | Earliest | NoReset =>
    fetch_offset ← of_shared (λ s, fetch_offset_or_unknown (sh_next_offsets s) key);
    mret (Ok (add_out_of_range (key, fetch_offset) r))
  end.

(** One row of a partition that the consumer still owns. *)
Definition process_row (key : topic_partition) (row : PartitionData) (r : RowState)
    : async (result consumer_error RowState) :=
  if 0 <=? pd_diverging_end_offset row then
    offsets ← of_shared sh_next_offsets;
    match handle_truncation_in_poll (po_auto_offset_reset po) offsets key (pd_diverging_end_offset row) with
    | Err e => mret (Err e)
    | Ok offsets =>
      to_shared (set_next_offsets offsets);;
      mret (Ok (add_polled_reset (key, Some (pd_diverging_end_offset row)) r))
    end
  else
    let action := classify_fetch_partition_error (pd_error_code row) in
    let r := if clears_replica action then add_replica (key, None) r else r in
    match action with
    | ActRecords => process_records key row r
    | ActResetOffset => reset_out_of_range key r
    | ActReroute =>
      lock_inside;;
      to_shared (λ s, set_positions (reroute key row (sh_positions s)) s);;
      mret (Ok (if 0 <=? pd_leader_id row then r else add_refresh r))
    | ActRevalidateEpoch =>
      lock_inside;;
      known ← of_shared (λ s, bool_decide (is_Some (sh_positions s !! key)));
      to_shared (λ s, set_positions (revalidate key (sh_positions s)) s);;
      (if known : bool then ask_update else mret ());;
      mret (Ok r)
    | ActRefreshMetadata => mret (Ok (add_refresh r))
    | ActFail code => mret (Err (ConsumerError.Server code))
    end.

Fixpoint process_rows (owned : gset topic_partition) (rows : list (topic_partition * PartitionData)) (r : RowState)
    : async (result consumer_error RowState) :=
  match rows with
  | [] => mret (Ok r)
  | (key, row) :: rest =>
    if bool_decide (key ∉ owned) then process_rows owned rest r
    else r ←! process_row key row r; process_rows owned rest r
  end.

Definition response_rows (names : gmap Uuid string) (responses : list FetchResponse)
    : list (topic_partition * PartitionData) :=
  responses ≫= λ resp, fr_responses resp ≫= λ t,
    (λ row, ((topic_name names t, pd_partition_index row), row)) <$> ft_partitions t.

Definition update_replica (now expires : Z) (m : gmap topic_partition (Z * Z)) (e : topic_partition * option Z)
    : gmap topic_partition (Z * Z) :=
  match e.2 with
  | Some replica =>
    match m !! e.1 with
    | Some (old, _) => if old =? replica then m else <[e.1 := (replica, expires)]> m
    | None => <[e.1 := (replica, expires)]> m
    end
  | None => delete e.1 m
  end.

Definition recover_out_of_range (out_of_range : list (topic_partition * Z)) : async (result consumer_error bool) :=
  r ←! list_offsets out_of_range.*1 EARLIEST_TIMESTAMP;
  match authorization r with
  | Err e => mret (Err e)
  | Ok _ =>
    match po_auto_offset_reset po with
    | NoReset =>
      mret (match out_of_range_truncation out_of_range (lo_offsets r) with
            | Some truncation => Err truncation
            | None => Ok false
            end)
    | _ =>
      lock;;
      let log_starts := out_of_range_positions out_of_range (lo_offsets r) in
      to_shared (λ s, set_next_offsets (foldl (λ m e, <[e.1 := e.2]> m) (sh_next_offsets s) log_starts) s);;
      reset_polled_now ((λ e : topic_partition * Z, (e.1, Some e.2)) <$> log_starts);;
      mret (Ok (lo_retry r))
    end
  end.

Definition process_fetch_responses (responses : list FetchResponse) (topic_ids : gmap string Uuid)
    : async (result consumer_error unit) :=
  let names := id_to_name (visit_topics topic_ids) in
  lock;; owned ← of_shared (λ s, list_to_set (sh_assigned s));
  lock;;
  r ←! process_rows owned (response_rows names responses) RowState_default;
  reset_polled_now (rs_polled_resets r);;
  t ← now;
  to_local (λ l, set_fetches (set_preferred
    (foldl (update_replica t (t + po_metadata_max_age po)) (fe_preferred_read_replicas (pl_fetches l)) (rs_replica_updates r))
    (pl_fetches l)) l);;
  to_local (λ l, set_buffer (pl_buffer l ++ rs_fetched r) l);;
  refresh ←! (if bool_decide (rs_out_of_range r = []) then mret (Ok false) else recover_out_of_range (rs_out_of_range r));
  (if rs_refresh r || refresh then ask_update else mret ());;
  mret (Ok ()).

(** ** The fetches *)

Definition group_fetches_now (assigned : list topic_partition) : async (gmap Z (gmap string (list (Z * Z * Z * Z)))) :=
  subscription ← of_shared sh_subscription;
  awaiting_callback ← of_shared sh_callback_pending;
  lock;; ownership_ids ← of_shared (λ s, ci_ownership_ids (sh_identity s));
  paused ← paused_now ownership_ids;
  t ← now;
  lock;; lock_inside;;
  g ← reads (λ st,
    let s := pc_shared (pc st) in
    group_fetches (mkFetchContext subscription awaiting_callback paused (buffered_partitions (pl_buffer (pl st)))
        (sh_next_offsets s) (sh_positions s) (pc_known_brokers (pc st)) t)
      (pl_fetches (pl st)) assigned);
  to_local (λ l, set_fetches (set_preferred (gr_preferred g) (pl_fetches l)) l);;
  (if gr_refresh g then ask_update else mret ());;
  mret (gr_grouped g).

Definition send_fetches_now (by_leader : gmap Z (gmap string (list (Z * Z * Z * Z)))) (topic_ids : gmap string Uuid) : async unit :=
  to_local (λ l,
    let '(f, sent) := send_fetches (po_fetch po) topic_ids by_leader (pl_fetches l) in
    set_sent (pl_sent l ++ sent) (set_fetches f l)).

Definition collect_ready_now : async unit :=
  writes (λ st,
    let '(f, results) := collect_ready (pc_results (pc st)) (pl_fetches (pl st)) in
    mkPollState (set_fetches f (pl st)) (set_results results (pc st))).

Definition no_fetch (f : Fetches) : bool :=
  bool_decide (fe_in_flight f = ∅) && bool_decide (fe_ready f = []).

Fixpoint fetch_wait_rounds (n : nat) (deadline : Z) : async unit :=
  match n with
  | O => spent
  | S n =>
    collect_ready_now;;
    f ← reads (λ st, pl_fetches (pl st));
    if bool_decide (fe_in_flight f = ∅) || negb (bool_decide (fe_ready f = [])) then mret ()
    else
      e ← unless FetchCompleted (wait (SleepUntilP deadline));
      match e with inl _ => fetch_wait_rounds n deadline | inr _ => mret () end
  end.

Definition wait_for_fetches (deadline : Z) : async unit := fetch_wait_rounds fuel deadline.

(** Whether every assigned partition has a position to fetch from. *)
Definition all_positions (assigned : list topic_partition) (s : Shared) : bool :=
  forallb (λ key,
    match sh_next_offsets s !! key with Some o => negb (is_reset_sentinel o) | None => false end
    && negb (awaiting_validation (position_of (sh_positions s) key))) assigned.

Definition wait_without_fetches (assigned : list topic_partition) (deadline : Z) : async unit :=
  lock;; lock_inside;;
  all ← of_shared (all_positions assigned);
  calls ← reads (λ st, pc_calls (pc st));
  t ← now;
  let until := if all && bool_decide (calls = []) then deadline else Z.min deadline (t + po_initial_backoff po) in
  _ ← unless (SleepUntilP until) (wait RebalanceChanged);
  mret ().

(** The connection of a broker whose Fetch failed in transit. *)
Definition drop_connection (fetch : CompletedFetch) : async unit :=
  match cf_result fetch with
  | Some (Err error) =>
    if is_transport_error error true then
      if should_use_bootstrap_leader (cf_leader fetch) then wait Reconnect else evict_broker (cf_leader fetch)
    else mret ()
  | _ => mret ()
  end.

Fixpoint take_rounds (names : gmap Uuid string) (offsets : gmap topic_partition Z) (ready : list CompletedFetch)
    (responses : list FetchResponse) (failure : option ClientError.client_error)
    : async (list FetchResponse * option ClientError.client_error) :=
  match ready with
  | [] => mret (responses, failure)
  | fetch :: rest =>
    taken ← reads (λ st, take_completed names offsets (mkTaken (pl_fetches (pl st)) responses failure) fetch);
    to_local (set_fetches (tk_fetches taken));;
    drop_connection fetch;;
    take_rounds names offsets rest (tk_responses taken) (tk_failure taken)
  end.

Definition take_completed_fetches (topic_ids : gmap string Uuid) : async (result consumer_error (list FetchResponse)) :=
  collect_ready_now;;
  ready ← reads (λ st, fe_ready (pl_fetches (pl st)));
  if bool_decide (ready = []) then mret (Ok [])
  else
    lock;; offsets ← of_shared sh_next_offsets;
    to_local (λ l, set_fetches (set_ready [] (pl_fetches l)) l);;
    '(responses, failure) ← take_rounds (id_to_name (visit_topics topic_ids)) offsets ready [] None;
    mret (match failure with
          | Some error => Err (ConsumerError.Client error)
          | None => Ok responses
          end).

(** [select!] of a computation and the wakeup. *)
Definition or_wakeup {A} (m : async A) (next : A → async (result consumer_error (list ConsumerRecord)))
    : async (result consumer_error (list ConsumerRecord)) :=
  e ← unless Woken m;
  match e with inl _ => mret (Err ConsumerError.Wakeup) | inr a => next a end.

Definition poll_fetches (deadline : Z) : async (result consumer_error (list ConsumerRecord)) :=
  lock;; assigned ← of_shared sh_assigned;
  if bool_decide (assigned = []) then or_wakeup (wait (SleepUntilP deadline)) (λ _, mret (Ok []))
  else
    by_leader ← group_fetches_now assigned;
    lock;; topic_ids ← of_shared sh_topic_ids;
    send_fetches_now by_leader topic_ids;;
    collect_ready_now;;
    f ← reads (λ st, pl_fetches (pl st));
    if no_fetch f then or_wakeup (wait_without_fetches assigned deadline) (λ _, mret (Ok []))
    else
      or_wakeup (wait_for_fetches deadline) (λ _,
        responses ←! take_completed_fetches topic_ids;
        _ ←! process_fetch_responses responses topic_ids;
        records ← drain_fetch_buffer;
        mret (Ok records)).

Definition poll (timeout_ms : Z) : async (result consumer_error (list ConsumerRecord)) :=
  t ← now;
  let deadline := t + Z.max 0 timeout_ms * 1000000 in
  subscription ← of_shared sh_subscription;
  if is_none subscription && negb (su_manual_assignment subscription) then mret (Err ConsumerError.NotSubscribed)
  else
    woken ← reads (λ st, pc_wakeup (pc st));
    to_common (set_wakeup false);;
    if woken : bool then mret (Err ConsumerError.Wakeup)
    else
      prepared ←! prepare_poll deadline;
      if negb prepared then mret (Ok [])
      else
        joined ←! wait_for_rebalance deadline;
        if negb joined then mret (Ok [])
        else
          buffered ← drain_fetch_buffer;
          if bool_decide (buffered = []) then poll_fetches deadline else mret (Ok buffered).

(** The end of a consumer: a Fetch with the final epoch and no partitions for
    each session, and a wait for the answers. *)
Definition close_requests (sessions : list (Z * FetchSession (Uuid := Uuid))) : list (Z * FetchRequest) :=
  (λ e, (e.1, build_fetch_request (po_fetch po) (mkSessionRequest (session_id e.2) FINAL_EPOCH ∅ []))) <$>
    filter (λ e, session_id e.2 ≠ INVALID_SESSION_ID) sessions.

Definition close_fetch_sessions (timeout : Z) : async unit :=
  to_local (λ l, set_sent (pl_sent l ++ close_requests (map_to_list (fe_sessions (pl_fetches l)))) l);;
  t ← now;
  _ ← unless (SleepUntilP (t + timeout)) (wait SessionsClosed);
  mret ().

(** ** Seeks and positions *)

Definition seek_to_position (key : topic_partition) (offset : Z) (leader_epoch : option Z)
    : async (result consumer_error unit) :=
  if offset <? 0 then mret (Err (ConsumerError.InvalidOffset offset))
  else
    lock;; assigned ← of_shared sh_assigned;
    if bool_decide (key ∉ assigned) then mret (Err (ConsumerError.NoCurrentAssignment key.1 key.2))
    else
      lock;; lock_inside;;
      to_shared (λ s, set_offset_state (plant offset leader_epoch (offset_state s) key) s);;
      mret (Ok ()).

Definition request_offset_reset (partitions : list topic_partition) (sentinel : Z) : async (result consumer_error unit) :=
  lock;; assigned ← of_shared sh_assigned;
  match list_find (λ k, k ∉ assigned) partitions with
  | Some (_, key) => mret (Err (ConsumerError.NoCurrentAssignment key.1 key.2))
  | None =>
    let targets := match partitions with [] => assigned | _ => partitions end in
    lock;; lock_inside;;
    to_shared (λ s, set_offset_state (foldl (plant sentinel None) (offset_state s) targets) s);;
    mret (Ok ())
  end.

Definition seek (key : topic_partition) (offset : Z) : async (result consumer_error unit) :=
  seek_to_position key offset None.
Definition seek_with_leader_epoch (key : topic_partition) (offset leader_epoch : Z) : async (result consumer_error unit) :=
  seek_to_position key offset (Some leader_epoch).
Definition seek_to_beginning (partitions : list topic_partition) : async (result consumer_error unit) :=
  request_offset_reset partitions BEGINNING_SENTINEL.
Definition seek_to_end (partitions : list topic_partition) : async (result consumer_error unit) :=
  request_offset_reset partitions END_SENTINEL.

Definition valid_offset (s : Shared) (key : topic_partition) : option Z :=
  offset ← sh_next_offsets s !! key;
  if negb (is_reset_sentinel offset) && negb (awaiting_validation (position_of (sh_positions s) key))
  then Some offset else None.

Definition valid_position (key : topic_partition) : async (option Z) :=
  lock;; lock_inside;; of_shared (λ s, valid_offset s key).

Fixpoint position_rounds (n : nat) (key : topic_partition) (deadline : Z) : async (result consumer_error Z) :=
  match n with
  | O => spent
  | S n =>
    lock;; assigned ← of_shared sh_assigned;
    if bool_decide (key ∉ assigned) then mret (Err (ConsumerError.NoCurrentAssignment key.1 key.2))
    else
      valid ← valid_position key;
      match valid with
      | Some offset => mret (Ok offset)
      | None =>
        _ ←! update_fetch_positions false (Some deadline);
        valid ← valid_position key;
        (if bool_decide (valid = None) then
           t ← now; wait (SleepUntilP (t + po_initial_backoff po))
         else mret ());;
        position_rounds n key deadline
      end
  end.

Definition position (key : topic_partition) : async (result consumer_error Z) :=
  t ← now;
  let deadline := t + po_default_api_timeout po in
  e ← unless (SleepUntilP deadline) (position_rounds fuel key deadline);
  mret (match e with
        | inl _ => Err (ConsumerError.Timeout ("the position for partition " ++ key.1 ++ "-" ++ fmt_int key.2
                                                 ++ " could not be determined") None)
        | inr r => r
        end).

Definition committed (partitions : list topic_partition)
    : async (result consumer_error (gmap topic_partition (option OffsetAndMetadata))) :=
  t ← now; committed_until partitions (t + po_default_api_timeout po).

Definition current_lag (key : topic_partition) : async (result consumer_error (option Z)) :=
  lock;; assigned ← of_shared sh_assigned;
  if bool_decide (key ∉ assigned) then mret (Err (ConsumerError.NoCurrentAssignment key.1 key.2))
  else
    lock;; lock_inside;;
    position ← of_shared (λ s, valid_offset s key);
    lock;;
    e ← of_shared (λ s, sh_end_offsets s !! key);
    mret (Ok (position ≫= λ p, (λ e, e - p) <$> e)).
End poll.
