(* ===== verification/PollProofs.v ===== *)
(** * What a poll keeps

    The environment of a [poll], the invariant that ties the fetches in flight
    and the buffer to the logs of the partitions, and the proof that every part
    of a [poll] keeps it. *)

From S2P Require Import Prelude Bytes Errors ConsumerErrors Assignor GroupAssign FetchSession FetchBuffer FetchDecode.
From S2P Require Import OffsetWire Commit Subscription ConsumerProtocol GroupIo GroupNet GroupHeartbeat.
From S2P Require Import PollFetch Async Poll.

Create HintDb poll.

Section proofs.
Context {GA : GroupApi} (po : PollConfig) (fuel : nat).

(** The logs of the partitions, the brokers' transaction indexes, and the name
    of the topic that an id stands for. *)
Context (aborts : RecordBatch → bool) (logs : topic_partition → list RecordBatch).
Context (indexes : topic_partition → list AbortedTxn) (real : Uuid → string).

(** The offsets at which a partition can be read. *)
Context (valid : topic_partition → Z → Prop).

Definition committed_only : bool := is_read_committed (fg_isolation_level (po_fetch po)).

(** The log that the application reads. *)
Definition app_log : topic_partition → list ConsumerRecord := log_of aborts committed_only logs.

Definition truthful (names : gmap Uuid string) : Prop := ∀ id name, names !! id = Some name → real id = name.

(** Whether a row carries records, and whether it says that the offset cannot
    be read. *)
Definition has_records (row : PartitionData) : Prop := pd_diverging_end_offset row < 0 ∧ pd_error_code row = 0.
Definition says_invalid (row : PartitionData) : Prop := 0 ≤ pd_diverging_end_offset row ∨ pd_error_code row = 1.

(** What a broker answers for a partition that was asked from [offset]: records
    of its log from there, or that the offset cannot be read. *)
Definition row_ok (key : topic_partition) (offset : Z) (row : PartitionData) : Prop :=
  (has_records row → valid key offset ∧ served committed_only (logs key) (indexes key) offset row) ∧
  (says_invalid row → ¬ valid key offset).

Definition answers_ok (requested : gmap topic_partition Z) (response : FetchResponse) : Prop :=
  ∀ names t row offset, truthful names → t ∈ fr_responses response → row ∈ ft_partitions t →
    let key := (topic_name names t, pd_partition_index row) in
    requested !! key = Some offset → row_ok key offset row.

Definition result_ok (requested : gmap topic_partition Z) (r : option fetch_result) : Prop :=
  match r with Some (Ok response) => answers_ok requested response | _ => True end.

(** What holds whenever another task can run: the buffer is made of slices of
    the logs, and each answer that waits is one that a broker gives. *)
Record poll_inv (st : PollState) : Prop := {
  pi_buffer : Forall (entry_ok app_log) (pl_buffer (pl st));
  pi_ready : Forall (λ c, result_ok (cf_requested c) (cf_result c)) (fe_ready (pl_fetches (pl st)));
  pi_dom : dom (pc_results (pc st)) ⊆ dom (fe_in_flight (pl_fetches (pl st)));
  pi_results leader f r : fe_in_flight (pl_fetches (pl st)) !! leader = Some f →
    pc_results (pc st) !! leader = Some r → result_ok (if_requested f) r;
  pi_names : ∀ name id, sh_topic_ids (pc_shared (pc st)) !! name = Some id → real id = name;
}.

(** What other tasks do at an await. The tasks of the fetches leave the answers
    of brokers, the topic ids are the topics' own, and the metadata names
    topics truthfully. Positions may change at any await except a lock and a
    reconnect: no rebalance gives a partition a new position between the check
    of an answer and its use. *)
Definition keeps_offsets (r : PollRequest) : bool :=
  match r with Lock _ | Reconnect => true | _ => false end.

Definition metadata_truthful (md : PollMetadata) : Prop :=
  ∀ t rows name, (t, rows) ∈ md → mt_name t = Some name → mt_error_code t = 0 → real (mt_topic_id t) = name.

Record common_step (r : PollRequest) (st : PollState) (c : PollCommon) : Prop := {
  cs_dom : dom (pc_results c) ⊆ dom (fe_in_flight (pl_fetches (pl st)));
  cs_results leader f res : fe_in_flight (pl_fetches (pl st)) !! leader = Some f →
    pc_results c !! leader = Some res → result_ok (if_requested f) res;
  cs_names name id : sh_topic_ids (pc_shared c) !! name = Some id → real id = name;
  cs_offsets : keeps_offsets r = true → sh_next_offsets (pc_shared c) = sh_next_offsets (pc_shared (pc st));
  cs_now : sh_now (pc_shared (pc st)) ≤ sh_now (pc_shared c);
}.

Definition poll_env : env := λ r st ans c,
  common_step r st c ∧
  match r return poll_answer r → Prop with
  | RefreshMetadata => λ ans, match ans with Ok md => metadata_truthful md | Err _ => True end
  | _ => λ _, True
  end ans.

(** The partitions that a state can be read from at any later time. *)
Context (Hlogs : ∀ k, log_ok (logs k)) (Hindexes : ∀ k, index_ok aborts (logs k) (indexes k)).

Notation SAFE m Q := (safe poll_env poll_inv True m Q).

(** A computation that keeps the invariant. *)
Definition keeps {A} (m : async A) : Prop :=
  ∀ st Q, poll_inv st → (∀ a st', poll_inv st' → Q a st') → SAFE (m st) Q.

Lemma inv_resume r st ans c : poll_inv st → poll_env r st ans c → poll_inv (resume st c).
Proof. intros [H1 H2 H3 H4 H5] [[C1 C2 C3 C4 C5] _]. split; simpl; try done. Qed.

Lemma keeps_wait r : keeps (wait r).
Proof.
  intros st Q Hinv HQ. split; [done|]. intros ans c HE. apply HQ. by eapply inv_resume.
Qed.

Lemma keeps_ret {A} (a : A) : keeps (mret a).
Proof. intros st Q Hinv HQ. by apply HQ. Qed.

Lemma keeps_reads {A} (f : PollState → A) : keeps (reads f).
Proof. intros st Q Hinv HQ. by apply HQ. Qed.

Lemma keeps_spent {A} : keeps (spent (A := A)).
Proof. intros st Q Hinv HQ. done. Qed.

Lemma keeps_then {A B} (m : async A) (f : A → async B) : keeps m → (∀ a, keeps (f a)) → keeps (m ≫= f).
Proof.
  intros Hm Hf st Q Hinv HQ. apply safe_bind, Hm; [done|]. intros a st' Hinv'. by apply Hf.
Qed.

Lemma keeps_attempt {X A B} (m : async (result X A)) (f : A → async (result X B)) :
  keeps m → (∀ a, keeps (f a)) → keeps (attempt m f).
Proof. intros Hm Hf. apply keeps_then; [done|]. intros [a|e]; [apply Hf|apply keeps_ret]. Qed.

Lemma keeps_unless {B} r (m : async B) : keeps m → keeps (unless r m).
Proof.
  intros Hm st Q Hinv HQ. apply safe_unless.
  - intros a st' c Hinv' HE. apply HQ. by eapply inv_resume.
  - apply Hm; [done|]. intros b st' Hinv'. by apply HQ.
Qed.

(** Updates of fields that the invariant does not speak of. *)
Lemma keeps_to_shared f :
  (∀ s, sh_topic_ids (f s) = sh_topic_ids s) → keeps (to_shared f).
Proof.
  intros Hf st Q [H1 H2 H3 H4 H5] HQ. apply HQ. split; simpl; try done. intros name id. rewrite Hf. apply H5.
Qed.

Lemma keeps_to_common f :
  (∀ c, pc_results (f c) = pc_results c ∧ sh_topic_ids (pc_shared (f c)) = sh_topic_ids (pc_shared c)) →
  keeps (to_common f).
Proof.
  intros Hf st Q [H1 H2 H3 H4 H5] HQ. destruct (Hf (pc st)) as [Hr Ht]. apply HQ. split; simpl; try done.
  - by rewrite Hr.
  - intros leader fl r Hfl. rewrite Hr. by apply H4.
  - intros name id. rewrite Ht. apply H5.
Qed.

Lemma keeps_to_local f :
  (∀ l, pl_buffer (f l) = pl_buffer l ∧ fe_in_flight (pl_fetches (f l)) = fe_in_flight (pl_fetches l) ∧
     fe_ready (pl_fetches (f l)) = fe_ready (pl_fetches l)) →
  keeps (to_local f).
Proof.
  intros Hf st Q [H1 H2 H3 H4 H5] HQ. destruct (Hf (pl st)) as (Hb & Hi & Hr). apply HQ. split; simpl.
  - by rewrite Hb.
  - by rewrite Hr.
  - by rewrite Hi.
  - intros leader fl r. rewrite Hi. apply H4.
  - done.
Qed.

Hint Resolve keeps_wait keeps_ret keeps_reads keeps_spent : poll.

Ltac keeps_step :=
  first
    [ solve [eauto 2 with poll]
    | match goal with |- keeps (wait ?r) => exact (keeps_wait r) end
    | apply keeps_then; [|intros ?]
    | apply keeps_attempt; [|intros ?]
    | match goal with |- keeps (unless ?r ?m) => refine (keeps_unless r m _) end
    | apply keeps_to_shared; intros ?; reflexivity
    | apply keeps_to_common; intros ?; split; reflexivity
    | apply keeps_to_local; intros ?; split_and!; reflexivity
    | case_match ].

Ltac keeps_tac := repeat keeps_step.

(** ** The listener and the commits *)

Lemma keeps_lock : keeps lock.
Proof. exact (keeps_wait (Lock false)). Qed.
Lemma keeps_lock_inside : keeps lock_inside.
Proof. exact (keeps_wait (Lock true)). Qed.
Lemma keeps_of_shared {A} (f : Shared → A) : keeps (of_shared f).
Proof. apply keeps_reads. Qed.
Lemma keeps_now : keeps now.
Proof. apply keeps_reads. Qed.
Lemma keeps_ask_update : keeps ask_update.
Proof. unfold ask_update. keeps_tac. Qed.
Hint Resolve keeps_lock keeps_lock_inside keeps_of_shared keeps_now keeps_ask_update : poll.

Lemma keeps_run_listener kind partitions : keeps (run_listener po kind partitions).
Proof. unfold run_listener. keeps_tac. Qed.
Hint Resolve keeps_run_listener : poll.

Lemma keeps_pending_calls n first : keeps (pending_calls po n first).
Proof.
  revert first. induction n as [|n IH]; intros first; simpl; [keeps_tac|].
  unfold complete_listener_call. keeps_tac.
Qed.
Hint Resolve keeps_pending_calls : poll.

Lemma keeps_run_pending : keeps (run_pending_listener_calls po fuel).
Proof. apply keeps_pending_calls. Qed.
Hint Resolve keeps_run_pending : poll.

Lemma keeps_rebalance_rounds n deadline first : keeps (rebalance_rounds po n deadline first).
Proof.
  revert first. induction n as [|n IH]; intros first; simpl; [keeps_tac|].
  unfold complete_listener_call, until_joined. keeps_tac.
Qed.
Hint Resolve keeps_rebalance_rounds : poll.

Lemma keeps_note_poll : keeps note_poll.
Proof. unfold note_poll. keeps_tac. Qed.
Hint Resolve keeps_note_poll : poll.

Lemma keeps_wait_for_rebalance deadline : keeps (wait_for_rebalance po fuel deadline).
Proof. unfold wait_for_rebalance. keeps_tac. Qed.

Lemma keeps_auto_commit : keeps (maybe_auto_commit_async po).
Proof. unfold maybe_auto_commit_async, consumed_positions. keeps_tac. Qed.
Hint Resolve keeps_wait_for_rebalance keeps_auto_commit : poll.

(** ** The positions *)

Lemma keeps_metadata_due : keeps (metadata_due po).
Proof. unfold metadata_due. keeps_tac. Qed.

Lemma keeps_resolve_committed deadline : keeps (resolve_committed_sentinels po deadline).
Proof. unfold resolve_committed_sentinels, committed_until. keeps_tac. Qed.

Lemma keeps_fail_partitions : keeps fail_partitions_without_offset.
Proof. unfold fail_partitions_without_offset. keeps_tac. Qed.

Lemma keeps_evict leader : keeps (evict_broker leader).
Proof. unfold evict_broker. keeps_tac. Qed.
Hint Resolve keeps_metadata_due keeps_resolve_committed keeps_fail_partitions keeps_evict : poll.

Lemma keeps_list_offsets keys timestamp : keeps (list_offsets po keys timestamp).
Proof.
  unfold list_offsets. keeps_tac. match goal with |- keeps (list_offsets_rounds _ ?l _ ?acc) => generalize acc, l end.
  intros acc l. revert acc. induction l as [|[leader by_topic] l IH]; intros acc; simpl; keeps_tac.
Qed.
Hint Resolve keeps_list_offsets : poll.

Lemma keeps_sentinel_rounds l acc : keeps (sentinel_rounds po l acc).
Proof. revert acc. induction l as [|[[sentinel timestamp] keys] l IH]; intros acc; simpl; keeps_tac. Qed.
Hint Resolve keeps_sentinel_rounds : poll.

Lemma keeps_resolve_reset : keeps (resolve_reset_sentinels po).
Proof. unfold resolve_reset_sentinels. keeps_tac. Qed.

Lemma keeps_validate_rounds vs truncated : keeps (validate_rounds vs truncated).
Proof. revert truncated. induction vs as [|v vs IH]; intros truncated; simpl; keeps_tac. Qed.
Hint Resolve keeps_resolve_reset keeps_validate_rounds : poll.

Lemma keeps_validate_positions : keeps validate_positions.
Proof. unfold validate_positions. keeps_tac. Qed.

Lemma keeps_reset_polled_now resets : keeps (reset_polled_now resets).
Proof. unfold reset_polled_now. keeps_tac. Qed.
Hint Resolve keeps_validate_positions keeps_reset_polled_now : poll.

Lemma keeps_apply_truncation truncated : keeps (apply_truncation po truncated).
Proof. unfold apply_truncation. keeps_tac. Qed.
Hint Resolve keeps_apply_truncation : poll.

Lemma refresh_ids_truthful (md : list (MetadataTopic Uuid)) (ids : gmap string Uuid) :
  (∀ t name, t ∈ md → mt_name t = Some name → mt_error_code t = 0 → real (mt_topic_id t) = name) →
  (∀ name id, ids !! name = Some id → real id = name) →
  ∀ name id, refresh_tracked_topic_ids ids md !! name = Some id → real id = name.
Proof.
  revert ids. induction md as [|t md IH]; intros ids Hmd Hids; [done|]. apply IH.
  { intros t' name Ht'. apply Hmd. by right. }
  intros name id. destruct (mt_name t) as [name'|] eqn:Hn; [|apply Hids].
  destruct (Z.eqb_spec (mt_error_code t) 0) as [He|]; simpl; [|apply Hids]. case_match; [apply Hids|].
  rewrite lookup_insert. destruct (decide (name' = name)) as [->|]; [|apply Hids]. intros [= <-]. by apply (Hmd t); [left|..].
Qed.

Lemma keeps_answer {B} r (f : poll_answer r → async B) :
  (∀ ans st c, poll_env r st ans c → keeps (f ans)) → keeps (wait r ≫= f).
Proof.
  intros Hf st Q Hinv HQ. apply safe_bind. split; [done|]. intros ans c HE.
  apply (Hf ans st c HE); [by eapply inv_resume|done].
Qed.

Lemma keeps_refresh : keeps refresh_leader_epochs.
Proof.
  apply (keeps_answer RefreshMetadata). intros ans st c [_ HE]. simpl in HE. destruct ans as [md|e]; [|keeps_tac].
  assert (keeps (to_shared (λ s, set_topic_ids (refresh_tracked_topic_ids (sh_topic_ids s) md.*1) s))) as Hids.
  { intros st1 Q1 [H1 H2 H3 H4 H5] HQ1. apply HQ1. split; simpl; try done.
    apply refresh_ids_truthful; [|done]. intros t name Ht Hn. apply list_elem_of_fmap in Ht as ([t' rows] & -> & Ht).
    by eapply HE. }
  keeps_tac.
Qed.
Hint Resolve keeps_refresh : poll.

Lemma keeps_until_woken {A} w (m : async A) : keeps m → keeps (until_woken w m).
Proof. intros Hm. unfold until_woken. keeps_tac. Qed.

Lemma keeps_position_step {A} w (m : async (result consumer_error A)) next :
  keeps m → (∀ a, keeps (next a)) → keeps (position_step w m next).
Proof.
  intros Hm Hn. unfold position_step. apply keeps_attempt; [by apply keeps_until_woken|]. intros r. keeps_tac.
Qed.

Lemma keeps_update_positions w deadline : keeps (update_fetch_positions po w deadline).
Proof.
  unfold update_fetch_positions. repeat first [apply keeps_position_step; [|intros ?]|keeps_step].
Qed.

Lemma keeps_sync_topics : keeps sync_metadata_topics.
Proof. unfold sync_metadata_topics. keeps_tac. Qed.
Hint Resolve keeps_update_positions keeps_sync_topics : poll.

Lemma keeps_prepare deadline : keeps (prepare_poll po deadline).
Proof. unfold prepare_poll. keeps_tac. Qed.
Hint Resolve keeps_prepare : poll.

(** ** The fetches *)

Lemma send_fetch_grows fg ids acc e leader f :
  fe_in_flight acc.1 !! leader = Some f →
  fe_in_flight (send_fetch fg ids acc e).1 !! leader = Some f.
Proof.
  intros Hf. destruct acc as [g sent], e as [l by_topic]. unfold send_fetch. simpl in Hf. case_bool_decide as Hin; [done|].
  destruct (build _ _ _) as [session request]. simpl. rewrite lookup_insert_ne; [done|].
  intros ->. apply Hin, elem_of_dom. eauto.
Qed.

Lemma send_fetch_ready fg ids acc e : fe_ready (send_fetch fg ids acc e).1 = fe_ready acc.1.
Proof.
  destruct acc as [g sent], e as [l by_topic]. unfold send_fetch. case_bool_decide; [done|].
  by destruct (build _ _ _).
Qed.

Lemma send_fetches_grows fg ids by_leader f :
  fe_ready (send_fetches fg ids by_leader f).1 = fe_ready f ∧
  ∀ leader fl, fe_in_flight f !! leader = Some fl →
    fe_in_flight (send_fetches fg ids by_leader f).1 !! leader = Some fl.
Proof.
  unfold send_fetches. change f with (fst (f, @nil (Z * FetchRequest))) at 2 3.
  generalize (f, @nil (Z * FetchRequest)). induction (map_to_list by_leader) as [|e l IH]; intros acc; [done|].
  simpl. destruct (IH (send_fetch fg ids acc e)) as [-> IH2]. split; [apply send_fetch_ready|].
  intros leader fl Hfl. by apply IH2, send_fetch_grows.
Qed.

Lemma keeps_send_fetches by_leader ids : keeps (send_fetches_now po by_leader ids).
Proof.
  intros st Q [H1 H2 H3 H4 H5] HQ. unfold send_fetches_now. apply HQ.
  pose proof (send_fetches_grows (po_fetch po) ids by_leader (pl_fetches (pl st))) as [Hr Hg].
  destruct (send_fetches _ _ _ _) as [f sent]. simpl in *. split; simpl; [done|by rewrite Hr| | |done].
  - intros leader Hl. apply H3, elem_of_dom in Hl as [fl Hfl]. apply elem_of_dom. exists fl. by apply Hg.
  - intros leader fl r Hfl Hl. assert (is_Some (fe_in_flight (pl_fetches (pl st)) !! leader)) as [fl' Hfl'].
    { apply elem_of_dom, H3, elem_of_dom. eauto. }
    apply Hg in Hfl' as Hfl2. simplify_eq. by eapply H4.
Qed.

Definition ready_ok (c : CompletedFetch) : Prop := result_ok (cf_requested c) (cf_result c).

Lemma collect_ready_ok results l f :
  Forall ready_ok (fe_ready f) →
  (∀ leader fl r, fe_in_flight f !! leader = Some fl → results !! leader = Some r → result_ok (if_requested fl) r) →
  Forall ready_ok (fe_ready (foldl (collect_one results) f l)).
Proof.
  revert f. induction l as [|leader l IH]; intros f Hr Hres; [done|]. simpl. apply IH; unfold collect_one.
  - destruct (fe_in_flight f !! leader) as [fl|] eqn:Hfl; [|done]. destruct (results !! leader) as [r|] eqn:Hl; [|done].
    simpl. apply Forall_app. split; [done|]. apply Forall_singleton. by eapply Hres.
  - intros leader' fl r. repeat case_match; simpl; try apply Hres.
    intros [_ Hfl]%lookup_delete_Some. by apply Hres.
Qed.

Lemma keeps_collect : keeps collect_ready_now.
Proof.
  intros st Q [H1 H2 H3 H4 H5] HQ. unfold collect_ready_now, collect_ready. apply HQ.
  assert (filter (λ e, e.1 ∉ dom (fe_in_flight (pl_fetches (pl st)))) (pc_results (pc st)) = ∅) as He.
  { apply map_empty. intros leader. apply map_lookup_filter_None. right. intros r Hr Hn. apply Hn, H3, elem_of_dom. eauto. }
  split; simpl; [done|by apply collect_ready_ok| | |done].
  - rewrite He. set_solver.
  - intros leader fl r _. by rewrite He, lookup_empty.
Qed.
Hint Resolve keeps_send_fetches keeps_collect : poll.

Lemma keeps_fetch_rounds n deadline : keeps (fetch_wait_rounds n deadline).
Proof. induction n as [|n IH]; simpl; keeps_tac. Qed.

Lemma keeps_wait_for_fetches deadline : keeps (wait_for_fetches fuel deadline).
Proof. apply keeps_fetch_rounds. Qed.

Lemma keeps_wait_without assigned deadline : keeps (wait_without_fetches po assigned deadline).
Proof. unfold wait_without_fetches. keeps_tac. Qed.

Lemma keeps_paused_now ids : keeps (paused_now ids).
Proof. unfold paused_now. keeps_tac. Qed.
Hint Resolve keeps_wait_for_fetches keeps_wait_without keeps_paused_now : poll.

Lemma keeps_group_fetches assigned : keeps (group_fetches_now assigned).
Proof. unfold group_fetches_now. keeps_tac. Qed.
Hint Resolve keeps_group_fetches : poll.

(** ** The answers *)

Definition offsets_of (st : PollState) : gmap topic_partition Z := sh_next_offsets (pc_shared (pc st)).

(** Steps after which the positions are as before. *)
Definition still {A} (m : async A) : Prop :=
  ∀ st Q, poll_inv st → (∀ a st', poll_inv st' → offsets_of st' = offsets_of st → Q a st') → SAFE (m st) Q.

Lemma still_wait r : keeps_offsets r = true → still (wait r).
Proof.
  intros Hr st Q Hinv HQ. split; [done|]. intros ans c HE. apply HQ; [by eapply inv_resume|].
  destruct HE as [[] _]. auto.
Qed.

Lemma still_lock : still lock.
Proof. by apply (still_wait (Lock false)). Qed.
Lemma still_lock_inside : still lock_inside.
Proof. by apply (still_wait (Lock true)). Qed.

Lemma still_drop_connection fetch : still (drop_connection fetch).
Proof.
  unfold drop_connection. repeat case_match; try (by intros st Q Hinv HQ; apply HQ).
  - by apply (still_wait Reconnect).
  - intros st Q Hinv HQ. apply HQ; [|done]. by destruct Hinv.
Qed.

Lemma id_to_name_truthful (ids : gmap string Uuid) :
  (∀ name id, ids !! name = Some id → real id = name) → truthful (id_to_name (visit_topics ids)).
Proof.
  intros Hids. unfold id_to_name.
  assert (∀ e, e ∈ visit_topics ids → real e.2 = e.1) as Hl.
  { intros [name id]. rewrite visit_topics_perm. intros He%elem_of_map_to_list. by apply Hids. }
  assert (truthful ∅) as H0 by (intros id name; by rewrite lookup_empty).
  revert Hl H0. generalize (∅ : gmap Uuid string). induction (visit_topics ids) as [|e l IH]; intros m Hl Hm; [done|].
  simpl. apply IH; [intros e' He'; apply Hl; by right|]. intros id name. rewrite lookup_insert.
  case_decide as E; [|apply Hm]. intros [= <-]. subst id. apply Hl. left.
Qed.

(** Rows that were asked from the positions [O]. *)
Definition rows_ok (O : gmap topic_partition Z) (rows : list (topic_partition * PartitionData)) : Prop :=
  ∀ key row, (key, row) ∈ rows → row_ok key (default 0 (O !! key)) row.

Lemma take_completed_in_flight names O acc fetch :
  fe_in_flight (tk_fetches (take_completed names O acc fetch)) = fe_in_flight (tk_fetches acc) ∧
  fe_ready (tk_fetches (take_completed names O acc fetch)) = fe_ready (tk_fetches acc).
Proof.
  unfold take_completed, take_response, take_failure, take_lost. repeat case_match; done.
Qed.

Lemma take_completed_rows names O acc fetch :
  truthful names → ready_ok fetch → rows_ok O (response_rows names (tk_responses acc)) →
  rows_ok O (response_rows names (tk_responses (take_completed names O acc fetch))).
Proof.
  intros Hn Hf Hacc. unfold take_completed. destruct (cf_result fetch) as [[response|e]|] eqn:Hr; [|done..].
  unfold take_response. destruct (handle_response _ _ _ _ _) as [session accepted]. destruct accepted; simpl; [|done].
  intros key row. unfold response_rows. rewrite bind_app, elem_of_app. intros [H|H]; [by apply Hacc|].
  unfold ready_ok in Hf. rewrite Hr in Hf. simpl in Hf, H. rewrite app_nil_r in H.
  apply list_elem_of_bind in H as (t' & Hkey & Ht). apply list_elem_of_fmap in Ht as (t & -> & Ht).
  apply list_elem_of_fmap in Hkey as (row' & [= -> ->] & Hrow). apply list_elem_of_filter in Hrow as [Hkeep Hrow].
  unfold topic_name in Hkeep |- *. simpl in *. fold (topic_name names t) in *.
  apply andb_true_iff in Hkeep as [_ Hwant]. unfold still_wanted in Hwant.
  destruct (cf_requested fetch !! _) as [offset|] eqn:Hreq; [|done]. apply Z.eqb_eq in Hwant. rewrite Hwant.
  by eapply Hf.
Qed.

Lemma take_rounds_ok names O ready responses failure st (Q : _ → _ → Prop) :
  truthful names → Forall ready_ok ready → poll_inv st → rows_ok O (response_rows names responses) →
  (∀ r st', poll_inv st' → offsets_of st' = offsets_of st → rows_ok O (response_rows names r.1) → Q r st') →
  SAFE (take_rounds names O ready responses failure st) Q.
Proof.
  intros Hn Hready. revert responses failure st. induction Hready as [|fetch ready Hf Hready IH];
    intros responses failure st Hinv Hrows HQ; [by apply HQ|].
  cbn [take_rounds]. safe_pure. unfold to_local. safe_pure. apply still_drop_connection.
  - destruct Hinv as [H1 H2 H3 H4 H5].
    destruct (take_completed_in_flight names O (mkTaken (pl_fetches (pl st)) responses failure) fetch) as [E1 E2].
    split; simpl; try done; rewrite ?E1, ?E2; done.
  - intros [] st' Hinv' Hoff. apply IH; [done|by apply take_completed_rows|].
    intros r st'' Hinv'' Hoff'. apply HQ; [done|]. by rewrite Hoff', Hoff.
Qed.

Lemma take_completed_fetches_ok ids st (Q : _ → _ → Prop) :
  (∀ name id, ids !! name = Some id → real id = name) → poll_inv st →
  (∀ e st', poll_inv st' → Q (Err e) st') →
  (∀ responses st', poll_inv st' →
     rows_ok (offsets_of st') (response_rows (id_to_name (visit_topics ids)) responses) → Q (Ok responses) st') →
  SAFE (take_completed_fetches ids st) Q.
Proof.
  intros Hids Hinv HE HQ. unfold take_completed_fetches. apply safe_bind, keeps_collect; [done|]. clear st Hinv.
  intros [] st Hinv. safe_pure. case_bool_decide; [apply HQ; [done|]; intros key row Hk; by apply elem_of_nil in Hk|].
  apply safe_bind, still_lock; [done|]. intros [] st1 Hinv1 _. unfold of_shared, to_local. safe_pure.
  apply take_rounds_ok; [by apply id_to_name_truthful|by apply Hinv| | |].
  - destruct Hinv1 as [H1 H2 H3 H4 H5]. by split; simpl.
  - intros key row Hk. by apply elem_of_nil in Hk.
  - intros [responses failure] st' Hinv' Hoff Hrows. safe_pure. destruct failure; [by apply HE|].
    apply HQ; [done|]. rewrite Hoff. apply Hrows.
Qed.

(** A partition whose position is no longer that of [O] could not be read from there. *)
Definition near (O : gmap topic_partition Z) (st : PollState) : Prop :=
  ∀ k, offsets_of st !! k = O !! k ∨ ¬ valid k (default 0 (O !! k)).

Definition fetched_ok (r : RowState) : Prop := Forall (entry_ok app_log) (rs_fetched r).

Definition row_post (O : gmap topic_partition Z) (r : result consumer_error RowState) (st : PollState) : Prop :=
  poll_inv st ∧ match r with Ok r => near O st ∧ fetched_ok r | Err _ => True end.

Lemma inv_offsets st v : poll_inv st → poll_inv (mkPollState (pl st) (with_shared (set_next_offsets v) (pc st))).
Proof. by intros [H1 H2 H3 H4 H5]. Qed.

Lemma near_invalid O st key v :
  near O st → ¬ valid key (default 0 (O !! key)) →
  near O (mkPollState (pl st) (with_shared (set_next_offsets (<[key := v]> (offsets_of st))) (pc st))).
Proof.
  intros Hnear Hv k. unfold offsets_of. simpl. rewrite lookup_insert. case_decide as E; [subst; by right|apply Hnear].
Qed.

(** A step on fields that neither the invariant nor the positions depend on. *)
Lemma near_same O st st' : near O st → offsets_of st' = offsets_of st → near O st'.
Proof. intros Hn Ho k. rewrite Ho. apply Hn. Qed.

Lemma process_records_ok O key row r st :
  poll_inv st → near O st → fetched_ok r → row_ok key (default 0 (O !! key)) row → has_records row →
  SAFE (process_records po key row r st) (row_post O).
Proof.
  intros Hinv Hnear Hr [Hrow _] Hhas. destruct (Hrow Hhas) as [Hv Hserved]. unfold process_records.
  apply safe_bind, still_lock_inside; [done|]. intros [] st1 Hinv1 Hoff. unfold to_shared, of_shared. safe_pure.
  split; [by destruct Hinv1|]. split; [by eapply near_same|].
  assert (offsets_of st1 !! key = O !! key) as Hkey by (rewrite Hoff; by destruct (Hnear key)).
  unfold fetched_ok, add_fetched. simpl.
  assert (Forall (entry_ok app_log) (rs_fetched (if 0 <=? pd_preferred_read_replica row
    then add_replica (key, Some (pd_preferred_read_replica row)) r else r))) as Hr' by (by case_match).
  destruct (process_partition_records _ _ key row) as [p|] eqn:Hp; [|done].
  apply Forall_app. split; [done|]. apply Forall_singleton.
  eapply (decode_entry_ok aborts) in Hp as (_ & _ & Hp); [exact Hp|done|apply Hindexes|].
  unfold offsets_of in Hkey. by rewrite Hkey.
Qed.

Lemma reset_out_of_range_ok O key r st :
  poll_inv st → near O st → fetched_ok r → ¬ valid key (default 0 (O !! key)) →
  SAFE (reset_out_of_range po key r st) (row_post O).
Proof.
  intros Hinv Hnear Hr Hv. unfold reset_out_of_range, to_shared, of_shared.
  case_match; safe_pure; (split; [|split; [|done]]); first [done|by apply (inv_offsets st (<[key := LATEST_SENTINEL]> (offsets_of st)))|by apply near_invalid].
Qed.

Lemma process_row_ok O key row r st :
  poll_inv st → near O st → fetched_ok r → row_ok key (default 0 (O !! key)) row →
  SAFE (process_row po key row r st) (row_post O).
Proof.
  intros Hinv Hnear Hr Hrow. unfold process_row.
  destruct (Z.leb_spec 0 (pd_diverging_end_offset row)) as [Hd|Hd].
  { assert (¬ valid key (default 0 (O !! key))) as Hv by (by apply Hrow; left).
    unfold of_shared, to_shared. safe_pure. unfold handle_truncation_in_poll.
    case_match eqn:Hp; [|by split]. destruct (po_auto_offset_reset po); simplify_eq; safe_pure;
      (split; [by apply inv_offsets|]; split; [by apply near_invalid|done]). }
  assert (fetched_ok (if clears_replica (classify_fetch_partition_error (pd_error_code row))
    then add_replica (key, None) r else r)) as Hr' by (by case_match).
  revert Hr'. generalize (if clears_replica (classify_fetch_partition_error (pd_error_code row))
    then add_replica (key, None) r else r). intros r' Hr'.
  destruct (classify_fetch_partition_error _) eqn:Hc; unfold to_shared, of_shared.
  - apply process_records_ok; try done. split; [done|].
    unfold classify_fetch_partition_error in Hc. by repeat case_match; simplify_eq; [apply Z.eqb_eq|..].
  - apply reset_out_of_range_ok; try done. apply Hrow. right.
    unfold classify_fetch_partition_error in Hc. repeat case_match; simplify_eq. by apply Z.eqb_eq.
  - safe_pure. apply still_lock_inside; [done|]. intros [] st1 Hinv1 Hoff. safe_pure.
    split; [by destruct Hinv1|]. split; [by eapply near_same|by case_match].
  - safe_pure. apply still_lock_inside; [done|]. intros [] st1 Hinv1 Hoff. safe_pure.
    case_match; unfold ask_update, to_common; safe_pure;
      (split; [by destruct Hinv1|]; split; [by eapply near_same|done]).
  - safe_pure. split; [done|]. by split.
  - safe_pure. by split.
Qed.

Lemma process_rows_ok O owned rows r st :
  poll_inv st → near O st → fetched_ok r → rows_ok O rows →
  SAFE (process_rows po owned rows r st) (row_post O).
Proof.
  revert r st. induction rows as [|[key row] rows IH]; intros r st Hinv Hnear Hr Hrows; [by split|].
  assert (rows_ok O rows) as Hrest by (intros k x Hk; apply Hrows; by right).
  cbn [process_rows]. case_bool_decide; [by apply IH|]. apply safe_attempt.
  eapply safe_mono, process_row_ok; [|done..|apply Hrows; left].
  intros [r'|e] st' [Hinv' H']; [|by split]. destruct H'. by apply IH.
Qed.

Lemma keeps_recover out_of_range : keeps (recover_out_of_range po out_of_range).
Proof. unfold recover_out_of_range. keeps_tac. Qed.
Hint Resolve keeps_recover : poll.

Lemma keeps_push r : fetched_ok r → keeps (to_local (λ l, set_buffer (pl_buffer l ++ rs_fetched r) l)).
Proof.
  intros Hr st Q [H1 H2 H3 H4 H5] HQ. apply HQ. split; simpl; try done. by apply Forall_app.
Qed.

Lemma process_fetch_responses_ok responses ids st :
  poll_inv st → rows_ok (offsets_of st) (response_rows (id_to_name (visit_topics ids)) responses) →
  SAFE (process_fetch_responses po responses ids st) (λ _, poll_inv).
Proof.
  intros Hinv Hrows. unfold process_fetch_responses, of_shared.
  apply safe_bind, still_lock; [done|]. intros [] st1 Hinv1 Hoff1. safe_pure.
  apply still_lock; [done|]. intros [] st2 Hinv2 Hoff2. safe_pure.
  rewrite <- Hoff1, <- Hoff2 in Hrows. eapply safe_mono, process_rows_ok; [|done|intros k; by left|constructor|exact Hrows].
  intros [r|e] st3 [Hinv3 H3]; [|done]. destruct H3 as [_ Hr].
  match goal with |- SAFE (?m st3) ?Q => assert (keeps m) as Hm end.
  { pose proof (keeps_push r Hr). keeps_tac. }
  by apply Hm.
Qed.

(** ** The records of a poll *)

Definition delivered (records : list ConsumerRecord) (st : PollState) : Prop :=
  ∃ offsets, delivers app_log offsets (offsets_of st) records ∧ (length records ≤ po_max_poll_records po)%nat.

Lemma delivered_nil st : delivered [] st.
Proof. exists (offsets_of st). split; [apply delivers_nil|simpl; lia]. Qed.

Lemma drain_ok_poll st (Q : _ → _ → Prop) :
  poll_inv st → (∀ records st', poll_inv st' → delivered records st' → Q records st') →
  SAFE (drain_fetch_buffer po st) Q.
Proof.
  intros Hinv HQ. unfold drain_fetch_buffer, of_shared, to_shared, to_local.
  apply safe_bind, keeps_lock; [done|]. clear st Hinv. intros [] st Hinv. safe_pure.
  apply keeps_paused_now; [done|]. clear st Hinv. intros paused st Hinv. safe_pure.
  apply keeps_lock; [done|]. clear st Hinv. intros [] st Hinv. safe_pure.
  apply keeps_lock; [done|]. intros [] st1 Hinv1. safe_pure.
  apply keeps_lock_inside; [done|]. intros [] st2 Hinv2. safe_pure.
  set (d := drain _ _ _ _ _ _).
  assert (drain_ok app_log (po_max_poll_records po) (list_to_set (sh_assigned (pc_shared (pc st)))) paused (offsets_of st2) [] d)
    as [D1 (new & D2 & D3) D4 _].
  { apply drain_loop_ok; [intros k; by apply log_of_sorted|intros k r; by apply log_of_tp|by apply Hinv2|constructor]. }
  apply HQ.
  - destruct Hinv2 as [H1 H2 H3 H4 H5]. by split; simpl.
  - exists (offsets_of st2). rewrite D2 in *. split; [done|]. apply D4. simpl. lia.
Qed.

Definition poll_post (r : result consumer_error (list ConsumerRecord)) (st : PollState) : Prop :=
  poll_inv st ∧ match r with Ok records => delivered records st | Err _ => True end.

Lemma or_wakeup_ok {A} (m : async A) next st :
  keeps m → poll_inv st → (∀ a st', poll_inv st' → SAFE (next a st') poll_post) →
  SAFE (or_wakeup m next st) poll_post.
Proof.
  intros Hm Hinv Hn. unfold or_wakeup. apply safe_bind. apply (keeps_unless Woken); [done|done|].
  intros [a|a] st' Hinv'; [by split|by apply Hn].
Qed.

Lemma poll_fetches_ok deadline st : poll_inv st → SAFE (poll_fetches po fuel deadline st) poll_post.
Proof.
  intros Hinv. unfold poll_fetches, of_shared. apply safe_bind, keeps_lock; [done|].
  clear st Hinv. intros [] st Hinv. safe_pure. generalize (sh_assigned (pc_shared (pc st))). intros assigned.
  case_bool_decide.
  { apply or_wakeup_ok; [apply (keeps_wait (SleepUntilP deadline))|done|].
    intros _ st' Hinv'. split; [done|apply delivered_nil]. }
  apply safe_bind, keeps_group_fetches; [done|]. clear st Hinv. intros by_leader st Hinv. safe_pure.
  apply keeps_lock; [done|]. clear st Hinv. intros [] st Hinv. safe_pure.
  pose proof (pi_names _ Hinv) as Hids. revert Hids. generalize (sh_topic_ids (pc_shared (pc st))). intros ids Hids.
  apply keeps_send_fetches; [done|]. clear st Hinv. intros [] st Hinv. safe_pure.
  apply keeps_collect; [done|]. clear st Hinv. intros [] st Hinv. safe_pure. case_match.
  { apply or_wakeup_ok; [apply keeps_wait_without|done|].
    intros _ st' Hinv'. split; [done|apply delivered_nil]. }
  apply or_wakeup_ok; [apply keeps_wait_for_fetches|done|]. clear st Hinv H H0. intros _ st Hinv. safe_pure.
  apply take_completed_fetches_ok; [done|done|by intros e st' Hinv'; split|]. clear st Hinv.
  intros responses st Hinv Hrows. safe_pure.
  eapply safe_mono, process_fetch_responses_ok; [|done|done]. clear st Hinv Hrows.
  intros [[]|e] st Hinv; [|by split]. safe_pure. apply drain_ok_poll; [done|]. intros records st' Hinv' Hd. by split.
Qed.

Lemma poll_ok timeout st : poll_inv st → SAFE (poll po fuel timeout st) poll_post.
Proof.
  intros Hinv. unfold poll, now, of_shared, to_common. safe_pure.
  generalize (sh_now (pc_shared (pc st)) + Z.max 0 timeout * 1000000). intros deadline. case_match; [by split|]. safe_pure.
  set (st' := mkPollState _ _). assert (poll_inv st') as Hinv' by (destruct Hinv; by split).
  clearbody st'. case_match; [by split|]. safe_pure. apply keeps_prepare; [done|].
  clear dependent st. intros [prepared|e] st Hinv; [|by split]. destruct prepared; cbn [negb];
    [|split; [done|apply delivered_nil]]. safe_pure.
  apply keeps_wait_for_rebalance; [done|]. clear st Hinv. intros [joined|e] st Hinv; [|by split].
  destruct joined; cbn [negb]; [|split; [done|apply delivered_nil]]. safe_pure.
  apply drain_ok_poll; [done|]. clear st Hinv. intros records st Hinv Hd. case_bool_decide; [by apply poll_fetches_ok|by split].
Qed.

(** ** Seeks and positions *)

Lemma keeps_seek key offset epoch : keeps (seek_to_position key offset epoch).
Proof. unfold seek_to_position. keeps_tac. Qed.

Lemma keeps_offset_reset partitions sentinel : keeps (request_offset_reset partitions sentinel).
Proof. unfold request_offset_reset. keeps_tac. Qed.

Lemma keeps_close timeout : keeps (close_fetch_sessions po timeout).
Proof. unfold close_fetch_sessions. keeps_tac. Qed.

Lemma keeps_valid_position key : keeps (valid_position key).
Proof. unfold valid_position. keeps_tac. Qed.

(** What [position] answers is a position that can be fetched from. *)
Definition position_post (key : topic_partition) (r : result consumer_error Z) (st : PollState) : Prop :=
  poll_inv st ∧ match r with Ok offset => valid_offset (pc_shared (pc st)) key = Some offset | Err _ => True end.

Lemma position_rounds_ok n key deadline st :
  poll_inv st → SAFE (position_rounds po n key deadline st) (position_post key).
Proof.
  revert st. induction n as [|n IH]; intros st Hinv; [done|]. cbn [position_rounds]. unfold of_shared.
  apply safe_bind, keeps_lock; [done|]. clear st Hinv. intros [] st Hinv. safe_pure. case_bool_decide; [by split|].
  unfold valid_position, of_shared. safe_pure. apply keeps_lock; [done|]. clear dependent st. intros [] st Hinv. safe_pure.
  apply keeps_lock_inside; [done|]. clear st Hinv. intros [] st Hinv. safe_pure.
  destruct (valid_offset (pc_shared (pc st)) key) as [offset|] eqn:Hv; [by split|]. clear Hv.
  match goal with |- SAFE (?m st) _ => assert (∀ st, poll_inv st → SAFE (m st) (position_post key)) as H; [|by apply H] end.
  clear st Hinv. intros st Hinv. safe_pure. apply keeps_update_positions; [done|]. clear st Hinv.
  intros [b|e] st Hinv; [|by split]. safe_pure. apply keeps_lock; [done|]. clear st Hinv. intros [] st Hinv. safe_pure.
  apply keeps_lock_inside; [done|]. clear st Hinv. intros [] st Hinv. safe_pure.
  match goal with |- SAFE (?m st) _ => assert (keeps m) as Hm by keeps_tac end. apply Hm; [done|].
  intros [] st' Hinv'. by apply IH.
Qed.

Lemma position_ok key st : poll_inv st → SAFE (position po fuel key st) (position_post key).
Proof.
  intros Hinv. unfold position, now, of_shared. safe_pure.
  match goal with |- SAFE (unless ?r ?m st) _ => apply (safe_unless (W := poll_world) _ _ _ r m st) end.
  - intros [] st' c Hinv' HE. split; [|done]. by eapply inv_resume.
  - eapply safe_mono, position_rounds_ok; [|done]. done.
Qed.
End proofs.
