(* ===== verification/PollTheorems.v ===== *)
(** * What a poll guarantees

    The theorems about [Consumer::poll]: the records that it returns are those
    of the logs, the fetches that it sends are exactly the ones it may send,
    and two runs in which the positions go wrong. *)

From S2P Require Import Prelude Bytes Errors ConsumerErrors Assignor GroupAssign FetchSession FetchBuffer FetchDecode.
From S2P Require Import OffsetWire Commit Subscription ConsumerProtocol GroupIo GroupNet GroupHeartbeat.
From S2P Require Import PollFetch Async Poll PollProofs.

(** ** Delivery *)

(** C6: a [poll] returns records of the logs, in order and without a gap. Take
    any run of [poll] in which the brokers serve their logs and the coordinator
    task and the application's callbacks do anything at each await, except that
    the positions stay while [poll] takes a lock or reconnects: no rebalance
    moves a position between the check of an answer and its use. Then every
    state that another task can see, and the state at the end, keeps the buffer
    made of slices of the logs; and whenever [poll] succeeds, it returns at
    most [max_poll_records] records, which for each partition are exactly the
    readable records between the position it was drained from and the position
    that it leaves, so that what the next poll or a commit goes on from is the
    record after the last one returned. *)
Theorem poll_returns_log {GA : GroupApi} po fuel aborts logs indexes real valid timeout st :
  (∀ k, log_ok (logs k)) → (∀ k, index_ok aborts (logs k) (indexes k)) →
  poll_inv po aborts logs indexes real valid st →
  let E := poll_env po logs indexes real valid in
  (∀ st', seen E (poll po fuel timeout st) st' → poll_inv po aborts logs indexes real valid st') ∧
  ∀ r st', results E (poll po fuel timeout st) r st' →
    poll_inv po aborts logs indexes real valid st' ∧
    match r with
    | Ok records => ∃ offsets,
        delivers (log_of aborts (is_read_committed (fg_isolation_level (po_fetch po))) logs)
          offsets (sh_next_offsets (pc_shared (pc st'))) records ∧
        (length records ≤ po_max_poll_records po)%nat
    | Err _ => True
    end.
Proof.
  intros Hlogs Hindexes Hinv E.
  pose proof (poll_ok po fuel aborts logs indexes real valid Hlogs Hindexes timeout st Hinv) as Hs. split.
  - intros st' Hseen. by eapply safe_seen.
  - intros r st' Hr. by apply (safe_results _ _ _ _ _ _ _ Hs Hr).
Qed.

(** ** A consumer of one partition *)

Module DemoPoll.
Import Init.Byte.

Definition codec : ProtocolCodec := {|
  encode_sub _ _ := Ok [];
  decode_sub _ _ := None;
  encode_asg _ _ := Ok [];
  decode_asg _ _ := None;
|}.

#[local] Instance api : GroupApi := {|
  Uuid := unit;
  Uuid_zero := ();
  group_codec := codec;
  visit_set X := elements X;
  visit_set_perm X := reflexivity _;
  visit_topics A m := map_to_list m;
  visit_topics_perm A m := reflexivity _;
  visit_partitions A m := map_to_list m;
  visit_partitions_perm A m := reflexivity _;
|}.

Definition key : topic_partition := ("t", 0).

Definition config (max : nat) : PollConfig :=
  mkPollConfig "g" None (mkFetchConfig 500 ReadCommitted 1 1000 1000 "") Earliest Cooperative max 1000000 100 1000 false.

Definition shared (offset : Z) : Shared :=
  mkShared 1 (mkIdentity 1 "m" {[ key := 0 ]} false) "m" 1 (mkSub ["t"] None None true 0 0 false) 0 [key]
    {[ key := offset ]} ∅ {[ key := mkPosition (-1) 1 0 false ]} ∅ None None 0 false ∅ DefaultOperation [] 0.

Definition response (row : PartitionData) : FetchResponse := mkFetched 0 0 0 [mkFetchableTopic "t" () [row]].

(** A Fetch from [offset] is in flight at broker 1, and its answer is there. *)
Definition start (offset : Z) (r : fetch_result) : PollState :=
  mkPollState
    (mkPollLocal [] (mkFetches ∅ {[ 1 := mkInFlight {[ key := offset ]} ∅ ]} [] ∅) ∅ [] [] [])
    (mkPollCommon (shared offset) {[ 1 := Some r ]} [] false (mkMetadataTopics ["t"] (Some 0) false) {[ 1 ]} false 0).

(** Other tasks do nothing, and the brokers do not answer. *)
Definition no_answer (r : PollRequest) : poll_answer r :=
  match r return poll_answer r with
  | NextListenerCall => None
  | RunListener _ _ => Ok ()
  | RefreshMetadata => Err (ClientError.Server 0)
  | ListOffsetsAt _ _ => Err (ClientError.Server 0)
  | OffsetForLeaderEpoch _ _ _ _ => Err (ClientError.Server 0)
  | FetchCommitted _ _ => Err ConsumerError.NotSubscribed
  | _ => tt
  end.

Definition alone (r : PollRequest) (st : PollState) : poll_answer r * PollCommon := (no_answer r, pc st).

Definition poll_alone (st : PollState) : proc (result consumer_error (list ConsumerRecord)) :=
  play (W := poll_world) alone (λ _, false) 100 (poll (config 10) 5 1000 st).

(** The offsets of the records that a poll returned, and the positions after it. *)
Definition summary (m : proc (result consumer_error (list ConsumerRecord))) : option (list Z * list (topic_partition * Z)) :=
  match m with
  | Ret (Ok records) st => Some (cr_offset <$> records, map_to_list (sh_next_offsets (pc_shared (pc st))))
  | _ => None
  end.

Definition logs (k : topic_partition) : list RecordBatch := if decide (k = key) then DemoLog.log else [].
Definition indexes (k : topic_partition) : list AbortedTxn := if decide (k = key) then DemoLog.index else [].
Definition readable_from (k : topic_partition) (offset : Z) : Prop := 0 ≤ offset.
Definition inv : PollState → Prop := poll_inv (config 10) DemoLog.aborts logs indexes (λ _, "t") readable_from.
Definition E : env := poll_env (config 10) logs indexes (λ _, "t") readable_from.

Lemma logs_ok k : log_ok (logs k).
Proof. unfold logs. case_decide; [apply DemoLog.log_is_ok|]. split; constructor. Qed.

Lemma indexes_ok k : index_ok DemoLog.aborts (logs k) (indexes k).
Proof.
  unfold logs, indexes. case_decide; [apply DemoLog.index_is_ok|]. split.
  - intros e He. by apply elem_of_nil in He.
  - intros [|] b after Hl; discriminate Hl.
Qed.

Lemma start_inv : inv (start 1 (Ok (response DemoLog.row))).
Proof.
  split; simpl; [constructor|constructor|set_solver| |by intros name id Hid].
  intros leader f r [<- <-]%lookup_singleton_Some [_ <-]%lookup_singleton_Some. simpl.
  intros names t row offset _ ->%list_elem_of_singleton ->%list_elem_of_singleton. simpl.
  intros [_ <-]%lookup_singleton_Some. split.
  - intros _. split; [unfold readable_from; lia|]. exact DemoLog.row_is_served.
  - intros [H|H]; simpl in H; lia.
Qed.

Lemma alone_ok r st : inv st → E r st (alone r st).1 (alone r st).2.
Proof. intros [H1 H2 H3 H4 H5]. split; [by split|]. by destruct r. Qed.
End DemoPoll.

Section demo.
Import DemoPoll.
#[local] Existing Instance DemoPoll.api.

Lemma poll_returns_log_witness :
  ∃ records st', results E (poll (config 10) 5 1000 (start 1 (Ok (response DemoLog.row)))) (Ok records) st' ∧
    cr_offset <$> records = [2; 4] ∧ sh_next_offsets (pc_shared (pc st')) = {[ key := 7 ]} ∧
    ∃ offsets, delivers (log_of DemoLog.aborts true logs) offsets (sh_next_offsets (pc_shared (pc st'))) records.
Proof.
  destruct (poll_returns_log (config 10) 5 DemoLog.aborts logs indexes (λ _, "t") readable_from 1000
    (start 1 (Ok (response DemoLog.row))) logs_ok indexes_ok start_inv) as [_ Hr].
  assert (summary (poll_alone (start 1 (Ok (response DemoLog.row)))) = Some ([2; 4], [(key, 7)])) as Hsum
    by (vm_compute; reflexivity).
  destruct (poll_alone (start 1 (Ok (response DemoLog.row)))) as [[records|e] st'| |] eqn:Hp; [|discriminate Hsum..].
  exists records, st'.
  assert (results E (poll (config 10) 5 1000 (start 1 (Ok (response DemoLog.row)))) (Ok records) st') as Hres.
  { eapply play_results; [exact alone_ok| |].
    - apply (poll_ok (config 10) 5 DemoLog.aborts logs indexes (λ _, "t") readable_from logs_ok indexes_ok 1000 _ start_inv).
    - exact Hp. }
  split; [exact Hres|]. destruct (Hr _ _ Hres) as [_ (offsets & Hd & _)].
  injection Hsum as Hrec Hoff. split; [exact Hrec|]. split; [by apply map_to_list_inj; rewrite Hoff|].
  exists offsets. exact Hd.
Defined.
End demo.

(** ** The fetches that a poll sends *)

Section requests.
Context {GA : GroupApi}.
Notation FetchSpec := (Z * Z * Z * Z)%type.

Definition leader_for (cx : FetchContext) (preferred : gmap topic_partition (Z * Z)) (key : topic_partition) : Z :=
  (select_read_replica cx preferred key).1.1.

Definition spec_for (cx : FetchContext) (key : topic_partition) : FetchSpec :=
  let pos := position_of (fc_positions cx) key in
  (key.2, default 0 (fc_offsets cx !! key), leader_epoch pos, offset_epoch pos).

Definition in_topics (by_topic : gmap string (list FetchSpec)) (key : topic_partition) (spec : FetchSpec) : Prop :=
  ∃ specs, by_topic !! key.1 = Some specs ∧ spec ∈ specs ∧ spec.1.1.1 = key.2.

Definition in_group (g : gmap Z (gmap string (list FetchSpec))) (leader : Z) (key : topic_partition) (spec : FetchSpec)
    : Prop := ∃ by_topic, g !! leader = Some by_topic ∧ in_topics by_topic key spec.

Lemma push_spec_in g l t s leader key spec :
  in_group (push_spec l t s g) leader key spec ↔
  in_group g leader key spec ∨ (leader = l ∧ key.1 = t ∧ spec = s ∧ s.1.1.1 = key.2).
Proof.
  unfold push_spec, in_group, in_topics. destruct (decide (leader = l)) as [->|Hl].
  - setoid_rewrite lookup_insert_eq. destruct (decide (key.1 = t)) as [<-|Ht].
    + split.
      * intros (by_topic & [= <-] & specs & Hs & Hin & Hp). rewrite lookup_insert_eq in Hs. injection Hs as <-.
        apply elem_of_app in Hin as [Hin| ->%list_elem_of_singleton]; [|naive_solver]. left.
        destruct (g !! l) as [by_topic|] eqn:Hg; simpl in Hin; [|by rewrite lookup_empty in Hin; apply elem_of_nil in Hin].
        destruct (by_topic !! key.1) as [specs|] eqn:Hb; simpl in Hin; [eauto 10|by apply elem_of_nil in Hin].
      * intros [(by_topic & Hg & specs & Hb & Hin & Hp)|(_ & _ & -> & Hp)];
          (eexists; split; [done|]; eexists; split; [apply lookup_insert_eq|]).
        -- rewrite Hg. simpl. rewrite Hb. simpl. set_solver.
        -- set_solver.
    + split.
      * intros (by_topic & [= <-] & specs & Hs & Hin & Hp). rewrite lookup_insert_ne in Hs by done. left.
        destruct (g !! l) as [by_topic|] eqn:Hg; simpl in Hs; [eauto 10|by rewrite lookup_empty in Hs].
      * intros [(by_topic & Hg & specs & Hb & Hin & Hp)|(_ & ? & _)]; [|done].
        eexists; split; [done|]. exists specs. rewrite lookup_insert_ne by done. rewrite Hg. done.
  - setoid_rewrite lookup_insert_ne; [|done]. naive_solver.
Qed.

Lemma select_others cx preferred key k :
  k ≠ key → (select_read_replica cx preferred key).1.2 !! k = preferred !! k.
Proof.
  intros Hk. unfold select_read_replica. repeat case_match; simpl; try done; by rewrite lookup_delete_ne.
Qed.

Lemma select_same cx p p' key : p !! key = p' !! key → leader_for cx p key = leader_for cx p' key.
Proof. intros Hp. unfold leader_for, select_read_replica. rewrite Hp. by repeat case_match. Qed.

Lemma group_fetches_in cx f assigned leader key spec :
  NoDup assigned →
  in_group (gr_grouped (group_fetches cx f assigned)) leader key spec ↔
  key ∈ assigned ∧ fetchable cx key = true ∧ leader_for cx (fe_preferred_read_replicas f) key = leader ∧
  leader ∉ dom (fe_in_flight f) ∧ spec = spec_for cx key.
Proof.
  intros Hnd. unfold group_fetches. set (P := fe_preferred_read_replicas f). set (F := dom (fe_in_flight f)).
  assert (∀ acc, (∀ k, k ∈ assigned → gr_preferred acc !! k = P !! k) →
    in_group (gr_grouped (foldl (group_partition cx F) acc assigned)) leader key spec ↔
    in_group (gr_grouped acc) leader key spec ∨
    (key ∈ assigned ∧ fetchable cx key = true ∧ leader_for cx P key = leader ∧ leader ∉ F ∧ spec = spec_for cx key))
    as H.
  { induction Hnd as [|k l Hk Hnd IH]; intros acc Hacc; [set_solver|]. simpl. rewrite IH; clear IH.
    - assert (leader_for cx (gr_preferred acc) k = leader_for cx P k) as Hlead by (apply select_same, Hacc; left).
      unfold group_partition. destruct (fetchable cx k) eqn:Hf; simpl; [|rewrite elem_of_cons; split; [intros [?|[? ?]]; auto|intros [?|([->|?] & ? & ?)]; [auto|congruence|auto]]].
      unfold leader_for in Hlead at 1. destruct (select_read_replica cx (gr_preferred acc) k) as [[l0 p0] r0]. simpl in Hlead. subst l0.
      case_bool_decide; simpl.
      { rewrite elem_of_cons; split; [intros [?|[? ?]]; auto|intros [?|([->|?] & ? & <- & ? & ?)]; [by left|done|right; split_and!; done]]. } rewrite push_spec_in, elem_of_cons. split.
      + intros [[?|(-> & Ht & -> & Hp)]|(? & ? & ? & ? & ?)]; [by left| |by right; auto].
        assert (key = k) as -> by (destruct key, k; simpl in *; congruence). right. by auto.
      + intros [?|([->|?] & ? & <- & ? & ->)]; [by auto|left; right; done|right; done].
    - intros k' Hk'. unfold group_partition. destruct (fetchable cx k); simpl; [|apply Hacc; by right].
      destruct (select_read_replica cx (gr_preferred acc) k) as [[l0 p0] r0] eqn:Hs.
      assert (p0 !! k' = gr_preferred acc !! k') as Hp
        by (change p0 with ((l0, p0, r0).1.2); rewrite <- Hs; apply select_others; set_solver).
      case_bool_decide; simpl; rewrite Hp; apply Hacc; by right. }
  rewrite H by done. split; [|by right]. intros [(by_topic & Hb & _)|?]; [|done]. simpl in Hb. by rewrite (lookup_empty leader) in Hb.
Qed.

Lemma foldl_insert_elem {A} (l : list (topic_partition * A)) (m : gmap topic_partition A) k v :
  foldl (λ m e, <[e.1 := e.2]> m) m l !! k = Some v → (k, v) ∈ l ∨ m !! k = Some v.
Proof.
  revert m. induction l as [|[k' v'] l IH]; intros m; simpl; [by right|].
  intros [H|H]%IH; [left; by right|]. rewrite lookup_insert in H.
  case_decide; simplify_eq; [left; left|by right].
Qed.

Lemma foldl_insert_dom {A} (l : list (topic_partition * A)) (m : gmap topic_partition A) k :
  k ∈ l.*1 ∨ is_Some (m !! k) → is_Some (foldl (λ m e, <[e.1 := e.2]> m) m l !! k).
Proof.
  revert m. induction l as [|[k' v'] l IH]; intros m; simpl.
  { intros [H|H]; [by apply elem_of_nil in H|done]. }
  rewrite elem_of_cons. intros H. apply IH. rewrite lookup_insert. case_decide; [right; eauto|].
  destruct H as [[->|?]|?]; auto. done.
Qed.

Lemma wanted_lookup ids max by_topic key sp :
  (∀ s s', in_topics by_topic key s → in_topics by_topic key s' → s = s') →
  wanted_of ids max by_topic !! key = Some sp ↔
  ∃ spec, in_topics by_topic key spec ∧ sp = session_partition (default Uuid_zero (ids !! key.1)) spec max.
Proof.
  intros Hu. unfold wanted_of. set (l := map_to_list by_topic ≫= _).
  assert (∀ v, (key, v) ∈ l ↔
    ∃ spec, in_topics by_topic key spec ∧ v = session_partition (default Uuid_zero (ids !! key.1)) spec max) as Hl.
  { intros v. unfold l. rewrite list_elem_of_bind. split.
    - intros ([t specs] & Hin & Ht%elem_of_map_to_list). simpl in Hin.
      apply list_elem_of_fmap in Hin as (spec & [= -> ->] & Hs). exists spec. split; [|done]. by exists specs.
    - intros (spec & (specs & Ht & Hs & Hp) & ->). exists (key.1, specs). split; [|by apply elem_of_map_to_list].
      apply list_elem_of_fmap. exists spec. simpl. rewrite Hp. by destruct key. }
  split.
  - intros [H|H]%foldl_insert_elem; [by apply Hl|by rewrite lookup_empty in H].
  - intros (spec & Hs & ->).
    assert (is_Some (foldl (λ m e, <[e.1 := e.2]> m) (∅ : gmap topic_partition SessionPartition) l !! key)) as [v Hv].
    { apply foldl_insert_dom. left. apply list_elem_of_fmap. eexists (key, _). split; [done|]. apply Hl. eauto. }
    rewrite Hv. apply foldl_insert_elem in Hv as [Hv|Hv]; [|by rewrite lookup_empty in Hv].
    apply Hl in Hv as (spec' & Hs' & ->). by rewrite (Hu _ _ Hs Hs').
Qed.

(** One request per broker that has none in flight. *)
Lemma send_fetches_in fg ids by_leader f :
  let '(f', sent) := send_fetches fg ids by_leader f in
  (∀ leader, if_requested <$> fe_in_flight f' !! leader =
     match fe_in_flight f !! leader with
     | Some fl => Some (if_requested fl)
     | None => (λ by_topic, sp_fetch_offset <$> wanted_of ids (fg_partition_max fg) by_topic) <$> by_leader !! leader
     end) ∧
  sent.*1 = filter (λ leader, leader ∉ dom (fe_in_flight f)) (map_to_list by_leader).*1.
Proof.
  unfold send_fetches.
  assert (∀ l f0 sent0, NoDup l.*1 →
    let '(f', sent) := foldl (send_fetch fg ids) (f0, sent0) l in
    (∀ leader, if_requested <$> fe_in_flight f' !! leader =
       match fe_in_flight f0 !! leader with
       | Some fl => Some (if_requested fl)
       | None => (λ by_topic, sp_fetch_offset <$> wanted_of ids (fg_partition_max fg) by_topic) <$>
                   (list_to_map l : gmap Z _) !! leader
       end) ∧
    sent.*1 = sent0.*1 ++ filter (λ leader, leader ∉ dom (fe_in_flight f0)) l.*1) as H.
  { induction l as [|[leader by_topic] l IH]; intros f0 sent0 Hnd.
    { simpl. rewrite app_nil_r. split; [|done]. intros leader. by destruct (fe_in_flight f0 !! leader). }
    apply NoDup_cons in Hnd as [Hni Hnd]. cbn [foldl]. unfold send_fetch at 2. case_bool_decide as Hin.
    - specialize (IH f0 sent0 Hnd). destruct (foldl _ _ l) as [f' sent]. destruct IH as [IH1 IH2]. split.
      + intros leader'. rewrite IH1. destruct (fe_in_flight f0 !! leader') as [fl|] eqn:Hf; [done|]. simpl.
        rewrite lookup_insert_ne; [done|]. intros ->. apply elem_of_dom in Hin as [? ?]. congruence.
      + rewrite IH2. f_equal. simpl. rewrite filter_cons_False by tauto. done.
    - destruct (build _ _ _) as [session request].
      match goal with |- context [foldl _ (?f1, ?s1) l] => specialize (IH f1 s1 Hnd) end.
      destruct (foldl _ _ l) as [f' sent]. destruct IH as [IH1 IH2]. simpl in IH1, IH2. split.
      + intros leader'. rewrite IH1. simpl. destruct (decide (leader = leader')) as [<-|Hne].
        * rewrite !lookup_insert_eq. apply not_elem_of_dom in Hin. by rewrite Hin.
        * by rewrite !lookup_insert_ne.
      + rewrite IH2. simpl. rewrite filter_cons_True by done. rewrite fmap_app, <- (assoc_L (++)). simpl. do 2 f_equal.
        apply filter_ext_in. intros x Hx. rewrite dom_insert, elem_of_union, elem_of_singleton.
        split; [tauto|]. intros Hd [->|?]; done. }
  specialize (H (map_to_list by_leader) f [] (NoDup_fst_map_to_list _)). destruct (foldl _ _ _) as [f' sent].
  destruct H as [H1 H2]. split; [|done]. intros leader. by rewrite H1, list_to_map_to_list.
Qed.
(** No broker is named without a partition. *)
Lemma group_fetches_nonempty cx f assigned leader by_topic :
  gr_grouped (group_fetches cx f assigned) !! leader = Some by_topic → ∃ key spec, in_topics by_topic key spec.
Proof.
  unfold group_fetches. set (P := λ g : gmap Z (gmap string (list FetchSpec)),
    ∀ leader by_topic, g !! leader = Some by_topic → ∃ key spec, in_topics by_topic key spec).
  assert (∀ acc, P (gr_grouped acc) →
    P (gr_grouped (foldl (group_partition cx (dom (fe_in_flight f))) acc assigned))) as H; [|apply H].
  2:{ intros l b Hb. simpl in Hb. by rewrite (lookup_empty l) in Hb. }
  induction assigned as [|k ks IH]; intros acc Hacc; [done|]. simpl. apply IH. clear IH.
  unfold group_partition. destruct (fetchable cx k); simpl; [|done].
  destruct (select_read_replica _ _ _) as [[l0 p0] r0]. case_bool_decide; simpl; [done|].
  intros l b. unfold push_spec. rewrite lookup_insert. case_decide as E; [|apply Hacc].
  intros [= <-]. exists k, (spec_for cx k). eexists. split; [apply lookup_insert_eq|]. split; [|done].
  apply elem_of_app. right. by apply list_elem_of_singleton.
Qed.
End requests.

(** The state after [group_fetches] and [send_fetches], in terms of the checks
    of the code. *)
Lemma fetches_computed {GA : GroupApi} fg ids cx f assigned :
  NoDup assigned →
  let g := group_fetches cx f assigned in
  let s := send_fetches fg ids (gr_grouped g) (set_preferred (gr_preferred g) f) in
  (∀ leader key offset,
    (requested ← if_requested <$> fe_in_flight s.1 !! leader; requested !! key) = Some offset ↔
    (requested ← if_requested <$> fe_in_flight f !! leader; requested !! key) = Some offset ∨
    (leader ∉ dom (fe_in_flight f) ∧ key ∈ assigned ∧ fetchable cx key = true ∧
     leader_for cx (fe_preferred_read_replicas f) key = leader ∧ offset = default 0 (fc_offsets cx !! key))) ∧
  NoDup s.2.*1 ∧
  ∀ leader, leader ∈ s.2.*1 ↔ leader ∉ dom (fe_in_flight f) ∧
    ∃ key, key ∈ assigned ∧ fetchable cx key = true ∧ leader_for cx (fe_preferred_read_replicas f) key = leader.
Proof.
  intros Hnd g s. pose proof (send_fetches_in fg ids (gr_grouped g) (set_preferred (gr_preferred g) f)) as Hs.
  fold s in Hs. destruct s as [f' sent]. destruct Hs as [Hf Hsent]. simpl in Hf, Hsent |- *.
  assert (∀ leader key spec, in_group (gr_grouped g) leader key spec ↔ _) as Hg
    by (intros; by apply group_fetches_in).
  split_and!.
  - intros leader key offset. rewrite Hf.
    destruct (fe_in_flight f !! leader) as [fl|] eqn:Hfl; simpl.
    { split; [by left|]. intros [?|(Hn & _)]; [done|]. apply not_elem_of_dom in Hn. congruence. }
    apply not_elem_of_dom in Hfl.
    destruct (gr_grouped g !! leader) as [by_topic|] eqn:Hl; simpl.
    + assert (∀ spec, in_topics by_topic key spec ↔ in_group (gr_grouped g) leader key spec) as Hin.
      { intros spec. unfold in_group. rewrite Hl. naive_solver. }
      rewrite lookup_fmap, fmap_Some. split.
      * intros (sp & Hsp & ->). right. apply wanted_lookup in Hsp as (spec & Hspec & ->).
        -- apply Hin, Hg in Hspec as (? & ? & ? & ? & ->). done.
        -- intros s s' (_ & _ & _ & _ & ->)%Hin%Hg (_ & _ & _ & _ & ->)%Hin%Hg; done.
      * intros [?|(_ & Ha & Hfe & Hle & ->)]; [done|].
        exists (session_partition (default Uuid_zero (ids !! key.1)) (spec_for cx key) (fg_partition_max fg)).
        split; [|done]. apply wanted_lookup.
        -- intros s s' (_ & _ & _ & _ & ->)%Hin%Hg (_ & _ & _ & _ & ->)%Hin%Hg; done.
        -- exists (spec_for cx key). split; [|done]. apply Hin, Hg; done.
    + split; [done|]. intros [?|(_ & Ha & Hfe & Hle & _)]; [done|].
      assert (in_group (gr_grouped g) leader key (spec_for cx key)) as (by_topic & Hb & _) by (by apply Hg). congruence.
  - rewrite Hsent. apply NoDup_filter, NoDup_fst_map_to_list.
  - intros leader. rewrite Hsent, list_elem_of_filter. split; intros [Hn H]; (split; [done|]); revert H.
    + intros ([l by_topic] & -> & Hb%elem_of_map_to_list)%list_elem_of_fmap. simpl.
      destruct (group_fetches_nonempty cx f assigned l by_topic Hb) as (key & spec & Hin).
      assert (in_group (gr_grouped g) l key spec) as (? & ? & ? & _)%Hg by (by exists by_topic). eauto.
    + intros (key & Ha & Hfe & Hle). apply list_elem_of_fmap.
      assert (in_group (gr_grouped g) leader key (spec_for cx key)) as (by_topic & Hb & _) by (by apply Hg).
      exists (leader, by_topic). split; [done|]. by apply elem_of_map_to_list.
Qed.

(** A partition that may be fetched: no callback is due for it, the consumer
    subscribes to its topic or has taken it by hand or by a pattern, its position
    is validated and is not one of the five largest offsets, which stand for a
    pending reset, and it is neither paused nor has records in the buffer. *)
Record may_fetch (cx : FetchContext) (key : topic_partition) : Prop := {
  mf_callback : key ∉ fc_awaiting_callback cx;
  mf_subscribed : su_manual_assignment (fc_subscription cx) = true ∨ su_pattern (fc_subscription cx) ≠ None ∨
                  su_regex (fc_subscription cx) ≠ None ∨ key.1 ∈ su_topics (fc_subscription cx);
  mf_validated pos : fc_positions cx !! key = Some pos → awaiting_validation pos = false;
  mf_position offset : fc_offsets cx !! key = Some offset → offset < 2 ^ 63 - 5;
  mf_paused : key ∉ fc_paused cx;
  mf_buffered : key ∉ fc_buffered cx;
}.

(** The preferred replica of a partition, while it is not expired and known. *)
Definition usable_replica (cx : FetchContext) (preferred : gmap topic_partition (Z * Z)) (key : topic_partition)
    (replica : Z) : Prop :=
  ∃ expires, preferred !! key = Some (replica, expires) ∧ fc_now cx ≤ expires ∧ replica ∈ fc_known_brokers cx.

(** The leader of a partition, when its position names a broker that is known. *)
Definition known_leader (cx : FetchContext) (key : topic_partition) (leader : Z) : Prop :=
  ∃ pos, fc_positions cx !! key = Some pos ∧ leader_id pos = leader ∧ 0 ≤ leader ∧ leader ∈ fc_known_brokers cx.

(** Where a partition is fetched from; [-1] stands for the bootstrap broker. *)
Definition read_from (cx : FetchContext) (preferred : gmap topic_partition (Z * Z)) (key : topic_partition)
    (broker : Z) : Prop :=
  usable_replica cx preferred key broker ∨
  (∀ replica, ¬ usable_replica cx preferred key replica) ∧
  (known_leader cx key broker ∨ (∀ leader, ¬ known_leader cx key leader) ∧ broker = -1).

Lemma fetchable_iff cx key : fetchable cx key = true ↔ may_fetch cx key.
Proof.
  unfold fetchable, subscribes_to, contains, position_of, is_reset_sentinel, NO_OFFSET_SENTINEL, i64_max.
  rewrite !andb_true_iff, !orb_true_iff, !negb_true_iff, orb_false_iff, !bool_decide_eq_true, !bool_decide_eq_false, Z.leb_gt.
  split.
  - intros ((((H1 & H2) & H3) & H4) & H5 & H6). split; [done| | | |done|done].
    + destruct H2 as [[[?|[? ?]]|[? ?]]|?]; auto; right; [left|right; left]; congruence.
    + intros pos Hp. by rewrite Hp in H3.
    + intros offset Ho. rewrite Ho in H4. simpl in H4. lia.
  - intros [H1 H2 H3 H4 H5 H6]. split_and!; [done| | | |done|done].
    + rewrite <- !not_eq_None_Some. tauto.
    + destruct (fc_positions cx !! key) as [pos|]; [|done]. by apply H3.
    + destruct (fc_offsets cx !! key) as [offset|]; simpl; [specialize (H4 _ eq_refl)|]; lia.
Qed.

Lemma leader_for_iff cx preferred key broker :
  leader_for cx preferred key = broker ↔ read_from cx preferred key broker.
Proof.
  set (leader := fetch_leader_id (leader_id (position_of (fc_positions cx) key))
                   (bool_decide (leader_id (position_of (fc_positions cx) key) ∈ fc_known_brokers cx))).
  assert (∀ b, leader = b ↔ known_leader cx key b ∨ (∀ l, ¬ known_leader cx key l) ∧ b = -1) as Hlead.
  { intros b. unfold leader, fetch_leader_id, known_leader, position_of.
    destruct (fc_positions cx !! key) as [pos|]; simpl.
    - case_bool_decide as Hk; destruct (Z.leb_spec 0 (leader_id pos)); simpl; split; intros Hb; try (unfold BOOTSTRAP_LEADER in *);
        first [by left; exists pos; subst|right; split; [intros l (p & ? & ? & ? & ?); simplify_eq; lia || done|done]
              |destruct Hb as [(p & ? & ? & ? & ?)|[Hn ->]]; simplify_eq; [lia || done|try done; exfalso; by apply (Hn (leader_id pos)); exists pos]].
    - rewrite andb_false_l || idtac. split; [intros <-; right; split; [by intros l (p & ? & _)|done]|].
      by intros [(p & ? & _)|[_ ->]]. }
  unfold leader_for, select_read_replica, read_from. fold leader.
  destruct (preferred !! key) as [[replica expires]|] eqn:Hp.
  - assert (∀ r, usable_replica cx preferred key r ↔ r = replica ∧ fc_now cx ≤ expires ∧ replica ∈ fc_known_brokers cx) as Hu.
    { intros r. unfold usable_replica. rewrite Hp. naive_solver. }
    setoid_rewrite Hu. destruct (Z.ltb_spec expires (fc_now cx)); [|case_bool_decide]; simpl; rewrite ?Hlead.
    + split; [right; split; [|done]; naive_solver lia|]. intros [[_ [? _]]|[_ ?]]; [lia|done].
    + split; [intros <-; by left|]. intros [[-> _]|[Hn _]]; [done|]. exfalso. by apply (Hn replica).
    + split; [right; split; [|done]; naive_solver|]. intros [[_ [_ ?]]|[_ ?]]; done.
  - assert (∀ r, ¬ usable_replica cx preferred key r) as Hu by (intros r (e & He & _); congruence).
    simpl. rewrite Hlead. split; [by right|]. intros [?|[_ ?]]; [exfalso; by eapply Hu|done].
Qed.

(** C15: a poll fetches exactly what it may fetch. After [group_fetches] and
    [send_fetches] over the assigned partitions, a broker has a request in
    flight for a partition exactly when it had it before, or when the broker
    had no request in flight, the partition is assigned, is owned with its
    callback done, is subscribed, has a position that is validated and not a
    pending reset, is neither paused nor has records in the buffer, and the
    broker is the partition's preferred replica while that is known and not
    expired, or else its leader when that is a known broker, and the bootstrap
    broker otherwise; the request then asks from the position. Each broker gets
    at most one request, and a request that asks for nothing is not sent. *)
Theorem fetches_exact {GA : GroupApi} fg ids cx f assigned :
  NoDup assigned →
  let g := group_fetches cx f assigned in
  let s := send_fetches fg ids (gr_grouped g) (set_preferred (gr_preferred g) f) in
  (∀ broker key offset,
    (requested ← if_requested <$> fe_in_flight s.1 !! broker; requested !! key) = Some offset ↔
    (requested ← if_requested <$> fe_in_flight f !! broker; requested !! key) = Some offset ∨
    (broker ∉ dom (fe_in_flight f) ∧ key ∈ assigned ∧ may_fetch cx key ∧
     read_from cx (fe_preferred_read_replicas f) key broker ∧ offset = default 0 (fc_offsets cx !! key))) ∧
  NoDup s.2.*1 ∧
  ∀ broker, broker ∈ s.2.*1 ↔ broker ∉ dom (fe_in_flight f) ∧
    ∃ key, key ∈ assigned ∧ may_fetch cx key ∧ read_from cx (fe_preferred_read_replicas f) key broker.
Proof.
  intros Hnd g s. destruct (fetches_computed fg ids cx f assigned Hnd) as (H1 & H2 & H3). split_and!; [|done|].
  - intros broker key offset. rewrite <- fetchable_iff, <- leader_for_iff. apply H1.
  - intros broker. setoid_rewrite <- fetchable_iff. setoid_rewrite <- leader_for_iff. apply H3.
Qed.

(** ** A position of a lost epoch *)

Section truncation.
Context {GA : GroupApi} (po : PollConfig) (key : topic_partition).

(** What the leader's log has: for an epoch, the largest epoch up to it and
    where that epoch ends; and the rows it serves otherwise. *)
Context (end_of : Z → Z * Z) (serve : Z → PartitionData).

Definition diverging_row (end_offset : Z) : PartitionData :=
  mkPartitionData key.2 0 (-1) (-1) end_offset (-1) (-1) (-1) None None.

(** The answer to a Fetch from [offset] with [last_fetched_epoch]: diverging
    when the log has no such epoch or the epoch ends before the offset. *)
Definition leader_row (offset last_fetched_epoch : Z) : PartitionData :=
  let '(epoch, end_offset) := end_of last_fetched_epoch in
  if (epoch <? last_fetched_epoch) || (end_offset <? offset) then diverging_row end_offset else serve offset.

Definition context_of (st : PollState) : FetchContext :=
  let s := pc_shared (pc st) in
  mkFetchContext (sh_subscription s) (sh_callback_pending s) ∅ (buffered_partitions (pl_buffer (pl st)))
    (sh_next_offsets s) (sh_positions s) (pc_known_brokers (pc st)) (sh_now s).

(** A Fetch of the partition as [group_fetches] asks for it, and its row. *)
Definition fetch_round (st : PollState) : option PollState :=
  let '(_, offset, _, last_fetched_epoch) := spec_for (context_of st) key in
  match process_row po key (leader_row offset last_fetched_epoch) RowState_default st with
  | Ret (Ok _) st' => Some st'
  | _ => None
  end.

Fixpoint fetch_rounds (n : nat) (st : PollState) : option PollState :=
  match n with O => Some st | S n => fetch_round st ≫= fetch_rounds n end.
End truncation.

(** a truncated position is never readable again. When the leader's log has
    no batch of the epoch of a position, after an unclean election, it answers
    a Fetch with the diverging epoch and its end. The poll moves the position
    to that end but leaves its epoch, so after every number of fetches the
    next request asks from the same end with the same lost epoch, which the
    leader answers as diverging again: no record of the partition is ever
    read. A validation against the leader does not help: it also finds the
    same truncation and leaves the epoch. *)
Theorem lost_epoch_never_read {GA : GroupApi} po key end_of serve st pos n :
  po_auto_offset_reset po ≠ NoReset →
  sh_positions (pc_shared (pc st)) !! key = Some pos →
  (end_of (offset_epoch pos)).1 < offset_epoch pos → 0 ≤ (end_of (offset_epoch pos)).2 →
  let '(epoch, end_offset) := end_of (offset_epoch pos) in
  (∃ st', fetch_rounds po key end_of serve (S n) st = Some st' ∧ pl_buffer (pl st') = pl_buffer (pl st) ∧
    spec_for (context_of st') key = (key.2, end_offset, leader_epoch pos, offset_epoch pos)) ∧
  apply_epoch_answer pos (mkEpochEnd 0 epoch end_offset) end_offset (offset_epoch pos) (leader_epoch pos) =
    (mkPosition (offset_epoch pos) (leader_id pos) (leader_epoch pos) false, Some end_offset).
Proof.
  intros Hpolicy Hpos Hlost Hend. destruct (end_of (offset_epoch pos)) as [epoch end_offset] eqn:He. simpl in Hlost, Hend.
  assert (∀ st0, sh_positions (pc_shared (pc st0)) !! key = Some pos →
    fetch_round po key end_of serve st0 =
      Some (mkPollState (pl st0) (with_shared (set_next_offsets (<[key := end_offset]> (offsets_of st0))) (pc st0)))) as Hround.
  { intros st0 Hp. unfold fetch_round, spec_for, position_of. simpl. rewrite Hp. simpl.
    unfold leader_row. rewrite He. rewrite (proj2 (Z.ltb_lt _ _) Hlost). simpl.
    unfold process_row, handle_truncation_in_poll, of_shared, to_shared, mbind, async_bind, reads, writes. simpl.
    rewrite (proj2 (Z.leb_le _ _) Hend). by destruct (po_auto_offset_reset po). }
  split.
  - assert (∀ m st0, sh_positions (pc_shared (pc st0)) !! key = Some pos →
      ∃ st', fetch_rounds po key end_of serve (S m) st0 = Some st' ∧ pl_buffer (pl st') = pl_buffer (pl st0) ∧
        sh_positions (pc_shared (pc st')) !! key = Some pos ∧ offsets_of st' !! key = Some end_offset) as H.
    { induction m as [|m IH]; intros st0 Hp; cbn [fetch_rounds]; rewrite (Hround st0 Hp); simpl.
      - eexists. split; [done|]. split; [done|]. split; [done|]. apply lookup_insert_eq.
      - by apply (IH (mkPollState (pl st0) (with_shared (set_next_offsets (<[key := end_offset]> (offsets_of st0))) (pc st0)))). }
    destruct (H n st Hpos) as (st' & Hst' & Hb & Hp & Ho). exists st'. split; [done|]. split; [done|].
    unfold spec_for, position_of. simpl. rewrite Hp. unfold offsets_of in Ho. by rewrite Ho.
  - unfold apply_epoch_answer, should_skip_stale_response, response_still_current. rewrite Z.eqb_refl. simpl.
    unfold classify. rewrite (proj2 (Z.ltb_lt _ _) Hlost), (proj2 (Z.ltb_ge _ _) Hend). done.
Qed.

(** ** Runs of the consumer of one partition *)

Section runs.
Import DemoPoll.
#[local] Existing Instance DemoPoll.api.

(** The position 100 of epoch 5; the new leader's log has epoch 4 up to 90. *)
Definition lost_epoch_start : PollState :=
  let st := start 100 (Err ClientError.Disconnected) in
  mkPollState (pl st) (with_shared (set_positions {[ key := mkPosition 5 1 6 false ]}) (pc st)).

Lemma lost_epoch_never_read_witness :
  ∃ st', fetch_rounds (config 10) key (λ _, (4, 90)) (λ _, DemoLog.row) 3 lost_epoch_start = Some st' ∧
    spec_for (context_of st') key = (0, 90, 6, 5).
Proof.
  destruct (lost_epoch_never_read (config 10) key (λ _, (4, 90)) (λ _, DemoLog.row) lost_epoch_start
    (mkPosition 5 1 6 false) 2) as [(st' & Hst' & _ & Hspec) _]; [discriminate|reflexivity|simpl; lia|simpl; lia|].
  exists st'. split; [exact Hst'|exact Hspec].
Defined.

(** Two partitions at brokers 1 and 2, and one that is paused. *)
Definition demo_context : FetchContext :=
  mkFetchContext (mkSub ["t"] None None true 0 0 false) ∅ {[ ("t", 1) ]} ∅
    {[ ("t", 0) := 5; ("t", 1) := 6; ("t", 2) := 7 ]}
    {[ ("t", 0) := mkPosition 0 1 0 false; ("t", 1) := mkPosition 0 1 0 false; ("t", 2) := mkPosition 0 2 0 false ]}
    {[ 1; 2 ]} 0.
Definition demo_fetches : Fetches :=
  mkFetches ∅ {[ 2 := mkInFlight {[ ("t", 2) := 7 ]} ∅ ]} [] ∅.

Lemma demo_may_fetch : may_fetch demo_context ("t", 0) ∧ read_from demo_context ∅ ("t", 0) 1.
Proof. split; [by apply fetchable_iff|by apply leader_for_iff]. Qed.

Lemma fetches_exact_witness :
  let assigned := [("t", 0); ("t", 1); ("t", 2)] in
  let g := group_fetches demo_context demo_fetches assigned in
  let s := send_fetches (po_fetch (config 10)) ∅ (gr_grouped g) (set_preferred (gr_preferred g) demo_fetches) in
  1 ∈ s.2.*1 ∧ 2 ∉ s.2.*1 ∧
  (requested ← if_requested <$> fe_in_flight s.1 !! 1; requested !! ("t", 0)) = Some 5 ∧
  (requested ← if_requested <$> fe_in_flight s.1 !! 1; requested !! ("t", 1)) ≠ Some 6.
Proof.
  intros assigned g s.
  assert (NoDup assigned) as Hnd by (apply (bool_decide_unpack (NoDup assigned)); vm_compute; exact I).
  pose proof (fetches_exact (po_fetch (config 10)) ∅ demo_context demo_fetches assigned Hnd) as H.
  cbv zeta in H. fold g in H. fold s in H. clearbody s. destruct H as (H1 & _ & H2).
  assert (1 ∉ dom (fe_in_flight demo_fetches)) as Hn by (vm_compute; intros H; inversion H; congruence).
  destruct demo_may_fetch as [Hm Hb].
  split; [|split; [|split]].
  - apply H2. split; [exact Hn|]. exists ("t", 0). split; [left|]. split; [exact Hm|exact Hb].
  - rewrite H2. intros [Hd _]. apply Hd, elem_of_dom. vm_compute. eauto.
  - apply H1. right. split; [exact Hn|]. split; [left|]. split; [exact Hm|]. split; [exact Hb|reflexivity].
  - rewrite H1. intros [H|(_ & _ & H & _)]; [vm_compute in H; discriminate|].
    apply (mf_paused _ _ H). vm_compute. reflexivity.
Defined.

(** During the reconnect to the bootstrap broker the coordinator task loses the
    partition and gets it back at its committed position 0. *)
Definition lost_and_back (r : PollRequest) (st : PollState) : poll_answer r * PollCommon :=
  (no_answer r,
   match r with
   | Reconnect => with_shared (set_next_offsets {[ key := 0 ]}) (pc st)
   | _ => pc st
   end).

(** The Fetch to the bootstrap broker failed; broker 1 answered from 4. *)
Definition two_answers : PollState :=
  let st := start 4 (Ok (response (mkPartitionData 0 0 7 7 (-1) (-1) (-1) (-1) (Some []) (Some (drop 3 DemoLog.log))))) in
  mkPollState
    (set_fetches (set_in_flight {[ 1 := mkInFlight {[ key := 4 ]} ∅; BOOTSTRAP_LEADER := mkInFlight ∅ ∅ ]}
       (pl_fetches (pl st))) (pl st))
    (set_results (<[BOOTSTRAP_LEADER := Some (Err ClientError.Disconnected)]> (pc_results (pc st))) (pc st)).

(** a rebalance between the check of an answer and its use skips records.
    [take_completed_fetches] drops the rows whose partition has moved since the
    request, and then waits for a reconnect; [process_fetch_responses] decodes
    the rows against the positions of that later time. Broker 1 answered a
    Fetch from 4, and during the reconnect the partition is lost and comes back
    at its committed position 0. The poll then returns the record at 4 alone
    and moves the position to 7, although the application may read the record
    at 2 and was never given it. *)
Theorem moved_position_skips_records :
  summary (play (W := poll_world) lost_and_back (λ _, false) 100 (poll (config 10) 5 1000 two_answers)) =
    Some ([4], [(key, 7)]) ∧
  cr_offset <$> log_of DemoLog.aborts true logs key = [2; 4].
Proof. split; vm_compute; reflexivity. Qed.
End runs.
