(* ===== verification/Queries.v ===== *)
(** * Queries of offsets and topics

    [crates/client-consumer/src/queries.rs]: the searches of offsets by
    timestamp, with their rounds of [Metadata] and [ListOffsets], and the
    partitions of topics. The brokers' answers come from outside. *)

From S2P Require Import Prelude Bytes Text Errors ConsumerErrors FetchBuffer FetchDecode.
From S2P Require Import OffsetWire GroupIo GroupNet PollFetch Async.

(** ** Data *)

Definition INVALID_TOPIC_EXCEPTION : Z := 17.
Definition UNSUPPORTED_FOR_MESSAGE_FORMAT : Z := 43.

Record OffsetAndTimestamp : Type := mkOffsetAndTimestamp {
  ot_offset : Z;
  ot_timestamp : Z;
  ot_leader_epoch : option Z;
}.

Record Node : Type := mkNode { nd_id : Z; nd_host : string; nd_port : Z; nd_rack : option string }.

Record PartitionInfo : Type := mkPartitionInfo {
  pi_topic : string;
  pi_partition : Z;
  pi_leader : option Node;
  pi_replicas : list Node;
  pi_in_sync_replicas : list Node;
  pi_offline_replicas : list Node;
}.

(** What the queries read of a [MetadataResponse]. *)
Record QueryPartitionMetadata : Type := mkPartitionMetadata {
  qp_index : Z;
  qp_leader_id : Z;
  qp_leader_epoch : Z;
  qp_replica_nodes : list Z;
  qp_isr_nodes : list Z;
  qp_offline_replicas : list Z;
}.

Record QueryTopic : Type := mkQueryTopic {
  qt_name : option string;
  qt_error_code : Z;
  qt_partitions : list QueryPartitionMetadata;
}.

Record QueryMetadata : Type := mkQueryMetadata { qm_brokers : list Node; qm_topics : list QueryTopic }.

(** A row of a [ListOffsets] answer. *)
Record OffsetRow : Type := mkOffsetRow {
  or_partition : Z;
  or_error_code : Z;
  or_offset : Z;
  or_timestamp : Z;
  or_leader_epoch : Z;
}.

(** ** Decisions *)

Inductive QueryRow : Type := Found (o : OffsetAndTimestamp) | NotFound | Unauthorized | RetryRow.

Definition classify_query_row (error_code offset timestamp leader_epoch : Z) : QueryRow :=
  if (error_code =? 0) && negb (offset =? -1) then
    Found (mkOffsetAndTimestamp offset timestamp (if 0 <=? leader_epoch then Some leader_epoch else None))
  else if (error_code =? 0) || (error_code =? UNSUPPORTED_FOR_MESSAGE_FORMAT) then NotFound
  else if error_code =? TOPIC_AUTHORIZATION_FAILED then Unauthorized
  else RetryRow.

(** The names of [topics] with a code, in the order of a [BTreeSet]. *)
Definition names_with (code : Z) (topics : list QueryTopic) : list string :=
  sort_by str_le (elements (list_to_set (C := gset string)
    (omap qt_name (filter (λ t, qt_error_code t = code) topics)))).

Definition is_requested (topics : gset string) (t : QueryTopic) : bool :=
  match qt_name t with Some name => bool_decide (name ∈ topics) | None => false end.

Definition requested_topic_errors (metadata : QueryMetadata) (topics : gset string) : result consumer_error unit :=
  let requested := filter (λ t, is_requested topics t = true) (qm_topics metadata) in
  let unauthorized := names_with TOPIC_AUTHORIZATION_FAILED requested in
  if negb (bool_decide (unauthorized = [])) then Err (ConsumerError.TopicAuthorizationFailed unauthorized)
  else
    match list_find (λ t, qt_error_code t = INVALID_TOPIC_EXCEPTION) requested with
    | Some (_, t) => match qt_name t with Some name => Err (ConsumerError.InvalidTopic name) | None => Ok () end
    | None => Ok ()
    end.

Definition topic_leaders (t : QueryTopic) : list (topic_partition * (Z * Z)) :=
  match qt_name t with
  | Some name =>
    (λ p, ((name, qp_index p), (qp_leader_id p, qp_leader_epoch p))) <$>
      filter (λ p, 0 ≤ qp_leader_id p) (qt_partitions t)
  | None => []
  end.

Definition partition_leaders (metadata : QueryMetadata) : gmap topic_partition (Z * Z) :=
  foldl (λ m e, <[e.1 := e.2]> m) ∅ (filter (λ t, qt_error_code t = 0) (qm_topics metadata) ≫= topic_leaders).

(** [((topic, partition), current leader epoch, timestamp)]. *)
Notation QueryPartition := (topic_partition * Z * Z)%type.

Definition push_query (by_topic : gmap string (list (Z * Z * Z))) (q : QueryPartition) : gmap string (list (Z * Z * Z)) :=
  let '(key, leader_epoch, timestamp) := q in
  <[key.1 := default [] (by_topic !! key.1) ++ [(key.2, leader_epoch, timestamp)]]> by_topic.

Record QueryRequest : Type := mkQueryRequest {
  qr_isolation_level : IsolationLevel;
  qr_topics : list (string * list (Z * Z * Z));
}.

Definition query_request (partitions : list QueryPartition) (isolation_level : IsolationLevel) : QueryRequest :=
  let by_topic := foldl push_query ∅ partitions in
  mkQueryRequest isolation_level
    ((λ t, (t, default [] (by_topic !! t))) <$> sort_by str_le (elements (dom by_topic))).

Definition node (metadata : QueryMetadata) (id : Z) : Node :=
  match list_find (λ b, nd_id b = id) (qm_brokers metadata) with
  | Some (_, b) => mkNode id (nd_host b) (nd_port b) (nd_rack b)
  | None => mkNode id "" (-1) None
  end.

Definition partition_info (metadata : QueryMetadata) (name : string) (p : QueryPartitionMetadata) : PartitionInfo :=
  mkPartitionInfo name (qp_index p)
    (if existsb (λ b, nd_id b =? qp_leader_id p) (qm_brokers metadata) then Some (node metadata (qp_leader_id p)) else None)
    (node metadata <$> qp_replica_nodes p) (node metadata <$> qp_isr_nodes p) (node metadata <$> qp_offline_replicas p).

(** The codes of the topics: the first that fails, or whether one is to be retried. *)
Fixpoint topic_codes (topics : list QueryTopic) (retry : bool) : result consumer_error bool :=
  match topics with
  | [] => Ok retry
  | t :: rest =>
    let code := qt_error_code t in
    if (code =? 0) || (code =? UNKNOWN_TOPIC_OR_PARTITION) then topic_codes rest retry
    else if code =? INVALID_TOPIC_EXCEPTION then Err (ConsumerError.InvalidTopic (default "" (qt_name t)))
    else if is_retriable_error code then topic_codes rest true
    else Err (ConsumerError.Server code)
  end.

Definition topic_partition_infos (metadata : QueryMetadata)
    : result consumer_error (option (gmap string (list PartitionInfo))) :=
  let unauthorized := names_with TOPIC_AUTHORIZATION_FAILED (qm_topics metadata) in
  if negb (bool_decide (unauthorized = [])) then Err (ConsumerError.TopicAuthorizationFailed unauthorized)
  else
    match topic_codes (qm_topics metadata) false with
    | Err e => Err e
    | Ok true => Ok None
    | Ok false =>
      Ok (Some (foldl (λ m t,
        match qt_name t with
        | Some name => <[name := partition_info metadata name <$> qt_partitions t]> m
        | None => m
        end) ∅ (filter (λ t, qt_error_code t = 0) (qm_topics metadata))))
    end.

(** What a search has: the partitions left, the offsets, and the topics that
    were refused. *)
Record Search : Type := mkSearch {
  se_left : gmap topic_partition Z;
  se_found : gmap topic_partition OffsetAndTimestamp;
  se_unauthorized : gset string;
}.

Definition apply_row (s : Search) (row : topic_partition * QueryRow) : Search :=
  let '(key, action) := row in
  match se_left s !! key with
  | None => s
  | Some _ =>
    match action with
    | Found offset => mkSearch (delete key (se_left s)) (<[key := offset]> (se_found s)) (se_unauthorized s)
    | NotFound => mkSearch (delete key (se_left s)) (se_found s) (se_unauthorized s)
    | Unauthorized => mkSearch (se_left s) (se_found s) ({[ key.1 ]} ∪ se_unauthorized s)
    | RetryRow => s
    end
  end.

Notation QueryAnswer := (list (string * list OffsetRow)).

Definition query_rows (answer : QueryAnswer) : list (topic_partition * QueryRow) :=
  answer ≫= λ t,
    (λ row, ((t.1, or_partition row),
             classify_query_row (or_error_code row) (or_offset row) (or_timestamp row) (or_leader_epoch row))) <$> t.2.

Definition apply_query_answer (answer : QueryAnswer) (s : Search) : Search := foldl apply_row s (query_rows answer).

(** ** Rounds *)

Record QueryConfig : Type := mkQueryConfig {
  qc_isolation_level : IsolationLevel;
  qc_default_api_timeout : Z;
  qc_initial_backoff : Z;
  qc_max_backoff : Z;
  qc_allow_auto_topic_creation : bool;
}.

Record QueryCommon : Type := mkQueryCommon { qs_now : Z; qs_known_brokers : gset Z }.
Record QueryState : Type := mkQueryState { qs_evicted : list Z; qs_common : QueryCommon }.

(** The oldest version that a [ListOffsets] may have. *)
Definition list_offsets_min_version (isolation_level : IsolationLevel) (require_timestamps : bool) : Z :=
  match isolation_level with
  | ReadCommitted => 2
  | ReadUncommitted => if require_timestamps then 1 else 0
  end.

Inductive QueryIo : Type :=
| QueryRefresh (topics : option (list string)) (allow_auto_topic_creation : bool)
| QueryOffsets (leader min_version : Z) (partitions : list QueryPartition) (r : QueryRequest)
| QuerySleep (until : Z).

Definition query_answer (r : QueryIo) : Type :=
  match r with
  | QueryRefresh _ _ => result ClientError.client_error QueryMetadata
  | QueryOffsets _ _ _ _ => result ClientError.client_error QueryAnswer
  | QuerySleep _ => unit
  end.

#[export] Instance query_world : World := {|
  State := QueryState;
  Common := QueryCommon;
  common := qs_common;
  resume st c := mkQueryState (qs_evicted st) c;
  Request := QueryIo;
  Answer := query_answer;
|}.

Section queries.
Context {GA : GroupApi} (qc : QueryConfig).

Definition query_now : async Z := reads (W := query_world) (λ st, qs_now (qs_common st)).
Definition query_evict (leader : Z) : async unit :=
  writes (W := query_world) (λ st, mkQueryState (qs_evicted st ++ [leader]) (qs_common st)).

Definition push_leader (leaders : gmap topic_partition (Z * Z)) (known : gset Z)
    (m : gmap Z (list QueryPartition)) (e : topic_partition * Z) : gmap Z (list QueryPartition) :=
  match leaders !! e.1 with
  | Some (leader, epoch) =>
    if bool_decide (leader ∈ known) then <[leader := default [] (m !! leader) ++ [(e.1, epoch, e.2)]]> m else m
  | None => m
  end.

Definition queries_by_leader (leaders : gmap topic_partition (Z * Z)) (known : gset Z) (search : gmap topic_partition Z)
    : list (Z * list QueryPartition) :=
  let m := foldl (push_leader leaders known) ∅ (visit_partitions search) in
  omap (λ k, (λ l, (k, l)) <$> m !! k) (sort_by Z.le (elements (dom m))).

Fixpoint leader_rounds (require_timestamps : bool) (by_leader : list (Z * list QueryPartition)) (s : Search)
    : async (result consumer_error Search) :=
  match by_leader with
  | [] => mret (Ok s)
  | (leader, partitions) :: rest =>
    r ← wait (QueryOffsets leader (list_offsets_min_version (qc_isolation_level qc) require_timestamps) partitions
                (query_request partitions (qc_isolation_level qc)));
    match r with
    | Ok answer => leader_rounds require_timestamps rest (apply_query_answer answer s)
    | Err e =>
      if is_transport_error e true then query_evict leader;; leader_rounds require_timestamps rest s
      else mret (Err (ConsumerError.Client e))
    end
  end.

(** One round: the search after the answers. *)
Definition search_round (require_timestamps : bool) (s : Search) : async (result consumer_error Search) :=
  let topics := list_to_set (C := gset string) (fst <$> (map_to_list (se_left s)).*1) in
  r ← wait (QueryRefresh (Some (sort_by str_le (elements topics))) (qc_allow_auto_topic_creation qc));
  match r with
  | Err e => if is_transport_error e true then mret (Ok s) else mret (Err (ConsumerError.Client e))
  | Ok metadata =>
    match requested_topic_errors metadata topics with
    | Err e => mret (Err e)
    | Ok _ =>
      known ← reads (W := query_world) (λ st, qs_known_brokers (qs_common st));
      s ←! leader_rounds require_timestamps (queries_by_leader (partition_leaders metadata) known (se_left s))
             (mkSearch (se_left s) (se_found s) ∅);
      mret (if bool_decide (se_unauthorized s = ∅) then Ok s
            else Err (ConsumerError.TopicAuthorizationFailed (sort_by str_le (elements (se_unauthorized s)))))
    end
  end.

Definition offsets_timeout (started now : Z) : consumer_error :=
  ConsumerError.Timeout ("Failed to get offsets by times in " ++ fmt_int ((now - started) / 1000000) ++ "ms") None.

Fixpoint search_offsets_until (n : nat) (require_timestamps : bool) (started deadline backoff : Z) (s : Search)
    : async (result consumer_error (gmap topic_partition OffsetAndTimestamp)) :=
  match n with
  | O => spent
  | S n =>
    if bool_decide (se_left s = ∅) then mret (Ok (se_found s))
    else
      s ←! search_round require_timestamps s;
      if bool_decide (se_left s = ∅) then mret (Ok (se_found s))
      else
        t ← query_now;
        if deadline <=? t then mret (Err (offsets_timeout started t))
        else
          wait (QuerySleep (Z.min (t + backoff) deadline));;
          search_offsets_until n require_timestamps started deadline (next_backoff backoff (qc_max_backoff qc)) s
  end.

Context (fuel : nat).

Definition search_offsets (search : gmap topic_partition Z) (require_timestamps : bool)
    : async (result consumer_error (gmap topic_partition OffsetAndTimestamp)) :=
  started ← query_now;
  let deadline := started + qc_default_api_timeout qc in
  e ← unless (QuerySleep deadline)
        (search_offsets_until fuel require_timestamps started deadline (qc_initial_backoff qc) (mkSearch search ∅ ∅));
  t ← query_now;
  mret (match e with inl _ => Err (offsets_timeout started t) | inr r => r end).

Definition boundary_offsets (partitions : list topic_partition) (timestamp : Z)
    : async (result consumer_error (gmap topic_partition Z)) :=
  found ←! search_offsets (list_to_map ((λ p, (p, timestamp)) <$> partitions)) false;
  mret (Ok (ot_offset <$> found)).

Definition beginning_offsets (partitions : list topic_partition) : async (result consumer_error (gmap topic_partition Z)) :=
  boundary_offsets partitions EARLIEST_TIMESTAMP.
Definition end_offsets (partitions : list topic_partition) : async (result consumer_error (gmap topic_partition Z)) :=
  boundary_offsets partitions LATEST_TIMESTAMP.

Definition offsets_for_times (timestamps : gmap topic_partition Z)
    : async (result consumer_error (gmap topic_partition (option OffsetAndTimestamp))) :=
  match list_find (λ e : topic_partition * Z, e.2 < 0) (visit_partitions timestamps) with
  | Some (_, (key, timestamp)) =>
    mret (Err (ConsumerError.InvalidArgument ("The target time for partition " ++ key.1 ++ "-" ++ fmt_int key.2 ++ " is "
      ++ fmt_int timestamp ++ ". The target time cannot be negative.")))
  | None =>
    found ←! search_offsets timestamps true;
    mret (Ok (map_imap (λ k _, Some (found !! k)) timestamps))
  end.

Definition metadata_timeout : consumer_error :=
  ConsumerError.Timeout "Timeout expired while fetching topic metadata" None.

Fixpoint topic_metadata_until (n : nat) (topics : option (list string)) (allow_auto_topic_creation : bool)
    (deadline backoff : Z) : async (result consumer_error (gmap string (list PartitionInfo))) :=
  match n with
  | O => spent
  | S n =>
    r ← wait (QueryRefresh topics allow_auto_topic_creation);
    let again : async (result consumer_error (gmap string (list PartitionInfo))) :=
      t ← query_now;
      if deadline <=? t then mret (Err metadata_timeout)
      else
        wait (QuerySleep (Z.min (t + backoff) deadline));;
        topic_metadata_until n topics allow_auto_topic_creation deadline (next_backoff backoff (qc_max_backoff qc)) in
    match r with
    | Ok metadata =>
      match topic_partition_infos metadata with
      | Err e => mret (Err e)
      | Ok (Some infos) => mret (Ok infos)
      | Ok None => again
      end
    | Err e => if is_transport_error e true then again else mret (Err (ConsumerError.Client e))
    end
  end.

Definition topic_metadata (topics : option (list string)) (allow_auto_topic_creation : bool)
    : async (result consumer_error (gmap string (list PartitionInfo))) :=
  t ← query_now;
  let deadline := t + qc_default_api_timeout qc in
  e ← unless (QuerySleep deadline)
        (topic_metadata_until fuel topics allow_auto_topic_creation deadline (qc_initial_backoff qc));
  mret (match e with inl _ => Err metadata_timeout | inr r => r end).

Definition partitions_for (topic : string) : async (result consumer_error (list PartitionInfo)) :=
  infos ←! topic_metadata (Some [topic]) (qc_allow_auto_topic_creation qc);
  mret (Ok (default [] (infos !! topic))).

Definition list_topics : async (result consumer_error (gmap string (list PartitionInfo))) :=
  topic_metadata None true.
End queries.
