(* ===== verification/QueryTheorems.v ===== *)
(** * What the offset queries guarantee

    A search of offsets returns, and an answer covers every partition that was
    asked. *)

From S2P Require Import Prelude Bytes Text Errors ConsumerErrors FetchBuffer FetchDecode.
From S2P Require Import OffsetWire GroupIo GroupNet PollFetch Async PollTheorems Queries.

Section searches.
Context {GA : GroupApi} (qc : QueryConfig).

(** What a leader knows of a partition for a timestamp: an offset with its
    timestamp and leader epoch, that the log has none, or that the log is in an
    old message format, which it cannot search. *)
Inductive LogAnswer : Type :=
| AtOffset (offset timestamp leader_epoch : Z)
| NoSuchOffset
| OldFormat.

Context (truth : topic_partition → Z → LogAnswer).

(** A row tells it: with no error and the offset, with no error and the offset
    -1, or with UNSUPPORTED_FOR_MESSAGE_FORMAT (43). A row with another error
    tells nothing. *)
Definition row_true (known : LogAnswer) (row : OffsetRow) : Prop :=
  (or_error_code row = 0 → or_offset row ≠ -1 →
     known = AtOffset (or_offset row) (or_timestamp row) (or_leader_epoch row)) ∧
  (or_error_code row = 0 → or_offset row = -1 → known = NoSuchOffset) ∧
  (or_error_code row = 43 → known = OldFormat).

(** A broker answers the partitions that it was asked with rows that are true;
    the clock advances, and a sleep lasts. *)
Definition query_env : env := λ r st ans c,
  qs_now (qs_common st) ≤ qs_now c ∧
  match r return query_answer r → Prop with
  | QueryRefresh _ _ => λ _, True
  | QueryOffsets _ _ partitions _ => λ ans,
    match ans with
    | Err _ => True
    | Ok answer => ∀ topic rows row, (topic, rows) ∈ answer → row ∈ rows →
        ∃ epoch ts, ((topic, or_partition row), epoch, ts) ∈ partitions ∧
          row_true (truth (topic, or_partition row) ts) row
    end
  | QuerySleep until => λ _, until ≤ qs_now c
  end ans.

Notation SAFE m Q := (safe query_env (λ _, True) False m Q).

Context (search : gmap topic_partition Z).

(** What a search returns of it. *)
Definition found_of (known : LogAnswer) : option OffsetAndTimestamp :=
  match known with
  | AtOffset offset timestamp leader_epoch =>
    Some (mkOffsetAndTimestamp offset timestamp (if decide (0 ≤ leader_epoch) then Some leader_epoch else None))
  | NoSuchOffset | OldFormat => None
  end.

(** What a classified row says of it. *)
Definition row_says (known : LogAnswer) (row : QueryRow) : Prop :=
  match row with
  | Found o => found_of known = Some o
  | NotFound => found_of known = None
  | Unauthorized | RetryRow => True
  end.

Lemma classify_true known row :
  row_true known row →
  row_says known (classify_query_row (or_error_code row) (or_offset row) (or_timestamp row) (or_leader_epoch row)).
Proof.
  intros (Hf & Hn & Ho). unfold classify_query_row, UNSUPPORTED_FOR_MESSAGE_FORMAT.
  destruct (Z.eqb_spec (or_error_code row) 0) as [E0|N0]; simpl.
  - destruct (Z.eqb_spec (or_offset row) (-1)) as [E1|N1]; simpl; [by rewrite Hn|].
    rewrite Hf by done. simpl. do 2 f_equal. destruct (Z.leb_spec 0 (or_leader_epoch row)); case_decide; lia || done.
  - destruct (Z.eqb_spec (or_error_code row) 43); simpl; [by rewrite Ho|]. by destruct (_ =? _).
Qed.

(** A partition is either left, or answered with what its log has. *)
Definition search_ok (s : Search) : Prop :=
  ∀ k, match se_left s !! k with
       | Some ts => search !! k = Some ts ∧ se_found s !! k = None
       | None => se_found s !! k = (search !! k ≫= λ ts, found_of (truth k ts))
       end.

Definition asked_ok (partitions : list (topic_partition * Z * Z)) : Prop :=
  ∀ key epoch ts, (key, epoch, ts) ∈ partitions → search !! key = Some ts.

Lemma apply_row_ok s key row :
  search_ok s →
  (∃ ts, search !! key = Some ts ∧ row_says (truth key ts) row) →
  search_ok (apply_row s (key, row)).
Proof.
  intros Hs (ts' & Hts & Ht). unfold apply_row. destruct (se_left s !! key) as [ts|] eqn:Hl; [|done].
  destruct row as [o| | |]; try done; simpl in Ht; intros k; specialize (Hs k); simpl;
    destruct (decide (k = key)) as [->|Hne]; rewrite ?lookup_delete_eq, ?lookup_insert_eq, ?lookup_delete_ne, ?lookup_insert_ne by done;
    try done.
  - rewrite Hts. simpl. by rewrite Ht.
  - rewrite Hts. simpl. rewrite Ht. rewrite Hl in Hs. by destruct Hs.
Qed.

Lemma apply_answer_ok partitions answer s :
  search_ok s → asked_ok partitions →
  (∀ topic rows row, (topic, rows) ∈ answer → row ∈ rows →
     ∃ epoch ts, ((topic, or_partition row), epoch, ts) ∈ partitions ∧
       row_true (truth (topic, or_partition row) ts) row) →
  search_ok (apply_query_answer answer s).
Proof.
  intros Hs Ha Hanswer. unfold apply_query_answer.
  assert (∀ key row, (key, row) ∈ query_rows answer → ∃ ts, search !! key = Some ts ∧ row_says (truth key ts) row) as Hrows.
  { intros key row Hin. unfold query_rows in Hin. apply list_elem_of_bind in Hin as ([topic rows] & Hin & Ht).
    apply list_elem_of_fmap in Hin as (raw & [= -> ->] & Hraw). simpl in *.
    destruct (Hanswer topic rows raw Ht Hraw) as (epoch & ts & Hp & Htrue). exists ts.
    split; [by eapply Ha|by apply classify_true]. }
  clear Hanswer. revert s Hs.
  induction (query_rows answer) as [|[key row] rows IH]; intros s Hs; [done|]. cbn [foldl]. apply IH.
  - intros k r Hr. apply Hrows. by right.
  - apply apply_row_ok; [done|]. apply Hrows. left.
Qed.

Lemma queries_by_leader_ok leaders known s leader partitions :
  search_ok s → (leader, partitions) ∈ queries_by_leader leaders known (se_left s) → asked_ok partitions.
Proof.
  intros Hs Hin. unfold queries_by_leader in Hin. apply list_elem_of_omap in Hin as (k & _ & Hk).
  set (P := λ m : gmap Z (list (topic_partition * Z * Z)), ∀ l q, m !! l = Some q → asked_ok q).
  assert (∀ l m, (∀ e, e ∈ l → search !! e.1 = Some e.2) → P m → P (foldl (push_leader leaders known) m l)) as Hfold.
  { induction l as [|e l IH]; intros m Hl Hm; [done|]. cbn [foldl]. apply IH; [intros e' He'; apply Hl; by right|].
    unfold push_leader. destruct (leaders !! e.1) as [[ld ep]|]; [|done]. case_bool_decide; [|done].
    intros l0 q. rewrite lookup_insert. case_decide as E; [|apply Hm]. intros [= <-] key epoch ts.
    rewrite elem_of_app, list_elem_of_singleton. intros [Hq|[= -> -> ->]]; [|apply Hl; left].
    destruct (m !! ld) as [q'|] eqn:Hq'; [by eapply Hm|by apply elem_of_nil in Hq]. }
  destruct (foldl _ _ _ !! k) as [q|] eqn:Hq; [|done]. simpl in Hk. injection Hk as -> ->.
  eapply Hfold; [| |exact Hq].
  - intros [key ts]. rewrite visit_partitions_perm. intros He%elem_of_map_to_list. specialize (Hs key).
    rewrite He in Hs. by destruct Hs.
  - intros l q' Hl. by rewrite lookup_empty in Hl.
Qed.

Definition clock (st : QueryState) : Z := qs_now (qs_common st).

Lemma safe_await r st (Q : query_answer r → QueryState → Prop) :
  (∀ ans c, query_env r st ans c → Q ans (mkQueryState (qs_evicted st) c)) → SAFE (wait r st) Q.
Proof. intros HQ. split; [done|]. exact HQ. Qed.

(** What a round leaves: no time travel, and a search that is still right. *)
Definition round_post (from : Z) (r : result consumer_error Search) (st : QueryState) : Prop :=
  from ≤ clock st ∧ match r with Ok s => search_ok s | Err _ => True end.

Lemma leader_rounds_ok rt by_leader s st from :
  (∀ leader partitions, (leader, partitions) ∈ by_leader → asked_ok partitions) →
  search_ok s → from ≤ clock st → SAFE (leader_rounds qc rt by_leader s st) (round_post from).
Proof.
  revert s st. induction by_leader as [|[leader partitions] rest IH]; intros s st Hby Hs Hfrom; [by split|].
  assert (∀ leader partitions, (leader, partitions) ∈ rest → asked_ok partitions) as Hrest
    by (intros l p Hl; apply (Hby l p); by right).
  cbn [leader_rounds]. apply safe_bind, safe_await. intros ans c [Hnow HE].
  destruct ans as [answer|e].
  - apply IH; [done| |unfold clock in *; simpl; lia]. eapply apply_answer_ok; [done| |exact HE]. eapply Hby. left.
  - case_match; [|split; [unfold clock in *; simpl; lia|done]]. unfold query_evict. safe_pure.
    apply IH; [done..|unfold clock in *; simpl; lia].
Qed.

Lemma search_round_ok rt s st : search_ok s → SAFE (search_round qc rt s st) (round_post (clock st)).
Proof.
  intros Hs. unfold search_round. apply safe_bind, safe_await. intros ans c [Hnow _].
  destruct ans as [metadata|e].
  - destruct (requested_topic_errors _ _); [|split; [done|done]]. safe_pure.
    eapply safe_mono, leader_rounds_ok; [| | |exact Hnow].
    + intros [s'|e'] st' [Hc Hs']; [|by split]. safe_pure. split; [done|]. by case_bool_decide.
    + intros leader partitions. by apply queries_by_leader_ok.
    + exact Hs.
  - case_match; by split.
Qed.

Definition search_post (r : result consumer_error (gmap topic_partition OffsetAndTimestamp)) (st : QueryState) : Prop :=
  match r with Ok found => ∀ k, found !! k = (search !! k ≫= λ ts, found_of (truth k ts)) | Err _ => True end.

Lemma search_done s : search_ok s → se_left s = ∅ → ∀ k, se_found s !! k = (search !! k ≫= λ ts, found_of (truth k ts)).
Proof. intros Hs He k. specialize (Hs k). by rewrite He, lookup_empty in Hs. Qed.

Context (b : Z) (Hb : 0 < b) (Hmax : b ≤ qc_max_backoff qc).

Lemma search_until_ok n rt started deadline backoff s st :
  search_ok s → b ≤ backoff → deadline - clock st ≤ (Z.of_nat n - 1) * b → (0 < n)%nat →
  SAFE (search_offsets_until qc n rt started deadline backoff s st) search_post.
Proof.
  revert backoff s st. induction n as [|n IH]; intros backoff s st Hs Hback Hn Hpos; [lia|].
  cbn [search_offsets_until]. case_bool_decide; [safe_pure; by refine (search_done _ _ _)|]. apply safe_attempt.
  eapply safe_mono, search_round_ok; [|done]. intros [s'|e] st1 [Hc Hs']; [|done].
  case_bool_decide; [safe_pure; by refine (search_done _ _ _)|]. unfold query_now. safe_pure. fold (clock st1).
  destruct (Z.leb_spec deadline (clock st1)) as [|Hlt]; [done|].
  assert (0 < n)%nat as Hn1 by nia.
  apply safe_bind, safe_await. intros [] c [_ Hsleep]. apply IH; [done|unfold next_backoff; lia| |done].
  assert (0 ≤ (Z.of_nat n - 1) * b) by nia.
  replace ((Z.of_nat (S n) - 1) * b) with ((Z.of_nat n - 1) * b + b) in Hn by lia.
  unfold clock at 1. simpl in *. lia.
Qed.
End searches.

(** C30: a search of offsets returns, and its answer is complete. When the
    brokers' rows are true and a sleep lasts, with as many rounds as the timeout
    has shortest backoffs every run of [search_offsets] ends; and when it ends
    without an error, the result has, for every partition that was asked and no
    other, the offset, timestamp and known leader epoch that its leader knows
    for the timestamp, and nothing when the log has none or is in an old format,
    whatever rounds the partitions were answered in, and although a leader was
    missing, a row had to be retried or a broker could not be reached. *)
Theorem search_offsets_exact {GA : GroupApi} qc fuel truth search rt st :
  0 < qc_initial_backoff qc → 0 < qc_max_backoff qc → 0 ≤ qc_default_api_timeout qc →
  qc_default_api_timeout qc ≤ (Z.of_nat fuel - 1) * Z.min (qc_initial_backoff qc) (qc_max_backoff qc) →
  finishes (query_env truth) (search_offsets qc fuel search rt st) ∧
  ∀ r st', results (query_env truth) (search_offsets qc fuel search rt st) r st' →
    match r with Ok found => ∀ k, found !! k = (search !! k ≫= λ ts, found_of (truth k ts)) | Err _ => True end.
Proof.
  intros Hi Hm Ht Hf. set (b := Z.min _ _) in *.
  assert (safe (query_env truth) (λ _, True) False (search_offsets qc fuel search rt st) (search_post truth search)) as Hs.
  { unfold search_offsets, query_now. safe_pure.
    match goal with |- safe _ _ _ (unless ?r ?m st) _ => apply (safe_unless (W := query_world) _ _ _ r m st) end.
    - intros [] st' c _ _. safe_pure. done.
    - eapply safe_mono, (search_until_ok qc truth search b); [|lia|lia| |lia| |nia].
      + intros r st' Hr. safe_pure. exact Hr.
      + intros k. simpl. destruct (search !! k); [by rewrite lookup_empty|]. simpl. by rewrite lookup_empty.
      + unfold clock. lia. }
  split; [by apply (safe_finishes _ _ _ _ _ id Hs)|]. intros r st' Hr. exact (safe_results _ _ _ _ _ _ _ Hs Hr).
Qed.

(** The first refresh knows no leader; the second names broker 1, which answers
    offset 3 for every partition. *)
Module DemoQuery.
Definition config : QueryConfig := mkQueryConfig ReadUncommitted 100 10 50 false.
Definition found : OffsetAndTimestamp := mkOffsetAndTimestamp 3 7 None.
Definition metadata (leader : Z) : QueryMetadata :=
  mkQueryMetadata [mkNode 1 "h" 9092 None] [mkQueryTopic (Some "t") 0 [mkPartitionMetadata 0 leader 0 [] [] []]].

Definition oracle (r : QueryIo) (st : QueryState) : query_answer r * QueryCommon :=
  (match r return query_answer r with
   | QueryRefresh _ _ => Ok (metadata (if qs_now (qs_common st) =? 0 then -1 else 1))
   | QueryOffsets _ _ partitions _ =>
     Ok ((λ q : topic_partition * Z * Z, (q.1.1.1, [mkOffsetRow q.1.1.2 0 3 7 (-1)])) <$> partitions)
   | QuerySleep _ => tt
   end,
   match r with
   | QuerySleep until => mkQueryCommon (Z.max until (qs_now (qs_common st))) (qs_known_brokers (qs_common st))
   | _ => qs_common st
   end).

(** Every log has offset 3, of timestamp 7 and without a leader epoch. *)
Definition truth (k : topic_partition) (ts : Z) : LogAnswer := AtOffset 3 7 (-1).

Lemma oracle_ok r st : query_env truth r st (oracle r st).1 (oracle r st).2.
Proof.
  destruct r as [topics auto|leader version partitions r|until]; simpl; split; simpl; try done; [|lia..].
  intros topic rows row Ht Hrow.
  apply list_elem_of_fmap in Ht as ([[[topic' p] epoch] ts] & [= -> ->] & Hq).
  apply list_elem_of_singleton in Hrow as ->. exists epoch, ts. split; [done|]. by split_and!.
Qed.

Definition start : QueryState := mkQueryState [] (mkQueryCommon 0 {[ 1 ]}).

(** When a search that succeeded ended. *)
Definition ends_at {A} (m : proc (result consumer_error A)) : option Z :=
  match m with Ret (Ok _) st => Some (clock st) | _ => None end.

Definition run_search {GA : GroupApi} (search : gmap topic_partition Z)
    : proc (result consumer_error (gmap topic_partition OffsetAndTimestamp)) :=
  play (W := query_world) oracle (λ _, false) 20 (search_offsets config 11 search true start).
End DemoQuery.

Section demo.
Import DemoQuery.
#[local] Existing Instance DemoPoll.api.

Lemma search_offsets_exact_witness :
  finishes (query_env truth) (search_offsets config 11 {[ ("t", 0) := 5 ]} true start) ∧
  ∃ offsets st', results (query_env truth) (search_offsets config 11 {[ ("t", 0) := 5 ]} true start)
      (Ok offsets) st' ∧ clock st' = 10 ∧
    ∀ k, offsets !! k = (({[ ("t", 0) := 5 ]} : gmap topic_partition Z) !! k ≫= λ _, Some found).
Proof.
  destruct (search_offsets_exact config 11 truth {[ ("t", 0) := 5 ]} true start) as [Hfin Hres];
    [simpl; lia..|].
  split; [exact Hfin|].
  assert (ends_at (run_search {[ ("t", 0) := 5 ]}) = Some 10) as Hc by (vm_compute; reflexivity).
  destruct (run_search {[ ("t", 0) := 5 ]}) as [[offsets|e] st'| |] eqn:Hp; [|discriminate Hc..]. injection Hc as Hc.
  exists offsets, st'.
  assert (results (query_env truth) (search_offsets config 11 {[ ("t", 0) := 5 ]} true start) (Ok offsets) st')
    as Hr.
  { eapply (play_results (W := query_world) _ (λ _, True) True (λ _ _, True)); [intros r st _; apply oracle_ok| |exact Hp].
    clear. generalize (search_offsets config 11 {[ ("t", 0) := 5 ]} true start).
    intros m. induction m as [a st|r st k IH|st]; simpl; [done| |done]. split; [done|]. intros ans s _. apply IH. }
  split; [exact Hr|]. split; [exact Hc|]. exact (Hres _ _ Hr).
Defined.
End demo.
