(* ===== verification/Share.v ===== *)
(** * Share groups

    [crates/client-consumer/src/share/]: the polls of a share consumer
    ([poll.rs]), its acknowledgements, its close ([consumer.rs]) and the task
    that sends its heartbeats ([coordinator.rs]). The brokers' answers come from
    outside; the heartbeat task and the consumer share [ShareCommon]. *)

From S2P Require Import Prelude Bytes Errors ConsumerErrors FetchBuffer FetchDecode.
From S2P Require Import GroupIo GroupNet PollFetch Async.

(** ** Data *)

Inductive ShareAckMode : Type := Implicit | Explicit.
Inductive ShareAcquireMode : Type := BatchOptimized | RecordLimit.
Inductive ShareAckType : Type := Accept | Release | Reject.

#[global] Instance ShareAckMode_eq_dec : EqDecision ShareAckMode.
Proof. solve_decision. Defined.

Definition acquire_wire (m : ShareAcquireMode) : Z := match m with BatchOptimized => 0 | RecordLimit => 1 end.
Definition ack_wire (t : ShareAckType) : Z := match t with Accept => 1 | Release => 2 | Reject => 3 end.

Record ShareConsumerRecord : Type := mkShareRecord {
  sr_topic : string;
  sr_partition : Z;
  sr_offset : Z;
  sr_timestamp : Z;
  sr_timestamp_type : TimestampType;
  sr_key : option bytes;
  sr_value : option bytes;
  sr_headers : list (string * option bytes);
  sr_delivery_count : Z;
}.

(** What a poll reads of a [ShareFetchResponse]. *)
Record AcquiredRecords : Type := mkAcquired { aq_first : Z; aq_last : Z; aq_delivery_count : Z }.

Record SharePartitionData : Type := mkSharePartition {
  sp_index : Z;
  sp_error_code : Z;
  sp_acknowledge_error_code : Z;
  sp_acquired_records : list AcquiredRecords;
  sp_records : option (list RecordBatch);
}.

(** One acknowledgement batch of a request. *)
Record AckBatch : Type := mkAckBatch { ab_first : Z; ab_last : Z; ab_types : list Z }.

Definition range_len (first last : Z) : nat := Z.to_nat (last - first + 1).

Definition offset_in_range (first offset last : Z) : bool := (first <=? offset) && (offset <=? last).

Definition share_response_has_error (error_code : Z) : bool := negb (error_code =? 0).

Definition wire_batch (first last ack : Z) : AckBatch := mkAckBatch first last (replicate (range_len first last) ack).

(** ** Records *)

Definition delivery_count_of (acquired : list AcquiredRecords) (offset : Z) : Z :=
  match list_find (λ ar, offset_in_range (aq_first ar) offset (aq_last ar) = true) acquired with
  | Some (_, ar) => aq_delivery_count ar
  | None => 0
  end.

Definition share_record (topic : string) (part : SharePartitionData) (batch : RecordBatch) (r : BatchRecord)
    : ShareConsumerRecord :=
  let offset := record_offset (rb_base_offset batch) (br_offset_delta r) in
  mkShareRecord topic (sp_index part) offset (record_timestamp batch r).1 (record_timestamp batch r).2
    (br_key r) (br_value r) (br_headers r) (delivery_count_of (sp_acquired_records part) offset).

Definition share_partition_records (topic : string) (part : SharePartitionData) : list ShareConsumerRecord :=
  match sp_records part with
  | None => []
  | Some batches =>
    filter (λ b, rb_is_control b = false) batches ≫= λ b, share_record topic part b <$> rb_records b
  end.

(** ** Heartbeat answers *)

Definition SHARE_FENCED_MEMBER_EPOCH : Z := 110.
Definition SHARE_UNKNOWN_MEMBER_ID : Z := 25.
Definition STALE_MEMBER_EPOCH : Z := 113.

Inductive ShareHeartbeatOutcome : Type := ShareOk | RejoinFromScratch | ShareTransient.

Definition is_rejoin_error (error_code : Z) : bool :=
  bool_decide (error_code ∈ [SHARE_FENCED_MEMBER_EPOCH; SHARE_UNKNOWN_MEMBER_ID; STALE_MEMBER_EPOCH]).

Definition heartbeat_result (error_code : Z) : ShareHeartbeatOutcome :=
  if error_code =? 0 then ShareOk
  else if is_rejoin_error error_code then RejoinFromScratch
  else ShareTransient.

(** [i32::wrapping_add(1)]. *)
Definition next_session_epoch (epoch : Z) : Z := cast_signed 32 ((epoch + 1) mod 2 ^ 32).

Section share.
Context {GA : GroupApi}.

Record ShareFetchTopic : Type := mkShareFetchTopic { fx_topic_id : Uuid; fx_partitions : list SharePartitionData }.
Record ShareFetchResponse : Type := mkShareFetchResponse { fx_error_code : Z; fx_responses : list ShareFetchTopic }.

Record ShareFetchRequest : Type := mkShareFetch {
  sf_group_id : string;
  sf_member_id : string;
  sf_session_epoch : Z;
  sf_max_wait_ms : Z;
  sf_min_bytes : Z;
  sf_max_bytes : Z;
  sf_max_records : Z;
  sf_batch_size : Z;
  sf_acquire_mode : Z;
  sf_topics : list (Uuid * list (Z * list AckBatch));
}.

Record ShareAcknowledgeRequest : Type := mkShareAck {
  sa_group_id : string;
  sa_member_id : string;
  sa_session_epoch : Z;
  sa_is_renew_ack : bool;
  sa_topics : list (Uuid * list (Z * list AckBatch));
}.

(** The error code, and the codes of the partitions in order. *)
Record ShareAcknowledgeResponse : Type := mkShareAckResponse { sx_error_code : Z; sx_partitions : list Z }.

Record ShareHeartbeat : Type := mkShareHeartbeat {
  shb_group_id : string;
  shb_member_id : string;
  shb_member_epoch : Z;
  shb_subscribed : option (list string);
}.

Record ShareHeartbeatResponse : Type := mkShareHeartbeatResponse {
  shr_error_code : Z;
  shr_member_epoch : Z;
  shr_assignment : option (list (Uuid * list Z));
}.

(** ** State *)

Record ShareConfig : Type := mkShareConfig {
  sc_group_id : string;
  sc_member_id : string;
  sc_ack_mode : ShareAckMode;
  sc_acquire_mode : ShareAcquireMode;
  sc_fetch_min : Z;
  sc_fetch_max : Z;
  sc_fetch_max_records : Z;
  sc_subscribe : list string;
  sc_leave_heartbeat_timeout : Z;
  sc_hex_topic_id : Uuid → string;
}.

(** [(topic_id, partition, first, last, ack)] and [(topic_id, partition, first, last)]. *)
Notation PendingAck := (Uuid * Z * Z * Z * Z)%type.
Notation Delivered := (Uuid * Z * Z * Z)%type.

Record ShareCommon : Type := mkShareCommon {
  sm_member_epoch : Z;
  sm_assignment : list (Uuid * string * Z);
  sm_topic_names : gmap Uuid string;
  sm_poll_error : option consumer_error;
  sm_now : Z;
  (** Whether the heartbeat task holds the locks of the two. *)
  sm_assignment_held : bool;
  sm_names_held : bool;
  (** Not of the consumer: the epoch that the broker's share session expects. *)
  sm_expected : option Z;
}.

(** A request of the share session. *)
Inductive ShareRequest : Type := FetchSent (r : ShareFetchRequest) | AckSent (r : ShareAcknowledgeRequest).

(** What the consumer alone changes, and the requests that it sent. *)
Record ShareLocal : Type := mkShareLocal {
  sl_session_epoch : Z;
  sl_pending_acks : list PendingAck;
  sl_prev_delivered : list Delivered;
  sl_sent : list ShareRequest;
  sl_shutdown : bool;
}.

Record ShareState : Type := mkShareState { sl : ShareLocal; sm : ShareCommon }.

Inductive ShareIo : Type :=
| ShareLock
| ShareSleep (until : Z)
| SendShareFetch (r : ShareFetchRequest)
| SendShareAcknowledge (r : ShareAcknowledgeRequest)
| SendShareHeartbeat (r : ShareHeartbeat)
| ShareTick
| ShareShutdown
| HeartbeatTaskEnded
| CloseTelemetry.

Definition share_answer (r : ShareIo) : Type :=
  match r with
  | SendShareFetch _ => result ClientError.client_error ShareFetchResponse
  | SendShareAcknowledge _ => result ClientError.client_error ShareAcknowledgeResponse
  | SendShareHeartbeat _ => result ClientError.client_error ShareHeartbeatResponse
  | _ => unit
  end.

#[export] Instance share_world : World := {|
  State := ShareState;
  Common := ShareCommon;
  common := sm;
  resume st c := mkShareState (sl st) c;
  Request := ShareIo;
  Answer := share_answer;
|}.

Definition share_reads {A} (f : ShareState → A) : async A := reads (W := share_world) f.
Definition share_local (f : ShareLocal → ShareLocal) : async unit :=
  writes (W := share_world) (λ st, mkShareState (f (sl st)) (sm st)).
Definition share_common (f : ShareCommon → ShareCommon) : async unit :=
  writes (W := share_world) (λ st, mkShareState (sl st) (f (sm st))).
Definition share_wait (r : ShareIo) : async (share_answer r) := wait (W := share_world) r.

Definition set_session_epoch (v : Z) (l : ShareLocal) : ShareLocal :=
  mkShareLocal v (sl_pending_acks l) (sl_prev_delivered l) (sl_sent l) (sl_shutdown l).
Definition set_pending_acks (v : list PendingAck) (l : ShareLocal) : ShareLocal :=
  mkShareLocal (sl_session_epoch l) v (sl_prev_delivered l) (sl_sent l) (sl_shutdown l).
Definition set_prev_delivered (v : list Delivered) (l : ShareLocal) : ShareLocal :=
  mkShareLocal (sl_session_epoch l) (sl_pending_acks l) v (sl_sent l) (sl_shutdown l).
Definition log_sent (r : ShareRequest) (l : ShareLocal) : ShareLocal :=
  mkShareLocal (sl_session_epoch l) (sl_pending_acks l) (sl_prev_delivered l) (sl_sent l ++ [r]) (sl_shutdown l).
Definition set_shutdown (v : bool) (l : ShareLocal) : ShareLocal :=
  mkShareLocal (sl_session_epoch l) (sl_pending_acks l) (sl_prev_delivered l) (sl_sent l) v.

Definition with_member_epoch (v : Z) (c : ShareCommon) : ShareCommon :=
  mkShareCommon v (sm_assignment c) (sm_topic_names c) (sm_poll_error c) (sm_now c) (sm_assignment_held c) (sm_names_held c)
    (sm_expected c).
Definition with_assignment (v : list (Uuid * string * Z)) (c : ShareCommon) : ShareCommon :=
  mkShareCommon (sm_member_epoch c) v (sm_topic_names c) (sm_poll_error c) (sm_now c) (sm_assignment_held c) (sm_names_held c)
    (sm_expected c).
Definition with_poll_error (v : option consumer_error) (c : ShareCommon) : ShareCommon :=
  mkShareCommon (sm_member_epoch c) (sm_assignment c) (sm_topic_names c) v (sm_now c) (sm_assignment_held c) (sm_names_held c)
    (sm_expected c).

Context (sc : ShareConfig).

(** ** Acknowledgements *)

Definition push_batch (m : gmap (Uuid * Z) (list AckBatch)) (a : PendingAck) : gmap (Uuid * Z) (list AckBatch) :=
  let '(tid, partition, first, last, ack) := a in
  <[(tid, partition) := default [] (m !! (tid, partition)) ++ [wire_batch first last ack]]> m.

(** The acknowledgements that the next request carries. *)
Definition staged_acks (l : ShareLocal) : list PendingAck :=
  match sc_ack_mode sc with
  | Implicit => (λ d : Delivered, (d.1.1.1, d.1.1.2, d.1.2, d.2, ack_wire Accept)) <$> sl_prev_delivered l
  | Explicit => sl_pending_acks l
  end.

Definition take_piggyback_acks (l : ShareLocal) : ShareLocal * gmap (Uuid * Z) (list AckBatch) :=
  (match sc_ack_mode sc with
   | Implicit => set_prev_delivered [] l
   | Explicit => set_prev_delivered [] (set_pending_acks [] l)
   end, foldl push_batch ∅ (staged_acks l)).

Definition push_share_partition (acks : gmap (Uuid * Z) (list AckBatch))
    (m : gmap Uuid (list (Z * list AckBatch))) (a : Uuid * string * Z) : gmap Uuid (list (Z * list AckBatch)) :=
  let '(tid, _, partition) := a in
  <[tid := default [] (m !! tid) ++ [(partition, default [] (acks !! (tid, partition)))]]> m.

Definition build_share_fetch_topics (assignment : list (Uuid * string * Z)) (acks : gmap (Uuid * Z) (list AckBatch))
    : list (Uuid * list (Z * list AckBatch)) :=
  map_to_list (foldl (push_share_partition acks) ∅ assignment).

Definition push_ack_topic (m : gmap Uuid (gmap Z (list AckBatch))) (a : PendingAck) : gmap Uuid (gmap Z (list AckBatch)) :=
  let '(tid, partition, first, last, ack) := a in
  let by_partition := default ∅ (m !! tid) in
  <[tid := <[partition := default [] (by_partition !! partition) ++ [wire_batch first last ack]]> by_partition]> m.

Definition build_ack_topics (acks : list PendingAck) : list (Uuid * list (Z * list AckBatch)) :=
  (λ e, (e.1, map_to_list e.2)) <$> map_to_list (foldl push_ack_topic ∅ acks).

Definition first_share_ack_partition_error (r : ShareAcknowledgeResponse) : option Z :=
  snd <$> list_find (λ code, share_response_has_error code = true) (sx_partitions r).

Definition topic_id_for (c : ShareCommon) (name : string) : Uuid :=
  match (if sm_assignment_held c then None else list_find (λ a, a.1.2 = name) (sm_assignment c)) with
  | Some (_, (tid, _, _)) => tid
  | None =>
    match (if sm_names_held c then None else list_find (λ e, e.2 = name) (map_to_list (sm_topic_names c))) with
    | Some (_, (tid, _)) => tid
    | None => Uuid_zero
    end
  end.

Definition acknowledge (record : ShareConsumerRecord) (ack : ShareAckType) : async (result consumer_error unit) :=
  if bool_decide (sc_ack_mode sc = Implicit) then
    mret (Err (ConsumerError.IllegalState
      "acknowledge() is not allowed in implicit ack mode; records are auto-accepted on the next poll/close"))
  else
    topic_id ← share_reads (λ st, topic_id_for (sm st) (sr_topic record));
    share_local (λ l, set_pending_acks
      (sl_pending_acks l ++ [(topic_id, sr_partition record, sr_offset record, sr_offset record, ack_wire ack)]) l);;
    mret (Ok ()).

Definition build_share_ack_request (epoch : Z) (is_renew_ack : bool) (topics : list (Uuid * list (Z * list AckBatch)))
    : ShareAcknowledgeRequest := mkShareAck (sc_group_id sc) (sc_member_id sc) epoch is_renew_ack topics.

(** A [ShareAcknowledge] with the session's epoch, which an answer advances. *)
Definition send_acknowledge (is_renew_ack : bool) (acks : list PendingAck) : async (result consumer_error unit) :=
  request ← share_reads (λ st, build_share_ack_request (sl_session_epoch (sl st)) is_renew_ack (build_ack_topics acks));
  share_local (log_sent (AckSent request));;
  r ← share_wait (SendShareAcknowledge request);
  match r with
  | Err e => mret (Err (ConsumerError.Client e))
  | Ok resp =>
    if share_response_has_error (sx_error_code resp) then mret (Err (ConsumerError.Server (sx_error_code resp)))
    else
      share_local (λ l, set_session_epoch (next_session_epoch (sl_session_epoch l)) l);;
      mret (match first_share_ack_partition_error resp with
            | Some code => Err (ConsumerError.Server code)
            | None => Ok ()
            end)
  end.

Definition renew (record : ShareConsumerRecord) : async (result consumer_error unit) :=
  if bool_decide (sc_ack_mode sc = Implicit) then
    mret (Err (ConsumerError.IllegalState
      "renew() is not allowed in implicit ack mode; records are auto-accepted on the next poll/close"))
  else
    topic_id ← share_reads (λ st, topic_id_for (sm st) (sr_topic record));
    send_acknowledge true [(topic_id, sr_partition record, sr_offset record, sr_offset record, 4)].

Definition flush_pending_acks : async (result consumer_error unit) :=
  acks ← share_reads (λ st, sl_pending_acks (sl st));
  match acks with
  | [] => mret (Ok ())
  | _ => share_local (set_pending_acks []);; send_acknowledge false acks
  end.

Definition share_commit : async (result consumer_error unit) := flush_pending_acks.

(** ** Polls *)

(** The assignment, or what ends the poll without a fetch. *)
Fixpoint await_assignment (n : nat) (deadline : Z)
    : async (result consumer_error (option (list (Uuid * string * Z)))) :=
  match n with
  | O => spent (W := share_world)
  | S n =>
    error ← share_reads (λ st, sm_poll_error (sm st));
    match error with
    | Some e => share_common (with_poll_error None);; mret (Err e)
    | None =>
      share_wait ShareLock;; assignment ← share_reads (λ st, sm_assignment (sm st));
      if negb (bool_decide (assignment = [])) then mret (Ok (Some assignment))
      else
        t ← share_reads (λ st, sm_now (sm st));
        if deadline <=? t then mret (Ok None)
        else
          share_wait (ShareSleep (t + Z.min (deadline - t) 20000000));;
          await_assignment n deadline
    end
  end.

Definition name_for (assignment : list (Uuid * string * Z)) (id : Uuid) : string :=
  default "" (foldl (λ m a, <[a.1.1 := a.1.2]> m) (∅ : gmap Uuid string) assignment !! id).

(** The rows that a poll uses. *)
Definition usable_rows (responses : list ShareFetchTopic) : list (Uuid * SharePartitionData) :=
  responses ≫= λ t, (λ p, (fx_topic_id t, p)) <$>
    filter (λ p, share_response_has_error (sp_error_code p) = false) (fx_partitions t).

Definition delivered_ranges (rows : list (Uuid * SharePartitionData)) : list Delivered :=
  rows ≫= λ r, (λ ar, (r.1, sp_index r.2, aq_first ar, aq_last ar)) <$> sp_acquired_records r.2.

(** The milliseconds of a request, at most [i32::MAX]. *)
Definition share_wait_ms (nanos : Z) : Z := Z.min (Z.max 0 nanos / 1000000) i32_max.

Definition build_share_fetch_request (epoch timeout : Z) (topics : list (Uuid * list (Z * list AckBatch)))
    : ShareFetchRequest :=
  mkShareFetch (sc_group_id sc) (sc_member_id sc) epoch (share_wait_ms timeout) (sc_fetch_min sc) (sc_fetch_max sc)
    (sc_fetch_max_records sc) (sc_fetch_max_records sc) (acquire_wire (sc_acquire_mode sc)) topics.

Definition share_poll (fuel : nat) (timeout : Z) : async (result consumer_error (list ShareConsumerRecord)) :=
  t ← share_reads (λ st, sm_now (sm st));
  let deadline := t + timeout in
  assignment ←! await_assignment fuel deadline;
  match assignment with
  | None => mret (Ok [])
  | Some assignment =>
    acks ← share_reads (λ st, (take_piggyback_acks (sl st)).2);
    share_local (λ l, (take_piggyback_acks l).1);;
    request ← share_reads (λ st,
      build_share_fetch_request (sl_session_epoch (sl st)) (deadline - sm_now (sm st))
        (build_share_fetch_topics assignment acks));
    share_local (log_sent (FetchSent request));;
    r ← share_wait (SendShareFetch request);
    match r with
    | Err e => mret (Err (ConsumerError.Client e))
    | Ok resp =>
      if share_response_has_error (fx_error_code resp) then mret (Err (ConsumerError.Server (fx_error_code resp)))
      else
        share_local (λ l, set_session_epoch (next_session_epoch (sl_session_epoch l)) l);;
        let rows := usable_rows (fx_responses resp) in
        share_local (set_prev_delivered (delivered_ranges rows));;
        mret (Ok (rows ≫= λ r, share_partition_records (name_for assignment r.1) r.2))
    end
  end.

(** ** The close *)

Definition stage_implicit_accepts (l : ShareLocal) : ShareLocal :=
  set_prev_delivered []
    (set_pending_acks (sl_pending_acks l ++
       ((λ d : Delivered, (d.1.1.1, d.1.1.2, d.1.2, d.2, ack_wire Accept)) <$> sl_prev_delivered l)) l).

Definition share_close : async (result consumer_error unit) :=
  share_local (λ l, match sc_ack_mode sc with Implicit => stage_implicit_accepts l | Explicit => l end);;
  _ ← flush_pending_acks;
  share_local (set_shutdown true);;
  share_wait HeartbeatTaskEnded;;
  share_wait CloseTelemetry;;
  mret (Ok ()).

(** ** The heartbeat task *)

Definition share_assignment (names : gmap Uuid string) (topics : list (Uuid * list Z)) : list (Uuid * string * Z) :=
  topics ≫= λ t,
    (λ p, (t.1, match names !! t.1 with Some name => name | None => sc_hex_topic_id sc t.1 end, p)) <$> t.2.

Definition update_assignment (topics : list (Uuid * list Z)) : async unit :=
  share_wait ShareLock;; names ← share_reads (λ st, sm_topic_names (sm st));
  share_wait ShareLock;; share_common (with_assignment (share_assignment names topics)).

Definition share_heartbeat_once (rejoining : bool) : async ShareHeartbeatOutcome :=
  share_wait ShareLock;; epoch ← share_reads (λ st, sm_member_epoch (sm st));
  let subscribed := if rejoining then Some (sc_subscribe sc) else None in
  r ← share_wait (SendShareHeartbeat (mkShareHeartbeat (sc_group_id sc) (sc_member_id sc) epoch subscribed));
  match r with
  | Ok r =>
    match heartbeat_result (shr_error_code r) with
    | ShareOk =>
      share_wait ShareLock;; share_common (with_member_epoch (shr_member_epoch r));;
      match shr_assignment r with Some topics => update_assignment topics | None => mret () end;;
      mret ShareOk
    | outcome => mret outcome
    end
  | Err e =>
    let error := ConsumerError.Client e in
    (if reports_to_poll error then share_common (with_poll_error (Some error)) else mret ());;
    mret ShareTransient
  end.

(** One turn of [run]: whether the next heartbeat joins again, or [None] when
    the shutdown came. *)
Definition share_run_step (rejoining : bool) : async (option bool) :=
  e ← unless (W := share_world) ShareShutdown (share_wait ShareTick);
  match e with
  | inl _ => mret None
  | inr _ =>
    e ← unless (W := share_world) ShareShutdown (share_heartbeat_once rejoining);
    match e with
    | inl _ => mret None
    | inr ShareOk => mret (Some false)
    | inr ShareTransient => mret (Some rejoining)
    | inr RejoinFromScratch => share_wait ShareLock;; share_common (with_member_epoch 0);; mret (Some true)
    end
  end.

Fixpoint share_run_rounds (n : nat) (rejoining : bool) : async unit :=
  match n with
  | O => spent (W := share_world)
  | S n =>
    r ← share_run_step rejoining;
    match r with None => mret () | Some rejoining => share_run_rounds n rejoining end
  end.

Definition share_leave_group : async unit :=
  t ← share_reads (λ st, sm_now (sm st));
  _ ← unless (W := share_world) (ShareSleep (t + sc_leave_heartbeat_timeout sc))
        (share_wait (SendShareHeartbeat (mkShareHeartbeat (sc_group_id sc) (sc_member_id sc) (-1) None)));
  mret ().

Definition share_run (n : nat) : async unit := share_run_rounds n false;; share_leave_group.
End share.
