(* ===== verification/ShareTheorems.v ===== *)
(** * What a share consumer guarantees

    The acknowledgements that a request carries, the share session with the
    broker, and the records that a poll returns. *)

From S2P Require Import Prelude Bytes Errors ConsumerErrors FetchBuffer FetchDecode.
From S2P Require Import GroupIo GroupNet PollFetch Async PollTheorems Share.

(** ** Acknowledgements *)

Section acks.
Context {GA : GroupApi}.
Notation PendingAck := (Uuid * Z * Z * Z * Z)%type.

Definition batch_of (a : PendingAck) : AckBatch := wire_batch a.1.1.2 a.1.2 a.2.

(** The batches of one partition, in the order in which they were staged. *)
Definition batches_for (acks : list PendingAck) (key : Uuid * Z) : list AckBatch :=
  batch_of <$> filter (λ a, a.1.1.1 = key) acks.

Definition partitions_of (assignment : list (Uuid * string * Z)) (tid : Uuid) : list Z :=
  snd <$> filter (λ a, a.1.1 = tid) assignment.

Lemma batches_for_cons a acks key :
  batches_for (a :: acks) key = (if decide (a.1.1.1 = key) then [batch_of a] else []) ++ batches_for acks key.
Proof. unfold batches_for. rewrite filter_cons. by case_decide. Qed.

Lemma push_batches acks m key :
  default [] (foldl push_batch m acks !! key) = default [] (m !! key) ++ batches_for acks key.
Proof.
  revert m. induction acks as [|a acks IH]; intros m; [by rewrite app_nil_r|].
  cbn [foldl]. rewrite IH, batches_for_cons. destruct a as [[[[tid p] f] l] ack]. unfold push_batch. simpl.
  rewrite lookup_insert. destruct (decide ((tid, p) = key)) as [<-|]; [|done]. simpl. by rewrite <- (assoc_L (++)).
Qed.

(** Lists that a fold pushes under a key. *)
Lemma push_partitions acks assignment m tid :
  default [] (foldl (push_share_partition acks) m assignment !! tid) =
  default [] (m !! tid) ++ ((λ p, (p, default [] (acks !! (tid, p)))) <$> partitions_of assignment tid).
Proof.
  revert m. induction assignment as [|[[tid' name] p] assignment IH]; intros m; [by rewrite app_nil_r|].
  cbn [foldl]. rewrite IH. unfold push_share_partition, partitions_of. simpl. rewrite lookup_insert, filter_cons. simpl.
  destruct (decide (tid' = tid)) as [->|]; [|done]. simpl. by rewrite <- (assoc_L (++)).
Qed.

Lemma push_partitions_some acks assignment m tid :
  is_Some (foldl (push_share_partition acks) m assignment !! tid) ↔ is_Some (m !! tid) ∨ partitions_of assignment tid ≠ [].
Proof.
  revert m. induction assignment as [|[[tid' name] p] assignment IH]; intros m; [unfold partitions_of; simpl; tauto|].
  cbn [foldl]. rewrite IH. unfold push_share_partition, partitions_of. simpl. rewrite lookup_insert, filter_cons. simpl.
  destruct (decide (tid' = tid)) as [->|]; [|done]. split; [intros _; by right|intros _; left; eauto].
Qed.

Lemma fetch_topics_in assignment acks tid parts :
  (tid, parts) ∈ build_share_fetch_topics assignment acks ↔
  partitions_of assignment tid ≠ [] ∧ parts = (λ p, (p, default [] (acks !! (tid, p)))) <$> partitions_of assignment tid.
Proof.
  unfold build_share_fetch_topics. rewrite elem_of_map_to_list.
  pose proof (push_partitions acks assignment ∅ tid) as Hp. pose proof (push_partitions_some acks assignment ∅ tid) as Hs.
  rewrite lookup_empty in Hp, Hs. simpl in Hp.
  destruct (foldl _ ∅ assignment !! tid) as [parts'|]; simpl in Hp.
  - rewrite Hp. destruct Hs as [[?|Hs] _]; [eauto|by destruct H|]. split; [by intros [= <-]|by intros [_ ->]].
  - split; [done|]. intros [Hne _]. destruct Hs as [_ Hs]. destruct Hs as [? ?]; [by right|done].
Qed.

Definition at_partition (m : gmap Uuid (gmap Z (list AckBatch))) (tid : Uuid) (p : Z) : option (list AckBatch) :=
  m !! tid ≫= λ by_partition, by_partition !! p.

Lemma push_ack_topics acks m tid p :
  default [] (at_partition (foldl push_ack_topic m acks) tid p) =
    default [] (at_partition m tid p) ++ batches_for acks (tid, p) ∧
  (is_Some (at_partition (foldl push_ack_topic m acks) tid p) ↔
   is_Some (at_partition m tid p) ∨ batches_for acks (tid, p) ≠ []).
Proof.
  revert m. induction acks as [|a acks IH]; intros m; [rewrite app_nil_r; split; [done|unfold batches_for; simpl; tauto]|].
  cbn [foldl]. destruct (IH (push_ack_topic m a)) as [-> ->]. rewrite batches_for_cons.
  destruct a as [[[[tid' p'] f] l] ack]. unfold push_ack_topic, at_partition. simpl. rewrite lookup_insert.
  destruct (decide (tid' = tid)) as [->|Ht]; simpl.
  - rewrite lookup_insert. destruct (decide (p' = p)) as [->|Hp].
    + rewrite decide_True by done. destruct (m !! tid) as [by_partition|]; simpl; rewrite <- ?(assoc_L (++));
        (split; [done|]); (split; [intros _; by right|intros _; left; eauto]).
    + rewrite decide_False by congruence. destruct (m !! tid); simpl; [done|]. by rewrite lookup_empty.
  - rewrite decide_False by congruence. done.
Qed.

Lemma ack_topics_in acks tid parts p batches :
  (tid, parts) ∈ build_ack_topics acks → ((p, batches) ∈ parts ↔ batches = batches_for acks (tid, p) ∧ batches ≠ []).
Proof.
  unfold build_ack_topics. intros Hin. apply list_elem_of_fmap in Hin as ([tid' by_partition] & [= <- ->] & Hm).
  apply elem_of_map_to_list in Hm. rewrite elem_of_map_to_list.
  destruct (push_ack_topics acks ∅ tid p) as [Hd Hs]. unfold at_partition in Hd, Hs. rewrite Hm, lookup_empty in Hd, Hs. simpl in *.
  destruct (by_partition !! p) as [bs|]; simpl in *.
  - subst bs. destruct Hs as [[[? ?]|Hs] _]; [eauto|done|]. split; [intros [= <-]; done|by intros [-> _]].
  - split; [done|]. intros [-> Hne]. destruct Hs as [_ Hs]. destruct Hs as [? ?]; [by right|done].
Qed.

Lemma ack_topics_all acks tid p :
  batches_for acks (tid, p) ≠ [] → ∃ parts, (tid, parts) ∈ build_ack_topics acks.
Proof.
  intros Hne. destruct (push_ack_topics acks ∅ tid p) as [_ [_ Hs]]. destruct Hs as [bs Hs]; [by right|].
  unfold at_partition in Hs. destruct (foldl push_ack_topic ∅ acks !! tid) as [by_partition|] eqn:Hm; [|done].
  exists (map_to_list by_partition). unfold build_ack_topics. apply list_elem_of_fmap. exists (tid, by_partition).
  split; [done|]. by apply elem_of_map_to_list.
Qed.

(** The partitions that a request names. *)
Definition partitions_named (topics : list (Uuid * list (Z * list AckBatch))) : list (Uuid * Z) :=
  topics ≫= λ t, (λ e, (t.1, e.1)) <$> t.2.

Definition named (topics : list (Uuid * list (Z * list AckBatch))) (key : Uuid * Z) (batches : list AckBatch) : Prop :=
  ∃ parts, (key.1, parts) ∈ topics ∧ (key.2, batches) ∈ parts.

Lemma partition_is_named topics key : key ∈ partitions_named topics ↔ ∃ batches, named topics key batches.
Proof.
  unfold partitions_named, named. rewrite list_elem_of_bind. destruct key as [tid p]. split.
  - intros ([tid' parts] & He & Ht). apply list_elem_of_fmap in He as ([p' batches] & [= -> ->] & Hp). simpl. eauto.
  - intros (batches & parts & Ht & Hp). exists (tid, parts). split; [|done]. apply list_elem_of_fmap. by exists (p, batches).
Qed.

Lemma partitions_named_app t1 t2 : partitions_named (t1 ++ t2) = partitions_named t1 ++ partitions_named t2.
Proof. apply bind_app. Qed.

Lemma partitions_named_perm t1 t2 : t1 ≡ₚ t2 → partitions_named t1 ≡ₚ partitions_named t2.
Proof. intros H. unfold partitions_named. by rewrite H. Qed.

Lemma partitions_named_insert (m : gmap Uuid (list (Z * list AckBatch))) tid parts :
  partitions_named (map_to_list (<[tid := parts]> m)) ≡ₚ
  ((λ e, (tid, e.1)) <$> parts) ++ partitions_named (map_to_list (delete tid m)).
Proof.
  rewrite <- insert_delete_eq. etrans.
  - apply partitions_named_perm, map_to_list_insert, lookup_delete_eq.
  - done.
Qed.

Lemma partitions_named_delete (m : gmap Uuid (list (Z * list AckBatch))) tid :
  partitions_named (map_to_list m) ≡ₚ
  ((λ e, (tid, e.1)) <$> default [] (m !! tid)) ++ partitions_named (map_to_list (delete tid m)).
Proof.
  destruct (m !! tid) as [parts|] eqn:E; simpl; [|by rewrite delete_id].
  rewrite <- (insert_id m tid parts) at 1 by done. apply partitions_named_insert.
Qed.

(** A fetch names the assigned partitions, each as often as it is assigned. *)
Lemma fetch_partitions_named assignment acks :
  partitions_named (build_share_fetch_topics assignment acks) ≡ₚ (λ a, (a.1.1, a.2)) <$> assignment.
Proof.
  unfold build_share_fetch_topics.
  enough (∀ m, partitions_named (map_to_list (foldl (push_share_partition acks) m assignment)) ≡ₚ
    partitions_named (map_to_list m) ++ ((λ a, (a.1.1, a.2)) <$> assignment)) as -> by (by rewrite map_to_list_empty).
  induction assignment as [|[[tid name] p] assignment IH]; intros m; simpl; [by rewrite app_nil_r|].
  rewrite IH. unfold push_share_partition. rewrite partitions_named_insert, (partitions_named_delete m tid), fmap_app. simpl.
  set (x := (λ e, (tid, e.1)) <$> default [] (m !! tid)). set (y := partitions_named _). set (z := fmap _ assignment).
  rewrite <- !(assoc_L (++)). apply Permutation_app_head. simpl. by rewrite Permutation_middle.
Qed.

Lemma fetch_named assignment acks key batches :
  named (build_share_fetch_topics assignment acks) key batches → batches = default [] (acks !! key).
Proof.
  destruct key as [tid p]. intros (parts & Hin & Hp). apply fetch_topics_in in Hin as [_ ->].
  apply list_elem_of_fmap in Hp as (p' & [= -> ->] & _). done.
Qed.

Lemma ack_partitions_named acks : NoDup (partitions_named (build_ack_topics acks)).
Proof.
  unfold partitions_named, build_ack_topics. rewrite list_fmap_bind. apply NoDup_bind.
  - intros [t1 m1] [t2 m2] [tid p] H1 H2 Hp1 Hp2. simpl in *.
    apply list_elem_of_fmap in Hp1 as (? & [= -> _] & _). apply list_elem_of_fmap in Hp2 as (? & [= <- _] & _).
    apply elem_of_map_to_list in H1, H2. congruence.
  - intros [tid m] _. simpl. change (NoDup ((pair tid ∘ fst) <$> map_to_list m)). rewrite list_fmap_compose.
    apply NoDup_fmap; [by intros ? ? [= ->]|]. apply NoDup_fst_map_to_list.
  - apply NoDup_map_to_list.
Qed.

Lemma ack_named acks key batches :
  named (build_ack_topics acks) key batches ↔ batches = batches_for acks key ∧ batches ≠ [].
Proof.
  destruct key as [tid p]. split.
  - intros (parts & Ht & Hp). by eapply ack_topics_in.
  - intros [-> Hne]. destruct (ack_topics_all acks tid p Hne) as [parts Hparts]. exists parts. split; [done|].
    by eapply ack_topics_in.
Qed.

(** ** What is due *)

(** A batch acknowledges every offset of a range, with one type each. *)
Definition acknowledges (b : AckBatch) (due : Z * Z * Z) : Prop :=
  let '(first, last, type_) := due in
  ab_first b = first ∧ ab_last b = last ∧ Z.of_nat (length (ab_types b)) = Z.max 0 (last - first + 1) ∧
  ∀ t, t ∈ ab_types b → t = type_.

(** The ranges of a partition that the application acknowledged, and those that
    the last poll delivered, which the implicit mode accepts. *)
Definition staged (l : ShareLocal) (key : Uuid * Z) : list (Z * Z * Z) :=
  (λ a, (a.1.1.2, a.1.2, a.2)) <$> filter (λ a, a.1.1.1 = key) (sl_pending_acks l).

Definition delivered (l : ShareLocal) (key : Uuid * Z) : list (Z * Z * Z) :=
  (λ d, (d.1.2, d.2, 1)) <$> filter (λ d, d.1.1 = key) (sl_prev_delivered l).

Lemma batch_acknowledges a : acknowledges (batch_of a) (a.1.1.2, a.1.2, a.2).
Proof.
  unfold batch_of, wire_batch, range_len. split_and!; [done..| |].
  - simpl. rewrite length_replicate. lia.
  - simpl. intros t Ht. by apply elem_of_replicate in Ht as [-> _].
Qed.

Lemma acknowledges_inj b b' due : acknowledges b due → acknowledges b' due → b = b'.
Proof.
  destruct due as [[first last] t], b as [f l ts], b' as [f' l' ts']. simpl.
  intros (-> & -> & Hlen & Ht) (-> & -> & Hlen' & Ht'). f_equal.
  assert (length ts = length ts') as E by lia. clear Hlen Hlen'.
  revert ts' E Ht'. induction ts as [|x ts IH]; intros [|x' ts'] E Ht'; try done. simpl in E. f_equal.
  - rewrite (Ht x), (Ht' x'); [done|set_solver..].
  - apply IH; [set_solver|lia|set_solver].
Qed.

Lemma batches_due acks key batches :
  batches = batches_for acks key ↔
  Forall2 acknowledges batches ((λ a : PendingAck, (a.1.1.2, a.1.2, a.2)) <$> filter (λ a, a.1.1.1 = key) acks).
Proof.
  assert (Forall2 acknowledges (batches_for acks key)
    ((λ a : PendingAck, (a.1.1.2, a.1.2, a.2)) <$> filter (λ a, a.1.1.1 = key) acks)) as Hall.
  { unfold batches_for. apply Forall2_fmap_2, Forall_Forall2_diag, Forall_true. intros a. apply batch_acknowledges. }
  split; [by intros ->|]. revert Hall. generalize (batches_for acks key). generalize ((λ a : PendingAck, (a.1.1.2, a.1.2, a.2)) <$> filter (λ a, a.1.1.1 = key) acks).
  intros due bs H. revert batches. induction H as [|b d bs ds Hb H IH]; intros batches H2; inversion H2; subst; [done|].
  f_equal; [by eapply acknowledges_inj|by apply IH].
Qed.
End acks.

(** ** The share session *)

Section session.
Context {GA : GroupApi} (sc : ShareConfig).

(** The broker's session: the epoch that it expects. A fetch with epoch 0 opens
    a session; a request with another epoch than the expected one is refused
    with an error, and changes nothing. *)
Definition request_epoch (r : ShareRequest) : Z :=
  match r with FetchSent r => sf_session_epoch r | AckSent r => sa_session_epoch r end.

Definition opens_session (r : ShareRequest) : bool :=
  match r with FetchSent r => sf_session_epoch r =? 0 | AckSent _ => false end.

Definition broker_next (epoch : Z) : Z := if epoch =? i32_max then 1 else epoch + 1.

Definition accepts (expected : option Z) (r : ShareRequest) : bool :=
  opens_session r || bool_decide (expected = Some (request_epoch r)).

Definition session_epoch (st : ShareState) : Z := sl_session_epoch (sl st).
Definition expected (st : ShareState) : option Z := sm_expected (sm st).

(** The broker's session becomes [e], or the broker drops it, where it may. *)
Definition session_becomes (keeps : bool) (e : option Z) (c : ShareCommon) : Prop :=
  sm_expected c = e ∨ keeps = false ∧ sm_expected c = None.

Definition counted (keeps : bool) (st : ShareState) (r : ShareRequest) (c : ShareCommon) : Prop :=
  accepts (expected st) r = true ∧ session_becomes keeps (Some (broker_next (request_epoch r))) c.

(** The answer to a request, [None] one that is lost. One without an error is an
    answer to a request that the broker counted; for any other the broker may
    have counted the request or not. *)
Definition session_answer (keeps : bool) (st : ShareState) (r : ShareRequest) (code : option Z) (c : ShareCommon) : Prop :=
  counted keeps st r c ∨ code ≠ Some 0 ∧ session_becomes keeps (expected st) c.

Definition code_of {X} (code : X → Z) (ans : result ClientError.client_error X) : option Z :=
  match ans with Ok resp => Some (code resp) | Err _ => None end.

(** The clock does not go back, and only requests change the broker's session;
    with [keeps] the broker drops none. *)
Definition share_env (keeps : bool) : env := λ r st ans c,
  sm_now (sm st) ≤ sm_now c ∧
  match r return share_answer r → Prop with
  | SendShareFetch r => λ ans, session_answer keeps st (FetchSent r) (code_of fx_error_code ans) c
  | SendShareAcknowledge r => λ ans, session_answer keeps st (AckSent r) (code_of sx_error_code ans) c
  | ShareSleep until => λ _, until ≤ sm_now c ∧ session_becomes keeps (expected st) c
  | _ => λ _, session_becomes keeps (expected st) c
  end ans.

Notation SAFE keeps m Q := (safe (share_env keeps) (λ _, True) False m Q).

Lemma share_await (E : env) r st (Q : share_answer r → ShareState → Prop) :
  (∀ ans c, E r st ans c → Q ans (mkShareState (sl st) c)) → safe E (λ _, True) False (share_wait r st) Q.
Proof. intros HQ. split; [done|]. exact HQ. Qed.

(** Rounds enough for every sleep of 20 ms up to the deadline. *)
Definition rounds_enough (n : nat) (deadline : Z) (st : ShareState) : Prop :=
  deadline - sm_now (sm st) ≤ 20000000 * (Z.of_nat n - 1) ∧ (1 ≤ n)%nat.

(** The wait for an assignment ends, leaves the consumer's own state alone, and
    the broker's session as it is or dropped. *)
Lemma await_assignment_ok (E : env) keeps n deadline st (Q : _ → _ → Prop) :
  (∀ r st ans c, E r st ans c → share_env keeps r st ans c) →
  rounds_enough n deadline st →
  (∀ r st', sl st' = sl st → session_becomes keeps (expected st) (sm st') →
     (∀ a, r = Ok (Some a) → ∃ st0 c, E ShareLock st0 () c ∧ sm st' = c ∧ sm_assignment c = a) → Q r st') →
  safe E (λ _, True) False (await_assignment n deadline st) Q.
Proof.
  intros HE. revert st. induction n as [|n IH]; intros st [Hn H1] HQ; [lia|]. cbn [await_assignment].
  unfold share_reads, share_common. safe_pure. destruct (sm_poll_error (sm st)) as [e|] eqn:He.
  { safe_pure. apply HQ; [done|by left|]. intros a [=]. }
  safe_pure. apply share_await. intros [] c Hc. destruct (HE _ _ _ _ Hc) as [Ht Hb].
  safe_pure. simpl. case_match.
  { safe_pure. apply HQ; [done..|]. intros a [= <-]. by exists st, c. }
  safe_pure. simpl. case_match eqn:Hd; [safe_pure; apply HQ; [done..|]; intros a [=]|].
  apply Z.leb_gt in Hd.
  safe_pure. apply share_await. intros [] c' Hc'. destruct (HE _ _ _ _ Hc') as (Ht' & Hu & Hb'). simpl in Ht', Hu.
  apply IH; [unfold rounds_enough; simpl; lia|]. intros r st' Hsl Hs. apply HQ; [done|].
  unfold session_becomes, expected in *. simpl in *. naive_solver congruence.
Qed.

(** The consumer and the broker agree. *)
Definition in_sync (st : ShareState) : Prop :=
  0 ≤ session_epoch st ∧ (session_epoch st = 0 ∨ expected st = Some (session_epoch st)).

(** The broker counted a request for whose answer the call failed. *)
Definition missed (st st' : ShareState) : Prop :=
  session_epoch st' = session_epoch st ∧ expected st' = Some (session_epoch st + 1).

(** The request that a call sends, if it sends one, has an epoch that the broker
    accepts; but an acknowledgement that comes before the first fetch. *)
Definition sends_accepted (st st' : ShareState) : Prop :=
  sl_sent (sl st') = sl_sent (sl st) ∨
  ∃ q, sl_sent (sl st') = sl_sent (sl st) ++ [q] ∧
    (accepts (expected st) q = true ∨ session_epoch st = 0 ∧ ∃ r, q = AckSent r).

(** What a call keeps of the session. *)
Definition session_kept {A} (st : ShareState) (r : result consumer_error A) (st' : ShareState) : Prop :=
  sends_accepted st st' ∧
  (in_sync st' ∧ session_epoch st ≤ session_epoch st' ≤ session_epoch st + 1 ∨
   (∃ e, r = Err e) ∧ missed st st').

Lemma next_epoch_small e : 0 ≤ e < i32_max → next_session_epoch e = e + 1 ∧ broker_next e = e + 1.
Proof.
  intros He. unfold next_session_epoch, broker_next, cast_signed. rewrite Z.mod_small by (unfold i32_max in *; lia).
  rewrite (proj2 (Z.ltb_lt _ _)) by (unfold i32_max in *; simpl; lia).
  rewrite (proj2 (Z.eqb_neq _ _)) by lia. done.
Qed.

Lemma becomes_kept e c : session_becomes true e c ↔ sm_expected c = e.
Proof. unfold session_becomes. naive_solver. Qed.

Lemma unsent_kept {A} st (r : result consumer_error A) st' :
  in_sync st → sl st' = sl st → expected st' = expected st → session_kept st r st'.
Proof.
  intros [H0 Hs] Hsl He. unfold session_kept, sends_accepted, in_sync, session_epoch in *. rewrite Hsl, He.
  split; [by left|]. left. split; [done|lia].
Qed.

(** A request whose epoch is the consumer's, and its answer. *)
Lemma answered_kept {A} st q code c l (r : result consumer_error A) :
  in_sync st → session_epoch st < i32_max → request_epoch q = session_epoch st →
  opens_session q = true ∨ (∃ a, q = AckSent a) ∨ session_epoch st ≠ 0 →
  session_answer true st q code c → sl_sent l = sl_sent (sl st) ++ [q] →
  (code = Some 0 ∧ sl_session_epoch l = next_session_epoch (session_epoch st) ∨
   code ≠ Some 0 ∧ sl_session_epoch l = session_epoch st ∧ ∃ e, r = Err e) →
  session_kept st r (mkShareState l c).
Proof.
  intros [H0 Hs] Hmax Hq Ho Ha Hl Hc. destruct (next_epoch_small (session_epoch st)) as [Hn Hb]; [lia|].
  split.
  { right. exists q. split; [done|]. unfold accepts. rewrite Hq.
    destruct Ho as [->|Ho]; [by left|]. destruct Hs as [Hs|Hs]; [right; naive_solver|].
    left. apply orb_true_iff. right. by apply bool_decide_eq_true. }
  unfold session_answer, counted in Ha. rewrite !becomes_kept, Hq, Hb in Ha.
  unfold in_sync, missed, expected in *. unfold session_epoch in *. simpl.
  destruct Hc as [[-> ->]|(Hne & -> & He)].
  - left. destruct Ha as [[_ ->]|[? _]]; [|done]. rewrite Hn. split; [|lia]. split; [lia|by right].
  - destruct Ha as [[_ Hx]|[_ Hx]]; [right; split; done|]. left. rewrite Hx. split; [by split|lia].
Qed.

Lemma no_error code : share_response_has_error code = false ↔ code = 0.
Proof. unfold share_response_has_error. rewrite negb_false_iff. lia. Qed.

Lemma send_acknowledge_ok renew acks st :
  in_sync st → session_epoch st < i32_max →
  SAFE true (send_acknowledge sc renew acks st) (λ r st', session_kept st r st').
Proof.
  intros Hs He. unfold send_acknowledge, share_reads, share_local. safe_pure. apply share_await. intros ans c [_ HE].
  destruct ans as [resp|e]; simpl in HE.
  - destruct (share_response_has_error (sx_error_code resp)) eqn:Herr; safe_pure.
    + eapply answered_kept; [done|done| |by right; left; eexists|exact HE|done|]; [done|].
      right. split; [|by eauto]. intros [= E]. apply no_error in E. congruence.
    + apply no_error in Herr.
      eapply answered_kept; [done|done| |by right; left; eexists|exact HE|done|]; [done|]. left. by rewrite Herr.
  - safe_pure. eapply answered_kept; [done|done| |by right; left; eexists|exact HE|done|]; [done|]. right. by eauto.
Qed.

Lemma take_session (l : ShareLocal) :
  sl_session_epoch (take_piggyback_acks sc l).1 = sl_session_epoch l ∧ sl_sent (take_piggyback_acks sc l).1 = sl_sent l.
Proof. unfold take_piggyback_acks. by destruct (sc_ack_mode sc). Qed.

Lemma share_poll_ok fuel timeout st :
  rounds_enough fuel (sm_now (sm st) + timeout) st → in_sync st → session_epoch st < i32_max →
  SAFE true (share_poll sc fuel timeout st) (λ r st', session_kept st r st').
Proof.
  intros Hf Hs He. unfold share_poll, share_reads, share_local. safe_pure.
  apply (await_assignment_ok _ true); [done..|]. intros r st1 Hsl Hx _. rewrite becomes_kept in Hx.
  destruct r as [[assignment|]|e]; safe_pure; [|by apply unsent_kept..].
  apply share_await. intros ans c [_ HE]. destruct (take_session (sl st1)) as [Htake Hsent].
  assert (session_epoch st1 = session_epoch st) as He1 by (unfold session_epoch; by rewrite Hsl).
  set (q := FetchSent _) in *.
  assert (∀ l code r, sl_sent l = sl_sent (sl st1) ++ [q] → session_answer true st q code c →
    (code = Some 0 ∧ sl_session_epoch l = next_session_epoch (session_epoch st) ∨
     code ≠ Some 0 ∧ sl_session_epoch l = session_epoch st ∧ ∃ e, r = Err e) →
    session_kept st (r : result consumer_error (list ShareConsumerRecord)) (mkShareState l c)) as Hkept.
  { intros l code r Hl Ha Hc. rewrite Hsl in Hl.
    assert (request_epoch q = session_epoch st) as Hq by exact (eq_trans Htake He1).
    eapply (answered_kept st q); [done..| |exact Ha|done|exact Hc].
    destruct (decide (session_epoch st = 0)) as [Hz|]; [|by right; right]. left.
    apply Z.eqb_eq. exact (eq_trans Hq Hz). }
  unfold session_answer, counted, expected in HE. simpl in HE. unfold expected in Hx. rewrite Hx in HE.
  destruct ans as [resp|e]; simpl in HE.
  - destruct (share_response_has_error (fx_error_code resp)) eqn:Herr; safe_pure.
    + eapply Hkept; [exact (f_equal (λ x, x ++ [q]) Hsent)|exact HE|]. right. split_and!; [|exact (eq_trans Htake He1)|eauto].
      intros [= E]. apply no_error in E. congruence.
    + apply no_error in Herr. eapply Hkept; [exact (f_equal (λ x, x ++ [q]) Hsent)|exact HE|]. left.
      split; [by rewrite Herr|]. exact (f_equal next_session_epoch (eq_trans Htake He1)).
  - safe_pure. eapply Hkept; [exact (f_equal (λ x, x ++ [q]) Hsent)|exact HE|]. right. split_and!; [done|exact (eq_trans Htake He1)|eauto].
Qed.

Lemma renew_ok record st :
  in_sync st → session_epoch st < i32_max → SAFE true (renew sc record st) (λ r st', session_kept st r st').
Proof.
  intros Hs He. unfold renew, share_reads. case_bool_decide; safe_pure; [by apply unsent_kept|].
  by apply send_acknowledge_ok.
Qed.

Lemma share_commit_ok st :
  in_sync st → session_epoch st < i32_max → SAFE true (share_commit sc st) (λ r st', session_kept st r st').
Proof.
  intros Hs He. unfold share_commit, flush_pending_acks, share_reads, share_local. safe_pure.
  destruct (sl_pending_acks (sl st)) as [|a acks]; safe_pure; [by apply unsent_kept|].
  eapply safe_mono; [|by apply send_acknowledge_ok]. done.
Qed.

(** The consumer sends an epoch that the broker does not expect. *)
Definition out_of_sync (st : ShareState) : Prop := 0 < session_epoch st ∧ expected st ≠ Some (session_epoch st).

Lemma becomes_out keeps st st' :
  out_of_sync st → sl st' = sl st → session_becomes keeps (expected st) (sm st') → out_of_sync st'.
Proof.
  unfold out_of_sync, session_becomes, session_epoch, expected. intros [? ?] -> Hs. split; [done|].
  destruct Hs as [->|[_ ->]]; [done|congruence].
Qed.

(** A request of a consumer that is out of step is refused. *)
Lemma refused_out st q code c l :
  out_of_sync st → request_epoch q = session_epoch st → sl_session_epoch l = session_epoch st →
  session_answer false st q code c → code ≠ Some 0 ∧ out_of_sync (mkShareState l c).
Proof.
  intros [He Hne] Hq Hl [[Ha _]|[Hc Hs]].
  { exfalso. unfold accepts in Ha. rewrite Hq, bool_decide_eq_false_2, orb_false_r in Ha by done.
    unfold opens_session in Ha. destruct q; [|done]. simpl in Hq. lia. }
  split; [done|]. unfold out_of_sync, session_epoch, session_becomes, expected in *. simpl. rewrite Hl.
  split; [done|]. destruct Hs as [->|[_ ->]]; [done|congruence].
Qed.

Lemma send_acknowledge_out renew acks st :
  out_of_sync st →
  SAFE false (send_acknowledge sc renew acks st) (λ r st', out_of_sync st' ∧ ∃ e, r = Err e).
Proof.
  intros Hout. unfold send_acknowledge, share_reads, share_local. safe_pure. apply share_await. intros ans c [_ HE].
  destruct ans as [resp|e]; simpl in HE; (eapply refused_out in HE as [Hc Ho]; [|done..]); [|safe_pure; by eauto].
  destruct (share_response_has_error (sx_error_code resp)) eqn:Herr; [safe_pure; by eauto|].
  apply no_error in Herr. congruence.
Qed.

Lemma share_poll_out fuel timeout st :
  rounds_enough fuel (sm_now (sm st) + timeout) st → out_of_sync st →
  SAFE false (share_poll sc fuel timeout st)
    (λ r st', out_of_sync st' ∧ match r with Ok records => records = [] | Err _ => True end).
Proof.
  intros Hf Hout. unfold share_poll, share_reads, share_local. safe_pure.
  apply (await_assignment_ok _ false); [done..|]. intros r st1 Hsl Hb _.
  pose proof (becomes_out _ _ _ Hout Hsl Hb) as Hout1.
  destruct r as [[assignment|]|e]; [|safe_pure; done|done]. safe_pure.
  apply share_await. intros ans c [_ HE]. destruct (take_session (sl st1)) as [Htake _].
  assert (∀ code q, session_answer false (mkShareState (log_sent q (take_piggyback_acks sc (sl st1)).1) (sm st1)) q code c →
    session_answer false st1 q code c) as Hans by done.
  destruct ans as [resp|e]; simpl in HE; apply Hans in HE;
    (eapply refused_out in HE as [Hc Ho]; [|done|exact Htake|exact Htake]); [|safe_pure; by eauto].
  destruct (share_response_has_error (fx_error_code resp)) eqn:Herr; [safe_pure; by eauto|].
  apply no_error in Herr. congruence.
Qed.
End session.

(** C36: the share session stays in step, as long as the broker drops none. When the broker expects the
    epoch that the consumer holds, or the consumer is about to open its session,
    every [poll], [renew] and [commit] ends, whatever the broker answers; a
    request that it sends has an epoch that the broker accepts; and after it the
    two agree again, whether the answer had an error or not, up to the largest
    epoch. The one exception is a call that fails although the broker counted its
    request, as when the answer is lost on its way. The loop that waits for
    an assignment needs at most one round for each 20 ms of the poll's timeout,
    and one more. *)
Theorem share_session_in_sync {GA : GroupApi} sc fuel timeout record st :
  in_sync st → session_epoch st < i32_max → rounds_enough fuel (sm_now (sm st) + timeout) st →
  (finishes (share_env true) (share_poll sc fuel timeout st) ∧
   ∀ r st', results (share_env true) (share_poll sc fuel timeout st) r st' → session_kept st r st') ∧
  (finishes (share_env true) (renew sc record st) ∧
   ∀ r st', results (share_env true) (renew sc record st) r st' → session_kept st r st') ∧
  (finishes (share_env true) (share_commit sc st) ∧
   ∀ r st', results (share_env true) (share_commit sc st) r st' → session_kept st r st').
Proof.
  intros Hs He Hf. split; [|split]; eapply safe_complete.
  - by apply share_poll_ok.
  - by apply renew_ok.
  - by apply share_commit_ok.
Qed.

(** one lost answer ends a share consumer. Once the consumer holds an epoch
    that the broker does not expect, as after an answer that was lost on its
    way, the broker refuses every request, and the consumer never opens a new
    session. So every later [poll] fails or returns nothing, every
    [ShareAcknowledge] fails, and the two stay out of step. *)
Theorem lost_answer_ends_session {GA : GroupApi} sc fuel timeout st :
  out_of_sync st → rounds_enough fuel (sm_now (sm st) + timeout) st →
  (finishes (share_env false) (share_poll sc fuel timeout st) ∧
   ∀ r st', results (share_env false) (share_poll sc fuel timeout st) r st' →
     out_of_sync st' ∧ match r with Ok records => records = [] | Err _ => True end) ∧
  (∀ renewing acks,
   finishes (share_env false) (send_acknowledge sc renewing acks st) ∧
   ∀ r st', results (share_env false) (send_acknowledge sc renewing acks st) r st' →
     out_of_sync st' ∧ ∃ e, r = Err e).
Proof.
  intros Hout Hf. split; [|intros renewing acks]; eapply safe_complete.
  - by apply share_poll_out.
  - by apply send_acknowledge_out.
Qed.

(** ** The acknowledgements of a call *)

Section calls.
Context {GA : GroupApi} (sc : ShareConfig) (assignment : list (Uuid * string * Z)).

(** The partitions of the consumer stay the same. *)
Definition assigned_env : env := λ r st ans c, share_env false r st ans c ∧ sm_assignment c = assignment.

Notation SAFE m Q := (safe assigned_env (λ _, True) False m Q).

(** What the next fetch acknowledges of a partition, and what a close does. *)
Definition due_at_poll (l : ShareLocal) (key : Uuid * Z) : list (Z * Z * Z) :=
  match sc_ack_mode sc with Implicit => delivered l key | Explicit => staged l key end.

Definition due_at_close (l : ShareLocal) (key : Uuid * Z) : list (Z * Z * Z) :=
  staged l key ++ match sc_ack_mode sc with Implicit => delivered l key | Explicit => [] end.

Definition assigned : list (Uuid * Z) := (λ a, (a.1.1, a.2)) <$> assignment.

(** What is due is of partitions that are still assigned. *)
Definition due_stays_assigned (l : ShareLocal) : Prop :=
  ∀ key, due_at_poll l key ≠ [] → key ∈ assigned.

(** One fetch that names the assigned partitions, each partition for which
    something is due among them, and acknowledges for each of them what is due,
    in its order. *)
Definition fetch_acknowledges (l : ShareLocal) (sent : list ShareRequest) : Prop :=
  ∃ q, sent = sl_sent l ++ [FetchSent q] ∧
    partitions_named (sf_topics q) ≡ₚ assigned ∧
    (∀ key, due_at_poll l key ≠ [] → ∃ batches, named (sf_topics q) key batches) ∧
    ∀ key batches, named (sf_topics q) key batches → Forall2 acknowledges batches (due_at_poll l key).

(** No request when nothing is due, and otherwise one [ShareAcknowledge], which
    has for each partition what is due, in its order. *)
Definition ack_acknowledges (due : Uuid * Z → list (Z * Z * Z)) (l : ShareLocal) (sent : list ShareRequest) : Prop :=
  sent = sl_sent l ∧ (∀ key, due key = []) ∨
  ∃ q, sent = sl_sent l ++ [AckSent q] ∧ NoDup (partitions_named (sa_topics q)) ∧
    ∀ key batches, named (sa_topics q) key batches ↔ batches ≠ [] ∧ Forall2 acknowledges batches (due key).

Lemma staged_acks_due l key :
  (λ a, (a.1.1.2, a.1.2, a.2)) <$> filter (λ a, a.1.1.1 = key) (staged_acks sc l) = due_at_poll l key.
Proof.
  unfold staged_acks, due_at_poll, staged, delivered. destruct (sc_ack_mode sc); [|done].
  induction (sl_prev_delivered l) as [|d ds IH]; [done|]. rewrite fmap_cons, !filter_cons. destruct d as [[[tid p] f] la]. simpl.
  destruct (decide ((tid, p) = key)); simpl; [f_equal|]; exact IH.
Qed.

Lemma poll_request_acknowledges l epoch timeout :
  due_stays_assigned l →
  fetch_acknowledges l (sl_sent l ++ [FetchSent (build_share_fetch_request sc epoch timeout
    (build_share_fetch_topics assignment (take_piggyback_acks sc l).2))]).
Proof.
  intros Hstay. eexists. split; [done|]. simpl. split; [apply fetch_partitions_named|]. split.
  { intros key Hdue. apply partition_is_named. unfold assigned in Hstay. rewrite fetch_partitions_named. by apply Hstay. }
  intros key batches Hn. apply fetch_named in Hn as ->. rewrite <- staged_acks_due. apply batches_due.
  unfold take_piggyback_acks. simpl. by rewrite push_batches, lookup_empty.
Qed.

(** What a poll leaves staged: in explicit mode nothing of what it sent. *)
Definition drained (st st' : ShareState) : Prop :=
  sl_pending_acks (sl st') = match sc_ack_mode sc with Implicit => sl_pending_acks (sl st) | Explicit => [] end.

Lemma share_poll_acks fuel timeout st :
  rounds_enough fuel (sm_now (sm st) + timeout) st → due_stays_assigned (sl st) →
  SAFE (share_poll sc fuel timeout st) (λ r st',
    sl st' = sl st ∨
    fetch_acknowledges (sl st) (sl_sent (sl st')) ∧ drained st st' ∧
      (∀ e, r = Err e → sl_prev_delivered (sl st') = [])).
Proof.
  intros Hf Hstay. unfold share_poll, share_reads, share_local. safe_pure.
  apply (await_assignment_ok _ false); [by intros ? ? ? ? [? _]|done|]. intros r st1 Hsl _ Ha.
  destruct r as [[a|]|e]; safe_pure; [|by left..].
  destruct (Ha a eq_refl) as (st0 & c0 & [_ Hc0] & _ & Ea). rewrite Hc0 in Ea. subst a.
  pose proof (λ epoch timeout, poll_request_acknowledges (sl st1) epoch timeout ltac:(by rewrite Hsl)) as Hq.
  assert (∀ l : ShareLocal, sl_pending_acks (take_piggyback_acks sc l).1 =
    match sc_ack_mode sc with Implicit => sl_pending_acks l | Explicit => [] end ∧
    sl_sent (take_piggyback_acks sc l).1 = sl_sent l ∧ sl_prev_delivered (take_piggyback_acks sc l).1 = []) as Htake
    by (intros l; unfold take_piggyback_acks; by destruct (sc_ack_mode sc)).
  destruct (Htake (sl st1)) as (Hp & Hs & Hd). unfold drained. rewrite <- Hsl.
  apply (share_await assigned_env). intros ans c _. destruct ans as [resp|e]; [destruct (share_response_has_error (fx_error_code resp))|]; safe_pure; right;
    (split; [cbn [sl sl_sent log_sent set_prev_delivered set_session_epoch]; rewrite Hs; apply Hq
     |split; [exact Hp|by intros e' [=]]]).
Qed.

Lemma send_acknowledge_acks renewing acks st :
  SAFE (send_acknowledge sc renewing acks st) (λ _ st',
    sl_sent (sl st') = sl_sent (sl st) ++ [AckSent (build_share_ack_request sc (session_epoch st) renewing (build_ack_topics acks))] ∧
    sl_pending_acks (sl st') = sl_pending_acks (sl st)).
Proof.
  unfold send_acknowledge, share_reads, share_local. safe_pure. apply share_await. intros ans c _.
  destruct ans as [resp|e]; [case_match|]; by safe_pure.
Qed.

Lemma flush_acks st :
  SAFE (flush_pending_acks sc st) (λ _ st',
    ack_acknowledges (staged (sl st)) (sl st) (sl_sent (sl st')) ∧ sl_pending_acks (sl st') = []).
Proof.
  unfold flush_pending_acks, share_reads, share_local. safe_pure.
  destruct (sl_pending_acks (sl st)) as [|a acks] eqn:E; safe_pure.
  { split; [|done]. left. split; [done|]. intros key. unfold staged. by rewrite E. }
  eapply safe_mono; [|apply send_acknowledge_acks]. intros _ st' [-> Hp]. split; [|done]. right. eexists. split; [done|].
  split; [apply ack_partitions_named|]. intros key batches. simpl. rewrite ack_named, batches_due. unfold staged. rewrite E. tauto.
Qed.

Lemma close_due l key : staged (match sc_ack_mode sc with Implicit => stage_implicit_accepts l | Explicit => l end) key = due_at_close l key.
Proof.
  unfold due_at_close. destruct (sc_ack_mode sc) eqn:Em; [|by rewrite app_nil_r].
  unfold staged, stage_implicit_accepts. simpl. rewrite filter_app, fmap_app. f_equal.
  pose proof (staged_acks_due l key) as H. unfold staged_acks, due_at_poll in H. rewrite Em in H. exact H.
Qed.

Lemma share_close_acks st :
  SAFE (share_close sc st) (λ _ st',
    ack_acknowledges (due_at_close (sl st)) (sl st) (sl_sent (sl st')) ∧ sl_pending_acks (sl st') = []).
Proof.
  unfold share_close, share_local. safe_pure. set (st1 := mkShareState _ _).
  eapply safe_mono; [|apply flush_acks]. intros _ st2 [Ha Hp]. safe_pure.
  apply share_await. intros [] c _. safe_pure. apply share_await. intros [] c' _. safe_pure. split; [|exact Hp].
  assert (sl_sent (sl st1) = sl_sent (sl st)) as Es by (unfold st1; simpl; by destruct (sc_ack_mode sc)).
  unfold ack_acknowledges in *. rewrite Es in Ha. simpl. unfold st1 in Ha. cbn [sl] in Ha.
  destruct Ha as [[? Hk]|(q & ? & ? & Hk)]; [left|right].
  - split; [done|]. intros key. rewrite <- close_due. apply Hk.
  - exists q. split; [done|]. split; [done|]. intros key batches. rewrite <- close_due. apply Hk.
Qed.
End calls.

(** C37: a request carries exactly the acknowledgements that are due, while the
    partitions for which some are due stay assigned. A [poll] sends nothing and
    keeps what is staged, or sends one [ShareFetch] that names the assigned
    partitions and no other; for each of them it acknowledges, in their order, the ranges
    that the application acknowledged since the last request, or in implicit
    mode accepts those that the last poll delivered, with one acknowledgement
    for each offset of a range; and none of them stays staged. A [commit] and a
    [close] send one [ShareAcknowledge] with all that is due, each partition
    once, and no request when nothing is due. *)
Theorem share_acks_exact {GA : GroupApi} sc assignment fuel timeout st :
  rounds_enough fuel (sm_now (sm st) + timeout) st → due_stays_assigned sc assignment (sl st) →
  let E := assigned_env assignment in
  (finishes E (share_poll sc fuel timeout st) ∧
   ∀ r st', results E (share_poll sc fuel timeout st) r st' →
     sl st' = sl st ∨
     fetch_acknowledges sc assignment (sl st) (sl_sent (sl st')) ∧ drained sc st st' ∧
       (∀ e, r = Err e → sl_prev_delivered (sl st') = [])) ∧
  (finishes E (share_commit sc st) ∧
   ∀ r st', results E (share_commit sc st) r st' →
     ack_acknowledges (staged (sl st)) (sl st) (sl_sent (sl st')) ∧ sl_pending_acks (sl st') = []) ∧
  (finishes E (share_close sc st) ∧
   ∀ r st', results E (share_close sc st) r st' →
     ack_acknowledges (due_at_close sc (sl st)) (sl st) (sl_sent (sl st')) ∧ sl_pending_acks (sl st') = []).
Proof.
  intros Hf Hstay E. split; [|split]; eapply safe_complete.
  - by apply share_poll_acks.
  - apply flush_acks.
  - apply share_close_acks.
Qed.

(** The acknowledgements of a partition that left the assignment: the poll
    takes them out of what is staged, and its request has no place for them. *)
Theorem unassigned_acks_dropped {GA : GroupApi} sc (l : ShareLocal) assignment tid p :
  (tid, p) ∉ assigned assignment →
  due_at_poll sc (take_piggyback_acks sc l).1 (tid, p) = [] ∧
  ∀ batches, ¬ named (build_share_fetch_topics assignment (take_piggyback_acks sc l).2) (tid, p) batches.
Proof.
  intros Hp. split; [unfold due_at_poll, take_piggyback_acks; by destruct (sc_ack_mode sc)|].
  intros batches Hn. apply Hp. rewrite <- (fetch_partitions_named assignment (take_piggyback_acks sc l).2).
  apply partition_is_named. eauto.
Qed.

(** ** Records *)

(** a poll returns records that were not acquired. Every data record of a
    row's batches is returned, whatever ranges the broker acquired for this
    consumer; one that no acquired range holds comes with delivery count 0,
    and no range that the consumer later acknowledges covers it. *)
Theorem unacquired_record_returned {GA : GroupApi} topic (row : SharePartitionData) tid batches b r :
  sp_records row = Some batches → b ∈ batches → rb_is_control b = false → r ∈ rb_records b →
  let offset := record_offset (rb_base_offset b) (br_offset_delta r) in
  Forall (λ ar, offset_in_range (aq_first ar) offset (aq_last ar) = false) (sp_acquired_records row) →
  (∃ record, record ∈ share_partition_records topic row ∧ sr_offset record = offset ∧ sr_delivery_count record = 0) ∧
  ∀ d, d ∈ delivered_ranges [(tid, row)] → offset_in_range d.1.2 offset d.2 = false.
Proof.
  intros Hb Hin Hc Hr offset Hall. rewrite Forall_forall in Hall. split.
  - exists (share_record topic row b r). split_and!; [|done|].
    + unfold share_partition_records. rewrite Hb. apply list_elem_of_bind. exists b. split.
      * apply list_elem_of_fmap. eauto.
      * by apply list_elem_of_filter.
    + unfold share_record, delivery_count_of. simpl.
      destruct (list_find _ _) as [[i ar]|] eqn:Hf; [|done]. apply list_find_Some in Hf as (Hi & Ht & _).
      apply list_elem_of_lookup_2, Hall in Hi. fold offset in Ht. congruence.
  - intros d Hd. unfold delivered_ranges in Hd. simpl in Hd. rewrite app_nil_r in Hd.
    apply list_elem_of_fmap in Hd as (ar & -> & Har). simpl. by apply Hall.
Qed.

(** ** Concrete runs *)

Module DemoShare.
#[local] Existing Instance DemoPoll.api.

Definition config : ShareConfig :=
  mkShareConfig "g" "m" Implicit BatchOptimized 1 1000 500 ["t"] 1000 (λ _, "").

Definition common (now : Z) (expected : option Z) : ShareCommon :=
  mkShareCommon 1 [((), "t", 0)] {[ () := "t" ]} None now false false expected.

(** A consumer that has sent nothing. *)
Definition fresh : ShareState := mkShareState (mkShareLocal 0 [] [] [] false) (common 0 None).

Definition fetch (epoch : Z) : ShareRequest :=
  FetchSent (build_share_fetch_request config epoch 0 (build_share_fetch_topics [((), "t", 0)] ∅)).

(** The answer to the second fetch was lost: the broker is at epoch 2. *)
Definition lost : ShareState := mkShareState (mkShareLocal 1 [] [] [fetch 0; fetch 1] false) (common 0 (Some 2)).

(** Offsets 0, 1 and 2, of which the consumer acquired 1. *)
Definition record (delta : Z) : BatchRecord := mkBatchRecord delta 0 None None [].
Definition batch : RecordBatch :=
  mkBatch 0 2 0 false false CreateTime 0 0 (-1) (record <$> [0; 1; 2]).
Definition row : SharePartitionData := mkSharePartition 0 0 0 [mkAcquired 1 1 1] (Some [batch]).

(** A broker that refuses every fourth epoch with an error, and no other task. *)
Definition accepted (r : ShareRequest) (st : ShareState) : bool :=
  accepts (expected st) r && negb (request_epoch r mod 4 =? 3).

Definition code (r : ShareRequest) (st : ShareState) : Z := if accepted r st then 0 else 123.

Definition after (r : ShareRequest) (st : ShareState) : option Z :=
  if accepted r st then Some (broker_next (request_epoch r)) else expected st.

Definition oracle (r : ShareIo) (st : ShareState) : share_answer r * ShareCommon :=
  let now := sm_now (sm st) in
  match r return share_answer r * ShareCommon with
  | SendShareFetch r =>
    (Ok (mkShareFetchResponse (code (FetchSent r) st) [mkShareFetchTopic () [row]]), common now (after (FetchSent r) st))
  | SendShareAcknowledge r => (Ok (mkShareAckResponse (code (AckSent r) st) []), common now (after (AckSent r) st))
  | SendShareHeartbeat _ => (Err (ClientError.Server 0), common now (expected st))
  | ShareSleep until => ((), common (Z.max until now) (expected st))
  | _ => ((), common now (expected st))
  end.

Lemma oracle_answer r st now : session_answer true st r (Some (code r st)) (common now (after r st)).
Proof.
  unfold session_answer, counted, code, after, accepted. destruct (accepts (expected st) r) eqn:E; simpl.
  - case_match; [left|right]; (split; [done|by left]).
  - right. split; [done|by left].
Qed.

Lemma session_oracle_ok r st : share_env true r st (oracle r st).1 (oracle r st).2.
Proof.
  destruct r; (split; [simpl; lia|]); simpl; try apply oracle_answer; try by left.
  split; [lia|by left].
Qed.

Definition run {A} (m : proc A) : proc A := play (W := share_world) oracle (λ _, false) 100 m.

(** The epoch is 3: the broker refuses the poll. *)
Definition third : ShareState :=
  mkShareState (mkShareLocal 3 [] [] [fetch 0; fetch 1; fetch 2] false) (common 0 (Some 3)).

Definition refused : ShareState :=
  mkShareState (mkShareLocal 3 [] [] [fetch 0; fetch 1; fetch 2; fetch 3] false) (common 0 (Some 3)).

Lemma run_third : run (share_poll config 1 0 third) = Ret (Err (ConsumerError.Server 123)) refused.
Proof. reflexivity. Qed.

Definition opened : ShareState :=
  mkShareState (mkShareLocal 1 [] [((), 0, 1, 1)] [fetch 0] false) (common 0 (Some 1)).

Lemma run_fresh : run (share_poll config 1 0 fresh) = Ret (Ok (share_partition_records "t" row)) opened.
Proof. reflexivity. Qed.

Lemma poll_results st r st' :
  in_sync st → session_epoch st < i32_max → run (share_poll config 1 0 st) = Ret r st' →
  results (share_env true) (share_poll config 1 0 st) r st'.
Proof.
  intros Hs He Hr. eapply play_results; [|apply share_poll_ok; [split; simpl; lia|done..]|exact Hr].
  intros. apply session_oracle_ok.
Qed.

(** Offsets 1 to 3 and 7 of the partition were delivered. *)
Definition holding : ShareState :=
  mkShareState (mkShareLocal 1 [] [((), 0, 1, 3); ((), 0, 7, 7)] [fetch 0] false) (common 0 (Some 1)).

Definition acked : list (Uuid * list (Z * list AckBatch)) :=
  [((), [(0, [mkAckBatch 1 3 [1; 1; 1]; mkAckBatch 7 7 [1]])])].

Definition second : ShareState :=
  mkShareState (mkShareLocal 2 [] [((), 0, 1, 1)]
    [fetch 0; FetchSent (build_share_fetch_request config 1 0 acked)] false) (common 0 (Some 2)).

Lemma run_holding : run (share_poll config 1 0 holding) = Ret (Ok (share_partition_records "t" row)) second.
Proof. reflexivity. Qed.

Lemma oracle_assigned r st : assigned_env [((), "t", 0)] r st (oracle r st).1 (oracle r st).2.
Proof.
  split; [|by destruct r]. destruct (session_oracle_ok r st) as [Ht Ho]. split; [exact Ht|].
  destruct r; simpl in *; unfold session_answer, counted, session_becomes in *; naive_solver.
Qed.
End DemoShare.

(** A first poll, and one that the broker refuses with an error: both leave the
    two in step. *)
Lemma share_session_in_sync_witness :
  session_kept (GA := DemoPoll.api) DemoShare.fresh (Ok (share_partition_records "t" DemoShare.row)) DemoShare.opened ∧
  session_epoch DemoShare.opened = 1 ∧
  session_kept (GA := DemoPoll.api) (A := list ShareConsumerRecord) DemoShare.third (Err (ConsumerError.Server 123)) DemoShare.refused ∧
  session_epoch DemoShare.refused = 3.
Proof.
  assert (in_sync DemoShare.fresh) as Hs by (split; [done|by left]).
  assert (in_sync DemoShare.third) as Hs' by (split; [done|by right]).
  pose (r0 := mkShareRecord "t" 0 0 0 CreateTime None None [] 0).
  split_and!; [|reflexivity| |reflexivity].
  - apply (proj2 (proj1 (share_session_in_sync (GA := DemoPoll.api) DemoShare.config 1 0 r0 DemoShare.fresh Hs
      eq_refl ltac:(split; simpl; lia)))).
    apply DemoShare.poll_results; [done..|exact DemoShare.run_fresh].
  - apply (proj2 (proj1 (share_session_in_sync (GA := DemoPoll.api) DemoShare.config 1 0 r0 DemoShare.third Hs'
      eq_refl ltac:(split; simpl; lia)))).
    apply DemoShare.poll_results; [done..|exact DemoShare.run_third].
Defined.

(** The second poll accepts the four offsets that the first one delivered. *)
Lemma share_acks_exact_witness :
  sl_sent (sl DemoShare.second) = [DemoShare.fetch 0;
    FetchSent (build_share_fetch_request DemoShare.config 1 0 DemoShare.acked)] ∧
  fetch_acknowledges (GA := DemoPoll.api) DemoShare.config [((), "t", 0)] (sl DemoShare.holding) (sl_sent (sl DemoShare.second)).
Proof.
  split; [reflexivity|].
  assert (rounds_enough (GA := DemoPoll.api) 1 0 DemoShare.holding) as Hf by (split; simpl; lia).
  assert (due_stays_assigned (GA := DemoPoll.api) DemoShare.config [((), "t", 0)] (sl DemoShare.holding)) as Ha.
  { intros [[] p] Hdue. destruct (decide (p = 0)) as [->|Hp]; [by apply list_elem_of_here|].
    destruct Hdue. unfold due_at_poll, delivered. simpl. rewrite !filter_cons_False by (simpl; congruence). done. }
  destruct (proj2 (proj1 (share_acks_exact (GA := DemoPoll.api) DemoShare.config [((), "t", 0)] 1 0 DemoShare.holding Hf Ha))
    (Ok (share_partition_records "t" DemoShare.row)) DemoShare.second) as [H|[H _]]; [|done|exact H].
  eapply (play_results (W := share_world (GA := DemoPoll.api))); [|by apply share_poll_acks|exact DemoShare.run_holding].
  intros. apply DemoShare.oracle_assigned.
Defined.

(** A poll and a commit after an answer was lost. *)
Lemma lost_answer_ends_session_witness :
  let st := DemoShare.lost in
  out_of_sync (GA := DemoPoll.api) st ∧
  finishes (W := share_world (GA := DemoPoll.api)) (share_env false) (share_poll DemoShare.config 3 40000000 st).
Proof.
  assert (out_of_sync (GA := DemoPoll.api) DemoShare.lost) as Ho by (split; [done|by vm_compute]).
  split; [exact Ho|].
  apply (lost_answer_ends_session (GA := DemoPoll.api) DemoShare.config 3 40000000 DemoShare.lost Ho).
  split; simpl; lia.
Defined.

Lemma unacquired_record_returned_witness :
  ∃ record, record ∈ share_partition_records "t" DemoShare.row ∧ sr_offset record = 0 ∧ sr_delivery_count record = 0.
Proof.
  apply (unacquired_record_returned (GA := DemoPoll.api) "t" DemoShare.row () [DemoShare.batch] DemoShare.batch
    (DemoShare.record 0)); [reflexivity|set_solver|reflexivity|set_solver|by repeat constructor].
Defined.
