(* ===== verification/ConnWire.v ===== *)
(** * Connection: wire forms and version negotiation

    The pure parts of [client-core/src/connection.rs], [framing.rs],
    [request.rs] and [version.rs]: the request header, the unsigned varints
    and tagged fields of a flexible response header, the correlation ids, the
    table of API versions with its negotiation, and the [ApiVersions] exchange
    that fills the table.  The codec of the protocol messages is a parameter. *)

From coqutil Require Import Byte.
From S2P Require Import Prelude Bytes Errors.
Import ClientError.

(** ** Unsigned varints and tagged fields *)

(** [byte & 0x7F] and [byte & 0x80 == 0]. *)
Definition low7 (b : Byte.byte) : Z := Z.land (byte.unsigned b) 0x7F.
Definition last_byte (b : Byte.byte) : bool := Z.land (byte.unsigned b) 0x80 =? 0.

(** [framing::put_uvarint]: a [u32] loses seven bits a round, so five rounds
    write any of them. *)
Fixpoint put_uvarint_loop (rounds : nat) (v : Z) : bytes :=
  match rounds with
  | O => []
  | S rounds =>
    if Z.land v (Z.lnot 0x7F) =? 0 then [byte.of_Z v]
    else byte.of_Z (Z.lor (Z.land v 0x7F) 0x80) :: put_uvarint_loop rounds (Z.shiftr v 7)
  end.

Definition put_uvarint (v : Z) : bytes := put_uvarint_loop 5 v.

Definition truncated : client_error := Io "invalid tagged fields in a response header".

(** [uvarint] of [skip_tagged_fields]: the bits that a shift moves past the
    32nd are lost. *)
Fixpoint uvarint_loop (shifts : list Z) (value : Z) (buf : bytes) : result client_error (Z * bytes) :=
  match shifts with
  | [] => Err truncated
  | shift :: shifts =>
    match buf with
    | [] => Err truncated
    | byte :: rest =>
      let value := Z.lor value (wrap_u32 (Z.shiftl (low7 byte) shift)) in
      if last_byte byte then Ok (value, rest) else uvarint_loop shifts value rest
    end
  end.

Definition uvarint (buf : bytes) : result client_error (Z * bytes) :=
  uvarint_loop [0; 7; 14; 21; 28] 0 buf.

(** The loop over the tagged fields.  A field takes at least one byte, so the
    length of the buffer bounds the rounds: with no round left the buffer is
    empty, and the next [uvarint] fails. *)
Fixpoint skip_fields (rounds : nat) (count : Z) (buf : bytes) : result client_error bytes :=
  if count <=? 0 then Ok buf
  else match rounds with
  | O => Err truncated
  | S rounds =>
    '(_, buf) ← uvarint buf;
    '(size, buf) ← uvarint buf;
    '(_, buf) ← ok_or truncated (split_at_checked (Z.to_nat size) buf);
    skip_fields rounds (count - 1) buf
  end.

Definition skip_tagged_fields (buf : bytes) : result client_error bytes :=
  match buf with
  | [] => Ok buf
  | _ => '(count, buf) ← uvarint buf; skip_fields (length buf) count buf
  end.

(** ** Request headers *)

Definition build_request_header (api_key version corr_id : Z) (client_id : string)
    (with_tagged_fields : bool) : result client_error bytes :=
  n ← ok_or (InvalidConfig "client_id is longer than 32767 bytes")
        (i16_try_from (str_len client_id));
  Ok (put_i16 api_key ++ put_i16 version ++ put_i32 corr_id ++ put_i16 n ++ as_bytes client_id ++
      (if with_tagged_fields then [byte.of_Z 0] else [])).

(** The correlation id of a request and of a response frame: four bytes at
    offset 4 and at offset 0. *)
Definition frame_corr_id (frame : bytes) : Z := get_be_signed (take 4 (drop 4 frame)).

Definition response_frame (corr_id : Z) (body : bytes) : bytes := put_i32 corr_id ++ body.

(** [frame.split_first_chunk::<4>()] and [i32::from_be_bytes] of the reader. *)
Definition read_response (frame : bytes) : option (Z * bytes) :=
  '(corr_id, body) ← split_at_checked 4 frame; Some (get_be_signed corr_id, body).

(** ** Correlation ids *)

Definition MAX_RESERVED_CORRELATION_ID : Z := i32_max.
Definition MIN_RESERVED_CORRELATION_ID : Z := MAX_RESERVED_CORRELATION_ID - 7.

(** [ConnectionInner::next_correlation_id]: the id and the counter after it. *)
Definition next_correlation_id (current : Z) : Z * Z :=
  let last_normal := MIN_RESERVED_CORRELATION_ID - 1 in
  (current, if last_normal <=? current then 0 else current + 1).

(** [sasl::next_correlation_id]. *)
Definition i32_wrapping_add (a b : Z) : Z := cast_signed 32 ((a + b) mod 2 ^ 32).

Definition sasl_next_correlation_id (corr_id : Z) : Z * Z :=
  let corr_id := if corr_id <? MIN_RESERVED_CORRELATION_ID then MIN_RESERVED_CORRELATION_ID
                 else corr_id in
  (corr_id, i32_wrapping_add corr_id 1).

(** ** API versions *)

(** The constants of a [ProtocolRequest]. *)
Record protocol_request := ProtocolRequest {
  API_KEY : Z;
  MIN_VERSION : Z;
  MAX_VERSION : Z;
  LATEST_STABLE_VERSION : Z;
  FLEXIBLE_MIN : Z;
}.

(** [VersionBoundedRequest<Request, MIN_VERSION, MAX_VERSION>]. *)
Definition version_bounded (r : protocol_request) (min_version max_version : Z) : protocol_request :=
  let max := if MAX_VERSION r <? max_version then MAX_VERSION r else max_version in
  {| API_KEY := API_KEY r;
     MIN_VERSION := if min_version <? MIN_VERSION r then MIN_VERSION r else min_version;
     MAX_VERSION := max;
     LATEST_STABLE_VERSION :=
       if LATEST_STABLE_VERSION r <? max then LATEST_STABLE_VERSION r else max;
     FLEXIBLE_MIN := FLEXIBLE_MIN r |}.

Definition UNKNOWN_FINALIZED_FEATURES_EPOCH : Z := -1.

Record finalized_features := FinalizedFeatures {
  ff_epoch : Z;
  ff_levels : gmap string Z;
}.

Definition default_finalized_features : finalized_features :=
  FinalizedFeatures UNKNOWN_FINALIZED_FEATURES_EPOCH ∅.

Definition feature_level (f : finalized_features) (feature : string) : option Z :=
  ff_levels f !! feature.

Record api_version_table := ApiVersionTable {
  by_key : gmap Z (Z * Z);
  supported_features : gmap string (Z * Z);
  finalized : finalized_features;
}.

Definition default_table : api_version_table := ApiVersionTable ∅ ∅ default_finalized_features.

(** [ApiVersionTable::from_entries]: a later entry of a key replaces an earlier
    one. *)
Definition from_entries (entries : list (Z * (Z * Z))) : api_version_table :=
  ApiVersionTable (foldl (λ m e, <[e.1 := e.2]> m) ∅ entries) ∅ default_finalized_features.

(** [ApiVersionsResponse], as the protocol crate decodes it. *)
Record api_versions_response := ApiVersionsResponse {
  av_error_code : Z;
  av_api_keys : list (Z * (Z * Z));
  av_supported_features : list (string * (Z * Z));
  av_finalized_features_epoch : Z;
  av_finalized_features : list (string * Z);
}.

Definition from_response (r : api_versions_response) : api_version_table :=
  ApiVersionTable (by_key (from_entries (av_api_keys r)))
    (foldl (λ m e, <[e.1 := e.2]> m) ∅ (av_supported_features r))
    (FinalizedFeatures (av_finalized_features_epoch r)
       (foldl (λ m e, <[e.1 := e.2]> m) ∅ (av_finalized_features r))).

Definition broker_range (t : api_version_table) (api_key : Z) : option (Z * Z) :=
  by_key t !! api_key.

Definition negotiate (t : api_version_table) (r : protocol_request) : result client_error Z :=
  let client_min := MIN_VERSION r in
  let client_max := LATEST_STABLE_VERSION r in
  let '(broker_min, broker_max) := default (0, 0) (broker_range t (API_KEY r)) in
  let chosen := Z.min client_max broker_max in
  if (chosen <? client_min) || (chosen <? broker_min)
  then Err (IncompatibleVersion (API_KEY r) broker_min broker_max client_min client_max)
  else Ok chosen.

(** ** The [ApiVersions] exchange *)

Definition API_VERSIONS_KEY : Z := 18.
Definition UNSUPPORTED_VERSION : Z := 35.

Definition api_versions_retry_version (response : api_versions_response) (version : Z) : option Z :=
  if (av_error_code response =? UNSUPPORTED_VERSION) && (0 <? version)
  then Some (Z.max (Z.min
         (match list_find (λ e, e.1 = API_VERSIONS_KEY) (av_api_keys response) with
          | Some (_, key) => key.2.2
          | None => 0
          end) (version - 1)) 0)
  else None.

Section exchange.
(** The codec of [ApiVersionsResponse]: the response and the bytes after it. *)
Context (decode : bytes → Z → result client_error (api_versions_response * bytes)).

Definition decode_whole (body : bytes) (version : Z) : result client_error api_versions_response :=
  '(response, rest) ← decode body version;
  match rest with
  | [] => Ok response
  | _ => Err (Io "ApiVersions response has bytes after its end")
  end.

Definition decode_api_versions_response (body : bytes) (version : Z) :
    result client_error api_versions_response :=
  match decode_whole body version with
  | Err e => if version =? 0 then Err e else decode_whole body 0
  | Ok response => Ok response
  end.

(** [fetch_api_versions] from a version down, on a connection whose counter
    starts at 0: [encode] writes the request body, and [exchange] queues a
    frame and waits for the response with its id. *)
Context (request : protocol_request) (client_id : string).
Context (encode : Z → result client_error bytes).
Context (exchange : Z → bytes → result client_error bytes).

Definition api_versions_attempt (corr_id version : Z) : result client_error api_versions_response :=
  header ← build_request_header API_VERSIONS_KEY version corr_id client_id
             (FLEXIBLE_MIN request <=? version);
  body ← encode version;
  answer ← exchange corr_id (header ++ body);
  decode_api_versions_response answer version.

Fixpoint fetch_api_versions_loop (rounds : nat) (corr : Z) (version : Z) :
    option (result client_error api_version_table) :=
  match rounds with
  | O => None
  | S rounds =>
    let '(corr_id, corr) := next_correlation_id corr in
    match api_versions_attempt corr_id version with
    | Err e => Some (Err e)
    | Ok response =>
      match api_versions_retry_version response version with
      | Some retry => fetch_api_versions_loop rounds corr retry
      | None =>
        Some (if av_error_code response =? 0 then Ok (from_response response)
              else Err (Server (av_error_code response)))
      end
    end
  end.

Definition fetch_api_versions (rounds : nat) : option (result client_error api_version_table) :=
  fetch_api_versions_loop rounds 0 (MAX_VERSION request).
End exchange.

(** [decode] of [Connection::send]: what is left of the response header. *)
Definition response_body (r : protocol_request) (version : Z) (body : bytes) :
    result client_error bytes :=
  let body_flexible := FLEXIBLE_MIN r <=? version in
  if body_flexible && negb (API_KEY r =? API_VERSIONS_KEY) then skip_tagged_fields body else Ok body.

(** ** Varints read back *)

Lemma byte_forall (P : Z → bool) n :
  forallb P (Z.of_nat <$> seq 0 n) = true → ∀ x, 0 ≤ x < Z.of_nat n → P x = true.
Proof.
  intros H x Hx. rewrite forallb_forall in H. apply H. apply list_elem_of_In, list_elem_of_fmap.
  exists (Z.to_nat x). split; [lia|]. apply elem_of_seq. lia.
Qed.

Lemma continued_byte x :
  0 ≤ x < 128 →
  low7 (byte.of_Z (Z.lor x 0x80)) = x ∧ last_byte (byte.of_Z (Z.lor x 0x80)) = false.
Proof.
  intros Hx.
  enough ((low7 (byte.of_Z (Z.lor x 0x80)) =? x) && negb (last_byte (byte.of_Z (Z.lor x 0x80)))
    = true) as [?%Z.eqb_eq ?%negb_true_iff]%andb_true_iff by done.
  apply (byte_forall (λ x, (low7 (byte.of_Z (Z.lor x 0x80)) =? x) &&
    negb (last_byte (byte.of_Z (Z.lor x 0x80)))) 128); [by vm_compute|lia].
Qed.

Lemma final_byte x :
  0 ≤ x < 128 → low7 (byte.of_Z x) = x ∧ last_byte (byte.of_Z x) = true.
Proof.
  intros Hx.
  enough ((low7 (byte.of_Z x) =? x) && last_byte (byte.of_Z x) = true)
    as [?%Z.eqb_eq ?]%andb_true_iff by done.
  apply (byte_forall (λ x, (low7 (byte.of_Z x) =? x) && last_byte (byte.of_Z x)) 128);
    [by vm_compute|lia].
Qed.

Lemma lor_shiftl a x s : 0 ≤ s → 0 ≤ a < 2 ^ s → 0 ≤ x → Z.lor a (Z.shiftl x s) = a + x * 2 ^ s.
Proof.
  intros Hs Ha Hx. rewrite <- Z.shiftl_mul_pow2 by done. symmetry. apply Z.add_nocarry_lor.
  apply Z.bits_inj'. intros n Hn. rewrite Z.land_spec, Z.bits_0.
  destruct (decide (n < s)).
  - rewrite (Z.shiftl_spec_low x s n) by lia. apply andb_false_r.
  - destruct (decide (a = 0)) as [->|]; [by rewrite Z.bits_0|].
    rewrite (Z.bits_above_log2 a n); [done|lia|].
    apply Z.log2_lt_pow2; [lia|]. apply Z.lt_le_trans with (2 ^ s); [lia|].
    apply Z.pow_le_mono_r; lia.
Qed.

Lemma more_bits v : 0 ≤ v → (Z.land v (Z.lnot 0x7F) =? 0) = (v <? 128).
Proof.
  intros Hv. rewrite <- Z.ldiff_land. change 0x7F with (Z.ones 7).
  rewrite Z.ldiff_ones_r, Z.shiftl_mul_pow2, Z.shiftr_div_pow2 by lia. change (2 ^ 7) with 128.
  pose proof (Z.div_mod v 128 ltac:(lia)). pose proof (Z.mod_pos_bound v 128 ltac:(lia)).
  apply eq_true_iff_eq. rewrite Z.eqb_eq, Z.ltb_lt. nia.
Qed.

Fixpoint shifts_from (rounds : nat) (shift : Z) : list Z :=
  match rounds with O => [] | S rounds => shift :: shifts_from rounds (shift + 7) end.

Lemma uvarint_loop_put rounds shift acc v rest :
  0 ≤ shift → 0 ≤ acc < 2 ^ shift → 0 ≤ v < 2 ^ (7 * Z.of_nat rounds) →
  v * 2 ^ shift < 2 ^ 32 → (0 < rounds)%nat →
  uvarint_loop (shifts_from rounds shift) acc (put_uvarint_loop rounds v ++ rest) =
  Ok (acc + v * 2 ^ shift, rest).
Proof.
  revert shift acc v. induction rounds as [|rounds IH]; intros shift acc v Hs Ha Hv Hv32 Hr; [lia|].
  cbn [shifts_from put_uvarint_loop]. rewrite more_bits by lia.
  assert (∀ x, 0 ≤ x → x * 2 ^ shift < 2 ^ 32 →
    Z.lor acc (wrap_u32 (Z.shiftl x shift)) = acc + x * 2 ^ shift) as Hlor.
  { intros x Hx Hx32. unfold wrap_u32. rewrite Z.mod_small; [by apply lor_shiftl|].
    rewrite Z.shiftl_mul_pow2 by done. nia. }
  destruct (Z.ltb_spec v 128).
  - cbn [app uvarint_loop]. destruct (final_byte v) as [-> ->]; [lia|]. by rewrite Hlor by lia.
  - cbn [app uvarint_loop].
    change (Z.land v 0x7F) with (Z.land v (Z.ones 7)). rewrite Z.land_ones by lia.
    change (2 ^ 7) with 128. pose proof (Z.mod_pos_bound v 128 ltac:(lia)).
    pose proof (Z.div_mod v 128 ltac:(lia)) as Hdm.
    pose proof (Z.div_pos v 128 ltac:(lia) ltac:(lia)).
    assert (0 < 2 ^ shift) by (apply Z.pow_pos_nonneg; lia).
    destruct (continued_byte (v mod 128)) as [-> ->]; [lia|].
    rewrite Hlor by nia.
    assert (2 ^ (shift + 7) = 128 * 2 ^ shift) as Hp by (rewrite Z.pow_add_r by lia; lia).
    rewrite Z.shiftr_div_pow2 by lia. change (2 ^ 7) with 128.
    destruct rounds as [|rounds]; [simpl in Hv; lia|].
    assert (2 ^ (7 * Z.of_nat (S (S rounds))) = 128 * 2 ^ (7 * Z.of_nat (S rounds))) as Hpr.
    { replace (7 * Z.of_nat (S (S rounds))) with (7 * Z.of_nat (S rounds) + 7) by lia.
      rewrite Z.pow_add_r by lia. lia. }
    rewrite IH; [|lia|nia|nia|nia|lia].
    f_equal. f_equal. rewrite Hp. nia.
Qed.

(** A varint that [put_uvarint] writes is read back, with the bytes after it. *)
Lemma uvarint_put v rest : is_u32 v → uvarint (put_uvarint v ++ rest) = Ok (v, rest).
Proof.
  intros Hv. unfold uvarint, put_uvarint. change [0; 7; 14; 21; 28] with (shifts_from 5 0).
  rewrite uvarint_loop_put; try (simpl; ints). f_equal. f_equal. lia.
Qed.

Lemma length_put_uvarint_loop rounds v : (0 < rounds)%nat → (0 < length (put_uvarint_loop rounds v))%nat.
Proof. destruct rounds; [lia|]. simpl. destruct (_ =? _); simpl; lia. Qed.

(** The tagged fields of a header as a broker writes them: the count, then the
    tag, the size and the data of each field. *)
Definition put_field (field : Z * bytes) : bytes :=
  put_uvarint field.1 ++ put_uvarint (Z.of_nat (length field.2)) ++ field.2.

Definition put_tagged_fields (fields : list (Z * bytes)) : bytes :=
  put_uvarint (Z.of_nat (length fields)) ++ concat (put_field <$> fields).

Definition field_ok (field : Z * bytes) : Prop :=
  is_u32 field.1 ∧ is_u32 (Z.of_nat (length field.2)).

Lemma skip_fields_put rounds fields rest :
  Forall field_ok fields → (length fields ≤ rounds)%nat →
  skip_fields rounds (Z.of_nat (length fields)) (concat (put_field <$> fields) ++ rest) = Ok rest.
Proof.
  intros Hf. revert rounds. induction Hf as [|[tag data] fields [Ht Hd] _ IH]; intros rounds Hr.
  { destruct rounds; done. }
  destruct rounds as [|rounds]; [simpl in Hr; lia|].
  cbn [fmap list_fmap concat]. unfold put_field at 1. cbn [fst snd].
  cbn [length skip_fields]. rewrite (proj2 (Z.leb_gt _ _)) by lia.
  rewrite <- !(assoc_L (++)), uvarint_put by done. cbn [mbind result_bind].
  rewrite uvarint_put by done. cbn [mbind result_bind].
  rewrite Nat2Z.id, split_at_checked_app. cbn [ok_or mbind result_bind].
  replace (Z.of_nat (S (length fields)) - 1) with (Z.of_nat (length fields)) by lia.
  apply IH. simpl in Hr. lia.
Qed.

Lemma length_fields fields : (length fields ≤ length (concat (put_field <$> fields)))%nat.
Proof.
  induction fields as [|f fields IH]; [simpl; lia|]. cbn [fmap list_fmap concat length].
  rewrite length_app. unfold put_field at 1. rewrite length_app.
  pose proof (length_put_uvarint_loop 5 f.1 ltac:(lia)). fold (put_uvarint f.1) in *. lia.
Qed.

Lemma skip_tagged_fields_put fields body :
  Forall field_ok fields → is_u32 (Z.of_nat (length fields)) →
  skip_tagged_fields (put_tagged_fields fields ++ body) = Ok body.
Proof.
  intros Hf Hn. unfold skip_tagged_fields, put_tagged_fields. rewrite <- (assoc_L (++)).
  destruct (put_uvarint _ ++ _) as [|b buf] eqn:E.
  { apply app_eq_nil in E as [E _]. apply (f_equal length) in E.
    pose proof (length_put_uvarint_loop 5 (Z.of_nat (length fields)) ltac:(lia)) as Hl.
    fold (put_uvarint (Z.of_nat (length fields))) in Hl. rewrite E in Hl. simpl in Hl. lia. }
  rewrite <- E, uvarint_put by done. cbn [mbind result_bind].
  apply skip_fields_put; [done|]. rewrite length_app. pose proof (length_fields fields). lia.
Qed.

(** ** Headers read back *)

(** A peer finds the correlation id of a frame where the header puts it. *)
Lemma header_corr_id api_key version corr_id client_id flexible header body :
  is_i32 corr_id →
  build_request_header api_key version corr_id client_id flexible = Ok header →
  frame_corr_id (header ++ body) = corr_id.
Proof.
  intros Hid H. unfold build_request_header in H. result_inv. unfold frame_corr_id.
  change (get_be_signed (put_i32 corr_id) = corr_id). by apply get_put_i32.
Qed.

Lemma read_response_frame corr_id body :
  is_i32 corr_id → read_response (response_frame corr_id body) = Some (corr_id, body).
Proof.
  intros Hid. unfold read_response, response_frame.
  replace 4%nat with (length (put_i32 corr_id)) by apply length_put_be.
  rewrite split_at_checked_app. simpl. by rewrite get_put_i32.
Qed.

(** ** Negotiation *)

(** The versions that both sides support: the stable versions of the client,
    and the versions that the broker lists. *)
Definition common_version (t : api_version_table) (r : protocol_request) (v : Z) : Prop :=
  MIN_VERSION r ≤ v ≤ LATEST_STABLE_VERSION r ∧
  ∃ lo hi, broker_range t (API_KEY r) = Some (lo, hi) ∧ lo ≤ v ≤ hi.

Lemma negotiate_spec t r :
  is_Some (broker_range t (API_KEY r)) →
  match negotiate t r with
  | Ok v => common_version t r v ∧ ∀ v', common_version t r v' → v' ≤ v
  | Err _ => ∀ v, ¬ common_version t r v
  end.
Proof.
  unfold negotiate, common_version. intros [[lo hi] ->]. simpl.
  destruct (Z.ltb_spec (Z.min (LATEST_STABLE_VERSION r) hi) (MIN_VERSION r)),
    (Z.ltb_spec (Z.min (LATEST_STABLE_VERSION r) hi) lo); cbn [orb];
    first [intros v (? & ? & ? & [= <- <-] & ?); lia
          |split; [split; [lia|exists lo, hi; split; [done|lia]]|intros v (? & ? & ? & [= <- <-] & ?); lia]].
Qed.

(** An API that the broker does not list has the range [0..=0]. *)
Lemma negotiate_unlisted t r :
  broker_range t (API_KEY r) = None → MIN_VERSION r = 0 → 0 ≤ LATEST_STABLE_VERSION r → negotiate t r = Ok 0.
Proof.
  unfold negotiate. intros -> Hmin Hmax. simpl. rewrite Hmin, Z.min_r by lia. done.
Qed.

(** The table has a range for exactly the keys of the response, and one that the
    response lists. *)
Lemma broker_range_listed response key range :
  broker_range (from_response response) key = Some range → (key, range) ∈ av_api_keys response.
Proof.
  unfold broker_range, from_response, from_entries. simpl. induction (av_api_keys response) as [|e l IH] using rev_ind.
  - done.
  - rewrite foldl_app. simpl. rewrite lookup_insert_Some, elem_of_app, list_elem_of_singleton.
    intros [[<- <-]|[_ ?]]; [right; by destruct e|left; by apply IH].
Qed.

Lemma listed_broker_range response key :
  key ∈ (av_api_keys response).*1 → is_Some (broker_range (from_response response) key).
Proof.
  unfold broker_range, from_response, from_entries. simpl. induction (av_api_keys response) as [|e l IH] using rev_ind.
  - by intros ?%elem_of_nil.
  - rewrite fmap_app, foldl_app, elem_of_app. simpl. rewrite list_elem_of_singleton, lookup_insert_is_Some.
    destruct (decide (e.1 = key)); naive_solver.
Qed.

(** ** The exchange ends *)

Section exchange_ends.
Context (decode : bytes → Z → result client_error (api_versions_response * bytes)).
Context (request : protocol_request) (client_id : string).
Context (encode : Z → result client_error bytes).
Context (exchange : Z → bytes → result client_error bytes).

Lemma retry_version_lower response version retry :
  api_versions_retry_version response version = Some retry → 0 ≤ retry < version.
Proof.
  unfold api_versions_retry_version. destruct (_ && _) eqn:E; [|done]. intros [= <-].
  apply andb_true_iff in E as [_ E%Z.ltb_lt]. destruct (list_find _ _) as [[??]|]; lia.
Qed.

Lemma fetch_loop_ends rounds corr version :
  version < Z.of_nat rounds → (0 < rounds)%nat →
  is_Some (fetch_api_versions_loop decode request client_id encode exchange rounds corr version).
Proof.
  revert corr version. induction rounds as [|rounds IH]; intros corr version Hv Hr; [lia|].
  cbn [fetch_api_versions_loop]. destruct (next_correlation_id corr) as [id corr'].
  destruct (api_versions_attempt _ _ _ _ _ _ _) as [response|e]; [|by eexists].
  destruct (api_versions_retry_version response version) as [retry|] eqn:Er; [|by eexists].
  apply retry_version_lower in Er. apply IH; lia.
Qed.

(** The table is that of the last response, which has no error. *)
Lemma fetch_loop_table rounds corr version table :
  fetch_api_versions_loop decode request client_id encode exchange rounds corr version = Some (Ok table) →
  ∃ id v response, api_versions_attempt decode request client_id encode exchange id v = Ok response ∧
    av_error_code response = 0 ∧ table = from_response response.
Proof.
  revert corr version. induction rounds as [|rounds IH]; intros corr version; [done|].
  cbn [fetch_api_versions_loop]. destruct (next_correlation_id corr) as [id corr'].
  destruct (api_versions_attempt _ _ _ _ _ _ _) as [response|e] eqn:Ea; [|done].
  destruct (api_versions_retry_version response version) as [retry|]; [apply IH|].
  destruct (Z.eqb_spec (av_error_code response) 0); [|done]. intros [= <-]. by exists id, version, response.
Qed.
End exchange_ends.
