(* ===== verification/Connection.v ===== *)
(** * Connection: callers, I/O tasks and re-authentication

    The concurrent part of [client-core/src/connection.rs] as a transition
    system.  A label is one step of a caller ([Connection::send],
    [send_no_response], [raw_request] and the requests of a re-authentication),
    of the writer task ([write_loop]), of the reader task ([spawn_io_tasks]) or
    of the broker; [apply] is the effect of the label, and [None] where the
    step cannot run.  The steps of one task follow its program order, and each
    is one operation on the shared state: the [pending] map, the dispatch
    queue, the shutdown token, the lock of [reauth.next] and the oneshot
    channels.  Frames are the bytes that [build_request_header] lays out.

    A frame, an answer and a result carry the number of the call that they
    belong to.  No step reads that number to decide anything: it records where
    an answer came from, so that the theorems can say whose answer it is. *)

From S2P Require Import Prelude Bytes Errors ConnWire.
Import ClientError.

(** ** State *)

(** [send] and [raw_request] register for a response, [send_no_response] does
    not, and a re-authentication registers with a reserved id. *)
Inductive call_kind := Normal | NoResponse | Exchange.

#[global] Instance call_kind_eq_dec : EqDecision call_kind.
Proof. solve_decision. Defined.

Definition call_result : Type := result client_error (option (nat * bytes)).

Inductive call_phase :=
| Allocated
| Exchanging
| Guarded
| Enqueuing
| Awaiting
| Returned (r : call_result)
| Finished (r : call_result)
| Dropped.

Record call := Call {
  c_kind : call_kind;
  c_seq : Z;
  c_id : Z;
  c_frame : bytes;
  c_phase : call_phase;
  c_rx : option call_result;
}.

Record frame := Frame {
  f_call : nat;
  f_reply : bool;
  f_bytes : bytes;
}.

Record answer := Answer {
  a_call : nat;
  a_bytes : bytes;
}.

Inductive writer_state := WRun | WLeft | WCancelled | WStopped.
Inductive reader_state := RRun | RLeft | RCancelled | RDrain (keys : list Z) | RStopped.

(** A running re-authentication: the call that holds the write lock, the
    counter of [Reauth::authenticate], and its last request. *)
Record exchange_state := ExchangeState {
  ex_owner : nat;
  ex_corr : Z;
  ex_inner : option nat;
}.

Record connection := Connection_ {
  next_corr_id : Z;
  allocated : Z;
  pending : gmap Z nat;
  calls : list call;
  queue : list frame;
  writing : option frame;
  writer : writer_state;
  at_broker : list frame;
  inbound : list answer;
  answered : list (nat * bytes);
  reader : reader_state;
  shutdown : bool;
  reauth_due : option Z;
  exchanging : option exchange_state;
}.

Definition init (due : option Z) : connection :=
  {| next_corr_id := 0; allocated := 0; pending := ∅; calls := []; queue := []; writing := None;
     writer := WRun; at_broker := []; inbound := []; answered := []; reader := RRun;
     shutdown := false; reauth_due := due; exchanging := None |}.

(** Updates of one part of the state. *)

Definition set_ids (n a : Z) (s : connection) : connection :=
  Connection_ n a (pending s) (calls s) (queue s) (writing s) (writer s) (at_broker s) (inbound s)
    (answered s) (reader s) (shutdown s) (reauth_due s) (exchanging s).
Definition set_pending (p : gmap Z nat) (s : connection) : connection :=
  Connection_ (next_corr_id s) (allocated s) p (calls s) (queue s) (writing s) (writer s)
    (at_broker s) (inbound s) (answered s) (reader s) (shutdown s) (reauth_due s) (exchanging s).
Definition set_calls (cs : list call) (s : connection) : connection :=
  Connection_ (next_corr_id s) (allocated s) (pending s) cs (queue s) (writing s) (writer s)
    (at_broker s) (inbound s) (answered s) (reader s) (shutdown s) (reauth_due s) (exchanging s).
Definition set_writer (q : list frame) (w : option frame) (ws : writer_state) (s : connection) :
    connection :=
  Connection_ (next_corr_id s) (allocated s) (pending s) (calls s) q w ws (at_broker s) (inbound s)
    (answered s) (reader s) (shutdown s) (reauth_due s) (exchanging s).
Definition set_broker (b : list frame) (i : list answer) (l : list (nat * bytes)) (s : connection) :
    connection :=
  Connection_ (next_corr_id s) (allocated s) (pending s) (calls s) (queue s) (writing s) (writer s) b
    i l (reader s) (shutdown s) (reauth_due s) (exchanging s).
Definition set_reader (r : reader_state) (s : connection) : connection :=
  Connection_ (next_corr_id s) (allocated s) (pending s) (calls s) (queue s) (writing s) (writer s)
    (at_broker s) (inbound s) (answered s) r (shutdown s) (reauth_due s) (exchanging s).
Definition cancel (s : connection) : connection :=
  Connection_ (next_corr_id s) (allocated s) (pending s) (calls s) (queue s) (writing s) (writer s)
    (at_broker s) (inbound s) (answered s) (reader s) true (reauth_due s) (exchanging s).
Definition set_reauth (d : option Z) (e : option exchange_state) (s : connection) : connection :=
  Connection_ (next_corr_id s) (allocated s) (pending s) (calls s) (queue s) (writing s) (writer s)
    (at_broker s) (inbound s) (answered s) (reader s) (shutdown s) d e.

Definition set_phase (p : call_phase) (c : call) : call :=
  Call (c_kind c) (c_seq c) (c_id c) (c_frame c) p (c_rx c).
Definition set_rx (r : call_result) (c : call) : call :=
  Call (c_kind c) (c_seq c) (c_id c) (c_frame c) (c_phase c) (Some r).

Definition update_call (t : nat) (f : call → call) (s : connection) : connection :=
  set_calls (alter f t (calls s)) s.
Definition goto (t : nat) (p : call_phase) : connection → connection := update_call t (set_phase p).

(** [pending.remove(&corr_id)]: whatever call is registered under the id. *)
Definition unregister (corr_id : Z) (s : connection) : connection :=
  set_pending (delete corr_id (pending s)) s.

(** ** Steps of a caller *)

Section steps.
Context (client_id : string) (capacity : nat).

Definition new_call (kind : call_kind) (seq id : Z) (header : result client_error bytes) (body : bytes)
    (start : call_phase) : call :=
  match header with
  | Ok h => Call kind seq id (h ++ body) start None
  | Err e => Call kind seq id [] (Finished (Err e)) None
  end.

(** [send] up to [dispatch_request]: take an id and build the frame. *)
Definition start (kind : call_kind) (api_key version : Z) (flexible : bool) (body : bytes)
    (s : connection) : option connection :=
  if decide (kind = Exchange) then None
  else
    let '(id, next) := next_correlation_id (next_corr_id s) in
    let c := new_call kind (allocated s) id
               (build_request_header api_key version id client_id flexible) body Allocated in
    Some (set_calls (calls s ++ [c]) (set_ids next (allocated s + 1) s)).

(** A caller keeps the read guard of [reauth.next] until its frame is queued. *)
Definition holds_guard (c : call) : bool :=
  match c_kind c, c_phase c with
  | Exchange, _ => false
  | _, (Guarded | Enqueuing) => true
  | _, _ => false
  end.

(** [next.is_some_and(|due| now >= due)]. *)
Definition due_at (now : Z) (s : connection) : bool :=
  match reauth_due s with Some due => due <=? now | None => false end.

(** [reauthenticate_if_due] with the read lock, when no exchange is due. *)
Definition take_guard (t : nat) (now : Z) (s : connection) : option connection :=
  match calls s !! t, exchanging s with
  | Some (Call _ _ _ _ Allocated _), None => if due_at now s then None else Some (goto t Guarded s)
  | _, _ => None
  end.

(** The write lock, when an exchange is due: no caller holds a guard. *)
Definition begin_exchange (t : nat) (now : Z) (s : connection) : option connection :=
  match calls s !! t, exchanging s with
  | Some (Call _ _ _ _ Allocated _), None =>
    if due_at now s && negb (existsb holds_guard (calls s))
    then Some (set_reauth (reauth_due s) (Some (ExchangeState t 0 None)) (goto t Exchanging s))
    else None
  | _, _ => None
  end.

(** Whether the exchange has no request on its way: the last one returned. *)
Definition inner_result (e : exchange_state) (s : connection) : option (option call_result) :=
  match ex_inner e with
  | None => Some None
  | Some i =>
    match calls s !! i with
    | Some (Call _ _ _ _ (Finished r) _) => Some (Some r)
    | _ => None
    end
  end.

(** [ConnectionChannel::request] of the exchange: a request with a reserved id,
    after the response to the request before it. *)
Definition exchange_request (api_key version : Z) (flexible : bool) (body : bytes) (s : connection) :
    option connection :=
  match exchanging s with
  | Some e =>
    match inner_result e s with
    | Some (None | Some (Ok _)) =>
      let '(id, corr) := sasl_next_correlation_id (ex_corr e) in
      let c := new_call Exchange 0 id (build_request_header api_key version id client_id flexible)
                 body Guarded in
      Some (set_reauth (reauth_due s) (Some (ExchangeState (ex_owner e) corr (Some (length (calls s)))))
             (set_calls (calls s ++ [c]) s))
    | _ => None
    end
  | None => None
  end.

(** The exchange ended well: the next due time, and the owner looks again. *)
Definition exchange_done (due : option Z) (s : connection) : option connection :=
  match exchanging s with
  | Some e =>
    match inner_result e s with
    | Some (Some (Ok _)) => Some (set_reauth due None (goto (ex_owner e) Allocated s))
    | _ => None
    end
  | None => None
  end.

(** The exchange failed, in the transport or in the mechanism: the connection
    closes and the owner's request fails. *)
Definition exchange_failed (error : client_error) (s : connection) : option connection :=
  match exchanging s with
  | Some e =>
    match inner_result e s with
    | Some _ =>
      Some (set_reauth (reauth_due s) None (cancel (goto (ex_owner e) (Finished (Err error)) s)))
    | None => None
    end
  | None => None
  end.

(** [pending.insert(corr_id, tx)] of [enqueue]: the sender of an earlier entry
    under the id is dropped. *)
Definition register (t : nat) (s : connection) : option connection :=
  match calls s !! t with
  | Some (Call kind _ id _ Guarded _) =>
    let s' := goto t Enqueuing s in
    Some (if decide (kind = NoResponse) then s' else set_pending (<[id := t]> (pending s)) s')
  | _ => None
  end.

(** [writer_tx.send(..).await]: it waits for room, and fails once the writer
    dropped its receiver. *)
Definition enqueue (t : nat) (s : connection) : option connection :=
  match calls s !! t with
  | Some (Call kind _ _ bytes Enqueuing _) =>
    match writer s with
    | WStopped => Some (goto t (Returned (Err Disconnected)) s)
    | _ =>
      if decide (length (queue s) < capacity)%nat then
        let f := Frame t (negb (bool_decide (kind = NoResponse))) bytes in
        let s' := set_writer (queue s ++ [f]) (writing s) (writer s) s in
        Some (goto t (if decide (kind = NoResponse) then Returned (Ok None) else Awaiting) s')
      else None
    end
  | _ => None
  end.

(** Whether a sender of the call's oneshot channel is left: the senders live in
    [pending]. *)
Definition has_sender (t : nat) (s : connection) : bool :=
  existsb (λ e, bool_decide (e.2 = t)) (map_to_list (pending s)).

(** [await_response] when its receiver has a value, or lost its sender. *)
Definition wake (t : nat) (s : connection) : option connection :=
  match calls s !! t with
  | Some (Call _ _ _ _ Awaiting (Some r)) => Some (goto t (Returned r) s)
  | Some (Call _ _ _ _ Awaiting None) =>
    if has_sender t s then None else Some (goto t (Returned (Err Disconnected)) s)
  | _ => None
  end.

(** [await_response] when the request timeout passes. *)
Definition time_out (t : nat) (s : connection) : option connection :=
  match calls s !! t with
  | Some (Call _ _ id _ Awaiting None) =>
    Some (cancel (unregister id (goto t (Returned (Err (Timeout "request_timeout"))) s)))
  | _ => None
  end.

(** [PendingRegistration::drop] of a call that returned. *)
Definition release (t : nat) (s : connection) : option connection :=
  match calls s !! t with
  | Some (Call kind _ id _ (Returned r) _) =>
    let s' := goto t (Finished r) s in
    Some (if decide (kind = NoResponse) then s' else unregister id s')
  | _ => None
  end.

(** A request dropped at one of its awaits: the registration goes. *)
Definition drop_request (t : nat) (s : connection) : option connection :=
  match calls s !! t with
  | Some (Call kind _ id _ (Enqueuing | Awaiting) _) =>
    let s' := goto t Dropped s in
    Some (if decide (kind = NoResponse) then s' else unregister id s')
  | _ => None
  end.

(** A dropped future of a caller.  An exchange that it runs goes with its
    request, or between two requests. *)
Definition drop_call (t : nat) (s : connection) : option connection :=
  match calls s !! t with
  | Some (Call Exchange _ _ _ _ _) => None
  | Some (Call _ _ _ _ Allocated _) => Some (goto t Dropped s)
  | Some (Call _ _ _ _ Exchanging _) =>
    match exchanging s with
    | Some e =>
      if decide (ex_owner e = t) then
        s' ← match ex_inner e with
             | Some i => if inner_result e s then Some s else drop_request i s
             | None => Some s
             end;
        Some (set_reauth (reauth_due s) None (goto t Dropped s'))
      else None
    | None => None
    end
  | Some _ => drop_request t s
  | None => None
  end.

(** ** Steps of the writer task *)

Definition write_recv (s : connection) : option connection :=
  match writer s, writing s, queue s with
  | WRun, None, f :: q => Some (set_writer q (Some f) WRun s)
  | _, _, _ => None
  end.

Definition write_done (s : connection) : option connection :=
  match writer s, writing s with
  | WRun, Some f =>
    Some (set_broker (at_broker s ++ [f]) (inbound s) (answered s) (set_writer (queue s) None WRun s))
  | _, _ => None
  end.

(** Why [write_loop] ends.  A write that fails, or that the shutdown cuts off,
    may still have reached the peer. *)
Inductive stop_reason := StopShutdown (reached : bool) | StopError (reached : bool) | StopIdle.

Definition abandon_write (reached : bool) (s : connection) : connection :=
  set_broker (at_broker s ++ (if reached then option_list (writing s) else [])) (inbound s) (answered s)
    (set_writer (queue s) None WLeft s).

Definition write_stop (reason : stop_reason) (s : connection) : option connection :=
  match writer s, reason with
  | WRun, StopShutdown reached => if shutdown s then Some (abandon_write reached s) else None
  | WRun, StopError reached => match writing s with Some _ => Some (abandon_write reached s) | None => None end
  | WRun, StopIdle =>
    match writing s, queue s with
    | None, [] =>
      if decide (pending s = ∅) then Some (set_writer [] None WLeft s) else None
    | _, _ => None
    end
  | _, _ => None
  end.

(** After the loop: cancel the token, then drop the receiver with its queue. *)
Definition write_exit (s : connection) : option connection :=
  match writer s with
  | WLeft => Some (cancel (set_writer (queue s) (writing s) WCancelled s))
  | WCancelled => Some (set_writer [] (writing s) WStopped s)
  | _ => None
  end.

(** ** The broker and the reader task *)

(** The broker answers a request that it received, once, with its id. *)
Definition broker_answer (i : nat) (body : bytes) (s : connection) : option connection :=
  match at_broker s !! i with
  | Some f =>
    if f_reply f then
      let a := Answer (f_call f) (response_frame (frame_corr_id (f_bytes f)) body) in
      Some (set_broker (delete i (at_broker s)) (inbound s ++ [a]) (answered s ++ [(f_call f, body)]) s)
    else None
  | None => None
  end.

(** [pending.remove(&id)] and [tx.send(r)]. *)
Definition deliver (id : Z) (r : call_result) (s : connection) : connection :=
  match pending s !! id with
  | Some t => update_call t (set_rx r) (unregister id s)
  | None => s
  end.

Definition read_frame (s : connection) : option connection :=
  match reader s, inbound s with
  | RRun, a :: rest =>
    let s' := set_broker (at_broker s) rest (answered s) s in
    Some (match read_response (a_bytes a) with
          | Some (id, body) => deliver id (Ok (Some (a_call a, body))) s'
          | None => s'
          end)
  | _, _ => None
  end.

(** The reader leaves its loop at the shutdown, or at the end of the stream. *)
Definition read_stop (eof : bool) (s : connection) : option connection :=
  match reader s with
  | RRun => if shutdown s || eof then Some (set_reader RLeft s) else None
  | _ => None
  end.

(** After the loop: cancel the token, take the keys, fail each of them. *)
Definition read_exit (s : connection) : option connection :=
  match reader s with
  | RLeft => Some (cancel (set_reader RCancelled s))
  | RCancelled => Some (set_reader (RDrain (map_to_list (pending s)).*1) s)
  | RDrain [] => Some (set_reader RStopped s)
  | RDrain (k :: keys) => Some (deliver k (Err Disconnected) (set_reader (RDrain keys) s))
  | _ => None
  end.

(** ** Runs *)

Inductive label :=
| LStart (kind : call_kind) (api_key version : Z) (flexible : bool) (body : bytes)
| LGuard (t : nat) (now : Z)
| LBeginExchange (t : nat) (now : Z)
| LExchangeRequest (api_key version : Z) (flexible : bool) (body : bytes)
| LExchangeDone (due : option Z)
| LExchangeFailed (error : client_error)
| LRegister (t : nat)
| LEnqueue (t : nat)
| LWake (t : nat)
| LTimeout (t : nat)
| LRelease (t : nat)
| LDrop (t : nat)
| LClose
| LWriteRecv
| LWriteDone
| LWriteStop (reason : stop_reason)
| LWriteExit
| LAnswer (i : nat) (body : bytes)
| LRead
| LReadStop (eof : bool)
| LReadExit.

Definition apply (l : label) (s : connection) : option connection :=
  match l with
  | LStart kind api_key version flexible body => start kind api_key version flexible body s
  | LGuard t now => take_guard t now s
  | LBeginExchange t now => begin_exchange t now s
  | LExchangeRequest api_key version flexible body => exchange_request api_key version flexible body s
  | LExchangeDone due => exchange_done due s
  | LExchangeFailed error => exchange_failed error s
  | LRegister t => register t s
  | LEnqueue t => enqueue t s
  | LWake t => wake t s
  | LTimeout t => time_out t s
  | LRelease t => release t s
  | LDrop t => drop_call t s
  | LClose => Some (cancel s)
  | LWriteRecv => write_recv s
  | LWriteDone => write_done s
  | LWriteStop reason => write_stop reason s
  | LWriteExit => write_exit s
  | LAnswer i body => broker_answer i body s
  | LRead => read_frame s
  | LReadStop eof => read_stop eof s
  | LReadExit => read_exit s
  end.

Fixpoint run (ls : list label) (s : connection) : option connection :=
  match ls with
  | [] => Some s
  | l :: ls => apply l s ≫= run ls
  end.
End steps.
