(* ===== verification/ConnProofs.v ===== *)
(** * Connection: invariants

    The invariants of the transition system of [Connection], each proved for
    the primitive updates that the steps are made of and then for every step:
    ids and frames belong to their calls, an entry of [pending] belongs to a
    call that still waits, an answer that a call took is the answer to its own
    frame, and a re-authentication excludes the callers.  *)

From S2P Require Import Prelude Bytes Errors ConnWire Connection.
Import ClientError.

Notation M := MIN_RESERVED_CORRELATION_ID.

(** ** What a call, a frame, an answer and an entry are bound to *)

Definition unsent (p : call_phase) : Prop :=
  match p with Allocated | Exchanging | Guarded | Enqueuing => True | _ => False end.

Definition waits (p : call_phase) : Prop :=
  match p with Enqueuing | Awaiting | Returned _ => True | _ => False end.

(** The ids of the callers are the residues of their numbers, and the ids of
    exchanges are the reserved ones. *)
Definition id_ok (s : connection) (c : call) : Prop :=
  match c_kind c with
  | Exchange => M ≤ c_id c ≤ i32_max
  | _ => 0 ≤ c_seq c < allocated s ∧ c_id c = c_seq c mod M
  end.

Definition call_ok (s : connection) (c : call) : Prop :=
  id_ok s c ∧ (unsent (c_phase c) → frame_corr_id (c_frame c) = c_id c).

Definition frame_ok (s : connection) (f : frame) : Prop :=
  ∃ c, calls s !! f_call f = Some c ∧ f_bytes f = c_frame c ∧ frame_corr_id (f_bytes f) = c_id c.

Definition answer_ok (s : connection) (a : answer) : Prop :=
  ∃ c body, calls s !! a_call a = Some c ∧ a_bytes a = response_frame (c_id c) body ∧
    (a_call a, body) ∈ answered s.

Definition entry_ok (s : connection) (k : Z) (t : nat) : Prop :=
  ∃ c, calls s !! t = Some c ∧ (c_id c = k ∧ c_kind c ≠ NoResponse) ∧ waits (c_phase c).

Definition in_flight (s : connection) : list frame := queue s ++ option_list (writing s) ++ at_broker s.

(** The result is an error, or the answer that the broker gave to call [t]. *)
Definition own (s : connection) (t : nat) (r : call_result) : Prop :=
  match r with Ok (Some (t', body)) => t' = t ∧ (t, body) ∈ answered s | _ => True end.

Definition result_of (c : call) (r : call_result) : Prop :=
  c_rx c = Some r ∨ c_phase c = Returned r ∨ c_phase c = Finished r.

Record inv (s : connection) : Prop := {
  inv_count : 0 ≤ allocated s;
  inv_next : next_corr_id s = allocated s mod M;
  inv_call t c : calls s !! t = Some c → call_ok s c;
  inv_seq t1 t2 c1 c2 : calls s !! t1 = Some c1 → calls s !! t2 = Some c2 →
    c_kind c1 ≠ Exchange → c_kind c2 ≠ Exchange → c_seq c1 = c_seq c2 → t1 = t2;
  inv_frame f : f ∈ in_flight s → frame_ok s f;
  inv_answer a : a ∈ inbound s → answer_ok s a;
  inv_entry k t : pending s !! k = Some t → entry_ok s k t;
  inv_exchange e : exchanging s = Some e → is_i32 (ex_corr e);
  inv_own t c r : calls s !! t = Some c → c_kind c = Normal → result_of c r → own s t r;
}.

(** ** The primitive updates *)

(** An update of a call that keeps its kind, its number, its id and its frame. *)
Definition same_call (c c' : call) : Prop :=
  c_kind c' = c_kind c ∧ c_seq c' = c_seq c ∧ c_id c' = c_id c ∧ c_frame c' = c_frame c.

Lemma alter_lookup_same (f : call → call) t (l : list call) t' c :
  (∀ c, same_call c (f c)) → alter f t l !! t' = Some c →
  ∃ c0, l !! t' = Some c0 ∧ same_call c0 c ∧ (t' ≠ t ∧ c = c0 ∨ t' = t ∧ c = f c0).
Proof.
  intros Hf H. destruct (decide (t' = t)) as [->|Ht].
  - rewrite list_lookup_alter_eq in H. apply fmap_Some in H as (c0 & H & ->). naive_solver.
  - rewrite list_lookup_alter_ne in H by done. exists c. split; [done|]. split; [by repeat split|]. auto.
Qed.

Lemma alter_lookup_back (f : call → call) t (l : list call) t' c0 :
  (∀ c, same_call c (f c)) → l !! t' = Some c0 → ∃ c, alter f t l !! t' = Some c ∧ same_call c0 c.
Proof.
  intros Hf H. destruct (decide (t' = t)) as [->|Ht].
  - rewrite list_lookup_alter_eq, H. simpl. eauto.
  - rewrite list_lookup_alter_ne by done. exists c0. split; [done|]. by repeat split.
Qed.

(** What an update of call [t] by [f] must keep: a phase before the queue stays
    one, an entry stays one of a waiting call, and a result is the own one. *)
Lemma inv_update t f s :
  (∀ c, same_call c (f c)) →
  (∀ c, calls s !! t = Some c → unsent (c_phase (f c)) → unsent (c_phase c)) →
  (∀ c k, calls s !! t = Some c → pending s !! k = Some t → waits (c_phase (f c))) →
  (∀ c r, calls s !! t = Some c → c_kind c = Normal → result_of (f c) r → own s t r) →
  inv s → inv (update_call t f s).
Proof.
  intros Hf Hunsent Hwaits Hown [Hc Hn Hcall Hseq Hframe Hans Hent Hex Hres].
  split; simpl; try done.
  - intros t' c H. apply alter_lookup_same in H as (c0 & H0 & (Hk & Hs & Hid & Hfr) & Hcase); [|done].
    destruct (Hcall _ _ H0) as [Hio Hu]. split.
    + unfold id_ok in *. rewrite Hk, Hs, Hid. done.
    + rewrite Hfr, Hid. intros Hun. apply Hu.
      destruct Hcase as [[_ ->]|[-> ->]]; [done|]. by eapply Hunsent.
  - intros t1 t2 c1 c2 H1 H2. apply alter_lookup_same in H1 as (d1 & H1 & (Hk1 & Hs1 & _) & _); [|done].
    apply alter_lookup_same in H2 as (d2 & H2 & (Hk2 & Hs2 & _) & _); [|done].
    rewrite Hk1, Hk2, Hs1, Hs2. by apply Hseq.
  - intros fr Hin. destruct (Hframe fr Hin) as (c0 & H0 & Hb & Hid).
    destruct (alter_lookup_back f t _ _ _ Hf H0) as (c & H & (_ & _ & Hi & Hfr)).
    exists c. by rewrite Hi, Hfr.
  - intros a Hin. destruct (Hans a Hin) as (c0 & body & H0 & Hb & Hl).
    destruct (alter_lookup_back f t _ _ _ Hf H0) as (c & H & (_ & _ & Hi & _)).
    exists c, body. by rewrite Hi.
  - intros k t' Hp. destruct (Hent k t' Hp) as (c0 & H0 & Hid & Hw).
    destruct (decide (t' = t)) as [->|Ht].
    + exists (f c0). simpl. rewrite list_lookup_alter_eq, H0. split; [done|].
      destruct (Hf c0) as (-> & _ & -> & _). split; [done|]. by eapply Hwaits.
    + exists c0. simpl. by rewrite list_lookup_alter_ne.
  - intros t' c r H Hk Hr. apply alter_lookup_same in H as (c0 & H0 & (Hk0 & _) & Hcase); [|done].
    destruct Hcase as [[_ ->]|[-> ->]]; [by eapply Hres|]. eapply Hown; [done|congruence|done].
Qed.

Lemma same_call_phase p c : same_call c (set_phase p c).
Proof. by repeat split. Qed.
Lemma same_call_rx r c : same_call c (set_rx r c).
Proof. by repeat split. Qed.

Definition phase_own (s : connection) (t : nat) (p : call_phase) : Prop :=
  match p with Returned r | Finished r => own s t r | _ => True end.

Lemma inv_goto t p s :
  (∀ c, calls s !! t = Some c → unsent p → unsent (c_phase c)) →
  (∀ k, pending s !! k = Some t → waits p) →
  (∀ c, calls s !! t = Some c → c_kind c = Normal → phase_own s t p) →
  inv s → inv (goto t p s).
Proof.
  intros Hu Hw Ho Hi. apply inv_update; eauto using same_call_phase.
  intros c r Hc Hk [Hr|[Hr|Hr]]; simpl in Hr.
  - eapply (inv_own s); eauto. by left.
  - subst p. by eapply Ho.
  - subst p. by eapply Ho.
Qed.

(** Updates that leave the calls alone. *)
Lemma inv_mono s s' :
  next_corr_id s' = next_corr_id s → allocated s' = allocated s → calls s' = calls s →
  (∀ f, f ∈ in_flight s' → f ∈ in_flight s ∨ frame_ok s f) →
  (∀ l, l ∈ answered s → l ∈ answered s') →
  (∀ a, a ∈ inbound s' → a ∈ inbound s ∨ answer_ok s' a) →
  (∀ k t, pending s' !! k = Some t → pending s !! k = Some t ∨ entry_ok s k t) →
  (∀ e, exchanging s' = Some e → is_i32 (ex_corr e)) →
  inv s → inv s'.
Proof.
  intros En Ea Ec Hf Hl Ha Hp He [Hc Hn Hcall Hseq Hframe Hans Hent Hex Hres].
  split; rewrite ?En, ?Ea, ?Ec; try done.
  - intros t c H. destruct (Hcall t c H). split; [|done]. unfold id_ok in *. by rewrite Ea.
  - intros f Hin. unfold frame_ok. rewrite Ec. destruct (Hf f Hin) as [|?]; [by apply Hframe|done].
  - intros a Hin. destruct (Ha a Hin) as [Hin'|?]; [|done].
    destruct (Hans a Hin') as (c & body & ? & ? & ?). exists c, body. rewrite Ec. auto.
  - intros k t H. unfold entry_ok. rewrite Ec. destruct (Hp k t H); [by apply Hent|done].
  - intros t c r H Hk Hr. specialize (Hres t c r H Hk Hr). unfold own in *.
    destruct r as [[[]|]|]; naive_solver.
Qed.

Ltac mono s := apply (inv_mono s); try reflexivity; simpl; eauto using inv_exchange.

Lemma inv_cancel s : inv s → inv (cancel s).
Proof. intros H. mono s. Qed.

Lemma inv_set_reader r s : inv s → inv (set_reader r s).
Proof. intros H. mono s. Qed.

Lemma inv_set_reauth d e s :
  (∀ x, e = Some x → is_i32 (ex_corr x)) → inv s → inv (set_reauth d e s).
Proof. intros He H. mono s. Qed.

Lemma inv_unregister k s : inv s → inv (unregister k s).
Proof.
  intros H. mono s.
  - intros k' t [_ Hl]%lookup_delete_Some. by left.
Qed.

Lemma inv_set_writer q w ws s :
  (∀ f, f ∈ q ++ option_list w → f ∈ in_flight s ∨ frame_ok s f) → inv s → inv (set_writer q w ws s).
Proof.
  intros Hq H. mono s.
  - intros f Hf. unfold in_flight in Hf. simpl in Hf. rewrite (assoc_L (++)) in Hf.
    apply elem_of_app in Hf as [Hf|Hf]; [by apply Hq|]. left. unfold in_flight. set_solver.
Qed.

Lemma inv_set_broker b i l s :
  (∀ f, f ∈ b → f ∈ in_flight s) → (∀ x, x ∈ answered s → x ∈ l) →
  (∀ a, a ∈ i → a ∈ inbound s ∨ answer_ok (set_broker b i l s) a) →
  inv s → inv (set_broker b i l s).
Proof.
  intros Hb Hl Ha H. mono s.
  - intros f Hf. left. unfold in_flight in Hf. simpl in Hf. rewrite (assoc_L (++)) in Hf.
    apply elem_of_app in Hf as [Hf|Hf]; [|by apply Hb]. unfold in_flight. set_solver.
Qed.

Lemma inv_deliver id r s :
  (∀ t c, pending s !! id = Some t → calls s !! t = Some c → c_kind c = Normal → own s t r) →
  inv s → inv (deliver id r s).
Proof.
  intros Ho Hi. unfold deliver. destruct (pending s !! id) as [t|] eqn:Hp; [|done].
  apply inv_update; eauto using same_call_rx.
  - intros c k Hc Hk. simpl in Hc, Hk. apply lookup_delete_Some in Hk as [_ Hk].
    destruct (inv_entry s Hi k t Hk) as (c' & Hc' & _ & Hw). simplify_eq. done.
  - intros c r' Hc Hk [Hr|Hr]; simpl in Hr; simplify_eq; [by eapply Ho|].
    eapply (inv_own s); eauto. by right.
  - by apply inv_unregister.
Qed.

(** A new call at the end of the list. *)
Lemma inv_new_call c n a e s :
  inv s →
  allocated s ≤ a → n = a mod M →
  call_ok (set_ids n a s) c → (c_kind c ≠ Exchange → allocated s ≤ c_seq c) →
  c_rx c = None → (∀ r, c_phase c = Returned r ∨ c_phase c = Finished r → ∃ x, r = Err x) →
  (∀ x, e = Some x → is_i32 (ex_corr x)) →
  inv (set_reauth (reauth_due s) e (set_calls (calls s ++ [c]) (set_ids n a s))).
Proof.
  intros [Hc Hn Hcall Hseq Hframe Hans Hent Hex Hres] Ha -> Hok Hnew Hrx Hph He.
  assert (∀ t d, (calls s ++ [c]) !! t = Some d →
    calls s !! t = Some d ∨ (t = length (calls s) ∧ d = c)) as Hlk.
  { intros t d [H|[H1 H2]]%lookup_app_Some; [by left|].
    apply list_lookup_singleton_Some in H2 as [? ->]. right. split; [lia|done]. }
  assert (∀ t d, calls s !! t = Some d → (calls s ++ [c]) !! t = Some d) as Hback.
  { intros t d Hd. by apply lookup_app_l_Some. }
  assert (∀ t d, calls s !! t = Some d → c_kind d ≠ Exchange → c_seq d < allocated s) as Hlt.
  { intros t d Hd Hk. destruct (Hcall t d Hd) as [Hi _]. unfold id_ok in Hi.
    destruct (c_kind d); naive_solver. }
  split; simpl; try done; try lia.
  - intros t d [H|[-> ->]]%Hlk; [|done]. destruct (Hcall t d H) as [Hi Hu]. split; [|done].
    unfold id_ok in *. simpl. destruct (c_kind d); naive_solver lia.
  - intros t1 t2 c1 c2 [H1|[-> ->]]%Hlk [H2|[-> ->]]%Hlk Hk1 Hk2 Es; eauto.
    + pose proof (Hlt _ _ H1 Hk1). specialize (Hnew Hk2). lia.
    + pose proof (Hlt _ _ H2 Hk2). specialize (Hnew Hk1). lia.
  - intros f Hf. destruct (Hframe f Hf) as (d & ? & ?). exists d. eauto.
  - intros x Hx. destruct (Hans x Hx) as (d & body & ? & ?). exists d, body. eauto.
  - intros k t Hp. destruct (Hent k t Hp) as (d & ? & ?). exists d. eauto.
  - intros t d r [H|[-> ->]]%Hlk Hk Hr; [by eapply Hres|].
    destruct Hr as [Hr|Hr]; [congruence|]. by destruct (Hph r Hr) as [x ->].
Qed.

(** ** The window of ids

    Ids come back after [MIN_RESERVED_CORRELATION_ID] requests.  A call is live
    until it ended and no frame or answer of it is on its way; the window says
    that no live call is that many requests old. *)

Definition ended (p : call_phase) : Prop :=
  match p with Finished _ | Dropped => True | _ => False end.

Definition live (s : connection) (t : nat) (c : call) : Prop :=
  ¬ ended (c_phase c) ∨ (∃ f, f ∈ in_flight s ∧ f_call f = t) ∨ (∃ a, a ∈ inbound s ∧ a_call a = t).

Definition window (s : connection) : Prop :=
  ∀ t c, calls s !! t = Some c → c_kind c ≠ Exchange → live s t c → allocated s ≤ c_seq c + M.

Lemma ended_dec p : {ended p} + {¬ ended p}.
Proof. destruct p; simpl; auto. Qed.

Lemma waits_not_ended p : waits p → ¬ ended p.
Proof. destruct p; simpl; auto. Qed.

(** Fewer requests than there are ids fit the window. *)
Lemma few_in_window s : inv s → allocated s ≤ M → window s.
Proof.
  intros Hi Ha t c Hc Hk _. destruct (inv_call s Hi t c Hc) as [Hid _]. unfold id_ok in Hid.
  destruct (c_kind c); naive_solver lia.
Qed.

Lemma M_pos : 0 < M.
Proof. done. Qed.

Lemma mod_window a b n :
  n - M ≤ a < n → n - M ≤ b < n → a mod M = b mod M → a = b.
Proof.
  intros Ha Hb E. pose proof M_pos. pose proof (Z.div_mod a M ltac:(lia)).
  pose proof (Z.div_mod b M ltac:(lia)).
  assert (a / M = b / M) by nia. nia.
Qed.

(** An answer with the id of a caller that waits is the answer to its frame. *)
Lemma answer_for_entry s a c t d :
  inv s → window s → a ∈ inbound s → calls s !! a_call a = Some c → pending s !! c_id c = Some t →
  calls s !! t = Some d → c_kind d = Normal → a_call a = t.
Proof.
  intros Hi Hw Ha Hc Hp Hd Hk.
  destruct (inv_entry s Hi _ _ Hp) as (d' & Hd' & [Hid _] & Hwait). simplify_eq.
  destruct (inv_call s Hi _ _ Hc) as [Hic _]. destruct (inv_call s Hi _ _ Hd) as [Hidd _].
  unfold id_ok in Hidd. rewrite Hk in Hidd. destruct Hidd as [Hsd Hmd].
  pose proof (Z.mod_pos_bound (c_seq d) M M_pos).
  assert (c_kind c ≠ Exchange) as Hkc.
  { intros E. unfold id_ok in Hic. rewrite E in Hic. lia. }
  assert (0 ≤ c_seq c < allocated s ∧ c_id c = c_seq c mod M) as [Hsc Hmc].
  { unfold id_ok in Hic. by destruct (c_kind c). }
  assert (allocated s ≤ c_seq c + M).
  { apply (Hw (a_call a)); [done|done|]. right. right. by exists a. }
  assert (allocated s ≤ c_seq d + M).
  { eapply (Hw t); [done|by rewrite Hk|]. left. by apply waits_not_ended. }
  eapply (inv_seq s Hi); eauto; [by rewrite Hk|]. apply (mod_window _ _ (allocated s)); lia.
Qed.

(** ** Re-authentication excludes the callers *)

(** A running exchange has an owner that holds the write lock, so no caller
    holds a guard; and a request with a reserved id is the last request of the
    running exchange. *)
Record excl (s : connection) : Prop := {
  excl_owner e : exchanging s = Some e → ∃ c, calls s !! ex_owner e = Some c ∧
    c_phase c = Exchanging ∧ c_kind c ≠ Exchange;
  excl_guard e t c : exchanging s = Some e → calls s !! t = Some c → holds_guard c = false;
  excl_inner t c : calls s !! t = Some c → c_kind c = Exchange → ¬ ended (c_phase c) →
    ∃ e, exchanging s = Some e ∧ ex_inner e = Some t;
  excl_kind e i : exchanging s = Some e → ex_inner e = Some i →
    ∃ c, calls s !! i = Some c ∧ c_kind c = Exchange;
}.

Lemma excl_same s s' :
  calls s' = calls s → exchanging s' = exchanging s → excl s → excl s'.
Proof. intros Ec Ee [H1 H2 H3 H4]. split; rewrite ?Ec, ?Ee; auto. Qed.

Lemma excl_update t f s :
  (∀ c, same_call c (f c)) →
  (∀ e c, exchanging s = Some e → ex_owner e = t → calls s !! t = Some c →
     c_phase (f c) = c_phase c) →
  (∀ e c, exchanging s = Some e → calls s !! t = Some c → holds_guard (f c) = false) →
  (∀ c, calls s !! t = Some c → ¬ ended (c_phase (f c)) → ¬ ended (c_phase c)) →
  excl s → excl (update_call t f s).
Proof.
  intros Hf Ho Hg He [H1 H2 H3 H4]. split; simpl.
  - intros e Ee. destruct (H1 e Ee) as (c & Hc & Hp & Hk).
    destruct (alter_lookup_back f t _ _ _ Hf Hc) as (c' & Hc' & (Hk' & _)). exists c'.
    split; [done|]. split; [|congruence].
    apply alter_lookup_same in Hc' as (c0 & Hc0 & _ & [[_ ->]|[Et ->]]); [| |done]; simplify_eq; [done|].
    erewrite Ho; eauto.
  - intros e t' c Ee Hc. apply alter_lookup_same in Hc as (c0 & Hc0 & _ & [[_ ->]|[-> ->]]); eauto.
  - intros t' c Hc Hk Hn. apply alter_lookup_same in Hc as (c0 & Hc0 & (Hk0 & _) & Hcase); [|done].
    apply (H3 t' c0); [done|congruence|]. destruct Hcase as [[_ ->]|[-> ->]]; [done|]. by eapply He.
  - intros e i Ee Ei. destruct (H4 e i Ee Ei) as (c & Hc & Hk).
    destruct (alter_lookup_back f t _ _ _ Hf Hc) as (c' & Hc' & (Hk' & _)). exists c'. by rewrite Hk'.
Qed.

Lemma excl_goto t p s c :
  calls s !! t = Some c → c_phase c ≠ Exchanging →
  (∀ e, exchanging s = Some e → holds_guard (set_phase p c) = false) →
  (¬ ended p → ¬ ended (c_phase c)) →
  excl s → excl (goto t p s).
Proof.
  intros Hc Hp Hg He Hx. apply excl_update; eauto using same_call_phase.
  - intros e c' Ee Et Hc'. destruct (excl_owner s Hx e Ee) as (d & Hd & ? & _). simplify_eq.
  - intros e c' Ee Hc'. simplify_eq. by eapply Hg.
  - intros c' Hc'. simplify_eq. by apply He.
Qed.

Lemma excl_deliver id r s : excl s → excl (deliver id r s).
Proof.
  intros Hx. unfold deliver. destruct (pending s !! id) as [t|]; [|done].
  apply excl_update; eauto using same_call_rx.
  - intros e c Ee Hc. apply (excl_guard s Hx e t c Ee Hc).
  - by apply (excl_same s).
Qed.

(** The exchange ends: its owner moves on, and its request has ended. *)
Lemma excl_end d t p s :
  (∀ t' c, calls s !! t' = Some c → c_kind c = Exchange → ended (c_phase c)) →
  (∀ c, calls s !! t = Some c → c_kind c ≠ Exchange) →
  excl (set_reauth d None (goto t p s)).
Proof.
  intros Hi Ht. split; simpl; try done.
  intros t' c Hc Hk Hn. exfalso.
  apply alter_lookup_same in Hc as (c0 & Hc0 & (Hk0 & _) & Hcase); [|apply same_call_phase].
  destruct Hcase as [[_ ->]|[-> ->]]; [by eapply Hn, Hi|]. eapply Ht; [done|]. congruence.
Qed.

Lemma inner_ended s e r :
  excl s → exchanging s = Some e → inner_result e s = Some r →
  ∀ t c, calls s !! t = Some c → c_kind c = Exchange → ended (c_phase c).
Proof.
  intros Hx Ee Hr t c Hc Hk. unfold inner_result in Hr.
  destruct (c_phase c) eqn:Ep; try done;
    (destruct (excl_inner s Hx t c Hc Hk) as (e' & Ee' & Ei); [rewrite Ep; by intros []|]; simplify_eq;
     rewrite Ei, Hc in Hr; destruct c; simpl in *; by subst).
Qed.

(** [call_at] takes the call of a step apart. *)
Ltac call_at s t :=
  let Hc := fresh "Hc" in
  destruct (calls s !! t) as [[kind seq id fr p rx]|] eqn:Hc; [|done].

Section excl_steps.
Context (client_id : string) (capacity : nat).

Lemma excl_new s c e :
  excl s → holds_guard c = false →
  (∀ e0, exchanging s = Some e0 → ∃ e1, e = Some e1 ∧ ex_owner e1 = ex_owner e0) →
  (∀ e1, e = Some e1 → is_Some (exchanging s)) →
  (∀ t d, calls s !! t = Some d → c_kind d = Exchange → ¬ ended (c_phase d) → e = exchanging s) →
  (c_kind c = Exchange → ¬ ended (c_phase c) → ∃ e1, e = Some e1 ∧ ex_inner e1 = Some (length (calls s))) →
  (∀ e1 i, e = Some e1 → ex_inner e1 = Some i →
     e = exchanging s ∨ i = length (calls s) ∧ c_kind c = Exchange) →
  excl (set_reauth (reauth_due s) e (set_calls (calls s ++ [c]) s)).
Proof.
  intros Hx Hg Ho1 Ho2 Hin Hc Hki.
  assert (∀ t d, (calls s ++ [c]) !! t = Some d →
    calls s !! t = Some d ∨ (t = length (calls s) ∧ d = c)) as Hlk.
  { intros t d [H|[H1 H2]]%lookup_app_Some; [by left|].
    apply list_lookup_singleton_Some in H2 as [? ->]. right. split; [lia|done]. }
  split; simpl.
  - intros e1 ->. destruct (Ho2 e1 eq_refl) as [e0 E0]. destruct (Ho1 e0 E0) as (e2 & [= <-] & ->).
    destruct (excl_owner s Hx e0 E0) as (d & Hd & ?). exists d. split; [by apply lookup_app_l_Some|done].
  - intros e1 t d -> [H|[-> ->]]%Hlk; [|done]. destruct (Ho2 e1 eq_refl) as [e0 E0].
    by apply (excl_guard s Hx e0 t d).
  - intros t d [H|[-> ->]]%Hlk Hk Hn; [|by apply Hc]. rewrite (Hin t d H Hk Hn).
    by apply (excl_inner s Hx t d).
  - intros e1 i He1 Hi1. destruct (Hki e1 i He1 Hi1) as [E|[-> Hk]].
    + destruct (excl_kind s Hx e1 i) as (d & Hd & Hk); [congruence|done|].
      exists d. split; [by apply lookup_app_l_Some|done].
    + exists c. split; [|done]. rewrite lookup_app_r, Nat.sub_diag by lia. done.
Qed.

Lemma excl_start kind api_key version flexible body s s' :
  start client_id kind api_key version flexible body s = Some s' → excl s → excl s'.
Proof.
  unfold start. case_decide as Hk; [done|]. intros H Hx.
  destruct (next_correlation_id _) as [id next]. injection H as <-.
  match goal with |- excl (set_calls (_ ++ [?c]) _) =>
    apply (excl_same (set_reauth (reauth_due s) (exchanging s) (set_calls (calls s ++ [c]) s)));
    [done|done|] end.
  apply excl_new; try done; eauto.
  - by destruct (build_request_header _ _ _ _ _), kind.
  - by destruct (build_request_header _ _ _ _ _).
Qed.

Lemma excl_request api_key version flexible body s s' :
  exchange_request client_id api_key version flexible body s = Some s' → excl s → excl s'.
Proof.
  unfold exchange_request. intros H Hx. destruct (exchanging s) as [e|] eqn:Ee; [|done].
  destruct (inner_result e s) as [r|] eqn:Er; [|done].
  destruct (sasl_next_correlation_id (ex_corr e)) as [id corr].
  assert (∀ c, c_kind c = Exchange → excl (set_reauth (reauth_due s)
    (Some (ExchangeState (ex_owner e) corr (Some (length (calls s))))) (set_calls (calls s ++ [c]) s))) as Hnew.
  { intros c Hk. apply excl_new; try done.
    - unfold holds_guard. by rewrite Hk.
    - intros e0 ?. simplify_eq. by eexists.
    - intros t d Hd Hkd Hn. by destruct Hn; eapply inner_ended.
    - intros _ _. by eexists.
    - intros e1 i [= <-] [= <-]. by right. }
  destruct r as [[[]|]|]; try done; injection H as <-;
    apply Hnew; by destruct (build_request_header _ _ _ _ _).
Qed.

Lemma excl_begin t now s s' : begin_exchange t now s = Some s' → excl s → excl s'.
Proof.
  unfold begin_exchange. intros H Hx. call_at s t. destruct p, (exchanging s) eqn:Ee; try done.
  destruct (_ && _) eqn:Eg; simplify_eq. apply andb_true_iff in Eg as [_ Eg%negb_true_iff].
  assert (∀ t' c, calls s !! t' = Some c → holds_guard c = false) as Hg.
  { intros t' c Hc'. destruct (holds_guard c) eqn:E; [|done].
    rewrite <- Eg. symmetry. apply existsb_exists. exists c. split; [|done].
    apply list_elem_of_In. by eapply list_elem_of_lookup_2. }
  assert (∀ t' c, calls s !! t' = Some c → c_kind c = Exchange → ended (c_phase c)) as Hend.
  { intros t' c Hc' Hk. destruct (c_phase c) eqn:Ep; try done;
      (destruct (excl_inner s Hx t' c Hc' Hk) as (e & ? & _); [rewrite Ep; by intros []|]; congruence). }
  split; simpl.
  - intros e [= <-]. simpl. rewrite list_lookup_alter_eq, Hc. eexists. split; [done|]. split; [done|].
    simpl. intros ->. by specialize (Hend t _ Hc eq_refl).
  - intros e t' c _ Hc'. apply alter_lookup_same in Hc' as (c0 & Hc0 & _ & [[_ ->]|[-> ->]]);
      [by eapply Hg| |apply same_call_phase]. unfold holds_guard. simpl. by destruct (c_kind c0).
  - intros t' c Hc' Hk Hn. exfalso.
    apply alter_lookup_same in Hc' as (c0 & Hc0 & (Hk0 & _) & [[_ ->]|[-> ->]]); [| |apply same_call_phase].
    + by eapply Hn, Hend.
    + rewrite Hc in Hc0. injection Hc0 as <-. by specialize (Hend t _ Hc Hk).
  - by intros e i [= <-].
Qed.

Lemma excl_drop t s s' : drop_request t s = Some s' → excl s →
  excl s' ∧ reauth_due s' = reauth_due s ∧ exchanging s' = exchanging s ∧
  (∀ t' c, calls s' !! t' = Some c → c_kind c = Exchange → ¬ ended (c_phase c) → t' ≠ t).
Proof.
  unfold drop_request. intros H Hx. call_at s t.
  assert (p = Enqueuing ∨ p = Awaiting) as Hp by (destruct p; naive_solver).
  assert (s' = if decide (kind = NoResponse) then goto t Dropped s else unregister id (goto t Dropped s))
    as -> by (by destruct Hp as [->| ->]; simplify_eq).
  assert (excl (goto t Dropped s)) as Hx'.
  { eapply excl_goto; [done|by destruct Hp as [->| ->]|..|done]; [|by intros []].
    intros e _. by destruct kind. }
  split; [|split; [|split]]; [case_decide; [done|by apply (excl_same (goto t Dropped s))]|..];
    [by case_decide|by case_decide|].
  intros t' c Hc' Hk Hn ->. replace (calls _) with (calls (goto t Dropped s)) in Hc' by (by case_decide).
  simpl in Hc'. rewrite list_lookup_alter_eq, Hc in Hc'. simpl in Hc'. by simplify_eq.
Qed.

Lemma excl_drop_call t s s' : drop_call t s = Some s' → excl s → excl s'.
Proof.
  unfold drop_call. intros H Hx. call_at s t.
  destruct (decide (kind = Exchange)) as [->|Hk]; [done|].
  assert (p = Allocated ∨ p = Exchanging ∨ drop_request t s = Some s') as Hcase
    by (destruct kind, p; try done; auto).
  destruct Hcase as [->|[->|Hd]]; [..|by apply (excl_drop t s s')].
  - assert (s' = goto t Dropped s) as -> by (by destruct kind; simplify_eq).
    eapply excl_goto; [done|done|..|done]; [|by intros []]. intros e _. by destruct kind.
  - destruct (exchanging s) as [e|] eqn:Ee; [|by destruct kind].
    destruct (decide (ex_owner e = t)) as [Ht|]; [|by destruct kind].
    assert (match ex_inner e with
      | Some i => if inner_result e s then Some s else drop_request i s
      | None => Some s end ≫= (λ s1, Some (set_reauth (reauth_due s) None (goto t Dropped s1))) = Some s')
      as (s1 & Hs1 & [= <-])%bind_Some by (by destruct kind).
    assert (excl s1 ∧ exchanging s1 = Some e ∧ ∀ t' c, calls s1 !! t' = Some c → c_kind c = Exchange →
      ended (c_phase c)) as (Hx1 & Ee1 & Hend); [|].
    { destruct (inner_result e s) as [r|] eqn:Er.
      - assert (s1 = s) as -> by (by destruct (ex_inner e); simplify_eq).
        split; [done|]. split; [done|]. by eapply inner_ended.
      - destruct (ex_inner e) as [i|] eqn:Ei; [|by unfold inner_result in Er; rewrite Ei in Er].
        destruct (excl_drop i s s1 Hs1 Hx) as (Hx1 & _ & Ee1 & Hi). rewrite Ee in Ee1.
        split; [done|]. split; [done|]. intros t' c Hc' Hkc.
        destruct (ended_dec (c_phase c)) as [|Hn]; [done|].
        destruct (excl_inner s1 Hx1 t' c Hc' Hkc Hn) as (e1 & E1 & Ei1).
        assert (t' = i) as -> by congruence. by destruct (Hi i c Hc' Hkc Hn). }
    apply excl_end; [done|]. intros c Hc1.
    destruct (excl_owner s1 Hx1 e Ee1) as (c' & Hc2 & _ & ?). congruence.
Qed.

(** A step of the call [t] alone: what it does besides the phase of the call
    leaves the calls and the exchange alone. *)
Lemma excl_call_step t p s s' c :
  calls s !! t = Some c → c_phase c ≠ Exchanging → ¬ ended (c_phase c) →
  (∀ e, exchanging s = Some e → holds_guard (set_phase p c) = false) →
  calls s' = calls (goto t p s) → exchanging s' = exchanging s → excl s → excl s'.
Proof.
  intros Hc Hp Hn Hg Ec Ee Hx. apply (excl_same (goto t p s)); [done|done|]. by eapply excl_goto.
Qed.

Lemma excl_caller l s s' t :
  l = LRegister t ∨ l = LEnqueue t ∨ l = LWake t ∨ l = LTimeout t ∨ l = LRelease t ∨
    (∃ now, l = LGuard t now) →
  apply client_id capacity l s = Some s' → excl s → excl s'.
Proof.
  intros Hl H Hx.
  assert (∃ p c, calls s !! t = Some c ∧ c_phase c ≠ Exchanging ∧ ¬ ended (c_phase c) ∧
    (∀ e, exchanging s = Some e → holds_guard (set_phase p c) = false) ∧
    calls s' = calls (goto t p s) ∧ exchanging s' = exchanging s)
    as (p & c & ? & ? & ? & ? & ? & ?); [|by eapply excl_call_step].
  destruct Hl as [->|[->|[->|[->|[->|[now ->]]]]]]; simpl in H;
    unfold register, enqueue, wake, time_out, release, take_guard in H; call_at s t; destruct p; try done.
  - exists Enqueuing. eexists. repeat (split; [done|]).
    split; [by intros []|]. split; [|case_decide; by simplify_eq].
    intros e Ee. by apply (excl_guard s Hx e t _ Ee Hc).
  - destruct (writer s); [try case_decide as Hq; [|done]..|];
      (eexists _, _; split; [done|]; split; [done|]; split; [by intros []|];
       split; [|simplify_eq; done]; intros e Ee; simpl; case_decide || idtac; by destruct kind).
  - destruct rx as [r|]; [|destruct (has_sender t s); [done|]];
      (eexists _, _; split; [done|]; split; [done|]; split; [by intros []|];
       split; [|simplify_eq; done]; intros e Ee; by destruct kind).
  - destruct rx; [done|]. eexists _, _; split; [done|]; split; [done|]; split; [by intros []|];
      split; [|simplify_eq; done]; intros e Ee; by destruct kind.
  - exists (Finished r). eexists; split; [done|]; split; [done|]; split; [by intros []|];
      split; [|case_decide; simplify_eq; done]; intros e Ee; by destruct kind.
  - destruct (exchanging s) eqn:Ee; [done|]. destruct (due_at now s); [done|].
    exists Guarded. eexists; split; [done|]; split; [done|]; split; [by intros []|];
      split; [|simplify_eq; done]. done.
Qed.

Lemma excl_step l s s' : apply client_id capacity l s = Some s' → excl s → excl s'.
Proof.
  intros H Hx.
  destruct l; try (by eapply (excl_caller _ s s' t); [|exact H|exact Hx]; eauto 8); simpl in H.
  - by eapply excl_start.
  - by eapply excl_begin.
  - by eapply excl_request.
  - unfold exchange_done in H. destruct (exchanging s) as [e|] eqn:Ee; [|done].
    destruct (inner_result e s) as [[[]|]|] eqn:Er; try done. simplify_eq.
    apply excl_end; [by eapply inner_ended|]. intros c Hc.
    destruct (excl_owner s Hx e Ee) as (c' & Hc' & _ & ?). congruence.
  - unfold exchange_failed in H. destruct (exchanging s) as [e|] eqn:Ee; [|done].
    destruct (inner_result e s) as [r|] eqn:Er; [|done]. simplify_eq.
    apply (excl_same (set_reauth (reauth_due s) None (goto (ex_owner e) (Finished (Err error)) s)));
      [done|done|].
    apply excl_end; [by eapply inner_ended|]. intros c Hc.
    destruct (excl_owner s Hx e Ee) as (c' & Hc' & _ & ?). congruence.
  - by eapply excl_drop_call.
  - simplify_eq. by apply (excl_same s).
  - unfold write_recv in H. destruct (writer s), (writing s), (queue s); simplify_eq. by apply (excl_same s).
  - unfold write_done in H. destruct (writer s), (writing s); simplify_eq. by apply (excl_same s).
  - apply (excl_same s); [..|done]; unfold write_stop, abandon_write in H;
      destruct (writer s), reason; try done; repeat (case_match; try done); by simplify_eq.
  - unfold write_exit in H. destruct (writer s); simplify_eq; by apply (excl_same s).
  - unfold broker_answer in H. destruct (at_broker s !! i) as [f|]; [|done].
    destruct (f_reply f); simplify_eq. by apply (excl_same s).
  - unfold read_frame in H. destruct (reader s), (inbound s) as [|a rest]; simplify_eq.
    destruct (read_response (a_bytes a)) as [[id b]|]; [apply excl_deliver|]; by apply (excl_same s).
  - unfold read_stop in H. destruct (reader s); try done. destruct (_ || _); simplify_eq.
    by apply (excl_same s).
  - unfold read_exit in H. destruct (reader s) as [| | |[|k ks]|]; simplify_eq;
      try apply excl_deliver; by apply (excl_same s).
Qed.
End excl_steps.

(** ** Every step keeps the invariant *)

Lemma sasl_id_reserved corr id corr' :
  is_i32 corr → sasl_next_correlation_id corr = (id, corr') → M ≤ id ≤ i32_max ∧ is_i32 corr'.
Proof.
  intros Hc [= <- <-]. unfold M, MAX_RESERVED_CORRELATION_ID. split.
  - destruct (Z.ltb_spec corr (i32_max - 7)); ints.
  - unfold i32_wrapping_add.
    match goal with |- is_i32 (cast_signed 32 (?x mod _)) =>
      pose proof (cast_signed_range 32 (x mod 2 ^ 32) ltac:(lia) (Z.mod_pos_bound x (2 ^ 32) ltac:(lia)))
    end. ints.
Qed.

Lemma next_id_mod n a : 0 ≤ a → n = a mod M → next_correlation_id n = (a mod M, (a + 1) mod M).
Proof.
  intros Ha ->. unfold next_correlation_id. f_equal. pose proof (Z.mod_pos_bound a M M_pos).
  destruct (Z.leb_spec (M - 1) (a mod M)).
  - rewrite Z.add_mod by done. replace (a mod M) with (M - 1) by lia. done.
  - rewrite Z.add_mod, (Z.mod_small 1), (Z.mod_small (_ + 1)) by (done || lia). done.
Qed.

Section steps.
Context (client_id : string) (capacity : nat).

Lemma new_call_ok s kind seq id api_key version flexible body p :
  is_i32 id → id_ok s (Call kind seq id [] p None) →
  call_ok s (new_call kind seq id (build_request_header api_key version id client_id flexible) body p).
Proof.
  intros Hid Hok. unfold new_call.
  destruct (build_request_header _ _ _ _ _) as [h|e] eqn:Eh; split; simpl; try done.
  intros _. by eapply header_corr_id.
Qed.

Lemma new_call_fields kind seq id header body p :
  let c := new_call kind seq id header body p in
  c_kind c = kind ∧ c_seq c = seq ∧ c_rx c = None ∧
  (unsent p → ∀ r, c_phase c = Returned r ∨ c_phase c = Finished r → ∃ x, r = Err x).
Proof.
  destruct header; simpl; repeat split; try done.
  - intros Hu r [->| ->]; done.
  - intros _ r [?|?]; simplify_eq. by eexists.
Qed.

Lemma inv_start kind api_key version flexible body s s' :
  start client_id kind api_key version flexible body s = Some s' → inv s → inv s'.
Proof.
  unfold start. case_decide as Hk; [done|]. intros H Hi.
  rewrite (next_id_mod _ (allocated s)) in H by apply Hi. injection H as <-.
  destruct (new_call_fields kind (allocated s) (allocated s mod M)
    (build_request_header api_key version (allocated s mod M) client_id flexible) body Allocated)
    as (E1 & E2 & E3 & E4).
  pose proof (inv_count s Hi). pose proof (Z.mod_pos_bound (allocated s) M M_pos).
  assert (M ≤ i32_max) by (unfold M, MAX_RESERVED_CORRELATION_ID; lia).
  match goal with |- inv (set_calls (?cs ++ [?c]) ?x) =>
    change (inv (set_reauth (reauth_due s) (exchanging s) (set_calls (cs ++ [c]) x))) end.
  apply inv_new_call; rewrite ?E1, ?E2; try done; try lia.
  - apply new_call_ok; [ints|]. unfold id_ok. simpl. destruct kind; [| |done]; lia.
  - by apply E4.
  - intros x Hx. by apply (inv_exchange s Hi).
Qed.

Lemma inv_exchange_request api_key version flexible body s s' :
  exchange_request client_id api_key version flexible body s = Some s' → inv s → inv s'.
Proof.
  unfold exchange_request. intros H Hi. destruct (exchanging s) as [e|] eqn:Ee; [|done].
  destruct (inner_result e s) as [r|]; [|done].
  destruct (sasl_next_correlation_id (ex_corr e)) as [id corr] eqn:Ei.
  apply sasl_id_reserved in Ei as [Hid Hcorr]; [|by apply (inv_exchange s Hi)].
  destruct (new_call_fields Exchange 0 id (build_request_header api_key version id client_id flexible)
    body Guarded) as (E1 & E2 & E3 & E4).
  pose proof M_pos.
  assert (∀ c x, inv (set_reauth (reauth_due s) x
     (set_calls (calls s ++ [c]) (set_ids (next_corr_id s) (allocated s) s))) →
     inv (set_reauth (reauth_due s) x (set_calls (calls s ++ [c]) s))) as Heq by (by destruct s).
  destruct r as [[[]|]|]; try done; injection H as <-; apply Heq;
    (apply inv_new_call; rewrite ?E1, ?E2; try done; try apply Hi; try lia;
     [apply new_call_ok; [ints|done]|by apply E4|by intros x [= <-]]).
Qed.

Lemma entry_key s k t c : inv s → pending s !! k = Some t → calls s !! t = Some c → k = c_id c.
Proof. intros Hi Hp Hc. destruct (inv_entry s Hi k t Hp) as (d & Hd & [E _] & _). by simplify_eq. Qed.

Lemma no_entry s t c :
  inv s → calls s !! t = Some c → ¬ waits (c_phase c) → ∀ k, pending s !! k ≠ Some t.
Proof. intros Hi Hc Hw k Hp. destruct (inv_entry s Hi k t Hp) as (d & Hd & _ & ?). by simplify_eq. Qed.

(** A call that leaves without its entry. *)
Lemma inv_leave t c p s :
  calls s !! t = Some c → ¬ unsent p → (c_kind c = Normal → phase_own s t p) → inv s →
  inv (goto t p (unregister (c_id c) s)).
Proof.
  intros Hc Hu Ho Hi. apply inv_goto; [done| |..].
  - simpl. intros k [Hne Hk]%lookup_delete_Some. by rewrite (entry_key s k t c) in Hne.
  - simpl. intros c' Hc' Hk. simplify_eq. by apply Ho.
  - by apply inv_unregister.
Qed.

Lemma inv_take_guard t now s s' : take_guard t now s = Some s' → inv s → inv s'.
Proof.
  unfold take_guard. intros H Hi. call_at s t. destruct p, (exchanging s); try done.
  destruct (due_at now s); simplify_eq. apply inv_goto; try done.
  - intros c ? _. by simplify_eq.
  - intros k Hp. by destruct (no_entry s t _ Hi Hc ltac:(by intros []) k).
Qed.

Lemma inv_begin_exchange t now s s' : begin_exchange t now s = Some s' → inv s → inv s'.
Proof.
  unfold begin_exchange. intros H Hi. call_at s t. destruct p, (exchanging s); try done.
  destruct (_ && _); simplify_eq. apply inv_set_reauth; [by intros x [= <-]|].
  apply inv_goto; try done.
  - intros c ? _. by simplify_eq.
  - intros k Hp. by destruct (no_entry s t _ Hi Hc ltac:(by intros []) k).
Qed.

(** A step to a phase of the same call that has its entry or needs none. *)
Lemma inv_call_step t p s c :
  calls s !! t = Some c → (unsent p → unsent (c_phase c)) → (waits (c_phase c) → waits p) →
  (c_kind c = Normal → phase_own s t p) → inv s → inv (goto t p s).
Proof.
  intros Hc Hu Hw Ho Hi. apply inv_goto; try done.
  - intros c' Hc'. by simplify_eq.
  - intros k Hp. apply Hw. destruct (inv_entry s Hi k t Hp) as (d & Hd & _ & ?). by simplify_eq.
  - intros c' Hc'. by simplify_eq.
Qed.

Lemma inv_register t s s' : register t s = Some s' → inv s → inv s'.
Proof.
  unfold register. intros H Hi. call_at s t. destruct p; try done.
  assert (inv (goto t Enqueuing s)) as Hg by (by eapply inv_call_step).
  case_decide; simplify_eq; [done|].
  apply (inv_mono (goto t Enqueuing s)); try reflexivity; simpl; eauto.
  - intros k t' [[<- <-]|[_ ?]]%lookup_insert_Some; [right|by left].
    eexists. simpl. rewrite list_lookup_alter_eq, Hc. done.
  - apply (inv_exchange _ Hg).
Qed.

Lemma inv_enqueue t s s' : enqueue capacity t s = Some s' → inv s → inv s'.
Proof.
  unfold enqueue. intros H Hi. call_at s t. destruct p; try done.
  assert (writer s = WStopped ∨ writer s ≠ WStopped) as [Ew|Ew] by (destruct (writer s); auto).
  { rewrite Ew in H. simplify_eq. by eapply inv_call_step. }
  set (f := Frame t (negb (bool_decide (kind = NoResponse))) fr) in *.
  set (s1 := set_writer (queue s ++ [f]) (writing s) (writer s) s) in *.
  assert (inv s1) as Hi1.
  { apply inv_set_writer; [|done]. intros x Hx. rewrite <- (assoc_L (++)) in Hx.
    unfold in_flight. rewrite !elem_of_app, list_elem_of_singleton in *.
    destruct Hx as [?|[->|?]]; [by left; left| |by left; right; left].
    right. exists (Call kind seq id fr Enqueuing rx). split; [done|]. split; [done|].
    by apply (inv_call s Hi t _ Hc). }
  assert (s' = goto t (if decide (kind = NoResponse) then Returned (Ok None) else Awaiting) s1) as ->.
  { destruct (decide (length (queue s) < capacity)%nat);
      destruct (writer s); congruence. }
  eapply (inv_call_step t _ s1); [exact Hc|..|done]; by destruct (decide (kind = NoResponse)).
Qed.

Lemma inv_wake t s s' : wake t s = Some s' → inv s → inv s'.
Proof.
  unfold wake. intros H Hi. call_at s t. destruct p; try done.
  destruct rx as [r|]; [|destruct (has_sender t s); [done|]]; simplify_eq;
    (eapply inv_call_step; [done..| |done]); [|done].
  intros Hk. eapply (inv_own s Hi); [done|done|]. by left.
Qed.

Lemma inv_time_out t s s' : time_out t s = Some s' → inv s → inv s'.
Proof.
  unfold time_out. intros H Hi. call_at s t. destruct p, rx; try done. simplify_eq.
  apply inv_cancel, inv_unregister. by eapply inv_call_step.
Qed.

Lemma inv_release t s s' : release t s = Some s' → inv s → inv s'.
Proof.
  unfold release. intros H Hi. call_at s t. destruct p; try done.
  assert (kind = Normal → own s t r) as Ho.
  { intros ->. eapply (inv_own s Hi); [done|done|]. right. by left. }
  case_decide as Hk; simplify_eq.
  - apply inv_goto; try done; simpl; [|intros c ??; by simplify_eq].
    intros k Hp. destruct (inv_entry s Hi k t Hp) as (d & Hd & [_ ?] & _). by simplify_eq.
  - exact (inv_leave t _ (Finished r) s Hc ltac:(by intros []) Ho Hi).
Qed.

Lemma inv_drop t s s' : drop_request t s = Some s' → inv s → inv s'.
Proof.
  unfold drop_request. intros H Hi. call_at s t.
  assert (s' = if decide (kind = NoResponse) then goto t Dropped s else unregister id (goto t Dropped s))
    as -> by (by destruct p; simplify_eq).
  destruct (decide (kind = NoResponse)) as [->|Hk].
  - apply inv_goto; try done.
    intros k Hp. destruct (inv_entry s Hi k t Hp) as (d & Hd & [_ ?] & _). by simplify_eq.
  - exact (inv_leave t _ Dropped s Hc ltac:(by intros []) (λ _, I) Hi).
Qed.

(** The phase of an owner, which has no entry. *)
Lemma inv_owner t p s c :
  calls s !! t = Some c → c_phase c = Exchanging → phase_own s t p → inv s → inv (goto t p s).
Proof.
  intros Hc Hp Ho Hi. eapply inv_call_step; eauto; rewrite Hp; [done|by intros []].
Qed.

Lemma inv_drop_call t s s' : drop_call t s = Some s' → excl s → inv s → inv s'.
Proof.
  unfold drop_call. intros H Hx Hi. call_at s t.
  destruct (decide (kind = Exchange)) as [->|Hk]; [done|].
  assert (p = Allocated ∨ p = Exchanging ∨ drop_request t s = Some s') as Hcase
    by (destruct kind, p; try done; auto).
  destruct Hcase as [->|[->|Hd]]; [..|by apply (inv_drop t s s')].
  { assert (s' = goto t Dropped s) as -> by (by destruct kind; simplify_eq).
    eapply inv_call_step; eauto; done. }
  destruct (exchanging s) as [e|] eqn:Ee; [|by destruct kind].
  destruct (decide (ex_owner e = t)) as [Ht|]; [|by destruct kind].
  assert (match ex_inner e with
    | Some i => if inner_result e s then Some s else drop_request i s
    | None => Some s end ≫= (λ s1, Some (set_reauth (reauth_due s) None (goto t Dropped s1))) = Some s')
    as (s1 & Hs1 & [= <-])%bind_Some by (by destruct kind).
  assert (inv s1 ∧ excl s1 ∧ exchanging s1 = Some e) as (Hi1 & Hx1 & Ee1).
  { destruct (ex_inner e) as [i|]; [destruct (inner_result e s)|]; simplify_eq; try done.
    destruct (excl_drop i s s1 Hs1 Hx) as (? & _ & -> & _). by eauto using inv_drop. }
  apply inv_set_reauth; [done|].
  destruct (excl_owner s1 Hx1 e Ee1) as (c & Hc1 & Hp & _). rewrite Ht in Hc1.
  by apply (inv_owner t Dropped s1 c).
Qed.

Lemma inv_read s s' : read_frame s = Some s' → window s → inv s → inv s'.
Proof.
  unfold read_frame. intros H Hw Hi.
  destruct (reader s), (inbound s) as [|a rest] eqn:Ein; try done. injection H as <-.
  assert (inv (set_broker (at_broker s) rest (answered s) s)) as Hi1.
  { apply inv_set_broker; try done.
    - intros f Hf. unfold in_flight. set_solver.
    - intros b Hb. left. rewrite Ein. by right. }
  assert (a ∈ inbound s) as Ha by (rewrite Ein; left).
  destruct (inv_answer s Hi a Ha) as (c & body & Hc & Hb & Hl).
  rewrite Hb, read_response_frame; [|].
  2:{ destruct (inv_call s Hi _ _ Hc) as [Hid _]. unfold id_ok in Hid. pose proof M_pos.
      assert (M ≤ i32_max) by (unfold M, MAX_RESERVED_CORRELATION_ID; lia).
      pose proof (Z.mod_pos_bound (c_seq c) M M_pos). destruct (c_kind c); ints. }
  apply inv_deliver; [|done]. simpl. intros t d Hp Hd Hk.
  assert (a_call a = t) as <- by exact (answer_for_entry s a c t d Hi Hw Ha Hc Hp Hd Hk). done.
Qed.

Lemma inv_write_stop reason s s' : write_stop reason s = Some s' → inv s → inv s'.
Proof.
  unfold write_stop. intros H Hi.
  assert (∀ reached, inv (abandon_write reached s)) as Ha.
  { intros reached. unfold abandon_write.
    apply (inv_mono s); try reflexivity; simpl; eauto using inv_exchange.
    intros f Hf. left. unfold in_flight in *. simpl in Hf. destruct reached; set_solver. }
  destruct (writer s), reason; try done; repeat (case_match; try done); simplify_eq; try done.
  apply inv_set_writer; [|done]. intros f Hf. simpl in Hf. by apply elem_of_nil in Hf.
Qed.

Lemma conn_inv_step l s s' :
  apply client_id capacity l s = Some s' → window s → excl s → inv s → inv s'.
Proof.
  intros H Hw Hx Hi. destruct l; simpl in H;
    eauto using inv_start, inv_take_guard, inv_begin_exchange, inv_exchange_request, inv_register,
      inv_enqueue, inv_wake, inv_time_out, inv_release, inv_drop_call, inv_read, inv_write_stop.
  - unfold exchange_done in H. destruct (exchanging s) as [e|] eqn:Ee; [|done].
    destruct (inner_result e s) as [[[]|]|]; try done. simplify_eq. apply inv_set_reauth; [done|].
    destruct (excl_owner s Hx e Ee) as (c & Hc & Hp & _). by eapply inv_owner.
  - unfold exchange_failed in H. destruct (exchanging s) as [e|] eqn:Ee; [|done].
    destruct (inner_result e s); [|done]. simplify_eq. apply inv_set_reauth; [done|].
    apply inv_cancel. destruct (excl_owner s Hx e Ee) as (c & Hc & Hp & _). by eapply inv_owner.
  - simplify_eq. by apply inv_cancel.
  - unfold write_recv in H. destruct (writer s), (writing s) as [w|] eqn:Ew, (queue s) as [|f q] eqn:Eq;
      simplify_eq.
    apply inv_set_writer; [|done]. intros x Hx'. left. unfold in_flight. rewrite Eq, Ew. simpl in *.
    set_solver.
  - unfold write_done in H. destruct (writer s), (writing s) as [f|] eqn:Ew; simplify_eq.
    apply (inv_mono s); try reflexivity; simpl; eauto using inv_exchange.
    intros x Hx'. left. unfold in_flight in *. rewrite Ew. simpl in *. set_solver.
  - unfold write_exit in H. destruct (writer s); simplify_eq; [apply inv_cancel|];
      (apply inv_set_writer; [|done]); intros f Hf; left; unfold in_flight; set_solver.
  - unfold broker_answer in H. destruct (at_broker s !! i) as [f|] eqn:Ef; [|done].
    destruct (f_reply f); simplify_eq.
    assert (f ∈ in_flight s) as Hf.
    { unfold in_flight. rewrite !elem_of_app. right. right. by eapply list_elem_of_lookup_2. }
    apply inv_set_broker; [| |..|done].
    + intros x Hx'. unfold in_flight. rewrite !elem_of_app. right. right.
      by eapply elem_of_sublist, sublist_delete.
    + intros x Hx'. apply elem_of_app. by left.
    + intros a [?|Ha]%elem_of_app; [by left|right]. apply list_elem_of_singleton in Ha as ->.
      destruct (inv_frame s Hi f Hf) as (c & Hc & _ & Hid). exists c, body. simpl. rewrite Hid.
      split; [done|]. split; [done|]. apply elem_of_app. right. by left.
  - unfold read_stop in H. destruct (reader s); try done. destruct (_ || _); simplify_eq.
    by apply inv_set_reader.
  - unfold read_exit in H. destruct (reader s) as [| | |[|k ks]|]; simplify_eq;
      try apply inv_cancel; try (apply inv_deliver; [done|]); by apply inv_set_reader.
Qed.
End steps.
