(* ===== verification/ConnTheorems.v ===== *)
(** * Connection: theorems

    A caller gets the answer to its own request; a re-authentication has the
    connection to itself; the end of the I/O tasks wakes every caller that was
    registered in time, and strands one that was not; an abandoned
    re-authentication leaves an answer that the next one takes for its own. *)

From S2P Require Import Prelude Bytes Errors ConnWire Connection ConnProofs.
Import ClientError.

Section runs.
Context (client_id : string) (capacity : nat).

(** A step of the connection while no live call is out of the window of ids. *)
Definition wstep (s s' : connection) : Prop :=
  window s ∧ ∃ l, apply client_id capacity l s = Some s'.

Lemma init_inv due : inv (init due).
Proof. split; simpl; try done; intros; set_solver. Qed.

Lemma init_excl due : excl (init due).
Proof. split; simpl; done. Qed.

Lemma wstep_inv due s : rtc wstep (init due) s → inv s ∧ excl s.
Proof.
  assert (∀ s0, rtc wstep s0 s → inv s0 ∧ excl s0 → inv s ∧ excl s) as H;
    [|intros; eapply H; eauto using init_inv, init_excl].
  induction 1 as [|x y z [Hw [l Hl]] _ IH]; [done|]. intros [Hi Hx]. apply IH.
  eauto using conn_inv_step, excl_step.
Qed.

Lemma run_excl ls s s' : run client_id capacity ls s = Some s' → excl s → excl s'.
Proof.
  revert s. induction ls as [|l ls IH]; intros s; simpl; [by intros [= ->]|].
  intros (s1 & H1 & H2)%bind_Some Hx. eauto using excl_step.
Qed.

(** The counter of requests never goes back. *)
Lemma allocated_step l s s' :
  apply client_id capacity l s = Some s' → allocated s ≤ allocated s'.
Proof.
  destruct l; simpl; unfold start, take_guard, begin_exchange, exchange_request, exchange_done,
    exchange_failed, register, enqueue, wake, time_out, release, drop_call, drop_request, write_recv,
    write_done, write_stop, write_exit, broker_answer, read_frame, read_stop, read_exit, deliver,
    mbind, option_bind;
    intros H; repeat (case_match; try done); simplify_eq; simpl; lia.
Qed.

Lemma allocated_run ls s s' :
  run client_id capacity ls s = Some s' → allocated s ≤ allocated s'.
Proof.
  revert s. induction ls as [|l ls IH]; intros s; simpl; [by intros [= ->]|].
  intros (s1 & H1%allocated_step & H2%IH)%bind_Some. lia.
Qed.

(** A run of fewer requests than there are ids stays in the window. *)
Lemma run_wsteps ls s s' :
  run client_id capacity ls s = Some s' → allocated s' ≤ M → inv s → excl s →
  rtc wstep s s' ∧ inv s' ∧ excl s'.
Proof.
  revert s. induction ls as [|l ls IH]; intros s; simpl; [by intros [= ->]|].
  intros (s1 & H1 & H2)%bind_Some Ha Hi Hx.
  pose proof (allocated_step _ _ _ H1). pose proof (allocated_run _ _ _ H2).
  assert (window s) as Hw by (apply few_in_window; [done|lia]).
  destruct (IH s1) as (Hr & ?); eauto using conn_inv_step, excl_step.
  split; [|done]. eapply rtc_l; [|done]. split; eauto.
Qed.

(** ** Whose answer a caller gets *)

(** C18 Multiplexing by correlation id: in every state that callers, I/O tasks,
    broker, timeouts, dropped futures and re-authentications can reach, a
    request of [send] or [raw_request] that returned a response returned the
    one that the broker gave to its own frame, as long as no live request is
    [MIN_RESERVED_CORRELATION_ID] requests old when a later one starts. *)
Theorem response_answers_own_request due s t c t' body :
  rtc wstep (init due) s → calls s !! t = Some c → c_kind c = Normal →
  c_phase c = Returned (Ok (Some (t', body))) ∨ c_phase c = Finished (Ok (Some (t', body))) →
  t' = t ∧ (t, body) ∈ answered s.
Proof.
  intros Hr Hc Hk Hp. apply wstep_inv in Hr as [Hi _].
  apply (inv_own s Hi t c (Ok (Some (t', body))) Hc Hk). by right.
Qed.

(** ** Re-authentication *)

Lemma queue_grows l s s' f :
  apply client_id capacity l s = Some s' → queue s' = queue s ++ [f] → l = LEnqueue (f_call f).
Proof.
  intros H Hq.
  assert ((∃ t, l = LEnqueue t) ∨ (length (queue s') ≤ length (queue s))%nat) as [[t ->]|Hle].
  { destruct l; simpl in H; try (by left; eexists); right;
      unfold start, take_guard, begin_exchange, exchange_request, exchange_done,
      exchange_failed, register, wake, time_out, release, drop_call, drop_request, write_recv,
      write_done, write_stop, write_exit, broker_answer, read_frame, read_stop, read_exit, deliver,
      mbind, option_bind in H; repeat (case_match; try done); simplify_eq; simpl; lia. }
  - simpl in H. unfold enqueue in H.
    destruct (calls s !! t) as [[kind seq id fr p rx]|]; [|done]. destruct p; try done.
    assert (queue s = queue s ++ [f] ∨ f_call f = t) as [E|E].
    { destruct (writer s), (decide (length (queue s) < capacity)%nat); simplify_eq; simpl in Hq;
        try (apply app_inv_head in Hq; simplify_eq; by right); by left. }
    + apply (f_equal length) in E. rewrite length_app in E. simpl in E. lia.
    + by rewrite E.
  - rewrite Hq, length_app in Hle. simpl in Hle. lia.
Qed.

(** C19 The lock of [Reauth]: in every reachable state in which a
    re-authentication runs, a frame that any step appends to the dispatch queue
    is the frame of the exchange's own current request, so no other request
    goes out between the frames of an exchange. *)
Theorem exchange_has_the_queue due ls s e l s' f :
  run client_id capacity ls (init due) = Some s → exchanging s = Some e →
  apply client_id capacity l s = Some s' → queue s' = queue s ++ [f] →
  ex_inner e = Some (f_call f).
Proof.
  intros Hr Ee Hl Hq. apply run_excl in Hr; [|apply init_excl].
  pose proof (queue_grows l s s' f Hl Hq) as ->. simpl in Hl. unfold enqueue in Hl.
  destruct (calls s !! f_call f) as [[kind seq id fr p rx]|] eqn:Hc; [|done]. destruct p; try done.
  pose proof (excl_guard s Hr e _ _ Ee Hc) as Hg.
  assert (kind = Exchange) as -> by (by destruct kind).
  destruct (excl_inner s Hr _ _ Hc eq_refl) as (e' & ? & ?); [by intros []|]. congruence.
Qed.

(** ** The end of the I/O tasks *)

(** A registration of call [t] after the reader took the keys of [pending]. *)
Definition late (t : nat) (l : label) (s : connection) : bool :=
  match l, reader s with
  | LRegister u, (RDrain _ | RStopped) => bool_decide (u = t)
  | _, _ => false
  end.

Fixpoint in_time (t : nat) (ls : list label) (s : connection) : bool :=
  match ls with
  | [] => true
  | l :: ls =>
    negb (late t l s) && match apply client_id capacity l s with Some s' => in_time t ls s' | None => true end
  end.

(** The reader fails the entry of the call, or has done so. *)
Definition drained (t : nat) (s : connection) : Prop :=
  match reader s with
  | RDrain keys => ∀ k, pending s !! k = Some t → k ∈ keys
  | RStopped => ∀ k, pending s !! k ≠ Some t
  | _ => True
  end.

Lemma pending_shrinks t l s s' :
  apply client_id capacity l s = Some s' →
  l = LRegister t ∨ ∀ k, pending s' !! k = Some t → pending s !! k = Some t.
Proof.
  intros H. assert ((∃ u, l = LRegister u) ∨ ∀ u, l ≠ LRegister u) as [[u ->]|Hl] by (destruct l; eauto).
  - destruct (decide (u = t)) as [->|Hu]; [by left|right]. simpl in H. unfold register in H.
    repeat (case_match; try done); simplify_eq; simpl; try done.
    intros k [[_ ?]|[_ ?]]%lookup_insert_Some; done.
  - right. destruct l; try (by destruct (Hl t0)); simpl in H;
      unfold start, take_guard, begin_exchange, exchange_request, exchange_done,
        exchange_failed, enqueue, wake, time_out, release, drop_call, drop_request, write_recv,
        write_done, write_stop, write_exit, broker_answer, read_frame, read_stop, read_exit, deliver,
        mbind, option_bind in H; repeat (case_match; try done); simplify_eq; simpl; try done;
      intros k Hx; apply lookup_delete_Some in Hx as [_ Hx]; done.
Qed.

Lemma reader_moves l s s' :
  apply client_id capacity l s = Some s' →
  l = LReadExit ∨ reader s' = reader s ∨ reader s' = RLeft.
Proof.
  intros H. destruct l; simpl in H; try (by left); right;
    unfold start, take_guard, begin_exchange, exchange_request, exchange_done,
      exchange_failed, register, enqueue, wake, time_out, release, drop_call, drop_request, write_recv,
      write_done, write_stop, write_exit, broker_answer, read_frame, read_stop, deliver,
      mbind, option_bind in H; repeat (case_match; try done); simplify_eq; simpl; auto; congruence.
Qed.

Lemma drained_step t l s s' :
  apply client_id capacity l s = Some s' → late t l s = false → drained t s → drained t s'.
Proof.
  intros H Hl Hd.
  assert (l = LReadExit ∨ l ≠ LReadExit) as [->|Hne] by (destruct l; auto).
  { simpl in H. unfold read_exit in H.
    destruct (reader s) as [| | |[|k ks]|] eqn:Er; simplify_eq; unfold drained in *; rewrite ?Er in Hd;
      simpl; try done.
    - intros k Hk. apply list_elem_of_fmap. exists (k, t). split; [done|]. by apply elem_of_map_to_list.
    - intros k Hk. eapply (not_elem_of_nil (A := Z)). by apply (Hd k).
    - unfold deliver. simpl. destruct (pending s !! k) as [u|] eqn:Ek; simpl.
      + intros k' [Hkk Hk']%lookup_delete_Some. by apply Hd in Hk' as [->|?]%elem_of_cons.
      + intros k' Hk'. pose proof (Hd k' Hk') as [->|?]%elem_of_cons; [congruence|done]. }
  destruct (reader_moves l s s' H) as [?|[Er|Er]]; [done| |unfold drained; by rewrite Er].
  unfold drained in *. rewrite Er.
  destruct (pending_shrinks t l s s' H) as [->|Hp]; [|destruct (reader s); naive_solver].
  unfold late in Hl. destruct (reader s); try done; by rewrite bool_decide_eq_true_2 in Hl.
Qed.

Lemma drained_run t ls s s' :
  run client_id capacity ls s = Some s' → in_time t ls s = true → drained t s → drained t s'.
Proof.
  revert s. induction ls as [|l ls IH]; intros s; simpl; [by intros [= ->]|].
  intros (s1 & H1 & H2)%bind_Some. rewrite H1. intros [Hl%negb_true_iff Hn]%andb_true_iff Hd. eauto using drained_step.
Qed.

(** What a request that waits gets at the end: the response that the reader
    delivered before, or [Disconnected]. *)
Definition closing_result (c : call) : call_result :=
  match c_phase c with
  | Awaiting => default (Err Disconnected) (c_rx c)
  | _ => Err Disconnected
  end.

(** C33 Teardown: once both I/O tasks of a connection stopped, every request
    that waits for the queue or for its response, and that did not register after
    the reader took the keys of [pending], has a step that returns it, with the
    response that was delivered to it or with [Disconnected], whatever other
    requests did. *)
Theorem stopped_tasks_return_callers due ls s t c :
  run client_id capacity ls (init due) = Some s → in_time t ls (init due) = true →
  reader s = RStopped → writer s = WStopped → calls s !! t = Some c →
  c_phase c = Enqueuing ∨ c_phase c = Awaiting →
  ∃ l s' c', (l = LEnqueue t ∨ l = LWake t) ∧ apply client_id capacity l s = Some s' ∧
    calls s' !! t = Some c' ∧ c_phase c' = Returned (closing_result c).
Proof.
  intros Hr Hn Er Ew Hc Hp. pose proof (drained_run t _ _ _ Hr Hn I) as Hd.
  unfold drained in Hd. rewrite Er in Hd.
  destruct c as [kind seq id fr p rx]. unfold closing_result. simpl in *. destruct Hp as [->| ->].
  - exists (LEnqueue t). eexists _, _. split; [by left|]. simpl. unfold enqueue. rewrite Hc, Ew.
    split; [done|]. simpl. by rewrite list_lookup_alter_eq, Hc.
  - exists (LWake t).
    assert (wake t s = Some (goto t (Returned (default (Err Disconnected) rx)) s)) as Hw.
    { unfold wake. rewrite Hc. destruct rx; [done|]. unfold has_sender.
      destruct (existsb _ _) eqn:Ex; [|done]. apply existsb_exists in Ex as ([k u] & Hin & Hu).
      apply bool_decide_eq_true in Hu. simpl in Hu. subst u. exfalso. apply (Hd k).
      by apply elem_of_map_to_list, list_elem_of_In. }
    eexists _, _. split; [by right|]. split; [exact Hw|]. simpl. by rewrite list_lookup_alter_eq, Hc.
Qed.

(** ** A request that nobody answers *)

Record stranded (t : nat) (c : call) (s : connection) : Prop := {
  st_call : calls s !! t = Some c;
  st_kind : c_kind c = Normal;
  st_phase : c_phase c = Awaiting;
  st_rx : c_rx c = None;
  st_entry : pending s !! c_id c = Some t;
  st_reader : reader s = RStopped;
  st_writer : writer s = WStopped;
}.

Lemma id_unique s t c t' c' :
  inv s → allocated s ≤ M → calls s !! t = Some c → c_kind c = Normal →
  calls s !! t' = Some c' → c_id c' = c_id c → t' = t.
Proof.
  intros Hi Ha Hc Hk Hc' Eid.
  destruct (inv_call s Hi _ _ Hc) as [H1 _]. destruct (inv_call s Hi _ _ Hc') as [H2 _].
  unfold id_ok in H1, H2. rewrite Hk in H1. destruct H1 as [Hs Hm].
  rewrite Z.mod_small in Hm by lia.
  assert (c_kind c' ≠ Exchange) as Hk' by (intros E; rewrite E in H2; lia).
  assert (0 ≤ c_seq c' < allocated s ∧ c_id c' = c_seq c' mod M) as [Hs' Hm']
    by (by destruct (c_kind c')).
  rewrite Z.mod_small in Hm' by lia. eapply (inv_seq s Hi); eauto; [by rewrite Hk|lia].
Qed.

(** An update of another call keeps the stranded one. *)
Lemma stranded_other t c s s' t' f :
  stranded t c s → t' ≠ t → calls s' = alter f t' (calls s) →
  (pending s' = pending s ∨ ∃ k, k ≠ c_id c ∧ (pending s' = delete k (pending s) ∨
     ∃ u, pending s' = <[k := u]> (pending s))) →
  reader s' = reader s → writer s' = writer s → stranded t c s'.
Proof.
  intros [] Ht Ec Hp Er Ew. split; try congruence.
  - rewrite Ec, list_lookup_alter_ne by done. done.
  - destruct Hp as [->|(k & Hk & [->|[u ->]])]; [done|by rewrite lookup_delete_ne|by rewrite lookup_insert_ne].
Qed.

Lemma stranded_same t c s s' :
  stranded t c s → calls s' = calls s → pending s' = pending s →
  reader s' = reader s → writer s' = writer s → stranded t c s'.
Proof. intros [] ????. split; congruence. Qed.

(** The call of a step in another phase is another call, with another id. *)
Lemma stranded_ne t c s t' d :
  stranded t c s → calls s !! t' = Some d → c_phase d ≠ Awaiting ∨ c_rx d ≠ None → t' ≠ t.
Proof. intros [] Hd Hp ->. simplify_eq. naive_solver. Qed.

Lemma stranded_id t c s t' d :
  stranded t c s → inv s → allocated s ≤ M → calls s !! t' = Some d → t' ≠ t → c_id d ≠ c_id c.
Proof. intros [] Hi Ha Hd Ht E. apply Ht. by eapply (id_unique s). Qed.

Lemma stranded_drop t c s t' s' :
  drop_request t' s = Some s' → t' ≠ t → inv s → allocated s ≤ M → stranded t c s → stranded t c s'.
Proof.
  unfold drop_request. intros H Ht Hi Ha Hs. call_at s t'.
  assert (s' = if decide (kind = NoResponse) then goto t' Dropped s else unregister id (goto t' Dropped s))
    as -> by (by destruct p; simplify_eq).
  assert (id ≠ c_id c) by exact (stranded_id t c s t' _ Hs Hi Ha Hc Ht).
  case_decide; eapply stranded_other; eauto 8.
Qed.

Lemma stranded_drop_call t c s t' s' :
  drop_call t' s = Some s' → t' ≠ t → inv s → excl s → allocated s ≤ M →
  stranded t c s → stranded t c s'.
Proof.
  unfold drop_call. intros H Ht Hi Hx Ha Hs. call_at s t'.
  destruct (decide (kind = Exchange)) as [->|Hk]; [done|].
  assert (p = Allocated ∨ p = Exchanging ∨ drop_request t' s = Some s') as Hcase
    by (destruct kind, p; try done; auto).
  destruct Hcase as [->|[->|Hd]]; [..|by eapply stranded_drop].
  { assert (s' = goto t' Dropped s) as -> by (by destruct kind; simplify_eq).
    eapply stranded_other; eauto. }
  destruct (exchanging s) as [e|] eqn:Ee; [|by destruct kind].
  destruct (decide (ex_owner e = t')) as [Ho|]; [|by destruct kind].
  assert (match ex_inner e with
    | Some i => if inner_result e s then Some s else drop_request i s
    | None => Some s end ≫= (λ s1, Some (set_reauth (reauth_due s) None (goto t' Dropped s1))) = Some s')
    as (s1 & Hs1 & [= <-])%bind_Some by (by destruct kind).
  assert (stranded t c s1) as Hst.
  { destruct (ex_inner e) as [i|] eqn:Ei; [destruct (inner_result e s)|]; simplify_eq; try done.
    destruct (excl_kind s Hx e i Ee Ei) as (d & Hd & Hkd). pose proof (st_kind t c s Hs).
    eapply stranded_drop; eauto. intros ->. pose proof (st_call t c s Hs). congruence. }
  eapply stranded_other; eauto.
Qed.

(** A step that is not the timeout or the drop of the stranded request. *)
Lemma stranded_step l t c s s' :
  apply client_id capacity l s = Some s' → l ≠ LTimeout t → l ≠ LDrop t →
  inv s → excl s → allocated s ≤ M → stranded t c s → stranded t c s'.
Proof.
  intros H Hlt Hld Hi Hx Ha Hs. pose proof Hs as [Hc Hk Hp Hrx He Hr Hw].
  destruct l; simpl in H.
  - unfold start in H. case_decide; [done|]. destruct (next_correlation_id _). simplify_eq.
    split; simpl; try done. by apply lookup_app_l_Some.
  - unfold take_guard in H. call_at s t0. destruct p, (exchanging s); try done.
    assert (t0 ≠ t) as Ht by (by eapply (stranded_ne t c s t0); [..|left]).
    destruct (due_at now s); simplify_eq. eapply stranded_other; eauto.
  - unfold begin_exchange in H. call_at s t0. destruct p, (exchanging s); try done.
    assert (t0 ≠ t) as Ht by (by eapply (stranded_ne t c s t0); [..|left]).
    destruct (_ && _); simplify_eq. eapply stranded_other; eauto.
  - unfold exchange_request in H. destruct (exchanging s) as [e|]; [|done].
    destruct (inner_result e s) as [r|]; [|done]. destruct (sasl_next_correlation_id _).
    destruct r as [[[]|]|]; try done; simplify_eq;
      (split; simpl; try done; by apply lookup_app_l_Some).
  - unfold exchange_done in H. destruct (exchanging s) as [e|] eqn:Ee; [|done].
    destruct (inner_result e s) as [[[]|]|]; try done. simplify_eq.
    destruct (excl_owner s Hx e Ee) as (d & Hd & Ed & _).
    assert (ex_owner e ≠ t) by (eapply (stranded_ne t c s _ d); [done|done|left; by rewrite Ed]).
    eapply stranded_other; eauto.
  - unfold exchange_failed in H. destruct (exchanging s) as [e|] eqn:Ee; [|done].
    destruct (inner_result e s) as [r|]; [|done]. simplify_eq.
    destruct (excl_owner s Hx e Ee) as (d & Hd & Ed & _).
    assert (ex_owner e ≠ t) by (eapply (stranded_ne t c s _ d); [done|done|left; by rewrite Ed]).
    eapply stranded_other; eauto.
  - unfold register in H. call_at s t0. destruct p; try done.
    assert (t0 ≠ t) as Ht by (by eapply (stranded_ne t c s t0); [..|left]).
    assert (id ≠ c_id c) by exact (stranded_id t c s t0 _ Hs Hi Ha Hc0 Ht).
    case_decide; simplify_eq; eapply stranded_other; eauto 8.
  - unfold enqueue in H. call_at s t0. destruct p; try done.
    assert (t0 ≠ t) as Ht by (by eapply (stranded_ne t c s t0); [..|left]).
    rewrite Hw in H. simplify_eq. eapply stranded_other; eauto.
  - unfold wake in H. call_at s t0. destruct p; try done.
    destruct (decide (t0 = t)) as [->|Ht].
    { simplify_eq. simpl in Hrx. subst rx. destruct (has_sender t s) eqn:E; [done|].
      exfalso. apply not_true_iff_false in E. apply E. unfold has_sender. apply existsb_exists.
      exists (id, t). split; [|by apply bool_decide_eq_true].
      apply list_elem_of_In. by apply elem_of_map_to_list. }
    destruct rx; [|destruct (has_sender t0 s)]; simplify_eq; eapply stranded_other; eauto.
  - unfold time_out in H. call_at s t0. destruct p, rx; try done. simplify_eq.
    assert (t0 ≠ t) as Ht by congruence.
    assert (id ≠ c_id c) by exact (stranded_id t c s t0 _ Hs Hi Ha Hc0 Ht).
    eapply stranded_other; eauto 8.
  - unfold release in H. call_at s t0. destruct p; try done.
    assert (t0 ≠ t) as Ht by (by eapply (stranded_ne t c s t0); [..|left]).
    assert (id ≠ c_id c) by exact (stranded_id t c s t0 _ Hs Hi Ha Hc0 Ht).
    case_decide; simplify_eq; eapply stranded_other; eauto 8.
  - eapply stranded_drop_call; eauto.
  - simplify_eq. by eapply stranded_same.
  - unfold write_recv in H. by rewrite Hw in H.
  - unfold write_done in H. by rewrite Hw in H.
  - unfold write_stop in H. by rewrite Hw in H.
  - unfold write_exit in H. by rewrite Hw in H.
  - unfold broker_answer in H. destruct (at_broker s !! i) as [f|]; [|done].
    destruct (f_reply f); simplify_eq. by eapply stranded_same.
  - unfold read_frame in H. by rewrite Hr in H.
  - unfold read_stop in H. by rewrite Hr in H.
  - unfold read_exit in H. by rewrite Hr in H.
Qed.

Lemma stranded_run ls t c s s' :
  run client_id capacity ls s = Some s' → allocated s' ≤ M → LTimeout t ∉ ls → LDrop t ∉ ls →
  inv s → excl s → stranded t c s → stranded t c s'.
Proof.
  revert s. induction ls as [|l ls IH]; intros s; simpl; [by intros [= ->]|].
  intros (s1 & H1 & H2)%bind_Some Ha Ht Hd Hi Hx Hs.
  apply not_elem_of_cons in Ht as [Ht1 Ht2]. apply not_elem_of_cons in Hd as [Hd1 Hd2].
  pose proof (allocated_step _ _ _ H1). pose proof (allocated_run _ _ _ H2).
  assert (window s) by (apply few_in_window; [done|lia]).
  eapply (IH s1); eauto using conn_inv_step, excl_step.
  eapply stranded_step; eauto; lia.
Qed.
End runs.

(** ** Runs on small connections *)

Module DemoConnection.
Definition steps := run "c" 4.

Definition send (t : nat) : list label :=
  [LStart Normal 3 9 true []; LGuard t 0; LRegister t; LEnqueue t; LWriteRecv; LWriteDone].

(** Two requests, answered in the other order. *)
Definition two_answers : list label :=
  send 0 ++ send 1 ++ [LAnswer 1 [Byte.x07]; LAnswer 0 [Byte.x08]; LRead; LRead;
    LWake 0; LRelease 0; LWake 1; LRelease 1].

(** The peer closes the stream under a request that waits; another registers
    after the reader failed the pending ones. *)
Definition one_late : list label :=
  send 0 ++ [LReadStop true; LReadExit; LReadExit; LReadExit; LReadExit; LStart Normal 3 9 true []; LGuard 1 0;
    LRegister 1; LEnqueue 1; LWriteStop (StopShutdown false); LWriteExit; LWriteExit].

(** A request that registers after the reader failed the pending ones, and
    queues its frame before the writer stops. *)
Definition late_request : list label :=
  [LReadStop true; LReadExit; LReadExit; LReadExit; LStart Normal 3 9 true []; LGuard 0 0; LRegister 0;
   LEnqueue 0; LWriteStop (StopShutdown false); LWriteExit; LWriteExit].

(** A caller that starts a due re-authentication and is dropped while its first
    request is on its way; the next caller starts the exchange again. *)
Definition exchange_request_of (owner t : nat) : list label :=
  [LStart Normal 3 9 true []; LBeginExchange owner 10; LExchangeRequest 17 1 false []; LRegister t;
   LEnqueue t; LWriteRecv; LWriteDone].

Definition abandoned_exchange : list label :=
  exchange_request_of 0 1 ++ [LDrop 0] ++ exchange_request_of 2 3 ++
  [LAnswer 0 [Byte.x07]; LRead; LWake 3; LRelease 3].
End DemoConnection.
Import DemoConnection.

Definition after (ls : list label) (due : option Z) : connection :=
  default (init due) (steps ls (init due)).

Lemma response_answers_own_request_witness :
  (0%nat, [Byte.x08]) ∈ answered (after two_answers None).
Proof.
  destruct (run_wsteps "c" 4 two_answers (init None) (after two_answers None)) as [Hr _];
    [by vm_compute|by vm_compute|apply init_inv|apply init_excl|].
  eapply (response_answers_own_request "c" 4 None _ 0 _ 0 [Byte.x08] Hr);
    [by vm_compute|by vm_compute|by right; vm_compute].
Defined.

Lemma exchange_has_the_queue_witness :
  f_call <$> queue (after (take 5 abandoned_exchange) (Some 5)) = [1%nat] ∧
  (exchanging (after (take 4 abandoned_exchange) (Some 5)) ≫= ex_inner) = Some 1%nat.
Proof.
  split; [by vm_compute|].
  eapply (exchange_has_the_queue "c" 4 (Some 5) (take 4 abandoned_exchange)
    (after (take 4 abandoned_exchange) (Some 5)) (ExchangeState 0 (MIN_RESERVED_CORRELATION_ID + 1) (Some 1%nat))
    (LEnqueue 1) (after (take 5 abandoned_exchange) (Some 5))
    (Frame 1 true (default [] (c_frame <$> calls (after (take 4 abandoned_exchange) (Some 5)) !! 1%nat))));
    by vm_compute.
Defined.

Lemma stopped_tasks_return_callers_witness :
  in_time "c" 4 1 one_late (init None) = false ∧
  ∃ l s' c', (l = LEnqueue 0 ∨ l = LWake 0) ∧ apply "c" 4 l (after one_late None) = Some s' ∧
    calls s' !! 0%nat = Some c' ∧ c_phase c' = Returned (Err Disconnected).
Proof.
  split; [vm_compute; reflexivity|].
  apply (stopped_tasks_return_callers "c" 4 None one_late (after one_late None) 0
    (Call Normal 0 0 (default [] (c_frame <$> calls (after one_late None) !! 0%nat)) Awaiting
       (Some (Err Disconnected))));
    [by vm_compute|by vm_compute|by vm_compute|by vm_compute|by vm_compute|by right].
Defined.

(** A request that registers after the reader failed the pending ones and
    queues its frame before the writer drops its receiver waits on a closed
    connection: until its own timeout or until its caller drops it, no step of
    any task or caller ends the wait, although [is_closed] says that a closed
    connection fails every request with [Disconnected]. *)
Theorem late_request_waits_for_timeout :
  shutdown (after late_request None) = true ∧
  steps late_request (init None) = Some (after late_request None) ∧
  ∀ ls s, steps ls (after late_request None) = Some s → allocated s ≤ MIN_RESERVED_CORRELATION_ID →
    LTimeout 0 ∉ ls → LDrop 0 ∉ ls →
    ∃ c, calls s !! 0%nat = Some c ∧ c_phase c = Awaiting.
Proof.
  split; [by vm_compute|]. split; [by vm_compute|]. intros ls s Hr Ha Ht Hd.
  destruct (run_wsteps "c" 4 late_request (init None) (after late_request None)) as (_ & Hi & Hx);
    [by vm_compute|by vm_compute|apply init_inv|apply init_excl|].
  destruct (calls (after late_request None) !! 0%nat) as [c|] eqn:Hc; [|by vm_compute in Hc].
  assert (stranded 0 c (after late_request None)) as Hs
    by (vm_compute in Hc; simplify_eq; split; by vm_compute).
  apply (stranded_run "c" 4 ls 0 c _ s) in Hs; [|done..]. exists c. by destruct Hs.
Qed.

(** A re-authentication that is dropped while a request of it is on its way,
    with the caller that ran it, leaves an answer under a reserved id.  The
    next re-authentication counts its ids from the same start, so its request
    takes the answer to the dropped one: it returns a response that the broker
    gave to another frame. *)
Theorem abandoned_exchange_answer_taken :
  ∃ s c, steps abandoned_exchange (init (Some 5)) = Some s ∧ calls s !! 3%nat = Some c ∧
    c_kind c = Exchange ∧ c_phase c = Finished (Ok (Some (1%nat, [Byte.x07]))) ∧
    (3%nat, [Byte.x07]) ∉ answered s.
Proof.
  destruct (calls (after abandoned_exchange (Some 5)) !! 3%nat) as [c|] eqn:Hc; [|by vm_compute in Hc].
  exists (after abandoned_exchange (Some 5)), c. split; [by vm_compute|]. split; [done|].
  vm_compute in Hc. simplify_eq. split; [done|]. split; [done|].
  assert (answered (after abandoned_exchange (Some 5)) = [(1%nat, [Byte.x07])]) as -> by (by vm_compute).
  by rewrite list_elem_of_singleton.
Qed.

(** ** Version negotiation *)

Section versions.
Context (decode : bytes → Z → result client_error (api_versions_response * bytes)).
Context (request : protocol_request) (client_id : string).
Context (encode : Z → result client_error bytes).
Context (exchange : Z → bytes → result client_error bytes).

(** C35 Version negotiation: whatever the broker answers to the [ApiVersions]
    requests, the exchange ends within one request per version of the client; a
    table that it gives has only ranges of a response without an error; and a
    request of an API that this response lists is then sent at the highest
    version that the client's stable range and the listed range share, or not at
    all when they share none. *)
Theorem version_negotiation rounds r :
  MAX_VERSION request < Z.of_nat rounds → (0 < rounds)%nat →
  ∃ outcome, fetch_api_versions decode request client_id encode exchange rounds = Some outcome ∧
    ∀ table, outcome = Ok table →
      ∃ id version response,
        api_versions_attempt decode request client_id encode exchange id version = Ok response ∧
        av_error_code response = 0 ∧
        (∀ key range, broker_range table key = Some range → (key, range) ∈ av_api_keys response) ∧
        (API_KEY r ∈ (av_api_keys response).*1 →
         match negotiate table r with
         | Ok v => common_version table r v ∧ ∀ v', common_version table r v' → v' ≤ v
         | Err _ => ∀ v, ¬ common_version table r v
         end).
Proof.
  intros Hv Hr.
  destruct (fetch_loop_ends decode request client_id encode exchange rounds 0 (MAX_VERSION request) Hv Hr)
    as [outcome Ho].
  exists outcome. split; [done|]. intros table ->.
  destruct (fetch_loop_table _ _ _ _ _ _ _ _ _ Ho) as (id & version & response & Ha & H0 & ->).
  exists id, version, response. split_and!; [done|done|apply broker_range_listed|].
  intros Hl. by apply negotiate_spec, listed_broker_range.
Qed.
End versions.

(** A broker that knows [ApiVersions] up to version 2: it answers a later
    version with [UNSUPPORTED_VERSION], in the form of version 0. *)
Module DemoVersions.
Definition api_versions : protocol_request := ProtocolRequest 18 0 4 4 3.
Definition metadata : protocol_request := ProtocolRequest 3 0 13 13 9.

Definition broker (_ : Z) (frame : bytes) : result client_error bytes :=
  if get_be_signed (take 2 (drop 2 frame)) <=? 2 then Ok [Byte.x01] else Ok [Byte.x02].

Definition decode (body : bytes) (version : Z) : result client_error (api_versions_response * bytes) :=
  match body with
  | [Byte.x01] => Ok (ApiVersionsResponse 0 [(18, (0, 2)); (3, (1, 8))] [] 0 [], [])
  | [Byte.x02] =>
    if version =? 0 then Ok (ApiVersionsResponse 35 [(18, (0, 2))] [] 0 [], [])
    else Err (Codec "short")
  | _ => Err (Codec "short")
  end.

Definition outcome : option (result client_error api_version_table) :=
  fetch_api_versions decode api_versions "c" (λ _, Ok []) broker 5.
End DemoVersions.

Lemma version_negotiation_witness :
  ∃ table, DemoVersions.outcome = Some (Ok table) ∧ negotiate table DemoVersions.metadata = Ok 8 ∧
    common_version table DemoVersions.metadata 8.
Proof.
  destruct (version_negotiation DemoVersions.decode DemoVersions.api_versions "c" (λ _, Ok [])
    DemoVersions.broker 5 DemoVersions.metadata) as (outcome & Ho & Hn); [by vm_compute|lia|].
  vm_compute in Ho. injection Ho as <-. eexists. split; [by vm_compute|]. split; [by vm_compute|].
  destruct (Hn _ eq_refl) as (id & version & response & _ & _ & Hl & Hneg).
  assert (API_KEY DemoVersions.metadata ∈ (av_api_keys response).*1) as Hin.
  { apply list_elem_of_fmap. exists (3, (1, 8)). split; [reflexivity|]. apply Hl. vm_compute. reflexivity. }
  by destruct (Hneg Hin).
Defined.
