(* ===== verification/Pool.v ===== *)
(** * Broker pool

    [client-core/src/pool.rs]: one connection per broker id, with the
    reconnect backoff, the setup timeout and the address rotation of each node,
    the bootstrap connection, the registry of brokers and the choice of the
    least loaded broker.

    A task keeps an [Arc] of a node while another task takes the node out of
    the map, so nodes live in a heap and the map holds references to them.
    [BrokerConnector] is an interface of the source: its connections, with what
    [is_open], [in_flight] and [finalized_features] say of them, are part of
    the state that other tasks change, and [dial] and [resolve] are requests.
    The backoffs of [backoff.rs] are floating point; they are parameters of the
    pool, given the number of failures and the index of the random draw. *)

From S2P Require Import Prelude Bytes Errors ConnWire Async.
Import ClientError.

Notation SocketAddr := string (only parsing).

(** ** Nodes *)

Record NodeState := mkNode {
  ns_connection : option nat;
  ns_addresses : list (SocketAddr * string);
  ns_address_index : nat;
  ns_last_attempted : option SocketAddr;
  ns_last_attempt_at : option Z;
  ns_failed_attempts : Z;
  ns_failed_connect_attempts : Z;
  ns_retry_at : option Z;
}.

Definition default_node : NodeState := mkNode None [] 0 None None 0 0 None.

(** [BrokerConnector::is_open], [in_flight] and [finalized_features] of a
    connection, as they are now. *)
Record conn_view := ConnView {
  cv_open : bool;
  cv_in_flight : nat;
  cv_features : finalized_features;
}.

Record BrokerInfo := mkBroker {
  br_id : Z;
  br_host : string;
  br_port : Z;
}.

Record PoolState := mkPool {
  pl_nodes : gmap Z nat;
  pl_heap : list NodeState;
  pl_by_endpoint : gmap Z (string * Z);
  pl_bootstrap : list (SocketAddr * string);
  pl_prefer_bootstrap : bool;
  pl_features : finalized_features;
  pl_conns : list conn_view;
  pl_now : Z;
  pl_draws : nat;
  pl_dials : list (nat * SocketAddr * Z);
}.

Definition set_nodes (v : gmap Z nat) (p : PoolState) : PoolState :=
  mkPool v (pl_heap p) (pl_by_endpoint p) (pl_bootstrap p) (pl_prefer_bootstrap p) (pl_features p)
    (pl_conns p) (pl_now p) (pl_draws p) (pl_dials p).
Definition set_heap (v : list NodeState) (p : PoolState) : PoolState :=
  mkPool (pl_nodes p) v (pl_by_endpoint p) (pl_bootstrap p) (pl_prefer_bootstrap p) (pl_features p)
    (pl_conns p) (pl_now p) (pl_draws p) (pl_dials p).
Definition set_endpoints (v : gmap Z (string * Z)) (p : PoolState) : PoolState :=
  mkPool (pl_nodes p) (pl_heap p) v (pl_bootstrap p) (pl_prefer_bootstrap p) (pl_features p)
    (pl_conns p) (pl_now p) (pl_draws p) (pl_dials p).
Definition set_bootstrap (v : list (SocketAddr * string)) (p : PoolState) : PoolState :=
  mkPool (pl_nodes p) (pl_heap p) (pl_by_endpoint p) v (pl_prefer_bootstrap p) (pl_features p)
    (pl_conns p) (pl_now p) (pl_draws p) (pl_dials p).
Definition set_prefer (v : bool) (p : PoolState) : PoolState :=
  mkPool (pl_nodes p) (pl_heap p) (pl_by_endpoint p) (pl_bootstrap p) v (pl_features p)
    (pl_conns p) (pl_now p) (pl_draws p) (pl_dials p).
Definition set_features (v : finalized_features) (p : PoolState) : PoolState :=
  mkPool (pl_nodes p) (pl_heap p) (pl_by_endpoint p) (pl_bootstrap p) (pl_prefer_bootstrap p) v
    (pl_conns p) (pl_now p) (pl_draws p) (pl_dials p).
Definition log_dial (d : nat * SocketAddr * Z) (p : PoolState) : PoolState :=
  mkPool (pl_nodes p) (pl_heap p) (pl_by_endpoint p) (pl_bootstrap p) (pl_prefer_bootstrap p)
    (pl_features p) (pl_conns p) (pl_now p) (pl_draws p) (pl_dials p ++ [d]).
Definition draw (p : PoolState) : PoolState :=
  mkPool (pl_nodes p) (pl_heap p) (pl_by_endpoint p) (pl_bootstrap p) (pl_prefer_bootstrap p)
    (pl_features p) (pl_conns p) (pl_now p) (S (pl_draws p)) (pl_dials p).

Definition at_node (n : nat) (f : NodeState → NodeState) (p : PoolState) : PoolState :=
  set_heap (alter f n (pl_heap p)) p.
Definition node_state (p : PoolState) (n : nat) : NodeState := default default_node (pl_heap p !! n).

Definition is_open (p : PoolState) (c : nat) : bool := default false (cv_open <$> pl_conns p !! c).
Definition in_flight (p : PoolState) (c : nat) : nat := default 0%nat (cv_in_flight <$> pl_conns p !! c).
Definition conn_features (p : PoolState) (c : nat) : finalized_features :=
  default default_finalized_features (cv_features <$> pl_conns p !! c).

(** [state.connection.as_ref().filter(|c| C::is_open(c))]. *)
Definition open_conn (p : PoolState) (n : nat) : option nat :=
  match ns_connection (node_state p n) with
  | Some c => if is_open p c then Some c else None
  | None => None
  end.

(** [ConnectPolicy]: the backoff after so many failures, at a random draw. *)
Record ConnectPolicy := mkPolicy {
  reconnect : Z → nat → Z;
  setup_timeout : Z → nat → Z;
}.

Section pool.
Context (policy : ConnectPolicy).

(** ** [NodeState] *)

Definition ready (c : nat) (s : NodeState) : NodeState :=
  mkNode (Some c) (ns_addresses s) (ns_address_index s) (ns_last_attempted s) (ns_last_attempt_at s)
    0 0 None.

Definition back_off (now : Z) (k : nat) (s : NodeState) : NodeState :=
  mkNode (ns_connection s) (ns_addresses s) (ns_address_index s) (ns_last_attempted s)
    (ns_last_attempt_at s) (u32_saturating_add (ns_failed_attempts s) 1) (ns_failed_connect_attempts s)
    (Some (now + reconnect policy (ns_failed_attempts s) k)).

Definition forget_addresses (s : NodeState) : NodeState :=
  mkNode (ns_connection s) [] (ns_address_index s) (ns_last_attempted s) (ns_last_attempt_at s)
    (ns_failed_attempts s) (ns_failed_connect_attempts s) (ns_retry_at s).

Definition forget_connection (s : NodeState) : NodeState :=
  mkNode None (ns_addresses s) (ns_address_index s) (ns_last_attempted s) (ns_last_attempt_at s)
    (ns_failed_attempts s) (ns_failed_connect_attempts s) (ns_retry_at s).

Definition disconnected (now : Z) (k : nat) (s : NodeState) : NodeState :=
  back_off now k (forget_addresses (forget_connection s)).

Definition count_connect_failure (s : NodeState) : NodeState :=
  mkNode (ns_connection s) (ns_addresses s) (ns_address_index s) (ns_last_attempted s)
    (ns_last_attempt_at s) (ns_failed_attempts s)
    (u32_saturating_add (ns_failed_connect_attempts s) 1) (ns_retry_at s).

Definition set_index (i : nat) (s : NodeState) : NodeState :=
  mkNode (ns_connection s) (ns_addresses s) i (ns_last_attempted s) (ns_last_attempt_at s)
    (ns_failed_attempts s) (ns_failed_connect_attempts s) (ns_retry_at s).

Definition connect_failed (now : Z) (k : nat) (s : NodeState) : NodeState :=
  let s := set_index (S (ns_address_index s)) (count_connect_failure s) in
  let s := if decide (length (ns_addresses s) ≤ ns_address_index s)%nat then forget_addresses s else s in
  back_off now k s.

Definition put_addresses (l : list (SocketAddr * string)) (s : NodeState) : NodeState :=
  mkNode (ns_connection s) l (ns_address_index s) (ns_last_attempted s) (ns_last_attempt_at s)
    (ns_failed_attempts s) (ns_failed_connect_attempts s) (ns_retry_at s).

Definition set_addresses (l : list (SocketAddr * string)) (s : NodeState) : NodeState :=
  put_addresses l (set_index
    (if bool_decide (1 < length l)%nat && bool_decide (fst <$> head l = ns_last_attempted s)
     then 1 else 0)%nat s).

Definition attempted (addr : SocketAddr) (now : Z) (s : NodeState) : NodeState :=
  mkNode (ns_connection s) (ns_addresses s) (ns_address_index s) (Some addr) (Some now)
    (ns_failed_attempts s) (ns_failed_connect_attempts s) (ns_retry_at s).

(** A step of a node that draws a random backoff. *)
Definition with_draw (n : nat) (f : Z → nat → NodeState → NodeState) (p : PoolState) : PoolState :=
  draw (at_node n (f (pl_now p) (pl_draws p)) p).

(** ** The tasks *)

Inductive PoolIo : Type :=
| LockGate (n : nat)
| SleepUntil (n : nat) (at_ : Z)
| Resolve (n : nat) (host : string) (port : Z)
| Dial (n : nat) (addr server_name : string) (timeout : Z).

Definition pool_answer (r : PoolIo) : Type :=
  match r with
  | LockGate _ | SleepUntil _ _ => unit
  | Resolve _ _ _ => result client_error (list SocketAddr)
  | Dial _ _ _ _ => result client_error nat
  end.

#[local] Instance pool_world : World := {|
  State := PoolState;
  Common := PoolState;
  common := id;
  resume := λ _ p, p;
  Request := PoolIo;
  Answer := pool_answer;
|}.

Definition pool A : Type := async (W := pool_world) A.

(** [self.node(id)]: a new node for an id that has none. *)
Definition node (broker_id : Z) : pool nat := λ p,
  match pl_nodes p !! broker_id with
  | Some n => Ret n p
  | None =>
    let n := length (pl_heap p) in
    Ret n (set_nodes (<[broker_id := n]> (pl_nodes p)) (set_heap (pl_heap p ++ [default_node]) p))
  end.

(** [open_connection] of a node: a closed connection counts as a disconnect. *)
Definition cached (n : nat) : pool (option nat) := λ p,
  match ns_connection (node_state p n) with
  | Some c => if is_open p c then Ret (Some c) p else Ret None (with_draw n disconnected p)
  | None => Ret None p
  end.

Definition wait_for_backoff (n : nat) : pool unit :=
  s ← reads (λ p, node_state p n);
  match ns_retry_at s with
  | Some at_ => wait (W := pool_world) (SleepUntil n at_)
  | None => mret ()
  end.

Definition next_attempt (n : nat) : pool (option (SocketAddr * string * Z)) := λ p,
  let s := node_state p n in
  match ns_addresses s !! ns_address_index s with
  | Some (addr, name) =>
    let timeout := setup_timeout policy (ns_failed_connect_attempts s) (pl_draws p) in
    Ret (Some (addr, name, timeout))
      (draw (log_dial (n, addr, pl_now p) (at_node n (attempted addr (pl_now p)) p)))
  | None => Ret None p
  end.

Definition dial (n : nat) (a : SocketAddr * string * Z) : pool (result client_error nat) :=
  let '(addr, name, timeout) := a in
  r ← (wait (W := pool_world) (Dial n addr name timeout) : pool (result client_error nat));
  match r with
  | Ok c =>
    writes (at_node n (ready c));;
    writes (λ p, let features := conn_features p c in
                 if ff_epoch (pl_features p) <? ff_epoch features then set_features features p else p);;
    mret (Ok c)
  | Err e => mret (Err e)
  end.

(** [BrokerPool::get]. *)
Definition connect_to (n : nat) (host : string) (port : Z) : pool (result client_error nat) :=
  wait_for_backoff n;;
  s ← reads (λ p, node_state p n);
  resolved ← match ns_addresses s with
             | [] =>
               r ← (wait (W := pool_world) (Resolve n host port) : pool (result client_error (list SocketAddr)));
               match r with
               | Ok l => writes (at_node n (set_addresses ((λ addr, (addr, host)) <$> l)));; mret (Ok ())
               | Err e => writes (with_draw n connect_failed);; mret (Err e)
               end
             | _ => mret (Ok ())
             end;
  match resolved with
  | Err e => mret (Err e)
  | Ok _ =>
    attempt ← next_attempt n;
    match attempt with
    | None => writes (with_draw n connect_failed);; mret (Err Disconnected)
    | Some a =>
      r ← dial n a;
      match r with
      | Ok c => mret (Ok c)
      | Err e => writes (with_draw n connect_failed);; mret (Err e)
      end
    end
  end.

(** The cached connection of a node, or a connection attempt behind its gate. *)
Definition cached_or (n : nat) (connect : pool (result client_error nat)) :
    pool (result client_error nat) :=
  c ← cached n;
  match c with
  | Some c => mret (Ok c)
  | None =>
    _ ← (wait (W := pool_world) (LockGate n) : pool unit);
    c ← cached n;
    match c with
    | Some c => mret (Ok c)
    | None => connect
    end
  end.

Definition get (broker_id : Z) : pool (result client_error nat) :=
  endpoint ← reads (λ p, pl_by_endpoint p !! broker_id);
  match endpoint with
  | None => mret (Err Disconnected)
  | Some (host, port) => n ← node broker_id; cached_or n (connect_to n host port)
  end.

Definition BOOTSTRAP_ID : Z := -1.

(** The loop of [bootstrap_connection] over the addresses. *)
Fixpoint bootstrap_loop (n rounds todo : nat) (last_error : client_error) :
    pool (result client_error nat + client_error) :=
  match todo with
  | O => mret (inr last_error)
  | S todo =>
    attempt ← next_attempt n;
    match attempt with
    | None => mret (inr last_error)
    | Some a =>
      r ← dial n a;
      match r with
      | Ok c => mret (inl (Ok c))
      | Err e =>
        if is_authentication_failure e
        then writes (with_draw n connect_failed);; mret (inl (Err e))
        else
          writes (at_node n (λ s, set_index (S (ns_address_index s) mod rounds) s));;
          bootstrap_loop n rounds todo e
      end
    end
  end.

Definition connect_bootstrap (n : nat) : pool (result client_error nat) :=
  wait_for_backoff n;;
  bootstrap ← reads (λ p, pl_bootstrap p);
  writes (at_node n (λ s, put_addresses bootstrap
    (set_index (ns_address_index s mod Nat.max (length bootstrap) 1) s)));;
  r ← bootstrap_loop n (length bootstrap) (length bootstrap) Disconnected;
  match r with
  | inl r => mret r
  | inr last_error =>
    writes (with_draw n (λ now k s, back_off now k (count_connect_failure s)));;
    mret (Err last_error)
  end.

Definition bootstrap_connection : pool (result client_error nat) :=
  n ← node BOOTSTRAP_ID; cached_or n (connect_bootstrap n).

(** ** Eviction and replacement *)

Definition evict (broker_id : Z) (p : PoolState) : PoolState :=
  match pl_nodes p !! broker_id with
  | Some n =>
    match ns_connection (node_state p n) with
    | Some _ => with_draw n disconnected p
    | None => p
    end
  | None => p
  end.

Definition evict_bootstrap : PoolState → PoolState := evict BOOTSTRAP_ID.

Definition prefer_bootstrap : PoolState → PoolState := set_prefer true.

Definition replace_bootstrap_with_server_names (l : list (SocketAddr * string)) (p : PoolState) :
    PoolState :=
  let p := set_bootstrap l (prefer_bootstrap p) in
  match pl_nodes p !! BOOTSTRAP_ID with
  | Some n => at_node n (λ s, set_index 0 (forget_addresses (forget_connection s))) p
  | None => p
  end.

Definition rebootstrap_with_server_names (l : list (SocketAddr * string)) (p : PoolState) : PoolState :=
  set_bootstrap l (set_endpoints ∅ (set_nodes ∅ p)).

(** ** The registry *)

(** [u16::try_from(port)], and not 0. *)
Definition dialable (port : Z) : bool := (0 <? port) && (port <=? 65535).

Definition learn_broker (p : PoolState) (b : BrokerInfo) : PoolState :=
  if dialable (br_port b) then
    let endpoint := (br_host b, br_port b) in
    let previous := pl_by_endpoint p !! br_id b in
    let p := set_endpoints (<[br_id b := endpoint]> (pl_by_endpoint p)) p in
    match previous with
    | Some old => if bool_decide (old = endpoint) then p else set_nodes (delete (br_id b) (pl_nodes p)) p
    | None => p
    end
  else p.

Definition retain_named (named : list Z) (p : PoolState) : PoolState :=
  set_nodes (filter (λ e : Z * nat, e.1 = BOOTSTRAP_ID ∨ e.1 ∈ named) (pl_nodes p))
    (set_endpoints (filter (λ e : Z * (string * Z), e.1 ∈ named) (pl_by_endpoint p)) (set_prefer false p)).

Definition refresh_brokers (brokers : list BrokerInfo) (p : PoolState) : PoolState :=
  let p := match brokers with [] => p | _ => retain_named (br_id <$> brokers) p end in
  foldl learn_broker p brokers.

Definition knows_broker (p : PoolState) (broker_id : Z) : bool :=
  bool_decide (is_Some (pl_by_endpoint p !! broker_id)).

Definition broker_ids (p : PoolState) : list Z := sort_by Z.le (map_to_list (pl_by_endpoint p)).*1.

(** ** The least loaded broker *)

(** What the scan reads of a node. *)
Inductive node_view :=
| Usable (c : nat) (in_flight : nat)
| Candidate (backoff_end last_attempt : option Z).

Definition view (p : PoolState) (id : Z) : node_view :=
  let s := match pl_nodes p !! id with Some n => node_state p n | None => default_node end in
  match (match ns_connection s with Some c => if is_open p c then Some c else None | None => None end) with
  | Some c => Usable c (in_flight p c)
  | None =>
    Candidate (match ns_retry_at s with Some t => if pl_now p <? t then Some t else None | None => None end)
      (ns_last_attempt_at s)
  end.

(** The order of [Option<Instant>]: [None] first. *)
Definition opt_ltb (a b : option Z) : bool :=
  match a, b with
  | None, Some _ => true
  | Some x, Some y => x <? y
  | _, None => false
  end.
Definition opt_eqb (a b : option Z) : bool := bool_decide (a = b).

(** [(backoff_end.is_some(), backoff_end, last_attempt_at)] in order. *)
Definition key_ltb (a b : option Z * option Z) : bool :=
  opt_ltb a.1 b.1 || (opt_eqb a.1 b.1 && opt_ltb a.2 b.2).

Record scan := Scan {
  sc_fewest : option (nat * nat);
  sc_candidate : option ((option Z * option Z) * Z);
}.

Fixpoint scan_nodes (v : Z → node_view) (ids : list Z) (acc : scan) : nat + scan :=
  match ids with
  | [] => inr acc
  | id :: ids =>
    match v id with
    | Usable c 0 => inl c
    | Usable c k =>
      let fewest := match sc_fewest acc with
                    | Some (least, c') => if (k <? least)%nat then Some (k, c) else Some (least, c')
                    | None => Some (k, c)
                    end in
      scan_nodes v ids (Scan fewest (sc_candidate acc))
    | Candidate backoff_end last =>
      let candidate := match sc_candidate acc with
                       | Some (best, best_id) =>
                         if key_ltb (backoff_end, last) best then Some ((backoff_end, last), id)
                         else Some (best, best_id)
                       | None => Some ((backoff_end, last), id)
                       end in
      scan_nodes v ids (Scan (sc_fewest acc) candidate)
    end
  end.

Inductive choice := UseConn (c : nat) | UseBroker (id : Z) | UseBootstrap.

Definition choose (v : Z → node_view) (ids : list Z) : choice :=
  match scan_nodes v ids (Scan None None) with
  | inl c => UseConn c
  | inr acc =>
    match sc_fewest acc, sc_candidate acc with
    | Some (_, c), _ => UseConn c
    | None, Some ((None, _), id) => UseBroker id
    | None, _ => UseBootstrap
    end
  end.

(** [ids.iter().cycle().skip(offset).take(ids.len())]. *)
Definition rotate_ids (offset : nat) (ids : list Z) : list Z := drop offset ids ++ take offset ids.

(** The ids that the scan comes to: it ends at an idle connection. *)
Fixpoint visited (v : Z → node_view) (ids : list Z) : list Z :=
  match ids with
  | [] => []
  | id :: ids => id :: match v id with Usable _ 0 => [] | _ => visited v ids end
  end.

(** [least_loaded], with the random offset as an argument.  The scan makes a
    node for an id that has none. *)
Definition touch_nodes (ids : list Z) : pool unit :=
  foldr (λ id m, node id;; m) (mret ()) ids.

Definition least_loaded (offset : nat) : pool (result client_error nat) :=
  ids ← reads broker_ids;
  prefer ← reads pl_prefer_bootstrap;
  if bool_decide (ids = []) || prefer then bootstrap_connection
  else
    v ← reads view;
    let ids := rotate_ids (offset mod length ids) ids in
    touch_nodes (visited v ids);;
    match choose v ids with
    | UseConn c => mret (Ok c)
    | UseBroker id => get id
    | UseBootstrap => bootstrap_connection
    end.

(** [min_by_key(|(id, connection)| (C::in_flight(connection), *id))]. *)
Definition by_requests (p : PoolState) (a b : Z * nat) : Prop :=
  (in_flight p a.2 < in_flight p b.2)%nat ∨ (in_flight p a.2 = in_flight p b.2 ∧ a.1 ≤ b.1).

#[local] Instance by_requests_dec p : RelDecision (by_requests p).
Proof. intros a b. unfold by_requests. apply _. Defined.

(** [open_connection] of the pool. *)
Definition open_connection (preferred : option Z) (p : PoolState) : option (Z * nat) :=
  let open id := n ← pl_nodes p !! id; c ← open_conn p n; Some (id, c) in
  match preferred ≫= open with
  | Some found => Some found
  | None =>
    head (sort_by (by_requests p) (omap open (map_to_list (pl_nodes p)).*1))
  end.

(** [broker_ids_by_load]: the open ones first, fewest requests first; the sort
    is stable. *)
Definition load_key (p : PoolState) (id : Z) : nat * nat :=
  match view p id with Usable _ k => (0, k)%nat | Candidate _ _ => (1, 0)%nat end.

Definition by_load (p : PoolState) (a b : Z) : Prop :=
  ((load_key p a).1 < (load_key p b).1)%nat ∨
  ((load_key p a).1 = (load_key p b).1 ∧ ((load_key p a).2 ≤ (load_key p b).2)%nat).

#[local] Instance by_load_dec p : RelDecision (by_load p).
Proof. intros a b. unfold by_load. apply _. Defined.

Definition broker_ids_by_load : pool (list Z) :=
  ids ← reads broker_ids; touch_nodes ids;; reads (λ p, sort_by (by_load p) ids).
End pool.
