(* ===== verification/PoolTheorems.v ===== *)
(** * Broker pool: theorems

    The choice of the least loaded broker, and the dials of a connection
    attempt: behind the gate of its node a task dials no earlier than the
    reconnect backoff allows, one address per call of [get] and each bootstrap
    address at most once per call of [bootstrap_connection]. *)

From S2P Require Import Prelude Bytes Errors ConnWire Async Pool.
Import ClientError.

(** ** The least loaded broker *)

Definition usable (v : Z → node_view) (id : Z) : Prop := ∃ c k, v id = Usable c k.

Definition opt_le (a b : option Z) : Prop := opt_ltb b a = false.

Lemma key_ltb_spec a b :
  key_ltb a b = true ↔
  match a.1, b.1 with
  | None, Some _ => True
  | Some x, Some y => x < y ∨ x = y ∧ opt_ltb a.2 b.2 = true
  | None, None => opt_ltb a.2 b.2 = true
  | Some _, None => False
  end.
Proof.
  destruct a as [[x|] a], b as [[y|] b]; unfold key_ltb, opt_eqb; simpl; [|naive_solver..].
  rewrite orb_true_iff, andb_true_iff, Z.ltb_lt, bool_decide_eq_true. naive_solver.
Qed.

Lemma opt_le_trans a b c : opt_le a b → opt_le b c → opt_le a c.
Proof.
  unfold opt_le. destruct a, b, c; simpl; try done; rewrite ?Z.ltb_ge; lia.
Qed.

Lemma opt_lt_le a b : opt_ltb a b = true → opt_le a b.
Proof. unfold opt_le. destruct a, b; simpl; try done. rewrite Z.ltb_lt, Z.ltb_ge. lia. Qed.

(** What the scan holds of the ids that it has passed. *)
Record scanned (v : Z → node_view) (done_ : list Z) (acc : scan) : Prop := {
  scanned_fewest : match sc_fewest acc with
    | Some (k, c) => (∃ id, id ∈ done_ ∧ v id = Usable c k) ∧
        ∀ id c' k', id ∈ done_ → v id = Usable c' k' → (k ≤ k')%nat
    | None => ∀ id, id ∈ done_ → ¬ usable v id
    end;
  scanned_candidate : match sc_candidate acc with
    | Some ((b, l), id) => id ∈ done_ ∧ v id = Candidate b l ∧
        ∀ id' l', id' ∈ done_ → v id' = Candidate None l' → b = None ∧ opt_le l l'
    | None => ∀ id, id ∈ done_ → usable v id
    end;
}.

Lemma scanned_usable v done_ acc id c k :
  scanned v done_ acc → v id = Usable c k →
  scanned v (done_ ++ [id])
    (Scan (match sc_fewest acc with
           | Some (least, c') => if (k <? least)%nat then Some (k, c) else Some (least, c')
           | None => Some (k, c)
           end) (sc_candidate acc)).
Proof.
  intros [Hf Hc] Hv. split; simpl.
  - destruct (sc_fewest acc) as [[least c']|].
    + destruct Hf as [(i & Hi & Hvi) Hmin]. destruct (Nat.ltb_spec k least).
      * split; [exists id; set_solver|]. intros i' c1 k1 [Hi'|Hi']%elem_of_app Hv1.
        -- specialize (Hmin i' c1 k1 Hi' Hv1). lia.
        -- apply list_elem_of_singleton in Hi' as ->. rewrite Hv in Hv1. by simplify_eq.
      * split; [exists i; set_solver|]. intros i' c1 k1 [Hi'|Hi']%elem_of_app Hv1; [by eapply Hmin|].
        apply list_elem_of_singleton in Hi' as ->. rewrite Hv in Hv1. by simplify_eq.
    + split; [exists id; set_solver|]. intros i' c1 k1 [Hi'|Hi']%elem_of_app Hv1.
      * destruct (Hf i' Hi'). by exists c1, k1.
      * apply list_elem_of_singleton in Hi' as ->. rewrite Hv in Hv1. by simplify_eq.
  - destruct (sc_candidate acc) as [[[b l] i]|].
    + destruct Hc as (Hi & Hvi & Hmin). split; [set_solver|]. split; [done|].
      intros i' l' [Hi'|Hi']%elem_of_app Hv'; [by eapply Hmin|].
      apply list_elem_of_singleton in Hi' as ->. congruence.
    + intros i [Hi|Hi]%elem_of_app; [by apply Hc|].
      apply list_elem_of_singleton in Hi as ->. by exists c, k.
Qed.

Lemma scanned_candidate_step v done_ acc id b l :
  scanned v done_ acc → v id = Candidate b l →
  scanned v (done_ ++ [id])
    (Scan (sc_fewest acc) (match sc_candidate acc with
       | Some (best, best_id) => if key_ltb (b, l) best then Some ((b, l), id) else Some (best, best_id)
       | None => Some ((b, l), id)
       end)).
Proof.
  intros [Hf Hc] Hv. split; simpl.
  - destruct (sc_fewest acc) as [[least c']|].
    + destruct Hf as [(i & Hi & Hvi) Hmin]. split; [exists i; set_solver|].
      intros i' c1 k1 [Hi'|Hi']%elem_of_app Hv1; [by eapply Hmin|].
      apply list_elem_of_singleton in Hi' as ->. congruence.
    + intros i [Hi|Hi]%elem_of_app; [by apply Hf|].
      apply list_elem_of_singleton in Hi as ->. intros (c & k & ?). congruence.
  - destruct (sc_candidate acc) as [[[b0 l0] i0]|].
    + destruct Hc as (Hi0 & Hv0 & Hmin). destruct (key_ltb (b, l) (b0, l0)) eqn:E.
      * apply key_ltb_spec in E. simpl in E. split; [set_solver|]. split; [done|].
        intros i' l' [Hi'|Hi']%elem_of_app Hv'.
        -- destruct (Hmin i' l' Hi' Hv') as [-> Hle]. destruct b; [done|]. split; [done|].
           eapply opt_le_trans; [by apply opt_lt_le|done].
        -- apply list_elem_of_singleton in Hi' as ->. rewrite Hv in Hv'. simplify_eq.
           split; [done|]. unfold opt_le. destruct l'; simpl; [apply Z.ltb_irrefl|done].
      * split; [set_solver|]. split; [done|]. intros i' l' [Hi'|Hi']%elem_of_app Hv'; [by eapply Hmin|].
        apply list_elem_of_singleton in Hi' as ->. rewrite Hv in Hv'. simplify_eq.
        assert (¬ key_ltb (None, l') (b0, l0) = true) as Hn by (by rewrite E).
        rewrite key_ltb_spec in Hn. simpl in Hn. destruct b0; [by destruct Hn|]. split; [done|].
        unfold opt_le. by apply not_true_is_false.
    + split; [set_solver|]. split; [done|]. intros i' l' [Hi'|Hi']%elem_of_app Hv'.
      * destruct (Hc i' Hi') as (c & k & ?). congruence.
      * apply list_elem_of_singleton in Hi' as ->. rewrite Hv in Hv'. simplify_eq.
        split; [done|]. unfold opt_le. destruct l'; simpl; [apply Z.ltb_irrefl|done].
Qed.

Lemma scan_spec v ids done_ acc :
  scanned v done_ acc →
  match scan_nodes v ids acc with
  | inl c => ∃ id, id ∈ ids ∧ v id = Usable c 0
  | inr acc' => scanned v (done_ ++ ids) acc'
  end.
Proof.
  revert done_ acc. induction ids as [|id ids IH]; intros done_ acc Hs; simpl.
  { by rewrite app_nil_r. }
  destruct (v id) as [c [|k]|b l] eqn:Hv.
  - exists id. split; [left|done].
  - specialize (IH _ _ (scanned_usable v done_ acc id c (S k) Hs Hv)).
    destruct (scan_nodes v ids _) as [c'|acc']; [set_solver|]. by rewrite <- (assoc_L (++)) in IH.
  - specialize (IH _ _ (scanned_candidate_step v done_ acc id b l Hs Hv)).
    destruct (scan_nodes v ids _) as [c'|acc']; [set_solver|]. by rewrite <- (assoc_L (++)) in IH.
Qed.

(** [leastLoadedNode]: an open connection with as few requests in flight as any;
    with no open connection, a broker out of its backoff whose last attempt is
    as old as any; and the bootstrap connection when every broker backs off. *)
Lemma choose_spec v ids :
  match choose v ids with
  | UseConn c => ∃ id k, id ∈ ids ∧ v id = Usable c k ∧
      ∀ id' c' k', id' ∈ ids → v id' = Usable c' k' → (k ≤ k')%nat
  | UseBroker id => (∀ id', id' ∈ ids → ¬ usable v id') ∧ id ∈ ids ∧
      ∃ last, v id = Candidate None last ∧
        ∀ id' last', id' ∈ ids → v id' = Candidate None last' → opt_le last last'
  | UseBootstrap => ∀ id, id ∈ ids → ∃ t last, v id = Candidate (Some t) last
  end.
Proof.
  unfold choose.
  assert (scanned v [] (Scan None None)) as Hs0 by (split; simpl; set_solver).
  pose proof (scan_spec v ids [] _ Hs0) as Hs.
  destruct (scan_nodes v ids _) as [c|[f c]].
  { destruct Hs as (id & Hid & Hv). exists id, 0%nat. split; [done|]. split; [done|]. lia. }
  destruct Hs as [Hf Hc]. simpl in *. destruct f as [[k c']|].
  { destruct Hf as [(id & ? & ?) ?]. by exists id, k. }
  destruct c as [[[[t|] l] id]|].
  - destruct Hc as (Hid & Hv & Hmin). intros i Hi. destruct (v i) as [c k|[t'|] l'] eqn:Ei.
    + destruct (Hf i Hi). by exists c, k.
    + by eexists _, _.
    + by destruct (Hmin i l' Hi Ei).
  - destruct Hc as (Hid & Hv & Hmin). split; [done|]. split; [done|]. exists l. split; [done|].
    intros i l' Hi Hvi. by apply (Hmin i l' Hi Hvi).
  - intros i Hi. destruct (Hf i Hi). by apply Hc.
Qed.

Lemma elem_of_broker_ids p id : id ∈ broker_ids p ↔ is_Some (pl_by_endpoint p !! id).
Proof.
  unfold broker_ids. rewrite elem_of_sort_by, list_elem_of_fmap. split.
  - intros ([i e] & -> & He%elem_of_map_to_list). by eexists.
  - intros [e He]. exists (id, e). split; [done|]. by apply elem_of_map_to_list.
Qed.

Lemma elem_of_rotate offset ids id : id ∈ rotate_ids offset ids ↔ id ∈ ids.
Proof.
  unfold rotate_ids. rewrite elem_of_app. rewrite <- (take_drop offset ids) at 3.
  rewrite elem_of_app. tauto.
Qed.

(** The target of a request with no fixed broker, whatever the random start
    of the scan: an open connection with as few requests in flight as any open
    one; with no open connection, a known broker out of its reconnect backoff
    whose last attempt is as old as any, one never dialed first; and the
    bootstrap connection exactly when every known broker backs off. *)
Theorem least_loaded_choice p offset :
  let known id := is_Some (pl_by_endpoint p !! id) in
  match choose (view p) (rotate_ids offset (broker_ids p)) with
  | UseConn c => ∃ id k, known id ∧ view p id = Usable c k ∧
      ∀ id' c' k', known id' → view p id' = Usable c' k' → (k ≤ k')%nat
  | UseBroker id => (∀ id', known id' → ¬ usable (view p) id') ∧ known id ∧
      ∃ last, view p id = Candidate None last ∧
        ∀ id' last', known id' → view p id' = Candidate None last' → opt_le last last'
  | UseBootstrap => ∀ id, known id → ∃ t last, view p id = Candidate (Some t) last
  end.
Proof.
  intros known. assert (∀ id, id ∈ rotate_ids offset (broker_ids p) ↔ known id) as Hk
    by (intros id; by rewrite elem_of_rotate, elem_of_broker_ids).
  pose proof (choose_spec (view p) (rotate_ids offset (broker_ids p))) as H.
  destruct (choose _ _) as [c|id|]; setoid_rewrite Hk in H; exact H.
Qed.

(** ** Dials behind the gate *)

#[local] Existing Instance pool_world.

Section dials.
Context (policy : ConnectPolicy).

(** What the resolver has for a host and a port, and the bootstrap addresses
    that the pool has when the backoff of a task ends. *)
Context (resolver : string → Z → list SocketAddr) (listed : list (SocketAddr * string)).

(** The dials of a node so far. *)
Definition dials_of (n : nat) (p : PoolState) : list (nat * string * Z) :=
  filter (λ d, d.1.1 = n) (pl_dials p).

(** What other tasks keep of a node while a task is behind its gate and the
    node has no connection: evictions and disconnects need a connection, and
    only the task behind the gate dials. *)
Definition held (n : nat) (p p' : PoolState) : Prop :=
  pl_now p ≤ pl_now p' ∧
  (ns_connection (node_state p n) = None →
    pl_heap p' !! n = pl_heap p !! n ∧ dials_of n p' = dials_of n p).

Definition pool_env : env (W := pool_world) := λ r p ans p',
  match r return pool_answer r → Prop with
  | LockGate _ => λ _, pl_now p ≤ pl_now p'
  | SleepUntil n at_ => λ _, held n p p' ∧ at_ ≤ pl_now p' ∧ pl_bootstrap p' = listed
  | Resolve n host port => λ ans, held n p p' ∧ ∀ l, ans = Ok l → l = resolver host port
  | Dial n _ _ _ => λ _, held n p p'
  end ans.

(** The address that a call of [get] dials: the one at which the node stands,
    or, for a node that has no addresses, the first that the resolver has; the
    second when the first is the one that was tried last. *)
Definition next_address (s : NodeState) (host : string) (port : Z) : option SocketAddr :=
  match ns_addresses s, resolver host port with
  | [], first :: second :: _ => Some (if decide (ns_last_attempted s = Some first) then second else first)
  | [], l => head l
  | addresses, _ => fst <$> addresses !! ns_address_index s
  end.

(** The other operations of the pool leave a node without a connection alone. *)
Lemma evict_holds id n p : held n p (evict policy id p).
Proof.
  unfold evict. destruct (pl_nodes p !! id) as [m|]; [|by split].
  destruct (ns_connection (node_state p m)) eqn:Ec; [|by split].
  split; [done|]. intros Hn. split; [|done]. simpl. apply list_lookup_alter_ne. congruence.
Qed.

Lemma learn_broker_holds b n p : held n p (learn_broker p b).
Proof. unfold learn_broker. split; repeat (case_match; try done). Qed.

Lemma rebootstrap_holds l n p : held n p (rebootstrap_with_server_names l p).
Proof. by split. Qed.

Definition idle_node (n : nat) (p : PoolState) : Prop :=
  (n < length (pl_heap p))%nat ∧ ns_connection (node_state p n) = None.

Lemma held_node n p p' : held n p p' → idle_node n p →
  idle_node n p' ∧ node_state p' n = node_state p n ∧ dials_of n p' = dials_of n p ∧ pl_now p ≤ pl_now p'.
Proof.
  intros [Ht Hh] [Hlt Hc]. destruct (Hh Hc) as [Eh Ed].
  assert (node_state p' n = node_state p n) as En by (unfold node_state; by rewrite Eh).
  repeat split; try done; [|by rewrite En].
  destruct (lookup_lt_is_Some_2 _ _ Hlt) as [s Hs]. rewrite Hs in Eh. by eapply lookup_lt_Some.
Qed.

Lemma node_at n f p : (n < length (pl_heap p))%nat → node_state (at_node n f p) n = f (node_state p n).
Proof.
  intros Hlt. unfold node_state. simpl. rewrite list_lookup_alter_eq.
  by destruct (lookup_lt_is_Some_2 _ _ Hlt) as [s ->].
Qed.

Lemma idle_at n f p :
  (∀ s, ns_connection (f s) = ns_connection s) → idle_node n p → idle_node n (at_node n f p).
Proof.
  intros Hf [Hlt Hc]. split; [simpl; by rewrite length_alter|]. by rewrite node_at, Hf.
Qed.

(** The dials that a task adds, from address [i] of the node on, are the next
    addresses of the list in turn, none before the backoff ends. *)
Definition dialed (n : nat) (from to : PoolState) (addrs : list string) : Prop :=
  ∃ ds, dials_of n to = dials_of n from ++ ds ∧ (λ d, d.1.2) <$> ds = addrs ∧
    Forall (λ d, ∀ at_, ns_retry_at (node_state from n) = Some at_ → at_ ≤ d.2) ds.

Lemma dialed_refl n p : dialed n p p [].
Proof. exists []. by rewrite app_nil_r. Qed.

Notation safe_pool := (safe (W := pool_world) pool_env (λ _, True) False).

(** One more dial, at a time that the backoff allows. *)
Lemma dialed_more n p0 p1 p2 addrs addr :
  dialed n p0 p1 addrs → dials_of n p2 = dials_of n p1 ++ [(n, addr, pl_now p1)] →
  (∀ at_, ns_retry_at (node_state p0 n) = Some at_ → at_ ≤ pl_now p1) →
  dialed n p0 p2 (addrs ++ [addr]).
Proof.
  intros (ds & Hd & Ha & Ht) Hn Hat. exists (ds ++ [(n, addr, pl_now p1)]).
  rewrite Hn, Hd, (assoc_L (++)). split; [done|]. rewrite fmap_app, Ha. split; [done|].
  apply Forall_app. split; [done|]. by apply Forall_singleton.
Qed.

Lemma dialed_same n p0 p1 p2 addrs :
  dialed n p0 p1 addrs → dials_of n p2 = dials_of n p1 → dialed n p0 p2 addrs.
Proof. intros (ds & Hd & ?) E. exists ds. by rewrite E. Qed.

Definition waited (n : nat) (p0 p : PoolState) : Prop :=
  ∀ at_, ns_retry_at (node_state p0 n) = Some at_ → at_ ≤ pl_now p.

Lemma wait_safe n p :
  idle_node n p →
  safe_pool (wait_for_backoff n p) (λ _ p', idle_node n p' ∧ node_state p' n = node_state p n ∧
    dials_of n p' = dials_of n p ∧ waited n p p' ∧
    (ns_retry_at (node_state p n) = None → p' = p) ∧
    (ns_retry_at (node_state p n) ≠ None → pl_bootstrap p' = listed)).
Proof.
  intros Hi. unfold wait_for_backoff, waited. apply safe_bind. cbn [safe reads].
  destruct (ns_retry_at (node_state p n)) as [at_|] eqn:Er.
  - split; [done|]. intros [] p' (Hh & Hat & Hl). destruct (held_node n p p' Hh Hi) as (Hi' & En & Ed & _).
    simpl. split_and!; try done. by intros ? [= <-].
  - simpl. split_and!; try done; apply Hi.
Qed.

Lemma next_address_resolved n host port p :
  idle_node n p → ns_addresses (node_state p n) = [] →
  let s := node_state (at_node n (set_addresses ((λ addr, (addr, host)) <$> resolver host port)) p) n in
  fst <$> ns_addresses s !! ns_address_index s = next_address (node_state p n) host port.
Proof.
  intros Hi Ha s. unfold s, next_address. rewrite node_at by apply Hi. rewrite Ha. simpl.
  destruct (resolver host port) as [|x [|y l]]; simpl; [done| |].
  - done.
  - case_decide as Hl; [rewrite Hl, bool_decide_eq_true_2 by done|rewrite bool_decide_eq_false_2 by congruence]; done.
Qed.

Lemma next_attempt_spec n p :
  idle_node n p →
  match ns_addresses (node_state p n) !! ns_address_index (node_state p n) with
  | Some (addr, name) => ∃ timeout p', next_attempt policy n p = Ret (Some (addr, name, timeout)) p' ∧
      idle_node n p' ∧ pl_now p' = pl_now p ∧ dials_of n p' = dials_of n p ++ [(n, addr, pl_now p)] ∧
      ns_addresses (node_state p' n) = ns_addresses (node_state p n) ∧
      ns_address_index (node_state p' n) = ns_address_index (node_state p n)
  | None => next_attempt policy n p = Ret None p
  end.
Proof.
  intros Hi. unfold next_attempt. destruct (_ !! _) as [[addr name]|]; [|done].
  eexists _, _. split; [done|].
  assert (idle_node n (at_node n (attempted addr (pl_now p)) p)) as Hi' by (by apply idle_at).
  pose proof (node_at n (attempted addr (pl_now p)) p (proj1 Hi)) as En.
  split; [exact Hi'|]. split; [done|]. split.
  - unfold dials_of. simpl. rewrite filter_app, filter_cons_True, filter_nil; done.
  - change (node_state (draw (log_dial (n, addr, pl_now p) (at_node n (attempted addr (pl_now p)) p))) n)
      with (node_state (at_node n (attempted addr (pl_now p)) p) n). by rewrite En.
Qed.

Lemma dial_safe n a p Q :
  idle_node n p →
  (∀ c p', dials_of n p' = dials_of n p → Q (Ok c) p') →
  (∀ e p', idle_node n p' → node_state p' n = node_state p n → dials_of n p' = dials_of n p →
     pl_now p ≤ pl_now p' → Q (Err e) p') →
  safe_pool (dial n a p) Q.
Proof.
  intros Hi Hok Herr. destruct a as [[addr name] timeout]. unfold dial. apply safe_bind.
  split; [done|]. intros r p' Hh. destruct (held_node n p p' Hh Hi) as (Hi' & En & Ed & Ht).
  simpl. destruct r as [c|e]; [|by apply Herr].
  apply Hok. simpl. rewrite <- Ed. by destruct (_ <? _).
Qed.

(** At most one dial, of the address that is due. *)
Definition dialed_next (n : nat) (host : string) (port : Z) (p p' : PoolState) : Prop :=
  dialed n p p' [] ∨ ∃ addr, next_address (node_state p n) host port = Some addr ∧ dialed n p p' [addr].

Lemma dialed_none n host port p p' : dials_of n p' = dials_of n p → dialed_next n host port p p'.
Proof. intros E. left. eapply dialed_same; [apply dialed_refl|done]. Qed.

(** The dial of [get], once the node has its addresses. *)
Lemma attempt_safe n host port p p2 :
  idle_node n p2 → dials_of n p2 = dials_of n p → waited n p p2 →
  fst <$> ns_addresses (node_state p2 n) !! ns_address_index (node_state p2 n) =
    next_address (node_state p n) host port →
  safe_pool ((attempt ← next_attempt policy n;
    match attempt with
    | Some a => r ← dial n a;
        match r with
        | Ok c => mret (Ok c)
        | Err e => writes (with_draw n (connect_failed policy));; mret (Err e)
        end
    | None => writes (with_draw n (connect_failed policy));; mret (Err Disconnected)
    end) p2) (λ (_ : result client_error nat) p', dialed_next n host port p p').
Proof.
  intros Hi2 Ed2 Hw2 Ha. apply safe_bind. pose proof (next_attempt_spec n p2 Hi2) as Hn.
  destruct (ns_addresses _ !! _) as [[addr name]|]; simpl in Ha.
  - destruct Hn as (timeout & p3 & -> & Hi3 & Ht3 & Ed3 & _). cbn [safe].
    assert (dialed n p p3 [addr]) as Hd3.
    { apply (dialed_more n p p2 p3 [] addr); [|done|done].
      eapply dialed_same; [apply dialed_refl|done]. }
    apply safe_bind, dial_safe; [done|..].
    + intros c p4 E4. right. exists addr. split; [done|by eapply dialed_same].
    + intros e p4 Hi4 _ E4 _. right. exists addr. split; [done|by eapply dialed_same].
  - rewrite Hn. cbn [safe]. simpl. by apply dialed_none.
Qed.

Lemma connect_to_safe n host port p :
  idle_node n p →
  safe_pool (connect_to policy n host port p) (λ _ p', dialed_next n host port p p').
Proof.
  intros Hi. unfold connect_to. apply safe_bind. eapply safe_mono; [|by apply wait_safe].
  intros [] p1 (Hi1 & En1 & Ed1 & Hw & _). apply safe_bind. cbn [safe reads]. apply safe_bind.
  destruct (ns_addresses (node_state p1 n)) as [|x l] eqn:Ha1.
  - apply safe_bind. split; [done|]. intros r p2 [Hh Hres].
    destruct (held_node n p1 p2 Hh Hi1) as (Hi2 & En2 & Ed2 & Ht2).
    simpl. destruct r as [addrs|e].
    + rewrite (Hres addrs eq_refl). apply attempt_safe.
      * by apply idle_at.
      * change (dials_of n p2 = dials_of n p); congruence.
      * intros at_ Hat. simpl. specialize (Hw at_ Hat). lia.
      * rewrite next_address_resolved; [by rewrite En2, En1|done|by rewrite En2].
    + apply dialed_none. change (dials_of n p2 = dials_of n p). congruence.
  - cbn [safe mret async_ret]. apply attempt_safe; try done.
    unfold next_address. rewrite <- En1, Ha1. done.
Qed.

(** ** The bootstrap addresses *)

Definition rotation {A} (i : nat) (l : list A) : list A := drop i l ++ take i l.

Lemma rotation_lookup {A} (i j : nat) (l : list A) :
  (i < length l)%nat → (j < length l)%nat → rotation i l !! j = l !! ((i + j) mod length l)%nat.
Proof.
  intros Hi Hj. unfold rotation. destruct (decide (i + j < length l)%nat) as [Hlt|Hge].
  - rewrite lookup_app_l by (rewrite length_drop; lia). by rewrite lookup_drop, Nat.mod_small.
  - rewrite lookup_app_r by (rewrite length_drop; lia). rewrite length_drop.
    replace ((i + j) mod length l)%nat with (i + j - length l)%nat.
    + rewrite lookup_take_lt by lia. f_equal. lia.
    + replace (i + j)%nat with (i + j - length l + 1 * length l)%nat at 2 by lia.
      rewrite Nat.Div0.mod_add, Nat.mod_small; lia.
Qed.

Lemma bootstrap_loop_safe n l i p0 :
  (i < length l)%nat →
  ∀ todo j p e,
  idle_node n p → (j + todo = length l)%nat → waited n p0 p →
  ns_addresses (node_state p n) = l →
  ns_address_index (node_state p n) = ((i + j) mod length l)%nat →
  dialed n p0 p (take j (rotation i l.*1)) →
  safe_pool (bootstrap_loop policy n (length l) todo e p)
    (λ r p', ∃ k, (k ≤ length l)%nat ∧ dialed n p0 p' (take k (rotation i l.*1)) ∧
       match r with
       | inl (Err e) => is_authentication_failure e = true
       | inl (Ok _) => True
       | inr _ => k = length l
       end).
Proof.
  intros Hl. induction todo as [|todo IH]; intros j p e Hi Hj Hw Ha Hidx Hd.
  { simpl. exists j. split; [lia|]. split; [done|]. lia. }
  cbn [bootstrap_loop]. apply safe_bind. pose proof (next_attempt_spec n p Hi) as Hn.
  rewrite Ha, Hidx in Hn.
  assert (((i + j) mod length l < length l)%nat) as Hm by (apply Nat.mod_upper_bound; lia).
  destruct (lookup_lt_is_Some_2 _ _ Hm) as [[addr name] Hx]. rewrite Hx in Hn.
  destruct Hn as (timeout & p1 & -> & Hi1 & Ht1 & Ed1 & Ea1 & Ei1). cbn [safe].
  assert (dialed n p0 p1 (take (S j) (rotation i l.*1))) as Hd1.
  { rewrite (take_S_r _ _ addr); [by eapply (dialed_more n p0 p)|].
    rewrite rotation_lookup; rewrite ?length_fmap; [|lia|lia]. by rewrite list_lookup_fmap, Hx. }
  apply safe_bind, dial_safe; [done|..].
  - intros c p2 Ed2. exists (S j). split; [lia|]. split; [by eapply dialed_same|done].
  - intros e' p2 Hi2 En2 Ed2 Ht2. destruct (is_authentication_failure e') eqn:Eauth.
    + exists (S j). split; [lia|]. split; [by eapply dialed_same|done].
    + apply safe_bind. cbn [safe writes]. eapply (IH (S j)).
      * by apply idle_at.
      * lia.
      * intros at_ Hat. specialize (Hw at_ Hat). simpl. lia.
      * rewrite node_at by apply Hi2. simpl. by rewrite En2, Ea1.
      * rewrite node_at by apply Hi2. simpl. rewrite En2, Ei1, Nat.add_succ_r.
        rewrite <- (Nat.add_1_r (_ mod _)), Nat.Div0.add_mod_idemp_l. f_equal. lia.
      * by eapply dialed_same.
Qed.

(** The list that the attempt goes through. *)
Definition lists (n : nat) (p : PoolState) : Prop :=
  ns_retry_at (node_state p n) = None → pl_bootstrap p = listed.

(** The address from which the attempt goes through the list. *)
Definition stands_at (n : nat) (p : PoolState) : nat :=
  (ns_address_index (node_state p n) mod Nat.max (length listed) 1)%nat.

Lemma connect_bootstrap_safe n p :
  idle_node n p → lists n p →
  safe_pool (connect_bootstrap policy n p)
    (λ r p', ∃ k, (k ≤ length listed)%nat ∧ dialed n p p' (take k (rotation (stands_at n p) listed.*1)) ∧
       ∀ e, r = Err e → is_authentication_failure e = false → k = length listed).
Proof.
  intros Hi Hl. unfold connect_bootstrap. apply safe_bind. eapply safe_mono; [|by apply wait_safe].
  intros [] p1 (Hi1 & En1 & Ed1 & Hw & Hnow & Hlater). apply safe_bind. cbn [safe reads].
  assert (pl_bootstrap p1 = listed) as ->.
  { destruct (decide (ns_retry_at (node_state p n) = None)) as [E|E]; [rewrite (Hnow E)|]; auto. }
  apply safe_bind. cbn [safe writes].
  set (i := stands_at n p). set (p2 := at_node n _ p1). apply safe_bind.
  assert (idle_node n p2) as Hi2 by (by apply idle_at).
  assert (dialed n p p2 (take 0 (rotation i listed.*1))) as Hd2.
  { eapply dialed_same; [apply dialed_refl|]. exact Ed1. }
  assert (node_state p2 n = put_addresses listed (set_index i (node_state p n))) as En2.
  { unfold p2. rewrite node_at by apply Hi1. by rewrite En1. }
  eapply (safe_mono (W := pool_world) pool_env (λ _, True) False _
    (λ (r : result client_error nat + client_error) (p' : PoolState), ∃ k, (k ≤ length listed)%nat ∧
    dialed n p p' (take k (rotation i listed.*1)) ∧
    match r with inl (Err e) => is_authentication_failure e = true | inl (Ok _) => True
    | inr _ => k = length listed end)).
  - intros r p3 (k & Hk & Hd3 & Hr). destruct r as [r|e]; cbn [safe mret async_ret].
    + exists k. split; [done|]. split; [done|]. intros e ->. congruence.
    + apply safe_bind. cbn [safe writes mret async_ret]. exists k. split; [done|].
      split; [by eapply dialed_same|]. done.
  - destruct (decide (length listed = 0)%nat) as [El|El].
    { rewrite El. simpl. exists 0%nat. split; [lia|]. by split. }
    assert (i < length listed)%nat by (unfold i, stands_at; rewrite Nat.max_l by lia; apply Nat.mod_upper_bound; lia).
    apply (bootstrap_loop_safe n listed i p) with (j := 0%nat); rewrite ?En2; try done.
    simpl. by rewrite Nat.add_0_r, Nat.mod_small.
Qed.

End dials.

(** A node in its backoff, during which the pool gets three other bootstrap
    addresses; the dial of one of them succeeds. *)
Module DemoPool.
Definition policy : ConnectPolicy := mkPolicy (λ _ _, 50) (λ _ _, 10).

Definition start : PoolState :=
  mkPool {[ BOOTSTRAP_ID := 0%nat ]} [mkNode None [] 5 None None 1 1 (Some 20)] ∅
    [("a", "a"); ("b", "b")] false default_finalized_features
    [ConnView true 0 default_finalized_features] 5 0 [].

(** The list that the pool has when the backoff ends is a new one. *)
Definition listed : list (SocketAddr * string) := [("c", "c"); ("d", "d"); ("b", "b")].
Definition resolver (host : string) (port : Z) : list SocketAddr := ["a"].

Definition later (t : Z) (p : PoolState) : PoolState :=
  mkPool (pl_nodes p) (pl_heap p) (pl_by_endpoint p) listed (pl_prefer_bootstrap p)
    (pl_features p) (pl_conns p) (Z.max t (pl_now p)) (pl_draws p) (pl_dials p).

Definition oracle (r : PoolIo) (p : PoolState) : pool_answer r * PoolState :=
  match r with
  | LockGate _ => ((), p)
  | SleepUntil _ t => ((), later t p)
  | Resolve _ host port => (Ok (resolver host port), p)
  | Dial _ addr _ _ => (if bool_decide (addr = "c") then Ok 0%nat else Err (Io "refused"), p)
  end.

Lemma oracle_env r p : pool_env resolver listed r p (oracle r p).1 (oracle r p).2.
Proof. destruct r; simpl; unfold held, later; simpl; repeat split; try congruence; lia. Qed.

Definition outcome := play (W := pool_world) oracle (λ _, true) 9 (connect_bootstrap policy 0 start).
End DemoPool.

