(* ===== verification/AdminRetry.v ===== *)
(** * Admin client: retries

    [client-admin/src/retry.rs] and the error names of [lib.rs]: the deadline
    and the retry count of one admin call, the retry states of calls to a
    coordinator and to the controller, and the round structure that the admin
    calls share: an attempt, then the end of the call, or the backoff and
    another attempt until the deadline.

    The waits of the backoff are floating point and random, so they are a
    function of the policy, given the number of retries and the index of the
    random draw.  The clock is part of the state of the loop: requests take the
    time that they are given, and timers may be late. *)

From S2P Require Import Prelude Errors Text.

Record KafkaError := mkKafkaError {
  ke_code : Z;
  ke_name : string;
  ke_message : option string;
}.

#[global] Instance KafkaError_eq_dec : EqDecision KafkaError.
Proof. solve_decision. Defined.

Definition kafka_error_names : list (Z * string) :=
  [(-1, "UNKNOWN_SERVER_ERROR");
   (0, "NONE");
   (1, "OFFSET_OUT_OF_RANGE");
   (2, "CORRUPT_MESSAGE");
   (3, "UNKNOWN_TOPIC_OR_PARTITION");
   (4, "INVALID_FETCH_SIZE");
   (5, "LEADER_NOT_AVAILABLE");
   (6, "NOT_LEADER_OR_FOLLOWER");
   (7, "REQUEST_TIMED_OUT");
   (8, "BROKER_NOT_AVAILABLE");
   (9, "REPLICA_NOT_AVAILABLE");
   (10, "MESSAGE_TOO_LARGE");
   (11, "STALE_CONTROLLER_EPOCH");
   (12, "OFFSET_METADATA_TOO_LARGE");
   (13, "NETWORK_EXCEPTION");
   (14, "COORDINATOR_LOAD_IN_PROGRESS");
   (15, "COORDINATOR_NOT_AVAILABLE");
   (16, "NOT_COORDINATOR");
   (17, "INVALID_TOPIC_EXCEPTION");
   (18, "RECORD_LIST_TOO_LARGE");
   (19, "NOT_ENOUGH_REPLICAS");
   (20, "NOT_ENOUGH_REPLICAS_AFTER_APPEND");
   (21, "INVALID_REQUIRED_ACKS");
   (22, "ILLEGAL_GENERATION");
   (23, "INCONSISTENT_GROUP_PROTOCOL");
   (24, "INVALID_GROUP_ID");
   (25, "UNKNOWN_MEMBER_ID");
   (26, "INVALID_SESSION_TIMEOUT");
   (27, "REBALANCE_IN_PROGRESS");
   (28, "INVALID_COMMIT_OFFSET_SIZE");
   (29, "TOPIC_AUTHORIZATION_FAILED");
   (30, "GROUP_AUTHORIZATION_FAILED");
   (31, "CLUSTER_AUTHORIZATION_FAILED");
   (32, "INVALID_TIMESTAMP");
   (33, "UNSUPPORTED_SASL_MECHANISM");
   (34, "ILLEGAL_SASL_STATE");
   (35, "UNSUPPORTED_VERSION");
   (36, "TOPIC_ALREADY_EXISTS");
   (37, "INVALID_PARTITIONS");
   (38, "INVALID_REPLICATION_FACTOR");
   (39, "INVALID_REPLICA_ASSIGNMENT");
   (40, "INVALID_CONFIG");
   (41, "NOT_CONTROLLER");
   (42, "INVALID_REQUEST");
   (43, "UNSUPPORTED_FOR_MESSAGE_FORMAT");
   (44, "POLICY_VIOLATION");
   (45, "OUT_OF_ORDER_SEQUENCE_NUMBER");
   (46, "DUPLICATE_SEQUENCE_NUMBER");
   (47, "INVALID_PRODUCER_EPOCH");
   (48, "INVALID_TXN_STATE");
   (49, "INVALID_PRODUCER_ID_MAPPING");
   (50, "INVALID_TRANSACTION_TIMEOUT");
   (51, "CONCURRENT_TRANSACTIONS");
   (52, "TRANSACTION_COORDINATOR_FENCED");
   (53, "TRANSACTIONAL_ID_AUTHORIZATION_FAILED");
   (54, "SECURITY_DISABLED");
   (55, "OPERATION_NOT_ATTEMPTED");
   (56, "KAFKA_STORAGE_ERROR");
   (57, "LOG_DIR_NOT_FOUND");
   (58, "SASL_AUTHENTICATION_FAILED");
   (59, "UNKNOWN_PRODUCER_ID");
   (60, "REASSIGNMENT_IN_PROGRESS");
   (61, "DELEGATION_TOKEN_AUTH_DISABLED");
   (62, "DELEGATION_TOKEN_NOT_FOUND");
   (63, "DELEGATION_TOKEN_OWNER_MISMATCH");
   (64, "DELEGATION_TOKEN_REQUEST_NOT_ALLOWED");
   (65, "DELEGATION_TOKEN_AUTHORIZATION_FAILED");
   (66, "DELEGATION_TOKEN_EXPIRED");
   (67, "INVALID_PRINCIPAL_TYPE");
   (68, "NON_EMPTY_GROUP");
   (69, "GROUP_ID_NOT_FOUND");
   (70, "FETCH_SESSION_ID_NOT_FOUND");
   (71, "INVALID_FETCH_SESSION_EPOCH");
   (72, "LISTENER_NOT_FOUND");
   (73, "TOPIC_DELETION_DISABLED");
   (74, "FENCED_LEADER_EPOCH");
   (75, "UNKNOWN_LEADER_EPOCH");
   (76, "UNSUPPORTED_COMPRESSION_TYPE");
   (77, "STALE_BROKER_EPOCH");
   (78, "OFFSET_NOT_AVAILABLE");
   (79, "MEMBER_ID_REQUIRED");
   (80, "PREFERRED_LEADER_NOT_AVAILABLE");
   (81, "GROUP_MAX_SIZE_REACHED");
   (82, "FENCED_INSTANCE_ID");
   (83, "ELIGIBLE_LEADERS_NOT_AVAILABLE");
   (84, "ELECTION_NOT_NEEDED");
   (85, "NO_REASSIGNMENT_IN_PROGRESS");
   (86, "GROUP_SUBSCRIBED_TO_TOPIC");
   (87, "INVALID_RECORD");
   (88, "UNSTABLE_OFFSET_COMMIT");
   (89, "THROTTLING_QUOTA_EXCEEDED");
   (90, "PRODUCER_FENCED");
   (91, "RESOURCE_NOT_FOUND");
   (92, "DUPLICATE_RESOURCE");
   (93, "UNACCEPTABLE_CREDENTIAL");
   (94, "INCONSISTENT_VOTER_SET");
   (95, "INVALID_UPDATE_VERSION");
   (96, "FEATURE_UPDATE_FAILED");
   (97, "PRINCIPAL_DESERIALIZATION_FAILURE");
   (98, "SNAPSHOT_NOT_FOUND");
   (99, "POSITION_OUT_OF_RANGE");
   (100, "UNKNOWN_TOPIC_ID");
   (101, "DUPLICATE_BROKER_REGISTRATION");
   (102, "BROKER_ID_NOT_REGISTERED");
   (103, "INCONSISTENT_TOPIC_ID");
   (104, "INCONSISTENT_CLUSTER_ID");
   (105, "TRANSACTIONAL_ID_NOT_FOUND");
   (106, "FETCH_SESSION_TOPIC_ID_ERROR");
   (107, "INELIGIBLE_REPLICA");
   (108, "NEW_LEADER_ELECTED");
   (109, "OFFSET_MOVED_TO_TIERED_STORAGE");
   (110, "FENCED_MEMBER_EPOCH");
   (111, "UNRELEASED_INSTANCE_ID");
   (112, "UNSUPPORTED_ASSIGNOR");
   (113, "STALE_MEMBER_EPOCH");
   (114, "MISMATCHED_ENDPOINT_TYPE");
   (115, "UNSUPPORTED_ENDPOINT_TYPE");
   (116, "UNKNOWN_CONTROLLER_ID");
   (117, "UNKNOWN_SUBSCRIPTION_ID");
   (118, "TELEMETRY_TOO_LARGE");
   (119, "INVALID_REGISTRATION");
   (120, "TRANSACTION_ABORTABLE");
   (121, "INVALID_RECORD_STATE");
   (122, "SHARE_SESSION_NOT_FOUND");
   (123, "INVALID_SHARE_SESSION_EPOCH");
   (124, "FENCED_STATE_EPOCH");
   (125, "INVALID_VOTER_KEY");
   (126, "DUPLICATE_VOTER");
   (127, "VOTER_NOT_FOUND");
   (128, "INVALID_REGULAR_EXPRESSION");
   (129, "REBOOTSTRAP_REQUIRED");
   (130, "STREAMS_INVALID_TOPOLOGY");
   (131, "STREAMS_INVALID_TOPOLOGY_EPOCH");
   (132, "STREAMS_TOPOLOGY_FENCED");
   (133, "SHARE_SESSION_LIMIT_REACHED");
   (134, "GROUP_DELETION_FAILED");
   (135, "STREAMS_TOPOLOGY_DESCRIPTION_UPDATE_FAILED");
   (136, "CONTROLLER_ID_NOT_REGISTERED")].

Definition kafka_error_name (code : Z) : string :=
  match list_find (λ e, e.1 = code) kafka_error_names with
  | Some (_, e) => e.2
  | None => "UNKNOWN"
  end.

(** [group_coordinators::kafka_error]. *)
Definition kafka_error (code : Z) (message : option string) : KafkaError :=
  mkKafkaError code (kafka_error_name code) message.

(** ** The deadline of a call *)

Record RetryPolicy := mkRetryPolicy {
  rp_timeout : Z;
  rp_backoff : Z → nat → Z;
  rp_max_retries : Z;
}.

Record RetryDeadline := mkRetryDeadline {
  rd_policy : RetryPolicy;
  rd_deadline : Z;
  rd_retries : Z;
}.

Definition start (now : Z) (policy : RetryPolicy) : RetryDeadline :=
  mkRetryDeadline policy (now + rp_timeout policy) 0.

Definition expired (now : Z) (d : RetryDeadline) : bool := rd_deadline d <=? now.

Definition exhausted (now : Z) (d : RetryDeadline) : bool :=
  expired now d || (rp_max_retries (rd_policy d) <=? rd_retries d).

Definition call_timeout (d : RetryDeadline) : AdminError.admin_error :=
  AdminError.Transport (ClientError.Timeout (fmt_int (rp_timeout (rd_policy d)))).

Definition remaining_millis (now : Z) (d : RetryDeadline) : Z :=
  default i32_max (i32_try_from (Z.max 0 (rd_deadline d - now))).

(** [backoff]: the instant that the call sleeps until, and the deadline state
    after it. *)
Definition backoff_until (now : Z) (k : nat) (d : RetryDeadline) : Z :=
  Z.min (rd_deadline d) (now + rp_backoff (rd_policy d) (rd_retries d) k).

Definition count_retry (d : RetryDeadline) : RetryDeadline :=
  mkRetryDeadline (rd_policy d) (rd_deadline d) (u32_saturating_add (rd_retries d) 1).

(** ** Errors *)

Definition is_connection_failure (error : AdminError.admin_error) : bool :=
  match error with
  | AdminError.Transport (ClientError.Connect _ _ | ClientError.Tls _ _ | ClientError.Sasl _ _
      | ClientError.Timeout _ | ClientError.Disconnected | ClientError.Io _) => true
  | _ => false
  end.

Definition REQUEST_TIMED_OUT : Z := 7.

Definition call_timeout_error (api : string) (attempts : Z) (last : string) : KafkaError :=
  kafka_error REQUEST_TIMED_OUT
    (Some (api ++ " timed out after " ++ fmt_int attempts ++ " attempt(s); last error: " ++ last)%string).

Lemma foldl_max_le (l : list Z) t x : foldl Z.max t l ≤ x ↔ t ≤ x ∧ ∀ y, y ∈ l → y ≤ x.
Proof.
  revert t. induction l as [|y l IH]; intros t; simpl; [set_solver|]. rewrite IH. split.
  - intros [Ht Hl]. split; [lia|]. intros z [->|Hz]%elem_of_cons; [lia|by apply Hl].
  - intros [Ht Hl]. split; [|intros z Hz; apply Hl; by right]. pose proof (Hl y ltac:(left)). lia.
Qed.

(** Two lists of instants with the same upper bounds. *)
Lemma foldl_max_ext (l l' : list Z) t : (∀ y, y ∈ l ↔ y ∈ l') → foldl Z.max t l = foldl Z.max t l'.
Proof.
  assert (∀ l, t ≤ foldl Z.max t l ∧ ∀ y, y ∈ l → y ≤ foldl Z.max t l) as Hm.
  { intros k. by apply foldl_max_le. }
  intros H. destruct (Hm l), (Hm l'). apply (anti_symm Z.le); apply foldl_max_le; split; naive_solver.
Qed.

(** ** Time

    A timer that is set for an instant runs the task at that instant or, by its
    lag, later.  An attempt takes some time or, with [None], never ends. *)

Section time.
Context (lag : Z → Z).

Definition fires (t : Z) : Z := t + Z.max 0 (lag t).

(** [tokio::time::sleep_until] *)
Definition sleep_until (now t : Z) : Z := Z.max now (fires t).

(** [RetryDeadline::bounded], which polls the attempt before the timer: the
    clock after it, and the output unless the deadline came first. *)
Definition bounded {A} (deadline now : Z) (attempt : option (Z * A)) : Z * option A :=
  let limit := sleep_until now deadline in
  match attempt with
  | Some (takes, a) => if now + Z.max 0 takes <=? limit then (now + Z.max 0 takes, Some a) else (limit, None)
  | None => (limit, None)
  end.

(** [join_all] of attempts that all start now. *)
Definition join_all {A} (now : Z) (answers : list (Z * A)) : Z := foldl Z.max now answers.*1.

Lemma bounded_time {A} deadline now (attempt : option (Z * A)) :
  now ≤ (bounded deadline now attempt).1 ≤ sleep_until now deadline.
Proof.
  unfold bounded, sleep_until. destruct attempt as [[t a]|]; [|simpl; lia].
  destruct (Z.leb_spec (now + Z.max 0 t) (Z.max now (fires deadline))); simpl; lia.
Qed.

(** ** Rounds *)

(** The loop of an admin call.  [step] is one attempt, from the clock before it
    to the clock after it, and says whether the call is complete or what is
    left of it; [at_end] is the result of a call that stops with work left. *)
Section rounds.
Context {S R : Type} (step : nat → Z → S → Z * (S + R)) (at_end : S → R).

Fixpoint rounds (fuel : nat) (n : nat) (now : Z) (d : RetryDeadline) (s : S) : option (Z * R) :=
  match fuel with
  | O => None
  | Datatypes.S fuel =>
    match step n now s with
    | (now, inr r) => Some (now, r)
    | (now, inl s) =>
      if exhausted now d then Some (now, at_end s)
      else
        let now := sleep_until now (backoff_until now n d) in
        let d := count_retry d in
        if expired now d then Some (now, at_end s)
        else rounds fuel (Datatypes.S n) now d s
    end
  end.

(** When the sleep after the attempt of a round ends. *)
Definition woken (d : RetryDeadline) (n : nat) (t : Z) : Z :=
  sleep_until t (Z.min (rd_deadline d) (t + rp_backoff (rd_policy d) (Z.min (Z.of_nat n) u32_max) n)).

(** Why a call gives up after the attempt of a round: its time or its retries
    are used up, or its time is when the sleep ends. *)
Definition gives_up (d : RetryDeadline) (n : nat) (t : Z) : Prop :=
  rd_deadline d ≤ t ∨ rp_max_retries (rd_policy d) ≤ Z.min (Z.of_nat n) u32_max ∨ rd_deadline d ≤ woken d n t.

(** When the call gives up after a round that ends at [t]. *)
Definition stops_at (d : RetryDeadline) (n : nat) (t end_ : Z) : Prop :=
  gives_up d n t ∧ (end_ = t ∨ end_ = woken d n t).

(** A round that is not the last ends before the deadline, and its backoff
    takes time; so as many rounds as the time to the deadline are enough. *)
Lemma rounds_end deadline policy :
  (∀ k n, 1 ≤ rp_backoff policy k n) → (∀ n now s, now ≤ (step n now s).1) →
  ∀ fuel n now d s, rd_deadline d = deadline → rd_policy d = policy →
    Z.max 0 (deadline - now) < Z.of_nat fuel → is_Some (rounds fuel n now d s).
Proof.
  intros Hb Hstep. induction fuel as [|fuel IH]; intros n now d s Hd Hp Hf; [lia|]. cbn [rounds].
  specialize (Hstep n now s). destruct (step n now s) as [t [s'|r]]; [|by eexists]. simpl in Hstep.
  destruct (exhausted t d) eqn:Ex; [by eexists|].
  destruct (expired _ (count_retry d)) eqn:Ew; [by eexists|].
  apply IH; [done|done|]. apply Z.leb_gt in Ew. simpl in Ew.
  specialize (Hb (rd_retries d) n). unfold sleep_until, backoff_until, fires in *. rewrite Hp in *. lia.
Qed.

(** The call ends no later than the lag after its deadline. *)
Lemma rounds_by slack deadline :
  (∀ t, lag t ≤ slack) → 0 ≤ slack → (∀ n now s, (step n now s).1 ≤ Z.max now (deadline + slack)) →
  ∀ fuel n now d s t r, rd_deadline d = deadline → now ≤ deadline + slack →
    rounds fuel n now d s = Some (t, r) → t ≤ deadline + slack.
Proof.
  intros Hl Hs Hstep. induction fuel as [|fuel IH]; intros n now d s t r Hd Hn; [done|]. cbn [rounds].
  specialize (Hstep n now s). destruct (step n now s) as [t1 [s'|r']]; simpl in Hstep; [|intros [= <- _]; lia].
  destruct (exhausted t1 d); [intros [= <- _]; lia|].
  assert (sleep_until t1 (backoff_until t1 n d) ≤ deadline + slack) as Hw.
  { unfold sleep_until, backoff_until, fires. specialize (Hl (Z.min (rd_deadline d) (t1 + rp_backoff (rd_policy d) (rd_retries d) n))). lia. }
  destruct (expired _ _); [by intros [= <- _]|]. by apply IH.
Qed.

Lemma rounds_inv (I : nat → Z → S → Prop) (Q : Z → R → Prop) d0 :
  (∀ n now s, I n now s → match step n now s with
     | (t, inl s') => (I (Datatypes.S n) (woken d0 n t) s') ∧ (∀ t', stops_at d0 n t t' → Q t' (at_end s'))
     | (t, inr r) => Q t r
     end) →
  ∀ fuel n now d s t r, I n now s → rd_policy d = rd_policy d0 → rd_deadline d = rd_deadline d0 →
    rd_retries d = Z.min (Z.of_nat n) u32_max → rounds fuel n now d s = Some (t, r) → Q t r.
Proof.
  intros Hstep. induction fuel as [|fuel IH]; intros n now d s t r Hi Hp Hd Hr; [done|]. cbn [rounds].
  specialize (Hstep n now s Hi). destruct (step n now s) as [t1 [s'|r']]; [|by intros [= <- <-]].
  assert (sleep_until t1 (backoff_until t1 n d) = woken d0 n t1) as Hw.
  { unfold woken, backoff_until. by rewrite Hp, Hd, Hr. }
  rewrite Hw. destruct Hstep as [Hi' Hq]. destruct (exhausted _ d) eqn:Ex.
  { intros [= <- <-]. apply Hq. split; [|by left]. unfold exhausted, expired in Ex. unfold gives_up.
    rewrite <- Hp, <- Hd, <- Hr. apply orb_true_iff in Ex. rewrite !Z.leb_le in Ex. tauto. }
  destruct (expired _ _) eqn:Ew.
  { intros [= <- <-]. apply Hq. split; [|by right]. unfold expired in Ew. simpl in Ew. apply Z.leb_le in Ew.
    unfold gives_up. rewrite <- Hd. tauto. }
  apply IH; [done..|]. simpl. unfold u32_saturating_add. rewrite Hr. unfold u32_max. lia.
Qed.
End rounds.
End time.

(** The keys that are left when a call gives up all get the same result. *)
Lemma insert_each_lookup `{Countable K} {A} (keys : list K) (r : A) (m : gmap K A) k :
  foldl (λ m key, <[key := r]> m) m keys !! k = if decide (k ∈ keys) then Some r else m !! k.
Proof.
  revert m. induction keys as [|k' keys IH]; intros m; cbn [foldl]; [done|]. rewrite IH.
  destruct (decide (k ∈ keys)) as [Hk|Hk]; [by rewrite decide_True by (by right)|].
  destruct (decide (k = k')) as [->|Hne]; [rewrite lookup_insert_eq, decide_True by left; done|].
  rewrite lookup_insert_ne by done. rewrite decide_False; [done|]. rewrite elem_of_cons. tauto.
Qed.
