(* ===== verification/AdminLeaders.v ===== *)
(** * Admin client: calls to coordinators, the controller and partition leaders

    The retry states of [client-admin/src/retry.rs] with the loop of
    [groups.rs], the leader-routed calls of [partition_leaders.rs] and
    [offsets.rs].  The answer to a request, and the time that it takes, is a
    function of the number of the round and of what is sent, with [None] for a
    request that is never answered; the text of an error is a function of the
    error. *)

From Stdlib Require Import Ascii.
From S2P Require Import Prelude Errors Text AdminRetry.
Import AdminError.

(** ** Calls to one coordinator *)

Inductive RetryAction (T : Type) : Type :=
| Done (r : result admin_error T)
| SameCoordinator (last : result admin_error T)
| FindCoordinator (last : result admin_error T).
Arguments Done {T}.
Arguments SameCoordinator {T}.
Arguments FindCoordinator {T}.

Definition connection_failure_action {T} (error : admin_error) : RetryAction T :=
  if is_connection_failure error then FindCoordinator (Err error) else Done (Err error).

Section coordinator.
Context {T : Type} (lag : Z → Z) (attempt : nat → bool → option (Z * RetryAction T)).

(** [RetryDeadline::run]: an attempt that the deadline cuts off is final. *)
Definition run_attempt (d : RetryDeadline) (n : nat) (now : Z) (find : bool) : Z * RetryAction T :=
  let '(now, action) := bounded lag (rd_deadline d) now (attempt n find) in
  (now, default (Done (Err (call_timeout d))) action).

(** [CoordinatorRetry::next], without the wait: the result of the call, or
    whether the next attempt finds the coordinator again. *)
Definition next_find (action : RetryAction T) : bool + result admin_error T :=
  match action with
  | Done r => inr r
  | SameCoordinator _ => inl false
  | FindCoordinator _ => inl true
  end.

(** [retry_group_call!]: the first attempt finds the coordinator. *)
Definition coordinator_call (fuel : nat) (now : Z) (d : RetryDeadline) : option (Z * result admin_error T) :=
  rounds lag (λ n now find, let '(now, action) := run_attempt d n now find in (now, next_find action))
    (λ _, Err (call_timeout d)) fuel 0 now d true.
End coordinator.

(** ** Calls to the controller *)

Record ControllerRetry := mkControllerRetry {
  ct_api : string;
  ct_deadline : RetryDeadline;
  ct_attempts : Z;
}.

Definition controller_retry (api : string) (now : Z) (policy : RetryPolicy) : ControllerRetry :=
  mkControllerRetry api (start now policy) 1.

Definition timeout_error (c : ControllerRetry) (last : string) : admin_error :=
  let error := call_timeout_error (ct_api c) (ct_attempts c) last in
  Broker (ct_api c) (ke_code error) (ke_name error) (ke_message error).

Definition bounded_request {A} (c : ControllerRetry) (answer : option (result admin_error A)) :
    result admin_error A :=
  match answer with
  | Some r => r
  | None => Err (timeout_error c "the request was in flight at the deadline")
  end.

(** The state of the next attempt, from the clock before and after the wait. *)
Definition after_retriable (last : string) (checked_at woken_at : Z) (c : ControllerRetry) :
    result admin_error ControllerRetry :=
  if exhausted checked_at (ct_deadline c) then Err (timeout_error c last)
  else
    let d := count_retry (ct_deadline c) in
    let c := mkControllerRetry (ct_api c) d (ct_attempts c) in
    if expired woken_at d then Err (timeout_error c last)
    else Ok (mkControllerRetry (ct_api c) d (u32_saturating_add (ct_attempts c) 1)).

(** [refresh_controller_after_not_controller]: only a rejected authentication
    is an error. *)
Definition refresh_outcome (refreshed : result admin_error unit) : result admin_error unit :=
  match refreshed with
  | Err e => if is_authentication_failure e then Err e else Ok ()
  | Ok _ => Ok ()
  end.

Definition after_not_controller (refreshed : option (result admin_error unit)) (checked_at woken_at : Z)
    (c : ControllerRetry) : result admin_error ControllerRetry :=
  _ ← bounded_request c (refresh_outcome <$> refreshed);
  after_retriable "NOT_CONTROLLER" checked_at woken_at c.

(** ** The leader of a partition *)

Definition PartitionKey : Type := string * Z.

Definition UNKNOWN_SERVER_ERROR : Z := -1.
Definition UNKNOWN_TOPIC_OR_PARTITION : Z := 3.
Definition LEADER_NOT_AVAILABLE : Z := 5.
Definition NOT_LEADER_OR_FOLLOWER : Z := 6.
Definition BROKER_NOT_AVAILABLE : Z := 8.
Definition REPLICA_NOT_AVAILABLE : Z := 9.
Definition KAFKA_STORAGE_ERROR : Z := 56.

Record LeaderPartition := mkLeaderPartition { lp_index : Z; lp_error_code : Z; lp_leader_id : Z }.
Record LeaderTopic := mkLeaderTopic {
  lt_name : option string;
  lt_error_code : Z;
  lt_partitions : list LeaderPartition;
}.
Record LeaderBroker := mkLeaderBroker { lb_node_id : Z; lb_host : string; lb_port : Z }.
Record LeaderMetadata := mkLeaderMetadata {
  lm_topics : list LeaderTopic;
  lm_brokers : list LeaderBroker;
}.

Inductive LeaderLookup :=
| Leader (address : string)
| LookupRetry (reason : string)
| LookupFailed (error : KafkaError).

#[global] Instance LeaderLookup_eq_dec : EqDecision LeaderLookup.
Proof. solve_decision. Defined.

Definition starts_with (c : ascii) (s : string) : bool :=
  match s with String c' _ => Ascii.eqb c c' | EmptyString => false end.

Definition format_host_port (host : string) (port : Z) : string :=
  if str_contains ":"%char host && negb (starts_with "["%char host)
  then ("[" ++ host ++ "]:" ++ fmt_int port)%string
  else (host ++ ":" ++ fmt_int port)%string.

Definition find_first {A} (P : A → bool) (l : list A) : option A := snd <$> list_find (λ x, P x = true) l.

Definition metadata_error (code : Z) : KafkaError := kafka_error code None.

Section leaders.
(** [Display for AdminError], and [Debug for str]. *)
Context (display : admin_error → string) (debug : string → string).

Definition lookup_leader (topic : string) (partition : Z) (metadata : LeaderMetadata) : LeaderLookup :=
  match find_first (λ t, bool_decide (lt_name t = Some topic)) (lm_topics metadata) with
  | None => LookupRetry ("Metadata returned no entry for topic " ++ debug topic)
  | Some t =>
    let code := lt_error_code t in
    if bool_decide (code ∈ [UNKNOWN_TOPIC_OR_PARTITION; LEADER_NOT_AVAILABLE; BROKER_NOT_AVAILABLE])
    then LookupRetry (kafka_error_name code)
    else if negb (code =? 0) then LookupFailed (metadata_error code)
    else match find_first (λ p, lp_index p =? partition) (lt_partitions t) with
    | None =>
      LookupRetry ("Metadata returned no entry for partition " ++ topic ++ "-" ++ fmt_int partition)
    | Some p =>
      let code := lp_error_code p in
      if bool_decide (code ∈ [NOT_LEADER_OR_FOLLOWER; REPLICA_NOT_AVAILABLE; LEADER_NOT_AVAILABLE;
                              BROKER_NOT_AVAILABLE; KAFKA_STORAGE_ERROR])
      then LookupRetry (kafka_error_name code)
      else if negb (code =? 0) then LookupFailed (metadata_error code)
      else match find_first (λ b, lb_node_id b =? lp_leader_id p) (lm_brokers metadata) with
      | None =>
        LookupRetry ("Metadata named leader " ++ fmt_int (lp_leader_id p) ++ " for " ++ topic ++ "-" ++
                     fmt_int partition ++ " but listed no such broker")
      | Some b => Leader (format_host_port (lb_host b) (lb_port b))
      end
    end
  end.

Definition call_error (error : admin_error) : KafkaError :=
  match error with
  | Broker _ code name message => mkKafkaError code name message
  | other => kafka_error UNKNOWN_SERVER_ERROR (Some (display other))
  end.

Context {V : Type}.
Notation presult := (result KafkaError V).

Definition missing_result (api : string) (key : PartitionKey) : presult :=
  Err (kafka_error UNKNOWN_SERVER_ERROR
    (Some ("the " ++ api ++ " response did not contain a result for partition " ++ key.1 ++ "-" ++
           fmt_int key.2)%string)).

Definition complete_results (api : string) (keys : list PartitionKey) (results : gmap PartitionKey presult) :
    gmap PartitionKey presult :=
  foldl (λ m key, match m !! key with Some _ => m | None => <[key := missing_result api key]> m end)
    (filter (λ e : PartitionKey * presult, e.1 ∈ keys) results) keys.

(** ** [call_partition_leaders] *)

Context (lag : Z → Z) (api : string) (retry_code : Z → bool).
Context (metadata_at : nat → list string → option (Z * result admin_error LeaderMetadata)).
Context (call_at : nat → string → list PartitionKey →
           option (Z * result admin_error (gmap PartitionKey presult))).

Definition IN_FLIGHT_AT_DEADLINE : string := "the request was in flight at the deadline".

(** What a round has settled: the partitions that go back to the lookup, the
    results, and the last error. *)
Record Progress := mkProgress {
  pg_retry : list PartitionKey;
  pg_out : gmap PartitionKey presult;
  pg_last : string;
}.

Definition again (keys : list PartitionKey) (last : string) (p : Progress) : Progress :=
  mkProgress (pg_retry p ++ keys) (pg_out p) last.
Definition settle (key : PartitionKey) (r : presult) (p : Progress) : Progress :=
  mkProgress (pg_retry p) (<[key := r]> (pg_out p)) (pg_last p).

Definition push_key (address : string) (key : PartitionKey) (groups : gmap string (list PartitionKey)) :
    gmap string (list PartitionKey) :=
  <[address := default [] (groups !! address) ++ [key]]> groups.

Definition route_key (metadata : LeaderMetadata) (acc : gmap string (list PartitionKey) * Progress)
    (key : PartitionKey) : gmap string (list PartitionKey) * Progress :=
  match lookup_leader key.1 key.2 metadata with
  | Leader address => (push_key address key acc.1, acc.2)
  | LookupRetry reason => (acc.1, again [key] reason acc.2)
  | LookupFailed error => (acc.1, settle key (Err error) acc.2)
  end.

Definition take_result (p : Progress) (e : PartitionKey * presult) : Progress :=
  match e.2 with
  | Err error => if retry_code (ke_code error) then again [e.1] (ke_name error) p
                 else settle e.1 (Err error) p
  | Ok v => settle e.1 (Ok v) p
  end.

(** The entries of a map in the order of its keys. *)
Definition entry_le (a b : PartitionKey * presult) : Prop := tp_le a.1 b.1.
#[local] Instance entry_le_dec : RelDecision entry_le.
Proof. intros a b. unfold entry_le. apply _. Defined.
Definition sorted_results (m : gmap PartitionKey presult) : list (PartitionKey * presult) :=
  sort_by entry_le (map_to_list m).

Definition take_answer (p : Progress)
    (a : list PartitionKey * option (result admin_error (gmap PartitionKey presult))) : Progress :=
  let '(keys, answer) := a in
  match answer with
  | None => again keys IN_FLIGHT_AT_DEADLINE p
  | Some (Err error) =>
    if is_connection_failure error then again keys (display error) p
    else foldl (λ p key, settle key (Err (call_error error)) p) p keys
  | Some (Ok results) => foldl take_result p (sorted_results (complete_results api keys results))
  end.

Definition group_le (a b : string * list PartitionKey) : Prop := str_le a.1 b.1.
#[local] Instance group_le_dec : RelDecision group_le.
Proof. intros a b. unfold group_le. apply _. Defined.

(** Every leader is called at the same time, until the deadline. *)
Definition leaders_round (deadline : Z) (n : nat) (now : Z) (metadata : LeaderMetadata)
    (pending : list PartitionKey) (p : Progress) : Z * Progress :=
  let '(groups, p) := foldl (route_key metadata) (∅, p) pending in
  let answers := (λ e : string * list PartitionKey,
                    let '(t, answer) := bounded lag deadline now (call_at n e.1 e.2) in (t, (e.2, answer))) <$>
                 sort_by group_le (map_to_list groups) in
  (join_all now answers, foldl take_answer p answers.*2).

Fixpoint dedup_adjacent {A} `{!EqDecision A} (l : list A) : list A :=
  match l with
  | x :: (y :: _) as t => if decide (x = y) then dedup_adjacent t else x :: dedup_adjacent t
  | l => l
  end.

Record LeaderCall := mkLeaderCall {
  lc_pending : list PartitionKey;
  lc_out : gmap PartitionKey presult;
  lc_attempts : Z;
  lc_last : string;
}.

(** After the loop: every pending partition timed out. *)
Definition leaders_finish (s : LeaderCall) : gmap PartitionKey presult :=
  foldl (λ m key, <[key := Err (call_timeout_error api (lc_attempts s) (lc_last s))]> m)
    (lc_out s) (lc_pending s).

Definition leaders_step (deadline : Z) (n : nat) (now : Z) (s : LeaderCall) :
    Z * (LeaderCall + gmap PartitionKey presult) :=
  let pending := lc_pending s in
  let attempts := u32_saturating_add (lc_attempts s) 1 in
  match bounded lag deadline now (metadata_at n (dedup_adjacent pending.*1)) with
  | (now, None) =>
    (now, inr (leaders_finish (mkLeaderCall pending (lc_out s) attempts IN_FLIGHT_AT_DEADLINE)))
  | (now, Some metadata) =>
    let p := mkProgress [] (lc_out s) (lc_last s) in
    let '(now, p) :=
      match metadata with
      | Err error =>
        (now, if is_connection_failure error then again pending (display error) p
              else foldl (λ p key, settle key (Err (call_error error)) p) p pending)
      | Ok metadata => leaders_round deadline n now metadata pending p
      end in
    let s := mkLeaderCall (pg_retry p) (pg_out p) attempts (pg_last p) in
    match pg_retry p with
    | [] => (now, inr (leaders_finish s))
    | _ => (now, inl s)
    end
  end.

(** The clock at the end of the call, and the results. *)
Definition call_partition_leaders (fuel : nat) (now : Z) (d : RetryDeadline) (keys : list PartitionKey) :
    option (Z * gmap PartitionKey presult) :=
  match dedup_adjacent (sort_by tp_le keys) with
  | [] => Some (now, ∅)
  | pending =>
    rounds lag (leaders_step (rd_deadline d)) leaders_finish fuel 0 now d (mkLeaderCall pending ∅ 0 "none")
  end.
End leaders.
