(* ===== verification/AdminGroups.v ===== *)
(** * Admin client: batched calls to group coordinators

    [client-admin/src/group_coordinators.rs], with the error code of a failed
    call from [groups.rs].  The answers to requests, and the time they take, are
    functions of the number of the round, as in the calls to partition leaders; a
    [BTreeMap] is a [gmap] that is walked in the order of its keys. *)

From S2P Require Import Prelude Errors Text AdminRetry AdminLeaders.
Import AdminError.

Definition COORDINATOR_LOAD_IN_PROGRESS : Z := 14.
Definition COORDINATOR_NOT_AVAILABLE : Z := 15.
Definition NOT_COORDINATOR : Z := 16.
Definition MIN_BATCHED_FIND_COORDINATOR_VERSION : Z := 4.

Record CoordinatorEndpoint := mkEndpoint { ep_node_id : Z; ep_host : string; ep_port : Z }.

#[global] Instance CoordinatorEndpoint_eq_dec : EqDecision CoordinatorEndpoint.
Proof. solve_decision. Defined.

Definition endpoint_address (e : CoordinatorEndpoint) : string := format_host_port (ep_host e) (ep_port e).

(** ** What an answer says of a group *)

Inductive GroupOutcome (V : Type) : Type :=
| GroupDone (r : result KafkaError V)
| GroupRetry (reason : string)
| GroupUnmap (reason : string).
Arguments GroupDone {V}.
Arguments GroupRetry {V}.
Arguments GroupUnmap {V}.

Definition group_error_outcome {V} (code : Z) (message : option string) (retry_codes : list Z) :
    GroupOutcome V :=
  if code =? COORDINATOR_LOAD_IN_PROGRESS then GroupRetry (kafka_error_name code)
  else if bool_decide (code ∈ retry_codes) then GroupRetry (kafka_error_name code)
  else if (code =? COORDINATOR_NOT_AVAILABLE) || (code =? NOT_COORDINATOR)
  then GroupUnmap (kafka_error_name code)
  else GroupDone (Err (kafka_error code message)).

(** ** The lookup of coordinators *)

Inductive CoordinatorLookup :=
| CoordFound (endpoint : CoordinatorEndpoint)
| CoordRetry (reason : string)
| CoordFailed (error : KafkaError).

Definition classify_coordinator (error_code : Z) (error_message : option string)
    (endpoint : CoordinatorEndpoint) : CoordinatorLookup :=
  if error_code =? 0 then CoordFound endpoint
  else if (error_code =? COORDINATOR_NOT_AVAILABLE) || (error_code =? COORDINATOR_LOAD_IN_PROGRESS)
  then CoordRetry (kafka_error_name error_code)
  else CoordFailed (kafka_error error_code error_message).

Record FindEntry := mkFindEntry {
  fe_key : string;
  fe_endpoint : CoordinatorEndpoint;
  fe_error_code : Z;
  fe_error_message : option string;
}.

(** [FindCoordinatorResponse]: the fields of v0 to v3, and the entries of v4. *)
Record FindAnswer := mkFindAnswer {
  fa_endpoint : CoordinatorEndpoint;
  fa_error_code : Z;
  fa_error_message : option string;
  fa_coordinators : list FindEntry;
}.

Section lookups.
Context (display : admin_error → string) (debug : string → string).

Fixpoint take_entries (entries : gmap string CoordinatorLookup) (keys : list string) :
    list (string * CoordinatorLookup) :=
  match keys with
  | [] => []
  | key :: keys =>
    (key, default (CoordRetry ("FindCoordinator returned no entry for group " ++ debug key)) (entries !! key))
      :: take_entries (delete key entries) keys
  end.

Definition coordinator_lookups (keys : list string) (response : FindAnswer) :
    list (string * CoordinatorLookup) :=
  let batched :=
    let entries :=
      foldl (λ m c, <[fe_key c := classify_coordinator (fe_error_code c) (fe_error_message c) (fe_endpoint c)]> m)
        ∅ (fa_coordinators response) in
    take_entries entries keys in
  match fa_coordinators response, keys with
  | [], [key] =>
    [(key, classify_coordinator (fa_error_code response) (fa_error_message response) (fa_endpoint response))]
  | _, _ => batched
  end.

(** [list_groups_kafka_error] *)
Definition UNSUPPORTED_SASL_MECHANISM : Z := 33.
Definition ILLEGAL_SASL_STATE : Z := 34.
Definition UNSUPPORTED_VERSION : Z := 35.
Definition INVALID_CONFIG : Z := 40.
Definition SASL_AUTHENTICATION_FAILED : Z := 58.
Definition NETWORK_EXCEPTION : Z := 13.

Definition list_groups_kafka_error (error : admin_error) : KafkaError :=
  let '(code, message) :=
    match error with
    | Broker _ code _ message => (code, message)
    | Transport (ClientError.IncompatibleVersion _ _ _ _ _) => (UNSUPPORTED_VERSION, Some (display error))
    | Transport (ClientError.Timeout _) => (REQUEST_TIMED_OUT, Some (display error))
    | Transport (ClientError.Connect _ _ | ClientError.Disconnected | ClientError.Io _) =>
      (NETWORK_EXCEPTION, Some (display error))
    | Transport (ClientError.Authentication _ source) =>
      (match source with
       | ClientError.AuthTls _ => INVALID_CONFIG
       | ClientError.AuthSasl (ClientError.UnsupportedMechanism _) => UNSUPPORTED_SASL_MECHANISM
       | ClientError.AuthSasl (ClientError.IllegalState _) => ILLEGAL_SASL_STATE
       | ClientError.AuthSasl (ClientError.Failed _) => SASL_AUTHENTICATION_FAILED
       end, Some (display error))
    | _ => (UNKNOWN_SERVER_ERROR, Some (display error))
    end in
  kafka_error code message.

Definition failed_lookups (keys : list string) (error : admin_error) : list (string * CoordinatorLookup) :=
  let lookup := if is_connection_failure error then CoordRetry (display error)
                else CoordFailed (list_groups_kafka_error error) in
  (λ key, (key, lookup)) <$> keys.

(** The broker of the lookups: the versions of [FindCoordinator] that it
    advertised, its answer to a request with a v4 floor, and to a request for
    one key. *)
Record FindBroker := mkFindBroker {
  fb_advertised : option (Z * Z);
  fb_batched : list string → result admin_error FindAnswer;
  fb_single : string → result admin_error FindAnswer;
}.

Definition find_group_coordinators (b : FindBroker) (keys : list string) : list (string * CoordinatorLookup) :=
  let one_by_one :=
    mjoin ((λ key, match fb_single b key with
                   | Ok response => coordinator_lookups [key] response
                   | Err error => failed_lookups [key] error
                   end) <$> keys) in
  let batched := match fb_advertised b with
                 | Some (_, max) => MIN_BATCHED_FIND_COORDINATOR_VERSION <=? max
                 | None => false
                 end in
  if batched then
    match fb_batched b keys with
    | Ok response => coordinator_lookups keys response
    | Err (Transport (ClientError.IncompatibleVersion _ _ _ _ _)) => one_by_one
    | Err error => failed_lookups keys error
    end
  else one_by_one.

(** ** [call_group_coordinators] *)

Context {V : Type}.
Notation gresult := (result KafkaError V).
Context (lag : Z → Z) (api : string).
(** The broker that answers the lookup of a round and the time it takes, [None]
    when the lookup is never answered; and the answer of a coordinator. *)
Context (broker_at : nat → option (Z * FindBroker)).
Context (call_at : nat → CoordinatorEndpoint → list string →
           option (Z * result admin_error (gmap string (GroupOutcome V)))).

Record GroupCall := mkGroupCall {
  gc_unmapped : gset string;
  gc_mapped : gmap string CoordinatorEndpoint;
  gc_out : gmap string gresult;
  gc_last : string;
}.

Definition map_group (g : string) (e : CoordinatorEndpoint) (s : GroupCall) : GroupCall :=
  mkGroupCall (gc_unmapped s) (<[g := e]> (gc_mapped s)) (gc_out s) (gc_last s).
Definition insert_unmapped (g : string) (s : GroupCall) : GroupCall :=
  mkGroupCall ({[g]} ∪ gc_unmapped s) (gc_mapped s) (gc_out s) (gc_last s).
Definition insert_out (g : string) (r : gresult) (s : GroupCall) : GroupCall :=
  mkGroupCall (gc_unmapped s) (gc_mapped s) (<[g := r]> (gc_out s)) (gc_last s).
Definition remove_mapped (g : string) (s : GroupCall) : GroupCall :=
  mkGroupCall (gc_unmapped s) (delete g (gc_mapped s)) (gc_out s) (gc_last s).
Definition set_last (last : string) (s : GroupCall) : GroupCall :=
  mkGroupCall (gc_unmapped s) (gc_mapped s) (gc_out s) last.

Definition sorted_groups (s : gset string) : list string := sort_by str_le (elements s).

Definition take_lookup (s : GroupCall) (l : string * CoordinatorLookup) : GroupCall :=
  match l.2 with
  | CoordFound coordinator => map_group l.1 coordinator s
  | CoordRetry reason => insert_unmapped l.1 (set_last reason s)
  | CoordFailed error => insert_out l.1 (Err error) s
  end.

(** The lookup of a round: [None] when the deadline cuts it off. *)
Definition lookup_unmapped (deadline : Z) (n : nat) (now : Z) (s : GroupCall) : Z * option GroupCall :=
  if decide (gc_unmapped s = ∅) then (now, Some s)
  else
    let keys := sorted_groups (gc_unmapped s) in
    match bounded lag deadline now (broker_at n) with
    | (now, None) => (now, None)
    | (now, Some b) =>
      (now, Some (foldl take_lookup (mkGroupCall ∅ (gc_mapped s) (gc_out s) (gc_last s))
                    (find_group_coordinators b keys)))
    end.

Definition push_group (m : gmap string (CoordinatorEndpoint * list string))
    (e : string * CoordinatorEndpoint) : gmap string (CoordinatorEndpoint * list string) :=
  let '(coordinator, keys) := default (e.2, []) (m !! endpoint_address e.2) in
  <[endpoint_address e.2 := (coordinator, keys ++ [e.1])]> m.

(** The entries of a [BTreeMap] with string keys, in order. *)
Definition key_le {A} (a b : string * A) : Prop := str_le a.1 b.1.
#[local] Instance key_le_dec {A} : RelDecision (@key_le A).
Proof. intros a b. unfold key_le. apply _. Defined.
Definition sorted_entries {A} (m : gmap string A) : list (string * A) := sort_by key_le (map_to_list m).

Definition by_coordinator (mapped : gmap string CoordinatorEndpoint) :
    gmap string (CoordinatorEndpoint * list string) :=
  foldl push_group ∅ (sorted_entries mapped).

Definition take_group (outcomes : gmap string (GroupOutcome V)) (s : GroupCall) (key : string) : GroupCall :=
  match outcomes !! key with
  | Some (GroupDone r) => insert_out key r (remove_mapped key s)
  | Some (GroupRetry reason) => set_last reason s
  | Some (GroupUnmap reason) => insert_unmapped key (remove_mapped key (set_last reason s))
  | None => set_last ("the " ++ api ++ " response did not contain group " ++ debug key) s
  end.

Definition take_group_answer (s : GroupCall)
    (a : list string * option (result admin_error (gmap string (GroupOutcome V)))) : GroupCall :=
  let '(keys, answer) := a in
  match answer with
  | None => set_last IN_FLIGHT_AT_DEADLINE s
  | Some (Err error) =>
    if is_connection_failure error
    then foldl (λ s key, insert_unmapped key (remove_mapped key s)) (set_last (display error) s) keys
    else foldl (λ s key, insert_out key (Err (list_groups_kafka_error error)) (remove_mapped key s)) s keys
  | Some (Ok outcomes) => foldl (take_group outcomes) s keys
  end.

(** Every coordinator is called at the same time, until the deadline. *)
Definition groups_round (deadline : Z) (n : nat) (now : Z) (s : GroupCall) : Z * GroupCall :=
  let answers :=
    (λ e : string * (CoordinatorEndpoint * list string),
       let '(t, answer) := bounded lag deadline now (call_at n e.2.1 e.2.2) in (t, (e.2.2, answer))) <$>
    sorted_entries (by_coordinator (gc_mapped s)) in
  (join_all now answers, foldl take_group_answer s answers.*2).

(** After the loop, with the number of attempts. *)
Definition groups_finish (a : Z * GroupCall) : gmap string gresult :=
  let '(attempts, s) := a in
  foldl (λ m key, <[key := Err (call_timeout_error api attempts (gc_last s))]> m) (gc_out s)
    ((sorted_entries (gc_mapped s)).*1 ++ sorted_groups (gc_unmapped s)).

Definition nothing_left (s : GroupCall) : bool :=
  bool_decide (gc_unmapped s = ∅) && bool_decide (gc_mapped s = ∅).

Definition groups_step (deadline : Z) (n : nat) (now : Z) (a : Z * GroupCall) :
    Z * ((Z * GroupCall) + gmap string gresult) :=
  let '(attempts, s) := a in
  let attempts := u32_saturating_add attempts 1 in
  match lookup_unmapped deadline n now s with
  | (now, None) => (now, inr (groups_finish (attempts, set_last IN_FLIGHT_AT_DEADLINE s)))
  | (now, Some s) =>
    let '(now, s) := groups_round deadline n now s in
    (now, if nothing_left s then inr (groups_finish (attempts, s)) else inl (attempts, s))
  end.

(** The clock at the end of the call, and the results. *)
Definition call_group_coordinators (fuel : nat) (now : Z) (d : RetryDeadline) (groups : list string) :
    option (Z * gmap string gresult) :=
  let s := mkGroupCall (list_to_set groups) ∅ ∅ "none" in
  if nothing_left s then Some (now, groups_finish (0, s))
  else rounds lag (groups_step (rd_deadline d)) groups_finish fuel 0 now d (0, s).
End lookups.
