(* ===== verification/AdminTheorems.v ===== *)
(** * Admin client: theorems

    What the routed calls return: one result for each key that was asked, the
    one that the brokers gave in some round or a timeout at the deadline, within
    the rounds that the deadline allows. *)

From S2P Require Import Prelude Errors Text AdminRetry AdminLeaders.
Import AdminError.

Section leaders.
Context (display : admin_error → string) (debug : string → string).
Context {V : Type}.
Notation presult := (result KafkaError V).
Context (lag : Z → Z) (api : string) (retry_code : Z → bool).
Context (metadata_at : nat → list string → option (Z * result admin_error LeaderMetadata)).
Context (call_at : nat → string → list PartitionKey →
           option (Z * result admin_error (gmap PartitionKey presult))).
(** When the call started, and its deadline. *)
Context (started : Z) (d : RetryDeadline).
Notation deadline := (rd_deadline d).

(** ** What the answers of a round say of one partition *)

Inductive key_outcome := Final (r : presult) | Again.

Definition is_again (o : key_outcome) : Prop := match o with Again => True | Final _ => False end.
#[local] Instance is_again_dec o : Decision (is_again o).
Proof. destruct o; simpl; apply _. Defined.

Definition result_outcome (r : presult) : key_outcome :=
  match r with
  | Err e => if retry_code (ke_code e) then Again else Final (Err e)
  | Ok v => Final (Ok v)
  end.

Definition answer_outcome (answer : option (result admin_error (gmap PartitionKey presult)))
    (k : PartitionKey) : key_outcome :=
  match answer with
  | None => Again
  | Some (Err e) => if is_connection_failure e then Again else Final (Err (call_error display e))
  | Some (Ok results) => result_outcome (default (missing_result api k) (results !! k))
  end.

(** The partitions of a round that the metadata puts at one address. *)
Definition led_by (metadata : LeaderMetadata) (pending : list PartitionKey) (address : string) :
    list PartitionKey :=
  filter (λ k, lookup_leader debug k.1 k.2 metadata = Leader address) pending.

(** The answer of the leader at an address that is called at [now], and when the
    call is over. *)
Definition leader_answer (n : nat) (now : Z) (metadata : LeaderMetadata) (pending : list PartitionKey)
    (address : string) : Z * option (result admin_error (gmap PartitionKey presult)) :=
  bounded lag deadline now (call_at n address (led_by metadata pending address)).

Definition round_outcome (n : nat) (now : Z) (metadata : LeaderMetadata) (pending : list PartitionKey)
    (k : PartitionKey) : key_outcome :=
  match lookup_leader debug k.1 k.2 metadata with
  | Leader address => answer_outcome (leader_answer n now metadata pending address).2 k
  | LookupRetry _ => Again
  | LookupFailed e => Final (Err e)
  end.

(** A round is over when the call of every partition is. *)
Definition round_over (n : nat) (now : Z) (metadata : LeaderMetadata) (pending : list PartitionKey) : Z :=
  foldl Z.max now (omap (λ k : PartitionKey, match lookup_leader debug k.1 k.2 metadata with
    | Leader address => Some (leader_answer n now metadata pending address).1
    | _ => None
    end) pending).

Definition metadata_answer (n : nat) (now : Z) (pending : list PartitionKey) :
    Z * option (result admin_error LeaderMetadata) :=
  bounded lag deadline now (metadata_at n (dedup_adjacent pending.*1)).

Definition step_outcome (n : nat) (now : Z) (pending : list PartitionKey) (k : PartitionKey) : key_outcome :=
  match metadata_answer n now pending with
  | (_, None) => Again
  | (_, Some (Err e)) => if is_connection_failure e then Again else Final (Err (call_error display e))
  | (t, Some (Ok metadata)) => round_outcome n t metadata pending k
  end.

Definition step_over (n : nat) (now : Z) (pending : list PartitionKey) : Z :=
  match metadata_answer n now pending with
  | (t, Some (Ok metadata)) => round_over n t metadata pending
  | (t, _) => t
  end.

(** ** The loops do what the answers say *)

Notation Progress := (@Progress V).

Record handles (ks : list PartitionKey) (oc : PartitionKey → key_outcome) (p p' : Progress) : Prop := {
  handles_retry : pg_retry p' ≡ₚ pg_retry p ++ filter (λ k, is_again (oc k)) ks;
  handles_final k r : k ∈ ks → oc k = Final r → pg_out p' !! k = Some r;
  handles_other k : k ∉ ks ∨ oc k = Again → pg_out p' !! k = pg_out p !! k;
}.

Lemma handles_nil oc p : handles [] oc p p.
Proof. split; [by rewrite app_nil_r|set_solver|done]. Qed.

Lemma handles_app ks1 ks2 oc p p1 p2 :
  handles ks1 oc p p1 → handles ks2 oc p1 p2 → (∀ k, k ∈ ks1 → k ∉ ks2) → handles (ks1 ++ ks2) oc p p2.
Proof.
  intros [R1 F1 O1] [R2 F2 O2] Hd. split.
  - by rewrite R2, R1, filter_app, (assoc_L (++)).
  - intros k r [Hk|Hk]%elem_of_app Ho; [|by apply F2]. rewrite O2 by (left; auto). by apply F1.
  - intros k Hk. rewrite elem_of_app in Hk. rewrite O2, O1 by tauto. done.
Qed.

Lemma handles_perm ks ks' oc p p' : ks ≡ₚ ks' → handles ks oc p p' → handles ks' oc p p'.
Proof.
  intros Hp [R F O]. split; [by rewrite R, Hp|..].
  - intros k r. rewrite <- Hp. apply F.
  - intros k. rewrite <- Hp. apply O.
Qed.

Lemma handles_ext ks oc oc' p p' :
  (∀ k, k ∈ ks → oc k = oc' k) → handles ks oc p p' → handles ks oc' p p'.
Proof.
  intros He [R F O]. split.
  - rewrite R. f_equiv. erewrite filter_ext_in; [done|]. intros k Hk. simpl. by rewrite He.
  - intros k r Hk Ho. apply F; [done|]. by rewrite He.
  - intros k Hk. apply O. destruct (decide (k ∈ ks)) as [Hin|]; [|by left].
    destruct Hk as [?|Hk]; [done|]. right. by rewrite He.
Qed.

Lemma handles_again ks oc last p : (∀ k, k ∈ ks → oc k = Again) → handles ks oc p (again ks last p).
Proof.
  intros Ha. split; simpl; [|intros k r Hk; by rewrite (Ha k Hk)|done].
  rewrite filter_all; [done|]. intros k Hk. by rewrite (Ha k Hk).
Qed.

Lemma handles_settle k r oc p : oc k = Final r → handles [k] oc p (settle k r p).
Proof.
  intros Ho. split; simpl.
  - rewrite filter_none; [by rewrite app_nil_r|]. intros k' ->%list_elem_of_singleton.
    rewrite Ho. by intros [].
  - intros k' r' ->%list_elem_of_singleton Hr. rewrite lookup_insert_eq. congruence.
  - intros k' Hk. apply lookup_insert_ne. intros <-. destruct Hk as [Hk|Hk]; [set_solver|congruence].
Qed.

(** A loop that handles each of its keys handles them all. *)
Lemma handles_foldl {A} (f : Progress → A → Progress) (key : A → PartitionKey) oc l p :
  NoDup (key <$> l) → (∀ x q, x ∈ l → handles [key x] oc q (f q x)) →
  handles (key <$> l) oc p (foldl f p l).
Proof.
  revert p. induction l as [|x l IH]; intros p Hn Hf; simpl; [apply handles_nil|].
  apply NoDup_cons in Hn as [Hx Hn].
  apply (handles_app [key x] (key <$> l) oc p (f p x)).
  - apply Hf. left.
  - apply IH; [done|]. intros y q Hy. apply Hf. by right.
  - intros k ->%list_elem_of_singleton. done.
Qed.

Lemma handles_settle_all keys r oc p :
  NoDup keys → (∀ k, k ∈ keys → oc k = Final r) →
  handles keys oc p (foldl (λ p key, settle key r p) p keys).
Proof.
  intros Hn Ho. rewrite <- (list_fmap_id keys) at 1. apply (handles_foldl _ id).
  - by rewrite list_fmap_id.
  - intros k q Hk. by apply handles_settle, Ho.
Qed.

Lemma complete_results_lookup (keys : list PartitionKey) (results : gmap PartitionKey presult)
    (k : PartitionKey) :
  complete_results api keys results !! k =
  if decide (k ∈ keys) then Some (default (missing_result api k) (results !! k)) else None.
Proof.
  unfold complete_results.
  assert (∀ (ks : list PartitionKey) (m : gmap PartitionKey presult), foldl (λ m key, match m !! key with Some _ => m
      | None => <[key := missing_result api key]> m end) m ks !! k =
    match m !! k with Some r => Some r
    | None => if decide (k ∈ ks) then Some (missing_result api k) else None end) as Hf.
  { induction ks as [|key ks IH]; intros m; simpl; [destruct (m !! k); done|].
    rewrite IH. destruct (m !! key) eqn:E.
    - destruct (m !! k) eqn:E2; [done|]. destruct (decide (k ∈ ks)), (decide (k ∈ key :: ks)); set_solver.
    - destruct (decide (key = k)) as [->|Hne].
      + rewrite lookup_insert_eq, E, decide_True by set_solver. done.
      + rewrite lookup_insert_ne by done. destruct (m !! k); [done|].
        destruct (decide (k ∈ ks)), (decide (k ∈ key :: ks)); set_solver. }
  rewrite Hf. rewrite map_lookup_filter. destruct (results !! k) as [r|]; simpl.
  - destruct (decide (k ∈ keys)); [by rewrite option_guard_True|by rewrite option_guard_False].
  - done.
Qed.

Lemma sorted_results_keys (keys : list PartitionKey) (results : gmap PartitionKey presult) :
  NoDup keys → (sorted_results (complete_results api keys results)).*1 ≡ₚ keys.
Proof.
  intros Hn. unfold sorted_results. rewrite sort_by_perm.
  apply NoDup_Permutation; [apply NoDup_fst_map_to_list|done|]. intros k.
  rewrite list_elem_of_fmap. split.
  - intros ([k' r] & -> & Hin%elem_of_map_to_list). rewrite complete_results_lookup in Hin.
    by case_decide.
  - intros Hk. exists (k, default (missing_result api k) (results !! k)). split; [done|].
    apply elem_of_map_to_list. rewrite complete_results_lookup. by rewrite decide_True.
Qed.

Lemma take_answer_handles (keys : list PartitionKey) answer p oc :
  NoDup keys → (∀ k, k ∈ keys → oc k = answer_outcome answer k) →
  handles keys oc p (take_answer display api retry_code p (keys, answer)).
Proof.
  intros Hn Ho. unfold take_answer. destruct answer as [[results|e]|].
  - apply (handles_perm ((sorted_results (complete_results api keys results)).*1)).
    { by apply sorted_results_keys. }
    apply handles_foldl; [by rewrite sorted_results_keys|].
    intros [k r] q Hin. unfold sorted_results in Hin. rewrite elem_of_sort_by in Hin.
    apply elem_of_map_to_list in Hin. rewrite complete_results_lookup in Hin.
    case_decide as Hk; [|done]. injection Hin as <-. simpl.
    specialize (Ho k Hk). simpl in Ho. unfold take_result. simpl. unfold result_outcome in Ho.
    destruct (default _ _) as [v|e]; [by apply handles_settle|].
    destruct (retry_code (ke_code e)); [|by apply handles_settle].
    apply handles_again. intros k' ->%list_elem_of_singleton. done.
  - simpl in Ho. destruct (is_connection_failure e); [by apply handles_again|]. by apply handles_settle_all.
  - by apply handles_again.
Qed.

(** ** One round *)

Definition routed (metadata : LeaderMetadata) (k : PartitionKey) : Prop :=
  match lookup_leader debug k.1 k.2 metadata with Leader _ => True | _ => False end.
#[local] Instance routed_dec metadata k : Decision (routed metadata k).
Proof. unfold routed. destruct (lookup_leader _ _ _ _); apply _. Defined.

Definition some_list {A} (l : list A) : option (list A) := match l with [] => None | _ => Some l end.

Lemma default_some_list {A} (l : list A) : default [] (some_list l) = l.
Proof. by destruct l. Qed.
Lemma some_list_snoc {A} (l : list A) x : some_list (l ++ [x]) = Some (l ++ [x]).
Proof. by destruct l. Qed.

Lemma route_keys metadata pending oc p :
  NoDup pending →
  (∀ k, k ∈ pending → match lookup_leader debug k.1 k.2 metadata with
     | Leader _ => True | LookupRetry _ => oc k = Again | LookupFailed e => oc k = Final (Err e) end) →
  ∃ groups p', foldl (route_key debug metadata) (∅, p) pending = (groups, p') ∧
    (∀ a, groups !! a = some_list (led_by metadata pending a)) ∧
    handles (filter (λ k, ¬ routed metadata k) pending) oc p p'.
Proof.
  induction pending as [|k ks IH] using rev_ind; intros Hn Hoc.
  { exists ∅, p. split; [done|]. split; [done|apply handles_nil]. }
  apply NoDup_app in Hn as (Hn & Hd & _).
  destruct IH as (groups & p' & Ef & Hg & Hh); [done|intros k' Hk'; apply Hoc; set_solver|].
  rewrite foldl_app, Ef. simpl. specialize (Hoc k ltac:(set_solver)). unfold route_key.
  unfold led_by. setoid_rewrite filter_app. fold (led_by metadata ks).
  destruct (lookup_leader debug k.1 k.2 metadata) as [address|reason|e] eqn:El; simpl.
  - exists (push_key address k groups), p'. split; [done|]. split.
    + intros a. unfold push_key. destruct (decide (a = address)) as [->|Hne].
      * rewrite lookup_insert_eq, Hg, filter_cons_True, filter_nil by done.
        by rewrite default_some_list, some_list_snoc.
      * rewrite lookup_insert_ne, Hg, filter_cons_False, filter_nil, app_nil_r by congruence. done.
    + rewrite filter_cons_False, filter_nil, app_nil_r; [done|]. unfold routed. rewrite El. tauto.
  - exists groups, (again [k] reason p'). split; [done|]. split.
    + intros a. by rewrite filter_cons_False, filter_nil, app_nil_r by congruence.
    + rewrite filter_cons_True, filter_nil; [|unfold routed; rewrite El; by intros []].
      apply handles_app with p'; [done| |intros k' [_ Hk']%list_elem_of_filter; by apply Hd].
      apply handles_again. by intros k' ->%list_elem_of_singleton.
  - exists groups, (settle k (Err e) p'). split; [done|]. split.
    + intros a. by rewrite filter_cons_False, filter_nil, app_nil_r by congruence.
    + rewrite filter_cons_True, filter_nil; [|unfold routed; rewrite El; by intros []].
      apply handles_app with p'; [done|by apply handles_settle|].
      intros k' [_ Hk']%list_elem_of_filter. by apply Hd.
Qed.

Lemma led_by_NoDup metadata pending (L : list (string * list PartitionKey)) :
  NoDup pending → NoDup L.*1 → (∀ a ks, (a, ks) ∈ L → ks = led_by metadata pending a) →
  NoDup (concat L.*2).
Proof.
  intros Hn. induction L as [|[a ks] L IH]; intros HL Hks; [constructor|].
  apply NoDup_cons in HL as [Ha HL]. cbn [fmap list_fmap snd concat]. apply NoDup_app.
  split; [rewrite (Hks a ks) by left; by apply NoDup_filter|]. split.
  - intros k Hk (l & Hl & Hkl)%elem_of_concat.
    apply list_elem_of_fmap in Hl as ([a' ks'] & -> & Hin). simpl in Hkl.
    rewrite (Hks a ks) in Hk by left. rewrite (Hks a' ks') in Hkl by (by right).
    apply list_elem_of_filter in Hk as [E1 _]. apply list_elem_of_filter in Hkl as [E2 _].
    rewrite E1 in E2. injection E2 as <-. apply Ha, list_elem_of_fmap. by exists (a, ks').
  - apply IH; [done|]. intros a' ks' Hin. apply Hks. by right.
Qed.

(** The calls of a round, with the time when each is over. *)
Definition called_leaders (n : nat) (now : Z) (L : list (string * list PartitionKey)) :
    list (Z * (list PartitionKey * option (result admin_error (gmap PartitionKey presult)))) :=
  (λ e : string * list PartitionKey,
     let '(t, answer) := bounded lag deadline now (call_at n e.1 e.2) in (t, (e.2, answer))) <$> L.

Lemma called_leaders_cons n now a ks L :
  called_leaders n now ((a, ks) :: L) =
  ((bounded lag deadline now (call_at n a ks)).1, (ks, (bounded lag deadline now (call_at n a ks)).2))
    :: called_leaders n now L.
Proof. unfold called_leaders. rewrite fmap_cons. simpl. by destruct (bounded _ _ _ _). Qed.

Lemma take_answers metadata pending n now oc (L : list (string * list PartitionKey)) p :
  NoDup pending → NoDup L.*1 →
  (∀ a ks, (a, ks) ∈ L → ks = led_by metadata pending a) →
  (∀ k, k ∈ pending → oc k = round_outcome n now metadata pending k) →
  handles (concat L.*2) oc p
    (foldl (take_answer display api retry_code) p (called_leaders n now L).*2).
Proof.
  intros Hn. revert p. induction L as [|[a ks] L IH]; intros p HL Hks Hoc; [apply handles_nil|].
  apply NoDup_cons in HL as [Ha HL]. rewrite called_leaders_cons. cbn [fmap list_fmap fst snd foldl concat].
  assert (ks = led_by metadata pending a) as -> by (apply Hks; left).
  fold (leader_answer n now metadata pending a).
  apply handles_app with (take_answer display api retry_code p
    (led_by metadata pending a, (leader_answer n now metadata pending a).2)).
  - apply take_answer_handles; [by apply NoDup_filter|]. intros k [El Hk]%list_elem_of_filter.
    rewrite Hoc by done. unfold round_outcome. by rewrite El.
  - apply IH; [done| |done]. intros a' ks' Hin. apply Hks. by right.
  - intros k [El _]%list_elem_of_filter (l & Hl & Hk)%elem_of_concat.
    apply list_elem_of_fmap in Hl as ([a' ks'] & -> & Hin). simpl in Hk.
    rewrite (Hks a' ks') in Hk by (by right). apply list_elem_of_filter in Hk as [El' _].
    rewrite El in El'. injection El' as <-. apply Ha. apply list_elem_of_fmap. by exists (a, ks').
Qed.

Lemma filter_split {A} (P : A → Prop) `{!∀ x, Decision (P x)} (l : list A) :
  filter P l ++ filter (λ x, ¬ P x) l ≡ₚ l.
Proof.
  induction l as [|x l IH]; [done|]. rewrite !filter_cons.
  destruct (decide (P x)), (decide (¬ P x)); try tauto; [by rewrite <- app_comm_cons, IH|].
  by rewrite <- Permutation_middle, IH.
Qed.

Lemma join_all_over n now metadata pending (L : list (string * list PartitionKey)) :
  (∀ a ks, (a, ks) ∈ L ↔ ks = led_by metadata pending a ∧ ks ≠ []) →
  join_all now (called_leaders n now L) = round_over n now metadata pending.
Proof.
  intros HL. unfold join_all, round_over. apply foldl_max_ext. intros t. rewrite list_elem_of_omap. unfold called_leaders.
  rewrite <- list_fmap_compose, list_elem_of_fmap. split.
  - intros ([a ks] & -> & [-> Hne]%HL). destruct (led_by metadata pending a) as [|k l] eqn:El; [done|].
    assert (k ∈ led_by metadata pending a) as Hin by (rewrite El; left).
    apply list_elem_of_filter in Hin as [Ek Hk].
    exists k. split; [done|]. rewrite Ek. f_equal. simpl. unfold leader_answer. rewrite El.
    by destruct (bounded _ _ _ _).
  - intros (k & Hk & Et). destruct (lookup_leader debug k.1 k.2 metadata) as [a| |] eqn:Ek; try done.
    injection Et as <-. exists (a, led_by metadata pending a). split.
    + simpl. unfold leader_answer. by destruct (bounded _ _ _ _).
    + apply HL. split; [done|]. intros E. assert (k ∈ led_by metadata pending a) as Hin by (by apply list_elem_of_filter).
      rewrite E in Hin. by apply elem_of_nil in Hin.
Qed.

Lemma leaders_round_handles n now metadata pending p :
  NoDup pending →
  ∃ p', leaders_round display debug lag api retry_code call_at deadline n now metadata pending p =
          (round_over n now metadata pending, p') ∧
        handles pending (round_outcome n now metadata pending) p p'.
Proof.
  intros Hn. unfold leaders_round.
  destruct (route_keys metadata pending (round_outcome n now metadata pending) p Hn)
    as (groups & p1 & Ef & Hg & Hh).
  { intros k Hk. unfold round_outcome. by destruct (lookup_leader _ _ _ _). }
  match goal with |- context [foldl ?f (∅, p) pending] => change f with (route_key (V := V) debug metadata) end.
  rewrite Ef. set (L := sort_by _ (map_to_list groups)).
  assert (∀ a ks, (a, ks) ∈ L ↔ groups !! a = Some ks) as HL.
  { intros a ks. unfold L. rewrite elem_of_sort_by. apply elem_of_map_to_list. }
  fold (called_leaders n now L).
  assert (handles (concat L.*2) (round_outcome n now metadata pending) p1
    (foldl (take_answer display api retry_code) p1 (called_leaders n now L).*2)) as Hh2.
  { apply (take_answers metadata pending); try done.
    - unfold L. rewrite sort_by_perm. apply NoDup_fst_map_to_list.
    - intros a ks Hin%HL. rewrite Hg in Hin. unfold some_list in Hin.
      destruct (led_by metadata pending a); congruence. }
  assert (concat L.*2 ≡ₚ filter (routed metadata) pending) as Hperm.
  { apply NoDup_Permutation.
    - apply (led_by_NoDup metadata pending); [done| |].
      + unfold L. rewrite sort_by_perm. apply NoDup_fst_map_to_list.
      + intros a ks Hin%HL. rewrite Hg in Hin. unfold some_list in Hin.
        destruct (led_by metadata pending a); congruence.
    - by apply NoDup_filter.
    - intros k. rewrite elem_of_concat, list_elem_of_filter. split.
      + intros (l & Hl & Hk). apply list_elem_of_fmap in Hl as ([a ks] & -> & Hin%HL).
        rewrite Hg in Hin. simpl in Hk. unfold some_list in Hin.
        destruct (led_by metadata pending a) as [|x l] eqn:El; simplify_eq. rewrite <- El in Hk.
        apply list_elem_of_filter in Hk as [Hlk Hk]. split; [|done]. unfold routed. by rewrite Hlk.
      + intros [Hr Hk]. unfold routed in Hr.
        destruct (lookup_leader debug k.1 k.2 metadata) as [a| |] eqn:Elk; try done.
        assert (k ∈ led_by metadata pending a) as Hin by (by apply list_elem_of_filter).
        exists (led_by metadata pending a). split; [|done]. apply list_elem_of_fmap.
        exists (a, led_by metadata pending a). split; [done|]. apply HL. rewrite Hg. unfold some_list.
        destruct (led_by metadata pending a); [by apply elem_of_nil in Hin|done]. }
  eexists. split.
  { f_equal. apply join_all_over. intros a ks. rewrite HL, Hg. unfold some_list.
    destruct (led_by metadata pending a); naive_solver. }
  eapply (handles_perm (filter (λ k, ¬ routed metadata k) pending ++ concat L.*2)).
  - rewrite Hperm, (comm (++)). apply filter_split.
  - eapply handles_app; [exact Hh|exact Hh2|].
    intros k [Hr _]%list_elem_of_filter. rewrite Hperm, list_elem_of_filter. tauto.
Qed.

(** ** The rounds of a call *)

Notation step := (leaders_step display debug lag api retry_code metadata_at call_at deadline).
Notation finish := (leaders_finish api).

(** The partitions that a call asks for in a round that starts at [now]: all of
    them in the first, and then those that the answers of the round before sent
    back. *)
Inductive asked (keys : list PartitionKey) : nat → Z → list PartitionKey → Prop :=
| asked_first ks : NoDup ks → (∀ k, k ∈ ks ↔ k ∈ keys) → asked keys 0 started ks
| asked_next n now ks ks' :
    asked keys n now ks → ks' ≡ₚ filter (λ k, is_again (step_outcome n now ks k)) ks →
    asked keys (S n) (woken lag d n (step_over n now ks)) ks'.

Lemma asked_NoDup keys n now ks : asked keys n now ks → NoDup ks.
Proof. induction 1 as [|n now ks ks' _ IH ->]; [done|by apply NoDup_filter]. Qed.

(** A result, and where it comes from: the answers of a round that asked for
    the partition, or the end of the call with the partition still sent back. *)
Inductive justified (keys : list PartitionKey) (k : PartitionKey) : presult → Prop :=
| answered n now ks r : asked keys n now ks → k ∈ ks → step_outcome n now ks k = Final r → justified keys k r
| timed_out n now ks last :
    asked keys n now ks → k ∈ ks → step_outcome n now ks k = Again →
    (metadata_answer n now ks).2 = None ∨ gives_up lag d n (step_over n now ks) →
    justified keys k (Err (call_timeout_error api (Z.min (Z.of_nat (S n)) u32_max) last)).

Lemma finish_lookup (s : LeaderCall (V := V)) k :
  finish s !! k =
  if decide (k ∈ lc_pending s) then Some (Err (call_timeout_error api (lc_attempts s) (lc_last s)))
  else lc_out s !! k.
Proof. apply insert_each_lookup. Qed.

Lemma leaders_step_handles n now (s : LeaderCall (V := V)) :
  NoDup (lc_pending s) → (metadata_answer n now (lc_pending s)).2 ≠ None →
  ∃ p, handles (lc_pending s) (step_outcome n now (lc_pending s)) (mkProgress [] (lc_out s) (lc_last s)) p ∧
    let s' := mkLeaderCall (pg_retry p) (pg_out p) (u32_saturating_add (lc_attempts s) 1) (pg_last p) in
    step n now s = (step_over n now (lc_pending s), inl s') ∨
    (pg_retry p = [] ∧ step n now s = (step_over n now (lc_pending s), inr (finish s'))).
Proof.
  intros Hn Hm. unfold leaders_step, step_outcome, step_over. unfold metadata_answer in *.
  destruct (bounded _ _ _ _) as [t [metadata|]]; [|done]. clear Hm.
  destruct metadata as [metadata|e].
  - destruct (leaders_round_handles n t metadata (lc_pending s) (mkProgress [] (lc_out s) (lc_last s)) Hn)
      as (p & Er & Hp). rewrite Er. exists p. split; [done|]. simpl. destruct (pg_retry p); auto.
  - set (p := mkProgress _ _ _) at 1 2. destruct (is_connection_failure e) eqn:Ec.
    + exists (again (lc_pending s) (display e) p). split; [by apply handles_again|]. simpl. destruct (lc_pending s); auto.
    + eexists. split; [by apply handles_settle_all|]. simpl. destruct (pg_retry _); auto.
Qed.

Lemma dedup_adjacent_elem {A} `{!EqDecision A} (l : list A) x : x ∈ dedup_adjacent l ↔ x ∈ l.
Proof.
  induction l as [|y [|z l] IH]; [done|done|]. cbn [dedup_adjacent] in *.
  destruct (decide (y = z)) as [->|]; rewrite ?elem_of_cons, IH, ?elem_of_cons; tauto.
Qed.

Lemma dedup_adjacent_NoDup {A} `{!EqDecision A} (R : relation A) `{!AntiSymm (=) R} (l : list A) :
  StronglySorted R l → NoDup (dedup_adjacent l).
Proof.
  induction 1 as [|x l Hs IH Hx]; [constructor|]. destruct l as [|y l]; [apply NoDup_singleton|].
  cbn [dedup_adjacent] in *. destruct (decide (x = y)) as [->|Hne]; [done|].
  apply NoDup_cons. split; [|done]. intros Hin%(dedup_adjacent_elem (y :: l)). apply Hne.
  rewrite Forall_forall in Hx. apply (anti_symm R); [apply Hx; left|].
  apply elem_of_cons in Hin as [->|Hin]; [apply Hx; left|].
  inversion_clear Hs. by eapply Forall_forall.
Qed.

(** ** The invariant of the loop *)

Record call_inv (keys : list PartitionKey) (n : nat) (now : Z) (s : LeaderCall (V := V)) : Prop := {
  inv_asked : asked keys n now (lc_pending s);
  inv_attempts : lc_attempts s = Z.min (Z.of_nat n) u32_max;
  inv_dom k : k ∈ keys ↔ k ∈ lc_pending s ∨ is_Some (lc_out s !! k);
  inv_out k r : lc_out s !! k = Some r → justified keys k r;
}.

Definition call_result (keys : list PartitionKey) (m : gmap PartitionKey presult) : Prop :=
  dom m = list_to_set keys ∧ ∀ k r, m !! k = Some r → justified keys k r.

Lemma finish_result keys (s : LeaderCall (V := V)) :
  (∀ k, k ∈ keys ↔ k ∈ lc_pending s ∨ is_Some (lc_out s !! k)) →
  (∀ k r, lc_out s !! k = Some r → justified keys k r) →
  (∀ k, k ∈ lc_pending s → justified keys k (Err (call_timeout_error api (lc_attempts s) (lc_last s)))) →
  call_result keys (finish s).
Proof.
  intros Hdom Hout Hpend. split.
  - apply set_eq. intros k. rewrite elem_of_dom, elem_of_list_to_set, Hdom, finish_lookup.
    case_decide; [|tauto]. split; [by left|by eexists].
  - intros k r. rewrite finish_lookup. case_decide; [|apply Hout]. intros [= <-]. by apply Hpend.
Qed.

Lemma call_inv_step keys n now s :
  call_inv keys n now s →
  match step n now s with
  | (t, inl s') =>
    call_inv keys (S n) (woken lag d n t) s' ∧ (∀ t', stops_at lag d n t t' → call_result keys (finish s'))
  | (_, inr r) => call_result keys r
  end.
Proof.
  intros [Ha Hat Hdom Hout]. pose proof (asked_NoDup _ _ _ _ Ha) as Hn.
  assert (u32_saturating_add (lc_attempts s) 1 = Z.min (Z.of_nat (S n)) u32_max) as Hat'.
  { rewrite Hat. unfold u32_saturating_add, u32_max. lia. }
  destruct (metadata_answer n now (lc_pending s)).2 as [metadata|] eqn:Em.
  2: { assert (step_outcome n now (lc_pending s) = λ _, Again) as Ho.
       { unfold step_outcome. destruct (metadata_answer n now (lc_pending s)) as [t o]. by simplify_eq/=. }
       unfold leaders_step. unfold metadata_answer in Em.
       destruct (bounded _ _ _ _) as [t o] eqn:Eb. simplify_eq/=. rewrite Hat'. apply finish_result; [done..|].
       intros k Hk. eapply timed_out; eauto; [by rewrite Ho|]. left. unfold metadata_answer. by rewrite Eb. }
  destruct (leaders_step_handles n now s Hn ltac:(congruence)) as (p & [Hr Hf Ho] & Hs). simpl in Hr, Ho.
  set (s' := mkLeaderCall _ _ _ _) in Hs.
  assert (∀ k, k ∈ pg_retry p ↔ k ∈ lc_pending s ∧ step_outcome n now (lc_pending s) k = Again) as Hretry.
  { intros k. rewrite Hr, list_elem_of_filter. destruct (step_outcome _ _ _ k); simpl; intuition congruence. }
  assert (call_inv keys (S n) (woken lag d n (step_over n now (lc_pending s))) s') as Hi.
  { split; simpl; [by econstructor|done|..].
    - intros k. rewrite Hdom, Hretry. destruct (decide (k ∈ lc_pending s)) as [Hk|Hk].
      + destruct (step_outcome n now (lc_pending s) k) as [r|] eqn:Eo; [|tauto].
        rewrite (Hf k r Hk Eo). split; eauto.
      + rewrite Ho by auto. tauto.
    - intros k r Hk. destruct (decide (k ∈ lc_pending s)) as [Hin|Hin]; [|rewrite Ho in Hk; eauto].
      destruct (step_outcome n now (lc_pending s) k) as [r'|] eqn:Eo; [|rewrite Ho in Hk; eauto].
      rewrite (Hf k r' Hin Eo) in Hk. injection Hk as ->. by eapply answered. }
  pose proof Hi as [_ Hat2 Hdom' Hout'].
  destruct Hs as [->|[Hnil ->]].
  - split; [done|]. intros t' [Hg _]. apply finish_result; [done..|]. rewrite Hat2.
    intros k [Hk Eo]%Hretry. eapply timed_out; eauto.
  - apply finish_result; [done..|]. simpl. rewrite Hnil. set_solver.
Qed.

Notation call := (call_partition_leaders display debug lag api retry_code metadata_at call_at).

Lemma call_partition_leaders_result fuel keys t m :
  rd_retries d = 0 → call fuel started d keys = Some (t, m) → call_result keys m.
Proof.
  intros Hr. unfold call_partition_leaders.
  assert (∀ k, k ∈ dedup_adjacent (sort_by tp_le keys) ↔ k ∈ keys) as Hk.
  { intros k. by rewrite dedup_adjacent_elem, elem_of_sort_by. }
  pose proof (dedup_adjacent_NoDup tp_le _ (sort_by_sorted tp_le keys)) as Hn.
  destruct (dedup_adjacent (sort_by tp_le keys)) as [|k0 ks] eqn:El.
  - intros [= <- <-]. split; [|done]. apply set_eq. intros k. specialize (Hk k). set_solver.
  - apply (rounds_inv lag _ _ (call_inv keys) (λ _, call_result keys) d); [apply call_inv_step| |done|done|].
    + split; simpl; [by constructor|done| |done]. intros k. rewrite Hk, lookup_empty.
      split; [by left|]. intros [?|[? ?]]; done.
    + rewrite Hr. done.
Qed.

(** A round lasts until its requests are over, at the latest at the deadline. *)
Lemma leaders_step_time n now (s : LeaderCall (V := V)) : now ≤ (step n now s).1 ≤ sleep_until lag now deadline.
Proof.
  unfold leaders_step. pose proof (bounded_time lag deadline now (metadata_at n (dedup_adjacent (lc_pending s).*1))) as Hm.
  destruct (bounded _ _ _ _) as [t o]. simpl in Hm. destruct o as [[metadata|e]|]; [|destruct (pg_retry _); simpl; lia|simpl; lia].
  unfold leaders_round. destruct (foldl _ (∅, _) _) as [groups p].
  set (answers := fmap _ (sort_by _ (map_to_list groups))).
  assert (t ≤ join_all t answers ≤ sleep_until lag now deadline) as Hj; [|destruct (pg_retry _); simpl; lia].
  split; [exact (proj1 (proj1 (foldl_max_le _ t _) (Z.le_refl _)))|]. apply foldl_max_le. split; [lia|].
  intros y ([x z] & -> & ([a ks] & Ex & _)%list_elem_of_fmap)%list_elem_of_fmap. simpl in Ex.
  pose proof (bounded_time lag deadline t (call_at n a ks)) as Hb. destruct (bounded lag deadline t _).
  injection Ex as -> _. simpl in *. unfold sleep_until in *. lia.
Qed.

Lemma call_partition_leaders_ends fuel keys :
  (∀ k n, 1 ≤ rp_backoff (rd_policy d) k n) → Z.max 0 (deadline - started) < Z.of_nat fuel →
  is_Some (call fuel started d keys).
Proof.
  intros Hb Hf. unfold call_partition_leaders. destruct (dedup_adjacent _); [by eexists|].
  eapply rounds_end; [exact Hb| |done|done|done]. intros n now s. apply leaders_step_time.
Qed.

Lemma call_partition_leaders_by slack fuel keys t m :
  (∀ t, lag t ≤ slack) → 0 ≤ slack → started ≤ deadline → call fuel started d keys = Some (t, m) →
  t ≤ deadline + slack.
Proof.
  intros Hl Hs Hd. unfold call_partition_leaders. destruct (dedup_adjacent _); [intros [= <- _]; lia|].
  apply (rounds_by lag _ _ slack deadline); [done|done| |done|lia]. intros n now s.
  pose proof (leaders_step_time n now s) as Ht. specialize (Hl deadline). unfold sleep_until, fires in Ht. lia.
Qed.
End leaders.

(** ** Calls to one coordinator *)

Section coordinator.
Context {T : Type} (lag : Z → Z) (attempt : nat → bool → option (Z * RetryAction T)).
Context (started : Z) (d : RetryDeadline).

Definition attempt_answer (n : nat) (now : Z) (find : bool) : Z * option (RetryAction T) :=
  bounded lag (rd_deadline d) now (attempt n find).

(** The attempts of a call, when each starts, and whether it finds the
    coordinator first. *)
Inductive tried : nat → Z → bool → Prop :=
| tried_first : tried 0 started true
| tried_same n now find t last :
    tried n now find → attempt_answer n now find = (t, Some (SameCoordinator last)) →
    tried (S n) (woken lag d n t) false
| tried_find n now find t last :
    tried n now find → attempt_answer n now find = (t, Some (FindCoordinator last)) →
    tried (S n) (woken lag d n t) true.

Definition retriable (action : RetryAction T) : Prop :=
  match action with Done _ => False | SameCoordinator _ | FindCoordinator _ => True end.

(** The result of a call: the final result of its last attempt, or a timeout
    when that attempt was cut off, or was retriable with nothing left. *)
Definition call_outcome (r : result admin_error T) : Prop :=
  ∃ n now find t o, tried n now find ∧ attempt_answer n now find = (t, o) ∧
    (o = Some (Done r) ∨
     r = Err (call_timeout d) ∧ (o = None ∨ ∃ a, o = Some a ∧ retriable a ∧ gives_up lag d n t)).

Lemma coordinator_call_outcome fuel t r :
  rd_retries d = 0 → coordinator_call lag attempt fuel started d = Some (t, r) → call_outcome r.
Proof.
  intros Hr. unfold coordinator_call.
  apply (rounds_inv lag _ _ tried (λ _, call_outcome) d); [|constructor|done|done|by rewrite Hr].
  intros n now find Ht. unfold run_attempt. fold (attempt_answer n now find).
  destruct (attempt_answer n now find) as [t' o] eqn:Ea. destruct o as [[r'|last|last]|]; simpl.
  - exists n, now, find, t', (Some (Done r')). split_and!; [done|done|by left].
  - split; [by econstructor|]. intros t2 [Hg _]. exists n, now, find, t', (Some (SameCoordinator last)).
    split_and!; [done|done|]. right. split; [done|]. right. by exists (SameCoordinator last).
  - split; [by econstructor|]. intros t2 [Hg _]. exists n, now, find, t', (Some (FindCoordinator last)).
    split_and!; [done|done|]. right. split; [done|]. right. by exists (FindCoordinator last).
  - exists n, now, find, t', None. split_and!; [done|done|]. right. by split; [|left].
Qed.

Lemma run_attempt_time n now find :
  now ≤ (let '(now, action) := run_attempt lag attempt d n now find in (now, next_find action)).1
      ≤ sleep_until lag now (rd_deadline d).
Proof.
  unfold run_attempt. pose proof (bounded_time lag (rd_deadline d) now (attempt n find)) as Hb.
  by destruct (bounded _ _ _ _).
Qed.
End coordinator.

(** ** Properties *)

(** C32: a call that is routed to partition leaders ends, at the latest with the
    timer of its deadline, and returns one result for each partition that was
    asked for and for no other.  A result is the final answer of a round that
    asked for the partition, after every round before it had sent it back; a
    partition gets the timeout error only when the last round sent it back too
    and the time or the retries were used up, or the metadata request was in
    flight at the deadline.  Requests take any time or are never answered, and
    timers are late by at most [slack]. *)
Theorem partition_leaders_answer_all {V} (display : admin_error → string) (debug : string → string)
    (lag : Z → Z) (api : string) (retry_code : Z → bool)
    (metadata_at : nat → list string → option (Z * result admin_error LeaderMetadata))
    (call_at : nat → string → list PartitionKey → option (Z * result admin_error (gmap PartitionKey (result KafkaError V))))
    now policy (keys : list PartitionKey) fuel slack :
  (∀ k n, 1 ≤ rp_backoff policy k n) → 0 ≤ rp_timeout policy < Z.of_nat fuel →
  0 ≤ slack → (∀ t, lag t ≤ slack) →
  ∃ t m, call_partition_leaders display debug lag api retry_code metadata_at call_at fuel now
         (start now policy) keys = Some (t, m) ∧
       t ≤ now + rp_timeout policy + slack ∧
       dom m = list_to_set keys ∧
       ∀ k r, m !! k = Some r →
         justified display debug lag api retry_code metadata_at call_at now (start now policy) keys k r.
Proof.
  intros Hb Hf Hs Hl.
  edestruct (call_partition_leaders_ends display debug lag api retry_code metadata_at call_at
    now (start now policy) fuel keys Hb) as [[t m] Hm]; [simpl; lia|].
  exists t, m. split; [done|]. split; [|by eapply call_partition_leaders_result].
  eapply (call_partition_leaders_by _ _ _ _ _ _ _ now (start now policy)); [done|done|simpl; lia|exact Hm].
Qed.

(** A call to a group coordinator ends, at the latest with the timer of its
    deadline.  Its first attempt finds the coordinator and each later one finds
    it again exactly when the answer before asked for that; the result is that
    of an attempt that was final, and otherwise the timeout error: the comment
    on [CoordinatorRetry] says that the call returns the last result when the
    deadline has passed, which it drops. *)
Theorem coordinator_call_returns {T} lag (attempt : nat → bool → option (Z * RetryAction T)) now policy fuel slack :
  (∀ k n, 1 ≤ rp_backoff policy k n) → 0 ≤ rp_timeout policy < Z.of_nat fuel →
  0 ≤ slack → (∀ t, lag t ≤ slack) →
  ∃ t r, coordinator_call lag attempt fuel now (start now policy) = Some (t, r) ∧
       t ≤ now + rp_timeout policy + slack ∧ call_outcome lag attempt now (start now policy) r.
Proof.
  intros Hb Hf Hs Hl. set (d := start now policy).
  edestruct (rounds_end lag (λ n now find, let '(now, action) := run_attempt lag attempt d n now find in (now, next_find action))
    (λ _, Err (call_timeout d)) (rd_deadline d) policy Hb) with (fuel := fuel) (n := 0%nat) (now := now) (d := d) (s := true)
    as [[t r] Hr]; [intros; apply run_attempt_time|done|done|simpl; lia|].
  exists t, r. split; [done|]. split; [|by eapply coordinator_call_outcome].
  eapply (rounds_by lag _ _ slack (rd_deadline d)); [done|done| |done| |exact Hr]; [|simpl; lia].
  intros n now' find. etransitivity; [apply run_attempt_time|]. specialize (Hl (rd_deadline d)).
  unfold sleep_until, fires. lia.
Qed.

(** A backoff that doubles from 100 to 1000 ms, and timers that are up to 3 ms
    late; metadata takes 10 ms and a leader 40 ms. *)
Definition example_policy : RetryPolicy := mkRetryPolicy 2500 (λ k _, Z.min 1000 (100 * 2 ^ Z.max 0 k)) u32_max.
Definition example_lag (t : Z) : Z := t mod 4.

Lemma example_backoff k n : 1 ≤ rp_backoff example_policy k n.
Proof. simpl. pose proof (Z.pow_pos_nonneg 2 (Z.max 0 k)). lia. Qed.

Lemma example_lag_bound t : example_lag t ≤ 3.
Proof. unfold example_lag. pose proof (Z.mod_pos_bound t 4). lia. Qed.

Definition example_keys : list PartitionKey := [("b", 0); ("a", 1); ("a", 0); ("b", 0)].
Definition example_metadata (n : nat) (topics : list string) : option (Z * result admin_error LeaderMetadata) :=
  match n with
  | O => Some (10, Err (Transport ClientError.Disconnected))
  | _ => Some (10, Ok (mkLeaderMetadata
           [mkLeaderTopic (Some "a") 0 [mkLeaderPartition 0 0 1; mkLeaderPartition 1 LEADER_NOT_AVAILABLE (-1)];
            mkLeaderTopic (Some "b") 0 [mkLeaderPartition 0 0 2]]
           [mkLeaderBroker 1 "one" 9092; mkLeaderBroker 2 "::2" 9093]))
  end.
Definition example_call (n : nat) (address : string) (keys : list PartitionKey) :
    option (Z * result admin_error (gmap PartitionKey (result KafkaError Z))) :=
  if bool_decide (address = "[::2]:9093" ∧ n = 1%nat) then
    Some (40, Ok (list_to_map ((λ k, (k, Err (metadata_error NOT_LEADER_OR_FOLLOWER))) <$> keys)))
  else if bool_decide (address = "[::2]:9093") then None
  else Some (40, Ok (list_to_map ((λ k, (k, Ok (k.2 + 40))) <$> keys))).

(** The leader of the second topic answers once that it has moved and then never
    again, so that the call waits until its deadline; one partition is without a
    leader. *)
Lemma partition_leaders_answer_all_witness :
  ∃ t m, call_partition_leaders (λ _, "error") id example_lag "ListOffsets" (Z.eqb NOT_LEADER_OR_FOLLOWER)
         example_metadata example_call 2501 0 (start 0 example_policy) example_keys = Some (t, m) ∧
    m = list_to_map
      [(("b", 0), Err (call_timeout_error "ListOffsets" 3 IN_FLIGHT_AT_DEADLINE)); (("a", 0), Ok 40);
       (("a", 1), Err (call_timeout_error "ListOffsets" 3 IN_FLIGHT_AT_DEADLINE))] ∧
    dom m = list_to_set example_keys ∧ t ≤ 2503.
Proof.
  destruct (partition_leaders_answer_all (λ _, "error") id example_lag "ListOffsets"
    (Z.eqb NOT_LEADER_OR_FOLLOWER) example_metadata example_call 0 example_policy example_keys 2501 3)
    as (t & m & Hm & Ht & Hd & _).
  - exact example_backoff.
  - simpl. lia.
  - lia.
  - exact example_lag_bound.
  - exists t, m. split; [exact Hm|]. split; [|split; [exact Hd|exact Ht]].
    assert (∀ (a b : Z * gmap PartitionKey (result KafkaError Z)), Some a = Some b → a.2 = b.2) as Hsnd by (by intros a b [= ->]).
    apply (Hsnd (t, m) (2500, _)). rewrite <- Hm. vm_compute. reflexivity.
Defined.

Definition example_attempt (n : nat) (find : bool) : option (Z * RetryAction Z) :=
  match n, find with
  | O, _ => Some (20, connection_failure_action (Transport ClientError.Disconnected))
  | 1%nat, true => Some (30, SameCoordinator (Err (Broker "x" 14 "COORDINATOR_LOAD_IN_PROGRESS" None)))
  | _, true => None
  | _, false => Some (20, Done (Ok 7))
  end.

Lemma coordinator_call_returns_witness :
  ∃ t r, coordinator_call example_lag example_attempt 2501 0 (start 0 example_policy) = Some (t, r) ∧
    (t, r) = (372, Ok 7).
Proof.
  destruct (coordinator_call_returns example_lag example_attempt 0 example_policy 2501 3) as (t & r & Hr & _).
  - exact example_backoff.
  - simpl. lia.
  - lia.
  - exact example_lag_bound.
  - exists t, r. split; [exact Hr|]. apply (inj Some). rewrite <- Hr. vm_compute. reflexivity.
Defined.
