(* ===== verification/AdminGroupTheorems.v ===== *)
(** * Admin client: theorems on the batched group calls

    A batched group call refines a machine that keeps one place for each group:
    it waits for a lookup, it is at a coordinator, or it is finished. *)

From S2P Require Import Prelude Errors Text AdminRetry AdminLeaders AdminGroups.
Import AdminError.

Section groups.
Context (display : admin_error → string) (debug : string → string).
Context {V : Type}.
Notation gresult := (result KafkaError V).
Context (lag : Z → Z) (api : string) (broker_at : nat → option (Z * FindBroker)).
Context (call_at : nat → CoordinatorEndpoint → list string →
           option (Z * result admin_error (gmap string (GroupOutcome V)))).
(** When the call started, and its deadline. *)
Context (started : Z) (d : RetryDeadline).
Notation deadline := (rd_deadline d).
Notation GroupCall := (@GroupCall V).

(** ** The abstract machine *)

Inductive place := ToLookup | AtCoordinator (e : CoordinatorEndpoint) | Finished (r : gresult).

Definition is_lookup (p : place) : bool := match p with ToLookup => true | _ => false end.
Definition coordinator_of (p : place) : option CoordinatorEndpoint :=
  match p with AtCoordinator e => Some e | _ => None end.
Definition result_of (p : place) : option gresult := match p with Finished r => Some r | _ => None end.

Notation places := (gmap string place).

Definition to_lookup (P : places) : gset string := dom (filter (λ e : string * place, is_lookup e.2 = true) P).
Definition coordinators (P : places) : gmap string CoordinatorEndpoint := omap coordinator_of P.

Definition lookup_place (l : CoordinatorLookup) : place :=
  match l with
  | CoordFound e => AtCoordinator e
  | CoordRetry _ => ToLookup
  | CoordFailed e => Finished (Err e)
  end.

Definition answer_place (answer : option (result admin_error (gmap string (GroupOutcome V))))
    (e : CoordinatorEndpoint) (g : string) : place :=
  match answer with
  | None => AtCoordinator e
  | Some (Err error) =>
    if is_connection_failure error then ToLookup else Finished (Err (list_groups_kafka_error display error))
  | Some (Ok outcomes) =>
    match outcomes !! g with
    | Some (GroupDone r) => Finished r
    | Some (GroupUnmap _) => ToLookup
    | Some (GroupRetry _) | None => AtCoordinator e
    end
  end.

(** The lookup of a round, for every group that waits for it. *)
Definition looked_up (b : FindBroker) (P : places) : places :=
  let lookups : gmap string CoordinatorLookup :=
    list_to_map (find_group_coordinators display debug b (sorted_groups (to_lookup P))) in
  map_imap (λ g p, match p with ToLookup => lookup_place <$> lookups !! g | p => Some p end)
    P.

(** The groups at one address, in order; the first names the coordinator that
    is called with all of them. *)
Definition at_address (M : gmap string CoordinatorEndpoint) (a : string) :
    list (string * CoordinatorEndpoint) :=
  filter (λ x, endpoint_address x.2 = a) (sorted_entries M).
Definition answer_from (n : nat) (now : Z) (M : gmap string CoordinatorEndpoint) (a : string) :
    Z * option (result admin_error (gmap string (GroupOutcome V))) :=
  match at_address M a with
  | [] => (now, None)
  | (_, e) :: _ => bounded lag deadline now (call_at n e (at_address M a).*1)
  end.

(** The calls of a round that start at [now], and when the last is over. *)
Definition called (n : nat) (now : Z) (P : places) : places :=
  map_imap (λ g p, Some match p with
    | AtCoordinator e => answer_place (answer_from n now (coordinators P) (endpoint_address e)).2 e g
    | p => p
    end) P.

Definition calls_over (n : nat) (now : Z) (P : places) : Z :=
  foldl Z.max now ((λ x : string * CoordinatorEndpoint,
    (answer_from n now (coordinators P) (endpoint_address x.2)).1) <$> map_to_list (coordinators P)).

(** A round that starts at [now]: the lookup of the groups that wait for it, or
    [None] when that is in flight at the deadline, and then the calls. *)
Definition lookup_step (n : nat) (now : Z) (P : places) : Z * option places :=
  if decide (to_lookup P = ∅) then (now, Some P)
  else let '(t, o) := bounded lag deadline now (broker_at n) in (t, (λ b, looked_up b P) <$> o).

(** The rounds of a call, when each starts and where the groups are then. *)
Inductive places_at (groups : list string) : nat → Z → places → Prop :=
| places_first : places_at groups 0 started (gset_to_gmap ToLookup (list_to_set groups))
| places_next n now P t P' :
    places_at groups n now P → lookup_step n now P = (t, Some P') →
    places_at groups (S n) (woken lag d n (calls_over n t P')) (called n t P').

(** ** The state of the call, seen from one group *)

Definition View : Type := bool * option CoordinatorEndpoint * option gresult.

Definition view (s : GroupCall) (g : string) : View :=
  (bool_decide (g ∈ gc_unmapped s), gc_mapped s !! g, gc_out s !! g).

Definition place_view (p : option place) : View :=
  match p with
  | None => (false, None, None)
  | Some p => (is_lookup p, coordinator_of p, result_of p)
  end.

Definition refines (s : GroupCall) (P : places) : Prop := ∀ g, view s g = place_view (P !! g).

Lemma view_map_group g e s g' :
  view (map_group g e s) g' = if decide (g' = g) then (bool_decide (g' ∈ gc_unmapped s), Some e, gc_out s !! g') else view s g'.
Proof. unfold view. simpl. case_decide; subst; simplify_map_eq; done. Qed.

Lemma view_insert_unmapped g s g' :
  view (insert_unmapped g s) g' = if decide (g' = g) then (true, gc_mapped s !! g', gc_out s !! g') else view s g'.
Proof.
  unfold view. simpl. case_decide; subst; [rewrite bool_decide_true by set_solver; done|].
  do 2 f_equal. apply bool_decide_ext. set_solver.
Qed.

Lemma view_insert_out g r s g' :
  view (insert_out g r s) g' = if decide (g' = g) then (bool_decide (g' ∈ gc_unmapped s), gc_mapped s !! g', Some r) else view s g'.
Proof. unfold view. simpl. case_decide; subst; simplify_map_eq; done. Qed.

Lemma view_remove_mapped g s g' :
  view (remove_mapped g s) g' = if decide (g' = g) then (bool_decide (g' ∈ gc_unmapped s), None, gc_out s !! g') else view s g'.
Proof. unfold view. simpl. case_decide; subst; simplify_map_eq; done. Qed.

Lemma view_set_last last s g : view (set_last last s) g = view s g.
Proof. done. Qed.

(** A loop whose every turn moves one group moves each group once. *)
Lemma foldl_view {A} (f : GroupCall → A → GroupCall) (key : A → string) (move : A → View → View) l s :
  NoDup (key <$> l) →
  (∀ x s g, x ∈ l → view (f s x) g = if decide (g = key x) then move x (view s g) else view s g) →
  (∀ x, x ∈ l → view (foldl f s l) (key x) = move x (view s (key x))) ∧
  (∀ g, g ∉ key <$> l → view (foldl f s l) g = view s g).
Proof.
  revert s. induction l as [|y l IH]; intros s Hn Hf; [split; [set_solver|done]|].
  apply NoDup_cons in Hn as [Hy Hn]. cbn [foldl].
  destruct (IH (f s y) Hn) as [H1 H2]; [intros; apply Hf; by right|].
  pose proof (Hf y s) as Hf1. split.
  - intros x [->|Hx]%elem_of_cons.
    + rewrite H2 by done. rewrite Hf1 by left. by rewrite decide_True.
    + rewrite H1 by done. rewrite Hf1 by left. rewrite decide_False; [done|]. intros E. apply Hy.
      rewrite <- E. by apply list_elem_of_fmap_2.
  - intros g [Hg Hgl]%not_elem_of_cons. rewrite H2 by done. rewrite Hf1 by left. by rewrite decide_False.
Qed.

(** ** The lookup *)

Lemma coordinator_lookups_keys keys response : (coordinator_lookups debug keys response).*1 = keys.
Proof.
  assert (∀ entries, (take_entries debug entries keys).*1 = keys) as Ht.
  { induction keys as [|k keys IH]; intros entries; [done|]. simpl. by rewrite IH. }
  unfold coordinator_lookups. destruct (fa_coordinators response), keys as [|k [|k' keys]]; try done; apply Ht.
Qed.

Lemma failed_lookups_keys keys error : (failed_lookups display keys error).*1 = keys.
Proof. unfold failed_lookups. rewrite <- list_fmap_compose. apply list_fmap_id. Qed.

Lemma mjoin_keys {A} (f : string → list (string * A)) keys :
  (∀ k, (f k).*1 = [k]) → (mjoin (f <$> keys)).*1 = keys.
Proof.
  intros Hf. induction keys as [|k keys IH]; [done|]. rewrite fmap_cons.
  change (mjoin (f k :: (f <$> keys))) with (f k ++ mjoin (f <$> keys)). by rewrite fmap_app, Hf, IH.
Qed.

(** Every group that was looked up has one lookup result. *)
Lemma find_group_coordinators_keys b keys : (find_group_coordinators display debug b keys).*1 = keys.
Proof.
  unfold find_group_coordinators. set (one := mjoin _).
  assert (one.*1 = keys) as Hone.
  { apply mjoin_keys. intros k.
    destruct (fb_single b k); [apply coordinator_lookups_keys|apply failed_lookups_keys]. }
  destruct (match fb_advertised b with Some _ => _ | None => _ end); [|done].
  destruct (fb_batched b keys) as [response|error]; [apply coordinator_lookups_keys|].
  destruct error as [| | | |[]|]; try done; apply failed_lookups_keys.
Qed.

Lemma sorted_groups_NoDup X : NoDup (sorted_groups X).
Proof. unfold sorted_groups. rewrite sort_by_perm. apply NoDup_elements. Qed.

Lemma elem_of_sorted_groups X g : g ∈ sorted_groups X ↔ g ∈ X.
Proof. unfold sorted_groups. by rewrite elem_of_sort_by, elem_of_elements. Qed.

Lemma elem_of_to_lookup P g : g ∈ to_lookup P ↔ P !! g = Some ToLookup.
Proof.
  unfold to_lookup. rewrite elem_of_dom. split.
  - intros [p [Hg Hp]%map_lookup_filter_Some]. by destruct p.
  - intros Hg. exists ToLookup. by apply map_lookup_filter_Some.
Qed.

Lemma lookup_coordinators P g e : coordinators P !! g = Some e ↔ P !! g = Some (AtCoordinator e).
Proof.
  unfold coordinators. rewrite lookup_omap. destruct (P !! g) as [[| |]|]; simpl; split; congruence.
Qed.

Lemma refines_unmapped s P : refines s P → gc_unmapped s = to_lookup P.
Proof.
  intros Hr. apply set_eq. intros g. rewrite elem_of_to_lookup.
  specialize (Hr g). unfold view in Hr. destruct (P !! g) as [[| |]|]; simpl in Hr; injection Hr as Hu _ _;
    (apply bool_decide_eq_true in Hu || apply bool_decide_eq_false in Hu); split; congruence || done.
Qed.

Lemma refines_mapped s P : refines s P → gc_mapped s = coordinators P.
Proof.
  intros Hr. apply map_eq. intros g. specialize (Hr g). unfold view in Hr.
  unfold coordinators. rewrite lookup_omap. destruct (P !! g); simpl in Hr; by injection Hr.
Qed.

Definition lookup_move (x : string * CoordinatorLookup) (v : View) : View :=
  match x.2 with
  | CoordFound e => (v.1.1, Some e, v.2)
  | CoordRetry _ => (true, v.1.2, v.2)
  | CoordFailed e => (v.1.1, v.1.2, Some (Err e))
  end.

Lemma view_take_lookup s x g :
  view (take_lookup s x) g = if decide (g = x.1) then lookup_move x (view s g) else view s g.
Proof.
  unfold take_lookup, lookup_move. destruct x.2; simpl.
  - rewrite view_map_group. by case_decide.
  - rewrite view_insert_unmapped. by case_decide.
  - rewrite view_insert_out. by case_decide.
Qed.

Lemma lookup_refines n now s P :
  refines s P →
  match lookup_unmapped display debug lag broker_at deadline n now s with
  | (t, Some s') => ∃ P', lookup_step n now P = (t, Some P') ∧ refines s' P'
  | (t, None) => lookup_step n now P = (t, None)
  end.
Proof.
  intros Hr. pose proof (refines_unmapped s P Hr) as HU. unfold lookup_unmapped, lookup_step. rewrite HU.
  destruct (decide (to_lookup P = ∅)); [by exists P|].
  destruct (bounded _ _ _ _) as [t [b|]]; [|done]. eexists. split; [done|]. simpl.
  set (keys := sorted_groups (to_lookup P)). set (ls := find_group_coordinators display debug b keys).
  set (s0 := mkGroupCall ∅ _ _ _).
  assert (NoDup ls.*1) as Hn.
  { unfold ls. rewrite find_group_coordinators_keys. apply sorted_groups_NoDup. }
  destruct (foldl_view take_lookup fst lookup_move ls s0 Hn) as [Hin Hout].
  { intros. apply view_take_lookup. }
  intros g. unfold looked_up. fold keys ls. rewrite map_lookup_imap. specialize (Hr g).
  destruct (decide (g ∈ to_lookup P)) as [Hg|Hg]; rewrite elem_of_to_lookup in Hg.
  - rewrite Hg. simpl. assert (g ∈ ls.*1) as ([g' l] & -> & Hl)%list_elem_of_fmap.
    { unfold ls. rewrite find_group_coordinators_keys. by apply elem_of_sorted_groups, elem_of_to_lookup. }
    specialize (Hin _ Hl). simpl in *. rewrite Hin. apply elem_of_list_to_map in Hl; [|done]. rewrite Hl.
    rewrite Hg in Hr. injection Hr as _ Hm Ho. subst s0. unfold lookup_move, view. simpl.
    rewrite Hm, Ho, bool_decide_false by set_solver. by destruct l.
  - rewrite Hout.
    + unfold view, s0 in *. simpl. rewrite bool_decide_false by set_solver.
      rewrite bool_decide_false in Hr by (by rewrite HU, elem_of_to_lookup).
      rewrite Hr. by destruct (P !! g) as [[| |]|].
    + unfold ls. rewrite find_group_coordinators_keys. unfold keys.
      by rewrite elem_of_sorted_groups, elem_of_to_lookup.
Qed.

(** ** The calls *)

Lemma elem_of_sorted_entries {A} (m : gmap string A) g a : (g, a) ∈ sorted_entries m ↔ m !! g = Some a.
Proof. unfold sorted_entries. by rewrite elem_of_sort_by, elem_of_map_to_list. Qed.

Lemma sorted_entries_NoDup {A} (m : gmap string A) : NoDup (sorted_entries m).*1.
Proof. unfold sorted_entries. rewrite sort_by_perm. apply NoDup_fst_map_to_list. Qed.

(** The groups of one address, with the coordinator that the first names. *)
Definition batch (l : list (string * CoordinatorEndpoint)) : option (CoordinatorEndpoint * list string) :=
  match l with [] => None | (_, e) :: _ => Some (e, l.*1) end.

Lemma batch_snoc l x : batch (l ++ [x]) = let '(e, keys) := default (x.2, []) (batch l) in Some (e, keys ++ [x.1]).
Proof. destruct l as [|[g e] l], x; simpl; [done|]. by rewrite fmap_app. Qed.

Lemma by_coordinator_lookup M a : by_coordinator M !! a = batch (at_address M a).
Proof.
  unfold by_coordinator, at_address. induction (sorted_entries M) as [|x l IH] using rev_ind; [done|].
  rewrite foldl_app, filter_app. simpl. set (m := foldl push_group ∅ l) in *. unfold push_group.
  destruct (decide (endpoint_address x.2 = a)) as [<-|Hne].
  - rewrite filter_cons_True, filter_nil, batch_snoc, <- IH by done.
    destruct (default _ _) as [e keys]. by rewrite lookup_insert_eq.
  - rewrite filter_cons_False, filter_nil, app_nil_r, <- IH by done.
    destruct (default _ _) as [e keys]. by rewrite lookup_insert_ne.
Qed.

Definition answer_move (answer : option (result admin_error (gmap string (GroupOutcome V)))) (g : string)
    (v : View) : View :=
  match answer with
  | None => v
  | Some (Err error) =>
    if is_connection_failure error then (true, None, v.2)
    else (v.1.1, None, Some (Err (list_groups_kafka_error display error)))
  | Some (Ok outcomes) =>
    match outcomes !! g with
    | Some (GroupDone r) => (v.1.1, None, Some r)
    | Some (GroupUnmap _) => (true, None, v.2)
    | Some (GroupRetry _) | None => v
    end
  end.

Lemma answer_move_place answer e g :
  answer_move answer g (place_view (Some (AtCoordinator e))) = place_view (Some (answer_place answer e g)).
Proof.
  unfold answer_move, answer_place. destruct answer as [[outcomes|error]|]; [|by destruct (is_connection_failure error)|done].
  by destruct (outcomes !! g) as [[]|].
Qed.

Notation take := (take_group_answer display debug api).

Lemma view_take_answer s keys answer g :
  NoDup keys →
  view (take s (keys, answer)) g = if decide (g ∈ keys) then answer_move answer g (view s g) else view s g.
Proof.
  intros Hn.
  assert (∀ f s, (∀ s k g, view (f s k) g = if decide (g = k) then answer_move answer g (view s g) else view s g) →
    view (foldl f s keys) g = if decide (g ∈ keys) then answer_move answer g (view s g) else view s g) as Hloop.
  { intros f s' Hf. destruct (foldl_view f id (answer_move answer) keys s') as [Hin Hout].
    - by rewrite list_fmap_id.
    - intros k s2 g2 _. rewrite Hf. unfold id. by destruct (decide (g2 = k)) as [->|].
    - case_decide; [by apply Hin|]. apply Hout. by rewrite list_fmap_id. }
  unfold take_group_answer. destruct answer as [[outcomes|error]|]; simpl in *; [..|by case_decide].
  - apply Hloop. intros s' k g'. unfold take_group. destruct (decide (g' = k)) as [->|Hne].
    + destruct (outcomes !! k) as [[]|]; try done;
        rewrite ?view_insert_out, ?view_insert_unmapped, decide_True by done; simpl; by rewrite lookup_delete_eq.
    + destruct (outcomes !! k) as [[]|]; try done;
        rewrite ?view_insert_out, ?view_insert_unmapped, ?view_remove_mapped, !decide_False by done; done.
  - destruct (is_connection_failure error); [rewrite Hloop; [done|]|apply Hloop]; intros s' k g';
      rewrite ?view_insert_out, ?view_insert_unmapped, view_remove_mapped; simpl;
      destruct (decide (g' = k)) as [->|]; try done; by rewrite lookup_delete_eq.
Qed.

Lemma view_take_answers (L : list (list string * option (result admin_error (gmap string (GroupOutcome V))))) s g :
  NoDup (mjoin L.*1) →
  (∀ keys answer, (keys, answer) ∈ L → g ∈ keys → view (foldl take s L) g = answer_move answer g (view s g)) ∧
  (g ∉ mjoin L.*1 → view (foldl take s L) g = view s g).
Proof.
  revert s. induction L as [|[ks a] L IH]; intros s Hn; [split; [set_solver|done]|].
  rewrite fmap_cons in Hn |- *. simpl fst in Hn |- *.
  change (mjoin (ks :: L.*1)) with (ks ++ mjoin L.*1) in Hn |- *.
  apply NoDup_app in Hn as (Hn1 & Hd & Hn2). cbn [foldl]. destruct (IH (take s (ks, a)) Hn2) as [H1 H2].
  pose proof (view_take_answer s ks a g Hn1) as Hv. split.
  - intros keys answer [[= -> ->]|Hin]%elem_of_cons Hg.
    + rewrite H2, Hv by auto. by rewrite decide_True.
    + rewrite (H1 _ _ Hin Hg), Hv, decide_False; [done|]. intros Hks. apply (Hd g Hks).
      apply list_elem_of_join. exists keys. split; [done|]. by apply (list_elem_of_fmap_2 fst) in Hin.
  - rewrite elem_of_app. intros Hg. rewrite H2, Hv, decide_False by tauto. done.
Qed.

Lemma elem_of_at_address M a g : g ∈ (at_address M a).*1 ↔ ∃ e, M !! g = Some e ∧ endpoint_address e = a.
Proof.
  unfold at_address. rewrite list_elem_of_fmap. split.
  - intros ([g' e] & -> & [Ha Hin]%list_elem_of_filter). apply elem_of_sorted_entries in Hin. by exists e.
  - intros (e & Hg & Ha). exists (g, e). split; [done|]. apply list_elem_of_filter.
    split; [done|]. by apply elem_of_sorted_entries.
Qed.

Lemma at_address_NoDup M a : NoDup (at_address M a).*1.
Proof.
  unfold at_address. pose proof (sorted_entries_NoDup M) as Hn. revert Hn.
  induction (sorted_entries M) as [|x l IH]; [constructor|]. intros [Hx Hn]%NoDup_cons.
  rewrite filter_cons. case_decide; [|by apply IH]. rewrite fmap_cons. apply NoDup_cons.
  split; [|by apply IH]. intros (y & E & [_ Hy]%list_elem_of_filter)%list_elem_of_fmap. apply Hx.
  rewrite E. by apply list_elem_of_fmap_2.
Qed.

Lemma batch_entry n now M a e keys :
  (a, (e, keys)) ∈ sorted_entries (by_coordinator M) →
  keys = (at_address M a).*1 ∧ bounded lag deadline now (call_at n e keys) = answer_from n now M a.
Proof.
  rewrite elem_of_sorted_entries, by_coordinator_lookup. unfold answer_from.
  destruct (at_address M a) as [|[g e'] l]; [done|]. by intros [= <- <-].
Qed.

Definition timed_answers (n : nat) (now : Z) (M : gmap string CoordinatorEndpoint) :=
  (λ e : string * (CoordinatorEndpoint * list string),
     let '(t, answer) := bounded lag deadline now (call_at n e.2.1 e.2.2) in (t, (e.2.2, answer))) <$>
  sorted_entries (by_coordinator M).

Definition answers_of (n : nat) (now : Z) (M : gmap string CoordinatorEndpoint) :=
  (λ e : string * (CoordinatorEndpoint * list string),
     (e.2.2, (bounded lag deadline now (call_at n e.2.1 e.2.2)).2)) <$>
  sorted_entries (by_coordinator M).

Lemma timed_answers_snd n now M : (timed_answers n now M).*2 = answers_of n now M.
Proof.
  unfold timed_answers, answers_of. rewrite <- list_fmap_compose. apply list_fmap_ext. intros _ x _. simpl.
  by destruct (bounded _ _ _ _).
Qed.

Lemma answers_NoDup n now M : NoDup (mjoin (answers_of n now M).*1).
Proof.
  unfold answers_of. pose proof (sorted_entries_NoDup (by_coordinator M)) as Hn.
  assert (∀ x, x ∈ sorted_entries (by_coordinator M) → x.2.2 = (at_address M x.1).*1) as Hb.
  { intros [a [e keys]] Hin. by eapply (batch_entry n now) in Hin as [-> _]. }
  revert Hn Hb. induction (sorted_entries (by_coordinator M)) as [|x l IH]; intros Hn Hb; [constructor|].
  apply NoDup_cons in Hn as [Hx Hn]. rewrite !fmap_cons. simpl fst.
  match goal with |- NoDup (mjoin (?k :: ?t)) => change (mjoin (k :: t)) with (k ++ mjoin t) end.
  apply NoDup_app. split; [rewrite Hb by left; apply at_address_NoDup|]. split.
  - intros g Hg (ks & Hgk & Hks)%list_elem_of_join. rewrite Hb in Hg by left.
    rewrite <- list_fmap_compose in Hks. apply list_elem_of_fmap in Hks as (y & -> & Hy). simpl in Hgk.
    rewrite Hb in Hgk by (by right). apply elem_of_at_address in Hg as (e & He & Ea).
    apply elem_of_at_address in Hgk as (e' & He' & Ea'). apply Hx. apply list_elem_of_fmap.
    exists y. split; [congruence|done].
  - apply IH; [done|]. intros y Hy. apply Hb. by right.
Qed.

(** Every coordinator that is called has groups, and every group with a
    coordinator is in its call. *)
Lemma by_coordinator_entry M g e :
  M !! g = Some e → ∃ e' keys, (endpoint_address e, (e', keys)) ∈ sorted_entries (by_coordinator M).
Proof.
  intros HM. assert (g ∈ (at_address M (endpoint_address e)).*1) as Hg by (apply elem_of_at_address; by exists e).
  setoid_rewrite elem_of_sorted_entries. setoid_rewrite by_coordinator_lookup.
  destruct (at_address M (endpoint_address e)) as [|[]]; [by apply elem_of_nil in Hg|]. by eexists _, _.
Qed.

Lemma answers_over n now P : join_all now (timed_answers n now (coordinators P)) = calls_over n now P.
Proof.
  unfold join_all, calls_over, timed_answers. set (M := coordinators P). apply foldl_max_ext. intros t.
  rewrite <- list_fmap_compose, !list_elem_of_fmap. split.
  - intros ([a [e keys]] & -> & Hin). pose proof (batch_entry n now _ _ _ _ Hin) as [_ Ha]. simpl. rewrite Ha.
    rewrite elem_of_sorted_entries, by_coordinator_lookup in Hin.
    destruct (at_address M a) as [|[g e'] l] eqn:Ea; [done|].
    assert ((g, e') ∈ at_address M a) as Hg by (rewrite Ea; left).
    apply list_elem_of_filter in Hg as [Hg Hin']. apply elem_of_sorted_entries in Hin'. simpl in Hg.
    exists (g, e'). split; [|by apply elem_of_map_to_list]. simpl. rewrite Hg. by destruct (answer_from _ _ _ _).
  - intros ([g e] & -> & HM%elem_of_map_to_list). destruct (by_coordinator_entry M g e HM) as (e' & keys & Hk).
    pose proof (batch_entry n now _ _ _ _ Hk) as [_ Ha]. exists (endpoint_address e, (e', keys)).
    split; [|done]. simpl. rewrite Ha. by destruct (answer_from _ _ _ _).
Qed.

Lemma call_refines n now s P :
  refines s P →
  ∃ s', groups_round display debug lag api call_at deadline n now s = (calls_over n now P, s') ∧
        refines s' (called n now P).
Proof.
  intros Hr. unfold groups_round. rewrite (refines_mapped s P Hr). fold (timed_answers n now (coordinators P)).
  rewrite answers_over, timed_answers_snd. eexists. split; [done|]. intros g. set (M := coordinators P).
  destruct (view_take_answers (answers_of n now M) s g (answers_NoDup n now M)) as [Hin Hout].
  unfold called. rewrite map_lookup_imap. fold M. unfold answers_of in Hin, Hout |- *.
  destruct (M !! g) as [e|] eqn:HM.
  - assert (g ∈ (at_address M (endpoint_address e)).*1) as Hg by (apply elem_of_at_address; by exists e).
    destruct (by_coordinator_entry M g e HM) as (e' & keys & Hk). pose proof (batch_entry n now _ _ _ _ Hk) as [-> Ha].
    rewrite (Hin (at_address M (endpoint_address e)).*1 (answer_from n now M (endpoint_address e)).2).
    + rewrite Hr. apply lookup_coordinators in HM. rewrite HM. apply answer_move_place.
    + apply list_elem_of_fmap. eexists. split; [|exact Hk]. simpl. by rewrite Ha.
    + done.
  - rewrite Hout.
    + rewrite Hr. destruct (P !! g) as [[|e|]|] eqn:HP; try done.
      apply lookup_coordinators in HP. fold M in HP. congruence.
    + intros (ks & Hg & Hks)%list_elem_of_join. rewrite <- list_fmap_compose in Hks.
      apply list_elem_of_fmap in Hks as ([a [e keys]] & -> & Hy). simpl in Hg.
      apply (batch_entry n now) in Hy as [-> _]. apply elem_of_at_address in Hg as (e' & He & _). congruence.
Qed.

(** ** The results *)

Definition unfinished (p : place) : Prop := result_of p = None.

(** The results of a call whose groups are at [P]: those of the finished groups,
    and the timeout error of the others. *)
Definition results_of (attempts : nat) (P : places) (m : gmap string gresult) : Prop :=
  ∃ last, m = (λ p, default (Err (call_timeout_error api (Z.min (Z.of_nat attempts) u32_max) last)) (result_of p)) <$> P.

Lemma finish_refines attempts k s P :
  refines s P → attempts = Z.min (Z.of_nat k) u32_max → results_of k P (groups_finish api (attempts, s)).
Proof.
  intros Hr ->. exists (gc_last s). apply map_eq. intros g. unfold groups_finish.
  rewrite insert_each_lookup, lookup_fmap, (refines_mapped s P Hr), (refines_unmapped s P Hr).
  assert (gc_out s !! g = P !! g ≫= result_of) as Ho.
  { specialize (Hr g). unfold view in Hr. destruct (P !! g); simpl in *; by injection Hr. }
  assert (g ∈ (sorted_entries (coordinators P)).*1 ++ sorted_groups (to_lookup P) ↔
    ∃ p, P !! g = Some p ∧ unfinished p) as Hg.
  { rewrite elem_of_app, elem_of_sorted_groups, elem_of_to_lookup, list_elem_of_fmap. split.
    - intros [([g' e] & -> & Hin)|Hl]; [|by exists ToLookup].
      apply elem_of_sorted_entries, lookup_coordinators in Hin. by exists (AtCoordinator e).
    - intros ([|e|r] & HP & Hu); [by right| |done]. left. exists (g, e). split; [done|].
      by apply elem_of_sorted_entries, lookup_coordinators. }
  rewrite Ho. case_decide as Hd; rewrite Hg in Hd.
  - destruct Hd as (p & -> & Hu). unfold unfinished in Hu. simpl. by rewrite Hu.
  - destruct (P !! g) as [[|e|r]|] eqn:HP; simpl; try done; exfalso; apply Hd; by eexists.
Qed.

(** How a call ends: with every group finished, out of time or retries after a
    round, or with the lookup of a round in flight at the deadline. *)
Inductive call_ends (groups : list string) (m : gmap string gresult) : Prop :=
| ends_at_once :
    groups = [] → m = ∅ → call_ends groups m
| ends_complete n now P :
    places_at groups (S n) now P → (∀ g p, P !! g = Some p → ¬ unfinished p) →
    results_of (S n) P m → call_ends groups m
| ends_gives_up n now P t P' :
    places_at groups n now P → lookup_step n now P = (t, Some P') → gives_up lag d n (calls_over n t P') →
    results_of (S n) (called n t P') m → call_ends groups m
| ends_in_flight n now P t :
    places_at groups n now P → lookup_step n now P = (t, None) →
    results_of (S n) P m → call_ends groups m.

Lemma refines_start groups :
  refines (mkGroupCall (list_to_set groups) ∅ ∅ "none") (gset_to_gmap ToLookup (list_to_set groups)).
Proof.
  intros g. unfold view. simpl. rewrite lookup_gset_to_gmap, !lookup_empty.
  case_bool_decide; [by rewrite option_guard_True|by rewrite option_guard_False].
Qed.

Lemma nothing_left_finished s P :
  refines s P → nothing_left s = true → ∀ g p, P !! g = Some p → ¬ unfinished p.
Proof.
  intros Hr Hn g p Hg Hu. unfold nothing_left in Hn.
  rewrite (refines_mapped s P Hr), (refines_unmapped s P Hr) in Hn.
  apply andb_true_iff in Hn as [Hl Hc]. apply bool_decide_eq_true in Hl, Hc.
  destruct p as [|e|r]; [|apply lookup_coordinators in Hg; by rewrite Hc in Hg|done].
  apply elem_of_to_lookup in Hg. set_solver.
Qed.

Notation gstep := (groups_step display debug lag api broker_at call_at deadline).
Notation gfinish := (groups_finish api).

Definition call_inv (groups : list string) (n : nat) (now : Z) (a : Z * GroupCall) : Prop :=
  ∃ P, places_at groups n now P ∧ refines a.2 P ∧ a.1 = Z.min (Z.of_nat n) u32_max.

Lemma groups_step_refines groups n now a :
  call_inv groups n now a →
  match gstep n now a with
  | (t, inl a) =>
    call_inv groups (S n) (woken lag d n t) a ∧ (∀ t', stops_at lag d n t t' → call_ends groups (gfinish a))
  | (_, inr m) => call_ends groups m
  end.
Proof.
  intros (P & HP & Hr & Hat). destruct a as [attempts s]. simpl in Hr, Hat. unfold groups_step.
  assert (u32_saturating_add attempts 1 = Z.min (Z.of_nat (S n)) u32_max) as Hat'.
  { rewrite Hat. unfold u32_saturating_add, u32_max. lia. }
  pose proof (lookup_refines n now s P Hr) as Hl.
  destruct (lookup_unmapped _ _ _ _ _ _ _ s) as [t [s1|]].
  - destruct Hl as (P1 & Hl & Hr1). destruct (call_refines n t s1 P1 Hr1) as (s2 & Es & Hr2). rewrite Es.
    pose proof (places_next groups n now P t P1 HP Hl) as HP2.
    destruct (nothing_left s2) eqn:En.
    + eapply ends_complete; [done|by eapply nothing_left_finished|by apply finish_refines].
    + split; [by exists (called n t P1)|]. intros t' [Hg _].
      eapply ends_gives_up; [exact HP|exact Hl|exact Hg|]. by apply finish_refines.
  - eapply ends_in_flight; [exact HP|exact Hl|]. by apply finish_refines.
Qed.

Notation call := (call_group_coordinators display debug lag api broker_at call_at).

Lemma call_group_coordinators_ends groups fuel t m :
  rd_retries d = 0 → call fuel started d groups = Some (t, m) → call_ends groups m.
Proof.
  intros H0. unfold call_group_coordinators. pose proof (refines_start groups) as Hs.
  destruct (nothing_left _) eqn:En.
  - intros [= <- <-]. apply ends_at_once.
    + destruct groups as [|g groups]; [done|]. exfalso.
      eapply (nothing_left_finished _ _ Hs En g ToLookup); [|done].
      apply lookup_gset_to_gmap_Some. set_solver.
    + unfold groups_finish. unfold nothing_left in En. apply andb_true_iff in En as [En _].
      apply bool_decide_eq_true in En. simpl in En |- *. rewrite En. done.
  - apply (rounds_inv lag _ _ (call_inv groups) (λ _, call_ends groups) d); [|by eexists; split; [constructor|]|done|done|done].
    intros n now a. apply groups_step_refines.
Qed.

(** A round lasts until its requests are over, at the latest at the deadline. *)
Lemma groups_step_time n now a : now ≤ (gstep n now a).1 ≤ sleep_until lag now deadline.
Proof.
  destruct a as [attempts s]. unfold groups_step, lookup_unmapped.
  assert (∀ t s, now ≤ t ≤ sleep_until lag now deadline →
    now ≤ (groups_round display debug lag api call_at deadline n t s).1 ≤ sleep_until lag now deadline) as Hround.
  { intros t s' Ht. unfold groups_round. set (answers := fmap _ _). simpl.
    pose proof (proj1 (proj1 (foldl_max_le answers.*1 t _) (Z.le_refl _))) as Hj. unfold join_all.
    split; [lia|]. apply foldl_max_le. split; [lia|].
    intros y ([x z] & -> & ([b [e ks]] & Ex & _)%list_elem_of_fmap)%list_elem_of_fmap. simpl in Ex.
    pose proof (bounded_time lag deadline t (call_at n e ks)) as Hb. destruct (bounded lag deadline t _).
    injection Ex as -> _. simpl in *. unfold sleep_until in *. lia. }
  assert (∀ t s, now ≤ t ≤ sleep_until lag now deadline →
    now ≤ (let '(now, s) := groups_round display debug lag api call_at deadline n t s in
      (now, if nothing_left s then inr (groups_finish api (u32_saturating_add attempts 1, s))
            else inl (u32_saturating_add attempts 1, s))).1 ≤ sleep_until lag now deadline) as Hend.
  { intros t s' Ht. specialize (Hround t s' Ht). by destruct (groups_round _ _ _ _ _ _ _ _). }
  destruct (decide _); [apply Hend; unfold sleep_until; lia|].
  pose proof (bounded_time lag deadline now (broker_at n)) as Hb. destruct (bounded _ _ _ _) as [t [b|]]; [by apply Hend|done].
Qed.

(** No group is lost on the way. *)
Lemma called_dom n now P : dom (called n now P) = dom P.
Proof.
  apply set_eq. intros g. unfold called. rewrite !elem_of_dom, map_lookup_imap. by destruct (P !! g).
Qed.

Lemma lookup_step_dom n now P t P' : lookup_step n now P = (t, Some P') → dom P' = dom P.
Proof.
  unfold lookup_step. case_decide; [by intros [= _ <-]|]. destruct (bounded _ _ _ _) as [t' [b|]]; [|done].
  intros [= _ <-]. apply set_eq. intros g. unfold looked_up.
  rewrite !elem_of_dom, map_lookup_imap. destruct (P !! g) as [[| |]|] eqn:Hg; simpl; try done.
  split; [by eexists|]. intros _. set (ls := find_group_coordinators _ _ _ _).
  assert (g ∈ ls.*1) as ([g' l] & -> & Hl)%list_elem_of_fmap.
  { unfold ls. rewrite find_group_coordinators_keys. by apply elem_of_sorted_groups, elem_of_to_lookup. }
  apply elem_of_list_to_map in Hl.
  - simpl. rewrite Hl. by eexists.
  - unfold ls. rewrite find_group_coordinators_keys. apply sorted_groups_NoDup.
Qed.

Lemma places_at_dom groups n now P : places_at groups n now P → dom P = list_to_set groups.
Proof.
  induction 1 as [|n now P t P' _ IH Hl]; [apply dom_gset_to_gmap|].
  by rewrite called_dom, (lookup_step_dom _ _ _ _ _ Hl).
Qed.

Lemma call_ends_dom groups m : call_ends groups m → dom m = list_to_set groups.
Proof.
  intros [-> ->|n now P HP _ [last ->]|n now P t P' HP Hl _ [last ->]|n now P t HP _ [last ->]];
    rewrite ?dom_fmap_L; [done|by eapply places_at_dom| |by eapply places_at_dom].
  rewrite called_dom, (lookup_step_dom _ _ _ _ _ Hl). by eapply places_at_dom.
Qed.
End groups.

(** ** Properties *)

(** C31: a batched group call ends, at the latest with the timer of its
    deadline, and returns one result for each group that was asked for and for
    no other.  It refines the machine that moves every group on its own between
    its lookup, its coordinator and its result: an answer for one group never
    changes the place of another, a group whose coordinator loads stays there,
    and one whose coordinator moved or was lost is looked up again.  A group gets
    the timeout error only when the call ended, out of time or retries or with a
    lookup in flight, while the group was not finished.  Requests take any time
    or are never answered, and timers are late by at most [slack]. *)
Theorem group_calls_refine_places {V} (display : admin_error → string) (debug : string → string)
    (lag : Z → Z) (api : string) (broker_at : nat → option (Z * FindBroker))
    (call_at : nat → CoordinatorEndpoint → list string →
       option (Z * result admin_error (gmap string (GroupOutcome V))))
    now policy (groups : list string) fuel slack :
  (∀ k n, 1 ≤ rp_backoff policy k n) → 0 ≤ rp_timeout policy < Z.of_nat fuel →
  0 ≤ slack → (∀ t, lag t ≤ slack) →
  ∃ t m, call_group_coordinators display debug lag api broker_at call_at fuel now (start now policy) groups = Some (t, m) ∧
       t ≤ now + rp_timeout policy + slack ∧
       dom m = list_to_set groups ∧
       call_ends display debug lag api broker_at call_at now (start now policy) groups m.
Proof.
  intros Hb Hf Hs Hl. set (d := start now policy).
  pose proof (groups_step_time display debug lag api broker_at call_at d) as Ht.
  assert (is_Some (call_group_coordinators display debug lag api broker_at call_at fuel now d groups)) as [[t m] Hm].
  { unfold call_group_coordinators. destruct (nothing_left _); [by eexists|].
    eapply rounds_end; [exact Hb|intros; apply Ht|done|done|simpl; lia]. }
  exists t, m. split; [done|].
  assert (call_ends display debug lag api broker_at call_at now d groups m) as He
    by (by eapply call_group_coordinators_ends).
  split; [|split; [by eapply call_ends_dom|done]].
  unfold call_group_coordinators in Hm. destruct (nothing_left _); [injection Hm as <- _; lia|].
  eapply (rounds_by lag _ _ slack (rd_deadline d)); [done|done| |done| |exact Hm]; [|simpl; lia].
  intros n now' a. etransitivity; [apply Ht|]. specialize (Hl (rd_deadline d)). unfold sleep_until, fires. lia.
Qed.

(** Two groups on a loading coordinator that then moves, and one that an older
    broker cannot look up in a batch. *)
Definition example_groups : list string := ["b"; "a"; "c"].
Definition example_endpoint (node : Z) : CoordinatorEndpoint := mkEndpoint node "host" (9090 + node).
Definition example_broker (n : nat) : option (Z * FindBroker) :=
  Some (5, mkFindBroker (Some (0, if bool_decide (n = 0%nat) then 3 else 6))
    (λ keys, Ok (mkFindAnswer (mkEndpoint (-1) "" 0) 0 None
       ((λ k, mkFindEntry k (example_endpoint 2) 0 None) <$> keys)))
    (λ k, if bool_decide (k = "c") then Err (Broker "FindCoordinator" 30 "GROUP_AUTHORIZATION_FAILED" None)
          else Ok (mkFindAnswer (example_endpoint 1) 0 None []))).
Definition example_answers (n : nat) (e : CoordinatorEndpoint) (keys : list string) :
    option (Z * result admin_error (gmap string (GroupOutcome Z))) :=
  Some (15, Ok (list_to_map ((λ k, (k,
    match n, ep_node_id e with
    | O, _ => group_error_outcome 14 None []
    | 1%nat, _ => if bool_decide (k = "a") then group_error_outcome 16 None [] else GroupDone (Ok 1)
    | _, 2 => GroupDone (Ok 2)
    | _, _ => group_error_outcome 14 None []
    end)) <$> keys))).
(** A backoff that doubles from 100 to 1000 ms, with timers up to 3 ms late. *)
Definition example_retry : RetryPolicy := mkRetryPolicy 2500 (λ k _, Z.min 1000 (100 * 2 ^ Z.max 0 k)) u32_max.

Lemma group_calls_refine_places_witness :
  ∃ t m, call_group_coordinators (λ _, "error") id (λ t, t mod 4) "DeleteGroups" example_broker example_answers
         2501 0 (start 0 example_retry) example_groups = Some (t, m) ∧
    dom m = list_to_set example_groups ∧
    (t, m) = (358, list_to_map [("a", Ok 2); ("b", Ok 1); ("c", Err (kafka_error 30 None))]).
Proof.
  destruct (group_calls_refine_places (λ _, "error") id (λ t, t mod 4) "DeleteGroups" example_broker
    example_answers 0 example_retry example_groups 2501 3) as (t & m & Hm & _ & Hd & _).
  - intros k n. simpl. pose proof (Z.pow_pos_nonneg 2 (Z.max 0 k)). lia.
  - simpl. lia.
  - lia.
  - intros t. pose proof (Z.mod_pos_bound t 4). lia.
  - exists t, m. split; [exact Hm|]. split; [exact Hd|].
    apply (inj Some). rewrite <- Hm. vm_compute. reflexivity.
Defined.
