(* ===== verification/CoordBroker.v ===== *)
(** * The coordination transport on a cluster

    [crates/client-coordination/src/broker.rs], the implementation of the trait
    of [transport.rs]: the layout of the coordination topic, the scan of the
    partition of a role, registrations, and leases in transactions under the
    epoch that a role's producer holds. Brokers and producers answer from
    outside; calls on one transport run side by side and share its cells and
    locks. *)

From S2P Require Import Prelude Bytes CoordRecord Errors CoordSuccession Partitioner.
From S2P Require Import FetchBuffer FetchDecode CoreFetch Async.

(** ** Constants *)

Definition UNKNOWN_TOPIC_OR_PARTITION : Z := 3.
Definition LEADER_NOT_AVAILABLE : Z := 5.
Definition TOPIC_ALREADY_EXISTS : Z := 36.
Definition INVALID_PRODUCER_EPOCH : Z := 47.
Definition PRODUCER_FENCED : Z := 90.
Definition TRANSACTIONAL_ID_NOT_FOUND : Z := 105.
Definition READ_COMMITTED : Z := 1.
Definition LIST_OFFSETS_EARLIEST : Z := -2.
Definition LIST_OFFSETS_LATEST : Z := -1.

(** ** Without a cluster *)

Definition check_topic_shape (partitions replication : Z) : result CoordinationError.coordination_error unit :=
  if partitions <=? 0 then Err (CoordinationError.InvalidConfig (CoordinationError.MsgTopicPartitions partitions))
  else if replication <=? 0 then Err (CoordinationError.InvalidConfig (CoordinationError.MsgTopicReplication replication))
  else Ok ().

(** A non-positive count never reaches [partition_for_key]. *)
Definition role_partition (role : Role) (partitions : Z) : result CoordinationError.coordination_error Z :=
  let refused := Err (CoordinationError.InvalidConfig (CoordinationError.MsgReportsPartitions partitions)) in
  if partitions <=? 0 then refused
  else match partition_for_key (as_bytes (role_name role)) partitions with Some p => Ok p | None => refused end.

Definition server (error_code : Z) : CoordinationError.coordination_error :=
  CoordinationError.Client (ClientError.Server error_code).

Definition is_fence (error : ProducerError.producer_error) : bool :=
  match error with
  | ProducerError.FencedProducer => true
  | ProducerError.Server code | ProducerError.Client (ClientError.Server code) =>
    bool_decide (code ∈ [INVALID_PRODUCER_EPOCH; PRODUCER_FENCED])
  | _ => false
  end.

Definition fenced_or (role : Role) (error : ProducerError.producer_error) : CoordinationError.coordination_error :=
  if is_fence error then CoordinationError.Fenced role else CoordinationError.Producer error.

Definition reports_unknown_transactional_id (error : AdminError.admin_error) : bool :=
  match error with AdminError.Broker _ code _ _ => code =? TRANSACTIONAL_ID_NOT_FOUND | _ => false end.

(** The producer id and epoch of a [DescribeTransactions] row. *)
Definition token_from_description (row : Z * Z) : option FencingToken :=
  match FencingToken_new row.1 row.2 with Ok t => Some t | Err _ => None end.

Record CreateTopicSpec : Type := mkTopicSpec {
  ts_name : string;
  ts_partitions : Z;
  ts_replicas : Z;
  ts_configs : list (string * string);
}.

Definition coordination_topic_spec (partitions replication : Z) : CreateTopicSpec :=
  mkTopicSpec COORDINATION_STATE_TOPIC partitions replication [("cleanup.policy", "compact")].

(** The error of an outcome: code, name and message. *)
Definition accept_topic_creation (outcomes : list (option (Z * string * option string)))
    : result CoordinationError.coordination_error unit :=
  match list_find (λ o, match o with Some (code, _, _) => negb (code =? TOPIC_ALREADY_EXISTS) | None => false end = true) outcomes with
  | Some (_, Some (code, name, message)) =>
    Err (CoordinationError.Admin (AdminError.Broker "CreateTopics" code name message))
  | _ => Ok ()
  end.

Record ProducerRecord : Type := mkProducerRecord {
  pr_topic : string;
  pr_partition : option Z;
  pr_key : option bytes;
  pr_value : option bytes;
  pr_headers : list (string * option bytes);
  pr_timestamp_ms : option Z;
}.

Definition coordination_record (key : CoordinationKey) (value : CoordinationRecord) (partition : Z) : ProducerRecord :=
  mkProducerRecord COORDINATION_STATE_TOPIC (Some partition) (Some (encode_key key)) (encode_value value) [] None.

Definition registration_record (role : Role) (member : MemberId) (partition registered_at : Z) : ProducerRecord :=
  coordination_record (key_registration role member) (RecRegistration (mkRegistration member registered_at)) partition.

Definition lease_record (role : Role) (lease : Lease) (partition : Z) : ProducerRecord :=
  coordination_record (key_lease role) (RecLease lease) partition.

Notation RoleRecords := (list (Z * CoordinationKey * CoordinationRecord)).

(** The records of one role, and the first value that does not decode. *)
Fixpoint select_role_records (role : Role) (records : list FetchedRecord)
    : result CoordinationError.coordination_error RoleRecords :=
  match records with
  | [] => Ok []
  | record :: records =>
    match fd_key record ≫= λ k, match decode_key k with Ok key => Some key | Err _ => None end with
    | None => select_role_records role records
    | Some key =>
      if bool_decide (key_role key ≠ role) then select_role_records role records
      else
        match decode_value (key_kind key) (fd_value record) with
        | Err e => Err (CoordinationError.Record_ e)
        | Ok value => cons (fd_offset record, key, value) <$> select_role_records role records
        end
    end
  end.

Definition next_scan_offset (current last : Z) (next_offset : option Z) : option Z :=
  next ← next_offset;
  if (next <=? current) || (last <=? next) then None else Some next.

(** ** Metadata and offsets *)

Section transport.
Context {Uuid : Type}.

Record PartitionMetadata : Type := mkPartitionMetadata { pm_index : Z; pm_error_code : Z; pm_leader_id : Z }.

Record TopicMetadata : Type := mkTopicMetadata {
  tm_name : option string;
  tm_topic_id : Uuid;
  tm_error_code : Z;
  tm_partitions : list PartitionMetadata;
}.

Record BrokerInfo : Type := mkBrokerInfo { bi_id : Z; bi_host : string; bi_port : Z; bi_rack : option string }.

Record MetadataResponse : Type := mkMetadata { md_brokers : list BrokerInfo; md_topics : list TopicMetadata }.

Record TopicLayout : Type := mkLayout { tl_partitions : Z; tl_topic_id : Uuid }.

Definition coordination_topic (response : MetadataResponse) : option TopicMetadata :=
  snd <$> list_find (λ t, tm_name t = Some COORDINATION_STATE_TOPIC) (md_topics response).

Definition topic_layout (response : MetadataResponse) : result CoordinationError.coordination_error TopicLayout :=
  match coordination_topic response with
  | None => Err (server UNKNOWN_TOPIC_OR_PARTITION)
  | Some topic =>
    let partitions := Z.of_nat (length (tm_partitions topic)) in
    if negb (tm_error_code topic =? 0) then Err (server (tm_error_code topic))
    else if i32_max <? partitions then Err (CoordinationError.InvalidConfig (CoordinationError.MsgReportsPartitions partitions))
    else if partitions =? 0 then Err (server UNKNOWN_TOPIC_OR_PARTITION)
    else Ok (mkLayout partitions (tm_topic_id topic))
  end.

Definition partition_leader (response : MetadataResponse) (partition : Z) : result CoordinationError.coordination_error Z :=
  match coordination_topic response with
  | None => Err (server UNKNOWN_TOPIC_OR_PARTITION)
  | Some topic =>
    match list_find (λ p, pm_index p = partition) (tm_partitions topic) with
    | None => Err (server UNKNOWN_TOPIC_OR_PARTITION)
    | Some (_, p) =>
      if negb (pm_error_code p =? 0) then Err (server (pm_error_code p))
      else if pm_leader_id p <? 0 then Err (server LEADER_NOT_AVAILABLE)
      else Ok (pm_leader_id p)
    end
  end.

(** The rows of a [ListOffsets] answer: topic, partition, error code, offset. *)
Definition list_offsets_offset (response : list (string * Z * Z * Z)) (partition : Z)
    : result CoordinationError.coordination_error Z :=
  match list_find (λ r, r.1.1.1 = COORDINATION_STATE_TOPIC ∧ r.1.1.2 = partition) response with
  | None => Err (server UNKNOWN_TOPIC_OR_PARTITION)
  | Some (_, (_, _, code, offset)) => if negb (code =? 0) then Err (server code) else Ok offset
  end.

(** ** State *)

(** A producer and a connection are known by a number. *)
Record CoordState : Type := mkCoordState {
  bt_layout : option TopicLayout;
  bt_registrar : option nat;
  bt_holders : gmap Role (nat * FencingToken);
  (** The handles to role producers that are not in [holders]. *)
  bt_clones : list nat;
  bt_now : Z;
}.

Record TransportConfig : Type := mkTransportConfig {
  bc_lease_duration : Z;
  bc_request_timeout : Z;
  bc_fetch_max_wait : Z;
  bc_fetch_partition_max : Z;
  bc_fetch_min : Z;
  bc_topic_partitions : Z;
  bc_topic_replication : Z;
}.

Inductive CoordIo : Type :=
| AdminLock
| HoldersLock
| LayoutPermit
| RegistrarPermit
| CreateTopics (spec : CreateTopicSpec) (timeout : Z)
| BootstrapConnection
| SendMetadata (connection : nat)
| RefreshBrokers (brokers : list BrokerInfo)
| PoolGet (broker : Z)
| SendListOffsets (connection : nat) (partition timestamp : Z)
| SendFetch (connection : nat) (request : PartitionFetchRequest Uuid)
| BuildProducer (transactional : option (string * Z)) (request_timeout : Z)
| InitTransactions (producer : nat)
| TransactionalIdentity (producer : nat)
| BeginTransaction (producer : nat)
| SendRecord (producer : nat) (record : ProducerRecord)
| CommitTransaction (producer : nat)
| AbortTransaction (producer : nat)
| CloseProducer (producer : nat)
| DescribeTransaction (transactional_id : string)
| CloseConnections.

Definition coord_answer (r : CoordIo) : Type :=
  match r with
  | CreateTopics _ _ => result AdminError.admin_error (list (option (Z * string * option string)))
  | BootstrapConnection | PoolGet _ => result ClientError.client_error nat
  | SendMetadata _ => result ClientError.client_error MetadataResponse
  | SendListOffsets _ _ _ => result ClientError.client_error (list (string * Z * Z * Z))
  | SendFetch _ _ => result ClientError.client_error (list (list PartitionData))
  | BuildProducer _ _ => result ProducerError.producer_error nat
  | TransactionalIdentity _ => option (Z * Z)
  | InitTransactions _ | BeginTransaction _ | SendRecord _ _ | CommitTransaction _ | AbortTransaction _
  | CloseProducer _ => result ProducerError.producer_error unit
  | DescribeTransaction _ => result AdminError.admin_error (Z * Z)
  | _ => unit
  end.
End transport.

Arguments TopicLayout : clear implicits.
Arguments MetadataResponse : clear implicits.
Arguments CoordState : clear implicits.
Arguments CoordIo : clear implicits.

Section operations.
Context {Uuid : Type} {Cluster : Type}.

(** The transport, with what the cluster has beside it. *)
#[export] Instance coord_world : World := {|
  State := CoordState Uuid * Cluster;
  Common := CoordState Uuid * Cluster;
  common st := st;
  resume _ st := st;
  Request := CoordIo Uuid;
  Answer := coord_answer;
|}.

Notation coord A := (async (W := coord_world) (result CoordinationError.coordination_error A)).

Definition coord_reads {A} (f : CoordState Uuid → A) : async (W := coord_world) A :=
  reads (W := coord_world) (λ st, f st.1).
Definition coord_writes (f : CoordState Uuid → CoordState Uuid) : async (W := coord_world) unit :=
  writes (W := coord_world) (λ st, (f st.1, st.2)).
Definition coord_wait (r : CoordIo Uuid) : async (W := coord_world) (coord_answer r) := wait (W := coord_world) r.

Definition put_layout (v : TopicLayout Uuid) (st : CoordState Uuid) : CoordState Uuid :=
  mkCoordState (Some v) (bt_registrar st) (bt_holders st) (bt_clones st) (bt_now st).
Definition put_registrar (v : nat) (st : CoordState Uuid) : CoordState Uuid :=
  mkCoordState (bt_layout st) (Some v) (bt_holders st) (bt_clones st) (bt_now st).
Definition put_holders (v : gmap Role (nat * FencingToken)) (st : CoordState Uuid) : CoordState Uuid :=
  mkCoordState (bt_layout st) (bt_registrar st) v (bt_clones st) (bt_now st).
Definition put_clones (v : list nat) (st : CoordState Uuid) : CoordState Uuid :=
  mkCoordState (bt_layout st) (bt_registrar st) (bt_holders st) v (bt_now st).

(** The errors of the libraries below ([From]). *)
Definition client {A} (m : async (W := coord_world) (result ClientError.client_error A)) : coord A :=
  r ← m; mret (match r with Ok a => Ok a | Err e => Err (CoordinationError.Client e) end).
Definition producing {A} (m : async (W := coord_world) (result ProducerError.producer_error A)) : coord A :=
  r ← m; mret (match r with Ok a => Ok a | Err e => Err (CoordinationError.Producer e) end).
Definition guarded {A} (role : Role) (m : async (W := coord_world) (result ProducerError.producer_error A)) : coord A :=
  r ← m; mret (match r with Ok a => Ok a | Err e => Err (fenced_or role e) end).

Context (cf : TransportConfig).

(** ** The topic *)

Definition create_topic : coord unit :=
  coord_wait AdminLock;;
  r ← coord_wait (CreateTopics (coordination_topic_spec (bc_topic_partitions cf) (bc_topic_replication cf))
                    (bc_request_timeout cf));
  mret (match r with
        | Err e => Err (CoordinationError.Admin e)
        | Ok outcomes => accept_topic_creation outcomes
        end).

Definition read_metadata : coord (MetadataResponse Uuid) :=
  connection ←! client (coord_wait BootstrapConnection);
  client (coord_wait (SendMetadata connection)).

Definition resolve_topic : coord (TopicLayout Uuid) :=
  _ ←! create_topic;
  metadata ←! read_metadata;
  mret (topic_layout metadata).

(** [OnceCell::get_or_try_init]: one task at a time has the permit, and a cell
    that is filled stays as it is. *)
Definition get_or_try_init {A} (get : CoordState Uuid → option A) (put : A → CoordState Uuid → CoordState Uuid)
    (permit : CoordIo Uuid) (init : coord A) : coord A :=
  v ← coord_reads get;
  match v with
  | Some a => mret (Ok a)
  | None =>
    _ ← coord_wait permit;
    v ← coord_reads get;
    match v with
    | Some a => mret (Ok a)
    | None => a ←! init; coord_writes (put a);; mret (Ok a)
    end
  end.

Definition layout : coord (TopicLayout Uuid) := get_or_try_init bt_layout put_layout LayoutPermit resolve_topic.

Definition partition_of (role : Role) : coord Z := l ←! layout; mret (role_partition role (tl_partitions l)).

(** ** The scan *)

Definition leader_connection (partition : Z) : coord nat :=
  metadata ←! read_metadata;
  coord_wait (RefreshBrokers (md_brokers metadata));;
  leader ←! mret (partition_leader metadata partition);
  client (coord_wait (PoolGet leader)).

Definition list_offset (connection : nat) (partition timestamp : Z) : coord Z :=
  response ←! client (coord_wait (SendListOffsets connection partition timestamp));
  mret (list_offsets_offset response partition).

(** [fetch_partition_with_isolation_progress]. *)
Definition fetch_page (connection : nat) (l : TopicLayout Uuid) (partition offset : Z) : coord FetchPartitionResult :=
  responses ←! client (coord_wait (SendFetch connection (build_partition_fetch
    (mkIsolatedFetch COORDINATION_STATE_TOPIC (tl_topic_id l) partition offset (bc_fetch_max_wait cf)
       DEFAULT_FETCH_RESPONSE_MAX (bc_fetch_partition_max cf) (bc_fetch_min cf) READ_COMMITTED))));
  client (mret (partition_progress responses partition offset READ_COMMITTED)).

Fixpoint scan (n : nat) (role : Role) (connection : nat) (l : TopicLayout Uuid) (partition offset last : Z)
    (records : RoleRecords) : coord RoleRecords :=
  match n with
  | O => spent
  | S n =>
    if offset <? last then
      page ←! fetch_page connection l partition offset;
      selected ←! mret (select_role_records role (fr_records page));
      match next_scan_offset offset last (fr_next_offset page) with
      | Some next => scan n role connection l partition next last (records ++ selected)
      | None => mret (Ok (records ++ selected))
      end
    else mret (Ok records)
  end.

Definition read_role_records (fuel : nat) (role : Role) : coord RoleRecords :=
  l ←! layout;
  partition ←! mret (role_partition role (tl_partitions l));
  connection ←! leader_connection partition;
  start ←! list_offset connection partition LIST_OFFSETS_EARLIEST;
  last ←! list_offset connection partition LIST_OFFSETS_LATEST;
  scan fuel role connection l partition start last [].

(** ** Producers *)

Definition build_registrar : coord nat := producing (coord_wait (BuildProducer None (bc_request_timeout cf))).

Definition registrar : coord nat := get_or_try_init bt_registrar put_registrar RegistrarPermit build_registrar.

Definition build_role_producer (role : Role) : coord nat :=
  guarded role (coord_wait (BuildProducer (Some (role_name role, bc_lease_duration cf)) (bc_request_timeout cf))).

Definition register (role : Role) (member : MemberId) : coord unit :=
  partition ←! partition_of role;
  producer ←! registrar;
  record ← coord_reads (λ st, registration_record role member partition (bt_now st));
  producing (coord_wait (SendRecord producer record)).

(** A producer that another handle shares stays open. *)
Definition close_producer (producer : nat) : async (W := coord_world) unit :=
  shared ← coord_reads (λ st, bool_decide (producer ∈ bt_clones st));
  if (shared : bool) then mret () else _ ← coord_wait (CloseProducer producer); mret ().

Definition install_holder (role : Role) (holder : nat * FencingToken) : async (W := coord_world) unit :=
  coord_wait HoldersLock;;
  replaced ← coord_reads (λ st, bt_holders st !! role);
  coord_writes (λ st, put_holders (<[role := holder]> (bt_holders st)) st);;
  match replaced with Some (producer, _) => close_producer producer | None => mret () end.

Definition hold_role (role : Role) (producer : nat) : coord FencingToken :=
  _ ←! guarded role (coord_wait (InitTransactions producer));
  identity ← coord_wait (TransactionalIdentity producer);
  match identity with
  | None =>
    mret (Err (CoordinationError.Producer
      (ProducerError.InvalidTransactionState "init_transactions returned without an identity")))
  | Some (producer_id, producer_epoch) =>
    match FencingToken_new producer_id producer_epoch with
    | Err e => mret (Err (CoordinationError.Record_ e))
    | Ok token => install_holder role (producer, token);; mret (Ok token)
    end
  end.

Definition acquire_epoch (role : Role) : coord FencingToken :=
  _ ←! layout;
  producer ←! build_role_producer role;
  hold_role role producer.

Definition bound_producer (role : Role) : async (W := coord_world) (option nat) :=
  coord_wait HoldersLock;;
  producer ← coord_reads (λ st, fst <$> bt_holders st !! role);
  match producer with
  | Some p => coord_writes (λ st, put_clones (p :: bt_clones st) st)
  | None => mret ()
  end;;
  mret producer.

Definition held_token (role : Role) : async (W := coord_world) (option FencingToken) :=
  coord_wait HoldersLock;; coord_reads (λ st, snd <$> bt_holders st !! role).

(** ** Leases *)

Fixpoint drop_one (p : nat) (l : list nat) : list nat :=
  match l with [] => [] | q :: l => if bool_decide (q = p) then l else q :: drop_one p l end.

(** The transaction of a lease, with a handle to the producer. *)
Definition lease_transaction (role : Role) (producer : nat) (record : ProducerRecord) : coord unit :=
  _ ←! guarded role (coord_wait (BeginTransaction producer));
  sent ← coord_wait (SendRecord producer record);
  match sent with
  | Err error => _ ← coord_wait (AbortTransaction producer); mret (Err (fenced_or role error))
  | Ok _ => guarded role (coord_wait (CommitTransaction producer))
  end.

Definition write_lease (role : Role) (token : FencingToken) (lease : Lease) : coord unit :=
  partition ←! partition_of role;
  coord_wait HoldersLock;;
  bound ← coord_reads (λ st, match bt_holders st !! role with
                              | Some (p, held) => if bool_decide (held = token) then Some p else None
                              | None => None
                              end);
  match bound with
  | None => mret (Err (CoordinationError.NotHeld role (lease_member lease)))
  | Some producer =>
    coord_writes (λ st, put_clones (producer :: bt_clones st) st);;
    r ← lease_transaction role producer (lease_record role lease partition);
    coord_writes (λ st, put_clones (drop_one producer (bt_clones st)) st);;
    mret r
  end.

Definition describe (role : Role) : coord (option FencingToken) :=
  coord_wait AdminLock;;
  r ← coord_wait (DescribeTransaction (role_name role));
  mret (match r with
        | Ok row => Ok (token_from_description row)
        | Err e => if reports_unknown_transactional_id e then Ok None else Err (CoordinationError.Admin e)
        end).

(** ** The close *)

Fixpoint close_holders (holders : list (Role * (nat * FencingToken))) : async (W := coord_world) unit :=
  match holders with
  | [] => mret ()
  | (_, (producer, _)) :: holders => close_producer producer;; close_holders holders
  end.

Definition transport_close : async (W := coord_world) unit :=
  holders ← coord_reads (λ st, map_to_list (bt_holders st));
  coord_writes (put_holders ∅);;
  close_holders holders;;
  registrar ← coord_reads bt_registrar;
  match registrar with Some p => _ ← coord_wait (CloseProducer p); mret () | None => mret () end;;
  coord_wait CloseConnections.
End operations.
