(* ===== verification/CoordScan.v ===== *)
(** * What a member reads of its role

    The scan of [CoordBroker.read_role_records] against the log of the role's
    partition, and the records that the transport writes read back. *)

From S2P Require Import Prelude Bytes CoordRecord Errors CoordSuccession Partitioner.
From S2P Require Import FetchBuffer FetchDecode CoreFetch Async CoordBroker.

(** ** The records of a role *)

Notation content := (Z * option bytes * option bytes * list (string * option bytes))%type.

(** A record of the role, with its value if that decodes. *)
Definition role_entry (role : Role) (c : content) : option (Z * CoordinationKey * result RecordError CoordinationRecord) :=
  match c.1.1.2 ≫= λ k, match decode_key k with Ok key => Some key | Err _ => None end with
  | None => None
  | Some key =>
    if bool_decide (key_role key ≠ role) then None
    else Some (c.1.1.1, key, decode_value (key_kind key) c.1.2)
  end.

Definition role_entries (role : Role) (l : list content) : list (Z * CoordinationKey * result RecordError CoordinationRecord) :=
  omap (role_entry role) l.

Definition decoded (out : RoleRecords) : list (Z * CoordinationKey * result RecordError CoordinationRecord) :=
  (λ e, (e.1.1, e.1.2, Ok e.2)) <$> out.

Lemma role_entries_cons role c l :
  role_entries role (c :: l) =
    match role_entry role c with Some e => e :: role_entries role l | None => role_entries role l end.
Proof. done. Qed.

Lemma role_entries_app role l1 l2 : role_entries role (l1 ++ l2) = role_entries role l1 ++ role_entries role l2.
Proof. apply omap_app. Qed.

(** The selection is every entry of the role, or the error of the first value
    that does not decode. *)
Lemma select_spec role records :
  match select_role_records role records with
  | Ok out => role_entries role (fetched_content <$> records) = decoded out
  | Err e => ∃ o key e', e = CoordinationError.Record_ e' ∧
      (o, key, Err e') ∈ role_entries role (fetched_content <$> records)
  end.
Proof.
  induction records as [|r records IH]; [done|]. rewrite fmap_cons, role_entries_cons.
  cbn [select_role_records]. unfold role_entry. cbn [fetched_content fst snd].
  destruct (fd_key r ≫= _) as [key|]; [|exact IH].
  case_bool_decide; [exact IH|].
  destruct (decode_value (key_kind key) (fd_value r)) as [value|e] eqn:Hv.
  - destruct (select_role_records role records) as [out|e]; simpl.
    + by rewrite IH.
    + destruct IH as (o & k & e' & -> & Hin). exists o, k, e'. split; [done|]. by right.
  - exists (fd_offset r), key, e. split; [done|]. left.
Qed.

(** ** What is written is read back *)

Definition as_fetched (offset : Z) (r : ProducerRecord) : FetchedRecord :=
  mkFetchedRecord offset (pr_key r) (pr_value r) 0 (pr_headers r).

Lemma coordination_record_back role key value partition offset :
  key_wf key → key_role key = role → record_wf (key_kind key) value →
  select_role_records role [as_fetched offset (coordination_record key value partition)] = Ok [(offset, key, value)] ∧
  ∀ other, other ≠ role → select_role_records other [as_fetched offset (coordination_record key value partition)] = Ok [].
Proof.
  intros Hk Hr Hv. simpl. rewrite (proj2 (decode_key_ok (encode_key key) key)) by done. split.
  - rewrite bool_decide_eq_false_2 by (by intros ?). rewrite (proj2 (decode_value_ok _ _ value)) by done. done.
  - intros other Hne. rewrite bool_decide_eq_true_2 by congruence. done.
Qed.



(** ** The scan *)

Section scan.
Context {Uuid Cluster : Type} (cf : TransportConfig).
Context (aborts : RecordBatch → bool) (partitions : Z).
Context (logs : Z → list RecordBatch) (indexes : Z → list AbortedTxn) (first last : Z → Z).
(** The offsets at which a fetch of a partition may be answered without a batch. *)
Context (empty_at : Z → Z → Prop).

Definition visible_between (p low high : Z) : list content :=
  consumer_content <$> log_between aborts (logs p) (COORDINATION_STATE_TOPIC, p) low high.

(** The answer to a fetch: one row, with batches of the log from the fetch
    offset on, or no row, as a broker answers a client that it throttles. *)
Definition page_served (p offset : Z) (responses : list (list PartitionData)) : Prop :=
  (mjoin responses = [] ∧ empty_at p offset) ∨
  ∃ part, responses = [[part]] ∧ pd_partition_index part = p ∧
    (pd_error_code part = 0 →
       served true (logs p) (indexes p) offset part ∧ (pd_records part = Some [] → empty_at p offset)).

Definition layout_known (st : CoordState Uuid * Cluster) : Prop :=
  ∀ l, bt_layout st.1 = Some l → tl_partitions l = partitions.

(** [first] and [last] are the offsets that the leader lists. *)
Definition scan_env : env (W := coord_world (Uuid := Uuid) (Cluster := Cluster)) := λ r _ ans st',
  layout_known st' ∧
  match r return coord_answer r → Prop with
  | SendMetadata _ => λ ans, ∀ m l, ans = Ok m → topic_layout m = Ok l → tl_partitions l = partitions
  | SendListOffsets _ p timestamp => λ ans, ∀ rows o, ans = Ok rows → list_offsets_offset rows p = Ok o →
      (timestamp = LIST_OFFSETS_EARLIEST → o = first p) ∧ (timestamp = LIST_OFFSETS_LATEST → o = last p)
  | SendFetch _ request => λ ans, ∀ responses t p o bytes, ans = Ok responses →
      pf_topics request = [(t, [(p, o, bytes)])] → page_served p o responses
  | _ => λ _, True
  end ans.

Notation SAFE m Q := (safe scan_env layout_known False m Q).

Lemma coord_await r st (Q : coord_answer r → _ → Prop) :
  layout_known st → (∀ ans st', scan_env r st ans st' → Q ans st') → SAFE (coord_wait r st) Q.
Proof. intros Hst HQ. split; [done|]. exact HQ. Qed.

Lemma client_await {A} (m : async (W := coord_world) (result ClientError.client_error A)) st Q :
  SAFE (m st) (λ r st', Q (match r with Ok a => Ok a | Err e => Err (CoordinationError.Client e) end) st') →
  SAFE (client m st) Q.
Proof. intros H. unfold client. safe_pure. eapply safe_mono; [|exact H]. by intros r st'. Qed.

Lemma read_metadata_ok st (Q : _ → _ → Prop) :
  layout_known st →
  (∀ r st', layout_known st' →
     match r with
     | Ok m => ∀ l, topic_layout m = Ok l → tl_partitions l = partitions
     | Err e => ∃ e', e = CoordinationError.Client e'
     end → Q r st') →
  SAFE (read_metadata st) Q.
Proof.
  intros Hst HQ. unfold read_metadata. safe_pure. apply client_await, coord_await; [done|]. intros [c|e] st1 [H1 _].
  - apply client_await, coord_await; [done|]. intros [m|e] st2 [H2 Hm]; apply HQ; eauto.
  - apply HQ; eauto.
Qed.

Lemma create_topic_ok st (Q : _ → _ → Prop) :
  layout_known st →
  (∀ r st', layout_known st' → match r with Ok _ => True | Err e => ∃ e', e = CoordinationError.Admin e' end → Q r st') →
  SAFE (create_topic cf st) Q.
Proof.
  intros Hst HQ. unfold create_topic. safe_pure. apply coord_await; [done|]. intros _ st1 [H1 _].
  safe_pure. apply coord_await; [done|]. intros r st2 [H2 _]. safe_pure. apply HQ; [done|].
  destruct r as [outcomes|e]; [|eauto]. unfold accept_topic_creation.
  destruct (list_find _ outcomes) as [[i [[[code name] message]|]]|]; simpl; eauto.
Qed.

(** An error that is not of a record. *)
Definition other_error (e : CoordinationError.coordination_error) : Prop :=
  match e with CoordinationError.Record_ _ => False | _ => True end.

Lemma layout_ok st (Q : _ → _ → Prop) :
  layout_known st →
  (∀ r st', layout_known st' →
     match r with Ok l => tl_partitions l = partitions | Err e => other_error e end → Q r st') →
  SAFE (layout cf st) Q.
Proof.
  intros Hst HQ. unfold layout, get_or_try_init, coord_reads, coord_writes. safe_pure.
  destruct (bt_layout st.1) as [l|] eqn:Hl; [safe_pure; apply HQ; eauto|].
  safe_pure. apply coord_await; [done|]. intros [] st1 [H1 _]. safe_pure.
  destruct (bt_layout st1.1) as [l|] eqn:Hl1; [safe_pure; apply HQ; eauto|].
  safe_pure. unfold resolve_topic. safe_pure. apply create_topic_ok; [done|]. intros r st2 H2 Hr.
  destruct r as [[]|e]; [|destruct Hr as [e' ->]; apply HQ; done]. safe_pure.
  apply read_metadata_ok; [done|]. intros r st3 H3 Hm. destruct r as [m|e]; [|destruct Hm as [e' ->]; apply HQ; done].
  safe_pure. destruct (topic_layout m) as [l|e] eqn:Ht.
  - safe_pure. apply HQ; [intros l' [= <-]|]; by apply Hm.
  - apply HQ; [done|]. unfold topic_layout in Ht. repeat case_match; simplify_eq; done.
Qed.

Lemma log_between_split p low mid high :
  log_ok (logs p) → low ≤ mid → mid ≤ high →
  visible_between p low high = visible_between p low mid ++ visible_between p mid high.
Proof.
  intros [Hs Hok] H1 H2. unfold visible_between, log_between.
  pose proof (visible_sorted aborts true (COORDINATION_STATE_TOPIC, p) (logs p) [] Hs Hok) as Hv.
  rewrite <- fmap_app. f_equal.
  induction Hv as [|r l Hv IH Hr]; [done|]. rewrite !filter_cons.
  destruct (decide (cr_offset r < mid)) as [Hm|Hm].
  - rewrite (decide_False (P := mid ≤ _ < _)) by lia. rewrite IH.
    destruct (decide (low ≤ cr_offset r)); [rewrite !decide_True by lia|rewrite !decide_False by lia]; done.
  - assert (filter (λ r, low ≤ cr_offset r < mid) l = []) as Hnil.
    { apply filter_none. intros x Hx. rewrite Forall_forall in Hr. specialize (Hr x Hx). unfold offset_lt in Hr. lia. }
    rewrite Hnil in IH |- *. rewrite (decide_False (P := low ≤ _ < mid)) by lia. simpl in IH |- *. rewrite IH.
    destruct (decide (cr_offset r < high)); [rewrite !decide_True by lia|rewrite !decide_False by lia]; done.
Qed.

(** What a scan that has read up to some offset promises. *)
Definition read_post (role : Role) (p : Z)
    (r : result CoordinationError.coordination_error RoleRecords) : Prop :=
  match r with
  | Ok out => ∃ stop, first p ≤ stop ∧ (last p ≤ stop ∨ empty_at p stop) ∧
      role_entries role (visible_between p (first p) stop) = decoded out
  | Err (CoordinationError.Record_ e) => ∃ o key stop, (o, key, Err e) ∈ role_entries role (visible_between p (first p) stop)
  | Err _ => True
  end.

Context (Hlogs : ∀ p, log_ok (logs p)) (Hindexes : ∀ p, index_ok aborts (logs p) (indexes p)).

Lemma fetch_page_ok c l p offset st (Q : _ → _ → Prop) :
  layout_known st →
  (∀ r st', layout_known st' →
     match r with
     | Ok page =>
       match fr_next_offset page with
       | Some next => offset < next ∧ fetched_content <$> fr_records page = visible_between p offset next
       | None => fr_records page = [] ∧ empty_at p offset
       end
     | Err e => other_error e
     end → Q r st') →
  SAFE (fetch_page cf c l p offset st) Q.
Proof.
  intros Hst HQ. unfold fetch_page. safe_pure. apply client_await, coord_await; [done|]. intros [responses|e] st1 [H1 Hf].
  2:{ apply HQ; done. }
  apply client_await. safe_pure. apply HQ; [done|].
  destruct (Hf responses _ p offset _ eq_refl eq_refl) as [[Hnil Hempty]|(part & -> & Hp & Hserved)].
  { unfold partition_progress. rewrite Hnil. done. }
  destruct (Z.eq_dec (pd_error_code part) 0) as [He|He].
  - destruct (Hserved He) as [Hsv Hempty].
    destruct (served_progress aborts (logs p) (indexes p) (COORDINATION_STATE_TOPIC, p) (Hlogs p) (Hindexes p) p offset part Hsv Hp He)
      as (batches & records & Hrec & Hprog & Hres).
    unfold READ_COMMITTED. rewrite Hprog. simpl. destruct (next_offset_after batches); [exact Hres|].
    destruct Hres as [-> ->]. split; [done|]. by apply Hempty.
  - unfold partition_progress. simpl. rewrite Hp, Z.eqb_refl. rewrite (proj2 (Z.eqb_neq _ _) He). done.
Qed.

Lemma scan_ok n role c l p offset records st :
  layout_known st → first p ≤ offset → last p - offset < Z.of_nat n → (0 < n)%nat →
  role_entries role (visible_between p (first p) offset) = decoded records →
  SAFE (scan cf n role c l p offset (last p) records st) (λ r st', layout_known st' ∧ read_post role p r).
Proof.
  revert offset records st. induction n as [|n IH]; intros offset records st Hst Hfirst Hn Hpos Hrec; [lia|].
  cbn [scan]. destruct (Z.ltb_spec offset (last p)) as [Hlt|Hge].
  2:{ safe_pure. split; [done|]. exists offset. split_and!; [done|by left|done]. }
  safe_pure. apply fetch_page_ok; [done|]. intros [page|e] st1 H1 Hpage; [|split; [done|]; by destruct e].
  safe_pure. pose proof (select_spec role (fr_records page)) as Hsel.
  destruct (select_role_records role (fr_records page)) as [selected|e].
  2:{ split; [done|]. destruct Hsel as (o & key & e' & -> & Hin).
      destruct (fr_next_offset page) as [next|]; [destruct Hpage as [Hnext Hpage]|destruct Hpage as [Hpage _]];
        [|by rewrite Hpage in Hin; apply not_elem_of_nil in Hin].
      exists o, key, next. rewrite Hpage in Hin.
      rewrite (log_between_split p (first p) offset next), role_entries_app by (done || lia). apply elem_of_app. by right. }
  destruct (fr_next_offset page) as [next|].
  - destruct Hpage as [Hnext Hpage]. rewrite Hpage in Hsel.
    assert (role_entries role (visible_between p (first p) next) = decoded (records ++ selected)) as Hrec'.
    { rewrite (log_between_split p (first p) offset next), role_entries_app, Hrec, Hsel by (done || lia).
      unfold decoded. by rewrite fmap_app. }
    unfold next_scan_offset. simpl. rewrite (proj2 (Z.leb_gt _ _)) by lia. simpl.
    destruct (Z.leb_spec (last p) next) as [Hle|Hgt].
    + safe_pure. split; [done|]. exists next. split_and!; [lia|by left|done].
    + apply IH; [done|lia|lia|lia|done].
  - destruct Hpage as [Hnil Hempty]. rewrite Hnil in Hsel. simpl.
    safe_pure. split; [done|]. exists offset. split_and!; [done|by right|].
    rewrite Hrec. unfold decoded in *. rewrite fmap_app. simpl in Hsel. by rewrite <- Hsel, app_nil_r.
Qed.

Lemma list_offset_ok c p timestamp st (Q : _ → _ → Prop) :
  layout_known st →
  (∀ r st', layout_known st' →
     match r with
     | Ok o => (timestamp = LIST_OFFSETS_EARLIEST → o = first p) ∧ (timestamp = LIST_OFFSETS_LATEST → o = last p)
     | Err e => other_error e
     end → Q r st') →
  SAFE (list_offset c p timestamp st) Q.
Proof.
  intros Hst HQ. unfold list_offset. safe_pure. apply client_await, coord_await; [done|]. intros [rows|e] st1 [H1 Hr].
  2:{ apply HQ; done. }
  safe_pure. apply HQ; [done|]. destruct (list_offsets_offset rows p) as [o|e] eqn:Ho; [by apply (Hr rows)|].
  unfold list_offsets_offset in Ho. repeat case_match; simplify_eq; done.
Qed.

Lemma leader_connection_ok p st (Q : _ → _ → Prop) :
  layout_known st →
  (∀ r st', layout_known st' → match r with Ok _ => True | Err e => other_error e end → Q r st') →
  SAFE (leader_connection p st) Q.
Proof.
  intros Hst HQ. unfold leader_connection. safe_pure. apply read_metadata_ok; [done|].
  intros [m|e] st1 H1 Hm; [|destruct Hm as [e' ->]; apply HQ; done].
  safe_pure. apply coord_await; [done|]. intros [] st2 [H2 _]. safe_pure.
  destruct (partition_leader m p) as [leader|e] eqn:Hl.
  - apply client_await, coord_await; [done|]. intros [c|e] st3 [H3 _]; apply HQ; done.
  - apply HQ; [done|]. unfold partition_leader in Hl. repeat case_match; simplify_eq; done.
Qed.

Lemma read_role_records_ok fuel role p st :
  layout_known st → role_partition role partitions = Ok p → last p - first p < Z.of_nat fuel → (0 < fuel)%nat →
  SAFE (read_role_records cf fuel role st) (λ r _, read_post role p r).
Proof.
  intros Hst Hp Hfuel Hpos. unfold read_role_records. safe_pure.
  apply layout_ok; [done|]. intros [l|e] st1 H1 Hl; [|by destruct e]. safe_pure. rewrite Hl, Hp.
  safe_pure. apply leader_connection_ok; [done|]. intros [c|e] st2 H2 He; [|by destruct e]. clear He.
  safe_pure. apply list_offset_ok; [done|]. intros [start|e] st3 H3 Hs; [|by destruct e].
  rewrite (proj1 Hs eq_refl). clear Hs. safe_pure.
  apply list_offset_ok; [done|]. intros [fin|e] st4 H4 Hs; [|by destruct e]. rewrite (proj2 Hs eq_refl). clear Hs.
  eapply safe_mono; [|apply scan_ok; try done; try lia]; [by intros ?? [_ ?]|].
  unfold visible_between, log_between. rewrite filter_none; [done|]. intros; lia.
Qed.
End scan.

(** C17: a member reads the state of its role without a gap. When the leader's
    answers are batches of the partition's log, or without a batch at the
    offsets [empty_at], the scan of [read_role_records] ends within one round for
    each offset of the partition and one more. Without an error it has, in
    order, exactly the records of the role that the log shows to a committed
    read from its first offset up to the offset at which it stopped: nothing of
    an aborted lease write and nothing of another role. It stops at or past the
    last stable offset at the start of the scan, or at an offset at which the
    leader answered without a batch. It fails on a record only when the value of
    a record of the role does not decode. *)
Theorem role_read_exact {Uuid Cluster : Type} cf aborts partitions logs indexes first last empty_at fuel role p
    (st : CoordState Uuid * Cluster) :
  (∀ p, log_ok (logs p)) → (∀ p, index_ok aborts (logs p) (indexes p)) →
  layout_known partitions st → role_partition role partitions = Ok p →
  last p - first p < Z.of_nat fuel → (0 < fuel)%nat →
  let E := scan_env partitions logs indexes first last empty_at in
  finishes E (read_role_records cf fuel role st) ∧
  ∀ r st', results E (read_role_records cf fuel role st) r st' →
    match r with
    | Ok out => ∃ stop, first p ≤ stop ∧ (last p ≤ stop ∨ empty_at p stop) ∧
        role_entries role (visible_between aborts logs p (first p) stop) = decoded out
    | Err (CoordinationError.Record_ e) => ∃ o key stop,
        (o, key, Err e) ∈ role_entries role (visible_between aborts logs p (first p) stop)
    | Err _ => True
    end.
Proof.
  intros Hlogs Hindexes Hst Hp Hfuel Hpos E. eapply safe_complete.
  exact (read_role_records_ok cf aborts partitions logs indexes first last empty_at Hlogs Hindexes fuel role p st Hst Hp Hfuel Hpos).
Qed.

(** A page without a row ends the scan, and what it has read so far is the
    result: a broker that throttles a client answers a fetch in this way. *)
Lemma empty_page_ends_scan {Uuid Cluster : Type} cf n role c l p offset last records (st : CoordState Uuid * Cluster) :
  offset < last →
  results (W := coord_world)
    (λ r _ ans _, match r return coord_answer r → Prop with SendFetch _ _ => λ ans, ans = Ok [] | _ => λ _, True end ans)
    (scan cf (S n) role c l p offset last records st) (Ok records) st.
Proof.
  intros Hlt. cbn [scan]. rewrite (proj2 (Z.ltb_lt _ _) Hlt).
  eapply (results_later (W := coord_world (Uuid := Uuid) (Cluster := Cluster)) _
    (One (W := coord_world (Uuid := Uuid) (Cluster := Cluster)) (SendFetch _ _)) st _ (Ok []) st); [done|].
  unfold attempt, client, mbind, async_bind, mret, async_ret. simpl. rewrite app_nil_r. constructor.
Qed.

(** A registration, a lease of an aborted transaction, and one of a committed
    transaction. *)
Module DemoScan.
Definition of_record (r : ProducerRecord) : BatchRecord := mkBatchRecord 0 0 (pr_key r) (pr_value r) [].
Definition batch (base pid : Z) (control txn : bool) (records : list ProducerRecord) : RecordBatch :=
  mkBatch base 0 0 control txn CreateTime 0 0 pid (of_record <$> records).

Definition registration : ProducerRecord := registration_record sample_role node1 0 5.
Definition lease (epoch : Z) : Lease := mkLease node1 (mkToken 1 epoch) 0 1000.

Definition log : list RecordBatch :=
  [batch 0 9 false false [registration];
   batch 1 1 false true [lease_record sample_role (lease 0) 0]; batch 2 1 true true [];
   batch 3 1 false true [lease_record sample_role (lease 1) 0]; batch 4 1 true true []].
Definition index : list AbortedTxn := [mkTxn 1 2 1].
Definition aborts (c : RecordBatch) : bool := rb_base_offset c =? 2.
Definition row : PartitionData := mkPartitionData 0 0 5 5 (-1) (-1) (-1) (-1) (Some [(1, 1)]) (Some log).

Definition logs (p : Z) : list RecordBatch := if p =? 0 then log else [].
Definition indexes (p : Z) : list AbortedTxn := if p =? 0 then index else [].

Lemma demo_logs_ok p : log_ok (logs p).
Proof.
  unfold logs. case_match; split; repeat (constructor; simpl; try (unfold batch_lt, batch_last; simpl; lia)).
Qed.

Lemma demo_indexes_ok p : index_ok aborts (logs p) (indexes p).
Proof.
  unfold logs, indexes. case_match; [|split; [by intros e ?%elem_of_nil|by intros [|] ]]. split.
  - intros e ->%list_elem_of_singleton. simpl. split; [lia|]. split.
    + exists (batch 2 1 true true []). split; [unfold log; set_solver|done].
    + intros c Hc Hm Hle. unfold log in Hc. rewrite !elem_of_cons, elem_of_nil in Hc.
      destruct_or! Hc; subst; simpl in *; try done; lia.
  - intros before b after Hl Hc Ht Ha. unfold log in Hl.
    repeat (destruct before as [|? before]; simplify_eq/=; try done);
      exists (mkTxn 1 2 1); (split; [set_solver|]); simpl; split; [done|lia].
Qed.

Lemma demo_row_served : served true (logs 0) (indexes 0) 0 row.
Proof.
  split. exists [], log, []. split_and!; [done|done|constructor|repeat constructor; simpl; unfold batch_last; simpl; lia|].
  intros _ f p. simpl. rewrite list_elem_of_singleton. split.
  - intros [= -> ->]. exists (mkTxn 1 2 1), 5. simpl. split_and!; [set_solver|done|done|lia|done|lia].
  - intros (e & next & ->%list_elem_of_singleton & <- & <- & _). done.
Qed.

Definition config : TransportConfig := mkTransportConfig 30000 30000 500 1048576 1 1 1.
Definition start : CoordState unit * unit := (mkCoordState (Some (mkLayout 1 ())) None ∅ [] 0, ()).

Definition metadata : MetadataResponse unit :=
  mkMetadata [] [mkTopicMetadata (Some COORDINATION_STATE_TOPIC) () 0 [mkPartitionMetadata 0 0 1]].

(** A cluster with this log, which answers no fetch without a batch. *)
Definition nowhere (p offset : Z) : Prop := False.

Definition oracle (r : CoordIo unit) (st : CoordState unit * unit) : coord_answer r * (CoordState unit * unit) :=
  (match r return coord_answer r with
   | CreateTopics _ _ => Ok []
   | BootstrapConnection | PoolGet _ => Ok 0%nat
   | SendMetadata _ => Ok metadata
   | SendListOffsets _ p timestamp => Ok [(COORDINATION_STATE_TOPIC, p, 0, if timestamp =? LIST_OFFSETS_EARLIEST then 0 else 5)]
   | SendFetch _ request =>
     if bool_decide ((λ t, (λ e, e.1) <$> t.2) <$> pf_topics request = [[(0, 0)]]) then Ok [[row]]
     else Err (ClientError.Server 1)
   | BuildProducer _ _ => Ok 0%nat
   | TransactionalIdentity _ => None
   | InitTransactions _ | BeginTransaction _ | SendRecord _ _ | CommitTransaction _ | AbortTransaction _
   | CloseProducer _ => Ok ()
   | DescribeTransaction _ => Err (AdminError.Protocol "")
   | _ => ()
   end, st).

Lemma cluster_oracle_ok r st :
  layout_known 1 st → scan_env 1 logs indexes (λ _, 0) (λ _, 5) nowhere r st (oracle r st).1 (oracle r st).2.
Proof.
  intros Hst. split; [done|]. destruct r; try done; simpl.
  - intros m l [= <-]. simpl. unfold topic_layout. simpl. intros [= <-]. done.
  - intros rows o [= <-]. unfold list_offsets_offset. simpl. rewrite decide_True by done. simpl.
    destruct (timestamp =? LIST_OFFSETS_EARLIEST) eqn:Ht; intros [= <-]; split; intros ->; done.
  - intros responses t p o bytes. case_bool_decide as Hb; [|done]. intros [= <-] Ht. rewrite Ht in Hb. simplify_eq/=.
    right. exists row. split_and!; [done..|]. intros _. split; [exact demo_row_served|done].
Qed.

Definition run {A} (m : proc A) : proc A := play (W := coord_world (Uuid := unit) (Cluster := unit)) oracle (λ _, false) 100 m.

Definition found : RoleRecords :=
  [(0, key_registration sample_role node1, RecRegistration (mkRegistration node1 5));
   (3, key_lease sample_role, RecLease (lease 1))].

Lemma run_read : run (read_role_records config 6 sample_role start) =
  Ret (W := coord_world (Uuid := unit) (Cluster := unit)) (Ok found) start.
Proof. reflexivity. Qed.

Lemma read_results :
  results (W := coord_world (Uuid := unit) (Cluster := unit)) (scan_env 1 logs indexes (λ _, 0) (λ _, 5) nowhere) (read_role_records config 6 sample_role start)
    (Ok found) start.
Proof.
  eapply play_results; [|apply (read_role_records_ok config aborts 1 logs indexes (λ _, 0) (λ _, 5) nowhere demo_logs_ok demo_indexes_ok)
    with (p := 0); try done; [by intros l [= <-]|lia]|exact run_read].
  apply cluster_oracle_ok.
Qed.
End DemoScan.

Lemma role_read_exact_witness :
  ∃ stop, 5 ≤ stop ∧
    role_entries sample_role (visible_between DemoScan.aborts DemoScan.logs 0 0 stop) = decoded DemoScan.found.
Proof.
  assert (layout_known (Uuid := unit) (Cluster := unit) 1 DemoScan.start) as Hst by (by intros l [= <-]).
  destruct (proj2 (role_read_exact DemoScan.config DemoScan.aborts 1 DemoScan.logs DemoScan.indexes (λ _, 0) (λ _, 5)
    DemoScan.nowhere 6 sample_role 0 DemoScan.start DemoScan.demo_logs_ok DemoScan.demo_indexes_ok Hst eq_refl eq_refl
    ltac:(lia)) _ _ DemoScan.read_results) as (stop & _ & [Hstop|[]] & Hr).
  exists stop. split; [exact Hstop|exact Hr].
Defined.
