(* ===== verification/CoordFencing.v ===== *)
(** * Epochs and leases across members

    Many members, each with its transport, on one cluster. The cluster keeps
    the epoch of every transactional id and refuses a commit of a producer that
    a later one of the same id superseded. The proofs show what the transport
    adds: at every await of every operation the leases in the log follow the
    epochs of their roles. *)

From S2P Require Import Prelude Bytes CoordRecord Errors CoordSuccession Partitioner.
From S2P Require Import FetchBuffer FetchDecode CoreFetch Async CoordBroker.

(** ** The cluster *)

Record Cluster : Type := mkCluster {
  (** The transactional id of a producer, and the epoch that it initialised. *)
  cl_ids : gmap nat string;
  cl_minted : gmap nat FencingToken;
  (** Producers without a transactional id. *)
  cl_plain : gset nat;
  (** The producer that initialised an id last, and the epoch that the
      transaction coordinator reports. *)
  cl_owner : gmap string nat;
  cl_epoch : gmap string FencingToken;
  (** The records of open transactions, and the committed ones in log order. *)
  cl_open : gmap nat (list ProducerRecord);
  cl_leases : list (nat * ProducerRecord);
}.

Definition with_ids v (c : Cluster) : Cluster :=
  mkCluster v (cl_minted c) (cl_plain c) (cl_owner c) (cl_epoch c) (cl_open c) (cl_leases c).
Definition with_plain v (c : Cluster) : Cluster :=
  mkCluster (cl_ids c) (cl_minted c) v (cl_owner c) (cl_epoch c) (cl_open c) (cl_leases c).
Definition with_open v (c : Cluster) : Cluster :=
  mkCluster (cl_ids c) (cl_minted c) (cl_plain c) (cl_owner c) (cl_epoch c) v (cl_leases c).
Definition initialised (p : nat) (id : string) (t : FencingToken) (c : Cluster) : Cluster :=
  mkCluster (cl_ids c) (<[p := t]> (cl_minted c)) (cl_plain c) (<[id := p]> (cl_owner c)) (<[id := t]> (cl_epoch c))
    (cl_open c) (cl_leases c).
Definition committed (p : nat) (id : string) (records : list ProducerRecord) (t : FencingToken) (c : Cluster) : Cluster :=
  mkCluster (cl_ids c) (cl_minted c) (cl_plain c) (cl_owner c) (<[id := t]> (cl_epoch c))
    (delete p (cl_open c)) (cl_leases c ++ ((λ r, (p, r)) <$> records)).

Definition fresh (p : nat) (c : Cluster) : Prop :=
  cl_ids c !! p = None ∧ cl_minted c !! p = None ∧ p ∉ cl_plain c ∧ cl_open c !! p = None.

(** [InitProducerId] raises the epoch of the id. *)
Definition initialises (p : nat) (c c' : Cluster) : Prop :=
  ∃ id t, cl_ids c !! p = Some id ∧ cl_minted c !! p = None ∧
    (∀ t0, cl_epoch c !! id = Some t0 → token_lt t0 t) ∧ c' = initialised p id t c.

(** [EndTxn] is accepted from the producer that initialised the id last; with
    transaction version 2 it raises the epoch, which the producer adopts. *)
Definition commits (version_2 : bool) (p : nat) (c c' : Cluster) : Prop :=
  ∃ id records t t', cl_ids c !! p = Some id ∧ cl_owner c !! id = Some p ∧ cl_open c !! p = Some records ∧
    cl_epoch c !! id = Some t ∧ token_le t t' ∧ (version_2 = true → token_lt t t') ∧ c' = committed p id records t' c.

Section fencing.
Context {Uuid : Type} (version_2 : bool).
Notation state := (CoordState Uuid * Cluster)%type.

(** What one request does. An error may hide that the cluster did its part. *)
Definition effect (r : CoordIo Uuid) : coord_answer r → Cluster → Cluster → Prop :=
  match r return coord_answer r → Cluster → Cluster → Prop with
  | BuildProducer transactional _ => λ ans c c',
    match ans with
    | Ok p => fresh p c ∧ c' = match transactional with
                                | Some (id, _) => with_ids (<[p := id]> (cl_ids c)) c
                                | None => with_plain ({[ p ]} ∪ cl_plain c) c
                                end
    | Err _ => c' = c
    end
  | InitTransactions p => λ ans c c', initialises p c c' ∨ (∃ e, ans = Err e) ∧ c' = c
  | TransactionalIdentity p => λ ans c c',
    c' = c ∧ ∀ pid epoch, ans = Some (pid, epoch) → cl_minted c !! p = Some (mkToken pid epoch)
  | BeginTransaction p => λ ans c c',
    is_Some (cl_ids c !! p) ∧ c' = with_open (<[p := []]> (cl_open c)) c ∨ (∃ e, ans = Err e) ∧ c' = c
  | SendRecord p record => λ ans c c',
    (∃ l, cl_open c !! p = Some l ∧ c' = with_open (<[p := l ++ [record]]> (cl_open c)) c) ∨
    ((∃ e, ans = Err e) ∨ p ∈ cl_plain c) ∧ c' = c
  | CommitTransaction p => λ ans c c', commits version_2 p c c' ∨ (∃ e, ans = Err e) ∧ c' = c
  | AbortTransaction p => λ _ c c', c' = with_open (delete p (cl_open c)) c ∨ c' = c
  | DescribeTransaction id => λ ans c c',
    c' = c ∧ ∀ row, ans = Ok row → ∃ t, cl_epoch c !! id = Some t ∧ row = (producer_id t, producer_epoch t)
  | _ => λ _ c c', c' = c
  end.

(** ** The invariant *)

(** A lease under the epoch of its writer. *)
Definition written_by (c : Cluster) (p : nat) (record : ProducerRecord) : Prop :=
  ∃ role lease partition, record = lease_record role lease partition ∧
    cl_ids c !! p = Some (role_name role) ∧ cl_minted c !! p = Some (lease_token lease).

(** No lease follows one of a later epoch of the same id. *)
Definition lease_before (c : Cluster) (a b : nat * ProducerRecord) : Prop :=
  ∀ id t t', cl_ids c !! a.1 = Some id → cl_ids c !! b.1 = Some id →
    cl_minted c !! a.1 = Some t → cl_minted c !! b.1 = Some t' → token_le t t'.

Definition leases_ordered (c : Cluster) : Prop := StronglySorted (lease_before c) (cl_leases c).

Record cluster_inv (c : Cluster) : Prop := {
  ci_minted p t : cl_minted c !! p = Some t → ∃ id te po t_owner, cl_ids c !! p = Some id ∧
    cl_epoch c !! id = Some te ∧ token_le t te ∧
    cl_owner c !! id = Some po ∧ cl_ids c !! po = Some id ∧ cl_minted c !! po = Some t_owner ∧ token_le t t_owner;
  ci_plain p : p ∈ cl_plain c → cl_ids c !! p = None;
  ci_open_ids p l : cl_open c !! p = Some l → is_Some (cl_ids c !! p);
  ci_open p l r : cl_open c !! p = Some l → r ∈ l → written_by c p r;
  ci_leases p r : (p, r) ∈ cl_leases c → written_by c p r;
  ci_ordered : leases_ordered c;
}.

Record coord_inv (st : state) : Prop := {
  co_cluster : cluster_inv st.2;
  co_holders role p t : bt_holders st.1 !! role = Some (p, t) →
    cl_minted st.2 !! p = Some t ∧ cl_ids st.2 !! p = Some (role_name role);
  co_registrar p : bt_registrar st.1 = Some p → p ∈ cl_plain st.2;
}.

(** What stays of the cluster. *)
Record grows (c c' : Cluster) : Prop := {
  gr_ids : cl_ids c ⊆ cl_ids c';
  gr_minted : cl_minted c ⊆ cl_minted c';
  gr_plain : cl_plain c ⊆ cl_plain c';
  gr_leases : cl_leases c `prefix_of` cl_leases c';
  gr_epoch id t : cl_epoch c !! id = Some t → ∃ t', cl_epoch c' !! id = Some t' ∧ token_le t t';
}.

(** What the other calls and the other members do: they keep the invariant, and
    leave alone the transaction of a producer that a call has a handle to. *)
Record others (st st' : state) : Prop := {
  ot_inv : coord_inv st → coord_inv st';
  ot_grows : grows st.2 st'.2;
  ot_open p : p ∈ bt_clones st.1 → p ∈ bt_clones st'.1 ∧ cl_open st'.2 !! p = cl_open st.2 !! p;
}.

Definition coord_env : env (W := coord_world (Uuid := Uuid) (Cluster := Cluster)) := λ r st ans st',
  ∃ mid c, others st mid ∧ effect r ans mid.2 c ∧ others (mid.1, c) st'.

(** ** One request *)

Lemma token_le_refl t : token_le t t.
Proof. unfold token_le. lia. Qed.
Lemma token_le_trans a b c : token_le a b → token_le b c → token_le a c.
Proof. unfold token_le. lia. Qed.
Lemma token_lt_le a b : token_lt a b → token_le a b.
Proof. unfold token_lt, token_le. lia. Qed.
Lemma token_le_lt a b c : token_le a b → token_lt b c → token_lt a c.
Proof. unfold token_lt, token_le. lia. Qed.

Lemma grows_same c : grows c c.
Proof. split; [done..|]. intros id t Ht. eauto using token_le_refl. Qed.

Lemma grows_further c1 c2 c3 : grows c1 c2 → grows c2 c3 → grows c1 c3.
Proof.
  intros [A1 A2 A3 A4 A5] [B1 B2 B3 B4 B5].
  split; [by transitivity (cl_ids c2)|by transitivity (cl_minted c2)|set_solver|by transitivity (cl_leases c2)|].
  intros id t (t' & H1 & H2)%A5. apply B5 in H1 as (t2 & ? & ?). eauto using token_le_trans.
Qed.

Lemma written_by_grows c c' p r : grows c c' → written_by c p r → written_by c' p r.
Proof.
  intros G (role & lease & partition & -> & Hi & Hm). exists role, lease, partition.
  split_and!; [done|by eapply lookup_weaken, G|by eapply lookup_weaken, G].
Qed.

(** The order of the leases that a cluster has says the same later on. *)
Lemma ordered_grows c c' :
  grows c c' → (∀ p r, (p, r) ∈ cl_leases c → written_by c p r) → leases_ordered c →
  StronglySorted (lease_before c') (cl_leases c).
Proof.
  intros G Hw Hs. assert (∀ e, e ∈ cl_leases c → written_by c e.1 e.2) as Hw' by (intros [p r]; apply Hw).
  clear Hw. unfold leases_ordered in Hs. induction Hs as [|a l Hs IH Ha]; constructor.
  - apply IH. intros e He. apply Hw'. by right.
  - rewrite Forall_forall in Ha |- *. intros b Hb. specialize (Ha b Hb).
    destruct (Hw' a) as (ra & la & xa & _ & Ia & Ma); [left|].
    destruct (Hw' b) as (rb & lb & xb & _ & Ib & Mb); [by right|].
    pose proof (lookup_weaken _ _ _ _ Ia (gr_ids _ _ G)) as Ia'. pose proof (lookup_weaken _ _ _ _ Ib (gr_ids _ _ G)) as Ib'.
    pose proof (lookup_weaken _ _ _ _ Ma (gr_minted _ _ G)) as Ma'. pose proof (lookup_weaken _ _ _ _ Mb (gr_minted _ _ G)) as Mb'.
    intros id t t' H1 H2 H3 H4. simplify_eq. by eapply Ha; try done; congruence.
Qed.

(** What a request must satisfy: a record on a transactional producer is a
    lease under the producer's epoch. *)
Definition allowed (r : CoordIo Uuid) (c : Cluster) : Prop :=
  match r with SendRecord p record => p ∈ cl_plain c ∨ written_by c p record | _ => True end.

Lemma allowed_grows r c c' : grows c c' → allowed r c → allowed r c'.
Proof.
  intros G. destruct r; try done. simpl. intros [H|H]; [left; by apply G|right; by eapply written_by_grows].
Qed.

(** A change of the open transactions alone. *)
Lemma inv_with_open c o :
  (∀ p l, o !! p = Some l → is_Some (cl_ids c !! p) ∧ ∀ r, r ∈ l → written_by c p r) →
  cluster_inv c → cluster_inv (with_open o c) ∧ grows c (with_open o c).
Proof.
  intros Ho [H1 H2 H3 H4 H5 H6]. split; [|split; [done..|]; simpl; eauto using token_le_refl].
  split; [exact H1|exact H2|intros p l Hp; by apply (Ho p l)|intros p l r Hp; by apply (Ho p l)|exact H5|exact H6].
Qed.

Lemma open_change c p l :
  cluster_inv c → is_Some (cl_ids c !! p) → (∀ r, r ∈ l → written_by c p r) →
  cluster_inv (with_open (<[p := l]> (cl_open c)) c) ∧ grows c (with_open (<[p := l]> (cl_open c)) c).
Proof.
  intros Hc Hp Hl. apply inv_with_open; [|done]. intros q l' [[<- <-]|[_ Hq]]%lookup_insert_Some; [done|].
  split; [by eapply ci_open_ids|]. intros r Hr. by eapply ci_open.
Qed.

Lemma fresh_member c p id :
  cluster_inv c → fresh p c →
  cluster_inv (with_ids (<[p := id]> (cl_ids c)) c) ∧ grows c (with_ids (<[p := id]> (cl_ids c)) c).
Proof.
  intros Hc (F1 & F2 & F3 & F4). assert (grows c (with_ids (<[p := id]> (cl_ids c)) c)) as G.
  { split; simpl; [by apply insert_subseteq|done..|]. eauto using token_le_refl. }
  split; [|exact G]. pose proof Hc as [H1 H2 H3 H4 H5 H6].
  split; simpl.
  - intros q t Hq. destruct (H1 q t Hq) as (i & te & po & t0 & Hi & He & Hle & Ho & Hpo & Hm & Hle').
    exists i, te, po, t0. split_and!; try done; rewrite lookup_insert_ne; try done; intros <-; congruence.
  - intros q Hq. rewrite lookup_insert_ne by (by intros <-). by apply H2.
  - intros q l Hq. destruct (decide (q = p)) as [->|]; [rewrite lookup_insert_eq; eauto|].
    rewrite lookup_insert_ne by done. by eapply H3.
  - intros q l r Hq Hr. eapply written_by_grows; [exact G|]. by eapply H4.
  - intros q r Hq. eapply written_by_grows; [exact G|]. by eapply H5.
  - by apply (ordered_grows c).
Qed.

Lemma fresh_plain c p :
  cluster_inv c → fresh p c →
  cluster_inv (with_plain ({[ p ]} ∪ cl_plain c) c) ∧ grows c (with_plain ({[ p ]} ∪ cl_plain c) c).
Proof.
  intros [H1 H2 H3 H4 H5 H6] (F1 & F2 & F3 & F4). split.
  - split; simpl; [done| |done..]. intros q [->%elem_of_singleton|Hq]%elem_of_union; [done|by apply H2].
  - split; simpl; [done|done|set_solver|done|]. eauto using token_le_refl.
Qed.

Lemma initialises_inv p c c' : cluster_inv c → initialises p c c' → cluster_inv c' ∧ grows c c' ∧ is_Some (cl_minted c' !! p).
Proof.
  intros Hc (id & t & Hid & Hm & Hlt & ->). assert (grows c (initialised p id t c)) as G.
  { split; simpl; [done|by apply insert_subseteq|done..|]. intros i t0 Ht0.
    destruct (decide (i = id)) as [->|]; [rewrite lookup_insert_eq|rewrite lookup_insert_ne by done].
    - exists t. split; [done|]. by apply token_lt_le, Hlt.
    - eauto using token_le_refl. }
  pose proof Hc as [H1 H2 H3 H4 H5 H6]. split_and!; [|exact G|simpl; rewrite lookup_insert_eq; eauto].
  assert (∀ q tq, cl_minted c !! q = Some tq → cl_ids c !! q = Some id → token_le tq t) as Hmax.
  { intros q tq Hq Hqi. destruct (H1 q tq Hq) as (i & te & po & t0 & Hi & He & Hle & _). simplify_eq.
    eapply token_le_trans; [exact Hle|]. by apply token_lt_le, Hlt. }
  split; simpl; [|exact H2|exact H3|by intros; eapply written_by_grows; [exact G|]; eapply H4
    |by intros; eapply written_by_grows; [exact G|]; eapply H5|].
  - intros q tq [[<- <-]|[Hne Hq]]%lookup_insert_Some.
    { exists id, t, p, t. rewrite !lookup_insert_eq. split_and!; eauto using token_le_refl. }
    destruct (H1 q tq Hq) as (i & te & po & t0 & Hi & He & Hle & Ho & Hpo & Hm0 & Hle').
    destruct (decide (i = id)) as [->|Hi'].
    + exists id, t, p, t. rewrite !lookup_insert_eq. split_and!; try done; by eapply Hmax.
    + exists i, te, po, t0. rewrite !(lookup_insert_ne _ id) by done. split_and!; try done.
      rewrite lookup_insert_ne; [done|]. intros <-. congruence.
  - by apply (ordered_grows c).
Qed.

Lemma commits_inv p c c' : cluster_inv c → commits version_2 p c c' → cluster_inv c' ∧ grows c c'.
Proof.
  intros Hc (id & l & t & t' & Hid & Howner & Hopen & Hepoch & Hle & _ & ->).
  assert (grows c (committed p id l t' c)) as G.
  { split; simpl; [done..|by apply prefix_app_r|]. intros i t0 Ht0.
    destruct (decide (i = id)) as [->|]; [rewrite lookup_insert_eq|rewrite lookup_insert_ne by done].
    - simplify_eq. eauto.
    - eauto using token_le_refl. }
  pose proof Hc as [H1 H2 H3 H4 H5 H6]. split; [|exact G].
  assert (∀ q tq, cl_minted c !! q = Some tq → cl_ids c !! q = Some id → ∃ tp, cl_minted c !! p = Some tp ∧ token_le tq tp) as Hmax.
  { intros q tq Hq Hqi. destruct (H1 q tq Hq) as (i & te & po & t0 & Hi & He & _ & Ho & Hpo & Hm & Hle'). simplify_eq. eauto. }
  split; simpl; [|exact H2| | |..].
  - intros q tq Hq. destruct (H1 q tq Hq) as (i & te & po & t0 & Hi & He & Hle1 & Ho & Hpo & Hm & Hle').
    destruct (decide (i = id)) as [->|Hi'].
    + exists id, t', po, t0. rewrite lookup_insert_eq. simplify_eq. split_and!; try done. exact (token_le_trans _ _ _ Hle1 Hle).
    + exists i, te, po, t0. by rewrite lookup_insert_ne.
  - intros q l' [_ Hq]%lookup_delete_Some. by eapply H3.
  - intros q l' r [_ Hq]%lookup_delete_Some Hr. eapply written_by_grows; [exact G|]. by eapply H4.
  - intros q r [Hq|Hq]%elem_of_app; (eapply written_by_grows; [exact G|]); [by apply H5|].
    apply list_elem_of_fmap in Hq as (r' & [= -> ->] & Hr). by eapply H4.
  - apply StronglySorted_app. split_and!; [|by apply (ordered_grows c)|].
    + intros [q r] e Hq He. apply list_elem_of_fmap in He as (r' & -> & _). intros i tq tp Hi Hi' Htq Htp.
      simpl in *. assert (i = id) as -> by congruence. destruct (Hmax q tq Htq Hi) as (tp' & Htp' & ?). congruence.
    + clear. induction l as [|r l IH]; simpl; constructor; [exact IH|]. apply Forall_fmap, Forall_true.
      intros r' i t1 t2 _ _. simpl. intros. simplify_eq. apply token_le_refl.
Qed.

Lemma effect_inv r ans c c' :
  cluster_inv c → allowed r c → effect r ans c c' → cluster_inv c' ∧ grows c c'.
Proof.
  intros Hc Ha He. pose proof (conj Hc (grows_same c)) as Hsame.
  destruct r; try (simpl in He; by subst); simpl in He.
  - destruct ans as [p|e]; [|by subst]. destruct He as [Hf ->].
    destruct transactional as [[id timeout]|]; [by apply fresh_member|by apply fresh_plain].
  - destruct He as [He|[_ ->]]; [|done]. by destruct (initialises_inv _ _ _ Hc He) as (? & ? & _).
  - by destruct He as [-> _].
  - destruct He as [[Hp ->]|[_ ->]]; [|done]. apply open_change; [done..|]. by intros r ?%elem_of_nil.
  - destruct He as [(l & Hl & ->)|[_ ->]]; [|done]. apply open_change; [done|by eapply ci_open_ids|].
    intros r [Hr| ->%list_elem_of_singleton]%elem_of_app; [by eapply ci_open|].
    destruct Ha as [Hp|Hw]; [|done]. apply (ci_plain _ Hc) in Hp. apply (ci_open_ids _ Hc) in Hl as [? ?]. congruence.
  - destruct He as [He|[_ ->]]; [|done]. by eapply commits_inv.
  - destruct He as [->| ->]; [|done]. apply inv_with_open; [|done]. intros q l [_ Hq]%lookup_delete_Some.
    split; [by eapply ci_open_ids|]. intros r Hr. by eapply ci_open.
  - by destruct He as [-> _].
Qed.

Lemma coord_inv_cluster st c : coord_inv st → cluster_inv c → grows st.2 c → coord_inv (st.1, c).
Proof.
  intros [_ H2 H3] Hc G. split; simpl; [done| |].
  - intros role p t Hr. destruct (H2 role p t Hr) as [? ?]. split; by eapply lookup_weaken, G.
  - intros p Hp. by apply G, H3.
Qed.

Lemma env_step r st ans st' :
  coord_inv st → allowed r st.2 → coord_env r st ans st' →
  coord_inv st' ∧ grows st.2 st'.2 ∧
  ∃ mid c, others st mid ∧ coord_inv mid ∧ effect r ans mid.2 c ∧ grows c st'.2 ∧ others (mid.1, c) st'.
Proof.
  intros Hst Ha (mid & c & O1 & He & O2). pose proof (ot_inv _ _ O1 Hst) as Hmid.
  destruct (effect_inv r ans mid.2 c) as [Hc G]; [apply Hmid|by eapply allowed_grows, Ha; apply O1|done|].
  pose proof (ot_inv _ _ O2 (coord_inv_cluster _ _ Hmid Hc G)) as Hst'.
  split_and!; [done| |exists mid, c; split_and!; try done; apply O2].
  eapply grows_further; [apply O1|]. eapply grows_further; [exact G|apply O2].
Qed.

(** Whether the rounds of a scan may be used up. *)
Context (L : Prop).
Notation SAFE m Q := (safe coord_env coord_inv L m Q).
Notation task A := (async (W := coord_world (Uuid := Uuid) (Cluster := Cluster)) A).

Lemma fenced_await r st (Q : coord_answer r → state → Prop) :
  coord_inv st → allowed r st.2 →
  (∀ ans st', coord_inv st' → grows st.2 st'.2 →
     (∃ mid c, others st mid ∧ coord_inv mid ∧ effect r ans mid.2 c ∧ grows c st'.2 ∧ others (mid.1, c) st') →
     Q ans st') →
  SAFE (coord_wait r st) Q.
Proof.
  intros Hst Ha HQ. split; [done|]. intros ans st' He. destruct (env_step r st ans st' Hst Ha He) as (? & ? & ?). by apply HQ.
Qed.

(** Operations that do nothing to roles. *)
Definition steady {A} (m : task A) : Prop :=
  ∀ st, coord_inv st → SAFE (m st) (λ _ st', coord_inv st' ∧ grows st.2 st'.2).

Lemma steady_ret {A} (a : A) : steady (mret a).
Proof. intros st Hst. split; [done|]. apply grows_same. Qed.

Lemma steady_reads {A} (f : _ → A) : steady (coord_reads f).
Proof. intros st Hst. split; [done|]. apply grows_same. Qed.

Lemma steady_wait r : match r with SendRecord _ _ => False | _ => True end → steady (coord_wait r).
Proof. intros Hr st Hst. apply fenced_await; [done|by destruct r|]. by intros. Qed.

Lemma steady_writes f :
  (∀ s, bt_holders (f s) = bt_holders s ∧ bt_registrar (f s) = bt_registrar s) → steady (coord_writes f).
Proof.
  intros Hf st [H1 H2 H3]. split; [|apply grows_same]. destruct (Hf st.1) as [Ha Hb].
  split; simpl; [done|by rewrite Ha|by rewrite Hb].
Qed.

Lemma steady_then {A B} (m : task A) (f : A → task B) st (Q : B → state → Prop) :
  steady m → coord_inv st →
  (∀ a st', coord_inv st' → grows st.2 st'.2 → SAFE (f a st') Q) → SAFE ((m ≫= f) st) Q.
Proof.
  intros Hm Hst HQ. apply safe_bind. eapply safe_mono; [|exact (Hm st Hst)]. intros a st' [? ?]. by apply HQ.
Qed.

Lemma steady_bind {A B} (m : task A) (f : A → task B) : steady m → (∀ a, steady (f a)) → steady (m ≫= f).
Proof.
  intros Hm Hf st Hst. apply steady_then; [done..|]. intros a st1 H1 G1.
  eapply safe_mono; [|exact (Hf a st1 H1)]. intros b st2 [? ?]. split; [done|]. by eapply grows_further.
Qed.

Lemma steady_attempt {X A B} (m : task (result X A)) (f : A → task (result X B)) :
  steady m → (∀ a, steady (f a)) → steady (attempt m f).
Proof. intros Hm Hf. apply steady_bind; [done|]. intros [a|e]; [apply Hf|apply steady_ret]. Qed.

Lemma steady_client {A} (m : task (result ClientError.client_error A)) : steady m → steady (client m).
Proof. intros Hm. apply steady_bind; [done|]. intros. apply steady_ret. Qed.
Lemma steady_producing {A} (m : task (result ProducerError.producer_error A)) : steady m → steady (producing m).
Proof. intros Hm. apply steady_bind; [done|]. intros. apply steady_ret. Qed.

#[local] Hint Resolve steady_ret steady_reads steady_client steady_producing : steady.

Ltac steady_solve :=
  repeat first
    [ progress intros
    | apply steady_attempt
    | apply steady_bind
    | apply steady_wait; exact I
    | solve [auto with steady]
    | apply steady_client
    | apply steady_producing
    | apply steady_writes; by intros
    | case_match ].

Context (cf : TransportConfig).

Lemma steady_layout : steady (layout cf).
Proof. unfold layout, get_or_try_init, resolve_topic, create_topic, read_metadata. steady_solve. Qed.

Lemma steady_partition_of role : steady (partition_of cf role).
Proof. unfold partition_of. apply steady_attempt; [apply steady_layout|]. intros. apply steady_ret. Qed.

Lemma steady_scan n role c l p offset fin records : L → steady (scan cf n role c l p offset fin records).
Proof.
  intros HL. revert offset records. induction n as [|n IH]; intros offset records; [by intros st Hst|]. cbn [scan].
  case_match; [|apply steady_ret]. apply steady_attempt; [unfold fetch_page; steady_solve|]. intros page.
  apply steady_attempt; [apply steady_ret|]. intros selected. case_match; [apply IH|apply steady_ret].
Qed.

Lemma steady_read fuel role : L → steady (read_role_records cf fuel role).
Proof.
  intros HL. unfold read_role_records. apply steady_attempt; [apply steady_layout|]. intros l.
  apply steady_attempt; [apply steady_ret|]. intros p.
  apply steady_attempt; [unfold leader_connection, read_metadata; steady_solve|]. intros c.
  apply steady_attempt; [unfold list_offset; steady_solve|]. intros start.
  apply steady_attempt; [unfold list_offset; steady_solve|]. intros fin. by apply steady_scan.
Qed.

Lemma steady_describe role : steady (describe role).
Proof. unfold describe. steady_solve. Qed.

Lemma steady_close_producer p : steady (close_producer p).
Proof. unfold close_producer. steady_solve. Qed.

Lemma steady_bound_producer role : steady (bound_producer role).
Proof. unfold bound_producer. steady_solve. Qed.

Lemma steady_held_token role : steady (held_token role).
Proof. unfold held_token. steady_solve. Qed.

Lemma steady_close_holders l : steady (close_holders l).
Proof.
  induction l as [|[role [p t]] l IH]; [apply steady_ret|]. cbn [close_holders].
  apply steady_bind; [apply steady_close_producer|]. intros. apply IH.
Qed.

Lemma steady_close : steady transport_close.
Proof.
  assert (∀ holders, steady (close_holders holders;;
    registrar ← coord_reads bt_registrar;
    match registrar with Some p => _ ← coord_wait (CloseProducer p); mret () | None => mret () end;;
    coord_wait CloseConnections)) as Hrest.
  { intros holders. apply steady_bind; [apply steady_close_holders|]. steady_solve. }
  intros st [H1 H2 H3]. unfold transport_close, coord_reads at 1, coord_writes.
  apply safe_bind. cbn [safe reads]. apply safe_bind. cbn [safe writes].
  apply (Hrest _ (put_holders ∅ st.1, st.2)). by split.
Qed.

(** The epoch of a role. *)
Definition minted_for (c : Cluster) (p : nat) (role : Role) (t : FencingToken) : Prop :=
  cl_minted c !! p = Some t ∧ cl_ids c !! p = Some (role_name role).

Lemma minted_grows c c' p role t : grows c c' → minted_for c p role t → minted_for c' p role t.
Proof. intros G [? ?]. split; by eapply lookup_weaken, G. Qed.

Lemma FencingToken_new_eq pid epoch t : FencingToken_new pid epoch = Ok t → t = mkToken pid epoch.
Proof. unfold FencingToken_new. by case_match; intros [= <-]. Qed.

Lemma hold_role_ok role p st :
  coord_inv st → cl_ids st.2 !! p = Some (role_name role) →
  SAFE (hold_role role p st)
    (λ r st', coord_inv st' ∧ ∀ t, r = Ok t → ∃ p, minted_for st'.2 p role t).
Proof.
  intros Hst Hid. unfold hold_role, guarded. safe_pure. apply fenced_await; [done..|]. intros ans st1 H1 G1 _.
  safe_pure. destruct ans as [[]|e]; [|safe_pure; split; [done|by intros]].
  safe_pure. apply fenced_await; [done..|]. intros ans st2 H2 G2 (mid & c & _ & _ & [-> Hm] & Gc & _).
  destruct ans as [[pid epoch]|]; [|safe_pure; split; [done|by intros]].
  destruct (FencingToken_new pid epoch) as [t|e] eqn:Ht; [|safe_pure; split; [done|by intros]].
  apply FencingToken_new_eq in Ht as ->. specialize (Hm pid epoch eq_refl).
  assert (minted_for st2.2 p role (mkToken pid epoch)) as Hfor.
  { split; [by eapply lookup_weaken, Gc|]. eapply lookup_weaken, G2. by eapply lookup_weaken, G1. }
  safe_pure. unfold install_holder, coord_reads, coord_writes. safe_pure. apply fenced_await; [done..|].
  intros [] st3 H3 G3 _. safe_pure.
  pose proof (minted_grows _ _ _ _ _ G3 Hfor) as Hfor3.
  set (st4 := (put_holders _ st3.1, st3.2)).
  assert (coord_inv st4) as H4.
  { destruct H3 as [A B C]. split; simpl; [done| |done]. intros role' q t [[<- [= <- <-]]|[_ Hq]]%lookup_insert_Some; [done|by apply B]. }
  eapply safe_mono; [|instantiate (1 := λ _ st', coord_inv st' ∧ grows st4.2 st'.2);
    case_match; [case_match; by apply steady_close_producer|by apply steady_ret]].
  intros [] st5 [H5 G5]. safe_pure. split; [done|]. intros t [= <-]. exists p. by eapply minted_grows.
Qed.

Lemma acquire_ok role st :
  coord_inv st →
  SAFE (acquire_epoch cf role st) (λ r st', coord_inv st' ∧ ∀ t, r = Ok t → ∃ p, minted_for st'.2 p role t).
Proof.
  intros Hst. unfold acquire_epoch. safe_pure. eapply safe_mono; [|exact (steady_layout st Hst)].
  intros [l|e] st1 [H1 G1]; [|split; [done|by intros]]. unfold build_role_producer, guarded. safe_pure.
  apply fenced_await; [done..|]. intros ans st2 H2 G2 (mid & c & _ & _ & He & Gc & _). safe_pure.
  destruct ans as [p|e]; [|split; [done|by intros]]. destruct He as [_ ->]. apply hold_role_ok; [done|].
  eapply lookup_weaken, Gc. simpl. by rewrite lookup_insert_eq.
Qed.

Lemma register_ok role member st :
  coord_inv st → SAFE (register cf role member st) (λ _ st', coord_inv st').
Proof.
  intros Hst. unfold register. safe_pure. eapply safe_mono; [|exact (steady_partition_of role st Hst)].
  intros [partition|e] st1 [H1 _]; [|done]. unfold registrar, get_or_try_init, coord_reads, coord_writes. safe_pure.
  assert (∀ p st, coord_inv st → p ∈ cl_plain st.2 →
    SAFE (producing (coord_wait (SendRecord p (registration_record role member partition (bt_now st.1)))) st)
      (λ _ st', coord_inv st')) as Hsend.
  { intros p st2 H2 Hp. unfold producing. safe_pure. apply fenced_await; [done|by left|]. intros ans st3 H3 _ _. by safe_pure. }
  destruct (bt_registrar st1.1) as [p|] eqn:Hr.
  { safe_pure. apply Hsend; [done|]. by apply (co_registrar _ H1). }
  safe_pure. apply fenced_await; [done..|]. intros [] st2 H2 _ _. safe_pure.
  destruct (bt_registrar st2.1) as [p|] eqn:Hr2.
  { safe_pure. apply Hsend; [done|]. by apply (co_registrar _ H2). }
  safe_pure. unfold build_registrar, producing. safe_pure. apply fenced_await; [done..|].
  intros ans st3 H3 _ (mid & c & _ & _ & He & Gc & _). safe_pure. destruct ans as [p|e]; [|done].
  destruct He as [_ ->]. assert (p ∈ cl_plain st3.2) as Hp by (apply Gc; simpl; set_solver).
  safe_pure. apply (Hsend p (put_registrar p st3.1, st3.2)); [|done].
  destruct H3 as [A B C]. split; simpl; [done|done|]. by intros q [= <-].
Qed.

(** The transaction of [p] while this call has a handle to it. *)
Lemma open_kept r st ans st' p :
  p ∈ bt_clones st.1 →
  (∃ mid c, others st mid ∧ coord_inv mid ∧ effect r ans mid.2 c ∧ grows c st'.2 ∧ others (mid.1, c) st') →
  p ∈ bt_clones st'.1 ∧ ∃ c0 c, effect r ans c0 c ∧ cl_open c0 !! p = cl_open st.2 !! p ∧
    cl_open st'.2 !! p = cl_open c !! p ∧ cluster_inv c0 ∧ grows st.2 c0 ∧ grows c st'.2.
Proof.
  intros Hp (mid & c & O1 & Hmid & He & Gc & O2). destruct (ot_open _ _ O1 p Hp) as [Hp1 Ho1].
  destruct (ot_open _ _ O2 p Hp1) as [Hp2 Ho2]. split; [done|]. exists mid.2, c.
  split_and!; try done; [apply Hmid|apply O1].
Qed.

(** The lease is in the log, and the epoch is at least the writer's. *)
Definition lease_written (c : Cluster) (role : Role) (lease : Lease) : Prop :=
  ∃ p partition t, (p, lease_record role lease partition) ∈ cl_leases c ∧ minted_for c p role (lease_token lease) ∧
    cl_epoch c !! role_name role = Some t ∧ token_le (lease_token lease) t ∧
    (version_2 = true → token_lt (lease_token lease) t).

Lemma lease_written_grows c c' role lease : grows c c' → lease_written c role lease → lease_written c' role lease.
Proof.
  intros G (p & partition & t & Hin & Hfor & Ht & Hle & Hlt). destruct (gr_epoch _ _ G _ _ Ht) as (t' & Ht' & Hle').
  exists p, partition, t'. split_and!; [|by eapply minted_grows|done|by eapply token_le_trans|].
  - destruct (gr_leases _ _ G) as [rest ->]. apply elem_of_app. by left.
  - intros Hv. specialize (Hlt Hv). unfold token_lt, token_le in *. lia.
Qed.

Lemma lease_transaction_ok role lease partition p st :
  coord_inv st → p ∈ bt_clones st.1 → minted_for st.2 p role (lease_token lease) →
  SAFE (lease_transaction role p (lease_record role lease partition) st)
    (λ r st', coord_inv st' ∧ (r = Ok () → lease_written st'.2 role lease)).
Proof.
  intros Hst Hp Hfor. unfold lease_transaction, guarded. safe_pure. apply fenced_await; [done..|].
  intros ans st1 H1 G1 He1. destruct (open_kept _ _ _ _ _ Hp He1) as (Hp1 & c0 & c & He & Ho0 & Ho1 & _). clear He1.
  safe_pure. destruct ans as [[]|e]; [|split; [done|by intros]]. safe_pure.
  destruct He as [[_ ->]|[[? ?] _]]; [|done]. simpl in Ho1. rewrite lookup_insert_eq in Ho1.
  pose proof (minted_grows _ _ _ _ _ G1 Hfor) as Hfor1. clear c0 Ho0.
  apply fenced_await; [done|right; exists role, lease, partition; by destruct Hfor1|].
  intros ans st2 H2 G2 He2. destruct (open_kept _ _ _ _ _ Hp1 He2) as (Hp2 & c0 & c' & He & Ho0 & Ho2 & Hc0 & G0 & _). clear He2.
  pose proof (minted_grows _ _ _ _ _ G2 Hfor1) as Hfor2.
  destruct ans as [[]|e].
  2:{ safe_pure. apply fenced_await; [done..|]. intros ? st3 H3 _ _. safe_pure. split; [done|by intros]. }
  assert (cl_open st2.2 !! p = Some [lease_record role lease partition]) as Hopen.
  { destruct He as [(l & Hl & ->)|[[[? ?]|Hplain] _]]; [|done|].
    - rewrite Ho2. simpl. rewrite lookup_insert_eq. rewrite Ho0, Ho1 in Hl. by simplify_eq.
    - apply (ci_plain _ Hc0) in Hplain. destruct (minted_grows _ _ _ _ _ G0 Hfor1) as [_ ?]. congruence. }
  clear c0 c' He Ho0 Ho2 Hc0 G0.
  safe_pure. apply fenced_await; [done..|]. intros ans st3 H3 G3 He3.
  destruct (open_kept _ _ _ _ _ Hp2 He3) as (Hp3 & c0 & c' & He & Ho0 & Ho3 & Hc0 & G0 & Gc). clear He3.
  safe_pure. split; [done|]. destruct ans as [[]|e]; [|by intros]. intros _.
  destruct He as [(id & records & t & t' & Hid & Howner & Hrec & Hepoch & Hle & Hlt & ->)|[[? ?] _]]; [|done].
  eapply lease_written_grows; [exact Gc|]. destruct (minted_grows _ _ _ _ _ G0 Hfor2) as [Hm Hi]. simplify_eq.
  rewrite Ho0, Hopen in Hrec. simplify_eq.
  destruct (ci_minted _ Hc0 _ _ Hm) as (id & te & po & to & Hid' & He' & Hle1 & _). simplify_eq.
  exists p, partition, t'. simpl. rewrite lookup_insert_eq. split_and!; [set_solver|done|done| |].
  - by eapply token_le_trans.
  - intros Hv. by eapply token_le_lt, Hlt.
Qed.

Lemma write_lease_ok role token lease st :
  coord_inv st → lease_token lease = token →
  SAFE (write_lease cf role token lease st) (λ r st', coord_inv st' ∧ (r = Ok () → lease_written st'.2 role lease)).
Proof.
  intros Hst Htok. unfold write_lease. safe_pure. eapply safe_mono; [|exact (steady_partition_of role st Hst)].
  intros [partition|e] st1 [H1 _]; [|split; [done|by intros]]. safe_pure. apply fenced_await; [done..|].
  intros [] st2 H2 _ _. unfold coord_reads, coord_writes. safe_pure.
  destruct (bt_holders st2.1 !! role) as [[p held]|] eqn:Hh; [|safe_pure; split; [done|by intros]].
  case_bool_decide as Heq; [|safe_pure; split; [done|by intros]]. subst held.
  pose proof (co_holders _ H2 _ _ _ Hh) as Hfor. safe_pure.
  set (st3 := (put_clones (p :: bt_clones st2.1) st2.1, st2.2)).
  assert (coord_inv st3) as H3 by (by destruct H2).
  eapply safe_mono; [|apply (lease_transaction_ok role lease partition p st3 H3); [left|rewrite Htok; exact Hfor]].
  intros r st4 [H4 Hw]. safe_pure. split; [by destruct H4|done].
Qed.

Lemma describe_ok role lease st :
  coord_inv st → lease_written st.2 role lease → version_2 = true →
  SAFE (describe role st) (λ r _, ∀ t, r = Ok (Some t) → token_lt (lease_token lease) t).
Proof.
  intros Hst Hw Hv. unfold describe. safe_pure. apply fenced_await; [done..|]. intros [] st1 H1 G1 _.
  safe_pure. apply fenced_await; [done..|]. intros ans st2 H2 G2 (mid & c & O1 & _ & [-> Hd] & _).
  safe_pure. intros t Ht. destruct ans as [row|e]; [|by destruct (reports_unknown_transactional_id e)].
  destruct (Hd row eq_refl) as (te & He & ->). unfold token_from_description in Ht. simpl in Ht.
  destruct (FencingToken_new _ _) as [t'|] eqn:Hn; [|done]. apply FencingToken_new_eq in Hn. simplify_eq.
  destruct (lease_written_grows _ _ _ _ (grows_further _ _ _ G1 (ot_grows _ _ O1)) Hw) as (_ & _ & t0 & _ & _ & He' & _ & Hlt).
  simplify_eq. by destruct te; apply Hlt.
Qed.
End fencing.

(** ** The operations *)

Inductive CoordOp : Type :=
| OpAcquire (role : Role)
| OpRegister (role : Role) (member : MemberId)
| OpWriteLease (role : Role) (lease : Lease)
| OpRead (fuel : nat) (role : Role)
| OpDescribe (role : Role)
| OpBoundProducer (role : Role)
| OpHeldToken (role : Role)
| OpClose.

(** A lease is written under the token that it carries. *)
Definition perform {Uuid : Type} (cf : TransportConfig) (o : CoordOp)
    : async (W := coord_world (Uuid := Uuid) (Cluster := Cluster)) unit :=
  match o with
  | OpAcquire role => _ ← acquire_epoch cf role; mret ()
  | OpRegister role member => _ ← register cf role member; mret ()
  | OpWriteLease role lease => _ ← write_lease cf role (lease_token lease) lease; mret ()
  | OpRead fuel role => _ ← read_role_records cf fuel role; mret ()
  | OpDescribe role => _ ← describe role; mret ()
  | OpBoundProducer role => _ ← bound_producer role; mret ()
  | OpHeldToken role => _ ← held_token role; mret ()
  | OpClose => transport_close
  end.

Lemma perform_ok {Uuid : Type} v2 cf o (st : CoordState Uuid * Cluster) :
  coord_inv st → safe (coord_env v2) coord_inv True (perform cf o st) (λ _ st', coord_inv st').
Proof.
  intros Hst. destruct o; cbn [perform]; [apply safe_bind..|].
  - eapply safe_mono; [|by apply acquire_ok]. by intros ? ? [? _].
  - by apply register_ok.
  - eapply safe_mono; [|by apply write_lease_ok]. by intros ? ? [? _].
  - eapply safe_mono; [|by apply steady_read]. by intros ? ? [? _].
  - eapply safe_mono; [|by apply steady_describe]. by intros ? ? [? _].
  - eapply safe_mono; [|by apply steady_bound_producer]. by intros ? ? [? _].
  - eapply safe_mono; [|by apply steady_held_token]. by intros ? ? [? _].
  - eapply safe_mono; [|by apply steady_close]. by intros ? ? [? _].
Qed.

(** C16: the leases of a role follow its epochs. Whatever the calls on this
    transport and the other members do, at every await of every operation and
    after it the transport's holders have the epoch that their producer
    initialised for their role, every lease in the log carries the epoch of the
    producer that wrote it, and no lease follows one of a later epoch of its
    role: a member that lost its role never overwrites its successor. The
    brokers refuse a commit of a superseded producer; a lease is written under
    the token that it carries. *)
Theorem leases_follow_epochs {Uuid : Type} version_2 cf o (st : CoordState Uuid * Cluster) :
  coord_inv st →
  (∀ st', seen (coord_env version_2) (perform cf o st) st' → coord_inv st' ∧ leases_ordered st'.2) ∧
  (∀ r st', results (coord_env version_2) (perform cf o st) r st' → coord_inv st' ∧ leases_ordered st'.2).
Proof.
  intros Hst. pose proof (perform_ok version_2 cf o st Hst) as Hs.
  assert (∀ st' : CoordState Uuid * Cluster, coord_inv st' → coord_inv st' ∧ leases_ordered st'.2) as Hall.
  { intros st' H. split; [done|]. apply ci_ordered, H. }
  split; intros; apply Hall; [by eapply safe_seen|by eapply (safe_results _ _ _ _ _ _ _ Hs)].
Qed.

(** what an answer of the guarded pair promises. A token that
    [acquire_epoch] returns is the epoch that a producer of this very call's
    transport initialised for the role; when [write_lease] returns without an
    error, the lease is in the log under the epoch that it carries. Both
    always end. *)
Theorem lease_written_under_token {Uuid : Type} version_2 cf role lease (st : CoordState Uuid * Cluster) :
  coord_inv st →
  (finishes (coord_env version_2) (acquire_epoch cf role st) ∧
   ∀ t st', results (coord_env version_2) (acquire_epoch cf role st) (Ok t) st' →
     ∃ p, cl_minted st'.2 !! p = Some t ∧ cl_ids st'.2 !! p = Some (role_name role)) ∧
  (finishes (coord_env version_2) (write_lease cf role (lease_token lease) lease st) ∧
   ∀ st', results (coord_env version_2) (write_lease cf role (lease_token lease) lease st) (Ok ()) st' →
     ∃ p partition, (p, lease_record role lease partition) ∈ cl_leases st'.2 ∧
       cl_minted st'.2 !! p = Some (lease_token lease) ∧ cl_ids st'.2 !! p = Some (role_name role)).
Proof.
  intros Hst. split.
  - destruct (safe_complete _ _ _ _ (acquire_ok version_2 False cf role st Hst)) as [Hf Hr]. split; [done|].
    intros t st' H. destruct (Hr _ _ H) as [_ Ht]. by destruct (Ht t eq_refl) as (p & ? & ?); eauto.
  - destruct (safe_complete _ _ _ _ (write_lease_ok version_2 False cf role _ lease st Hst eq_refl)) as [Hf Hr]. split; [done|].
    intros st' H. destruct (Hr _ _ H) as [_ Hw]. destruct (Hw eq_refl) as (p & partition & t & Hin & [? ?] & _). eauto 6.
Qed.

(** with transaction version 2 the described token outruns the lease. The
    end of a lease's transaction raises the epoch of the role's transactional
    id, and the holder keeps the token of its [acquire_epoch]. So from the first
    [write_lease] on, no [describe] by anyone returns the token that the holder
    has and its leases carry: each returns a later one, as if another member
    had taken the role. *)
Theorem described_token_outruns_lease {Uuid : Type} cf role lease (st st1 st2 : CoordState Uuid * Cluster) answer :
  coord_inv st →
  results (coord_env true) (write_lease cf role (lease_token lease) lease st) (Ok ()) st1 →
  results (coord_env true) (describe role st1) (Ok (Some answer)) st2 →
  token_lt (lease_token lease) answer.
Proof.
  intros Hst Hw Hd. eapply safe_results in Hw; [|by apply (write_lease_ok true True)].
  destruct Hw as [H1 Hw]. specialize (Hw eq_refl).
  eapply safe_results in Hd; [|apply (describe_ok true True role lease st1 H1 Hw eq_refl)]. by apply Hd.
Qed.

(** ** Concrete runs *)

#[global] Instance fresh_dec p c : Decision (fresh p c).
Proof. unfold fresh. apply _. Defined.

(** A cluster that answers every request, with transaction version 2. *)
Module DemoCluster.
Notation state := (CoordState unit * Cluster)%type.

Definition next_token (t : option FencingToken) : FencingToken :=
  match t with None => mkToken 1 0 | Some t => mkToken (producer_id t) (producer_epoch t + 1) end.

Definition refused {A} : result ProducerError.producer_error A := Err ProducerError.FencedProducer.

Definition answer (r : CoordIo unit) (c : Cluster) : coord_answer r * Cluster :=
  match r return coord_answer r * Cluster with
  | CreateTopics _ _ => (Ok [], c)
  | BootstrapConnection | PoolGet _ => (Err ClientError.Disconnected, c)
  | SendMetadata _ => (Err ClientError.Disconnected, c)
  | SendListOffsets _ _ _ => (Err ClientError.Disconnected, c)
  | SendFetch _ _ => (Err ClientError.Disconnected, c)
  | BuildProducer transactional _ =>
    let p := (size (cl_ids c) + size (cl_plain c))%nat in
    if decide (fresh p c) then
      (Ok p, match transactional with
             | Some (id, _) => with_ids (<[p := id]> (cl_ids c)) c
             | None => with_plain ({[ p ]} ∪ cl_plain c) c
             end)
    else (refused, c)
  | InitTransactions p =>
    match cl_ids c !! p, cl_minted c !! p with
    | Some id, None => (Ok (), initialised p id (next_token (cl_epoch c !! id)) c)
    | _, _ => (refused, c)
    end
  | TransactionalIdentity p => ((λ t, (producer_id t, producer_epoch t)) <$> cl_minted c !! p, c)
  | BeginTransaction p =>
    if decide (is_Some (cl_ids c !! p)) then (Ok (), with_open (<[p := []]> (cl_open c)) c) else (refused, c)
  | SendRecord p record =>
    match cl_open c !! p with
    | Some l => (Ok (), with_open (<[p := l ++ [record]]> (cl_open c)) c)
    | None => (if decide (p ∈ cl_plain c) then Ok () else refused, c)
    end
  | CommitTransaction p =>
    match cl_ids c !! p, cl_open c !! p with
    | Some id, Some l =>
      match cl_epoch c !! id with
      | Some t =>
        if decide (cl_owner c !! id = Some p) then (Ok (), committed p id l (next_token (Some t)) c) else (refused, c)
      | None => (refused, c)
      end
    | _, _ => (refused, c)
    end
  | AbortTransaction p => (Ok (), with_open (delete p (cl_open c)) c)
  | CloseProducer _ => (Ok (), c)
  | DescribeTransaction id =>
    (match cl_epoch c !! id with
     | Some t => Ok (producer_id t, producer_epoch t)
     | None => Err (AdminError.Broker "" TRANSACTIONAL_ID_NOT_FOUND "" None)
     end, c)
  | _ => ((), c)
  end.

Definition oracle (r : CoordIo unit) (st : state) : coord_answer r * state :=
  let '(ans, c) := answer r st.2 in (ans, (st.1, c)).

Lemma next_token_later t : token_lt t (next_token (Some t)).
Proof. unfold token_lt. simpl. lia. Qed.

Lemma answer_effect r c : effect true r (answer r c).1 c (answer r c).2.
Proof.
  destruct r; try done; cbn [answer].
  - case_decide; simpl; [|done]. split; [done|]. by destruct transactional as [[id ?]|].
  - destruct (cl_ids c !! producer) as [id|] eqn:Hi; [|right; split; [by eexists|done]].
    destruct (cl_minted c !! producer) eqn:Hm; [right; split; [by eexists|done]|]. left.
    exists id, (next_token (cl_epoch c !! id)). split_and!; try done. intros t0 ->. apply next_token_later.
  - simpl. split; [done|]. intros pid epoch Hm. destruct (cl_minted c !! producer) as [[]|]; by simplify_eq/=.
  - case_decide; [by left|right; split; [by eexists|done]].
  - destruct (cl_open c !! producer) as [l|] eqn:Ho; [left; by exists l|]. right. split; [|done].
    case_decide; [by right|left; by eexists].
  - destruct (cl_ids c !! producer) as [id|] eqn:Hi; [|right; split; [by eexists|done]].
    destruct (cl_open c !! producer) as [l|] eqn:Ho; [|right; split; [by eexists|done]].
    destruct (cl_epoch c !! id) as [t|] eqn:He; [|right; split; [by eexists|done]].
    case_decide; [|right; split; [by eexists|done]]. left. exists id, l, t, (next_token (Some t)).
    split_and!; try done; [apply token_lt_le, next_token_later|intros _; apply next_token_later].
  - by left.
  - simpl. split; [done|]. intros row. destruct (cl_epoch c !! transactional_id) as [t|]; [|done]. intros [= <-]. eauto.
Qed.

Lemma others_same (st : state) : others st st.
Proof. split; [done|apply grows_same|done]. Qed.

Lemma oracle_effect r st : coord_env true r st (oracle r st).1 (oracle r st).2.
Proof.
  exists st, (answer r st.2).2. unfold oracle. pose proof (answer_effect r st.2) as He.
  destruct (answer r st.2) as [ans c]. simpl in *. split_and!; [apply others_same|done|apply others_same].
Qed.

Definition run {A} (m : proc (W := coord_world (Uuid := unit) (Cluster := Cluster)) A) : proc (W := coord_world (Uuid := unit) (Cluster := Cluster)) A :=
  play (W := coord_world (Uuid := unit) (Cluster := Cluster)) oracle (λ _, false) 100 m.

Definition config : TransportConfig := mkTransportConfig 30000 30000 500 1048576 1 1 1.
Definition role : Role := mkRole "controller" 10.
Definition member : MemberId := mkMemberId "node-1" 6.
Definition cluster : Cluster := mkCluster ∅ ∅ ∅ ∅ ∅ ∅ [].
Definition start : state := (mkCoordState (Some (mkLayout 1 ())) None ∅ [] 0, cluster).

Lemma cluster_start : coord_inv start.
Proof.
  split; [split|..]; try by intros.
  - intros p r Hp. by apply elem_of_nil in Hp.
  - constructor.
Qed.

Definition end_of {A} (m : proc (W := coord_world (Uuid := unit) (Cluster := Cluster)) A) : state :=
  match m with Ret _ st | Wait _ st _ | Spent st => st end.

(** After an acquisition, and after a lease. *)
Definition token : FencingToken := mkToken 1 0.
Definition lease : Lease := mkLease member token 0 1000.
Definition acquired : state := end_of (run (acquire_epoch config role start)).
Definition leased : state := end_of (run (write_lease config role token lease acquired)).

Lemma run_acquire : run (acquire_epoch config role start) = Ret (W := coord_world) (Ok token) acquired.
Proof. reflexivity. Qed.

Lemma run_lease : run (write_lease config role token lease acquired) = Ret (W := coord_world) (Ok ()) leased.
Proof. reflexivity. Qed.

Lemma run_describe : run (describe role leased) = Ret (W := coord_world) (Ok (Some (mkToken 1 1))) leased.
Proof. reflexivity. Qed.

Lemma acquire_results :
  results (W := coord_world) (coord_env true) (acquire_epoch config role start) (Ok token) acquired.
Proof.
  eapply play_results; [|exact (acquire_ok true True config role start cluster_start)|exact run_acquire].
  intros r st _. apply oracle_effect.
Qed.

Lemma acquired_inv : coord_inv acquired.
Proof. by apply (safe_results _ _ _ _ _ _ _ (acquire_ok true True config role start cluster_start) acquire_results). Qed.

Lemma lease_results :
  results (W := coord_world) (coord_env true) (write_lease config role token lease acquired) (Ok ()) leased.
Proof.
  eapply play_results; [|exact (write_lease_ok true True config role token lease acquired acquired_inv eq_refl)|exact run_lease].
  intros r st _. apply oracle_effect.
Qed.

Lemma leased_inv : coord_inv leased.
Proof.
  by apply (safe_results _ _ _ _ _ _ _ (write_lease_ok true True config role token lease acquired acquired_inv eq_refl)
    lease_results).
Qed.

Lemma describe_results :
  results (W := coord_world) (coord_env true) (describe role leased) (Ok (Some (mkToken 1 1))) leased.
Proof.
  eapply play_results; [|exact (steady_describe true True role leased leased_inv)|exact run_describe].
  intros r st _. apply oracle_effect.
Qed.
End DemoCluster.

Lemma leases_follow_epochs_witness :
  cl_leases DemoCluster.leased.2 = [(0%nat, lease_record DemoCluster.role DemoCluster.lease 0)] ∧
  coord_inv DemoCluster.leased ∧
  ∀ st', seen (coord_env true) (perform DemoCluster.config (OpWriteLease DemoCluster.role DemoCluster.lease) DemoCluster.leased) st' →
    coord_inv st' ∧ leases_ordered st'.2.
Proof.
  split_and!; [reflexivity|exact DemoCluster.leased_inv|].
  apply (leases_follow_epochs true DemoCluster.config (OpWriteLease DemoCluster.role DemoCluster.lease) DemoCluster.leased
    DemoCluster.leased_inv).
Defined.

Lemma lease_written_under_token_witness :
  ∃ p partition, (p, lease_record DemoCluster.role DemoCluster.lease partition) ∈ cl_leases DemoCluster.leased.2 ∧
    cl_minted DemoCluster.leased.2 !! p = Some DemoCluster.token ∧
    cl_ids DemoCluster.leased.2 !! p = Some "controller".
Proof.
  exact (proj2 (proj2 (lease_written_under_token true DemoCluster.config DemoCluster.role DemoCluster.lease
    DemoCluster.acquired DemoCluster.acquired_inv)) _ DemoCluster.lease_results).
Defined.

Lemma described_token_outruns_lease_witness : token_lt DemoCluster.token (mkToken 1 1).
Proof.
  exact (described_token_outruns_lease DemoCluster.config DemoCluster.role DemoCluster.lease DemoCluster.acquired
    DemoCluster.leased DemoCluster.leased (mkToken 1 1) DemoCluster.acquired_inv DemoCluster.lease_results
    DemoCluster.describe_results).
Defined.

