(* ===== verification/GroupCoordinator.v ===== *)
(** * The coordinator task of a classic member

    [crates/client-consumer/src/coordinator.rs]: membership, the join and its
    preparation, listener calls, the publication of assignments, and the loop
    [run]. A function that takes [&mut CoordinatorState] is a [task]; [cf] are
    its settings and [fuel] the rounds that each loop may make. Log events and
    the wake-up of tasks that wait for an assignment have no state. *)

From S2P Require Import Prelude Bytes Text Errors ConsumerErrors Assignor Sticky GroupAssign FetchBuffer.
From S2P Require Import OffsetWire Commit Subscription ConsumerProtocol GroupIo GroupNet GroupHeartbeat.

Definition CLOSE_LEAVE_REASON : string := "the consumer is being closed".
Definition POLL_TIMEOUT_LEAVE_REASON : string := "consumer poll timeout has expired.".
Definition UNSUBSCRIBE_LEAVE_REASON : string := "the consumer unsubscribed from all topics".
Definition JOIN_GROUP_EPOCH : Z := 0.

Definition u64_succ (z : Z) : Z := (z + 1) mod 2 ^ 64.

(** ** Pure parts *)

Definition add_ownership (acc : gmap topic_partition Z * Z) (partition : topic_partition)
    : gmap topic_partition Z * Z :=
  match acc.1 !! partition with
  | Some _ => acc
  | None => (<[partition := acc.2]> acc.1, u64_succ acc.2)
  end.

Definition update_ownership (ownership : gmap topic_partition Z) (assignment : list topic_partition)
    (preserve_retained : bool) (next_id : Z) : gmap topic_partition Z * Z :=
  foldl add_ownership
    (if preserve_retained then filter (λ e, e.1 ∈ assignment) ownership else ∅, next_id) assignment.

Definition remember_lost (lost owned : list topic_partition) : list topic_partition :=
  foldl (λ lost p, if bool_decide (p ∈ lost) then lost else lost ++ [p]) lost owned.

Definition partition_count (n : nat) : Z := Z.min (Z.of_nat n) i32_max.

(** The partition counts of the topics of [metadata] that [watched] has. *)
Definition topic_counts {Uuid} (watched : list string) (metadata : list (MetadataTopic Uuid))
    : gmap string Z :=
  foldl (λ counts t,
    match mt_name t with
    | Some name =>
      if bool_decide (name ∈ watched) then <[name := partition_count (mt_partitions t)]> counts else counts
    | None => counts
    end) ∅ metadata.

Definition topic_ids_of {Uuid} (watched : list string) (metadata : list (MetadataTopic Uuid))
    : gmap string Uuid :=
  foldl (λ ids t,
    match mt_name t with
    | Some name => if bool_decide (name ∈ watched) then <[name := mt_topic_id t]> ids else ids
    | None => ids
    end) ∅ metadata.

Definition subscribed_topics_grew (known current : gmap string Z) : bool :=
  existsb (λ e : string * Z, default 0 (known !! e.1) <? e.2) (map_to_list current).

Definition merge_counts (known current : gmap string Z) : gmap string Z :=
  map_fold (λ topic count known, <[topic := Z.max (default 0 (known !! topic)) count]> known) known current.

Inductive RejoinRequest : Type := NoRejoin | AfterPoll (polls : Z) | RejoinNow.

#[global] Instance RejoinRequest_eq_dec : EqDecision RejoinRequest.
Proof. solve_decision. Defined.

Definition requested (r : RejoinRequest) : bool := negb (bool_decide (r = NoRejoin)).

Definition due (r : RejoinRequest) (polls : Z) : bool :=
  match r with
  | NoRejoin => false
  | RejoinNow => true
  | AfterPoll count => negb (polls =? count)
  end.

Record JoinRequestFields : Type := mkJoinFields {
  jf_group_id : string;
  jf_group_instance_id : option string;
  jf_session_timeout_ms : Z;
  jf_rebalance_timeout_ms : Z;
  jf_protocols : list (string * bytes);
  jf_reason : string;
}.

Definition join_request (f : JoinRequestFields) (member_id : string) : JoinGroupRequest :=
  mkJoin (jf_group_id f) "consumer" member_id (jf_group_instance_id f) (jf_session_timeout_ms f)
    (jf_rebalance_timeout_ms f) (jf_protocols f) (Some (truncate_reason (jf_reason f))).

Section pure.
Context {GA : GroupApi}.

Definition join_protocols (assignors : list Assignor) (topics : list string)
    (owned : list topic_partition) (generation_id : Z) (rack_id : option string)
    (last_assignment : option (list topic_partition)) : result string (list (string * bytes)) :=
  mapM (λ assignor,
    subscription ← encode_subscription topics owned generation_id rack_id
      (subscription_user_data assignor last_assignment generation_id);
    Ok (protocol_name assignor, subscription)) assignors.

Definition build_sync_group_assignment (member_id : string) (partitions : list topic_partition)
    : result string (string * bytes) :=
  assignment ← encode_assignment partitions;
  Ok (member_id, assignment).

Definition sync_request (cf : Config) (generation_id : Z) (member_id protocol_name : string)
    (assignments : list (string * bytes)) : SyncGroupRequest :=
  mkSync (cf_group_id cf) generation_id member_id (cf_group_instance_id cf) (Some "consumer")
    (Some protocol_name) assignments.

Definition group_member_of (m : JoinGroupMember) : GroupMember :=
  mkGroupMember (mkMemberKey (jm_member_id m) (jm_group_instance_id m)) (decode_subscription (jm_metadata m)).

(** [None] is an assignor that does not end. *)
Definition leader_assignments (assignors : list Assignor) (response : JoinGroupResponse)
    (metadata : list (MetadataTopic Uuid)) : option (result consumer_error (list (string * bytes))) :=
  let name := default "" (jr_protocol_name response) in
  match by_protocol_name assignors name with
  | None =>
    Some (Err (ConsumerError.IllegalState
                 ("Coordinator selected invalid assignment protocol: " +:+ name)))
  | Some assignor =>
    let members := group_member_of <$> jr_members response in
    let all_topics := concat ((λ m, sub_topics (gm_subscription m)) <$> members) in
    out ← assign_group assignor members (topic_counts all_topics metadata);
    Some (map_err ConsumerError.Protocol
      (mapM (λ e : string * list topic_partition, build_sync_group_assignment e.1 e.2) (sorted_map out)))
  end.

Definition group_subscription_topics (response : JoinGroupResponse) (own : list string) : list string :=
  sorted (concat ((λ m, sub_topics (decode_subscription (jm_metadata m))) <$> jr_members response) ++ own).

End pure.

Section coordinator.
Context {GA : GroupApi} (cf : Config) (fuel : nat).

(** ** Membership *)

Definition poll_timer_reset : task unit :=
  t ← now; put_member (set_poll_deadline (t + cf_max_poll_interval cf)).

Definition remember_lost_partitions : task unit :=
  lock;;
  owned ← get (λ st, sh_assigned (sh st));
  put_member (λ m, set_lost_partitions (remember_lost (me_lost_partitions m) owned) m).

Definition set_generation (generation_id : Z) : task unit :=
  put_member (set_generation_id generation_id);;
  put_shared (set_current_generation generation_id).

Definition install_generation (generation_id : Z) : task unit :=
  lock;;
  member_id ← get (λ st, me_member_id (mem st));
  put_shared (λ s,
    set_identity (mkIdentity generation_id member_id (ci_ownership_ids (sh_identity s))
                    (ci_rejoin_on_poll (sh_identity s))) s);;
  set_generation generation_id.

(** The part of [install_assignment] under the two locks. *)
Definition publish_ownership (assignment : list topic_partition) (preserve_retained : bool)
    (generation_id : Z) (rejoin_on_poll : bool) (member_id : string) (next_id : Z) (s : Shared) : Shared :=
  let ownership := (update_ownership (ci_ownership_ids (sh_identity s)) assignment preserve_retained next_id).1 in
  set_published_member_id member_id
    (set_identity (mkIdentity generation_id member_id ownership rejoin_on_poll) (set_assigned assignment s)).

Definition install_assignment (assignment : list topic_partition) (preserve_retained : bool)
    (generation_id : Z) (rejoin_on_poll : bool) : task unit :=
  next_id ← get (λ st, me_next_ownership_id (mem st));
  lock;; lock;;
  next_id' ← get (λ st, (update_ownership (ci_ownership_ids (sh_identity (sh st))) assignment
                           preserve_retained next_id).2);
  member_id ← get (λ st, me_member_id (mem st));
  put_shared (publish_ownership assignment preserve_retained generation_id rejoin_on_poll member_id next_id);;
  lock;;
  put_shared (set_end_offsets ∅);;
  put_member (set_next_ownership_id next_id');;
  set_generation generation_id.

Definition publish_assignment (assignment : list topic_partition) (preserve_retained : bool)
    (generation_id : Z) : task unit :=
  install_assignment assignment preserve_retained generation_id false.

Definition forget_member : task unit :=
  put_member (set_member_id "");;
  put_shared (set_rebalance_pending true);;
  remember_lost_partitions;;
  install_assignment [] false (-1) false.

Definition fence_member (group_instance_id : string) : task unit :=
  put_member (set_member_id "");;
  put_shared (set_rebalance_pending true);;
  remember_lost_partitions;;
  install_assignment [] false (-1) true;;
  put_shared (set_poll_error (Some (ConsumerError.FencedInstanceId group_instance_id))).

Definition leave_on_poll_timeout : task unit :=
  member_id ← get (λ st, me_member_id (mem st));
  put_member (set_member_id "");;
  put_shared (set_rebalance_pending true);;
  remember_lost_partitions;;
  install_assignment [] false (-1) true;;
  if should_send_leave_group member_id (cf_group_instance_id cf) DefaultOperation
  then leave_group cf member_id DefaultOperation POLL_TIMEOUT_LEAVE_REASON
  else mret ().

(** ** Listener calls *)

Inductive CallWait : Type := CallRan | CallWasDropped (deadline : Z) | CallPollTimeout.

Fixpoint listener_wait_rounds (n : nat) (deadline polls : Z) : task CallWait :=
  match n with
  | O => stuck
  | S n =>
    event ← await (ListenerWait deadline);
    match event with
    | CallDone => mret CallRan
    | CallDropped => mret (CallWasDropped deadline)
    | DeadlinePassed =>
      now_polls ← get (λ st, sh_polls (sh st));
      if now_polls =? polls then mret CallPollTimeout
      else t ← now; listener_wait_rounds n (t + cf_max_poll_interval cf) now_polls
    end
  end.

Definition wait_for_listener_call : task CallWait :=
  deadline ← get (λ st, me_poll_deadline (mem st));
  polls ← get (λ st, sh_polls (sh st));
  listener_wait_rounds fuel deadline polls.

(** [heartbeat_during_join_prepare]: [None] is a member of the consumer group
    protocol, whose heartbeats end only with the cancellation. *)
Definition heartbeat_during_join_prepare : task (option HeartbeatOutcome) :=
  if bool_decide (cf_group_protocol cf = ConsumerGroup)
  then callback_heartbeat_rounds cf fuel;; mret None
  else outcome ← heartbeat_rounds cf fuel fuel; mret (Some outcome).

Fixpoint listener_call_rounds (n : nat) (kind : ListenerCallKind) (partitions : list topic_partition)
    : task (result consumer_error unit) :=
  match n with
  | O => stuck
  | S n =>
    if negb (cf_has_listener cf) then mret (Ok ())
    else
      sent ← await (CallListener kind partitions);
      if negb sent then mret (Ok ())
      else
        '(ran_in_time, heartbeat) ← join_until wait_for_listener_call heartbeat_during_join_prepare;
        let after resend :=
          match mjoin heartbeat with
          | Some Fenced =>
            mret (Err (ConsumerError.FencedInstanceId (default "" (cf_group_instance_id cf))))
          | Some RejoinFromScratch =>
            forget_member;;
            put_member (set_rejoin_reason (heartbeat_rejoin_reason UNKNOWN_MEMBER_ID));;
            mret (Ok ())
          | _ => if resend : bool then listener_call_rounds n kind partitions else mret (Ok ())
          end in
        match ran_in_time with
        | CallRan => poll_timer_reset;; after false
        | CallWasDropped deadline => put_member (set_poll_deadline deadline);; after true
        | CallPollTimeout =>
          put_member (set_poll_timeout_in_callback true);;
          mret (Err (ConsumerError.RebalanceFailed
                       "max_poll_interval expired while a rebalance listener callback waited"))
        end
  end.

Definition call_listener := listener_call_rounds fuel.

(** The added partitions wait for their callback while [body] runs; the guard
    is dropped at the end of [body], also after an error. *)
Definition gated {A} (partitions : list topic_partition) (body : task (result consumer_error A))
    : task (result consumer_error A) :=
  if negb (cf_has_listener cf) then body
  else
    put_shared (λ s, set_callback_pending (sh_callback_pending s ∪ list_to_set partitions) s);;
    r ← body;
    put_shared (λ s, set_callback_pending (sh_callback_pending s ∖ list_to_set partitions) s);;
    mret r.

(** ** The join *)

Definition commit_before_join : task (result consumer_error unit) :=
  auto_commit ← get (λ st, sh_auto_commit (sh st));
  match auto_commit with
  | None => mret (Ok ())
  | Some _ =>
    ended ← race (commit_consumed_before_join cf fuel) heartbeat_during_join_prepare;
    match ended with
    | inr (Some Fenced) =>
      mret (Err (ConsumerError.FencedInstanceId (default "" (cf_group_instance_id cf))))
    | inr (Some RejoinFromScratch) =>
      forget_member;;
      put_member (set_rejoin_reason (heartbeat_rejoin_reason UNKNOWN_MEMBER_ID));;
      mret (Ok ())
    | _ => mret (Ok ())
    end
  end.

Definition join_prepare : task (result consumer_error unit) :=
  prepared ← get (λ st, me_join_prepared (mem st));
  if prepared : bool then mret (Ok ())
  else
    _ ←? commit_before_join;
    put_member (set_join_prepared true);;
    unknown ← get (λ st, bool_decide (me_member_id (mem st) = "") || (me_generation_id (mem st) <? 0));
    if unknown : bool then
      lost ← get (λ st, me_lost_partitions (mem st));
      put_member (set_lost_partitions []);;
      if bool_decide (lost = []) then mret (Ok ()) else call_listener Lost lost
    else if bool_decide (cf_rebalance_protocol cf = Eager) then
      lock;;
      owned ← get (λ st, sh_assigned (sh st));
      call_listener Revoked owned
    else
      lock;;
      owned ← get (λ st, sh_assigned (sh st));
      subscription ← get (λ st, sh_subscription (sh st));
      let kept := filter (λ tp : topic_partition, contains subscription tp.1 = true) owned in
      let revoked := filter (λ tp : topic_partition, contains subscription tp.1 = false) owned in
      if bool_decide (revoked = []) then mret (Ok ())
      else
        _ ←? call_listener Revoked revoked;
        generation ← get (λ st, me_generation_id (mem st));
        publish_assignment kept true generation;;
        mret (Ok ()).

Definition send_join_group (fields : JoinRequestFields) (member_id : string)
    : task (result consumer_error JoinGroupResponse) :=
  run_with_refind cf fuel jr_error_code
    (node ← coordinator_id;
     r ← await (SendJoin node (join_request fields member_id));
     mret (map_err ConsumerError.Client r)).

Definition perform_join (owned : list topic_partition) : task (result consumer_error JoinGroupResponse) :=
  topics ← get (λ st, su_topics (sh_subscription (sh st)));
  put_member (set_joined_topics topics);;
  generation_id ← get (λ st, me_generation_id (mem st));
  reason ← get (λ st, me_rejoin_reason (mem st));
  match join_protocols (cf_assignors cf) topics
          (match cf_rebalance_protocol cf with Eager => [] | Cooperative => owned end)
          generation_id (cf_client_rack cf) (if 0 <=? generation_id then Some owned else None) with
  | Err e => mret (Err (ConsumerError.Protocol e))
  | Ok protocols =>
    let fields := mkJoinFields (cf_group_id cf) (cf_group_instance_id cf) (cf_session_timeout_ms cf)
                    (cf_max_poll_interval_ms cf) protocols in
    member_id ← get (λ st, me_member_id (mem st));
    r1 ←? send_join_group (fields reason) member_id;
    if jr_error_code r1 =? 0 then mret (Ok r1)
    else if jr_error_code r1 =? 79 then
      let assigned_id := jr_member_id r1 in
      if bool_decide (assigned_id = "")
      then mret (Err (ConsumerError.RebalanceFailed "broker did not assign a member_id"))
      else
        let reason := "need to re-join with the given member-id: " +:+ assigned_id in
        put_member (set_member_id assigned_id);;
        put_member (set_rejoin_reason reason);;
        r2 ←? send_join_group (fields reason) assigned_id;
        if negb (jr_error_code r2 =? 0)
        then mret (Err (group_response_error (jr_error_code r2) (cf_group_instance_id cf)))
        else mret (Ok r2)
    else mret (Err (group_response_error (jr_error_code r1) (cf_group_instance_id cf)))
  end.

(** The sync assignments of a leader, and the partition counts they are
    computed against. *)
Definition compute_leader_assignment (response : JoinGroupResponse) (is_leader : bool)
    : task (result consumer_error (list (string * bytes) * gmap string Z)) :=
  if negb is_leader then mret (Ok ([], ∅))
  else
    own ← get (λ st, su_topics (sh_subscription (sh st)));
    let group_topics := group_subscription_topics response own in
    put_member (set_metadata_topics (sorted group_topics));;
    metadata ←? refresh_metadata;
    lock;;
    put_shared (λ s, set_topic_ids (topic_ids_of group_topics metadata ∪ sh_topic_ids s) s);;
    match leader_assignments (cf_assignors cf) response metadata with
    | None => stuck
    | Some (Err e) => mret (Err e)
    | Some (Ok assignments) => mret (Ok (assignments, topic_counts group_topics metadata))
    end.

Definition sync_assignment (generation_id : Z) (protocol : string) (assignments : list (string * bytes))
    : task (result consumer_error (list topic_partition)) :=
  response ←? run_with_refind cf fuel sr_error_code
    (member_id ← get (λ st, me_member_id (mem st));
     node ← coordinator_id;
     r ← await (SendSync node (sync_request cf generation_id member_id protocol assignments));
     mret (map_err ConsumerError.Client r));
  if negb (sr_error_code response =? 0)
  then mret (Err (group_response_error (sr_error_code response) (cf_group_instance_id cf)))
  else mret (Ok (decode_assignment (sr_assignment response))).

Record JoinOutcome : Type := mkJoinOutcome {
  jo_owned : list topic_partition;
  jo_assignment : list topic_partition;
  jo_generation : Z;
  jo_topic_partitions : gmap string Z;
}.

Definition join_and_sync : task (result consumer_error JoinOutcome) :=
  _ ←? join_prepare;
  own_topics ← get (λ st, su_topics (sh_subscription (sh st)));
  put_member (set_metadata_topics (sorted own_topics));;
  lock;;
  owned ← get (λ st, sh_assigned (sh st));
  join_resp ←? perform_join owned;
  (if bool_decide (jr_member_id join_resp = "") then mret ()
   else put_member (set_member_id (jr_member_id join_resp)));;
  is_leader ← get (λ st, bool_decide (jr_leader join_resp = me_member_id (mem st)));
  leader ←? compute_leader_assignment join_resp is_leader;
  my_assignment ←? sync_assignment (jr_generation_id join_resp)
    (default "" (jr_protocol_name join_resp)) leader.1;
  put_member (set_join_prepared false);;
  put_member (set_rejoin_reason "");;
  auto_commit ← get (λ st, sh_auto_commit (sh st));
  match auto_commit with
  | None => mret ()
  | Some _ =>
    lock;; t ← now;
    put_shared (λ s, set_auto_commit ((λ a, restart_interval a t) <$> sh_auto_commit s) s)
  end;;
  mret (Ok (mkJoinOutcome owned my_assignment (jr_generation_id join_resp) leader.2)).

(** ** The rejoin *)

Definition publish_cooperative_additions (assignment added : list topic_partition) (generation_id : Z)
    : task (result consumer_error unit) :=
  _ ←? prime_offsets cf fuel added;
  gated added (publish_assignment assignment true generation_id;; call_listener Assigned added).

(** [with_offsets_and_positions], keeping the partitions that [keep] selects. *)
Definition retain_offsets (keep : topic_partition → bool) : task unit :=
  lock;; lock;;
  put_shared (λ s,
    set_positions (filter (λ e, keep e.1 = true) (sh_positions s))
      (set_next_offsets (filter (λ e, keep e.1 = true) (sh_next_offsets s)) s)).

Definition minus (a b : list topic_partition) : list topic_partition :=
  filter (λ p, p ∉ b) a.

(** The second round of a cooperative rebalance. *)
Definition rejoin_after_revoke : task (result consumer_error (gmap string Z)) :=
  put_member (set_rejoin_reason "need to revoke partitions and re-join");;
  second ←? join_and_sync;
  let added2 := minus (jo_assignment second) (jo_owned second) in
  let revoked2 := minus (jo_owned second) (jo_assignment second) in
  _ ←? (if bool_decide (revoked2 = []) then mret (Ok ())
        else install_generation (jo_generation second);; call_listener Revoked revoked2);
  _ ←? prime_offsets cf fuel added2;
  _ ←? gated added2 (publish_assignment (jo_assignment second) true (jo_generation second);;
                     call_listener Assigned added2);
  mret (Ok (jo_topic_partitions second)).

Definition rejoin_group : task (result consumer_error (gmap string Z)) :=
  joined ←? join_and_sync;
  let old_set : gset topic_partition := list_to_set (jo_owned joined) in
  let new_set : gset topic_partition := list_to_set (jo_assignment joined) in
  let revoked := visit_set (old_set ∖ new_set) in
  let added := visit_set (new_set ∖ old_set) in
  match cf_rebalance_protocol cf with
  | Eager =>
    _ ←? prime_offsets cf fuel added;
    _ ←? gated (jo_assignment joined)
      (publish_assignment (jo_assignment joined) false (jo_generation joined);;
       retain_offsets (λ p, bool_decide (p ∈ new_set));;
       call_listener Assigned (jo_assignment joined));
    mret (Ok (jo_topic_partitions joined))
  | Cooperative =>
    if bool_decide (revoked = []) then
      _ ←? publish_cooperative_additions (jo_assignment joined) added (jo_generation joined);
      mret (Ok (jo_topic_partitions joined))
    else
      install_generation (jo_generation joined);;
      _ ←? call_listener Revoked revoked;
      _ ←? publish_cooperative_additions (jo_assignment joined) added (jo_generation joined);
      retain_offsets (λ p, bool_decide (p ∉ revoked));;
      rejoin_after_revoke
  end.

(** ** Requests for a rejoin *)

Definition request_after_poll (rejoin : RejoinRequest) (polls : Z) : task RejoinRequest :=
  put_shared (set_rebalance_pending true);;
  mret (match rejoin with NoRejoin => AfterPoll polls | r => r end).

Definition request_after_next_poll (rejoin : RejoinRequest) : task RejoinRequest :=
  polls ← get (λ st, sh_polls (sh st)); request_after_poll rejoin polls.

Fixpoint poll_wait_rounds (n : nat) : task bool :=
  match n with
  | O => stuck
  | S n =>
    event ← await PollWait;
    match event with
    | ShutdownFired | PollsClosed => mret false
    | PollsChanged =>
      polls ← get (λ st, sh_polls (sh st));
      put_member (set_polls_seen polls);;
      error ← get (λ st, sh_poll_error (sh st));
      match error with None => mret true | Some _ => poll_wait_rounds n end
    end
  end.

Definition wait_for_poll_after_error : task bool :=
  polls ← get (λ st, sh_polls (sh st));
  put_member (set_polls_seen polls);;
  poll_wait_rounds fuel.

(** [None] stops the task. *)
Definition prepare_fenced_rejoin (reason : string) : task (option RejoinRequest) :=
  polled ← wait_for_poll_after_error;
  if negb polled then mret None
  else
    poll_timer_reset;;
    put_member (set_rejoin_reason reason);;
    put_shared (set_rebalance_pending true);;
    mret (Some RejoinNow).

(** ** The subscription *)

Definition subscribed_partition_counts : task (result consumer_error (gmap string Z)) :=
  watched ← get (λ st, me_metadata_topics (mem st));
  metadata ←? refresh_metadata;
  mret (Ok (topic_counts watched metadata)).

Definition store_subscription (stored : Subscription * bool) : task unit :=
  if stored.2
  then put_shared (λ s, set_subscription_changes (sh_subscription_changes s + 1) (set_subscription stored.1 s))
  else mret ().

Definition refresh_pattern_topics : task bool :=
  before ← get (λ st, sh_subscription (sh st));
  match su_pattern before with
  | None => mret false
  | Some pattern =>
    r ← await (FetchMetadata AllTopics);
    match r with
    | Err _ => mret false
    | Ok metadata =>
      exclude_internal ← get (λ st, su_exclude_internal_topics (sh_subscription (sh st)));
      let matched := default [] (matching_topics
        (mkSub [] (Some pattern) None exclude_internal 0 0 false) metadata) in
      stored ← get (λ st, store_pattern_topics (sh_subscription (sh st)) (su_version before) matched);
      store_subscription stored;;
      current ← get (λ st, su_version (sh_subscription (sh st)));
      (if current =? su_version before
       then
         put_member (set_metadata_topics (sorted matched));;
         if stored.2 : bool
         then changes ← get (λ st, sh_subscription_changes (sh st)); put_member (set_subscription_seen changes)
         else mret ()
       else mret ());;
      mret stored.2
    end
  end.

Definition handle_subscription_change (rejoin : RejoinRequest) (known_counts : gmap string Z)
    : task (RejoinRequest * gmap string Z) :=
  changes ← get (λ st, sh_subscription_changes (sh st));
  put_member (set_subscription_seen changes);;
  subscription ← get (λ st, sh_subscription (sh st));
  seen ← get (λ st, me_seen_unsubscribes (mem st));
  rejoin ←
    (if su_unsubscribes subscription =? seen then mret rejoin
     else
       put_member (set_seen_unsubscribes (su_unsubscribes subscription));;
       member_id ← get (λ st, me_member_id (mem st));
       put_member (set_member_id "");;
       put_member (set_lost_partitions []);;
       (if su_manual_assignment subscription then mret () else install_assignment [] false (-1) false);;
       put_shared (set_rebalance_pending false);;
       put_member (set_rejoin_reason "consumer pro-actively leaving the group");;
       leave_group cf member_id DefaultOperation UNSUBSCRIBE_LEAVE_REASON;;
       mret NoRejoin);
  if is_none subscription then mret (rejoin, known_counts)
  else
    _ ← refresh_pattern_topics;
    topics ← get (λ st, su_topics (sh_subscription (sh st)));
    put_member (set_metadata_topics (sorted topics));;
    joined ← get (λ st, me_joined_topics (mem st));
    member_id ← get (λ st, me_member_id (mem st));
    if negb (bool_decide (topics = joined)) then
      put_member (set_rejoin_reason (subscription_changed_reason joined topics));;
      rejoin ← request_after_next_poll rejoin;
      counts ← subscribed_partition_counts;
      mret (rejoin, match counts with Ok counts => counts | Err _ => known_counts end)
    else if bool_decide (member_id = "") then
      rejoin ← request_after_next_poll rejoin; mret (rejoin, known_counts)
    else mret (rejoin, known_counts).

(** ** The loop *)

Record Loop : Type := mkLoop {
  lo_rejoin : RejoinRequest;
  lo_known_counts : gmap string Z;
  lo_last_meta_check : Z;
  lo_polls_open : bool;
}.

Definition with_rejoin (lo : Loop) (rejoin : RejoinRequest) : Loop :=
  mkLoop rejoin (lo_known_counts lo) (lo_last_meta_check lo) (lo_polls_open lo).

(** The check of the metadata of the subscribed topics. *)
Definition check_metadata (lo : Loop) : task Loop :=
  t ← now;
  if requested (lo_rejoin lo)
     || negb (cf_subscription_metadata_refresh_interval cf <=? t - lo_last_meta_check lo)
  then mret lo
  else
    let lo := mkLoop (lo_rejoin lo) (lo_known_counts lo) t (lo_polls_open lo) in
    changed ← refresh_pattern_topics;
    topics ← get (λ st, su_topics (sh_subscription (sh st)));
    joined ← get (λ st, me_joined_topics (mem st));
    if changed && negb (bool_decide (topics = joined)) then
      put_member (set_rejoin_reason (subscription_changed_reason joined topics));;
      with_rejoin lo <$> request_after_next_poll (lo_rejoin lo)
    else
      current ← subscribed_partition_counts;
      match current with
      | Ok current =>
        if subscribed_topics_grew (lo_known_counts lo) current then
          put_member (set_rejoin_reason "cached metadata has changed");;
          with_rejoin lo <$> request_after_next_poll (lo_rejoin lo)
        else mret lo
      | Err _ => mret lo
      end.

Definition rejoin_due (lo : Loop) : task (option Loop) :=
  ended ← select Shutdown rejoin_group;
  match ended with
  | inl _ => mret None
  | inr (Ok snapshot) =>
    put_shared (set_rebalance_pending false);;
    poll_timer_reset;;
    mret (Some (mkLoop NoRejoin (merge_counts (lo_known_counts lo) snapshot)
                  (lo_last_meta_check lo) (lo_polls_open lo)))
  | inr (Err (ConsumerError.FencedInstanceId group_instance_id)) =>
    fence_member group_instance_id;;
    fmap (with_rejoin lo) <$>
      prepare_fenced_rejoin (rebalance_failure_reason (ConsumerError.FencedInstanceId ""))
  | inr (Err e) =>
    expired ← get (λ st, me_poll_timeout_in_callback (mem st));
    put_member (set_poll_timeout_in_callback false);;
    if expired : bool then
      put_member (set_rejoin_reason "consumer pro-actively leaving the group");;
      rejoin ← request_after_next_poll NoRejoin;
      leave_on_poll_timeout;;
      mret (Some (with_rejoin lo rejoin))
    else
      put_member (set_rejoin_reason (rebalance_failure_reason e));;
      report_rejoin_error e;;
      mret (Some lo)
  end.

Definition heartbeat_tick (lo : Loop) : task (option Loop) :=
  ended ← select Shutdown (heartbeat_once cf fuel);
  match ended with
  | inl _ => mret None
  | inr (HbOk | Transient) => mret (Some lo)
  | inr (NeedRejoin error_code) =>
    put_member (set_rejoin_reason (heartbeat_rejoin_reason error_code));;
    Some ∘ with_rejoin lo <$> request_after_next_poll (lo_rejoin lo)
  | inr RejoinFromScratch =>
    forget_member;;
    put_member (set_rejoin_reason (heartbeat_rejoin_reason UNKNOWN_MEMBER_ID));;
    Some ∘ with_rejoin lo <$> request_after_next_poll (lo_rejoin lo)
  | inr Fenced =>
    fence_member (default "" (cf_group_instance_id cf));;
    fmap (with_rejoin lo) <$> prepare_fenced_rejoin (heartbeat_rejoin_reason FENCED_INSTANCE_ID)
  end.

(** What follows the event in an iteration of the loop: [tick] and [poll] tell
    which one it was. *)
Definition handle_event (lo : Loop) (tick poll : bool) : task (option Loop) :=
  polls ← get (λ st, sh_polls (sh st));
  seen ← get (λ st, me_polls_seen (mem st));
  (if poll then poll_timer_reset
   else if polls =? seen then mret ()
   else put_member (set_polls_seen polls);; poll_timer_reset);;
  if poll && negb (due (lo_rejoin lo) polls) then mret (Some lo)
  else
    t ← now;
    member_id ← get (λ st, me_member_id (mem st));
    deadline ← get (λ st, me_poll_deadline (mem st));
    if negb poll && negb (bool_decide (member_id = "")) && (deadline <=? t) then
      put_member (set_rejoin_reason "consumer pro-actively leaving the group");;
      rejoin ← request_after_next_poll (lo_rejoin lo);
      leave_on_poll_timeout;;
      mret (Some (with_rejoin lo rejoin))
    else
      lo ← check_metadata lo;
      polls ← get (λ st, sh_polls (sh st));
      member_id ← get (λ st, me_member_id (mem st));
      if due (lo_rejoin lo) polls then rejoin_due lo
      else if tick && negb (bool_decide (member_id = "")) then heartbeat_tick lo
      else mret (Some lo).

(** One iteration of the loop; [None] leaves it. *)
Definition run_step (lo : Loop) : task (option Loop) :=
  member_id ← get (λ st, me_member_id (mem st));
  deadline ← get (λ st, me_poll_deadline (mem st));
  event ← await (NextEvent (lo_polls_open lo) (if bool_decide (member_id = "") then None else Some deadline));
  match event with
  | WakeShutdown => mret None
  | WakePollsClosed => mret (Some (mkLoop (lo_rejoin lo) (lo_known_counts lo) (lo_last_meta_check lo) false))
  | WakeEnforced reason polls =>
    put_member (set_rejoin_reason reason);;
    Some ∘ with_rejoin lo <$> request_after_poll (lo_rejoin lo) polls
  | WakeSubscription =>
    '(rejoin, counts) ← handle_subscription_change (lo_rejoin lo) (lo_known_counts lo);
    mret (Some (mkLoop rejoin counts (lo_last_meta_check lo) (lo_polls_open lo)))
  | WakePoll =>
    polls ← get (λ st, sh_polls (sh st));
    put_member (set_polls_seen polls);;
    handle_event lo false true
  | WakeTick => handle_event lo true false
  | WakePollTimeout => handle_event lo false false
  end.

Fixpoint run_rounds (n : nat) (lo : Loop) : task unit :=
  match n with
  | O => stuck
  | S n =>
    next ← run_step lo;
    match next with None => mret () | Some lo => run_rounds n lo end
  end.

Definition run (initial_subscribed_counts : gmap string Z) : task unit :=
  _ ← refresh_metadata;
  t ← now;
  put_member (set_poll_deadline (t + cf_max_poll_interval cf));;
  run_rounds fuel (mkLoop NoRejoin initial_subscribed_counts t true);;
  member_id ← get (λ st, me_member_id (mem st));
  operation ← get (λ st, sh_close_operation (sh st));
  leave_group cf member_id operation CLOSE_LEAVE_REASON.

End coordinator.
