(* ===== verification/ConsumerGroup.v ===== *)
(** * The member of the consumer group protocol

    The second part of [crates/client-consumer/src/consumer_group.rs] and the
    functions of [coordinator.rs] that it calls: one heartbeat and what its
    answer does, the reconciliation of an assignment, and the loop [run] of a
    KIP-848 member. *)

From S2P Require Import Prelude Bytes Errors ConsumerErrors Assignor GroupAssign FetchBuffer.
From S2P Require Import OffsetWire Commit Subscription ConsumerProtocol GroupIo GroupNet GroupHeartbeat.
From S2P Require Import GroupCoordinator.

Inductive GroupOutcome : Type :=
| GroupInterval (next : Z)
| GroupReconciled (next : Z)
| GroupBackoff
| GroupStop.

(** Milliseconds of an answer, in nanoseconds. *)
Definition heartbeat_interval (heartbeat_interval_ms configured : Z) : Z :=
  if 0 <? heartbeat_interval_ms then heartbeat_interval_ms * 1000000 else configured.

Section group.
Context {GA : GroupApi} (cf : Config) (fuel : nat).

(** ** The functions of [coordinator.rs] *)

Definition forget_member_keeping_id : task unit :=
  put_shared (set_rebalance_pending true);;
  remember_lost_partitions;;
  install_assignment [] false JOIN_GROUP_EPOCH false.

Definition release_partitions_after_poll_timeout : task unit :=
  put_shared (set_rebalance_pending true);;
  remember_lost_partitions;;
  install_assignment [] false JOIN_GROUP_EPOCH true.

Definition publish_member_epoch : task unit :=
  epoch ← get (λ st, me_member_epoch (mem st));
  lock;;
  member_id ← get (λ st, me_member_id (mem st));
  put_shared (λ s,
    set_identity (mkIdentity epoch member_id (ci_ownership_ids (sh_identity s))
                    (ci_rejoin_on_poll (sh_identity s))) s);;
  put_shared (λ s,
    if bool_decide (sh_published_member_id s = member_id) then s else set_published_member_id member_id s);;
  set_generation epoch.

Definition call_lost_listener : task (result consumer_error unit) :=
  lost ← get (λ st, me_lost_partitions (mem st));
  put_member (set_lost_partitions []);;
  if bool_decide (lost = []) then mret (Ok ()) else call_listener cf fuel Lost lost.

(** ** Heartbeats *)

(** [send_heartbeat]: the call that is ready to go out. *)
Definition prepare_heartbeat (kind : HeartbeatKind) : task (Z * ConsumerGroupHeartbeatRequest * bool) :=
  sent ← get (λ st, me_sent_heartbeat_fields (mem st));
  needs_regex ← get (λ st, bool_decide (is_Some (su_regex (sh_subscription (sh st)))));
  fields ← heartbeat_fields cf kind;
  let '(request, sent) := build_heartbeat fields sent in
  put_member (set_sent_heartbeat_fields sent);;
  node ← coordinator_id;
  mret (node, request, needs_regex).

Definition refresh_topic_ids (unresolved : gset Uuid) : task unit :=
  by_id ← get (λ st, bool_decide (is_Some (su_regex (sh_subscription (sh st)))));
  topics ← get (λ st, me_metadata_topics (mem st));
  r ← await (FetchMetadata (if by_id : bool then TopicIds unresolved else TopicNames topics));
  match r with
  | Ok metadata =>
    lock;; put_shared (λ s, set_topic_ids (refresh_tracked_topic_ids (sh_topic_ids s) metadata) s)
  | Err _ => mret ()
  end.

(** [id_to_name] of the topic ids that the consumer knows. *)
Definition known_names : task (gmap Uuid string) :=
  lock;; get (λ st, id_to_name (visit_topics (sh_topic_ids (sh st)))).

Definition reconcile (target : list topic_partition) : task (result consumer_error bool) :=
  lock;;
  owned ← get (λ st, sh_assigned (sh st));
  let revoked := sort_by tp_le (minus owned target) in
  let added := sort_by tp_le (minus target owned) in
  if bool_decide (revoked = []) && bool_decide (added = []) then
    put_shared (set_rebalance_pending false);; mret (Ok false)
  else
    put_shared (set_rebalance_pending true);;
    epoch ← get (λ st, me_member_epoch (mem st));
    _ ←? (if bool_decide (revoked = []) then mret (Ok ())
          else
            _ ←? call_listener cf fuel Revoked revoked;
            publish_assignment (filter (λ p, p ∈ target) owned) true epoch;;
            mret (Ok ()));
    _ ←? prime_offsets cf fuel added;
    result ← gated cf added (publish_assignment target true epoch;; call_listener cf fuel Assigned added);
    put_shared (set_rebalance_pending false);;
    mret ((λ _, true) <$> result).

(** What an answer with an assignment does, from the first look at the ids. *)
Definition handle_assignment (response : ConsumerGroupHeartbeatResponse) (interval : Z) : task GroupOutcome :=
  names ← known_names;
  match assignment_partitions response names with
  | None => put_shared (set_rebalance_pending false);; mret (GroupInterval interval)
  | Some (target, unresolved) =>
    target ←
      (if bool_decide (unresolved = ∅) then mret target
       else
         refresh_topic_ids unresolved;;
         names ← known_names;
         mret (match assignment_partitions response names with
               | Some (target, _) => target
               | None => target
               end));
    stored ← get (λ st, store_assigned_topics (sh_subscription (sh st)) target.*1);
    store_subscription stored;;
    reconciled ← reconcile target;
    match reconciled with
    | Ok true => mret (GroupReconciled interval)
    | Ok false => mret (GroupInterval interval)
    | Err _ => mret GroupBackoff
    end
  end.

(** The heartbeat and its answer: after an error the member does not know what
    reached the coordinator, and forgets what it sent. *)
Definition heartbeat_exchange (kind : HeartbeatKind)
    : task (result ClientError.client_error ConsumerGroupHeartbeatResponse) :=
  '(node, request, needs_regex) ← prepare_heartbeat kind;
  r ← await (SendGroupHeartbeat node request needs_regex);
  match r with
  | Err _ => put_member (set_sent_heartbeat_fields SentFields_default)
  | Ok response =>
    if ga_error_code response =? 0 then mret ()
    else put_member (set_sent_heartbeat_fields SentFields_default)
  end;;
  mret r.

Definition group_heartbeat_once : task GroupOutcome :=
  kind ← get (λ st, if me_member_epoch (mem st) =? JOIN_GROUP_MEMBER_EPOCH then KindJoin else KindInterval);
  r ← heartbeat_exchange kind;
  match r with
  | Err error =>
    if negb (is_retriable_transport_error error) then
      report_fatal_error (ConsumerError.Client error);; mret GroupStop
    else node ← coordinator_id; evict_broker node;; mret GroupBackoff
  | Ok response =>
    let interval := heartbeat_interval (ga_heartbeat_interval_ms response) (cf_heartbeat_interval cf) in
    match heartbeat_action (ga_error_code response) with
    | ActionRetry => mret GroupBackoff
    | ActionFindCoordinator => refind cf fuel;; mret GroupBackoff
    | ActionFenced =>
      put_member (set_member_epoch JOIN_GROUP_MEMBER_EPOCH);;
      forget_member_keeping_id;;
      _ ← call_lost_listener;
      mret GroupBackoff
    | ActionFatal => report_fatal_error (ConsumerError.Server (ga_error_code response));; mret GroupStop
    | ActionOk =>
      match ga_member_id response with
      | Some id => if bool_decide (id = "") then mret () else put_member (set_member_id id)
      | None => mret ()
      end;;
      put_member (set_member_epoch (ga_member_epoch response));;
      publish_member_epoch;;
      handle_assignment response interval
    end
  end.

(** ** Leaving *)

Definition set_leave_epoch : task unit :=
  put_member (set_member_epoch (leave_group_epoch (cf_group_instance_id cf) DefaultOperation)).

Definition send_leave : task unit :=
  '(node, request, needs_regex) ← prepare_heartbeat KindLeave;
  await (SendGroupLeave node request needs_regex (cf_leave_group_timeout cf)).

Definition join_again : task unit :=
  put_member (set_member_epoch JOIN_GROUP_MEMBER_EPOCH);;
  put_member (set_sent_heartbeat_fields SentFields_default).

Definition leave_after_poll_timeout : task unit :=
  set_leave_epoch;; send_leave;;
  release_partitions_after_poll_timeout;;
  _ ← call_lost_listener;
  join_again.

Definition leave_after_unsubscribe : task unit :=
  set_leave_epoch;; send_leave;;
  forget_member_keeping_id;;
  put_shared (set_rebalance_pending false);;
  join_again.

(** ** The loop *)

Record GroupLoop : Type := mkGroupLoop {
  gl_interval : Z;
  gl_send_now : bool;
  gl_polls_open : bool;
  gl_left_on_poll_timeout : bool;
  gl_unsubscribed : bool;
  gl_last_pattern_check : option Z;
}.

(** How an iteration goes on: with the next iteration, with the heartbeat of
    this one, or out of the loop. *)
Inductive flow : Type := Continue (lo : GroupLoop) | Proceed (lo : GroupLoop) | Break (lo : GroupLoop).

Definition with_flags (lo : GroupLoop) (left unsubscribed : bool) : GroupLoop :=
  mkGroupLoop (gl_interval lo) (gl_send_now lo) (gl_polls_open lo) left unsubscribed (gl_last_pattern_check lo).

Definition group_event_step (lo : GroupLoop) : task flow :=
  let idle := negb (gl_left_on_poll_timeout lo) && negb (gl_unsubscribed lo) in
  deadline ← get (λ st, me_poll_deadline (mem st));
  event ← await (NextGroupEvent (if idle then Some (gl_interval lo) else None) (gl_polls_open lo)
                   (if idle then Some deadline else None));
  match event with
  | GroupShutdown | GroupSubscriptionClosed => mret (Break lo)
  | GroupHeartbeat => mret (Proceed lo)
  | GroupPollsClosed =>
    mret (Continue (mkGroupLoop (gl_interval lo) (gl_send_now lo) false (gl_left_on_poll_timeout lo)
                      (gl_unsubscribed lo) (gl_last_pattern_check lo)))
  | GroupPoll =>
    polls ← get (λ st, sh_polls (sh st));
    put_member (set_polls_seen polls);;
    poll_timer_reset cf;;
    if negb (gl_left_on_poll_timeout lo) then mret (Continue lo)
    else join_again;; mret (Proceed (with_flags lo false (gl_unsubscribed lo)))
  | GroupPollTimeout =>
    leave_after_poll_timeout;; mret (Continue (with_flags lo true (gl_unsubscribed lo)))
  | GroupSubscription =>
    changes ← get (λ st, sh_subscription_changes (sh st));
    put_member (set_subscription_seen changes);;
    subscription ← get (λ st, sh_subscription (sh st));
    seen ← get (λ st, me_seen_unsubscribes (mem st));
    if negb (su_unsubscribes subscription =? seen) then
      put_member (set_seen_unsubscribes (su_unsubscribes subscription));;
      leave_after_unsubscribe;;
      mret (Continue (with_flags lo (gl_left_on_poll_timeout lo) true))
    else if is_none subscription then mret (Continue lo)
    else
      (if gl_unsubscribed lo then join_again else mret ());;
      (if bool_decide (su_topics subscription = []) then mret ()
       else put_member (set_metadata_topics (sorted (su_topics subscription))));;
      mret (Proceed (with_flags lo (gl_left_on_poll_timeout lo) false))
  end.

(** The match of a client-side pattern before a heartbeat. *)
Definition check_pattern (lo : GroupLoop) : task GroupLoop :=
  t ← now;
  pattern ← get (λ st, bool_decide (is_Some (su_pattern (sh_subscription (sh st)))));
  let is_due :=
    match gl_last_pattern_check lo with
    | None => true
    | Some last => cf_subscription_metadata_refresh_interval cf <=? t - last
    end in
  if pattern && is_due then
    _ ← refresh_pattern_topics;
    mret (mkGroupLoop (gl_interval lo) (gl_send_now lo) (gl_polls_open lo) (gl_left_on_poll_timeout lo)
            (gl_unsubscribed lo) (Some t))
  else mret lo.

Definition with_heartbeat (lo : GroupLoop) (interval : Z) (send_now : bool) : GroupLoop :=
  mkGroupLoop interval send_now (gl_polls_open lo) (gl_left_on_poll_timeout lo) (gl_unsubscribed lo)
    (gl_last_pattern_check lo).

(** The end of the loop: its last state, and whether a fatal error ended it. *)
Definition group_heartbeat_step (lo : GroupLoop) : task (GroupLoop + GroupLoop * bool) :=
  lo ← check_pattern lo;
  ended ← select Shutdown group_heartbeat_once;
  match ended with
  | inl _ => mret (inr (lo, false))
  | inr (GroupInterval next) => mret (inl (with_heartbeat lo next false))
  | inr (GroupReconciled next) => mret (inl (with_heartbeat lo next true))
  | inr GroupBackoff =>
    slept ← select Shutdown (await (Sleep (rt_initial_backoff (cf_retry_policy cf))));
    match slept with
    | inl _ => mret (inr (with_heartbeat lo (gl_interval lo) false, false))
    | inr _ => mret (inl (with_heartbeat lo (gl_interval lo) true))
    end
  | inr GroupStop => mret (inr (lo, true))
  end.

Definition group_run_step (lo : GroupLoop) : task (GroupLoop + GroupLoop * bool) :=
  if gl_send_now lo then group_heartbeat_step lo
  else
    next ← group_event_step lo;
    match next with
    | Continue lo => mret (inl lo)
    | Proceed lo => group_heartbeat_step lo
    | Break lo => mret (inr (lo, false))
    end.

Fixpoint group_run_rounds (n : nat) (lo : GroupLoop) : task (GroupLoop * bool) :=
  match n with
  | O => stuck
  | S n =>
    next ← group_run_step lo;
    match next with inl lo => group_run_rounds n lo | inr ended => mret ended end
  end.

Definition group_run : task unit :=
  _ ← refresh_metadata;
  poll_timer_reset cf;;
  '(lo, fatal) ← group_run_rounds fuel
    (mkGroupLoop (cf_heartbeat_interval cf) true true false false None);
  member_id ← get (λ st, me_member_id (mem st));
  operation ← get (λ st, sh_close_operation (sh st));
  if negb (gl_left_on_poll_timeout lo) && negb (gl_unsubscribed lo) && negb fatal
     && should_send_leave_heartbeat member_id (cf_group_instance_id cf) operation
  then
    put_member (set_member_epoch (leave_group_epoch (cf_group_instance_id cf) operation));;
    send_leave
  else mret ().

End group.
