(* ===== verification/GroupLogic.v ===== *)
(** * Runs of the coordinator task

    What may happen while the task awaits, the runs of a computation, and rules
    to prove that every state that the rest of the program can see satisfies an
    invariant. *)

From S2P Require Import Prelude Bytes Errors ConsumerErrors Assignor GroupAssign FetchBuffer.
From S2P Require Import OffsetWire Commit Subscription ConsumerProtocol GroupIo.

Create HintDb group.
#[export] Hint Extern 1 (PreOrder _) => typeclasses eauto : group.

(** ** The environment *)

(** What other tasks do at an await: a [poll], a [seek], a commit. The
    assignment, the commit identity and the generation are the task's to
    change, a partition keeps having a fetch position, and time passes. *)
Record env_step {GA : GroupApi} (s s' : Shared) : Prop := {
  es_assigned : sh_assigned s' = sh_assigned s;
  es_identity : sh_identity s' = sh_identity s;
  es_generation : sh_current_generation s' = sh_current_generation s;
  es_offsets : dom (sh_next_offsets s) ⊆ dom (sh_next_offsets s');
  es_now : sh_now s ≤ sh_now s';
}.

(** [Consumer::unsubscribe] also clears the assignment, with the ids of its
    ownership, and the positions. *)
Record unsubscribe_step {GA : GroupApi} (s s' : Shared) : Prop := {
  us_assigned : sh_assigned s' = [];
  us_ownership : ci_ownership_ids (sh_identity s') = ∅;
  us_generation_id : ci_generation (sh_identity s') = ci_generation (sh_identity s);
  us_member : ci_member_id (sh_identity s') = ci_member_id (sh_identity s);
  us_rejoin : ci_rejoin_on_poll (sh_identity s') = ci_rejoin_on_poll (sh_identity s);
  us_generation : sh_current_generation s' = sh_current_generation s;
  us_now : sh_now s ≤ sh_now s';
}.

Section logic.
Context {GA : GroupApi}.

#[global] Instance env_step_refl : Reflexive env_step.
Proof. intros s. by split. Qed.

#[global] Instance env_step_trans : Transitive env_step.
Proof.
  intros s1 s2 s3 [] []. split; try congruence; [by etrans|lia].
Qed.

(** What a broker promises of its answers. *)
Definition broker_law : Type := ∀ r : request, answer r → Prop.

Definition any_answer : broker_law := λ _ _, True.

(** Between two events of the loop the application may unsubscribe; at any
    other await it does not. A sleep takes its time. *)
Definition atomic_law (B : broker_law) (r : request) (st : St) (ans : answer r) (s : Shared) : Prop :=
  B r ans ∧
  match r with
  | NextEvent _ _ | NextGroupEvent _ _ _ => env_step (sh st) s ∨ unsubscribe_step (sh st) s
  | Sleep d => env_step (sh st) s ∧ sh_now (sh st) + d ≤ sh_now s
  | _ => env_step (sh st) s
  end.

Fixpoint law (B : broker_law) (r : request) : St → answer r → Shared → Prop :=
  match r return St → answer r → Shared → Prop with
  | Race r1 r2 => λ st ans s,
    match ans with inl a => law B r1 st a s | inr b => law B r2 st b s end
  | r => atomic_law B r
  end.

(** ** Runs *)

(** The states that are visible at an await of a run of [m]. *)
Inductive visible {A} (L : ∀ r, St → answer r → Shared → Prop) : io A → St → Prop :=
| visible_here r st k : visible L (Await r st k) st
| visible_later r st k ans s st' :
    L r st ans s → visible L (k ans s) st' → visible L (Await r st k) st'.

(** The results of a run of [m]. *)
Inductive ends {A} (L : ∀ r, St → answer r → Shared → Prop) : io A → A → St → Prop :=
| ends_done a st : ends L (Done a st) a st
| ends_later r st k ans s a st' :
    L r st ans s → ends L (k ans s) a st' → ends L (Await r st k) a st'.

(** ** Weakest preconditions *)

Section wp.
Context (L : ∀ r, St → answer r → Shared → Prop) (I : St → Prop).

Fixpoint wp {A} (m : io A) (Q : A → St → Prop) : Prop :=
  match m with
  | Done a st => Q a st
  | Stuck _ => True
  | Await r st k => I st ∧ ∀ ans s, L r st ans s → wp (k ans s) Q
  end.

Lemma wp_mono {A} (m : io A) (Q Q' : A → St → Prop) :
  (∀ a st, Q a st → Q' a st) → wp m Q → wp m Q'.
Proof.
  intros HQ. induction m as [a st|r st k IH|st]; simpl; [apply HQ| |done].
  intros [HI Hk]. split; [done|]. intros ans s HL. by apply IH, Hk.
Qed.

Lemma wp_bind {A B} (f : A → task B) (m : io A) (Q : B → St → Prop) :
  wp m (λ a st, wp (f a st) Q) → wp (io_bind f m) Q.
Proof.
  induction m as [a st|r st k IH|st]; simpl; [done| |done].
  intros [HI Hk]. split; [done|]. intros ans s HL. by apply IH, Hk.
Qed.

Lemma wp_visible {A} (m : io A) (Q : A → St → Prop) st : wp m Q → visible L m st → I st.
Proof.
  intros Hwp Hv. induction Hv as [r st k|r st k ans s st' HL Hv IH].
  - apply Hwp.
  - apply IH. by apply Hwp.
Qed.

Lemma wp_ends {A} (m : io A) (Q : A → St → Prop) a st : wp m Q → ends L m a st → Q a st.
Proof.
  intros Hwp He. induction He as [a st|r st k ans s a st' HL He IH]; [done|].
  apply IH. by apply Hwp.
Qed.

(** *** Rules for tasks *)

Lemma wp_task_bind {A C} (m : task A) (f : A → task C) st Q :
  wp (m st) (λ a st', wp (f a st') Q) → wp ((m ≫= f) st) Q.
Proof. apply wp_bind. Qed.

Lemma wp_try {E A C} (m : task (result E A)) (f : A → task (result E C)) st Q :
  wp (m st) (λ r st', match r with Ok a => wp (f a st') Q | Err e => Q (Err e) st' end) →
  wp (try_bind m f st) Q.
Proof. intros H. apply wp_bind. eapply wp_mono; [|exact H]. by intros [a|e] st'. Qed.

Lemma wp_task_fmap {A C} (f : A → C) (m : task A) st Q :
  wp (m st) (λ a st', Q (f a) st') → wp ((f <$> m) st) Q.
Proof. intros H. by apply wp_bind. Qed.

(** A request that is answered first drops the computation at its await. *)
Lemma wp_select {B} (HL : ∀ r1 r2 st ans s, L (Race r1 r2) st ans s →
    match ans with inl a => L r1 st a s | inr b => L r2 st b s end)
    (r : request) (m : io B) (Q : answer r + B → St → Prop) :
  (∀ a st s, I st → L r st a s → Q (inl a) (mkSt (mem st) s)) →
  wp m (λ b st, Q (inr b) st) → wp (select_io r m) Q.
Proof.
  intros Hr. induction m as [b st|r2 st k IH|st]; simpl; [done| |done].
  intros [HI Hk]. split; [done|]. intros [a|b] s H%HL; simpl; [by apply Hr|by apply IH, Hk].
Qed.
End wp.

(** ** Results that follow from the promises of the broker *)

Section yields.
Context (B : broker_law).

Fixpoint promised (r : request) : answer r → Prop :=
  match r return answer r → Prop with
  | Race r1 r2 => λ ans, match ans with inl a => promised r1 a | inr b => promised r2 b end
  | r => B r
  end.

Lemma law_promised r st ans s : law B r st ans s → promised r ans.
Proof.
  revert ans. induction r; simpl; intros ans HL; try (by destruct HL as [? _]).
  destruct ans; eauto.
Qed.

Fixpoint yields {A} (m : io A) (P : A → Prop) : Prop :=
  match m with
  | Done a _ => P a
  | Stuck _ => True
  | Await r st k => ∀ ans s, promised r ans → yields (k ans s) P
  end.

Lemma yields_bind {A C} (f : A → task C) (m : io A) (P : A → Prop) (R : C → Prop) :
  yields m P → (∀ a st, P a → yields (f a st) R) → yields (io_bind f m) R.
Proof. intros Hm Hf. induction m as [a st|r st k IH|st]; simpl in *; eauto. Qed.

Lemma wp_yields I {A} (m : io A) (P : A → Prop) (Q : A → St → Prop) :
  yields m P → wp (law B) I m (λ a st, P a → Q a st) → wp (law B) I m Q.
Proof.
  induction m as [a st|r st k IH|st]; simpl; [by intros HP HQ; apply HQ| |done].
  intros Hy [HI Hk]. split; [done|]. intros ans s HL. apply IH; [|by apply Hk].
  apply Hy. by eapply law_promised.
Qed.
End yields.

(** ** Computations that leave the membership alone *)

(** The requests that are answered while the task works. *)
Fixpoint calm (r : request) : bool :=
  match r with
  | NextEvent _ _ | NextGroupEvent _ _ _ => false
  | Race r1 r2 => calm r1 && calm r2
  | _ => true
  end.

Lemma law_env B r st ans s : calm r = true → law B r st ans s → env_step (sh st) s.
Proof.
  revert ans. induction r; simpl; intros ans Hc HL; try done;
    try (by destruct HL as [_ HL]); try (by destruct HL as [_ [HL _]]).
  apply andb_true_iff in Hc as [Hc1 Hc2]. destruct ans; eauto.
Qed.

(** [m], started with the member [me] and the shared state [s0], changes the
    member only by [M] and the shared state only by what the environment may
    change too. *)
Fixpoint quiet {A} (M : Member → Member → Prop) (me : Member) (s0 : Shared) (m : io A) : Prop :=
  match m with
  | Done _ st | Stuck st => M me (mem st) ∧ env_step s0 (sh st)
  | Await r st k =>
    M me (mem st) ∧ env_step s0 (sh st) ∧ calm r = true ∧
    ∀ ans s, env_step (sh st) s → quiet M me s (k ans s)
  end.

Definition quiet_task {A} (M : Member → Member → Prop) (m : task A) : Prop :=
  ∀ st, quiet M (mem st) (sh st) (m st).

Section quiet.
Context (M : Member → Member → Prop) `{!PreOrder M}.

Lemma quiet_weaken {A} me me' s s' (m : io A) :
  M me me' → env_step s s' → quiet M me' s' m → quiet M me s m.
Proof.
  intros HM Hs. revert s s' Hs. induction m as [a st|r st k IH|st]; simpl; intros s s' Hs.
  - intros [? ?]. split; by etrans.
  - intros (? & ? & ? & Hk). split_and!; [by etrans|by etrans|done|].
    intros ans s2 Hs2. eapply IH; [|by apply Hk]. done.
  - intros [? ?]. split; by etrans.
Qed.

Lemma quiet_top {A} me s (m : io A) :
  quiet M me s m → M me (mem (top_state m)) ∧ env_step s (sh (top_state m)).
Proof. destruct m; simpl; naive_solver. Qed.

Lemma quiet_bind {A B} me s (f : A → task B) (m : io A) :
  quiet M me s m → (∀ a, quiet_task M (f a)) → quiet M me s (io_bind f m).
Proof.
  intros Hm Hf. revert s Hm. induction m as [a st|r st k IH|st]; simpl; intros s Hm; [| |done].
  - destruct Hm. by eapply quiet_weaken, Hf.
  - destruct Hm as (? & ? & ? & Hk). split_and!; [done..|]. intros ans s2 Hs2. by apply IH, Hk.
Qed.

(** A computation that waits for an answer since an earlier state than [s]. *)
Definition parked {A} (me : Member) (s : Shared) (r : request) (k : answer r → Shared → io A) : Prop :=
  calm r = true ∧ ∀ ans s', env_step s s' → quiet M me s' (k ans s').

Lemma parked_later {A} me s s' r (k : answer r → Shared → io A) :
  parked me s r k → env_step s s' → parked me s' r k.
Proof. intros [? Hk] ?. split; [done|]. intros ans s2 ?. apply Hk. by etrans. Qed.

Lemma quiet_parked {A} me s r st (k : answer r → Shared → io A) :
  quiet M me s (Await r st k) → parked me (sh st) r k.
Proof. intros (_ & _ & ? & ?). by split. Qed.

Lemma quiet_unpark {A} me r st (k : answer r → Shared → io A) :
  M me (mem st) → parked me (sh st) r k → quiet M me (sh st) (Await r st k).
Proof. intros ? [? ?]. simpl. done. Qed.

Lemma quiet_race_io {A B} me s (m1 : io A) (m2 : io B) :
  quiet M me s m1 → quiet M me (sh (top_state m1)) m2 → quiet M me s (race_io m1 m2).
Proof.
  revert s m2. induction m1 as [a st|r1 st1 k1 IH1|st]; intros s m2 H1; [by destruct m2| |by destruct m2].
  simpl top_state. intros H2. eapply (quiet_weaken me me s (sh st1)); [done|apply H1|].
  apply quiet_parked in H1. revert H1 H2. generalize (sh st1). clear s.
  induction m2 as [b st|r2 st2 k2 IH2|st]; intros s H1 H2; [done| |done].
  destruct H2 as (HM & Hs2 & Hc2 & Hk2). simpl. split_and!; [done|done|by rewrite (proj1 H1), Hc2|].
  intros [a1|a2] s2 Hs.
  - assert (quiet M me s2 (k1 a1 s2)) as Hq by (apply H1; by etrans).
    apply IH1; [done|]. destruct (quiet_top _ _ _ Hq). apply quiet_unpark; [done|].
    eapply parked_later; [split; [done|exact Hk2]|]. by etrans.
  - apply IH2; [|by apply Hk2]. eapply parked_later; [done|]. by etrans.
Qed.

Lemma quiet_join_io {A B} me s (m1 : io A) (m2 : io B) :
  quiet M me s m1 → quiet M me (sh (top_state m1)) m2 → quiet M me s (join_io m1 m2).
Proof.
  revert s m2. induction m1 as [a st|r1 st1 k1 IH1|st]; intros s m2 H1; [by destruct m2| |by destruct m2].
  simpl top_state. intros H2. eapply (quiet_weaken me me s (sh st1)); [done|apply H1|].
  apply quiet_parked in H1. revert H1 H2. generalize (sh st1). clear s.
  induction m2 as [b st|r2 st2 k2 IH2|st]; intros s H1 H2; [| |done].
  - destruct H2 as [HM Hs2]. cbn [join_io].
    eapply (quiet_weaken me me s (sh st)); [done..|]. apply quiet_bind.
    + apply quiet_unpark; [done|]. by eapply parked_later.
    + intros a st'. simpl. done.
  - destruct H2 as (HM & Hs2 & Hc2 & Hk2). simpl. split_and!; [done|done|by rewrite (proj1 H1), Hc2|].
    intros [a1|a2] s2 Hs.
    + assert (quiet M me s2 (k1 a1 s2)) as Hq by (apply H1; by etrans).
      apply IH1; [done|]. destruct (quiet_top _ _ _ Hq). apply quiet_unpark; [done|].
      eapply parked_later; [split; [done|exact Hk2]|]. by etrans.
    + apply IH2; [|by apply Hk2]. eapply parked_later; [done|]. by etrans.
Qed.

Lemma quiet_select_io {B} me s (r : request) (m : io B) :
  calm r = true → quiet M me s m → quiet M me s (select_io r m).
Proof.
  intros Hr. revert s. induction m as [b st|r2 st k IH|st]; intros s Hm; [done| |done].
  destruct Hm as (? & ? & Hc & Hk). simpl. split_and!; [done|done|by rewrite Hr, Hc|].
  intros [a|b] s2 Hs; [done|]. by apply IH, Hk.
Qed.

(** *** Rules for tasks *)

Lemma quiet_task_ret {A} (a : A) : quiet_task M (mret a).
Proof. intros st. simpl. done. Qed.

Lemma quiet_task_get {A} (f : St → A) : quiet_task M (get f).
Proof. intros st. simpl. done. Qed.

Lemma quiet_task_stuck {A} : quiet_task M (stuck (A := A)).
Proof. intros st. simpl. done. Qed.

Lemma quiet_task_put_shared f : (∀ s, env_step s (f s)) → quiet_task M (put_shared f).
Proof. intros Hf st. simpl. done. Qed.

Lemma quiet_task_put_member f : (∀ m, M m (f m)) → quiet_task M (put_member f).
Proof. intros Hf st. simpl. done. Qed.

Lemma quiet_task_await r : calm r = true → quiet_task M (await r).
Proof. intros Hr st. simpl. done. Qed.

Lemma quiet_task_bind {A B} (m : task A) (f : A → task B) :
  quiet_task M m → (∀ a, quiet_task M (f a)) → quiet_task M (m ≫= f).
Proof. intros Hm Hf st. by apply quiet_bind. Qed.

Lemma quiet_task_fmap {A B} (f : A → B) (m : task A) : quiet_task M m → quiet_task M (f <$> m).
Proof. intros Hm st. apply quiet_bind; [done|]. intros a st'. simpl. done. Qed.

Lemma quiet_task_try {E A B} (m : task (result E A)) (f : A → task (result E B)) :
  quiet_task M m → (∀ a, quiet_task M (f a)) → quiet_task M (try_bind m f).
Proof.
  intros Hm Hf. apply quiet_task_bind; [done|]. intros [a|e]; [apply Hf|apply quiet_task_ret].
Qed.

Lemma quiet_task_race {A B} (m1 : task A) (m2 : task B) :
  quiet_task M m1 → quiet_task M m2 → quiet_task M (race m1 m2).
Proof.
  intros H1 H2 st. apply quiet_race_io; [done|].
  destruct (quiet_top _ _ _ (H1 st)) as [? ?].
  eapply quiet_weaken; [done|reflexivity|apply H2].
Qed.

Lemma quiet_task_join {A B} (m1 : task A) (m2 : task B) :
  quiet_task M m1 → quiet_task M m2 → quiet_task M (join_until m1 m2).
Proof.
  intros H1 H2 st. apply quiet_join_io; [done|].
  destruct (quiet_top _ _ _ (H1 st)) as [? ?].
  eapply quiet_weaken; [done|reflexivity|apply H2].
Qed.

Lemma quiet_task_select {B} (r : request) (m : task B) :
  calm r = true → quiet_task M m → quiet_task M (select r m).
Proof. intros Hr Hm st. by apply quiet_select_io. Qed.

(** A quiet computation keeps every invariant that the environment keeps. *)
Lemma quiet_wp {A} B (I : St → Prop) me s (m : io A) :
  quiet M me s m → (∀ st, M me (mem st) → env_step s (sh st) → I st) →
  wp (law B) I m (λ _ st, M me (mem st) ∧ env_step s (sh st)).
Proof.
  revert s. induction m as [a st|r st k IH|st]; intros s Hm HI; simpl; [done| |done].
  destruct Hm as (? & Hs & Hc & Hk). split; [by apply HI|]. intros ans s2 HL%(law_env B); [|done].
  eapply wp_mono, IH; [|by apply Hk|].
  - intros a st' [? ?]. split; [done|]. by repeat (etrans; [done|]).
  - intros st' ? ?. apply HI; [done|]. by repeat (etrans; [done|]).
Qed.

End quiet.
End logic.

(** Steps without an await. *)
Ltac wp_pure :=
  repeat match goal with
  | |- wp _ _ ((_ ≫= _) _) _ => apply wp_task_bind
  | |- wp _ _ (try_bind _ _ _) _ => apply wp_try
  | |- wp _ _ ((_ <$> _) _) _ => apply wp_task_fmap
  | |- wp _ _ (get _ _) _ => cbn beta iota delta [wp get]
  | |- wp _ _ (mret _ _) _ => cbn beta iota delta [wp mret task_ret]
  | |- wp _ _ (put_shared _ _) _ => cbn beta iota delta [wp put_shared]
  | |- wp _ _ (put_member _ _) _ => cbn beta iota delta [wp put_member]
  end.

(** A case distinction of the computation in the goal. *)
Ltac wp_case :=
  match goal with
  | |- context [if bool_decide ?P then _ else _] => destruct (bool_decide_reflect P)
  end.

(** [put_shared] of a field that the environment may change too. *)
Ltac env_field := intros ?; split; simpl; reflexivity.

(** Proves that a computation is quiet, from the rules above and the facts in
    the database [group] about the functions it calls. *)
Ltac quiet_step :=
  first
    [ solve [eauto 3 with group]
    | apply quiet_task_ret; solve [typeclasses eauto]
    | apply quiet_task_get; solve [typeclasses eauto]
    | apply quiet_task_stuck; solve [typeclasses eauto]
    | apply quiet_task_bind; [solve [typeclasses eauto]| |intros ?]
    | apply quiet_task_fmap; [solve [typeclasses eauto]|]
    | apply quiet_task_try; [solve [typeclasses eauto]| |intros ?]
    | apply quiet_task_race; [solve [typeclasses eauto]| |]
    | apply quiet_task_join; [solve [typeclasses eauto]| |]
    | match goal with
      | |- quiet_task _ (select ?r ?m) => apply (quiet_task_select _ r m); [reflexivity|]
      end
    | match goal with
      | |- quiet_task _ (await ?r) => apply (quiet_task_await _ r); reflexivity
      end
    | apply quiet_task_put_shared; [solve [typeclasses eauto]|env_field]
    | apply quiet_task_put_member; intros ?; hnf; solve [repeat split]
    | case_match ].
Ltac quiet_tac := repeat quiet_step.
