(* ===== verification/GroupQuiet.v ===== *)
(** * What the requests of the coordinator task leave alone

    Every function of [GroupNet] is quiet: it changes nothing of the member,
    and of the shared state only what the environment may change too. *)

From S2P Require Import Prelude Bytes Errors ConsumerErrors Assignor GroupAssign FetchBuffer.
From S2P Require Import OffsetWire Commit Subscription ConsumerProtocol GroupIo GroupNet GroupHeartbeat.
From S2P Require Import GroupCoordinator GroupLogic.

Section quiet.
Context {GA : GroupApi} (cf : Config) (fuel : nat) (M : Member → Member → Prop) `{!PreOrder M}.

Lemma lock_quiet : quiet_task M lock.
Proof. unfold lock. quiet_tac. Qed.
Hint Resolve lock_quiet : group.

Lemma now_quiet : quiet_task M now.
Proof. unfold now. quiet_tac. Qed.
Hint Resolve now_quiet : group.

Lemma coordinator_id_quiet : quiet_task M coordinator_id.
Proof. unfold coordinator_id. quiet_tac. Qed.
Hint Resolve coordinator_id_quiet : group.

Lemma evict_broker_quiet node : quiet_task M (evict_broker node).
Proof. unfold evict_broker. quiet_tac. Qed.
Hint Resolve evict_broker_quiet : group.

Lemma refresh_metadata_quiet : quiet_task M refresh_metadata.
Proof. unfold refresh_metadata. quiet_tac. Qed.
Hint Resolve refresh_metadata_quiet : group.

Lemma retry_rounds_quiet {R} n start backoff (code : R → Z) make on_retry :
  quiet_task M make → (∀ reason, quiet_task M (on_retry reason)) →
  quiet_task M (retry_rounds cf n start backoff code make on_retry).
Proof.
  intros Hm Ho. revert backoff. induction n as [|n IH]; intros backoff; simpl; quiet_tac.
Qed.

Lemma with_coordinator_retry_loop_quiet {R} (code : R → Z) make on_retry :
  quiet_task M make → (∀ reason, quiet_task M (on_retry reason)) →
  quiet_task M (with_coordinator_retry_loop cf fuel code make on_retry).
Proof. intros Hm Ho. unfold with_coordinator_retry_loop. quiet_step; [quiet_tac|by apply retry_rounds_quiet]. Qed.

Lemma find_coordinator_quiet : quiet_task M (find_coordinator cf fuel).
Proof. unfold find_coordinator, with_coordinator_retry. apply quiet_task_try; [done| |intros; quiet_tac].
  apply with_coordinator_retry_loop_quiet; intros; quiet_tac. Qed.
Hint Resolve find_coordinator_quiet : group.

Lemma refind_quiet : quiet_task M (refind cf fuel).
Proof. unfold refind. quiet_tac. Qed.
Hint Resolve refind_quiet : group.

Lemma run_with_refind_quiet {R} (code : R → Z) make :
  quiet_task M make → quiet_task M (run_with_refind cf fuel code make).
Proof. intros Hm. apply with_coordinator_retry_loop_quiet; [done|]. intros reason. quiet_tac. Qed.

Lemma report_rejoin_error_quiet error : quiet_task M (report_rejoin_error error).
Proof. unfold report_rejoin_error, report_fatal_error. quiet_tac. Qed.
Hint Resolve report_rejoin_error_quiet : group.

Lemma heartbeat_result_outcome_quiet r :
  quiet_task M (heartbeat_result_outcome cf fuel r).
Proof. unfold heartbeat_result_outcome. quiet_tac. Qed.
Hint Resolve heartbeat_result_outcome_quiet : group.

Lemma heartbeat_once_quiet : quiet_task M (heartbeat_once cf fuel).
Proof. unfold heartbeat_once. quiet_tac. Qed.
Hint Resolve heartbeat_once_quiet : group.

Lemma heartbeat_rounds_quiet n : quiet_task M (heartbeat_rounds cf fuel n).
Proof. induction n as [|n IH]; simpl; quiet_tac. Qed.
Hint Resolve heartbeat_rounds_quiet : group.

Lemma leave_group_quiet member_id operation reason :
  quiet_task M (leave_group cf member_id operation reason).
Proof. unfold leave_group. quiet_tac. Qed.
Hint Resolve leave_group_quiet : group.

Lemma offset_fetch_rounds_quiet n start backoff request :
  quiet_task M (offset_fetch_rounds cf fuel n start backoff request).
Proof. revert backoff. induction n as [|n IH]; intros backoff; simpl; quiet_tac. Qed.
Hint Resolve offset_fetch_rounds_quiet : group.

Lemma send_offset_fetch_quiet request : quiet_task M (send_offset_fetch cf fuel request).
Proof. unfold send_offset_fetch. quiet_tac. Qed.
Hint Resolve send_offset_fetch_quiet : group.

Lemma commit_rounds_quiet n deadline : quiet_task M (commit_rounds cf fuel n deadline).
Proof. induction n as [|n IH]; simpl; quiet_tac. Qed.
Hint Resolve commit_rounds_quiet : group.

Lemma commit_consumed_before_join_quiet :
  quiet_task M (commit_consumed_before_join cf fuel).
Proof. unfold commit_consumed_before_join. quiet_tac. Qed.
Hint Resolve commit_consumed_before_join_quiet : group.

Lemma heartbeat_fields_quiet kind : quiet_task M (heartbeat_fields cf kind).
Proof. unfold heartbeat_fields. quiet_tac. Qed.
Hint Resolve heartbeat_fields_quiet : group.

Lemma callback_heartbeat_rounds_quiet n : quiet_task M (callback_heartbeat_rounds cf n).
Proof. induction n as [|n IH]; simpl; quiet_tac. Qed.
Hint Resolve callback_heartbeat_rounds_quiet : group.

Lemma heartbeat_during_join_prepare_quiet :
  quiet_task M (heartbeat_during_join_prepare cf fuel).
Proof. unfold heartbeat_during_join_prepare. quiet_tac. Qed.
Hint Resolve heartbeat_during_join_prepare_quiet : group.

Lemma listener_wait_rounds_quiet n deadline polls :
  quiet_task M (listener_wait_rounds cf n deadline polls).
Proof. revert deadline polls. induction n as [|n IH]; intros deadline polls; simpl; quiet_tac. Qed.
Hint Resolve listener_wait_rounds_quiet : group.

Lemma wait_for_listener_call_quiet : quiet_task M (wait_for_listener_call cf fuel).
Proof. unfold wait_for_listener_call. quiet_tac. Qed.
Hint Resolve wait_for_listener_call_quiet : group.

Lemma store_subscription_quiet stored : quiet_task M (store_subscription stored).
Proof. unfold store_subscription. quiet_tac. Qed.
Hint Resolve store_subscription_quiet : group.

Lemma sync_assignment_quiet generation protocol assignments :
  quiet_task M (sync_assignment cf fuel generation protocol assignments).
Proof. unfold sync_assignment. apply quiet_task_try; [done| |intros; quiet_tac].
  apply run_with_refind_quiet. quiet_tac. Qed.
Hint Resolve sync_assignment_quiet : group.

Lemma send_join_group_quiet fields member_id :
  quiet_task M (send_join_group cf fuel fields member_id).
Proof. apply run_with_refind_quiet. quiet_tac. Qed.
Hint Resolve send_join_group_quiet : group.

Lemma request_after_poll_quiet rejoin polls :
  quiet_task M (request_after_poll rejoin polls).
Proof. unfold request_after_poll. quiet_tac. Qed.
Hint Resolve request_after_poll_quiet : group.

Lemma request_after_next_poll_quiet rejoin :
  quiet_task M (request_after_next_poll rejoin).
Proof. unfold request_after_next_poll. quiet_tac. Qed.
Hint Resolve request_after_next_poll_quiet : group.

End quiet.

#[export] Hint Resolve lock_quiet now_quiet coordinator_id_quiet evict_broker_quiet refresh_metadata_quiet
  find_coordinator_quiet refind_quiet report_rejoin_error_quiet heartbeat_result_outcome_quiet heartbeat_once_quiet heartbeat_rounds_quiet leave_group_quiet offset_fetch_rounds_quiet send_offset_fetch_quiet commit_rounds_quiet commit_consumed_before_join_quiet heartbeat_fields_quiet callback_heartbeat_rounds_quiet heartbeat_during_join_prepare_quiet listener_wait_rounds_quiet wait_for_listener_call_quiet store_subscription_quiet sync_assignment_quiet send_join_group_quiet request_after_poll_quiet request_after_next_poll_quiet : group.
