(* ===== verification/GroupInv.v ===== *)
(** * The invariant of the group membership

    What every state that [poll] can see satisfies, and that the functions of
    [GroupCoordinator] keep it: rules for the functions that change the
    membership, from the bottom up. *)

From S2P Require Import Prelude Bytes Errors ConsumerErrors Assignor GroupAssign FetchBuffer.
From S2P Require Import OffsetWire Commit Subscription ConsumerProtocol GroupIo GroupNet GroupHeartbeat.
From S2P Require Import GroupCoordinator GroupLogic GroupQuiet.

(** ** Ownership ids *)

Lemma add_ownership_dom acc l :
  dom (foldl add_ownership acc l).1 = dom acc.1 ∪ list_to_set l.
Proof.
  revert acc. induction l as [|p l IH]; intros acc; simpl; [set_solver|].
  rewrite IH. unfold add_ownership. destruct (acc.1 !! p) as [id|] eqn:E; simpl; [|set_solver].
  apply elem_of_dom_2 in E. set_solver.
Qed.

Lemma update_ownership_dom ownership assignment preserve next_id :
  dom (update_ownership ownership assignment preserve next_id).1 = list_to_set assignment.
Proof.
  unfold update_ownership. rewrite add_ownership_dom. simpl. destruct preserve; [|set_solver].
  assert (dom (filter (λ e : topic_partition * Z, e.1 ∈ assignment) ownership) ⊆ list_to_set assignment).
  { intros p [id Hp]%elem_of_dom. apply map_lookup_filter_Some in Hp as [_ Hp]. simpl in Hp. set_solver. }
  set_solver.
Qed.

(** A partition that is kept keeps its id. *)
Lemma update_ownership_kept ownership assignment next_id p id :
  ownership !! p = Some id → p ∈ assignment →
  (update_ownership ownership assignment true next_id).1 !! p = Some id.
Proof.
  intros Hp Hin. unfold update_ownership. generalize dependent next_id. intros next_id.
  assert (∀ acc l, acc.1 !! p = Some id → (foldl add_ownership acc l).1 !! p = Some id) as Hf.
  { intros acc l. revert acc. induction l as [|q l IH]; intros acc Hacc; simpl; [done|]. apply IH.
    unfold add_ownership. destruct (acc.1 !! q) eqn:E; simpl; [done|].
    rewrite lookup_insert_ne; [done|]. by intros ->; rewrite Hacc in E. }
  apply Hf. simpl. by apply map_lookup_filter_Some.
Qed.

(** ** Primed positions *)

Lemma prime_row_dom reset acc row : dom (prime_row reset acc row).1 = {[ row.1.1 ]} ∪ dom acc.1.
Proof. destruct row as [[key c] e]. simpl. set_solver. Qed.

Lemma prime_positions_dom reset partitions rows acc :
  dom acc.1 ∪ list_to_set partitions ⊆ dom (prime_positions reset partitions rows acc).1.
Proof.
  unfold prime_positions.
  assert (∀ acc : gmap topic_partition Z * gmap topic_partition PartitionPosition,
    dom (foldl (prime_row reset) acc rows).1 = dom acc.1 ∪ list_to_set (rows.*1.*1)) as Hrows.
  { clear. induction rows as [|row rows IH]; intros acc; simpl; [set_solver|].
    rewrite IH, prime_row_dom. set_solver. }
  assert (∀ seen (acc : gmap topic_partition Z * gmap topic_partition PartitionPosition),
    list_to_set seen ⊆ dom acc.1 →
    dom acc.1 ∪ list_to_set partitions ⊆ dom (foldl (prime_missing reset seen) acc partitions).1) as Hm.
  { clear. intros seen. induction partitions as [|tp partitions IH]; intros acc Hseen; simpl; [set_solver|].
    assert (dom acc.1 ∪ {[tp]} ⊆ dom (prime_missing reset seen acc tp).1) as Hd.
    { unfold prime_missing. case_bool_decide as Htp; simpl; [|set_solver].
      assert (tp ∈ (list_to_set seen : gset _)) by set_solver. set_solver. }
    etrans; [|apply IH; set_solver]. set_solver. }
  etrans; [|apply Hm]; rewrite Hrows; set_solver.
Qed.

(** ** The invariant *)

Notation tp_set l := (list_to_set l : gset topic_partition).

(** A classic member without a rebalance listener. *)
Definition unlisted (cf : Config) : Prop := cf_group_protocol cf = Classic ∧ cf_has_listener cf = false.

Record inv {GA : GroupApi} (cf : Config) (st : St) : Prop := {
  inv_primed : tp_set (sh_assigned (sh st)) ⊆ dom (sh_next_offsets (sh st));
  inv_owned : dom (ci_ownership_ids (sh_identity (sh st))) = tp_set (sh_assigned (sh st));
  inv_left : ci_rejoin_on_poll (sh_identity (sh st)) = true →
    sh_assigned (sh st) = [] ∧
    (cf_group_protocol cf = Classic →
     ci_generation (sh_identity (sh st)) = -1 ∧ ci_member_id (sh_identity (sh st)) = "");
  inv_generation : me_generation_id (mem st) = sh_current_generation (sh st);
  inv_known : unlisted cf →
    ci_member_id (sh_identity (sh st)) = "" → sh_assigned (sh st) = [];
}.

(** What only grows, and what only shrinks, until an assignment is published. *)
Record calmer {GA : GroupApi} (s s' : Shared) : Prop := {
  ca_offsets : dom (sh_next_offsets s) ⊆ dom (sh_next_offsets s');
  ca_assigned : tp_set (sh_assigned s') ⊆ tp_set (sh_assigned s);
}.

Definition same_generation {GA : GroupApi} (m m' : Member) : Prop := me_generation_id m = me_generation_id m'.

Section inv.
Context {GA : GroupApi} (cf : Config) (fuel : nat) (B : broker_law).

#[export] Instance same_generation_preorder : PreOrder same_generation.
Proof. split; unfold same_generation; [intros m; done|intros m1 m2 m3; congruence]. Qed.

#[export] Instance calmer_preorder : PreOrder calmer.
Proof.
  split; [intros s; by split|]. intros s1 s2 s3 [] []. split; by etrans.
Qed.

Lemma env_calmer s s' : env_step s s' → calmer s s'.
Proof. intros []. split; [done|]. by rewrite es_assigned. Qed.

Lemma inv_env st st' :
  inv cf st → same_generation (mem st) (mem st') → env_step (sh st) (sh st') → inv cf st'.
Proof.
  unfold same_generation. intros [] Hm [Ha Hi Hg Ho Hn].
  split; rewrite ?Ha, ?Hi, ?Hg; [set_solver|done|done|congruence|done].
Qed.

Lemma inv_unsubscribe st s : inv cf st → unsubscribe_step (sh st) s → inv cf (mkSt (mem st) s).
Proof.
  intros [] [Ha Hi Hg Hm Hr Hc Hn].
  split; simpl; rewrite ?Ha, ?Hi, ?Hm, ?Hg, ?Hr, ?Hc; try set_solver; naive_solver.
Qed.

Notation WP m Q := (wp (law B) (inv cf) m Q).

Lemma wp_quiet {A} (M : Member → Member → Prop) `{!PreOrder M} (m : task A) st Q :
  (∀ a b, M a b → same_generation a b) →
  quiet_task M m → inv cf st →
  (∀ a st', M (mem st) (mem st') → env_step (sh st) (sh st') → inv cf st' → Q a st') →
  WP (m st) Q.
Proof.
  intros HM Hm Hinv HQ.
  assert (∀ st', M (mem st) (mem st') → env_step (sh st) (sh st') → inv cf st') as HI.
  { intros st' ? ?. eapply inv_env; eauto. }
  eapply wp_mono; [|apply (quiet_wp M B (inv cf) _ _ _ (Hm st) HI)]. naive_solver.
Qed.

(** The helper computations keep the member as it is. *)
Lemma wp_net {A} (m : task A) st Q :
  quiet_task eq m → inv cf st →
  (∀ a st', mem st' = mem st → env_step (sh st) (sh st') → inv cf st' → Q a st') →
  WP (m st) Q.
Proof.
  intros Hm Hinv HQ. eapply (wp_quiet eq); [|done|done|].
  - intros a b ->. done.
  - intros a st' HM. apply HQ. done.
Qed.

(** ** Publication of an assignment *)

(** What a published assignment must satisfy. *)
Record publishable (st : St) (assignment : list topic_partition) (generation_id : Z)
    (rejoin_on_poll : bool) : Prop := {
  pb_primed : tp_set assignment ⊆ dom (sh_next_offsets (sh st));
  pb_left : rejoin_on_poll = true → assignment = [] ∧
    (cf_group_protocol cf = Classic → generation_id = -1 ∧ me_member_id (mem st) = "");
  pb_known : unlisted cf → me_member_id (mem st) = "" → assignment = [];
}.

Lemma publishable_env st st' assignment generation_id rejoin :
  publishable st assignment generation_id rejoin → me_member_id (mem st') = me_member_id (mem st) →
  env_step (sh st) (sh st') → publishable st' assignment generation_id rejoin.
Proof. intros [] Hm []. split; rewrite ?Hm; try done. by etrans. Qed.

Lemma publishable_nil st generation_id rejoin :
  (rejoin = true → cf_group_protocol cf = Classic → generation_id = -1 ∧ me_member_id (mem st) = "") →
  publishable st [] generation_id rejoin.
Proof. intros H. split; [set_solver| |done]. intros ?. split; [done|]. by apply H. Qed.

Lemma publish_ownership_inv st assignment preserve generation_id rejoin next_id :
  inv cf st → publishable st assignment generation_id rejoin →
  inv cf (mkSt (mem st) (publish_ownership assignment preserve generation_id rejoin
            (me_member_id (mem st)) next_id (sh st))).
Proof.
  intros [] []. split; simpl; try done. apply update_ownership_dom.
Qed.

Lemma wp_install_assignment st assignment preserve generation_id rejoin Q :
  inv cf st → publishable st assignment generation_id rejoin →
  (∀ st', inv cf st' → sh_assigned (sh st') = assignment →
     dom (sh_next_offsets (sh st)) ⊆ dom (sh_next_offsets (sh st')) →
     me_member_id (mem st') = me_member_id (mem st) → me_generation_id (mem st') = generation_id →
     ci_member_id (sh_identity (sh st')) = me_member_id (mem st) →
     ci_generation (sh_identity (sh st')) = generation_id → Q () st') →
  WP (install_assignment assignment preserve generation_id rejoin st) Q.
Proof.
  intros Hinv Hpub HQ. unfold install_assignment. wp_pure.
  apply wp_net; [quiet_tac|done|]. intros [] st1 Hm1 Hs1 Hi1. wp_pure.
  apply wp_net; [quiet_tac|done|]. intros [] st2 Hm2 Hs2 Hi2. wp_pure.
  set (st3 := mkSt (mem st2) _).
  assert (inv cf st3) as Hi3.
  { apply publish_ownership_inv; [done|]. eapply publishable_env; [done|by rewrite Hm2, Hm1|by etrans]. }
  apply wp_net; [quiet_tac|done|]. intros [] st4 Hm4 [Ha4 Hid4 Hg4 Ho4 Hn4] Hi4.
  apply HQ; simpl; rewrite ?Ha4, ?Hid4, ?Hm4; simpl; rewrite ?Hm2, ?Hm1; try done.
  - destruct Hi4. split; simpl; rewrite ?Ha4, ?Hid4 in *; try done. 
  - etrans; [|exact Ho4]. simpl. destruct Hs1, Hs2. by etrans.
Qed.

(** A change of the member that keeps its generation. *)
Lemma inv_member st f :
  inv cf st → (∀ m, me_generation_id (f m) = me_generation_id m) → inv cf (mkSt (f (mem st)) (sh st)).
Proof. intros Hinv Hf. eapply inv_env; [done| |reflexivity]. hnf. simpl. by rewrite Hf. Qed.

(** A change of a shared field that the environment may change too. *)
Lemma inv_shared st f : inv cf st → env_step (sh st) (f (sh st)) → inv cf (mkSt (mem st) (f (sh st))).
Proof. intros Hinv Hf. eapply inv_env; [done|reflexivity|done]. Qed.

Lemma wp_remember_lost st Q :
  inv cf st →
  (∀ st', inv cf st' → env_step (sh st) (sh st') → me_member_id (mem st') = me_member_id (mem st) →
     Q () st') →
  WP (remember_lost_partitions st) Q.
Proof.
  intros Hinv HQ. unfold remember_lost_partitions. wp_pure.
  apply wp_net; [quiet_tac|done|]. intros [] st1 Hm1 Hs1 Hi1. wp_pure.
  apply HQ; simpl; [by apply inv_member|done|by rewrite Hm1].
Qed.

(** The reset of a member: [forget_member], [fence_member] and
    [leave_on_poll_timeout] differ in what follows. *)
Lemma wp_reset st rejoin Q :
  inv cf st →
  (∀ st', inv cf st' → sh_assigned (sh st') = [] → calmer (sh st) (sh st') →
     me_member_id (mem st') = "" → Q () st') →
  WP ((put_member (set_member_id "");; put_shared (set_rebalance_pending true);;
       remember_lost_partitions;; install_assignment [] false (-1) rejoin) st) Q.
Proof.
  intros Hinv HQ. wp_pure. apply wp_remember_lost.
  { apply (inv_shared (mkSt (set_member_id "" (mem st)) (sh st))); [by apply inv_member|by split]. }
  simpl. intros st1 Hi1 Hs1 Hm1. apply wp_install_assignment; [done|by apply publishable_nil|].
  intros st2 Hi2 Ha2 Hd2 Hm2 _ _ _. apply HQ; [done|done| |by rewrite Hm2].
  split; [etrans; [apply Hs1|exact Hd2]|rewrite Ha2; apply empty_subseteq].
Qed.

Lemma wp_forget_member st Q :
  inv cf st →
  (∀ st', inv cf st' → sh_assigned (sh st') = [] → calmer (sh st) (sh st') →
     me_member_id (mem st') = "" → Q () st') →
  WP (forget_member st) Q.
Proof. apply wp_reset. Qed.

(** ** Listener calls *)

Lemma wp_listener_call n kind partitions st Q :
  inv cf st →
  (∀ r st', inv cf st' → calmer (sh st) (sh st') →
     (cf_has_listener cf = false → mem st' = mem st) → Q r st') →
  WP (listener_call_rounds cf fuel n kind partitions st) Q.
Proof.
  revert st. induction n as [|n IH]; intros st Hinv HQ; [done|].
  cbn [listener_call_rounds]. destruct (cf_has_listener cf) eqn:Hl; cbn [negb].
  2:{ wp_pure. by apply HQ. }
  wp_pure. apply wp_net; [quiet_tac|done|]. intros sent st1 Hm1 Hs1%env_calmer Hi1.
  destruct sent; cbn [negb]; [|wp_pure; by apply HQ].
  wp_pure. apply wp_net; [quiet_tac|done|]. intros [ran heartbeat] st2 Hm2 Hs2%env_calmer Hi2.
  assert (∀ resend st3, inv cf st3 → calmer (sh st) (sh st3) →
    WP ((match mjoin heartbeat with
         | Some Fenced => mret (Err (ConsumerError.FencedInstanceId (default "" (cf_group_instance_id cf))))
         | Some RejoinFromScratch =>
           forget_member;;
           put_member (set_rejoin_reason (heartbeat_rejoin_reason UNKNOWN_MEMBER_ID));; mret (Ok ())
         | _ => if resend : bool then listener_call_rounds cf fuel n kind partitions else mret (Ok ())
         end) st3) Q) as Hafter.
  { intros resend st3 Hi3 Hc3.
    assert (WP ((if resend then listener_call_rounds cf fuel n kind partitions else mret (Ok ())) st3) Q).
    { destruct resend; [|wp_pure; by apply HQ]. apply IH; [done|]. intros r st4 Hi4 Hc4 _.
      apply HQ; [done|by etrans|done]. }
    destruct (mjoin heartbeat) as [[]|]; try done; wp_pure; [|by apply HQ].
    apply wp_forget_member; [done|]. intros st4 Hi4 _ Hc4 _. wp_pure.
    apply HQ; simpl; [by apply inv_member|by etrans|done]. }
  assert (calmer (sh st) (sh st2)) as Hc2 by (by etrans).
  destruct ran as [|deadline|]; unfold poll_timer_reset; wp_pure.
  - apply wp_net; [quiet_tac|done|]. intros t st3 Hm3 Hs3%env_calmer Hi3. wp_pure.
    apply (Hafter false); [by apply inv_member|by etrans].
  - apply (Hafter true); [by apply inv_member|done].
  - apply HQ; simpl; [by apply inv_member|done|done].
Qed.

Lemma wp_call_listener kind partitions st Q :
  inv cf st →
  (∀ r st', inv cf st' → calmer (sh st) (sh st') →
     (cf_has_listener cf = false → mem st' = mem st) → Q r st') →
  WP (call_listener cf fuel kind partitions st) Q.
Proof. apply wp_listener_call. Qed.

(** ** The join *)

Lemma wp_commit_before_join st Q :
  inv cf st → (∀ r st', inv cf st' → calmer (sh st) (sh st') → Q r st') →
  WP (commit_before_join cf fuel st) Q.
Proof.
  intros Hinv HQ. unfold commit_before_join. wp_pure.
  destruct (sh_auto_commit (sh st)); [|wp_pure; by apply HQ].
  wp_pure. apply wp_net; [quiet_tac|done|]. intros ended st1 Hm1 Hs1%env_calmer Hi1.
  destruct ended as [[]|[[]|]]; wp_pure; try (by apply HQ).
  apply wp_forget_member; [done|]. intros st2 Hi2 _ Hc2 _. wp_pure.
  apply HQ; simpl; [by apply inv_member|by etrans].
Qed.

Lemma wp_join_prepare st Q :
  inv cf st → (∀ r st', inv cf st' → calmer (sh st) (sh st') → Q r st') →
  WP (join_prepare cf fuel st) Q.
Proof.
  intros Hinv HQ. unfold join_prepare. wp_pure.
  destruct (me_join_prepared (mem st)); [wp_pure; by apply HQ|].
  wp_pure. apply wp_commit_before_join; [done|]. intros [[]|e] st1 Hi1 Hc1; [|by apply HQ].
  wp_pure. simpl. set (st2 := mkSt _ (sh st1)).
  assert (inv cf st2) as Hi2 by (by apply inv_member).
  destruct (_ || _) eqn:Hunknown.
  { wp_pure. simpl. wp_case; wp_pure.
    - apply HQ; [by apply (inv_member _ _ Hi2)|done].
    - apply wp_call_listener; [by apply (inv_member _ _ Hi2)|]. intros r st3 ? ? _. apply HQ; [done|by etrans]. }
  wp_case; wp_pure.
  - apply wp_net; [quiet_tac|done|]. intros [] st3 Hm3 Hs3%env_calmer Hi3. wp_pure.
    apply wp_call_listener; [done|]. intros r st4 Hi4 Hc4 _. apply HQ; [done|].
    etrans; [exact Hc1|]. by etrans.
  - apply wp_net; [quiet_tac|done|]. intros [] st3 Hm3 Hs3%env_calmer Hi3. wp_pure. simpl.
    assert (calmer (sh st) (sh st3)) as Hc3 by (etrans; [exact Hc1|done]).
    wp_case; [wp_pure; by apply HQ|].
    wp_pure. apply wp_call_listener; [done|]. intros [[]|e] st4 Hi4 Hc4 Hm4; [|apply HQ; [done|by etrans]].
    wp_pure. set (kept := filter _ _).
    assert (tp_set kept ⊆ tp_set (sh_assigned (sh st3))) as Hkept.
    { intros p. rewrite !elem_of_list_to_set. unfold kept. rewrite list_elem_of_filter. tauto. }
    apply wp_install_assignment; [done| |].
    + split; [|done|].
      * etrans; [exact Hkept|]. etrans; [apply Hi3|apply Hc4].
      * intros [_ Hl]. rewrite (Hm4 Hl), Hm3. simpl. intros He. rewrite bool_decide_true in Hunknown by done. done.
    + intros st5 Hi5 Ha5 Hd5 _ _ _ _. wp_pure. apply HQ; [done|].
      etrans; [exact Hc3|]. split; [|by rewrite Ha5]. etrans; [apply Hc4|done].
Qed.

End inv.
