(* ===== verification/GroupRun.v ===== *)
(** * The membership invariant holds in every state of a run

    The join, the rejoin and the loop [run] of a classic member keep [inv]. *)

From S2P Require Import Prelude Bytes Errors ConsumerErrors Assignor GroupAssign FetchBuffer.
From S2P Require Import OffsetWire Commit Subscription ConsumerProtocol GroupIo GroupNet GroupHeartbeat.
From S2P Require Import GroupCoordinator GroupLogic GroupQuiet GroupInv.

Create HintDb keeps.

(** A coordinator that accepts a join names the member. *)
Definition names_member {GA : GroupApi} : broker_law := λ r,
  match r return answer r → Prop with
  | SendJoin _ _ => λ ans,
    match ans with Ok j => jr_error_code j = 0 → jr_member_id j ≠ "" | Err _ => True end
  | _ => λ _, True
  end.

Definition same_ids {GA : GroupApi} (m m' : Member) : Prop :=
  me_generation_id m = me_generation_id m' ∧ me_member_id m = me_member_id m'.

Section run.
Context {GA : GroupApi} (cf : Config) (fuel : nat).

#[local] Instance same_ids_preorder : PreOrder same_ids.
Proof. split; [intros m; done|]. intros m1 m2 m3 [] []. split; congruence. Qed.

Lemma same_ids_generation m m' : same_ids m m' → same_generation m m'.
Proof. by intros []. Qed.

(** ** The member id of a join *)

Lemma yields_true {A} B (m : io A) : yields B m (λ _, True).
Proof. induction m; simpl; auto. Qed.

Lemma retry_rounds_yields {R} B n start backoff (code : R → Z) make on_retry st
    (P : result consumer_error R → Prop) :
  (∀ st, yields B (make st) P) → P (Err ConsumerError.CoordinatorUnavailable) →
  yields B (retry_rounds cf n start backoff code make on_retry st) P.
Proof.
  intros Hm Hu. revert st backoff. induction n as [|n IH]; intros st backoff; [done|].
  cbn [retry_rounds]. eapply yields_bind; [apply Hm|]. intros r st1 Hr.
  eapply yields_bind; [apply yields_true|]. intros t st2 _.
  assert (∀ reason st, yields B ((on_retry reason;; await (Sleep backoff);;
    retry_rounds cf n start (next_backoff backoff (rt_max_backoff (cf_retry_policy cf))) code make on_retry) st)
    P) as Hagain.
  { intros reason st3. eapply yields_bind; [apply yields_true|]. intros [] st4 _.
    eapply yields_bind; [apply yields_true|]. intros ? st5 _. apply IH. }
  destruct r as [a|e].
  - repeat case_match; try apply Hagain; exact Hr.
  - destruct e; try exact Hr. repeat case_match; try apply Hagain; done.
Qed.

(** What every answer of a [JoinGroup] gives. *)
Lemma send_join_group_yields_of B fields member_id st (P : result consumer_error JoinGroupResponse → Prop) :
  (∀ node r (ans : answer (SendJoin node r)), B (SendJoin node r) ans → P (map_err ConsumerError.Client ans)) →
  P (Err ConsumerError.CoordinatorUnavailable) →
  yields B (send_join_group cf fuel fields member_id st) P.
Proof.
  intros Hans Hu. unfold send_join_group, run_with_refind, with_coordinator_retry_loop.
  eapply yields_bind; [apply yields_true|]. intros start st1 _. apply retry_rounds_yields; [|done].
  intros st2. eapply yields_bind; [apply yields_true|]. intros node st3 _.
  simpl. intros ans s. apply Hans.
Qed.

Lemma send_join_group_yields fields member_id st :
  yields names_member (send_join_group cf fuel fields member_id st)
    (λ r, ∀ j, r = Ok j → jr_error_code j = 0 → jr_member_id j ≠ "").
Proof.
  apply send_join_group_yields_of; [|done]. intros node r [j|e] Hans j' Hj; simplify_eq/=. exact Hans.
Qed.

Lemma perform_join_yields owned st :
  yields names_member (perform_join cf fuel owned st) (λ r, ∀ j, r = Ok j → jr_member_id j ≠ "").
Proof.
  unfold perform_join. simpl. unfold mbind, task_bind. simpl.
  case_match; [|by intros j].
  simpl. eapply yields_bind; [apply send_join_group_yields|]. intros [r1|e] st1 H1; [|by intros j].
  destruct (Z.eqb_spec (jr_error_code r1) 0); [intros j [= <-]; by apply H1|].
  destruct (_ =? 79); [|by intros j]. case_bool_decide; [by intros j|]. simpl.
  eapply yields_bind; [apply send_join_group_yields|]. intros [r2|e] st2 H2; [|by intros j].
  destruct (Z.eqb_spec (jr_error_code r2) 0); simpl; [|by intros j]. intros j [= <-]. by apply H2.
Qed.

Lemma perform_join_quiet owned : quiet_task same_generation (perform_join cf fuel owned).
Proof. unfold perform_join. quiet_tac. Qed.

Lemma compute_leader_assignment_quiet response is_leader :
  quiet_task same_ids (compute_leader_assignment cf response is_leader).
Proof. unfold compute_leader_assignment. quiet_tac. Qed.

Notation WP m Q := (wp (law names_member) (inv cf) m Q).

Lemma wp_ids {A} (m : task A) st Q :
  quiet_task same_ids m → inv cf st →
  (∀ a st', me_member_id (mem st') = me_member_id (mem st) → env_step (sh st) (sh st') → inv cf st' →
     Q a st') →
  WP (m st) Q.
Proof.
  intros Hm Hinv HQ. eapply (wp_quiet _ _ same_ids); [apply same_ids_generation|done|done|].
  intros a st' [_ ?]. by apply HQ.
Qed.

(** After a join: the partitions that the member owned have positions, and the
    member has an id. *)
Lemma wp_join_and_sync st Q :
  inv cf st →
  (∀ r st', inv cf st' → calmer (sh st) (sh st') →
     (∀ jo, r = Ok jo → sh_assigned (sh st') = jo_owned jo ∧ me_member_id (mem st') ≠ "") → Q r st') →
  WP (join_and_sync cf fuel st) Q.
Proof.
  intros Hinv HQ. unfold join_and_sync. wp_pure.
  apply wp_join_prepare; [done|]. intros [[]|e] st1 Hi1 Hc1; [|by apply HQ].
  wp_pure. apply wp_net; [quiet_tac|by apply inv_member|]. simpl.
  intros [] st2 Hm2 Hs2 Hi2. wp_pure.
  eapply (wp_yields _ _ _ _ _ (perform_join_yields _ st2)).
  eapply (wp_quiet _ _ same_generation); [done|apply perform_join_quiet|done|].
  intros r st3 _ Hs3 Hi3 Hr.
  assert (calmer (sh st) (sh st3)) as Hc3.
  { etrans; [exact Hc1|]. etrans; by apply env_calmer. }
  assert (sh_assigned (sh st3) = sh_assigned (sh st2)) as Ha3 by apply Hs3.
  destruct r as [j|e]; [|by apply HQ].
  specialize (Hr j eq_refl). rewrite bool_decide_false by done. wp_pure. simpl.
  eapply wp_ids; [apply compute_leader_assignment_quiet|by apply inv_member|].
  simpl. intros [leader|e] st4 Hm4 Hs4 Hi4.
  2:{ apply HQ; [done| |done]. etrans; [done|by apply env_calmer]. }
  wp_pure. apply wp_net; [quiet_tac|done|]. intros [mine|e] st5 Hm5 Hs5 Hi5.
  2:{ apply HQ; [done| |done]. etrans; [done|]. etrans; by apply env_calmer. }
  assert (calmer (sh st) (sh st5)) as Hc5 by (etrans; [done|]; etrans; by apply env_calmer).
  assert (sh_assigned (sh st5) = sh_assigned (sh st2)) as Ha5.
  { rewrite <- Ha3. etrans; [apply Hs5|apply Hs4]. }
  wp_pure. simpl. set (st6 := mkSt _ (sh st5)).
  assert (inv cf st6) as Hi6 by (eapply inv_env; [exact Hi5|done|reflexivity]).
  assert (me_member_id (mem st6) ≠ "") as Hid.
  { simpl. by rewrite Hm5, Hm4. }
  destruct (sh_auto_commit (sh st5)); wp_pure.
  - apply wp_net; [quiet_tac|done|]. intros [] st7 Hm7 Hs7 Hi7. wp_pure.
    apply wp_net; [quiet_tac|done|]. intros t st8 Hm8 Hs8 Hi8. wp_pure. apply HQ; simpl.
    + by apply inv_shared.
    + etrans; [exact Hc5|]. etrans; [by apply env_calmer|]. etrans; [by apply env_calmer|]. by split.
    + intros jo [= <-]. simpl. rewrite Hm8, Hm7. split; [|done].
      rewrite <- Ha5. etrans; [apply Hs8|apply Hs7].
  - apply HQ; [done|done|]. intros jo [= <-]. done.
Qed.

(** ** Positions of added partitions *)

Lemma wp_prime_offsets partitions st Q :
  inv cf st →
  (∀ r st', mem st' = mem st → env_step (sh st) (sh st') → inv cf st' →
     (r = Ok () → tp_set partitions ⊆ dom (sh_next_offsets (sh st'))) → Q r st') →
  WP (prime_offsets cf fuel partitions st) Q.
Proof.
  intros Hinv HQ. unfold prime_offsets. wp_case; subst; wp_pure.
  { by apply HQ. }
  apply wp_net; [quiet_tac|done|]. intros [resp|e] st1 Hm1 Hs1 Hi1; [|by apply HQ].
  wp_pure. apply wp_net; [quiet_tac|done|]. intros [] st2 Hm2 Hs2 Hi2.
  wp_pure. apply wp_net; [quiet_tac|done|]. intros [] st3 Hm3 Hs3 Hi3. wp_pure.
  assert (env_step (sh st3) (prime_shared cf partitions resp (sh st3)) ∧
    tp_set partitions ⊆ dom (sh_next_offsets (prime_shared cf partitions resp (sh st3)))) as [He Hp].
  { pose proof (prime_positions_dom (cf_auto_offset_reset cf) partitions (parse_offset_fetch resp)
      (sh_next_offsets (sh st3), sh_positions (sh st3))) as Hdom. simpl in Hdom.
    split; [split; try done|]; (etrans; [|exact Hdom]); [apply union_subseteq_l|apply union_subseteq_r]. }
  apply HQ; simpl.
  - by rewrite Hm3, Hm2, Hm1.
  - etrans; [done|]. etrans; [done|]. by etrans.
  - by apply inv_shared.
  - done.
Qed.

Lemma wp_gated {A} partitions (body : task (result consumer_error A)) st Q :
  (∀ st1, mem st1 = mem st → env_step (sh st) (sh st1) →
     WP (body st1) (λ r st', ∀ f, (∀ s, env_step s (f s)) → Q r (mkSt (mem st') (f (sh st'))))) →
  WP (gated cf partitions body st) Q.
Proof.
  intros Hbody. unfold gated. destruct (cf_has_listener cf); cbn [negb].
  - wp_pure. eapply wp_mono; [|apply Hbody; [done|by split]].
    intros r st' HQ. wp_pure. apply (HQ (λ s, set_callback_pending _ s)). intros s. by split.
  - eapply wp_mono; [|apply Hbody; [done|reflexivity]].
    intros r [me s] HQ. by apply (HQ id).
Qed.

(** ** Publication after a join *)

(** The member publishes [assignment] and calls the listener for [added]. *)
Lemma wp_publish_and_call assignment preserve generation_id added gate st Q :
  inv cf st → tp_set assignment ⊆ dom (sh_next_offsets (sh st)) →
  (unlisted cf → me_member_id (mem st) ≠ "") →
  (∀ r st', inv cf st' → tp_set (sh_assigned (sh st')) ⊆ tp_set assignment →
     dom (sh_next_offsets (sh st)) ⊆ dom (sh_next_offsets (sh st')) → Q r st') →
  WP (gated cf gate (publish_assignment assignment preserve generation_id;;
                     call_listener cf fuel Assigned added) st) Q.
Proof.
  intros Hinv Hp Hid HQ. apply wp_gated. intros st1 Hm1 Hs1. wp_pure.
  assert (inv cf st1) as Hi1. { eapply inv_env; [done|by rewrite Hm1|done]. }
  apply wp_install_assignment; [done| |].
  { split; [etrans; [done|apply Hs1]|done|]. rewrite Hm1. intros Hl He. by destruct (Hid Hl). }
  intros st2 Hi2 Ha2 Hd2 _ _ _ _. apply wp_call_listener; [done|].
  intros r st3 Hi3 [Ho3 Ha3] _ f Hf. apply HQ; simpl.
  - by apply inv_shared.
  - rewrite (es_assigned _ _ (Hf (sh st3))). by rewrite Ha2 in Ha3.
  - etrans; [|apply (Hf (sh st3))]. etrans; [apply Hs1|]. by etrans.
Qed.

Lemma wp_publish_additions assignment added generation_id st Q :
  inv cf st → tp_set assignment ⊆ dom (sh_next_offsets (sh st)) ∪ tp_set added →
  (unlisted cf → me_member_id (mem st) ≠ "") →
  (∀ r st', inv cf st' → (r = Ok () → tp_set (sh_assigned (sh st')) ⊆ tp_set assignment) → Q r st') →
  WP (publish_cooperative_additions cf fuel assignment added generation_id st) Q.
Proof.
  intros Hinv Hp Hid HQ. unfold publish_cooperative_additions. wp_pure.
  apply wp_prime_offsets; [done|]. intros [[]|e] st1 Hm1 Hs1 Hi1 Hadd; [|by apply HQ].
  specialize (Hadd eq_refl). apply wp_publish_and_call; [done| |by rewrite Hm1|].
  - destruct Hs1. set_solver.
  - intros r st2 Hi2 Ha2 _. apply HQ; [done|]. done.
Qed.

(** ** The rejoin *)

Lemma visit_set_set X : tp_set (visit_set X) = X.
Proof.
  apply set_eq. intros p. rewrite elem_of_list_to_set, (visit_set_perm X). apply elem_of_elements.
Qed.

Lemma wp_install_generation generation_id st Q :
  inv cf st → sh_assigned (sh st) ≠ [] → (unlisted cf → me_member_id (mem st) ≠ "") →
  (∀ st', inv cf st' → calmer (sh st) (sh st') → me_member_id (mem st') = me_member_id (mem st) →
     Q () st') →
  WP (install_generation generation_id st) Q.
Proof.
  intros Hinv Hne Hid HQ. unfold install_generation, set_generation. wp_pure.
  apply wp_net; [quiet_tac|done|]. intros [] st1 Hm1 Hs1 Hi1. wp_pure.
  assert (sh_assigned (sh st1) ≠ []) as Hne1 by (by rewrite (es_assigned _ _ Hs1)).
  apply HQ; simpl; [|by apply env_calmer in Hs1 as []; split|by rewrite Hm1].
  split; simpl; try apply Hi1; try done.
  - intros Hr. by destruct (inv_left _ _ Hi1 Hr).
  - rewrite Hm1. intros Hl He. by destruct (Hid Hl).
Qed.

Lemma wp_retain_offsets keep st Q :
  inv cf st → (∀ p, p ∈ sh_assigned (sh st) → keep p = true) →
  (∀ st', inv cf st' → sh_assigned (sh st') = sh_assigned (sh st) → mem st' = mem st → Q () st') →
  WP (retain_offsets keep st) Q.
Proof.
  intros Hinv Hkeep HQ. unfold retain_offsets. wp_pure.
  apply wp_net; [quiet_tac|done|]. intros [] st1 Hm1 Hs1 Hi1. wp_pure.
  apply wp_net; [quiet_tac|done|]. intros [] st2 Hm2 Hs2 Hi2. wp_pure.
  assert (sh_assigned (sh st2) = sh_assigned (sh st)) as Ha by (etrans; [apply Hs2|apply Hs1]).
  apply HQ; simpl; [|done|by rewrite Hm2].
  split; simpl; try apply Hi2. intros p Hp.
  pose proof (inv_primed _ _ Hi2 _ Hp) as [o Ho]%elem_of_dom. apply elem_of_dom. exists o.
  apply map_lookup_filter_Some. split; [done|]. apply Hkeep. rewrite <- Ha. by apply elem_of_list_to_set in Hp.
Qed.

Lemma minus_set a b : tp_set (minus a b) = tp_set a ∖ tp_set b.
Proof.
  apply set_eq. intros p. rewrite elem_of_difference, !elem_of_list_to_set. unfold minus.
  rewrite list_elem_of_filter. tauto.
Qed.

Lemma wp_rejoin_after_revoke st Q :
  inv cf st → (∀ r st', inv cf st' → Q r st') → WP (rejoin_after_revoke cf fuel st) Q.
Proof.
  intros Hinv HQ. unfold rejoin_after_revoke. wp_pure.
  apply wp_join_and_sync; [by apply inv_member|]. intros [jo|e] st1 Hi1 _ Hjo; [|by apply HQ].
  destruct (Hjo jo eq_refl) as [Ha1 Hid1]. clear Hjo. wp_pure.
  assert (∀ st2, inv cf st2 → calmer (sh st1) (sh st2) →
    (unlisted cf → me_member_id (mem st2) = me_member_id (mem st1)) →
    WP ((_ ←? prime_offsets cf fuel (minus (jo_assignment jo) (jo_owned jo));
         _ ←? gated cf (minus (jo_assignment jo) (jo_owned jo))
                (publish_assignment (jo_assignment jo) true (jo_generation jo);;
                 call_listener cf fuel Assigned (minus (jo_assignment jo) (jo_owned jo)));
         mret (Ok (jo_topic_partitions jo))) st2) Q) as Hrest.
  { intros st2 Hi2 Hc2 Hid2. wp_pure. apply wp_prime_offsets; [done|].
    intros [[]|e] st3 Hm3 Hs3 Hi3 Hadd; [|by apply HQ]. specialize (Hadd eq_refl). wp_pure.
    apply wp_publish_and_call; [done| |rewrite Hm3; intros Hl; by rewrite Hid2|].
    - rewrite minus_set in Hadd. pose proof (inv_primed _ _ Hi1) as Hp. rewrite Ha1 in Hp.
      destruct Hc2, Hs3. intros p Hp'. destruct (decide (p ∈ tp_set (jo_owned jo))); set_solver.
    - intros [[]|e] st4 Hi4 _ _; wp_pure; by apply HQ. }
  wp_case.
  { cbn beta iota delta [wp mret task_ret]. by apply Hrest. }
  wp_pure. apply wp_install_generation; [done| |done|].
  { rewrite Ha1. intros Hnil. by rewrite Hnil in n. }
  intros st2 Hi2 Hc2 Hm2. apply wp_call_listener; [done|].
  intros [[]|e] st3 Hi3 Hc3 Hm3; [|by apply HQ]. apply Hrest; [done|by etrans|].
  intros [_ Hl]. by rewrite Hm3.
Qed.

Lemma wp_rejoin_group st Q :
  inv cf st → (∀ r st', inv cf st' → Q r st') → WP (rejoin_group cf fuel st) Q.
Proof.
  intros Hinv HQ. unfold rejoin_group. wp_pure.
  apply wp_join_and_sync; [done|]. intros [jo|e] st1 Hi1 _ Hjo; [|by apply HQ].
  destruct (Hjo jo eq_refl) as [Ha1 Hid1]. clear Hjo. cbv zeta.
  set (old := tp_set (jo_owned jo)). set (new := tp_set (jo_assignment jo)).
  assert (old ⊆ dom (sh_next_offsets (sh st1))) as Hold.
  { unfold old. rewrite <- Ha1. apply Hi1. }
  destruct (cf_rebalance_protocol cf).
  - wp_pure. apply wp_prime_offsets; [done|]. intros [[]|e] st2 Hm2 Hs2 Hi2 Hadd; [|by apply HQ].
    specialize (Hadd eq_refl). rewrite visit_set_set in Hadd. wp_pure.
    apply wp_gated. intros st3 Hm3 Hs3. wp_pure.
    assert (inv cf st3) as Hi3 by (eapply inv_env; [done|by rewrite Hm3|done]).
    apply wp_install_assignment; [done| |].
    { split; [|done|].
      - destruct Hs2, Hs3. fold new. intros p Hp. destruct (decide (p ∈ old)); set_solver.
      - rewrite Hm3, Hm2. done. }
    intros st4 Hi4 Ha4 _ _ _ _ _. wp_pure.
    apply wp_retain_offsets; [done| |].
    { intros p Hp. rewrite Ha4 in Hp. apply bool_decide_eq_true. by apply elem_of_list_to_set. }
    intros st5 Hi5 _ _. apply wp_call_listener; [done|]. intros [[]|e] st6 Hi6 _ _ f Hf.
    + wp_pure. apply HQ. by apply inv_shared.
    + apply HQ. by apply inv_shared.
  - assert (∀ st2 Q', inv cf st2 → calmer (sh st1) (sh st2) →
      (unlisted cf → me_member_id (mem st2) = me_member_id (mem st1)) →
      (∀ r st', inv cf st' → (r = Ok () → tp_set (sh_assigned (sh st')) ⊆ new) → Q' r st') →
      WP (publish_cooperative_additions cf fuel (jo_assignment jo) (visit_set (new ∖ old))
            (jo_generation jo) st2) Q') as Hpub.
    { intros st2 Q' Hi2 Hc2 Hm2 HQ'. apply wp_publish_additions; [done| |intros Hl; by rewrite Hm2|done].
      rewrite visit_set_set. fold new. destruct Hc2. intros p Hp. destruct (decide (p ∈ old)); set_solver. }
    wp_case; wp_pure.
    + apply Hpub; [done|done|done|]. intros [[]|err] st2 Hi2 _; wp_pure; by apply HQ.
    + apply wp_install_generation; [done| |done|].
      { rewrite Ha1. intros Hnil. apply n. unfold old. rewrite Hnil. simpl.
        rewrite empty_difference_L by apply empty_subseteq. apply Permutation_nil_r. by rewrite visit_set_perm. }
      intros st2 Hi2 Hc2 Hm2. wp_pure. apply wp_call_listener; [done|].
      intros [[]|e] st3 Hi3 Hc3 Hm3; [|by apply HQ]. wp_pure.
      apply Hpub; [done|by etrans|intros [_ Hl]; by rewrite Hm3|].
      intros [[]|e] st4 Hi4 Ha4; [|by apply HQ]. wp_pure.
      apply wp_retain_offsets; [done| |].
      { intros p Hp. apply bool_decide_eq_true. rewrite <- (elem_of_list_to_set (C := gset _)), visit_set_set.
        assert (p ∈ new) by (apply (Ha4 eq_refl); by apply elem_of_list_to_set). set_solver. }
      intros st5 Hi5 _ _. by apply wp_rejoin_after_revoke.
Qed.

(** ** The loop *)

Definition keeps {A} (m : task A) : Prop :=
  ∀ st Q, inv cf st → (∀ r st', inv cf st' → Q r st') → WP (m st) Q.

Lemma keeps_quiet {A} (m : task A) : quiet_task same_generation m → keeps m.
Proof. intros Hm st Q Hinv HQ. eapply (wp_quiet _ _ same_generation); [done|done|done|]. intros. by apply HQ. Qed.

Lemma keeps_bind {A C} (m : task A) (f : A → task C) : keeps m → (∀ a, keeps (f a)) → keeps (m ≫= f).
Proof. intros Hm Hf st Q Hinv HQ. wp_pure. apply Hm; [done|]. intros a st' Hi. by apply Hf. Qed.

Lemma keeps_fmap {A C} (f : A → C) (m : task A) : keeps m → keeps (f <$> m).
Proof. intros Hm st Q Hinv HQ. wp_pure. apply Hm; [done|]. intros a st' Hi. by apply HQ. Qed.

Lemma keeps_select {A} r (m : task A) : calm r = true → keeps m → keeps (select r m).
Proof.
  intros Hr Hm st Q Hinv HQ. unfold select. apply wp_select; [done| |].
  - intros a st' s Hi HL%law_env; [|done]. apply HQ. eapply inv_env; [done|done|done].
  - apply Hm; [done|]. intros a st' Hi. by apply HQ.
Qed.

Lemma keeps_install_nothing generation_id : keeps (install_assignment [] false generation_id false).
Proof.
  intros st Q Hinv HQ. apply wp_install_assignment; [done|by apply publishable_nil|].
  intros st' Hi _ _ _ _ _ _. by apply HQ.
Qed.

Lemma keeps_forget : keeps forget_member.
Proof. intros st Q Hinv HQ. apply wp_forget_member; [done|]. intros st' Hi _ _ _. by apply HQ. Qed.

Lemma keeps_reset {A} (m : task A) :
  keeps m →
  keeps (put_member (set_member_id "");; put_shared (set_rebalance_pending true);;
         remember_lost_partitions;; install_assignment [] false (-1) true;; m).
Proof.
  intros Hm st Q Hinv HQ. wp_pure. apply wp_remember_lost.
  { apply (inv_shared cf (mkSt (set_member_id "" (mem st)) (sh st))); [by apply inv_member|by split]. }
  intros st1 Hi1 _ Hm1. wp_pure.
  apply wp_install_assignment; [done|by apply publishable_nil|].
  intros st2 Hi2 _ _ _ _ _ _. by apply Hm.
Qed.

Lemma keeps_rejoin_group : keeps (rejoin_group cf fuel).
Proof. intros st Q. apply wp_rejoin_group. Qed.

Lemma keeps_next_event polls_open poll_timeout : keeps (await (NextEvent polls_open poll_timeout)).
Proof.
  intros st Q Hinv HQ. split; [done|]. intros ans s [_ [He|Hu]]; apply HQ.
  - by eapply inv_env.
  - by apply inv_unsubscribe.
Qed.

End run.

Ltac keeps_step :=
  match goal with
  | |- keeps _ (_ ≫= _) => apply keeps_bind; [|intros ?]
  | |- keeps _ (_ <$> _) => apply keeps_fmap
  | |- keeps ?cf (select ?r ?m) => apply (keeps_select cf r m); [reflexivity|]
  | |- keeps _ (match _ with _ => _ end) => case_match
  | |- _ => first [solve [eauto 3 with keeps] | solve [apply keeps_quiet; quiet_tac]]
  end.
Ltac keeps_tac := repeat keeps_step.

#[export] Hint Resolve keeps_install_nothing keeps_forget keeps_rejoin_group keeps_next_event : keeps.

Section loop.
Context {GA : GroupApi} (cf : Config) (fuel : nat).


Lemma poll_wait_rounds_quiet n : quiet_task same_generation (poll_wait_rounds n).
Proof. induction n as [|n IH]; simpl; quiet_tac. Qed.
Hint Resolve poll_wait_rounds_quiet : group.

Lemma keeps_prepare_fenced reason : keeps cf (prepare_fenced_rejoin cf fuel reason).
Proof.
  apply keeps_quiet. unfold prepare_fenced_rejoin, wait_for_poll_after_error, poll_timer_reset. quiet_tac.
Qed.
Hint Resolve keeps_prepare_fenced : keeps.

Lemma keeps_fence_member id : keeps cf (fence_member id).
Proof. apply keeps_reset, keeps_quiet. quiet_tac. Qed.
Hint Resolve keeps_fence_member : keeps.

Lemma keeps_leave_on_poll_timeout : keeps cf (leave_on_poll_timeout cf).
Proof.
  unfold leave_on_poll_timeout. apply keeps_bind; [keeps_tac|]. intros id. apply keeps_reset. keeps_tac.
Qed.
Hint Resolve keeps_leave_on_poll_timeout : keeps.

Lemma refresh_pattern_topics_quiet : quiet_task same_generation refresh_pattern_topics.
Proof. unfold refresh_pattern_topics. quiet_tac. Qed.
Hint Resolve refresh_pattern_topics_quiet : group.

Lemma subscribed_partition_counts_quiet : quiet_task same_generation subscribed_partition_counts.
Proof. unfold subscribed_partition_counts. quiet_tac. Qed.
Hint Resolve subscribed_partition_counts_quiet : group.

Lemma keeps_subscription_change rejoin counts : keeps cf (handle_subscription_change cf rejoin counts).
Proof. unfold handle_subscription_change. keeps_tac. Qed.
Hint Resolve keeps_subscription_change : keeps.

Lemma keeps_check_metadata lo : keeps cf (check_metadata cf lo).
Proof. unfold check_metadata. keeps_tac. Qed.
Hint Resolve keeps_check_metadata : keeps.

Lemma keeps_rejoin_due lo : keeps cf (rejoin_due cf fuel lo).
Proof. unfold rejoin_due, poll_timer_reset. keeps_tac. Qed.
Hint Resolve keeps_rejoin_due : keeps.

Lemma keeps_heartbeat_tick lo : keeps cf (heartbeat_tick cf fuel lo).
Proof. unfold heartbeat_tick. keeps_tac. Qed.
Hint Resolve keeps_heartbeat_tick : keeps.

Lemma keeps_handle_event lo tick poll : keeps cf (handle_event cf fuel lo tick poll).
Proof. unfold handle_event, poll_timer_reset. keeps_tac. Qed.
Hint Resolve keeps_handle_event : keeps.

Lemma keeps_run_step lo : keeps cf (run_step cf fuel lo).
Proof. unfold run_step. keeps_tac. Qed.
Hint Resolve keeps_run_step : keeps.

Lemma keeps_run_rounds n lo : keeps cf (run_rounds cf fuel n lo).
Proof. revert lo. induction n as [|n IH]; intros lo; simpl; keeps_tac. Qed.
Hint Resolve keeps_run_rounds : keeps.

Lemma keeps_run counts : keeps cf (run cf fuel counts).
Proof. unfold run. keeps_tac. Qed.

End loop.

#[export] Hint Resolve refresh_pattern_topics_quiet poll_wait_rounds_quiet : group.
