(* ===== verification/ConsumerGroupRun.v ===== *)
(** * The membership invariant of the consumer group protocol

    The functions of [ConsumerGroup] keep [inv]: a partition is visible in the
    assignment only with a fetch position, in every state of a run. *)

From S2P Require Import Prelude Bytes Errors ConsumerErrors Assignor GroupAssign FetchBuffer.
From S2P Require Import OffsetWire Commit Subscription ConsumerProtocol GroupIo GroupNet GroupHeartbeat.
From S2P Require Import GroupCoordinator ConsumerGroup GroupLogic GroupQuiet GroupInv GroupRun.

Section group.
Context {GA : GroupApi} (cf : Config) (fuel : nat).
Hypothesis protocol : cf_group_protocol cf = ConsumerGroup.

Notation WP m Q := (wp (law names_member) (inv cf) m Q).

Lemma not_unlisted : ¬ unlisted cf.
Proof. intros [H _]. by rewrite protocol in H. Qed.

Lemma prepare_heartbeat_quiet kind : quiet_task same_generation (prepare_heartbeat cf kind).
Proof. unfold prepare_heartbeat. quiet_tac. Qed.
Hint Resolve prepare_heartbeat_quiet : group.

Lemma known_names_quiet : quiet_task same_generation known_names.
Proof. unfold known_names. quiet_tac. Qed.
Hint Resolve known_names_quiet : group.

Lemma refresh_topic_ids_quiet unresolved : quiet_task same_generation (refresh_topic_ids unresolved).
Proof. unfold refresh_topic_ids. quiet_tac. Qed.
Hint Resolve refresh_topic_ids_quiet : group.

Lemma join_again_quiet : quiet_task same_generation join_again.
Proof. unfold join_again. quiet_tac. Qed.
Hint Resolve join_again_quiet : group.

Lemma send_leave_quiet : quiet_task same_generation (send_leave cf).
Proof. unfold send_leave. quiet_tac. Qed.
Hint Resolve send_leave_quiet : group.

Lemma set_leave_epoch_quiet : quiet_task same_generation (set_leave_epoch cf).
Proof. unfold set_leave_epoch. quiet_tac. Qed.
Hint Resolve set_leave_epoch_quiet : group.

Lemma keeps_call_listener kind partitions : keeps cf (call_listener cf fuel kind partitions).
Proof. intros st Q Hinv HQ. apply wp_call_listener; [done|]. intros r st' Hi _ _. by apply HQ. Qed.
Hint Resolve keeps_call_listener : keeps.

Lemma keeps_call_lost_listener : keeps cf (call_lost_listener cf fuel).
Proof. unfold call_lost_listener. keeps_tac. Qed.
Hint Resolve keeps_call_lost_listener : keeps.

(** [forget_member_keeping_id] and [release_partitions_after_poll_timeout]. *)
Lemma keeps_release rejoin :
  keeps cf (put_shared (set_rebalance_pending true);; remember_lost_partitions;;
            install_assignment [] false JOIN_GROUP_EPOCH rejoin).
Proof.
  intros st Q Hinv HQ. wp_pure. apply wp_remember_lost; [by apply inv_shared|].
  intros st1 Hi1 _ _. apply wp_install_assignment; [done| |].
  - apply publishable_nil. intros _ H. by rewrite protocol in H.
  - intros st2 Hi2 _ _ _ _ _ _. by apply HQ.
Qed.

Lemma keeps_forget_keeping_id : keeps cf forget_member_keeping_id.
Proof. apply keeps_release. Qed.
Hint Resolve keeps_forget_keeping_id : keeps.

Lemma keeps_release_partitions : keeps cf release_partitions_after_poll_timeout.
Proof. apply keeps_release. Qed.
Hint Resolve keeps_release_partitions : keeps.

Lemma keeps_publish_member_epoch : keeps cf publish_member_epoch.
Proof.
  intros st Q Hinv HQ. unfold publish_member_epoch, set_generation. wp_pure.
  apply wp_net; [quiet_tac|done|]. intros [] st1 Hm1 Hs1 Hi1. wp_pure. apply HQ.
  destruct Hi1, (bool_decide (_ = me_member_id (mem st1))); split; simpl; try done;
    try (by intros ?%not_unlisted); intros Hr; destruct (inv_left Hr) as [Ha _];
    (split; [done|]); intros H; by rewrite protocol in H.
Qed.
Hint Resolve keeps_publish_member_epoch : keeps.

Lemma keeps_reconcile target : keeps cf (reconcile cf fuel target).
Proof.
  intros st Q Hinv HQ. unfold reconcile. wp_pure.
  apply wp_net; [quiet_tac|done|]. intros [] st1 Hm1 Hs1 Hi1. wp_pure. cbv zeta.
  set (owned := sh_assigned (sh st1)).
  destruct (_ && _); [wp_pure; apply HQ; by apply inv_shared|]. wp_pure.
  set (st2 := mkSt (mem st1) (set_rebalance_pending true (sh st1))).
  assert (inv cf st2) as Hi2 by (by apply inv_shared).
  assert (tp_set owned ⊆ dom (sh_next_offsets (sh st2))) as Hown by apply Hi1.
  assert (∀ st3, inv cf st3 → tp_set owned ⊆ dom (sh_next_offsets (sh st3)) →
    WP ((_ ←? prime_offsets cf fuel (sort_by tp_le (minus target owned));
         result ← gated cf (sort_by tp_le (minus target owned))
           (publish_assignment target true (me_member_epoch (mem st1));;
            call_listener cf fuel Assigned (sort_by tp_le (minus target owned)));
         put_shared (set_rebalance_pending false);; mret ((λ _, true) <$> result)) st3) Q) as Hrest.
  { intros st3 Hi3 Ho3. wp_pure. apply wp_prime_offsets; [done|].
    intros [[]|e] st4 Hm4 Hs4 Hi4 Hadd; [|by apply HQ]. specialize (Hadd eq_refl). wp_pure.
    apply wp_publish_and_call; [done| |by intros ?%not_unlisted|].
    - rewrite (list_to_set_perm_L _ _ (sort_by_perm tp_le _)), minus_set in Hadd. destruct Hs4.
      intros p Hp. destruct (decide (p ∈ tp_set owned)); set_solver.
    - intros r st5 Hi5 _ _. wp_pure. apply HQ. by apply inv_shared. }
  wp_case; [cbn beta iota delta [wp mret task_ret]; by apply Hrest|].
  wp_pure. apply wp_call_listener; [done|]. intros [[]|e] st3 Hi3 Hc3 _; [|by apply HQ]. wp_pure.
  apply wp_install_assignment; [done| |].
  - split; [|done|by intros ?%not_unlisted]. etrans; [|apply Hc3]. etrans; [|exact Hown].
    intros p. rewrite !elem_of_list_to_set, list_elem_of_filter. tauto.
  - intros st4 Hi4 _ Hd4 _ _ _ _. cbn beta iota delta [wp mret task_ret].
    apply Hrest; [done|]. etrans; [exact Hown|]. etrans; [apply Hc3|exact Hd4].
Qed.
Hint Resolve keeps_reconcile : keeps.

Lemma keeps_handle_assignment response interval : keeps cf (handle_assignment cf fuel response interval).
Proof. unfold handle_assignment. keeps_tac. Qed.
Hint Resolve keeps_handle_assignment : keeps.

Lemma keeps_heartbeat_once : keeps cf (group_heartbeat_once cf fuel).
Proof. unfold group_heartbeat_once, heartbeat_exchange, report_fatal_error. keeps_tac. Qed.
Hint Resolve keeps_heartbeat_once : keeps.

Lemma keeps_leave_after_poll_timeout : keeps cf (leave_after_poll_timeout cf fuel).
Proof. unfold leave_after_poll_timeout. keeps_tac. Qed.
Hint Resolve keeps_leave_after_poll_timeout : keeps.

Lemma keeps_leave_after_unsubscribe : keeps cf (leave_after_unsubscribe cf).
Proof. unfold leave_after_unsubscribe. keeps_tac. Qed.
Hint Resolve keeps_leave_after_unsubscribe : keeps.

Lemma keeps_next_group_event interval polls_open poll_timeout :
  keeps cf (await (NextGroupEvent interval polls_open poll_timeout)).
Proof.
  intros st Q Hinv HQ. split; [done|]. intros ans s [_ [He|Hu]]; apply HQ.
  - by eapply inv_env.
  - by apply inv_unsubscribe.
Qed.
Hint Resolve keeps_next_group_event : keeps.

Lemma keeps_group_event_step lo : keeps cf (group_event_step cf fuel lo).
Proof. unfold group_event_step, poll_timer_reset. keeps_tac. Qed.
Hint Resolve keeps_group_event_step : keeps.

Lemma keeps_group_heartbeat_step lo : keeps cf (group_heartbeat_step cf fuel lo).
Proof. unfold group_heartbeat_step, check_pattern. keeps_tac. Qed.
Hint Resolve keeps_group_heartbeat_step : keeps.

Lemma keeps_group_run_rounds n lo : keeps cf (group_run_rounds cf fuel n lo).
Proof. revert lo. induction n as [|n IH]; intros lo; simpl; unfold group_run_step; keeps_tac. Qed.
Hint Resolve keeps_group_run_rounds : keeps.

Lemma keeps_group_run : keeps cf (group_run cf fuel).
Proof. unfold group_run, poll_timer_reset. keeps_tac. Qed.

End group.
