(* ===== verification/GroupReturns.v ===== *)
(** * The requests of the coordinator task return in time

    Each retry loop of [GroupNet] ends by its deadline, whatever the brokers
    answer: timers fire at most [R] after their end, and a single request or
    lock takes at most [R]. *)

From S2P Require Import Prelude Bytes Errors ConsumerErrors Assignor GroupAssign FetchBuffer.
From S2P Require Import OffsetWire Commit Subscription ConsumerProtocol GroupIo GroupNet GroupHeartbeat.
From S2P Require Import GroupCoordinator GroupLogic GroupQuiet.

(** ** Time *)

(** The time by which an await is answered: a sleep and a wait with a deadline
    within [R] of their end, a request or a lock within [R], and a race by the
    earlier of its two; the other awaits have no limit. *)
Fixpoint answered_by {GA : GroupApi} (R : Z) (r : request) (now : Z) : option Z :=
  match r with
  | Sleep d => Some (now + Z.max 0 d + R)
  | SleepUntil deadline | CommitTurn deadline | SendOffsetCommit _ _ deadline =>
    Some (Z.max now (deadline + R))
  | Yield | ReconnectBootstrap | FetchMetadata _ | SendFindCoordinator _ | SendJoin _ _
  | SendSync _ _ | SendHeartbeat _ _ | SendOffsetFetch _ _ => Some (now + R)
  | Race r1 r2 =>
    match answered_by R r1 now, answered_by R r2 now with
    | Some t1, Some t2 => Some (Z.min t1 t2)
    | Some t, None | None, Some t => Some t
    | None, None => None
    end
  | _ => None
  end.

Definition timed_law {GA : GroupApi} (R : Z) (B : broker_law) (r : request) (st : St) (ans : answer r)
    (s : Shared) : Prop :=
  law B r st ans s ∧ sh_now (sh st) ≤ sh_now s ∧
  match answered_by R r (sh_now (sh st)) with Some t => sh_now s ≤ t | None => True end.

(** Every run ends, by time [T]. *)
Fixpoint ends_by {GA : GroupApi} {A} (R : Z) (B : broker_law) (T : Z) (m : io A) : Prop :=
  match m with
  | Done _ st => sh_now (sh st) ≤ T
  | Stuck _ => False
  | Await r st k => ∀ ans s, timed_law R B r st ans s → ends_by R B T (k ans s)
  end.

Section time.
Context {GA : GroupApi} (R : Z) (B : broker_law) (HR : 0 ≤ R).

(** Every run from time [t] ends, at a time that satisfies [Q]; the clock moves
    only at awaits. *)
Fixpoint tm {A} (t : Z) (m : io A) (Q : A → Z → St → Prop) : Prop :=
  match m with
  | Done a st => sh_now (sh st) = t ∧ Q a t st
  | Stuck _ => False
  | Await r st k => sh_now (sh st) = t ∧
      ∀ ans s, timed_law R B r st ans s → tm (sh_now s) (k ans s) Q
  end.

Lemma tm_ends_by {A} t (m : io A) T (Q : A → Z → St → Prop) :
  tm t m Q → (∀ a t st, Q a t st → t ≤ T) → ends_by R B T m.
Proof.
  intros Hm HQ. revert t Hm. induction m as [a st|r st k IH|st]; simpl; intros t Hm; [|destruct Hm|done].
  - destruct Hm as [-> Hq]. by eapply HQ.
  - intros ans s HL. by eapply IH, H0.
Qed.

Lemma tm_mono {A} t (m : io A) (Q Q' : A → Z → St → Prop) :
  tm t m Q → (∀ a t st, Q a t st → Q' a t st) → tm t m Q'.
Proof.
  intros Hm HQ. revert t Hm. induction m as [a st|r st k IH|st]; simpl; intros t Hm; [| |done].
  - destruct Hm. auto.
  - destruct Hm as [? Hm]. split; [done|]. intros ans s HL. by eapply IH, Hm.
Qed.

Lemma tm_now {A} t (m : io A) (Q : A → Z → St → Prop) :
  tm t m Q → tm t m (λ a t st, sh_now (sh st) = t ∧ Q a t st).
Proof.
  revert t. induction m as [a st|r st k IH|st]; simpl; intros t Hm; [by destruct Hm| |done].
  destruct Hm as [? Hm]. split; [done|]. intros ans s HL. by apply IH, Hm.
Qed.

Lemma tm_bind {A C} t (f : A → task C) (m : io A) Q :
  tm t m (λ a t st, tm t (f a st) Q) → tm t (io_bind f m) Q.
Proof.
  revert t. induction m as [a st|r st k IH|st]; simpl; intros t Hm; [by destruct Hm| |done].
  destruct Hm as [? Hm]. split; [done|]. intros ans s HL. by apply IH, Hm.
Qed.

(** [m] ends within [D]. *)
Definition takes {A} (D : Z) (m : task A) : Prop :=
  ∀ st, tm (sh_now (sh st)) (m st) (λ _ t _, sh_now (sh st) ≤ t ≤ sh_now (sh st) + D).

Lemma takes_tm {A} D (m : task A) st (Q : A → Z → St → Prop) :
  takes D m → (∀ a t st', sh_now (sh st') = t → sh_now (sh st) ≤ t ≤ sh_now (sh st) + D → Q a t st') →
  tm (sh_now (sh st)) (m st) Q.
Proof.
  intros Hm HQ. specialize (Hm st). revert Hm. generalize (sh_now (sh st)) at 1 4. generalize (m st). clear m.
  intros m. induction m as [a st1|r st1 k IH|st1]; simpl; intros t Hm; [| |done].
  - destruct Hm as [<- Ht]. auto.
  - destruct Hm as [? Hm]. split; [done|]. intros ans s HL. by apply IH, Hm.
Qed.

Lemma takes_mono {A} D D' (m : task A) : takes D m → D ≤ D' → takes D' m.
Proof. intros Hm HD st. eapply tm_mono; [apply Hm|]. simpl. lia. Qed.

Lemma takes_ret {A} (a : A) : takes 0 (mret a).
Proof. intros st. simpl. lia. Qed.
Lemma takes_get {A} (f : St → A) : takes 0 (get f).
Proof. intros st. simpl. lia. Qed.
Lemma takes_put_shared f : (∀ s, sh_now (f s) = sh_now s) → takes 0 (put_shared f).
Proof. intros Hf st. simpl. rewrite Hf. lia. Qed.
Lemma takes_bind {A C} D1 D2 (m : task A) (f : A → task C) :
  takes D1 m → (∀ a, takes D2 (f a)) → takes (D1 + D2) (m ≫= f).
Proof.
  intros Hm Hf st. apply tm_bind. eapply takes_tm; [done|]. intros a t st1 <- Ht.
  eapply takes_tm; [apply Hf|]. simpl. lia.
Qed.
Lemma takes_try {E A C} D1 D2 (m : task (result E A)) (f : A → task (result E C)) :
  0 ≤ D2 → takes D1 m → (∀ a, takes D2 (f a)) → takes (D1 + D2) (try_bind m f).
Proof.
  intros HD Hm Hf. apply takes_bind; [done|]. intros [a|e]; [apply Hf|].
  eapply takes_mono; [apply takes_ret|lia].
Qed.

(** A single request or lock. *)
Lemma takes_await r : (∀ t, answered_by R r t = Some (t + R)) → takes R (await r).
Proof. intros Hd st. split; [done|]. intros ans s (_ & Hn & Ht). rewrite Hd in Ht. simpl. lia. Qed.

(** A computation under a timer ends with the timer. *)
Lemma tm_select {A} t t0 deadline (m : io A) (Q : A → Z → St → Prop) :
  tm t m Q → t0 ≤ t ≤ Z.max t0 (deadline + R) →
  tm t (select_io (SleepUntil deadline) m) (λ _ t' _, t0 ≤ t' ≤ Z.max t0 (deadline + R)).
Proof.
  revert t. induction m as [a st|r st k IH|st]; simpl; intros t Hm Ht; [by destruct Hm| |done].
  destruct Hm as [Hst Hm]. split; [done|]. intros ans s (HL & Hn & Hd). cbn [answered_by] in Hd.
  assert (sh_now s ≤ Z.max t0 (deadline + R)) by (destruct (answered_by R r _); lia).
  destruct ans as [a|b]; [simpl; lia|].
  apply IH; [|lia]. apply Hm. split_and!; [done|done|]. destruct (answered_by R r _); [lia|done].
Qed.
End time.

(** [takes_tac] walks a computation: it bounds each part by a multiple of the
    request limit or by a hint, and leaves the sum. *)
Create HintDb takes.
#[export] Hint Resolve takes_ret takes_get : takes.
Ltac takes_step :=
  match goal with
  | |- takes _ _ _ (mret _) => apply takes_ret
  | |- takes _ _ _ (get _) => apply takes_get
  | |- takes _ _ _ (put_shared _) => apply takes_put_shared; done
  | |- takes _ _ _ (await _) => apply takes_await; done
  | |- takes _ _ _ (_ ≫= _) => eapply takes_bind; [|intros ?]
  | |- _ => solve [eauto 3 with takes]
  end.
(** One branch: the bound of the goal is at least the sum of its parts. *)
Ltac takes_leaf := eapply takes_mono; [repeat takes_step|lia].

(** The shortest pause of the retry loops, and the rounds that reach their
    deadline. *)
Definition shortest_backoff (p : CoordinatorRetryPolicy) : Z :=
  Z.min (rt_initial_backoff p) (rt_max_backoff p).

Record enough (cf : Config) (fuel : nat) : Prop := {
  en_backoff : 0 < shortest_backoff (cf_retry_policy cf);
  en_durations : 0 ≤ rt_timeout (cf_retry_policy cf) ∧ 0 ≤ cf_max_poll_interval cf;
  en_timeout : rt_timeout (cf_retry_policy cf) ≤ (Z.of_nat fuel - 1) * shortest_backoff (cf_retry_policy cf);
  en_poll : cf_max_poll_interval cf ≤ (Z.of_nat fuel - 2) * rt_initial_backoff (cf_retry_policy cf);
}.

(** The longest pause, and how long a discovery and a request with its retries
    take at most: a retry finds the coordinator again, with a retry timeout of
    its own. *)
Definition longest_backoff (p : CoordinatorRetryPolicy) : Z :=
  Z.max (rt_initial_backoff p) (rt_max_backoff p).
Definition discovery_time (cf : Config) (R : Z) : Z :=
  rt_timeout (cf_retry_policy cf) + longest_backoff (cf_retry_policy cf) + 4 * R.
Definition request_time (cf : Config) (R : Z) : Z :=
  rt_timeout (cf_retry_policy cf) + discovery_time cf R + longest_backoff (cf_retry_policy cf) + 2 * R.

Section loops.
Context {GA : GroupApi} (cf : Config) (fuel : nat) (R : Z) (B : broker_law) (HR : 0 ≤ R).
Hypothesis Hfuel : enough cf fuel.

Lemma next_backoff_bounds backoff :
  shortest_backoff (cf_retry_policy cf) ≤ backoff ≤ longest_backoff (cf_retry_policy cf) →
  shortest_backoff (cf_retry_policy cf) ≤ next_backoff backoff (rt_max_backoff (cf_retry_policy cf))
    ≤ longest_backoff (cf_retry_policy cf).
Proof. destruct Hfuel. unfold shortest_backoff, longest_backoff, next_backoff in *. lia. Qed.

Lemma fuel_pos : (0 < fuel)%nat.
Proof. destruct fuel as [|n]; [|lia]. destruct Hfuel. nia. Qed.

Lemma tm_sleep {A} d (f : unit → task A) st (Q : A → Z → St → Prop) :
  0 ≤ d →
  (∀ st', sh_now (sh st) + d ≤ sh_now (sh st') ≤ sh_now (sh st) + d + R → tm R B (sh_now (sh st')) (f () st') Q) →
  tm R B (sh_now (sh st)) ((await (Sleep d) ≫= f) st) Q.
Proof.
  intros Hd Hf. split; [done|]. intros [] s ([_ [_ Hs]] & Hn & Ht). cbn [answered_by] in Ht.
  apply (Hf (mkSt (mem st) s)). simpl. lia.
Qed.

(** One round of a retry loop: a pause of [backoff] after the answer brings the
    deadline closer, so the rest of the fuel is enough; and no round starts
    later than a new discovery and a pause after the deadline. *)
Lemma retry_rounds_tm {X} n start backoff (code : X → Z) make on_retry M O st :
  0 ≤ M → 0 ≤ O → takes R B M make → (∀ reason, takes R B O (on_retry reason)) →
  shortest_backoff (cf_retry_policy cf) ≤ backoff ≤ longest_backoff (cf_retry_policy cf) →
  (0 < n)%nat →
  rt_timeout (cf_retry_policy cf) - (sh_now (sh st) - start) ≤
    (Z.of_nat n - 1) * shortest_backoff (cf_retry_policy cf) →
  let last := start + rt_timeout (cf_retry_policy cf) + O + longest_backoff (cf_retry_policy cf) + R in
  start ≤ sh_now (sh st) ≤ last →
  tm R B (sh_now (sh st)) (retry_rounds cf n start backoff code make on_retry st)
    (λ _ t _, start ≤ t ≤ last + M).
Proof.
  intros HM HO Hmake Hretry. revert st backoff. induction n as [|n IH]; intros st backoff Hb Hn Hrest last Hlast;
    [lia|].
  cbn [retry_rounds]. apply tm_bind. eapply takes_tm; [done|]. intros r t st1 <- Ht1.
  apply tm_bind. split; [done|]. pose proof (en_backoff _ _ Hfuel) as Hpos.
  destruct (retry_deadline_elapsed start _ (sh_now (sh st1))) eqn:Hel; unfold retry_deadline_elapsed in Hel.
  { assert (start ≤ sh_now (sh st1) ≤ last + M) by lia.
    destruct r as [a|e]; [destruct (negb _); done|]. destruct e; try done. case_match; done. }
  apply Z.leb_gt in Hel. replace (Z.of_nat (S n) - 1) with (Z.of_nat n) in Hrest by lia.
  assert (0 < Z.of_nat n) by (apply Z.nle_gt; intros ?; assert (Z.of_nat n = 0) by lia; nia).
  assert (∀ reason, tm R B (sh_now (sh st1)) ((on_retry reason;; await (Sleep backoff);;
    retry_rounds cf n start (next_backoff backoff (rt_max_backoff (cf_retry_policy cf))) code make on_retry)
    st1) (λ _ t _, start ≤ t ≤ last + M)) as Hagain.
  { intros reason. apply tm_bind. eapply takes_tm; [done|]. intros [] t st2 <- Ht2.
    apply tm_sleep; [lia|]. intros st3 Ht3.
    apply IH; [by apply next_backoff_bounds|lia| |unfold last in *; lia]. rewrite Z.mul_sub_distr_r. lia. }
  assert (start ≤ sh_now (sh st1) ≤ last + M) by lia.
  destruct r as [a|e]; [destruct (negb _); [done|apply Hagain]|].
  destruct e; try done. case_match; [apply Hagain|done].
Qed.

Lemma with_coordinator_retry_loop_takes {X} (code : X → Z) make on_retry M O :
  0 ≤ M → 0 ≤ O → takes R B M make → (∀ reason, takes R B O (on_retry reason)) →
  takes R B (rt_timeout (cf_retry_policy cf) + O + longest_backoff (cf_retry_policy cf) + R + M)
    (with_coordinator_retry_loop cf fuel code make on_retry).
Proof.
  intros HM HO Hm Ho st. unfold with_coordinator_retry_loop. apply tm_bind. split; [done|].
  pose proof fuel_pos. destruct Hfuel. unfold shortest_backoff in *.
  eapply tm_mono; [apply (retry_rounds_tm fuel _ _ _ _ _ M O); try done|];
    unfold shortest_backoff, longest_backoff in *; simpl; lia.
Qed.

Lemma lock_takes : takes R B R lock.
Proof. by apply takes_await. Qed.
Lemma evict_broker_takes node : takes R B 0 (evict_broker node).
Proof. by apply takes_put_shared. Qed.
Lemma refresh_metadata_takes : takes R B R refresh_metadata.
Proof. unfold refresh_metadata. takes_leaf. Qed.
Hint Resolve lock_takes evict_broker_takes refresh_metadata_takes : takes.

Lemma discovery_nonneg : 0 ≤ discovery_time cf R ∧ 0 ≤ longest_backoff (cf_retry_policy cf).
Proof. destruct Hfuel. unfold discovery_time, longest_backoff, shortest_backoff in *. lia. Qed.

Lemma find_coordinator_takes : takes R B (discovery_time cf R) (find_coordinator cf fuel).
Proof.
  unfold find_coordinator, with_coordinator_retry.
  eapply takes_mono; [eapply (takes_try _ _ _ R)|].
  - done.
  - apply (with_coordinator_retry_loop_takes _ _ _ (2 * R) 0); [lia|lia| |intros; apply takes_ret].
    eapply takes_mono; [eapply (takes_bind _ _ R R)|lia]; [by apply takes_await|].
    intros [resp|e]; [takes_leaf|].
    eapply takes_mono; [eapply (takes_bind _ _ R 0)|lia]; [|intros; apply takes_ret].
    case_match; [by apply takes_await|takes_leaf].
  - intros resp. case_match; [takes_leaf|].
    eapply takes_mono; [eapply (takes_try _ _ R 0); [lia|auto with takes|intros; apply takes_ret]|lia].
  - unfold discovery_time. lia.
Qed.
Hint Resolve find_coordinator_takes : takes.

Lemma refind_takes : takes R B (discovery_time cf R) (refind cf fuel).
Proof.
  unfold refind. eapply takes_mono; [eapply (takes_bind _ _ _ 0); [apply find_coordinator_takes|]|lia].
  intros [id|e]; takes_leaf.
Qed.
Hint Resolve refind_takes : takes.

Lemma run_with_refind_takes {X} (code : X → Z) make :
  takes R B R make → takes R B (request_time cf R) (run_with_refind cf fuel code make).
Proof.
  intros Hm. pose proof discovery_nonneg. eapply takes_mono.
  - apply (with_coordinator_retry_loop_takes _ _ _ R (discovery_time cf R)); [done|lia|done|].
    intros reason. eapply takes_mono; [eapply (takes_bind _ _ 0 (discovery_time cf R))|lia];
      [|intros; apply refind_takes]. case_match; takes_leaf.
  - unfold request_time. lia.
Qed.

Lemma send_join_group_takes fields member_id :
  takes R B (request_time cf R) (send_join_group cf fuel fields member_id).
Proof. apply run_with_refind_takes. takes_leaf. Qed.

Lemma sync_assignment_takes generation protocol assignments :
  takes R B (request_time cf R) (sync_assignment cf fuel generation protocol assignments).
Proof.
  unfold sync_assignment. eapply takes_mono; [eapply (takes_try _ _ _ 0)|]; [lia| | |].
  - apply run_with_refind_takes. takes_leaf.
  - intros. case_match; takes_leaf.
  - lia.
Qed.

Lemma heartbeat_once_takes : takes R B (R + discovery_time cf R) (heartbeat_once cf fuel).
Proof.
  pose proof discovery_nonneg. unfold heartbeat_once.
  eapply takes_mono; [eapply (takes_bind _ _ 0 (R + discovery_time cf R)); [takes_leaf|]|lia].
  intros [node request]. apply takes_bind; [by apply takes_await|].
  unfold heartbeat_result_outcome, report_rejoin_error, report_fatal_error. intros r.
  repeat case_match; takes_leaf.
Qed.

Lemma offset_fetch_rounds_tm n start backoff request st :
  shortest_backoff (cf_retry_policy cf) ≤ backoff ≤ longest_backoff (cf_retry_policy cf) → (0 < n)%nat →
  rt_timeout (cf_retry_policy cf) - (sh_now (sh st) - start) ≤
    (Z.of_nat n - 1) * shortest_backoff (cf_retry_policy cf) →
  start ≤ sh_now (sh st) ≤ start + request_time cf R - R →
  tm R B (sh_now (sh st)) (offset_fetch_rounds cf fuel n start backoff request st)
    (λ _ t _, start ≤ t ≤ start + request_time cf R).
Proof.
  pose proof discovery_nonneg as [Hd0 Hb0].
  revert st backoff. induction n as [|n IH]; intros st backoff Hb Hn Hrest Hst; [lia|].
  cbn [offset_fetch_rounds]. apply tm_bind. split; [done|]. apply tm_bind.
  eapply takes_tm; [by apply takes_await|]. intros [resp|e] t st1 <- Ht1; [|simpl; lia].
  apply tm_bind. split; [done|]. pose proof (en_backoff _ _ Hfuel) as Hpos.
  assert (start ≤ sh_now (sh st1) ≤ start + request_time cf R) by lia.
  destruct (retry_deadline_elapsed start _ (sh_now (sh st1))) eqn:Hel; unfold retry_deadline_elapsed in Hel.
  { destruct (classify_offset_fetch resp); done. }
  apply Z.leb_gt in Hel. replace (Z.of_nat (S n) - 1) with (Z.of_nat n) in Hrest by lia.
  assert (0 < Z.of_nat n) by (apply Z.nle_gt; intros ?; assert (Z.of_nat n = 0) by lia; nia).
  assert (∀ st2, sh_now (sh st1) ≤ sh_now (sh st2) ≤ sh_now (sh st1) + discovery_time cf R →
    tm R B (sh_now (sh st2)) ((await (Sleep backoff);;
    offset_fetch_rounds cf fuel n start (next_backoff backoff (rt_max_backoff (cf_retry_policy cf))) request)
    st2) (λ _ t _, start ≤ t ≤ start + request_time cf R)) as Hagain.
  { intros st2 Hnow2. apply tm_sleep; [lia|]. intros st3 Ht3.
    apply IH; [by apply next_backoff_bounds|lia| |unfold request_time in *; lia].
    rewrite Z.mul_sub_distr_r. lia. }
  destruct (classify_offset_fetch resp); try done; try (apply Hagain; lia).
  apply tm_bind. eapply takes_tm; [apply refind_takes|]. intros [] t st2 <- Ht2. by apply Hagain.
Qed.

Lemma send_offset_fetch_takes request : takes R B (request_time cf R) (send_offset_fetch cf fuel request).
Proof.
  intros st. unfold send_offset_fetch. apply tm_bind. split; [done|]. pose proof fuel_pos.
  pose proof discovery_nonneg. destruct Hfuel.
  eapply tm_mono; [apply offset_fetch_rounds_tm; try done|];
    unfold shortest_backoff, request_time, longest_backoff in *; simpl; lia.
Qed.

Lemma prime_offsets_takes partitions :
  takes R B (request_time cf R + 2 * R) (prime_offsets cf fuel partitions).
Proof.
  pose proof discovery_nonneg. unfold prime_offsets.
  assert (0 ≤ request_time cf R) by (destruct Hfuel; unfold request_time; lia).
  case_match; [takes_leaf|]. apply takes_try; [lia|apply send_offset_fetch_takes|]. intros answer.
  eapply takes_mono; [repeat takes_step|lia].
Qed.

(** The new discovery of a commit round, up to the deadline. *)
Definition found_in_time (deadline coordinator : Z) (moved : bool) : task bool :=
  if moved
  then evict_broker coordinator;;
       found ← select (SleepUntil deadline) (refind cf fuel);
       mret (match found with inl _ => false | inr _ => true end)
  else mret true.

Lemma found_in_time_tm deadline coordinator moved st :
  tm R B (sh_now (sh st)) (found_in_time deadline coordinator moved st)
    (λ _ t st', sh_now (sh st') = t ∧ sh_now (sh st) ≤ t ≤ Z.max (sh_now (sh st)) (deadline + R)).
Proof.
  destruct moved; [|simpl; lia]. unfold found_in_time. apply tm_bind. split; [done|].
  set (st' := mkSt _ _). change (sh_now (sh st)) with (sh_now (sh st')). apply tm_bind. unfold select.
  eapply tm_mono; [eapply tm_now, (tm_select _ _ _ (sh_now (sh st')) deadline); [apply refind_takes|lia]|].
  intros found t st1 [Hst1 Ht]. done.
Qed.

(** A commit round pauses for the backoff, or until the deadline; after the
    deadline there is one more round. *)
Lemma commit_rounds_tm n deadline st :
  (0 < n)%nat → deadline - sh_now (sh st) ≤ (Z.of_nat n - 2) * rt_initial_backoff (cf_retry_policy cf) ∨
    deadline ≤ sh_now (sh st) →
  sh_now (sh st) ≤ deadline + R →
  tm R B (sh_now (sh st)) (commit_rounds cf fuel n deadline st) (λ _ t _, t ≤ deadline + 3 * R).
Proof.
  revert st. induction n as [|n IH]; intros st Hn Hrest Hst; [lia|].
  cbn [commit_rounds]. apply tm_bind. eapply takes_tm; [apply lock_takes|]. intros [] t st1 <- Ht1.
  apply tm_bind. split; [done|]. apply tm_bind. eapply takes_tm; [apply lock_takes|]. intros [] t st2 <- Ht2.
  apply tm_bind. split; [done|]. case_match; [simpl; lia|].
  apply tm_bind. split; [done|]. apply tm_bind. split; [done|]. intros r s (HL & Hn3 & Ht3).
  cbn [answered_by] in Ht3. set (st3 := mkSt (mem st2) s).
  assert (sh_now (sh st2) ≤ sh_now (sh st3) ≤ deadline + 3 * R) by (simpl; lia).
  change s with (sh st3). split; [done|]. destruct r as [r|]; [|simpl in *; lia].
  cbv zeta. destruct (auto_commit_outcome _); try (split; [done|simpl in *; lia]).
  apply tm_bind. eapply tm_mono; [apply (found_in_time_tm deadline)|].
  intros in_time t st4 [<- Ht4]. destruct in_time; cbn [negb]; [|split; [done|simpl in *; lia]].
  apply tm_bind. split; [done|]. destruct (Z.leb_spec deadline (sh_now (sh st4))).
  { split; [done|simpl in *; lia]. }
  assert (0 < rt_initial_backoff (cf_retry_policy cf)) as Hpos.
  { pose proof (en_backoff _ _ Hfuel). unfold shortest_backoff in *. lia. }
  apply tm_sleep; [lia|]. intros st5 Ht5. simpl in *.
  destruct Hrest as [Hrest|]; [|lia].
  replace (Z.of_nat (S n) - 2) with (Z.of_nat n - 1) in Hrest by lia.
  assert (1 < Z.of_nat n) by (apply Z.nle_gt; intros ?; assert (Z.of_nat n - 1 ≤ 0) by lia; nia).
  apply IH; [lia| |lia].
  destruct (Z.min_spec (rt_initial_backoff (cf_retry_policy cf)) (deadline - sh_now (sh st4)))
    as [[_ Hmin]|[_ Hmin]]; rewrite Hmin in Ht5; [left|right; lia].
  rewrite Z.mul_sub_distr_r in *. lia.
Qed.

Lemma commit_before_join_tm st :
  tm R B (sh_now (sh st)) (commit_consumed_before_join cf fuel st)
    (λ _ t _, t ≤ sh_now (sh st) + cf_max_poll_interval cf + 3 * R).
Proof.
  unfold commit_consumed_before_join. apply tm_bind. split; [done|]. apply tm_bind.
  split; [done|]. intros turn s (_ & Hn & Ht). cbn [answered_by] in Ht. split; [done|].
  assert (0 ≤ cf_max_poll_interval cf) by apply Hfuel.
  destruct turn; cbn [negb]; [|split; [done|lia]].
  apply (commit_rounds_tm fuel _ (mkSt (mem st) s)); [apply fuel_pos| |simpl; lia].
  left. simpl. destruct Hfuel. lia.
Qed.
End loops.
