(* ===== verification/GroupTheorems.v ===== *)
(** * What the group membership guarantees

    The theorems about [coordinator.rs] and [consumer_group.rs]: the invariant
    of every visible state, that requests return, and runs that show where the
    member goes wrong. *)

From S2P Require Import Prelude Bytes Errors ConsumerErrors Assignor GroupAssign FetchBuffer.
From S2P Require Import OffsetWire Commit Subscription ConsumerProtocol GroupIo GroupNet GroupHeartbeat.
From S2P Require Import GroupCoordinator ConsumerGroup GroupLogic GroupQuiet GroupInv GroupRun.
From S2P Require Import ConsumerGroupRun GroupReturns.

(** ** Runs with given answers *)

Section follow.
Context {GA : GroupApi}.

(** What is left of [m] after [n] answers of [oracle]. *)
Fixpoint follow {A} (oracle : ∀ r, St → answer r * Shared) (n : nat) (m : io A) : io A :=
  match n, m with
  | S n, Await r st k => let '(ans, s) := oracle r st in follow oracle n (k ans s)
  | _, m => m
  end.

Definition waits {A} (m : io A) : bool := match m with Await _ _ _ => true | _ => false end.

Lemma follow_visible {A} (L : ∀ r, St → answer r → Shared → Prop) oracle n (m : io A) :
  (∀ r st, L r st (oracle r st).1 (oracle r st).2) → waits (follow oracle n m) = true →
  visible L m (top_state (follow oracle n m)).
Proof.
  intros HL. revert m. induction n as [|n IH]; intros m.
  - destruct m; simpl; try done. constructor.
  - destruct m as [a st|r st k|st]; simpl; try done.
    specialize (HL r st) as Hl. destruct (oracle r st) as [ans s]. simpl in Hl.
    intros Hw. by eapply visible_later, IH.
Qed.

Lemma follow_ends {A} (L : ∀ r, St → answer r → Shared → Prop) oracle n (m : io A) a st :
  (∀ r st, L r st (oracle r st).1 (oracle r st).2) →
  follow oracle n m = Done a st → ends L m a st.
Proof.
  intros HL. revert m. induction n as [|n IH]; intros m.
  - intros Hf. destruct m; simplify_eq/=. constructor.
  - destruct m as [a' st'|r st' k|st']; intros Hf; simplify_eq/=; [constructor|].
    specialize (HL r st') as Hl. destruct (oracle r st') as [ans s]. simpl in Hl.
    eapply ends_later; [exact Hl|]. by apply IH.
Qed.

(** The result of a computation that has ended. *)
Definition ended {A} (m : io A) : option (A * St) := match m with Done a st => Some (a, st) | _ => None end.

(** A run that ends with a result for which [P] holds. *)
Lemma follow_ended {A} (L : ∀ r, St → answer r → Shared → Prop) oracle n (m : io A) (P : A → St → Prop) :
  (∀ r st, L r st (oracle r st).1 (oracle r st).2) →
  match ended (follow oracle n m) with Some (a, st) => P a st | None => False end →
  ∃ a st, ends L m a st ∧ P a st.
Proof.
  intros HL. destruct (follow oracle n m) as [a st|r st k|st] eqn:E; simpl; try done.
  intros HP. exists a, st. split; [by eapply follow_ends|done].
Qed.

End follow.

(** ** A group with one topic *)

Module DemoGroup.
Import Init.Byte.

Definition codec : ProtocolCodec := {|
  encode_sub _ _ := Ok [];
  decode_sub _ _ := None;
  encode_asg _ _ := Ok [];
  decode_asg _ _ := Some (mkProtocolAssignment [("t", [0])] None);
|}.

#[local] Instance api : GroupApi := {|
  Uuid := unit;
  Uuid_zero := ();
  group_codec := codec;
  visit_set X := elements X;
  visit_set_perm X := reflexivity _;
  visit_topics A m := map_to_list m;
  visit_topics_perm A m := reflexivity _;
  visit_partitions A m := map_to_list m;
  visit_partitions_perm A m := reflexivity _;
|}.

Definition config (protocol : RebalanceProtocol) (listener : bool) : Config :=
  mkConfig "g" None [Range] protocol Classic None 10000 100 100 10 1000 10 Earliest None
    (mkRetry 5 1 4) listener.

(** A member that owns [owned], subscribed to [t]. *)
Definition shared (owned : list topic_partition) : Shared :=
  mkShared 1 (mkIdentity 1 "m" (list_to_map ((λ p, (p, 0)) <$> owned)) false) "m" 1
    (mkSub ["t"] None None true 0 0 false) 0 owned (list_to_map ((λ p, (p, 7)) <$> owned)) ∅ ∅ ∅ None None
    0 false ∅ DefaultOperation [] 0.

Definition member : Member :=
  mkMember "m" 1 ["t"] 0 1 false "" [] 100 false ["t"] 0 0 0 SentFields_default.

Definition start (owned : list topic_partition) : St := mkSt member (shared owned).

(** Whether the second request of a race is answered first. *)
Definition second (heartbeat : bool) (r1 : request) : bool :=
  match r1 with Shutdown => true | _ => heartbeat end.

Fixpoint answer_to (code : Z) (event : task_event) (heartbeat : bool) (r : request) : answer r :=
  match r return answer r with
  | Yield | Sleep _ | SleepUntil _ | Tick _ | Shutdown | ReconnectBootstrap
  | SendLeave _ _ _ | SendGroupLeave _ _ _ _ => tt
  | FetchMetadata _ => Ok []
  | SendFindCoordinator _ => Err ClientError.Disconnected
  | SendJoin _ _ => Ok (mkJoined code 2 (Some "range") "other" "m" [])
  | SendSync _ _ => Ok (mkSynced 0 [x00; x03])
  | SendHeartbeat _ _ => Ok 25
  | SpawnHeartbeat _ _ => Some (Ok 25)
  | SendOffsetFetch _ _ => Ok (mkFetchResponse 0 [] [])
  | SendOffsetCommit _ _ _ => None
  | SendGroupHeartbeat _ _ _ => Err ClientError.Disconnected
  | CommitTurn _ | CallListener _ _ => true
  | ListenerWait _ => CallDone
  | PollWait => PollsChanged
  | NextEvent _ _ => event
  | NextGroupEvent _ _ _ => GroupShutdown
  | Race r1 r2 =>
    if second heartbeat r1 then inr (answer_to code event heartbeat r2) else inl (answer_to code event heartbeat r1)
  end.

Definition wait (d : Z) (s : Shared) : Shared :=
  mkShared (sh_coordinator_id s) (sh_identity s) (sh_published_member_id s) (sh_current_generation s)
    (sh_subscription s) (sh_subscription_changes s) (sh_assigned s) (sh_next_offsets s) (sh_end_offsets s)
    (sh_positions s) (sh_topic_ids s) (sh_poll_error s) (sh_auto_commit s) (sh_polls s)
    (sh_rebalance_pending s) (sh_callback_pending s) (sh_close_operation s) (sh_evicted s)
    (sh_now s + Z.max 0 d).

Fixpoint after (heartbeat : bool) (r : request) (s : Shared) : Shared :=
  match r with
  | Sleep d => wait d s
  | Race r1 r2 => if second heartbeat r1 then after heartbeat r2 s else after heartbeat r1 s
  | _ => s
  end.

(** The application asks for a rebalance and polls, until the generation is 2. *)
Definition event_at (st : St) : task_event :=
  if negb (me_generation_id (mem st) =? 1) then WakeShutdown
  else if bool_decide (me_rejoin_reason (mem st) = "") then WakeEnforced "asked" (-1)
  else WakePoll.

(** The answers: a join is answered with [code], and a heartbeat comes first in
    the states that [during] selects. *)
Definition oracle (code : Z) (during : St → bool) (r : request) (st : St) : answer r * Shared :=
  (answer_to code (event_at st) (during st) r, after (during st) r (sh st)).

Lemma wait_env d s : env_step s (wait d s) ∧ sh_now s + d ≤ sh_now (wait d s).
Proof. split; [split; simpl; try done; lia|simpl; lia]. Qed.

Lemma oracle_law_of B code during r st :
  (∀ r event hb, B r (answer_to code event hb r)) →
  law B r st (oracle code during r st).1 (oracle code during r st).2.
Proof.
  intros HB. unfold oracle. simpl. generalize (during st), (event_at st). intros hb event.
  induction r as [| | | | | | | | | | | | | | | | | | | | | | |r1 IH1 r2 IH2];
    try (hnf; split; [apply HB|]); simpl; try reflexivity; try (left; reflexivity); try apply wait_env.
  destruct (second hb r1); assumption.
Qed.

Lemma oracle_law during r st : law names_member r st (oracle 0 during r st).1 (oracle 0 during r st).2.
Proof. apply oracle_law_of. by intros []. Qed.
End DemoGroup.

(** ** The invariant *)

(** C5: the membership of a consumer, for both group protocols, in every state
    that [poll] or a commit can see while the coordinator task runs. If the
    application unsubscribes only between two rounds of the task, where it waits
    for its next event, and a coordinator that accepts a join names the member,
    then whatever else the brokers answer every assigned partition has a fetch
    position, the ownership ids are those of the assigned partitions, a member
    that must join again on the next [poll] owns nothing, and a classic member
    without a listener that has no member id owns nothing. *)
Theorem group_run_invariant {GA : GroupApi} cf fuel counts st st' :
  inv cf st →
  (visible (law names_member) (run cf fuel counts st) st' → inv cf st') ∧
  (cf_group_protocol cf = ConsumerGroup →
   visible (law names_member) (group_run cf fuel st) st' → inv cf st').
Proof.
  intros Hinv. split.
  - apply (wp_visible _ _ _ (λ _ _, True)), keeps_run; done.
  - intros Hp. apply (wp_visible _ _ _ (λ _ _, True)), keeps_group_run; done.
Qed.


Lemma group_run_invariant_witness :
  let run := @run DemoGroup.api (DemoGroup.config Cooperative false) 5 ∅ (DemoGroup.start []) in
  let st := top_state (follow (DemoGroup.oracle 0 (λ _, false)) 13 run) in
  inv (DemoGroup.config Cooperative false) st ∧ sh_assigned (sh st) = [("t", 0)].
Proof.
  intros run st. split; [|vm_compute; reflexivity].
  assert (inv (DemoGroup.config Cooperative false) (DemoGroup.start [])) as Hinv.
  { split; simpl; try done. }
  apply (proj1 (group_run_invariant (DemoGroup.config Cooperative false) 5 ∅ (DemoGroup.start []) st Hinv)).
  apply follow_visible; [apply DemoGroup.oracle_law|]. vm_compute. reflexivity.
Defined.



(** ** A member that the coordinator does not know *)

(** The task is idle: no rejoin is requested and the member has no id. *)
Definition forgotten {GA : GroupApi} (lo : Loop) (st : St) : Prop :=
  lo_rejoin lo = NoRejoin ∧ me_member_id (mem st) = "" ∧ sh_assigned (sh st) = [].

(** A poll, a tick or the end of the poll timer changes nothing, and the task
    sends nothing, until the next check of the metadata. *)
Definition idle_step {GA : GroupApi} (cf : Config) (fuel : nat) (lo : Loop) (st : St) : Prop :=
  ∀ event s, event = WakeTick ∨ event = WakePoll ∨ event = WakePollTimeout →
  env_step (sh st) s → sh_now s - lo_last_meta_check lo < cf_subscription_metadata_refresh_interval cf →
  match run_step cf fuel lo st with
  | Await (NextEvent _ _) _ k => ∀ ans, ans = event →
    match k ans s with Done (Some lo') st' => lo' = lo ∧ forgotten lo' st' | _ => False end
  | _ => False
  end.

Lemma check_metadata_early {GA : GroupApi} cf lo st :
  sh_now (sh st) - lo_last_meta_check lo < cf_subscription_metadata_refresh_interval cf →
  check_metadata cf lo st = Done lo st.
Proof.
  intros Hnow. unfold check_metadata, mbind, task_bind. cbn [now get io_bind].
  assert ((cf_subscription_metadata_refresh_interval cf <=? sh_now (sh st) - lo_last_meta_check lo) = false)
    as -> by lia.
  by rewrite orb_true_r.
Qed.

Lemma handle_event_forgotten {GA : GroupApi} cf fuel lo tick poll st :
  forgotten lo st → sh_now (sh st) - lo_last_meta_check lo < cf_subscription_metadata_refresh_interval cf →
  match handle_event cf fuel lo tick poll st with
  | Done (Some lo') st' => lo' = lo ∧ forgotten lo' st'
  | _ => False
  end.
Proof.
  intros (Hr & Hid & Ha) Hnow. unfold handle_event, poll_timer_reset, mbind, task_bind.
  assert (∀ me, me_member_id me = "" →
    match io_bind (λ lo st', (if due (lo_rejoin lo) (sh_polls (sh st')) then rejoin_due cf fuel lo
        else if tick && negb (bool_decide (me_member_id (mem st') = "")) then heartbeat_tick cf fuel lo
        else mret (Some lo)) st') (check_metadata cf lo (mkSt me (sh st))) with
    | Done (Some lo') st' => lo' = lo ∧ forgotten lo' st'
    | _ => False
    end) as Hend.
  { intros me Hme. rewrite check_metadata_early by done. cbn [io_bind mem]. rewrite Hr.
    rewrite bool_decide_true by done. cbn [due negb]. rewrite andb_false_r. done. }
  destruct poll; cbn [io_bind now get put_member andb negb].
  { rewrite Hr. cbn. done. }
  destruct (sh_polls (sh st) =? _); cbn [io_bind now get put_member mret task_ret mem sh];
    rewrite (bool_decide_true (_ = "")) by done; cbn [negb andb].
  - destruct st as [me s]. by apply Hend.
  - by apply Hend.
Qed.

Lemma forgotten_idle {GA : GroupApi} cf fuel lo st : forgotten lo st → idle_step cf fuel lo st.
Proof.
  intros (Hr & Hid & Ha) event s Hevent Hs Hnow. unfold run_step, mbind, task_bind. cbn [get io_bind await].
  intros ans ->. assert (sh_assigned s = []) as Has by (by rewrite (es_assigned _ _ Hs)).
  destruct Hevent as [->|[->| ->]]; cbn [io_bind put_member get mem sh]; by apply handle_event_forgotten.
Qed.

(** a heartbeat that answers [UNKNOWN_MEMBER_ID] while the assign callback
    of a rejoin runs makes the task forget the member, but the rejoin then
    counts as completed. In such a run the task ends up with no member id, no
    partitions and no rejoin requested, and from there neither a poll nor a
    tick makes it join again. *)
Theorem forgotten_member_stops :
  (∃ lo st, ends (law names_member)
     (@rejoin_due DemoGroup.api (DemoGroup.config Eager true) 5 (mkLoop RejoinNow ∅ 0 true)
        (DemoGroup.start [("t", 0)])) (Some lo) st ∧
     forgotten lo st ∧ sh_rebalance_pending (sh st) = false) ∧
  (∀ {GA : GroupApi} cf fuel lo st, forgotten lo st → idle_step cf fuel lo st).
Proof.
  split; [|intros ? ? ? ? ?; apply forgotten_idle].
  destruct (follow_ended (law names_member) (DemoGroup.oracle 0 (λ st, me_generation_id (mem st) =? 2)) 19
    (@rejoin_due DemoGroup.api (DemoGroup.config Eager true) 5 (mkLoop RejoinNow ∅ 0 true)
       (DemoGroup.start [("t", 0)]))
    (λ lo st, match lo with
              | Some lo => forgotten lo st ∧ sh_rebalance_pending (sh st) = false
              | None => False end)) as ([lo|] & st & He & Hf).
  - apply DemoGroup.oracle_law.
  - vm_compute. done.
  - by exists lo, st.
  - done.
Qed.

(** ** A coordinator that refuses the member id *)

Definition refuses_member {GA : GroupApi} : broker_law := λ r,
  match r return answer r → Prop with
  | SendJoin _ _ => λ ans,
    match ans with Ok j => jr_error_code j = UNKNOWN_MEMBER_ID | Err _ => True end
  | _ => λ _, True
  end.

(** The join fails, and not because another member took the instance id. *)
Definition join_failed {A} (r : result consumer_error A) : Prop :=
  match r with
  | Ok _ | Err (ConsumerError.FencedInstanceId _) => False
  | Err _ => True
  end.

Section refused.
Context {GA : GroupApi} (cf : Config) (fuel : nat).

Notation WP m Q := (wp (law refuses_member) (λ _, True) m Q).

Lemma wp_refused_net {A} (m : task A) st Q :
  quiet_task eq m → (∀ a st', mem st' = mem st → Q a st') → WP (m st) Q.
Proof.
  intros Hm HQ. eapply wp_mono; [|apply (quiet_wp eq refuses_member (λ _, True) _ _ _ (Hm st)); done].
  intros a st' [Heq _]. by apply HQ.
Qed.

Lemma refused_join fields member_id st Q :
  (∀ r st', mem st' = mem st →
     match r with Ok j => jr_error_code j = UNKNOWN_MEMBER_ID | Err _ => join_failed r end → Q r st') →
  WP (send_join_group cf fuel fields member_id st) Q.
Proof.
  intros HQ. eapply wp_yields.
  - apply (send_join_group_yields_of cf fuel refuses_member fields member_id st
      (λ r, match r with Ok j => jr_error_code j = UNKNOWN_MEMBER_ID | Err _ => join_failed r end)); [|done].
    intros node r [j|e] Hans; [exact Hans|done].
  - apply wp_refused_net; [apply send_join_group_quiet; apply _|]. intros r st' Hm Hr. by apply HQ.
Qed.

Lemma refused_rejoin st Q :
  me_join_prepared (mem st) = true →
  (∀ r st', join_failed r → me_member_id (mem st') = me_member_id (mem st) →
     me_join_prepared (mem st') = true →
     me_poll_timeout_in_callback (mem st') = me_poll_timeout_in_callback (mem st) → Q r st') →
  WP (rejoin_group cf fuel st) Q.
Proof.
  intros Hp HQ. unfold rejoin_group, join_and_sync, join_prepare. wp_pure. rewrite Hp. wp_pure.
  apply wp_refused_net; [quiet_tac|]. intros [] st1 Hm1. wp_pure.
  unfold perform_join. wp_pure. case_match; wp_pure; [|by apply HQ; simpl; rewrite ?Hm1].
  apply refused_join. intros [j|e] st2 Hm2 Hr.
  - rewrite Hr. simpl. wp_pure. apply HQ; rewrite ?Hm2; simpl; rewrite ?Hm1; done.
  - apply HQ; rewrite ?Hm2; simpl; rewrite ?Hm1; done.
Qed.
End refused.

(** while the coordinator answers [UNKNOWN_MEMBER_ID] to the [JoinGroup]
    of a member, a round of the task fails and changes neither the member id
    nor the request for a rejoin: the next round sends the same id again. Only
    a shutdown ends this ([None]). *)
Theorem unknown_member_join_repeats {GA : GroupApi} cf fuel lo st r st' :
  me_join_prepared (mem st) = true → me_poll_timeout_in_callback (mem st) = false →
  ends (law refuses_member) (rejoin_due cf fuel lo st) r st' →
  r = None ∨
  r = Some lo ∧ me_member_id (mem st') = me_member_id (mem st) ∧
  me_join_prepared (mem st') = true ∧ me_poll_timeout_in_callback (mem st') = false.
Proof.
  intros Hp Ht. set (Q := λ (r : option Loop) (st' : St), r = None ∨ r = Some lo ∧ me_member_id (mem st') = me_member_id (mem st) ∧
    me_join_prepared (mem st') = true ∧ me_poll_timeout_in_callback (mem st') = false).
  apply (wp_ends (law refuses_member) (λ _, True) _ Q). unfold rejoin_due. wp_pure.
  apply (wp_select (law refuses_member) (λ _, True)); [done| |].
  { intros a st1 s _ _. wp_pure. by left. }
  apply refused_rejoin; [done|]. intros res st1 Hres Hid Hp1 Ht1. rewrite Ht in Ht1.
  assert (∀ e, wp (law refuses_member) (λ _, True) ((put_member (set_rejoin_reason (rebalance_failure_reason e));;
    report_rejoin_error e;; mret (Some lo)) (mkSt (set_poll_timeout_in_callback false (mem st1)) (sh st1))) Q)
    as Htail.
  { intros e. wp_pure. apply wp_refused_net; [quiet_tac|]. intros [] st2 Hm2. wp_pure. right.
    by rewrite Hm2. }
  destruct res as [|e]; [done|]. destruct e; try done; wp_pure; rewrite Ht1; apply Htail.
Qed.

Lemma unknown_member_join_repeats_witness :
  ∃ r st', r = None ∨
    r = Some (mkLoop RejoinNow ∅ 0 true) ∧ me_member_id (@mem DemoGroup.api st') = "m" ∧
    me_join_prepared (mem st') = true ∧ me_poll_timeout_in_callback (mem st') = false.
Proof.
  destruct (follow_ended (law refuses_member) (DemoGroup.oracle UNKNOWN_MEMBER_ID (λ _, false)) 10
    (@rejoin_due DemoGroup.api (DemoGroup.config Eager true) 5 (mkLoop RejoinNow ∅ 0 true)
       (mkSt (set_join_prepared true DemoGroup.member) (DemoGroup.shared []))) (λ _ _, True))
    as (r & st' & He & _).
  - intros r st. apply DemoGroup.oracle_law_of. by intros [].
  - vm_compute. exact I.
  - exists r, st'. exact (unknown_member_join_repeats _ _ _
      (@mkSt DemoGroup.api (set_join_prepared true DemoGroup.member) (DemoGroup.shared [])) _ _ eq_refl eq_refl He).
Defined.

(** ** A forgotten member that keeps partitions *)

(** a cooperative member whose revoke callback is interrupted by
    [UNKNOWN_MEMBER_ID] forgets its membership, and then publishes the
    partitions it wanted to keep: [poll] sees an assignment of a member that
    has no id and no generation. *)
Theorem forgotten_member_keeps_partitions :
  ∃ st, visible (law names_member)
    (@rejoin_group DemoGroup.api (DemoGroup.config Cooperative true) 5
       (DemoGroup.start [("t", 0); ("u", 0)])) st ∧
  sh_assigned (sh st) = [("t", 0)] ∧
  ci_member_id (sh_identity (sh st)) = "" ∧ ci_generation (sh_identity (sh st)) = -1.
Proof.
  eexists. split.
  - apply (follow_visible (law names_member) (DemoGroup.oracle 0 (λ _, true)) 11);
      [apply DemoGroup.oracle_law|vm_compute; reflexivity].
  - vm_compute. done.
Qed.

(** ** An unsubscribe during a rejoin *)

(** The environment in which the application may unsubscribe at any await. *)
Definition open_law {GA : GroupApi} (r : request) (st : St) (ans : answer r) (s : Shared) : Prop :=
  env_step (sh st) s ∨ unsubscribe_step (sh st) s.

Module DemoUnsubscribe.
#[local] Existing Instance DemoGroup.api.

(** [Consumer::unsubscribe], while the task waits for the answer to its
    [SyncGroup]. *)
Definition unsubscribed (s : Shared) : Shared :=
  set_next_offsets ∅ (set_assigned []
    (set_identity (mkIdentity (ci_generation (sh_identity s)) (ci_member_id (sh_identity s)) ∅
                     (ci_rejoin_on_poll (sh_identity s))) s)).

Definition oracle (r : request) (st : St) : answer r * Shared :=
  (DemoGroup.answer_to 0 WakeShutdown false r,
   match r with SendSync _ _ => unsubscribed (sh st) | _ => sh st end).

Lemma oracle_open r st : open_law r st (oracle r st).1 (oracle r st).2.
Proof. destruct r; try (left; reflexivity). right. by split. Qed.
End DemoUnsubscribe.

(** the invariant needs its condition on the application. When it
    unsubscribes while a rejoin runs, the positions are cleared, and the task
    then publishes the partition it kept without a position: a [poll] of a new
    subscription would fetch it from offset 0. *)
Theorem unsubscribe_during_rejoin :
  ∃ st, visible open_law
    (@rejoin_group DemoGroup.api (DemoGroup.config Cooperative false) 5 (DemoGroup.start [("t", 0)])) st ∧
  sh_assigned (sh st) = [("t", 0)] ∧ sh_next_offsets (sh st) !! ("t", 0) = None.
Proof.
  eexists. split.
  - apply (follow_visible open_law DemoUnsubscribe.oracle 6);
      [apply DemoUnsubscribe.oracle_open|vm_compute; reflexivity].
  - vm_compute. done.
Qed.
