(* ===== verification/ConsumerGroupTheorems.v ===== *)
(** * What a member of the consumer group protocol tells its coordinator

    A heartbeat carries only the fields that changed. The coordinator's view of
    the member follows from the heartbeats that reached it; the theorems relate
    that view to the member's fields, through lost requests and errors. *)

From S2P Require Import Prelude Bytes Errors ConsumerErrors Assignor GroupAssign FetchBuffer.
From S2P Require Import OffsetWire Commit Subscription ConsumerProtocol GroupIo GroupNet GroupHeartbeat.
From S2P Require Import GroupCoordinator ConsumerGroup GroupLogic GroupQuiet GroupInv GroupRun.
From S2P Require Import ConsumerGroupRun GroupReturns GroupTheorems.

Section view.
Context {GA : GroupApi}.

(** What the coordinator knows of the member (KIP-848): an absent field of a
    heartbeat keeps what it knows, and an empty expression removes the pattern. *)
Record View : Type := mkView {
  vw_rebalance_timeout_ms : option Z;
  vw_subscribed_topic_names : option (list string);
  vw_regex : option string;
  vw_server_assignor : option string;
  vw_topic_partitions : option (gmap Uuid (list Z));
}.

Definition new_member : View := mkView None None None None None.

Definition or_keep {A} (new old : option A) : option A := match new with Some _ => new | None => old end.

Definition receive (v : View) (r : ConsumerGroupHeartbeatRequest) : View :=
  mkView
    (if gh_rebalance_timeout_ms r =? -1 then vw_rebalance_timeout_ms v else Some (gh_rebalance_timeout_ms r))
    (or_keep (gh_subscribed_topic_names r) (vw_subscribed_topic_names v))
    (match gh_subscribed_topic_regex r with
     | None => vw_regex v
     | Some regex => if bool_decide (regex = "") then None else Some regex
     end)
    (or_keep (gh_server_assignor r) (vw_server_assignor v))
    (or_keep (gh_topic_partitions r) (vw_topic_partitions v)).

(** The fields of a heartbeat: a timeout in milliseconds, and an expression
    that [subscribe_regex] accepts. *)
Definition fields_ok (f : HeartbeatFields) : Prop :=
  0 ≤ hf_rebalance_timeout_ms f ∧ hf_regex f ≠ Some "".

(** What the member believes to have sent is what the coordinator knows. *)
Record agree (sent : SentFields) (v : View) : Prop := {
  ag_timeout t : sf_rebalance_timeout_ms sent = Some t → vw_rebalance_timeout_ms v = Some t;
  ag_names l : sf_subscribed_topic_names sent = Some l → vw_subscribed_topic_names v = Some l;
  ag_regex r : sf_regex sent = Some r → vw_regex v = Some r;
  ag_assignor a : sf_server_assignor sent = Some a → vw_server_assignor v = Some a;
  ag_owned m : sf_topic_partitions sent = Some m → vw_topic_partitions v = Some m;
}.

(** The coordinator's view is the member's, except that it may know a pattern
    that the member no longer has. *)
Record current (f : HeartbeatFields) (v : View) : Prop := {
  cu_timeout : vw_rebalance_timeout_ms v = Some (hf_rebalance_timeout_ms f);
  cu_names : vw_subscribed_topic_names v = Some (hf_subscribed_topic_names f);
  cu_regex r : hf_regex f = Some r → vw_regex v = Some r;
  cu_assignor a : hf_server_assignor f = Some a → vw_server_assignor v = Some a;
  cu_owned : vw_topic_partitions v = Some (hf_owned f);
}.

Lemma agree_default v : agree SentFields_default v.
Proof. by split. Qed.

Lemma receive_current f sent v :
  fields_ok f → agree sent v → current f (receive v (build_heartbeat f sent).1).
Proof.
  intros [Ht Hr] [A1 A2 A3 A4 A5].
  assert (hf_rebalance_timeout_ms f =? -1 = false) as Ht1 by lia.
  split; unfold build_heartbeat, receive; simpl; destruct (hf_joining f); simpl.
  all: try (intros a Ha; rewrite Ha in *; simpl).
  all: repeat (case_bool_decide; simpl); rewrite ?Ht1; simpl; try done; auto; try congruence.
Qed.

(** After a recorded heartbeat the view still agrees. *)
Lemma receive_agree f sent v :
  fields_ok f → agree sent v → agree (build_heartbeat f sent).2 (receive v (build_heartbeat f sent).1).
Proof.
  intros Hf Hag. destruct (receive_current f sent v Hf Hag) as [C1 C2 C3 C4 C5]. destruct Hag as [A1 A2 A3 A4 A5].
  split; intros a Ha; [revert C1 Ha; clear - A1|revert C2 Ha; clear - A2|revert C3 Ha; clear - A3
    |revert C4 Ha; clear - A4|revert C5 Ha; clear - A5]; unfold build_heartbeat; simpl;
    destruct (hf_joining f); simpl.
  all: repeat (case_bool_decide || case_match; simpl); intros; simplify_eq; auto; try congruence.
Qed.

(** Recorded heartbeats, one after the other. *)
Definition heartbeats (start : SentFields * View) (fs : list HeartbeatFields) : SentFields * View :=
  foldl (λ x f, ((build_heartbeat f x.1).2, receive x.2 (build_heartbeat f x.1).1)) start fs.

Lemma heartbeats_keep (P : SentFields * View → Prop) (ok : HeartbeatFields → Prop) fs start :
  (∀ x f, P x → ok f → P ((build_heartbeat f x.1).2, receive x.2 (build_heartbeat f x.1).1)) →
  Forall ok fs → P start → P (heartbeats start fs).
Proof.
  intros Hstep Hfs. revert start. induction Hfs as [|f fs Hf _ IH]; intros start HP; [done|].
  apply IH. by apply Hstep.
Qed.
End view.

(** ** Runs of the task with its coordinator *)

Section told.
Context {GA : GroupApi} (cf : Config).

(** What the coordinator makes of an await: it takes a heartbeat that it
    answers without an error; with an error it changes nothing, or removes the
    member; a lost exchange may have reached it or not. *)
Definition heard (v : View) (r : request) (ans : answer r) (v' : View) : Prop :=
  match r return answer r → Prop with
  | SendGroupHeartbeat _ request _ => λ ans,
    match ans with
    | Ok response =>
      if ga_error_code response =? 0 then v' = receive v request else v' = v ∨ v' = new_member
    | Err _ => v' = v ∨ v' = receive v request
    end
  | _ => λ _, v' = v
  end ans.

(** What other tasks may do at an await: anything, but the topic ids stay while
    a heartbeat is put together, and a subscription has no empty expression,
    which [subscribe_regex] refuses. *)
Definition meanwhile (r : request) (st : St) (s : Shared) : Prop :=
  (r = Yield → sh_topic_ids s = sh_topic_ids (sh st)) ∧ su_regex (sh_subscription s) ≠ Some "".

Inductive told {A} : View * io A → View * io A → Prop :=
| told_await v r st k ans s v' :
    meanwhile r st s → heard v r ans v' → told (v, Await r st k) (v', k ans s).

(** What happens between a member and its coordinator, outside of listener
    callbacks: a heartbeat with its answer; a member that left or that starts
    over, with a coordinator that removes it now or later; anything else, which
    leaves the record of what was sent alone. *)
Inductive between : St * View → St * View → Prop :=
| a_heartbeat kind st v r st' v' :
    kind ≠ KindLeave → rtc told (v, heartbeat_exchange cf kind st) (v', Done r st') →
    between (st, v) (st', v')
| starts_over st v st' v' :
    rtc told (v, join_again st) (v', Done () st') → between (st, v) (st', v')
| removed st v : me_sent_heartbeat_fields (mem st) = SentFields_default →
    between (st, v) (st, new_member)
| otherwise st st' v :
    me_sent_heartbeat_fields (mem st') = me_sent_heartbeat_fields (mem st) →
    between (st, v) (st', v).

(** The coordinator knows the member of [st]: its subscription and assignment
    as they are, and its pattern if it has one. *)
Record informed (st : St) (v : View) : Prop := {
  in_timeout : vw_rebalance_timeout_ms v = Some (cf_max_poll_interval_ms cf);
  in_names : vw_subscribed_topic_names v =
    Some (match su_regex (sh_subscription (sh st)) with Some _ => [] | None => su_topics (sh_subscription (sh st)) end);
  in_regex r : su_regex (sh_subscription (sh st)) = Some r → vw_regex v = Some r;
  in_assignor a : cf_server_assignor cf = Some a → vw_server_assignor v = Some a;
  in_owned : vw_topic_partitions v = Some (owned_by_topic_id (sh_assigned (sh st)) (sh_topic_ids (sh st)));
}.

(** The awaits of a heartbeat: [I] holds when the request goes out, and [Q] at
    the end. *)
Fixpoint tells {A} (v : View) (m : io A) (I : View → ConsumerGroupHeartbeatRequest → St → Prop)
    (Q : View → St → Prop) : Prop :=
  match m with
  | Done _ st => Q v st
  | Stuck _ => True
  | Await r st k =>
    match r with SendGroupHeartbeat _ request _ => I v request st | _ => True end ∧
    ∀ ans s v', meanwhile r st s → heard v r ans v' → tells v' (k ans s) I Q
  end.

Lemma tells_told {A} v (m : io A) v' m' I Q : rtc told (v, m) (v', m') → tells v m I Q → tells v' m' I Q.
Proof.
  intros Hr. remember (v, m) as x. remember (v', m') as y. revert v m Heqx.
  induction Hr as [x|x y z [w r st k ans s w' Hs Hh] Hr IH]; intros v m Hx; subst; simplify_eq; [done|].
  intros [_ Hk]. eapply IH; [done|done|]. by apply Hk.
Qed.

Lemma told_step {A} v (m : io A) r st k ans s v' y :
  m = Await r st k → meanwhile r st s → heard v r ans v' → rtc told (v', k ans s) y → rtc told (v, m) y.
Proof. intros -> Hs Hh. apply rtc_l. by constructor. Qed.

Lemma exchange_tells kind st v :
  0 ≤ cf_max_poll_interval_ms cf → kind ≠ KindLeave → agree (me_sent_heartbeat_fields (mem st)) v →
  tells v (heartbeat_exchange cf kind st) (λ v request st1, informed st1 (receive v request))
    (λ v' st', agree (me_sent_heartbeat_fields (mem st')) v').
Proof.
  intros Ht Hk Hag. unfold heartbeat_exchange, prepare_heartbeat, heartbeat_fields, lock.
  unfold mbind, task_bind. cbn [io_bind get await].
  split; [done|]. intros [] s1 v1 [Hids1 _] ->. cbn [io_bind get await mem sh].
  rewrite (bool_decide_false (kind = KindLeave)) by done. cbn [io_bind get await mem sh].
  split; [done|]. intros [] s2 v2 [Hids2 Hre] ->. cbn [io_bind get await mem sh].
  specialize (Hids2 eq_refl). simpl in Hids2.
  match goal with |- context [build_heartbeat ?f _] => set (f0 := f) end.
  assert (fields_ok f0) as Hf by (by split).
  pose proof (receive_current f0 _ v Hf Hag) as Hcu. pose proof (receive_agree f0 _ v Hf Hag) as Hag2.
  destruct (build_heartbeat f0 (me_sent_heartbeat_fields (mem st))) as [request sent'].
  cbn [io_bind put_member coordinator_id get await mem sh mret task_ret fst snd] in *. split.
  - destruct Hcu as [C1 C2 C3 C4 C5]. split; cbn [mem sh]; [exact C1|exact C2|exact C3|exact C4|].
    rewrite C5. cbn. by rewrite Hids2.
  - intros [response|e] s3 v3 _ Hh; simpl in Hh |- *.
    + destruct (ga_error_code response =? 0); simpl; [by subst|apply agree_default].
    + apply agree_default.
Qed.

Lemma between_agree (Ht : 0 ≤ cf_max_poll_interval_ms cf) x y :
  rtc between x y →
  agree (me_sent_heartbeat_fields (mem x.1)) x.2 → agree (me_sent_heartbeat_fields (mem y.1)) y.2.
Proof.
  induction 1 as [x|x y z Hxy _ IH]; [done|]. intros Hag. apply IH.
  destruct Hxy as [kind st v r st' v' Hk Hr|st v st' v' Hr|st v Hs|st st' v Hs]; simpl in *.
  - exact (tells_told _ _ _ _ _ _ Hr (exchange_tells kind st v Ht Hk Hag)).
  - refine (tells_told _ _ _ _ (λ _ _ _, True)
      (λ v' st', agree (me_sent_heartbeat_fields (mem st')) v') Hr _). apply agree_default.
  - rewrite Hs. apply agree_default.
  - by rewrite Hs.
Qed.
End told.

(** C13: the heartbeats of a KIP-848 member, which carry only what changed,
    keep the coordinator informed outside of listener callbacks: through
    answers, errors, lost requests, lost answers, removals and rejoins, and
    whatever other tasks do to the subscription and the assignment at the
    awaits, each heartbeat that goes out gives the coordinator exactly the
    timeout, the topic names, the assignor and the owned partitions of the
    member at that moment, and its pattern if it has one. *)
Theorem group_heartbeat_in_sync {GA : GroupApi} cf kind st0 st v v' node request needs_regex st' k :
  0 ≤ cf_max_poll_interval_ms cf → me_sent_heartbeat_fields (mem st0) = SentFields_default →
  rtc (between cf) (st0, new_member) (st, v) → kind ≠ KindLeave →
  rtc told (v, heartbeat_exchange cf kind st) (v', Await (SendGroupHeartbeat node request needs_regex) st' k) →
  informed cf st' (receive v' request).
Proof.
  intros Ht H0 Hr Hk Htold.
  assert (agree (me_sent_heartbeat_fields (mem st)) v) as Hag.
  { apply (between_agree cf Ht) in Hr; [done|]. simpl. rewrite H0. apply agree_default. }
  exact (proj1 (tells_told _ _ _ _ _ _ Htold (exchange_tells cf kind st v Ht Hk Hag))).
Qed.

Module DemoHeartbeat.
#[local] Existing Instance DemoGroup.api.

Definition fields (names : list string) (regex : option string) : HeartbeatFields :=
  mkHeartbeatFields "g" "m" 1 None None 300 names regex None ∅ false.

Definition config : Config :=
  mkConfig "g" None [Range] Eager ConsumerGroup None 10000 100 100 10 1000 10 Earliest None (mkRetry 5 1 4) false.
Definition start : St := DemoGroup.start [].
End DemoHeartbeat.

(** A heartbeat that is lost, and the one after it. *)
Lemma group_heartbeat_in_sync_witness :
  ∃ st v' node request needs st' k,
    between DemoHeartbeat.config (DemoHeartbeat.start, new_member) (st, new_member) ∧
    rtc told (new_member, heartbeat_exchange DemoHeartbeat.config KindInterval st)
      (v', @Await DemoGroup.api _ (SendGroupHeartbeat node request needs) st' k) ∧
    informed DemoHeartbeat.config st' (receive v' request).
Proof.
  assert (∃ st r, rtc told
    (new_member, heartbeat_exchange DemoHeartbeat.config KindInterval DemoHeartbeat.start)
    (new_member, Done r st) ∧ sh st = sh DemoHeartbeat.start) as (st & r & Hlost & Hst).
  { do 2 eexists. split.
    - do 2 (eapply (told_step _ _ Yield _ _ () (sh DemoHeartbeat.start)); [reflexivity|by split|reflexivity|]).
      eapply (told_step _ _ (SendGroupHeartbeat _ _ _) _ _ (Err ClientError.Disconnected)
        (sh DemoHeartbeat.start)); [reflexivity|by split|by left|]. simpl. apply rtc_refl.
    - reflexivity. }
  assert (∃ node request needs st' k,
    rtc told (new_member, heartbeat_exchange DemoHeartbeat.config KindInterval st)
      (new_member, @Await DemoGroup.api _ (SendGroupHeartbeat node request needs) st' k))
    as (node & request & needs & st' & k & Hr).
  { destruct st as [me s]. simpl in Hst. subst s. do 5 eexists.
    do 2 (eapply (told_step _ _ Yield _ _ () (sh DemoHeartbeat.start)); [reflexivity|by split|reflexivity|]).
    simpl. apply rtc_refl. }
  assert (between DemoHeartbeat.config (DemoHeartbeat.start, new_member) (st, new_member)) as Hb
    by (by eapply a_heartbeat; [|exact Hlost]).
  exists st, new_member, node, request, needs, st', k. split_and!; [exact Hb|exact Hr|].
  refine (group_heartbeat_in_sync DemoHeartbeat.config KindInterval DemoHeartbeat.start st
    new_member new_member node request needs st' k _ _ _ _ Hr); [simpl; lia|done|by apply rtc_once|done].
Defined.

(** Heartbeats of a member that has joined and has no pattern. *)
Definition no_pattern {GA : GroupApi} (f : HeartbeatFields) : Prop := hf_regex f = None ∧ hf_joining f = false.

(** a pattern that is removed while a request fails stays with the
    coordinator. The request carries the empty expression that removes it, but
    it is lost; the error resets the record of what was sent, and a record
    without a pattern equals a member without a pattern, so that no later
    heartbeat removes it until the member joins anew. *)
Theorem removed_pattern_stays {GA : GroupApi} f fs sent v r :
  agree sent v → sf_regex sent = Some r → no_pattern f → Forall no_pattern fs →
  gh_subscribed_topic_regex (build_heartbeat f sent).1 = Some "" ∧
  vw_regex (heartbeats (SentFields_default, v) fs).2 = Some r.
Proof.
  intros Hag Hs [Hr Hj] Hfs. split.
  - unfold build_heartbeat. rewrite Hj, Hr, Hs. done.
  - rewrite <-(ag_regex _ _ Hag r Hs).
    refine (proj2 (heartbeats_keep (λ x, sf_regex x.1 = None ∧ vw_regex x.2 = vw_regex v) _ fs _ _ Hfs _)); [|done].
    intros [sent' w] g [Hs' Hw] [Hg Hgj]; simpl in *. rewrite Hgj, Hg, Hs'. done.
Qed.

Lemma removed_pattern_stays_witness :
  let start := heartbeats (GA := DemoGroup.api) (SentFields_default, new_member) [DemoHeartbeat.fields [] (Some "a.*")] in
  vw_regex (heartbeats (SentFields_default, start.2) (replicate 3 (DemoHeartbeat.fields ["t"] None))).2 = Some "a.*".
Proof.
  intros start.
  refine (proj2 (removed_pattern_stays (DemoHeartbeat.fields ["t"] None)
    (replicate 3 (DemoHeartbeat.fields ["t"] None)) start.1 start.2 "a.*" _ _ _ _)).
  - split; intros a Ha; vm_compute in Ha |- *; congruence.
  - vm_compute. reflexivity.
  - by split.
  - repeat constructor; done.
Defined.

(** a heartbeat that goes out while a listener callback runs is not
    recorded. If the subscription changes during the callback and changes
    back, the coordinator keeps the topics of that heartbeat, and no later
    heartbeat corrects them. *)
Theorem callback_heartbeat_not_recorded {GA : GroupApi} f during fs sent v :
  hf_joining during = false →
  hf_subscribed_topic_names during ≠ hf_subscribed_topic_names f →
  sf_subscribed_topic_names sent = Some (hf_subscribed_topic_names f) →
  Forall (λ g, hf_joining g = false ∧ hf_subscribed_topic_names g = hf_subscribed_topic_names f) fs →
  vw_subscribed_topic_names (heartbeats (sent, receive v (build_heartbeat during sent).1) fs).2 =
    Some (hf_subscribed_topic_names during).
Proof.
  intros Hj Hne Hs Hfs.
  refine (proj2 (heartbeats_keep (λ x, sf_subscribed_topic_names x.1 = Some (hf_subscribed_topic_names f) ∧
    vw_subscribed_topic_names x.2 = Some (hf_subscribed_topic_names during)) _ fs _ _ Hfs _)).
  - intros [sent' w] g [Hs' Hw] [Hgj Hg]; simpl in *. by rewrite Hgj, Hg, Hs', bool_decide_true.
  - simpl. split; [done|]. by rewrite Hj, Hs, bool_decide_false by congruence.
Qed.

Lemma callback_heartbeat_not_recorded_witness :
  let start := heartbeats (GA := DemoGroup.api) (SentFields_default, new_member) [DemoHeartbeat.fields ["a"] None] in
  let v := receive start.2 (build_heartbeat (DemoHeartbeat.fields ["b"] None) start.1).1 in
  vw_subscribed_topic_names (heartbeats (start.1, v) (replicate 3 (DemoHeartbeat.fields ["a"] None))).2 = Some ["b"].
Proof.
  intros start v.
  apply (callback_heartbeat_not_recorded (DemoHeartbeat.fields ["a"] None) (DemoHeartbeat.fields ["b"] None)).
  - done.
  - done.
  - vm_compute. reflexivity.
  - repeat constructor; done.
Defined.

(** ** A target that is not reconciled *)

Module DemoTarget.
#[local] Existing Instance DemoGroup.api.

Definition config : Config :=
  mkConfig "g" None [Range] Eager ConsumerGroup None 10000 100 100 10 1000 10 Earliest None (mkRetry 5 1 4) false.

(** A member of epoch 0 that knows the id of [t]. *)
Definition start : St :=
  mkSt (mkMember "m" 0 ["t"] 0 1 false "" [] 100 false ["t"] 0 0 0 SentFields_default)
    (set_topic_ids {[ "t" := () ]} (DemoGroup.shared [])).

(** The coordinator sends the target to a member that joins, and nothing to a
    member that has the epoch of its target. *)
Definition heartbeat_answer (request : ConsumerGroupHeartbeatRequest) : ConsumerGroupHeartbeatResponse :=
  mkGroupHeartbeatAnswer 0 (Some "m") 1 5 (if gh_member_epoch request =? 0 then Some [((), [0])] else None).

(** The first [OffsetFetch] fails; the heartbeat interval passes. *)
Fixpoint answer_to (r : request) : answer r :=
  match r return answer r with
  | SendGroupHeartbeat _ request _ => Ok (heartbeat_answer request)
  | SendOffsetFetch _ _ => Err ClientError.Disconnected
  | NextGroupEvent _ _ _ => GroupHeartbeat
  | Race r1 r2 => if DemoGroup.second false r1 then inr (answer_to r2) else inl (answer_to r1)
  | r => DemoGroup.answer_to 0 WakeShutdown false r
  end.

Definition oracle (r : request) (st : St) : answer r * Shared := (answer_to r, DemoGroup.after false r (sh st)).

(** The coordinator that answers heartbeats as above. *)
Definition target_law : broker_law := λ r,
  match r return answer r → Prop with
  | SendGroupHeartbeat _ request _ => λ ans, ans = Ok (heartbeat_answer request)
  | _ => λ _, True
  end.

Lemma target_oracle_law r st : law target_law r st (oracle r st).1 (oracle r st).2.
Proof.
  assert (∀ r, target_law r (answer_to r)) as Hans by (by intros []).
  unfold oracle, fst, snd.
  induction r as [| | | | | | | | | | | | | | | | | | | | | | |r1 IH1 r2 IH2];
    try (hnf; split; [apply Hans|]); simpl; try reflexivity; try (left; reflexivity); try apply DemoGroup.wait_env.
  destruct (DemoGroup.second false r1); assumption.
Qed.
End DemoTarget.

(** A coordinator that has nothing new for the member. *)
Definition no_target {GA : GroupApi} : broker_law := λ r,
  match r return answer r → Prop with
  | SendGroupHeartbeat _ _ _ => λ ans,
    match ans with Ok a => ga_error_code a = 0 ∧ ga_assignment a = None | Err _ => False end
  | _ => λ _, True
  end.

Section untargeted.
Context {GA : GroupApi} (cf : Config) (fuel : nat).

Notation WP m Q := (wp (law no_target) (λ _, True) m Q).

Lemma wp_calm {A} M `{!PreOrder M} (m : task A) st Q :
  quiet_task M m → (∀ a st', env_step (sh st) (sh st') → Q a st') → WP (m st) Q.
Proof.
  intros Hm HQ. eapply wp_mono; [|by apply (quiet_wp M no_target (λ _, True) _ _ _ (Hm st))].
  intros a st' [_ Hs]. by apply HQ.
Qed.

Lemma wp_lock st (Q : unit → St → Prop) :
  (∀ s, env_step (sh st) s → Q () (mkSt (mem st) s)) → WP (lock st) Q.
Proof. intros HQ. split; [done|]. intros [] s [_ Hs]. by apply HQ. Qed.

Lemma untargeted_answer a interval assigned st :
  ga_assignment a = None → sh_assigned (sh st) = assigned →
  WP ((publish_member_epoch;; handle_assignment cf fuel a interval) st)
    (λ r st', sh_assigned (sh st') = assigned ∧ sh_rebalance_pending (sh st') = false ∧ r = GroupInterval interval).
Proof.
  intros Ha Hst. unfold publish_member_epoch, handle_assignment, known_names, set_generation. wp_pure.
  apply wp_lock. intros s1 Hs1. wp_pure.
  apply wp_lock. intros s2 Hs2. wp_pure. unfold assignment_partitions. rewrite Ha. simpl. wp_pure.
  split_and!; [|done..]. simpl. rewrite (es_assigned _ _ Hs2). simpl.
  destruct (bool_decide _); simpl; by rewrite (es_assigned _ _ Hs1).
Qed.

Lemma untargeted_heartbeat st :
  WP (group_heartbeat_once cf fuel st) (λ r st', sh_assigned (sh st') = sh_assigned (sh st) ∧
    sh_rebalance_pending (sh st') = false ∧ ∃ interval, r = GroupInterval interval).
Proof.
  unfold group_heartbeat_once, heartbeat_exchange. wp_pure.
  apply (wp_calm same_generation); [apply prepare_heartbeat_quiet|]. intros [[node request] needs] st1 H1.
  wp_pure. split; [done|]. intros [a|e] s [Hans H2]; [|done]. destruct Hans as [Hcode Hasg]. simpl.
  wp_pure. rewrite Hcode. wp_pure. simpl.
  assert (∀ me, WP ((publish_member_epoch;; handle_assignment cf fuel a
      (heartbeat_interval (ga_heartbeat_interval_ms a) (cf_heartbeat_interval cf))) (mkSt me s))
    (λ r st', sh_assigned (sh st') = sh_assigned (sh st) ∧ sh_rebalance_pending (sh st') = false ∧
       ∃ interval, r = GroupInterval interval)) as Htail.
  { intros me. eapply wp_mono; [|eapply untargeted_answer; [done|reflexivity]].
    intros r st' (-> & ? & ->). simpl. rewrite (es_assigned _ _ H2), (es_assigned _ _ H1). eauto. }
  rewrite Hcode. change (heartbeat_action 0) with ActionOk. wp_pure.
  destruct (ga_member_id a) as [id|]; [destruct (bool_decide (id = ""))|]; wp_pure; apply Htail.
Qed.
End untargeted.

(** a target that fails to be reconciled is dropped. In this run the
    coordinator answers the join of a KIP-848 member with one partition, and
    one [OffsetFetch] loses its connection: the member then waits for its next
    heartbeat in epoch 1 with no partition and no rebalance pending. A
    coordinator that has nothing new for the member answers without an
    assignment, and no such answer makes the member take the target. *)
Theorem failed_target_is_dropped :
  (∃ st, visible (law DemoTarget.target_law)
     (@group_run DemoGroup.api DemoTarget.config 40 DemoTarget.start) st ∧
   me_member_epoch (mem st) = 1 ∧ sh_assigned (sh st) = [] ∧ sh_rebalance_pending (sh st) = false ∧
   sh_poll_error (sh st) = None) ∧
  ∀ {GA : GroupApi} cf fuel st r st',
    ends (law no_target) (group_heartbeat_once cf fuel st) r st' →
    sh_assigned (sh st') = sh_assigned (sh st) ∧ sh_rebalance_pending (sh st') = false ∧
    ∃ interval, r = GroupInterval interval.
Proof.
  split.
  - exists (top_state (follow DemoTarget.oracle 14 (@group_run DemoGroup.api DemoTarget.config 40 DemoTarget.start))).
    split.
    + apply follow_visible; [apply DemoTarget.target_oracle_law|vm_compute; reflexivity].
    + vm_compute. done.
  - intros GA cf fuel st r st'. exact (wp_ends _ _ _ _ r st' (untargeted_heartbeat cf fuel st)).
Qed.
