(* ===== verification/TxnRetry.v ===== *)
(** * Retry decisions for the transaction coordinator

    [crates/client-producer/src/error_class.rs] and [txn_retry.rs]: the retry
    class of a Kafka error code and the pure [decide_*] functions of the
    retry loops; and from [producer.rs] the functions that read the deciding
    code out of an answer and classify a transport failure. Error codes are
    [i16] values kept as [Z]. *)

From S2P Require Import Prelude CoordRecord Errors Text.

(** A [match] on integer literals of the source is membership in the list of
    literals of each arm, tried in order. *)
Definition code_in (code : Z) (codes : list Z) : bool := bool_decide (code ∈ codes).

(** ** Error classes *)

Inductive ErrorClass : Type := ClassNone | InvalidMetadata | Retriable | NotRetriable.

#[global] Instance ErrorClass_eq_dec : EqDecision ErrorClass.
Proof. solve_decision. Defined.

Definition is_retriable (c : ErrorClass) : bool :=
  match c with InvalidMetadata | Retriable => true | _ => false end.

Definition class (code : Z) : ErrorClass :=
  if code =? 0 then ClassNone
  else if code_in code [3; 5; 6; 9; 13; 56; 72; 74; 80; 83; 84; 100; 103] then InvalidMetadata
  else if code_in code [2; 7; 14; 15; 16; 19; 20; 41; 51; 70; 71; 75; 78; 88; 89; 106; 122; 123; 133]
  then Retriable
  else NotRetriable.

(** ** Error codes *)

Definition NONE : Z := 0.
Definition REQUEST_TIMED_OUT : Z := 7.
Definition COORDINATOR_NOT_AVAILABLE : Z := 15.
Definition NOT_COORDINATOR : Z := 16.
Definition ILLEGAL_GENERATION : Z := 22.
Definition UNKNOWN_MEMBER_ID : Z := 25.
Definition GROUP_AUTHORIZATION_FAILED : Z := 30.
Definition CLUSTER_AUTHORIZATION_FAILED : Z := 31.
Definition INVALID_PRODUCER_EPOCH : Z := 47.
Definition INVALID_TXN_STATE : Z := 48.
Definition INVALID_PRODUCER_ID_MAPPING : Z := 49.
Definition CONCURRENT_TRANSACTIONS : Z := 51.
Definition TRANSACTIONAL_ID_AUTHORIZATION_FAILED : Z := 53.
Definition UNKNOWN_PRODUCER_ID : Z := 59.
Definition GROUP_ID_NOT_FOUND : Z := 69.
Definition FENCED_INSTANCE_ID : Z := 82.
Definition PRODUCER_FENCED : Z := 90.
Definition STALE_MEMBER_EPOCH : Z := 113.
Definition TRANSACTION_ABORTABLE : Z := 120.

(** ** Decisions *)

Inductive CoordinatorAttempt : Type := Answered (code : Z) | Lost.

#[global] Instance CoordinatorAttempt_eq_dec : EqDecision CoordinatorAttempt.
Proof. solve_decision. Defined.

Inductive EndTxnDecision : Type :=
| Complete
| EndRetry (rediscover : bool)
| EndFenced
| EndConcurrentTransactions
| EndAbortable (code : Z)
| EndFatal (code : Z)
| TimedOut (code : Z)
| OutcomeUnknown.

#[global] Instance EndTxnDecision_eq_dec : EqDecision EndTxnDecision.
Proof. solve_decision. Defined.

Definition decide_end_txn (attempt : CoordinatorAttempt) (earlier_attempt_lost committed : bool)
    : EndTxnDecision :=
  match attempt with
  | Lost => EndRetry true
  | Answered code =>
    if code =? NONE then Complete
    else if code_in code [COORDINATOR_NOT_AVAILABLE; NOT_COORDINATOR] then EndRetry true
    else if is_retriable (class code) then EndRetry false
    else if earlier_attempt_lost then OutcomeUnknown
    else if code_in code [INVALID_PRODUCER_EPOCH; PRODUCER_FENCED] then EndFenced
    else if (code =? TRANSACTION_ABORTABLE) && negb committed then EndFatal TRANSACTION_ABORTABLE
    else if code_in code [UNKNOWN_PRODUCER_ID; TRANSACTION_ABORTABLE] then EndAbortable code
    else EndFatal code
  end.

Definition decide_end_txn_at_deadline (last : CoordinatorAttempt) (earlier_attempt_lost : bool)
    : EndTxnDecision :=
  match last with
  | Answered code =>
    if (code =? CONCURRENT_TRANSACTIONS) && negb earlier_attempt_lost
    then EndConcurrentTransactions
    else if negb earlier_attempt_lost then TimedOut code
    else OutcomeUnknown
  | Lost => OutcomeUnknown
  end.

Inductive AddPartitionsDecision : Type :=
| Added
| AddRetry (rediscover : bool)
| AddFenced
| AddAbortable (code : Z)
| AddFatal (code : Z).

Definition decide_add_partitions (attempt : CoordinatorAttempt) : AddPartitionsDecision :=
  match attempt with
  | Lost => AddRetry true
  | Answered code =>
    if code =? NONE then Added
    else if code_in code [COORDINATOR_NOT_AVAILABLE; NOT_COORDINATOR] then AddRetry true
    else if is_retriable (class code) then AddRetry false
    else if code_in code [INVALID_PRODUCER_EPOCH; PRODUCER_FENCED] then AddFenced
    else if code_in code [TRANSACTIONAL_ID_AUTHORIZATION_FAILED; INVALID_TXN_STATE;
                          INVALID_PRODUCER_ID_MAPPING]
    then AddFatal code
    else AddAbortable code
  end.

Inductive TxnRequestDecision : Type :=
| Done
| ReqRetry (rediscover : bool)
| ReqFenced
| ReqAbortable (code : Z)
| ReqFatal (code : Z).

#[global] Instance TxnRequestDecision_eq_dec : EqDecision TxnRequestDecision.
Proof. solve_decision. Defined.

Definition decide_add_offsets_to_txn (attempt : CoordinatorAttempt) : TxnRequestDecision :=
  match attempt with
  | Lost => ReqRetry true
  | Answered code =>
    if code =? NONE then Done
    else if code_in code [COORDINATOR_NOT_AVAILABLE; NOT_COORDINATOR] then ReqRetry true
    else if is_retriable (class code) then ReqRetry false
    else if code_in code [INVALID_PRODUCER_EPOCH; PRODUCER_FENCED] then ReqFenced
    else if code_in code [UNKNOWN_PRODUCER_ID; GROUP_AUTHORIZATION_FAILED; TRANSACTION_ABORTABLE]
    then ReqAbortable code
    else ReqFatal code
  end.

Definition decide_txn_offset_commit (attempt : CoordinatorAttempt) : TxnRequestDecision :=
  match attempt with
  | Lost => ReqRetry true
  | Answered code =>
    if code =? NONE then Done
    else if code_in code [COORDINATOR_NOT_AVAILABLE; NOT_COORDINATOR; REQUEST_TIMED_OUT]
    then ReqRetry true
    else if is_retriable (class code) then ReqRetry false
    else if code_in code [INVALID_PRODUCER_EPOCH; PRODUCER_FENCED] then ReqFenced
    else if code_in code [GROUP_AUTHORIZATION_FAILED; FENCED_INSTANCE_ID; TRANSACTION_ABORTABLE;
                          UNKNOWN_MEMBER_ID; ILLEGAL_GENERATION; GROUP_ID_NOT_FOUND;
                          STALE_MEMBER_EPOCH]
    then ReqAbortable code
    else ReqFatal code
  end.

Definition decide_init_producer_id (attempt : CoordinatorAttempt) : TxnRequestDecision :=
  match attempt with
  | Lost => ReqRetry true
  | Answered code =>
    if code =? NONE then Done
    else if code_in code [COORDINATOR_NOT_AVAILABLE; NOT_COORDINATOR] then ReqRetry true
    else if is_retriable (class code) then ReqRetry false
    else if code_in code [INVALID_PRODUCER_EPOCH; PRODUCER_FENCED] then ReqFenced
    else if code_in code [TRANSACTIONAL_ID_AUTHORIZATION_FAILED; CLUSTER_AUTHORIZATION_FAILED;
                          TRANSACTION_ABORTABLE]
    then ReqAbortable code
    else ReqFatal code
  end.

Inductive LookupRefusal : Type := RefusedAbortable (code : Z) | RefusedFatal (code : Z).

Inductive FindCoordinatorDecision : Type :=
| Found
| FindRetry
| Refused_ (refusal : LookupRefusal).

Definition decide_find_coordinator (attempt : CoordinatorAttempt) : FindCoordinatorDecision :=
  match attempt with
  | Lost => FindRetry
  | Answered code =>
    if code =? NONE then Found
    else if is_retriable (class code) then FindRetry
    else if code_in code [GROUP_AUTHORIZATION_FAILED; TRANSACTION_ABORTABLE]
    then Refused_ (RefusedAbortable code)
    else Refused_ (RefusedFatal code)
  end.

Definition decide_end_txn_after_refused_lookup (refusal : LookupRefusal)
    (earlier_attempt_lost committed : bool) : EndTxnDecision :=
  match refusal with
  | RefusedFatal code => EndFatal code
  | RefusedAbortable code =>
    if negb committed then EndRetry true
    else if earlier_attempt_lost then OutcomeUnknown
    else EndAbortable code
  end.

(** ** Reading answers

    The rows of an answer that the producer reads. *)

Record CoordinatorRow : Type := mkCoordinatorRow {
  row_error_code : Z; row_host : string; row_port : Z
}.
Record FindCoordinatorResponse : Type := mkFindCoordinatorResponse {
  fc_error_code : Z; fc_host : string; fc_port : Z; coordinators : list CoordinatorRow
}.

Definition host_port (host : string) (port : Z) : string := host +:+ ":" +:+ fmt_int port.

Definition coordinator_answer (r : FindCoordinatorResponse) : Z * string :=
  match head (coordinators r) with
  | None => (fc_error_code r, host_port (fc_host r) (fc_port r))
  | Some row => (row_error_code row, host_port (row_host row) (row_port row))
  end.

(** The partition codes of the topics of an [AddPartitionsToTxn] answer, at
    versions up to 3 and from 4 on. *)
Record AddPartitionsToTxnResponse : Type := mkAddPartitionsToTxnResponse {
  ap_error_code : Z;
  results_by_topic_v3_and_below : list (list Z);
  results_by_transaction : list (list (list Z))
}.

Definition add_partitions_error_code (r : AddPartitionsToTxnResponse) : Z :=
  let topic :=
    match head (results_by_topic_v3_and_below r) with
    | Some topic => Some topic
    | None => transaction ← head (results_by_transaction r); head transaction
    end in
  default (ap_error_code r) (topic ≫= head).

Definition lookup_may_succeed_later (e : ClientError.client_error) : bool :=
  match e with
  | ClientError.Disconnected | ClientError.Timeout _ | ClientError.Io _
  | ClientError.Connect _ _ | ClientError.Tls _ _ | ClientError.Sasl _ _ => true
  | _ => false
  end.

Definition request_may_have_reached_the_broker (e : ClientError.client_error) : bool :=
  match e with
  | ClientError.Disconnected | ClientError.Timeout _ | ClientError.Io _ => true
  | _ => false
  end.

Definition get_or_insert (o : option Z) (code : Z) : option Z := Some (default code o).

(** The loop of [txn_offset_commit_error_code] over the failed rows. *)
Fixpoint txn_offset_commit_loop (codes : list Z) (rediscover resend : option Z) : Z :=
  match codes with
  | [] => default 0 (match rediscover with Some c => Some c | None => resend end)
  | code :: codes =>
    match decide_txn_offset_commit (Answered code) with
    | ReqRetry true => txn_offset_commit_loop codes (get_or_insert rediscover code) resend
    | ReqRetry false => txn_offset_commit_loop codes rediscover (get_or_insert resend code)
    | _ => code
    end
  end.

(** The codes of the partitions, topic by topic. *)
Definition txn_offset_commit_error_code (topics : list (list Z)) : Z :=
  txn_offset_commit_loop (filter (λ code, code ≠ 0) (concat topics)) None None.

(** ** The rules the handlers share *)

Lemma code_in_spec code codes : code_in code codes = true ↔ code ∈ codes.
Proof. unfold code_in. apply bool_decide_eq_true. Qed.

(** [case_code] splits the literal tests of the decisions and turns the
    positive ones into equalities. *)
Ltac case_code :=
  repeat match goal with
  | |- context [if ?c =? ?d then _ else _] => destruct (Z.eqb_spec c d); subst
  | |- context [if code_in ?c ?l then _ else _] =>
    let E := fresh "Hin" in destruct (code_in c l) eqn:E;
    [apply code_in_spec in E | apply not_true_iff_false in E; rewrite code_in_spec in E]
  | |- context [if ?b then _ else _] => let E := fresh "Hb" in destruct b eqn:E
  end.

(** The codes every handler treats alike. *)
Definition retried (attempt : CoordinatorAttempt) : Prop :=
  match attempt with Lost => True | Answered code => is_retriable (class code) = true end.
Definition fences (attempt : CoordinatorAttempt) : Prop :=
  attempt = Answered INVALID_PRODUCER_EPOCH ∨ attempt = Answered PRODUCER_FENCED.

Lemma class_zero : is_retriable (class 0) = false.
Proof. reflexivity. Qed.

Lemma rediscover_retriable code :
  code ∈ [COORDINATOR_NOT_AVAILABLE; NOT_COORDINATOR; REQUEST_TIMED_OUT] →
  is_retriable (class code) = true ∧ code ≠ 0.
Proof. intros H. repeat (apply elem_of_cons in H as [->|H]; [done|]). by apply elem_of_nil in H. Qed.

Lemma rediscover_retriable2 code :
  code ∈ [COORDINATOR_NOT_AVAILABLE; NOT_COORDINATOR] →
  is_retriable (class code) = true ∧ code ≠ 0.
Proof.
  intros H. apply rediscover_retriable. repeat (apply elem_of_cons in H as [->|H]; [set_solver|]).
  by apply elem_of_nil in H.
Qed.

Lemma fence_retriable code :
  code ∈ [INVALID_PRODUCER_EPOCH; PRODUCER_FENCED] → is_retriable (class code) = false ∧ code ≠ 0.
Proof. intros H. repeat (apply elem_of_cons in H as [->|H]; [done|]). by apply elem_of_nil in H. Qed.

(** [decide_inv] closes the branches of a rule on the shared codes. *)
Ltac code_facts :=
  repeat match goal with
  | H : ?c ∈ [COORDINATOR_NOT_AVAILABLE; NOT_COORDINATOR] |- _ =>
    apply rediscover_retriable2 in H as [? ?]
  | H : ?c ∈ [COORDINATOR_NOT_AVAILABLE; NOT_COORDINATOR; REQUEST_TIMED_OUT] |- _ =>
    apply rediscover_retriable in H as [? ?]
  end.

Lemma fences_answered code :
  fences (Answered code) ↔ code ∈ [INVALID_PRODUCER_EPOCH; PRODUCER_FENCED].
Proof.
  unfold fences. rewrite !elem_of_cons, elem_of_nil. naive_solver.
Qed.

Lemma fences_not_retried attempt : fences attempt → ¬ retried attempt.
Proof. intros [-> | ->]; vm_compute; congruence. Qed.

(** ** One [EndTxn] attempt *)

Lemma end_complete attempt lost committed :
  decide_end_txn attempt lost committed = Complete ↔ attempt = Answered NONE.
Proof.
  destruct attempt as [code|]; [|done]. unfold decide_end_txn. case_code; naive_solver.
Qed.

Lemma end_retry attempt lost committed :
  (∃ r, decide_end_txn attempt lost committed = EndRetry r) ↔ retried attempt.
Proof.
  destruct attempt as [code|]; [|split; [done|by exists true]].
  unfold decide_end_txn, retried, NONE. case_code; code_facts; rewrite ?class_zero;
    split; intros Hd; try done; try (by destruct Hd); eauto; congruence.
Qed.

Lemma end_after_loss attempt committed :
  let d := decide_end_txn attempt true committed in
  d = Complete ∨ (∃ r, d = EndRetry r) ∨ d = OutcomeUnknown.
Proof.
  destruct attempt as [code|]; simpl; [|eauto]. case_code; eauto.
Qed.

Lemma end_without_loss attempt committed :
  let d := decide_end_txn attempt false committed in
  d ≠ OutcomeUnknown ∧ (d = EndFenced ↔ fences attempt).
Proof.
  destruct attempt as [code|]; simpl; [|split; [done|split; [done|by intros [?|?]]]].
  rewrite fences_answered. unfold NONE. case_code; (split; [done|]); split; try done;
    intros Hf; code_facts; pose proof (fence_retriable _ Hf) as [? ?]; congruence.
Qed.

Lemma end_abort_not_abortable attempt lost :
  decide_end_txn attempt lost false ≠ EndAbortable TRANSACTION_ABORTABLE.
Proof.
  destruct attempt as [code|]; [|done]. unfold decide_end_txn. case_code; try done.
  intros [= ->]. by rewrite Z.eqb_refl in Hb1.
Qed.

(** what one [EndTxn] attempt means. [NONE] and only [NONE] completes the
    transaction; a loss in transport and exactly the retriable codes send
    the request again, and a loss always finds the coordinator again; once an
    earlier attempt was lost, no answer but [NONE] is taken as the outcome;
    while no attempt was lost the outcome is never unknown, the two epoch
    codes fence, and an abort is never told to abort again. *)
Theorem decide_end_txn_spec attempt lost committed :
  let d := decide_end_txn attempt lost committed in
  (d = Complete ↔ attempt = Answered NONE) ∧
  ((∃ r, d = EndRetry r) ↔ retried attempt) ∧
  (attempt = Lost → d = EndRetry true) ∧
  (lost = true → d = Complete ∨ (∃ r, d = EndRetry r) ∨ d = OutcomeUnknown) ∧
  (lost = false → d ≠ OutcomeUnknown ∧ (d = EndFenced ↔ fences attempt)) ∧
  (committed = false → d ≠ EndAbortable TRANSACTION_ABORTABLE).
Proof.
  split_and!; [apply end_complete|apply end_retry
    |by intros ->|intros ->; apply end_after_loss|intros ->; apply end_without_loss
    |intros ->; apply end_abort_not_abortable].
Qed.

(** ** One decision for a whole [TxnOffsetCommit] answer *)

#[local] Arguments decide_txn_offset_commit : simpl never.

Definition commit_retry (code : Z) : option bool :=
  match decide_txn_offset_commit (Answered code) with
  | ReqRetry rediscover => Some rediscover
  | _ => None
  end.

Lemma commit_retry_zero : commit_retry 0 = None.
Proof. reflexivity. Qed.

Lemma commit_loop_final codes code pre post rediscover resend :
  codes = pre ++ code :: post → Forall (λ c, is_Some (commit_retry c)) pre →
  commit_retry code = None →
  txn_offset_commit_loop codes rediscover resend = code.
Proof.
  intros -> Hpre Hc. revert rediscover resend.
  induction Hpre as [|c pre [r Hr] Hpre IH]; intros rediscover resend; simpl.
  - unfold commit_retry in Hc. by destruct (decide_txn_offset_commit (Answered code)).
  - unfold commit_retry in Hr.
    destruct (decide_txn_offset_commit (Answered c)) as [|b| | |]; try done. destruct b; apply IH.
Qed.

(** The loop on rows that are all retried gives the first row that asks for
    the coordinator, or else the first row. *)
Lemma commit_loop_retry codes rediscover resend :
  Forall (λ c, is_Some (commit_retry c)) codes →
  txn_offset_commit_loop codes rediscover resend =
  default 0 (match rediscover with
             | Some c => Some c
             | None => match list_find (λ c, commit_retry c = Some true) codes with
                       | Some (_, c) => Some c
                       | None => match resend with Some c => Some c | None => head codes end
                       end
             end).
Proof.
  intros Hall. revert rediscover resend.
  induction Hall as [|c codes [r Hr] Hall IH]; intros rediscover resend; simpl.
  { by destruct rediscover, resend. }
  pose proof Hr as Hr'. unfold commit_retry in Hr'.
  destruct (decide_txn_offset_commit (Answered c)) as [|b| | |] eqn:E; try done.
  injection Hr' as <-. rewrite Hr. destruct b; rewrite IH.
  - rewrite decide_True by done. by destruct rediscover.
  - rewrite decide_False by done.
    destruct rediscover; [done|].
    destruct (list_find _ codes) as [[k x]|]; simpl; [done|]. by destruct resend.
Qed.

Lemma split_first {A} (P : A → Prop) `{!∀ x, Decision (P x)} l :
  Exists P l → ∃ pre x post, l = pre ++ x :: post ∧ P x ∧ Forall (λ y, ¬ P y) pre.
Proof.
  induction l as [|x l IH]; intros Hex; [by apply Exists_nil in Hex|].
  destruct (decide (P x)) as [Hx|Hx]; [by exists [], x, l|].
  apply Exists_cons in Hex as [?|Hex]; [done|].
  destruct (IH Hex) as (pre & y & post & -> & Hy & Hpre).
  exists (x :: pre), y, post. auto.
Qed.

(** the code that decides a [TxnOffsetCommit] answer. When every row is
    [NONE] it is [NONE]; when some row carries a code no rule retries, it is
    the first such code, wherever its row is; otherwise it is a failed row's
    code which is retried, and the retry finds the coordinator again exactly
    when some row asks for that. *)
Theorem txn_offset_commit_code_spec topics :
  let rows := filter (λ code, code ≠ 0) (concat topics) in
  let code := txn_offset_commit_error_code topics in
  (rows = [] → decide_txn_offset_commit (Answered code) = Done) ∧
  (Exists (λ c, commit_retry c = None) rows →
     ∃ pre post, rows = pre ++ code :: post ∧ commit_retry code = None ∧
       Forall (λ c, is_Some (commit_retry c)) pre) ∧
  (rows ≠ [] → Forall (λ c, is_Some (commit_retry c)) rows →
     code ∈ rows ∧
     commit_retry code = Some (bool_decide (Exists (λ c, commit_retry c = Some true) rows))).
Proof.
  intros rows code. unfold code, txn_offset_commit_error_code. fold rows. split_and!.
  - by intros ->.
  - intros Hex. destruct (split_first _ _ Hex) as (pre & c & post & Hrows & Hc & Hpre).
    assert (Forall (λ c, is_Some (commit_retry c)) pre) as Hpre'.
    { eapply Forall_impl; [exact Hpre|]. intros y Hy. by apply not_eq_None_Some. }
    rewrite (commit_loop_final rows c pre post) by done. by exists pre, post.
  - intros Hne Hall. rewrite commit_loop_retry by done.
    destruct (list_find _ rows) as [[k c]|] eqn:Hf; simpl.
    + apply list_find_Some in Hf as (Hk & Hc & _).
      assert (c ∈ rows) as Hin by (by eapply list_elem_of_lookup_2).
      split; [done|]. rewrite bool_decide_eq_true_2; [done|].
      apply Exists_exists. by exists c.
    + apply list_find_None in Hf. destruct rows as [|c rows'] eqn:Er; [done|]. simpl.
      split; [left|]. rewrite bool_decide_eq_false_2.
      * apply Forall_cons in Hall as [[b Hb] _]. apply Forall_cons in Hf as [Hnt _].
        rewrite Hb in *. by destruct b.
      * intros Hex. rewrite Exists_exists in Hex. destruct Hex as (x & Hx & Hxt).
        rewrite Forall_forall in Hf. by apply (Hf x).
Qed.
