(* ===== verification/TxnState.v ===== *)
(** * The error slot and the prepared identity of a transaction

    [crates/client-producer/src/transactional.rs]: the transaction states, the
    atomic [TxnErrorSlot] that packs an abortable or fatal error into one
    [i32], and the text form of a prepared transaction. Each operation on the
    atomic is one step; [fetch_update] with a pure closure is one step too. *)

From Stdlib Require Import Ascii.
From S2P Require Import Prelude CoordRecord Errors Text.

(** ** States and errors *)

Inductive TxnState : Type :=
| Uninitialized
| Ready
| InTransaction
| Preparing
| Prepared
| Initializing
| CommittingOrAborting
| StateRecoveryRequired
| StateFenced
| StateFatalError.

#[global] Instance TxnState_eq_dec : EqDecision TxnState.
Proof. solve_decision. Defined.

Inductive AbortableError : Type := AbortableServer (code : Z) | AbortableTimeout.
Inductive FatalError : Type := FatalFenced | FatalServer (code : Z).

#[global] Instance AbortableError_eq_dec : EqDecision AbortableError.
Proof. solve_decision. Defined.
#[global] Instance FatalError_eq_dec : EqDecision FatalError.
Proof. solve_decision. Defined.

Definition FatalError_state (e : FatalError) : TxnState :=
  match e with FatalFenced => StateFenced | FatalServer _ => StateFatalError end.

Definition FatalError_error (e : FatalError) : ProducerError.producer_error :=
  match e with
  | FatalFenced => ProducerError.FencedProducer
  | FatalServer code => ProducerError.FatalTransactionError code
  end.

(** ** The slot *)

Definition NO_TXN_ERROR : Z := i32_min.
Definition ABORTABLE_TIMEOUT : Z := i32_min + 1.
Definition FATAL_FENCED : Z := i32_min + 2.
Definition FATAL_CODE_OFFSET : Z := 0x18000.
Definition FATAL_CODE_MIN : Z := 0x10000.

Definition TxnErrorSlot := Z.
Definition TxnErrorSlot_default : TxnErrorSlot := NO_TXN_ERROR.

Definition is_fatal (value : Z) : bool := (value =? FATAL_FENCED) || (FATAL_CODE_MIN <=? value).

Definition store_abortable (slot : TxnErrorSlot) (value : Z) : TxnErrorSlot :=
  if is_fatal slot then slot else value.

Definition set_abortable (slot : TxnErrorSlot) (code : Z) : TxnErrorSlot :=
  store_abortable slot code.

Definition set_abortable_timeout (slot : TxnErrorSlot) : TxnErrorSlot :=
  store_abortable slot ABORTABLE_TIMEOUT.

Definition set_fatal (slot : TxnErrorSlot) (e : FatalError) : TxnErrorSlot :=
  match e with FatalFenced => FATAL_FENCED | FatalServer code => code + FATAL_CODE_OFFSET end.

Definition abortable (slot : TxnErrorSlot) : option AbortableError :=
  if slot =? ABORTABLE_TIMEOUT then Some AbortableTimeout
  else AbortableServer <$> i16_try_from slot.

Definition fatal (slot : TxnErrorSlot) : option FatalError :=
  if slot =? FATAL_FENCED then Some FatalFenced
  else if FATAL_CODE_MIN <=? slot then FatalServer <$> i16_try_from (slot - FATAL_CODE_OFFSET)
  else None.

Definition clear_abortable (slot : TxnErrorSlot) : TxnErrorSlot :=
  store_abortable slot NO_TXN_ERROR.

(** ** Prepared transactions *)

Record PreparedTransactionState : Type := mkPrepared {
  prepared_producer_id : Z;
  prepared_producer_epoch : Z;
}.

#[global] Instance PreparedTransactionState_eq_dec : EqDecision PreparedTransactionState.
Proof. solve_decision. Defined.

Inductive PreparedTransactionStateParseError : Type := ParseError.

Definition PreparedTransactionState_new (pid epoch : Z)
    : result PreparedTransactionStateParseError PreparedTransactionState :=
  if (pid <? 0) || (epoch <? 0) then Err ParseError else Ok (mkPrepared pid epoch).

Definition has_transaction (p : PreparedTransactionState) : bool := 0 <=? prepared_producer_id p.

Definition PreparedTransactionState_default : PreparedTransactionState := mkPrepared (-1) (-1).

Definition prepared_to_string (p : PreparedTransactionState) : string :=
  if has_transaction p
  then String.append (fmt_int (prepared_producer_id p))
         (String ":" (fmt_int (prepared_producer_epoch p)))
  else "".

Definition prepared_from_str (serialized : string)
    : result PreparedTransactionStateParseError PreparedTransactionState :=
  if bool_decide (serialized = "") then Ok PreparedTransactionState_default
  else
    '(pid, epoch) ← ok_or ParseError (split_once ":" serialized);
    if str_contains ":" epoch then Err ParseError
    else
      pid ← ok_or ParseError (parse_i64 pid);
      epoch ← ok_or ParseError (parse_i16 epoch);
      PreparedTransactionState_new pid epoch.

(** ** The slot as the error state it stands for *)

Inductive error_state : Type := NoError | Abortable (e : AbortableError) | Fatal (e : FatalError).

Inductive slot_write : Type :=
| WriteAbortable (code : Z)
| WriteTimeout
| WriteFatal (e : FatalError)
| WriteClear.

(** A write carries an [i16] code. *)
Definition write_ok (w : slot_write) : Prop :=
  match w with
  | WriteAbortable code | WriteFatal (FatalServer code) => is_i16 code
  | _ => True
  end.

Definition write_slot (slot : TxnErrorSlot) (w : slot_write) : TxnErrorSlot :=
  match w with
  | WriteAbortable code => set_abortable slot code
  | WriteTimeout => set_abortable_timeout slot
  | WriteFatal e => set_fatal slot e
  | WriteClear => clear_abortable slot
  end.

(** The contract: a fatal error is final, an abortable one is replaced by a
    later error and removed by a clear. *)
Definition spec_write (s : error_state) (w : slot_write) : error_state :=
  match s, w with
  | _, WriteFatal e => Fatal e
  | Fatal e, _ => Fatal e
  | _, WriteAbortable code => Abortable (AbortableServer code)
  | _, WriteTimeout => Abortable AbortableTimeout
  | _, WriteClear => NoError
  end.

(** The integer that stands for an error state. *)
Definition slot_of (s : error_state) : TxnErrorSlot :=
  match s with
  | NoError => NO_TXN_ERROR
  | Abortable (AbortableServer code) => code
  | Abortable AbortableTimeout => ABORTABLE_TIMEOUT
  | Fatal FatalFenced => FATAL_FENCED
  | Fatal (FatalServer code) => code + FATAL_CODE_OFFSET
  end.

Definition error_ok (s : error_state) : Prop :=
  match s with
  | Abortable (AbortableServer code) | Fatal (FatalServer code) => is_i16 code
  | _ => True
  end.

Ltac unfold_slot :=
  unfold slot_of, error_ok, write_ok, NO_TXN_ERROR, ABORTABLE_TIMEOUT, FATAL_FENCED,
    FATAL_CODE_OFFSET, FATAL_CODE_MIN in *.

Lemma is_fatal_slot s : error_ok s → is_fatal (slot_of s) = match s with Fatal _ => true | _ => false end.
Proof.
  intros Hs. unfold is_fatal. unfold_slot.
  destruct s as [|[code|]|[|code]]; unfold_ints;
    rewrite ?orb_true_iff, ?orb_false_iff, ?Z.eqb_eq, ?Z.eqb_neq, ?Z.leb_le, ?Z.leb_gt; lia.
Qed.

Lemma write_slot_spec s w :
  error_ok s → write_ok w →
  write_slot (slot_of s) w = slot_of (spec_write s w) ∧ error_ok (spec_write s w).
Proof.
  intros Hs Hw.
  assert (∀ v, store_abortable (slot_of s) v = match s with Fatal _ => slot_of s | _ => v end)
    as Hst by (intros v; unfold store_abortable; rewrite is_fatal_slot by done; by destruct s).
  destruct w; simpl; unfold set_abortable, set_abortable_timeout, clear_abortable, set_fatal;
    rewrite ?Hst; by destruct s as [|[]|[]]; try destruct e.
Qed.

Lemma slot_reads s :
  error_ok s →
  abortable (slot_of s) = match s with Abortable e => Some e | _ => None end ∧
  fatal (slot_of s) = match s with Fatal e => Some e | _ => None end.
Proof.
  intros Hs. unfold abortable, fatal, i16_try_from. unfold_slot.
  destruct s as [|[code|]|[|code]]; unfold_ints; split;
    repeat match goal with
    | |- context [?a =? ?b] => destruct (Z.eqb_spec a b); try lia
    | |- context [?a <=? ?b] => destruct (Z.leb_spec a b); try lia
    | |- context [decide ?P] => destruct (decide P); try (unfold_ints; lia)
    end; simpl; try done; do 2 f_equal; lia.
Qed.

(** C24: the packed slot refines the error state of the transaction. For every
    sequence of concurrent writes by the sender and the coordinator handlers,
    from the empty slot, the two readers return exactly the abortable and the
    fatal error of the contract: the ranges of codes and the sentinels never
    collide, at most one reader returns an error, and a fatal error outlives
    every later abortable error and clear. *)
Theorem slot_refines_contract writes :
  Forall write_ok writes →
  let slot := foldl write_slot TxnErrorSlot_default writes in
  let s := foldl spec_write NoError writes in
  is_i32 slot ∧
  abortable slot = match s with Abortable e => Some e | _ => None end ∧
  fatal slot = match s with Fatal e => Some e | _ => None end ∧
  (∀ e more, fatal slot = Some e → Forall write_ok more →
     Forall (λ w, ∀ e', w ≠ WriteFatal e') more → fatal (foldl write_slot slot more) = Some e).
Proof.
  intros Hw slot s.
  assert (∀ ws t, error_ok t → Forall write_ok ws →
    foldl write_slot (slot_of t) ws = slot_of (foldl spec_write t ws) ∧
    error_ok (foldl spec_write t ws)) as Hrun.
  { induction ws as [|w ws IH]; intros t Ht Hws; simpl; [done|].
    apply Forall_cons in Hws as [Hw1 Hws].
    destruct (write_slot_spec t w Ht Hw1) as [-> Ht']. by apply IH. }
  destruct (Hrun writes NoError I Hw) as [Hslot Hok]. unfold slot, TxnErrorSlot_default.
  change NO_TXN_ERROR with (slot_of NoError). rewrite Hslot. fold s. fold s in Hok.
  destruct (slot_reads s Hok) as [Ha Hf]. split_and!; [|done|done|].
  { destruct s as [|[]|[]]; unfold_slot; unfold_ints; lia. }
  intros e more He Hmore Hnf. rewrite Hf in He. destruct s as [| |e']; simplify_eq.
  destruct (Hrun more (Fatal e) Hok Hmore) as [-> Hok'].
  assert (foldl spec_write (Fatal e) more = Fatal e) as Hstay.
  { clear -Hnf. induction Hnf as [|w ws Hw Hws IH]; simpl; [done|].
    destruct w; try apply IH. by destruct (Hw e0). }
  rewrite Hstay. rewrite Hstay in Hok'. by apply slot_reads in Hok' as [_ ->].
Qed.

Lemma slot_refines_contract_witness :
  fatal (foldl write_slot TxnErrorSlot_default
    [WriteAbortable 47; WriteFatal (FatalServer (-1)); WriteClear; WriteTimeout])
  = Some (FatalServer (-1)).
Proof.
  destruct (slot_refines_contract
    [WriteAbortable 47; WriteFatal (FatalServer (-1)); WriteClear; WriteTimeout])
    as (_ & _ & H & _); [repeat constructor; simpl; ints|exact H].
Defined.

(** ** Prepared transactions in text *)

(** The values [new], [Default] and [from_str] can make. *)
Definition prepared_wf (p : PreparedTransactionState) : Prop :=
  p = PreparedTransactionState_default ∨
  (0 ≤ prepared_producer_id p ≤ i64_max ∧ 0 ≤ prepared_producer_epoch p ≤ i16_max).

Lemma parse_signed_fits fits s z : parse_signed fits s = Some z → ∃ y, fits y = Some z.
Proof.
  assert (∀ (o : option Z) f, (o ≫= f : option Z) = Some z → ∃ y, f y = Some z) as Hb
    by (intros o f H; apply bind_Some in H as (y & _ & H); eauto).
  unfold parse_signed. intros H. repeat case_match; apply Hb in H as [y H]; eauto.
Qed.

Lemma parse_i64_range s z : parse_i64 s = Some z → is_i64 z.
Proof. intros [y H]%parse_signed_fits. unfold i64_try_from in H. case_decide; by simplify_eq. Qed.

Lemma parse_i16_range s z : parse_i16 s = Some z → is_i16 z.
Proof. intros [y H]%parse_signed_fits. unfold i16_try_from in H. case_decide; by simplify_eq. Qed.

Lemma prepared_new_ok pid epoch q :
  PreparedTransactionState_new pid epoch = Ok q ↔ q = mkPrepared pid epoch ∧ 0 ≤ pid ∧ 0 ≤ epoch.
Proof.
  unfold PreparedTransactionState_new.
  destruct (Z.ltb_spec pid 0), (Z.ltb_spec epoch 0); simpl; split; intros; simplify_eq;
    try done; try lia; destruct_and?; by subst.
Qed.

Lemma prepared_print_parse p :
  prepared_wf p → prepared_from_str (prepared_to_string p) = Ok p.
Proof.
  intros [->|[Hp He]]; [reflexivity|].
  unfold prepared_from_str, prepared_to_string, has_transaction.
  rewrite (proj2 (Z.leb_le _ _)) by lia.
  rewrite bool_decide_eq_false_2.
  2: { intros E. by destruct (fmt_int (prepared_producer_id p)). }
  rewrite split_once_app by (apply fmt_int_contains; [simpl; lia|done]). simpl.
  rewrite fmt_int_contains by (simpl; lia || done).
  rewrite parse_fmt_i64 by ints. simpl. rewrite parse_fmt_i16 by ints. simpl.
  apply prepared_new_ok. destruct p. simpl in *. split; [done|lia].
Qed.

Lemma prepared_parse_wf text q :
  prepared_from_str text = Ok q →
  (text = "" ∧ q = PreparedTransactionState_default) ∨
  (text ≠ "" ∧ 0 ≤ prepared_producer_id q ≤ i64_max ∧ 0 ≤ prepared_producer_epoch q ≤ i16_max).
Proof.
  unfold prepared_from_str. case_bool_decide; [intros; simplify_eq; by left|].
  intros Hq. right. split; [done|]. apply bind_ok in Hq as ([a b] & _ & Hq).
  destruct (str_contains ":" b); [done|]. result_inv.
  apply prepared_new_ok in Hq as (-> & ? & ?).
  match goal with
  | H1 : parse_i64 _ = Some ?x, H2 : parse_i16 _ = Some ?y |- _ =>
    apply parse_i64_range in H1; apply parse_i16_range in H2 end. simpl. ints.
Qed.

(** the text of a prepared transaction is a faithful token. Printing and
    parsing gives back the same identity, the empty text stands for no
    transaction, and whatever text parses gives either no transaction or two
    non-negative numbers in the ranges of a producer id and epoch. *)
Theorem prepared_text_roundtrip p text :
  prepared_wf p →
  prepared_from_str (prepared_to_string p) = Ok p ∧
  (prepared_to_string p = "" ↔ has_transaction p = false) ∧
  (∀ q, prepared_from_str text = Ok q → prepared_wf q ∧ (has_transaction q = false ↔ text = "")).
Proof.
  intros Hp. pose proof (prepared_print_parse p Hp) as Hr. split_and!; [done| |].
  - split; intros E.
    + rewrite E in Hr. apply prepared_parse_wf in Hr as [[_ ->]|[? _]]; done.
    + unfold prepared_to_string. by rewrite E.
  - intros q Hq. unfold prepared_wf, has_transaction.
    apply prepared_parse_wf in Hq as [[-> ->]|(Hne & ? & ?)].
    + split; [by left|done].
    + split; [by right|]. rewrite Z.leb_gt. split; [lia|done].
Qed.

Lemma prepared_text_roundtrip_witness :
  prepared_from_str (prepared_to_string (mkPrepared 4242 7)) = Ok (mkPrepared 4242 7) ∧
  prepared_to_string (mkPrepared 4242 7) = "4242:7".
Proof.
  split; [|reflexivity].
  apply (prepared_text_roundtrip (mkPrepared 4242 7) ""). right. simpl. ints.
Defined.
