(* ===== verification/Sender.v ===== *)
(** * The state of the producer sender and its decisions

    [crates/client-producer/src/sender.rs]: the batches the sender holds, the
    state it shares with the [Producer], the verdict on a broker answer, and
    the small operations its cycles are made of. [SenderCycle] composes them.

    The shared state is one [World]: the atomics, maps and locks of
    [SenderConfig], the [PipelineState] of the task, and what the sender did to
    the outside (the replies it sent on the oneshot channels, the buffer memory
    it gave back, the wake-ups of [flush]). An [Instant] is a [Z] in
    nanoseconds; a [HashMap] is a [gmap], and the order of its iterators is the
    class [HashOrder]. [krabka_protocol]'s [Uuid] is a parameter. *)

From S2P Require Import Prelude Bytes Errors Partitioner Accumulator TxnRetry TxnState.

(** ** Wire codes *)

Module codes.
Definition NONE : Z := 0.
Definition MESSAGE_TOO_LARGE : Z := 10.
Definition CLUSTER_AUTHORIZATION_FAILED : Z := 31.
Definition UNSUPPORTED_VERSION : Z := 35.
Definition OUT_OF_ORDER_SEQUENCE_NUMBER : Z := 45.
Definition DUPLICATE_SEQUENCE_NUMBER : Z := 46.
Definition INVALID_PRODUCER_ID_MAPPING : Z := 49.
Definition TRANSACTIONAL_ID_AUTHORIZATION_FAILED : Z := 53.
Definition UNKNOWN_PRODUCER_ID : Z := 59.
Definition PRODUCER_FENCED : Z := 90.
End codes.

Definition BOOTSTRAP_LEADER : Z := -1.
Definition INVALID_OFFSET : Z := -1.
Definition NO_TIMESTAMP : Z := -1.

Definition STATE_ACTIVE : Z := 0.
Definition STATE_FENCED : Z := 1.
Definition STATE_CLOSED : Z := 2.

(** ** Configuration *)

Inductive Acks : Type := AcksZero | AcksOne | AcksAll.

#[global] Instance Acks_eq_dec : EqDecision Acks.
Proof. solve_decision. Defined.

Definition acks_wire (a : Acks) : Z :=
  match a with AcksZero => 0 | AcksOne => 1 | AcksAll => -1 end.

Inductive Compression : Type := CompressionNone | Gzip | Snappy | Lz4 | Zstd.

Record RetryBackoff : Type := mkRetryBackoff { rb_initial : Z; rb_max : Z }.

Definition RetryBackoff_new (initial max : Z) : RetryBackoff := mkRetryBackoff (Z.min initial max) max.

(** [scaled] is the float [initial * 2^exp * factor] as a [Duration], or [None]
    when [Duration::try_from_secs_f64] refuses it. *)
Definition backoff (b : RetryBackoff) (scaled : option Z) : Z :=
  if rb_max b <=? rb_initial b then rb_initial b
  else match scaled with None => rb_max b | Some v => Z.min v (rb_max b) end.

Record SenderConfig : Type := mkSenderConfig {
  acks_mode : Acks;
  compression : Compression;
  compression_level : option Z;
  linger : Z;
  request_timeout_ms : Z;
  retries : Z;
  retry_backoff : RetryBackoff;
  delivery_timeout : Z;
  max_in_flight : nat;
  transactional_id : option string;
}.

Inductive DrainIntent : Type := DrainReady | DrainExpired | DrainForce.

#[global] Instance DrainIntent_eq_dec : EqDecision DrainIntent.
Proof. solve_decision. Defined.

(** ** Time *)

Definition INSTANT_MAX : Z := i64_max * 10 ^ 9 + 999999999.

Definition checked_add (t d : Z) : option Z := if t + d <=? INSTANT_MAX then Some (t + d) else None.

Definition delivery_deadline (created_at delivery_timeout : Z) : option Z :=
  checked_add created_at delivery_timeout.

Definition reached_delivery_timeout (created_at delivery_timeout now : Z) : bool :=
  match delivery_deadline created_at delivery_timeout with
  | Some deadline => deadline <=? now
  | None => false
  end.

Definition saturating_duration_since (later earlier : Z) : Z := Z.max 0 (later - earlier).

(** ** Connection slots *)

Record ConnectionCapacity : Type := mkCapacity { limit : nat; used : gmap Z nat }.

Definition available (c : ConnectionCapacity) (leader : Z) : bool :=
  bool_decide (default 0%nat (used c !! leader) < limit c)%nat.

Definition reserve (c : ConnectionCapacity) (leader : Z) : ConnectionCapacity :=
  mkCapacity (limit c) (<[leader := S (default 0%nat (used c !! leader))]> (used c)).

Definition release (c : ConnectionCapacity) (leader : Z) : ConnectionCapacity :=
  match used c !! leader with
  | None => c
  | Some count =>
    let count := pred count in
    mkCapacity (limit c)
      (if bool_decide (count = 0%nat) then delete leader (used c) else <[leader := count]> (used c))
  end.

(** ** The next wake-up *)

Record Schedule : Type := mkSchedule {
  immediate : bool;
  sch_deadline : option Z;
  settled : bool;
}.

Definition set_immediate (s : Schedule) : Schedule := mkSchedule true (sch_deadline s) (settled s).
Definition unsettle (s : Schedule) : Schedule := mkSchedule (immediate s) (sch_deadline s) false.

Definition include_deadline (s : Schedule) (deadline now : Z) : Schedule :=
  if deadline <=? now then set_immediate s
  else if match sch_deadline s with None => true | Some current => deadline <? current end
  then mkSchedule (immediate s) (Some deadline) (settled s)
  else s.

(** ** Node latency *)

Record NodeLatency : Type := mkNodeLatency { ready_at : Z; drained_at : Z }.

Definition unavailable (l : NodeLatency) (timeout : Z) : bool :=
  timeout <? saturating_duration_since (ready_at l) (drained_at l).

(** ** Verdicts *)

Inductive SendFailure : Type := FailureCode (code : Z) | FailureTransport.

Definition SendFailure_error (f : SendFailure) : ProducerError.producer_error :=
  match f with
  | FailureCode code => ProducerError.Server code
  | FailureTransport => ProducerError.SendTimeout
  end.

Inductive BatchMode : Type := Plain | Idempotent | Transactional.

#[global] Instance BatchMode_eq_dec : EqDecision BatchMode.
Proof. solve_decision. Defined.

Inductive SequenceRepair : Type := Keep | BumpEpoch | GiveBack | Reset_.

#[global] Instance SequenceRepair_eq_dec : EqDecision SequenceRepair.
Proof. solve_decision. Defined.

Definition repair_after_failure (m : BatchMode) : SequenceRepair :=
  match m with Plain => Keep | Idempotent => BumpEpoch | Transactional => GiveBack end.

Inductive Barrier : Type :=
| BarrierRecoveryRequired
| BarrierFatal (e : FatalError)
| BarrierAbortable (e : AbortableError).

Definition Barrier_error (b : Barrier) : ProducerError.producer_error :=
  match b with
  | BarrierRecoveryRequired => ProducerError.RecoveryRequired
  | BarrierFatal error => FatalError_error error
  | BarrierAbortable (AbortableServer code) => ProducerError.Server code
  | BarrierAbortable AbortableTimeout => ProducerError.SendTimeout
  end.

Inductive BatchVerdict : Type :=
| Acked (base_offset log_append_time_ms : Z)
| Retry
| BumpEpochAndRetry
| RestartSequenceAndRetry
| Terminal (code : Z) (repair : SequenceRepair)
| Split
| VFatal (code : Z)
| Barred (b : Barrier).

Inductive Classification : Type := Verdict (v : BatchVerdict) | Routing.

Record PartitionAnswer : Type := mkAnswer {
  pa_error_code : Z;
  pa_base_offset : Z;
  pa_log_append_time_ms : Z;
  pa_log_start_offset : Z;
}.

Definition fatal_codes : list Z :=
  [codes.CLUSTER_AUTHORIZATION_FAILED; codes.UNSUPPORTED_VERSION; codes.INVALID_PRODUCER_ID_MAPPING;
   codes.TRANSACTIONAL_ID_AUTHORIZATION_FAILED; codes.PRODUCER_FENCED].

(** The arms of the match on [(code, mode)], in order. *)
Definition classify_verdict (answer : PartitionAnswer) (mode : BatchMode)
    (last_acked_offset : option Z) (records_in_batch : nat) : Classification :=
  let code := pa_error_code answer in
  let stamped := bool_decide (mode ≠ Plain) in
  if (code =? codes.MESSAGE_TOO_LARGE) && bool_decide (1 < records_in_batch)%nat then Verdict Split
  else if bool_decide (code ∈ [codes.NONE; codes.DUPLICATE_SEQUENCE_NUMBER])
  then Verdict (Acked (pa_base_offset answer) (pa_log_append_time_ms answer))
  else if bool_decide (code ∈ fatal_codes) && stamped then Verdict (VFatal code)
  else if (code =? codes.OUT_OF_ORDER_SEQUENCE_NUMBER) && bool_decide (mode = Idempotent)
  then Verdict BumpEpochAndRetry
  else if (code =? codes.UNKNOWN_PRODUCER_ID) && stamped && (pa_log_start_offset answer <? 0)
  then Verdict Retry
  else if (code =? codes.UNKNOWN_PRODUCER_ID) && bool_decide (mode = Idempotent)
  then Verdict BumpEpochAndRetry
  else if (code =? codes.UNKNOWN_PRODUCER_ID) && bool_decide (mode = Transactional)
          && (default (-1) last_acked_offset <? pa_log_start_offset answer)
  then Verdict RestartSequenceAndRetry
  else if (code =? codes.UNKNOWN_PRODUCER_ID) && bool_decide (mode = Transactional)
  then Verdict (Terminal code Reset_)
  else match class code with
       | InvalidMetadata => Routing
       | Retriable => Verdict Retry
       | ClassNone | NotRetriable => Verdict (Terminal code (repair_after_failure mode))
       end.

Definition fatal_error (code : Z) : ProducerError.producer_error :=
  if code =? codes.PRODUCER_FENCED then ProducerError.FencedProducer else ProducerError.Server code.

Definition record_offset (base_offset offset_delta : Z) : Z :=
  if base_offset =? INVALID_OFFSET then INVALID_OFFSET else base_offset + offset_delta.

Definition serialized_size (b : option bytes) : Z :=
  match b with
  | None => -1
  | Some b => default i32_max (i32_try_from (Z.of_nat (length b)))
  end.

Definition positive_partition_count (count : Z) : option Z := if 0 <? count then Some count else None.

(** [i32::try_from(n).unwrap_or(i32::MAX)] and [i32::wrapping_add]. *)
Definition i32_count (n : nat) : Z := default i32_max (i32_try_from (Z.of_nat n)).
Definition i32_wrapping_add (a b : Z) : Z := cast_signed 32 ((a + b) mod 2 ^ 32).

(** ** Record batches *)

Record Attributes : Type := mkAttributes { at_compression : Compression; is_transactional : bool }.

Record WireRecord : Type := mkWireRecord {
  wr_attributes : Z;
  wr_timestamp_delta : Z;
  wr_offset_delta : Z;
  wr_key : option bytes;
  wr_value : option bytes;
  wr_headers : list Header;
}.

Record RecordBatch : Type := mkRecordBatch {
  rb_base_offset : Z;
  rb_partition_leader_epoch : Z;
  rb_attributes : Attributes;
  rb_last_offset_delta : Z;
  rb_base_timestamp : Z;
  rb_max_timestamp : Z;
  rb_producer_id : Z;
  rb_producer_epoch : Z;
  rb_base_sequence : Z;
  rb_records : list WireRecord;
}.

Definition BatchMode_of (b : RecordBatch) : BatchMode :=
  if is_transactional (rb_attributes b) then Transactional
  else if 0 <=? rb_producer_id b then Idempotent
  else Plain.

Definition set_sequence (b : RecordBatch) (seq : Z) : RecordBatch :=
  mkRecordBatch (rb_base_offset b) (rb_partition_leader_epoch b) (rb_attributes b)
    (rb_last_offset_delta b) (rb_base_timestamp b) (rb_max_timestamp b) (rb_producer_id b)
    (rb_producer_epoch b) seq (rb_records b).

Definition set_producer (b : RecordBatch) (pid epoch : Z) : RecordBatch :=
  mkRecordBatch (rb_base_offset b) (rb_partition_leader_epoch b) (rb_attributes b)
    (rb_last_offset_delta b) (rb_base_timestamp b) (rb_max_timestamp b) pid epoch
    (rb_base_sequence b) (rb_records b).

Definition max_timestamp_of (records : list PendingRecord) : Z :=
  match records with
  | [] => 0
  | r :: rest => foldl (λ m r, Z.max m (pr_timestamp_ms r)) (pr_timestamp_ms r) rest
  end.

Definition build_record_batch (c : SenderConfig) (pid epoch : Z) (batch : InProgressBatch)
    (base_sequence : Z) (txn_snapshot : option (Z * Z)) : RecordBatch :=
  let attributes := mkAttributes (compression c) (bool_decide (is_Some txn_snapshot)) in
  let '(producer_id, producer_epoch) := default (pid, epoch) txn_snapshot in
  let base_timestamp := default 0 (pr_timestamp_ms <$> head (ib_records batch)) in
  let last_offset_delta := i32_count (pred (length (ib_records batch))) in
  mkRecordBatch 0 0 attributes last_offset_delta base_timestamp
    (max_timestamp_of (ib_records batch)) producer_id producer_epoch base_sequence
    ((λ r, mkWireRecord 0 (pr_timestamp_ms r - base_timestamp) (pr_offset_delta r) (pr_key r)
             (pr_value r) (pr_headers r)) <$> ib_records batch).

(** ** Code outside the repository

    [krabka_protocol]: the topic ids and the encoder of a record batch at a
    compression level. *)
Class ProtocolApi : Type := {
  Uuid : Type;
  Uuid_eq_dec :: EqDecision Uuid;
  ZERO : Uuid;
  encode_with_compression_level : RecordBatch → Z → option bytes;
}.

(** The order in which an iterator visits a hash map. *)
Class HashOrder : Type := {
  iter {A} : gmap topic_partition A → list (topic_partition * A);
  iter_perm {A} (m : gmap topic_partition A) : iter m ≡ₚ map_to_list m;
}.

(** ** The shared state *)

Record TopicMetadata {PA : ProtocolApi} : Type := mkTopicMetadata {
  tm_num_partitions : Z;
  tm_topic_id : Uuid;
}.

Record PreparedBatch {PA : ProtocolApi} : Type := mkPreparedBatch {
  pb_topic : string;
  pb_partition : Z;
  pb_topic_id : Uuid;
  pb_base_sequence : Z;
  pb_record_batch : RecordBatch;
  pb_records : list PendingRecord;
  pb_created_at : Z;
  pb_backoff_until : option Z;
  pb_retries_used : Z;
  pb_backoff_attempts : Z;
  pb_last_failure : option SendFailure;
  pb_generation : option Z;
  pb_memory : option Z;
}.

Record RecordMetadata : Type := mkRecordMetadata {
  md_topic : string;
  md_partition : Z;
  md_offset : Z;
  md_timestamp_ms : Z;
  md_serialized_key_size : Z;
  md_serialized_value_size : Z;
}.

Definition reply : Type := result ProducerError.producer_error RecordMetadata.

(** The identity of the idempotent producer. *)
Record Identity : Type := mkIdentity { producer_id : Z; producer_epoch : Z }.

(** What the transactional API shares with the sender. *)
Record TxnShared : Type := mkTxnShared {
  txn_state : TxnState;
  txn_pid_epoch : Z * Z;
  txn_recovery_required : bool;
  txn_recovery_generation : Z;
  txn_error : TxnErrorSlot;
}.

Record Routes {PA : ProtocolApi} : Type := mkRoutes {
  metadata_cache : gmap string TopicMetadata;
  partition_leaders : gmap topic_partition Z;
  partitioner : BuiltInPartitioner;
}.

(** The replies on the oneshot channels, the memory given back to the buffer
    pool, the number of [notify_waiters] calls, the brokers whose pooled
    connection was evicted, and the batches acknowledged so far. *)
Record Effects {PA : ProtocolApi} : Type := mkEffects {
  replies : list (nat * reply);
  released : list Z;
  notified : nat;
  evicted : list Z;
  acked_log : list PreparedBatch;
}.
Arguments mkEffects {PA}.

Record PipelineState {PA : ProtocolApi} : Type := mkPipeline {
  retry : gmap topic_partition PreparedBatch;
  last_acked_offset : gmap topic_partition Z;
  node_latency : gmap Z NodeLatency;
  recovery_generation : option Z;
}.

Record World {PA : ProtocolApi} : Type := mkWorld {
  identity : Identity;
  txn : TxnShared;
  routes : Routes;
  accumulators : gmap topic_partition Accumulator;
  next_seq : gmap topic_partition Z;
  lifecycle : Z;
  in_flight : Z;
  effects : Effects;
  pipe : PipelineState;
}.

(** What the rest of the system answers during one step. *)
Record InitProducerIdResponse : Type := mkInitResponse {
  ir_error_code : Z;
  ir_producer_id : Z;
  ir_producer_epoch : Z;
}.

Record Env : Type := mkEnv {
  now : Z;
  knows_broker : Z → bool;
  scaled_backoff : topic_partition → option Z;
  init_producer_id : option InitProducerIdResponse;
  locked : topic_partition → bool;
}.

Arguments mkTopicMetadata {PA}.
Arguments mkPreparedBatch {PA}.
Arguments mkRoutes {PA}.
Arguments mkPipeline {PA}.
Arguments mkWorld {PA}.

Section updates.
Context {PA : ProtocolApi}.

Definition upd_identity (i : Identity) (w : World) : World :=
  mkWorld i (txn w) (routes w) (accumulators w) (next_seq w) (lifecycle w) (in_flight w)
    (effects w) (pipe w).
Definition upd_error (s : TxnErrorSlot) (w : World) : World :=
  mkWorld (identity w)
    (mkTxnShared (txn_state (txn w)) (txn_pid_epoch (txn w)) (txn_recovery_required (txn w))
       (txn_recovery_generation (txn w)) s)
    (routes w) (accumulators w) (next_seq w) (lifecycle w) (in_flight w) (effects w) (pipe w).
Definition upd_routes (r : Routes) (w : World) : World :=
  mkWorld (identity w) (txn w) r (accumulators w) (next_seq w) (lifecycle w) (in_flight w)
    (effects w) (pipe w).
Definition upd_accumulators (a : gmap topic_partition Accumulator) (w : World) : World :=
  mkWorld (identity w) (txn w) (routes w) a (next_seq w) (lifecycle w) (in_flight w)
    (effects w) (pipe w).
Definition upd_next_seq (n : gmap topic_partition Z) (w : World) : World :=
  mkWorld (identity w) (txn w) (routes w) (accumulators w) n (lifecycle w) (in_flight w)
    (effects w) (pipe w).
Definition upd_lifecycle (s : Z) (w : World) : World :=
  mkWorld (identity w) (txn w) (routes w) (accumulators w) (next_seq w) s (in_flight w)
    (effects w) (pipe w).
Definition upd_in_flight (n : Z) (w : World) : World :=
  mkWorld (identity w) (txn w) (routes w) (accumulators w) (next_seq w) (lifecycle w) n
    (effects w) (pipe w).
Definition upd_effects (e : Effects) (w : World) : World :=
  mkWorld (identity w) (txn w) (routes w) (accumulators w) (next_seq w) (lifecycle w)
    (in_flight w) e (pipe w).
Definition upd_pipe (p : PipelineState) (w : World) : World :=
  mkWorld (identity w) (txn w) (routes w) (accumulators w) (next_seq w) (lifecycle w)
    (in_flight w) (effects w) p.

Definition upd_retry (r : gmap topic_partition PreparedBatch) (w : World) : World :=
  upd_pipe (mkPipeline r (last_acked_offset (pipe w)) (node_latency (pipe w))
              (recovery_generation (pipe w))) w.
Definition upd_latency (l : gmap Z NodeLatency) (w : World) : World :=
  upd_pipe (mkPipeline (retry (pipe w)) (last_acked_offset (pipe w)) l
              (recovery_generation (pipe w))) w.
Definition upd_acked (m : gmap topic_partition Z) (w : World) : World :=
  upd_pipe (mkPipeline (retry (pipe w)) m (node_latency (pipe w))
              (recovery_generation (pipe w))) w.
Definition upd_recovery (g : option Z) (w : World) : World :=
  upd_pipe (mkPipeline (retry (pipe w)) (last_acked_offset (pipe w)) (node_latency (pipe w)) g) w.

Definition set_partition_leaders (l : gmap topic_partition Z) (w : World) : World :=
  upd_routes (mkRoutes (metadata_cache (routes w)) l (partitioner (routes w))) w.

(** [flush_notify.notify_waiters()]. *)
Definition notify_waiters (w : World) : World :=
  upd_effects (mkEffects (replies (effects w)) (released (effects w)) (S (notified (effects w)))
                 (evicted (effects w)) (acked_log (effects w))) w.
Definition push_replies (l : list (nat * reply)) (w : World) : World :=
  upd_effects (mkEffects (replies (effects w) ++ l) (released (effects w)) (notified (effects w))
                 (evicted (effects w)) (acked_log (effects w))) w.

(** The drop of a [MemoryReservation]. *)
Definition drop_memory (m : option Z) (w : World) : World :=
  upd_effects (mkEffects (replies (effects w)) (released (effects w) ++ option_list m)
                 (notified (effects w)) (evicted (effects w)) (acked_log (effects w))) w.

Definition log_ack (pb : PreparedBatch) (w : World) : World :=
  upd_effects (mkEffects (replies (effects w)) (released (effects w)) (notified (effects w))
                 (evicted (effects w)) (acked_log (effects w) ++ [pb])) w.

(** [transport.evict_broker(leader)], never for the bootstrap connection. *)
Definition evict_broker (leader : Z) (w : World) : World :=
  if leader =? BOOTSTRAP_LEADER then w
  else upd_effects (mkEffects (replies (effects w)) (released (effects w)) (notified (effects w))
                      (evicted (effects w) ++ [leader]) (acked_log (effects w))) w.

Definition pb_key (pb : PreparedBatch) : topic_partition := (pb_topic pb, pb_partition pb).

(** [state.retry.insert((pb.topic.clone(), pb.partition), pb)]. *)
Definition park (pb : PreparedBatch) (w : World) : World :=
  upd_retry (<[pb_key pb := pb]> (retry (pipe w))) w.

Definition set_backoff (pb : PreparedBatch) (u : option Z) : PreparedBatch :=
  mkPreparedBatch (pb_topic pb) (pb_partition pb) (pb_topic_id pb) (pb_base_sequence pb)
    (pb_record_batch pb) (pb_records pb) (pb_created_at pb) u (pb_retries_used pb)
    (pb_backoff_attempts pb) (pb_last_failure pb) (pb_generation pb) (pb_memory pb).

(** ** Small operations *)

Definition finish_in_flight (w : World) : World :=
  let w' := upd_in_flight (in_flight w - 1) w in
  if in_flight w =? 1 then notify_waiters w' else w'.

Definition clone_if_possible (e : ProducerError.producer_error) : option ProducerError.producer_error :=
  match e with
  | ProducerError.Server _ | ProducerError.FencedProducer | ProducerError.RecoveryRequired
  | ProducerError.Closed | ProducerError.FlushTimeout | ProducerError.SendTimeout
  | ProducerError.BufferExhausted _ _ _ _ _ | ProducerError.BatchTooLarge _
  | ProducerError.RecordTooLarge _ _ | ProducerError.InvalidConfig _
  | ProducerError.FatalTransactionError _ => Some e
  | _ => None
  end.

Definition fail_batch (records : list PendingRecord) (err : ProducerError.producer_error)
    (w : World) : World :=
  let clone := clone_if_possible err in
  push_replies
    match records with
    | [] => []
    | first :: rest =>
      (pr_ack first, Err err)
      :: ((λ r, (pr_ack r, Err (default ProducerError.Closed (clone ≫= clone_if_possible)))) <$> rest)
    end w.

(** A batch that never got a sequence, failed and dropped. *)
Definition fail_in_progress (b : InProgressBatch) (err : ProducerError.producer_error)
    (w : World) : World :=
  drop_memory (ib_memory b) (fail_batch (ib_records b) err w).

(** [fail_batch(pb.records, err); finish_in_flight(cfg)], and the drop of [pb]. *)
Definition fail_prepared (pb : PreparedBatch) (err : ProducerError.producer_error)
    (w : World) : World :=
  drop_memory (pb_memory pb) (finish_in_flight (fail_batch (pb_records pb) err w)).

Definition ack_batch (pb : PreparedBatch) (base_offset log_append_time_ms : Z) (w : World) : World :=
  let w := push_replies
    ((λ r, (pr_ack r,
       Ok (mkRecordMetadata (pb_topic pb) (pb_partition pb)
             (record_offset base_offset (pr_offset_delta r))
             (if log_append_time_ms =? NO_TIMESTAMP then pr_timestamp_ms r else log_append_time_ms)
             (serialized_size (pr_key r)) (serialized_size (pr_value r))))) <$> pb_records pb) w in
  drop_memory (pb_memory pb) (finish_in_flight (log_ack pb w)).

Definition record_transaction_fatal_error (pb : PreparedBatch) (code : Z) (w : World) : World :=
  if bool_decide (BatchMode_of (pb_record_batch pb) ≠ Transactional) then w
  else upd_error (set_fatal (txn_error (txn w))
                    (if code =? codes.PRODUCER_FENCED then FatalFenced else FatalServer code)) w.

Definition terminal_fail_batch (pb : PreparedBatch) (err : ProducerError.producer_error)
    (w : World) : World :=
  let w :=
    if bool_decide (BatchMode_of (pb_record_batch pb) = Transactional)
    then upd_error
           match err with
           | ProducerError.Server code => set_abortable (txn_error (txn w)) code
           | _ => set_abortable_timeout (txn_error (txn w))
           end w
    else w in
  fail_prepared pb err w.

Definition record_ack (pb : PreparedBatch) (base_offset : Z) (w : World) : World :=
  if base_offset <? 0 then w
  else
    let last_offset := base_offset + rb_last_offset_delta (pb_record_batch pb) in
    upd_acked
      (<[pb_key pb := match last_acked_offset (pipe w) !! pb_key pb with
                      | Some offset => Z.max offset last_offset
                      | None => last_offset
                      end]> (last_acked_offset (pipe w))) w.

(** The drained batch is spent when the result is [true]. *)
Definition take_retry (pb : PreparedBatch) (retries : Z) : PreparedBatch * bool :=
  if retries <=? pb_retries_used pb then (pb, true)
  else (mkPreparedBatch (pb_topic pb) (pb_partition pb) (pb_topic_id pb) (pb_base_sequence pb)
          (pb_record_batch pb) (pb_records pb) (pb_created_at pb) (pb_backoff_until pb)
          (pb_retries_used pb + 1) (pb_backoff_attempts pb) (pb_last_failure pb)
          (pb_generation pb) (pb_memory pb), false).

Definition restart_sequence (pb : PreparedBatch) (w : World) : PreparedBatch * World :=
  (mkPreparedBatch (pb_topic pb) (pb_partition pb) (pb_topic_id pb) 0
     (set_sequence (pb_record_batch pb) 0) (pb_records pb) (pb_created_at pb)
     (pb_backoff_until pb) (pb_retries_used pb) (pb_backoff_attempts pb) (pb_last_failure pb)
     (pb_generation pb) (pb_memory pb),
   upd_next_seq (<[pb_key pb := i32_count (length (pb_records pb))]> (next_seq w)) w).

Definition set_identity (pb : PreparedBatch) (i : Identity) : PreparedBatch :=
  mkPreparedBatch (pb_topic pb) (pb_partition pb) (pb_topic_id pb) (pb_base_sequence pb)
    (set_producer (pb_record_batch pb) (producer_id i) (producer_epoch i)) (pb_records pb)
    (pb_created_at pb) (pb_backoff_until pb) (pb_retries_used pb) (pb_backoff_attempts pb)
    (pb_last_failure pb) (pb_generation pb) (pb_memory pb).

(** [back_off(pb, cfg.retry_backoff, Instant::now())] and the failure noted
    with it. *)
Definition back_off (c : SenderConfig) (e : Env) (pb : PreparedBatch) (f : SendFailure)
    : PreparedBatch :=
  let delay := backoff (retry_backoff c) (scaled_backoff e (pb_key pb)) in
  mkPreparedBatch (pb_topic pb) (pb_partition pb) (pb_topic_id pb) (pb_base_sequence pb)
    (pb_record_batch pb) (pb_records pb) (pb_created_at pb)
    (Some (default (now e) (checked_add (now e) delay)))
    (pb_retries_used pb) (u32_saturating_add (pb_backoff_attempts pb) 1) (Some f)
    (pb_generation pb) (pb_memory pb).

Definition note_repair (bump_epoch : bool) (repairs : list (topic_partition * SequenceRepair * Z))
    (pb : PreparedBatch) (r : SequenceRepair)
    : bool * list (topic_partition * SequenceRepair * Z) :=
  match r with
  | Keep => (bump_epoch, repairs)
  | BumpEpoch => (true, repairs)
  | GiveBack | Reset_ => (bump_epoch, repairs ++ [(pb_key pb, r, pb_base_sequence pb)])
  end.

Definition apply_repair (w : World) (r : topic_partition * SequenceRepair * Z) : World :=
  let '(key, repair, base_sequence) := r in
  upd_next_seq (if bool_decide (repair = GiveBack) then <[key := base_sequence]> (next_seq w)
                else delete key (next_seq w)) w.

Definition bump_idempotent_epoch (e : Env) (w : World) : World * bool :=
  let raise (i : Identity) := (upd_next_seq ∅ (upd_identity i w), true) in
  match i16_try_from (producer_epoch (identity w) + 1) with
  | Some epoch => raise (mkIdentity (producer_id (identity w)) epoch)
  | None =>
    match init_producer_id e with
    | None => (w, false)
    | Some response =>
      if negb (ir_error_code response =? 0) || (ir_producer_id response <? 0)
         || (ir_producer_epoch response <? 0)
      then (w, false)
      else raise (mkIdentity (ir_producer_id response) (ir_producer_epoch response))
    end
  end.

(** ** Routing and barriers *)

Definition resolve_leader (e : Env) (w : World) (key : topic_partition) : Z :=
  match partition_leaders (routes w) !! key with
  | Some id => if (0 <=? id) && knows_broker e id then id else BOOTSTRAP_LEADER
  | None => BOOTSTRAP_LEADER
  end.

Definition topic_partition_count (w : World) (topic : string) : option Z :=
  meta ← metadata_cache (routes w) !! topic;
  positive_partition_count (tm_num_partitions meta).

Definition drained_barrier (w : World) (generation : option Z) : option Barrier :=
  batch_generation ← generation;
  match fatal (txn_error (txn w)) with
  | Some error => Some (BarrierFatal error)
  | None =>
    if txn_recovery_required (txn w)
       || negb (batch_generation =? txn_recovery_generation (txn w))
    then Some BarrierRecoveryRequired else None
  end.

Definition undrained_barrier (w : World) (generation : option Z) : option Barrier :=
  match drained_barrier w generation with
  | Some b => Some b
  | None => _ ← generation; BarrierAbortable <$> abortable (txn_error (txn w))
  end.

Definition recovery_scan_needed (w : World) : bool :=
  bool_decide (recovery_generation (pipe w) ≠ Some (txn_recovery_generation (txn w)))
  || txn_recovery_required (txn w)
  || bool_decide (is_Some (fatal (txn_error (txn w))))
  || bool_decide (is_Some (abortable (txn_error (txn w)))).

Definition note_node_latency (w : World) (key : topic_partition) (now : Z) (drained : bool) : World :=
  if availability_timeout (Partitioner.config (partitioner (routes w))) =? 0 then w
  else match partition_leaders (routes w) !! key with
       | Some leader =>
         if 0 <=? leader then
           let latency := default (mkNodeLatency now now) (node_latency (pipe w) !! leader) in
           upd_latency
             (<[leader := mkNodeLatency now (if drained then now else drained_at latency)]>
                (node_latency (pipe w))) w
         else w
       | None => w
       end.

Definition txn_pid_snapshot (c : SenderConfig) (w : World) : option (Z * Z) :=
  _ ← transactional_id c;
  if bool_decide (txn_state (txn w) ∈ [InTransaction; Preparing; CommittingOrAborting])
  then Some (txn_pid_epoch (txn w)) else None.

(** Allocates the sequences of the batch, once. *)
Definition prepare_batch (c : SenderConfig) (w : World) (key : topic_partition)
    (batch : InProgressBatch) : World * PreparedBatch :=
  let cur := default 0 (next_seq w !! key) in
  let w := upd_next_seq
             (<[key := i32_wrapping_add cur (i32_count (length (ib_records batch)))]> (next_seq w)) w in
  let topic_id := default ZERO (tm_topic_id <$> metadata_cache (routes w) !! key.1) in
  let record_batch :=
    build_record_batch c (producer_id (identity w)) (producer_epoch (identity w)) batch cur
      (txn_pid_snapshot c w) in
  (w, mkPreparedBatch key.1 key.2 topic_id cur record_batch (ib_records batch)
        (ib_first_append_at batch) None 0 0 None (ib_generation batch) (ib_memory batch)).
End updates.
