(* ===== verification/SenderCycle.v ===== *)
(** * The cycles of the producer sender

    [crates/client-producer/src/sender.rs]: the drain cycle, the send of one
    batch, the completion cycle, the next wake-up, and the loop of [drive] as a
    step relation between the sender task, the brokers and the application.

    A drain and a completion cycle are one step each: the application's appends
    and the broker answers come between cycles. The send of a batch has its two
    sides of the [await] as separate steps. *)

From S2P Require Import Prelude Bytes Errors Partitioner Accumulator TxnRetry TxnState Sender.

(** ** Requests and responses *)

Inductive RecordsPayload : Type := Raw (b : bytes) | Batch (b : RecordBatch).

Record TopicProduceData {PA : ProtocolApi} : Type := mkTopicData {
  td_name : string;
  td_topic_id : Uuid;
  td_partition_data : list (Z * RecordsPayload);
}.
Arguments mkTopicData {PA}.

Record ProduceRequest {PA : ProtocolApi} : Type := mkProduceRequest {
  rq_transactional_id : option string;
  rq_acks : Z;
  rq_timeout_ms : Z;
  rq_topic_data : list TopicProduceData;
}.
Arguments mkProduceRequest {PA}.

Record PartitionResponse : Type := mkPartitionResponse {
  rs_index : Z;
  rs_error_code : Z;
  rs_base_offset : Z;
  rs_log_append_time_ms : Z;
  rs_log_start_offset : Z;
  rs_leader_id : Z;
}.

Record TopicResponse {PA : ProtocolApi} : Type := mkTopicResponse {
  rs_name : string;
  rs_topic_id : Uuid;
  rs_partitions : list PartitionResponse;
}.
Arguments mkTopicResponse {PA}.

Notation ProduceResponse := (list TopicResponse).

Record MetadataTopic {PA : ProtocolApi} : Type := mkMetadataTopic {
  mt_name : option string;
  mt_error_code : Z;
  mt_topic_id : Uuid;
  mt_partitions : list (Z * Z);
}.
Arguments mkMetadataTopic {PA}.

Record BatchSendResult {PA : ProtocolApi} : Type := mkSendResult {
  sr_pb : PreparedBatch;
  sr_verdict : BatchVerdict;
  sr_refresh_needed : bool;
}.
Arguments mkSendResult {PA}.

(** The verdicts of one completion cycle. *)
Record CycleVerdicts {PA : ProtocolApi} : Type := mkCycle {
  needs_refresh : bool;
  fenced : option (list PreparedBatch);
  bump_epoch : bool;
  repairs : list (topic_partition * SequenceRepair * Z);
  restarts : list PreparedBatch;
  rewrites : list PreparedBatch;
  splits : list PreparedBatch;
  failed : list (PreparedBatch * ProducerError.producer_error);
}.
Arguments mkCycle {PA}.

(** [sort_unstable_by_key(|(partition, _)| *partition)]; the partitions of a
    topic are distinct. *)
Definition partition_le (a b : Z * Accumulator) : Prop := a.1 ≤ b.1.
#[global] Instance partition_le_dec : RelDecision partition_le.
Proof. unfold partition_le. intros a b. apply _. Defined.

Section cycles.
Context {PA : ProtocolApi} {HO : HashOrder}.
Implicit Types (c : SenderConfig) (e : Env) (w : World) (pb : PreparedBatch).

(** ** The send of one batch *)

Definition build_single_batch_request c pb : option ProduceRequest :=
  let is_txn := is_transactional (rb_attributes (pb_record_batch pb)) in
  let req_txn_id := if is_txn then transactional_id c else None in
  records ← match compression_level c with
            | Some level => Raw <$> encode_with_compression_level (pb_record_batch pb) level
            | None => Some (Batch (pb_record_batch pb))
            end;
  Some (mkProduceRequest req_txn_id (acks_wire (acks_mode c)) (request_timeout_ms c)
          [mkTopicData (pb_topic pb) (pb_topic_id pb) [(pb_partition pb, records)]]).

Definition set_topic_id pb (id : Uuid) : PreparedBatch :=
  mkPreparedBatch (pb_topic pb) (pb_partition pb) id (pb_base_sequence pb) (pb_record_batch pb)
    (pb_records pb) (pb_created_at pb) (pb_backoff_until pb) (pb_retries_used pb)
    (pb_backoff_attempts pb) (pb_last_failure pb) (pb_generation pb) (pb_memory pb).

(** [send_one_batch_to_leader] up to the send: a result at once, or a request
    for the wire. *)
Definition send_begin c e w pb : BatchSendResult + PreparedBatch * ProduceRequest :=
  match drained_barrier w (pb_generation pb) with
  | Some barrier => inl (mkSendResult pb (Barred barrier) false)
  | None =>
    let pb :=
      match tm_topic_id <$> metadata_cache (routes w) !! pb_topic pb with
      | Some resolved => if bool_decide (resolved ≠ ZERO) then set_topic_id pb resolved else pb
      | None => pb
      end in
    match build_single_batch_request c pb with
    | Some req => inr (pb, req)
    | None => inl (mkSendResult (back_off c e pb FailureTransport) Retry false)
    end
  end.

Definition find_partition pb (resp : ProduceResponse) : option PartitionResponse :=
  t ← snd <$> list_find (λ t, rs_name t = pb_topic pb ∨
                              pb_topic_id pb ≠ ZERO ∧ rs_topic_id t = pb_topic_id pb) resp;
  snd <$> list_find (λ p, rs_index p = pb_partition pb) (rs_partitions t).

Definition interpret_response c e w pb (resp : ProduceResponse) (last_acked : option Z)
    : World * BatchSendResult :=
  match find_partition pb resp with
  | None => (w, mkSendResult (back_off c e pb FailureTransport) Retry true)
  | Some part_resp =>
    let answer := mkAnswer (rs_error_code part_resp) (rs_base_offset part_resp)
                    (rs_log_append_time_ms part_resp) (rs_log_start_offset part_resp) in
    match classify_verdict answer (BatchMode_of (pb_record_batch pb)) last_acked
            (length (pb_records pb)) with
    | Verdict verdict =>
      let pb :=
        match verdict with
        | Retry | BumpEpochAndRetry | RestartSequenceAndRetry =>
          back_off c e pb (FailureCode (pa_error_code answer))
        | _ => pb
        end in
      (w, mkSendResult pb verdict false)
    | Routing =>
      let hint := rs_leader_id part_resp in
      let '(w, refresh_needed) :=
        if 0 <=? hint
        then (set_partition_leaders (<[pb_key pb := hint]> (partition_leaders (routes w))) w,
              negb (knows_broker e hint))
        else (w, true) in
      (w, mkSendResult (back_off c e pb (FailureCode (rs_error_code part_resp))) Retry refresh_needed)
    end
  end.

(** [send_one_batch_to_leader] after the send; [None] is a transport error. *)
Definition send_end c e w pb (leader : Z) (last_acked : option Z)
    (answer : option ProduceResponse) : World * BatchSendResult :=
  match answer with
  | None => (evict_broker leader w, mkSendResult (back_off c e pb FailureTransport) Retry true)
  | Some resp =>
    if bool_decide (acks_mode c = AcksZero)
    then (w, mkSendResult pb (Acked INVALID_OFFSET NO_TIMESTAMP) false)
    else interpret_response c e w pb resp last_acked
  end.

(** ** Failing what cannot be sent *)

Definition fence e w (to_fail : list PreparedBatch) : World :=
  let w := if lifecycle w =? STATE_ACTIVE then upd_lifecycle STATE_FENCED w else w in
  let w := foldl (λ w pb, fail_prepared pb ProducerError.FencedProducer w) w to_fail in
  let parked := iter (retry (pipe w)) in
  let w := upd_retry ∅ w in
  let w := foldl (λ w kb, fail_prepared kb.2 ProducerError.FencedProducer w) w parked in
  foldl (λ w ka,
    if locked e ka.1 then w
    else
      let a := ka.2 in
      let w := upd_accumulators
                 (<[ka.1 := mkAccumulator None [] (ac_batch_size a)]> (accumulators w)) w in
      foldl (λ w b, fail_in_progress b ProducerError.FencedProducer w) w
        (option_list (ac_current a) ++ ac_ready a)) w (iter (accumulators w)).

Definition fail_recovered_batches w (batches : list PreparedBatch) : World * list PreparedBatch :=
  foldl (λ '(w, retained) pb,
    match drained_barrier w (pb_generation pb) with
    | Some barrier => (fail_prepared pb (Barrier_error barrier) w, retained)
    | None => (w, retained ++ [pb])
    end) (w, []) batches.

Definition fail_recovered_retry_slots w : World :=
  let recovered :=
    omap (λ kb, (λ barrier, (kb.1, barrier)) <$> drained_barrier w (pb_generation kb.2))
      (iter (retry (pipe w))) in
  foldl (λ w kb,
    match retry (pipe w) !! kb.1 with
    | None => w
    | Some pb => fail_prepared pb (Barrier_error kb.2) (upd_retry (delete kb.1 (retry (pipe w))) w)
    end) w recovered.

(** The sweep of one accumulator: it keeps the batches without a barrier, and
    fails the current batch first, then the queue. *)
Definition sweep_accumulator (st : World * bool) (ka : topic_partition * Accumulator)
    : World * bool :=
  let '(w, failed_any) := st in
  let a := ka.2 in
  let barred b := undrained_barrier w (ib_generation b) in
  let current := match ac_current a with
                 | Some b => match barred b with Some _ => None | None => Some b end
                 | None => None
                 end in
  let ready := filter (λ b, barred b = None) (ac_ready a) in
  let failing := omap (λ b, pair b <$> barred b) (option_list (ac_current a) ++ ac_ready a) in
  let w := upd_accumulators
             (<[ka.1 := mkAccumulator current ready (ac_batch_size a)]> (accumulators w)) w in
  (foldl (λ w fb, fail_in_progress fb.1 (Barrier_error fb.2) w) w failing,
   failed_any || negb (bool_decide (failing = []))).

Definition fail_recovered_accumulator_batches w : World :=
  if negb (recovery_scan_needed w) then w
  else
    let generation := txn_recovery_generation (txn w) in
    let '(w, failed_any) := foldl sweep_accumulator (w, false) (iter (accumulators w)) in
    let w := upd_recovery (Some generation) w in
    if failed_any then notify_waiters w else w.

Fixpoint split_expired (delivery_timeout now : Z) (ready : list InProgressBatch)
    : list InProgressBatch * list InProgressBatch :=
  match ready with
  | [] => ([], [])
  | b :: rest =>
    if reached_delivery_timeout (ib_first_append_at b) delivery_timeout now
    then let '(expired, kept) := split_expired delivery_timeout now rest in (b :: expired, kept)
    else ([], ready)
  end.

Definition take_expired c e (a : Accumulator) : Accumulator * list InProgressBatch :=
  let '(expired, ready) := split_expired (delivery_timeout c) (now e) (ac_ready a) in
  match ac_current a with
  | Some b =>
    if bool_decide (ready = []) && negb (is_empty b)
       && reached_delivery_timeout (ib_first_append_at b) (delivery_timeout c) (now e)
    then (mkAccumulator None ready (ac_batch_size a), expired ++ [b])
    else (mkAccumulator (Some b) ready (ac_batch_size a), expired)
  | None => (mkAccumulator None ready (ac_batch_size a), expired)
  end.

Definition take_expired_accumulator_batches c e w : World * list InProgressBatch :=
  foldl (λ '(w, expired) ka,
    let '(a, taken) := take_expired c e ka.2 in
    (upd_accumulators (<[ka.1 := a]> (accumulators w)) w, expired ++ taken))
    (w, []) (iter (accumulators w)).

Definition fail_unsent_batches w (expired : list InProgressBatch) : World :=
  if bool_decide (expired = []) then w
  else
    notify_waiters
      (foldl (λ w b,
         let w := if bool_decide (is_Some (ib_generation b))
                  then upd_error (set_abortable_timeout (txn_error (txn w))) w else w in
         fail_in_progress b ProducerError.SendTimeout w) w expired).

Definition fail_expired_accumulator_batches c e w : World :=
  let '(w, expired) := take_expired_accumulator_batches c e w in
  fail_unsent_batches w expired.

(** ** Resends *)

(** The batches to send, and the expired ones; the others stay parked. *)
Definition collect_retries c e (slots : gmap topic_partition PreparedBatch) (max_to_send : Z)
    : gmap topic_partition PreparedBatch * list PreparedBatch * list PreparedBatch :=
  foldl (λ '(parked, to_send, expired) kb,
    let '(key, pb) := kb in
    if reached_delivery_timeout (pb_created_at pb) (delivery_timeout c) (now e)
    then (parked, to_send, expired ++ [pb])
    else if match pb_backoff_until pb with Some t => now e <? t | None => false end
    then (<[key := pb]> parked, to_send, expired)
    else if max_to_send <=? Z.of_nat (length to_send)
    then (<[key := pb]> parked, to_send, expired)
    else (parked, to_send ++ [set_backoff pb None], expired))
    (∅, [], []) (iter slots).

Definition expire_batches e w (expired to_send : list PreparedBatch) : World :=
  let '(bump, repairs) :=
    foldl (λ '(bump, repairs) pb,
      note_repair bump repairs pb (repair_after_failure (BatchMode_of (pb_record_batch pb))))
      (false, []) expired in
  let w := if bump then (bump_idempotent_epoch e w).1 else foldl apply_repair w repairs in
  let w := foldl (λ w pb, park pb w) w to_send in
  foldl (λ w pb, terminal_fail_batch pb ProducerError.SendTimeout w) w expired.

(** ** Load statistics of the partitioner *)

Definition group_topics (l : list (topic_partition * Accumulator))
    : gmap string (list (Z * Accumulator)) :=
  foldl (λ m ka, <[ka.1.1 := default [] (m !! ka.1.1) ++ [(ka.1.2, ka.2)]]> m) ∅ l.

Definition topic_queues w (topic : string) (partitions : list (Z * Accumulator)) : QueueSizes :=
  let timeout := availability_timeout (Partitioner.config (partitioner (routes w))) in
  foldl (λ queues pa,
    let key := (topic, pa.1) in
    match partition_leaders (routes w) !! key with
    | Some leader =>
      if 0 <=? leader then
        let queue_size := Z.of_nat (queue_size pa.2) +
                          (if decide (is_Some (retry (pipe w) !! key)) then 1 else 0) in
        if negb (timeout =? 0)
           && match node_latency (pipe w) !! leader with
              | Some latency => unavailable latency timeout
              | None => false
              end
        then queues
        else mkQueueSizes (qs_sizes queues ++ [default u32_max (u32_try_from queue_size)])
               (qs_partition_ids queues ++ [pa.1]) (qs_all queues)
      else queues
    | None => queues
    end) (mkQueueSizes [] [] (Z.of_nat (length partitions))) partitions.

(** Each topic updates its own entry of the partitioner, so the order of the
    topics does not matter. *)
Definition update_partition_load_stats w : World :=
  if negb (adaptive_partitioning (Partitioner.config (partitioner (routes w)))) then w
  else
    foldl (λ w tp,
      let '(topic, partitions) := tp in
      let complete :=
        match topic_partition_count w topic ≫= usize_try_from with
        | Some count => count <=? Z.of_nat (length partitions)
        | None => false
        end in
      let queues :=
        if complete
        then Some (topic_queues w topic
                     (sort_by partition_le partitions))
        else None in
      upd_routes (mkRoutes (metadata_cache (routes w)) (partition_leaders (routes w))
                    (update_load_stats (partitioner (routes w)) topic queues)) w)
      w (map_to_list (group_topics (iter (accumulators w)))).

(** ** The drain cycle *)

(** The resends that find a connection slot; the others go back to their slot. *)
Definition route_resends e w (slots : ConnectionCapacity) (pending : list PreparedBatch)
    : World * ConnectionCapacity * list (Z * PreparedBatch) :=
  foldl (λ '(w, slots, sends) pb,
    let leader := resolve_leader e w (pb_key pb) in
    if available slots leader then (w, reserve slots leader, sends ++ [(leader, pb)])
    else (park pb w, slots, sends)) (w, slots, []) pending.

Definition should_seal c e w (intent : DrainIntent) (a : Accumulator) : bool :=
  match ac_current a with
  | None => false
  | Some b =>
    negb (is_empty b) &&
    (bool_decide (intent = DrainForce)
     || bool_decide (is_Some (undrained_barrier w (ib_generation b)))
     || (bool_decide (intent = DrainExpired)
         && (linger c <=? saturating_duration_since (now e) (ib_first_append_at b))))
  end.

(** [pop_ready_batch]: the batch counts as in flight at once. *)
Definition pop_ready_batch w (key : topic_partition) (a : Accumulator)
    : World * option InProgressBatch :=
  let '(a, b) := pop_ready a in
  let w := upd_accumulators (<[key := a]> (accumulators w)) w in
  match b with
  | Some b => (upd_in_flight (in_flight w + 1) w, Some b)
  | None => (w, None)
  end.

Record DrainState : Type := mkDrain {
  dr_world : World;
  dr_slots : ConnectionCapacity;
  dr_sends : list (Z * PreparedBatch);
  dr_occupied : gset topic_partition;
}.

(** One pass of the loop over the accumulator keys. *)
Definition drain_key c e (intent : DrainIntent) (d : DrainState) (key : topic_partition)
    : DrainState :=
  let w := dr_world d in
  let leader := resolve_leader e w key in
  let capped := negb (available (dr_slots d) leader) in
  match accumulators w !! key with
  | None => d
  | Some a =>
    let waits_for_resend := bool_decide (key ∈ dr_occupied d) in
    if capped || waits_for_resend then
      let track_latency :=
        negb (availability_timeout (Partitioner.config (partitioner (routes w))) =? 0) in
      if track_latency && waits_for_resend && bool_decide (0 < queue_size a)%nat
      then mkDrain (note_node_latency w key (now e) false) (dr_slots d) (dr_sends d) (dr_occupied d)
      else d
    else
      let a := if should_seal c e w intent a then seal_current a else a in
      match pop_ready_batch w key a with
      | (w, None) => mkDrain w (dr_slots d) (dr_sends d) (dr_occupied d)
      | (w, Some batch) =>
        let w := note_node_latency w key (now e) true in
        match undrained_barrier w (ib_generation batch) with
        | Some barrier =>
          let w := fail_batch (ib_records batch) (Barrier_error barrier) w in
          mkDrain (drop_memory (ib_memory batch) (finish_in_flight w)) (dr_slots d) (dr_sends d)
            (dr_occupied d)
        | None =>
          let '(w, pb) := prepare_batch c w key batch in
          mkDrain w (reserve (dr_slots d) leader) (dr_sends d ++ [(leader, pb)])
            ({[ key ]} ∪ dr_occupied d)
        end
      end
  end.

(** The steps of a drain before the loop over the keys: a state with its send
    list, or the end of the cycle with nothing to send. *)
Definition drain_resends c e w (active : gset topic_partition) (capacity : ConnectionCapacity)
    : World + DrainState :=
  if negb (lifecycle w =? STATE_ACTIVE) then inl (fence e w [])
  else
    let w := update_partition_load_stats w in
    let w := fail_recovered_accumulator_batches w in
    let w := fail_recovered_retry_slots w in
    let w := fail_expired_accumulator_batches c e w in
    let '(parked, to_send, expired) := collect_retries c e (retry (pipe w)) usize_max in
    let w := upd_retry parked w in
    if negb (bool_decide (expired = [])) then inl (expire_batches e w expired to_send)
    else
      let '(w, to_send) := fail_recovered_batches w to_send in
      let '(w, slots, sends) := route_resends e w capacity to_send in
      let '(w, ready) :=
        if producer_epoch (identity w) =? i16_max then bump_idempotent_epoch e w else (w, true) in
      if negb ready then inl (foldl (λ w pb, park pb w) w sends.*2)
      else
        let occupied := list_to_set (pb_key <$> sends.*2) ∪ dom (retry (pipe w)) ∪ active in
        let w := foldl (λ w pb, note_node_latency w (pb_key pb) (now e) true) w sends.*2 in
        inr (mkDrain w slots sends occupied).

Definition drain_batches c e w (intent : DrainIntent) (active : gset topic_partition)
    (capacity : ConnectionCapacity) : World * list (Z * PreparedBatch) :=
  match drain_resends c e w active capacity with
  | inl w => (w, [])
  | inr d =>
    let keys := (iter (accumulators (dr_world d))).*1 in
    let d := foldl (drain_key c e intent) d keys in
    if bool_decide (dr_sends d = []) then (notify_waiters (dr_world d), [])
    else (dr_world d, dr_sends d)
  end.

(** ** The completion cycle *)

Definition CycleVerdicts_default : CycleVerdicts := mkCycle false None false [] [] [] [] [].

(** A verdict that arrives after a fatal one of the same cycle. *)
Definition record_fenced (v : CycleVerdicts) (to_fail : list PreparedBatch) w pb
    (verdict : BatchVerdict) : CycleVerdicts * World :=
  match verdict with
  | Acked base_offset log_append_time_ms => (v, ack_batch pb base_offset log_append_time_ms w)
  | Terminal code _ => (v, terminal_fail_batch pb (ProducerError.Server code) w)
  | VFatal code =>
    (v, fail_prepared pb (fatal_error code) (record_transaction_fatal_error pb code w))
  | Barred barrier => (v, fail_prepared pb (Barrier_error barrier) w)
  | Retry | BumpEpochAndRetry | RestartSequenceAndRetry | Split =>
    (mkCycle (needs_refresh v) (Some (to_fail ++ [pb])) (bump_epoch v) (repairs v) (restarts v)
       (rewrites v) (splits v) (failed v), w)
  end.

Definition push_failed (v : CycleVerdicts) pb (r : SequenceRepair)
    (err : ProducerError.producer_error) : CycleVerdicts :=
  let '(bump, reps) := note_repair (bump_epoch v) (repairs v) pb r in
  mkCycle (needs_refresh v) (fenced v) bump reps (restarts v) (rewrites v) (splits v)
    (failed v ++ [(pb, err)]).

Definition sort_verdict c (v : CycleVerdicts) w pb (verdict : BatchVerdict)
    : CycleVerdicts * World :=
  match fenced v with
  | Some to_fail => record_fenced v to_fail w pb verdict
  | None =>
    match verdict with
    | Acked base_offset log_append_time_ms =>
      (v, ack_batch pb base_offset log_append_time_ms (record_ack pb base_offset w))
    | Terminal code repair => (push_failed v pb repair (ProducerError.Server code), w)
    | Split =>
      (mkCycle (needs_refresh v) (fenced v) (bump_epoch v) (repairs v) (restarts v) (rewrites v)
         (splits v ++ [pb]) (failed v), w)
    | Retry | BumpEpochAndRetry | RestartSequenceAndRetry =>
      let '(pb, spent) := take_retry pb (retries c) in
      if spent then
        let error := SendFailure_error (default FailureTransport (pb_last_failure pb)) in
        (push_failed v pb (repair_after_failure (BatchMode_of (pb_record_batch pb))) error, w)
      else
        match verdict with
        | BumpEpochAndRetry =>
          (mkCycle (needs_refresh v) (fenced v) (bump_epoch v) (repairs v) (restarts v)
             (rewrites v ++ [pb]) (splits v) (failed v), w)
        | RestartSequenceAndRetry =>
          (mkCycle (needs_refresh v) (fenced v) (bump_epoch v) (repairs v) (restarts v ++ [pb])
             (rewrites v) (splits v) (failed v), w)
        | _ => (v, park pb w)
        end
    | VFatal code =>
      (mkCycle (needs_refresh v) (Some []) (bump_epoch v) (repairs v) (restarts v) (rewrites v)
         (splits v) (failed v),
       fail_prepared pb (fatal_error code) (record_transaction_fatal_error pb code w))
    | Barred barrier => (v, fail_prepared pb (Barrier_error barrier) w)
    end
  end.

Definition note_refresh (v : CycleVerdicts) (refresh_needed : bool) : CycleVerdicts :=
  mkCycle (needs_refresh v || refresh_needed) (fenced v) (bump_epoch v) (repairs v) (restarts v)
    (rewrites v) (splits v) (failed v).

Definition record_verdict c (v : CycleVerdicts) w (res : BatchSendResult) : CycleVerdicts * World :=
  sort_verdict c (note_refresh v (sr_refresh_needed res)) w (sr_pb res) (sr_verdict res).

(** The two halves go to the front of the queue, the first half in front. *)
Definition requeue_parts w pb : World :=
  let key := pb_key pb in
  let middle := (length (pb_records pb) / 2)%nat in
  let first := take middle (pb_records pb) in
  let second := drop middle (pb_records pb) in
  match accumulators w !! key with
  | None =>
    let w := fail_batch first (ProducerError.Server codes.MESSAGE_TOO_LARGE) w in
    let w := fail_batch second (ProducerError.Server codes.MESSAGE_TOO_LARGE) w in
    drop_memory (pb_memory pb) (finish_in_flight w)
  | Some a =>
    let a := push_front a second (pb_generation pb) (pb_created_at pb) in
    let a := push_front a first (pb_generation pb) (pb_created_at pb) in
    drop_memory (pb_memory pb)
      (finish_in_flight (upd_accumulators (<[key := a]> (accumulators w)) w))
  end.

Definition split_and_requeue w pb (epoch_bumped : bool) : World :=
  let mode := BatchMode_of (pb_record_batch pb) in
  let w := if bool_decide (mode ≠ Plain) && negb epoch_bumped
           then upd_next_seq (<[pb_key pb := pb_base_sequence pb]> (next_seq w)) w else w in
  requeue_parts w pb.

Definition restart_and_park w pb : World :=
  let '(pb, w) := restart_sequence pb w in park pb w.

Definition apply_verdicts e (v : CycleVerdicts) w : World * bool :=
  match fenced v with
  | Some to_fail =>
    let w := foldl (λ w pe, terminal_fail_batch pe.1 pe.2 w) w (failed v) in
    (fence e w (to_fail ++ restarts v ++ rewrites v ++ splits v), false)
  | None =>
    let '(w, epoch_bumped) :=
      if bump_epoch v || negb (bool_decide (rewrites v = [])) then
        let '(w, epoch_bumped) := bump_idempotent_epoch e w in
        if epoch_bumped
        then (foldl (λ w pb, restart_and_park w (set_identity pb (identity w))) w (rewrites v), true)
        else (foldl (λ w pb, park pb w) w (rewrites v), false)
      else (w, false) in
    let w := foldl apply_repair w (repairs v) in
    let w := foldl restart_and_park w (restarts v) in
    let w := foldl (λ w pb, split_and_requeue w pb epoch_bumped) w (splits v) in
    let w := foldl (λ w pe, terminal_fail_batch pe.1 pe.2 w) w (failed v) in
    (w, needs_refresh v)
  end.

Definition complete_batches c e w (results : list BatchSendResult) : World * bool :=
  let '(v, w) := foldl (λ '(v, w) res, record_verdict c v w res) (CycleVerdicts_default, w) results in
  apply_verdicts e v w.

(** ** Metadata *)

Definition adopt_topic (r : Routes) (t : MetadataTopic) : Routes :=
  match mt_name t with
  | None => r
  | Some name =>
    if negb (mt_error_code t =? 0) then r
    else
      let leaders := foldl (λ m p, <[(name, p.1) := p.2]> m) (partition_leaders r) (mt_partitions t) in
      let cache :=
        match metadata_cache r !! name, i32_try_from (Z.of_nat (length (mt_partitions t))) with
        | Some _, Some n =>
          if 0 <? n then <[name := mkTopicMetadata n (mt_topic_id t)]> (metadata_cache r)
          else metadata_cache r
        | _, _ => metadata_cache r
        end in
      mkRoutes cache leaders (partitioner r)
  end.

Definition adopt_metadata (md : list MetadataTopic) (r : Routes) : Routes := foldl adopt_topic r md.

(** [update_leaders_from_metadata]; [None] when the refresh failed. *)
Definition update_leaders_from_metadata w (md : option (list MetadataTopic)) : World :=
  match md with Some md => upd_routes (adopt_metadata md (routes w)) w | None => w end.

(** ** The next wake-up *)

Definition schedule_retry c e w (capacity : ConnectionCapacity) (s : Schedule)
    (kb : topic_partition * PreparedBatch) : Schedule :=
  let pb := kb.2 in
  let s := unsettle s in
  if bool_decide (is_Some (drained_barrier w (pb_generation pb))) then set_immediate s
  else
    let s := match delivery_deadline (pb_created_at pb) (delivery_timeout c) with
             | Some deadline => include_deadline s deadline (now e)
             | None => s
             end in
    if available capacity (resolve_leader e w (pb_key pb)) then
      match pb_backoff_until pb with
      | Some backoff_until => include_deadline s backoff_until (now e)
      | None => set_immediate s
      end
    else s.

Definition schedule_key c e w (force : bool) (occupied : gset topic_partition)
    (capacity : ConnectionCapacity) (s : Schedule) (key : topic_partition) : Schedule :=
  match accumulators w !! key with
  | None => s
  | Some a =>
    let current := match ac_current a with
                   | Some b => if is_empty b then None else Some b
                   | None => None
                   end in
    let has_ready := negb (bool_decide (ac_ready a = [])) in
    if negb (bool_decide (is_Some current)) && negb has_ready then s
    else
      let s := unsettle s in
      let oldest := match ac_ready a with b :: _ => Some b | [] => ac_current a end in
      let s := match oldest ≫= λ b, delivery_deadline (ib_first_append_at b) (delivery_timeout c) with
               | Some deadline => include_deadline s deadline (now e)
               | None => s
               end in
      let barred b := bool_decide (is_Some (undrained_barrier w (ib_generation b))) in
      let has_recovery_invalid :=
        recovery_scan_needed w
        && (match ac_current a with Some b => barred b | None => false end
            || existsb barred (ac_ready a)) in
      if has_recovery_invalid then set_immediate s
      else if bool_decide (is_Some (retry (pipe w) !! key)) || bool_decide (key ∈ occupied)
              || negb (available capacity (resolve_leader e w key))
      then s
      else
        let s := if has_ready then set_immediate s else s in
        match current with
        | None => s
        | Some b =>
          if force || barred b then set_immediate s
          else include_deadline s
                 (default (now e) (checked_add (ib_first_append_at b) (linger c))) (now e)
        end
  end.

Definition schedule c e w (force : bool) (occupied : gset topic_partition)
    (capacity : ConnectionCapacity) : Schedule :=
  let s := mkSchedule false None
             (bool_decide (retry (pipe w) = ∅) && (in_flight w =? 0)) in
  let s := foldl (schedule_retry c e w capacity) s (iter (retry (pipe w))) in
  foldl (schedule_key c e w force occupied capacity) s (iter (accumulators w)).*1.
End cycles.
