(* ===== verification/SenderDrive.v ===== *)
(** * The loop of the producer sender

    [drive] of [crates/client-producer/src/sender.rs] as a step relation. A
    step is one pass of the loop (a drain, or one arm of its [select!]), one
    side of the send of a batch, or an operation of the application on the
    shared state: an append, the seal of a batch that a record does not fit,
    the abort of the undrained batches, a change of the transaction state, a
    refresh of the metadata, a close. The label of a step is what the
    application hands to the sender in it: reply channels and buffer memory. *)

From S2P Require Import Prelude Bytes Errors Partitioner Accumulator TxnRetry TxnState Sender SenderCycle.

(** A reply channel or a reservation of buffer memory. *)
Inductive resource : Type := Channel (n : nat) | Memory (n : Z).

#[global] Instance resource_eq_dec : EqDecision resource.
Proof. solve_decision. Defined.

(** The send of a batch before, during and after its [await]. *)
Inductive Phase {PA : ProtocolApi} : Type :=
| Queued (pb : PreparedBatch)
| Wire (pb : PreparedBatch) (req : ProduceRequest)
| Done (res : BatchSendResult).

Record Request {PA : ProtocolApi} : Type := mkRequest {
  rq_leader : Z;
  rq_last_acked : option Z;
  rq_phase : Phase;
}.
Arguments mkRequest {PA}.

Record Driver {PA : ProtocolApi} : Type := mkDriver {
  world : World;
  requests : list Request;
  occupied : gset topic_partition;
  capacity : ConnectionCapacity;
  force : bool;
  stopping : bool;
  refreshing : bool;
  stopped : bool;
}.
Arguments mkDriver {PA}.

Section drive.
Context {PA : ProtocolApi} {HO : HashOrder}.
Implicit Types (c : SenderConfig) (e : Env) (w : World) (pb : PreparedBatch) (d : Driver).

Definition phase_batch (p : Phase) : PreparedBatch :=
  match p with Queued pb => pb | Wire pb _ => pb | Done res => sr_pb res end.

Definition rq_batch (r : Request) : PreparedBatch := phase_batch (rq_phase r).

Definition set_world d w : Driver :=
  mkDriver w (requests d) (occupied d) (capacity d) (force d) (stopping d) (refreshing d) (stopped d).

Definition next_schedule c e d : Schedule :=
  schedule c e (world d) (force d) (occupied d) (capacity d).

(** The drained batches become requests. *)
Definition push_request d (lb : Z * PreparedBatch) : Driver :=
  let '(leader, pb) := lb in
  let last_acked := last_acked_offset (pipe (world d)) !! pb_key pb in
  mkDriver (world d) (requests d ++ [mkRequest leader last_acked (Queued pb)])
    ({[ pb_key pb ]} ∪ occupied d) (reserve (capacity d) leader) (force d) (stopping d)
    (refreshing d) (stopped d).

Definition drive_drain c e d : Driver :=
  let intent := if force d then DrainForce else DrainExpired in
  let '(w, sends) := drain_batches c e (world d) intent (occupied d) (capacity d) in
  foldl push_request (set_world d w) sends.

Definition start_request c e w (p : Phase) : option Phase :=
  match p with
  | Queued pb =>
    match send_begin c e w pb with
    | inl res => Some (Done res)
    | inr (pb, req) => Some (Wire pb req)
    end
  | _ => None
  end.

Definition finish_request c e w (r : Request) (answer : option ProduceResponse)
    : option (World * Request) :=
  match rq_phase r with
  | Wire pb _ =>
    let '(w, res) := send_end c e w pb (rq_leader r) (rq_last_acked r) answer in
    Some (w, mkRequest (rq_leader r) (rq_last_acked r) (Done res))
  | _ => None
  end.

Definition request_result (r : Request) : option (Z * BatchSendResult) :=
  match rq_phase r with Done res => Some (rq_leader r, res) | _ => None end.

(** The arm of [requests.next()]: [rest] are the requests still running. *)
Definition drive_complete c e d (completed : list (Z * BatchSendResult)) (rest : list Request)
    : Driver :=
  let '(cap, occ) :=
    foldl (λ '(cap, occ) lr, (release cap lr.1, occ ∖ {[ pb_key (sr_pb lr.2) ]}))
      (capacity d, occupied d) completed in
  let '(w, refresh) := complete_batches c e (world d) completed.*2 in
  mkDriver w rest occ cap (force d) (stopping d) (refreshing d || refresh) (stopped d).

Definition drive_shutdown d : Driver :=
  mkDriver (world d) (requests d) (occupied d) (capacity d) true true (refreshing d) (stopped d).

(** A wake; [None] when every sender of the channel is gone. *)
Definition drive_wake d (received : option DrainIntent) : Driver :=
  match received with
  | Some DrainForce =>
    mkDriver (world d) (requests d) (occupied d) (capacity d) true (stopping d) (refreshing d)
      (stopped d)
  | Some (DrainReady | DrainExpired) => d
  | None => drive_shutdown d
  end.

(** [if next.settled]: the end of a forced drain, and of a stopping loop. *)
Definition drive_settle d : Driver :=
  mkDriver (world d) (requests d) (occupied d) (capacity d) false (stopping d) (refreshing d)
    (stopping d).

Definition drive_refreshed d (md : option (list MetadataTopic)) : Driver :=
  mkDriver (update_leaders_from_metadata (world d) md) (requests d) (occupied d) (capacity d)
    (force d) (stopping d) false (stopped d).

(** ** The application *)

(** The last step of [Producer::send]: the accumulator of the partition, made
    when it is missing, takes the record. *)
Definition app_append w (batch_size : Z) (key : topic_partition) (k v : option bytes)
    (headers : list Header) (timestamp_ms : Z) (generation memory : option Z) (at_ : Z)
    (channel : nat) : World :=
  let a := default (Accumulator_new batch_size) (accumulators w !! key) in
  let '(a, _, unused) := append a k v headers timestamp_ms generation memory at_ channel in
  drop_memory unused (upd_accumulators (<[key := a]> (accumulators w)) w).

Definition app_seal w (key : topic_partition) : World :=
  match accumulators w !! key with
  | Some a => upd_accumulators (<[key := seal_current a]> (accumulators w)) w
  | None => w
  end.

(** [Producer::abort_undrained_batches], for every accumulator. *)
Definition app_abort w : World :=
  foldl (λ w ka,
    let '(a, batches) := abort_undrained_batches ka.2 in
    let w := upd_accumulators (<[ka.1 := a]> (accumulators w)) w in
    foldl (λ w b,
      drop_memory (ib_memory b)
        (push_replies ((λ r, (pr_ack r, Err ProducerError.TransactionAborted)) <$> ib_records b) w))
      w batches) w (iter (accumulators w)).

Definition app_txn w (t : TxnShared) : World :=
  mkWorld (identity w) t (routes w) (accumulators w) (next_seq w) (lifecycle w) (in_flight w)
    (effects w) (pipe w).

Definition resources_of (channel : nat) (memory : option Z) : list resource :=
  Channel channel :: (Memory <$> option_list memory).

(** ** Steps

    [promise d e results] is what the rest of the system promises for the cycle
    that runs in [d] with the answers [e], on the results it completes. *)

Context (promise : Driver → Env → list BatchSendResult → Prop).

Inductive drive_step c : Driver → list resource → Driver → Prop :=
| step_drain e d :
    stopped d = false → immediate (next_schedule c e d) = true → promise d e [] →
    drive_step c d [] (drive_drain c e d)
| step_start e d before r after p :
    requests d = before ++ r :: after → start_request c e (world d) (rq_phase r) = Some p →
    drive_step c d []
      (mkDriver (world d) (before ++ mkRequest (rq_leader r) (rq_last_acked r) p :: after)
         (occupied d) (capacity d) (force d) (stopping d) (refreshing d) (stopped d))
| step_answer e d before r after answer w r' :
    requests d = before ++ r :: after → finish_request c e (world d) r answer = Some (w, r') →
    drive_step c d []
      (mkDriver w (before ++ r' :: after) (occupied d) (capacity d) (force d) (stopping d)
         (refreshing d) (stopped d))
| step_complete e d finished rest completed :
    stopped d = false → requests d ≡ₚ finished ++ rest → finished ≠ [] →
    mapM request_result finished = Some completed → promise d e completed.*2 →
    drive_step c d [] (drive_complete c e d completed rest)
| step_settle e d :
    stopped d = false → immediate (next_schedule c e d) = false →
    settled (next_schedule c e d) = true →
    drive_step c d [] (drive_settle d)
| step_shutdown d : stopped d = false → drive_step c d [] (drive_shutdown d)
| step_wake d received : stopped d = false → drive_step c d [] (drive_wake d received)
| step_refreshed d md : refreshing d = true → drive_step c d [] (drive_refreshed d md)
| step_append d batch_size key k v headers ts generation memory at_ channel :
    stopped d = false → (is_Some generation → is_Some (transactional_id c)) →
    drive_step c d (resources_of channel memory)
      (set_world d (app_append (world d) batch_size key k v headers ts generation memory at_ channel))
| step_seal d key : drive_step c d [] (set_world d (app_seal (world d) key))
| step_abort d : drive_step c d [] (set_world d (app_abort (world d)))
| step_txn d t : drive_step c d [] (set_world d (app_txn (world d) t))
| step_clear_sequences d :
    is_Some (transactional_id c) → drive_step c d [] (set_world d (upd_next_seq ∅ (world d)))
| step_metadata d md :
    drive_step c d [] (set_world d (update_leaders_from_metadata (world d) md))
| step_close d : drive_step c d [] (set_world d (upd_lifecycle STATE_CLOSED (world d))).

(** The states that [drive] reaches from a start, with what was handed in. *)
Inductive drive_reach c (d0 : Driver) : list resource → Driver → Prop :=
| reach_start : drive_reach c d0 [] d0
| reach_step given d l d' :
    drive_reach c d0 given d → drive_step c d l d' → drive_reach c d0 (given ++ l) d'.

Definition initial_world (i : Identity) (t : TxnShared) (r : Routes) : World :=
  mkWorld i t r ∅ ∅ STATE_ACTIVE 0 (mkEffects [] [] 0 [] []) (mkPipeline ∅ ∅ ∅ None).

Definition drive_init c (i : Identity) (t : TxnShared) (r : Routes) : Driver :=
  mkDriver (initial_world i t r) [] ∅ (mkCapacity (max_in_flight c) ∅) false false false false.
End drive.
