(* ===== verification/SenderProofs.v ===== *)
(** * The sender loses no record and no memory

    Conservation of reply channels and buffer memory through every operation
    of the sender, and the accounting that makes a partition have one batch
    outstanding. [moves] relates the states before and after an operation: [F]
    are the batches taken out of the shared state (their partition and what
    they hold), [X] the resources of batches that have no sequence yet. *)

From S2P Require Import Prelude Bytes Errors Partitioner Accumulator TxnRetry TxnState Sender SenderCycle SenderDrive.

(** Opaque, so that counting does not unfold it. *)
Lemma res_dec (x y : resource) : {x = y} + {x ≠ y}.
Proof. apply resource_eq_dec. Qed.

(** ** What a batch holds *)

Definition batch_res (b : InProgressBatch) : list resource :=
  (Channel <$> (pr_ack <$> ib_records b)) ++ (Memory <$> option_list (ib_memory b)).

Definition acc_res (a : Accumulator) : list resource := concat (batch_res <$> queued a).

Section conserve.
Context {PA : ProtocolApi} {HO : HashOrder}.
Implicit Types (c : SenderConfig) (e : Env) (w : World) (pb : PreparedBatch) (d : Driver).
Implicit Types (X : list resource) (F : list (topic_partition * list resource)).

Definition pb_res pb : list resource :=
  (Channel <$> (pr_ack <$> pb_records pb)) ++ (Memory <$> option_list (pb_memory pb)).

Definition foot pb : topic_partition * list resource := (pb_key pb, pb_res pb).

Definition map_res {A} (f : A → list resource) (m : gmap topic_partition A) : list resource :=
  concat (f <$> (map_to_list m).*2).

Definition returned w : list resource :=
  (Channel <$> (replies (effects w)).*1) ++ (Memory <$> released (effects w)).

Definition total w F X : list resource :=
  map_res acc_res (accumulators w) ++ map_res pb_res (retry (pipe w)) ++ concat F.*2 ++ X ++ returned w.

Record world_inv w F : Prop := {
  wi_keys k pb : retry (pipe w) !! k = Some pb → pb_key pb = k;
  wi_nodup : NoDup F.*1;
  wi_disjoint k : k ∈ F.*1 → retry (pipe w) !! k = None;
  wi_in_flight : in_flight w = Z.of_nat (size (retry (pipe w)) + length F);
  wi_empty k a b : accumulators w !! k = Some a → b ∈ queued a → ib_records b = [] →
                   ib_memory b = None;
}.

Definition moves w F X w' F' X' : Prop :=
  world_inv w F → world_inv w' F' ∧ total w' F' X' ≡ₚ total w F X.

(** ** Permutations by counting *)

Notation cnt x l := (count_occ res_dec l x).

Lemma perm_count (l k : list resource) : (∀ x, cnt x l = cnt x k) ↔ l ≡ₚ k.
Proof. symmetry. apply (Permutation_count_occ res_dec). Qed.

Lemma map_res_insert {A} (f : A → list resource) m k v :
  m !! k = None → map_res f (<[k := v]> m) ≡ₚ f v ++ map_res f m.
Proof. intros Hk. unfold map_res. by rewrite map_to_list_insert. Qed.

Lemma map_res_delete {A} (f : A → list resource) m k v :
  m !! k = Some v → map_res f m ≡ₚ f v ++ map_res f (delete k m).
Proof.
  intros Hk. rewrite <- (insert_delete_id m k v Hk) at 1.
  by rewrite map_res_insert by (by rewrite lookup_delete_eq).
Qed.

Lemma map_res_update {A} (f : A → list resource) m k v v' :
  m !! k = Some v → f v ++ map_res f (<[k := v']> m) ≡ₚ f v' ++ map_res f m.
Proof.
  intros Hk. rewrite (map_res_delete f m k v Hk), <- insert_delete_eq.
  rewrite map_res_insert by (by rewrite lookup_delete_eq). by rewrite !app_assoc, (Permutation_app_comm (f v)).
Qed.

Lemma map_res_empty {A} (f : A → list resource) : map_res f ∅ = [].
Proof. done. Qed.

Lemma acc_res_app l k : concat (batch_res <$> (l ++ k)) = concat (batch_res <$> l) ++ concat (batch_res <$> k).
Proof. by rewrite fmap_app, concat_app. Qed.
End conserve.

Notation cnt x l := (count_occ res_dec l x).

(** [permute] proves a permutation of concatenations by counting. *)
Ltac permute :=
  apply perm_count; intros ?x;
  repeat match goal with
  | H : _ ≡ₚ _ |- _ => pose proof (proj2 (perm_count _ _) H x); clear H
  end;
  repeat (rewrite ?count_occ_app in *; csimpl in *);
  repeat match goal with
  | |- context [res_dec ?a ?b] => destruct (res_dec a b) in *
  end; try lia.

Section moves.
Context {PA : ProtocolApi} {HO : HashOrder}.
Implicit Types (c : SenderConfig) (e : Env) (w : World) (pb : PreparedBatch) (d : Driver).
Implicit Types (X : list resource) (F : list (topic_partition * list resource)).

Lemma moves_refl w F X : moves w F X w F X.
Proof. by intros ?. Qed.

Lemma moves_trans w1 F1 X1 w2 F2 X2 w3 F3 X3 :
  moves w1 F1 X1 w2 F2 X2 → moves w2 F2 X2 w3 F3 X3 → moves w1 F1 X1 w3 F3 X3.
Proof. intros H1 H2 [H3 E1]%H1. apply H2 in H3 as [? E2]. split; [done|]. by rewrite E2. Qed.

Lemma total_perm w F F' X X' : F ≡ₚ F' → X ≡ₚ X' → total w F X ≡ₚ total w F' X'.
Proof. intros HF HX. unfold total. by rewrite HF, HX. Qed.

Lemma world_inv_perm w F F' : F ≡ₚ F' → world_inv w F → world_inv w F'.
Proof.
  intros HF [????]. split; [done|by rewrite <- HF| |by rewrite <- HF|done].
  intros k. rewrite <- HF. auto.
Qed.

Lemma moves_perm w w' F F1 F' F1' X X1 X' X1' :
  F ≡ₚ F1 → F' ≡ₚ F1' → X ≡ₚ X1 → X' ≡ₚ X1' → moves w F1 X1 w' F1' X1' → moves w F X w' F' X'.
Proof.
  intros HF HF' HX HX' Hm Hi. apply (world_inv_perm _ _ _ HF) in Hi. apply Hm in Hi as [Hi E].
  split; [by apply (world_inv_perm _ _ _ (symmetry HF'))|].
  by rewrite (total_perm w' _ _ _ _ HF' HX'), E, (total_perm w _ _ _ _ HF HX).
Qed.

(** An operation that leaves batches, counters and replies alone. *)
Definition same_core w w' : Prop :=
  accumulators w' = accumulators w ∧ retry (pipe w') = retry (pipe w) ∧ in_flight w' = in_flight w ∧
  replies (effects w') = replies (effects w) ∧ released (effects w') = released (effects w).

Lemma moves_core w w' F X : same_core w w' → moves w F X w' F X.
Proof.
  intros (Ha & Hr & Hf & Hp & Hl) [H1 H2 H3 H4 H5]. split.
  - split; rewrite ?Hr, ?Hf, ?Ha; done.
  - unfold total, returned. by rewrite Ha, Hr, Hp, Hl.
Qed.

(** A loop over a list, each pass of which uses up loose resources. *)
Lemma moves_foldl {A} (f : World → A → World) (h : A → list resource) w l F X :
  (∀ w x F X, moves w F (h x ++ X) (f w x) F X) →
  moves w F (concat (h <$> l) ++ X) (foldl f w l) F X.
Proof.
  intros Hf. revert w. induction l as [|x l IH]; intros w; simpl; [apply moves_refl|].
  eapply moves_trans; [|apply IH]. rewrite <- !app_assoc. apply Hf.
Qed.

Lemma moves_foldl_core {A} (f : World → A → World) w l F X :
  (∀ w x, same_core w (f w x)) → moves w F X (foldl f w l) F X.
Proof.
  intros Hf. revert w. induction l as [|x l IH]; intros w; simpl; [apply moves_refl|].
  eapply moves_trans; [|apply IH]. apply moves_core, Hf.
Qed.

(** ** Replies *)

Lemma fail_batch_replies records err w :
  ∃ l, fail_batch records err w = push_replies l w ∧ l.*1 = pr_ack <$> records.
Proof.
  unfold fail_batch. eexists. split; [done|]. destruct records as [|r rest]; [done|]. simpl.
  f_equal. rewrite <- list_fmap_compose. done.
Qed.

Lemma returned_push l w : returned (push_replies l w) ≡ₚ (Channel <$> l.*1) ++ returned w.
Proof. unfold returned. simpl. rewrite !fmap_app. permute. Qed.

Lemma returned_drop m w : returned (drop_memory m w) ≡ₚ (Memory <$> option_list m) ++ returned w.
Proof. unfold returned. simpl. rewrite fmap_app. permute. Qed.

(** A record resolved without a sequence. *)
Lemma moves_push l w F X : moves w F ((Channel <$> l.*1) ++ X) (push_replies l w) F X.
Proof.
  intros [H1 H2 H3 H4 H5]. split; [by split|].
  pose proof (returned_push l w). unfold total. csimpl. permute.
Qed.

Lemma moves_drop m w F X : moves w F ((Memory <$> option_list m) ++ X) (drop_memory m w) F X.
Proof.
  intros [H1 H2 H3 H4 H5]. split; [by split|].
  pose proof (returned_drop m w). unfold total. csimpl. permute.
Qed.

Lemma moves_fail_batch records err w F X :
  moves w F ((Channel <$> (pr_ack <$> records)) ++ X) (fail_batch records err w) F X.
Proof.
  destruct (fail_batch_replies records err w) as (l & -> & <-). apply moves_push.
Qed.

Lemma moves_fail_in_progress b err w F X :
  moves w F (batch_res b ++ X) (fail_in_progress b err w) F X.
Proof.
  unfold fail_in_progress, batch_res. rewrite <- app_assoc.
  eapply moves_trans; [apply moves_fail_batch|apply moves_drop].
Qed.

(** The in-flight slot of a batch is given up with the batch. *)
Lemma moves_finish k l w F X : moves w ((k, l) :: F) X (finish_in_flight w) F (l ++ X).
Proof.
  intros [H1 H2 H3 H4 H5].
  assert (same_core (upd_in_flight (in_flight w - 1) w) (finish_in_flight w)) as Hc
    by (unfold finish_in_flight; destruct (_ =? _); done).
  apply (moves_core _ _ F (l ++ X)) in Hc. destruct Hc as [Hi E].
  { inversion_clear H2. split; simpl; [done..| |rewrite H4; simpl; lia|done].
    intros k' Hk'. apply H3. by right. }
  split; [done|]. rewrite E. unfold total, returned. csimpl. permute.
Qed.

(** What a batch in hand holds can be looked at as loose resources. *)
Lemma moves_take k l l' w F X : moves w ((k, l ++ l') :: F) X w ((k, l') :: F) (l ++ X).
Proof.
  intros [H1 H2 H3 H4 H5]. split; [by split|]. unfold total. csimpl. permute.
Qed.

Lemma moves_fail_prepared pb err w F X :
  moves w (foot pb :: F) X (fail_prepared pb err w) F X.
Proof.
  unfold fail_prepared, foot, pb_res.
  eapply moves_trans; [apply moves_take|].
  eapply moves_trans; [apply moves_fail_batch|].
  eapply moves_trans; [apply moves_finish|apply moves_drop].
Qed.

Lemma moves_ack pb base ts w F X : moves w (foot pb :: F) X (ack_batch pb base ts w) F X.
Proof.
  unfold ack_batch, foot, pb_res.
  eapply moves_trans; [apply moves_take|].
  eapply moves_trans; [|eapply moves_trans; [apply moves_finish|apply moves_drop]].
  eapply (moves_trans _ _ _ (push_replies _ w)); [|by apply moves_core].
  match goal with |- moves _ _ _ (push_replies ?l _) _ _ =>
    assert (Channel <$> (pr_ack <$> pb_records pb) = Channel <$> l.*1) as -> end.
  { f_equal. by rewrite <- list_fmap_compose. }
  apply moves_push.
Qed.

Lemma moves_terminal pb err w F X :
  moves w (foot pb :: F) X (terminal_fail_batch pb err w) F X.
Proof.
  unfold terminal_fail_batch. eapply moves_trans; [|apply moves_fail_prepared].
  apply moves_core. by case_bool_decide.
Qed.

(** ** Operations that touch no batch *)

Lemma fatal_core pb code w : same_core w (record_transaction_fatal_error pb code w).
Proof. unfold record_transaction_fatal_error. by case_bool_decide. Qed.

Lemma record_ack_core pb base w : same_core w (record_ack pb base w).
Proof. unfold record_ack. by destruct (_ <? _). Qed.

Lemma latency_core w key now drained : same_core w (note_node_latency w key now drained).
Proof.
  unfold note_node_latency. destruct (_ =? _); [done|]. destruct (_ !! _); [|done].
  by destruct (_ <=? _).
Qed.

Lemma repair_core w r : same_core w (apply_repair w r).
Proof. by destruct r as [[??]?]. Qed.

Lemma bump_core e w : same_core w (bump_idempotent_epoch e w).1.
Proof.
  unfold bump_idempotent_epoch. destruct (i16_try_from _); [done|].
  destruct (init_producer_id e); [|done]. by destruct (_ || _).
Qed.

Lemma same_core_refl w : same_core w w.
Proof. done. Qed.

Lemma same_core_trans w1 w2 w3 : same_core w1 w2 → same_core w2 w3 → same_core w1 w3.
Proof. intros (?&?&?&?&?) (?&?&?&?&?). repeat split; congruence. Qed.

Lemma foldl_core {A} (f : World → A → World) l w :
  (∀ w x, same_core w (f w x)) → same_core w (foldl f w l).
Proof.
  intros Hf. revert w. induction l as [|x l IH]; intros w; simpl; [done|].
  eapply same_core_trans; [apply Hf|apply IH].
Qed.

Lemma load_stats_core w : same_core w (update_partition_load_stats w).
Proof.
  unfold update_partition_load_stats. destruct (negb _); [done|].
  apply foldl_core. by intros ? [topic ps].
Qed.

(** ** Retry slots *)

Lemma moves_park pb w F X : moves w (foot pb :: F) X (park pb w) F X.
Proof.
  intros [H1 H2 H3 H4 H5]. inversion_clear H2 as [|?? Hni Hnd].
  assert (retry (pipe w) !! pb_key pb = None) as Hn by (apply H3; left).
  split.
  - split; simpl; [|done| |rewrite map_size_insert_None by done; rewrite H4; simpl; lia|done].
    + intros k pb'. rewrite lookup_insert_Some. intros [[??]|[??]]; [by simplify_eq|auto].
    + intros k Hk. rewrite lookup_insert_ne by (by intros <-). apply H3. by right.
  - unfold total, returned. csimpl. pose proof (map_res_insert pb_res _ _ pb Hn). permute.
Qed.

(** The slots of [l] leave the map. *)
Lemma moves_unpark m' l w F X :
  map_to_list (retry (pipe w)) ≡ₚ map_to_list m' ++ l →
  moves w F X (upd_retry m' w) ((foot <$> l.*2) ++ F) X.
Proof.
  intros Hm [H1 H2 H3 H4 H5].
  assert (∀ kb, kb ∈ l → pb_key kb.2 = kb.1 ∧ retry (pipe w) !! kb.1 = Some kb.2) as Hl.
  { intros [k pb] Hin. assert ((k, pb) ∈ map_to_list (retry (pipe w))) as Hk
      by (rewrite Hm; set_solver).
    apply elem_of_map_to_list in Hk. simpl. auto. }
  assert ((foot <$> l.*2).*1 = l.*1) as Hkeys.
  { rewrite <- !list_fmap_compose. apply list_fmap_ext. intros i kb Hi.
    apply Hl. by eapply list_elem_of_lookup_2. }
  pose proof (NoDup_fst_map_to_list (retry (pipe w))) as Hnd. rewrite Hm, fmap_app, NoDup_app in Hnd.
  destruct Hnd as (_ & Hdis & Hndl).
  assert (∀ k pb, m' !! k = Some pb → retry (pipe w) !! k = Some pb) as Hsub.
  { intros k pb Hk. apply elem_of_map_to_list. rewrite Hm. apply elem_of_app. left.
    by apply elem_of_map_to_list. }
  split.
  - split; csimpl.
    + intros k pb Hk. apply H1. auto.
    + rewrite fmap_app, Hkeys. apply NoDup_app. split_and!; [done| |done].
      intros k (kb & -> & Hin)%list_elem_of_fmap ?%H3. apply Hl in Hin as [_ ?]. congruence.
    + intros k. rewrite fmap_app, Hkeys, elem_of_app. destruct (m' !! k) as [pb|] eqn:Ek; [|done].
      intros [Hk|?%H3]; [|apply Hsub in Ek; congruence].
      destruct (Hdis k); [|done]. apply list_elem_of_fmap. exists (k, pb).
      split; [done|]. by apply elem_of_map_to_list.
    + rewrite H4, length_app, !length_fmap, <- !length_map_to_list, Hm, length_app. lia.
    + done.
  - unfold total, returned, map_res. csimpl. rewrite Hm, !fmap_app, !concat_app.
    rewrite <- (list_fmap_compose foot snd). change (snd ∘ foot) with pb_res. permute.
Qed.

(** ** Batches that leave or enter an accumulator *)

Lemma moves_accumulator k a a' w F X X' :
  accumulators w !! k = Some a → acc_res a' ++ X' ≡ₚ acc_res a ++ X →
  (∀ b, b ∈ queued a' → b ∈ queued a ∨ (ib_records b = [] → ib_memory b = None)) →
  moves w F X (upd_accumulators (<[k := a']> (accumulators w)) w) F X'.
Proof.
  intros Hk Hr Hq [H1 H2 H3 H4 H5]. split.
  - split; simpl; try done. intros k' a1 b.
    rewrite lookup_insert_Some. intros [[<- <-]|[??]]; [|eauto].
    intros [?|?]%Hq; eauto.
  - unfold total, returned. csimpl. pose proof (map_res_update acc_res _ _ _ a' Hk). permute.
Qed.

(** A loop over the accumulators, each pass of which changes its own. *)
Lemma acc_loop {S} (proj : S → World) (step : S → topic_partition * Accumulator → S)
    (R : S → S → Prop) s l :
  (∀ s, R s s) → (∀ s1 s2 s3, R s1 s2 → R s2 s3 → R s1 s3) →
  (∀ s k a, accumulators (proj s) !! k = Some a →
     R s (step s (k, a)) ∧
     ∀ k', k' ≠ k → accumulators (proj (step s (k, a))) !! k' = accumulators (proj s) !! k') →
  NoDup l.*1 → (∀ k a, (k, a) ∈ l → accumulators (proj s) !! k = Some a) →
  R s (foldl step s l).
Proof.
  intros Hr Ht Hstep. revert s. induction l as [|[k a] l IH]; intros s Hnd Hl; [apply Hr|].
  inversion_clear Hnd as [|?? Hni Hnd'].
  destruct (Hstep s k a) as [H1 H2]; [apply Hl; left|].
  simpl. eapply Ht; [exact H1|]. apply IH; [done|].
  intros k' a' Hin. rewrite H2; [apply Hl; by right|].
  intros ->. apply Hni. apply list_elem_of_fmap. by exists (k, a').
Qed.

Lemma iter_nodup {A} (m : gmap topic_partition A) : NoDup (iter m).*1.
Proof. rewrite iter_perm. apply NoDup_fst_map_to_list. Qed.

Lemma elem_of_iter {A} (m : gmap topic_partition A) k a : (k, a) ∈ iter m ↔ m !! k = Some a.
Proof. rewrite iter_perm. apply elem_of_map_to_list. Qed.

Lemma acc_loop_iter {S} (proj : S → World) (step : S → topic_partition * Accumulator → S)
    (R : S → S → Prop) s :
  (∀ s, R s s) → (∀ s1 s2 s3, R s1 s2 → R s2 s3 → R s1 s3) →
  (∀ s k a, accumulators (proj s) !! k = Some a →
     R s (step s (k, a)) ∧
     ∀ k', k' ≠ k → accumulators (proj (step s (k, a))) !! k' = accumulators (proj s) !! k') →
  R s (foldl step s (iter (accumulators (proj s)))).
Proof.
  intros Hr Ht Hs. apply (acc_loop proj); [done..|apply iter_nodup|].
  intros k a. apply elem_of_iter.
Qed.

(** Failing batches leaves the accumulators alone. *)
Lemma accumulators_fail_in_progress b err w :
  accumulators (fail_in_progress b err w) = accumulators w.
Proof. done. Qed.

Lemma accumulators_finish w : accumulators (finish_in_flight w) = accumulators w.
Proof. unfold finish_in_flight. by destruct (_ =? _). Qed.

Lemma accumulators_fail_prepared pb err w :
  accumulators (fail_prepared pb err w) = accumulators w.
Proof. unfold fail_prepared. simpl. by rewrite accumulators_finish. Qed.

Lemma foldl_accumulators {A} (f : World → A → World) l w :
  (∀ w x, accumulators (f w x) = accumulators w) → accumulators (foldl f w l) = accumulators w.
Proof. intros Hf. revert w. induction l as [|x l IH]; intros w; simpl; [done|]. by rewrite IH. Qed.

Lemma moves_fail_list l err w F X :
  moves w F (concat (batch_res <$> l) ++ X)
    (foldl (λ w b, fail_in_progress b err w) w l) F X.
Proof.
  apply moves_foldl. intros. apply moves_fail_in_progress.
Qed.

Lemma moves_fail_prepared_list {A} (g : A → PreparedBatch) (l : list A) err w F X :
  moves w ((foot <$> (g <$> l)) ++ F) X (foldl (λ w x, fail_prepared (g x) err w) w l) F X.
Proof.
  revert w. induction l as [|x l IH]; intros w; csimpl; [apply moves_refl|].
  eapply moves_trans; [apply moves_fail_prepared|apply IH].
Qed.

Definition keeps w w' : Prop := ∀ F X, moves w F X w' F X.

Lemma keeps_refl w : keeps w w.
Proof. intros F X. apply moves_refl. Qed.

Lemma keeps_trans w1 w2 w3 : keeps w1 w2 → keeps w2 w3 → keeps w1 w3.
Proof. intros H1 H2 F X. eapply moves_trans; [apply H1|apply H2]. Qed.

Lemma keeps_core w w' : same_core w w' → keeps w w'.
Proof. intros H F X. by apply moves_core. Qed.

Lemma acc_res_abort a : acc_res a ≡ₚ concat (batch_res <$> (option_list (ac_current a) ++ ac_ready a)).
Proof. unfold acc_res, queued. by rewrite (Permutation_app_comm (ac_ready a)). Qed.

(** The fence resolves every batch it is given, every parked one, and those of
    the accumulators it can lock. *)
Lemma moves_fence e w to_fail F X : moves w ((foot <$> to_fail) ++ F) X (fence e w to_fail) F X.
Proof.
  unfold fence.
  set (w1 := if _ =? _ then _ else _).
  eapply moves_trans; [apply (moves_core w w1); unfold w1; by destruct (_ =? _)|].
  set (w2 := foldl _ w1 to_fail).
  eapply (moves_trans _ _ _ w2 F X).
  { pose proof (moves_fail_prepared_list id to_fail ProducerError.FencedProducer w1 F X) as Hm.
    by rewrite list_fmap_id in Hm. }
  eapply moves_trans; [apply (moves_unpark ∅ (iter (retry (pipe w2)))); by rewrite iter_perm|].
  set (w3 := foldl _ (upd_retry ∅ w2) _).
  eapply (moves_trans _ _ _ w3 F X).
  { apply (moves_fail_prepared_list snd). }
  generalize F X. apply (acc_loop_iter id _ keeps); [apply keeps_refl|apply keeps_trans|].
  clear. intros w k a Hk. simpl. destruct (locked e k); [split; [apply keeps_refl|done]|].
  split.
  - intros F X. eapply moves_trans; [|apply moves_fail_list].
    apply (moves_accumulator k a); [done| |by intros b ?%not_elem_of_nil].
    by rewrite (acc_res_abort a).
  - intros k' Hne. rewrite foldl_accumulators by done. simpl. by rewrite lookup_insert_ne.
Qed.

(** ** Sweeps of the drain cycle *)

Lemma moves_recovered w batches w' kept F X :
  fail_recovered_batches w batches = (w', kept) →
  moves w ((foot <$> batches) ++ F) X w' ((foot <$> kept) ++ F) X.
Proof.
  unfold fail_recovered_batches.
  assert (∀ acc, foldl (λ '(w, retained) pb,
    match drained_barrier w (pb_generation pb) with
    | Some barrier => (fail_prepared pb (Barrier_error barrier) w, retained)
    | None => (w, retained ++ [pb])
    end) (w, acc) batches = (w', kept) →
    moves w ((foot <$> batches) ++ (foot <$> acc) ++ F) X w' ((foot <$> kept) ++ F) X) as Hg;
    [|intros E; apply (Hg [] E)].
  revert w. induction batches as [|pb l IH]; intros w acc; csimpl; [by intros [= <- <-]|].
  destruct (drained_barrier w (pb_generation pb)); intros Hf.
  - eapply moves_trans; [apply moves_fail_prepared|by apply IH].
  - apply IH in Hf. eapply moves_perm; [|done|done|done|exact Hf].
    rewrite fmap_app, <- app_assoc. csimpl. solve_Permutation.
Qed.

Lemma keeps_retry_slots w : keeps w (fail_recovered_retry_slots w).
Proof.
  unfold fail_recovered_retry_slots.
  generalize (omap (λ kb, (λ barrier, (kb.1, barrier)) <$> drained_barrier w (pb_generation kb.2))
      (iter (retry (pipe w)))). intros l.
  revert w. induction l as [|[k b] l IH]; intros w; csimpl; [apply keeps_refl|].
  eapply keeps_trans; [|apply IH]. destruct (retry (pipe w) !! k) as [pb|] eqn:E; [|apply keeps_refl].
  intros F X. eapply moves_trans; [|apply moves_fail_prepared].
  apply (moves_unpark _ [(k, pb)]). rewrite <- (map_to_list_delete _ _ _ E). solve_Permutation.
Qed.

Lemma barred_res (f : InProgressBatch → option Barrier) l :
  concat (batch_res <$> filter (λ b, f b = None) l) ++
  concat (batch_res <$> (omap (λ b, pair b <$> f b) l).*1) ≡ₚ concat (batch_res <$> l).
Proof.
  induction l as [|b l IH]; [done|]. rewrite filter_cons. csimpl.
  destruct (f b); csimpl; [|rewrite <- app_assoc; by f_equiv].
  rewrite <- IH. permute.
Qed.

Lemma keeps_sweep s k a :
  accumulators s.1 !! k = Some a →
  keeps s.1 (sweep_accumulator s (k, a)).1 ∧
  ∀ k', k' ≠ k → accumulators (sweep_accumulator s (k, a)).1 !! k' = accumulators s.1 !! k'.
Proof.
  destruct s as [w fa]. intros Hk. unfold sweep_accumulator. csimpl.
  set (barred := λ b, undrained_barrier w (ib_generation b)). split.
  - intros F X.
    set (l := omap (λ b, pair b <$> barred b) (option_list (ac_current a) ++ ac_ready a)).
    eapply moves_trans;
      [|apply (moves_foldl _ (λ fb : InProgressBatch * Barrier, batch_res fb.1));
        intros; apply moves_fail_in_progress].
    apply (moves_accumulator k a); [done| |].
    + rewrite app_assoc. apply Permutation_app; [|done]. unfold acc_res, queued. simpl.
      pose proof (barred_res barred (option_list (ac_current a) ++ ac_ready a)) as Hb.
      rewrite filter_app in Hb. fold l in Hb. rewrite <- list_fmap_compose in Hb.
      change (batch_res ∘ fst) with (λ fb : InProgressBatch * Barrier, batch_res fb.1) in Hb.
      rewrite (Permutation_app_comm (ac_ready a)), <- Hb. rewrite !acc_res_app.
      rewrite (Permutation_app_comm (concat (batch_res <$> filter _ (ac_ready a)))).
      apply Permutation_app; [|done]. apply Permutation_app; [|done]. destruct (ac_current a) as [b|]; [|done]. csimpl.
      rewrite filter_cons. fold (barred b). by destruct (barred b).
    + intros b. unfold queued. simpl. rewrite !elem_of_app. intros [[_ ?]%list_elem_of_filter|Hb].
      * left. by left.
      * left. right. destruct (ac_current a) as [b'|]; [|done].
        destruct (undrained_barrier _ _); set_solver.
  - intros k' Hne. rewrite foldl_accumulators by done. simpl. by rewrite lookup_insert_ne.
Qed.

Lemma keeps_recovered_accumulators w : keeps w (fail_recovered_accumulator_batches w).
Proof.
  unfold fail_recovered_accumulator_batches. destruct (negb _); [apply keeps_refl|].
  pose proof (acc_loop_iter fst sweep_accumulator (λ s s', keeps s.1 s'.1) (w, false)) as Hl.
  destruct (foldl _ _ _) as [w' fa]. simpl in Hl.
  eapply keeps_trans; [apply Hl|apply keeps_core; by destruct fa].
  - intros s. apply keeps_refl.
  - intros ???. apply keeps_trans.
  - apply keeps_sweep.
Qed.

(** ** Batches that reached the delivery timeout *)

Lemma split_expired_app dt now ready expired kept :
  split_expired dt now ready = (expired, kept) → ready = expired ++ kept.
Proof.
  revert expired. induction ready as [|b ready IH]; intros expired; simpl; [by intros [= <- <-]|].
  destruct (reached_delivery_timeout _ _ _); [|by intros [= <- <-]].
  destruct (split_expired dt now ready) as [ex k] eqn:E. intros [= <- <-]. by rewrite (IH ex).
Qed.

Lemma take_expired_queued c e a a' l : take_expired c e a = (a', l) → queued a = l ++ queued a'.
Proof.
  unfold take_expired, queued.
  destruct (split_expired _ _ _) as [ex kept] eqn:E. apply split_expired_app in E. rewrite E.
  destruct (ac_current a) as [b|]; [|intros [= <- <-]; simpl; by rewrite <- app_assoc].
  destruct (bool_decide (kept = []) && _ && _) eqn:Hb; intros [= <- <-]; simpl;
    [|by rewrite <- app_assoc].
  rewrite !andb_true_iff, bool_decide_eq_true in Hb. destruct Hb as [[-> _] _]. by rewrite !app_nil_r.
Qed.

Lemma moves_take_expired c e w w' expired F X :
  take_expired_accumulator_batches c e w = (w', expired) →
  moves w F X w' F (concat (batch_res <$> expired) ++ X).
Proof.
  unfold take_expired_accumulator_batches.
  pose proof (acc_loop_iter fst (λ '(w, expired) ka,
    let '(a, taken) := take_expired c e ka.2 in
    (upd_accumulators (<[ka.1 := a]> (accumulators w)) w, expired ++ taken))
    (λ s s', ∀ F X, moves s.1 F (concat (batch_res <$> s.2) ++ X)
                      s'.1 F (concat (batch_res <$> s'.2) ++ X)) (w, [])) as Hl.
  intros Hf. simpl in Hl. rewrite Hf in Hl. apply Hl; clear.
  - intros s F X. apply moves_refl.
  - intros s1 s2 s3 H1 H2 F X. eapply moves_trans; [apply H1|apply H2].
  - intros [w l] k a Hk. simpl in *. destruct (take_expired c e a) as [a' taken] eqn:E. simpl.
    apply take_expired_queued in E. split.
    + intros F X. apply (moves_accumulator k a); [done| |].
      * unfold acc_res. rewrite E, !acc_res_app. permute.
      * intros b Hb. left. rewrite E. set_solver.
    + intros k' Hne. by rewrite lookup_insert_ne.
Qed.

Lemma moves_fail_unsent w l F X :
  moves w F (concat (batch_res <$> l) ++ X) (fail_unsent_batches w l) F X.
Proof.
  unfold fail_unsent_batches. case_bool_decide as Hl; [subst; apply moves_refl|].
  set (w' := foldl _ w l). eapply (moves_trans _ _ _ w' F X); [|by apply moves_core].
  apply moves_foldl. clear. intros w b F X. eapply moves_trans; [|apply moves_fail_in_progress].
  apply moves_core. by case_bool_decide.
Qed.

Lemma keeps_expired_accumulators c e w : keeps w (fail_expired_accumulator_batches c e w).
Proof.
  intros F X. unfold fail_expired_accumulator_batches.
  destruct (take_expired_accumulator_batches c e w) as [w' l] eqn:E.
  eapply moves_trans; [by apply (moves_take_expired c e w w' l)|apply moves_fail_unsent].
Qed.

(** Every slot is parked again, sent or expired. *)
Lemma collect_retries_perm c e slots n parked to_send expired :
  collect_retries c e slots n = (parked, to_send, expired) →
  ∃ sent ex, map_to_list slots ≡ₚ map_to_list parked ++ sent ++ ex ∧
    to_send = (λ kb, set_backoff kb.2 None) <$> sent ∧ expired = ex.*2.
Proof.
  unfold collect_retries.
  assert (∀ l p0 sent0 ex0,
    NoDup (l.*1) → (∀ k, k ∈ l.*1 → p0 !! k = None) →
    foldl (λ '(parked, to_send, expired) kb,
      let '(key, pb) := kb in
      if reached_delivery_timeout (pb_created_at pb) (delivery_timeout c) (now e)
      then (parked, to_send, expired ++ [pb])
      else if match pb_backoff_until pb with Some t => now e <? t | None => false end
      then (<[key := pb]> parked, to_send, expired)
      else if n <=? Z.of_nat (length to_send)
      then (<[key := pb]> parked, to_send, expired)
      else (parked, to_send ++ [set_backoff pb None], expired))
      (p0, (λ kb, set_backoff kb.2 None) <$> sent0, ex0.*2) l = (parked, to_send, expired) →
    ∃ sent ex, map_to_list p0 ++ sent0 ++ ex0 ++ l ≡ₚ map_to_list parked ++ sent ++ ex ∧
      to_send = (λ kb, set_backoff kb.2 None) <$> sent ∧ expired = ex.*2) as Hg.
  { induction l as [|[k pb] l IH]; intros p0 sent0 ex0 Hnd Hp; csimpl.
    { intros [= <- <- <-]. exists sent0, ex0. by rewrite app_nil_r. }
    inversion_clear Hnd as [|?? Hni Hnd'].
    assert (∀ q, (∀ k', k' ∈ l.*1 → (<[k := pb]> p0) !! k' = None) ∧
      map_to_list (<[k := pb]> p0) ++ q ≡ₚ (k, pb) :: map_to_list p0 ++ q) as Hins.
    { intros q. split.
      - intros k' Hk'. rewrite lookup_insert_ne by (by intros <-). apply Hp. by right.
      - rewrite map_to_list_insert by (apply Hp; left). done. }
    assert (∀ k', k' ∈ l.*1 → p0 !! k' = None) as Hp' by (intros; apply Hp; by right).
    destruct (reached_delivery_timeout _ _ _);
      [|destruct (match pb_backoff_until pb with Some _ => _ | None => _ end);
        [|destruct (n <=? _)]]; intros Hf.
    - replace (ex0.*2 ++ [pb]) with ((ex0 ++ [(k, pb)]).*2) in Hf by (by rewrite fmap_app).
      apply IH in Hf as (sent & ex & Hm & ?); [|done..]. exists sent, ex. split; [|done].
      rewrite <- Hm. solve_Permutation.
    - apply IH in Hf as (sent & ex & Hm & ?); [|done|apply (Hins [])]. exists sent, ex. split; [|done].
      rewrite <- Hm, (proj2 (Hins _)). solve_Permutation.
    - apply IH in Hf as (sent & ex & Hm & ?); [|done|apply (Hins [])]. exists sent, ex. split; [|done].
      rewrite <- Hm, (proj2 (Hins _)). solve_Permutation.
    - replace (((λ kb, set_backoff kb.2 None) <$> sent0) ++ [set_backoff pb None]) with
        ((λ kb : topic_partition * PreparedBatch, set_backoff kb.2 None) <$> (sent0 ++ [(k, pb)]))
        in Hf by (by rewrite fmap_app).
      apply IH in Hf as (sent & ex & Hm & ?); [|done..]. exists sent, ex. split; [|done].
      rewrite <- Hm. solve_Permutation. }
  intros Hf. destruct (Hg (iter slots) ∅ [] []) as (sent & ex & Hm & Hs & He); [apply iter_nodup|done|done|].
  exists sent, ex. split; [|done]. rewrite <- Hm. csimpl. by rewrite iter_perm.
Qed.

Lemma moves_collect c e w n parked to_send expired F X :
  collect_retries c e (retry (pipe w)) n = (parked, to_send, expired) →
  moves w F X (upd_retry parked w) ((foot <$> to_send) ++ (foot <$> expired) ++ F) X.
Proof.
  intros (sent & ex & Hm & -> & ->)%collect_retries_perm.
  pose proof (moves_unpark parked (sent ++ ex) w F X Hm) as Hu.
  eapply moves_perm; [done| |done|done|exact Hu].
  by rewrite !fmap_app, <- app_assoc, <- !list_fmap_compose.
Qed.

Lemma moves_park_list l w F X :
  moves w ((foot <$> l) ++ F) X (foldl (λ w pb, park pb w) w l) F X.
Proof.
  revert w. induction l as [|pb l IH]; intros w; csimpl; [apply moves_refl|].
  eapply moves_trans; [apply moves_park|apply IH].
Qed.

Lemma moves_terminal_list {A} (g : A → PreparedBatch) (h : A → ProducerError.producer_error) l w F X :
  moves w ((foot <$> (g <$> l)) ++ F) X
    (foldl (λ w x, terminal_fail_batch (g x) (h x) w) w l) F X.
Proof.
  revert w. induction l as [|pb l IH]; intros w; csimpl; [apply moves_refl|].
  eapply moves_trans; [apply moves_terminal|apply IH].
Qed.

Lemma moves_expire e w expired to_send F X :
  moves w ((foot <$> to_send) ++ (foot <$> expired) ++ F) X (expire_batches e w expired to_send) F X.
Proof.
  unfold expire_batches. destruct (foldl _ _ expired) as [bump reps].
  set (w1 := if bump then _ else _).
  eapply (moves_trans _ _ _ w1).
  { apply moves_core. unfold w1. destruct bump; [apply bump_core|]. apply foldl_core, repair_core. }
  eapply moves_trans; [apply moves_park_list|].
  pose proof (moves_terminal_list id (λ _, ProducerError.SendTimeout) expired) as Ht.
  setoid_rewrite list_fmap_id in Ht. apply Ht.
Qed.

(** ** The drain cycle *)

Lemma moves_route e w slots pending w' slots' sends F X :
  route_resends e w slots pending = (w', slots', sends) →
  moves w ((foot <$> pending) ++ F) X w' ((foot <$> sends.*2) ++ F) X.
Proof.
  unfold route_resends.
  assert (∀ acc, foldl (λ '(w, slots, sends) pb,
    let leader := resolve_leader e w (pb_key pb) in
    if available slots leader then (w, reserve slots leader, sends ++ [(leader, pb)])
    else (park pb w, slots, sends)) (w, slots, acc) pending = (w', slots', sends) →
    moves w ((foot <$> pending) ++ (foot <$> acc.*2) ++ F) X w' ((foot <$> sends.*2) ++ F) X) as Hg;
    [|intros E; apply (Hg [] E)].
  revert w slots. induction pending as [|pb l IH]; intros w slots acc; csimpl; [by intros [= <- <- <-]|].
  destruct (available _ _); intros Hf.
  - apply IH in Hf. eapply moves_perm; [|done|done|done|exact Hf].
    rewrite !fmap_app, <- app_assoc. csimpl. solve_Permutation.
  - eapply moves_trans; [apply moves_park|by apply IH in Hf].
Qed.

Lemma seal_queued a b : b ∈ queued (seal_current a) → b ∈ queued a.
Proof.
  unfold seal_current, queued. destruct (ac_current a) as [b'|] eqn:E; [|by rewrite E].
  simpl. rewrite app_nil_r. destruct (is_empty b'); set_solver.
Qed.

(** Sealing drops an empty current batch, which holds nothing. *)
Lemma seal_res a :
  (∀ b, b ∈ queued a → ib_records b = [] → ib_memory b = None) →
  acc_res (seal_current a) = acc_res a.
Proof.
  intros He. unfold acc_res, seal_current, queued in *. destruct (ac_current a) as [b|] eqn:E;
    [|by rewrite E]. simpl. unfold is_empty. case_bool_decide as Hb; csimpl; rewrite ?app_nil_r; [|done].
  rewrite acc_res_app. csimpl. unfold batch_res. rewrite Hb, He by set_solver. csimpl.
  by rewrite !app_nil_r.
Qed.

Definition drain_ok F (s : DrainState) : Prop :=
  world_inv (dr_world s) ((foot <$> (dr_sends s).*2) ++ F) ∧
  ∀ k, k ∈ ((foot <$> (dr_sends s).*2) ++ F).*1 ∨ is_Some (retry (pipe (dr_world s)) !! k) →
       k ∈ dr_occupied s.

Definition drain_total F X (s : DrainState) : list resource :=
  total (dr_world s) ((foot <$> (dr_sends s).*2) ++ F) X.

Lemma drain_ok_world F X s w' :
  moves (dr_world s) ((foot <$> (dr_sends s).*2) ++ F) X w' ((foot <$> (dr_sends s).*2) ++ F) X →
  retry (pipe w') = retry (pipe (dr_world s)) → drain_ok F s →
  let s' := mkDrain w' (dr_slots s) (dr_sends s) (dr_occupied s) in
  drain_ok F s' ∧ drain_total F X s' ≡ₚ drain_total F X s.
Proof.
  intros Hm Hr [Hi Ho]. apply Hm in Hi as [Hi Ht]. split; [|exact Ht].
  split; [done|]. simpl. by rewrite Hr.
Qed.

Lemma retry_core w w' : same_core w w' → retry (pipe w') = retry (pipe w).
Proof. by intros (_ & ? & _). Qed.

Lemma retry_fail_in_progress b err w : retry (pipe (fail_in_progress b err w)) = retry (pipe w).
Proof. done. Qed.

(** The pop of the drain, after a seal: the batch is loose until it is prepared
    or failed. *)
Lemma moves_popped w key a (seal : bool) a' b F X :
  accumulators w !! key = Some a →
  pop_ready (if seal then seal_current a else a) = (a', b) →
  moves w F X (upd_accumulators (<[key := a']> (accumulators w)) w) F
    (concat (batch_res <$> option_list b) ++ X).
Proof.
  intros Hk Hp Hw.
  assert (acc_res (if seal then seal_current a else a) = acc_res a) as Hres.
  { destruct seal; [|done]. apply seal_res. intros b'. by eapply wi_empty. }
  assert (∀ b', b' ∈ queued (if seal then seal_current a else a) → b' ∈ queued a) as Hq.
  { destruct seal; [apply seal_queued|done]. }
  revert Hw. apply (moves_accumulator key a); [done| |].
  - rewrite <- Hres. unfold pop_ready, acc_res, queued in *.
    destruct (ac_ready (if seal then _ else _)) as [|b0 ready] eqn:Er; simplify_eq; simpl;
      rewrite ?Er; csimpl; permute.
  - intros b' Hb'. left. apply Hq. unfold pop_ready, queued in *.
    destruct (ac_ready (if seal then _ else _)) as [|b0 ready] eqn:Er; simplify_eq; simpl in *;
      rewrite ?Er in *; [done|by right].
Qed.

Lemma moves_count k l w F X :
  retry (pipe w) !! k = None → k ∉ F.*1 →
  moves w F (l ++ X) (upd_in_flight (in_flight w + 1) w) ((k, l) :: F) X.
Proof.
  intros Hr Hk [H1 H2 H3 H4 H5]. split.
  - split; csimpl; [done|by constructor| |lia|done].
    intros k' [->|?]%elem_of_cons; auto.
  - unfold total, returned. csimpl. permute.
Qed.

Lemma prepare_core c w key batch :
  same_core w (prepare_batch c w key batch).1 ∧
  foot (prepare_batch c w key batch).2 = (key, batch_res batch).
Proof. unfold prepare_batch, foot, pb_key. simpl. by destruct key. Qed.

Lemma drain_key_ok c e intent F X s key :
  drain_ok F s →
  drain_ok F (drain_key c e intent s key) ∧
  drain_total F X (drain_key c e intent s key) ≡ₚ drain_total F X s.
Proof.
  intros Hs. unfold drain_key. destruct (accumulators (dr_world s) !! key) as [a|] eqn:Ek; [|done].
  case_bool_decide as Hocc; rewrite ?orb_true_r, ?orb_false_r.
  { destruct (_ && _); [|done]. apply drain_ok_world; [|apply retry_core, latency_core|done].
    apply moves_core, latency_core. }
  destruct (negb _) eqn:Hcap; [by rewrite andb_false_r|].
  assert (key ∉ ((foot <$> (dr_sends s).*2) ++ F).*1 ∧ retry (pipe (dr_world s)) !! key = None)
    as [Hkf Hkr].
  { destruct Hs as [_ Ho]. split.
    - intros Hin. apply Hocc, Ho. by left.
    - apply eq_None_not_Some. intros Hin. apply Hocc, Ho. by right. }
  unfold pop_ready_batch.
  destruct (pop_ready _) as [a' [b|]] eqn:Hp;
    pose proof (moves_popped (dr_world s) key a _ a' _ ((foot <$> (dr_sends s).*2) ++ F) X Ek Hp) as Hm;
    csimpl in Hm; [|by apply drain_ok_world].
  rewrite app_nil_r in Hm.
  set (w1 := upd_accumulators _ _) in *.
  set (w2 := note_node_latency _ key (now e) true).
  assert (moves (dr_world s) ((foot <$> (dr_sends s).*2) ++ F) X w2
            ((key, batch_res b) :: (foot <$> (dr_sends s).*2) ++ F) X) as Hm2.
  { eapply moves_trans; [exact Hm|]. eapply moves_trans; [by apply moves_count|].
    apply moves_core, latency_core. }
  assert (retry (pipe w2) = retry (pipe (dr_world s))) as Hr2
    by (unfold w2; by rewrite (retry_core _ _ (latency_core _ key (now e) true))).
  destruct (undrained_barrier w2 (ib_generation b)) as [barrier|].
  - apply drain_ok_world; [|by rewrite <- Hr2; simpl; unfold finish_in_flight; destruct (_ =? _)|done].
    eapply moves_trans; [exact Hm2|]. unfold batch_res.
    eapply moves_trans; [apply moves_take|].
    eapply moves_trans; [apply moves_fail_batch|].
    eapply moves_trans; [apply moves_finish|apply moves_drop].
  - pose proof (prepare_core c w2 key b) as [Hc Hfoot].
    destruct (prepare_batch c w2 key b) as [w3 pb]. simpl in Hc, Hfoot.
    destruct Hs as [Hi Ho]. apply Hm2 in Hi as [Hi Ht].
    apply (moves_core _ _ _ X Hc) in Hi as [Hi Ht'].
    assert ((foot <$> (dr_sends s ++ [(resolve_leader e (dr_world s) key, pb)]).*2) ++ F ≡ₚ
            (key, batch_res b) :: (foot <$> (dr_sends s).*2) ++ F) as HF.
    { rewrite !fmap_app. csimpl. rewrite Hfoot. solve_Permutation. }
    split; [split|]; simpl.
    + by apply (world_inv_perm _ _ _ (symmetry HF)).
    + intros k. rewrite HF, (retry_core _ _ Hc), Hr2. csimpl. rewrite elem_of_cons.
      intros [[->|?]|?]; [set_solver|..]; apply elem_of_union_r, Ho; auto.
    + unfold drain_total. simpl. rewrite (total_perm _ _ _ _ _ HF (reflexivity X)). by rewrite Ht', Ht.
Qed.

Lemma drain_keys_ok c e intent F X l s :
  drain_ok F s →
  drain_ok F (foldl (drain_key c e intent) s l) ∧
  drain_total F X (foldl (drain_key c e intent) s l) ≡ₚ drain_total F X s.
Proof.
  revert s. induction l as [|k l IH]; intros s Hs; simpl; [done|].
  apply (drain_key_ok c e intent F X s k) in Hs as [Hs Ht]. apply IH in Hs as [Hs Ht'].
  split; [done|]. by rewrite Ht'.
Qed.

Lemma drain_resends_ok c e w active cap F X :
  world_inv w F → (∀ k, k ∈ F.*1 → k ∈ active) →
  match drain_resends c e w active cap with
  | inl w' => world_inv w' F ∧ total w' F X ≡ₚ total w F X
  | inr s => drain_ok F s ∧ drain_total F X s ≡ₚ total w F X
  end.
Proof.
  intros Hw Hact. unfold drain_resends.
  destruct (negb _); [by apply (moves_fence e w [] F X)|].
  set (w1 := fail_expired_accumulator_batches _ _ _).
  assert (keeps w w1) as Hk1.
  { eapply keeps_trans; [apply keeps_core, load_stats_core|].
    eapply keeps_trans; [apply keeps_recovered_accumulators|].
    eapply keeps_trans; [apply keeps_retry_slots|apply keeps_expired_accumulators]. }
  clearbody w1. specialize (Hk1 F X).
  destruct (collect_retries _ _ _ _) as [[parked to_send] expired] eqn:Ec.
  apply (moves_collect _ _ _ _ _ _ _ F X) in Ec.
  pose proof (moves_trans _ _ _ _ _ _ _ _ _ Hk1 Ec) as Hk2.
  case_bool_decide as He; simpl.
  2:{ eapply moves_trans; [exact Hk2|apply moves_expire|done]. }
  subst expired. csimpl in Hk2.
  destruct (fail_recovered_batches _ _) as [w2 kept] eqn:E2.
  apply (moves_recovered _ _ _ _ F X) in E2.
  pose proof (moves_trans _ _ _ _ _ _ _ _ _ Hk2 E2) as Hk3.
  destruct (route_resends _ _ _ _) as [[w3 slots] sends] eqn:E3.
  apply (moves_route _ _ _ _ _ _ _ F X) in E3.
  pose proof (moves_trans _ _ _ _ _ _ _ _ _ Hk3 E3) as Hk4.
  destruct (if _ =? _ then _ else _) as [w4 ready] eqn:E4.
  assert (same_core w3 w4) as Hc4.
  { pose proof (bump_core e w3). destruct (_ =? _); [|by simplify_eq]. by rewrite E4 in *. }
  pose proof (moves_trans _ _ _ _ _ _ _ _ _ Hk4 (moves_core _ _ _ X Hc4)) as Hk5.
  destruct ready; simpl.
  2:{ eapply moves_trans; [exact Hk5|apply moves_park_list|done]. }
  set (w5 := foldl _ w4 sends.*2).
  assert (same_core w4 w5) as Hc5 by (apply foldl_core; intros; apply latency_core).
  pose proof (moves_trans _ _ _ _ _ _ _ _ _ Hk5 (moves_core _ _ _ X Hc5)) as Hk6.
  apply Hk6 in Hw as [Hw Ht]. split; [split; [done|]|exact Ht].
  intros k. simpl. rewrite fmap_app, elem_of_app, (retry_core _ _ Hc5).
  intros [[Hin|?%Hact]|Hin].
  - apply elem_of_union_l, elem_of_union_l, elem_of_list_to_set.
    by rewrite <- list_fmap_compose in Hin.
  - by apply elem_of_union_r.
  - apply elem_of_union_l, elem_of_union_r. by apply elem_of_dom.
Qed.

Lemma drain_batches_ok c e w intent active cap F X w' sends :
  world_inv w F → (∀ k, k ∈ F.*1 → k ∈ active) →
  drain_batches c e w intent active cap = (w', sends) →
  world_inv w' ((foot <$> sends.*2) ++ F) ∧
  total w' ((foot <$> sends.*2) ++ F) X ≡ₚ total w F X.
Proof.
  intros Hw Hact. pose proof (drain_resends_ok c e w active cap F X Hw Hact) as Hr.
  unfold drain_batches. destruct (drain_resends c e w active cap) as [w1|s].
  { by intros [= <- <-]. }
  destruct Hr as [Hs Ht].
  apply (drain_keys_ok c e intent F X (iter (accumulators (dr_world s))).*1) in Hs as [[Hw' _] Ht'].
  set (s' := foldl _ _ _) in *. unfold drain_total in *. rewrite Ht in Ht'. clearbody s'.
  case_bool_decide as E; intros [= <- <-]; [|done]. rewrite E in *. csimpl in *.
  apply (moves_core _ (notify_waiters (dr_world s')) _ X) in Hw' as [? E2]; [|done].
  split; [done|]. by rewrite E2.
Qed.

(** ** The completion cycle *)

Definition cycle_hand (v : CycleVerdicts) : list PreparedBatch :=
  default [] (fenced v) ++ restarts v ++ rewrites v ++ splits v ++ (failed v).*1.

(** A batch of the cycle goes to one of its lists. *)
Lemma moves_hand pb pb' v v' w F X :
  foot pb = foot pb' → cycle_hand v' ≡ₚ pb' :: cycle_hand v →
  moves w (foot pb :: (foot <$> cycle_hand v) ++ F) X w ((foot <$> cycle_hand v') ++ F) X.
Proof.
  intros Hf Hp. eapply moves_perm; [done| |done|done|apply moves_refl].
  by rewrite Hp, Hf.
Qed.

Lemma push_failed_hand v pb r err : cycle_hand (push_failed v pb r err) ≡ₚ pb :: cycle_hand v.
Proof.
  unfold push_failed, note_repair, cycle_hand.
  destruct r; simpl; rewrite fmap_app; csimpl; solve_Permutation.
Qed.

Lemma take_retry_foot pb n : foot (take_retry pb n).1 = foot pb.
Proof. unfold take_retry. by destruct (_ <=? _). Qed.

Lemma moves_record_fenced v to_fail w pb verdict v' w' F X :
  fenced v = Some to_fail → record_fenced v to_fail w pb verdict = (v', w') →
  moves w (foot pb :: (foot <$> cycle_hand v) ++ F) X w' ((foot <$> cycle_hand v') ++ F) X.
Proof.
  intros Hf. unfold record_fenced.
  destruct verdict; intros [= <- <-];
    try apply moves_ack; try apply moves_terminal; try apply moves_fail_prepared;
    try (eapply moves_hand; [done|]; unfold cycle_hand; rewrite Hf; simpl; solve_Permutation).
  eapply moves_trans; [apply moves_core, fatal_core|apply moves_fail_prepared].
Qed.

Lemma moves_record c v w res v' w' F X :
  record_verdict c v w res = (v', w') →
  moves w (foot (sr_pb res) :: (foot <$> cycle_hand v) ++ F) X w' ((foot <$> cycle_hand v') ++ F) X.
Proof.
  unfold record_verdict. destruct res as [pb verdict rf]. simpl.
  change (cycle_hand v) with (cycle_hand (note_refresh v rf)).
  generalize (note_refresh v rf). clear v. intros v. unfold sort_verdict.
  destruct (fenced v) as [to_fail|] eqn:Ef; [by apply moves_record_fenced|].
  assert (cycle_hand v = restarts v ++ rewrites v ++ splits v ++ (failed v).*1) as Hh
    by (unfold cycle_hand; by rewrite Ef).
  pose proof (take_retry_foot pb (retries c)) as Hfoot.
  destruct verdict.
  5:{ intros [= <- <-]. by eapply moves_hand, push_failed_hand. }
  6:{ intros [= <- <-]. eapply moves_trans; [apply moves_core, fatal_core|].
      eapply moves_trans; [apply moves_fail_prepared|]. rewrite Hh. apply moves_refl. }
  6:{ intros [= <- <-]. apply moves_fail_prepared. }
  5:{ intros [= <- <-]. apply (moves_hand _ pb); [done|]. rewrite Hh. unfold cycle_hand. simpl.
      solve_Permutation. }
  1:{ intros [= <- <-]. eapply moves_trans; [apply moves_core, record_ack_core|apply moves_ack]. }
  all: destruct (take_retry pb (retries c)) as [pb' spent]; simpl in Hfoot; destruct spent;
    intros [= <- <-]; try (eapply moves_hand, push_failed_hand; by rewrite Hfoot).
  - rewrite <- Hfoot. apply moves_park.
  - apply (moves_hand _ pb'); [done|]. rewrite Hh. unfold cycle_hand. simpl. solve_Permutation.
  - apply (moves_hand _ pb'); [done|]. rewrite Hh. unfold cycle_hand. simpl. solve_Permutation.
Qed.

Lemma moves_record_all c results v w v' w' F X :
  foldl (λ '(v, w) res, record_verdict c v w res) (v, w) results = (v', w') →
  moves w ((foot <$> (sr_pb <$> results)) ++ (foot <$> cycle_hand v) ++ F) X
    w' ((foot <$> cycle_hand v') ++ F) X.
Proof.
  revert v w. induction results as [|res l IH]; intros v w; csimpl.
  { intros [= <- <-]. apply moves_refl. }
  destruct (record_verdict c v w res) as [v1 w1] eqn:E. intros Hf. apply IH in Hf.
  apply (moves_record _ _ _ _ _ _ ((foot <$> (sr_pb <$> l)) ++ F) X) in E.
  eapply moves_trans; [eapply moves_perm; [|done|done|done|exact E]|
                       eapply moves_perm; [|done|done|done|exact Hf]]; solve_Permutation.
Qed.

Lemma moves_restart w pb F X : moves w (foot pb :: F) X (restart_and_park w pb) F X.
Proof.
  unfold restart_and_park, restart_sequence.
  eapply moves_trans; [|apply (moves_park (mkPreparedBatch _ _ _ _ _ _ _ _ _ _ _ _ _))].
  by apply moves_core.
Qed.

Lemma push_front_batch a l g t :
  ∃ b, push_front a l g t = mkAccumulator (ac_current a) (b :: ac_ready a) (ac_batch_size a) ∧
       ib_memory b = None ∧ batch_res b = Channel <$> (pr_ack <$> l).
Proof.
  destruct (push_front_records a l g t) as (b & -> & Hr & _ & _ & Hm). exists b.
  split_and!; [done|done|]. unfold batch_res. rewrite Hm, Hr. simpl. rewrite app_nil_r.
  f_equal. rewrite fmap_imap. clear. change (pr_ack <$> l) with (list_fmap _ _ pr_ack l).
  revert l. assert (∀ l n, imap (λ i r, pr_ack (set_delta r (index_delta (n + i)))) l = pr_ack <$> l) as Hg.
  { induction l as [|r l IH]; intros n; csimpl; [done|]. f_equal.
    rewrite <- (IH (S n)). apply imap_ext. intros. done. }
  intros l. apply (Hg l 0%nat).
Qed.

Lemma moves_split w pb bumped F X :
  moves w (foot pb :: F) X (split_and_requeue w pb bumped) F X.
Proof.
  unfold split_and_requeue. set (w1 := if _ && _ then _ else _).
  eapply (moves_trans _ _ _ w1); [apply moves_core; unfold w1; by destruct (_ && _)|].
  clearbody w1. clear w. rename w1 into w. unfold requeue_parts.
  set (n := (_ / 2)%nat).
  assert (Channel <$> (pr_ack <$> pb_records pb) =
    (Channel <$> (pr_ack <$> take n (pb_records pb))) ++
    (Channel <$> (pr_ack <$> drop n (pb_records pb)))) as Hsplit
    by (by rewrite <- !fmap_app, take_drop).
  unfold foot, pb_res. eapply moves_trans; [apply moves_take|]. rewrite Hsplit, <- app_assoc.
  destruct (accumulators w !! pb_key pb) as [a|] eqn:Ek.
  - eapply moves_trans; [|eapply moves_trans; [apply moves_finish|apply moves_drop]].
    destruct (push_front_batch a (drop n (pb_records pb)) (pb_generation pb) (pb_created_at pb))
      as (b2 & -> & Hm2 & Hb2).
    set (a2 := mkAccumulator _ _ _).
    destruct (push_front_batch a2 (take n (pb_records pb)) (pb_generation pb) (pb_created_at pb))
      as (b1 & -> & Hm1 & Hb1).
    apply (moves_accumulator _ a); [done| |].
    + unfold acc_res, queued. csimpl. rewrite Hb1, Hb2. permute.
    + intros b. unfold queued. simpl. rewrite !elem_of_cons. naive_solver.
  - eapply moves_trans; [apply moves_fail_batch|].
    eapply moves_trans; [apply moves_fail_batch|].
    eapply moves_trans; [apply moves_finish|apply moves_drop].
Qed.

Lemma moves_list (f : World → PreparedBatch → World) l w F X :
  (∀ w pb F X, moves w (foot pb :: F) X (f w pb) F X) →
  moves w ((foot <$> l) ++ F) X (foldl f w l) F X.
Proof.
  intros Hf. revert w. induction l as [|pb l IH]; intros w; csimpl; [apply moves_refl|].
  eapply moves_trans; [apply Hf|apply IH].
Qed.

Lemma moves_apply e v w F X :
  moves w ((foot <$> cycle_hand v) ++ F) X (apply_verdicts e v w).1 F X.
Proof.
  unfold apply_verdicts, cycle_hand. destruct (fenced v) as [to_fail|]; simpl.
  { eapply moves_trans; [|apply moves_fence].
    eapply moves_perm; [|done|done|done|apply (moves_terminal_list fst snd (failed v))].
    rewrite !fmap_app. solve_Permutation. }
  rewrite !fmap_app, <- !app_assoc.
  destruct (if _ || _ then _ else _) as [w1 bumped] eqn:E1.
  assert (∀ F, moves w ((foot <$> rewrites v) ++ F) X w1 F X) as H1.
  { intros F'. destruct (bump_epoch v || negb _) eqn:Eb.
    - pose proof (bump_core e w) as Hc. destruct (bump_idempotent_epoch e w) as [w0 [|]]; simplify_eq;
        (eapply moves_trans; [apply moves_core, Hc|]); [|apply moves_park_list].
      apply (moves_list (λ w pb, restart_and_park w (set_identity pb (identity w)))).
      intros w' pb F1 X1. apply (moves_restart w' (set_identity pb (identity w'))).
    - apply orb_false_iff in Eb as [_ Eb]. apply negb_false_iff, bool_decide_eq_true in Eb.
      simplify_eq. rewrite Eb. apply moves_refl. }
  eapply (moves_trans _ _ _ w1);
    [eapply moves_perm; [|done|done|done|apply H1];
     instantiate (1 := (foot <$> restarts v) ++ (foot <$> splits v) ++ (foot <$> (failed v).*1) ++ F);
     solve_Permutation|].
  eapply moves_trans; [apply moves_core, (foldl_core apply_repair), repair_core|].
  eapply moves_trans; [apply moves_list, moves_restart|].
  eapply moves_trans; [apply (moves_list (λ w pb, split_and_requeue w pb bumped)); intros; apply moves_split|].
  apply (moves_terminal_list fst snd).
Qed.

Lemma complete_batches_ok c e w results F X :
  moves w ((foot <$> (sr_pb <$> results)) ++ F) X (complete_batches c e w results).1 F X.
Proof.
  unfold complete_batches. destruct (foldl _ _ results) as [v w1] eqn:E.
  apply (moves_record_all _ _ _ _ _ _ F X) in E. eapply moves_trans; [exact E|apply moves_apply].
Qed.
End moves.
