(* ===== verification/SenderLoop.v ===== *)
(** * The invariant of the sender loop

    Every step of [drive] keeps the accounting of the sender: one batch
    outstanding per partition, the in-flight counter, the connection slots, and
    every reply channel and buffer reservation in exactly one place. *)

From S2P Require Import Prelude Bytes Errors Partitioner Accumulator TxnRetry TxnState Sender SenderCycle SenderDrive SenderProofs.

(** ** Connection slots *)

Definition lcount (l : Z) (ls : list Z) : nat := count_occ Z.eq_dec ls l.

Record slots_ok (n : nat) (cap : ConnectionCapacity) (ls : list Z) : Prop := {
  so_limit : limit cap = n;
  so_used l : default 0%nat (used cap !! l) = lcount l ls;
  so_bound l : (lcount l ls ≤ n)%nat;
}.

Lemma slots_reserve n cap ls l :
  slots_ok n cap ls → available cap l = true → slots_ok n (reserve cap l) (ls ++ [l]).
Proof.
  intros [<- Hu Hb] Ha. apply bool_decide_eq_true in Ha. rewrite Hu in Ha.
  split; [done|..]; intros l'; unfold lcount in *; simpl; rewrite count_occ_app; simpl;
    destruct (Z.eq_dec l l') as [<-|]; rewrite ?Nat.add_0_r; try done.
  - rewrite lookup_insert_eq. simpl. rewrite Hu. lia.
  - by rewrite lookup_insert_ne, Hu.
  - lia.
Qed.

Lemma slots_release n cap ls l :
  slots_ok n cap (l :: ls) → slots_ok n (release cap l) ls.
Proof.
  intros [Hl Hu Hb]. unfold release.
  pose proof (Hu l) as Hul. unfold lcount in *. simpl in *.
  destruct (Z.eq_dec l l) as [_|]; [|done].
  destruct (used cap !! l) as [count|] eqn:E; [|done]. simpl in Hul. subst count.
  assert (∀ l', (count_occ Z.eq_dec ls l' ≤ n)%nat) as Hb'.
  { intros l'. specialize (Hb l'). destruct (Z.eq_dec l l'); lia. }
  split; [done| |done]. intros l'. specialize (Hu l').
  case_bool_decide as H0; simpl; simpl in H0; destruct (Z.eq_dec l l') as [<-|Hne].
  - by rewrite lookup_delete_eq.
  - by rewrite lookup_delete_ne.
  - by rewrite lookup_insert_eq.
  - by rewrite lookup_insert_ne.
Qed.

Lemma slots_perm n cap ls ls' : ls ≡ₚ ls' → slots_ok n cap ls → slots_ok n cap ls'.
Proof.
  intros Hp [H1 H2 H3].
  assert (∀ l, lcount l ls = lcount l ls') as Hl
    by (intros l; by apply (Permutation_count_occ Z.eq_dec)).
  split; [done|..]; intros l; rewrite <- Hl; auto.
Qed.

Section loop.
Context {PA : ProtocolApi} {HO : HashOrder}.
Implicit Types (c : SenderConfig) (e : Env) (w : World) (pb : PreparedBatch) (d : Driver).

(** The slots a drain uses are the ones it reserves in order, each while it
    was available. *)
Definition drained_slots n (cap : ConnectionCapacity) (ls : list Z) (slots : ConnectionCapacity)
    (sends : list (Z * PreparedBatch)) : Prop :=
  slots = foldl reserve cap sends.*1 ∧ slots_ok n slots (ls ++ sends.*1).

Lemma drained_slots_nil n cap ls : slots_ok n cap ls → drained_slots n cap ls cap [].
Proof. intros H. split; [done|]. by rewrite app_nil_r. Qed.

Lemma drained_slots_snoc n cap ls slots sends l pb :
  drained_slots n cap ls slots sends → available slots l = true →
  drained_slots n cap ls (reserve slots l) (sends ++ [(l, pb)]).
Proof.
  intros [-> Hs] Ha. split; [by rewrite fmap_app, foldl_app|].
  rewrite fmap_app, app_assoc. by apply slots_reserve.
Qed.

Lemma route_slots e w n cap ls pending w' slots' sends :
  slots_ok n cap ls → route_resends e w cap pending = (w', slots', sends) →
  drained_slots n cap ls slots' sends.
Proof.
  intros Hok. unfold route_resends.
  assert (∀ slots acc, drained_slots n cap ls slots acc → foldl (λ '(w, slots, sends) pb,
    let leader := resolve_leader e w (pb_key pb) in
    if available slots leader then (w, reserve slots leader, sends ++ [(leader, pb)])
    else (park pb w, slots, sends)) (w, slots, acc) pending = (w', slots', sends) →
    drained_slots n cap ls slots' sends) as Hg; [|by apply Hg, drained_slots_nil].
  revert w. induction pending as [|pb l IH]; intros w slots acc Hd; simpl; [by intros [= <- <- <-]|].
  destruct (available _ _) eqn:Ea; [|by apply IH].
  apply IH. by apply drained_slots_snoc.
Qed.

Lemma drain_key_slots c e intent n cap ls s key :
  drained_slots n cap ls (dr_slots s) (dr_sends s) →
  drained_slots n cap ls (dr_slots (drain_key c e intent s key)) (dr_sends (drain_key c e intent s key)).
Proof.
  intros Hs. unfold drain_key. destruct (accumulators _ !! key); [|done].
  destruct (available (dr_slots s) _) eqn:Ea; simpl; [|by destruct (_ && _)].
  case_bool_decide; [by destruct (_ && _)|].
  destruct (pop_ready_batch _ _ _) as [w [b|]]; [|done].
  destruct (undrained_barrier _ _); [done|].
  by apply drained_slots_snoc.
Qed.

Lemma drain_slots c e w intent active n cap ls w' sends :
  slots_ok n cap ls → drain_batches c e w intent active cap = (w', sends) →
  drained_slots n cap ls (foldl reserve cap sends.*1) sends.
Proof.
  intros Hok. unfold drain_batches. pose proof (drained_slots_nil n cap ls Hok) as Hnil.
  destruct (drain_resends c e w active cap) as [w1|s] eqn:Er; [by intros [= <- <-]|].
  assert (drained_slots n cap ls (dr_slots s) (dr_sends s)) as Hs.
  { unfold drain_resends in Er. repeat case_match; simplify_eq; simpl;
    by eapply route_slots. }
  assert (∀ keys, let s' := foldl (drain_key c e intent) s keys in
    drained_slots n cap ls (dr_slots s') (dr_sends s')) as Hk.
  { clear Er. intros keys. revert s Hs. induction keys as [|k l IH]; intros s Hs; [done|].
    simpl. apply IH. by apply drain_key_slots. }
  specialize (Hk (iter (accumulators (dr_world s))).*1). simpl in Hk.
  case_bool_decide; intros [= <- <-]; [done|]. destruct Hk as [E Hk]. by rewrite <- E.
Qed.

(** ** The invariant *)

Definition drive_foot d : list (topic_partition * list resource) :=
  (λ r, foot (rq_batch r)) <$> requests d.

Definition idle w : Prop :=
  retry (pipe w) = ∅ ∧ ∀ k a, accumulators w !! k = Some a → acc_res a = [].

Record drive_inv c d : Prop := {
  di_world : world_inv (world d) (drive_foot d);
  di_occupied k : k ∈ occupied d ↔ k ∈ (drive_foot d).*1;
  di_slots : slots_ok (max_in_flight c) (capacity d) (rq_leader <$> requests d);
  di_stopped : stopped d = true → requests d = [] ∧ idle (world d);
}.

(** What the sender and its requests hold, and what it gave back. *)
Definition drive_held d : list resource :=
  map_res acc_res (accumulators (world d)) ++ map_res pb_res (retry (pipe (world d))) ++
  concat (drive_foot d).*2.

Definition drive_total d : list resource := total (world d) (drive_foot d) [].

Lemma drive_total_held d : drive_total d ≡ₚ drive_held d ++ returned (world d).
Proof. unfold drive_total, drive_held, total. simpl. by rewrite <- !app_assoc. Qed.

(** ** Steps that leave the batches where they are *)

Lemma start_foot c e w p p' :
  start_request c e w p = Some p' → foot (phase_batch p') = foot (phase_batch p).
Proof.
  unfold start_request, send_begin. destruct p as [pb|pb req|res]; [|done..].
  destruct (drained_barrier _ _); [by intros [= <-]|].
  destruct (tm_topic_id <$> metadata_cache (routes w) !! pb_topic pb); [case_bool_decide|];
    destruct (build_single_batch_request c _); by intros [= <-].
Qed.

Lemma finish_foot c e w r answer w' r' :
  finish_request c e w r answer = Some (w', r') →
  same_core w w' ∧ rq_leader r' = rq_leader r ∧ foot (rq_batch r') = foot (rq_batch r).
Proof.
  unfold finish_request, rq_batch. destruct (rq_phase r) as [pb|pb req|res]; [done| |done].
  destruct (send_end _ _ _ _ _ _ _) as [w1 res] eqn:E. intros [= <- <-].
  assert (same_core w w1 ∧ foot (sr_pb res) = foot pb) as [??]; [|done].
  unfold send_end, interpret_response in E.
  repeat case_match; simplify_eq; try done; unfold evict_broker; by case_match.
Qed.

Lemma inv_world c d w' l :
  drive_inv c d → moves (world d) (drive_foot d) l w' (drive_foot d) [] →
  (stopped d = true → idle (world d) → idle w') →
  drive_inv c (set_world d w') ∧ drive_total (set_world d w') ≡ₚ l ++ drive_total d.
Proof.
  intros [Hw Ho Hs Hst] Hm Hi. apply Hm in Hw as [Hw Ht]. split.
  - split; [done..|]. intros Hst'. destruct (Hst Hst') as [??]. auto.
  - unfold drive_total, set_world in *. simpl. rewrite Ht. unfold total. permute.
Qed.

Lemma inv_core c d w' :
  drive_inv c d → same_core (world d) w' →
  drive_inv c (set_world d w') ∧ drive_total (set_world d w') ≡ₚ drive_total d.
Proof.
  intros Hd Hc. apply (inv_world c d w' []); [done|by apply moves_core|].
  intros _ [H1 H2]. destruct Hc as (Ha & Hr & _). unfold idle. by rewrite Ha, Hr.
Qed.

(** Changing the flags changes nothing of the accounting. *)
Lemma inv_flags c d f s r :
  drive_inv c d →
  let d' := mkDriver (world d) (requests d) (occupied d) (capacity d) f s r (stopped d) in
  drive_inv c d' ∧ drive_total d' ≡ₚ drive_total d.
Proof. intros [????]. done. Qed.

(** One request makes progress. *)
Lemma inv_request c d before r r' after w' :
  drive_inv c d → requests d = before ++ r :: after → same_core (world d) w' →
  rq_leader r' = rq_leader r → foot (rq_batch r') = foot (rq_batch r) →
  let d' := mkDriver w' (before ++ r' :: after) (occupied d) (capacity d) (force d) (stopping d)
              (refreshing d) (stopped d) in
  drive_inv c d' ∧ drive_total d' ≡ₚ drive_total d.
Proof.
  intros Hd Er Hc Hl Hf d'.
  assert (drive_foot d' = drive_foot d) as Hfoot.
  { unfold drive_foot. rewrite Er. unfold d'. simpl. rewrite !fmap_app. csimpl. by rewrite Hf. }
  assert (rq_leader <$> requests d' = rq_leader <$> requests d) as Hlead.
  { rewrite Er. unfold d'. simpl. rewrite !fmap_app. csimpl. by rewrite Hl. }
  destruct Hd as [Hw Ho Hs Hst]. apply (moves_core _ _ _ [] Hc) in Hw as [Hw Ht].
  split; [split|].
  - by rewrite Hfoot.
  - rewrite Hfoot. apply Ho.
  - rewrite Hlead. apply Hs.
  - intros [Hn _]%Hst. rewrite Er in Hn. by destruct before.
  - unfold drive_total. by rewrite Hfoot.
Qed.

(** ** The drain and the completion *)

Lemma push_requests sends d :
  let d' := foldl push_request d sends in
  world d' = world d ∧ stopped d' = stopped d ∧
  drive_foot d' = drive_foot d ++ (foot <$> sends.*2) ∧
  (rq_leader <$> requests d') = (rq_leader <$> requests d) ++ sends.*1 ∧
  capacity d' = foldl reserve (capacity d) sends.*1 ∧
  (∀ k, k ∈ occupied d' ↔ k ∈ occupied d ∨ k ∈ (foot <$> sends.*2).*1).
Proof.
  revert d. induction sends as [|[l pb] sends IH]; intros d d'.
  { unfold d'. csimpl. rewrite !app_nil_r. split_and!; try done. set_solver. }
  destruct (IH (push_request d (l, pb))) as (H1 & H2 & H3 & H4 & H5 & H6).
  change d' with (foldl push_request (push_request d (l, pb)) sends). clear d'. rewrite !fmap_cons.
  assert (drive_foot (push_request d (l, pb)) = drive_foot d ++ [foot pb]) as Hf
    by (unfold drive_foot; simpl; by rewrite fmap_app).
  split_and!; [done|done| | |done|].
  - by rewrite H3, Hf, <- app_assoc.
  - rewrite H4. simpl. by rewrite fmap_app, <- app_assoc.
  - intros k. rewrite H6. simpl.
    rewrite elem_of_union, elem_of_singleton, elem_of_cons. tauto.
Qed.

Lemma inv_drain c e d :
  drive_inv c d → stopped d = false →
  drive_inv c (drive_drain c e d) ∧ drive_total (drive_drain c e d) ≡ₚ drive_total d.
Proof.
  intros [Hw Ho Hs _] Hstop. unfold drive_drain.
  destruct (drain_batches _ _ _ _ _ _) as [w' sends] eqn:E.
  pose proof (drain_slots _ _ _ _ _ _ _ _ _ _ Hs E) as [_ Hs'].
  apply (drain_batches_ok _ _ _ _ _ _ (drive_foot d) []) in E as [Hw' Ht];
    [|done|intros k; apply Ho].
  destruct (push_requests sends (set_world d w')) as (H1 & H2 & H3 & H4 & H5 & H6).
  change (drive_foot (set_world d w')) with (drive_foot d) in H3.
  assert (drive_foot (foldl push_request (set_world d w') sends) ≡ₚ (foot <$> sends.*2) ++ drive_foot d)
    as HF by (rewrite H3; apply Permutation_app_comm).
  split; [split|].
  - rewrite H1. by apply (world_inv_perm _ _ _ (symmetry HF)).
  - intros k. rewrite H6, HF, fmap_app, elem_of_app. simpl. rewrite Ho. tauto.
  - rewrite H4, H5. done.
  - rewrite H2. simpl. congruence.
  - unfold drive_total. rewrite H1, (total_perm _ _ _ _ _ HF (reflexivity [])). exact Ht.
Qed.

Lemma request_results finished completed :
  mapM request_result finished = Some completed →
  (rq_leader <$> finished) = completed.*1 ∧
  (λ r, foot (rq_batch r)) <$> finished = foot <$> (sr_pb <$> completed.*2).
Proof.
  revert completed. induction finished as [|r l IH]; intros completed; csimpl.
  { by intros [= <-]. }
  intros ([ld res] & Hr & (k & Hk & [= <-])%bind_Some)%bind_Some. apply IH in Hk as [-> ->].
  unfold request_result in Hr. unfold rq_batch. destruct (rq_phase r); simplify_eq. done.
Qed.

Lemma release_all n completed cap occ ls ks :
  slots_ok n cap (completed.*1 ++ ls) →
  (∀ k, k ∈ occ ↔ k ∈ (foot <$> (sr_pb <$> completed.*2)).*1 ++ ks) →
  NoDup ((foot <$> (sr_pb <$> completed.*2)).*1 ++ ks) →
  ∃ cap' occ', foldl (λ '(cap, occ) lr, (release cap lr.1, occ ∖ {[ pb_key (sr_pb lr.2) ]}))
      (cap, occ) completed = (cap', occ') ∧
    slots_ok n cap' ls ∧ ∀ k : topic_partition, k ∈ (occ' : gset topic_partition) ↔ k ∈ ks.
Proof.
  revert cap occ. induction completed as [|[l res] completed IH]; intros cap occ Hs Ho Hnd; csimpl in *.
  { exists cap, occ. done. }
  apply IH; [by apply slots_release| |by inversion Hnd].
  inversion_clear Hnd as [|?? Hni _]. intros k. rewrite elem_of_difference, elem_of_singleton, Ho.
  rewrite elem_of_cons. split; [tauto|]. intros Hk. split; [by right|]. by intros ->.
Qed.

Lemma inv_complete c e d finished rest completed :
  drive_inv c d → stopped d = false → requests d ≡ₚ finished ++ rest →
  mapM request_result finished = Some completed →
  drive_inv c (drive_complete c e d completed rest) ∧
  drive_total (drive_complete c e d completed rest) ≡ₚ drive_total d.
Proof.
  intros [Hw Ho Hs _] Hstop Hp [Hl Hf]%request_results.
  assert (drive_foot d ≡ₚ (foot <$> (sr_pb <$> completed.*2)) ++ ((λ r, foot (rq_batch r)) <$> rest))
    as HF by (unfold drive_foot; by rewrite Hp, fmap_app, Hf).
  apply (world_inv_perm _ _ _ HF) in Hw.
  unfold drive_complete.
  destruct (release_all (max_in_flight c) completed (capacity d) (occupied d) (rq_leader <$> rest)
    ((λ r, foot (rq_batch r)) <$> rest).*1) as (cap' & occ' & -> & Hcap & Hocc).
  { eapply slots_perm; [|exact Hs]. by rewrite Hp, fmap_app, Hl. }
  { intros k. rewrite Ho, HF, fmap_app. done. }
  { pose proof (wi_nodup _ _ Hw) as Hnd. by rewrite fmap_app in Hnd. }
  pose proof (complete_batches_ok c e (world d) completed.*2 ((λ r, foot (rq_batch r)) <$> rest) [])
    as Hm.
  destruct (complete_batches c e (world d) completed.*2) as [w' refresh]. simpl in Hm.
  apply Hm in Hw as [Hw Ht]. split; [split; [done..|simpl; congruence]|].
  unfold drive_total. simpl. rewrite (total_perm (world d) _ _ _ _ HF (reflexivity [])). exact Ht.
Qed.

(** ** The end of the loop *)

Lemma include_deadline_settled s t now : settled (include_deadline s t now) = settled s.
Proof. unfold include_deadline. by repeat case_match. Qed.

Lemma schedule_retry_unsettles c e w cap s kb : settled (schedule_retry c e w cap s kb) = false.
Proof.
  unfold schedule_retry. case_bool_decide; [done|].
  repeat case_match; rewrite ?include_deadline_settled; simpl;
    rewrite ?include_deadline_settled; done.
Qed.

Lemma schedule_key_settled c e w f occ cap s key :
  settled (schedule_key c e w f occ cap s key) = true →
  settled s = true ∧
  ∀ a, accumulators w !! key = Some a →
    ac_ready a = [] ∧ ∀ b, ac_current a = Some b → ib_records b = [].
Proof.
  unfold schedule_key. destruct (accumulators w !! key) as [a|] eqn:Ek; [|done].
  set (cur := match ac_current a with Some b => if is_empty b then None else Some b | None => None end).
  destruct (negb (bool_decide (is_Some cur)) && _) eqn:Hidle.
  - intros Hs. split; [done|]. intros a' [= <-]. apply andb_true_iff in Hidle as [Hc Hr].
    rewrite negb_involutive in Hr. apply bool_decide_eq_true in Hr. split; [done|].
    intros b Hb. unfold cur, is_empty in Hc. rewrite Hb in Hc.
    destruct (decide (ib_records b = [])) as [|Hn]; [done|].
    by rewrite (bool_decide_eq_false_2 _ Hn), bool_decide_eq_true_2 in Hc.
  - set (s1 := match _ ≫= λ b, delivery_deadline (ib_first_append_at b) (delivery_timeout c) with
               | Some deadline => include_deadline _ deadline _ | None => _ end).
    assert (settled s1 = false) as Hs1.
    { unfold s1. destruct (_ ≫= _); [by rewrite include_deadline_settled|done]. }
    clearbody s1. intros Hs. exfalso. revert Hs.
    destruct (recovery_scan_needed w && _); [simpl; congruence|].
    destruct (_ || _ || _); [congruence|].
    set (s2 := if negb _ then set_immediate s1 else s1).
    assert (settled s2 = false) as Hs2 by (unfold s2; by case_match).
    destruct cur; [|congruence]. destruct (f || _); simpl; [congruence|].
    rewrite include_deadline_settled. congruence.
Qed.

Lemma schedule_keys_settled c e w f occ cap s keys :
  settled (foldl (schedule_key c e w f occ cap) s keys) = true →
  settled s = true ∧ ∀ key a, key ∈ keys → accumulators w !! key = Some a →
    ac_ready a = [] ∧ ∀ b, ac_current a = Some b → ib_records b = [].
Proof.
  revert s. induction keys as [|k l IH]; intros s; simpl.
  { intros Hs. split; [done|]. by intros ?? ?%elem_of_nil. }
  intros [Hs Hl]%IH. apply schedule_key_settled in Hs as [Hs Hk]. split; [done|].
  intros key a [->|?]%elem_of_cons; eauto.
Qed.

(** A settled loop holds nothing. *)
Lemma settled_idle c e d :
  drive_inv c d → settled (next_schedule c e d) = true → requests d = [] ∧ idle (world d).
Proof.
  intros [Hw _ _ _] Hs. unfold next_schedule, schedule in Hs.
  apply schedule_keys_settled in Hs as [Hs Hk].
  assert (retry (pipe (world d)) = ∅ ∧ in_flight (world d) = 0) as [Hr Hf].
  { revert Hs. generalize (iter_perm (retry (pipe (world d)))).
    destruct (iter (retry (pipe (world d)))) as [|kb l] using rev_ind; intros Hp Hs.
    - simpl in Hs. apply andb_true_iff in Hs as [Hr Hf]. split; [|by apply Z.eqb_eq].
      by apply bool_decide_eq_true in Hr.
    - rewrite foldl_app in Hs. simpl in Hs. by rewrite schedule_retry_unsettles in Hs. }
  pose proof (wi_in_flight _ _ Hw) as Hn. rewrite Hf, Hr, map_size_empty in Hn.
  split; [|split; [done|]].
  - unfold drive_foot in Hn. rewrite length_fmap in Hn. apply nil_length_inv. lia.
  - intros k a Ha. destruct (Hk k a) as [Hrd Hc]; [|done|].
    { apply list_elem_of_fmap. exists (k, a). split; [done|]. by apply elem_of_iter. }
    unfold acc_res, queued. rewrite Hrd. destruct (ac_current a) as [b|] eqn:Ec; [|done]. simpl.
    unfold batch_res. rewrite (Hc b eq_refl).
    rewrite (wi_empty _ _ Hw k a b Ha); [done|unfold queued; rewrite Ec; set_solver|by apply Hc].
Qed.

(** ** The application *)

Lemma append_res a k v h ts g m at_ ch a' r rel :
  append a k v h ts g m at_ ch = (a', r, rel) →
  acc_res a' ++ (Memory <$> option_list rel) ≡ₚ acc_res a ++ resources_of ch m ∧
  ∀ b, b ∈ queued a' → b ∈ queued a ∨ ib_records b ≠ [].
Proof.
  unfold append, resources_of.
  destruct (ac_current a) as [b|] eqn:Ec; [destruct (needs_new_batch _ _ _)|];
    intros [= <- <- <-]; unfold acc_res, queued; rewrite Ec; simpl.
  1,3: split; [rewrite ?acc_res_app; csimpl; unfold batch_res; csimpl; permute|].
  3: split; [rewrite ?acc_res_app; csimpl; unfold batch_res; csimpl;
             rewrite !fmap_app; csimpl; permute|].
  all: intros b'; rewrite ?elem_of_app, ?list_elem_of_singleton; intros [?| ->];
    [set_solver|right; simpl; try done]; by destruct (ib_records b).
Qed.

Lemma moves_append w n key k v h ts g m at_ ch F :
  moves w F (resources_of ch m) (app_append w n key k v h ts g m at_ ch) F [].
Proof.
  unfold app_append. set (a := default _ _).
  destruct (append a k v h ts g m at_ ch) as [[a' r] rel] eqn:E. apply append_res in E as [Hr Hq].
  eapply (moves_trans _ _ _ (upd_accumulators (<[key := a']> (accumulators w)) w) F
            ((Memory <$> option_list rel) ++ [])); [|apply moves_drop].
  destruct (accumulators w !! key) as [a0|] eqn:Ek.
  - apply (moves_accumulator key a); [by rewrite Ek|by rewrite app_nil_r|].
    intros b [?|?]%Hq; [by left|by right].
  - intros [H1 H2 H3 H4 H5]. split.
    + split; simpl; try done. intros k' a1 b. rewrite lookup_insert_Some.
      intros [[<- <-]|[??]]; [|eauto]. intros [Hb|?]%Hq; [|done]. by apply elem_of_nil in Hb.
    + unfold total, returned. csimpl.
      pose proof (map_res_insert acc_res (accumulators w) key a' Ek) as Hi.
      unfold a in Hr. simpl in Hr. permute.
Qed.

Lemma moves_seal w key F : moves w F [] (app_seal w key) F [].
Proof.
  unfold app_seal. destruct (accumulators w !! key) as [a|] eqn:Ek; [|apply moves_refl].
  intros Hw. revert Hw. intros Hw. assert (acc_res (seal_current a) = acc_res a) as Hr.
  { apply seal_res. intros b. by eapply wi_empty. }
  revert Hw. apply (moves_accumulator key a); [done|by rewrite Hr|].
  intros b Hb. left. by apply seal_queued.
Qed.

Lemma idle_seal w key F : world_inv w F → idle w → idle (app_seal w key).
Proof.
  intros Hw [Hr Ha]. unfold app_seal. destruct (accumulators w !! key) as [a|] eqn:Ek; [|done].
  split; [done|]. simpl. intros k a'. rewrite lookup_insert_Some. intros [[<- <-]|[_ ?]]; [|eauto].
  rewrite seal_res; [eauto|]. intros b. by eapply wi_empty.
Qed.

Definition abort_one w (ka : topic_partition * Accumulator) : World :=
  let '(a, batches) := abort_undrained_batches ka.2 in
  let w := upd_accumulators (<[ka.1 := a]> (accumulators w)) w in
  foldl (λ w b,
    drop_memory (ib_memory b)
      (push_replies ((λ r, (pr_ack r, Err ProducerError.TransactionAborted)) <$> ib_records b) w))
    w batches.

Lemma abort_one_keeps w k a :
  accumulators w !! k = Some a →
  keeps w (abort_one w (k, a)) ∧
  ∀ k', k' ≠ k → accumulators (abort_one w (k, a)) !! k' = accumulators w !! k'.
Proof.
  intros Hk. unfold abort_one, abort_undrained_batches. simpl. split.
  - intros F X. eapply moves_trans; [|apply (moves_foldl _ batch_res)].
    + apply (moves_accumulator k a); [done| |by intros b ?%not_elem_of_nil].
      by rewrite (acc_res_abort a).
    + clear. intros w b F X. unfold batch_res. rewrite <- app_assoc.
      eapply moves_trans; [|apply moves_drop].
      replace (pr_ack <$> ib_records b) with
        (((λ r, (pr_ack r, Err ProducerError.TransactionAborted : reply)) <$> ib_records b).*1)
        by (by rewrite <- list_fmap_compose).
      apply moves_push.
  - intros k' Hne. rewrite foldl_accumulators by done. simpl. by rewrite lookup_insert_ne.
Qed.

Lemma keeps_abort w : keeps w (app_abort w).
Proof.
  apply (acc_loop_iter id abort_one keeps); [apply keeps_refl|apply keeps_trans|].
  intros w' k a. apply abort_one_keeps.
Qed.

Lemma idle_abort w : idle w → idle (app_abort w).
Proof.
  apply (acc_loop_iter id abort_one (λ w w', idle w → idle w')); [done|auto|].
  clear. intros w k a Hk. split; [|by apply abort_one_keeps].
  intros [Hr Ha]. unfold abort_one, abort_undrained_batches. simpl. split.
  - generalize (option_list (ac_current a) ++ ac_ready a). intros l. rewrite <- Hr.
    assert (∀ w0, retry (pipe (foldl (λ w b,
      drop_memory (ib_memory b)
        (push_replies ((λ r, (pr_ack r, Err ProducerError.TransactionAborted)) <$> ib_records b) w))
      w0 l)) = retry (pipe w0)) as ->; [|done].
    induction l; intros w0; simpl; [done|]. by rewrite IHl.
  - intros k' a'. rewrite foldl_accumulators by done. simpl. rewrite lookup_insert_Some.
    intros [[<- <-]|[_ ?]]; [done|eauto].
Qed.

(** ** Every step *)

Lemma drive_step_inv P c d l d' :
  drive_inv c d → drive_step P c d l d' →
  drive_inv c d' ∧ drive_total d' ≡ₚ l ++ drive_total d.
Proof.
  intros Hd Hs.
  destruct Hs as [e d Hst _ _|e d before r after p Er Hp|e d before r after answer w r' Er Hf
    |e d finished rest completed Hst Hp _ Hm _|e d Hst _ Hset|d Hst|d received Hst|d md _
    |d n key k v h ts g m at_ ch Hst _|d key|d|d t|d _|d md|d]; simpl app.
  - by apply inv_drain.
  - apply (inv_request c d before r); [done..|]. by eapply start_foot.
  - apply finish_foot in Hf as (? & ? & ?). by apply (inv_request c d before r).
  - by eapply inv_complete.
  - split; [|done]. pose proof (settled_idle c e d Hd Hset). by destruct Hd.
  - by apply (inv_flags c d).
  - destruct received as [[]|]; [done..|by apply (inv_flags c d)|by apply (inv_flags c d)].
  - destruct (inv_core c d (update_leaders_from_metadata (world d) md) Hd) as [Hi Ht];
      [by destruct md|]. by destruct (inv_flags c _ (force d) (stopping d) false Hi).
  - apply (inv_world c d _ (resources_of ch m)); [done|apply moves_append|congruence].
  - apply (inv_world c d _ []); [done|apply moves_seal|].
    intros _. eapply idle_seal, (di_world c d Hd).
  - apply (inv_world c d _ []); [done|apply keeps_abort|]. intros _. apply idle_abort.
  - by apply inv_core.
  - by apply inv_core.
  - apply inv_core; [done|by destruct md].
  - by apply inv_core.
Qed.

Lemma drive_init_inv c i t r : drive_inv c (drive_init c i t r) ∧ drive_total (drive_init c i t r) ≡ₚ [].
Proof.
  split; [|done]. split; simpl.
  - split; simpl; try done; try set_solver; constructor.
  - set_solver.
  - split; simpl; try done. intros l. unfold lcount. simpl. lia.
  - done.
Qed.

Lemma drive_reach_inv P c i t r given d :
  drive_reach P c (drive_init c i t r) given d →
  drive_inv c d ∧ drive_total d ≡ₚ given.
Proof.
  induction 1 as [|given d l d' _ [Hd Ht] Hs]; [apply drive_init_inv|].
  destruct (drive_step_inv P c d l d' Hd Hs) as [Hd' Ht']. split; [done|].
  rewrite Ht', Ht. apply Permutation_app_comm.
Qed.
End loop.
