(* ===== verification/SenderSeq.v ===== *)
(** * The sequence numbers of an idempotent producer

    For a producer without transactions: every batch the sender has outstanding
    carries the sequence that follows the last batch acknowledged under the same
    identity on its partition, through resends, epoch bumps, splits, timeouts
    and fences. [seq_inv S Q w L] is the invariant on the batches of [w] and the
    batches [L] in hand; [Q] says whether new batches may still be built, and
    [S] holds the producer ids in use. *)

From S2P Require Import Prelude Bytes Errors Partitioner Accumulator TxnRetry TxnState Sender SenderCycle SenderDrive SenderProofs SenderLoop.

#[global] Instance Identity_eq_dec : EqDecision Identity.
Proof. solve_decision. Defined.

Section seq.
Context {PA : ProtocolApi} {HO : HashOrder}.
Implicit Types (c : SenderConfig) (e : Env) (w : World) (pb : PreparedBatch) (d : Driver).
Implicit Types (L H : list PreparedBatch) (k : topic_partition).

(** ** What a broker expects *)

Definition ident pb : Identity :=
  mkIdentity (rb_producer_id (pb_record_batch pb)) (rb_producer_epoch (pb_record_batch pb)).

Definition next_of pb : Z :=
  i32_wrapping_add (pb_base_sequence pb) (i32_count (length (pb_records pb))).

(** The sequence after the last batch of [H] for the partition and identity. *)
Definition expected H k (i : Identity) : Z :=
  foldl (λ s pb, if decide (pb_key pb = k ∧ ident pb = i) then next_of pb else s) 0 H.

Lemma expected_snoc H pb k i :
  expected (H ++ [pb]) k i =
  if decide (pb_key pb = k ∧ ident pb = i) then next_of pb else expected H k i.
Proof. unfold expected. by rewrite foldl_app. Qed.

Lemma expected_fresh H k i : (∀ pb, pb ∈ H → ident pb ≠ i) → expected H k i = 0.
Proof.
  induction H as [|pb H IH] using rev_ind; intros Hf; [done|]. rewrite expected_snoc, decide_False.
  - apply IH. intros pb' ?. apply Hf. set_solver.
  - intros [_ ?]. destruct (Hf pb); set_solver.
Qed.

(** ** The invariant *)

Definition outstanding w L pb : Prop := pb ∈ L ∨ ∃ k, retry (pipe w) !! k = Some pb.

Definition live w : Prop := lifecycle w = STATE_ACTIVE ∧ producer_epoch (identity w) ≠ i16_max.

Definition older (i cur : Identity) : Prop :=
  producer_id i ≠ producer_id cur ∨ producer_epoch i ≤ producer_epoch cur.

(** An idempotent batch, whose stamp agrees with the cached sequence. *)
Definition idempotent pb : Prop :=
  BatchMode_of (pb_record_batch pb) = Idempotent ∧ pb_generation pb = None ∧
  rb_base_sequence (pb_record_batch pb) = pb_base_sequence pb.

Record seq_inv (S : Z → Prop) (Q : Prop) w L : Prop := {
  sq_cur : 0 ≤ producer_id (identity w) ∧ is_i16 (producer_epoch (identity w));
  sq_mode pb : outstanding w L pb → idempotent pb;
  sq_base pb : outstanding w L pb →
    pb_base_sequence pb = expected (acked_log (effects w)) (pb_key pb) (ident pb);
  sq_older pb : outstanding w L pb ∨ pb ∈ acked_log (effects w) → older (ident pb) (identity w);
  sq_next_out pb : Q → outstanding w L pb → ident pb = identity w →
    default 0 (next_seq w !! pb_key pb) = next_of pb;
  sq_next_idle k : Q → (∀ pb, outstanding w L pb → pb_key pb = k → ident pb ≠ identity w) →
    default 0 (next_seq w !! k) = expected (acked_log (effects w)) k (identity w);
  sq_log h1 pb h2 : acked_log (effects w) = h1 ++ pb :: h2 →
    pb_base_sequence pb = expected h1 (pb_key pb) (ident pb);
  sq_gen k a b : accumulators w !! k = Some a → b ∈ queued a → ib_generation b = None;
  sq_ids pb : outstanding w L pb ∨ pb ∈ acked_log (effects w) → S (producer_id (ident pb));
  sq_id : S (producer_id (identity w));
}.

(** The batch is unchanged for the broker. *)
Definition same_seq pb pb' : Prop :=
  pb_key pb = pb_key pb' ∧ pb_base_sequence pb = pb_base_sequence pb' ∧
  pb_record_batch pb = pb_record_batch pb' ∧ pb_records pb = pb_records pb' ∧
  pb_generation pb = pb_generation pb'.

Lemma same_seq_refl pb : same_seq pb pb.
Proof. done. Qed.

Lemma same_seq_facts pb pb' :
  same_seq pb pb' →
  pb_key pb = pb_key pb' ∧ ident pb = ident pb' ∧ next_of pb = next_of pb' ∧
  pb_base_sequence pb = pb_base_sequence pb' ∧ (idempotent pb ↔ idempotent pb').
Proof.
  intros (H1 & H2 & H3 & H4 & H5). unfold ident, next_of, idempotent.
  rewrite H2, H3, H4, H5. done.
Qed.

Definition same_seq_world w w' : Prop :=
  identity w' = identity w ∧ next_seq w' = next_seq w ∧
  acked_log (effects w') = acked_log (effects w) ∧
  (∀ k a b, accumulators w' !! k = Some a → b ∈ queued a →
     ib_generation b = None ∨ ∃ k0 a0 b0, accumulators w !! k0 = Some a0 ∧ b0 ∈ queued a0 ∧ ib_generation b0 = ib_generation b).

Lemma same_seq_world_refl w : same_seq_world w w.
Proof. split_and!; eauto. intros. right. eauto 6. Qed.

Lemma same_seq_world_eq w w' :
  identity w' = identity w → next_seq w' = next_seq w →
  acked_log (effects w') = acked_log (effects w) → accumulators w' = accumulators w →
  same_seq_world w w'.
Proof. intros ??? Ha. split_and!; [done..|]. rewrite Ha. intros. right. eauto 6. Qed.

(** Batches move between the hand and the retry slots. *)
Lemma seq_ext S Q w L w' L' :
  same_seq_world w w' →
  (∀ pb, outstanding w' L' pb → ∃ pb0, outstanding w L pb0 ∧ same_seq pb pb0) →
  (∀ pb0, Q → outstanding w L pb0 → ∃ pb, outstanding w' L' pb ∧ same_seq pb pb0) →
  seq_inv S Q w L → seq_inv S Q w' L'.
Proof.
  intros (Hi & Hn & Hl & Ha) Hout Hin [H1 H2 H3 H4 H5 H6 H7 H8 H9 H10].
  split; rewrite ?Hi, ?Hn, ?Hl; try done.
  - intros pb (pb0 & Ho & (_ & _ & _ & _ & Hm)%same_seq_facts)%Hout. apply Hm. auto.
  - intros pb (pb0 & Ho & (Hk & Hid & _ & Hb & _)%same_seq_facts)%Hout. rewrite Hk, Hid, Hb. auto.
  - intros pb [(pb0 & Ho & (Hk & Hid & _)%same_seq_facts)%Hout|?]; [rewrite Hid|]; auto.
  - intros pb HQ (pb0 & Ho & (Hk & Hid & Hnx & _)%same_seq_facts)%Hout. rewrite Hk, Hid, Hnx. auto.
  - intros k HQ Hk. apply H6; [done|]. intros pb0 Ho Hkey Hid.
    destruct (Hin pb0 HQ Ho) as (pb & Ho' & (Hk' & Hid' & _)%same_seq_facts).
    apply (Hk pb Ho'); congruence.
  - intros k a b Hk Hb. destruct (Ha k a b Hk Hb) as [?|(k0 & a0 & b0 & Hk0 & Hb0 & <-)]; eauto.
  - intros pb [(pb0 & Ho & (Hk & Hid & _)%same_seq_facts)%Hout|?]; [rewrite Hid|]; auto.
Qed.

Lemma seq_weaken S (Q Q' : Prop) w L : (Q' → Q) → seq_inv S Q w L → seq_inv S Q' w L.
Proof. intros HQ [H1 H2 H3 H4 H5 H6 H7 H8 H9 H10]. split; eauto. Qed.

(** What [fail_prepared], [finish_in_flight] and the other bookkeeping leave. *)
Definition frame w w' : Prop := same_seq_world w w' ∧ retry (pipe w') = retry (pipe w).

Lemma seq_frame S Q w w' L : frame w w' → seq_inv S Q w L → seq_inv S Q w' L.
Proof.
  intros [Hw Hr]. apply seq_ext; [done|..]; intros pb; unfold outstanding; rewrite Hr; eauto using same_seq_refl.
Qed.

Lemma frame_refl w : frame w w.
Proof. split; [apply same_seq_world_refl|done]. Qed.

Lemma frame_trans w1 w2 w3 : frame w1 w2 → frame w2 w3 → frame w1 w3.
Proof.
  intros [(Hi & Hn & Hl & Ha) Hr] [(Hi' & Hn' & Hl' & Ha') Hr']. split; [split_and!|]; try congruence.
  intros k a b Hk Hb. destruct (Ha' k a b Hk Hb) as [?|(k0 & a0 & b0 & Hk0 & Hb0 & <-)]; eauto.
Qed.

(** A batch leaves without an acknowledgement: only a batch of an identity that
    builds no more batches may. *)
Lemma seq_drop S Q w L pb :
  (Q → ident pb ≠ identity w) → seq_inv S Q w (pb :: L) → seq_inv S Q w L.
Proof.
  intros Hne [H1 H2 H3 H4 H5 H6 H7 H8 H9 H10].
  assert (∀ pb', outstanding w L pb' → outstanding w (pb :: L) pb') as Hsub.
  { intros pb' [?|?]; [left; by right|by right]. }
  split; auto.
  - intros pb' [?|?]; auto.
  - intros k HQ Hk. apply H6; [done|]. intros pb' [[->|?]%elem_of_cons|?]; auto.
    + apply Hk. by left.
    + apply Hk. by right.
  - intros pb' [?|?]; auto.
Qed.

Lemma outstanding_unique w L pb pb' :
  world_inv w (foot <$> L) → outstanding w L pb → outstanding w L pb' →
  pb_key pb = pb_key pb' → pb = pb'.
Proof.
  intros [H1 H2 H3 _ _] Ho Ho' Hk.
  assert ((foot <$> L).*1 = pb_key <$> L) as HL by (by rewrite <- list_fmap_compose).
  rewrite HL in H2, H3.
  destruct Ho as [Ho|[k Ho]], Ho' as [Ho'|[k' Ho']].
  - apply list_elem_of_lookup in Ho as [i Hi]. apply list_elem_of_lookup in Ho' as [j Hj].
    assert (i = j) as ->; [|congruence].
    eapply NoDup_lookup; [exact H2|by rewrite list_lookup_fmap, Hi|by rewrite list_lookup_fmap, Hj, Hk].
  - pose proof (H1 _ _ Ho'). rewrite H3 in Ho'; [done|]. subst k'. rewrite <- Hk.
    apply list_elem_of_fmap. eauto.
  - pose proof (H1 _ _ Ho). rewrite H3 in Ho; [done|]. subst k. rewrite Hk.
    apply list_elem_of_fmap. eauto.
  - pose proof (H1 _ _ Ho). pose proof (H1 _ _ Ho'). congruence.
Qed.

(** An acknowledgement moves a batch into the log. *)
Lemma seq_ack S Q w L pb :
  world_inv w (foot <$> (pb :: L)) → seq_inv S Q w (pb :: L) → seq_inv S Q (log_ack pb w) L.
Proof.
  intros Hw [H1 H2 H3 H4 H5 H6 H7 H8 H9 H10].
  assert (outstanding w (pb :: L) pb) as Hpb by (left; left).
  assert (∀ pb', outstanding (log_ack pb w) L pb' → outstanding w (pb :: L) pb' ∧ pb_key pb' ≠ pb_key pb)
    as Hsub.
  { intros pb' Ho. assert (outstanding w (pb :: L) pb') as Ho'
      by (destruct Ho; [left; by right|by right]).
    split; [done|]. intros Hk. destruct Hw as [Hw1 Hw2 Hw3 _ _]. csimpl in *.
    assert ((foot <$> L).*1 = pb_key <$> L) as HL by (by rewrite <- list_fmap_compose).
    rewrite HL in *. inversion_clear Hw2 as [|?? Hni _]. destruct Ho as [Ho|[k Ho]].
    - apply Hni. rewrite <- Hk. apply list_elem_of_fmap. eauto.
    - simpl in Ho. pose proof (Hw1 _ _ Ho). subst k. rewrite Hw3 in Ho; [done|]. rewrite Hk. left. }
  split; simpl; auto.
  - intros pb' [? _]%Hsub. auto.
  - intros pb' [? Hk]%Hsub. rewrite expected_snoc, decide_False by naive_solver. auto.
  - intros pb' [[? _]%Hsub|[?|?%list_elem_of_singleton]%elem_of_app]; subst; auto.
  - intros pb' HQ [? _]%Hsub. auto.
  - intros k HQ Hk. rewrite expected_snoc.
    destruct (decide (pb_key pb = k ∧ ident pb = identity w)) as [[<- Hid]|Hne]; [auto|].
    apply H6; [done|]. intros pb' Ho Hk'. destruct Ho as [[->|Ho]%elem_of_cons|Ho].
    + naive_solver.
    + apply Hk; [by left|done].
    + apply Hk; [by right|done].
  - intros h1 pb' h2 Hl. destruct h2 as [|x h2 _] using rev_ind.
    + apply app_inj_tail in Hl as [<- <-]. auto.
    + rewrite app_comm_cons, app_assoc in Hl. apply app_inj_tail in Hl as [Hl _]. eauto.
  - intros pb' [[? _]%Hsub|[?|?%list_elem_of_singleton]%elem_of_app]; subst; apply (H9 _); auto.
Qed.

(** ** Epoch bumps *)

(** A new producer id is one that no batch carries, at an epoch that can be
    raised. *)
Definition fresh_answer e (S : Z → Prop) : Prop :=
  ∀ r, init_producer_id e = Some r →
    is_i16 (ir_producer_epoch r) ∧ ir_producer_epoch r ≠ i16_max ∧ ¬ S (ir_producer_id r).

Lemma bump_cases e w w' b :
  bump_idempotent_epoch e w = (w', b) → is_i16 (producer_epoch (identity w)) →
  (b = false ∧ w' = w ∧ producer_epoch (identity w) = i16_max) ∨
  (b = true ∧ ∃ i, w' = upd_next_seq ∅ (upd_identity i w) ∧
     ((producer_id i = producer_id (identity w) ∧
       producer_epoch i = producer_epoch (identity w) + 1 ∧ producer_epoch i ≤ i16_max) ∨
      ∃ r, init_producer_id e = Some r ∧ producer_id i = ir_producer_id r ∧
           producer_epoch i = ir_producer_epoch r ∧ 0 ≤ producer_id i)).
Proof.
  unfold bump_idempotent_epoch. intros Hb He. unfold i16_try_from in Hb.
  destruct (decide (is_i16 (producer_epoch (identity w) + 1))) as [Hi|Hi].
  - simplify_eq. right. split; [done|]. eexists. split; [done|]. left. simpl. unfold_ints. lia.
  - destruct (init_producer_id e) as [r|] eqn:Er.
    2:{ simplify_eq. left. split_and!; [done..|]. unfold_ints. lia. }
    destruct (_ || _) eqn:Hr; simplify_eq.
    { left. split_and!; [done..|]. unfold_ints. lia. }
    right. split; [done|]. eexists. split; [done|]. right. exists r. simpl. split_and!; try done.
    rewrite !orb_false_iff, !Z.ltb_ge in Hr. lia.
Qed.

Lemma seq_bump S Q w L e w' :
  seq_inv S Q w L → fresh_answer e S → bump_idempotent_epoch e w = (w', true) →
  seq_inv (λ _, True) True w' L ∧
  ∀ pb, outstanding w' L pb ∨ pb ∈ acked_log (effects w') → ident pb ≠ identity w'.
Proof.
  intros [H1 H2 H3 H4 H5 H6 H7 H8 H9 H10] Hf Hb.
  apply bump_cases in Hb as [(? & _)|(_ & i & -> & Hi)]; [done| |by apply H1].
  assert (∀ pb, outstanding w L pb ∨ pb ∈ acked_log (effects w) → older (ident pb) i ∧ ident pb ≠ i)
    as Hold.
  { intros pb Ho. pose proof (H4 pb Ho) as Hp. destruct Hi as [(Hid & He & _)|(r & Hr & Hid & _)].
    - unfold older in *. rewrite Hid, He. split; [destruct Hp; [by left|right; lia]|].
      intros E. rewrite E, Hid, He in Hp. destruct Hp; [done|lia].
    - destruct (Hf r Hr) as (_ & _ & Hn). assert (producer_id (ident pb) ≠ producer_id i).
      { intros E. apply Hn. rewrite <- Hid, <- E. auto. }
      split; [by left|congruence]. }
  assert (0 ≤ producer_id i ∧ is_i16 (producer_epoch i)) as Hcur.
  { destruct Hi as [(Hid & He & Hm)|(r & Hr & Hid & He & Hp)].
    - rewrite Hid. split; [lia|]. unfold_ints. lia.
    - split; [done|]. rewrite He. by apply Hf. }
  split; [|intros pb Ho; by apply Hold].
  split; simpl; auto.
  - intros pb Ho. by apply Hold.
  - intros pb _ Ho E. by destruct (Hold pb (or_introl Ho)).
  - intros k _ _. rewrite lookup_empty. symmetry. apply expected_fresh. intros pb Hp. by apply Hold; right.
Qed.

(** ** Rewrites, splits and new batches *)

Lemma restart_same w pb :
  ∃ pb', restart_and_park w pb = park pb' (upd_next_seq (<[pb_key pb := i32_count (length (pb_records pb))]> (next_seq w)) w) ∧
    pb_key pb' = pb_key pb ∧ ident pb' = ident pb ∧ pb_base_sequence pb' = 0 ∧
    rb_base_sequence (pb_record_batch pb') = 0 ∧ pb_records pb' = pb_records pb ∧
    pb_generation pb' = pb_generation pb ∧
    BatchMode_of (pb_record_batch pb') = BatchMode_of (pb_record_batch pb).
Proof. unfold restart_and_park, restart_sequence. simpl. eexists. split; [done|]. done. Qed.

Lemma wrapping_zero n : i32_wrapping_add 0 (i32_count n) = i32_count n.
Proof.
  unfold i32_wrapping_add. rewrite Z.add_0_l. apply cast_signed_wrap; [done|].
  unfold i32_count, i32_try_from. destruct (decide _); simpl; unfold_ints; lia.
Qed.

(** The first batch of a fresh identity on its partition. *)
Lemma seq_restart S w L pb :
  world_inv w (foot <$> (pb :: L)) → seq_inv S True w (pb :: L) →
  (∀ pb', pb' ∈ acked_log (effects w) → ident pb' ≠ identity w) →
  seq_inv S True (restart_and_park w (set_identity pb (identity w))) L.
Proof.
  intros Hw [H1 H2 H3 H4 H5 H6 H7 H8 H9 H10] Hfr.
  destruct (restart_same w (set_identity pb (identity w)))
    as (pb' & -> & Hk & Hid & Hb & Hrb & Hrec & Hgen & Hmode).
  change (pb_key (set_identity pb (identity w))) with (pb_key pb) in *.
  assert (ident pb' = identity w) as Hid' by (rewrite Hid; by destruct (identity w)).
  assert (∀ q, outstanding (park pb' (upd_next_seq
      (<[pb_key pb := i32_count (length (pb_records (set_identity pb (identity w))))]> (next_seq w)) w)) L q →
    q = pb' ∨ outstanding w (pb :: L) q ∧ pb_key q ≠ pb_key pb) as Hout.
  { destruct Hw as [Hw1 Hw2 Hw3 _ _]. csimpl in *. inversion_clear Hw2 as [|?? Hni _].
    assert ((foot <$> L).*1 = pb_key <$> L) as HL by (by rewrite <- list_fmap_compose).
    rewrite HL in *.
    intros q [Hq|[k Hq]].
    - right. split; [left; by right|]. intros E. apply Hni. rewrite <- E. apply list_elem_of_fmap. eauto.
    - simpl in Hq. apply lookup_insert_Some in Hq as [[<- <-]|[Hne Hq]]; [by left|].
      right. split; [right; eauto|]. pose proof (Hw1 _ _ Hq). congruence. }
  split; simpl; auto.
  - intros q [->|[? _]]%Hout; [|auto].
    destruct (H2 pb) as (Hm & Hg & _); [left; left|].
    split_and!; [|by rewrite Hgen|by rewrite Hrb, Hb]. rewrite Hmode. simpl.
    revert Hm. unfold BatchMode_of. simpl. destruct (is_transactional _); [done|]. intros _.
    destruct (0 <=? producer_id (identity w)) eqn:E; [done|]. apply Z.leb_gt in E. lia.
  - intros q [->|[? _]]%Hout; [|auto]. rewrite Hb, Hid'. symmetry. by apply expected_fresh.
  - intros q [[->|[? _]]%Hout|?]; auto. rewrite Hid'. right. lia.
  - intros q _ [->|[Hq Hne]]%Hout Hc.
    + rewrite Hk, lookup_insert_eq. simpl. unfold next_of. by rewrite Hb, Hrec, wrapping_zero.
    + rewrite lookup_insert_ne by done. auto.
  - intros k _ Hn. destruct (decide (k = pb_key pb)) as [->|Hne].
    + destruct (Hn pb'); [right; exists (pb_key pb'); simpl; by rewrite lookup_insert_eq|done|done].
    + rewrite lookup_insert_ne by done. apply H6; [done|]. intros q Hq Hkq Hidq.
      destruct (Hn q); [|done|done].
      destruct Hq as [[->|Hq]%elem_of_cons|[k' Hq]]; [congruence|by left|right].
      exists k'. simpl. rewrite Hk. pose proof (wi_keys _ _ Hw _ _ Hq).
      by rewrite lookup_insert_ne by congruence.
  - intros q [[->|[? _]]%Hout|?]; [|apply (H9 _); auto..].
    change (S (producer_id (ident pb'))). by rewrite Hid'.
Qed.

(** The sequences go back to the partition, for the parts. *)
Lemma seq_give_back S Q w L pb :
  world_inv w (foot <$> (pb :: L)) → seq_inv S Q w (pb :: L) → (Q → ident pb = identity w) →
  seq_inv S Q (upd_next_seq (<[pb_key pb := pb_base_sequence pb]> (next_seq w)) w) L.
Proof.
  intros Hw [H1 H2 H3 H4 H5 H6 H7 H8 H9 H10] Hid.
  assert (∀ q, outstanding w L q → outstanding w (pb :: L) q ∧ pb_key q ≠ pb_key pb) as Hout.
  { intros q Hq. assert (outstanding w (pb :: L) q) as Hq'
      by (destruct Hq; [left; by right|by right]). split; [done|]. intros E.
    destruct Hw as [Hw1 Hw2 Hw3 _ _]. csimpl in *. inversion_clear Hw2 as [|?? Hni _].
    assert ((foot <$> L).*1 = pb_key <$> L) as HL by (by rewrite <- list_fmap_compose).
    rewrite HL in *. destruct Hq as [Hq|[k Hq]].
    - apply Hni. rewrite <- E. apply list_elem_of_fmap. eauto.
    - pose proof (Hw1 _ _ Hq). subst k. rewrite Hw3 in Hq; [done|]. rewrite E. left. }
  split; simpl; auto.
  - intros q [? _]%Hout. auto.
  - intros q [? _]%Hout. auto.
  - intros q [[? _]%Hout|?]; auto.
  - intros q HQ [? Hne]%Hout Hc. rewrite lookup_insert_ne by done. auto.
  - intros k HQ Hn. destruct (decide (k = pb_key pb)) as [->|Hne].
    + rewrite lookup_insert_eq. simpl. rewrite <- Hid by done. apply H3. left. left.
    + rewrite lookup_insert_ne by done. apply H6; [done|]. intros q Hq Hkq.
      destruct Hq as [[->|Hq]%elem_of_cons|Hq]; [congruence| |].
      * apply Hn; [by left|done].
      * apply Hn; [by right|done].
  - intros q [[? _]%Hout|?]; apply (H9 _); auto.
Qed.

(** Bookkeeping that changes neither batches nor sequences. *)
Definition quiet w w' : Prop :=
  identity w' = identity w ∧ next_seq w' = next_seq w ∧ retry (pipe w') = retry (pipe w) ∧
  acked_log (effects w') = acked_log (effects w) ∧ accumulators w' = accumulators w ∧
  lifecycle w' = lifecycle w.

Lemma quiet_frame w w' : quiet w w' → frame w w'.
Proof.
  intros (Hi & Hn & Hr & Hl & Ha & _). split; [|done]. split_and!; [done..|].
  intros k a b. rewrite Ha. intros. right. eauto 6.
Qed.

Lemma quiet_finish w : quiet w (finish_in_flight w).
Proof. unfold finish_in_flight. by destruct (_ =? _). Qed.

Lemma finish_lifecycle w : lifecycle (finish_in_flight w) = lifecycle w.
Proof. apply quiet_finish. Qed.

Lemma quiet_trans w1 w2 w3 : quiet w1 w2 → quiet w2 w3 → quiet w1 w3.
Proof. intros (?&?&?&?&?&?) (?&?&?&?&?&?). split_and!; congruence. Qed.

Lemma quiet_fail_prepared pb err w : quiet w (fail_prepared pb err w).
Proof. unfold fail_prepared. by apply (quiet_trans _ (fail_batch (pb_records pb) err w)), quiet_finish. Qed.

Lemma quiet_terminal pb err w : quiet w (terminal_fail_batch pb err w).
Proof.
  unfold terminal_fail_batch. eapply quiet_trans; [|apply quiet_fail_prepared]. by case_bool_decide.
Qed.

Lemma quiet_fatal pb code w : quiet w (record_transaction_fatal_error pb code w).
Proof. unfold record_transaction_fatal_error. by case_bool_decide. Qed.

Lemma quiet_record_ack pb base w : quiet w (record_ack pb base w).
Proof. unfold record_ack. by destruct (_ <? _). Qed.

Lemma quiet_latency w key now drained : quiet w (note_node_latency w key now drained).
Proof. unfold note_node_latency. by repeat case_match. Qed.

Lemma quiet_foldl {A} (f : World → A → World) l w :
  (∀ w x, quiet w (f w x)) → quiet w (foldl f w l).
Proof.
  intros Hf. revert w. induction l as [|x l IH]; intros w; simpl; [done|].
  eapply quiet_trans; [apply Hf|apply IH].
Qed.

(** ** Both invariants together *)

Lemma moves_inv w F X w' F' X' : moves w F X w' F' X' → world_inv w F → world_inv w' F'.
Proof. intros Hm Hw. by apply Hm. Qed.

Definition inv S Q w L : Prop := world_inv w (foot <$> L) ∧ seq_inv S Q w L.

Lemma inv_weaken S (Q Q' : Prop) w L : (Q' → Q) → inv S Q w L → inv S Q' w L.
Proof. intros HQ [? ?]. split; [done|]. by eapply seq_weaken. Qed.

Lemma inv_quiet S Q w w' L : inv S Q w L → same_core w w' → quiet w w' → inv S Q w' L.
Proof.
  intros [Hw Hs] Hc Hq. split; [by apply (moves_core _ _ _ [] Hc) in Hw as [? _]|].
  by eapply seq_frame; [apply quiet_frame|].
Qed.

Lemma seq_perm S Q w L L' : L ≡ₚ L' → seq_inv S Q w L → seq_inv S Q w L'.
Proof.
  intros Hp. apply seq_ext; [apply same_seq_world_refl|..]; intros pb; unfold outstanding;
    setoid_rewrite Hp; eauto using same_seq_refl.
Qed.

Lemma inv_perm S Q w L L' : L ≡ₚ L' → inv S Q w L → inv S Q w L'.
Proof.
  intros Hp [? ?]. split; [|by eapply seq_perm].
  eapply world_inv_perm; [|done]. by rewrite Hp.
Qed.

Lemma inv_same S Q w L pb pb' :
  inv S Q w (pb :: L) → same_seq pb' pb → foot pb' = foot pb → inv S Q w (pb' :: L).
Proof.
  intros [Hw Hs] Hsame Hf. split; [csimpl; by rewrite Hf|].
  revert Hs. apply seq_ext; [apply same_seq_world_refl|..]; intros q; unfold outstanding.
  - intros [[->|?]%elem_of_cons|?]; [exists pb; split; [left; left|done]|..];
      exists q; (split; [|apply same_seq_refl]); [left; by right|by right].
  - intros _ [[->|?]%elem_of_cons|?]; [exists pb'; split; [left; left|done]|..];
      exists q; (split; [|apply same_seq_refl]); [left; by right|by right].
Qed.

Lemma inv_park S Q w L pb : inv S Q w (pb :: L) → inv S Q (park pb w) L.
Proof.
  intros [Hw Hs]. split; [exact (moves_inv _ _ _ _ _ _ (moves_park pb w (foot <$> L) []) Hw)|].
  assert (retry (pipe w) !! pb_key pb = None) as Hn by (eapply wi_disjoint; [done|]; csimpl; left).
  revert Hs. apply seq_ext; [by apply same_seq_world_eq|..]; intros q; unfold outstanding; simpl.
  - intros [?|[k [[<- <-]|[_ ?]]%lookup_insert_Some]]; eexists; (split; [|apply same_seq_refl]);
      [left; by right|left; left|right; eauto].
  - intros _ [[->|?]%elem_of_cons|[k Hk]]; eexists; (split; [|apply same_seq_refl]).
    + right. exists (pb_key pb). by rewrite lookup_insert_eq.
    + by left.
    + right. exists k. rewrite lookup_insert_ne; [done|]. congruence.
Qed.

Lemma inv_park_list S Q l w L : inv S Q w (l ++ L) → inv S Q (foldl (λ w pb, park pb w) w l) L.
Proof. revert w. induction l as [|pb l IH]; intros w Hi; [done|]. simpl. by apply IH, inv_park. Qed.

(** A batch is resolved without an acknowledgement. *)
Lemma inv_fail S Q w L pb w' :
  inv S Q w (pb :: L) → (Q → ident pb ≠ identity w) →
  moves w (foot pb :: (foot <$> L)) [] w' (foot <$> L) [] → quiet w w' → inv S Q w' L.
Proof.
  intros [Hw Hs] Hne Hm Hq. split; [exact (moves_inv _ _ _ _ _ _ Hm Hw)|].
  eapply seq_frame; [by apply quiet_frame|]. by eapply seq_drop.
Qed.

Lemma inv_terminal_list {A} (g : A → PreparedBatch) (h : A → ProducerError.producer_error) S Q l w L :
  inv S Q w ((g <$> l) ++ L) → (∀ x, x ∈ l → Q → ident (g x) ≠ identity w) →
  inv S Q (foldl (λ w x, terminal_fail_batch (g x) (h x) w) w l) L ∧
  quiet w (foldl (λ w x, terminal_fail_batch (g x) (h x) w) w l).
Proof.
  intros Hi Hne. split; [|apply quiet_foldl; intros; apply quiet_terminal].
  revert w Hi Hne. induction l as [|x l IH]; intros w Hi Hne; [done|]. simpl.
  pose proof (quiet_terminal (g x) (h x) w) as Hq. apply IH.
  - eapply inv_fail; [exact Hi|apply Hne; left|apply moves_terminal|done].
  - intros y Hy. destruct Hq as (-> & _). apply Hne. by right.
Qed.

Lemma inv_ack S Q w L pb base ts : inv S Q w (pb :: L) → inv S Q (ack_batch pb base ts w) L.
Proof.
  intros [Hw Hs]. split; [exact (moves_inv _ _ _ _ _ _ (moves_ack pb base ts w (foot <$> L) []) Hw)|].
  assert (frame (log_ack pb w) (ack_batch pb base ts w)) as Hf.
  { unfold ack_batch. set (w1 := push_replies _ w).
    apply (frame_trans _ (log_ack pb w1)); [by apply quiet_frame|].
    apply quiet_frame. exact (quiet_finish (log_ack pb w1)). }
  eapply seq_frame; [exact Hf|]. by apply seq_ack.
Qed.

Lemma requeue_frame w pb :
  pb_generation pb = None → frame w (requeue_parts w pb) ∧ identity (requeue_parts w pb) = identity w.
Proof.
  intros Hg. unfold requeue_parts. destruct (accumulators w !! pb_key pb) as [a|] eqn:Ek.
  - destruct (push_front_records a (drop (length (pb_records pb) / 2) (pb_records pb))
      (pb_generation pb) (pb_created_at pb)) as (b2 & -> & _ & _ & Hb2 & _).
    match goal with |- context [push_front ?a' _ _ _] => set (a2 := a') end.
    destruct (push_front_records a2 (take (length (pb_records pb) / 2) (pb_records pb))
      (pb_generation pb) (pb_created_at pb)) as (b1 & -> & _ & _ & Hb1 & _).
    match goal with |- context [upd_accumulators ?m w] => set (m' := m) end.
    split; [|by destruct (quiet_finish (upd_accumulators m' w)) as (? & _)].
    apply (frame_trans _ (upd_accumulators m' w)).
    + split; [|done]. split_and!; [done..|]. simpl. intros k a' b.
      unfold m'. rewrite lookup_insert_Some. intros [[<- <-]|[_ Hk]] Hb; [|right; eauto 6].
      unfold queued in Hb. simpl in Hb. apply elem_of_cons in Hb as [->|Hb]; [left; congruence|].
      apply elem_of_cons in Hb as [->|Hb]; [left; congruence|].
      right. by exists (pb_key pb), a, b.
    + apply quiet_frame. exact (quiet_finish (upd_accumulators m' w)).
  - match goal with |- context [finish_in_flight ?x] => set (w3 := x) end.
    destruct (quiet_finish w3) as (Hq1 & _). split; [|exact Hq1].
    apply (frame_trans _ w3); [by apply quiet_frame|]. apply quiet_frame. exact (quiet_finish w3).
Qed.

Lemma inv_split S Q w L pb (bumped : bool) :
  inv S Q w (pb :: L) →
  (Q → if bumped then ident pb ≠ identity w else ident pb = identity w) →
  inv S Q (split_and_requeue w pb bumped) L ∧ identity (split_and_requeue w pb bumped) = identity w.
Proof.
  intros [Hw Hs] Hid.
  destruct (sq_mode _ _ _ _ Hs pb) as (Hm & Hg & _); [left; left|].
  unfold split_and_requeue. rewrite Hm. rewrite bool_decide_eq_true_2 by done. simpl.
  set (w1 := if negb bumped then _ else w).
  assert (seq_inv S Q w1 L ∧ retry (pipe w1) = retry (pipe w) ∧ identity w1 = identity w ∧
          accumulators w1 = accumulators w) as (Hs1 & Hr1 & Hi1 & Ha1).
  { unfold w1. destruct bumped; simpl; (split; [|done]); [by eapply seq_drop|by apply seq_give_back]. }
  destruct (requeue_frame w1 pb Hg) as [Hf Hi2].
  split; [|congruence]. split; [|by eapply seq_frame].
  pose proof (moves_split w pb bumped (foot <$> L) []) as Hms.
  unfold split_and_requeue in Hms. rewrite Hm in Hms.
  rewrite bool_decide_eq_true_2 in Hms by done. exact (moves_inv _ _ _ _ _ _ Hms Hw).
Qed.

Lemma inv_split_list S Q l w L (bumped : bool) :
  inv S Q w (l ++ L) →
  (∀ pb, pb ∈ l → Q → if bumped then ident pb ≠ identity w else ident pb = identity w) →
  inv S Q (foldl (λ w pb, split_and_requeue w pb bumped) w l) L ∧
  identity (foldl (λ w pb, split_and_requeue w pb bumped) w l) = identity w.
Proof.
  revert w. induction l as [|pb l IH]; intros w Hi Hid; [done|]. simpl.
  destruct (inv_split S Q w (l ++ L) pb bumped Hi) as [Hi' E]; [apply Hid; left|].
  destruct (IH _ Hi') as [? E']; [|split; [done|congruence]].
  intros q Hq. rewrite E. apply Hid. by right.
Qed.

Lemma inv_restart_list S l w L :
  inv S True w (l ++ L) → (∀ pb, pb ∈ acked_log (effects w) → ident pb ≠ identity w) →
  let w' := foldl (λ w pb, restart_and_park w (set_identity pb (identity w))) w l in
  inv S True w' L ∧ identity w' = identity w.
Proof.
  revert w. induction l as [|pb l IH]; intros w Hi Hf; [done|]. simpl.
  set (w1 := restart_and_park w (set_identity pb (identity w))).
  assert (identity w1 = identity w ∧ acked_log (effects w1) = acked_log (effects w)) as [E1 E2] by done.
  destruct (IH w1) as [? E]; [|by rewrite E1, E2|split; [done|congruence]].
  destruct Hi as [Hw Hs]. split; [|by apply seq_restart].
  exact (moves_inv _ _ _ _ _ _ (moves_restart w (set_identity pb (identity w)) (foot <$> (l ++ L)) []) Hw).
Qed.

(** A fence resolves without acknowledging, and nothing is built after it. *)
Lemma fence_lifecycle e w l : lifecycle (fence e w l) ≠ STATE_ACTIVE.
Proof.
  unfold fence. set (w1 := if lifecycle w =? STATE_ACTIVE then _ else w).
  assert (lifecycle w1 ≠ STATE_ACTIVE) as H1.
  { unfold w1. destruct (Z.eqb_spec (lifecycle w) STATE_ACTIVE); done. }
  assert (∀ A (f : World → A → World) l w, (∀ w x, lifecycle (f w x) = lifecycle w) →
    lifecycle (foldl f w l) = lifecycle w) as Hl.
  { intros A f l' w' Hf. revert w'. induction l'; intros w'; simpl; [done|]. by rewrite IHl'. }
  assert (∀ pb w, lifecycle (fail_prepared pb ProducerError.FencedProducer w) = lifecycle w) as Hp
    by (intros; apply quiet_fail_prepared).
  rewrite Hl; [|intros w' [k a]; simpl; destruct (locked e k); [done|]; by rewrite Hl].
  rewrite Hl by (intros; apply Hp). simpl. rewrite Hl by (intros; apply Hp). done.
Qed.

(** Everything a fence leaves was there before. *)
Lemma fence_seq S e w l L :
  seq_inv S False w (l ++ L) → seq_inv S False (fence e w l) L.
Proof.
  intros Hs. unfold fence. set (w1 := if lifecycle w =? STATE_ACTIVE then _ else w).
  assert (seq_inv S False w1 (l ++ L)) as Hs1.
  { eapply seq_frame; [|exact Hs]. unfold w1. destruct (_ =? _); [|apply frame_refl].
    split; [by apply same_seq_world_eq|done]. }
  set (w2 := foldl _ w1 l). assert (seq_inv S False w2 L) as Hs2.
  { eapply seq_frame; [apply quiet_frame; apply quiet_foldl; intros; apply quiet_fail_prepared|].
    clear -Hs1. induction l as [|pb l IH]; [done|]. apply IH. by eapply seq_drop. }
  set (w3 := foldl _ (upd_retry ∅ w2) _). assert (seq_inv S False w3 L) as Hs3.
  { eapply seq_frame; [apply quiet_frame; apply quiet_foldl; intros; apply quiet_fail_prepared|].
    revert Hs2. apply seq_ext; [by apply same_seq_world_eq| |done].
    intros pb [?|[k Hk]]; [exists pb; split; [by left|apply same_seq_refl]|].
    simpl in Hk. by rewrite lookup_empty in Hk. }
  clearbody w3. eapply seq_frame; [|exact Hs3].
  apply (acc_loop_iter id _ frame); [apply frame_refl|apply frame_trans|].
  clear. intros w k a Hk. simpl. destruct (locked e k); [split; [apply frame_refl|done]|].
  set (m := <[k := _]> (accumulators w)). set (bs := option_list (ac_current a) ++ ac_ready a).
  assert (quiet (upd_accumulators m w) (foldl (λ w b, fail_in_progress b ProducerError.FencedProducer w)
    (upd_accumulators m w) bs)) as Hq by (apply quiet_foldl; done).
  split.
  - eapply frame_trans; [|by apply quiet_frame]. split; [|done]. split_and!; [done..|].
    simpl. unfold m. intros k' a' b. rewrite lookup_insert_Some. intros [[<- <-]|[_ ?]] Hb.
    + by apply elem_of_nil in Hb.
    + right. eauto 6.
  - intros k' Hne. destruct Hq as (_ & _ & _ & _ & -> & _). simpl. unfold m. by rewrite lookup_insert_ne.
Qed.

(** ** The completion cycle *)

(** What the answer to an idempotent batch can be. *)
Definition verdict_ok (v : BatchVerdict) : Prop :=
  match v with
  | RestartSequenceAndRetry | Barred _ => False
  | Terminal _ r => r = BumpEpoch
  | _ => True
  end.

Definition cycle_ok (v : CycleVerdicts) : Prop :=
  repairs v = [] ∧ restarts v = [] ∧ (failed v ≠ [] → bump_epoch v = true).

Lemma inv_hand S Q w L pb pb' v v' :
  inv S Q w (pb :: cycle_hand v ++ L) → same_seq pb' pb → foot pb' = foot pb →
  cycle_hand v' ≡ₚ pb' :: cycle_hand v → inv S Q w (cycle_hand v' ++ L).
Proof.
  intros Hi Hs Hf Hp. eapply inv_perm; [|eapply (inv_same _ _ _ _ pb pb'); [exact Hi|done|done]].
  by rewrite Hp.
Qed.

Lemma take_retry_same pb n : same_seq (take_retry pb n).1 pb.
Proof. unfold take_retry. by destruct (_ <=? _). Qed.

Lemma inv_record_fenced S A v to_fail w pb verdict v' w' L :
  fenced v = Some to_fail → record_fenced v to_fail w pb verdict = (v', w') →
  inv S (fenced v = None ∧ A) w (pb :: cycle_hand v ++ L) →
  inv S (fenced v' = None ∧ A) w' (cycle_hand v' ++ L) ∧ (fenced v' = None → cycle_ok v') ∧
  ∀ q, q ∈ splits v' → q ∈ splits v.
Proof.
  intros Hf Hr Hi.
  assert (inv S False w (pb :: cycle_hand v ++ L)) as Hi' by (by eapply inv_weaken; [|exact Hi]).
  assert (is_Some (fenced v') ∧ splits v' = splits v) as [[l Hv'] Hsp].
  { unfold record_fenced in Hr. destruct verdict; simplify_eq; simpl; eauto. }
  rewrite Hv', Hsp. split; [|done]. apply (inv_weaken _ False); [by intros []|].
  unfold record_fenced in Hr. destruct verdict; simplify_eq.
  - by apply inv_ack.
  - eapply inv_hand; [exact Hi'|apply same_seq_refl|done|]. unfold cycle_hand. rewrite Hf. simpl.
    solve_Permutation.
  - eapply inv_hand; [exact Hi'|apply same_seq_refl|done|]. unfold cycle_hand. rewrite Hf. simpl.
    solve_Permutation.
  - eapply inv_hand; [exact Hi'|apply same_seq_refl|done|]. unfold cycle_hand. rewrite Hf. simpl.
    solve_Permutation.
  - eapply inv_fail; [exact Hi'|done|apply moves_terminal|apply quiet_terminal].
  - eapply inv_hand; [exact Hi'|apply same_seq_refl|done|]. unfold cycle_hand. rewrite Hf. simpl.
    solve_Permutation.
  - eapply inv_fail; [exact Hi'|done|..].
    + eapply moves_trans; [apply moves_core, fatal_core|apply moves_fail_prepared].
    + eapply quiet_trans; [apply quiet_fatal|apply quiet_fail_prepared].
  - eapply inv_fail; [exact Hi'|done|apply moves_fail_prepared|apply quiet_fail_prepared].
Qed.

Lemma inv_record c S A v w res v' w' L :
  record_verdict c v w res = (v', w') → verdict_ok (sr_verdict res) →
  inv S (fenced v = None ∧ A) w (sr_pb res :: cycle_hand v ++ L) → (fenced v = None → cycle_ok v) →
  inv S (fenced v' = None ∧ A) w' (cycle_hand v' ++ L) ∧ (fenced v' = None → cycle_ok v') ∧
  ∀ q, q ∈ splits v' → q ∈ splits v ∨ sr_verdict res = Split ∧ q = sr_pb res.
Proof.
  unfold record_verdict. destruct res as [pb verdict rf]. simpl.
  change (cycle_hand v) with (cycle_hand (note_refresh v rf)).
  change (fenced v) with (fenced (note_refresh v rf)).
  change (splits v) with (splits (note_refresh v rf)).
  change (cycle_ok v) with (cycle_ok (note_refresh v rf)).
  generalize (note_refresh v rf). clear v. intros v1 Hr Hv Hi Hc1. unfold sort_verdict in Hr.
  destruct (fenced v1) as [to_fail|] eqn:Ef.
  { rewrite <- Ef in Hi. destruct (inv_record_fenced _ _ _ _ _ _ _ _ _ _ Ef Hr Hi) as (?&?&?).
    split_and!; [done|done|auto]. }
  rewrite ?Ef in Hi.
  assert (∀ Q, inv S Q w (pb :: cycle_hand v1 ++ L) → ∀ pb' r err,
    same_seq pb' pb → foot pb' = foot pb → inv S Q w (cycle_hand (push_failed v1 pb' r err) ++ L)) as Hpush.
  { intros Q HQ pb' r err Hs Hf. eapply inv_hand; [exact HQ|exact Hs|exact Hf|apply push_failed_hand]. }
  pose proof (sq_mode _ _ _ _ (proj2 Hi) pb) as Hmode. destruct Hmode as (Hm & _ & _); [left; left|].
  pose proof (take_retry_same pb (retries c)) as Hsame. pose proof (take_retry_foot pb (retries c)) as Hfoot.
  assert (∀ pb' err, let v2 := push_failed v1 pb' BumpEpoch err in
    fenced v2 = None ∧ cycle_ok v2 ∧ splits v2 = splits v1) as Hpf.
  { intros pb' err. simpl. rewrite Ef. destruct (Hc1 eq_refl) as (H1 & H2 & H3). done. }
  destruct (Hc1 eq_refl) as (Hc1a & Hc1b & Hc1c).
  destruct verdict as [base ts| | | |code rep| |code|b]; try done.
  - injection Hr as <- <-. rewrite Ef. split_and!; [|done|auto].
    apply inv_ack. eapply inv_quiet; [exact Hi|apply record_ack_core|apply quiet_record_ack].
  - destruct (take_retry pb (retries c)) as [pb' spent]. simpl in Hsame, Hfoot.
    assert (BatchMode_of (pb_record_batch pb') = Idempotent) as Hm' by (destruct Hsame as (_&_&->&_); done).
    destruct spent; injection Hr as <- <-.
    + rewrite Hm'. change (repair_after_failure Idempotent) with BumpEpoch.
      destruct (Hpf pb' (SendFailure_error (default FailureTransport (pb_last_failure pb'))))
        as (-> & ? & ->). split_and!; [|done|auto]. by apply (Hpush _ Hi).
    + rewrite Ef. split_and!; [|done|auto]. apply inv_park. by eapply inv_same.
  - destruct (take_retry pb (retries c)) as [pb' spent]. simpl in Hsame, Hfoot.
    assert (BatchMode_of (pb_record_batch pb') = Idempotent) as Hm' by (destruct Hsame as (_&_&->&_); done).
    destruct spent; injection Hr as <- <-.
    + rewrite Hm'. change (repair_after_failure Idempotent) with BumpEpoch.
      destruct (Hpf pb' (SendFailure_error (default FailureTransport (pb_last_failure pb'))))
        as (-> & ? & ->). split_and!; [|done|auto]. by apply (Hpush _ Hi).
    + simpl. rewrite ?Ef. split_and!; [|done|auto].
      eapply inv_hand; [exact Hi|exact Hsame|exact Hfoot|]. unfold cycle_hand. rewrite Ef. simpl.
      solve_Permutation.
  - simpl in Hv. subst rep. injection Hr as <- <-. destruct (Hpf pb (ProducerError.Server code)) as (-> & ? & ->).
    split_and!; [|done|auto]. by apply (Hpush _ Hi).
  - injection Hr as <- <-. simpl. rewrite ?Ef. split_and!; [|done|].
    + eapply inv_hand; [exact Hi|apply same_seq_refl|done|]. unfold cycle_hand. rewrite Ef. simpl.
      solve_Permutation.
    + intros q [?|?%list_elem_of_singleton]%elem_of_app; auto.
  - injection Hr as <- <-. simpl. split_and!; [|done|auto].
    apply (inv_weaken _ False); [by intros []|].
    apply (inv_weaken _ _ False) in Hi; [|done].
    replace (cycle_hand (mkCycle _ _ _ _ _ _ _ _)) with (cycle_hand v1)
      by (unfold cycle_hand; simpl; by rewrite Ef).
    eapply inv_fail; [exact Hi|done|..].
    + eapply moves_trans; [apply moves_core, fatal_core|apply moves_fail_prepared].
    + eapply quiet_trans; [apply quiet_fatal|apply quiet_fail_prepared].
Qed.

(** Recording verdicts changes neither the identity nor the lifecycle. *)
Definition same_cur w w' : Prop := identity w' = identity w ∧ lifecycle w' = lifecycle w.

Lemma quiet_cur w w' : quiet w w' → same_cur w w'.
Proof. by intros (? & _ & _ & _ & _ & ?). Qed.

Lemma record_cur c v w res : same_cur w (record_verdict c v w res).2.
Proof.
  unfold record_verdict, sort_verdict. destruct res as [pb verdict rf]. simpl.
  assert (∀ base ts w', same_cur w' (ack_batch pb base ts w')) as Ha.
  { intros. unfold ack_batch. exact (quiet_cur _ _ (quiet_finish _)). }
  pose proof (λ err w', quiet_cur _ _ (quiet_fail_prepared pb err w')) as Hf.
  destruct (fenced v).
  - destruct verdict; simpl; try done; try apply Ha; try apply Hf.
    + apply quiet_cur, quiet_terminal.
    + eapply quiet_cur, quiet_trans; [apply quiet_fatal|apply quiet_fail_prepared].
  - destruct verdict; simpl; try done; try apply Hf.
    + apply (Ha base_offset log_append_time_ms (record_ack pb base_offset w)) || idtac.
      destruct (Ha base_offset log_append_time_ms (record_ack pb base_offset w)) as [H1 H2].
      destruct (quiet_cur _ _ (quiet_record_ack pb base_offset w)). split; congruence.
    + by destruct (take_retry pb (retries c)) as [? []].
    + by destruct (take_retry pb (retries c)) as [? []].
    + by destruct (take_retry pb (retries c)) as [? []].
    + eapply quiet_cur, quiet_trans; [apply quiet_fatal|apply quiet_fail_prepared].
Qed.

Lemma inv_record_all c S A results v w v' w' L :
  foldl (λ '(v, w) res, record_verdict c v w res) (v, w) results = (v', w') →
  Forall (λ res, verdict_ok (sr_verdict res)) results →
  inv S (fenced v = None ∧ A) w ((sr_pb <$> results) ++ cycle_hand v ++ L) →
  (fenced v = None → cycle_ok v) →
  inv S (fenced v' = None ∧ A) w' (cycle_hand v' ++ L) ∧ (fenced v' = None → cycle_ok v') ∧
  (∀ q, q ∈ splits v' → q ∈ splits v ∨ ∃ res, res ∈ results ∧ sr_verdict res = Split ∧ q = sr_pb res) ∧
  same_cur w w'.
Proof.
  revert v w. induction results as [|res l IH]; intros v w; csimpl.
  { intros [= <- <-] _ Hi Hc. by split_and!; auto. }
  destruct (record_verdict c v w res) as [v1 w1] eqn:E. intros Hf [Hv Hvs]%Forall_cons Hi Hc.
  pose proof (record_cur c v w res) as [C1 C2]. rewrite E in C1, C2. simpl in C1, C2.
  apply (inv_record c S A v w res v1 w1 ((sr_pb <$> l) ++ L)) in E as (Hi' & Hc' & Hs');
    [|done|eapply inv_perm; [|exact Hi]; solve_Permutation|done].
  apply IH in Hf as (Hi2 & Hc2 & Hs2 & C3 & C4); [|done|eapply inv_perm; [|exact Hi']; solve_Permutation|done].
  split_and!; [done|done| |split; congruence].
  intros q [?%Hs'|(r & ? & ?)]%Hs2; [|right; exists r; set_solver].
  destruct H as [?|?]; [by left|right; exists res; set_solver].
Qed.

Lemma inv_any S Q w L : inv S Q w L → inv (λ _, True) Q w L.
Proof. intros [? [H1 H2 H3 H4 H5 H6 H7 H8 H9 H10]]. split; [done|]. by split. Qed.

Lemma inv_apply e S v w L :
  inv S (fenced v = None ∧ live w) w (cycle_hand v ++ L) → (fenced v = None → cycle_ok v) →
  fresh_answer e S → (∀ q, q ∈ splits v → ident q = identity w) →
  let w' := (apply_verdicts e v w).1 in inv (λ _, True) (live w') w' L.
Proof.
  intros Hi Hc Hfr Hsp. unfold apply_verdicts. destruct (fenced v) as [to_fail|] eqn:Ef; simpl.
  { apply (inv_weaken _ _ False) in Hi; [|done]. apply inv_any in Hi.
    unfold cycle_hand in Hi. rewrite Ef in Hi. simpl in Hi.
    destruct (inv_terminal_list fst snd (λ _, True) False (failed v) w
      ((to_fail ++ restarts v ++ rewrites v ++ splits v) ++ L)) as [[Hw Hs] _]; [|done|].
    { eapply inv_perm; [|exact Hi]. solve_Permutation. }
    set (w1 := foldl _ w (failed v)) in *. apply (inv_weaken _ False).
    { intros [Hl _]. by apply fence_lifecycle in Hl. }
    split; [|by apply fence_seq]. rewrite fmap_app in Hw.
    exact (moves_inv _ _ _ _ _ _ (moves_fence e w1 _ (foot <$> L) []) Hw). }
  destruct (Hc eq_refl) as (Hrep & Hrest & Hfail). rewrite Hrep, Hrest. simpl.
  unfold cycle_hand in Hi. rewrite Ef, Hrest in Hi. simpl in Hi. rewrite <- !app_assoc in Hi.
  pose proof (proj2 (sq_cur _ _ _ _ (proj2 Hi))) as Hep.
  destruct (bump_epoch v || negb (bool_decide (rewrites v = []))) eqn:Eb.
  - destruct (bump_idempotent_epoch e w) as [w1 b] eqn:Ebump.
    pose proof (bump_cases _ _ _ _ Ebump Hep) as [(-> & -> & Hmax)|(-> & i & Hw1 & _)].
    + (* no identity: nothing is built until the next bump *)
      apply (inv_weaken _ _ False) in Hi; [|done]. apply inv_any, inv_park_list in Hi.
      set (w1 := foldl _ w (rewrites v)) in *.
      assert (same_cur w w1) as [C1 C2].
      { unfold w1. clear. generalize (rewrites v). intros l. revert w.
        induction l as [|pb l IH]; intros w; [done|]. simpl. by destruct (IH (park pb w)). }
      destruct (inv_split_list _ _ (splits v) w1 ((failed v).*1 ++ L) false Hi) as [Hi2 E2]; [done|].
      destruct (inv_terminal_list fst snd _ _ (failed v) _ L Hi2) as [Hi3 Hq3]; [done|].
      eapply inv_weaken; [|exact Hi3]. intros [_ Hlive]. apply Hlive.
      destruct Hq3 as (Hq3 & _). rewrite <- Hmax, <- C1, <- E2. exact (f_equal producer_epoch Hq3).
    + destruct Hi as [Hw Hs]. destruct (seq_bump _ _ _ _ _ _ Hs Hfr Ebump) as [Hs1 Hne].
      assert (world_inv w1 (foot <$> (rewrites v ++ splits v ++ (failed v).*1 ++ L))) as Hw1'.
      { pose proof (bump_core e w) as Hbc. rewrite Ebump in Hbc.
        exact (moves_inv _ _ _ _ _ _ (moves_core _ _ _ [] Hbc) Hw). }
      destruct (inv_restart_list (λ _, True) (rewrites v) w1 (splits v ++ (failed v).*1 ++ L)) as [Hi2 E2];
        [done|auto|].
      set (w2 := foldl _ w1 (rewrites v)) in *.
      destruct (inv_split_list _ _ (splits v) w2 ((failed v).*1 ++ L) true Hi2) as [Hi3 E3].
      { intros q Hq _. rewrite E2. apply Hne. left. left. set_solver. }
      destruct (inv_terminal_list fst snd _ _ (failed v) _ L Hi3) as [Hi4 _].
      { intros x Hx _. rewrite E3, E2. apply Hne. left. left.
        assert (x.1 ∈ (failed v).*1) by (apply list_elem_of_fmap; eauto). set_solver. }
      by eapply inv_weaken; [|exact Hi4].
  - apply orb_false_iff in Eb as [Eb Er]. apply negb_false_iff, bool_decide_eq_true in Er.
    rewrite Er in Hi. simpl in Hi.
    assert (failed v = []) as Ef0.
    { destruct (failed v); [done|]. by rewrite Hfail in Eb. }
    rewrite Ef0 in *. simpl in *. apply inv_any in Hi.
    destruct (inv_split_list _ _ (splits v) w L false Hi) as [Hi2 E2]; [auto|].
    eapply inv_weaken; [|exact Hi2]. intros [Hl1 Hl2]. split; [done|]. split; [|by rewrite <- E2].
    rewrite <- Hl1. clear. generalize (splits v). intros l. revert w.
    induction l as [|pb l IH]; intros w; [done|]. simpl. rewrite <- IH.
    unfold split_and_requeue, requeue_parts. set (w1 := if _ && _ then _ else w).
    assert (lifecycle w1 = lifecycle w) as <- by (unfold w1; by destruct (_ && _)).
    case_match; simpl; by rewrite finish_lifecycle.
Qed.

Lemma inv_complete_batches c e S w results L :
  inv S (live w) w ((sr_pb <$> results) ++ L) →
  Forall (λ res, verdict_ok (sr_verdict res)) results → fresh_answer e S →
  (∀ res, res ∈ results → sr_verdict res = Split → ident (sr_pb res) = identity w) →
  let w' := (complete_batches c e w results).1 in inv (λ _, True) (live w') w' L.
Proof.
  intros Hi Hv Hfr Hsp. unfold complete_batches. destruct (foldl _ _ results) as [v w1] eqn:E.
  apply (inv_record_all c S (live w) results _ _ _ _ L) in E as (Hi1 & Hc & Hs & C1 & C2); [|done| |done].
  2:{ eapply inv_weaken; [|exact Hi]. by intros [_ ?]. }
  apply (inv_apply e S); [|done|done|].
  - eapply inv_weaken; [|exact Hi1]. intros [? Hl]. split; [done|]. unfold live in *. by rewrite <- C1, <- C2.
  - intros q [?%not_elem_of_nil|(res & Hin & Hsr & ->)]%Hs; [done|]. rewrite C1. auto.
Qed.
End seq.
