(* ===== verification/SenderSeqLoop.v ===== *)
(** * The sequence invariant through the sender loop

    [SenderSeq]'s invariant through a drain cycle, the send of a batch and
    every other step of [drive], for a producer without transactions. *)

From S2P Require Import Prelude Bytes Errors Partitioner Accumulator TxnRetry TxnState Sender SenderCycle SenderDrive SenderProofs SenderLoop SenderSeq.

Section seqloop.
Context {PA : ProtocolApi} {HO : HashOrder}.
Implicit Types (c : SenderConfig) (e : Env) (w : World) (pb : PreparedBatch) (d : Driver).
Implicit Types (L H : list PreparedBatch) (k : topic_partition).

(** ** Sweeps of the accumulators *)

Definition sweep w w' : Prop := frame w w' ∧ same_cur w w' ∧ keeps w w'.

Lemma sweep_refl w : sweep w w.
Proof. split_and!; [apply frame_refl|done|apply keeps_refl]. Qed.

Lemma sweep_trans w1 w2 w3 : sweep w1 w2 → sweep w2 w3 → sweep w1 w3.
Proof.
  intros (?&[??]&?) (?&[??]&?). split_and!;
    [by eapply frame_trans|split; congruence|by eapply keeps_trans].
Qed.

Lemma sweep_quiet w w' : quiet w w' → same_core w w' → sweep w w'.
Proof. intros Hq Hc. split_and!; [by apply quiet_frame|by apply quiet_cur|by apply keeps_core]. Qed.

Lemma inv_sweep S w w' L : sweep w w' → inv S (live w) w L → inv S (live w') w' L.
Proof.
  intros (Hf & [Hi Hl] & Hk) [Hw Hs]. split.
  - exact (moves_inv _ _ _ _ _ _ (Hk (foot <$> L) []) Hw).
  - unfold live. rewrite Hi, Hl. by eapply seq_frame.
Qed.

(** A change of one accumulator that only removes batches. *)
Lemma frame_accumulator k a a' w :
  accumulators w !! k = Some a → (∀ b, b ∈ queued a' → b ∈ queued a) →
  frame w (upd_accumulators (<[k := a']> (accumulators w)) w).
Proof.
  intros Hk Hq. split; [|done]. split_and!; [done..|]. simpl. intros k' a1 b.
  rewrite lookup_insert_Some. intros [[<- <-]|[_ ?]] Hb; right; eauto 7.
Qed.

Lemma sweep_sweep s k a :
  accumulators s.1 !! k = Some a →
  sweep s.1 (sweep_accumulator s (k, a)).1 ∧
  ∀ k', k' ≠ k → accumulators (sweep_accumulator s (k, a)).1 !! k' = accumulators s.1 !! k'.
Proof.
  intros Hk. destruct (keeps_sweep s k a Hk) as [Hkeep Hother]. split; [|done].
  destruct s as [w fa]. simpl in *. unfold sweep_accumulator in *. simpl in *.
  match type of Hkeep with context [upd_accumulators ?m w] => set (m' := m) in * end.
  set (w' := foldl _ _ _) in *.
  assert (quiet (upd_accumulators m' w) w') as Hq by (apply quiet_foldl; done).
  split_and!; [|destruct (quiet_cur _ _ Hq); by split|done].
  eapply frame_trans; [|by apply quiet_frame]. apply (frame_accumulator k a); [done|].
  intros b. unfold queued. simpl. rewrite !elem_of_app. intros [[_ ?]%list_elem_of_filter|Hb]; [by left|].
  right. destruct (ac_current a) as [b'|]; [|done]. destruct (undrained_barrier _ _); set_solver.
Qed.

Lemma sweep_recovered w : sweep w (fail_recovered_accumulator_batches w).
Proof.
  unfold fail_recovered_accumulator_batches. destruct (negb _); [apply sweep_refl|].
  pose proof (acc_loop_iter fst sweep_accumulator (λ s s', sweep s.1 s'.1) (w, false)) as Hl.
  destruct (foldl _ _ _) as [w' fa]. simpl in Hl.
  eapply sweep_trans; [apply Hl|apply sweep_quiet; by destruct fa].
  - intros s. apply sweep_refl.
  - intros ???. apply sweep_trans.
  - apply sweep_sweep.
Qed.

Lemma sweep_expired c e w : sweep w (fail_expired_accumulator_batches c e w).
Proof.
  pose proof (keeps_expired_accumulators c e w) as Hkeep.
  unfold fail_expired_accumulator_batches, take_expired_accumulator_batches in *.
  pose proof (acc_loop_iter fst (λ '(w, expired) ka,
    let '(a, taken) := take_expired c e ka.2 in
    (upd_accumulators (<[ka.1 := a]> (accumulators w)) w, expired ++ taken))
    (λ s s' : World * list InProgressBatch, frame s.1 s'.1 ∧ same_cur s.1 s'.1) (w, [])) as Hl.
  simpl in Hl. destruct (foldl _ (w, []) _) as [w1 l]. simpl in Hl. destruct Hl as [Hf Hc].
  { intros s. split; [apply frame_refl|done]. }
  { intros s1 s2 s3 [? [??]] [? [??]]. split; [by eapply frame_trans|split; congruence]. }
  { clear. intros [w l] k a Hk. simpl in *. destruct (take_expired c e a) as [a' taken] eqn:E. simpl.
    apply take_expired_queued in E. split; [|intros k' Hne; by rewrite lookup_insert_ne].
    split; [|done]. apply (frame_accumulator k a); [done|]. intros b. rewrite E. set_solver. }
  assert (quiet w1 (fail_unsent_batches w1 l)) as Hq.
  { unfold fail_unsent_batches. case_bool_decide; [done|].
    match goal with |- quiet _ (notify_waiters ?x) => apply (quiet_trans _ x); [|done] end.
    apply quiet_foldl. clear. intros w b. simpl. by case_bool_decide. }
  split_and!; [|destruct Hc, (quiet_cur _ _ Hq); split; congruence|done].
  eapply frame_trans; [exact Hf|by apply quiet_frame].
Qed.

(** Batches outside a transaction meet no barrier. *)
Lemma no_barrier w : drained_barrier w None = None ∧ undrained_barrier w None = None.
Proof. done. Qed.

Lemma retry_slots_id S Q w L : inv S Q w L → fail_recovered_retry_slots w = w.
Proof.
  intros [_ Hs]. unfold fail_recovered_retry_slots.
  assert (omap (λ kb, (λ barrier, (kb.1, barrier)) <$> drained_barrier w (pb_generation kb.2))
    (iter (retry (pipe w))) = []) as ->; [|done].
  assert (∀ kb, kb ∈ iter (retry (pipe w)) → pb_generation kb.2 = None) as Hg.
  { intros [k pb] Hin%elem_of_iter. eapply (sq_mode _ _ _ _ Hs). right. eauto. }
  revert Hg. generalize (iter (retry (pipe w))). intros l Hg. induction l as [|kb l IH]; [done|].
  simpl. rewrite (Hg kb) by left. simpl. apply IH. intros kb' ?. apply Hg. by right.
Qed.

Lemma recovered_id w l : (∀ pb, pb ∈ l → pb_generation pb = None) → fail_recovered_batches w l = (w, l).
Proof.
  intros Hg. unfold fail_recovered_batches.
  assert (∀ acc, foldl (λ '(w, retained) pb,
    match drained_barrier w (pb_generation pb) with
    | Some barrier => (fail_prepared pb (Barrier_error barrier) w, retained)
    | None => (w, retained ++ [pb])
    end) (w, acc) l = (w, acc ++ l)) as Hacc; [|apply (Hacc [])].
  induction l as [|pb l IH]; intros acc; [by rewrite app_nil_r|]. simpl.
  rewrite (Hg pb) by left. simpl. rewrite IH by (intros; apply Hg; by right). by rewrite <- app_assoc.
Qed.

(** ** Resends *)

Lemma inv_collect S Q c e w n parked to_send expired L :
  inv S Q w L → collect_retries c e (retry (pipe w)) n = (parked, to_send, expired) →
  inv S Q (upd_retry parked w) (to_send ++ expired ++ L).
Proof.
  intros [Hw Hs] Hc. split.
  - pose proof (moves_inv _ _ _ _ _ _ (moves_collect _ _ _ _ _ _ _ (foot <$> L) [] Hc) Hw) as Hm.
    by rewrite !fmap_app.
  - apply collect_retries_perm in Hc as (sent & ex & Hm & -> & ->).
    assert (∀ k pb, retry (pipe w) !! k = Some pb ↔
      parked !! k = Some pb ∨ (k, pb) ∈ sent ∨ (k, pb) ∈ ex) as Hiff.
    { intros k pb. rewrite <- !elem_of_map_to_list, Hm, !elem_of_app. done. }
    revert Hs. apply seq_ext; [by apply same_seq_world_eq|..]; intros pb; unfold outstanding; simpl.
    + rewrite !elem_of_app. intros [[Hin|[Hin|Hin]]|[k Hk]].
      * apply list_elem_of_fmap in Hin as ([k pb0] & -> & Hin). exists pb0. split; [|done].
        right. exists k. apply Hiff. auto.
      * apply list_elem_of_fmap in Hin as ([k pb0] & -> & Hin). exists pb0. split; [|apply same_seq_refl].
        right. exists k. apply Hiff. auto.
      * exists pb. split; [by left|apply same_seq_refl].
      * exists pb. split; [|apply same_seq_refl]. right. exists k. apply Hiff. auto.
    + intros _ [Hin|[k [Hk|[Hk|Hk]]%Hiff]].
      * exists pb. split; [|apply same_seq_refl]. left. set_solver.
      * exists pb. split; [|apply same_seq_refl]. right. eauto.
      * exists (set_backoff pb None). split; [|done]. left. rewrite elem_of_app. left.
        apply list_elem_of_fmap. by exists (k, pb).
      * exists pb. split; [|apply same_seq_refl]. left. rewrite !elem_of_app. right. left.
        apply list_elem_of_fmap. by exists (k, pb).
Qed.

Lemma inv_route S Q e w slots pending w' slots' sends L :
  route_resends e w slots pending = (w', slots', sends) → inv S Q w (pending ++ L) →
  inv S Q w' (sends.*2 ++ L) ∧ same_cur w w'.
Proof.
  unfold route_resends.
  assert (∀ acc, foldl (λ '(w, slots, sends) pb,
    let leader := resolve_leader e w (pb_key pb) in
    if available slots leader then (w, reserve slots leader, sends ++ [(leader, pb)])
    else (park pb w, slots, sends)) (w, slots, acc) pending = (w', slots', sends) →
    inv S Q w (pending ++ acc.*2 ++ L) → inv S Q w' (sends.*2 ++ L) ∧ same_cur w w') as Hg;
    [|intros E; apply (Hg [] E)].
  revert w slots. induction pending as [|pb l IH]; intros w slots acc; csimpl; [by intros [= <- <- <-]|].
  destruct (available _ _); intros Hf Hi.
  - apply IH in Hf; [done|]. eapply inv_perm; [|exact Hi]. rewrite fmap_app. csimpl. solve_Permutation.
  - apply IH in Hf; [done|by apply inv_park].
Qed.

(** Expired batches raise the epoch, so that their sequences leave no gap. *)
Lemma inv_expire S e w expired to_send L :
  inv S (live w) w (to_send ++ expired ++ L) → fresh_answer e S → expired ≠ [] →
  let w' := expire_batches e w expired to_send in inv (λ _, True) (live w') w' L.
Proof.
  intros Hi Hfr Hne. unfold expire_batches.
  assert (∀ b, foldl (λ '(bump, repairs) pb,
      note_repair bump repairs pb (repair_after_failure (BatchMode_of (pb_record_batch pb))))
      (b, []) expired = (b || negb (bool_decide (expired = [])), [])) as Hn.
  { assert (∀ pb, pb ∈ expired → BatchMode_of (pb_record_batch pb) = Idempotent) as Hm.
    { intros pb Hin. eapply (sq_mode _ _ _ _ (proj2 Hi)). left. set_solver. }
    clear -Hm. induction expired as [|pb l IH]; intros b; simpl; [by rewrite orb_false_r|].
    rewrite (Hm pb) by left. simpl. rewrite IH by (intros; apply Hm; by right). by rewrite orb_true_r. }
  rewrite Hn, bool_decide_eq_false_2 by done. simpl.
  destruct (bump_idempotent_epoch e w) as [w1 b] eqn:Eb. simpl.
  pose proof (proj2 (sq_cur _ _ _ _ (proj2 Hi))) as Hep.
  assert (∀ l w0, identity (foldl (λ w pb, park pb w) w0 l) = identity w0) as Hpark.
  { intros l. induction l as [|pb l IH]; intros w0; [done|]. simpl. by rewrite IH. }
  pose proof (bump_cases _ _ _ _ Eb Hep) as [(-> & -> & Hmax)|(-> & i & _ & _)].
  - apply (inv_weaken _ _ False) in Hi; [|done].
    apply inv_any, inv_park_list in Hi.
    pose proof (inv_terminal_list id (λ _, ProducerError.SendTimeout) (λ _, True) False expired
      (foldl (λ w pb, park pb w) w to_send) L) as Ht.
    rewrite list_fmap_id in Ht. destruct (Ht Hi) as [Hi2 Hq]; [done|].
    eapply inv_weaken; [|exact Hi2]. intros [_ Hl]. apply Hl. destruct Hq as (Hq & _).
    rewrite <- Hmax, <- (Hpark to_send w). exact (f_equal producer_epoch Hq).
  - destruct Hi as [Hw Hs]. destruct (seq_bump _ _ _ _ _ _ Hs Hfr Eb) as [Hs1 Hold].
    assert (inv (λ _, True) True w1 (to_send ++ expired ++ L)) as Hi1.
    { split; [|done]. pose proof (bump_core e w) as Hbc. rewrite Eb in Hbc.
      exact (moves_inv _ _ _ _ _ _ (moves_core _ _ _ [] Hbc) Hw). }
    apply inv_park_list in Hi1.
    pose proof (inv_terminal_list id (λ _, ProducerError.SendTimeout) (λ _, True) True expired
      (foldl (λ w pb, park pb w) w1 to_send) L) as Ht.
    rewrite list_fmap_id in Ht. destruct (Ht Hi1) as [Hi2 _].
    { intros pb Hin _. rewrite Hpark. apply Hold. left. left. set_solver. }
    by eapply inv_weaken; [|exact Hi2].
Qed.

(** ** New batches *)

(** The next batch of an idle partition takes the sequence after the last
    acknowledged one. *)
Lemma seq_prepare S c w key batch L :
  transactional_id c = None → seq_inv S True w L → ib_generation batch = None →
  (∀ pb, outstanding w L pb → pb_key pb ≠ key) →
  seq_inv S True (prepare_batch c w key batch).1 ((prepare_batch c w key batch).2 :: L).
Proof.
  intros Ht [H1 H2 H3 H4 H5 H6 H7 H8 H9 H10] Hg Hidle. unfold prepare_batch. simpl.
  unfold txn_pid_snapshot. rewrite Ht. simpl.
  match goal with |- seq_inv _ _ (upd_next_seq ?m w) (?p :: L) => set (m' := m); set (pb := p) end.
  set (w' := upd_next_seq m' w).
  assert (pb_key pb = key) as Hk by (by destruct key).
  assert (ident pb = identity w) as Hid by (unfold ident; simpl; by destruct (identity w)).
  assert (default 0 (next_seq w !! key) = expected (acked_log (effects w)) key (identity w)) as Hn.
  { apply H6; [done|]. intros q Hq E. by destruct (Hidle q Hq). }
  assert (∀ q, outstanding w' (pb :: L) q → q = pb ∨ outstanding w L q) as Hout.
  { intros q [[->|?]%elem_of_cons|?]; [by left|right; by left|right; by right]. }
  split; simpl; auto.
  - intros q [->|?]%Hout; [|auto]. split_and!; [|done|done]. unfold BatchMode_of. simpl.
    destruct (0 <=? producer_id (identity w)) eqn:E; [done|]. apply Z.leb_gt in E. lia.
  - intros q [->|?]%Hout; [|auto]. rewrite Hk, Hid. exact Hn.
  - intros q [[->|?]%Hout|?]; auto. rewrite Hid. right. lia.
  - intros q _ [->|Hq]%Hout Hq'; unfold m'.
    + rewrite Hk, lookup_insert_eq. done.
    + rewrite lookup_insert_ne; [by apply H5|]. intros E. by destruct (Hidle q Hq).
  - intros k _ Hk'. unfold m'. destruct (decide (key = k)) as [->|Hne].
    + destruct (Hk' pb); [left; left|done|done].
    + rewrite lookup_insert_ne by done. apply H6; [done|]. intros q Hq. apply Hk'.
      destruct Hq; [left; by right|by right].
  - intros q [[->|?]%Hout|?]; [|apply (H9 _); auto..].
    change (S (producer_id (ident pb))). by rewrite Hid.
Qed.

Lemma quiet_seq S Q w w' L : quiet w w' → seq_inv S Q w L → seq_inv S Q w' L.
Proof. intros Hq. apply seq_frame. by apply quiet_frame. Qed.

Lemma drain_key_seq S c e intent s key L :
  transactional_id c = None → drain_ok (foot <$> L) s →
  seq_inv S True (dr_world s) ((dr_sends s).*2 ++ L) →
  let s' := drain_key c e intent s key in
  seq_inv S True (dr_world s') ((dr_sends s').*2 ++ L) ∧ same_cur (dr_world s) (dr_world s').
Proof.
  intros Ht [Hw Ho] Hs. unfold drain_key.
  destruct (accumulators (dr_world s) !! key) as [a|] eqn:Ek; [|done].
  case_bool_decide as Hocc; rewrite ?orb_true_r, ?orb_false_r.
  { destruct (_ && _); simpl; [|done].
    pose proof (quiet_latency (dr_world s) key (now e) false) as Hq.
    split; [by eapply quiet_seq|by apply quiet_cur]. }
  destruct (negb _) eqn:Hcap; [by rewrite andb_false_r|].
  unfold pop_ready_batch.
  destruct (pop_ready _) as [a' b] eqn:Hp.
  assert ((∀ b', b' ∈ queued a' → b' ∈ queued a) ∧ (∀ b', b = Some b' → b' ∈ queued a)) as [Hqa Hqb].
  { assert (∀ b', b' ∈ queued (if should_seal c e (dr_world s) intent a then seal_current a else a) →
      b' ∈ queued a) as Hq by (destruct (should_seal _ _ _ _ _); [apply seal_queued|done]).
    unfold pop_ready, queued in Hp, Hq |- *.
    destruct (ac_ready (if should_seal _ _ _ _ _ then _ else _)) as [|b0 ready] eqn:Er; simplify_eq.
    - split; [intros b'; rewrite Er; apply Hq|done].
    - split; [intros b' Hb'; apply Hq; by right|intros b' [= <-]; apply Hq; left]. }
  pose proof (frame_accumulator key a a' (dr_world s) Ek Hqa) as Hf1.
  set (w1 := upd_accumulators _ _) in *.
  pose proof (seq_frame _ _ _ _ _ Hf1 Hs) as Hs1.
  destruct b as [b|]; [|done].
  pose proof (sq_gen _ _ _ _ Hs key a b Ek (Hqb b eq_refl)) as Hgen. simpl in Hgen.
  set (w2 := note_node_latency _ key (now e) true).
  assert (quiet w1 w2) as Hq2.
  { eapply quiet_trans; [|apply quiet_latency]. done. }
  rewrite Hgen, (proj2 (no_barrier w2)). simpl.
  assert (retry (pipe w2) = retry (pipe (dr_world s))) as Hr2 by (by destruct Hq2 as (_&_&->&_)).
  pose proof (seq_prepare S c w2 key b ((dr_sends s).*2 ++ L) Ht (quiet_seq _ _ _ _ _ Hq2 Hs1) Hgen) as Hs3.
  split.
  - eapply seq_perm; [|apply Hs3].
    + rewrite fmap_app. simpl. solve_Permutation.
    + intros pb Hout E. apply Hocc, Ho. rewrite <- E. destruct Hout as [Hin|[k Hk]].
      * left. rewrite <- fmap_app, <- list_fmap_compose. apply list_elem_of_fmap. by exists pb.
      * right. rewrite Hr2 in Hk. rewrite (wi_keys _ _ Hw _ _ Hk). eauto.
  - destruct (quiet_cur _ _ Hq2) as [E1 E2]. split; simpl; [exact E1|exact E2].
Qed.

Lemma drain_keys_seq S c e intent keys s L :
  transactional_id c = None → drain_ok (foot <$> L) s →
  seq_inv S True (dr_world s) ((dr_sends s).*2 ++ L) →
  let s' := foldl (drain_key c e intent) s keys in
  seq_inv S True (dr_world s') ((dr_sends s').*2 ++ L).
Proof.
  intros Ht. revert s. induction keys as [|k l IH]; intros s Ho Hs; [done|]. simpl.
  apply IH; [by apply (drain_key_ok c e intent (foot <$> L) [] s k)|].
  by apply drain_key_seq.
Qed.

(** ** The drain *)

Lemma inv_drain_resends S c e w active cap L :
  transactional_id c = None → inv S (live w) w L → fresh_answer e S →
  match drain_resends c e w active cap with
  | inl w' => inv (λ _, True) (live w') w' L
  | inr s => seq_inv (λ _, True) True (dr_world s) ((dr_sends s).*2 ++ L)
  end.
Proof.
  intros Ht Hi Hfr. unfold drain_resends.
  destruct (Z.eqb_spec (lifecycle w) STATE_ACTIVE) as [Hact|Hact]; simpl.
  2:{ apply (inv_weaken _ _ False) in Hi as [Hw Hs]; [|done]. apply (inv_weaken _ False).
      - intros [Hl _]. by apply fence_lifecycle in Hl.
      - apply (inv_any S). split; [|by apply fence_seq].
        exact (moves_inv _ _ _ _ _ _ (moves_fence e w [] (foot <$> L) []) Hw). }
  set (w1 := update_partition_load_stats w).
  assert (sweep w w1) as Hsw1.
  { apply sweep_quiet; [|apply load_stats_core]. unfold w1, update_partition_load_stats.
    destruct (negb _); [done|]. apply quiet_foldl. by intros w' [topic ps]. }
  set (w2 := fail_recovered_accumulator_batches w1).
  pose proof (sweep_trans _ _ _ Hsw1 (sweep_recovered w1)) as Hsw2. fold w2 in Hsw2.
  pose proof (inv_sweep _ _ _ _ Hsw2 Hi) as Hi2. rewrite (retry_slots_id _ _ _ _ Hi2).
  set (w3 := fail_expired_accumulator_batches c e w2).
  pose proof (sweep_trans _ _ _ Hsw2 (sweep_expired c e w2)) as Hsw3. fold w3 in Hsw3.
  pose proof (inv_sweep _ _ _ _ Hsw3 Hi) as Hi3.
  destruct (collect_retries _ _ _ _) as [[parked to_send] expired] eqn:Ec.
  pose proof (inv_collect _ _ _ _ _ _ _ _ _ _ Hi3 Ec) as Hi4.
  case_bool_decide as Hex; simpl.
  2:{ by apply (inv_expire S). }
  subst expired. simpl in Hi4.
  rewrite recovered_id by (intros pb Hin; eapply (sq_mode _ _ _ _ (proj2 Hi4)); left; set_solver).
  destruct (route_resends _ _ _ _) as [[w5 slots] sends] eqn:Er.
  destruct (inv_route _ _ _ _ _ _ _ _ _ _ Er Hi4) as [Hi5 [C1 C2]]. simpl in C1, C2.
  assert (lifecycle w5 = STATE_ACTIVE) as Hact5.
  { rewrite C2. destruct Hsw3 as (_ & [_ ->] & _). done. }
  pose proof (proj2 (sq_cur _ _ _ _ (proj2 Hi5))) as Hep.
  destruct (Z.eqb_spec (producer_epoch (identity w5)) i16_max) as [Hmax|Hmax].
  - destruct (bump_idempotent_epoch e w5) as [w6 b] eqn:Eb.
    pose proof (bump_cases _ _ _ _ Eb Hep) as [(-> & -> & _)|(-> & i & _ & _)]; simpl.
    + apply inv_any in Hi5. apply (inv_weaken _ _ False) in Hi5; [|done].
      apply inv_park_list in Hi5. eapply inv_weaken; [|exact Hi5]. intros [_ Hl]. apply Hl.
      rewrite <- Hmax. clear. generalize sends.*2. intros l. revert w5.
      induction l as [|pb l IH]; intros w5; [done|]. simpl. by rewrite IH.
    + destruct Hi5 as [Hw5 Hs5]. destruct (seq_bump _ _ _ _ _ _ Hs5 Hfr Eb) as [Hs6 _].
      eapply quiet_seq; [|exact Hs6]. apply quiet_foldl. intros. apply quiet_latency.
  - simpl. eapply quiet_seq; [apply quiet_foldl; intros; apply quiet_latency|].
    destruct (inv_any _ _ _ _ Hi5) as [_ Hs5]. eapply seq_weaken; [|exact Hs5]. intros _.
    unfold live in *. rewrite <- C1, <- C2. done.
Qed.

Lemma inv_drain_batches S c e w intent active cap L w' sends :
  transactional_id c = None → inv S (live w) w L → fresh_answer e S →
  (∀ k, k ∈ (foot <$> L).*1 → k ∈ active) →
  drain_batches c e w intent active cap = (w', sends) →
  inv (λ _, True) (live w') w' (sends.*2 ++ L).
Proof.
  intros Ht Hi Hfr Hact Hd. destruct Hi as [Hw Hs].
  destruct (drain_batches_ok _ _ _ _ _ _ (foot <$> L) [] _ _ Hw Hact Hd) as [Hw' _].
  split; [by rewrite fmap_app|].
  pose proof (drain_resends_ok c e w active cap (foot <$> L) [] Hw Hact) as Hok.
  pose proof (inv_drain_resends S c e w active cap L Ht (conj Hw Hs) Hfr) as Hr.
  unfold drain_batches in Hd. destruct (drain_resends c e w active cap) as [w1|s].
  { simplify_eq. apply Hr. }
  destruct Hok as [Hok _].
  pose proof (drain_keys_seq _ c e intent (iter (accumulators (dr_world s))).*1 s L Ht Hok Hr) as Hk.
  simpl in Hk. set (s' := foldl _ _ _) in *. clearbody s'.
  case_bool_decide as E; simplify_eq.
  - rewrite E in Hk. eapply quiet_seq; [|eapply seq_weaken; [|exact Hk]]; done.
  - by eapply seq_weaken; [|exact Hk].
Qed.

(** ** Answers *)

Lemma classify_idempotent answer last n v :
  classify_verdict answer Idempotent last n = Verdict v → verdict_ok v.
Proof.
  unfold classify_verdict. rewrite (bool_decide_eq_false_2 (Idempotent = Transactional)) by done.
  rewrite !andb_false_r. simpl. intros Hc. repeat case_match; simplify_eq; done.
Qed.

Lemma back_off_same c e pb f : same_seq (back_off c e pb f) pb ∧ foot (back_off c e pb f) = foot pb.
Proof. done. Qed.

Lemma start_same c e w p p' :
  start_request c e w p = Some p' → same_seq (phase_batch p') (phase_batch p).
Proof.
  unfold start_request, send_begin. destruct p as [pb|pb req|res]; [|done..].
  destruct (drained_barrier _ _); [by intros [= <-]|].
  destruct (tm_topic_id <$> metadata_cache (routes w) !! pb_topic pb); [case_bool_decide|];
    destruct (build_single_batch_request c _); by intros [= <-].
Qed.

Definition phase_ok (p : Phase) : Prop :=
  match p with Done res => verdict_ok (sr_verdict res) | _ => True end.

Lemma start_ok c e w p p' :
  start_request c e w p = Some p' → pb_generation (phase_batch p) = None → phase_ok p'.
Proof.
  unfold start_request, send_begin. destruct p as [pb|pb req|res]; [|done..].
  simpl. intros Hs Hg. rewrite Hg in Hs. simpl in Hs.
  destruct (build_single_batch_request c _); by simplify_eq.
Qed.

Lemma finish_same c e w r answer w' r' :
  finish_request c e w r answer = Some (w', r') → idempotent (rq_batch r) →
  quiet w w' ∧ same_seq (rq_batch r') (rq_batch r) ∧ phase_ok (rq_phase r').
Proof.
  unfold finish_request, rq_batch. destruct (rq_phase r) as [pb|pb req|res]; [done| |done].
  destruct (send_end _ _ _ _ _ _ _) as [w1 res] eqn:E. intros [= <- <-] (Hm & _ & _). simpl in Hm |- *.
  unfold send_end in E. destruct answer as [resp|].
  2:{ simplify_eq. split_and!; [|done|done]. unfold evict_broker. by destruct (_ =? _). }
  case_bool_decide; [by simplify_eq|]. unfold interpret_response in E. rewrite Hm in E.
  destruct (find_partition pb resp) as [pr|]; [|by simplify_eq].
  destruct (classify_verdict _ _ _ _) as [v|] eqn:Ec.
  - apply classify_idempotent in Ec. simplify_eq. split_and!; [done| |done]. simpl. by destruct v.
  - by destruct (0 <=? rs_leader_id pr); simplify_eq.
Qed.

(** ** Every step *)

Definition drive_batches d : list PreparedBatch := rq_batch <$> requests d.

(** The producer ids that a batch or the sender carries. *)
Definition used_id d (p : Z) : Prop :=
  p = producer_id (identity (world d)) ∨
  ∃ pb, (outstanding (world d) (drive_batches d) pb ∨ pb ∈ acked_log (effects (world d))) ∧
        producer_id (ident pb) = p.

(** No batch of an earlier producer epoch is answered as too large. *)
Definition no_stale_split d (results : list BatchSendResult) : Prop :=
  ∀ res, res ∈ results → sr_verdict res = Split → ident (sr_pb res) = identity (world d).

(** The runs in which the sequences are regular: the broker allocates unused
    producer ids, and there is no split of a batch of an earlier epoch, after
    which the sender itself leaves a gap. *)
Definition regular_run d e (results : list BatchSendResult) : Prop :=
  fresh_answer e (used_id d) ∧ no_stale_split d results.

Definition seq_drive d : Prop :=
  inv (λ _, True) (live (world d)) (world d) (drive_batches d) ∧ Forall (phase_ok ∘ rq_phase) (requests d).

Lemma inv_used d :
  inv (λ _, True) (live (world d)) (world d) (drive_batches d) →
  inv (used_id d) (live (world d)) (world d) (drive_batches d).
Proof.
  intros [Hw [H1 H2 H3 H4 H5 H6 H7 H8 H9 H10]]. split; [done|]. split; auto; unfold used_id; eauto.
Qed.

Lemma drive_foot_batches d : drive_foot d = foot <$> drive_batches d.
Proof. unfold drive_foot, drive_batches. by rewrite <- list_fmap_compose. Qed.

Lemma seq_world d w' : seq_drive d → sweep (world d) w' → seq_drive (set_world d w').
Proof. intros [Hi Hp] Hs. split; [|done]. by apply (inv_sweep _ (world d)). Qed.

Lemma seq_push sends d :
  requests (foldl push_request d sends) =
    requests d ++ ((λ lb : Z * PreparedBatch,
      mkRequest lb.1 (last_acked_offset (pipe (world d)) !! pb_key lb.2) (Queued lb.2)) <$> sends) ∧
  world (foldl push_request d sends) = world d.
Proof.
  revert d. induction sends as [|[l pb] sends IH]; intros d; [by rewrite app_nil_r|].
  change (foldl push_request d ((l, pb) :: sends)) with (foldl push_request (push_request d (l, pb)) sends).
  destruct (IH (push_request d (l, pb))) as [-> ->]. split; [|done]. simpl. by rewrite <- app_assoc.
Qed.

Lemma seq_drain c e d :
  transactional_id c = None → drive_inv c d → seq_drive d → fresh_answer e (used_id d) →
  seq_drive (drive_drain c e d).
Proof.
  intros Ht Hd [Hi Hp] Hfr. unfold drive_drain.
  destruct (drain_batches _ _ _ _ _ _) as [w' sends] eqn:E.
  apply (inv_drain_batches (used_id d)) with (L := drive_batches d) in E;
    [|done|by apply inv_used|done|].
  2:{ intros k. rewrite <- drive_foot_batches. apply (di_occupied c d Hd). }
  destruct (seq_push sends (set_world d w')) as [E1 E2]. split.
  - unfold drive_batches. rewrite E2, E1, fmap_app, <- list_fmap_compose. simpl.
    eapply inv_perm; [|exact E]. unfold drive_batches. rewrite Permutation_app_comm. done.
  - rewrite E1. apply Forall_app. split; [done|]. apply Forall_fmap. by apply Forall_true.
Qed.

Lemma seq_request d before r r' after w' :
  seq_drive d → requests d = before ++ r :: after → sweep (world d) w' →
  same_seq (rq_batch r') (rq_batch r) → foot (rq_batch r') = foot (rq_batch r) → phase_ok (rq_phase r') →
  seq_drive (mkDriver w' (before ++ r' :: after) (occupied d) (capacity d) (force d) (stopping d)
               (refreshing d) (stopped d)).
Proof.
  intros [Hi Hp] Er Hsw Hs Hf Hok. apply (inv_sweep _ _ _ _ Hsw) in Hi.
  unfold seq_drive, drive_batches in *. simpl. rewrite Er in *. split.
  - rewrite fmap_app in Hi |- *. csimpl in *.
    eapply inv_perm; [apply Permutation_middle|].
    eapply inv_same; [|exact Hs|exact Hf]. eapply inv_perm; [|exact Hi]. by rewrite Permutation_middle.
  - rewrite Forall_app, Forall_cons in Hp |- *. naive_solver.
Qed.

Lemma results_ok finished completed :
  mapM request_result finished = Some completed → Forall (phase_ok ∘ rq_phase) finished →
  Forall (λ res, verdict_ok (sr_verdict res)) completed.*2 ∧
  (rq_batch <$> finished) = sr_pb <$> completed.*2.
Proof.
  revert completed. induction finished as [|r l IH]; intros completed; csimpl.
  { intros [= <-] _. by split; [constructor|]. }
  intros ([ld res] & Hr & (k & Hk & [= <-])%bind_Some)%bind_Some [Hok Hoks]%Forall_cons.
  destruct (IH k Hk Hoks) as [? ->]. unfold request_result in Hr. unfold rq_batch in *.
  simpl in Hok. destruct (rq_phase r); simplify_eq. csimpl. by split; [constructor|].
Qed.

Lemma seq_complete c e d finished rest completed :
  seq_drive d → requests d ≡ₚ finished ++ rest → mapM request_result finished = Some completed →
  regular_run d e completed.*2 → seq_drive (drive_complete c e d completed rest).
Proof.
  intros [Hi Hp] Hperm Hm [Hfr Hsp]. rewrite Hperm, Forall_app in Hp. destruct Hp as [Hp1 Hp2].
  destruct (results_ok _ _ Hm Hp1) as [Hv Hb].
  apply inv_used in Hi.
  assert (inv (used_id d) (live (world d)) (world d) ((sr_pb <$> completed.*2) ++ (rq_batch <$> rest))) as Hi'.
  { eapply inv_perm; [|exact Hi]. unfold drive_batches. by rewrite Hperm, fmap_app, Hb. }
  pose proof (inv_complete_batches c e _ _ _ _ Hi' Hv Hfr Hsp) as Hc.
  unfold drive_complete. destruct (foldl _ _ completed) as [cap occ].
  destruct (complete_batches c e (world d) completed.*2) as [w' refresh]. by split.
Qed.

Lemma sweep_append w n key kk v h ts m at_ ch :
  frame w (app_append w n key kk v h ts None m at_ ch) ∧
  same_cur w (app_append w n key kk v h ts None m at_ ch).
Proof.
  unfold app_append. set (a := default _ _).
  destruct (append a kk v h ts None m at_ ch) as [[a' r] rel] eqn:E. split; [|done].
  split; [|done]. split_and!; [done..|]. simpl. intros k' a1 b.
  rewrite lookup_insert_Some. intros [[<- <-]|[_ ?]] Hb; [|right; eauto 7].
  assert (b ∈ queued a ∨ ib_generation b = None) as [Hin|?]; [| |by left].
  - unfold append, needs_new_batch in E. destruct (ac_current a) as [b0|] eqn:Ec.
    + destruct (bool_decide (ib_generation b0 ≠ None)) eqn:Hg; simpl in E.
      * simplify_eq. unfold queued in *. simpl in *. rewrite Ec. set_solver.
      * apply bool_decide_eq_false, dec_stable in Hg.
        destruct (_ && _); simplify_eq; unfold queued in *; simpl in *; rewrite Ec; set_solver.
    + simplify_eq. unfold queued in *. simpl in *. set_solver.
  - right. unfold a in Hin. destruct (accumulators w !! key) as [a0|] eqn:Ea; simpl in Hin.
    + eauto 7.
    + by apply elem_of_nil in Hin.
Qed.

Lemma sweep_abort w : frame w (app_abort w) ∧ same_cur w (app_abort w).
Proof.
  apply (acc_loop_iter id abort_one (λ w w', frame w w' ∧ same_cur w w')).
  - split; [apply frame_refl|done].
  - intros ??? [? [??]] [? [??]]. split; [by eapply frame_trans|split; congruence].
  - clear. intros w k a Hk. destruct (abort_one_keeps w k a Hk) as [_ Ho]. split; [|done].
    unfold abort_one, abort_undrained_batches. simpl.
    match goal with |- frame w (foldl ?f ?w0 ?l) ∧ _ => assert (quiet w0 (foldl f w0 l)) as Hq end.
    { apply quiet_foldl. done. }
    split; [|destruct (quiet_cur _ _ Hq); by split].
    eapply frame_trans; [|by apply quiet_frame]. apply (frame_accumulator k a); [done|].
    by intros b ?%elem_of_nil.
Qed.

Lemma seq_frame_drive d w' :
  seq_drive d → world_inv w' (drive_foot d) → frame (world d) w' →
  same_cur (world d) w' → seq_drive (set_world d w').
Proof.
  intros [[Hw Hs] Hp] Hw' Hf [E1 E2]. split; [|done]. simpl. split.
  - by rewrite drive_foot_batches in Hw'.
  - unfold live. rewrite E1, E2. by eapply seq_frame.
Qed.

Lemma seq_step c d l d' :
  transactional_id c = None → drive_inv c d → seq_drive d →
  drive_step regular_run c d l d' → seq_drive d'.
Proof.
  intros Ht Hd Hs Hstep.
  assert (drive_inv c d') as Hd' by (by eapply drive_step_inv).
  destruct Hstep as [e d _ _ [Hfr _]|e d before r after p Er Hp|e d before r after answer w r' Er Hf
    |e d finished rest completed _ Hp _ Hm Hpr|e d _ _ _|d _|d received _|d md _
    |d n key k v h ts g m at_ ch _ Hg|d key|d|d t|d Htx|d md|d].
  - by apply (seq_drain c e d).
  - apply (seq_request d before r); [done|done|apply sweep_refl| |by eapply start_foot|].
    + by apply start_same in Hp.
    + eapply start_ok; [done|]. destruct Hs as [[_ Hs] _]. apply (sq_mode _ _ _ _ Hs (rq_batch r)).
      left. unfold drive_batches. rewrite Er, fmap_app. set_solver.
  - destruct Hs as [Hi Hok]. pose proof (finish_foot _ _ _ _ _ _ _ Hf) as (Hc & _ & Hfoot).
    apply finish_same in Hf as (Hq & Hsame & Hph).
    + apply (seq_request d before r); try done. by apply sweep_quiet.
    + apply (sq_mode _ _ _ _ (proj2 Hi)). left. unfold drive_batches. rewrite Er, fmap_app. set_solver.
  - by eapply seq_complete.
  - done.
  - done.
  - by destruct received as [[]|].
  - assert (sweep (world d) (update_leaders_from_metadata (world d) md)) as Hsw
      by (apply sweep_quiet; by destruct md).
    exact (seq_world d _ Hs Hsw).
  - destruct g as [g|]; [destruct (Hg ltac:(eauto)) as [? E]; congruence|].
    destruct (sweep_append (world d) n key k v h ts m at_ ch).
    apply seq_frame_drive; [done|apply (di_world c _ Hd')|done..].
  - assert (frame (world d) (app_seal (world d) key) ∧ same_cur (world d) (app_seal (world d) key)) as [??].
    { unfold app_seal. destruct (accumulators (world d) !! key) as [a|] eqn:Ea; [|split; [apply frame_refl|done]].
      split; [|done]. apply (frame_accumulator key a); [done|]. apply seal_queued. }
    apply seq_frame_drive; [done|apply (di_world c _ Hd')|done..].
  - destruct (sweep_abort (world d)).
    apply seq_frame_drive; [done|apply (di_world c _ Hd')|done..].
  - apply seq_world; [done|]. by apply sweep_quiet.
  - destruct Htx. congruence.
  - apply seq_world; [done|]. apply sweep_quiet; by destruct md.
  - destruct Hs as [[Hw Hs] Hp]. split; [|done]. apply (inv_weaken _ (live (world d))).
    + intros [E _]. done.
    + split; [rewrite <- drive_foot_batches; apply (di_world c _ Hd')|]. eapply seq_frame; [|exact Hs]. split; [by apply same_seq_world_eq|done].
Qed.

Lemma seq_init c i t r :
  0 ≤ producer_id i → is_i16 (producer_epoch i) → seq_drive (drive_init c i t r).
Proof.
  intros Hp He. split; [|by constructor]. split.
  - pose proof (di_world _ _ (proj1 (drive_init_inv c i t r))) as Hw. by rewrite drive_foot_batches in Hw.
  - assert (∀ pb, ¬ outstanding (world (drive_init c i t r)) [] pb) as Hn.
    { intros pb [?%elem_of_nil|[k Hk]]; [done|]. simpl in Hk. by rewrite lookup_empty in Hk. }
    split; simpl; try done.
    + intros pb Ho. by destruct (Hn pb).
    + intros pb Ho. by destruct (Hn pb).
    + intros pb [Ho|?%elem_of_nil]; [by destruct (Hn pb)|done].
    + intros pb _ Ho. by destruct (Hn pb).
    + intros h1 pb h2. by destruct h1.
Qed.

Lemma seq_reach c i t r given d :
  transactional_id c = None → 0 ≤ producer_id i → is_i16 (producer_epoch i) →
  drive_reach regular_run c (drive_init c i t r) given d →
  drive_inv c d ∧ seq_drive d.
Proof.
  intros Ht Hp He. induction 1 as [|given d l d' Hr IH Hs]; [split; [apply drive_init_inv|by apply seq_init]|].
  destruct IH as [Hd Hseq]. split; [by eapply drive_step_inv|by eapply seq_step].
Qed.
End seqloop.
