(* ===== verification/SenderTheorems.v ===== *)
(** * What the producer sender guarantees

    The theorems on [drive]: nothing handed to the sender is lost or answered
    twice, a partition has one batch outstanding, the sequences of an idempotent
    producer have no gap, a stopped sender has answered everything; and a run in
    which a split after an epoch bump breaks the sequence. *)

From S2P Require Import Prelude Bytes Errors Partitioner Accumulator TxnRetry TxnState Sender SenderCycle SenderDrive SenderProofs SenderLoop SenderSeq SenderSeqLoop.

Section theorems.
Context {PA : ProtocolApi} {HO : HashOrder}.

(** C3: the sender loses no record and answers none twice. In every state that
    the sender loop reaches, under every interleaving of appends, drains, broker
    answers, metadata refreshes, transaction errors, aborts and shutdown, the
    reply channels and buffer reservations handed in are, as a multiset, exactly
    those still held (in an accumulator, in a retry slot, or by a running
    request) and those given back: each channel got one reply, each reservation
    went back to the pool once. *)
Theorem sender_conserves P c i t r given d :
  drive_reach P c (drive_init c i t r) given d →
  drive_held d ++ returned (world d) ≡ₚ given.
Proof. intros [_ Ht]%drive_reach_inv. by rewrite <- drive_total_held. Qed.

(** C10: a sender that stops has answered everything. When the loop ends, no
    request is running, no slot is parked, the in-flight counter is zero, and
    every reply channel and every buffer reservation ever handed in was given
    back, each exactly once. *)
Theorem sender_stop_answers_all P c i t r given d :
  drive_reach P c (drive_init c i t r) given d → stopped d = true →
  requests d = [] ∧ retry (pipe (world d)) = ∅ ∧ in_flight (world d) = 0 ∧
  returned (world d) ≡ₚ given.
Proof.
  intros [Hd Ht]%drive_reach_inv Hs. destruct (di_stopped c d Hd Hs) as [Hr [Hm Ha]].
  pose proof (wi_in_flight _ _ (di_world c d Hd)) as Hf.
  unfold drive_foot in Hf. rewrite Hr, Hm, map_size_empty in Hf.
  split_and!; [done|done|done|]. rewrite drive_total_held in Ht. rewrite <- Ht.
  unfold drive_held, drive_foot. rewrite Hr, Hm. simpl. rewrite app_nil_r.
  replace (map_res acc_res (accumulators (world d))) with (@nil resource); [done|].
  symmetry. unfold map_res. assert (∀ x, x ∈ map_to_list (accumulators (world d)) → acc_res x.2 = []) as Hx.
  { intros [k a] Hk%elem_of_map_to_list. by apply (Ha k). }
  revert Hx. generalize (map_to_list (accumulators (world d))). intros l Hx.
  induction l as [|x l IH]; [done|]. csimpl. rewrite Hx by left. apply IH. intros y ?. apply Hx. by right.
Qed.

(** C9: one batch outstanding per partition, within the connection limit. In
    every reachable state the running requests are of distinct partitions, none
    of which has a parked resend, and these are exactly the partitions that the
    loop holds occupied; each parked batch sits in the slot of its own
    partition; the in-flight counter is the number of parked and running
    batches, so it never falls below zero; and no connection carries more than
    [max_in_flight] requests. *)
Theorem sender_one_batch_per_partition P c i t r given d :
  drive_reach P c (drive_init c i t r) given d →
  NoDup ((pb_key ∘ rq_batch) <$> requests d) ∧
  (∀ rq, rq ∈ requests d → retry (pipe (world d)) !! pb_key (rq_batch rq) = None) ∧
  (∀ k, k ∈ occupied d ↔ ∃ rq, rq ∈ requests d ∧ pb_key (rq_batch rq) = k) ∧
  (∀ k pb, retry (pipe (world d)) !! k = Some pb → pb_key pb = k) ∧
  in_flight (world d) = Z.of_nat (size (retry (pipe (world d))) + length (requests d)) ∧
  (∀ leader, length (filter (λ rq, rq_leader rq = leader) (requests d)) ≤ max_in_flight c)%nat.
Proof.
  intros [[[H1 H2 H3 H4 _] Ho Hs _] _]%drive_reach_inv.
  assert ((drive_foot d).*1 = (pb_key ∘ rq_batch) <$> requests d) as HF
    by (unfold drive_foot; by rewrite <- list_fmap_compose).
  rewrite HF in *. split_and!; [done| | |done| |].
  - intros rq Hin. apply H3. apply list_elem_of_fmap. by exists rq.
  - intros k. rewrite Ho, list_elem_of_fmap. naive_solver.
  - unfold drive_foot in H4. by rewrite length_fmap in H4.
  - intros leader. pose proof (so_bound _ _ _ Hs leader) as Hb. revert Hb. unfold lcount.
    generalize (max_in_flight c). intros n Hb. etrans; [|exact Hb].
    clear. induction (requests d) as [|rq l IH]; [done|]. rewrite filter_cons. csimpl.
    destruct (Z.eq_dec (rq_leader rq) leader); case_decide; try done; simpl; lia.
Qed.

(** How many records of [H] a partition has under a producer identity. *)
Definition records_acked (H : list PreparedBatch) (k : topic_partition) (i : Identity) : Z :=
  foldl (λ n pb, if decide (pb_key pb = k ∧ ident pb = i) then n + Z.of_nat (length (pb_records pb)) else n) 0 H.

Lemma records_acked_snoc H pb k i :
  records_acked (H ++ [pb]) k i =
  if decide (pb_key pb = k ∧ ident pb = i) then records_acked H k i + Z.of_nat (length (pb_records pb))
  else records_acked H k i.
Proof. unfold records_acked. by rewrite foldl_app. Qed.

Lemma records_acked_nonneg H k i : 0 ≤ records_acked H k i.
Proof.
  induction H as [|pb H IH] using rev_ind; [done|]. rewrite records_acked_snoc. case_decide; lia.
Qed.

(** Below the largest sequence the broker's expectation is the count. *)
Lemma expected_count (H : list PreparedBatch) k i :
  (∀ h1 pb h2, H = h1 ++ pb :: h2 → pb_base_sequence pb = expected h1 (pb_key pb) (ident pb)) →
  records_acked H k i ≤ i32_max → expected H k i = records_acked H k i.
Proof.
  induction H as [|pb H IH] using rev_ind; intros Hlog; [done|]. rewrite records_acked_snoc, expected_snoc.
  assert (∀ h1 pb' h2, H = h1 ++ pb' :: h2 → pb_base_sequence pb' = expected h1 (pb_key pb') (ident pb')) as Hlog'.
  { intros h1 pb' h2 ->. apply (Hlog h1 pb' (h2 ++ [pb])). by rewrite <- (assoc_L (++)). }
  pose proof (records_acked_nonneg H k i) as H0.
  case_decide as Hk; [|by apply IH]. destruct Hk as [<- <-]. intros Hmax.
  unfold next_of. rewrite (Hlog H pb []) by done. rewrite IH by (done || lia).
  assert (i32_count (length (pb_records pb)) = Z.of_nat (length (pb_records pb))) as ->.
  { unfold i32_count, i32_try_from. rewrite decide_True; [done|]. unfold_ints. lia. }
  unfold i32_wrapping_add. apply cast_signed_wrap; [done|]. unfold_ints. lia.
Qed.

(** C4: the sequences of an idempotent producer without transactions have no
    gap.  In a run in which the broker allocates only producer ids that are not
    in use and no batch of an earlier producer epoch is answered as too large,
    in every reachable state each batch outstanding, on the wire or waiting for
    a resend, carries as its sequence, on its stamp and in its cache, the number
    of records that were acknowledged on its partition under its identity; and
    so does each acknowledged batch, of the records before it.  This holds until
    a partition has 2^31 records under one identity.  Resends, epoch bumps,
    producer-id rotation, rewrites, splits, delivery timeouts and fences all
    keep it. *)
Theorem sender_sequences_contiguous c i t r given d :
  transactional_id c = None → 0 ≤ producer_id i → is_i16 (producer_epoch i) →
  drive_reach regular_run c (drive_init c i t r) given d →
  let log := acked_log (effects (world d)) in
  (∀ pb, outstanding (world d) (drive_batches d) pb → records_acked log (pb_key pb) (ident pb) ≤ i32_max →
     pb_base_sequence pb = records_acked log (pb_key pb) (ident pb) ∧
     rb_base_sequence (pb_record_batch pb) = pb_base_sequence pb) ∧
  (∀ h1 pb h2, log = h1 ++ pb :: h2 → records_acked h1 (pb_key pb) (ident pb) ≤ i32_max →
     pb_base_sequence pb = records_acked h1 (pb_key pb) (ident pb)).
Proof.
  intros Ht Hp He Hr log. destruct (seq_reach c i t r given d Ht Hp He Hr) as [_ [[_ Hs] _]].
  pose proof (sq_log _ _ _ _ Hs) as Hlog. fold log in Hlog. split.
  - intros pb Ho Hmax. split; [|by apply (sq_mode _ _ _ _ Hs pb Ho)].
    rewrite <- expected_count by done. by eapply sq_base.
  - intros h1 pb h2 El Hmax. rewrite <- expected_count; [by eapply Hlog| |done].
    intros g1 pb' g2 ->. apply (Hlog g1 pb' (g2 ++ pb :: h2)). by rewrite El, <- (assoc_L (++)).
Qed.
End theorems.

(** ** The sequence of a long-lived partition *)

(** the sequence wraps to a negative number: after the batch whose one
    record has sequence [i32::MAX], the next batch of the partition is prepared
    with base sequence [i32::MIN], not with 0. *)
Lemma sequence_turns_negative {PA : ProtocolApi} c w key b1 b2 :
  next_seq w !! key = Some i32_max → length (ib_records b1) = 1%nat →
  let '(w1, pb1) := prepare_batch c w key b1 in
  let '(_, pb2) := prepare_batch c w1 key b2 in
  pb_base_sequence pb1 = i32_max ∧ pb_base_sequence pb2 = i32_min.
Proof.
  intros Hn Hl. unfold prepare_batch. simpl. rewrite lookup_insert_eq, Hn, Hl. done.
Qed.

(** ** Verdicts *)

(** The codes of which the cached leader is wrong, and those that another
    attempt may cure. *)
Definition routing_codes : list Z := [3; 5; 6; 9; 13; 56; 72; 74; 80; 83; 84; 100; 103].
Definition passing_codes : list Z := [2; 7; 14; 15; 16; 19; 20; 41; 51; 70; 71; 75; 78; 88; 89; 106; 122; 123; 133].
(** The codes that fence a producer with an identity. *)
Definition fencing_codes : list Z := [31; 35; 49; 53; 90].

(** What becomes of a batch of [n] records after an answer, row by row: 0 is no
    error, 10 MESSAGE_TOO_LARGE, 45 OUT_OF_ORDER_SEQUENCE_NUMBER, 46
    DUPLICATE_SEQUENCE_NUMBER, 59 UNKNOWN_PRODUCER_ID. *)
Inductive verdict_on (code base time start : Z) (last : option Z) (n : nat) :
    BatchMode → Classification → Prop :=
| on_written mode : code ∈ [0; 46] → verdict_on code base time start last n mode (Verdict (Acked base time))
| on_too_large mode : code = 10 → (1 < n)%nat → verdict_on code base time start last n mode (Verdict Split)
| on_fenced mode :
    code ∈ fencing_codes → mode ≠ Plain → verdict_on code base time start last n mode (Verdict (VFatal code))
| on_out_of_order : code = 45 → verdict_on code base time start last n Idempotent (Verdict BumpEpochAndRetry)
| on_unknown_start mode :
    code = 59 → mode ≠ Plain → start < 0 → verdict_on code base time start last n mode (Verdict Retry)
| on_forgotten_id :
    code = 59 → 0 ≤ start → verdict_on code base time start last n Idempotent (Verdict BumpEpochAndRetry)
| on_deleted_records :
    code = 59 → 0 ≤ start → default (-1) last < start →
    verdict_on code base time start last n Transactional (Verdict RestartSequenceAndRetry)
| on_lost_records :
    code = 59 → 0 ≤ start → start ≤ default (-1) last →
    verdict_on code base time start last n Transactional (Verdict (Terminal 59 Reset_))
| on_routing mode : code ∈ routing_codes → verdict_on code base time start last n mode Routing
| on_passing mode : code ∈ passing_codes → verdict_on code base time start last n mode (Verdict Retry)
| on_failure mode :
    code ∉ [0; 46] → ¬ (code = 10 ∧ (1 < n)%nat) → ¬ (code ∈ fencing_codes ∧ mode ≠ Plain) →
    ¬ (code = 45 ∧ mode = Idempotent) → ¬ (code = 59 ∧ mode ≠ Plain) →
    code ∉ routing_codes → code ∉ passing_codes →
    verdict_on code base time start last n mode
      (Verdict (Terminal code match mode with
                              | Plain => Keep | Idempotent => BumpEpoch | Transactional => GiveBack end)).

Lemma verdict_on_computed code base time start last n mode cl :
  verdict_on code base time start last n mode cl →
  classify_verdict (mkAnswer code base time start) mode last n = cl.
Proof.
  intros Hv. unfold classify_verdict. simpl.
  destruct Hv as [mode Hc|mode -> Hn|mode Hc Hm| ->|mode -> Hm Hs| -> Hs| -> Hs Hl| -> Hs Hl|mode Hc|mode Hc
                 |mode H1 H2 H3 H4 H5 H6 H7].
  - unfold codes.MESSAGE_TOO_LARGE. rewrite (bool_decide_eq_true_2 (code ∈ _)) by done.
    destruct (Z.eqb_spec code 10) as [->|]; [set_solver|done].
  - by rewrite bool_decide_eq_true_2.
  - unfold fencing_codes in Hc. rewrite (bool_decide_eq_true_2 (mode ≠ Plain)) by done.
    rewrite !elem_of_cons, elem_of_nil in Hc. destruct Hc as [->|[->|[->|[->|[->|[]]]]]]; reflexivity.
  - reflexivity.
  - rewrite (bool_decide_eq_true_2 (mode ≠ Plain)) by done. apply Z.ltb_lt in Hs. simpl. by rewrite Hs.
  - apply Z.ltb_ge in Hs. simpl. by rewrite Hs.
  - apply Z.ltb_ge in Hs. apply Z.ltb_lt in Hl. simpl. by rewrite Hs, Hl.
  - apply Z.ltb_ge in Hs, Hl. simpl. by rewrite Hs, Hl.
  - unfold routing_codes in Hc. rewrite !elem_of_cons, elem_of_nil in Hc.
    repeat destruct Hc as [->|Hc]; try done; destruct mode; reflexivity.
  - unfold passing_codes in Hc. rewrite !elem_of_cons, elem_of_nil in Hc.
    repeat destruct Hc as [->|Hc]; try done; destruct mode; reflexivity.
  - rewrite (bool_decide_eq_false_2 (code ∈ [codes.NONE; codes.DUPLICATE_SEQUENCE_NUMBER])) by exact H1.
    assert ((code =? codes.MESSAGE_TOO_LARGE) && bool_decide (1 < n)%nat = false) as ->.
    { apply andb_false_iff. rewrite Z.eqb_neq, bool_decide_eq_false. unfold codes.MESSAGE_TOO_LARGE.
      destruct (decide (code = 10)); [right|left]; tauto. }
    assert (bool_decide (code ∈ fatal_codes) && bool_decide (mode ≠ Plain) = false) as ->.
    { apply andb_false_iff. rewrite !bool_decide_eq_false. change fatal_codes with fencing_codes.
      destruct (decide (code ∈ fencing_codes)); [right|left]; tauto. }
    assert (class code = NotRetriable) as ->.
    { unfold class, code_in. change ([3; _; _; _; _; _; _; _; _; _; _; _; _]) with routing_codes.
      change ([2; _; _; _; _; _; _; _; _; _; _; _; _; _; _; _; _; _; _]) with passing_codes.
      rewrite (bool_decide_eq_false_2 (code ∈ routing_codes)), (bool_decide_eq_false_2 (code ∈ passing_codes)) by done.
      destruct (Z.eqb_spec code 0); [set_solver|done]. }
    unfold codes.OUT_OF_ORDER_SEQUENCE_NUMBER, codes.UNKNOWN_PRODUCER_ID.
    destruct (Z.eqb_spec code 45), (Z.eqb_spec code 59), mode; simpl; try done; tauto || naive_solver.
Qed.

Lemma verdict_on_total code base time start last n mode : ∃ cl, verdict_on code base time start last n mode cl.
Proof.
  destruct (decide (code ∈ [0; 46])); [eexists; by apply on_written|].
  destruct (decide (code = 10 ∧ (1 < n)%nat)) as [[]|]; [eexists; by apply on_too_large|].
  destruct (decide (code ∈ fencing_codes ∧ mode ≠ Plain)) as [[]|]; [eexists; by apply on_fenced|].
  destruct (decide (code = 45 ∧ mode = Idempotent)) as [[-> ->]|]; [eexists; by apply on_out_of_order|].
  destruct (decide (code = 59 ∧ mode ≠ Plain)) as [[-> Hm]|].
  { destruct (decide (start < 0)); [eexists; by apply on_unknown_start|]. destruct mode; [done| |].
    - eexists. apply on_forgotten_id; [done|lia].
    - destruct (decide (default (-1) last < start)); eexists;
        [apply on_deleted_records|apply on_lost_records]; lia || done. }
  destruct (decide (code ∈ routing_codes)); [eexists; by apply on_routing|].
  destruct (decide (code ∈ passing_codes)); [eexists; by apply on_passing|].
  eexists. by apply on_failure.
Qed.

(** C21: the verdict on a broker answer is that of one row of the table
    [verdict_on], whose rows exclude each other and cover every code, batch and
    mode.  A batch is acknowledged, with the offset and the append time of the
    answer, for the codes 0 and 46 and no other; it is split exactly when a
    batch of several records is too large; a stamped batch fences the producer
    for five codes, and a plain batch never does; an idempotent producer raises
    its epoch for a sequence out of order and for a producer id that a broker
    with a known log start forgot, and a transactional one starts its sequence
    again only when the log start has passed its last acknowledged offset; and
    every code that is not listed fails the batch with that code and the repair
    of its mode. *)
Theorem classify_verdict_exact code base time start last n mode cl :
  classify_verdict (mkAnswer code base time start) mode last n = cl ↔
  verdict_on code base time start last n mode cl.
Proof.
  split; [|apply verdict_on_computed]. intros <-.
  destruct (verdict_on_total code base time start last n mode) as [cl Hv].
  by rewrite (verdict_on_computed _ _ _ _ _ _ _ _ Hv).
Qed.

(** ** A concrete sender *)

Module Demo.
#[local] Instance api : ProtocolApi := {|
  Uuid := nat; ZERO := 0%nat; encode_with_compression_level _ _ := None |}.
#[local] Instance order : HashOrder := {| iter A m := map_to_list m; iter_perm A m := reflexivity _ |}.

Definition config : SenderConfig :=
  mkSenderConfig AcksAll CompressionNone None 0 30000 3 (RetryBackoff_new 100 1000) 120000000000 5 None.

Definition env (t : Z) : Env := mkEnv t (λ _, true) (λ _, Some 0) None (λ _, false).

Definition txn0 : TxnShared := mkTxnShared Uninitialized (-1, -1) false 0 TxnErrorSlot_default.

Definition routes0 : Routes :=
  mkRoutes ∅ ∅ (BuiltInPartitioner_new PartitionerConfig_default).

Definition start : Driver := drive_init config (mkIdentity 7 0) txn0 routes0.

Definition A : topic_partition := ("a", 0).
Definition B : topic_partition := ("b", 0).

Definition answer (k : topic_partition) (code base : Z) : ProduceResponse :=
  [mkTopicResponse k.1 0%nat [mkPartitionResponse k.2 code base (-1) 0 (-1)]].

(** One step, by the event that causes it. *)
Inductive event : Type :=
| EDrain (e : Env)
| EStart (e : Env) (n : nat)
| EAnswer (e : Env) (n : nat) (answer : option ProduceResponse)
| EComplete (e : Env) (n : nat)
| ESettle (e : Env)
| EShutdown
| EAppend (key : topic_partition) (memory : option Z) (channel : nat).

Definition chk (d : Driver) (e : Env) (results : list BatchSendResult) : bool :=
  bool_decide (init_producer_id e = None) &&
  forallb (λ res, match sr_verdict res with
                  | Split => bool_decide (ident (sr_pb res) = identity (world d))
                  | _ => true
                  end) results.

Definition exec_event (strict : bool) (d : Driver) (ev : event) : option (list resource * Driver) :=
  let same l := Some ([] : list resource,
    mkDriver (world d) l (occupied d) (capacity d) (force d) (stopping d) (refreshing d) (stopped d)) in
  match ev with
  | EDrain e =>
    if negb (stopped d) && immediate (next_schedule config e d) && (negb strict || chk d e [])
    then Some ([], drive_drain config e d) else None
  | EStart e n =>
    r ← requests d !! n; p ← start_request config e (world d) (rq_phase r);
    same (take n (requests d) ++ mkRequest (rq_leader r) (rq_last_acked r) p :: drop (S n) (requests d))
  | EAnswer e n answer =>
    r ← requests d !! n; '(w, r') ← finish_request config e (world d) r answer;
    Some ([], mkDriver w (take n (requests d) ++ r' :: drop (S n) (requests d)) (occupied d)
                (capacity d) (force d) (stopping d) (refreshing d) (stopped d))
  | EComplete e n =>
    r ← requests d !! n; res ← request_result r;
    if negb (stopped d) && (negb strict || chk d e [res.2])
    then Some ([], drive_complete config e d [res] (take n (requests d) ++ drop (S n) (requests d)))
    else None
  | ESettle e =>
    if negb (stopped d) && negb (immediate (next_schedule config e d)) && settled (next_schedule config e d)
    then Some ([], drive_settle d) else None
  | EShutdown => if negb (stopped d) then Some ([], drive_shutdown d) else None
  | EAppend key memory channel =>
    if negb (stopped d)
    then Some (resources_of channel memory,
               set_world d (app_append (world d) 1000 key None (Some []) [] 5 None memory 1 channel))
    else None
  end.

Fixpoint exec_all (strict : bool) (given : list resource) (d : Driver) (evs : list event)
    : option (list resource * Driver) :=
  match evs with
  | [] => Some (given, d)
  | ev :: evs =>
    '(l, d') ← exec_event strict d ev; exec_all strict (given ++ l) d' evs
  end.

Lemma chk_promise d e results : chk d e results = true → regular_run d e results.
Proof.
  unfold chk. rewrite andb_true_iff, bool_decide_eq_true. intros [Hn Hf]. split; [by intros r; rewrite Hn|].
  intros res Hin Hs. rewrite forallb_forall in Hf. specialize (Hf res).
  rewrite <- list_elem_of_In in Hf. specialize (Hf Hin). rewrite Hs in Hf. by apply bool_decide_eq_true in Hf.
Qed.

Lemma exec_event_sound (strict : bool) d ev l d' :
  exec_event strict d ev = Some (l, d') →
  drive_step (if strict then regular_run else λ _ _ _, True) config d l d'.
Proof.
  assert (∀ e res, negb strict || chk d e res = true →
    (if strict then regular_run else λ _ _ _, True) d e res) as Hp.
  { intros e res. destruct strict; [apply chk_promise|done]. }
  destruct ev as [e|e n|e n ans|e n|e| |key memory ch]; simpl; intros Hx.
  - destruct (_ && _) eqn:Hc in Hx; [|done]. rewrite !andb_true_iff, negb_true_iff in Hc. simplify_eq.
    apply step_drain; naive_solver.
  - apply bind_Some in Hx as (r & Hr & (p & Hpp & Hx)%bind_Some). simplify_eq.
    eapply step_start; [|exact Hpp]. symmetry. by apply take_drop_middle.
  - apply bind_Some in Hx as (r & Hr & ([w r'] & Hf & Hx)%bind_Some). simplify_eq.
    eapply step_answer; [|exact Hf]. symmetry. by apply take_drop_middle.
  - apply bind_Some in Hx as (r & Hr & (res & Hres & Hx)%bind_Some).
    destruct (_ && _) eqn:Hc in Hx; [|done]. rewrite andb_true_iff, negb_true_iff in Hc. simplify_eq.
    apply (step_complete _ _ e d [r] _ [res]); [naive_solver| |done| |naive_solver].
    + rewrite <- (take_drop_middle _ _ _ Hr) at 1. solve_Permutation.
    + simpl. by rewrite Hres.
  - destruct (_ && _) eqn:Hc in Hx; [|done]. rewrite !andb_true_iff, !negb_true_iff in Hc. simplify_eq.
    destruct Hc as [[??]?]. by apply (step_settle _ _ e).
  - destruct (negb (stopped d)) eqn:Hc; [|done]. apply negb_true_iff in Hc. simplify_eq. by apply step_shutdown.
  - destruct (negb (stopped d)) eqn:Hc; [|done]. apply negb_true_iff in Hc. simplify_eq.
    apply step_append; [done|]. by intros [].
Qed.

Lemma exec_all_sound (strict : bool) evs given d given' d' :
  exec_all strict given d evs = Some (given', d') →
  drive_reach (if strict then regular_run else λ _ _ _, True) config start given d →
  drive_reach (if strict then regular_run else λ _ _ _, True) config start given' d'.
Proof.
  revert given d. induction evs as [|ev evs IH]; intros given d; simpl; [by intros [= <- <-]|].
  intros ([l d1] & Hx & Hrest)%bind_Some Hr. apply (IH _ _ Hrest). eapply reach_step; [exact Hr|].
  by eapply exec_event_sound.
Qed.

(** Two records of partition A: the broker acknowledges the first; the answer to
    the second is lost, and it is sent again; then the sender stops. *)
Definition script : list event :=
  [EAppend A (Some 16) 0; EDrain (env 1); EStart (env 1) 0; EAppend A (Some 16) 1;
   EAnswer (env 2) 0 (Some (answer A 0 40)); EComplete (env 2) 0;
   EDrain (env 2); EStart (env 2) 0; EAnswer (env 3) 0 None; EComplete (env 3) 0].

Definition stop_script : list event :=
  [EShutdown; EDrain (env 500); EStart (env 500) 0; EAnswer (env 501) 0 (Some (answer A 46 41));
   EComplete (env 501) 0; ESettle (env 501)].

(** Partition B has sequence 1 next. A batch of A fails and raises the epoch
    while a batch of B is on the wire; then the broker finds B's batch too large. *)
Definition split_script : list event :=
  [EAppend B None 0; EDrain (env 1); EStart (env 1) 0; EAnswer (env 2) 0 (Some (answer B 0 40));
   EComplete (env 2) 0;
   EAppend A None 1; EAppend B None 2; EAppend B None 3; EDrain (env 2); EStart (env 2) 0;
   EStart (env 2) 1; EAnswer (env 3) 0 (Some (answer A 87 0)); EComplete (env 3) 0;
   EAnswer (env 4) 0 (Some (answer B codes.MESSAGE_TOO_LARGE 0)); EComplete (env 4) 0;
   EDrain (env 5)].
End Demo.

Section demos.
#[local] Existing Instance Demo.api.
#[local] Existing Instance Demo.order.

(** A script that runs gives a reachable state with the facts it computes. *)
Lemma demo_reach (strict : bool) evs given (facts : Driver → bool) :
  match Demo.exec_all strict [] Demo.start evs with
  | Some (g, d) => bool_decide (g = given) && facts d
  | None => false
  end = true →
  ∃ d, drive_reach (if strict then regular_run else λ _ _ _, True) Demo.config Demo.start given d ∧
       facts d = true.
Proof.
  destruct (Demo.exec_all _ _ _ _) as [[g d]|] eqn:E; [|done].
  rewrite andb_true_iff, bool_decide_eq_true. intros [<- Hf]. exists d. split; [|done].
  exact (Demo.exec_all_sound _ _ _ _ _ _ E (reach_start _ _ _)).
Qed.

Lemma sender_conserves_witness :
  ∃ d, size (retry (pipe (world d))) = 1%nat ∧
       drive_held d ++ returned (world d) ≡ₚ [Channel 0; Memory 16; Channel 1; Memory 16].
Proof.
  destruct (demo_reach false Demo.script [Channel 0; Memory 16; Channel 1; Memory 16]
    (λ d, bool_decide (size (retry (pipe (world d))) = 1%nat))) as (d & Hr & Hf);
    [vm_compute; reflexivity|].
  exists d. split; [by apply bool_decide_eq_true in Hf|].
  exact (sender_conserves _ _ _ _ _ _ _ Hr).
Defined.

Lemma sender_stop_answers_all_witness :
  ∃ d, stopped d = true ∧ returned (world d) ≡ₚ [Channel 0; Memory 16; Channel 1; Memory 16].
Proof.
  destruct (demo_reach false (Demo.script ++ Demo.stop_script)
    [Channel 0; Memory 16; Channel 1; Memory 16] stopped) as (d & Hr & Hf); [vm_compute; reflexivity|].
  exists d. split; [done|].
  exact (proj2 (proj2 (proj2 (sender_stop_answers_all _ _ _ _ _ _ _ Hr Hf)))).
Defined.

Lemma sender_one_batch_per_partition_witness :
  ∃ d, length (requests d) = 2%nat ∧ NoDup ((pb_key ∘ rq_batch) <$> requests d) ∧
       in_flight (world d) = 2.
Proof.
  destruct (demo_reach false (take 9 Demo.split_script) [Channel 0; Channel 1; Channel 2; Channel 3]
    (λ d, bool_decide (length (requests d) = 2%nat ∧ size (retry (pipe (world d))) = 0%nat)))
    as (d & Hr & Hf); [vm_compute; reflexivity|].
  apply bool_decide_eq_true in Hf as [H1 H2]. exists d.
  destruct (sender_one_batch_per_partition _ _ _ _ _ _ _ Hr) as (Hn & _ & _ & _ & Hi & _).
  rewrite H1, H2 in Hi. done.
Defined.

Lemma sender_sequences_contiguous_witness :
  ∃ d pb, retry (pipe (world d)) !! Demo.A = Some pb ∧
    pb_base_sequence pb = records_acked (acked_log (effects (world d))) (pb_key pb) (ident pb) ∧
    pb_base_sequence pb = 1.
Proof.
  destruct (demo_reach true Demo.script [Channel 0; Memory 16; Channel 1; Memory 16]
    (λ d, bool_decide ((λ pb, (pb_base_sequence pb,
       records_acked (acked_log (effects (world d))) (pb_key pb) (ident pb))) <$> retry (pipe (world d)) !! Demo.A
       = Some (1, 1))))
    as (d & Hr & Hf); [vm_compute; reflexivity|].
  apply bool_decide_eq_true in Hf. apply fmap_Some in Hf as (pb & Hpb & [= Hb Hn]).
  exists d, pb. split; [done|]. split; [|symmetry; exact Hb].
  destruct (sender_sequences_contiguous Demo.config (mkIdentity 7 0) Demo.txn0 Demo.routes0
      [Channel 0; Memory 16; Channel 1; Memory 16] d)
    as [Ho _]; [reflexivity|vm_compute; discriminate|vm_compute; split; discriminate|exact Hr|].
  refine (proj1 (Ho pb (or_intror (ex_intro _ Demo.A Hpb)) _)). rewrite <- Hn. vm_compute. discriminate.
Defined.

Lemma sequence_turns_negative_witness :
  let b := mkBatch None 0 0 [mkPending 0 0 None None [] 0] None in
  let w := upd_next_seq {[ Demo.A := i32_max ]} (world Demo.start) in
  pb_base_sequence (prepare_batch Demo.config (prepare_batch Demo.config w Demo.A b).1 Demo.A b).2 = i32_min.
Proof.
  intros b w.
  exact (proj2 (sequence_turns_negative Demo.config w Demo.A b b eq_refl eq_refl)).
Defined.

(** a split after an epoch bump breaks the sequence: the sender gives the parts
    the sequence that the batch had under the old epoch, so the first batch of
    the new epoch does not start at 0, which is what a broker expects. *)
Lemma split_after_bump_gap :
  ∃ given d rq, drive_reach (λ _ _ _, True) Demo.config Demo.start given d ∧ rq ∈ requests d ∧
    ident (rq_batch rq) = identity (world d) ∧ pb_base_sequence (rq_batch rq) = 1 ∧
    expected (acked_log (effects (world d))) (pb_key (rq_batch rq)) (ident (rq_batch rq)) = 0.
Proof.
  destruct (demo_reach false Demo.split_script [Channel 0; Channel 1; Channel 2; Channel 3]
    (λ d, match requests d with
          | rq :: _ => bool_decide (ident (rq_batch rq) = identity (world d) ∧
              pb_base_sequence (rq_batch rq) = 1 ∧
              expected (acked_log (effects (world d))) (pb_key (rq_batch rq)) (ident (rq_batch rq)) = 0)
          | [] => false
          end)) as (d & Hr & Hf); [vm_compute; reflexivity|].
  destruct (requests d) as [|rq l] eqn:E; [done|]. apply bool_decide_eq_true in Hf as (H1 & H2 & H3).
  eexists _, d, rq. split; [exact Hr|]. rewrite E. split_and!; [left|done..].
Qed.
End demos.
