(* ===== verification/SenderTimeout.v ===== *)
(** * The delivery timeout

    A batch that reached the delivery timeout makes the loop drain at once, and
    that drain answers its records: no reply waits for a broker longer than the
    timeout, whether the batch is still in an accumulator or parked for a
    resend. *)

From S2P Require Import Prelude Bytes Errors Partitioner Accumulator TxnRetry TxnState Sender SenderCycle SenderDrive SenderProofs SenderLoop SenderTheorems.

Section timeout.
Context {PA : ProtocolApi} {HO : HashOrder}.
Implicit Types (c : SenderConfig) (e : Env) (w : World) (pb : PreparedBatch) (d : Driver).
Implicit Types (k : topic_partition) (b : InProgressBatch) (n : nat).

Definition overdue c e b : bool :=
  reached_delivery_timeout (ib_first_append_at b) (delivery_timeout c) (now e).

(** A batch behind none but overdue ones. *)
Definition overdue_in c e (a : Accumulator) b : Prop :=
  ∃ l1 l2, queued a = l1 ++ b :: l2 ∧ overdue c e b = true ∧ ∀ x, x ∈ l1 → overdue c e x = true.

(** Channel [n] waits in a batch that reached the delivery timeout. *)
Inductive waits_overdue c e w n : Prop :=
| overdue_parked k pb :
    retry (pipe w) !! k = Some pb → n ∈ pr_ack <$> pb_records pb →
    reached_delivery_timeout (pb_created_at pb) (delivery_timeout c) (now e) = true →
    waits_overdue c e w n
| overdue_queued k a b :
    accumulators w !! k = Some a → overdue_in c e a b → n ∈ pr_ack <$> ib_records b →
    waits_overdue c e w n.

Definition answered w n : Prop := ∃ err, (n, Err err) ∈ replies (effects w).

(** ** Replies only grow *)

Definition grows w w' : Prop := replies (effects w) `prefix_of` replies (effects w').

Lemma grows_refl w : grows w w.
Proof. by unfold grows. Qed.

Lemma grows_trans w1 w2 w3 : grows w1 w2 → grows w2 w3 → grows w1 w3.
Proof. unfold grows. intros. by etrans. Qed.

Lemma grows_eq w w' : replies (effects w') = replies (effects w) → grows w w'.
Proof. unfold grows. by intros ->. Qed.

Lemma answered_grows w w' n : answered w n → grows w w' → answered w' n.
Proof. intros [err Hin] [l E]. exists err. rewrite E. set_solver. Qed.

Lemma grows_core w w' : same_core w w' → grows w w'.
Proof. intros (_ & _ & _ & H & _). by apply grows_eq. Qed.

Lemma grows_foldl {A} (f : World → A → World) l w : (∀ w x, grows w (f w x)) → grows w (foldl f w l).
Proof.
  intros Hf. revert w. induction l as [|x l IH]; intros w; simpl; [apply grows_refl|].
  eapply grows_trans; [apply Hf|apply IH].
Qed.

Lemma grows_finish w : grows w (finish_in_flight w).
Proof. apply grows_eq. unfold finish_in_flight. by destruct (_ =? _). Qed.

Lemma fail_batch_answers records err w n :
  n ∈ pr_ack <$> records → answered (fail_batch records err w) n.
Proof.
  unfold fail_batch. destruct records as [|r rest]; [by intros ?%elem_of_nil|].
  intros [->|Hin]%elem_of_cons.
  - exists err. simpl. set_solver.
  - apply list_elem_of_fmap in Hin as (r' & -> & Hin).
    eexists. simpl. apply elem_of_app. right. right. apply list_elem_of_fmap. eauto.
Qed.

Lemma grows_fail_batch records err w : grows w (fail_batch records err w).
Proof. unfold grows, fail_batch. simpl. by apply prefix_app_r. Qed.

Lemma fail_in_progress_answers b err w n :
  n ∈ pr_ack <$> ib_records b → answered (fail_in_progress b err w) n.
Proof. apply fail_batch_answers. Qed.

Lemma fail_prepared_answers pb err w n :
  n ∈ pr_ack <$> pb_records pb → answered (fail_prepared pb err w) n.
Proof.
  intros Hn. unfold fail_prepared.
  eapply answered_grows; [by apply (fail_batch_answers (pb_records pb) err w)|].
  exact (grows_finish (fail_batch (pb_records pb) err w)).
Qed.

Lemma grows_fail_prepared pb err w : grows w (fail_prepared pb err w).
Proof.
  unfold fail_prepared. eapply grows_trans; [apply (grows_fail_batch (pb_records pb) err)|].
  exact (grows_finish (fail_batch (pb_records pb) err w)).
Qed.

Lemma grows_terminal pb err w : grows w (terminal_fail_batch pb err w).
Proof.
  unfold terminal_fail_batch. eapply grows_trans; [|apply grows_fail_prepared].
  apply grows_eq. by case_bool_decide.
Qed.

(** ** A loop over the accumulators, at one key *)

Lemma acc_loop_at {S} (proj : S → World) (step : S → topic_partition * Accumulator → S)
    (R : S → S → Prop) s k a :
  (∀ s, R s s) → (∀ s1 s2 s3, R s1 s2 → R s2 s3 → R s1 s3) →
  (∀ s k a, accumulators (proj s) !! k = Some a →
     R s (step s (k, a)) ∧
     ∀ k', k' ≠ k → accumulators (proj (step s (k, a))) !! k' = accumulators (proj s) !! k') →
  accumulators (proj s) !! k = Some a →
  let s' := foldl step s (iter (accumulators (proj s))) in
  ∃ s1, R s s1 ∧ accumulators (proj s1) !! k = Some a ∧ R (step s1 (k, a)) s' ∧
        accumulators (proj s') !! k = accumulators (proj (step s1 (k, a))) !! k.
Proof.
  intros Hr Ht Hstep Hk.
  pose proof (iter_nodup (accumulators (proj s))) as Hnd.
  assert (∀ k a, (k, a) ∈ iter (accumulators (proj s)) → accumulators (proj s) !! k = Some a) as Hl
    by (intros ??; apply elem_of_iter).
  assert ((k, a) ∈ iter (accumulators (proj s))) as Hin by (by apply elem_of_iter).
  revert Hnd Hl Hin. generalize (iter (accumulators (proj s))). intros l. revert s Hk.
  induction l as [|[k0 a0] l IH]; intros s Hk Hnd Hl Hin s'; [by apply elem_of_nil in Hin|].
  inversion_clear Hnd as [|?? Hni Hnd']. simpl in s'.
  destruct (Hstep s k0 a0) as [HR Ho]; [apply Hl; left|].
  assert (∀ k1 a1, (k1, a1) ∈ l → accumulators (proj (step s (k0, a0))) !! k1 = Some a1) as Hl'.
  { intros k1 a1 Hin1. rewrite Ho; [apply Hl; by right|]. intros ->. apply Hni.
    apply list_elem_of_fmap. by exists (k0, a1). }
  apply elem_of_cons in Hin as [E|Hin].
  - simplify_eq. exists s. split_and!; [done|done| |].
    + apply (acc_loop proj step R); [done..|]. done.
    + assert (∀ l s0, k0 ∉ l.*1 → NoDup l.*1 →
        (∀ k1 a1, (k1, a1) ∈ l → accumulators (proj s0) !! k1 = Some a1) →
        accumulators (proj (foldl step s0 l)) !! k0 = accumulators (proj s0) !! k0) as Hkeep.
      { clear -Hstep. induction l as [|[k1 a1] l IH]; intros s0 Hn Hnd Hl; [done|]. simpl.
        inversion_clear Hnd as [|?? Hni Hnd']. csimpl in *. apply not_elem_of_cons in Hn as [Hne Hn].
        destruct (Hstep s0 k1 a1) as [_ Ho]; [apply Hl; left|].
        rewrite IH; [by apply Ho|done|done|]. intros k2 a2 Hin. rewrite Ho; [apply Hl; by right|].
        intros ->. apply Hni. apply list_elem_of_fmap. by exists (k1, a2). }
      by apply Hkeep.
  - destruct (IH (step s (k0, a0))) as (s1 & H1 & H2 & H3 & H4); [by apply Hl'|done|done|done|].
    exists s1. split_and!; [by eapply Ht|done..].
Qed.

(** ** The sweeps *)

Lemma overdue_filter c e a a' (P : InProgressBatch → Prop) `{!∀ b, Decision (P b)} b :
  queued a' = filter P (queued a) → overdue_in c e a b → P b → overdue_in c e a' b.
Proof.
  intros Hq (l1 & l2 & E & Hb & Hl) HP. exists (filter P l1), (filter P l2). split_and!; [|done|].
  - by rewrite Hq, E, filter_app, filter_cons_True.
  - intros x [_ Hx]%list_elem_of_filter. auto.
Qed.

Lemma sweep_queued w fa k a :
  let barred b := undrained_barrier w (ib_generation b) in
  ∃ a', accumulators (sweep_accumulator (w, fa) (k, a)).1 !! k = Some a' ∧
        queued a' = filter (λ b, barred b = None) (queued a).
Proof.
  intros barred. unfold sweep_accumulator. simpl. rewrite foldl_accumulators by done. simpl.
  rewrite lookup_insert_eq. eexists. split; [done|]. unfold queued. simpl. rewrite filter_app.
  f_equal. destruct (ac_current a) as [b|]; [|done]. simpl. rewrite filter_cons.
  fold (barred b). by destruct (barred b).
Qed.

Lemma sweep_answers w fa k a b n :
  b ∈ queued a → n ∈ pr_ack <$> ib_records b → is_Some (undrained_barrier w (ib_generation b)) →
  answered (sweep_accumulator (w, fa) (k, a)).1 n.
Proof.
  intros Hb Hn [barrier Hbar]. unfold sweep_accumulator. simpl.
  set (l := omap _ _). assert ((b, barrier) ∈ l) as Hin.
  { apply list_elem_of_omap. exists b. split; [|by rewrite Hbar].
    unfold queued in Hb. rewrite elem_of_app in *. tauto. }
  apply list_elem_of_split in Hin as (l1 & l2 & ->). rewrite foldl_app. simpl.
  eapply answered_grows; [by apply fail_in_progress_answers|].
  apply grows_foldl. intros w' x. apply grows_fail_batch.
Qed.

Lemma grows_sweep s ka : grows s.1 (sweep_accumulator s ka).1.
Proof.
  destruct s as [w fa]. unfold sweep_accumulator. simpl.
  match goal with |- grows w (foldl ?f ?w0 ?l) => apply (grows_trans _ w0); [by apply grows_eq|] end.
  apply grows_foldl. intros w' x. apply grows_fail_batch.
Qed.

Lemma recovered_overdue c e w k a b n :
  accumulators w !! k = Some a → overdue_in c e a b → n ∈ pr_ack <$> ib_records b →
  let w' := fail_recovered_accumulator_batches w in
  answered w' n ∨ ∃ a', accumulators w' !! k = Some a' ∧ overdue_in c e a' b.
Proof.
  intros Hk Hov Hn. unfold fail_recovered_accumulator_batches.
  destruct (negb _); [right; eauto|].
  destruct (acc_loop_at fst sweep_accumulator (λ s s', grows s.1 s'.1) (w, false) k a)
    as ([w1 fa] & H1 & H2 & H3 & H4).
  { intros s. apply grows_refl. }
  { intros ???. apply grows_trans. }
  { intros s k0 a0 Hk0. split; [apply grows_sweep|]. by apply keeps_sweep. }
  { done. }
  simpl in H1, H2, H3, H4. destruct (foldl sweep_accumulator (w, false) _) as [w' fa'] eqn:E.
  simpl in *.
  assert (∀ w2, w2 = (if fa' then notify_waiters (upd_recovery (Some (txn_recovery_generation (txn w))) w')
    else upd_recovery (Some (txn_recovery_generation (txn w))) w') →
    grows w' w2 ∧ accumulators w2 = accumulators w') as Hw2.
  { intros w2 ->. by destruct fa'; split; try apply grows_eq. }
  destruct (Hw2 _ eq_refl) as [Hg Ha].
  destruct (undrained_barrier w1 (ib_generation b)) as [barrier|] eqn:Eb.
  - left. eapply answered_grows; [|exact Hg]. eapply answered_grows; [|exact H3].
    destruct Hov as (l1 & l2 & Eq & _). apply (sweep_answers w1 fa k a b); [|done|by rewrite Eb].
    rewrite Eq. set_solver.
  - right. destruct (sweep_queued w1 fa k a) as (a' & Ha' & Hq). exists a'.
    rewrite Ha, H4. split; [done|].
    by apply (overdue_filter c e a a' (λ b, undrained_barrier w1 (ib_generation b) = None)).
Qed.

Lemma split_expired_overdue c e l1 b l2 :
  overdue c e b = true → (∀ x, x ∈ l1 → overdue c e x = true) →
  b ∈ (split_expired (delivery_timeout c) (now e) (l1 ++ b :: l2)).1.
Proof.
  intros Hb. induction l1 as [|x l1 IH]; intros Hl; simpl.
  - unfold overdue in Hb. rewrite Hb. destruct (split_expired _ _ l2). simpl. left.
  - pose proof (Hl x ltac:(left)) as Hx. unfold overdue in Hx. rewrite Hx.
    specialize (IH ltac:(intros; apply Hl; by right)).
    destruct (split_expired _ _ (l1 ++ b :: l2)). simpl in *. by right.
Qed.

Lemma split_expired_all c e l :
  (∀ x, x ∈ l → overdue c e x = true) → split_expired (delivery_timeout c) (now e) l = (l, []).
Proof.
  induction l as [|x l IH]; intros Hl; [done|]. simpl.
  pose proof (Hl x ltac:(left)) as Hx. unfold overdue in Hx. rewrite Hx.
  by rewrite IH by (intros; apply Hl; by right).
Qed.

Lemma take_expired_overdue c e a b :
  overdue_in c e a b → ib_records b ≠ [] → b ∈ (take_expired c e a).2.
Proof.
  intros (l1 & l2 & Eq & Hb & Hl) Hne. unfold queued in Eq. unfold take_expired.
  apply app_eq_inv in Eq as [(l & Er & El)|(l & Er & El)].
  - (* in the queue, or the current batch right after it *)
    destruct l as [|b0 l]; simplify_eq/=.
    + rewrite app_nil_r in Er. rewrite (split_expired_all c e (ac_ready a)) by (by rewrite Er).
      destruct (ac_current a) as [b0|]; simplify_eq/=. unfold is_empty.
      rewrite bool_decide_eq_false_2 by done. unfold overdue in Hb. rewrite Hb. simpl. set_solver.
    + pose proof (split_expired_overdue c e l1 b0 l Hb Hl) as Hin. rewrite Er.
      destruct (split_expired _ _ _) as [ex kept]. simpl in Hin.
      destruct (ac_current a); [|done]. destruct (_ && _ && _); simpl; set_solver.
  - rewrite (split_expired_all c e (ac_ready a)) by (intros; apply Hl; rewrite Er; set_solver).
    destruct l as [|x l]; simplify_eq/=; destruct (ac_current a) as [b0|]; simplify_eq/=.
    + unfold is_empty. rewrite bool_decide_eq_false_2 by done. unfold overdue in Hb. rewrite Hb. simpl.
      set_solver.
    + by destruct l.
Qed.

Lemma grows_unsent w l : grows w (fail_unsent_batches w l).
Proof.
  unfold fail_unsent_batches. case_bool_decide; [apply grows_refl|].
  match goal with |- grows _ (notify_waiters ?x) => apply (grows_trans _ x); [|by apply grows_eq] end.
  apply grows_foldl. clear. intros w b. eapply grows_trans; [|apply (grows_fail_batch (ib_records b) ProducerError.SendTimeout)].
  apply grows_eq. by case_bool_decide.
Qed.

Lemma unsent_answers w l b n :
  b ∈ l → n ∈ pr_ack <$> ib_records b → answered (fail_unsent_batches w l) n.
Proof.
  intros Hb Hn. unfold fail_unsent_batches. rewrite bool_decide_eq_false_2 by (intros ->; by apply elem_of_nil in Hb).
  match goal with |- answered (notify_waiters ?x) _ => apply (answered_grows x); [|by apply grows_eq] end.
  apply list_elem_of_split in Hb as (l1 & l2 & ->). rewrite foldl_app. simpl.
  eapply answered_grows; [by apply fail_in_progress_answers|].
  apply grows_foldl. clear. intros w b. eapply grows_trans; [|apply (grows_fail_batch (ib_records b) ProducerError.SendTimeout)].
  apply grows_eq. by case_bool_decide.
Qed.

Lemma expired_answers c e w k a b n :
  accumulators w !! k = Some a → overdue_in c e a b → n ∈ pr_ack <$> ib_records b →
  answered (fail_expired_accumulator_batches c e w) n.
Proof.
  intros Hk Hov Hn. unfold fail_expired_accumulator_batches, take_expired_accumulator_batches.
  pose proof (acc_loop_at fst (λ '(w, expired) ka,
    let '(a, taken) := take_expired c e ka.2 in
    (upd_accumulators (<[ka.1 := a]> (accumulators w)) w, expired ++ taken))
    (λ s s' : World * list InProgressBatch, s.2 ⊆ s'.2) (w, []) k a) as Hl.
  simpl in Hl. destruct Hl as ([w1 l1] & _ & _ & Hsub & _).
  { by intros. }
  { intros s1 s2 s3. set_solver. }
  { clear. intros [w l] k a Hk. simpl. destruct (take_expired c e a) as [a' taken]. simpl.
    split; [set_solver|]. intros k' Hne. by rewrite lookup_insert_ne. }
  { done. }
  assert (b ∈ (take_expired c e a).2) as Hin.
  { apply take_expired_overdue; [done|]. intros E. rewrite E in Hn. by apply elem_of_nil in Hn. }
  destruct (take_expired c e a) as [a' taken] eqn:Et. simpl in Hin.
  destruct (foldl _ (w, []) _) as [w2 l]. simpl in Hsub. rewrite Et in Hsub. simpl in Hsub.
  apply (unsent_answers w2 l b); [set_solver|done].
Qed.

(** ** Parked batches *)

Lemma retry_slots_overdue w k pb n :
  retry (pipe w) !! k = Some pb → n ∈ pr_ack <$> pb_records pb →
  let w' := fail_recovered_retry_slots w in
  answered w' n ∨ retry (pipe w') !! k = Some pb.
Proof.
  intros Hk Hn. unfold fail_recovered_retry_slots.
  generalize (omap (λ kb, (λ barrier, (kb.1, barrier)) <$> drained_barrier w (pb_generation kb.2))
      (iter (retry (pipe w)))). intros l.
  assert (∀ w0, answered w0 n ∨ retry (pipe w0) !! k = Some pb →
    answered (foldl (λ w kb,
      match retry (pipe w) !! kb.1 with
      | None => w
      | Some pb => fail_prepared pb (Barrier_error kb.2) (upd_retry (delete kb.1 (retry (pipe w))) w)
      end) w0 l) n ∨ retry (pipe (foldl (λ w kb,
      match retry (pipe w) !! kb.1 with
      | None => w
      | Some pb => fail_prepared pb (Barrier_error kb.2) (upd_retry (delete kb.1 (retry (pipe w))) w)
      end) w0 l)) !! k = Some pb) as Hg; [|apply Hg; by right].
  induction l as [|[k0 b0] l IH]; intros w0 H0; [done|]. simpl. apply IH.
  destruct (retry (pipe w0) !! k0) as [pb0|] eqn:E0; [|done].
  set (w1 := upd_retry _ w0). destruct H0 as [H0|H0].
  - left. eapply answered_grows; [|apply grows_fail_prepared].
    eapply answered_grows; [exact H0|by apply grows_eq].
  - destruct (decide (k0 = k)) as [->|Hne].
    + left. simplify_eq. by apply fail_prepared_answers.
    + right. assert (retry (pipe (fail_prepared pb0 (Barrier_error b0) w1)) = retry (pipe w1)) as ->.
      { unfold fail_prepared, finish_in_flight. simpl. by destruct (_ =? _). }
      simpl. by rewrite lookup_delete_ne.
Qed.

Lemma expire_answers e w expired to_send pb n :
  pb ∈ expired → n ∈ pr_ack <$> pb_records pb → answered (expire_batches e w expired to_send) n.
Proof.
  intros Hpb Hn. unfold expire_batches. destruct (foldl _ _ expired) as [bump reps].
  generalize (if bump then (bump_idempotent_epoch e w).1 else foldl apply_repair w reps). intros w1.
  generalize (foldl (λ w pb, park pb w) w1 to_send). intros w2.
  apply list_elem_of_split in Hpb as (l1 & l2 & ->). rewrite foldl_app. simpl.
  eapply answered_grows; [|apply grows_foldl; intros; apply grows_terminal].
  unfold terminal_fail_batch. by apply fail_prepared_answers.
Qed.

Lemma collect_overdue c e slots m parked to_send expired k pb :
  collect_retries c e slots m = (parked, to_send, expired) → slots !! k = Some pb →
  reached_delivery_timeout (pb_created_at pb) (delivery_timeout c) (now e) = true → pb ∈ expired.
Proof.
  unfold collect_retries. intros Hc Hk%elem_of_iter Hr. revert Hc.
  revert Hk. generalize (iter slots). intros l.
  assert (∀ p0 s0 x0, (k, pb) ∈ l ∨ pb ∈ x0 →
    foldl (λ '(parked, to_send, expired) kb,
      let '(key, pb) := kb in
      if reached_delivery_timeout (pb_created_at pb) (delivery_timeout c) (now e)
      then (parked, to_send, expired ++ [pb])
      else if match pb_backoff_until pb with Some t => now e <? t | None => false end
      then (<[key := pb]> parked, to_send, expired)
      else if m <=? Z.of_nat (length to_send)
      then (<[key := pb]> parked, to_send, expired)
      else (parked, to_send ++ [set_backoff pb None], expired))
      (p0, s0, x0) l = (parked, to_send, expired) → pb ∈ expired) as Hg.
  { induction l as [|[k0 pb0] l IH]; intros p0 s0 x0 Hin; simpl.
    { intros [= _ _ <-]. destruct Hin as [?%elem_of_nil|?]; done. }
    destruct Hin as [[E|Hin]%elem_of_cons|Hin].
    - simplify_eq. rewrite Hr. apply IH. right. set_solver.
    - destruct (reached_delivery_timeout (pb_created_at pb0) (delivery_timeout c) (now e)); [apply IH; auto|].
      destruct (match pb_backoff_until pb0 with Some _ => _ | None => _ end); [apply IH; auto|].
      destruct (m <=? _); apply IH; auto.
    - destruct (reached_delivery_timeout (pb_created_at pb0) (delivery_timeout c) (now e)); [apply IH; set_solver|].
      destruct (match pb_backoff_until pb0 with Some _ => _ | None => _ end); [apply IH; auto|].
      destruct (m <=? _); apply IH; auto. }
  intros Hin. apply Hg. by left.
Qed.

(** ** The rest of the drain only adds replies *)

Lemma grows_route e w slots pending : grows w (route_resends e w slots pending).1.1.
Proof.
  unfold route_resends.
  assert (∀ w0 s0 (acc : list (Z * PreparedBatch)), grows w w0 → grows w (foldl (λ '(w, slots, sends) pb,
    let leader := resolve_leader e w (pb_key pb) in
    if available slots leader then (w, reserve slots leader, sends ++ [(leader, pb)])
    else (park pb w, slots, sends)) (w0, s0, acc) pending).1.1) as Hg; [|apply Hg, grows_refl].
  induction pending as [|pb l IH]; intros w0 s0 acc Hw; [done|]. simpl.
  destruct (available _ _); apply IH; [done|]. eapply grows_trans; [exact Hw|by apply grows_eq].
Qed.

Lemma grows_recovered w l : grows w (fail_recovered_batches w l).1.
Proof.
  unfold fail_recovered_batches.
  assert (∀ w0 acc, grows w w0 → grows w (foldl (λ '(w, retained) pb,
    match drained_barrier w (pb_generation pb) with
    | Some barrier => (fail_prepared pb (Barrier_error barrier) w, retained)
    | None => (w, retained ++ [pb])
    end) (w0, acc) l).1) as Hg; [|apply Hg, grows_refl].
  induction l as [|pb l IH]; intros w0 acc Hw; [done|]. simpl.
  destruct (drained_barrier _ _); apply IH; [|done].
  eapply grows_trans; [exact Hw|apply grows_fail_prepared].
Qed.

Lemma grows_drain_key c e intent s k : grows (dr_world s) (dr_world (drain_key c e intent s k)).
Proof.
  unfold drain_key. destruct (accumulators _ !! k) as [a|]; [|apply grows_refl].
  destruct (_ || _).
  { destruct (_ && _); [|apply grows_refl]. apply grows_core, latency_core. }
  unfold pop_ready_batch. destruct (pop_ready _) as [a' [b|]]; [|by apply grows_eq].
  set (w2 := note_node_latency _ k (now e) true).
  assert (grows (dr_world s) w2) as H2.
  { eapply grows_trans; [|apply grows_core, latency_core]. by apply grows_eq. }
  destruct (undrained_barrier w2 _) as [barrier|].
  - simpl. eapply grows_trans; [exact H2|].
    eapply grows_trans; [apply (grows_fail_batch (ib_records b) (Barrier_error barrier))|].
    exact (grows_finish (fail_batch (ib_records b) (Barrier_error barrier) w2)).
  - pose proof (prepare_core c w2 k b) as [Hc _]. apply grows_core in Hc.
    destruct (prepare_batch c w2 k b) as [w3 pb]. simpl in *. by eapply grows_trans.
Qed.

(** ** What each sweep leaves *)

Lemma retry_fail_in_progress_list l w :
  retry (pipe (foldl (λ w (fb : InProgressBatch * Barrier), fail_in_progress fb.1 (Barrier_error fb.2) w) w l))
  = retry (pipe w).
Proof. revert w. induction l as [|x l IH]; intros w; [done|]. simpl. by rewrite IH. Qed.

Lemma recovered_retry w : retry (pipe (fail_recovered_accumulator_batches w)) = retry (pipe w).
Proof.
  unfold fail_recovered_accumulator_batches. destruct (negb _); [done|].
  pose proof (acc_loop_iter fst sweep_accumulator
    (λ s s', retry (pipe s'.1) = retry (pipe s.1)) (w, false)) as Hl.
  destruct (foldl _ _ _) as [w' fa]. simpl in Hl. rewrite <- Hl; [by destruct fa|done|congruence|].
  intros [w0 f0] k a Hk. split; [|by apply keeps_sweep]. unfold sweep_accumulator. simpl.
  by rewrite retry_fail_in_progress_list.
Qed.

Lemma retry_slots_effects w :
  accumulators (fail_recovered_retry_slots w) = accumulators w ∧ grows w (fail_recovered_retry_slots w).
Proof.
  unfold fail_recovered_retry_slots. split.
  - apply foldl_accumulators. intros w' x. destruct (retry (pipe w') !! x.1); [|done].
    by rewrite accumulators_fail_prepared.
  - apply grows_foldl. intros w' x. destruct (retry (pipe w') !! x.1); [|apply grows_refl].
    eapply grows_trans; [|apply grows_fail_prepared]. by apply grows_eq.
Qed.

Lemma expired_effects c e w :
  grows w (fail_expired_accumulator_batches c e w) ∧
  retry (pipe (fail_expired_accumulator_batches c e w)) = retry (pipe w).
Proof.
  unfold fail_expired_accumulator_batches, take_expired_accumulator_batches.
  pose proof (acc_loop_iter fst (λ '(w, expired) ka,
    let '(a, taken) := take_expired c e ka.2 in
    (upd_accumulators (<[ka.1 := a]> (accumulators w)) w, expired ++ taken))
    (λ s s' : World * list InProgressBatch, grows s.1 s'.1 ∧ retry (pipe s'.1) = retry (pipe s.1))
    (w, [])) as Hl.
  simpl in Hl. destruct (foldl _ (w, []) _) as [w' l]. simpl in Hl. destruct Hl as [Hl1 Hl2].
  { intros. split; [apply grows_refl|done]. }
  { intros ??? [] []. split; [by eapply grows_trans|congruence]. }
  { intros [w0 l0] k a Hk. simpl. destruct (take_expired c e a). simpl.
    split; [by split; [apply grows_eq|]|]. intros k' Hne. by rewrite lookup_insert_ne. }
  split; [eapply grows_trans; [exact Hl1|apply grows_unsent]|]. rewrite <- Hl2.
  unfold fail_unsent_batches. case_bool_decide; [done|]. simpl.
  clear. revert w'. induction l as [|b l IH]; intros w'; [done|]. simpl. rewrite IH. simpl.
  by case_bool_decide.
Qed.

(** After the sweeps an overdue record is answered, or still parked. *)
Lemma sweeps_overdue c e w n :
  waits_overdue c e w n →
  let w' := fail_expired_accumulator_batches c e
              (fail_recovered_retry_slots (fail_recovered_accumulator_batches w)) in
  answered w' n ∨
  ∃ k pb, retry (pipe w') !! k = Some pb ∧ n ∈ pr_ack <$> pb_records pb ∧
    reached_delivery_timeout (pb_created_at pb) (delivery_timeout c) (now e) = true.
Proof.
  intros Hov. set (w2 := fail_recovered_accumulator_batches w).
  destruct (retry_slots_effects w2) as [E3 G3].
  destruct (expired_effects c e (fail_recovered_retry_slots w2)) as [G4 E4].
  destruct Hov as [k pb Hk Hn Hrt|k a b Hk Hoi Hn]; simpl.
  - destruct (retry_slots_overdue w2 k pb n) as [Ha|Ha]; [unfold w2; by rewrite recovered_retry|done| |].
    + left. by eapply answered_grows.
    + right. exists k, pb. by rewrite E4.
  - left. destruct (recovered_overdue c e w k a b n) as [Ha|(a' & Ha' & Ho')]; [done|done|done| |].
    + eapply answered_grows; [|exact G4]. by eapply answered_grows.
    + eapply expired_answers; [by rewrite E3|done|done].
Qed.

Lemma grows_expire e w expired to_send : grows w (expire_batches e w expired to_send).
Proof.
  unfold expire_batches. destruct (foldl _ _ expired) as [bump reps].
  eapply grows_trans; [|apply grows_foldl; intros; apply grows_terminal].
  eapply grows_trans; [|apply grows_foldl; intros; by apply grows_eq].
  destruct bump; [apply grows_core, bump_core|].
  apply grows_foldl. intros w' [[??]?]. by apply grows_eq.
Qed.

(** A drain of an active producer answers every overdue record. *)
Lemma resends_answer_overdue c e w active cap n :
  lifecycle w = STATE_ACTIVE → waits_overdue c e w n →
  match drain_resends c e w active cap with
  | inl w' => answered w' n
  | inr s => answered (dr_world s) n
  end.
Proof.
  intros Hact Hov. unfold drain_resends. rewrite Hact. simpl.
  destruct (load_stats_core w) as (Ea & Er & _).
  assert (waits_overdue c e (update_partition_load_stats w) n) as Hov'.
  { destruct Hov; [eapply overdue_parked; [by rewrite Er|..]; done|
                   eapply overdue_queued; [by rewrite Ea|..]; done]. }
  apply sweeps_overdue in Hov'. set (w4 := fail_expired_accumulator_batches _ _ _) in *. clearbody w4.
  clear -Hov'. destruct (collect_retries _ _ _ _) as [[parked to_send] expired] eqn:Ec.
  destruct Hov' as [H4|(k & pb & Hk & Hn & Hrt)].
  2:{ pose proof (collect_overdue _ _ _ _ _ _ _ _ _ Ec Hk Hrt) as Hin.
      rewrite bool_decide_eq_false_2 by (intros ->; by apply elem_of_nil in Hin). simpl.
      by eapply expire_answers. }
  assert (answered (upd_retry parked w4) n) as H5 by exact H4.
  case_bool_decide; simpl; [|eapply answered_grows; [exact H5|apply grows_expire]].
  pose proof (grows_recovered (upd_retry parked w4) to_send) as G5.
  destruct (fail_recovered_batches _ _) as [w5 kept]. simpl in G5.
  pose proof (grows_route e w5 cap kept) as G6.
  destruct (route_resends _ _ _ _) as [[w6 slots] sends]. simpl in G6.
  destruct (if _ =? _ then _ else _) as [w7 ready] eqn:E7.
  assert (grows w6 w7) as G7.
  { pose proof (bump_core e w6) as Hc. destruct (_ =? _); [|simplify_eq; apply grows_refl].
    rewrite E7 in Hc. by apply grows_core in Hc. }
  assert (answered w7 n) as H7 by (by do 3 (eapply answered_grows; [|done])).
  destruct ready; simpl; (eapply answered_grows; [exact H7|]); apply grows_foldl; intros.
  - apply grows_core, latency_core.
  - by apply grows_eq.
Qed.

Lemma drain_answers_overdue c e w intent active cap n :
  lifecycle w = STATE_ACTIVE → waits_overdue c e w n →
  answered (drain_batches c e w intent active cap).1 n.
Proof.
  intros Hact Hov. pose proof (resends_answer_overdue c e w active cap n Hact Hov) as Hr.
  unfold drain_batches. destruct (drain_resends c e w active cap) as [w'|s]; [done|].
  set (s' := foldl _ _ _).
  assert (answered (dr_world s') n) as Hs'.
  { eapply answered_grows; [exact Hr|]. unfold s'. clear.
    generalize (iter (accumulators (dr_world s))).*1. intros l. revert s.
    induction l as [|k l IH]; intros s; [apply grows_refl|]. simpl.
    eapply grows_trans; [apply grows_drain_key|apply IH]. }
  case_bool_decide; [|done]. simpl. eapply answered_grows; [exact Hs'|by apply grows_eq].
Qed.

(** ** The loop drains at once *)

Lemma include_immediate s t u : immediate s = true → immediate (include_deadline s t u) = true.
Proof. unfold include_deadline. intros Hs. by repeat case_match. Qed.

Lemma include_due s t u : t ≤ u → immediate (include_deadline s t u) = true.
Proof. unfold include_deadline. intros Ht. apply Z.leb_le in Ht. by rewrite Ht. Qed.

Lemma reached_deadline t dt v :
  reached_delivery_timeout t dt v = true → ∃ u, delivery_deadline t dt = Some u ∧ u ≤ v.
Proof.
  unfold reached_delivery_timeout. destruct (delivery_deadline t dt) as [u|]; [|done].
  intros ?%Z.leb_le. eauto.
Qed.

Lemma schedule_retry_immediate c e w cap s kb :
  immediate s = true ∨
  reached_delivery_timeout (pb_created_at kb.2) (delivery_timeout c) (now e) = true →
  immediate (schedule_retry c e w cap s kb) = true.
Proof.
  intros Hs. unfold schedule_retry. case_bool_decide; [done|].
  set (s1 := match delivery_deadline _ _ with Some _ => _ | None => _ end).
  assert (immediate s1 = true) as H1.
  { unfold s1. destruct Hs as [Hs|(u & -> & Hu)%reached_deadline]; [|by apply include_due].
    destruct (delivery_deadline _ _); [by apply include_immediate|done]. }
  destruct (available _ _); [|done].
  destruct (pb_backoff_until _); [by apply include_immediate|done].
Qed.

Definition oldest (a : Accumulator) : option InProgressBatch :=
  match ac_ready a with b :: _ => Some b | [] => ac_current a end.

Lemma schedule_key_immediate c e w f occ cap s k :
  immediate s = true ∨
  (∃ a b, accumulators w !! k = Some a ∧ oldest a = Some b ∧ overdue c e b = true ∧
     (ac_ready a ≠ [] ∨ ib_records b ≠ [])) →
  immediate (schedule_key c e w f occ cap s k) = true.
Proof.
  intros Hs. unfold schedule_key. destruct (accumulators w !! k) as [a|] eqn:Ek.
  2:{ destruct Hs as [?|(a & b & ? & _)]; [done|congruence]. }
  set (cur := match ac_current a with Some b => if is_empty b then None else Some b | None => None end).
  fold (oldest a).
  set (s1 := match oldest a ≫= _ with Some _ => _ | None => _ end).
  assert (immediate s1 = true ∧ negb (bool_decide (is_Some cur)) && negb (negb (bool_decide (ac_ready a = []))) = false
    ∨ immediate s = true) as Hor.
  { destruct Hs as [Hs|(a0 & b & [= <-] & Ho & Hov & Hne)]; [by right|left]. split.
    - unfold s1. rewrite Ho. simpl. apply reached_deadline in Hov as (u & -> & Hu). by apply include_due.
    - rewrite negb_involutive. destruct (decide (ac_ready a = [])) as [Hr|Hr].
      + assert (is_Some cur) as Hc.
        { unfold oldest in Ho. rewrite Hr in Ho. unfold cur, is_empty. rewrite Ho.
          rewrite bool_decide_eq_false_2 by naive_solver. eauto. }
        rewrite bool_decide_eq_true_2 by done. done.
      + rewrite (bool_decide_eq_false_2 (ac_ready a = [])) by done. by rewrite andb_false_r. }
  destruct (negb (bool_decide (is_Some cur)) && _) eqn:Hidle; [by destruct Hor as [[_ ?]|?]|].
  assert (immediate s1 = true) as H1.
  { destruct Hor as [[? _]|Hs']; [done|]. unfold s1.
    destruct (oldest a ≫= _); [by apply include_immediate|done]. }
  clearbody s1. destruct (recovery_scan_needed w && _); [done|]. destruct (_ || _ || _); [done|].
  destruct cur as [b|].
  - destruct (f || _); [done|]. apply include_immediate. by case_match.
  - by case_match.
Qed.

Lemma foldl_immediate {A} (f : Schedule → A → Schedule) l s :
  (∀ s x, immediate s = true → immediate (f s x) = true) →
  (immediate s = true ∨ ∃ x, x ∈ l ∧ ∀ s, immediate (f s x) = true) →
  immediate (foldl f s l) = true.
Proof.
  intros Hf. revert s. induction l as [|x l IH]; intros s; simpl.
  - intros [?|(x & ?%elem_of_nil & _)]; done.
  - intros [Hs|(y & [->|Hy]%elem_of_cons & Hy')]; apply IH; eauto.
Qed.

Lemma overdue_immediate c e w f occ cap n :
  waits_overdue c e w n → immediate (schedule c e w f occ cap) = true.
Proof.
  intros Hov. unfold schedule. apply foldl_immediate; [intros; apply schedule_key_immediate; by left|].
  destruct Hov as [k pb Hk Hn Hrt|k a b Hk (l1 & l2 & Eq & Hb & Hl) Hn].
  - left. apply foldl_immediate; [intros; apply schedule_retry_immediate; by left|].
    right. exists (k, pb). split; [by apply elem_of_iter|].
    intros s. apply schedule_retry_immediate. by right.
  - right. exists k. split; [apply list_elem_of_fmap; exists (k, a); split; [done|by apply elem_of_iter]|].
    intros s. apply schedule_key_immediate. right. exists a. unfold queued in Eq.
    assert (ib_records b ≠ []) as Hne by (intros E; rewrite E in Hn; by apply elem_of_nil in Hn).
    unfold oldest. destruct (ac_ready a) as [|b0 rest].
    + exists b. destruct (ac_current a) as [b1|]; [|by destruct l1].
      assert (l1 = [] ∧ b1 = b) as [_ ->] by (destruct l1 as [|? []]; simplify_eq/=; done).
      split_and!; auto.
    + exists b0. split_and!; [done|done| |by left].
      destruct l1; simplify_eq/=; [done|apply Hl; left].
Qed.

(** C11: no reply waits past the delivery timeout. When a record waits in a batch
    that reached the delivery timeout, in a retry slot or in an accumulator
    behind none but such batches, the next wake-up of the loop is immediate
    whatever the linger, the backoff and the connection slots, and that drain of
    an active producer answers the record with an error. *)
Theorem overdue_record_answered c e d n :
  lifecycle (world d) = STATE_ACTIVE → waits_overdue c e (world d) n →
  immediate (next_schedule c e d) = true ∧ answered (world (drive_drain c e d)) n.
Proof.
  intros Hact Hov. split; [by eapply overdue_immediate|].
  unfold drive_drain.
  pose proof (drain_answers_overdue c e (world d) (if force d then DrainForce else DrainExpired)
    (occupied d) (capacity d) n Hact Hov) as Ha.
  destruct (drain_batches _ _ _ _ _ _) as [w' sends]. simpl in Ha.
  destruct (push_requests sends (set_world d w')) as (-> & _). exact Ha.
Qed.
End timeout.

Section demo.
#[local] Existing Instance Demo.api.
#[local] Existing Instance Demo.order.

Lemma overdue_record_answered_witness :
  ∃ d, immediate (next_schedule Demo.config (Demo.env 200000000000) d) = true ∧
       answered (world (drive_drain Demo.config (Demo.env 200000000000) d)) 1%nat.
Proof.
  destruct (demo_reach false Demo.script [Channel 0; Memory 16; Channel 1; Memory 16]
    (λ d, bool_decide (lifecycle (world d) = STATE_ACTIVE) &&
          match retry (pipe (world d)) !! Demo.A with
          | Some pb => bool_decide (1%nat ∈ pr_ack <$> pb_records pb) &&
              reached_delivery_timeout (pb_created_at pb) (delivery_timeout Demo.config) 200000000000
          | None => false
          end)) as (d & _ & Hf); [vm_compute; reflexivity|].
  apply andb_true_iff in Hf as [Hl Hf]. apply bool_decide_eq_true in Hl.
  destruct (retry (pipe (world d)) !! Demo.A) as [pb|] eqn:E; [|done].
  apply andb_true_iff in Hf as [Hn Hr]. apply bool_decide_eq_true in Hn.
  exists d. apply (overdue_record_answered Demo.config (Demo.env 200000000000) d 1%nat Hl).
  by apply (overdue_parked _ _ _ _ Demo.A pb).
Defined.
End demo.
