(* ===== verification/TxnProducer.v ===== *)
(** * The transactional producer

    [crates/client-producer/src/producer.rs] (the transactional API) and the
    transaction guards of [transactional.rs]. The state of the producer is a
    record; an operation is a computation of the [txn] monad, which threads
    that state and a world. The world stands for what is not modelled: the
    brokers behind [Client], the clock, and the sender task. Every await of
    the source goes through [io], after which the sender task may have
    written the error slot. A computation that is [None] has used up its
    fuel, that is, it is still retrying. *)

From S2P Require Import Prelude CoordRecord Errors Text TxnRetry TxnState.

(** ** Requests and answers, with the fields the producer sets and reads *)

Record EndTxnRequest : Type := mkEndTxnRequest {
  end_transactional_id : string; end_producer_id : Z; end_producer_epoch : Z; end_committed : bool
}.
Record EndTxnResponse : Type := mkEndTxnResponse {
  end_error_code : Z; end_new_producer_id : Z; end_new_producer_epoch : Z
}.
Record InitProducerIdRequest : Type := mkInitRequest {
  init_transactional_id : string; init_timeout_ms : Z; enable2_pc : bool; keep_prepared_txn : bool
}.
Record InitProducerIdResponse : Type := mkInitResponse {
  init_error_code : Z; init_producer_id : Z; init_producer_epoch : Z;
  ongoing_txn_producer_id : Z; ongoing_txn_producer_epoch : Z
}.
Record AddOffsetsToTxnRequest : Type := mkAddOffsetsRequest {
  ao_transactional_id : string; ao_producer_id : Z; ao_producer_epoch : Z; ao_group_id : string
}.
Record AddPartitionsToTxnRequest : Type := mkAddPartitionsRequest {
  ap_transactional_id : string; ap_producer_id : Z; ap_producer_epoch : Z;
  ap_topic : string; ap_partition : Z
}.
Record ConsumerGroupMetadata : Type := mkGroupMetadata {
  group_id : string; generation_id : Z; member_id : string; group_instance_id : option string
}.
Record TxnOffsetCommitRequestTopic : Type := mkCommitTopic {
  commit_name : string; commit_topic_id : Z; commit_partitions : list (Z * Z)
}.
Record TxnOffsetCommitRequest : Type := mkCommitRequest {
  commit_transactional_id : string; commit_producer_id : Z; commit_producer_epoch : Z;
  commit_group : ConsumerGroupMetadata; commit_topics : list TxnOffsetCommitRequestTopic
}.

Inductive CoordinatorKeyType : Type := KeyGroup | KeyTransaction.

Inductive LookupError : Type :=
| LookupRefused (refusal : LookupRefusal)
| LookupUnresolved (e : ProducerError.producer_error).

(** The nil UUID. *)
Definition Uuid_ZERO : Z := 0.

Definition END_TXN_TRANSACTION_V1_MAX_VERSION : Z := 4.
Definition TXN_OFFSET_COMMIT_TRANSACTION_V1_MAX_VERSION : Z := 4.
Definition TXN_OFFSET_COMMIT_TOPIC_NAME_MAX_VERSION : Z := 5.

(** The version cap a request is sent with; [None] is the latest version. *)
Definition VersionCap := option Z.

Inductive TxnOffsetCommitCap : Type := TransactionV1 | TopicNames | Latest.

Definition TxnOffsetCommitCap_of (topics : list TxnOffsetCommitRequestTopic)
    (transaction_v2 : bool) : TxnOffsetCommitCap :=
  if negb transaction_v2 then TransactionV1
  else if existsb (λ t, commit_topic_id t =? Uuid_ZERO) topics then TopicNames
  else Latest.

(** The version that [TxnOffsetCommitCap::send] offers at most. *)
Definition TxnOffsetCommitCap_max (cap : TxnOffsetCommitCap) : VersionCap :=
  match cap with
  | TransactionV1 => Some TXN_OFFSET_COMMIT_TRANSACTION_V1_MAX_VERSION
  | TopicNames => Some TXN_OFFSET_COMMIT_TOPIC_NAME_MAX_VERSION
  | Latest => None
  end.

(** The level of [transaction.version] among the finalized features. *)
Definition transaction_v2_enabled (level : option Z) : bool :=
  match level with Some level => 2 <=? level | None => false end.

(** The loop of [build_topics_payload]: an entry per topic, in first-seen
    order, its partitions in the order of the offsets. *)
Fixpoint push_offset (topics : list TxnOffsetCommitRequestTopic) (topic : string) (id : Z)
    (partition : Z * Z) : list TxnOffsetCommitRequestTopic :=
  match topics with
  | [] => [mkCommitTopic topic id [partition]]
  | entry :: topics =>
    if bool_decide (commit_name entry = topic)
    then mkCommitTopic (commit_name entry) (commit_topic_id entry)
           (commit_partitions entry ++ [partition]) :: topics
    else entry :: push_offset topics topic id partition
  end.

Definition build_topics_payload (offsets : list (topic_partition * Z))
    (topic_ids : gmap string Z) : list TxnOffsetCommitRequestTopic :=
  foldl (λ topics '((topic, partition), offset),
           push_offset topics topic (default Uuid_ZERO (topic_ids !! topic)) (partition, offset))
    [] offsets.

(** ** The world *)

(** What the transactional API asks of the brokers, the clock and the sender
    task. [now] is [Instant::now] in nanoseconds; [flush_wait] and
    [abort_undrained_wait] are [flush] and [abort_undrained_batches]; [sender]
    is the sender task running during an await, with the writes it makes to
    the error slot. *)
Class TxnWorld (W Conn : Type) := {
  now : W → Z;
  sleep : Z → W → unit * W;
  sender : W → list slot_write * W;
  flush_wait : W → result ProducerError.producer_error unit * W;
  abort_undrained_wait : W → result ProducerError.producer_error unit * W;
  connect : string → W → result ClientError.client_error Conn * W;
  reconnect_bootstrap : option Conn → W → unit * W;
  finalized_transaction_version : Conn → W → option Z;
  request_find_coordinator :
    string → CoordinatorKeyType → W → result ClientError.client_error FindCoordinatorResponse * W;
  request_end_txn :
    Conn → VersionCap → EndTxnRequest → W → result ClientError.client_error EndTxnResponse * W;
  request_init_producer_id :
    Conn → InitProducerIdRequest → W → result ClientError.client_error InitProducerIdResponse * W;
  request_add_partitions :
    Conn → AddPartitionsToTxnRequest → W →
    result ClientError.client_error AddPartitionsToTxnResponse * W;
  request_add_offsets :
    Conn → AddOffsetsToTxnRequest → W → result ClientError.client_error Z * W;
  request_txn_offset_commit :
    Conn → VersionCap → TxnOffsetCommitRequest → W →
    result ClientError.client_error (list (list Z)) * W;
  wait_topic_ids :
    list string → W → result ProducerError.producer_error (gmap string Z) * W;
}.

(** The configuration that the transactional API reads. *)
Record TxnConfig : Type := mkTxnConfig {
  transactional_id : option string;
  transaction_timeout_ms : Z;
  two_phase_commit_enabled : bool;
  init_retry_timeout : Z;
  init_retry_backoff : Z;
  retry_backoff_max : Z;
}.

(** The transactional state of the producer. *)
Record Producer (Conn : Type) : Type := mkProducer {
  cfg : TxnConfig;
  txn_state : TxnState;
  txn_recovery_required : bool;
  txn_recovery_generation : Z;
  txn_guard_generation : Z;
  txn_coord_client : option Conn;
  txn_pid_epoch : Z * Z;
  txn_error : TxnErrorSlot;
  transaction_v2 : bool;
  prepared_transaction_state : option PreparedTransactionState;
  next_seq : gmap topic_partition Z;
}.
Arguments mkProducer {Conn}.
Arguments cfg {Conn}.
Arguments txn_state {Conn}.
Arguments txn_recovery_required {Conn}.
Arguments txn_recovery_generation {Conn}.
Arguments txn_guard_generation {Conn}.
Arguments txn_coord_client {Conn}.
Arguments txn_pid_epoch {Conn}.
Arguments txn_error {Conn}.
Arguments transaction_v2 {Conn}.
Arguments prepared_transaction_state {Conn}.
Arguments next_seq {Conn}.

(** ** Assignments to the fields *)

Section setters.
Context {Conn : Type}.
Implicit Type p : Producer Conn.

Definition set_state v p : Producer Conn :=
  mkProducer (cfg p) v (txn_recovery_required p) (txn_recovery_generation p)
    (txn_guard_generation p) (txn_coord_client p) (txn_pid_epoch p) (txn_error p)
    (transaction_v2 p) (prepared_transaction_state p) (next_seq p).
Definition set_recovery_required v p : Producer Conn :=
  mkProducer (cfg p) (txn_state p) v (txn_recovery_generation p) (txn_guard_generation p)
    (txn_coord_client p) (txn_pid_epoch p) (txn_error p) (transaction_v2 p)
    (prepared_transaction_state p) (next_seq p).
Definition set_recovery_generation v p : Producer Conn :=
  mkProducer (cfg p) (txn_state p) (txn_recovery_required p) v (txn_guard_generation p)
    (txn_coord_client p) (txn_pid_epoch p) (txn_error p) (transaction_v2 p)
    (prepared_transaction_state p) (next_seq p).
Definition set_guard_generation v p : Producer Conn :=
  mkProducer (cfg p) (txn_state p) (txn_recovery_required p) (txn_recovery_generation p) v
    (txn_coord_client p) (txn_pid_epoch p) (txn_error p) (transaction_v2 p)
    (prepared_transaction_state p) (next_seq p).
Definition set_coord_client v p : Producer Conn :=
  mkProducer (cfg p) (txn_state p) (txn_recovery_required p) (txn_recovery_generation p)
    (txn_guard_generation p) v (txn_pid_epoch p) (txn_error p) (transaction_v2 p)
    (prepared_transaction_state p) (next_seq p).
Definition set_pid_epoch v p : Producer Conn :=
  mkProducer (cfg p) (txn_state p) (txn_recovery_required p) (txn_recovery_generation p)
    (txn_guard_generation p) (txn_coord_client p) v (txn_error p) (transaction_v2 p)
    (prepared_transaction_state p) (next_seq p).
Definition set_error v p : Producer Conn :=
  mkProducer (cfg p) (txn_state p) (txn_recovery_required p) (txn_recovery_generation p)
    (txn_guard_generation p) (txn_coord_client p) (txn_pid_epoch p) v (transaction_v2 p)
    (prepared_transaction_state p) (next_seq p).
Definition set_transaction_v2 v p : Producer Conn :=
  mkProducer (cfg p) (txn_state p) (txn_recovery_required p) (txn_recovery_generation p)
    (txn_guard_generation p) (txn_coord_client p) (txn_pid_epoch p) (txn_error p) v
    (prepared_transaction_state p) (next_seq p).
Definition set_prepared v p : Producer Conn :=
  mkProducer (cfg p) (txn_state p) (txn_recovery_required p) (txn_recovery_generation p)
    (txn_guard_generation p) (txn_coord_client p) (txn_pid_epoch p) (txn_error p)
    (transaction_v2 p) v (next_seq p).
Definition set_next_seq v p : Producer Conn :=
  mkProducer (cfg p) (txn_state p) (txn_recovery_required p) (txn_recovery_generation p)
    (txn_guard_generation p) (txn_coord_client p) (txn_pid_epoch p) (txn_error p)
    (transaction_v2 p) (prepared_transaction_state p) v.
End setters.

(** ** The monad of the transactional API *)

Section producer.
Context {W Conn : Type} `{TW : !TxnWorld W Conn}.

Definition txn (A : Type) : Type := Producer Conn * W → option (A * (Producer Conn * W)).

#[global] Instance txn_ret : MRet txn := λ A a s, Some (a, s).
#[global] Instance txn_bind : MBind txn := λ A B f m s,
  match m s with Some (a, s) => f a s | None => None end.

(** No fuel left: the computation has not returned. *)
Definition running {A} : txn A := λ _, None.
Definition get : txn (Producer Conn) := λ '(p, w), Some (p, (p, w)).
Definition modify (f : Producer Conn → Producer Conn) : txn unit := λ '(p, w), Some (tt, (f p, w)).
Definition clock : txn Z := λ '(p, w), Some (now w, (p, w)).

(** An await: the operation, and then the writes of the sender task. *)
Definition io {A} (op : W → A * W) : txn A := λ '(p, w),
  let '(a, w) := op w in
  let '(writes, w) := sender w in
  Some (a, (set_error (foldl write_slot (txn_error p) writes) p, w)).

(** ** Error state and guards *)

Definition fatal_error_state (p : Producer Conn) : option ProducerError.producer_error :=
  FatalError_error <$> fatal (txn_error p).

Definition abortable_error_state (p : Producer Conn) : option ProducerError.producer_error :=
  (λ e, match e with
        | AbortableServer code => ProducerError.Server code
        | AbortableTimeout => ProducerError.SendTimeout
        end) <$> abortable (txn_error p).

Definition transaction_error_state (p : Producer Conn) : option ProducerError.producer_error :=
  match fatal_error_state p with Some e => Some e | None => abortable_error_state p end.

(** [u64] [wrapping_add(1)]. *)
Definition next_u64 (n : Z) : Z := (n + 1) mod 2 ^ 64.

Definition resolve_transaction_guard (p : Producer Conn) : Producer Conn :=
  let generation := txn_guard_generation p in
  if generation mod 2 =? 1 then set_guard_generation (next_u64 generation) p else p.

Definition require_transaction_recovery (p : Producer Conn) : Producer Conn :=
  let p' := set_recovery_required true p in
  if txn_recovery_required p then p'
  else set_recovery_generation (next_u64 (txn_recovery_generation p)) p'.

Definition abandon_transaction_guard (generation : Z) (p : Producer Conn) : Producer Conn :=
  if txn_guard_generation p =? generation
  then require_transaction_recovery (set_guard_generation (next_u64 generation) p)
  else p.

Definition fatal_error (e : FatalError) : txn ProducerError.producer_error :=
  modify (λ p, resolve_transaction_guard (set_error (set_fatal (txn_error p) e) p));;
  mret (FatalError_error e).

Definition fence_transaction : txn ProducerError.producer_error :=
  modify (set_state StateFenced);; fatal_error FatalFenced.

Definition fatal_transaction (code : Z) : txn ProducerError.producer_error :=
  modify (set_state StateFatalError);; fatal_error (FatalServer code).

Definition abortable_error (code : Z) : txn ProducerError.producer_error :=
  modify (λ p, set_error (set_abortable (txn_error p) code) p);;
  mret (ProducerError.Server code).

(** [Err] of a computed error. *)
Definition fail_with {E A} (m : txn E) : txn (result E A) := e ← m; mret (Err e).

Definition refused_lookup (refusal : LookupRefusal) : txn ProducerError.producer_error :=
  match refusal with
  | RefusedAbortable code => abortable_error code
  | RefusedFatal code => fatal_transaction code
  end.

Definition init_lookup_error (e : LookupError) : txn ProducerError.producer_error :=
  match e with
  | LookupRefused (RefusedFatal code) => fatal_transaction code
  | LookupRefused (RefusedAbortable code) => mret (ProducerError.Server code)
  | LookupUnresolved e => mret e
  end.

Definition minted_identity (pair : Z * Z) : option (Z * Z) :=
  if (0 <=? pair.1) && (0 <=? pair.2) then Some pair else None.

Definition adopt_transactional_identity (identity : Z * Z) (p : Producer Conn) : Producer Conn :=
  let p' := if bool_decide (txn_pid_epoch p ≠ identity) then set_next_seq ∅ p else p in
  set_pid_epoch identity p'.

(** The generation a send appends with; [None] outside a transactional
    producer. *)
Definition transaction_generation (p : Producer Conn) (state : option TxnState)
    : result ProducerError.producer_error (option Z) :=
  if txn_recovery_required p then Err ProducerError.RecoveryRequired
  else match state with
  | Some InTransaction => Ok (Some (txn_recovery_generation p))
  | Some (Preparing | Prepared) =>
    Err (ProducerError.InvalidTransactionState "send is not allowed after prepare_transaction")
  | Some _ =>
    Err (ProducerError.InvalidTransactionState
           "cannot send records while no transaction is in progress")
  | None => Ok None
  end.

Definition append_transaction_generation (p : Producer Conn) (state : option TxnState)
    : result ProducerError.producer_error (option Z) :=
  match state, transaction_error_state p with
  | Some _, Some e => Err e
  | _, _ => transaction_generation p state
  end.

(** ** Retries and lookups *)

(** [Duration::MAX] in nanoseconds, and [saturating_mul]. *)
Definition duration_max : Z := 2 ^ 64 * 1000000000 - 1.
Definition duration_saturating_mul (d n : Z) : Z := Z.min duration_max (d * n).

Definition next_backoff (backoff max_backoff : Z) : Z :=
  Z.min (duration_saturating_mul backoff 2) max_backoff.

Record CoordinatorRetry : Type := mkRetry { deadline : Z; backoff : Z; max_backoff : Z }.

Definition coordinator_retry_until (p : Producer Conn) (deadline : Z) : CoordinatorRetry :=
  mkRetry deadline (init_retry_backoff (cfg p)) (retry_backoff_max (cfg p)).

Definition coordinator_retry : txn CoordinatorRetry :=
  p ← get; t ← clock;
  mret (coordinator_retry_until p (t + init_retry_timeout (cfg p))).

(** [CoordinatorRetry::wait]: whether another attempt may start. *)
Definition retry_wait (r : CoordinatorRetry) : txn (bool * CoordinatorRetry) :=
  t ← clock;
  let remaining := Z.max 0 (deadline r - t) in
  if remaining =? 0 then mret (false, r)
  else
    io (sleep (Z.min (backoff r) remaining));;
    t ← clock;
    mret (t <? deadline r,
          mkRetry (deadline r) (next_backoff (backoff r) (max_backoff r)) (max_backoff r)).

Fixpoint find_coordinator_loop (fuel : nat) (key : string) (key_type : CoordinatorKeyType)
    (retry : CoordinatorRetry) : txn (result LookupError string) :=
  match fuel with
  | O => running
  | S fuel =>
    sent ← io (request_find_coordinator key key_type);
    match
      match sent with
      | Ok response =>
        let '(code, address) := coordinator_answer response in
        Ok (Answered code, address, ProducerError.Server code)
      | Err e => if lookup_may_succeed_later e
                 then Ok (Lost, "", ProducerError.Client e)
                 else Err (LookupUnresolved (ProducerError.Client e))
      end
    with
    | Err e => mret (Err e)
    | Ok (attempt, address, last_error) =>
      match decide_find_coordinator attempt with
      | Found => mret (Ok address)
      | Refused_ refusal => mret (Err (LookupRefused refusal))
      | FindRetry =>
        (if bool_decide (attempt = Lost) then io (reconnect_bootstrap None) else mret tt);;
        '(again, retry) ← retry_wait retry;
        if (again : bool) then find_coordinator_loop fuel key key_type retry
        else mret (Err (LookupUnresolved last_error))
      end
    end
  end.

Definition find_coordinator (fuel : nat) (key : string) (key_type : CoordinatorKeyType)
    (deadline : Z) : txn (result LookupError string) :=
  p ← get; find_coordinator_loop fuel key key_type (coordinator_retry_until p deadline).

Definition find_txn_coordinator (fuel : nat) (tid : string) (deadline : Z) :=
  find_coordinator fuel tid KeyTransaction deadline.
Definition find_group_coordinator (fuel : nat) (group : string) (deadline : Z) :=
  find_coordinator fuel group KeyGroup deadline.

Definition reconnect_txn_coordinator (fuel : nat) (tid : string) (deadline : Z)
    : txn (result LookupError Conn) :=
  found ← find_txn_coordinator fuel tid deadline;
  match found with
  | Err e => mret (Err e)
  | Ok address =>
    connected ← io (connect address);
    match connected with
    | Err e => mret (Err (LookupUnresolved (ProducerError.Client e)))
    | Ok coordinator =>
      modify (set_coord_client (Some coordinator));; mret (Ok coordinator)
    end
  end.

Definition connect_group_coordinator (fuel : nat) (group : string) (deadline : Z)
    : txn (result LookupError Conn) :=
  found ← find_group_coordinator fuel group deadline;
  match found with
  | Err e => mret (Err e)
  | Ok address =>
    connected ← io (connect address);
    mret (map_err (λ e, LookupUnresolved (ProducerError.Client e)) connected)
  end.

Definition rediscovered_txn_coordinator (fuel : nat) (tid : string) (current : Conn)
    (deadline : Z) : txn (result LookupRefusal Conn) :=
  fresh ← reconnect_txn_coordinator fuel tid deadline;
  match fresh with
  | Ok fresh => mret (Ok fresh)
  | Err (LookupRefused refusal) => mret (Err refusal)
  | Err (LookupUnresolved _) => io (reconnect_bootstrap (Some current));; mret (Ok current)
  end.

(** ** Ending a transaction *)

Definition send_in_transaction_version (v2 : bool) (v1_max : Z) : VersionCap :=
  if v2 then None else Some v1_max.

(** A turn of [send_end_txn_until_decided] after a decision to retry: the
    deadline, the backoff and the new lookup; [again] starts the next turn. *)
Definition end_txn_retry (fuel : nat)
    (again : Conn → Z → txn (result ClientError.client_error (EndTxnDecision * option (Z * Z))))
    (coordinator : Conn) (request : EndTxnRequest) (committed : bool)
    (deadline max_backoff backoff : Z) (attempt : CoordinatorAttempt)
    (earlier_attempt_lost rediscover : bool)
    : txn (result ClientError.client_error (EndTxnDecision * option (Z * Z))) :=
  t ← clock;
  let remaining := Z.max 0 (deadline - t) in
  if remaining =? 0
  then mret (Ok (decide_end_txn_at_deadline attempt earlier_attempt_lost, None))
  else
    io (sleep (Z.min backoff remaining));;
    let backoff := next_backoff backoff max_backoff in
    if rediscover then
      fresh ← reconnect_txn_coordinator fuel (end_transactional_id request) deadline;
      match fresh with
      | Ok fresh => again fresh backoff
      | Err (LookupRefused refusal) =>
        match decide_end_txn_after_refused_lookup refusal earlier_attempt_lost committed with
        | EndRetry _ => again coordinator backoff
        | decision => mret (Ok (decision, None))
        end
      | Err (LookupUnresolved _) =>
        io (reconnect_bootstrap (Some coordinator));; again coordinator backoff
      end
    else again coordinator backoff.

(** The attempt a send of [EndTxn] was, and the identity of its answer. *)
Definition end_txn_attempt (sent : result ClientError.client_error EndTxnResponse)
    : result ClientError.client_error (CoordinatorAttempt * option (Z * Z)) :=
  match sent with
  | Ok response =>
    let identity := if 0 <=? end_new_producer_id response
                    then Some (end_new_producer_id response, end_new_producer_epoch response)
                    else None in
    Ok (Answered (end_error_code response), identity)
  | Err e => if ClientError.is_authentication_failure e then Err e else Ok (Lost, None)
  end.

(** The loop of [send_end_txn_until_decided]. *)
Fixpoint end_txn_loop (fuel : nat) (coordinator : Conn) (request : EndTxnRequest)
    (committed : bool) (deadline max_backoff backoff : Z) (earlier_attempt_lost : bool)
    : txn (result ClientError.client_error (EndTxnDecision * option (Z * Z))) :=
  match fuel with
  | O => running
  | S fuel' =>
    p ← get;
    sent ← io (request_end_txn coordinator
      (send_in_transaction_version (transaction_v2 p) END_TXN_TRANSACTION_V1_MAX_VERSION) request);
    match end_txn_attempt sent with
    | Err e => mret (Err e)
    | Ok (attempt, identity) =>
      let decision := decide_end_txn attempt earlier_attempt_lost committed in
      let earlier_attempt_lost := earlier_attempt_lost || bool_decide (attempt = Lost) in
      match decision with
      | EndRetry rediscover =>
        end_txn_retry fuel
          (λ coordinator backoff,
             end_txn_loop fuel' coordinator request committed deadline max_backoff backoff
               earlier_attempt_lost)
          coordinator request committed deadline max_backoff backoff attempt
          earlier_attempt_lost rediscover
      | decision => mret (Ok (decision, identity))
      end
    end
  end.

Definition send_end_txn_until_decided (fuel : nat) (coordinator : Conn) (request : EndTxnRequest)
    (committed : bool)
    : txn (result ClientError.client_error (EndTxnDecision * option (Z * Z))) :=
  p ← get; t ← clock;
  end_txn_loop fuel coordinator request committed (t + init_retry_timeout (cfg p))
    (retry_backoff_max (cfg p)) (init_retry_backoff (cfg p)) false.

Definition apply_end_txn
    (end_txn : result ClientError.client_error (EndTxnDecision * option (Z * Z)))
    (previous_state : TxnState) : txn (result ProducerError.producer_error unit) :=
  match end_txn with
  | Err e =>
    modify (λ p, set_state StateRecoveryRequired (require_transaction_recovery p));;
    mret (Err (ProducerError.Client e))
  | Ok (decision, producer_identity) =>
    match decision with
    | Complete =>
      modify (λ p, match producer_identity with
                   | Some identity => adopt_transactional_identity identity p
                   | None => p
                   end);;
      modify (set_prepared None);;
      modify (λ p, set_error (clear_abortable (txn_error p)) p);;
      modify (set_state Ready);;
      modify resolve_transaction_guard;;
      mret (Ok tt)
    | EndFenced => modify (set_state StateFenced);; fail_with (fatal_error FatalFenced)
    | EndFatal code =>
      modify (set_state StateFatalError);; fail_with (fatal_error (FatalServer code))
    | EndConcurrentTransactions =>
      modify (set_state previous_state);; mret (Err ProducerError.ConcurrentTransactions)
    | EndAbortable code =>
      modify (set_state previous_state);; fail_with (abortable_error code)
    | TimedOut code =>
      modify (set_state previous_state);; mret (Err (ProducerError.Server code))
    | OutcomeUnknown | EndRetry _ =>
      modify (λ p, set_state StateRecoveryRequired (require_transaction_recovery p));;
      mret (Err ProducerError.RecoveryRequired)
    end
  end.

Definition invalid_state {A} (message : string) : txn (result ProducerError.producer_error A) :=
  mret (Err (ProducerError.InvalidTransactionState message)).

(** Give the transaction back in [previous_state] with an error. *)
Definition restore {A} (previous_state : TxnState) (e : ProducerError.producer_error)
    : txn (result ProducerError.producer_error A) :=
  modify (set_state previous_state);; mret (Err e).

Definition in_flight (s : TxnState) : bool :=
  match s with InTransaction | Prepared => true | _ => false end.

(** What happens before [EndTxn]: a commit flushes and then fails on an
    abortable error, an abort drops what was not sent. *)
Definition drain_for_end (committed : bool) : txn (result ProducerError.producer_error unit) :=
  if committed then
    flushed ← io flush_wait;
    match flushed with
    | Err e => mret (Err e)
    | Ok _ =>
      p ← get;
      match abortable_error_state p with
      | Some e => mret (Err e)
      | None => mret (Ok tt)
      end
    end
  else io abort_undrained_wait.

Definition end_transaction (fuel : nat) (committed : bool)
    : txn (result ProducerError.producer_error unit) :=
  p ← get;
  match transactional_id (cfg p) with
  | None => mret (Err ProducerError.NotTransactional)
  | Some tid =>
    match fatal_error_state p with
    | Some e => mret (Err e)
    | None =>
      let previous_state := txn_state p in
      if negb (in_flight previous_state)
      then invalid_state "commit/abort_transaction must follow begin_transaction"
      else
        modify (set_state CommittingOrAborting);;
        drained ← drain_for_end committed;
        match drained with
        | Err e => restore previous_state e
        | Ok _ =>
          p ← get;
          match txn_coord_client p with
          | None =>
            restore previous_state (ProducerError.InvalidTransactionState
              "no txn coordinator cached — did init_transactions succeed?")
          | Some coord =>
            let '(pid, epoch) := txn_pid_epoch p in
            end_txn ← send_end_txn_until_decided fuel coord
                        (mkEndTxnRequest tid pid epoch committed) committed;
            apply_end_txn end_txn previous_state
          end
        end
    end
  end.

(** ** Beginning, preparing and completing *)

Definition begin_transaction_locked (p : Producer Conn)
    : result ProducerError.producer_error Z * Producer Conn :=
  match txn_state p with
  | Ready =>
    let generation := next_u64 (txn_guard_generation p) in
    (Ok generation, set_guard_generation generation (set_state InTransaction p))
  | _ =>
    (Err (ProducerError.InvalidTransactionState
      "begin_transaction must be called after init_transactions and not while another txn is in flight"),
     p)
  end.

Definition begin_transaction_state : txn (result ProducerError.producer_error Z) :=
  p ← get;
  match transactional_id (cfg p) with
  | None => mret (Err ProducerError.NotTransactional)
  | Some _ =>
    match fatal_error_state p with
    | Some e => mret (Err e)
    | None =>
      if txn_recovery_required p then mret (Err ProducerError.RecoveryRequired)
      else
        let '(r, p) := begin_transaction_locked p in
        modify (λ _, p);; mret r
    end
  end.

Definition prepare_transaction : txn (result ProducerError.producer_error PreparedTransactionState) :=
  p ← get;
  match transactional_id (cfg p) with
  | None => mret (Err ProducerError.NotTransactional)
  | Some _ =>
    if negb (two_phase_commit_enabled (cfg p))
    then invalid_state "prepare_transaction requires transaction_two_phase_commit_enable=true"
    else match fatal_error_state p with
    | Some e => mret (Err e)
    | None =>
      if txn_recovery_required p then mret (Err ProducerError.RecoveryRequired)
      else if bool_decide (txn_state p ≠ InTransaction)
      then invalid_state "prepare_transaction must follow begin_transaction"
      else
        modify (set_state Preparing);;
        flushed ← io flush_wait;
        match flushed with
        | Err e => restore InTransaction e
        | Ok _ =>
          p ← get;
          match transaction_error_state p with
          | Some e => restore InTransaction e
          | None =>
            let '(pid, epoch) := txn_pid_epoch p in
            match PreparedTransactionState_new pid epoch with
            | Err _ =>
              restore InTransaction (ProducerError.InvalidTransactionState
                "transaction coordinator returned an invalid producer identity")
            | Ok prepared =>
              modify (set_prepared (Some prepared));;
              modify (set_state Prepared);;
              modify resolve_transaction_guard;;
              mret (Ok prepared)
            end
          end
        end
    end
  end.

Definition complete_transaction (fuel : nat) (prepared : PreparedTransactionState)
    : txn (result ProducerError.producer_error unit) :=
  p ← get;
  match fatal_error_state p with
  | Some e => mret (Err e)
  | None =>
    if bool_decide (txn_state p ≠ Prepared)
    then invalid_state "complete_transaction requires a prepared transaction"
    else end_transaction fuel (bool_decide (prepared_transaction_state p = Some prepared))
  end.

(** ** Initializing *)

Fixpoint init_producer_id_loop (fuel : nat) (tid : string) (request : InitProducerIdRequest)
    (coordinator : Conn) (retry : CoordinatorRetry)
    : txn (result ProducerError.producer_error (Conn * InitProducerIdResponse)) :=
  match fuel with
  | O => running
  | S fuel' =>
    sent ← io (request_init_producer_id coordinator request);
    match
      match sent with
      | Ok response => Ok (Answered (init_error_code response), Ok response)
      | Err ClientError.Disconnected => Ok (Lost, Err ClientError.Disconnected)
      | Err e => Err e
      end
    with
    | Err e => mret (Err (ProducerError.Client e))
    | Ok (attempt, last_outcome) =>
      let outcome :=
        map_err ProducerError.Client ((λ response, (coordinator, response)) <$> last_outcome) in
      match decide_init_producer_id attempt with
      | ReqRetry rediscover =>
        '(again, retry) ← retry_wait retry;
        if negb again then mret outcome
        else if (rediscover : bool) then
          fresh ← rediscovered_txn_coordinator fuel tid coordinator (deadline retry);
          match fresh with
          | Ok coordinator => init_producer_id_loop fuel' tid request coordinator retry
          | Err refusal => fail_with (init_lookup_error (LookupRefused refusal))
          end
        else init_producer_id_loop fuel' tid request coordinator retry
      | _ => mret outcome
      end
    end
  end.

(** The async block of [init_transactions_with_keep_prepared]. *)
Definition initialize (fuel : nat) (tid : string) (keep_prepared : bool) (deadline : Z)
    : txn (result ProducerError.producer_error (Conn * InitProducerIdResponse)) :=
  found ← find_txn_coordinator fuel tid deadline;
  match found with
  | Err e => fail_with (init_lookup_error e)
  | Ok address =>
    connected ← io (connect address);
    match connected with
    | Err e => mret (Err (ProducerError.Client e))
    | Ok coord =>
      p ← get;
      init_producer_id_loop fuel tid
        (mkInitRequest tid (transaction_timeout_ms (cfg p)) (two_phase_commit_enabled (cfg p))
           keep_prepared)
        coord (coordinator_retry_until p deadline)
    end
  end.

Definition may_initialize (p : Producer Conn) : bool :=
  match txn_state p with
  | Uninitialized | Ready | StateRecoveryRequired => true
  | _ => txn_recovery_required p
  end.

(** The arm of a [NONE] answer. *)
Definition install_identity (coord : Conn) (response : InitProducerIdResponse)
    (recovered : option PreparedTransactionState)
    : txn (result ProducerError.producer_error unit) :=
  modify (adopt_transactional_identity (init_producer_id response, init_producer_epoch response));;
  modify (λ p, set_error (clear_abortable (txn_error p)) p);;
  level ← (λ '(p, w), Some (finalized_transaction_version coord w, (p, w)));
  modify (set_transaction_v2 (transaction_v2_enabled level));;
  modify (set_coord_client (Some coord));;
  modify (set_prepared recovered);;
  modify (set_state (match recovered with Some _ => Prepared | None => Ready end));;
  modify (set_recovery_required false);;
  modify resolve_transaction_guard;;
  mret (Ok tt).

Definition init_transactions_with_keep_prepared (fuel : nat) (keep_prepared : bool)
    : txn (result ProducerError.producer_error unit) :=
  p ← get;
  match transactional_id (cfg p) with
  | None => mret (Err ProducerError.NotTransactional)
  | Some tid =>
    match fatal_error_state p with
    | Some e => mret (Err e)
    | None =>
      if negb (may_initialize p)
      then invalid_state "init_transactions called while a transaction is in flight"
      else
        let previous_state := txn_state p in
        modify (set_state Initializing);;
        t ← clock;
        initialized ← initialize fuel tid keep_prepared (t + init_retry_timeout (cfg p));
        match initialized with
        | Err e =>
          p ← get;
          match fatal_error_state p with
          | None => restore previous_state e
          | Some _ => mret (Err e)
          end
        | Ok (coord, response) =>
          if init_error_code response =? 0 then
            if keep_prepared && (0 <=? ongoing_txn_producer_id response) then
              match PreparedTransactionState_new (ongoing_txn_producer_id response)
                      (ongoing_txn_producer_epoch response) with
              | Err _ =>
                restore previous_state (ProducerError.InvalidTransactionState
                  "transaction coordinator returned an invalid ongoing identity")
              | Ok recovered => install_identity coord response (Some recovered)
              end
            else install_identity coord response None
          else
            match decide_init_producer_id (Answered (init_error_code response)) with
            | ReqFenced => fail_with fence_transaction
            | ReqFatal code => fail_with (fatal_transaction code)
            | _ => restore previous_state (ProducerError.Server (init_error_code response))
            end
        end
    end
  end.

Definition init_transactions (fuel : nat) := init_transactions_with_keep_prepared fuel false.

(** ** Adding partitions and offsets to the transaction *)

Definition no_coordinator : ProducerError.producer_error :=
  ProducerError.InvalidTransactionState
    "no txn coordinator cached — did init_transactions succeed?".

Fixpoint add_partitions_loop (fuel : nat) (request : AddPartitionsToTxnRequest)
    (coordinator : Conn) (retry : CoordinatorRetry)
    : txn (result ProducerError.producer_error unit) :=
  match fuel with
  | O => running
  | S fuel' =>
    sent ← io (request_add_partitions coordinator request);
    match
      match sent with
      | Ok response =>
        let code := add_partitions_error_code response in
        Ok (Answered code, ProducerError.Server code)
      | Err e => if ClientError.is_authentication_failure e then Err e
                 else Ok (Lost, ProducerError.Client e)
      end
    with
    | Err e => mret (Err (ProducerError.Client e))
    | Ok (attempt, last_error) =>
      match decide_add_partitions attempt with
      | Added => mret (Ok tt)
      | AddFenced => fail_with (fatal_error FatalFenced)
      | AddAbortable code => fail_with (abortable_error code)
      | AddFatal code => fail_with (fatal_error (FatalServer code))
      | AddRetry rediscover =>
        '(again, retry) ← retry_wait retry;
        if negb again then mret (Err last_error)
        else if (rediscover : bool) then
          fresh ← rediscovered_txn_coordinator fuel (ap_transactional_id request) coordinator
                    (deadline retry);
          match fresh with
          | Ok coordinator => add_partitions_loop fuel' request coordinator retry
          | Err (RefusedAbortable code) => fail_with (abortable_error code)
          | Err (RefusedFatal code) => fail_with (fatal_error (FatalServer code))
          end
        else add_partitions_loop fuel' request coordinator retry
      end
    end
  end.

Definition register_transaction_partition (fuel : nat) (topic : string) (partition : Z)
    : txn (result ProducerError.producer_error unit) :=
  p ← get;
  match transactional_id (cfg p) with
  | None => mret (Ok tt)
  | Some tid =>
    if transaction_v2 p then mret (Ok tt)
    else match txn_coord_client p with
    | None => mret (Err no_coordinator)
    | Some coordinator =>
      let '(pid, epoch) := txn_pid_epoch p in
      retry ← coordinator_retry;
      add_partitions_loop fuel (mkAddPartitionsRequest tid pid epoch topic partition)
        coordinator retry
    end
  end.

(** The registration inside [send], which holds the state lock and moves the
    state of a fatal error under it. *)
Definition register_in_send (fuel : nat) (topic : string) (partition : Z)
    : txn (result ProducerError.producer_error unit) :=
  registered ← register_transaction_partition fuel topic partition;
  match registered with
  | Ok _ => mret (Ok tt)
  | Err e =>
    modify (λ p, match fatal (txn_error p) with
                 | Some f => set_state (FatalError_state f) p
                 | None => p
                 end);;
    mret (Err e)
  end.

(** How a loop reads the result of one send that may be sent again. *)
Definition reached {A} (code : A → Z) (sent : result ClientError.client_error A)
    : result ClientError.client_error (CoordinatorAttempt * ProducerError.producer_error) :=
  match sent with
  | Ok response => Ok (Answered (code response), ProducerError.Server (code response))
  | Err e => if request_may_have_reached_the_broker e
             then Ok (Lost, ProducerError.Client e) else Err e
  end.

Fixpoint add_offsets_loop (fuel : nat) (request : AddOffsetsToTxnRequest) (coordinator : Conn)
    (retry : CoordinatorRetry) : txn (result ProducerError.producer_error unit) :=
  match fuel with
  | O => running
  | S fuel' =>
    sent ← io (request_add_offsets coordinator request);
    match reached id sent with
    | Err e => mret (Err (ProducerError.Client e))
    | Ok (attempt, last_error) =>
      match decide_add_offsets_to_txn attempt with
      | Done => mret (Ok tt)
      | ReqFenced => fail_with fence_transaction
      | ReqAbortable code => fail_with (abortable_error code)
      | ReqFatal code => fail_with (fatal_transaction code)
      | ReqRetry rediscover =>
        '(again, retry) ← retry_wait retry;
        if negb again then mret (Err last_error)
        else if (rediscover : bool) then
          fresh ← rediscovered_txn_coordinator fuel (ao_transactional_id request) coordinator
                    (deadline retry);
          match fresh with
          | Ok coordinator => add_offsets_loop fuel' request coordinator retry
          | Err refusal => fail_with (refused_lookup refusal)
          end
        else add_offsets_loop fuel' request coordinator retry
      end
    end
  end.

Definition add_offsets_to_txn (fuel : nat) (tid : string) (pid epoch : Z) (group : string)
    : txn (result ProducerError.producer_error unit) :=
  p ← get;
  match txn_coord_client p with
  | None => mret (Err no_coordinator)
  | Some coordinator =>
    retry ← coordinator_retry;
    add_offsets_loop fuel (mkAddOffsetsRequest tid pid epoch group) coordinator retry
  end.

Fixpoint txn_offset_commit_retry (fuel : nat) (cap : VersionCap)
    (request : TxnOffsetCommitRequest) (group_client : Conn) (retry : CoordinatorRetry)
    : txn (result ProducerError.producer_error unit) :=
  match fuel with
  | O => running
  | S fuel' =>
    sent ← io (request_txn_offset_commit group_client cap request);
    match reached txn_offset_commit_error_code sent with
    | Err e => mret (Err (ProducerError.Client e))
    | Ok (attempt, last_error) =>
      match decide_txn_offset_commit attempt with
      | Done => mret (Ok tt)
      | ReqFenced => fail_with fence_transaction
      | ReqAbortable code => fail_with (abortable_error code)
      | ReqFatal code => fail_with (fatal_transaction code)
      | ReqRetry rediscover =>
        '(again, retry) ← retry_wait retry;
        if negb again then mret (Err last_error)
        else if (rediscover : bool) then
          fresh ← connect_group_coordinator fuel (group_id (commit_group request)) (deadline retry);
          match fresh with
          | Ok fresh => txn_offset_commit_retry fuel' cap request fresh retry
          | Err (LookupRefused refusal) => fail_with (refused_lookup refusal)
          | Err (LookupUnresolved _) =>
            io (reconnect_bootstrap None);;
            txn_offset_commit_retry fuel' cap request group_client retry
          end
        else txn_offset_commit_retry fuel' cap request group_client retry
      end
    end
  end.

Definition txn_offset_commit (fuel : nat) (tid : string) (pid epoch : Z)
    (group_meta : ConsumerGroupMetadata) (topics : list TxnOffsetCommitRequestTopic)
    : txn (result ProducerError.producer_error unit) :=
  p ← get;
  let cap := TxnOffsetCommitCap_max (TxnOffsetCommitCap_of topics (transaction_v2 p)) in
  let request := mkCommitRequest tid pid epoch group_meta topics in
  retry ← coordinator_retry;
  found ← connect_group_coordinator fuel (group_id group_meta) (deadline retry);
  match found with
  | Ok group_client => txn_offset_commit_retry fuel cap request group_client retry
  | Err (LookupRefused refusal) => fail_with (refused_lookup refusal)
  | Err (LookupUnresolved e) => mret (Err e)
  end.

(** The distinct topics, in first-seen order. *)
Definition distinct_topics (offsets : list (topic_partition * Z)) : list string :=
  foldl (λ topics '((topic, _), _),
           if decide (topic ∈ topics) then topics else topics ++ [topic]) [] offsets.

Definition send_offsets_to_transaction (fuel : nat) (offsets : list (topic_partition * Z))
    (group_meta : ConsumerGroupMetadata) : txn (result ProducerError.producer_error unit) :=
  p ← get;
  match transactional_id (cfg p) with
  | None => mret (Err ProducerError.NotTransactional)
  | Some tid =>
    match fatal_error_state p with
    | Some e => mret (Err e)
    | None =>
      match txn_state p with
      | InTransaction =>
        match abortable_error_state p with
        | Some e => mret (Err e)
        | None =>
          ids ← io (wait_topic_ids (distinct_topics offsets));
          match ids with
          | Err e => mret (Err e)
          | Ok topic_ids =>
            p ← get;
            let '(pid, epoch) := txn_pid_epoch p in
            added ← (if negb (transaction_v2 p)
                     then add_offsets_to_txn fuel tid pid epoch (group_id group_meta)
                     else mret (Ok tt));
            match added with
            | Err e => mret (Err e)
            | Ok _ =>
              txn_offset_commit fuel tid pid epoch group_meta
                (build_topics_payload offsets topic_ids)
            end
          end
        end
      | Preparing | Prepared =>
        invalid_state "send_offsets_to_transaction is not allowed after prepare_transaction"
      | _ =>
        invalid_state "cannot send offsets to transaction while no transaction is in progress"
      end
    end
  end.

(** ** Guards *)

Record Transaction : Type := mkTransaction { finished : bool; guard_generation : Z }.

Definition begin_transaction : txn (result ProducerError.producer_error Transaction) :=
  generation ← begin_transaction_state;
  mret ((λ g, mkTransaction false g) <$> generation).

(** [commit] and [abort] finish the guard on success and hand it back in the
    error otherwise. *)
Definition Transaction_end (fuel : nat) (t : Transaction) (committed : bool)
    : txn (result (Transaction * ProducerError.producer_error) Transaction) :=
  ended ← end_transaction fuel committed;
  mret (match ended with
        | Ok _ => Ok (mkTransaction true (guard_generation t))
        | Err source => Err (t, source)
        end).

Definition Transaction_commit (fuel : nat) (t : Transaction) := Transaction_end fuel t true.
Definition Transaction_abort (fuel : nat) (t : Transaction) := Transaction_end fuel t false.

Definition Transaction_drop (t : Transaction) (p : Producer Conn) : Producer Conn :=
  if finished t then p else abandon_transaction_guard (guard_generation t) p.
End producer.
