(* ===== verification/ProducerSend.v ===== *)
(** * The send path of the producer

    [Producer::enqueue] of [client-producer/src/producer.rs] with the metadata
    wait of [metadata_wait.rs], the expiry of idle topics of
    [metadata_age.rs] with [client-core/src/metadata_topics.rs], and the
    buffer memory of [buffer_pool.rs].  The producer is shared: at every await
    other sends, the sender task and the periodic refresh may change it, except
    for what the locks of this send protect.  The semaphore of the pool is a
    count of free bytes; how it chooses among waiting sends is left open. *)

From S2P Require Import Prelude Bytes Text Errors Sender Accumulator Partitioner Async TxnState TxnProducer.
Import ProducerError.

(** ** Metadata of the producer *)

Definition METADATA_NONE : Z := 0.
Definition INVALID_TOPIC_EXCEPTION : Z := 17.
Definition TOPIC_AUTHORIZATION_FAILED : Z := 29.

Section send.
Context {Uuid Conn : Type} (ZERO : Uuid).

Record CachedTopic := mkCached { ct_num_partitions : Z; ct_topic_id : Uuid }.

Record TopicEntry := mkTopicEntry {
  te_name : option string;
  te_error_code : Z;
  te_topic_id : Uuid;
  te_partitions : list (Z * Z);
}.
Record ClusterMetadata := mkClusterMetadata {
  cm_topics : list TopicEntry;
  cm_racks : list (Z * option string);
}.

Record Refreshed := mkRefreshed { rf_topics : list string; rf_response : ClusterMetadata }.

Record ProducerTopics := mkProducerTopics { pt_known : gset string; pt_new : gset string }.

Definition next_request (t : ProducerTopics) : list string :=
  sort_by str_le (elements (if decide (pt_new t = ∅) then pt_known t else pt_new t)).

Definition add_topic (topic : string) (t : ProducerTopics) : ProducerTopics :=
  if decide (topic ∈ pt_known t) then t
  else mkProducerTopics ({[topic]} ∪ pt_known t) ({[topic]} ∪ pt_new t).

Definition forget (topics : list string) (t : ProducerTopics) : ProducerTopics :=
  foldl (λ t topic, mkProducerTopics (pt_known t ∖ {[topic]}) (pt_new t ∖ {[topic]})) t topics.

Definition listed (response : ClusterMetadata) (t : ProducerTopics) : ProducerTopics :=
  foldl (λ t e, match te_name e with
                | Some name => mkProducerTopics (pt_known t) (pt_new t ∖ {[name]})
                | None => t
                end) t (cm_topics response).

Inductive TopicLookup := Known (meta : CachedTopic) | Fatal (code : Z) | Unknown.

Definition entry_of (response : ClusterMetadata) (topic : string) : option TopicEntry :=
  snd <$> list_find (λ e, te_name e = Some topic) (cm_topics response).

Definition lookup_topic (response : ClusterMetadata) (topic : string) : TopicLookup :=
  match entry_of response topic with
  | None => Unknown
  | Some e =>
    if te_error_code e =? METADATA_NONE then
      match i32_try_from (Z.of_nat (length (te_partitions e))) with
      | Some n => if 0 <? n then Known (mkCached n (te_topic_id e)) else Unknown
      | None => Unknown
      end
    else if bool_decide (te_error_code e ∈ [INVALID_TOPIC_EXCEPTION; TOPIC_AUTHORIZATION_FAILED])
    then Fatal (te_error_code e)
    else Unknown
  end.

Definition stops_the_wait (error : ClientError.client_error) : bool :=
  ClientError.is_authentication_failure error ||
  match error with
  | ClientError.IncompatibleVersion _ _ _ _ _ | ClientError.InvalidConfig _ => true
  | _ => false
  end.

(** ** State *)

(** The metadata that sends, sender and periodic refresh share. *)
Record Meta := mkMeta {
  mt_cache : gmap string CachedTopic;
  mt_leaders : gmap topic_partition Z;
  mt_racks : gmap Z (option string);
  mt_generation : Z;
  mt_last : option Refreshed;
  mt_topics : ProducerTopics;
  mt_used : gmap string Z;
}.

(** [sh_in_flight] is the memory of the batches that the sender has taken and of
    the reservations that other sends hold; [sh_wakes] the intents that were
    given to [try_send], which drops one when the channel is full. *)
Record Shared := mkShared {
  sh_now : Z;
  sh_meta : Meta;
  sh_partitioner : BuiltInPartitioner;
  sh_accumulators : gmap topic_partition Accumulator;
  sh_free : Z;
  sh_in_flight : Z;
  sh_state : Z;
  sh_txn : Producer Conn;
  sh_next_channel : nat;
  sh_wakes : list DrainIntent;
}.

(** One append of this send: its accumulator and channel, the reservation it
    brought, and the shared state in which it was done. *)
Record Appended := mkAppended {
  ap_key : topic_partition;
  ap_channel : nat;
  ap_reservation : option Z;
  ap_state : Shared;
}.

(** What this send holds: the memory and the locks; how many random numbers it
    drew; and for the statements the shared state in which it looked for a
    partition, and what it appended. *)
Record Local := mkLocal {
  lc_memory : option Z;
  lc_refresh_lock : bool;
  lc_txn_lock : bool;
  lc_chosen : option Shared;
  lc_appended : list Appended;
  lc_draws : nat;
}.

Record SendState := mkSendState { shared : Shared; local : Local }.

Inductive SendRequest :=
| LockRefresh (deadline : option Z)
| Refresh (topics : list string) (deadline : option Z)
| Sleep (wait : Z) (deadline : option Z)
| LockTxn
| LockAccumulator (key : topic_partition)
| Acquire (permits wait : Z)
| Register (topic : string) (partition : Z).

(** [None] and [false] when the deadline or the timeout came first. *)
Definition SendAnswer (r : SendRequest) : Type :=
  match r with
  | LockRefresh _ | Sleep _ _ | Acquire _ _ => bool
  | Refresh _ _ => option (result ClientError.client_error ClusterMetadata)
  | LockTxn | LockAccumulator _ => unit
  | Register _ _ => result producer_error unit
  end.

#[export] Instance send_world : World := {|
  State := SendState; Common := Shared; common := shared;
  resume := λ st s, mkSendState s (local st);
  Request := SendRequest; Answer := SendAnswer |}.

Definition upd_shared (f : Shared → Shared) : async unit := writes (λ st, mkSendState (f (shared st)) (local st)).
Definition upd_local (f : Local → Local) : async unit := writes (λ st, mkSendState (shared st) (f (local st))).
Definition reads_shared {A} (f : Shared → A) : async A := reads (λ st, f (shared st)).

Definition set_meta (f : Meta → Meta) (s : Shared) : Shared :=
  mkShared (sh_now s) (f (sh_meta s)) (sh_partitioner s) (sh_accumulators s) (sh_free s) (sh_in_flight s)
    (sh_state s) (sh_txn s) (sh_next_channel s) (sh_wakes s).
Definition set_partitioner (b : BuiltInPartitioner) (s : Shared) : Shared :=
  mkShared (sh_now s) (sh_meta s) b (sh_accumulators s) (sh_free s) (sh_in_flight s)
    (sh_state s) (sh_txn s) (sh_next_channel s) (sh_wakes s).
Definition set_accumulator (key : topic_partition) (a : Accumulator) (s : Shared) : Shared :=
  mkShared (sh_now s) (sh_meta s) (sh_partitioner s) (<[key := a]> (sh_accumulators s)) (sh_free s)
    (sh_in_flight s) (sh_state s) (sh_txn s) (sh_next_channel s) (sh_wakes s).
Definition give_back (memory : option Z) (s : Shared) : Shared :=
  mkShared (sh_now s) (sh_meta s) (sh_partitioner s) (sh_accumulators s) (sh_free s + default 0 memory)
    (sh_in_flight s) (sh_state s) (sh_txn s) (sh_next_channel s) (sh_wakes s).
Definition set_txn (f : Producer Conn → Producer Conn) (s : Shared) : Shared :=
  mkShared (sh_now s) (sh_meta s) (sh_partitioner s) (sh_accumulators s) (sh_free s) (sh_in_flight s)
    (sh_state s) (f (sh_txn s)) (sh_next_channel s) (sh_wakes s).
Definition take_channel (s : Shared) : Shared :=
  mkShared (sh_now s) (sh_meta s) (sh_partitioner s) (sh_accumulators s) (sh_free s) (sh_in_flight s)
    (sh_state s) (sh_txn s) (S (sh_next_channel s)) (sh_wakes s).
Definition try_send (intent : DrainIntent) (s : Shared) : Shared :=
  mkShared (sh_now s) (sh_meta s) (sh_partitioner s) (sh_accumulators s) (sh_free s) (sh_in_flight s)
    (sh_state s) (sh_txn s) (sh_next_channel s) (sh_wakes s ++ [intent]).

Definition hold_refresh (b : bool) (l : Local) : Local :=
  mkLocal (lc_memory l) b (lc_txn_lock l) (lc_chosen l) (lc_appended l) (lc_draws l).
Definition hold_txn (b : bool) (l : Local) : Local :=
  mkLocal (lc_memory l) (lc_refresh_lock l) b (lc_chosen l) (lc_appended l) (lc_draws l).
Definition set_memory (m : option Z) (l : Local) : Local :=
  mkLocal m (lc_refresh_lock l) (lc_txn_lock l) (lc_chosen l) (lc_appended l) (lc_draws l).
Definition log_chosen (s : Shared) (l : Local) : Local :=
  mkLocal (lc_memory l) (lc_refresh_lock l) (lc_txn_lock l) (Some s) (lc_appended l) (lc_draws l).
Definition log_append (key : topic_partition) (channel : nat) (s : Shared) (l : Local) : Local :=
  mkLocal None (lc_refresh_lock l) (lc_txn_lock l) (lc_chosen l)
    (lc_appended l ++ [mkAppended key channel (lc_memory l) s]) (lc_draws l).
Definition draw (l : Local) : Local :=
  mkLocal (lc_memory l) (lc_refresh_lock l) (lc_txn_lock l) (lc_chosen l) (lc_appended l) (S (lc_draws l)).

Definition upd_topics (f : ProducerTopics → ProducerTopics) (m : Meta) : Meta :=
  mkMeta (mt_cache m) (mt_leaders m) (mt_racks m) (mt_generation m) (mt_last m) (f (mt_topics m)) (mt_used m).
Definition use_topic (topic : string) (now : Z) (m : Meta) : Meta :=
  mkMeta (mt_cache m) (mt_leaders m) (mt_racks m) (mt_generation m) (mt_last m) (mt_topics m)
    (<[topic := now]> (mt_used m)).
Definition learn_racks (response : ClusterMetadata) (m : Meta) : Meta :=
  mkMeta (mt_cache m) (mt_leaders m) (foldl (λ r b, <[b.1 := b.2]> r) (mt_racks m) (cm_racks response))
    (mt_generation m) (mt_last m) (mt_topics m) (mt_used m).
Definition set_last_response (last : option Refreshed) (m : Meta) : Meta :=
  mkMeta (mt_cache m) (mt_leaders m) (mt_racks m) (mt_generation m) last (mt_topics m) (mt_used m).
Definition next_generation (m : Meta) : Meta :=
  mkMeta (mt_cache m) (mt_leaders m) (mt_racks m) ((mt_generation m + 1) mod 2 ^ 64) (mt_last m)
    (mt_topics m) (mt_used m).

(** [MetadataWait::store]: the leaders of every entry of the topic, then the
    count and id. *)
Definition store (topic : string) (meta : CachedTopic) (response : ClusterMetadata) (m : Meta) : Meta :=
  let leaders :=
    foldl (λ ls e, if bool_decide (te_name e = Some topic)
                   then foldl (λ ls p, <[(topic, p.1) := p.2]> ls) ls (te_partitions e)
                   else ls) (mt_leaders m) (cm_topics response) in
  mkMeta (<[topic := meta]> (mt_cache m)) leaders (mt_racks m) (mt_generation m) (mt_last m) (mt_topics m)
    (mt_used m).

Definition some_of {A} (m : async A) : async (option A) := a ← m; mret (Some a).

(** ** The metadata wait *)

Record SendConfig := mkSendConfig {
  sc_transactional : bool;
  sc_max_block : Z;
  sc_retry_backoff : Z;
  sc_retry_backoff_max : Z;
  sc_instant_max : Z;
  sc_batch_size : Z;
  sc_max_request_size : Z;
  sc_total : Z;
  sc_poolable : Z;
  sc_linger : Z;
  sc_client_rack : option string;
}.

Context (c : SendConfig).

(** [refresh_producer_metadata], and [MetadataRefresh::send_refresh] around it.
    The guard of the lock is dropped with the future when the deadline comes
    first. *)
Definition send_refresh (deadline : option Z) (seen : Z) :
    async (option (result ClientError.client_error ClusterMetadata * Z)) :=
  topics ← reads_shared (λ s, next_request (mt_topics (sh_meta s)));
  answer ← wait (Refresh topics deadline);
  match answer with
  | None => upd_local (hold_refresh false);; mret None
  | Some (Ok response) =>
    upd_shared (set_meta (λ m, next_generation (set_last_response (Some (mkRefreshed topics response))
      (upd_topics (listed response) (learn_racks response m)))));;
    upd_local (hold_refresh false);;
    seen ← reads_shared (λ s, mt_generation (sh_meta s));
    mret (Some (Ok response, seen))
  | Some (Err error) =>
    upd_shared (set_meta (set_last_response None));;
    upd_local (hold_refresh false);;
    mret (Some (Err error, seen))
  end.

Definition newer_than (deadline : option Z) (seen : Z) (topic : string) :
    async (option (result ClientError.client_error ClusterMetadata * Z)) :=
  locked ← wait (LockRefresh deadline);
  if negb locked then mret None
  else
    upd_local (hold_refresh true);;
    current ← reads_shared (λ s, mt_generation (sh_meta s));
    last ← reads_shared (λ s, mt_last (sh_meta s));
    match last with
    | Some refreshed =>
      if negb (current =? seen) && bool_decide (topic ∈ rf_topics refreshed)
      then upd_local (hold_refresh false);; mret (Some (Ok (rf_response refreshed), current))
      else send_refresh deadline seen
    | None => send_refresh deadline seen
    end.

Definition covers (partition : option Z) (count : Z) : bool :=
  match partition with Some p => p <? count | None => true end.

Definition passed (deadline : option Z) (now : Z) : bool :=
  match deadline with Some d => d <=? now | None => false end.

Definition deadline_from (now : Z) : option Z :=
  if sc_instant_max c <? now + sc_max_block c then None else Some (now + sc_max_block c).

Definition next_wait (backoff : Z) : Z := Z.min (backoff * 2) (sc_retry_backoff_max c).

Fixpoint wait_for_topic (fuel : nat) (topic : string) (partition : option Z) (deadline : option Z)
    (known : option Z) (seen backoff : Z) : async (result producer_error Z) :=
  let timeout known := mret (Err (MetadataTimeout topic partition known (sc_max_block c))) in
  match fuel with
  | O => spent
  | S fuel =>
    let pause known seen :=
      slept ← wait (Sleep backoff deadline);
      if slept : bool then wait_for_topic fuel topic partition deadline known seen (next_wait backoff)
      else timeout known in
    now ← reads_shared sh_now;
    if passed deadline now then timeout known
    else
      answer ← newer_than deadline seen topic;
      match answer with
      | None => timeout known
      | Some (Ok response, seen) =>
        match lookup_topic response topic with
        | Known meta =>
          upd_shared (set_meta (store topic meta response));;
          let count := ct_num_partitions meta in
          if covers partition count then mret (Ok count) else pause (Some count) seen
        | Fatal code => mret (Err (Server code))
        | Unknown => pause known seen
        end
      | Some (Err error, seen) =>
        if stops_the_wait error then mret (Err (Client error)) else pause known seen
      end
  end.

(** [Producer::partition_count] with [MetadataWait::partition_count]. *)
Definition partition_count (fuel : nat) (topic : string) (partition : option Z) :
    async (result producer_error Z) :=
  now ← reads_shared sh_now;
  upd_shared (set_meta (use_topic topic now));;
  seen ← reads_shared (λ s, mt_generation (sh_meta s));
  known ← reads_shared (λ s, ct_num_partitions <$> mt_cache (sh_meta s) !! topic);
  let wait_here :=
    upd_shared (set_meta (upd_topics (add_topic topic)));;
    wait_for_topic fuel topic partition (deadline_from now) known seen (sc_retry_backoff c) in
  match known with
  | Some count => if covers partition count then mret (Ok count) else wait_here
  | None => wait_here
  end.

(** [MetadataWait::topic_ids], for one topic that is not in the cache. *)
Fixpoint await_topic (fuel : nat) (topic : string) (deadline : option Z) (seen backoff : Z) :
    async (result producer_error unit) :=
  let timeout := mret (Err (MetadataTimeout topic None None (sc_max_block c))) in
  match fuel with
  | O => spent
  | S fuel =>
    answer ← newer_than deadline seen topic;
    match answer with
    | None => timeout
    | Some (Ok response, _) =>
      match lookup_topic response topic with
      | Known meta => upd_shared (set_meta (store topic meta response));; mret (Ok ())
      | _ => mret (Ok ())
      end
    | Some (Err error, seen) =>
      if stops_the_wait error then mret (Err (Client error))
      else
        slept ← wait (Sleep backoff deadline);
        if slept : bool then await_topic fuel topic deadline seen (next_wait backoff) else timeout
    end
  end.

Fixpoint await_topics (fuel : nat) (topics : list string) (deadline : option Z) (first_seen : Z) :
    async (result producer_error unit) :=
  match topics with
  | [] => mret (Ok ())
  | topic :: topics =>
    _ ←! await_topic fuel topic deadline first_seen (sc_retry_backoff c);
    await_topics fuel topics deadline first_seen
  end.

Definition topic_ids (fuel : nat) (topics : list string) : async (result producer_error (gmap string Uuid)) :=
  first_seen ← reads_shared (λ s, mt_generation (sh_meta s));
  cache ← reads_shared (λ s, mt_cache (sh_meta s));
  let missing := filter (λ topic, cache !! topic = None) topics in
  upd_shared (set_meta (upd_topics (λ t, foldl (λ t topic, add_topic topic t) t missing)));;
  now ← reads_shared sh_now;
  _ ←! await_topics fuel missing (deadline_from now) first_seen;
  cache ← reads_shared (λ s, mt_cache (sh_meta s));
  mret (Ok (foldl (λ m topic, <[topic := match cache !! topic with Some t => ct_topic_id t | None => ZERO end]> m)
             ∅ topics)).

(** ** Idle topics *)

Definition idle_topics (max_idle now : Z) (m : Meta) : list string :=
  sort_by str_le (map_to_list (filter (λ e : string * Z, ¬ Z.max 0 (now - e.2) < max_idle) (mt_used m))).*1.

Definition accumulator_at (key : topic_partition) (s : Shared) : Accumulator :=
  default (Accumulator_new (sc_batch_size c)) (sh_accumulators s !! key).

Fixpoint any_queued (keys : list topic_partition) : async bool :=
  match keys with
  | [] => mret false
  | key :: keys =>
    wait (LockAccumulator key);;
    a ← reads_shared (accumulator_at key);
    if (0 <? queue_size a)%nat then mret true else any_queued keys
  end.

Definition has_queued_records (topic : string) : async bool :=
  keys ← reads_shared (λ s, filter (λ key : topic_partition, key.1 = topic) (map_to_list (sh_accumulators s)).*1);
  any_queued keys.

Fixpoint keep_queued (names : list string) : async unit :=
  match names with
  | [] => mret ()
  | topic :: names =>
    queued ← has_queued_records topic;
    (if queued : bool then now ← reads_shared sh_now; upd_shared (set_meta (use_topic topic now)) else mret ());;
    keep_queued names
  end.

(** The caches and the request topics without the expired ones; [alive] tells
    whether the producer still has its [MetadataRefresh]. *)
Definition drop_topics (alive : bool) (expired : list string) (m : Meta) : Meta :=
  mkMeta (filter (λ e : string * CachedTopic, e.1 ∉ expired) (mt_cache m))
    (filter (λ e : topic_partition * Z, e.1.1 ∉ expired) (mt_leaders m)) (mt_racks m) (mt_generation m)
    (mt_last m) (if alive then forget expired (mt_topics m) else mt_topics m) (mt_used m).

Definition remove_idle (expired : list string) (m : Meta) : Meta :=
  mkMeta (mt_cache m) (mt_leaders m) (mt_racks m) (mt_generation m) (mt_last m) (mt_topics m)
    (filter (λ e : string * Z, e.1 ∉ expired) (mt_used m)).

Definition expire_idle_topics (max_idle : Z) (in_flight alive : bool) : async unit :=
  if in_flight then mret ()
  else
    names ← reads_shared (λ s, sort_by str_le (map_to_list (mt_used (sh_meta s))).*1);
    keep_queued names;;
    expired ← reads_shared (λ s, idle_topics max_idle (sh_now s) (sh_meta s));
    upd_shared (set_meta (λ m, drop_topics alive expired (remove_idle expired m))).

(** ** The buffer memory *)

Definition allocate (size max_time_to_block : Z) : async (result producer_error Z) :=
  if (size <=? u32_max) && (size <=? sc_total c) then
    granted ← wait (Acquire size max_time_to_block);
    if granted : bool then upd_local (set_memory (Some size));; mret (Ok size)
    else
      free ← reads_shared sh_free;
      mret (Err (BufferExhausted size max_time_to_block (sc_total c) free (sc_poolable c)))
  else
    mret (Err (InvalidConfig ("Attempt to allocate " ++ fmt_int size ++ " bytes, but there is a hard limit of " ++
                              fmt_int (sc_total c) ++ " on memory allocations."))).

(** ** The sticky partition of a topic *)

(** The random numbers that the partitioner draws, and the wall clock. *)
Context (random : nat → Z) (wall_clock : Z → Z).

Definition has_leader_in (m : Meta) (topic : string) (partition : Z) : bool :=
  match mt_leaders m !! (topic, partition) with Some leader => 0 <=? leader | None => false end.

Definition topic_partitions (m : Meta) (topic : string) (count : Z) : TopicPartitions :=
  mkTopicPartitions count (has_leader_in m topic).

Definition leader_rack_in (m : Meta) (topic : string) (partition : Z) : option string :=
  match mt_leaders m !! (topic, partition) with
  | Some leader => if leader <? 0 then None else mjoin (mt_racks m !! leader)
  | None => None
  end.

Definition rack_preference (s : Shared) (topic : string) : option RackPreference :=
  match sc_client_rack c with
  | Some rack =>
    if rack_aware (config (sh_partitioner s))
    then Some (mkRackPreference (leader_rack_in (sh_meta s) topic) rack) else None
  | None => None
  end.

Definition peek_sticky (topic : string) (count : Z) : async StickyPartition :=
  st ← reads id;
  let s := shared st in
  let '(sticky, b) := peek_inner (sh_partitioner s) topic (topic_partitions (sh_meta s) topic count)
                        (rack_preference s topic) (random (lc_draws (local st))) in
  upd_shared (set_partitioner b);; upd_local draw;; mret sticky.

Definition update_sticky (topic : string) (sticky : StickyPartition) (appended count : Z) (enable_switch : bool) :
    async unit :=
  st ← reads id;
  let s := shared st in
  upd_shared (set_partitioner (update_inner (sh_partitioner s) topic sticky appended
    (topic_partitions (sh_meta s) topic count) enable_switch (rack_preference s topic)
    (random (lc_draws (local st)))));;
  upd_local draw.

Definition sticky_partition_changed (topic : string) (sticky : option StickyPartition) (key : topic_partition)
    (count : Z) : async bool :=
  match sticky with
  | None => mret false
  | Some sticky =>
    b ← reads_shared sh_partitioner;
    if is_changed b topic sticky then mret true
    else
      a ← reads_shared (accumulator_at key);
      if all_batches_full a then
        update_sticky topic sticky 0 count true;;
        b ← reads_shared sh_partitioner;
        mret (is_changed b topic sticky)
      else mret false
  end.

(** ** [enqueue] *)

Record ProducerRecord := mkRecord {
  r_topic : string;
  r_partition : option Z;
  r_key : option bytes;
  r_value : option bytes;
  r_headers : list Header;
  r_timestamp_ms : option Z;
}.

Definition validate (r : ProducerRecord) : result producer_error () :=
  match r_timestamp_ms r with
  | Some t => if t <? 0 then Err (InvalidTimestamp t) else
    match r_partition r with Some p => if p <? 0 then Err (InvalidPartition p) else Ok () | None => Ok () end
  | None =>
    match r_partition r with Some p => if p <? 0 then Err (InvalidPartition p) else Ok () | None => Ok () end
  end.

Definition is_active (s : Shared) : result producer_error () :=
  if sh_state s =? STATE_ACTIVE then Ok ()
  else if sh_state s =? STATE_FENCED then Err FencedProducer
  else Err Closed.

Definition record_size_limit (serialized_size : Z) : option record_size_limit :=
  if sc_max_request_size c <? serialized_size then Some (MaxRequestSize (sc_max_request_size c))
  else if sc_total c <? serialized_size then Some BufferMemory
  else None.

Record PartitionInfo := mkPartitionInfo {
  pi_partition : Z;
  pi_leader_id : option Z;
  pi_leader_rack : option string;
}.

Definition partition_infos (m : Meta) (topic : string) (count : Z) : list PartitionInfo * list PartitionInfo :=
  let all := (λ partition,
    let leader_id := match mt_leaders m !! (topic, partition) with
                     | Some leader => if 0 <=? leader then Some leader else None
                     | None => None
                     end in
    mkPartitionInfo partition leader_id (leader_id ≫= λ id, mjoin (mt_racks m !! id))) <$> seqZ 0 count in
  (filter (λ i, is_Some (pi_leader_id i)) all, all).

(** The custom partitioner of the application. *)
Context (custom : option (string → option bytes → option bytes → list PartitionInfo → list PartitionInfo → Z)).

(** The partition that the record names, the custom partitioner picks or the
    key has; [None] when the key hash panics on an empty topic. *)
Definition fixed_partition (s : Shared) (r : ProducerRecord) (count : Z) :
    option (result producer_error (option Z)) :=
  match r_partition r with
  | Some p => Some (Ok (Some p))
  | None =>
    match custom with
    | Some partitioner =>
      let '(available, all) := partition_infos (sh_meta s) (r_topic r) count in
      let picked := partitioner (r_topic r) (r_key r) (r_value r) available all in
      Some (if picked <? 0 then Err (InvalidPartitionerResult picked) else Ok (Some picked))
    | None => Ok <$> keyed_partition (sh_partitioner s) (r_key r) count
    end
  end.

(** An early return drops what the send holds. *)
Definition bail {A} (e : producer_error) : async (result producer_error A) :=
  st ← reads id;
  upd_shared (give_back (lc_memory (local st)));;
  upd_local (λ l, hold_refresh false (hold_txn false (set_memory None l)));;
  mret (Err e).

Definition lock_state : async (option TxnState) :=
  if sc_transactional c then
    wait LockTxn;;
    state ← reads_shared (λ s, txn_state (sh_txn s));
    mret (Some state)
  else mret None.

Definition held_state (s : Shared) : option TxnState :=
  if sc_transactional c then Some (txn_state (sh_txn s)) else None.

(** The first half of a round: the memory of a record that starts a batch.
    [Ok false] starts the round again. *)
Definition reserve (r : ProducerRecord) (count record_size remaining : Z) (sticky : option StickyPartition)
    (key : topic_partition) : async (result producer_error bool) :=
  state ← lock_state;
  p ← reads_shared sh_txn;
  match append_transaction_generation p state with
  | Err e => mret (Err e)
  | Ok expected_generation =>
    wait (LockAccumulator key);;
    changed ← sticky_partition_changed (r_topic r) sticky key count;
    if changed : bool then mret (Ok false)
    else
      a ← reads_shared (accumulator_at key);
      if needs_new_batch a record_size expected_generation then
        (if match ac_current a with Some b => negb (is_empty b) | None => false end
         then upd_shared (λ s, try_send DrainReady (set_accumulator key (seal_current a) s)) else mret ());;
        _ ←! allocate (Z.max (sc_batch_size c) record_size) remaining;
        mret (Ok true)
      else mret (Ok true)
  end.

(** [register_transaction_partition] in a send, which holds the state lock. *)
Definition register (generation : option Z) (topic : string) (partition : Z) : async (result producer_error ()) :=
  match generation with
  | None => mret (Ok ())
  | Some _ =>
    registered ← wait (Register topic partition);
    match registered with
    | Ok _ => mret (Ok ())
    | Err e =>
      upd_shared (set_txn (λ p, match fatal (txn_error p) with
                                | Some f => set_state (FatalError_state f) p
                                | None => p
                                end));;
      mret (Err e)
    end
  end.

Definition wake_sender_after_append (wakes : bool) : async unit :=
  if sc_linger c =? 0 then upd_shared (try_send DrainForce)
  else if wakes then upd_shared (try_send DrainReady) else mret ().

(** The append itself, with the accumulator locked. *)
Definition append_now (r : ProducerRecord) (count record_size timestamp : Z) (sticky : option StickyPartition)
    (key : topic_partition) (generation : option Z) : async (result producer_error nat) :=
  st ← reads id;
  let s := shared st in
  let channel := sh_next_channel s in
  let '(a, appended, unused) :=
    append (accumulator_at key s) (r_key r) (r_value r) (r_headers r) timestamp generation
      (lc_memory (local st)) (sh_now s) channel in
  upd_shared (λ s, give_back unused (take_channel (set_accumulator key a s)));;
  upd_local (log_append key channel s);;
  match sticky with
  | Some sticky => update_sticky (r_topic r) sticky record_size count (all_batches_full a)
  | None => mret ()
  end;;
  upd_local (hold_txn false);;
  wake_sender_after_append (wakes_sender appended);;
  mret (Ok (receiver appended)).

(** The second half of a round: [None] starts the round again. *)
Definition append_round (r : ProducerRecord) (count record_size timestamp : Z) (sticky : option StickyPartition)
    (key : topic_partition) : async (option (result producer_error nat)) :=
  _ ← lock_state;
  upd_local (hold_txn (sc_transactional c));;
  s ← reads_shared id;
  match append_transaction_generation (sh_txn s) (held_state s) with
  | Err e => some_of (bail e)
  | Ok generation =>
    registered ← register generation key.1 key.2;
    match registered with
    | Err e => some_of (bail e)
    | Ok _ =>
      wait (LockAccumulator key);;
      s ← reads_shared id;
      match append_transaction_generation (sh_txn s) (held_state s) with
      | Err e => some_of (bail e)
      | Ok generation' =>
        if bool_decide (generation' ≠ generation) then some_of (bail RecoveryRequired)
        else
          changed ← sticky_partition_changed (r_topic r) sticky key count;
          st ← reads id;
          if changed || (bool_decide (lc_memory (local st) = None) &&
                         needs_new_batch (accumulator_at key (shared st)) record_size generation)
          then upd_local (hold_txn false);; mret None
          else match is_active (shared st) with
          | Err e => some_of (bail e)
          | Ok _ => some_of (append_now r count record_size timestamp sticky key generation)
          end
      end
    end
  end.

Fixpoint enqueue_rounds (fuel : nat) (r : ProducerRecord) (count record_size timestamp remaining : Z)
    (fixed : option Z) : async (result producer_error nat) :=
  match fuel with
  | O => spent
  | S fuel =>
    sticky ← match fixed with
             | Some _ => mret None
             | None => some_of (peek_sticky (r_topic r) count)
             end;
    let partition := match fixed, sticky with
                     | Some p, _ => p
                     | None, Some s => sticky_partition s
                     | None, None => 0
                     end in
    let key := (r_topic r, partition) in
    upd_shared (λ s, set_accumulator key (accumulator_at key s) s);;
    memory ← reads (λ st, lc_memory (local st));
    reserved ← match memory with
               | Some _ => mret (Ok true)
               | None => reserve r count record_size remaining sticky key
               end;
    match reserved with
    | Err e => bail e
    | Ok false => enqueue_rounds fuel r count record_size timestamp remaining fixed
    | Ok true =>
      appended ← append_round r count record_size timestamp sticky key;
      match appended with
      | Some result => mret result
      | None => enqueue_rounds fuel r count record_size timestamp remaining fixed
      end
    end
  end.

Definition enqueue_inner (fuel rounds : nat) (r : ProducerRecord) : async (result producer_error nat) :=
  s ← reads_shared id;
  _ ←! mret (validate r);
  _ ←! mret (is_active s);
  if sc_transactional c && txn_recovery_required (sh_txn s) then mret (Err RecoveryRequired)
  else
    state ← lock_state;
    s ← reads_shared id;
    _ ←! mret (if sc_transactional c then append_transaction_generation (sh_txn s) state else Ok None);
    metadata_started ← reads_shared sh_now;
    count ←! partition_count fuel (r_topic r) (r_partition r);
    s ← reads_shared id;
    upd_local (log_chosen s);;
    match fixed_partition s r count with
    | None => spent
    | Some fixed =>
      fixed ←! mret fixed;
      let remaining := Z.max 0 (sc_max_block c - (sh_now s - metadata_started)) in
      let serialized_size := record_size_upper_bound (r_key r) (r_value r) (r_headers r) in
      match record_size_limit serialized_size with
      | Some limit => mret (Err (RecordTooLarge serialized_size limit))
      | None =>
        let record_size := approx_record_size (r_key r) (r_value r) (r_headers r) in
        let timestamp := default (wall_clock (sh_now s)) (r_timestamp_ms r) in
        enqueue_rounds rounds r count record_size timestamp remaining fixed
      end
    end.
End send.
