(* ===== verification/ProducerSendTheorems.v ===== *)
(** * Theorems on the send path

    What a send does to the shared producer at its awaits and in its result,
    whatever other tasks do there. *)

From S2P Require Import Prelude Bytes Text Errors Sender Accumulator Partitioner Async TxnState TxnProducer ProducerSend.
Import ProducerError.

(** ** Memory *)

Definition batch_memory (b : InProgressBatch) : Z := default 0 (ib_memory b).
Definition sum_memory (l : list InProgressBatch) : Z := foldr (λ b n, batch_memory b + n) 0 l.
Definition acc_memory (a : Accumulator) : Z := sum_memory (queued a).
Definition queued_memory (m : gmap topic_partition Accumulator) : Z := map_fold (λ _ a n, acc_memory a + n) 0 m.

Lemma sum_memory_app l k : sum_memory (l ++ k) = sum_memory l + sum_memory k.
Proof. induction l as [|b l IH]; simpl; [done|]. rewrite IH. lia. Qed.

Lemma queued_memory_insert (m : gmap topic_partition Accumulator) k a :
  queued_memory (<[k := a]> m) = queued_memory m - match m !! k with Some b => acc_memory b | None => 0 end + acc_memory a.
Proof.
  assert (∀ m : gmap topic_partition Accumulator, ∀ a, m !! k = None →
    queued_memory (<[k := a]> m) = acc_memory a + queued_memory m) as Hnew.
  { intros m' a' Hk. unfold queued_memory. rewrite map_fold_insert_L; [done|intros; lia|done]. }
  destruct (m !! k) as [b|] eqn:Hk; [|rewrite Hnew by done; lia].
  rewrite <- (insert_id m k b Hk) at 2. rewrite <- (insert_delete_eq m k a), <- (insert_delete_eq m k b).
  rewrite !Hnew by apply lookup_delete_eq. lia.
Qed.

Lemma append_memory a key value headers ts g memory now channel a' res unused :
  append a key value headers ts g memory now channel = (a', res, unused) →
  acc_memory a' + default 0 unused = acc_memory a + default 0 memory.
Proof.
  unfold append. intros Ha.
  destruct (ac_current a) as [b|] eqn:Ec; [destruct (needs_new_batch _ _ _)|]; injection Ha as <- _ <-;
    unfold acc_memory, queued; rewrite Ec; simpl; rewrite ?sum_memory_app; simpl; unfold batch_memory; simpl; lia.
Qed.

Lemma seal_memory a b : ac_current a = Some b → is_empty b = false → acc_memory (seal_current a) = acc_memory a.
Proof.
  intros Hc He. unfold acc_memory, queued, seal_current. rewrite Hc, He. simpl. by rewrite app_nil_r.
Qed.

(** Steps without an await, on the parts of the state. *)
Ltac steps := unfold upd_local, upd_shared, reads_shared; cbn beta; safe_pure; cbn [shared local id].

Section send.
Context {Uuid Conn : Type} (ZERO : Uuid).
Notation Shared := (@Shared Uuid Conn).
Notation SendState := (@SendState Uuid Conn).
Notation SendAnswer := (@SendAnswer Uuid).
Context (c : SendConfig) (random : nat → Z) (wall_clock : Z → Z).
Context (custom : option (string → option bytes → option bytes → list PartitionInfo → list PartitionInfo → Z)).

Definition pool_bytes (s : Shared) : Z := sh_free s + queued_memory (sh_accumulators s) + sh_in_flight s.

(** ** What other tasks may do at an await

    Time does not run back, and a wait that ends early ends at its deadline;
    bytes leave the pool only for a granted request; the configuration of the
    partitioner stays, and the cache never counts a topic without partitions. *)

Definition counted (s : Shared) : Prop :=
  ∀ topic meta, mt_cache (sh_meta s) !! topic = Some meta → 0 < ct_num_partitions meta.

Definition timely (r : SendRequest) (ans : SendAnswer r) (before after : Z) : Prop :=
  let late deadline := match deadline with Some d => d ≤ after | None => False end in
  match r return SendAnswer r → Prop with
  | LockRefresh deadline => λ locked, locked = false → late deadline
  | Refresh _ deadline => λ answer, answer = None → late deadline
  | Sleep wait deadline => λ slept, if slept : bool then before + wait ≤ after else late deadline
  | _ => λ _, True
  end ans.

Definition granted (r : SendRequest) (ans : SendAnswer r) : Z :=
  match r return SendAnswer r → Z with
  | Acquire permits _ => λ granted, if granted : bool then permits else 0
  | _ => λ _, 0
  end ans.

Record others (r : SendRequest) (st : SendState) (ans : SendAnswer r) (s : Shared) : Prop := {
  others_now : sh_now (shared st) ≤ sh_now s;
  others_timely : timely r ans (sh_now (shared st)) (sh_now s);
  others_memory : pool_bytes s + granted r ans = pool_bytes (shared st);
  others_config : config (sh_partitioner s) = config (sh_partitioner (shared st));
  others_counted : counted (shared st) → counted s;
}.

Definition E : @env (@send_world Uuid Conn) := λ r st ans s, others r st ans s.

Lemma send_await I L (r : SendRequest) (st : SendState) (Q : SendAnswer r → SendState → Prop) :
  I st → (∀ ans s, others r st ans s → Q ans (mkSendState s (local st))) →
  safe (W := @send_world Uuid Conn) E I L (wait (W := @send_world Uuid Conn) r st) Q.
Proof. intros HI Hk. split; [done|]. intros ans s HE. by apply Hk. Qed.

(** ** The metadata wait *)

(** What a wait for metadata leaves alone. *)
Record unmoved (st0 st : SendState) : Prop := {
  unmoved_memory : pool_bytes (shared st) = pool_bytes (shared st0);
  unmoved_local : lc_memory (local st) = lc_memory (local st0);
  unmoved_appended : lc_appended (local st) = lc_appended (local st0);
  unmoved_txn : lc_txn_lock (local st) = lc_txn_lock (local st0);
  unmoved_now : sh_now (shared st0) ≤ sh_now (shared st);
  unmoved_config : config (sh_partitioner (shared st)) = config (sh_partitioner (shared st0));
  unmoved_counted : counted (shared st0) → counted (shared st);
}.

Lemma unmoved_refl st : unmoved st st.
Proof. by split. Qed.
Lemma unmoved_trans st0 st1 st2 : unmoved st0 st1 → unmoved st1 st2 → unmoved st0 st2.
Proof. intros [] []. split; auto; congruence || lia. Qed.

(** An await that asks for no memory. *)
Lemma unmoved_resume st0 st r (ans : SendAnswer r) s :
  unmoved st0 st → others r st ans s → granted r ans = 0 → unmoved st0 (mkSendState s (local st)).
Proof. intros [] [? _ Hm Hc Hk] Hg. split; simpl; [lia|done..|lia|congruence|auto]. Qed.

(** Writes to the metadata and to the locks of the refresh. *)
Ltac unmoved_by H :=
  split; [exact (unmoved_memory _ _ H)|exact (unmoved_local _ _ H)|exact (unmoved_appended _ _ H)
         |exact (unmoved_txn _ _ H)|exact (unmoved_now _ _ H)|exact (unmoved_config _ _ H)
         |exact (unmoved_counted _ _ H)].

Lemma newer_than_safe st0 deadline seen topic st (Q : _ → SendState → Prop) L :
  unmoved st0 st →
  (∀ st', unmoved st0 st' → (match deadline with Some d => d ≤ sh_now (shared st') | None => False end) → Q None st') →
  (∀ r seen st', unmoved st0 st' → sh_now (shared st) ≤ sh_now (shared st') → Q (Some (r, seen)) st') →
  safe E (unmoved st0) L (newer_than deadline seen topic st) Q.
Proof.
  intros Hst Hlate Hans.
  assert (∀ st1, unmoved st0 st1 → sh_now (shared st) ≤ sh_now (shared st1) →
    safe E (unmoved st0) L (send_refresh deadline seen st1) Q) as Hsend.
  { intros st1 H1 Hn1. unfold send_refresh. steps. split; [done|]. intros ans s HE.
    pose proof (unmoved_resume st0 st1 _ ans s H1 HE eq_refl) as H2.
    destruct HE as [Hn Ht _]. simpl in Hn, Ht.
    destruct ans as [[response|e]|]; steps; simpl.
    - apply Hans; [|simpl; lia]. unmoved_by H2.
    - apply Hans; [|simpl; lia]. unmoved_by H2.
    - apply Hlate; [unmoved_by H2|]. simpl. by apply Ht. }
  unfold newer_than. steps. split; [done|]. intros locked s HE.
  pose proof (unmoved_resume st0 st _ locked s Hst HE eq_refl) as H1.
  destruct HE as [Hn Ht _]. simpl in Hn, Ht.
  destruct locked; simpl; steps.
  2: { apply Hlate; [done|]. simpl. by apply Ht. }
  cbn [shared local].
  destruct (mt_last (sh_meta s)) as [refreshed|];
    [match goal with |- context [if ?b then _ else _] => destruct b end|].
  - steps. apply Hans; [|simpl; lia]. unmoved_by H1.
  - apply Hsend; [|simpl; lia]. unmoved_by H1.
  - apply Hsend; [|simpl; lia]. unmoved_by H1.
Qed.

(** What the result of a metadata wait says. *)
Definition wait_result (topic : string) (partition : option Z) (deadline : option Z)
    (r : result producer_error Z) (st : SendState) : Prop :=
  match r with
  | Ok count => ∃ meta, mt_cache (sh_meta (shared st)) !! topic = Some meta ∧
                  ct_num_partitions meta = count ∧ covers partition count = true
  | Err (MetadataTimeout t p _ w) =>
    t = topic ∧ p = partition ∧ w = sc_max_block c ∧
    match deadline with Some d => d ≤ sh_now (shared st) | None => False end
  | Err (Server code) => code ∈ [INVALID_TOPIC_EXCEPTION; TOPIC_AUTHORIZATION_FAILED]
  | Err (Client error) => stops_the_wait error = true
  | Err _ => False
  end.

Lemma lookup_topic_fatal (response : @ClusterMetadata Uuid) topic code :
  lookup_topic response topic = Fatal code → code ∈ [INVALID_TOPIC_EXCEPTION; TOPIC_AUTHORIZATION_FAILED].
Proof.
  unfold lookup_topic. destruct (entry_of response topic) as [e|]; [|done].
  destruct (te_error_code e =? METADATA_NONE).
  - destruct (i32_try_from _) as [n|]; [|done]. by destruct (0 <? n).
  - case_bool_decide; [|done]. intros [= <-]. done.
Qed.

Lemma lookup_topic_count (response : @ClusterMetadata Uuid) topic meta :
  lookup_topic response topic = Known meta → 0 < ct_num_partitions meta.
Proof.
  unfold lookup_topic. destruct (entry_of response topic) as [e|]; [|done].
  destruct (te_error_code e =? METADATA_NONE).
  - destruct (i32_try_from _) as [n|]; [|done]. destruct (Z.ltb_spec 0 n); [|done]. intros [= <-]. done.
  - by case_bool_decide.
Qed.

Lemma unmoved_store st0 st topic meta response :
  lookup_topic response topic = Known meta → unmoved st0 st →
  unmoved st0 (mkSendState (set_meta (store topic meta response) (shared st)) (local st)).
Proof.
  intros Hl H. pose proof (lookup_topic_count _ _ _ Hl) as Hn.
  destruct H as [H1 H2 H3 H4 H5 H6 H7]. split; try done. intros H0 t m. simpl. specialize (H7 H0).
  destruct (decide (t = topic)) as [->|Hne].
  - rewrite lookup_insert_eq. by intros [= <-].
  - rewrite lookup_insert_ne by done. apply H7.
Qed.

Lemma wait_for_topic_safe st0 L fuel topic partition deadline known seen backoff st :
  1 ≤ backoff → 1 ≤ sc_retry_backoff_max c → unmoved st0 st →
  L ∨ (∃ d, deadline = Some d ∧ Z.max 0 (d - sh_now (shared st)) < Z.of_nat fuel) →
  safe E (unmoved st0) L (wait_for_topic c fuel topic partition deadline known seen backoff st)
    (λ r st', unmoved st0 st' ∧ wait_result topic partition deadline r st').
Proof.
  intros Hb Hmax. revert known seen backoff Hb st.
  induction fuel as [|fuel IH]; intros known seen backoff Hb st Hst Hf.
  { destruct Hf as [HL|(d & _ & ?)]; [exact HL|lia]. }
  cbn [wait_for_topic]. steps. destruct (passed deadline (sh_now (shared st))) eqn:Hp; steps.
  { split; [done|]. destruct deadline as [d|]; [|done]. apply Z.leb_le in Hp. split_and!; [done..|exact Hp]. }
  apply newer_than_safe; [done| |].
  { intros st' H1 Hd. steps. split; [done|]. simpl. done. }
  intros r seen' st1 H1 Hn1.
  assert (∀ known st2, unmoved st0 st2 → sh_now (shared st) ≤ sh_now (shared st2) →
    safe E (unmoved st0) L ((slept ← wait (W := @send_world Uuid Conn) (Sleep backoff deadline);
      if slept : bool then wait_for_topic c fuel topic partition deadline known seen' (next_wait c backoff)
      else mret (Err (MetadataTimeout topic partition known (sc_max_block c)))) st2)
      (λ r st', unmoved st0 st' ∧ wait_result topic partition deadline r st')) as Hpause.
  { intros known' st2 H2 Hn2. steps. split; [done|]. intros slept s HE.
    pose proof (unmoved_resume st0 st2 _ slept s H2 HE eq_refl) as H3.
    destruct HE as [Hn Ht _]. simpl in Hn, Ht. destruct slept; simpl in Ht; steps.
    - apply IH; [unfold next_wait; lia|done|]. destruct Hf as [HL|(d & -> & Hf)]; [by left|right].
      exists d. split; [done|]. apply Z.leb_gt in Hp. simpl. lia.
    - split; [done|]. simpl. done. }
  destruct r as [response|error].
  - destruct (lookup_topic response topic) as [meta|code|] eqn:El.
    + steps. assert (unmoved st0 (mkSendState (set_meta (store topic meta response) (shared st1)) (local st1)))
        as H2 by (eapply unmoved_store; done).
      destruct (covers partition (ct_num_partitions meta)) eqn:Ec.
      * steps. split; [done|]. exists meta. split; [apply lookup_insert_eq|done].
      * apply Hpause; [done|simpl; lia].
    + steps. split; [done|]. by eapply lookup_topic_fatal.
    + by apply Hpause.
  - destruct (stops_the_wait error) eqn:Es; [steps; by split|]. by apply Hpause.
Qed.

Lemma partition_count_safe st0 L fuel topic partition :
  1 ≤ sc_retry_backoff c → 1 ≤ sc_retry_backoff_max c →
  L ∨ (sh_now (shared st0) + sc_max_block c ≤ sc_instant_max c ∧ 0 ≤ sc_max_block c < Z.of_nat fuel) →
  safe E (unmoved st0) L (partition_count c fuel topic partition st0)
    (λ r st', unmoved st0 st' ∧ wait_result topic partition (deadline_from c (sh_now (shared st0))) r st').
Proof.
  intros Hb Hmax Hf. unfold partition_count. steps. set (dl := deadline_from c (sh_now (shared st0))).
  set (st1 := mkSendState (set_meta (use_topic topic (sh_now (shared st0))) (shared st0)) (local st0)).
  assert (unmoved st0 st1) as H1 by (pose proof (unmoved_refl st0) as H0; unmoved_by H0).
  change (mt_cache (sh_meta (set_meta (use_topic topic (sh_now (shared st0))) (shared st0))))
    with (mt_cache (sh_meta (shared st0))).
  assert (∀ known seen, safe E (unmoved st0) L
    ((upd_shared (Uuid := Uuid) (Conn := Conn) (set_meta (upd_topics (add_topic topic)));;
      wait_for_topic c fuel topic partition dl known seen (sc_retry_backoff c)) st1)
    (λ r st', unmoved st0 st' ∧ wait_result topic partition dl r st')) as Hw.
  { intros known seen. steps. apply wait_for_topic_safe; [done|done|unmoved_by H1|].
    destruct Hf as [HL|[Hi Hf]]; [by left|right]. unfold dl, deadline_from.
    destruct (Z.ltb_spec (sc_instant_max c) (sh_now (shared st0) + sc_max_block c)); [lia|].
    eexists. split; [done|]. simpl. lia. }
  destruct (mt_cache (sh_meta (shared st0)) !! topic) as [meta|] eqn:Ec; cbn [fmap option_fmap option_map]; [|apply Hw].
  destruct (covers partition (ct_num_partitions meta)) eqn:Ecov; [|apply Hw].
  steps. split; [done|]. by exists meta.
Qed.

(** ** The time of the metadata wait

    An await with a deadline ends at the deadline, or at once when that has
    passed, and the task runs again at most [slack] later. *)

Definition deadline_of (r : SendRequest) : option Z :=
  match r with LockRefresh d | Refresh _ d | Sleep _ d => d | _ => None end.

Definition punctual (slack : Z) : @env (@send_world Uuid Conn) := λ r st ans s,
  others r st ans s ∧ ∀ d, deadline_of r = Some d → sh_now s ≤ Z.max (sh_now (shared st)) d + slack.

Definition by_time (t : Z) {A} : A → SendState → Prop := λ _ st, sh_now (shared st) ≤ t.

Section time.
Context (slack d : Z) (Hslack : 0 ≤ slack).
Notation anywhere := (λ _, True).

(** At most two awaits follow each other here, each with the deadline. *)
Lemma newer_than_time seen topic st :
  sh_now (shared st) ≤ d →
  safe (punctual slack) anywhere True (newer_than (Some d) seen topic st) (by_time (d + 2 * slack)).
Proof using Hslack.
  intros Hst.
  assert (∀ st1, sh_now (shared st1) ≤ d + slack →
    safe (punctual slack) anywhere True (send_refresh (Some d) seen st1) (by_time (d + 2 * slack))) as Hsend.
  { intros st1 H1. unfold send_refresh. steps. split; [done|]. intros ans s [_ HE].
    specialize (HE d eq_refl). simpl in HE.
    destruct ans as [[response|e]|]; steps; unfold by_time; simpl; lia. }
  unfold newer_than. steps. split; [done|]. intros locked s [_ HE]. specialize (HE d eq_refl). simpl in HE.
  destruct locked; simpl; steps; [|unfold by_time; simpl; lia].
  cbn [shared local].
  destruct (mt_last (sh_meta s)) as [refreshed|];
    [match goal with |- context [if ?b then _ else _] => destruct b end|].
  - steps. unfold by_time. simpl. lia.
  - apply Hsend. simpl. lia.
  - apply Hsend. simpl. lia.
Qed.

Lemma wait_for_topic_time fuel topic partition known seen backoff st :
  sh_now (shared st) ≤ d + 3 * slack →
  safe (punctual slack) anywhere True (wait_for_topic c fuel topic partition (Some d) known seen backoff st)
    (by_time (d + 3 * slack)).
Proof using Hslack.
  revert known seen backoff st. induction fuel as [|fuel IH]; intros known seen backoff st Hst; [done|].
  cbn [wait_for_topic]. steps. destruct (passed (Some d) (sh_now (shared st))) eqn:Hp; steps; [exact Hst|].
  apply Z.leb_gt in Hp.
  eapply safe_mono; [|apply newer_than_time; lia]. unfold by_time at 1. intros r st1 H1.
  assert (∀ known seen st2, sh_now (shared st2) ≤ d + 2 * slack → safe (punctual slack) anywhere True
    ((slept ← wait (W := @send_world Uuid Conn) (Sleep backoff (Some d));
      if slept : bool then wait_for_topic c fuel topic partition (Some d) known seen (next_wait c backoff)
      else mret (Err (MetadataTimeout topic partition known (sc_max_block c)))) st2) (by_time (d + 3 * slack)))
    as Hpause.
  { intros known' seen' st2 H2. steps. split; [done|]. intros slept s [_ HE]. specialize (HE d eq_refl). simpl in HE.
    destruct slept; steps; [apply IH|unfold by_time]; simpl; lia. }
  assert (∀ A (a : A), by_time (d + 3 * slack) a st1) as Hnow by (intros; unfold by_time; lia).
  destruct r as [[[response|error] seen']|]; [| |by steps].
  - destruct (lookup_topic response topic) as [meta|code|]; [|by steps|by apply Hpause].
    steps. destruct (covers _ _); [steps; apply (Hnow _ ())|by apply Hpause].
  - destruct (stops_the_wait error); [by steps|by apply Hpause].
Qed.
End time.

Lemma partition_count_time slack fuel topic partition st :
  0 ≤ slack → sh_now (shared st) + sc_max_block c ≤ sc_instant_max c → 0 ≤ sc_max_block c →
  safe (punctual slack) (λ _, True) True (partition_count c fuel topic partition st)
    (by_time (sh_now (shared st) + sc_max_block c + 3 * slack)).
Proof.
  intros Hs Hi Hb. unfold partition_count. steps.
  assert (deadline_from c (sh_now (shared st)) = Some (sh_now (shared st) + sc_max_block c)) as ->.
  { unfold deadline_from. destruct (Z.ltb_spec (sc_instant_max c) (sh_now (shared st) + sc_max_block c)); [lia|done]. }
  match goal with |- context [match ?o with Some _ => _ | None => _ end] => destruct o as [count|] end;
    [destruct (covers partition count)|]; steps; [unfold by_time; simpl; lia|..];
    (apply wait_for_topic_time; [done|simpl; lia]).
Qed.

(** ** A send *)

Context (total : Z).

Section rounds.
(** What is known of the state in which the partition was chosen. *)
Context (chosen : option Shared → Prop).

(** While a send runs, its reservation and the pool add up, and it has appended
    nothing. *)
Record owned (st : SendState) : Prop := {
  owned_memory : pool_bytes (shared st) + default 0 (lc_memory (local st)) = total;
  owned_appended : lc_appended (local st) = [];
  owned_chosen : chosen (lc_chosen (local st));
}.

(** After it, it holds nothing. *)
Record released (st : SendState) : Prop := {
  released_memory : pool_bytes (shared st) = total;
  released_reservation : lc_memory (local st) = None;
  released_lock : lc_txn_lock (local st) = false;
}.

(** Writes to the sticky partition only. *)
Record only_sticky (st st' : SendState) : Prop := {
  os_now : sh_now (shared st') = sh_now (shared st);
  os_accumulators : sh_accumulators (shared st') = sh_accumulators (shared st);
  os_pool : pool_bytes (shared st') = pool_bytes (shared st);
  os_state : sh_state (shared st') = sh_state (shared st);
  os_txn : sh_txn (shared st') = sh_txn (shared st);
  os_channel : sh_next_channel (shared st') = sh_next_channel (shared st);
  os_memory : lc_memory (local st') = lc_memory (local st);
  os_appended : lc_appended (local st') = lc_appended (local st);
  os_lock : lc_txn_lock (local st') = lc_txn_lock (local st);
  os_chosen : lc_chosen (local st') = lc_chosen (local st);
}.

Lemma only_sticky_owned st st' : only_sticky st st' → owned st → owned st'.
Proof. intros [] []. split; congruence. Qed.

Notation changed := (sticky_partition_changed c random).

Lemma sticky_changed_safe topic sticky key count st I L (Q : bool → SendState → Prop) :
  (∀ b st', only_sticky st st' →
    (b = false → ∀ s, sticky = Some s → is_changed (sh_partitioner (shared st')) topic s = false) → Q b st') →
  safe E I L (changed topic sticky key count st) Q.
Proof.
  intros HQ. unfold sticky_partition_changed. destruct sticky as [s|]; steps.
  - destruct (is_changed (sh_partitioner (shared st)) topic s) eqn:Ec; steps; [by apply HQ|].
    destruct (all_batches_full _); unfold update_sticky; steps; apply HQ; try done; intros ? ? [= <-]; done.
  - by apply HQ.
Qed.

Lemma owned_resume st r (ans : SendAnswer r) s :
  owned st → others r st ans s → granted r ans = 0 → owned (mkSendState s (local st)).
Proof. intros [Hm Ha] [_ _ Ho] Hg. split; simpl; [lia|done..]. Qed.

(** The reservation of this send, when it has one. *)
Definition memory_ok (size : Z) (st : SendState) : Prop :=
  ∀ m, lc_memory (local st) = Some m → m = Z.max (sc_batch_size c) size.

Lemma lock_state_safe st L (Q : option TxnState → SendState → Prop) :
  owned st → (∀ o s, owned (mkSendState s (local st)) → Q o (mkSendState s (local st))) →
  safe E owned L (lock_state c st) Q.
Proof.
  intros Ho HQ. unfold lock_state. destruct (sc_transactional c); steps.
  - split; [done|]. intros ans s HE. steps. apply HQ. by apply (owned_resume st LockTxn ans).
  - destruct st as [s l]. by apply HQ.
Qed.

Lemma set_accumulator_pool key a s :
  pool_bytes (set_accumulator key a s) = pool_bytes s - acc_memory (accumulator_at c key s) + acc_memory a.
Proof.
  unfold pool_bytes, set_accumulator, accumulator_at. simpl. rewrite queued_memory_insert.
  destruct (sh_accumulators s !! key); simpl; [lia|]. unfold acc_memory, queued. simpl. lia.
Qed.

Lemma allocate_safe size remaining st L (Q : result producer_error Z → SendState → Prop) :
  owned st → lc_memory (local st) = None →
  (∀ e st', owned st' → lc_memory (local st') = None → lc_txn_lock (local st') = lc_txn_lock (local st) → Q (Err e) st') →
  (∀ m st', owned st' → lc_memory (local st') = Some size → lc_txn_lock (local st') = lc_txn_lock (local st) → Q (Ok m) st') →
  safe E owned L (allocate c size remaining st) Q.
Proof.
  intros Ho Hm Herr Hok. unfold allocate. destruct (_ && _); steps; [|by apply Herr].
  split; [done|]. intros ans s HE. steps. destruct Ho as [Hpool Ha Hch], HE as [_ _ Hg]. simpl in Hg.
  rewrite Hm in Hpool. simpl in Hpool. destruct ans; steps.
  - apply (Hok size); [|done..]. split; simpl; [lia|done..].
  - apply Herr; [|done..]. split; simpl; [rewrite Hm; simpl; lia|done..].
Qed.

Lemma reserve_safe r count size remaining sticky key st L (Q : result producer_error bool → SendState → Prop) :
  owned st → lc_memory (local st) = None → lc_txn_lock (local st) = false →
  (∀ e st', owned st' → lc_txn_lock (local st') = false → Q (Err e) st') →
  (∀ b st', owned st' → memory_ok size st' → lc_txn_lock (local st') = false → Q (Ok b) st') →
  safe E owned L (reserve c random r count size remaining sticky key st) Q.
Proof.
  intros Ho Hm Hl Herr Hok. unfold reserve. steps. apply lock_state_safe; [done|]. intros o s1 H1. steps.
  destruct (append_transaction_generation (sh_txn s1) o) as [expected|e]; steps; [|by apply Herr].
  apply send_await; [done|]. intros ans s2 HE. pose proof (owned_resume _ _ ans s2 H1 HE eq_refl) as H2. clear HE. steps.
  apply sticky_changed_safe. intros b st3 Hs _. pose proof (only_sticky_owned _ _ Hs H2) as H3.
  assert (lc_memory (local st3) = None) as Hm3 by (by rewrite (os_memory _ _ Hs)).
  assert (lc_txn_lock (local st3) = false) as Hl3 by (by rewrite (os_lock _ _ Hs)).
  assert (memory_ok size st3) as Hk3 by (intros m; congruence).
  destruct b; steps; [by apply Hok|].
  set (a := accumulator_at c key (shared st3)).
  destruct (needs_new_batch a size expected); steps; [|by apply Hok].
  assert (∀ st4, owned st4 → lc_memory (local st4) = None → lc_txn_lock (local st4) = false →
    safe E owned L (allocate c (Z.max (sc_batch_size c) size) remaining st4)
      (λ r st', match r with Ok _ => safe E owned L (Ret (Ok true) st') Q | Err e => Q (Err e) st' end)) as Hal.
  { intros st4 H4 Hm4 Hl4. apply allocate_safe; [done|done| |].
    - intros e st5 H5 _ Hl5. apply Herr; [done|congruence].
    - intros m st5 H5 Hm5 Hl5. apply Hok; [done| |congruence]. intros m'. rewrite Hm5. by intros [= <-]. }
  destruct (ac_current a) as [b|] eqn:Hc; [destruct (is_empty b) eqn:He|]; simpl; steps; [by apply Hal| |by apply Hal].
  apply Hal; [|done..]. destruct H3 as [Hp Ha Hch]. split; [|done..]. simpl.
  change (pool_bytes (try_send DrainReady (set_accumulator key (seal_current a) (shared st3))))
    with (pool_bytes (set_accumulator key (seal_current a) (shared st3))).
  rewrite set_accumulator_pool. fold a. rewrite (seal_memory a b Hc He). lia.
Qed.

Lemma bail_safe {A} e st L (Q : result producer_error A → SendState → Prop) :
  owned st →
  (∀ st', released st' → lc_appended (local st') = [] → Q (Err e) st') →
  safe E owned L (bail e st) Q.
Proof.
  intros [Hm Ha] HQ. unfold bail. steps. apply HQ; [|done]. split; simpl; [|done..].
  unfold pool_bytes in *. simpl. lia.
Qed.

(** The partition to which the record goes in the state [s]: the given one, or
    the sticky partition that the topic has there. *)
Definition goes_to (s : Shared) (topic : string) (fixed : option Z) (partition : Z) : Prop :=
  match fixed with
  | Some p => partition = p
  | None => ∃ current produced, (topics (sh_partitioner s) !! topic) ≫= sticky = Some (current, produced) ∧
              sticky_partition current = partition
  end.

(** The generation of a record that may be appended in the state [s]: without
    transactions none, else that of a transaction that is open and has no
    error. *)
Definition in_generation (s : Shared) (generation : option Z) : Prop :=
  txn_recovery_required (sh_txn s) = false ∧
  if sc_transactional c then
    txn_state (sh_txn s) = InTransaction ∧ fatal (txn_error (sh_txn s)) = None ∧
    abortable (txn_error (sh_txn s)) = None ∧ generation = Some (txn_recovery_generation (sh_txn s))
  else generation = None.

Lemma generation_read s generation :
  append_transaction_generation (sh_txn s) (held_state c s) = Ok generation → in_generation s generation.
Proof.
  unfold append_transaction_generation, held_state, in_generation, transaction_generation,
    transaction_error_state, fatal_error_state, abortable_error_state.
  destruct (sc_transactional c); [|by destruct (txn_recovery_required _) eqn:?; [|intros [= <-]]].
  destruct (fatal _); [done|]. destruct (abortable _); [done|]. simpl.
  destruct (txn_recovery_required _) eqn:?; [done|]. destruct (txn_state _); try done. by intros [= <-].
Qed.

Lemma sticky_read b topic sticky_p :
  is_changed b topic sticky_p = false → ∃ produced, (topics b !! topic) ≫= sticky = Some (sticky_p, produced).
Proof.
  unfold is_changed. destruct (topics b !! topic ≫= sticky) as [[current n]|]; [|done].
  case_bool_decide; [|done]. subst. by exists n.
Qed.

Lemma active_read (s : Shared) : is_active s = Ok () → sh_state s = STATE_ACTIVE.
Proof. unfold is_active. destruct (Z.eqb_spec (sh_state s) STATE_ACTIVE); [done|]. by destruct (_ =? _). Qed.

(** What the send appended: in the state [s0], one record to one accumulator. *)
Record appended_ok (r : ProducerRecord) (fixed : option Z) (size ts : Z) (channel : nat) (st : SendState)
    (s0 : Shared) (partition : Z) (generation memory : option Z) : Prop := {
  ap_once : lc_appended (local st) = [mkAppended (r_topic r, partition) channel memory s0];
  ap_partition : goes_to s0 (r_topic r) fixed partition;
  ap_active : sh_state s0 = STATE_ACTIVE;
  ap_generation : in_generation s0 generation;
  ap_memory : needs_new_batch (accumulator_at c (r_topic r, partition) s0) size generation = true →
              memory = Some (Z.max (sc_batch_size c) size);
  ap_number : channel = sh_next_channel s0;
  ap_append : sh_accumulators (shared st) = <[(r_topic r, partition) :=
    (append (accumulator_at c (r_topic r, partition) s0) (r_key r) (r_value r) (r_headers r) ts generation
       memory (sh_now s0) channel).1.1]> (sh_accumulators s0);
}.

Definition send_result (r : ProducerRecord) (fixed : option Z) (size ts : Z) (res : result producer_error nat)
    (st : SendState) : Prop :=
  released st ∧
  match res with
  | Ok channel =>
    chosen (lc_chosen (local st)) ∧
    ∃ s0 partition generation memory, appended_ok r fixed size ts channel st s0 partition generation memory
  | Err _ => lc_appended (local st) = []
  end.

Lemma append_now_safe r fixed count size ts sticky partition generation st L Q :
  owned st → memory_ok size st → sh_state (shared st) = STATE_ACTIVE → in_generation (shared st) generation →
  (lc_memory (local st) = None →
   needs_new_batch (accumulator_at c (r_topic r, partition) (shared st)) size generation = false) →
  goes_to (shared st) (r_topic r) fixed partition →
  (∀ res st', send_result r fixed size ts res st' → Q res st') →
  safe E owned L (append_now c random r count size ts sticky (r_topic r, partition) generation st) Q.
Proof.
  intros [Hm Ha Hwhen] Hk Hact Hgen Hneed Hpart HQ. unfold append_now. steps.
  destruct (append _ _ _ _ _ _ _ _ _) as [[a' res] unused] eqn:Eap.
  pose proof (append_memory _ _ _ _ _ _ _ _ _ _ _ _ Eap) as Hmem.
  assert (receiver res = sh_next_channel (shared st)) as Hch.
  { pose proof (append_cases (accumulator_at c (r_topic r, partition) (shared st)) (r_key r) (r_value r)
      (r_headers r) ts generation (lc_memory (local st)) (sh_now (shared st)) (sh_next_channel (shared st))) as Hc.
    cbv zeta in Hc. rewrite Eap in Hc. tauto. }
  set (s1 := give_back unused (take_channel (set_accumulator (r_topic r, partition) a' (shared st)))).
  assert (pool_bytes s1 = total) as Hpool.
  { assert (pool_bytes s1 = pool_bytes (set_accumulator (r_topic r, partition) a' (shared st)) + default 0 unused)
      as -> by (unfold pool_bytes; simpl; lia).
    rewrite set_accumulator_pool. lia. }
  assert (∀ st', pool_bytes (shared st') = pool_bytes s1 → sh_accumulators (shared st') = sh_accumulators s1 →
    lc_memory (local st') = None → lc_txn_lock (local st') = false → lc_chosen (local st') = lc_chosen (local st) →
    lc_appended (local st') =
      [mkAppended (r_topic r, partition) (sh_next_channel (shared st)) (lc_memory (local st)) (shared st)] →
    Q (Ok (receiver res)) st') as Hdone.
  { intros st' Hp Hacc Hm' Hl' Hc' Hap. apply HQ. split; [by split; [congruence|..]|].
    split; [by rewrite Hc'|]. exists (shared st), partition, generation, (lc_memory (local st)). rewrite Hch. split; try done.
    - intros Hn. destruct (lc_memory (local st)) as [m|] eqn:El; [|by rewrite Hneed in Hn].
      f_equal. by apply Hk.
    - rewrite Hacc, Eap. done. }
  assert (∀ st', pool_bytes (shared st') = pool_bytes s1 → sh_accumulators (shared st') = sh_accumulators s1 →
    lc_memory (local st') = None → lc_txn_lock (local st') = false → lc_chosen (local st') = lc_chosen (local st) →
    lc_appended (local st') =
      [mkAppended (r_topic r, partition) (sh_next_channel (shared st)) (lc_memory (local st)) (shared st)] →
    safe E owned L (wake_sender_after_append c (wakes_sender res) st')
      (λ _ st', Q (Ok (receiver res)) st')) as Hend.
  { intros st' Hp Hacc Hm' Hl' Hc' Hap. unfold wake_sender_after_append.
    destruct (sc_linger c =? 0); [|destruct (wakes_sender res)]; steps; by apply Hdone. }
  steps. destruct sticky as [s|]; unfold update_sticky; steps; (apply Hend; [done..|]); simpl; by rewrite Ha.
Qed.

(** ** The rounds *)

Lemma append_round_safe r fixed count size ts sticky partition st L (Q : option (result producer_error nat) → SendState → Prop) :
  owned st → memory_ok size st →
  match fixed with
  | Some p => partition = p
  | None => ∃ s, sticky = Some s ∧ sticky_partition s = partition
  end →
  (∀ st', owned st' → memory_ok size st' → lc_txn_lock (local st') = false → Q None st') →
  (∀ res st', send_result r fixed size ts res st' → Q (Some res) st') →
  safe E owned L (append_round c random r count size ts sticky (r_topic r, partition) st) Q.
Proof.
  intros Ho Hk Hp Hnone Hsome. unfold append_round.
  assert (∀ e st', owned st' → safe E owned L (some_of (bail e) st') Q) as Hbail.
  { intros e st' H'. unfold some_of. steps. apply bail_safe; [done|]. intros st2 Hr Ha. steps. apply Hsome. by split. }
  steps. apply lock_state_safe; [done|]. intros o s1 H1. steps.
  set (l1 := hold_txn (sc_transactional c) (local st)).
  assert (owned (mkSendState s1 l1)) as H1' by (by destruct H1). clear H1.
  destruct (append_transaction_generation (sh_txn s1) (held_state c s1)) as [generation|e]; [|by apply Hbail]. steps.
  assert (∀ s2, owned (mkSendState s2 l1) → safe E owned L
    ((wait (W := @send_world Uuid Conn) (LockAccumulator (r_topic r, partition));;
      s ← reads_shared id;
      match append_transaction_generation (sh_txn s) (held_state c s) with
      | Err e => some_of (bail e)
      | Ok generation' =>
        if bool_decide (generation' ≠ generation) then some_of (bail RecoveryRequired)
        else
          changed ← sticky_partition_changed c random (r_topic r) sticky (r_topic r, partition) count;
          st ← reads id;
          if changed || (bool_decide (lc_memory (local st) = None) &&
                         needs_new_batch (accumulator_at c (r_topic r, partition) (shared st)) size generation)
          then upd_local (hold_txn false);; mret None
          else match is_active (shared st) with
          | Err e => some_of (bail e)
          | Ok _ => some_of (append_now c random r count size ts sticky (r_topic r, partition) generation)
          end
      end) (mkSendState s2 l1)) Q) as Hrest.
  { intros s2 H2. steps. apply send_await; [done|]. intros ans s3 HE.
    pose proof (owned_resume _ _ ans s3 H2 HE eq_refl) as H3. clear HE. steps.
    destruct (append_transaction_generation (sh_txn s3) (held_state c s3)) as [generation'|e] eqn:Eg; [|by apply Hbail].
    case_bool_decide as Hg; [by apply Hbail|]. steps. apply sticky_changed_safe. intros b st4 Hs Hb.
    pose proof (only_sticky_owned _ _ Hs H3) as H4.
    assert (memory_ok size st4) as Hk4 by (intros m; rewrite (os_memory _ _ Hs); apply Hk).
    steps. destruct (b || _) eqn:Eb; steps.
    { apply Hnone; [by destruct H4|done|done]. }
    apply orb_false_iff in Eb as [-> Eneed].
    destruct (is_active (shared st4)) as [[]|e] eqn:Eact; [|by apply Hbail].
    unfold some_of. steps. apply (append_now_safe r fixed); try done.
    - by apply active_read.
    - assert (generation' = generation) as <- by (by destruct (decide (generation' = generation))).
      apply generation_read. unfold held_state in *. by rewrite (os_txn _ _ Hs).
    - intros Hn. rewrite bool_decide_true in Eneed by done. done.
    - destruct fixed as [p|]; [done|]. destruct Hp as (s & -> & <-).
      destruct (sticky_read _ _ _ (Hb eq_refl s eq_refl)) as [n Hn]. by exists s, n. }
  unfold register. destruct generation as [g|]; steps; [|by apply Hrest].
  apply send_await; [done|]. intros ans s2 HE.
  pose proof (owned_resume _ _ ans s2 H1' HE eq_refl) as H2. clear HE.
  destruct ans as [[]|e]; steps; [by apply Hrest|]. apply Hbail. by destruct H2.
Qed.

Lemma enqueue_rounds_safe fuel r fixed count size ts remaining st :
  owned st → memory_ok size st → lc_txn_lock (local st) = false →
  safe E owned True (enqueue_rounds c random fuel r count size ts remaining fixed st) (send_result r fixed size ts).
Proof.
  revert st. induction fuel as [|fuel IH]; intros st Ho Hk Hl; [done|]. cbn [enqueue_rounds]. steps.
  assert (∀ st1 sticky partition, owned st1 → memory_ok size st1 → lc_txn_lock (local st1) = false →
    match fixed with Some p => partition = p | None => ∃ s, sticky = Some s ∧ sticky_partition s = partition end →
    safe E owned True
      ((upd_shared (Uuid := Uuid) (Conn := Conn) (λ s, set_accumulator (r_topic r, partition) (accumulator_at c (r_topic r, partition) s) s);;
        memory ← reads (W := @send_world Uuid Conn) (λ st, lc_memory (local st));
        reserved ← match memory with
                   | Some _ => mret (Ok true)
                   | None => reserve c random r count size remaining sticky (r_topic r, partition)
                   end;
        match reserved with
        | Err e => bail e
        | Ok false => enqueue_rounds c random fuel r count size ts remaining fixed
        | Ok true =>
          appended ← append_round c random r count size ts sticky (r_topic r, partition);
          match appended with
          | Some result => mret result
          | None => enqueue_rounds c random fuel r count size ts remaining fixed
          end
        end) st1) (send_result r fixed size ts)) as Hround.
  { intros st1 sticky partition H1 Hk1 Hl1 Hp. steps.
    set (st2 := mkSendState _ (local st1)).
    assert (owned st2) as H2.
    { destruct H1 as [Hm Ha Hch]. split; [|done..]. unfold st2. simpl. rewrite set_accumulator_pool. lia. }
    assert (∀ st3, owned st3 → memory_ok size st3 →
      safe E owned True (append_round c random r count size ts sticky (r_topic r, partition) st3)
        (λ appended st', safe E owned True ((match appended with Some result => mret result
           | None => enqueue_rounds c random fuel r count size ts remaining fixed end) st')
          (send_result r fixed size ts))) as Happ.
    { intros st3 H3 Hk3. eapply append_round_safe; [done|done|exact Hp| |].
      - intros st4 H4 Hk4 Hl4. by apply IH.
      - intros res st4 Hres. steps. exact Hres. }
    destruct (lc_memory (local st1)) as [m|] eqn:Em; steps; [by apply Happ|].
    apply reserve_safe; [done|done|done| |].
    - intros e st3 H3 Hl3. apply bail_safe; [done|]. intros st4 Hr Ha. by split.
    - intros [] st3 H3 Hk3 Hl3; [steps; by apply Happ|]. by apply IH. }
  destruct fixed as [p|].
  - exact (Hround st None p Ho Hk Hl eq_refl).
  - unfold some_of, peek_sticky. steps. destruct (peek_inner _ _ _ _ _) as [s b] eqn:Ep.
    refine (Hround (mkSendState (set_partitioner b (shared st)) (draw (local st))) (Some s) (sticky_partition s)
      _ Hk Hl (ex_intro _ s (conj eq_refl eq_refl))). by destruct Ho.
Qed.

End rounds.

(** The partition that is fixed for a record when the metadata counts [count]
    partitions of its topic: the one it names, which is one of them; the one
    that the custom partitioner picks; or the one of its key. *)
Definition partition_fixed (s : Shared) (r : ProducerRecord) (count : Z) (fixed : option Z) : Prop :=
  match r_partition r, custom, r_key r with
  | Some p, _, _ => fixed = Some p ∧ 0 ≤ p < count
  | None, Some partitioner, _ =>
    let '(available, all) := partition_infos (sh_meta s) (r_topic r) count in
    ∃ p, partitioner (r_topic r) (r_key r) (r_value r) available all = p ∧ 0 ≤ p ∧ fixed = Some p
  | None, None, Some key =>
    if ignore_keys (config (sh_partitioner s)) then fixed = None
    else ∃ p, partition_for_key key count = Some p ∧ fixed = Some p
  | None, None, None => fixed = None
  end.

Lemma fixed_partition_read s r count fixed :
  validate r = Ok () → covers (r_partition r) count = true → fixed_partition custom s r count = Some (Ok fixed) →
  partition_fixed s r count fixed.
Proof.
  unfold validate, covers, fixed_partition, partition_fixed, keyed_partition. intros Hv Hc Hf.
  destruct (r_partition r) as [p|].
  - injection Hf as <-. split; [done|]. apply Z.ltb_lt in Hc.
    destruct (Z.ltb_spec p 0); [|lia]. destruct (r_timestamp_ms r) as [t|]; [destruct (t <? 0)|]; done.
  - destruct custom as [f|].
    + destruct (partition_infos _ _ _) as [available all]. injection Hf as Hf.
      destruct (Z.ltb_spec (f (r_topic r) (r_key r) (r_value r) available all) 0); [done|].
      injection Hf as <-. by eexists.
    + destruct (r_key r) as [key|]; [|by injection Hf as <-].
      destruct (ignore_keys _); [by injection Hf as <-|].
      destruct (partition_for_key key count) as [p|]; [|done]. injection Hf as <-. by exists p.
Qed.

(** The result of a send: an error and no trace of it, or one record in one
    accumulator, chosen with metadata that has the partition. *)
Definition enqueued (r : ProducerRecord) (res : result producer_error nat) (st : SendState) : Prop :=
  released st ∧
  match res with
  | Err _ => lc_appended (local st) = []
  | Ok channel =>
    ∃ (s1 : Shared) meta fixed s0 partition generation memory,
      lc_chosen (local st) = Some s1 ∧
      mt_cache (sh_meta s1) !! r_topic r = Some meta ∧
      partition_fixed s1 r (ct_num_partitions meta) fixed ∧
      record_size_upper_bound (r_key r) (r_value r) (r_headers r) ≤ Z.min (sc_max_request_size c) (sc_total c) ∧
      appended_ok r fixed (approx_record_size (r_key r) (r_value r) (r_headers r))
        (default (wall_clock (sh_now s1)) (r_timestamp_ms r)) channel st s0 partition generation memory
  end.

Definition any_choice : option Shared → Prop := λ _, True.

Lemma size_limit_read size : ProducerSend.record_size_limit c size = None → size ≤ Z.min (sc_max_request_size c) (sc_total c).
Proof.
  unfold ProducerSend.record_size_limit.
  destruct (Z.ltb_spec (sc_max_request_size c) size); [done|]. destruct (Z.ltb_spec (sc_total c) size); [done|]. lia.
Qed.

(** The send once it knows how many partitions the topic has. *)
Lemma chosen_safe rounds r count meta st started :
  validate r = Ok () → released st → lc_appended (local st) = [] →
  mt_cache (sh_meta (shared st)) !! r_topic r = Some meta → ct_num_partitions meta = count →
  covers (r_partition r) count = true →
  safe E (owned any_choice) True
    ((s ← reads_shared id;
      upd_local (log_chosen s);;
      match fixed_partition custom s r count with
      | None => spent
      | Some fixed =>
        fixed ←! mret fixed;
        let remaining := Z.max 0 (sc_max_block c - (sh_now s - started)) in
        let serialized_size := record_size_upper_bound (r_key r) (r_value r) (r_headers r) in
        match ProducerSend.record_size_limit c serialized_size with
        | Some limit => mret (Err (RecordTooLarge serialized_size limit))
        | None =>
          let record_size := approx_record_size (r_key r) (r_value r) (r_headers r) in
          let timestamp := default (wall_clock (sh_now s)) (r_timestamp_ms r) in
          enqueue_rounds c random rounds r count record_size timestamp remaining fixed
        end
      end) st) (enqueued r).
Proof.
  intros Hv [Hr Hm Hl] Ha Hc Hn Hcov. steps.
  set (st1 := mkSendState (shared st) (log_chosen (shared st) (local st))).
  assert (∀ e, enqueued r (Err e) st1) as Herr by (intros e; by split).
  destruct (fixed_partition custom (shared st) r count) as [[fixed|e]|] eqn:Ef; steps; [|by apply Herr|done].
  destruct (ProducerSend.record_size_limit c _) eqn:Esize; steps; [by apply Herr|].
  eapply safe_weaken; [| |eapply safe_mono; [|apply (enqueue_rounds_safe (eq (Some (shared st))))]]; [|done| |..].
  - intros st' [Hm' Ha' _]. by split.
  - intros res st' [Hr' Hres]. split; [done|]. destruct res as [channel|e]; [|done].
    destruct Hres as (Hch & s0 & partition & generation & memory & Hap).
    exists (shared st), meta, fixed, s0, partition, generation, memory. rewrite Hn. split_and!; [done|done| | |done].
    + by apply fixed_partition_read.
    + by apply size_limit_read.
  - split; [|done..]. simpl. rewrite Hm. simpl. lia.
  - intros m. simpl. by rewrite Hm.
  - done.
Qed.

Lemma enqueue_inner_safe fuel rounds r st :
  1 ≤ sc_retry_backoff c → 1 ≤ sc_retry_backoff_max c →
  pool_bytes (shared st) = total → lc_memory (local st) = None → lc_appended (local st) = [] →
  lc_txn_lock (local st) = false →
  safe E (owned any_choice) True (enqueue_inner c random wall_clock custom fuel rounds r st) (enqueued r).
Proof.
  intros Hb Hmax Hpool Hm Ha Hl. unfold enqueue_inner. steps.
  assert (∀ e st', released st' → lc_appended (local st') = [] → enqueued r (Err e) st') as Herr by (intros; by split).
  assert (released st) as Hr by (by split).
  assert (owned any_choice st) as Ho by (split; [rewrite Hm; simpl; lia|done..]).
  destruct (validate r) as [[]|e] eqn:Ev; [|by apply Herr]. steps.
  destruct (is_active (shared st)) as [[]|e]; [|by apply Herr]. steps.
  destruct (sc_transactional c && _); steps; [by apply Herr|].
  apply lock_state_safe; [done|]. intros o s1 H1. steps.
  assert (released (mkSendState s1 (local st))) as Hr1.
  { destruct H1 as [H1 _]. simpl in H1. rewrite Hm in H1. simpl in H1. split; [simpl; lia|done..]. }
  destruct (if sc_transactional c then _ else _) as [g|e]; steps; [|by apply Herr].
  eapply safe_mono; [|eapply safe_weaken; [| |apply (partition_count_safe _ True); [done|done|by left]]];
    [|intros st' [Hp' Hm' Ha' _ _]; simpl in Hp', Hm', Ha'; destruct H1 as [H1 _]; simpl in H1;
      split; [by rewrite Hp', Hm'|congruence|done]|done].
  intros [count|e] st2 [[Hp2 Hm2 Ha2 Hl2 _] Hres]; simpl in Hp2, Hm2, Ha2, Hl2.
  all: assert (released st2) as Hr2 by (destruct Hr1 as [Hr1 _ _]; simpl in Hr1; split; congruence).
  - destruct Hres as (meta & Hc & Hn & Hcov). eapply chosen_safe; try done. congruence.
  - apply Herr; [done|congruence].
Qed.
End send.

(** ** Properties *)

(** C2: whatever other tasks do at its awaits, a send appends its record
    exactly once or not at all.  At every await it has appended nothing and the
    bytes of its reservation are missing from the pool and nowhere else.  With
    an error it leaves no record and no reservation.  With a result exactly one
    record went to one accumulator.  When the send looked for a partition, the
    metadata counted the partitions of the topic, and the record goes to the
    one it names, which is one of them, to the one that the custom partitioner
    picked or to the one of its key, or else to the partition that is the
    topic's sticky one in the very state in which the record is appended.  In
    that state the producer is active and, with transactions, in an open
    transaction without an error, whose generation the record carries; and a
    batch that the record started holds the memory of a batch. *)
Theorem send_appends_once {Uuid Conn} (c : SendConfig) random wall_clock custom fuel rounds r
    (st : @SendState Uuid Conn) :
  1 ≤ sc_retry_backoff c → 1 ≤ sc_retry_backoff_max c →
  lc_memory (local st) = None → lc_appended (local st) = [] → lc_txn_lock (local st) = false →
  (∀ st', seen E (enqueue_inner c random wall_clock custom fuel rounds r st) st' →
     owned (pool_bytes (shared st)) any_choice st') ∧
  (∀ res st', results E (enqueue_inner c random wall_clock custom fuel rounds r st) res st' →
     enqueued c wall_clock custom (pool_bytes (shared st)) r res st').
Proof.
  intros Hb Hmax Hm Ha Hl.
  pose proof (enqueue_inner_safe c random wall_clock custom (pool_bytes (shared st)) fuel rounds r st
    Hb Hmax eq_refl Hm Ha Hl) as Hs.
  split; [intros st'; by eapply safe_seen|intros res st'; by eapply safe_results].
Qed.

(** C38: the metadata wait of a send ends whatever the brokers and other sends
    do.  It returns a partition count only when the cache holds it and it covers
    the partition that the record names, a server error only for a topic that is
    invalid or not authorized, a client error only when it stops the wait, and a
    timeout only at the deadline; it leaves the memory of the pool alone.  When
    a task runs again at most [slack] after the deadline of its await, the wait
    ends within [max_block] and three times that. *)
Theorem metadata_wait_ends {Uuid Conn} (c : SendConfig) fuel topic partition slack (st : @SendState Uuid Conn) :
  1 ≤ sc_retry_backoff c → 1 ≤ sc_retry_backoff_max c → 0 ≤ slack →
  sh_now (shared st) + sc_max_block c ≤ sc_instant_max c → 0 ≤ sc_max_block c < Z.of_nat fuel →
  finishes E (partition_count c fuel topic partition st) ∧
  (∀ res st', results E (partition_count c fuel topic partition st) res st' →
    unmoved st st' ∧ wait_result c topic partition (deadline_from c (sh_now (shared st))) res st') ∧
  (∀ res st', results (punctual slack) (partition_count c fuel topic partition st) res st' →
    sh_now (shared st') ≤ sh_now (shared st) + sc_max_block c + 3 * slack).
Proof.
  intros Hb Hmax Hs Hi Hf. rewrite assoc by apply _. split.
  - apply (safe_complete E (unmoved st)). apply (partition_count_safe c st False); [done|done|by right].
  - intros res st'. pose proof (partition_count_time c slack fuel topic partition st Hs Hi (proj1 Hf)) as Ht.
    exact (safe_results _ _ _ _ _ _ _ Ht).
Qed.

(** A keyed record of a cached topic, on an empty pool of 1000 bytes; and a
    wait for a topic whose metadata comes with the second response. *)
Definition example_config : SendConfig :=
  mkSendConfig false 100 10 40 1000000 64 500 1000 64 0 None.

Definition example_producer : Producer unit :=
  mkProducer (mkTxnConfig None 60000 false 1000 10 100) Uninitialized false 0 0 None (-1, -1) TxnErrorSlot_default false None ∅.

Definition example_send : @SendState Z unit :=
  mkSendState
    (mkShared 5
       (mkMeta {["orders" := mkCached 3 7]} {[("orders", 0) := 1; ("orders", 1) := 2; ("orders", 2) := 1]} ∅ 0 None
          (mkProducerTopics ∅ ∅) ∅)
       (BuiltInPartitioner_new PartitionerConfig_default) ∅ 1000 0 STATE_ACTIVE example_producer 0 [])
    (mkLocal None false false None [] 0).

Definition example_record : ProducerRecord :=
  mkRecord "orders" None (Some (as_bytes "k")) (Some (as_bytes "value")) [] (Some 12).

Definition tick (n : Z) (s : @Shared Z unit) : Shared :=
  mkShared (sh_now s + Z.max 0 n) (sh_meta s) (sh_partitioner s) (sh_accumulators s) (sh_free s) (sh_in_flight s)
    (sh_state s) (sh_txn s) (sh_next_channel s) (sh_wakes s).
Definition grant (n : Z) (s : @Shared Z unit) : Shared :=
  mkShared (sh_now s) (sh_meta s) (sh_partitioner s) (sh_accumulators s) (sh_free s - n) (sh_in_flight s)
    (sh_state s) (sh_txn s) (sh_next_channel s) (sh_wakes s).

Definition example_response (now : Z) : @ClusterMetadata Z :=
  mkClusterMetadata
    [mkTopicEntry (Some "new") (if now <? 10 then 5 else 0) 9 [(0, 1); (1, 2)]] [(1, Some "rack")].

Definition example_oracle (r : SendRequest) (st : @SendState Z unit) : @SendAnswer Z r * @Shared Z unit :=
  match r return @SendAnswer Z r * @Shared Z unit with
  | LockRefresh _ => (true, shared st)
  | Refresh _ _ => (Some (Ok (example_response (sh_now (shared st)))), shared st)
  | Sleep n deadline =>
    let left := default n (deadline ≫= λ d, Some (d - sh_now (shared st))) in
    if n <=? left then (true, tick n (shared st)) else (false, tick left (shared st))
  | LockTxn => (tt, shared st)
  | LockAccumulator _ => (tt, shared st)
  | Acquire n _ => (true, grant n (shared st))
  | Register _ _ => (Ok tt, shared st)
  end.

Lemma example_oracle_ok r st : E r st (example_oracle r st).1 (example_oracle r st).2.
Proof.
  destruct r as [| |n deadline| | | |]; try (split; simpl; try done; try lia; unfold pool_bytes; simpl; lia).
  destruct deadline as [d|]; simpl;
    (match goal with |- context [n <=? ?m] => destruct (Z.leb_spec n m) end; split; simpl in *; try done;
     try lia; unfold pool_bytes; simpl; lia).
Qed.

Definition example_run : proc (result producer_error nat) :=
  play (W := @send_world Z unit) example_oracle (λ _, true) 10
    (enqueue_inner example_config (λ _, 0) id None 5 3 example_record example_send).
Definition example_wait : proc (result producer_error Z) :=
  play (W := @send_world Z unit) example_oracle (λ _, true) 10
    (partition_count example_config 101 "new" (Some 1) example_send).

Definition returned {W : World} {A} (m : proc A) : option A := match m with Ret a _ => Some a | _ => None end.

Lemma returned_ret {W : World} {A} (m : proc A) a : returned m = Some a → ∃ st, m = Ret a st.
Proof. destruct m as [b st| |]; [|done..]. intros [= ->]. by exists st. Qed.

Lemma send_appends_once_witness :
  ∃ st', example_run = Ret (Ok 0%nat) st' ∧
    enqueued example_config id None 1000 example_record (Ok 0%nat) st'.
Proof.
  destruct (returned_ret example_run (Ok 0%nat)) as [st' Ep]; [vm_compute; reflexivity|].
  exists st'. split; [exact Ep|].
  destruct (send_appends_once example_config (λ _, 0) id None 5 3 example_record example_send) as [_ Hr];
    [simpl; lia|simpl; lia|reflexivity|reflexivity|reflexivity|].
  change 1000 with (pool_bytes (shared example_send)). apply Hr.
  eapply (play_results E); [intros r st _; apply example_oracle_ok| |exact Ep].
  apply (enqueue_inner_safe _ _ _ _ (pool_bytes (shared example_send))); try reflexivity; simpl; lia.
Defined.

Lemma example_oracle_punctual r st :
  punctual 2 r st (example_oracle r st).1 (example_oracle r st).2.
Proof.
  split; [apply example_oracle_ok|]. destruct r as [| |n deadline| | | |]; simpl; intros d Hd; simplify_eq/=; try lia.
  destruct (Z.leb_spec n (d - sh_now (shared st))); simpl; lia.
Qed.

Lemma metadata_wait_ends_witness :
  finishes E (partition_count example_config 101 "new" (Some 1) example_send) ∧
  ∃ st', example_wait = Ret (Ok 2) st' ∧
    wait_result example_config "new" (Some 1) (Some 105) (Ok 2) st' ∧ sh_now (shared st') ≤ 111.
Proof.
  destruct (metadata_wait_ends example_config 101 "new" (Some 1) 2 example_send) as (Hf & Hr & Ht);
    [simpl; lia..|].
  split; [exact Hf|].
  destruct (returned_ret example_wait (Ok 2)) as [st' Ep]; [vm_compute; reflexivity|].
  exists st'. split; [exact Ep|]. split.
  - apply Hr. eapply (play_results E); [intros r st _; apply example_oracle_ok| |exact Ep].
    apply (partition_count_safe _ _ False); [simpl; lia|simpl; lia|]. right. simpl. lia.
  - eapply Ht, (play_results (punctual 2)); [intros r st _; apply example_oracle_punctual| |exact Ep].
    apply partition_count_time; simpl; lia.
Defined.
