(* ===== verification/ProducerSendLive.v ===== *)
(** * A send that is left alone returns

    A round of a send starts again only because its topic switches its sticky
    partition or its batch is filled meanwhile.  When no other task does either,
    two rounds are enough. *)

From S2P Require Import Prelude Bytes Text Errors Sender Accumulator Partitioner Async TxnState TxnProducer ProducerSend ProducerSendTheorems.
Import ProducerError.

(** ** The sticky partition *)

Definition at_sticky (b : BuiltInPartitioner) (topic : string) (s : StickyPartition) (produced : Z) : Prop :=
  topics b !! topic ≫= sticky = Some (s, produced).

(** Too little was produced for a switch. *)
Definition below (b : BuiltInPartitioner) (produced : Z) : Prop := produced < Z.max (sticky_batch_size (config b)) 1.

Definition settled (b : BuiltInPartitioner) (topic : string) : Prop := ∃ s n, at_sticky b topic s n ∧ below b n.

Lemma at_sticky_unchanged b topic s n : at_sticky b topic s n → is_changed b topic s = false.
Proof. unfold at_sticky, is_changed. intros ->. by rewrite bool_decide_true. Qed.

Lemma at_sticky_inj b topic s n s' n' : at_sticky b topic s n → at_sticky b topic s' n' → s = s' ∧ n = n'.
Proof. unfold at_sticky. intros ->. by intros [= -> ->]. Qed.

Lemma set_topic_at_sticky b topic st s n :
  sticky st = Some (s, n) → at_sticky (set_topic b topic st) topic s n.
Proof. intros Hs. unfold at_sticky, set_topic. simpl. by rewrite lookup_insert_eq. Qed.

Lemma peek_at_sticky b topic p rack random s b' :
  peek_inner b topic p rack random = (s, b') →
  config b' = config b ∧ ∃ n, at_sticky b' topic s n ∧ (settled b topic → below b' n).
Proof.
  unfold peek_inner. destruct (sticky (default TopicState_default (topics b !! topic))) as [[cur n]|] eqn:Es.
  - intros [= <- <-]. split; [done|]. exists n. split; [by apply set_topic_at_sticky|].
    intros (s' & n' & Hat & Hb). unfold at_sticky in Hat.
    destruct (topics b !! topic) as [t|]; simplify_eq/=. done.
  - destruct (pick _ _ _ _ _) as [s1 b1] eqn:Ep. intros [= <- <-]. unfold pick in Ep. injection Ep as <- <-.
    split; [done|]. exists 0. split; [by apply set_topic_at_sticky|]. intros _. unfold below. simpl. lia.
Qed.

Lemma update_at_sticky b topic s n p en rack random b' :
  at_sticky b topic s n → sticky_batch_size (config b) ≤ usize_max → update_inner b topic s 0 p en rack random = b' →
  config b' = config b ∧
  ((∃ n', at_sticky b' topic s n' ∧ n' ≤ n) ∨ (¬ below b n ∧ ∃ s', at_sticky b' topic s' 0)).
Proof.
  intros Hat Hn. unfold update_inner. unfold at_sticky in Hat.
  destruct (topics b !! topic) as [t|] eqn:Et; [|done]. simpl in Hat. rewrite Hat.
  rewrite bool_decide_false by tauto. cbv zeta.
  destruct (_ || _) eqn:Eo.
  - destruct (pick _ _ _ _ _) as [s1 b1] eqn:Ep. unfold pick in Ep. injection Ep as <- <-. intros <-.
    split; [done|]. right. split; [|by eexists; apply set_topic_at_sticky].
    unfold below. unfold usize_saturating_add, usize_saturating_mul in Eo.
    apply orb_true_iff in Eo as [[Eo _]%andb_true_iff|Eo]; apply Z.leb_le in Eo; unfold usize_max in *; lia.
  - intros <-. split; [done|]. left. exists (usize_saturating_add n 0).
    split; [by apply set_topic_at_sticky|]. unfold usize_saturating_add. unfold usize_max. lia.
Qed.

Section live.
Context {Uuid Conn : Type} (c : SendConfig) (random : nat → Z) (wall_clock : Z → Z).
Context (custom : option (string → option bytes → option bytes → list PartitionInfo → list PartitionInfo → Z)).
Notation Shared := (@Shared Uuid Conn).
Notation SendState := (@SendState Uuid Conn).
Notation SendAnswer := (@SendAnswer Uuid).
Notation W := (@send_world Uuid Conn).

(** ** Awaits at which nobody else sends

    The clock is not near the largest instant, so that the wait has a deadline. *)

Record alone (r : SendRequest) (st : SendState) (ans : SendAnswer r) (s : Shared) : Prop := {
  alone_others : others r st ans s;
  alone_partitioner : sh_partitioner s = sh_partitioner (shared st);
  alone_accumulators : sh_accumulators s = sh_accumulators (shared st);
  alone_txn : sh_txn s = sh_txn (shared st);
  alone_early : sh_now s + sc_max_block c ≤ sc_instant_max c;
}.

Definition A : @env W := λ r st ans s, alone r st ans s.
Definition any : SendState → Prop := λ _, True.

Lemma alone_await (r : SendRequest) (st : SendState) (Q : SendAnswer r → SendState → Prop) :
  (∀ ans s, alone r st ans s → Q ans (mkSendState s (local st))) →
  safe (W := W) A any False (wait (W := W) r st) Q.
Proof. intros Hk. split; [done|]. intros ans s HE. by apply Hk. Qed.

Definition partitioner_of (st : SendState) : BuiltInPartitioner := sh_partitioner (shared st).
Definition sized (st : SendState) : Prop := sticky_batch_size (config (partitioner_of st)) ≤ usize_max.

(** The partition of this round, and how much went to it. *)
Definition peeked (topic : string) (sticky : option StickyPartition) (n : Z) (st : SendState) : Prop :=
  match sticky with Some s => at_sticky (partitioner_of st) topic s n | None => True end.

Definition switched (topic : string) (sticky : option StickyPartition) (n : Z) (st st' : SendState) : Prop :=
  is_Some sticky ∧ ¬ below (partitioner_of st) n ∧ settled (partitioner_of st') topic ∧
  config (partitioner_of st') = config (partitioner_of st).

Lemma changed_live topic sticky n key count st (Q : bool → SendState → Prop) :
  sized st → peeked topic sticky n st →
  (∀ st', only_sticky st st' → switched topic sticky n st st' → Q true st') →
  (∀ st' n', only_sticky st st' → n' ≤ n → peeked topic sticky n' st' →
     config (partitioner_of st') = config (partitioner_of st) → Q false st') →
  safe A any False (sticky_partition_changed c random topic sticky key count st) Q.
Proof.
  intros Hsz Hp Htrue Hfalse. unfold sticky_partition_changed. destruct sticky as [s|]; steps; [|by apply (Hfalse _ n)].
  simpl in Hp. pose proof (at_sticky_unchanged _ _ _ _ Hp) as Hun. unfold partitioner_of in Hun. rewrite Hun. steps.
  destruct (all_batches_full (accumulator_at c key (shared st))); [|steps; by apply (Hfalse _ n)]. unfold update_sticky. steps.
  set (b' := update_inner _ _ _ _ _ _ _ _).
  destruct (update_at_sticky _ _ _ _ _ _ _ _ b' Hp Hsz eq_refl) as [Hc [(n' & Hat & Hn)|(Hb & s' & Hat)]].
  - change (sh_partitioner (set_partitioner b' (shared st))) with b'.
    rewrite (at_sticky_unchanged _ _ _ _ Hat). by apply (Hfalse _ n').
  - change (sh_partitioner (set_partitioner b' (shared st))) with b'.
    destruct (is_changed b' topic s) eqn:Ech.
    + apply Htrue; [done|]. split; [done|]. split; [done|]. split; [|done]. exists s', 0. split; [done|].
      unfold below. lia.
    + apply (Hfalse _ 0); [done| | |done].
      * unfold below in Hb. lia.
      * assert (s' = s) as ->; [|exact Hat]. unfold is_changed in Ech. unfold at_sticky in Hat.
        rewrite Hat in Ech. by apply negb_false_iff, bool_decide_eq_true in Ech.
Qed.

(** ** One round *)

Definition done_with {R} : R → SendState → Prop := λ _ _, True.

Lemma bail_live {R} e st (Q : result producer_error R → SendState → Prop) :
  (∀ st', Q (Err e) st') → safe A any False (bail e st) Q.
Proof. intros HQ. unfold bail. steps. apply HQ. Qed.

(** What a round knows before it appends: the record has its memory, or it fits
    the batch of its generation. *)
Definition provided (key : topic_partition) (size : Z) (st : SendState) : Prop :=
  lc_memory (local st) = None →
  ∃ g, append_transaction_generation (sh_txn (shared st)) (held_state c (shared st)) = Ok g ∧
    needs_new_batch (accumulator_at c key (shared st)) size g = false.

Lemma lock_state_live st (Q : option TxnState → SendState → Prop) :
  (∀ s, sh_partitioner s = sh_partitioner (shared st) → sh_accumulators s = sh_accumulators (shared st) →
     sh_txn s = sh_txn (shared st) → Q (held_state c s) (mkSendState s (local st))) →
  safe A any False (lock_state c st) Q.
Proof.
  intros HQ. unfold lock_state, held_state in *. destruct (sc_transactional c); steps.
  - apply alone_await. intros ans s [_ H1 H2 H3 _]. steps. by apply HQ.
  - destruct st as [s l]. by apply HQ.
Qed.

Lemma held_state_txn (s s' : Shared) : sh_txn s = sh_txn s' → held_state c s = held_state c s'.
Proof. unfold held_state. by intros ->. Qed.

Lemma accumulator_at_same key (s s' : Shared) :
  sh_accumulators s = sh_accumulators s' → accumulator_at c key s = accumulator_at c key s'.
Proof. unfold accumulator_at. by intros ->. Qed.

Lemma peeked_same topic sticky n (st st' : SendState) :
  partitioner_of st' = partitioner_of st → peeked topic sticky n st → peeked topic sticky n st'.
Proof. unfold peeked. by intros ->. Qed.

Lemma reserve_live r count size remaining sticky n key st (Q : result producer_error bool → SendState → Prop) :
  sized st → peeked (r_topic r) sticky n st →
  (∀ e st', Q (Err e) st') →
  (∀ st', switched (r_topic r) sticky n st st' → Q (Ok false) st') →
  (∀ st' n', n' ≤ n → peeked (r_topic r) sticky n' st' → config (partitioner_of st') = config (partitioner_of st) →
     provided key size st' → Q (Ok true) st') →
  safe A any False (reserve c random r count size remaining sticky key st) Q.
Proof.
  intros Hsz Hp Herr Hfalse Htrue. unfold reserve. steps. apply lock_state_live. intros s1 Hb1 Ha1 Ht1. steps.
  destruct (append_transaction_generation (sh_txn s1) (held_state c s1)) as [g|e] eqn:Eg; steps; [|apply Herr].
  apply alone_await. intros ans s2 [_ Hb2 Ha2 Ht2 _]. simpl in Hb2, Ha2, Ht2. steps.
  assert (partitioner_of (mkSendState s2 (local st)) = partitioner_of st) as Hbs
    by (unfold partitioner_of; simpl; congruence).
  apply (changed_live _ _ n); [unfold sized; by rewrite Hbs|by eapply peeked_same| |].
  { intros st3 _ Hsw. steps. apply Hfalse. unfold switched in *. by rewrite Hbs in Hsw. }
  intros st3 n' Hs Hn' Hp' Hc'. rewrite Hbs in Hc'. steps.
  set (a := accumulator_at c key (shared st3)).
  destruct (needs_new_batch a size g) eqn:En; steps.
  - assert (∀ st4, partitioner_of st4 = partitioner_of st3 →
      safe A any False (allocate c (Z.max (sc_batch_size c) size) remaining st4)
        (λ r st', match r with Ok _ => Q (Ok true) st' | Err e => Q (Err e) st' end)) as Hal.
    { intros st4 Hb4. unfold allocate. destruct (_ && _); steps; [|apply Herr].
      apply alone_await. intros got s5 [_ Hb5 _ _ _]. destruct got; steps; [|apply Herr].
      assert (partitioner_of (mkSendState s5 (set_memory (Some (Z.max (sc_batch_size c) size)) (local st4))) =
        partitioner_of st3) as Hb5' by (unfold partitioner_of in *; simpl; congruence).
      apply (Htrue _ n'); [done|by eapply peeked_same|by rewrite Hb5'|intros Hm; discriminate Hm]. }
    destruct (match ac_current a with Some b => negb (is_empty b) | None => false end); steps; by apply Hal.
  - apply (Htrue _ n'); [done..|]. intros _. exists g. rewrite (os_txn _ _ Hs). simpl.
    rewrite (held_state_txn (shared st3) s1), Ht2, Eg by (rewrite (os_txn _ _ Hs); exact Ht2). done.
Qed.

Lemma append_round_live r count size ts sticky n key st (Q : option (result producer_error nat) → SendState → Prop) :
  sized st → peeked (r_topic r) sticky n st → provided key size st →
  (∀ res st', Q (Some res) st') →
  (∀ st', switched (r_topic r) sticky n st st' → Q None st') →
  safe A any False (append_round c random r count size ts sticky key st) Q.
Proof.
  intros Hsz Hp Hpr Hsome Hnone. unfold append_round.
  assert (∀ e st', safe A any False (some_of (bail e) st') Q) as Hbail.
  { intros e st'. unfold some_of. steps. apply bail_live. intros st2. steps. apply Hsome. }
  steps. apply lock_state_live. intros s1 Hb1 Ha1 Ht1. steps.
  destruct (append_transaction_generation (sh_txn s1) (held_state c s1)) as [g|e] eqn:Eg; [|apply Hbail]. steps.
  set (l1 := hold_txn (sc_transactional c) (local st)).
  assert (∀ s2, sh_partitioner s2 = sh_partitioner s1 → sh_accumulators s2 = sh_accumulators s1 →
    sh_txn s2 = sh_txn s1 → safe A any False
    ((wait (W := W) (LockAccumulator key);;
      s ← reads_shared id;
      match append_transaction_generation (sh_txn s) (held_state c s) with
      | Err e => some_of (bail e)
      | Ok generation' =>
        if bool_decide (generation' ≠ g) then some_of (bail RecoveryRequired)
        else
          changed ← sticky_partition_changed c random (r_topic r) sticky key count;
          st ← reads id;
          if changed || (bool_decide (lc_memory (local st) = None) &&
                         needs_new_batch (accumulator_at c key (shared st)) size g)
          then upd_local (hold_txn false);; mret None
          else match is_active (shared st) with
          | Err e => some_of (bail e)
          | Ok _ => some_of (append_now c random r count size ts sticky key g)
          end
      end) (mkSendState s2 l1)) Q) as Hrest.
  { intros s2 Hb2 Ha2 Ht2. steps. apply alone_await. intros ans s3 [_ Hb3 Ha3 Ht3 _]. simpl in Hb3, Ha3, Ht3. steps.
    destruct (append_transaction_generation (sh_txn s3) (held_state c s3)) as [g'|e] eqn:Eg'; [|apply Hbail].
    case_bool_decide as Hg; [apply Hbail|]. steps.
    assert (partitioner_of (mkSendState s3 l1) = partitioner_of st) as Hbs
      by (unfold partitioner_of; simpl; congruence).
    apply (changed_live _ _ n); [unfold sized; by rewrite Hbs|by eapply peeked_same| |].
    { intros st4 _ Hsw. steps. apply Hnone. unfold switched in *. by rewrite Hbs in Hsw. }
    intros st4 n' Hs _ _ _. steps.
    assert (bool_decide (lc_memory (local st4) = None) && needs_new_batch (accumulator_at c key (shared st4)) size g
      = false) as ->.
    { case_bool_decide as Hm; [|done]. simpl. rewrite (os_memory _ _ Hs) in Hm. destruct (Hpr Hm) as (g0 & Hg0 & Hn0).
      rewrite (accumulator_at_same key (shared st4) (shared st)) by (rewrite (os_accumulators _ _ Hs); simpl; congruence).
      rewrite <- Ht1, (held_state_txn (shared st) s1), Eg in Hg0 by (by rewrite Ht1). by injection Hg0 as ->. }
    simpl. destruct (is_active (shared st4)); [|apply Hbail].
    unfold some_of, append_now. steps. destruct (append _ _ _ _ _ _ _ _ _) as [[a' res] unused]. steps.
    destruct sticky; unfold update_sticky, wake_sender_after_append; steps;
      (destruct (sc_linger c =? 0); [|destruct (wakes_sender res)]); steps; apply Hsome. }
  unfold register. destruct g as [g|]; steps; [|by apply Hrest].
  apply alone_await. intros ans s2 [_ Hb2 Ha2 Ht2 _]. destruct ans as [[]|e]; steps; [by apply Hrest|apply Hbail].
Qed.

(** ** The rounds *)

(** A round that starts from here does not start again. *)
Definition ready (topic : string) (fixed : option Z) (st : SendState) : Prop :=
  is_Some fixed ∨ settled (partitioner_of st) topic.

Lemma round_live fuel r count size ts remaining fixed st :
  sized st →
  (∀ st', ¬ ready (r_topic r) fixed st → sized st' → ready (r_topic r) fixed st' →
     safe A any False (enqueue_rounds c random fuel r count size ts remaining fixed st') done_with) →
  safe A any False (enqueue_rounds c random (S fuel) r count size ts remaining fixed st) done_with.
Proof.
  intros Hsz Hnext. cbn [enqueue_rounds].
  assert (∀ st1 sticky partition n, sized st1 → config (partitioner_of st1) = config (partitioner_of st) →
    peeked (r_topic r) sticky n st1 →
    (is_Some sticky → ¬ below (partitioner_of st1) n → ¬ ready (r_topic r) fixed st) →
    safe A any False
      ((upd_shared (Uuid := Uuid) (Conn := Conn)
          (λ s, set_accumulator (r_topic r, partition) (accumulator_at c (r_topic r, partition) s) s);;
        memory ← reads (W := W) (λ st, lc_memory (local st));
        reserved ← match memory with
                   | Some _ => mret (Ok true)
                   | None => reserve c random r count size remaining sticky (r_topic r, partition)
                   end;
        match reserved with
        | Err e => bail e
        | Ok false => enqueue_rounds c random fuel r count size ts remaining fixed
        | Ok true =>
          appended ← append_round c random r count size ts sticky (r_topic r, partition);
          match appended with
          | Some result => mret result
          | None => enqueue_rounds c random fuel r count size ts remaining fixed
          end
        end) st1) done_with) as Hround.
  { intros st1 sticky partition n Hsz1 Hc1 Hp1 Hback. steps. set (st2 := mkSendState _ (local st1)).
    assert (∀ st3 st4 n', n' ≤ n → config (partitioner_of st3) = config (partitioner_of st) →
      switched (r_topic r) sticky n' st3 st4 →
      safe A any False (enqueue_rounds c random fuel r count size ts remaining fixed st4) done_with) as Hsw.
    { intros st3 st4 n' Hn' Hc3 (Hs & Hb & Hset & Hc4). apply Hnext; [|unfold sized; by rewrite Hc4, Hc3|by right].
      apply Hback; [done|]. unfold below in *. rewrite Hc3 in Hb. rewrite Hc1. lia. }
    assert (∀ st3 n', n' ≤ n → config (partitioner_of st3) = config (partitioner_of st) →
      peeked (r_topic r) sticky n' st3 → provided (r_topic r, partition) size st3 →
      safe A any False (append_round c random r count size ts sticky (r_topic r, partition) st3)
        (λ appended st', safe A any False ((match appended with Some result => mret result
           | None => enqueue_rounds c random fuel r count size ts remaining fixed end) st') done_with)) as Happ.
    { intros st3 n' Hn' Hc3 Hp3 Hpr. apply (append_round_live _ _ _ _ _ n'); try done.
      - unfold sized. by rewrite Hc3.
      - intros st4 Hs. by apply (Hsw st3 st4 n'). }
    destruct (lc_memory (local st1)) as [m|] eqn:Em; steps.
    { apply (Happ st2 n); [lia|done|done|]. intros Hm. unfold st2 in Hm. simpl in Hm. congruence. }
    apply (reserve_live _ _ _ _ _ n); [done|done| | |].
    - intros e st3. by apply bail_live.
    - intros st3 Hs. by apply (Hsw st2 st3 n).
    - intros st3 n' Hn' Hp3 Hc3 Hpr. apply safe_bind, (Happ st3 n'); [done| |done|done]. rewrite Hc3. exact Hc1. }
  destruct fixed as [p|].
  - exact (Hround st None p 0 Hsz eq_refl I (λ H, match is_Some_None H with end)).
  - apply safe_bind. unfold some_of, peek_sticky. steps. destruct (peek_inner _ _ _ _ _) as [s b] eqn:Ep.
    destruct (peek_at_sticky _ _ _ _ _ _ _ Ep) as (Hc & n & Hat & Hset).
    refine (Hround (mkSendState (set_partitioner b (shared st)) (draw (local st))) (Some s) (sticky_partition s) n
      _ Hc Hat _).
    + unfold sized, partitioner_of in *. simpl. by rewrite Hc.
    + intros _ Hb [[? ?]|Hs]; [done|]. by apply Hb, Hset.
Qed.

Lemma rounds_live fuel r count size ts remaining fixed st :
  sized st → safe A any False (enqueue_rounds c random (S (S fuel)) r count size ts remaining fixed st) done_with.
Proof.
  intros Hsz. apply round_live; [done|]. intros st1 _ Hsz1 Hr1.
  apply round_live; [done|]. intros st2 Hr. done.
Qed.

Lemma keyed_partition_some b key count : 0 < count → is_Some (keyed_partition b key count).
Proof.
  intros Hc. unfold keyed_partition, partition_for_key. rewrite (proj2 (Z.ltb_lt 0 count)) by done.
  destruct key; [destruct (ignore_keys _)|]; by eexists.
Qed.

Lemma fixed_partition_some (s : Shared) r count : 0 < count → is_Some (fixed_partition custom s r count).
Proof.
  intros Hc. unfold fixed_partition. destruct (r_partition r); [by eexists|]. destruct custom.
  - destruct (partition_infos _ _ _). by eexists.
  - destruct (keyed_partition_some (sh_partitioner s) (r_key r) count Hc) as [p ->]. by eexists.
Qed.

Lemma enqueue_inner_live fuel rounds r st :
  1 ≤ sc_retry_backoff c → 1 ≤ sc_retry_backoff_max c → 0 ≤ sc_max_block c < Z.of_nat fuel →
  sh_now (shared st) + sc_max_block c ≤ sc_instant_max c → sized st → counted (shared st) →
  safe A any False (enqueue_inner c random wall_clock custom fuel (S (S rounds)) r st) done_with.
Proof.
  intros Hb Hmax Hf Hi Hsz Hcnt. unfold enqueue_inner. steps.
  destruct (validate r) as [[]|e]; [|done]. steps. destruct (is_active (shared st)) as [[]|e]; [|done]. steps.
  destruct (sc_transactional c && _); [done|]. steps.
  assert (∀ o s1, sh_now s1 + sc_max_block c ≤ sc_instant_max c →
    config (sh_partitioner s1) = config (sh_partitioner (shared st)) → counted s1 →
    safe A any False ((s ← reads_shared id;
      _ ←! mret (if sc_transactional c then append_transaction_generation (sh_txn s) o else Ok None);
      metadata_started ← reads_shared sh_now;
      count ←! partition_count c fuel (r_topic r) (r_partition r);
      s ← reads_shared id;
      upd_local (log_chosen s);;
      match fixed_partition custom s r count with
      | None => spent
      | Some fixed =>
        fixed ←! mret fixed;
        match ProducerSend.record_size_limit c (record_size_upper_bound (r_key r) (r_value r) (r_headers r)) with
        | Some limit => mret (Err (RecordTooLarge
            (record_size_upper_bound (r_key r) (r_value r) (r_headers r)) limit))
        | None =>
          enqueue_rounds c random (S (S rounds)) r count (approx_record_size (r_key r) (r_value r) (r_headers r))
            (default (wall_clock (sh_now s)) (r_timestamp_ms r))
            (Z.max 0 (sc_max_block c - (sh_now s - metadata_started))) fixed
        end
      end) (mkSendState s1 (local st))) done_with) as Hrest.
  { intros o s1 Hi1 Hc1 Hcnt1. steps. destruct (if sc_transactional c then _ else _) as [g|e]; [|done]. steps.
    eapply safe_mono; [|eapply safe_weaken; [| |eapply safe_env; [|apply (partition_count_safe c _ False);
      [done|done|by right]]]]; [|done|done|by intros ???? []].
    intros [count|e] st2 [Hun Hres]; [|done]. steps. destruct Hres as (meta & Hm & <- & _).
    pose proof (unmoved_counted _ _ Hun Hcnt1 _ _ Hm) as Hpos.
    destruct (fixed_partition_some (shared st2) r _ Hpos) as [[fixed|e] ->]; steps; [|done].
    destruct (ProducerSend.record_size_limit c _); [done|]. apply rounds_live.
    unfold sized, partitioner_of. simpl. rewrite (unmoved_config _ _ Hun). simpl. by rewrite Hc1. }
  assert (∀ Q : option TxnState → SendState → Prop, (∀ o s1, sh_now s1 + sc_max_block c ≤ sc_instant_max c →
    config (sh_partitioner s1) = config (sh_partitioner (shared st)) → counted s1 →
    Q o (mkSendState s1 (local st))) → safe A any False (lock_state c st) Q) as Hlock.
  { intros Q HQ. unfold lock_state. destruct (sc_transactional c); steps.
    - apply alone_await. intros ans s1 [[_ _ _ Hcf Hco] _ _ _ He]. steps. apply HQ; auto.
    - destruct st as [s l]. by apply HQ. }
  apply Hlock. intros o s1 Hi1 Hc1 Hcnt1. exact (Hrest o s1 Hi1 Hc1 Hcnt1).
Qed.
End live.

(** C39: a send that no other task disturbs returns: when at its awaits the
    sticky partition, the accumulators and the transaction stay as it left them,
    two rounds are enough, whatever the metadata, the memory and the
    registration of the partition answer. *)
Theorem lone_send_returns {Uuid Conn} (c : SendConfig) random wall_clock custom fuel rounds r
    (st : @SendState Uuid Conn) :
  1 ≤ sc_retry_backoff c → 1 ≤ sc_retry_backoff_max c → 0 ≤ sc_max_block c < Z.of_nat fuel →
  sh_now (shared st) + sc_max_block c ≤ sc_instant_max c →
  sticky_batch_size (config (sh_partitioner (shared st))) ≤ usize_max → counted (shared st) →
  finishes (A c) (enqueue_inner c random wall_clock custom fuel (S (S rounds)) r st).
Proof.
  intros Hb Hmax Hf Hi Hs Hc. apply (safe_finishes (W := @send_world Uuid Conn) (A c) any False _ done_with); [by intros []|].
  by apply enqueue_inner_live.
Qed.

Lemma lone_send_returns_witness :
  finishes (A example_config) (enqueue_inner example_config (λ _, 0) id None 101 2 example_record example_send).
Proof.
  apply (lone_send_returns example_config (λ _, 0) id None 101 0 example_record example_send);
    [simpl; lia|simpl; lia|simpl; lia|simpl; lia|simpl; unfold usize_max; lia|].
  intros topic meta Hm. simpl in Hm. destruct (decide (topic = "orders")) as [->|Hne].
  - rewrite lookup_singleton_eq in Hm. injection Hm as <-. simpl. lia.
  - by rewrite lookup_singleton_ne in Hm.
Defined.
