(* ===== verification/TxnProofs.v ===== *)
(** * Theorems on the transactional producer

    What [TxnProducer] promises, for every world: the outcome of a
    transaction that a caller may conclude from the state the producer ends
    in, that the retry loops end by their deadline, that a fatal error stops
    every operation, and that a guard of an earlier transaction cannot harm a
    later one. *)

From S2P Require Import Prelude CoordRecord Errors Text TxnRetry TxnState TxnProducer.

(** ** Relations that a computation respects *)

Section stable.
Context {W Conn : Type} `{TW : !TxnWorld W Conn}.
Notation st := (Producer Conn * W)%type.
Implicit Types (R : relation st).

(** [m] moves the state along [R] whenever it returns. *)
Definition stable {A} R (m : @txn W Conn A) : Prop :=
  ∀ s a s', m s = Some (a, s') → R s s'.

(** An await moves along [R]. *)
Definition io_stable {A} R (op : W → A * W) : Prop :=
  ∀ p w a w' writes w'', op w = (a, w') → sender w' = (writes, w'') →
    R (p, w) (set_error (foldl write_slot (txn_error p) writes) p, w'').

Lemma stable_io {A} R (op : W → A * W) : io_stable R op → stable R (io op).
Proof.
  intros Hop [p w] a [p' w'] H. unfold io in H.
  destruct (op w) as [a0 w0] eqn:E1, (sender w0) as [ws w1] eqn:E2. simplify_eq. by eapply Hop.
Qed.

Lemma stable_modify R f : (∀ p w, R (p, w) (f p, w)) → stable R (modify f).
Proof. intros Hf [p w] a [p' w'] [= <- <- <-]. apply Hf. Qed.

Context (R : relation st) `{HR : !PreOrder R}.

Lemma stable_ret {A} (a : A) : stable R (mret a).
Proof. intros s a' s' [= <- <-]. reflexivity. Qed.
Lemma stable_running {A} : stable R (running (A := A)).
Proof. by intros s a s' H. Qed.
Lemma stable_get : stable R get.
Proof. intros [p w] a s' [= <- <-]. reflexivity. Qed.
Lemma stable_clock : stable R clock.
Proof. intros [p w] a s' [= <- <-]. reflexivity. Qed.
Lemma stable_bind {A B} (m : @txn W Conn A) (f : A → @txn W Conn B) :
  stable R m → (∀ a, stable R (f a)) → stable R (m ≫= f).
Proof.
  intros Hm Hf s b s' H. unfold mbind, txn_bind in H.
  destruct (m s) as [[a s0]|] eqn:E; [|done]. etransitivity; [by eapply Hm|by eapply Hf].
Qed.
End stable.

Create HintDb txn.
#[export] Hint Resolve stable_ret stable_running stable_get stable_clock : txn.

(** [stable_tac] walks a computation: binds, matches and conditionals, down
    to the awaits and assignments that hints and hypotheses close. *)
Ltac stable_step :=
  match goal with
  | |- stable _ (mbind _ _) => apply stable_bind; [try apply _| |intros ?]
  | |- stable _ (mret _) => apply stable_ret; apply _
  | |- stable _ get => apply stable_get; apply _
  | |- stable _ clock => apply stable_clock; apply _
  | |- stable _ running => apply stable_running
  | |- stable _ (match ?x with _ => _ end) => destruct x
  | |- stable _ (let '_ := ?x in _) => destruct x
  | |- stable _ (io _) => apply stable_io
  end.
Ltac stable_tac := repeat stable_step; auto with txn.

(** ** The lookups move along every relation their awaits move along *)

Section lookups.
Context {W Conn : Type} `{TW : !TxnWorld W Conn}.
Context (R : relation (Producer Conn * W)) `{HR : !PreOrder R}.
Context (Hsleep : ∀ d, io_stable R (sleep d)).
Context (Hboot : ∀ c, io_stable R (reconnect_bootstrap c)).
Context (Hfind : ∀ key kt, io_stable R (request_find_coordinator key kt)).
Context (Hconn : ∀ address, io_stable R (connect address)).
Context (Hcoord : ∀ p w c, R (p, w) (set_coord_client c p, w)).

Lemma retry_wait_stable r : stable R (retry_wait r).
Proof. unfold retry_wait. stable_tac. Qed.

Lemma find_coordinator_loop_stable fuel key kt r :
  stable R (find_coordinator_loop fuel key kt r).
Proof.
  revert r. induction fuel as [|fuel IH]; intros r; cbn [find_coordinator_loop];
    [apply stable_running|].
  stable_tac. all: try apply retry_wait_stable.
Qed.

Lemma find_coordinator_stable fuel key kt dl : stable R (find_coordinator fuel key kt dl).
Proof. unfold find_coordinator. stable_tac. apply find_coordinator_loop_stable. Qed.

Lemma reconnect_stable fuel tid dl : stable R (reconnect_txn_coordinator fuel tid dl).
Proof.
  unfold reconnect_txn_coordinator, find_txn_coordinator. stable_tac.
  - apply find_coordinator_stable.
  - by apply stable_modify.
Qed.

Lemma rediscovered_stable fuel tid c dl : stable R (rediscovered_txn_coordinator fuel tid c dl).
Proof. unfold rediscovered_txn_coordinator. stable_tac. apply reconnect_stable. Qed.

Lemma connect_group_stable fuel g dl : stable R (connect_group_coordinator fuel g dl).
Proof.
  unfold connect_group_coordinator, find_group_coordinator. stable_tac.
  apply find_coordinator_stable.
Qed.
End lookups.

(** ** Inversion of computations that returned *)

Section inversion.
Context {W Conn : Type} `{TW : !TxnWorld W Conn}.

Lemma txn_bind_some {A B} (m : @txn W Conn A) (f : A → @txn W Conn B) s x :
  (m ≫= f) s = Some x ↔ ∃ a s1, m s = Some (a, s1) ∧ f a s1 = Some x.
Proof.
  unfold mbind, txn_bind. destruct (m s) as [[a s1]|]; [|naive_solver].
  split; [by exists a, s1|]. intros (? & ? & [= -> ->] & ?). done.
Qed.

Lemma io_some {A} (op : W → A * W) p w a s' :
  io op (p, w) = Some (a, s') →
  ∃ w1 ws w2, op w = (a, w1) ∧ sender w1 = (ws, w2) ∧
    s' = (set_error (foldl write_slot (txn_error p) ws) p, w2).
Proof.
  unfold io. destruct (op w) as [a0 w1] eqn:E1, (sender w1) as [ws w2] eqn:E2.
  intros [= <- <-]. eauto 10.
Qed.

Lemma ret_some {A} (a b : A) (s s' : Producer Conn * W) :
  (mret a : txn A) s = Some (b, s') ↔ b = a ∧ s' = s.
Proof. unfold mret, txn_ret. naive_solver. Qed.
End inversion.

(** [txn_inv] takes apart the equations that say a computation returned. *)
Ltac txn_inv :=
  repeat match goal with
  | s : (_ * _)%type |- _ => destruct s
  | H : mbind _ _ _ = Some _ |- _ => apply txn_bind_some in H as (? & ? & ? & H)
  | H : get _ = Some _ |- _ => unfold get in H; simplify_eq
  | H : clock _ = Some _ |- _ => unfold clock in H; simplify_eq
  | H : modify _ _ = Some _ |- _ => unfold modify in H; simplify_eq
  | H : mret _ _ = Some _ |- _ => apply ret_some in H as [? ?]; simplify_eq
  | H : running _ = Some _ |- _ => discriminate H
  | H : io _ _ = Some _ |- _ => apply io_some in H as (? & ? & ? & ? & ? & ?); simplify_eq
  end.

(** ** The outcome of a transaction *)

Section outcome.
Context {W Conn : Type} `{TW : !TxnWorld W Conn}.
Implicit Types (p : Producer Conn) (w : W).

(** [applied] is whether the coordinator has carried out the requested
    result. An answer [NONE] says it has, any other answer that the request
    changed nothing; a request lost in transport may have been carried out;
    nothing else the producer does changes it. *)
Record outcome_laws (applied : W → bool) : Prop := {
  law_answered c cap request w r w' :
    request_end_txn c cap request w = (Ok r, w') →
    applied w' = if end_error_code r =? 0 then true else applied w;
  law_lost c cap request w e w' :
    request_end_txn c cap request w = (Err e, w') → applied w = true → applied w' = true;
  law_sender w ws w' : sender w = (ws, w') → applied w' = applied w;
  law_sleep d w w' : sleep d w = (tt, w') → applied w' = applied w;
  law_connect a w r w' : connect a w = (r, w') → applied w' = applied w;
  law_bootstrap c w w' : reconnect_bootstrap c w = (tt, w') → applied w' = applied w;
  law_find key kt w r w' : request_find_coordinator key kt w = (r, w') → applied w' = applied w;
  law_flush w r w' : flush_wait w = (r, w') → applied w' = applied w;
  law_undrained w r w' : abort_undrained_wait w = (r, w') → applied w' = applied w;
}.

(** The broker refused a coordinator lookup with a code that is fatal. *)
Definition lookup_refused (refusal : LookupRefusal) : Prop :=
  ∃ key kt w r w', request_find_coordinator key kt w = (Ok r, w') ∧
    decide_find_coordinator (Answered (coordinator_answer r).1) = Refused_ refusal.

Lemma find_loop_refused fuel key kt retry s refusal s' :
  find_coordinator_loop fuel key kt retry s = Some (Err (LookupRefused refusal), s') →
  lookup_refused refusal.
Proof.
  revert retry s. induction fuel as [|fuel IH]; intros retry s H; [done|].
  cbn [find_coordinator_loop] in H. txn_inv.
  match goal with H : request_find_coordinator _ _ ?w = (?x, ?w1) |- _ =>
    rename H into Hreq; destruct x as [r|e] end.
  - destruct (coordinator_answer r) as [code address] eqn:Ha. cbn beta iota in H.
    destruct (decide_find_coordinator (Answered code)) as [| |rf] eqn:Hd; txn_inv; [|].
    + match type of H with context [if ?b then _ else _] => destruct b end; [by eapply IH|].
      txn_inv.
    + eexists _, _, _, r, _. split; [done|]. by rewrite Ha.
  - destruct (lookup_may_succeed_later e); cbn beta iota in H; [|txn_inv].
    cbn [decide_find_coordinator] in H. txn_inv.
    match type of H with context [if ?b then _ else _] => destruct b end; [by eapply IH|txn_inv].
Qed.

Lemma reconnect_refused fuel tid dl s refusal s' :
  reconnect_txn_coordinator fuel tid dl s = Some (Err (LookupRefused refusal), s') →
  lookup_refused refusal.
Proof.
  unfold reconnect_txn_coordinator, find_txn_coordinator, find_coordinator. intros H. txn_inv.
  match type of H with context [match ?r with Ok _ => _ | Err _ => _ end] => destruct r as [a|e] end.
  - txn_inv. match type of H with context [match ?r with Ok _ => _ | Err _ => _ end] =>
      destruct r as [c|e] end; txn_inv.
  - txn_inv. by eapply find_loop_refused.
Qed.

Context (applied : W → bool) (laws : outcome_laws applied).

Definition same_applied : relation (Producer Conn * W) := λ s s', applied s'.2 = applied s.2.

#[local] Instance same_applied_preorder : PreOrder same_applied.
Proof. split; [by intros s|]. intros s1 s2 s3 H12 H23. unfold same_applied in *. congruence. Qed.

Lemma io_applied {A} (op : W → A * W) :
  (∀ w a w', op w = (a, w') → applied w' = applied w) → io_stable same_applied op.
Proof.
  intros Hop p w a w' ws w'' H1 H2. unfold same_applied. simpl.
  rewrite (law_sender _ laws _ _ _ H2). by eapply Hop.
Qed.

Lemma reconnect_applied fuel tid dl : stable same_applied (reconnect_txn_coordinator fuel tid dl).
Proof.
  apply reconnect_stable; try apply _; try (intros; apply io_applied); try done.
  - intros w [] w'. apply laws.
  - intros w [] w'. apply laws.
  - intros w x w'. apply laws.
  - intros w x w'. apply laws.
Qed.

(** What a decision says of the transaction. *)
Definition decision_outcome (d : EndTxnDecision) (done : bool) : Prop :=
  match d with
  | Complete => done = true
  | EndFenced | EndConcurrentTransactions | EndAbortable _ | TimedOut _ => done = false
  | EndFatal code => done = false ∨ lookup_refused (RefusedFatal code)
  | OutcomeUnknown => True
  | EndRetry _ => False
  end.

(** One answered attempt that decides. *)
Lemma answered_outcome code lost committed d done done' :
  d = decide_end_txn (Answered code) lost committed → (∀ r, d ≠ EndRetry r) →
  done' = (if code =? 0 then true else done) → (lost = false → done = false) →
  decision_outcome d done'.
Proof.
  intros -> Hnr -> Hl. destruct (Z.eqb_spec code 0) as [->|Hne]; [reflexivity|].
  destruct lost.
  - destruct (end_after_loss (Answered code) committed) as [Hc|[[r Hr]|Hu]].
    + apply end_complete in Hc. by simplify_eq.
    + by apply Hnr in Hr.
    + by rewrite Hu.
  - rewrite (Hl eq_refl).
    destruct (decide_end_txn (Answered code) false committed) eqn:E; simpl; auto.
    + apply end_complete in E. by simplify_eq.
    + by eapply Hnr.
Qed.

Lemma deadline_outcome attempt lost (lost' := lost || bool_decide (attempt = Lost)) done :
  (lost = false → attempt ≠ Lost → done = false) →
  decision_outcome (decide_end_txn_at_deadline attempt lost') done.
Proof.
  intros Hl. unfold lost'. destruct attempt as [code|]; simpl; [|by destruct lost].
  rewrite orb_false_r. destruct lost; simpl; rewrite ?andb_false_r; [done|].
  rewrite andb_true_r. destruct (code =? CONCURRENT_TRANSACTIONS); by apply Hl.
Qed.

Lemma refusal_outcome refusal lost committed done d :
  d = decide_end_txn_after_refused_lookup refusal lost committed → (∀ r, d ≠ EndRetry r) →
  lookup_refused refusal → (lost = false → done = false) → decision_outcome d done.
Proof.
  intros -> Hnr Hr Hl. destruct refusal as [code|code]; simpl in *; [|by right].
  destruct committed; simpl in *; [|by destruct (Hnr true)]. destruct lost; simpl; auto.
Qed.

(** What the result of the loop says. *)
Definition result_outcome (r : result ClientError.client_error (EndTxnDecision * option (Z * Z)))
    (done : bool) : Prop :=
  match r with
  | Ok (d, _) => decision_outcome d done
  | Err e => ClientError.is_authentication_failure e = true
  end.

Lemma end_txn_retry_outcome fuel again c request committed dl mb b attempt lost rediscover
    p w r p' w' (lost' := lost || bool_decide (attempt = Lost)) :
  end_txn_retry fuel again c request committed dl mb b attempt lost' rediscover (p, w)
    = Some (r, (p', w')) →
  (lost' = false → applied w = false) →
  (∀ c b p w, again c b (p, w) = Some (r, (p', w')) → (lost' = false → applied w = false) →
     result_outcome r (applied w')) →
  result_outcome r (applied w').
Proof.
  intros H Hl IH. unfold end_txn_retry in H. txn_inv.
  destruct (_ =? 0).
  { txn_inv. simpl. apply deadline_outcome. intros -> Hne. apply Hl. unfold lost'.
    by rewrite bool_decide_eq_false_2. }
  txn_inv.
  match goal with Hs : sleep _ _ = (?u, _), Hs2 : sender _ = _ |- _ =>
    destruct u; apply (law_sleep _ laws) in Hs; apply (law_sender _ laws) in Hs2 end.
  destruct rediscover; [|eapply IH; [exact H|]; intros E; rewrite <- (Hl E); congruence].
  txn_inv. match goal with Hr : reconnect_txn_coordinator _ _ _ _ = Some (?f, _) |- _ =>
    pose proof (reconnect_applied _ _ _ _ _ _ Hr) as Hsame; rename Hr into Hrec;
    destruct f as [fresh|[refusal|e]] end; unfold same_applied in Hsame; simpl in Hsame.
  - eapply IH; [exact H|]. intros E. rewrite <- (Hl E). congruence.
  - apply reconnect_refused in Hrec.
    destruct (decide_end_txn_after_refused_lookup refusal lost' committed) eqn:Hd;
      try (txn_inv; unfold result_outcome; eapply refusal_outcome;
           [symmetry; exact Hd|done|done|]; intros E; rewrite <- (Hl E); congruence).
    eapply IH; [exact H|]. intros E. rewrite <- (Hl E). congruence.
  - txn_inv. match goal with Hs : reconnect_bootstrap _ _ = (?u, _), Hs2 : sender _ = _ |- _ =>
      destruct u; apply (law_bootstrap _ laws) in Hs; apply (law_sender _ laws) in Hs2 end.
    eapply IH; [exact H|]. intros E. rewrite <- (Hl E). congruence.
Qed.

Lemma end_txn_loop_outcome fuel c request committed dl mb b lost p w r p' w' :
  end_txn_loop fuel c request committed dl mb b lost (p, w) = Some (r, (p', w')) →
  (lost = false → applied w = false) → result_outcome r (applied w').
Proof.
  revert c b lost p w. induction fuel as [|fuel IH]; intros c b lost p w H Hl; [done|].
  cbn [end_txn_loop] in H. txn_inv.
  match goal with
  | Hreq : request_end_txn _ _ _ _ = (?x, _), Hs : sender _ = _ |- _ =>
    rename Hreq into Hr; pose proof (law_sender _ laws _ _ _ Hs) as Hsame;
    destruct x as [resp|e]; unfold end_txn_attempt in H
  end.
  - pose proof (law_answered _ laws _ _ _ _ _ _ Hr) as Ha. cbn beta iota zeta in H.
    destruct (decide_end_txn (Answered (end_error_code resp)) lost committed) eqn:Hd;
      try (txn_inv; unfold result_outcome; eapply answered_outcome;
           [symmetry; exact Hd|done|rewrite Hsame; exact Ha|exact Hl]).
    assert (end_error_code resp ≠ 0) as Hne.
    { intros E. rewrite E in Hd. by cbn in Hd. }
    rewrite (proj2 (Z.eqb_neq _ _) Hne) in Ha.
    eapply (end_txn_retry_outcome _ _ _ _ _ _ _ _ (Answered (end_error_code resp)) lost);
      [exact H| |].
    + rewrite bool_decide_eq_false_2, orb_false_r by done. intros E. rewrite <- (Hl E). congruence.
    + intros c1 b1 q1 v1 Hq Hlq. eapply IH; [exact Hq|exact Hlq].
  - destruct (ClientError.is_authentication_failure e) eqn:He; [by txn_inv|].
    eapply (end_txn_retry_outcome _ _ _ _ _ _ _ _ Lost lost); [exact H| |].
    + rewrite bool_decide_eq_true_2, orb_true_r by done. done.
    + intros c1 b1 q1 v1 Hq Hlq. eapply IH; [exact Hq|exact Hlq].
Qed.

(** The lookups answer with the codes that [FindCoordinator] has for a client
    that may use its transactional id: [NONE], [COORDINATOR_LOAD_IN_PROGRESS],
    [COORDINATOR_NOT_AVAILABLE], [GROUP_AUTHORIZATION_FAILED] and
    [TRANSACTION_ABORTABLE]. *)
Definition lookups_allowed : Prop :=
  ∀ key kt w r w', request_find_coordinator key kt w = (Ok r, w') →
    (coordinator_answer r).1 ∈ [0; 14; 15; 30; 120].

Lemma allowed_not_refused code : lookups_allowed → ¬ lookup_refused (RefusedFatal code).
Proof.
  intros Hall (key & kt & w & r & w' & Hr & Hd). apply Hall in Hr. revert Hd.
  repeat (apply elem_of_cons in Hr as [Hr|Hr]; [rewrite Hr; vm_compute; congruence|]).
  by apply not_elem_of_nil in Hr.
Qed.

(** What the state the producer ends in, and the result it returns, say of
    the transaction that was in [previous] state. *)
Definition end_outcome (previous : TxnState) (r : result ProducerError.producer_error unit)
    (p' : Producer Conn) (done : bool) : Prop :=
  match txn_state p' with
  | Ready => r = Ok tt ∧ done = true
  | StateRecoveryRequired =>
    (r = Err ProducerError.RecoveryRequired ∨ ∃ e, r = Err (ProducerError.Client e)) ∧
    txn_recovery_required p' = true
  | StateFenced => r = Err ProducerError.FencedProducer ∧ done = false
  | StateFatalError =>
    (∃ code, r = Err (ProducerError.FatalTransactionError code)) ∧ done = false
  | s => s = previous ∧ (∃ e, r = Err e) ∧ done = false
  end.

Lemma resolve_state p : txn_state (resolve_transaction_guard p) = txn_state p.
Proof. unfold resolve_transaction_guard. by case_match. Qed.

Lemma recovery_set p : txn_recovery_required (require_transaction_recovery p) = true.
Proof. unfold require_transaction_recovery. by destruct (txn_recovery_required p). Qed.

Lemma end_outcome_restored previous p' e :
  in_flight previous = true → txn_state p' = previous →
  end_outcome previous (Err e) p' false.
Proof. intros Hf Hs. unfold end_outcome. rewrite Hs. destruct previous; try done; eauto. Qed.

Lemma apply_end_txn_outcome end_txn previous p w r p' w' :
  lookups_allowed → in_flight previous = true → result_outcome end_txn (applied w) →
  apply_end_txn end_txn previous (p, w) = Some (r, (p', w')) →
  end_outcome previous r p' (applied w').
Proof.
  intros Hall Hf Hout H. unfold apply_end_txn, fail_with, fatal_error, abortable_error in H.
  destruct end_txn as [[d identity]|e].
  2: { txn_inv. unfold end_outcome. simpl. split; [by eauto|apply recovery_set]. }
  unfold result_outcome in Hout.
  destruct d; simpl in Hout; try done; txn_inv; try (rewrite Hout; by apply end_outcome_restored);
    unfold end_outcome; rewrite ?resolve_state; simpl.
  - done.
  - done.
  - destruct Hout as [->|[]%allowed_not_refused]; [by eauto|done].
  - split; [by left|apply recovery_set].
Qed.

Lemma drain_for_end_applied committed : stable same_applied (drain_for_end committed).
Proof.
  unfold drain_for_end. stable_tac; apply io_applied; intros w a w'; apply laws.
Qed.

Lemma io_applied_eq {A} (op : W → A * W) p w a s' :
  (∀ w a w', op w = (a, w') → applied w' = applied w) →
  io op (p, w) = Some (a, s') → applied s'.2 = applied w.
Proof. intros Hop H. exact (stable_io _ _ (io_applied op Hop) _ _ _ H). Qed.

Lemma end_transaction_outcome_holds fuel committed p w r p' w' :
  lookups_allowed →
  transactional_id (cfg p) ≠ None → fatal_error_state p = None →
  in_flight (txn_state p) = true → applied w = false →
  end_transaction fuel committed (p, w) = Some (r, (p', w')) →
  end_outcome (txn_state p) r p' (applied w').
Proof.
  intros Hall Htid Hfatal Hf Hap H. unfold end_transaction in H.
  apply txn_bind_some in H as (? & ? & [= <- <-] & H).
  destruct (transactional_id (cfg p)) as [tid|]; [|done].
  rewrite Hfatal, Hf in H. cbn [negb] in H. txn_inv.
  match goal with Hd : drain_for_end _ _ = Some (?d, _) |- _ =>
    pose proof (drain_for_end_applied _ _ _ _ Hd) as Hsame; destruct d as [u|e] end;
    unfold same_applied in Hsame; simpl in Hsame; rewrite Hap in Hsame.
  2: { unfold restore in H. txn_inv. rewrite Hsame. by apply end_outcome_restored. }
  txn_inv. match type of H with context [match txn_coord_client ?q with _ => _ end] =>
    destruct (txn_coord_client q) as [c|] end.
  2: { unfold restore in H. txn_inv. rewrite Hsame. by apply end_outcome_restored. }
  match type of H with context [let '(_, _) := ?x in _] => destruct x as [pid epoch] end.
  unfold send_end_txn_until_decided in H. txn_inv.
  eapply apply_end_txn_outcome; [done|done| |exact H].
  eapply end_txn_loop_outcome; [eassumption|]. intros _. done.
Qed.
End outcome.

(** ** Every operation returns by its deadline *)

Section returns.
Context {W Conn : Type} `{TW : !TxnWorld W Conn}.
Implicit Types (p : Producer Conn) (w : W).

(** An await, with the run of the sender task in it, takes between [lo] and
    [hi]. *)
Definition lasts {A} (op : W → A * W) (lo hi : Z) : Prop :=
  ∀ w a w1 ws w2, op w = (a, w1) → sender w1 = (ws, w2) → now w + lo ≤ now w2 ≤ now w + hi.

(** A sleep lasts its duration and wakes at most [R] later; a request, a dial
    or a reconnect ends within [R]; draining the records and the wait for topic
    ids, which have limits of their own, within [F]. *)
Record clock_laws (R F : Z) : Prop := {
  tick_sleep d : lasts (sleep d) (Z.max 0 d) (Z.max 0 d + R);
  tick_flush : lasts flush_wait 0 F;
  tick_undrained : lasts abort_undrained_wait 0 F;
  tick_topics ts : lasts (wait_topic_ids ts) 0 F;
  tick_connect a : lasts (connect a) 0 R;
  tick_bootstrap c : lasts (reconnect_bootstrap c) 0 R;
  tick_find k kt : lasts (request_find_coordinator k kt) 0 R;
  tick_end c v r : lasts (request_end_txn c v r) 0 R;
  tick_init c r : lasts (request_init_producer_id c r) 0 R;
  tick_partitions c r : lasts (request_add_partitions c r) 0 R;
  tick_offsets c r : lasts (request_add_offsets c r) 0 R;
  tick_commit c v r : lasts (request_txn_offset_commit c v r) 0 R;
}.
Context (R F : Z) (laws : clock_laws R F).

Lemma lasts_nonneg {A} (op : W → A * W) hi w : lasts op 0 hi → 0 ≤ hi.
Proof.
  intros Hop. destruct (op w) as [a w1] eqn:E1, (sender w1) as [ws w2] eqn:E2.
  pose proof (Hop _ _ _ _ _ E1 E2). lia.
Qed.
Lemma request_nonneg w : 0 ≤ R.
Proof. eapply (lasts_nonneg (connect "")), laws. exact w. Qed.
Lemma drain_nonneg w : 0 ≤ F.
Proof. eapply (lasts_nonneg flush_wait), laws. exact w. Qed.

(** Time passes and the configuration stays. *)
Definition later : relation (Producer Conn * W) := λ s s',
  now s.2 ≤ now s'.2 ∧ cfg s'.1 = cfg s.1.

#[local] Instance later_preorder : PreOrder later.
Proof.
  split; [by intros s; split; [lia|]|]. intros s1 s2 s3 [? ?] [? ?].
  split; [lia|congruence].
Qed.

(** [m] returns, and does so by time [T]. *)
Definition ends_by {A} (T : Z) (m : @txn W Conn A) (s : Producer Conn * W) : Prop :=
  ∃ a s', m s = Some (a, s') ∧ later s s' ∧ now s'.2 ≤ T.

Lemma ends_ret {A} T (a : A) s : now s.2 ≤ T → ends_by T (mret a) s.
Proof. intros. by exists a, s. Qed.

Lemma ends_mono {A} T T' (m : @txn W Conn A) s : ends_by T m s → T ≤ T' → ends_by T' m s.
Proof. intros (a & s' & E & Hl & Ht) HT. exists a, s'. split_and!; [done|done|lia]. Qed.

Lemma ends_bind {A B} T1 T (m : @txn W Conn A) (f : A → @txn W Conn B) s :
  ends_by T1 m s → (∀ a s', later s s' → now s'.2 ≤ T1 → ends_by T (f a) s') →
  ends_by T (m ≫= f) s.
Proof.
  intros (a & s1 & E & Hl & Ht) Hf. destruct (Hf a s1 Hl Ht) as (b & s2 & E2 & Hl2 & Ht2).
  exists b, s2. split_and!; [|by etransitivity|done]. unfold mbind, txn_bind. by rewrite E.
Qed.

(** A step without an await, which keeps the configuration. *)
Definition instant {A} (m : @txn W Conn A) : Prop :=
  ∀ s, ∃ a s', m s = Some (a, s') ∧ s'.2 = s.2 ∧ cfg s'.1 = cfg s.1.

Lemma ends_instant {A} T (m : @txn W Conn A) s : instant m → now s.2 ≤ T → ends_by T m s.
Proof.
  intros Hm HT. destruct (Hm s) as (a & s' & E & Hw & Hc).
  exists a, s'. unfold later. rewrite Hw. by split_and!.
Qed.
Lemma ends_step {A B} T (m : @txn W Conn A) (f : A → @txn W Conn B) s :
  instant m → (∀ a s', later s s' → now s'.2 = now s.2 → m s = Some (a, s') → ends_by T (f a) s') →
  ends_by T (m ≫= f) s.
Proof.
  intros Hm Hf. destruct (Hm s) as (a & s' & E & Hw & Hc).
  assert (later s s') as Hl by (unfold later; rewrite Hw; by split_and!).
  destruct (Hf a s' Hl ltac:(congruence) E) as (b & s2 & E2 & Hl2 & Ht2).
  exists b, s2. split_and!; [|by etransitivity|done]. unfold mbind, txn_bind. by rewrite E.
Qed.

Lemma instant_ret {A} (a : A) : instant (mret a).
Proof. intros s. by exists a, s. Qed.
Lemma instant_get : instant get.
Proof. intros [p w]. by eexists _, _. Qed.
Lemma instant_clock : instant clock.
Proof. intros [p w]. by eexists _, _. Qed.
Lemma instant_modify f : (∀ p, cfg (f p) = cfg p) → instant (modify f).
Proof. intros Hf [p w]. eexists _, _. split; [reflexivity|]. split; [done|apply Hf]. Qed.
Lemma instant_bind {A B} (m : @txn W Conn A) (f : A → @txn W Conn B) :
  instant m → (∀ a, instant (f a)) → instant (m ≫= f).
Proof.
  intros Hm Hf s. destruct (Hm s) as (a & s1 & E & Hw & Hc), (Hf a s1) as (b & s2 & E2 & Hw2 & Hc2).
  exists b, s2. split_and!; [|congruence|congruence]. unfold mbind, txn_bind. by rewrite E.
Qed.
#[local] Hint Resolve instant_ret instant_get instant_clock : txn.

Lemma resolve_cfg p : cfg (resolve_transaction_guard p) = cfg p.
Proof. unfold resolve_transaction_guard. by case_match. Qed.
Lemma recovery_cfg p : cfg (require_transaction_recovery p) = cfg p.
Proof. unfold require_transaction_recovery. by case_match. Qed.
Lemma instant_fatal_error e : instant (fatal_error e).
Proof. apply instant_bind; [apply instant_modify; intros; by rewrite resolve_cfg|auto with txn]. Qed.
Lemma instant_fatal_transaction code : instant (fatal_transaction code).
Proof. apply instant_bind; [by apply instant_modify|intros; apply instant_fatal_error]. Qed.
Lemma instant_fence : instant fence_transaction.
Proof. apply instant_bind; [by apply instant_modify|intros; apply instant_fatal_error]. Qed.
Lemma instant_abortable code : instant (abortable_error code).
Proof. apply instant_bind; [by apply instant_modify|auto with txn]. Qed.
Lemma instant_refused_lookup r : instant (refused_lookup r).
Proof. destruct r; [apply instant_abortable|apply instant_fatal_transaction]. Qed.
Lemma instant_init_lookup e : instant (init_lookup_error e).
Proof. destruct e as [[]|]; [apply instant_ret|apply instant_fatal_transaction|apply instant_ret]. Qed.
Lemma instant_fail {E A} (m : @txn W Conn E) : instant m → instant (fail_with (A := A) m).
Proof. intros Hm. apply instant_bind; auto with txn. Qed.
Lemma instant_restore {A} previous e : instant (restore (A := A) previous e).
Proof. apply instant_bind; [by apply instant_modify|auto with txn]. Qed.
#[local] Hint Resolve instant_fatal_error instant_fatal_transaction instant_fence instant_abortable
  instant_refused_lookup instant_init_lookup instant_fail instant_restore : txn.

Lemma instant_apply_end_txn e previous : instant (apply_end_txn e previous).
Proof.
  destruct e as [[[] identity]|e]; simpl; repeat (apply instant_bind; [|intros ?]); auto with txn;
    apply instant_modify; intros p; rewrite ?resolve_cfg; simpl; rewrite ?recovery_cfg; try done.
  destruct identity; [|done]. unfold adopt_transactional_identity. by case_match.
Qed.
Lemma instant_install_identity c r x : instant (install_identity c r x).
Proof.
  unfold install_identity. repeat (apply instant_bind; [|intros ?]); auto with txn;
    try (apply instant_modify; intros p; rewrite ?resolve_cfg; done).
  - apply instant_modify. intros p. unfold adopt_transactional_identity. by case_match.
  - intros [p w]. by eexists _, _.
Qed.

(** Awaits. *)
Lemma io_ends {A} (op : W → A * W) lo hi p w :
  0 ≤ lo → lasts op lo hi →
  ∃ a s', io op (p, w) = Some (a, s') ∧ later (p, w) s' ∧ now w + lo ≤ now s'.2 ≤ now w + hi.
Proof.
  intros Hlo Hop. unfold io. destruct (op w) as [a w1] eqn:E1, (sender w1) as [ws w2] eqn:E2.
  pose proof (Hop _ _ _ _ _ E1 E2). eexists _, _. split; [done|]. unfold later. simpl. split; [|lia].
  split; [lia|done].
Qed.
Lemma ends_io {A B} T hi (op : W → A * W) (f : A → @txn W Conn B) s :
  lasts op 0 hi → (∀ a s', later s s' → now s'.2 ≤ now s.2 + hi → ends_by T (f a) s') →
  ends_by T (io op ≫= f) s.
Proof.
  destruct s as [p w]. intros Hop Hf.
  destruct (io_ends op 0 hi p w ltac:(lia) Hop) as (a & s' & E & Hl & Ht).
  apply (ends_bind (now w + hi)); [exists a, s'; by split_and!; [| |lia]|exact Hf].
Qed.

Lemma ends_sleep {B} T d (f : unit → @txn W Conn B) s :
  (∀ s', later s s' → now s.2 + Z.max 0 d ≤ now s'.2 ≤ now s.2 + Z.max 0 d + R → ends_by T (f tt) s') →
  ends_by T (io (sleep d) ≫= f) s.
Proof.
  destruct s as [p w]. intros Hf.
  destruct (io_ends (sleep d) (Z.max 0 d) (Z.max 0 d + R) p w ltac:(lia) ltac:(apply laws))
    as ([] & s' & E & Hl & Ht).
  destruct (Hf s' Hl ltac:(simpl; lia)) as (b & s2 & E2 & Hl2 & Ht2).
  exists b, s2. split_and!; [|by etransitivity|done]. unfold mbind, txn_bind. by rewrite E.
Qed.

(** The turns left before [dl], and the fuel that suffices for them. *)
Definition turns (dl : Z) (w : W) : Z := Z.max 0 (dl - now w).
Definition enough (fuel : nat) (dl : Z) (w : W) : Prop := turns dl w < Z.of_nat fuel.

(** Backoffs of at least one tick. *)
Definition backs_off (c : TxnConfig) : Prop :=
  1 ≤ init_retry_backoff c ∧ 1 ≤ retry_backoff_max c.

Lemma next_backoff_pos b mb : 1 ≤ b → 1 ≤ mb → 1 ≤ next_backoff b mb.
Proof. unfold next_backoff, duration_saturating_mul, duration_max. lia. Qed.

Lemma enough_later fuel dl s s' : enough fuel dl s.2 → later s s' → enough fuel dl s'.2.
Proof. unfold enough, turns, later. lia. Qed.
Lemma no_fuel dl w : ¬ enough 0 dl w.
Proof. unfold enough, turns. lia. Qed.

(** The state of a retry loop that can go on: a positive backoff, a positive
    cap, the configuration it was started with, and fuel for the turns left. *)
Definition can_retry (fuel : nat) (r : CoordinatorRetry) (s : Producer Conn * W) : Prop :=
  1 ≤ backoff r ∧ 1 ≤ max_backoff r ∧ backs_off (cfg s.1) ∧ enough fuel (deadline r) s.2.

Lemma can_retry_later fuel r s s' : can_retry fuel r s → later s s' → can_retry fuel r s'.
Proof.
  intros (? & ? & ? & ?) Hl. split_and!; [done|done| |by eapply enough_later].
  destruct Hl as [_ ->]. done.
Qed.
Lemma can_retry_fuel r s : ¬ can_retry 0 r s.
Proof. intros (_ & _ & _ & H). by apply no_fuel in H. Qed.

(** A turn that waits either stops, at most [R] after the deadline if it came
    before it, or goes on before the deadline with fuel for one turn less. *)
Lemma ends_wait {B} fuel r (f : bool * CoordinatorRetry → @txn W Conn B) T s :
  can_retry (S fuel) r s →
  (∀ r' s', now s'.2 ≤ Z.max (now s.2) (deadline r + R) → ends_by T (f (false, r')) s') →
  (∀ r' s', deadline r' = deadline r → can_retry fuel r' s' → can_retry (S fuel) r' s' →
     now s'.2 < deadline r → ends_by T (f (true, r')) s') →
  ends_by T (retry_wait r ≫= f) s.
Proof.
  destruct s as [p w]. intros (Hb & Hm & Hc & Hf) Hstop Hgo. simpl in *.
  assert (∀ a s', retry_wait r (p, w) = Some (a, s') → later (p, w) s' → ends_by T (f a) s' →
    ends_by T (retry_wait r ≫= f) (p, w)) as Hb2.
  { intros a s' E Hl (b & s2 & E2 & Hl2 & Ht). exists b, s2.
    split_and!; [|by etransitivity|done]. unfold mbind, txn_bind. by rewrite E. }
  destruct (decide (deadline r ≤ now w)) as [Hd|Hd].
  { apply (Hb2 (false, r) (p, w)); [|done|apply Hstop; simpl; lia].
    unfold retry_wait. unfold mbind, txn_bind. simpl. by rewrite Z.max_l by lia. }
  set (d := Z.min (backoff r) (Z.max 0 (deadline r - now w))).
  destruct (io_ends (sleep d) (Z.max 0 d) (Z.max 0 d + R) p w ltac:(lia) ltac:(apply laws))
    as ([] & [p' w'] & E & Hl & Ht). simpl in Ht.
  set (r' := mkRetry (deadline r) (next_backoff (backoff r) (max_backoff r)) (max_backoff r)).
  apply (Hb2 (now w' <? deadline r, r') (p', w')); [|done|].
  { unfold retry_wait. unfold mbind, txn_bind. simpl.
    rewrite (proj2 (Z.eqb_neq _ _)) by lia. fold d. by rewrite E. }
  assert (backs_off (cfg p')) by (destruct Hl as [_ E3]; simpl in *; congruence).
  pose proof (next_backoff_pos _ _ Hb Hm). pose proof (request_nonneg w).
  destruct (Z.ltb_spec (now w') (deadline r)).
  - apply Hgo; [done| | |simpl; lia]; split_and!; simpl; try done;
      unfold enough, turns in *; simpl in *; lia.
  - apply Hstop. simpl. lia.
Qed.

Lemma find_loop_ends fuel key kt r s T :
  can_retry fuel r s → Z.max (now s.2) (deadline r) + 2 * R ≤ T →
  ends_by T (find_coordinator_loop fuel key kt r) s.
Proof.
  revert r s. induction fuel as [|fuel IH]; intros r s Hc HT; [by apply can_retry_fuel in Hc|].
  pose proof (request_nonneg s.2) as HR.
  cbn [find_coordinator_loop]. apply (ends_io _ R); [apply laws|]. intros sent s1 Hl1 Ht1.
  match goal with |- ends_by _ (match ?x with _ => _ end) _ => destruct x as [[[attempt addr] le]|e] end;
    [|apply ends_ret; lia].
  destruct (decide_find_coordinator attempt); [apply ends_ret; lia| |apply ends_ret; lia].
  apply (ends_bind (now s1.2 + R)).
  { destruct (bool_decide _); [|apply ends_ret; lia]. destruct s1 as [p1 w1].
    destruct (io_ends (reconnect_bootstrap None) 0 R p1 w1) as (a & s' & E & Hl & Ht);
      [lia|apply laws|]. exists a, s'. split_and!; [done|done|simpl in *; lia]. }
  intros [] s2 Hl2 Ht2. apply (ends_wait fuel).
  - eapply can_retry_later; [|exact Hl2]. by eapply can_retry_later.
  - intros r' s' Ht. apply ends_ret. lia.
  - intros r' s' Hd Hc1 _ Hlt. apply IH; [done|]. rewrite Hd. lia.
Qed.

(** A lookup ends within [k] requests of its deadline. *)
Lemma find_ends fuel key kt dl s T :
  backs_off (cfg s.1) → enough fuel dl s.2 → Z.max (now s.2) dl + 2 * R ≤ T →
  ends_by T (find_coordinator fuel key kt dl) s.
Proof.
  intros Hc Hf HT. unfold find_coordinator. apply ends_step; [apply instant_get|].
  destruct s as [p w]. intros q s' Hl Ht [= <- <-]. apply find_loop_ends; [|simpl in *; lia].
  destruct Hc. by split_and!.
Qed.

Lemma reconnect_ends fuel tid dl s T :
  backs_off (cfg s.1) → enough fuel dl s.2 → Z.max (now s.2) dl + 3 * R ≤ T →
  ends_by T (reconnect_txn_coordinator fuel tid dl) s.
Proof.
  intros Hc Hf HT. pose proof (request_nonneg s.2).
  unfold reconnect_txn_coordinator, find_txn_coordinator.
  apply (ends_bind (Z.max (now s.2) dl + 2 * R)); [by apply find_ends|].
  intros [addr|e] s1 Hl Ht; [|apply ends_ret; lia].
  apply (ends_io _ R); [apply laws|]. intros [c|e] s2 _ Ht2; [|apply ends_ret; lia].
  apply ends_step; [by apply instant_modify|]. intros _ s3 _ Ht3 _. apply ends_ret. lia.
Qed.

Lemma connect_group_ends fuel g dl s T :
  backs_off (cfg s.1) → enough fuel dl s.2 → Z.max (now s.2) dl + 3 * R ≤ T →
  ends_by T (connect_group_coordinator fuel g dl) s.
Proof.
  intros Hc Hf HT. pose proof (request_nonneg s.2).
  unfold connect_group_coordinator, find_group_coordinator.
  apply (ends_bind (Z.max (now s.2) dl + 2 * R)); [by apply find_ends|].
  intros [addr|e] s1 Hl Ht; [|apply ends_ret; lia].
  apply (ends_io _ R); [apply laws|]. intros x s2 _ Ht2. apply ends_ret. lia.
Qed.

Lemma rediscovered_ends fuel tid c dl s T :
  backs_off (cfg s.1) → enough fuel dl s.2 → Z.max (now s.2) dl + 4 * R ≤ T →
  ends_by T (rediscovered_txn_coordinator fuel tid c dl) s.
Proof.
  intros Hc Hf HT. pose proof (request_nonneg s.2). unfold rediscovered_txn_coordinator.
  apply (ends_bind (Z.max (now s.2) dl + 3 * R)); [by apply reconnect_ends|].
  intros [fresh|[refusal|e]] s1 _ Ht; [apply ends_ret; lia..|].
  apply (ends_io _ R); [apply laws|]. intros _ s2 _ Ht2. apply ends_ret. lia.
Qed.

Lemma end_txn_loop_ends fuel c request committed dl mb b lost s :
  1 ≤ b → 1 ≤ mb → backs_off (cfg s.1) → enough fuel dl s.2 → now s.2 ≤ dl + 5 * R →
  ends_by (dl + 6 * R) (end_txn_loop fuel c request committed dl mb b lost) s.
Proof.
  revert c b lost s. induction fuel as [|fuel IH]; intros c b lost s Hb Hm Hc Hf Ht.
  { by apply no_fuel in Hf. }
  pose proof (request_nonneg s.2) as HR.
  cbn [end_txn_loop]. apply ends_step; [apply instant_get|]. intros q s0 Hl0 Ht0 _.
  apply (ends_io _ R); [apply laws|]. intros sent s1 Hl1 Ht1.
  destruct (end_txn_attempt sent) as [[attempt identity]|e]; [|apply ends_ret; lia].
  cbn zeta. set (lost' := lost || _).
  destruct (decide_end_txn attempt lost committed) as [|rediscover| | | | | |];
    try (apply ends_ret; lia).
  assert (later s s1) as Hl by (by etransitivity).
  unfold end_txn_retry. apply ends_step; [apply instant_clock|]. destruct s1 as [p1 w1].
  intros t s1' _ _ [= <- <-]. cbn zeta. simpl in Ht1, Hl.
  destruct (Z.eqb_spec (Z.max 0 (dl - now w1)) 0); [apply ends_ret; simpl; lia|].
  apply ends_sleep. intros s2 Hl2 Ht2. simpl in Ht2.
  assert (later s s2) as Hl12 by (by etransitivity).
  assert (∀ c s', later s2 s' → now s'.2 ≤ dl + 5 * R →
    ends_by (dl + 6 * R) (end_txn_loop fuel c request committed dl mb (next_backoff b mb) lost') s')
    as Hagain.
  { intros c' s' Hl3 Ht3. apply IH; [by apply next_backoff_pos|done| | |done].
    - destruct Hl12 as [_ E1], Hl3 as [_ E2]. congruence.
    - unfold enough, turns, later in *. simpl in *. lia. }
  destruct rediscover; [|apply Hagain; [done|lia]].
  apply (ends_bind (dl + 4 * R)).
  { apply reconnect_ends; [destruct Hl12 as [_ E1]; congruence|by eapply enough_later|lia]. }
  intros [fresh|[refusal|e]] s3 Hl3 Ht3; [apply Hagain; [done|lia]| |].
  - destruct (decide_end_txn_after_refused_lookup refusal lost' committed);
      try (apply ends_ret; lia). apply Hagain; [done|lia].
  - apply (ends_io _ R); [apply laws|]. intros _ s4 Hl4 Ht4. apply Hagain; [by etransitivity|lia].
Qed.

(** The retry loops share one turn: the request, a decision to stop, or a wait
    and perhaps a new lookup before the next turn. *)
Lemma add_partitions_loop_ends fuel request c r s :
  can_retry fuel r s → now s.2 ≤ deadline r + 4 * R →
  ends_by (deadline r + 5 * R) (add_partitions_loop fuel request c r) s.
Proof.
  revert c r s. induction fuel as [|fuel IH]; intros c r s Hc Ht; [by apply can_retry_fuel in Hc|].
  pose proof (request_nonneg s.2) as HR.
  cbn [add_partitions_loop]. apply (ends_io _ R); [apply laws|]. intros sent s1 Hl1 Ht1.
  match goal with |- ends_by _ (match ?x with _ => _ end) _ => destruct x as [[attempt le]|e] end;
    [|apply ends_ret; lia].
  destruct (decide_add_partitions attempt) as [|rediscover| | |];
    try (apply ends_instant; [solve [auto with txn]|lia]).
  apply (ends_wait fuel); [by eapply can_retry_later|intros; apply ends_ret; lia|].
  intros r' s' <- Hc1 Hc2 Hlt. cbn [negb]. destruct rediscover; [|apply IH; [done|lia]].
  destruct Hc2 as (_ & _ & Hcfg & Hen).
  apply (ends_bind (deadline r' + 4 * R)); [apply rediscovered_ends; [done|done|lia]|].
  intros [c'|[|]] s2 Hl2 Ht2; try (apply ends_instant; [solve [auto with txn]|lia]).
  apply IH; [by eapply can_retry_later|lia].
Qed.

Lemma add_offsets_loop_ends fuel request c r s :
  can_retry fuel r s → now s.2 ≤ deadline r + 4 * R →
  ends_by (deadline r + 5 * R) (add_offsets_loop fuel request c r) s.
Proof.
  revert c r s. induction fuel as [|fuel IH]; intros c r s Hc Ht; [by apply can_retry_fuel in Hc|].
  pose proof (request_nonneg s.2) as HR.
  cbn [add_offsets_loop]. apply (ends_io _ R); [apply laws|]. intros sent s1 Hl1 Ht1.
  destruct (reached id sent) as [[attempt le]|e]; [|apply ends_ret; lia].
  destruct (decide_add_offsets_to_txn attempt) as [|rediscover| | |];
    try (apply ends_instant; [solve [auto with txn]|lia]).
  apply (ends_wait fuel); [by eapply can_retry_later|intros; apply ends_ret; lia|].
  intros r' s' <- Hc1 Hc2 Hlt. cbn [negb]. destruct rediscover; [|apply IH; [done|lia]].
  destruct Hc2 as (_ & _ & Hcfg & Hen).
  apply (ends_bind (deadline r' + 4 * R)); [apply rediscovered_ends; [done|done|lia]|].
  intros [c'|rf] s2 Hl2 Ht2; try (apply ends_instant; [solve [auto with txn]|lia]).
  apply IH; [by eapply can_retry_later|lia].
Qed.

Lemma init_producer_id_loop_ends fuel tid request c r s :
  can_retry fuel r s → now s.2 ≤ deadline r + 4 * R →
  ends_by (deadline r + 5 * R) (init_producer_id_loop fuel tid request c r) s.
Proof.
  revert c r s. induction fuel as [|fuel IH]; intros c r s Hc Ht; [by apply can_retry_fuel in Hc|].
  pose proof (request_nonneg s.2) as HR.
  cbn [init_producer_id_loop]. apply (ends_io _ R); [apply laws|]. intros sent s1 Hl1 Ht1.
  match goal with |- ends_by _ (match ?x with _ => _ end) _ => destruct x as [[attempt lo]|e] end;
    [|apply ends_ret; lia].
  cbn zeta. destruct (decide_init_producer_id attempt) as [|rediscover| | |];
    try (apply ends_instant; [solve [auto with txn]|lia]).
  apply (ends_wait fuel); [by eapply can_retry_later|intros; apply ends_ret; lia|].
  intros r' s' <- Hc1 Hc2 Hlt. cbn [negb]. destruct rediscover; [|apply IH; [done|lia]].
  destruct Hc2 as (_ & _ & Hcfg & Hen).
  apply (ends_bind (deadline r' + 4 * R)); [apply rediscovered_ends; [done|done|lia]|].
  intros [c'|rf] s2 Hl2 Ht2; try (apply ends_instant; [solve [auto with txn]|lia]).
  apply IH; [by eapply can_retry_later|lia].
Qed.

Lemma commit_retry_ends fuel cap request c r s :
  can_retry fuel r s → now s.2 ≤ deadline r + 4 * R →
  ends_by (deadline r + 5 * R) (txn_offset_commit_retry fuel cap request c r) s.
Proof.
  revert c r s. induction fuel as [|fuel IH]; intros c r s Hc Ht; [by apply can_retry_fuel in Hc|].
  pose proof (request_nonneg s.2) as HR.
  cbn [txn_offset_commit_retry]. apply (ends_io _ R); [apply laws|]. intros sent s1 Hl1 Ht1.
  destruct (reached txn_offset_commit_error_code sent) as [[attempt le]|e]; [|apply ends_ret; lia].
  destruct (decide_txn_offset_commit attempt) as [|rediscover| | |];
    try (apply ends_instant; [solve [auto with txn]|lia]).
  apply (ends_wait fuel); [by eapply can_retry_later|intros; apply ends_ret; lia|].
  intros r' s' <- Hc1 Hc2 Hlt. cbn [negb]. destruct rediscover; [|apply IH; [done|lia]].
  destruct Hc2 as (_ & _ & Hcfg & Hen).
  apply (ends_bind (deadline r' + 3 * R)); [apply connect_group_ends; [done|done|lia]|].
  intros [c'|[refusal|e]] s2 Hl2 Ht2; try (apply ends_instant; [solve [auto with txn]|lia]).
  - apply IH; [by eapply can_retry_later|lia].
  - apply (ends_io _ R); [apply laws|]. intros _ s3 Hl3 Ht3. apply IH; [|lia].
    eapply can_retry_later; [|exact Hl3]. by eapply can_retry_later.
Qed.

(** Fuel for the whole retry timeout of the producer. *)
Definition timeout_fuel (fuel : nat) (p : Producer Conn) : Prop :=
  backs_off (cfg p) ∧ 0 ≤ init_retry_timeout (cfg p) < Z.of_nat fuel.

Lemma timeout_fuel_later fuel s s' : timeout_fuel fuel s.1 → later s s' → timeout_fuel fuel s'.1.
Proof. intros Hf [_ E]. unfold timeout_fuel. by rewrite E. Qed.

(** A retry that starts with the producer's limits. *)
Lemma can_retry_until fuel p q w dl :
  timeout_fuel fuel p → cfg q = cfg p → dl ≤ now w + init_retry_timeout (cfg p) →
  can_retry fuel (coordinator_retry_until p dl) (q, w).
Proof.
  intros [[H1 H2] H3] Hq Hdl. split_and!; simpl; [done|done|by rewrite Hq|].
  unfold enough, turns. lia.
Qed.

Lemma ends_coordinator_retry {B} fuel (f : CoordinatorRetry → @txn W Conn B) T s :
  timeout_fuel fuel s.1 →
  (∀ r, can_retry fuel r s → deadline r = now s.2 + init_retry_timeout (cfg s.1) → ends_by T (f r) s) →
  ends_by T (coordinator_retry ≫= f) s.
Proof.
  destruct s as [p w]. intros Hf Hgo.
  destruct (Hgo (coordinator_retry_until p (now w + init_retry_timeout (cfg p))))
    as (b & s2 & E & Hl & Ht); [by apply (can_retry_until fuel p)|done|].
  exists b, s2. by split_and!.
Qed.

(** The time by which an operation that retries once ends. *)
Definition after_retry (k : Z) (s : Producer Conn * W) : Z :=
  now s.2 + init_retry_timeout (cfg s.1) + k * R.

Lemma register_ends fuel topic partition s :
  timeout_fuel fuel s.1 →
  ends_by (after_retry 5 s) (register_transaction_partition fuel topic partition) s.
Proof.
  destruct s as [p w]. intros Hf. pose proof (request_nonneg w). unfold after_retry. simpl.
  assert (0 ≤ init_retry_timeout (cfg p)) by apply Hf.
  unfold register_transaction_partition. apply ends_step; [apply instant_get|].
  intros q s' _ _ [= <- <-].
  destruct (transactional_id (cfg p)); [|apply ends_ret; simpl; lia].
  destruct (transaction_v2 p); [apply ends_ret; simpl; lia|].
  destruct (txn_coord_client p) as [c|]; [|apply ends_ret; simpl; lia]. destruct (txn_pid_epoch p).
  eapply ends_coordinator_retry; [done|]. intros r Hr Hd. simpl in Hd. rewrite <- Hd.
  apply add_partitions_loop_ends; [done|simpl; lia].
Qed.

Lemma drain_for_end_ends committed s : ends_by (now s.2 + F) (drain_for_end committed) s.
Proof.
  pose proof (drain_nonneg s.2). unfold drain_for_end. destruct committed.
  - apply (ends_io _ F); [apply laws|]. intros [] s1 _ Ht; [|apply ends_ret; lia].
    apply ends_step; [apply instant_get|]. intros q s2 _ Ht2 _. case_match; apply ends_ret; lia.
  - destruct s as [p w]. destruct (io_ends abort_undrained_wait 0 F p w) as (a & s' & E & Hl & Ht);
      [lia|apply laws|]. exists a, s'. split_and!; [done|done|simpl; lia].
Qed.

Lemma end_transaction_ends fuel committed s :
  timeout_fuel fuel s.1 → ends_by (after_retry 6 s + F) (end_transaction fuel committed) s.
Proof.
  destruct s as [p w]. intros Hf. pose proof (request_nonneg w). pose proof (drain_nonneg w).
  unfold after_retry. simpl. assert (0 ≤ init_retry_timeout (cfg p)) by apply Hf.
  unfold end_transaction. apply ends_step; [apply instant_get|]. intros q s' _ _ [= <- <-].
  destruct (transactional_id (cfg p)) as [tid|]; [|apply ends_ret; simpl; lia].
  destruct (fatal_error_state p); [apply ends_ret; simpl; lia|].
  destruct (negb _); [apply ends_ret; simpl; lia|].
  apply ends_step; [by apply instant_modify|]. intros _ s0 Hl0 Ht0 _. simpl in Ht0.
  apply (ends_bind (now s0.2 + F)); [apply drain_for_end_ends|].
  intros [u|e] s1 Hl1 Ht1; [|apply ends_instant; [solve [auto with txn]|lia]].
  assert (later (p, w) s1) as Hl by (by etransitivity). destruct s1 as [p1 w1]. simpl in Ht1.
  apply ends_step; [apply instant_get|]. intros q s' _ _ [= <- <-].
  destruct (txn_coord_client p1) as [c|]; [|apply ends_instant; [solve [auto with txn]|simpl; lia]].
  destruct (txn_pid_epoch p1) as [pid epoch].
  pose proof (timeout_fuel_later fuel _ _ Hf Hl) as [[Hb1 Hb2] Hb3]. simpl in *.
  destruct Hl as [Hn Hcfg]. simpl in *.
  apply (ends_bind (now w1 + init_retry_timeout (cfg p) + 6 * R));
    [|intros x s2 _ Ht2; apply ends_instant; [apply instant_apply_end_txn|lia]].
  unfold send_end_txn_until_decided. apply ends_step; [apply instant_get|]. intros q s' _ _ [= <- <-].
  apply ends_step; [apply instant_clock|]. intros t s' _ _ [= <- <-]. rewrite <- Hcfg.
  apply end_txn_loop_ends; try done; simpl; [|lia]. unfold enough, turns. lia.
Qed.

Lemma initialize_ends fuel tid keep dl s :
  timeout_fuel fuel s.1 → dl = now s.2 + init_retry_timeout (cfg s.1) →
  ends_by (after_retry 5 s) (initialize fuel tid keep dl) s.
Proof.
  intros Hf Hdl. pose proof (request_nonneg s.2). unfold after_retry. rewrite <- Hdl.
  pose proof Hf as [Hc Hfu]. unfold initialize, find_txn_coordinator.
  apply (ends_bind (dl + 2 * R)).
  { apply find_ends; [done|unfold enough, turns; lia|lia]. }
  intros [addr|e] s1 Hl1 Ht1; [|apply ends_instant; [solve [auto with txn]|lia]].
  apply (ends_io _ R); [apply laws|]. intros [c|e] s2 Hl2 Ht2; [|apply ends_ret; lia].
  assert (later s s2) as Hl by (by etransitivity). destruct s2 as [p2 w2]. simpl in Ht2.
  apply ends_step; [apply instant_get|]. intros q s' _ _ [= <- <-].
  pose proof (timeout_fuel_later fuel _ _ Hf Hl) as Hf2. destruct Hl as [Hn Hcfg]. simpl in *.
  change dl with (deadline (coordinator_retry_until p2 dl)).
  apply init_producer_id_loop_ends; [|simpl; lia].
  apply (can_retry_until fuel p2); [done|done|]. simpl. rewrite Hcfg. lia.
Qed.

Lemma init_transactions_ends fuel keep s :
  timeout_fuel fuel s.1 →
  ends_by (after_retry 5 s) (init_transactions_with_keep_prepared fuel keep) s.
Proof.
  destruct s as [p w]. intros Hf. pose proof (request_nonneg w).
  assert (0 ≤ init_retry_timeout (cfg p)) by apply Hf.
  unfold init_transactions_with_keep_prepared. apply ends_step; [apply instant_get|].
  intros q s' _ _ [= <- <-].
  destruct (transactional_id (cfg p)) as [tid|]; [|apply ends_ret; unfold after_retry; simpl; lia].
  destruct (fatal_error_state p); [apply ends_ret; unfold after_retry; simpl; lia|].
  destruct (negb _); [apply ends_ret; unfold after_retry; simpl; lia|].
  apply ends_step; [by apply instant_modify|]. intros [] s0 _ _ E0. injection E0 as <-.
  apply ends_step; [apply instant_clock|]. intros t s1 _ _ E1. injection E1 as <- <-.
  apply (ends_bind (after_retry 5 (p, w))); [by apply (initialize_ends fuel tid keep _ (set_state Initializing p, w))|].
  intros [[c r]|e] s1 _ Ht.
  - destruct (_ =? 0).
    + destruct (_ && _); [|apply ends_instant; [apply instant_install_identity|done]].
      case_match; apply ends_instant; [apply instant_install_identity|done|auto with txn|done].
    + case_match; apply ends_instant; auto with txn.
  - apply ends_step; [apply instant_get|]. intros q s2 _ Ht2 _.
    case_match; apply ends_instant; auto with txn; lia.
Qed.

Lemma add_offsets_ends fuel tid pid epoch g s :
  timeout_fuel fuel s.1 → ends_by (after_retry 5 s) (add_offsets_to_txn fuel tid pid epoch g) s.
Proof.
  destruct s as [p w]. intros Hf. pose proof (request_nonneg w). unfold after_retry. simpl.
  assert (0 ≤ init_retry_timeout (cfg p)) by apply Hf.
  unfold add_offsets_to_txn. apply ends_step; [apply instant_get|]. intros q s' _ _ [= <- <-].
  destruct (txn_coord_client p) as [c|]; [|apply ends_ret; simpl; lia].
  eapply ends_coordinator_retry; [done|]. intros r Hr Hd. simpl in Hd. rewrite <- Hd.
  apply add_offsets_loop_ends; [done|simpl; lia].
Qed.

Lemma txn_offset_commit_ends fuel tid pid epoch g topics s :
  timeout_fuel fuel s.1 →
  ends_by (after_retry 5 s) (txn_offset_commit fuel tid pid epoch g topics) s.
Proof.
  destruct s as [p w]. intros Hf. pose proof (request_nonneg w). unfold after_retry. simpl.
  assert (0 ≤ init_retry_timeout (cfg p)) by apply Hf.
  unfold txn_offset_commit. apply ends_step; [apply instant_get|]. intros q s' _ _ [= <- <-].
  cbn zeta. eapply ends_coordinator_retry; [done|]. intros r Hr Hd. simpl in Hd. rewrite <- Hd.
  pose proof Hr as (_ & _ & Hc & He).
  apply (ends_bind (deadline r + 3 * R)); [apply connect_group_ends; [done|done|simpl; lia]|].
  intros [c|[refusal|e]] s1 Hl Ht; try (apply ends_instant; [solve [auto with txn]|lia]).
  apply commit_retry_ends; [by eapply can_retry_later|lia].
Qed.

Lemma send_offsets_ends fuel offsets g s :
  timeout_fuel fuel s.1 →
  ends_by (after_retry 5 s + F + init_retry_timeout (cfg s.1) + 5 * R)
    (send_offsets_to_transaction fuel offsets g) s.
Proof.
  destruct s as [p w]. intros Hf. pose proof (request_nonneg w). pose proof (drain_nonneg w).
  unfold after_retry. simpl. assert (0 ≤ init_retry_timeout (cfg p)) by apply Hf.
  unfold send_offsets_to_transaction. apply ends_step; [apply instant_get|]. intros q s' _ _ [= <- <-].
  destruct (transactional_id (cfg p)) as [tid|]; [|apply ends_ret; simpl; lia].
  destruct (fatal_error_state p); [apply ends_ret; simpl; lia|].
  destruct (txn_state p); try (apply ends_ret; simpl; lia).
  destruct (abortable_error_state p); [apply ends_ret; simpl; lia|].
  apply (ends_io _ F); [apply laws|]. intros [ids|e] s1 Hl1 Ht1; [|apply ends_ret; simpl in *; lia].
  apply ends_step; [apply instant_get|]. destruct s1 as [p1 w1]. intros q s' _ _ [= <- <-].
  destruct (txn_pid_epoch p1) as [pid epoch].
  pose proof (timeout_fuel_later fuel (p, w) (p1, w1) Hf Hl1) as Hf1.
  destruct Hl1 as [_ Hc1]. simpl in *.
  apply (ends_bind (after_retry 5 (p1, w1))).
  { destruct (negb _); [by apply add_offsets_ends|apply ends_ret].
    unfold after_retry. simpl. rewrite Hc1. lia. }
  unfold after_retry. simpl. rewrite Hc1.
  intros [u|e] s2 Hl2 Ht2; [|apply ends_ret; lia].
  pose proof (timeout_fuel_later fuel (p1, w1) s2 Hf1 Hl2) as Hf2. destruct Hl2 as [_ Hc2]. simpl in *.
  eapply ends_mono; [by apply txn_offset_commit_ends|]. unfold after_retry.
  replace (cfg s2.1) with (cfg p) by congruence. lia.
Qed.
End returns.

(** ** A simulated cluster

    A world for the witnesses: a coordinator that follows a script of replies
    to [EndTxn] (an answer, or a connection that breaks before or after the
    request was carried out), and that answers every lookup with one code. A
    tick of its clock is a nanosecond. *)
Module Sim.
Inductive reply : Type := Reply (code : Z) | BreakBefore | BreakAfter.

Record world (lookup_code : Z) : Type := mkWorld {
  time : Z; applied : bool; replies : list reply
}.
Arguments time {_}.
Arguments applied {_}.
Arguments replies {_}.

Section world.
Context {lookup_code : Z}.
Notation world := (world lookup_code).
Notation mkWorld := (mkWorld lookup_code).

Definition tick (d : Z) (w : world) : world :=
  mkWorld (time w + Z.max 0 d) (applied w) (replies w).

Definition end_txn (w : world) : result ClientError.client_error EndTxnResponse * world :=
  match replies w with
  | [] => (Ok (mkEndTxnResponse 0 (-1) (-1)), mkWorld (time w) true [])
  | Reply code :: rest =>
    (Ok (mkEndTxnResponse code (-1) (-1)),
     mkWorld (time w) (if code =? 0 then true else applied w) rest)
  | BreakBefore :: rest =>
    (Err ClientError.Disconnected, mkWorld (time w) (applied w) rest)
  | BreakAfter :: rest =>
    (Err ClientError.Disconnected, mkWorld (time w) true rest)
  end.

#[global] Instance sim_world : TxnWorld world unit := {
  now := time;
  sleep d w := (tt, tick d w);
  sender w := ([], w);
  flush_wait w := (Ok tt, w);
  abort_undrained_wait w := (Ok tt, w);
  connect _ w := (Ok tt, w);
  reconnect_bootstrap _ w := (tt, w);
  finalized_transaction_version _ _ := Some 2;
  request_find_coordinator _ _ w :=
    (Ok (mkFindCoordinatorResponse lookup_code "broker" 9092 []), w);
  request_end_txn _ _ _ w := end_txn w;
  request_init_producer_id _ _ w := (Ok (mkInitResponse 0 7 1 (-1) (-1)), w);
  request_add_partitions _ _ w := (Ok (mkAddPartitionsToTxnResponse 0 [] []), w);
  request_add_offsets _ _ w := (Ok 0, w);
  request_txn_offset_commit _ _ _ w := (Ok [], w);
  wait_topic_ids _ w := (Ok ∅, w);
}.

Lemma sim_outcome_laws : outcome_laws (applied (lookup_code := lookup_code)).
Proof.
  split; simpl.
  - intros _ _ _ w r w'. unfold end_txn. destruct (replies w) as [|[code| |] rest];
      intros; simplify_eq; done.
  - intros _ _ _ w e w'. unfold end_txn. destruct (replies w) as [|[code| |] rest];
      intros; simplify_eq; done.
  - intros; simplify_eq; done.
  - intros d w w' [= <-]. done.
  - intros; simplify_eq; done.
  - intros; simplify_eq; done.
  - intros; simplify_eq; done.
  - intros; simplify_eq; done.
  - intros; simplify_eq; done.
Qed.

Lemma sim_clock_laws : clock_laws (W := world) (Conn := unit) 0 0.
Proof.
  split; unfold lasts; simpl; try (intros; simplify_eq; lia).
  - intros d w [] w1 ws w2 [= <-] [= <- <-]. simpl. lia.
  - intros _ _ _ w x w1 ws w2. unfold end_txn.
    destruct (replies w) as [|[code| |] rest]; intros; simplify_eq; simpl; lia.
Qed.
End world.

Lemma sim_lookups_allowed : lookups_allowed (W := world 0) (Conn := unit).
Proof. intros key kt w r w' [= <- <-]. simpl. set_solver. Qed.

(** A producer inside a transaction. *)
Definition config : TxnConfig := mkTxnConfig (Some "tid") 60000 true 5 1 2.
Definition producer : Producer unit :=
  mkProducer config InTransaction false 0 1 (Some tt) (7, 1) TxnErrorSlot_default true None ∅.
End Sim.

(** ** The guards *)

Section guards.
Context {W Conn : Type} `{TW : !TxnWorld W Conn}.
Implicit Types (p : Producer Conn) (w : W).

(** Outside a transaction no guard is live: the generation is even. *)
Definition quiet (s : TxnState) : bool :=
  match s with Uninitialized | Ready | Prepared => true | _ => false end.
Definition guards_ok p : Prop :=
  0 ≤ txn_guard_generation p < 2 ^ 64 ∧
  (quiet (txn_state p) = true → txn_guard_generation p mod 2 = 0).

(** An operation leaves the generation alone, or resolves a live guard. *)
Definition guard_step p p' : Prop :=
  txn_guard_generation p' = txn_guard_generation p ∨
  (txn_guard_generation p mod 2 = 1 ∧
   txn_guard_generation p' = next_u64 (txn_guard_generation p)).

(** What the parts of an operation do: besides, they leave the state alone,
    or leave it in a state where a guard may be live. *)
Definition guard_rel : relation (Producer Conn * W) := λ s s',
  guard_step s.1 s'.1 ∧ (txn_state s'.1 = txn_state s.1 ∨ quiet (txn_state s'.1) = false).

Lemma next_u64_parity g : 0 ≤ g < 2 ^ 64 → next_u64 g mod 2 = (g + 1) mod 2 ∧ 0 ≤ next_u64 g < 2 ^ 64.
Proof. unfold next_u64. change (2 ^ 64) with 18446744073709551616. Z.div_mod_to_equations. lia. Qed.

Lemma next_u64_mod2 g : next_u64 g mod 2 = (g + 1) mod 2.
Proof. unfold next_u64. change (2 ^ 64) with 18446744073709551616. Z.div_mod_to_equations. lia. Qed.

Lemma guard_step_trans p1 p2 p3 : guard_step p1 p2 → guard_step p2 p3 → guard_step p1 p3.
Proof.
  unfold guard_step. intros [E|[H1 E]] H23; rewrite E in H23; [done|].
  destruct H23 as [->|[H3 _]]; [by right|]. rewrite next_u64_mod2 in H3.
  exfalso. revert H1 H3. Z.div_mod_to_equations. lia.
Qed.

#[local] Instance guard_rel_preorder : PreOrder guard_rel.
Proof.
  split.
  - intros s. split; by left.
  - intros s1 s2 s3 [G1 S1] [G2 S2]. split; [by eapply guard_step_trans|].
    destruct S2 as [->|]; [done|by right].
Qed.

Lemma guards_ok_step p p' :
  guards_ok p → guard_step p p' →
  (quiet (txn_state p') = true → txn_state p' = txn_state p ∨ txn_guard_generation p' mod 2 = 0) →
  guards_ok p'.
Proof.
  intros [Hr Hq] G Hs. split.
  - destruct G as [->|[_ ->]]; [done|]. by apply next_u64_parity.
  - intros Hq'. destruct (Hs Hq') as [E|E]; [|done]. rewrite E in Hq'. specialize (Hq Hq').
    destruct G as [->|[Ho ->]]; [done|]. exfalso. lia.
Qed.

Lemma guards_ok_rel s s' : guards_ok s.1 → guard_rel s s' → guards_ok s'.1.
Proof.
  intros Hok [G S]. eapply guards_ok_step; [done|done|]. intros Hq. left.
  destruct S as [|S]; [done|congruence].
Qed.

Lemma resolve_step p : guard_step p (resolve_transaction_guard p).
Proof.
  unfold resolve_transaction_guard, guard_step.
  destruct (Z.eqb_spec (txn_guard_generation p mod 2) 1); [by right|by left].
Qed.

Lemma resolve_even p : txn_guard_generation (resolve_transaction_guard p) mod 2 = 0.
Proof.
  unfold resolve_transaction_guard.
  destruct (Z.eqb_spec (txn_guard_generation p mod 2) 1) as [E|E]; simpl.
  - rewrite next_u64_mod2. revert E. Z.div_mod_to_equations. lia.
  - revert E. Z.div_mod_to_equations. lia.
Qed.

Lemma io_guard {A} (op : W → A * W) : io_stable guard_rel op.
Proof. intros p w a w' ws w'' _ _. split; by left. Qed.

Lemma modify_guard f :
  (∀ p, guard_step p (f p)) →
  (∀ p, txn_state (f p) = txn_state p ∨ quiet (txn_state (f p)) = false) →
  stable guard_rel (modify f).
Proof. intros H1 H2. apply stable_modify. intros p w. split; [apply H1|apply H2]. Qed.

#[local] Hint Resolve io_guard resolve_step : txn.

Lemma fatal_error_guard e : stable guard_rel (fatal_error e).
Proof.
  unfold fatal_error. stable_tac. apply modify_guard; intros p.
  - apply (guard_step_trans _ (set_error (set_fatal (txn_error p) e) p)); [by left|].
    apply resolve_step.
  - left. by rewrite resolve_state.
Qed.

Lemma set_state_guard s : quiet s = false → stable guard_rel (modify (set_state s)).
Proof. intros Hs. apply modify_guard; intros p; [by left|by right]. Qed.

Lemma abortable_error_guard code : stable guard_rel (abortable_error code).
Proof. unfold abortable_error. stable_tac. apply modify_guard; intros p; by left. Qed.

Lemma fatal_transaction_guard code : stable guard_rel (fatal_transaction code).
Proof. unfold fatal_transaction. stable_tac; [by apply set_state_guard|apply fatal_error_guard]. Qed.
Lemma fence_guard : stable guard_rel fence_transaction.
Proof. unfold fence_transaction. stable_tac; [by apply set_state_guard|apply fatal_error_guard]. Qed.
Lemma fail_guard {E A} (m : @txn W Conn E) :
  stable guard_rel m → stable guard_rel (fail_with (A := A) m).
Proof. intros Hm. unfold fail_with. by stable_tac. Qed.
Lemma refused_lookup_guard r : stable guard_rel (refused_lookup r).
Proof. destruct r; [apply abortable_error_guard|apply fatal_transaction_guard]. Qed.
Lemma init_lookup_guard e : stable guard_rel (init_lookup_error e).
Proof. destruct e as [[]|]; simpl; stable_tac. apply fatal_transaction_guard. Qed.

Lemma coord_client_guard p w c : guard_rel (p, w) (set_coord_client c p, w).
Proof. split; by left. Qed.
Lemma retry_wait_guard r : stable guard_rel (retry_wait r).
Proof. apply retry_wait_stable; [apply _|intros; apply io_guard]. Qed.
Lemma find_guard fuel k kt dl : stable guard_rel (find_coordinator fuel k kt dl).
Proof. apply find_coordinator_stable; try apply _; intros; apply io_guard. Qed.
Lemma reconnect_guard fuel tid dl : stable guard_rel (reconnect_txn_coordinator fuel tid dl).
Proof. apply reconnect_stable; try apply _; intros; (apply io_guard || apply coord_client_guard). Qed.
Lemma rediscovered_guard fuel tid c dl :
  stable guard_rel (rediscovered_txn_coordinator fuel tid c dl).
Proof. apply rediscovered_stable; try apply _; intros; (apply io_guard || apply coord_client_guard). Qed.
Lemma connect_group_guard fuel g dl : stable guard_rel (connect_group_coordinator fuel g dl).
Proof. apply connect_group_stable; try apply _; intros; apply io_guard. Qed.

#[local] Hint Resolve fatal_error_guard abortable_error_guard fatal_transaction_guard fence_guard
  fail_guard refused_lookup_guard init_lookup_guard retry_wait_guard find_guard reconnect_guard
  rediscovered_guard connect_group_guard : txn.

Lemma add_partitions_guard fuel request c r : stable guard_rel (add_partitions_loop fuel request c r).
Proof.
  revert c r. induction fuel as [|fuel IH]; intros c r; [apply stable_running|].
  cbn [add_partitions_loop]. stable_tac.
Qed.
Lemma add_offsets_guard fuel request c r : stable guard_rel (add_offsets_loop fuel request c r).
Proof.
  revert c r. induction fuel as [|fuel IH]; intros c r; [apply stable_running|].
  cbn [add_offsets_loop]. stable_tac.
Qed.
Lemma offset_commit_guard fuel cap request c r :
  stable guard_rel (txn_offset_commit_retry fuel cap request c r).
Proof.
  revert c r. induction fuel as [|fuel IH]; intros c r; [apply stable_running|].
  cbn [txn_offset_commit_retry]. stable_tac.
Qed.
Lemma init_producer_id_guard fuel tid request c r :
  stable guard_rel (init_producer_id_loop fuel tid request c r).
Proof.
  revert c r. induction fuel as [|fuel IH]; intros c r; [apply stable_running|].
  cbn [init_producer_id_loop]. stable_tac.
Qed.
Lemma end_txn_loop_guard fuel c request committed dl mb b lost :
  stable guard_rel (end_txn_loop fuel c request committed dl mb b lost).
Proof.
  revert c b lost. induction fuel as [|fuel IH]; intros c b lost; [apply stable_running|].
  cbn [end_txn_loop]. unfold end_txn_retry. stable_tac.
Qed.
#[local] Hint Resolve add_partitions_guard add_offsets_guard offset_commit_guard
  init_producer_id_guard end_txn_loop_guard : txn.

Lemma send_offsets_guard fuel offsets g : stable guard_rel (send_offsets_to_transaction fuel offsets g).
Proof.
  unfold send_offsets_to_transaction, add_offsets_to_txn, txn_offset_commit, coordinator_retry,
    invalid_state. stable_tac.
Qed.

Lemma register_guard fuel topic partition : stable guard_rel (register_in_send fuel topic partition).
Proof.
  unfold register_in_send, register_transaction_partition, coordinator_retry. stable_tac.
  apply modify_guard; intros p; case_match; try by left.
  right. by destruct f.
Qed.

(** What a whole operation does to the guards. *)
Definition keeps_guards {A} (m : @txn W Conn A) : Prop :=
  ∀ s a s', m s = Some (a, s') → guards_ok s.1 → guards_ok s'.1 ∧ guard_step s.1 s'.1.

Lemma stable_keeps_guards {A} (m : @txn W Conn A) : stable guard_rel m → keeps_guards m.
Proof.
  intros Hm s a s' H Hok. apply Hm in H. split; [by eapply guards_ok_rel|apply H].
Qed.

(** The ends of an operation that started in [p]: the state it started in
    again, a state with a live guard, or a resolved guard. *)
Definition ends_well p p' : Prop :=
  guard_step p p' ∧
  (quiet (txn_state p') = true → txn_state p' = txn_state p ∨ txn_guard_generation p' mod 2 = 0).

Lemma ends_well_ok p p' : guards_ok p → ends_well p p' → guards_ok p' ∧ guard_step p p'.
Proof. intros Hok [G S]. split; [by eapply guards_ok_step|done]. Qed.

Lemma ends_well_resolved p p' : guard_step p p' → ends_well p (resolve_transaction_guard p').
Proof.
  intros G. split; [eapply guard_step_trans; [exact G|apply resolve_step]|].
  intros _. right. apply resolve_even.
Qed.

Lemma recovery_guard p : txn_guard_generation (require_transaction_recovery p) = txn_guard_generation p.
Proof. unfold require_transaction_recovery. by case_match. Qed.

Lemma apply_end_txn_guard e p p1 w1 r p' w' :
  guard_step p p1 →
  apply_end_txn e (txn_state p) (p1, w1) = Some (r, (p', w')) → ends_well p p'.
Proof.
  intros G H. unfold apply_end_txn, fail_with, fatal_error, abortable_error in H.
  assert (∀ q s, txn_guard_generation q = txn_guard_generation p1 →
    (s = txn_state p ∨ quiet s = false) → ends_well p (set_state s q)) as Hset.
  { intros q s Eq Hs. split; simpl; [|destruct Hs as [->|Hs]; [by left|congruence]].
    unfold guard_step in *. simpl. by rewrite Eq. }
  destruct e as [[[] id]|e]; txn_inv;
    try (by apply Hset; rewrite ?recovery_guard; auto).
  - apply ends_well_resolved. destruct id as [i|]; [|done]. unfold adopt_transactional_identity.
    by case_match.
  - by apply ends_well_resolved.
  - by apply ends_well_resolved.
Qed.

Lemma end_transaction_guard fuel committed : keeps_guards (end_transaction fuel committed).
Proof.
  intros [p w] r [p' w'] H Hok. apply ends_well_ok; [done|]. simpl.
  unfold end_transaction, invalid_state in H.
  apply txn_bind_some in H as (? & ? & [= <- <-] & H).
  assert (ends_well p p) as Hsame by (split; by left).
  destruct (transactional_id (cfg p)) as [tid|]; [|by txn_inv].
  destruct (fatal_error_state p); [by txn_inv|].
  destruct (negb _); [by txn_inv|]. txn_inv.
  assert (∀ s, stable guard_rel (drain_for_end s)) as Hdrain
    by (intros; unfold drain_for_end; stable_tac).
  match goal with Hd : drain_for_end _ _ = Some (?d, _) |- _ =>
    apply Hdrain in Hd as [Hg _]; destruct d as [u|e] end; simpl in Hg.
  2: { unfold restore in H. txn_inv. split; simpl; [exact Hg|by left]. }
  txn_inv. match type of H with context [match txn_coord_client ?q with _ => _ end] =>
    destruct (txn_coord_client q) as [c|] end.
  2: { unfold restore in H. txn_inv. split; simpl; [exact Hg|by left]. }
  match type of H with context [let '(_, _) := ?x in _] => destruct x as [pid epoch] end.
  unfold send_end_txn_until_decided in H. txn_inv.
  eapply apply_end_txn_guard; [|exact H].
  match goal with Hl : end_txn_loop _ _ _ _ _ _ _ _ _ = Some _ |- _ =>
    apply end_txn_loop_guard in Hl as [Hg2 _] end. simpl in Hg2.
  eapply guard_step_trans; [|exact Hg2]. exact Hg.
Qed.

Lemma complete_transaction_guard fuel q : keeps_guards (complete_transaction fuel q).
Proof.
  intros s r s' H Hok. unfold complete_transaction, invalid_state in H.
  destruct s as [p w]. apply txn_bind_some in H as (? & ? & [= <- <-] & H).
  assert (guard_step p p) by (by left).
  destruct (fatal_error_state p); [by txn_inv|]. case_bool_decide; [by txn_inv|].
  by eapply end_transaction_guard.
Qed.

Lemma prepare_transaction_guard : keeps_guards prepare_transaction.
Proof.
  intros [p w] r [p' w'] H Hok. apply ends_well_ok; [done|]. simpl.
  unfold prepare_transaction, invalid_state, restore in H.
  apply txn_bind_some in H as (? & ? & [= <- <-] & H).
  assert (ends_well p p) as Hsame by (split; by left).
  destruct (transactional_id (cfg p)) as [tid|]; [|by txn_inv].
  destruct (negb _); [by txn_inv|]. destruct (fatal_error_state p); [by txn_inv|].
  destruct (txn_recovery_required p); [by txn_inv|]. case_bool_decide; [by txn_inv|].
  txn_inv. match goal with Hf : flush_wait _ = (?f, _) |- _ => destruct f end;
    [|txn_inv; split; simpl; by left].
  txn_inv. destruct (transaction_error_state _); [txn_inv; split; simpl; by left|].
  match type of H with context [let '(_, _) := ?x in _] => destruct x as [pid epoch] end.
  destruct (PreparedTransactionState_new pid epoch); [|txn_inv; split; simpl; by left].
  txn_inv. apply ends_well_resolved. by left.
Qed.

Lemma install_identity_guard p c response recovered p1 w1 r p' w' :
  guard_step p p1 →
  install_identity c response recovered (p1, w1) = Some (r, (p', w')) → ends_well p p'.
Proof.
  intros G H. unfold install_identity in H. txn_inv. apply ends_well_resolved.
  unfold guard_step in *. simpl. unfold adopt_transactional_identity. by case_match.
Qed.

Lemma initialize_guard fuel tid keep dl : stable guard_rel (initialize fuel tid keep dl).
Proof. unfold initialize, find_txn_coordinator. stable_tac. Qed.

Lemma init_transactions_guard fuel keep :
  keeps_guards (init_transactions_with_keep_prepared fuel keep).
Proof.
  intros [p w] r [p' w'] H Hok. apply ends_well_ok; [done|]. simpl.
  unfold init_transactions_with_keep_prepared, invalid_state, restore in H.
  apply txn_bind_some in H as (? & ? & [= <- <-] & H).
  assert (ends_well p p) as Hsame by (split; by left).
  destruct (transactional_id (cfg p)) as [tid|]; [|by txn_inv].
  destruct (fatal_error_state p); [by txn_inv|]. destruct (negb _); [by txn_inv|].
  txn_inv. match goal with Hi : initialize _ _ _ _ _ = Some (?x, (?q, _)) |- _ =>
    apply initialize_guard in Hi as [Hg Hs]; rename q into p1; destruct x as [[c resp]|e] end;
    simpl in Hg, Hs.
  - destruct (_ =? 0).
    + destruct (_ && _); [|by eapply install_identity_guard].
      case_match; [by eapply install_identity_guard|]. txn_inv. split; simpl; [exact Hg|by left].
    + assert (∀ q, guard_step p1 q → txn_state q = StateFenced ∨ txn_state q = StateFatalError →
        ends_well p q) as Hfat.
      { intros q Hq Hsq. split; [eapply guard_step_trans; [exact Hg|exact Hq]|].
        destruct Hsq as [-> | ->]; done. }
      unfold fail_with, fence_transaction, fatal_transaction, fatal_error in H.
      case_match; txn_inv; try (split; simpl; [exact Hg|by left]);
        (apply Hfat; [|rewrite resolve_state; simpl; auto]);
        (eapply guard_step_trans; [|apply resolve_step]); by left.
  - txn_inv. match type of H with context [match fatal_error_state ?q with _ => _ end] =>
      destruct (fatal_error_state q) end; txn_inv; [|split; simpl; [exact Hg|by left]].
    split; [exact Hg|]. destruct Hs as [-> |Hs]; [done|]. congruence.
Qed.

(** One operation of the API other than the begin of a transaction. *)
Inductive api_step : relation (Producer Conn * W) :=
| step_end fuel committed r s s' :
  end_transaction fuel committed s = Some (r, s') → api_step s s'
| step_complete fuel q r s s' : complete_transaction fuel q s = Some (r, s') → api_step s s'
| step_prepare r s s' : prepare_transaction s = Some (r, s') → api_step s s'
| step_init fuel keep r s s' :
  init_transactions_with_keep_prepared fuel keep s = Some (r, s') → api_step s s'
| step_offsets fuel offsets g r s s' :
  send_offsets_to_transaction fuel offsets g s = Some (r, s') → api_step s s'
| step_send fuel topic partition r s s' :
  register_in_send fuel topic partition s = Some (r, s') → api_step s s'.

Lemma api_step_guard s s' : api_step s s' → guards_ok s.1 → guards_ok s'.1 ∧ guard_step s.1 s'.1.
Proof.
  intros Hstep Hok. destruct Hstep;
    [eapply end_transaction_guard|eapply complete_transaction_guard|eapply prepare_transaction_guard
    |eapply init_transactions_guard|eapply (stable_keeps_guards _ (send_offsets_guard _ _ _))
    |eapply (stable_keeps_guards _ (register_guard _ _ _))]; eassumption.
Qed.

Lemma api_steps_guard s s' :
  rtc api_step s s' → guards_ok s.1 → guards_ok s'.1 ∧ guard_step s.1 s'.1.
Proof.
  induction 1 as [s|s s1 s' H1 _ IH]; intros Hok; [by split; [|left]|].
  destruct (api_step_guard _ _ H1 Hok) as [Hok1 G1]. destruct (IH Hok1) as [Hok2 G2].
  split; [done|by eapply guard_step_trans].
Qed.

Lemma begin_ok_inv (s : Producer Conn * W) t s' :
  begin_transaction s = Some (Ok t, s') →
  txn_state s.1 = Ready ∧ txn_recovery_required s.1 = false ∧
  s' = (set_guard_generation (next_u64 (txn_guard_generation s.1)) (set_state InTransaction s.1), s.2)
  ∧ t = mkTransaction false (next_u64 (txn_guard_generation s.1)).
Proof.
  destruct s as [p w]. unfold begin_transaction, begin_transaction_state. intros H.
  unfold mbind, txn_bind in H. simpl in H.
  destruct (transactional_id (cfg p)); [|done]. destruct (fatal_error_state p); [done|].
  destruct (txn_recovery_required p) eqn:Er; [done|].
  unfold begin_transaction_locked in H. destruct (txn_state p) eqn:Es; simpl in H; simplify_eq.
  apply ret_some in H as [Ht ->]. injection Ht as ->. by split_and!.
Qed.

(** The guards of two consecutive transactions. *)
Lemma next_guard_differs (s s1 s2 s3 : Producer Conn * W) t t2 :
  guards_ok s.1 → begin_transaction s = Some (Ok t, s1) → rtc api_step s1 s2 →
  begin_transaction s2 = Some (Ok t2, s3) →
  guard_generation t2 ≠ guard_generation t ∧
  txn_guard_generation s3.1 = guard_generation t2 ∧ finished t2 = false.
Proof.
  intros Hok Hb Hrun Hb2.
  apply begin_ok_inv in Hb as (Hready & _ & -> & ->).
  apply begin_ok_inv in Hb2 as (Hready2 & _ & -> & ->). simpl.
  destruct Hok as [Hr Hq]. rewrite Hready in Hq. specialize (Hq eq_refl).
  pose proof (next_u64_parity _ Hr) as [Hpar Hr1].
  destruct (api_steps_guard _ _ Hrun) as [[Hr2 Hq2] G].
  { split; simpl; [done|]. done. }
  rewrite Hready2 in Hq2. specialize (Hq2 eq_refl). split_and!; [|done|done].
  unfold guard_step in G. simpl in G. intros E.
  destruct G as [G|[Hodd G]].
  - rewrite G, Hpar in Hq2. revert Hq Hq2. Z.div_mod_to_equations. lia.
  - rewrite G in E. revert E Hr Hr1. unfold next_u64.
    change (2 ^ 64) with 18446744073709551616. Z.div_mod_to_equations. lia.
Qed.

Lemma drop_live p t :
  finished t = false → txn_guard_generation p = guard_generation t →
  txn_recovery_required (Transaction_drop t p) = true.
Proof.
  intros Hf Hg. unfold Transaction_drop, abandon_transaction_guard. rewrite Hf, Hg, Z.eqb_refl.
  apply recovery_set.
Qed.

Lemma drop_stale p t :
  txn_guard_generation p ≠ guard_generation t → Transaction_drop t p = p.
Proof.
  intros Hg. unfold Transaction_drop, abandon_transaction_guard.
  rewrite (proj2 (Z.eqb_neq _ _)) by done. by destruct (finished t).
Qed.

End guards.

(** ** A fatal error stops every operation *)

Section fatal.
Context {W Conn : Type} `{TW : !TxnWorld W Conn}.

(** a fatal error stops the transactional producer. Once the slot holds a
    fence or a fatal code, beginning, preparing, completing, committing or
    aborting, initializing and sending offsets all return that error at once,
    without a request and without any change of the state, and an append is
    refused with it. *)
Theorem fatal_error_stops_everything (p : Producer Conn) (w : W) e fuel committed q keep offsets g s :
  transactional_id (cfg p) ≠ None → fatal_error_state p = Some e →
  begin_transaction (p, w) = Some (Err e, (p, w)) ∧
  end_transaction fuel committed (p, w) = Some (Err e, (p, w)) ∧
  complete_transaction fuel q (p, w) = Some (Err e, (p, w)) ∧
  init_transactions_with_keep_prepared fuel keep (p, w) = Some (Err e, (p, w)) ∧
  send_offsets_to_transaction fuel offsets g (p, w) = Some (Err e, (p, w)) ∧
  (two_phase_commit_enabled (cfg p) = true → prepare_transaction (p, w) = Some (Err e, (p, w))) ∧
  append_transaction_generation p (Some s) = Err e.
Proof.
  intros Htid He.
  unfold begin_transaction, begin_transaction_state, end_transaction, complete_transaction,
    init_transactions_with_keep_prepared, send_offsets_to_transaction, prepare_transaction,
    append_transaction_generation, transaction_error_state, mbind, txn_bind. simpl.
  destruct (transactional_id (cfg p)); [|done]. rewrite He. split_and!; try done.
  by intros ->.
Qed.
End fatal.

Lemma fatal_error_stops_everything_witness :
  let p := set_error (set_fatal TxnErrorSlot_default FatalFenced) Sim.producer in
  let w := Sim.mkWorld 0 0 false [] in
  end_transaction 9 true (p, w) = Some (Err ProducerError.FencedProducer, (p, w)).
Proof.
  intros p w.
  apply (fatal_error_stops_everything p w ProducerError.FencedProducer 9 true
    PreparedTransactionState_default false [] (mkGroupMetadata "g" 0 "m" None) Ready);
    [done|reflexivity].
Defined.

(** ** What a caller may conclude *)

(** C1: the state the producer ends in after a commit or an abort tells the
    outcome, for every coordinator that answers [NONE] when it has carried
    out the request and another code when the request changed nothing,
    whatever attempts break in transport, as long as the lookups of the
    coordinator are allowed. In [Ready] the result was carried out; back in
    the state before, in [Fenced] or in [FatalError] it was not; only
    [RecoveryRequired], which blocks every use until a new initialization,
    leaves it open. *)
Theorem end_transaction_outcome {W Conn : Type} `{TW : !TxnWorld W Conn} (applied : W → bool)
    fuel committed (p : Producer Conn) (w : W) r p' w' :
  outcome_laws applied → lookups_allowed (W := W) (Conn := Conn) →
  transactional_id (cfg p) ≠ None → fatal_error_state p = None →
  in_flight (txn_state p) = true → applied w = false →
  end_transaction fuel committed (p, w) = Some (r, (p', w')) →
  end_outcome (txn_state p) r p' (applied w').
Proof. intros laws ??????. by eapply (end_transaction_outcome_holds applied laws). Qed.

(** A connection that breaks after the coordinator committed: the retry gets
    [CONCURRENT_TRANSACTIONS] and then [NONE]. *)
Lemma end_transaction_outcome_witness :
  let w := Sim.mkWorld 0 0 false [Sim.BreakAfter; Sim.Reply 51; Sim.Reply 0] in
  ∃ s', end_transaction 9 true (Sim.producer, w) = Some (Ok tt, s') ∧
    txn_state s'.1 = Ready ∧ Sim.applied s'.2 = true.
Proof.
  intros w.
  destruct (end_transaction 9 true (Sim.producer, w)) as [[r [p' w']]|] eqn:E;
    [|vm_compute in E; discriminate].
  pose proof (end_transaction_outcome Sim.applied 9 true Sim.producer w r p' w'
    Sim.sim_outcome_laws Sim.sim_lookups_allowed ltac:(done) eq_refl eq_refl eq_refl E) as H.
  exists (p', w'). vm_compute in E. injection E as <- <- <-.
  destruct H as [_ H]. split; [reflexivity|]. split; [reflexivity|exact H].
Defined.

(** after an attempt that was lost, but carried out, a lookup that the broker
    refuses with [TRANSACTIONAL_ID_AUTHORIZATION_FAILED] makes the commit
    report a fatal error, although the transaction is committed. *)
Theorem fatal_refusal_after_lost_commit :
  let w := Sim.mkWorld 53 0 false [Sim.BreakAfter] in
  ∃ s', end_transaction 9 true (Sim.producer, w)
          = Some (Err (ProducerError.FatalTransactionError 53), s') ∧
    Sim.applied s'.2 = true.
Proof. eexists. split; [vm_compute; reflexivity|reflexivity]. Qed.



(** a guard concerns its own transaction only. Dropping the guard of a
    transaction that is still open makes the producer require recovery; but
    after a transaction was committed, aborted, prepared or initialized away
    and a next one was begun, dropping the old guard changes nothing, and
    the new guard still protects the new transaction. *)
Theorem stale_guard_harmless {W Conn : Type} `{TW : !TxnWorld W Conn}
    (s s1 s2 s3 : Producer Conn * W) t t2 :
  guards_ok s.1 → begin_transaction s = Some (Ok t, s1) → rtc api_step s1 s2 →
  begin_transaction s2 = Some (Ok t2, s3) →
  txn_recovery_required (Transaction_drop t s1.1) = true ∧
  Transaction_drop t s3.1 = s3.1 ∧
  txn_recovery_required (Transaction_drop t2 s3.1) = true.
Proof.
  intros Hok Hb Hrun Hb2.
  destruct (next_guard_differs s s1 s2 s3 t t2) as (Hne & Hg & Hfin); try done.
  split_and!.
  - apply begin_ok_inv in Hb as (_ & _ & -> & ->). by apply drop_live.
  - apply drop_stale. congruence.
  - by apply drop_live.
Qed.

Lemma stale_guard_harmless_witness :
  let w := Sim.mkWorld 0 0 false [] in
  let ready := set_state Ready (set_guard_generation 4 Sim.producer) in
  let begun g := set_guard_generation g (set_state InTransaction ready) in
  Transaction_drop (mkTransaction false 5) (begun 7) = begun 7 ∧
  txn_recovery_required (Transaction_drop (mkTransaction false 7) (begun 7)) = true.
Proof.
  intros w ready begun.
  apply (stale_guard_harmless (ready, w) (begun 5, w)
    (set_guard_generation 6 ready, Sim.mkWorld 0 0 true [])
    (begun 7, Sim.mkWorld 0 0 true []) (mkTransaction false 5) (mkTransaction false 7)).
  - split; simpl; [lia|done].
  - reflexivity.
  - apply rtc_once. apply (step_end 9 false (Ok tt)). vm_compute. reflexivity.
  - reflexivity.
Defined.
